(* ===== verification/_CoqProject ===== *)
-Q . S2P
Prelude.v
Bytes.v
Superblock.v
FreePages.v
Wal.v
Decimal.v
Types.v
Codec.v
Rle.v
Constant.v
BitpackFor.v
Dictionary.v
Encodings.v
Budget.v
Schema.v
TxnLog.v
Backend.v
PageCache.v
PageAlloc.v
Pager.v
Catalog.v
Overlay.v
View.v
Csr.v
CsrCodec.v
RelTable.v
CsrPages.v
RelRemap.v
RelRebuild.v
RelCheckpoint.v
RelScan.v
RelMerge.v
NodeTable.v
Checkpoint.v
Lookup.v
Resolve.v
Txn.v
Staging.v
Facade.v
Commit.v
Isolation.v
Progress.v
Recovery.v
F64.v
Expr.v
Typing.v
Eval.v
EvalFloat.v
EvalRow.v
EvalSound.v
Spill.v
Sorting.v
Operators.v
SortOp.v
SortMerge.v
SortSpec.v
AggState.v
AggregateOp.v
AggSpec.v
AggTyped.v
AggSpill.v
AggMerge.v
AggregateSpec.v
