(* ===== verification/Prelude.v ===== *)
(** * devondb: a verification of its storage, transactions and execution core

    devondb is an embedded property-graph database written in Rust
    (src/crates).  This library models, as executable definitions, the layers
    that its durability, its isolation and its exactness rest on, and proves
    what they promise.

    ** The program and the files that model it

    - Values, crate [devondb-types].  [Decimal.v] is decimal.rs (128-bit
      fixed-point arithmetic, rounding, text); [Types.v] is logical_type.rs,
      value.rs and column.rs (values, typed columns, validity bitmaps);
      [Schema.v] is schema.rs (identifier folding, suggestions, validation).
    - Bytes on disk, crate [devondb-storage].  [Superblock.v] is superblock.rs
      (the slot header, its gates, the arbitration of the two slots);
      [FreePages.v] is free_pages.rs; [Wal.v] is wal.rs (framing, replay,
      torn-tail repair, the poisoned writer); [TxnLog.v] is txn_log.rs (payload
      codec, transaction order, grouping of committed records).
    - Column encodings, node_group/encodings.  [Codec.v] states the interface
      [ValuesCodec] of mod.rs; [Rle.v], [Constant.v], [BitpackFor.v] and
      [Dictionary.v] are the modules of that name, each with its instance;
      [Encodings.v] is the registry and the COLUMN_ENCODINGS section of
      node_group.rs, proved against the interface.
    - Memory and pages.  [Budget.v] is budget.rs, sequentially and as an
      interleaving of compare-exchange loops; [Backend.v] is backend.rs (the
      class [PagerBackend] is the trait, [MemoryBackend] an instance);
      [PageCache.v], [PageAlloc.v] and [Pager.v] are pager.rs: the clock cache,
      the searches of page reuse, and creation, opening, page reads and writes,
      tail allocation and both superblock commits.
    - Catalog and commits.  [Catalog.v] is catalog.rs in memory; [Overlay.v] is
      overlay.rs (commit chain, deltas, net effects, insert slots); [View.v],
      [Lookup.v] and [Resolve.v] are the readers of database/view.rs (scans,
      rows by key, offsets by key) with the key indexes of overlay.rs.
    - Node tables.  [NodeTable.v] is node_table.rs and the groups of
      node_group.rs in memory; [Checkpoint.v] the node half of
      database/checkpoint.rs and the proofs about both.
    - Relationships.  [Csr.v], [CsrCodec.v] and [CsrPages.v] are csr_group.rs:
      groups in memory, the bytes of their arrays, and groups on pages with
      their directory.  [RelTable.v] is rel_table.rs with
      rel_table/property_neighbors.rs: buffered edges, traversals, the
      checkpoint with and without a renumbering of the nodes.  [RelRemap.v]
      (renumberings and layouts), [RelRebuild.v] (the loops that rebuild one
      direction), [RelCheckpoint.v] and [RelMerge.v] (the two checkpoints)
      hold its proofs; [RelScan.v] is the scan cursor.
    - Write transactions, crate [devondb].  [Txn.v] is txn.rs and the statement
      half of database/commit.rs, [Staging.v] its proofs, [Facade.v] the same
      over the real caches and budget; [Commit.v] is the commit itself,
      [Isolation.v] and [Progress.v] the system of concurrent writers;
      [Recovery.v] is database/recovery.rs.
    - Execution, crates [devondb-plan] and [devondb-exec].  [F64.v] is the
      floating point used; [Expr.v] is expr.rs and chunk.rs; [Typing.v] is
      typing.rs; [Eval.v] is eval.rs, with [EvalFloat.v], [EvalRow.v] and
      [EvalSound.v] its proofs; [Operators.v], [Spill.v], [Sorting.v] and
      [SortOp.v] are the streaming operators, the spill codec, the merge sort
      and the blocking sort of operators.rs, with [SortMerge.v] and
      [SortSpec.v] the proofs about the last.  [AggState.v] and
      [AggregateOp.v] are its aggregation: the states of the aggregates, and
      the operator with its streaming, typed, buffered and spilled paths.
      [AggSpec.v] says what an aggregation means and relates the path in
      memory to it, [AggTyped.v] the typed paths, [AggSpill.v] and
      [AggMerge.v] the runs and their merge; [AggregateSpec.v] puts them
      together.

    [Prelude.v] (this file) holds errors and outcomes, loops, machine-integer
    ranges and the shared automation; [Bytes.v] byte strings, slices, page
    updates, CRC-32C and the byte-wise order of strings.

    ** How the parts interact

    A transaction validates statements against its snapshot ([View], [Lookup],
    [Resolve]) and stages them in a write set ([Txn]).  A commit checks it
    against the summaries of later commits, appends its records ([TxnLog]) to
    the log ([Wal]) and publishes a delta at the head of the chain ([Commit],
    [Overlay]).  A checkpoint folds the chain into node groups ([NodeTable],
    [Checkpoint]) and CSR groups ([RelTable] over [CsrPages]), renumbering
    relationships when nodes were deleted, and flips the superblock ([Pager]
    over [Superblock], [FreePages], [Backend]).  Pages are read through the
    cache ([PageCache]) charged to the [Budget]; column payloads go through
    the encodings.  Opening a database replays the log above the checkpoint
    ([Recovery]).  Queries pull chunks through operators whose expressions
    [Eval] evaluates column by column.

    Components meet at classes, so that clients are proved against an
    interface: [ValuesCodec] (encodings), [PagerBackend] (byte stores),
    [GroupStore] (persisted node groups), [CsrStore] (persisted CSR groups;
    discharged by [CsrPages.v] from [PageStore], what the pager promises, and
    [StoreEnv], the sizes of an endpoint's node groups), [TxnEnv] with
    [LawfulEnv] (what a transaction asks of key resolution and budget;
    discharged in [Facade.v]), [CommitEnv] (checkpoint relief and budget of a
    commit), [TotalCompare] (comparisons a merge sort may use).

    ** Conventions

    A w-bit integer is a [Z] with its range written as [in_u w] or [in_i w];
    checked arithmetic goes through [try_u]/[try_i], wrapping through [wrap_u].
    A byte is a [Z], a byte string a [list Z]; a float is its bit pattern.
    Every fallible operation returns an [outcome]: a value, a [DevonError], or
    [Panic] for what would abort the Rust code (index or slice out of range,
    failed assertion).  Operations with state return the state they leave next
    to the outcome, on error paths too; where a store is threaded through many
    calls this is the monad [SM].  Error messages are the source's format
    strings with their placeholders.

    Code outside the repository is a parameter with named laws, each with a
    concrete instance at which the theorems are exercised: [Crc32c] (the
    crc32c crate; instance [castagnoli]), [SerdeJson] (serde_json; instance
    [tagged_json]), [FloatEnv] (the bits of a NaN result), [SortUnstable] (the
    order in which the standard library's unstable sort leaves equal elements;
    instance [insertion_sort]), [Sizes] (the compiler's struct sizes), and the
    function [powi10] (the bits of a floating-point power of ten).  What the rest of the
    process decides is an oracle the theorems quantify over: [grants] (the
    answer of the shared budget to the n-th request), [run_io] (which file
    operation fails), [subquery_rows] (the rows of a correlated subquery).

    Bounds and fuel.  Loops are [for_each] over the iterated list, or
    structural recursion.  Where the source has an open loop, the model carries
    a number of rounds and the totality theorem says that it is never used up:
    two loops of the page cache have one round more than there are frames (the
    clock sweep has the source's own two rounds); the WAL reader recurses on
    the bytes left; pulling a source has one round more than results are left;
    the merge sort has the length of its input; filling an output chunk has
    [CHUNK_CAPACITY] rounds; the loop over groups has one round per row, and
    collecting the records of a merged group as many as bytes and rows are left; a drained relationship scan has one more than
    there are edges.

    ** What is proved

    - Transactions: the rows a transaction sees are those of its statements run
      one after the other on the snapshot; concurrent commits follow
      first-committer-wins, and a refusal means that another one committed;
      what a commit logged is recovered, and a recovered state shows every
      reader what the published one did.  A commit that fails half-way can leave
      a log that recovery refuses (proved in general), and so can one that mixes
      plain and detaching deletes (shown on an example).
    - Readers: the slot reader, the streaming scan and the key lookups agree
      with one abstract table, whatever caches are built, refused or shed; the
      offset of a key is the slot in which a reader shows it.
    - Checkpoints: no visible row of a node table changes, or the checkpoint is
      refused where compaction is forbidden; every traversal of a
      relationship table gives what it gave before, renumbered when nodes
      were deleted; a scan is the union of the traversals; a CSR group reads
      back from its pages as it was written.
    - The log: replay returns what was appended; any truncation or damaged tail
      is repaired to a prefix of whole records; grouping recovers exactly the
      committed transactions above the checkpoint.
    - The pager: create then open, commit then reopen, atomicity of a crash at
      any byte of a commit or a flags publication (under a hypothesis on that
      one write: the header CRC distinguishes the torn header from the old and
      the new one); reads through the cache equal reads without it; the
      searches of page reuse are optimal; the cache and the budget account for
      every frame, also under interleaving.
    - The codecs: every encoding decodes to the column it encoded, and no
      decoder panics on any input; formats round-trip and are canonical.
    - Types: decimal arithmetic is exact or refused; printing and parsing are
      inverse (with one exception, proved); whatever catalog the operations
      built passes the checks of loading.
    - Execution: columnar evaluation is row-wise evaluation, errors included; a
      well-typed expression never panics and yields its type; pipelines of
      streaming operators compute the list functions they stand for; the
      blocking sort delivers the stable sort of its input wherever it
      spills; the aggregation delivers one row per key in key order, each
      aggregate that of its group ([percentile_cont] the median), on every
      path.

    ** Not modelled, and why

    - Planned next: the fsst and alp encodings and the encoding selection; the
      plain payload, zone maps and page directory of node_group.rs (persisting
      a group is [GroupStore]); the page encoding of the catalog; ledger scans,
      retirement and compaction rounds of the pager; compaction and bulk load;
      scans, joins and expansion operators;
      the text parser and printer, plan validation and the optimizer; geo
      cells.
    - Of rel_table.rs, the working-set estimate of property reads and the text
      of the blocked-checkpoint error; of the facade, sessions, options,
      publication of metadata and index builds, and the checkpoint schedule.
    - Outside a shallow model: approximate vector search and full-text
      tokenization, whose correctness is a matter of quality; the
      natural-language templates; Arrow buffers; the CLI, the server and the C
      and Python bindings; the local file, pack and object-storage backends,
      directory syncs and process locks, which are operating-system calls.
      Mutex poisoning, and thread scheduling outside the budget and the system
      of writers, are left out: the writer mutex serializes the rest. *)

From stdpp Require Export base list numbers strings gmap.
From Stdlib Require Export ZArith Lia.

#[global] Open Scope Z_scope.

(** ** Errors and outcomes *)

(** [DevonError] of [devondb-types/src/error.rs].  A [context] is the text of
    the message the source builds; where the source interpolates values, it is
    the format string itself, with its placeholders. *)
Inductive DevonError :=
| Io (what : string)
| Corrupt (context : string)
| VersionMismatch (file_version min_reader_version supported : Z)
| InvalidArgument (context : string)
| NotFound (what : string)
| TransactionConflict (context : string)
| BudgetExceeded (context : string)
| ReadOnly (context : string)
| Busy (context : string).

#[export] Instance DevonError_eq_dec : EqDecision DevonError.
Proof. solve_decision. Defined.

(** The outcome of a Rust call: a [Result], or a panic (an out-of-range index,
    a slice length mismatch, an [assert!], an overflow in a checked build). *)
Inductive outcome (A : Type) :=
| Ok (a : A)
| Err (e : DevonError)
| Panic.
Arguments Ok {A} a.
Arguments Err {A} e.
Arguments Panic {A}.

Definition bind {A B} (m : outcome A) (k : A → outcome B) : outcome B :=
  match m with
  | Ok a => k a
  | Err e => Err e
  | Panic => Panic
  end.

Definition map_err {A} (f : DevonError → DevonError) (m : outcome A) : outcome A :=
  match m with Err e => Err (f e) | _ => m end.

Definition ok_or {A} (o : option A) (e : DevonError) : outcome A :=
  match o with Some a => Ok a | None => Err e end.

Definition expect {A} (o : option A) : outcome A :=
  match o with Some a => Ok a | None => Panic end.

Definition is_ok {A} (m : outcome A) : bool :=
  match m with Ok _ => true | _ => false end.

Declare Scope devon_scope.
Delimit Scope devon_scope with devon.

Notation "'let!' x ':=' m 'in' k" := (bind m (λ x, k))
  (at level 200, x pattern, m at level 100, k at level 200,
   format "'[v' 'let!'  x  ':='  m  'in' '/' k ']'") : devon_scope.
Notation "'check!' b 'else' e 'in' k" := (if b then k else Err e)
  (at level 200, b at level 100, e at level 100, k at level 200,
   format "'[v' 'check!'  b  'else'  e  'in' '/' k ']'") : devon_scope.

#[global] Open Scope devon_scope.

(** A [for] loop over [xs] with state [s] and early return. *)
Fixpoint for_each {A S} (xs : list A) (s : S) (body : S → A → outcome S) : outcome S :=
  match xs with
  | [] => Ok s
  | x :: xs => let! s' := body s x in for_each xs s' body
  end.

(** Code that changes a store [W] and can fail: the store is kept on errors. *)
Definition SM (W A : Type) : Type := W → outcome A * W.

Definition sret {W A} (a : A) : SM W A := λ w, (Ok a, w).
Definition sbind {W A B} (m : SM W A) (k : A → SM W B) : SM W B := λ w,
  match m w with
  | (Ok a, w) => k a w
  | (Err e, w) => (Err e, w)
  | (Panic, w) => (Panic, w)
  end.
Definition slift {W A} (m : outcome A) : SM W A := λ w, (m, w).

Notation "'let+' x := m 'in' k" := (sbind m (λ x, k)) (at level 200, x pattern, m at level 100, k at level 200) : devon_scope.

Fixpoint sfor {W A S} (xs : list A) (s : S) (body : S → A → SM W S) : SM W S :=
  match xs with
  | [] => sret s
  | x :: xs => let+ s := body s x in sfor xs s body
  end.

Lemma sbind_Ok {W A B} (m : SM W A) (k : A → SM W B) s b s' :
  sbind m k s = (Ok b, s') ↔ ∃ a s1, m s = (Ok a, s1) ∧ k a s1 = (Ok b, s').
Proof. unfold sbind. destruct (m s) as [[a| |] s1]; naive_solver. Qed.

(** [iter().map(f).collect::<Result<Vec<_>>>()]. *)
Fixpoint collect {A B} (f : A → outcome B) (xs : list A) : outcome (list B) :=
  match xs with
  | [] => Ok []
  | x :: xs => let! y := f x in let! ys := collect f xs in Ok (y :: ys)
  end.

Lemma bind_Ok {A B} (m : outcome A) (k : A → outcome B) b :
  bind m k = Ok b ↔ ∃ a, m = Ok a ∧ k a = Ok b.
Proof. destruct m; simpl; naive_solver. Qed.

Lemma bind_Panic {A B} (m : outcome A) (k : A → outcome B) :
  bind m k = Panic ↔ m = Panic ∨ ∃ a, m = Ok a ∧ k a = Panic.
Proof. destruct m; simpl; naive_solver. Qed.

Lemma bind_assoc {A B C} (m : outcome A) (k : A → outcome B) (h : B → outcome C) :
  bind (bind m k) h = bind m (λ a, bind (k a) h).
Proof. by destruct m. Qed.

Lemma bind_ext {A B} (m : outcome A) (k k' : A → outcome B) : (∀ a, k a = k' a) → bind m k = bind m k'.
Proof. intros H. destruct m; simpl; auto. Qed.

Lemma ok_or_Ok {A} (o : option A) e a : ok_or o e = Ok a ↔ o = Some a.
Proof. destruct o; simpl; naive_solver. Qed.

Lemma ok_or_no_panic {A} (o : option A) e : ok_or o e ≠ Panic.
Proof. by destruct o. Qed.

Lemma for_each_app {A S} (xs ys : list A) (s : S) body :
  for_each (xs ++ ys) s body = let! s' := for_each xs s body in for_each ys s' body.
Proof.
  revert s. induction xs as [|x xs IH]; intros s; [done|]. simpl.
  destruct (body s x); simpl; [apply IH | done..].
Qed.

(** Loop invariants: a property of the state that every iteration keeps. *)
Lemma for_each_inv {A S} (I : S → Prop) (xs : list A) s s' body :
  I s → (∀ x s1 s2, x ∈ xs → I s1 → body s1 x = Ok s2 → I s2) →
  for_each xs s body = Ok s' → I s'.
Proof.
  revert s. induction xs as [|x xs IH]; simpl; intros s Hs Hstep.
  - naive_solver.
  - intros (s1 & H1 & H2)%bind_Ok. eapply IH; [|by intros; eapply Hstep; eauto; set_solver|done].
    eapply Hstep; eauto. set_solver.
Qed.

Lemma for_each_no_panic {A S} (I : S → Prop) (xs : list A) s body :
  I s → (∀ x s1, x ∈ xs → I s1 → body s1 x ≠ Panic ∧ ∀ s2, body s1 x = Ok s2 → I s2) →
  for_each xs s body ≠ Panic.
Proof.
  revert s. induction xs as [|x xs IH]; simpl; intros s Hs Hstep; [done|].
  destruct (Hstep x s) as [Hp Hk]; [set_solver | done |].
  intros [?|(s1 & H1 & H2)]%bind_Panic; [done|].
  revert H2. eapply IH; [by apply Hk|]. intros; apply Hstep; [set_solver|done].
Qed.

Lemma collect_Ok {A B} (f : A → outcome B) xs ys :
  collect f xs = Ok ys ↔ Forall2 (λ x y, f x = Ok y) xs ys.
Proof.
  revert ys. induction xs as [|x xs IH]; intros ys; simpl.
  - split; [intros [= <-]; constructor | by intros ->%Forall2_nil_inv_l].
  - rewrite bind_Ok. split.
    + intros (y & Hy & (ys' & Hys & [= <-])%bind_Ok). constructor; [done|by apply IH].
    + intros (y & ys' & Hy & Hys & ->)%Forall2_cons_inv_l.
      exists y. split; [done|]. apply bind_Ok. exists ys'. split; [by apply IH|done].
Qed.

Lemma collect_no_panic {A B} (f : A → outcome B) xs :
  (∀ x, x ∈ xs → f x ≠ Panic) → collect f xs ≠ Panic.
Proof.
  induction xs as [|x xs IH]; simpl; intros Hf; [done|].
  intros [Hp|(y & Hy & [Hp|(ys & Hys & Hp)]%bind_Panic)]%bind_Panic; [|revert Hp|done].
  - apply (Hf x); [set_solver | done].
  - apply IH. intros z Hz. apply Hf. set_solver.
Qed.

(** ** Machine integers *)

(** An unsigned or signed integer of [w] bits, as a [Z] in its range. *)
Definition in_u (w x : Z) : Prop := 0 ≤ x < 2 ^ w.
Definition in_i (w x : Z) : Prop := - 2 ^ (w - 1) ≤ x < 2 ^ (w - 1).

Definition in_ub (w x : Z) : bool := (0 <=? x) && (x <? 2 ^ w).
Definition in_ib (w x : Z) : bool := (- 2 ^ (w - 1) <=? x) && (x <? 2 ^ (w - 1)).

Lemma in_ub_spec w x : in_ub w x = true ↔ in_u w x.
Proof. unfold in_ub, in_u. rewrite andb_true_iff, Z.leb_le, Z.ltb_lt. done. Qed.
Lemma in_ib_spec w x : in_ib w x = true ↔ in_i w x.
Proof. unfold in_ib, in_i. rewrite andb_true_iff, Z.leb_le, Z.ltb_lt. done. Qed.

#[export] Instance in_u_dec w x : Decision (in_u w x).
Proof. unfold in_u. apply _. Defined.
#[export] Instance in_i_dec w x : Decision (in_i w x).
Proof. unfold in_i. apply _. Defined.

(** [uN::try_from] and the [checked_*] operations: [None] out of range. *)
Definition try_u (w x : Z) : option Z := if in_ub w x then Some x else None.
Definition try_i (w x : Z) : option Z := if in_ib w x then Some x else None.

Lemma try_u_Some w x y : try_u w x = Some y ↔ y = x ∧ in_u w x.
Proof.
  unfold try_u. destruct (in_ub w x) eqn:E.
  - apply in_ub_spec in E. naive_solver.
  - split; [done|]. intros [_ H%in_ub_spec]. congruence.
Qed.
Lemma try_i_Some w x y : try_i w x = Some y ↔ y = x ∧ in_i w x.
Proof.
  unfold try_i. destruct (in_ib w x) eqn:E.
  - apply in_ib_spec in E. naive_solver.
  - split; [done|]. intros [_ H%in_ib_spec]. congruence.
Qed.
Lemma try_u_in w x : in_u w x → try_u w x = Some x.
Proof. intros. by apply try_u_Some. Qed.
Lemma try_i_in w x : in_i w x → try_i w x = Some x.
Proof. intros. by apply try_i_Some. Qed.
Lemma try_u_None w x : try_u w x = None ↔ ¬ in_u w x.
Proof. unfold try_u. rewrite <- in_ub_spec. destruct (in_ub w x); naive_solver. Qed.
Lemma try_i_None w x : try_i w x = None ↔ ¬ in_i w x.
Proof. unfold try_i. rewrite <- in_ib_spec. destruct (in_ib w x); naive_solver. Qed.

(** [wrapping] conversions ([as uN], [as iN]). *)
Definition wrap_u (w x : Z) : Z := x mod 2 ^ w.
Definition wrap_i (w x : Z) : Z :=
  let u := x mod 2 ^ w in if u <? 2 ^ (w - 1) then u else u - 2 ^ w.

Lemma wrap_u_small w x : in_u w x → wrap_u w x = x.
Proof. intros. by apply Z.mod_small. Qed.

Lemma wrap_i_small w x : 0 < w → in_i w x → wrap_i w x = x.
Proof.
  unfold in_i, wrap_i. intros Hw Hx.
  assert (2 ^ w = 2 * 2 ^ (w - 1)) as E.
  { rewrite <- Z.pow_succ_r by lia. f_equal. lia. }
  destruct (decide (0 ≤ x)).
  - rewrite (Z.mod_small x) by lia. rewrite (proj2 (Z.ltb_lt x _)); lia.
  - replace (x mod 2 ^ w) with (x + 2 ^ w).
    + rewrite (proj2 (Z.ltb_ge _ _)); lia.
    + rewrite <- (Z.mod_small (x + 2 ^ w) (2 ^ w)) by lia.
      rewrite <- (Z.mul_1_l (2 ^ w)) at 1. rewrite Z.mod_add; [done|]. lia.
Qed.

(** Lengths as integers. *)
Definition zlen {A} (l : list A) : Z := Z.of_nat (length l).

Lemma zlen_nonneg {A} (l : list A) : 0 ≤ zlen l.
Proof. unfold zlen. lia. Qed.
Lemma zlen_app {A} (l1 l2 : list A) : zlen (l1 ++ l2) = zlen l1 + zlen l2.
Proof. unfold zlen. rewrite length_app. lia. Qed.
Lemma zlen_cons {A} (x : A) l : zlen (x :: l) = 1 + zlen l.
Proof. unfold zlen. simpl. lia. Qed.

(** [u32::div_ceil] and friends on nonnegative operands. *)
Definition div_ceil (a b : nat) : nat := ((a + (b - 1)) / b)%nat.

(** [iter().enumerate()]. *)
Definition enumerate_from {A} (k : nat) (l : list A) : list (nat * A) := zip (seq k (length l)) l.
Definition enumerate {A} (l : list A) : list (nat * A) := enumerate_from 0 l.

Lemma enumerate_from_cons {A} k (x : A) l :
  enumerate_from k (x :: l) = (k, x) :: enumerate_from (S k) l.
Proof. done. Qed.

Lemma elem_of_enumerate {A} (l : list A) i x :
  (i, x) ∈ enumerate l → l !! i = Some x.
Proof.
  unfold enumerate, enumerate_from. intros [j Hj]%list_elem_of_lookup.
  apply lookup_zip_Some in Hj as [Hs Hl]. apply lookup_seq in Hs as [-> _]. done.
Qed.

Lemma enumerate_fst {A} k (l : list A) : (enumerate_from k l).*1 = seq k (length l).
Proof. unfold enumerate_from. rewrite fst_zip; [done|]. by rewrite length_seq. Qed.

Lemma enumerate_elem_of {A} (l : list A) i x : l !! i = Some x → (i, x) ∈ enumerate l.
Proof.
  intros Hx. apply list_elem_of_lookup. exists i. unfold enumerate, enumerate_from. apply lookup_zip_Some. split; [|done].
  apply lookup_seq. split; [done|]. by eapply lookup_lt_Some.
Qed.

(** ** Loops and lists *)

Lemma for_each_ext {A S} (xs : list A) (s : S) f g :
  (∀ s x, x ∈ xs → f s x = g s x) → for_each xs s f = for_each xs s g.
Proof.
  revert s. induction xs as [|x xs IH]; intros s H; [done|]. simpl. rewrite H by set_solver.
  destruct (g s x); simpl; [|done..]. apply IH. intros. apply H. set_solver.
Qed.

Lemma for_seq_enumerate {A S} (l : list A) k (s : S) body :
  for_each (seq k (length l)) s body = for_each (enumerate_from k l) s (λ s iv, body s iv.1).
Proof.
  revert s k. induction l as [|v l IH]; intros s k; [done|]. rewrite enumerate_from_cons. simpl.
  destruct (body s k); simpl; [apply IH|done..].
Qed.

Lemma for_each_fmap {A B S} (h : A → B) (xs : list A) (s : S) f :
  for_each (h <$> xs) s f = for_each xs s (λ s x, f s (h x)).
Proof.
  revert s. induction xs as [|x xs IH]; intros s; [done|]. csimpl. destruct (f s (h x)); simpl; auto.
Qed.

Lemma enumerate_snd {A} (l : list A) : (enumerate l).*2 = l.
Proof. unfold enumerate, enumerate_from. apply snd_zip. by rewrite length_seq. Qed.

(** A loop over positions whose body only uses the element there is a loop over
    the elements. *)
Lemma for_seq_list {A S} (l : list A) (s : S) body (g : S → A → outcome S) :
  (∀ s i x, l !! i = Some x → body s i = g s x) →
  for_each (seq 0 (length l)) s body = for_each l s g.
Proof.
  intros Hb. rewrite for_seq_enumerate. change (enumerate_from 0 l) with (enumerate l).
  rewrite <- (enumerate_snd l) at 2. rewrite for_each_fmap. apply for_each_ext.
  intros s' [i v] Hi. apply elem_of_enumerate in Hi. by apply Hb.
Qed.

(** A loop with no early exit is a fold. *)
Lemma for_each_foldl {A S} (xs : list A) (s : S) (f : S → A → S) :
  for_each xs s (λ s x, Ok (f s x)) = Ok (foldl f s xs).
Proof. revert s. induction xs; intros s; simpl; auto. Qed.

(** The slot a fixed-width encoder stores for a value. *)

Lemma for_each_bind {A B S} (h : A → list B) (xs : list A) (s : S) f :
  for_each (xs ≫= h) s f = for_each xs s (λ s x, for_each (h x) s f).
Proof.
  revert s. induction xs as [|x xs IH]; intros s; [done|]. csimpl. rewrite for_each_app.
  destruct (for_each (h x) s f); simpl; auto.
Qed.

Lemma filter_keeps_all {A} (P : A → Prop) `{!∀ x, Decision (P x)} l : Forall P l → filter P l = l.
Proof. induction 1; [done|]. rewrite filter_cons_True by done. by f_equal. Qed.

Lemma filter_none {A} (P : A → Prop) `{!∀ x, Decision (P x)} l : Forall (λ x, ¬ P x) l → filter P l = [].
Proof. induction 1 as [|x l Hx _ IH]; [done|]. by rewrite filter_cons_False. Qed.

Lemma length_omap_le {A B} (f : A → option B) l : (length (omap f l) ≤ length l)%nat.
Proof. induction l as [|x l IH]; [done|]. cbn [omap list_omap]. destruct (f x); simpl; lia. Qed.

(** Neighbours related: what a left-to-right scan can check. *)
Definition ascending {A} (R : A → A → Prop) (l : list A) : Prop :=
  ∀ i x y, l !! i = Some x → l !! S i = Some y → R x y.

Lemma ascending_nil {A} (R : A → A → Prop) : ascending R [].
Proof. done. Qed.

Lemma ascending_snoc {A} (R : A → A → Prop) l y :
  ascending R (l ++ [y]) ↔ ascending R l ∧ ∀ x, last l = Some x → R x y.
Proof.
  unfold ascending. split.
  - intros H. split.
    + intros i a b Ha Hb. apply (H i); apply lookup_app_l_Some; done.
    + intros x Hx. rewrite last_lookup in Hx. assert (length l ≠ 0)%nat by (by destruct l).
      apply (H (pred (length l))); [by apply lookup_app_l_Some|].
      replace (S (pred (length l))) with (length l) by lia. by rewrite lookup_app_r, Nat.sub_diag by lia.
  - intros [Hl Hy] i a b Ha Hb. pose proof (lookup_lt_Some _ _ _ Hb) as Hlt. rewrite length_app in Hlt. simpl in Hlt.
    rewrite lookup_app_l in Ha by lia. destruct (decide (S i < length l)%nat).
    + rewrite lookup_app_l in Hb by lia. by eapply Hl.
    + rewrite lookup_app_r in Hb by lia. replace (S i - length l)%nat with 0%nat in Hb by lia. injection Hb as <-.
      apply Hy. rewrite last_lookup. by replace (pred (length l)) with i by lia.
Qed.

Lemma ascending_cons {A} (R : A → A → Prop) x y l :
  ascending R (x :: y :: l) ↔ R x y ∧ ascending R (y :: l).
Proof.
  unfold ascending. split.
  - intros H. split; [by apply (H 0%nat)|]. intros i. apply (H (S i)).
  - intros [Hxy H] [|i] a b; simpl; [by intros [= <-] [= <-]|]. apply H.
Qed.

Lemma ascending_tail {A} (R : A → A → Prop) x l : ascending R (x :: l) → ascending R l.
Proof. intros H i. apply (H (S i)). Qed.

(** ** Automation *)

Create HintDb devon discriminated.
#[export] Hint Resolve zlen_nonneg ok_or_no_panic : devon.

(** Unfold range predicates and finish by [lia] (powers of two are literals). *)
Ltac range_lia := unfold in_u, in_i in *; simpl in *; lia.

(** Invert a hypothesis [H : bind .. = Ok _], guards included, step by step. *)
Ltac inv_step H :=
  match type of H with
  | bind _ _ = Ok _ =>
      let x := fresh "x" in let Hx := fresh "Hx" in
      apply bind_Ok in H; destruct H as (x & Hx & H)
  | (if ?b then _ else _) = Ok _ => let E := fresh "E" in destruct b eqn:E; [|discriminate H]
  | (if ?b then Err _ else _) = Ok _ => let E := fresh "E" in destruct b eqn:E; [discriminate H|]
  | Ok _ = Ok _ => injection H as H
  end.
Ltac inv_ok H := repeat inv_step H.

(** Reflect boolean tests of the context and the goal into propositions. *)
Ltac reflect_bools :=
  repeat match goal with
  | H : (_ && _) = true |- _ => apply andb_true_iff in H; destruct H
  | H : (_ || _) = false |- _ => apply orb_false_iff in H; destruct H
  | H : negb _ = true |- _ => apply negb_true_iff in H
  | H : negb _ = false |- _ => apply negb_false_iff in H
  | H : bool_decide _ = true |- _ => apply bool_decide_eq_true in H
  | H : bool_decide _ = false |- _ => apply bool_decide_eq_false in H
  | H : (_ <? _) = true |- _ => apply Z.ltb_lt in H
  | H : (_ <? _) = false |- _ => apply Z.ltb_ge in H
  | H : (_ <=? _) = true |- _ => apply Z.leb_le in H
  | H : (_ <=? _) = false |- _ => apply Z.leb_gt in H
  | H : (_ =? _) = true |- _ => apply Z.eqb_eq in H
  | H : (_ =? _) = false |- _ => apply Z.eqb_neq in H
  end.
