(* ===== verification/Bytes.v ===== *)
(** Byte strings: little-endian integers, slices and in-place page updates.

    A byte is a [Z] in [0, 256), a byte string or a page a [list Z].  Rust
    slicing and indexing panic out of range, so the slice and copy operations
    return an [outcome]. *)

From stdpp Require Import sorting.
From S2P Require Import Prelude.

Definition is_byte (b : Z) : Prop := in_u 8 b.
Definition is_bytes (bs : list Z) : Prop := Forall is_byte bs.

#[export] Instance is_bytes_dec bs : Decision (is_bytes bs).
Proof. unfold is_bytes, is_byte. apply _. Defined.

(** ** [to_le_bytes] and [from_le_bytes] *)

Fixpoint to_le (n : nat) (x : Z) : list Z :=
  match n with
  | O => []
  | S n => x mod 256 :: to_le n (x / 256)
  end.

Fixpoint from_le (bs : list Z) : Z :=
  match bs with
  | [] => 0
  | b :: bs => b + 256 * from_le bs
  end.

(** [iN::from_le_bytes]: the two's complement reading of [w] bits. *)
Definition from_le_signed (w : Z) (bs : list Z) : Z :=
  let u := from_le bs in if u <? 2 ^ (w - 1) then u else u - 2 ^ w.

Lemma length_to_le n x : length (to_le n x) = n.
Proof. revert x. induction n; intros; simpl; auto. Qed.

Lemma to_le_bytes n x : is_bytes (to_le n x).
Proof.
  revert x. induction n; intros; simpl; constructor; [|apply IHn].
  unfold is_byte, in_u. apply Z.mod_pos_bound. lia.
Qed.

Lemma from_le_bound bs : is_bytes bs → 0 ≤ from_le bs < 256 ^ zlen bs.
Proof.
  induction 1 as [|b bs Hb _ IH]; [done|].
  rewrite zlen_cons, Z.pow_add_r by (lia || apply zlen_nonneg).
  unfold is_byte, in_u in Hb. simpl from_le. change (256 ^ 1) with 256. lia.
Qed.

Lemma from_to_le n x : from_le (to_le n x) = x mod 256 ^ Z.of_nat n.
Proof.
  revert x. induction n as [|n IH]; intros x; [by rewrite Z.mod_1_r|].
  cbn [to_le from_le]. rewrite IH, Nat2Z.inj_succ, Z.pow_succ_r by lia.
  rewrite Z.rem_mul_r by lia. done.
Qed.

Lemma to_from_le bs : is_bytes bs → to_le (length bs) (from_le bs) = bs.
Proof.
  induction 1 as [|b bs Hb _ IH]; [done|]. simpl.
  unfold is_byte, in_u in Hb. rewrite Z.mul_comm, Z.div_add, Z.mod_add by lia.
  by rewrite (Z.div_small b), Z.mod_small, Z.add_0_l, IH by lia.
Qed.

Lemma pow256 n : 256 ^ Z.of_nat n = 2 ^ (8 * Z.of_nat n).
Proof. rewrite Z.pow_mul_r by lia. done. Qed.

Lemma from_to_le_u n w x :
  w = 8 * Z.of_nat n → in_u w x → from_le (to_le n x) = x.
Proof. intros -> H. rewrite from_to_le, pow256. by apply Z.mod_small. Qed.

Lemma from_to_le_i n w x :
  w = 8 * Z.of_nat n → 0 < w → in_i w x → from_le_signed w (to_le n x) = x.
Proof.
  intros -> Hw H. unfold from_le_signed. rewrite from_to_le, pow256.
  by apply wrap_i_small.
Qed.

Lemma from_le_signed_range w bs :
  w = 8 * zlen bs → 0 < w → is_bytes bs → in_i w (from_le_signed w bs).
Proof.
  intros Hw Hpos Hbs. pose proof (from_le_bound bs Hbs) as Hr.
  unfold zlen in *. rewrite pow256 in Hr. rewrite <- Hw in Hr. unfold from_le_signed, in_i.
  assert (2 ^ w = 2 * 2 ^ (w - 1)) as E.
  { rewrite <- Z.pow_succ_r by lia. f_equal. lia. }
  destruct (from_le bs <? 2 ^ (w - 1)) eqn:El; reflect_bools; lia.
Qed.

Lemma to_le_inj_u n w x y :
  w = 8 * Z.of_nat n → in_u w x → in_u w y → to_le n x = to_le n y → x = y.
Proof.
  intros Hw Hx Hy E. rewrite <- (from_to_le_u n w x Hw Hx), E. by apply (from_to_le_u n w).
Qed.

(** ** Slices *)

(** The bytes [bs[a..b]], with no range check. *)
Definition sub {A} (a b : nat) (bs : list A) : list A := take (b - a) (drop a bs).

(** [&bs[a..b]]: panics unless [a <= b <= bs.len()]. *)
Definition slice {A} (bs : list A) (a b : nat) : outcome (list A) :=
  if decide (a ≤ b ∧ b ≤ length bs)%nat then Ok (sub a b bs) else Panic.

(** [bs[i]]: panics out of range. *)
Definition index {A} (bs : list A) (i : nat) : outcome A := expect (bs !! i).

(** [page[a..b].copy_from_slice(data)]: panics unless the range is within the
    page and as long as [data]. *)
Definition copy_at {A} (page : list A) (a b : nat) (data : list A) : outcome (list A) :=
  if decide (a ≤ b ∧ b ≤ length page ∧ length data = b - a)%nat
  then Ok (take a page ++ data ++ drop b page) else Panic.

(** Little-endian reads at an offset ([read_u32], [read_u64]): they index each
    byte of the field, so they panic exactly when the field is out of range. *)
Definition read_u32 (page : list Z) (offset : nat) : outcome Z :=
  let! bs := slice page offset (offset + 4) in Ok (from_le bs).
Definition read_u64 (page : list Z) (offset : nat) : outcome Z :=
  let! bs := slice page offset (offset + 8) in Ok (from_le bs).

Lemma slice_Ok {A} (bs : list A) a b :
  (a ≤ b)%nat → (b ≤ length bs)%nat → slice bs a b = Ok (sub a b bs).
Proof. intros. unfold slice. by rewrite decide_True. Qed.

Lemma slice_Ok_inv {A} (bs : list A) a b s :
  slice bs a b = Ok s → (a ≤ b ∧ b ≤ length bs)%nat ∧ s = sub a b bs.
Proof. unfold slice. case_decide; naive_solver. Qed.

Lemma slice_no_panic {A} (bs : list A) a b :
  (a ≤ b)%nat → (b ≤ length bs)%nat → slice bs a b ≠ Panic.
Proof. intros. by rewrite slice_Ok. Qed.

Lemma copy_at_Ok {A} (page : list A) a b data :
  (a ≤ b)%nat → (b ≤ length page)%nat → length data = (b - a)%nat →
  copy_at page a b data = Ok (take a page ++ data ++ drop b page).
Proof. intros. unfold copy_at. by rewrite decide_True. Qed.

Lemma length_sub {A} a b (bs : list A) :
  (b ≤ length bs)%nat → length (sub a b bs) = (b - a)%nat.
Proof. intros. unfold sub. rewrite length_take, length_drop. lia. Qed.

Lemma sub_bytes a b bs : is_bytes bs → is_bytes (sub a b bs).
Proof. intros. unfold sub. by apply Forall_take, Forall_drop. Qed.

Lemma sub_app_l {A} a b (l k : list A) :
  (b ≤ length l)%nat → sub a b (l ++ k) = sub a b l.
Proof.
  intros. unfold sub. destruct (decide (a ≤ b)%nat).
  - rewrite drop_app_le by lia. rewrite take_app_le; [done|]. rewrite length_drop. lia.
  - replace (b - a)%nat with 0%nat by lia. by rewrite !take_0.
Qed.

Lemma sub_app_r {A} a b (l k : list A) :
  (length l ≤ a)%nat → sub a b (l ++ k) = sub (a - length l) (b - length l) k.
Proof.
  intros. unfold sub. rewrite drop_app_ge by lia. f_equal. lia.
Qed.

Lemma sub_all {A} (l : list A) n : n = length l → sub 0 n l = l.
Proof. intros ->. unfold sub. rewrite drop_0. apply take_ge. lia. Qed.

Lemma sub_take {A} a b n (l : list A) :
  (b ≤ n)%nat → sub a b (take n l) = sub a b l.
Proof.
  intros. unfold sub. rewrite skipn_firstn_comm, take_take. f_equal. lia.
Qed.

Lemma sub_sub {A} a b c d (l : list A) :
  (d ≤ b - a)%nat → sub c d (sub a b l) = sub (a + c) (a + d) l.
Proof.
  intros. unfold sub. rewrite skipn_firstn_comm, take_take, drop_drop. f_equal; lia.
Qed.

Lemma sub_cat {A} a b c (l : list A) :
  (a ≤ b)%nat → (b ≤ c)%nat → (c ≤ length l)%nat → sub a b l ++ sub b c l = sub a c l.
Proof.
  intros. unfold sub. replace (c - a)%nat with ((b - a) + (c - b))%nat by lia.
  rewrite <- (take_drop (b - a) (take ((b - a) + (c - b)) (drop a l))).
  rewrite take_take, skipn_firstn_comm, drop_drop.
  f_equal; f_equal; [lia | lia | f_equal; lia].
Qed.

(** A field of [n] bytes read from a page: its range, and its bytes again. *)
Lemma read_field_u page o n w :
  is_bytes page → (o + n ≤ length page)%nat → w = 8 * Z.of_nat n →
  in_u w (from_le (sub o (o + n) page)) ∧
  to_le n (from_le (sub o (o + n) page)) = sub o (o + n) page.
Proof.
  intros Hb Hle ->. pose proof (sub_bytes o (o + n) page Hb) as Hs.
  pose proof (length_sub o (o + n) page Hle) as Hls.
  pose proof (from_le_bound _ Hs) as Hbd. unfold zlen in Hbd.
  rewrite Hls in Hbd. replace (o + n - o)%nat with n in * by lia.
  rewrite pow256 in Hbd. split; [done|]. rewrite <- Hls at 1. by apply to_from_le.
Qed.

(** Reading back a page update: the written range, and everything outside it. *)
Lemma sub_copy_eq {A} (page : list A) a b data :
  (a ≤ length page)%nat → length data = (b - a)%nat →
  sub a b (take a page ++ data ++ drop b page) = data.
Proof.
  intros Ha Hd. rewrite sub_app_r; rewrite length_take; [|lia].
  rewrite sub_app_l; [|lia].
  replace (a - a `min` length page)%nat with 0%nat by lia. apply sub_all. lia.
Qed.

Lemma sub_copy_before {A} (page : list A) a b data c d :
  (d ≤ a)%nat → (a ≤ length page)%nat →
  sub c d (take a page ++ data ++ drop b page) = sub c d page.
Proof.
  intros. rewrite sub_app_l by (rewrite length_take; lia). by apply sub_take.
Qed.

Lemma sub_copy_after {A} (page : list A) a b data c d :
  (b ≤ c)%nat → (a ≤ b)%nat → (b ≤ length page)%nat → length data = (b - a)%nat →
  sub c d (take a page ++ data ++ drop b page) = sub c d page.
Proof.
  intros. rewrite sub_app_r; rewrite length_take; [|lia].
  rewrite sub_app_r by lia. unfold sub. rewrite drop_drop. f_equal; [lia|]. f_equal. lia.
Qed.

Lemma length_copy {A} (page : list A) a b data :
  (a ≤ b)%nat → (b ≤ length page)%nat → length data = (b - a)%nat →
  length (take a page ++ data ++ drop b page) = length page.
Proof. intros. rewrite !length_app, length_take, length_drop. lia. Qed.

Lemma copy_at_bytes page a b data page' :
  is_bytes page → is_bytes data → copy_at page a b data = Ok page' → is_bytes page'.
Proof.
  unfold copy_at. case_decide; [|done]. intros Hp Hd [= <-].
  unfold is_bytes. rewrite !Forall_app. auto using Forall_take, Forall_drop.
Qed.

(** One page write, as seen by a reader. *)
Lemma copy_at_spec {A} (page : list A) a b data :
  (a ≤ b)%nat → (b ≤ length page)%nat → length data = (b - a)%nat →
  ∃ page', copy_at page a b data = Ok page' ∧ length page' = length page ∧
    sub a b page' = data ∧
    (∀ c d, (d ≤ a ∨ b ≤ c)%nat → sub c d page' = sub c d page).
Proof.
  intros Ha Hb Hd. eexists. split; [by apply copy_at_Ok|].
  split_and!; [by apply length_copy | apply sub_copy_eq; lia |].
  intros c d [?|?]; [apply sub_copy_before; lia | by apply sub_copy_after; lia].
Qed.

Lemma slice_sub {A} (page page' : list A) a b :
  length page = length page' → sub a b page = sub a b page' → slice page a b = slice page' a b.
Proof. unfold slice. intros -> ->. done. Qed.

Lemma read_u32_Ok page o :
  (o + 4 ≤ length page)%nat → read_u32 page o = Ok (from_le (sub o (o + 4) page)).
Proof. intros. unfold read_u32. rewrite slice_Ok by lia. done. Qed.
Lemma read_u64_Ok page o :
  (o + 8 ≤ length page)%nat → read_u64 page o = Ok (from_le (sub o (o + 8) page)).
Proof. intros. unfold read_u64. rewrite slice_Ok by lia. done. Qed.

(** Arrays of fixed-size records: the bytes of the [i]-th one. *)
Lemma length_concat_fixed {A B} (f : A → list B) (l : list A) n :
  (∀ x, x ∈ l → length (f x) = n) → length (concat (f <$> l)) = (n * length l)%nat.
Proof.
  induction l as [|x l IH]; intros Hn; csimpl; [lia|].
  rewrite length_app, IH, Hn; [lia | set_solver | set_solver].
Qed.

Lemma sub_concat_fixed {A B} (f : A → list B) (l : list A) n i x :
  (∀ x, x ∈ l → length (f x) = n) → l !! i = Some x →
  sub (n * i) (n * i + n) (concat (f <$> l)) = f x.
Proof.
  revert i. induction l as [|y l IH]; intros [|i] Hn Hi; simplify_eq/=.
  - rewrite Nat.mul_0_r, sub_app_l, sub_all by (rewrite ?Hn; set_solver || lia). done.
  - rewrite sub_app_r; rewrite (Hn y) by set_solver; [|lia].
    replace (n * S i - n)%nat with (n * i)%nat by lia.
    replace (n * S i + n - n)%nat with (n * i + n)%nat by lia.
    apply IH; [set_solver | done].
Qed.

(** Appending a field to a partly written page. *)
Lemma copy_at_append {A} (done data rest : list A) n a b :
  length done = a → length data = (b - a)%nat → (a ≤ b)%nat → (b ≤ n)%nat →
  length rest = (n - a)%nat →
  copy_at (done ++ rest) a b data = Ok ((done ++ data) ++ drop (b - a) rest).
Proof.
  intros Hd Hx Hab Hb Hr. rewrite copy_at_Ok; rewrite ?length_app; try lia.
  rewrite take_app_length' by done. rewrite drop_app_ge by lia.
  rewrite <- app_assoc. by rewrite Hd.
Qed.

(** One [copy_from_slice] of a header that is filled front to back. *)
Ltac append_field n :=
  rewrite (copy_at_append _ _ _ n) by (rewrite ?length_app, ?length_to_le, ?length_replicate; simpl; lia);
  cbn [bind]; rewrite drop_replicate.

(** ** Checksums *)

(** The [crc32c] crate (CRC-32C, Castagnoli) is not part of the repository.
    What the code relies on, as the crate documents it: the checksum is a
    [u32], [crc32c(data)] is [crc32c_append(0, data)], and appending continues
    a checksum over the concatenation. *)
Class Crc32c := {
  crc32c_append : Z → list Z → Z;
  crc32c_append_u32 c bs : in_u 32 (crc32c_append c bs);
  crc32c_append_app c l k :
    crc32c_append (crc32c_append c l) k = crc32c_append c (l ++ k);
}.

Definition crc32c `{Crc32c} (bs : list Z) : Z := crc32c_append 0 bs.

(** The Castagnoli polynomial, bit by bit: the instance the witnesses use. *)
Definition crc_bit (c : Z) : Z :=
  if Z.odd c then Z.lxor (Z.shiftr c 1) 2197175160 else Z.shiftr c 1.
Definition crc_byte (c b : Z) : Z :=
  Nat.iter 8 crc_bit (Z.lxor c b) mod 2 ^ 32.
Definition not32 (c : Z) : Z := (2 ^ 32 - 1 - c) mod 2 ^ 32.
Definition castagnoli_append (c : Z) (bs : list Z) : Z :=
  not32 (foldl crc_byte (not32 c) bs).

Lemma not32_u32 c : in_u 32 (not32 c).
Proof. apply Z.mod_pos_bound. lia. Qed.

Lemma not32_invol c : in_u 32 c → not32 (not32 c) = c.
Proof.
  unfold not32, in_u. intros. rewrite (Z.mod_small (2 ^ 32 - 1 - c)) by lia.
  rewrite Z.mod_small; lia.
Qed.

Lemma crc_fold_u32 bs c : in_u 32 c → in_u 32 (foldl crc_byte c bs).
Proof.
  revert c. induction bs as [|b bs IH]; intros c Hc; simpl; [done|].
  apply IH. apply Z.mod_pos_bound. lia.
Qed.

Definition castagnoli : Crc32c.
Proof.
  refine {| crc32c_append := castagnoli_append |}.
  - intros. apply not32_u32.
  - intros c l k. unfold castagnoli_append. rewrite foldl_app, not32_invol; [done|].
    apply crc_fold_u32, not32_u32.
Defined.

(** The check value of CRC-32C: the checksum of the digits 1 to 9. *)
Example castagnoli_check :
  @crc32c castagnoli [49; 50; 51; 52; 53; 54; 55; 56; 57] = 3808858755.
Proof. vm_compute. reflexivity. Qed.

(** Simplify the lengths of byte-string expressions. *)
Ltac simpl_len := rewrite ?length_app, ?length_to_le, ?length_replicate; simpl length.

(** ** The order of strings *)

(** [Ord for str]: bytewise lexicographic. *)
Fixpoint str_cmp (a b : list Z) : comparison :=
  match a, b with
  | [], [] => Eq
  | [], _ :: _ => Lt
  | _ :: _, [] => Gt
  | x :: a, y :: b => match x ?= y with Eq => str_cmp a b | c => c end
  end.
Definition str_le (a b : list Z) : bool := match str_cmp a b with Gt => false | _ => true end.

Definition str_lt (a b : list Z) : Prop := str_cmp a b = Lt.

Lemma str_cmp_eq a b : str_cmp a b = Eq ↔ a = b.
Proof.
  revert b. induction a as [|x a IH]; intros [|y b]; simpl; try done.
  destruct (Z.compare_spec x y); [subst; rewrite IH; naive_solver|naive_solver lia..].
Qed.

Lemma str_cmp_antisym a b : str_cmp b a = CompOpp (str_cmp a b).
Proof.
  revert b. induction a as [|x a IH]; intros [|y b]; simpl; try done.
  rewrite (Z.compare_antisym x y). destruct (x ?= y); simpl; auto.
Qed.

Lemma str_lt_trans a b c : str_lt a b → str_lt b c → str_lt a c.
Proof.
  unfold str_lt. revert b c. induction a as [|x a IH]; intros [|y b] [|z c]; simpl; try done.
  destruct (Z.compare_spec x y), (Z.compare_spec y z), (Z.compare_spec x z); subst; try done; try lia. apply IH.
Qed.

Lemma str_le_false a b : str_le a b = false ↔ str_lt b a.
Proof. unfold str_le, str_lt. rewrite (str_cmp_antisym a b). by destruct (str_cmp a b). Qed.

Lemma str_le_true a b : str_le a b = true ↔ a = b ∨ str_lt a b.
Proof. unfold str_le, str_lt. rewrite <- str_cmp_eq. destruct (str_cmp a b); naive_solver. Qed.

Definition str_leP (a b : list Z) : Prop := str_le a b = true.

#[export] Instance str_leP_trans : Transitive str_leP.
Proof.
  intros a b c. unfold str_leP. rewrite !str_le_true. intros [->|H1] [->|H2]; auto. right. by eapply str_lt_trans.
Qed.

#[export] Instance str_leP_dec a b : Decision (str_leP a b).
Proof. unfold str_leP. apply _. Defined.
#[export] Instance str_leP_total : Total str_leP.
Proof.
  intros a b. unfold str_leP. destruct (str_le a b) eqn:E; [by left|]. right. apply str_le_true. right. by apply str_le_false.
Qed.

(** Iteration of a [BTreeMap] with string keys: ascending. *)
Definition key_le {A} (a b : list Z * A) : Prop := str_leP a.1 b.1.

#[export] Instance key_le_dec {A} (a b : list Z * A) : Decision (key_le a b).
Proof. unfold key_le. apply _. Defined.
#[export] Instance key_le_trans {A} : Transitive (@key_le A).
Proof. intros a b c. apply str_leP_trans. Qed.
#[export] Instance key_le_total {A} : Total (@key_le A).
Proof. intros a b. apply str_leP_total. Qed.

Definition btree_iter {A} (m : gmap (list Z) A) : list (list Z * A) := merge_sort key_le (map_to_list m).

Lemma elem_of_btree_iter {A} (m : gmap (list Z) A) k v : (k, v) ∈ btree_iter m ↔ m !! k = Some v.
Proof. unfold btree_iter. by rewrite (merge_sort_Permutation key_le (map_to_list m)), elem_of_map_to_list. Qed.

Lemma btree_iter_NoDup {A} (m : gmap (list Z) A) : NoDup (btree_iter m).*1.
Proof. unfold btree_iter. rewrite (merge_sort_Permutation key_le (map_to_list m)). apply NoDup_fst_map_to_list. Qed.

Lemma btree_iter_sorted {A} (m : gmap (list Z) A) : StronglySorted key_le (btree_iter m).
Proof. apply Sorted_StronglySorted; [apply _|]. apply Sorted_merge_sort. apply _. Qed.
