(* ===== verification/Superblock.v ===== *)
(** The versioned header in pages 0 and 1: [superblock.rs].

    Layout, validation and version gating of the 64-byte header, and the
    arbitration between the two slots. *)

From S2P Require Import Prelude Bytes.

Definition MAGIC : list Z := [68; 69; 86; 79; 78; 68; 66; 0].
Definition HEADER_LEN : nat := 64.
Definition CHECKSUM_OFFSET : nat := 60.
Definition MIN_PAGE_SIZE : Z := 4096.
Definition MAX_PAGE_SIZE : Z := 65536.
Definition SUPPORTED_FORMAT_VERSION : Z := 1.

Definition HNSW_INDEX_FLAG : Z := Z.shiftl 1 0.
Definition ONTOLOGY_FLAG : Z := Z.shiftl 1 1.
Definition PINNED_PLANS_FLAG : Z := Z.shiftl 1 2.
Definition ZONE_MAPS_FLAG : Z := Z.shiftl 1 3.
Definition GEO_COLUMNS_FLAG : Z := Z.shiftl 1 4.
Definition FREE_PAGES_FLAG : Z := Z.shiftl 1 5.
Definition RESERVED_READ_SAFE_FLAG : Z := Z.shiftl 1 12.
Definition DML_WAL_FLAG : Z := Z.shiftl 1 6.
Definition SCALAR_TYPES_V2_FLAG : Z := Z.shiftl 1 7.
Definition MULTIPROCESS_COORDINATION_FLAG : Z := Z.shiftl 1 8.
Definition MULTIPAGE_CATALOG_FLAG : Z := Z.shiftl 1 9.
Definition REL_TOMBSTONE_WAL_FLAG : Z := Z.shiftl 1 10.
Definition COLUMN_ENCODINGS_FLAG : Z := Z.shiftl 1 13.
Definition HNSW_MUTATION_WAL_FLAG : Z := Z.shiftl 1 14.

(** Flags this reader may ignore while reading. *)
Definition READ_SAFE_FLAG_MASK : Z :=
  foldr Z.lor 0 [HNSW_INDEX_FLAG; ONTOLOGY_FLAG; PINNED_PLANS_FLAG; ZONE_MAPS_FLAG;
    FREE_PAGES_FLAG; RESERVED_READ_SAFE_FLAG].

(** Flags this build supports, writes included. *)
Definition SUPPORTED_FLAG_MASK : Z :=
  foldr Z.lor 0 [HNSW_INDEX_FLAG; ONTOLOGY_FLAG; PINNED_PLANS_FLAG; ZONE_MAPS_FLAG;
    GEO_COLUMNS_FLAG; FREE_PAGES_FLAG; DML_WAL_FLAG; SCALAR_TYPES_V2_FLAG;
    MULTIPROCESS_COORDINATION_FLAG; MULTIPAGE_CATALOG_FLAG; REL_TOMBSTONE_WAL_FLAG;
    COLUMN_ENCODINGS_FLAG; HNSW_MUTATION_WAL_FLAG].

Record Superblock := mkSuperblock {
  format_version : Z;
  min_reader_version : Z;
  feature_flags : Z;
  page_size : Z;
  db_id : list Z;
  checkpoint_lsn : Z;
  catalog_root : Z;
}.

#[export] Instance Superblock_eq_dec : EqDecision Superblock.
Proof. solve_decision. Defined.

(** The field types: [u32], [u64] and [[u8; 16]]. *)
Record superblock_wf (sb : Superblock) : Prop := {
  wf_format : in_u 32 (format_version sb);
  wf_reader : in_u 32 (min_reader_version sb);
  wf_flags : in_u 64 (feature_flags sb);
  wf_page_size : in_u 32 (page_size sb);
  wf_db_id : length (db_id sb) = 16%nat ∧ is_bytes (db_id sb);
  wf_lsn : in_u 64 (checkpoint_lsn sb);
  wf_root : in_u 64 (catalog_root sb);
}.

#[export] Instance superblock_wf_dec sb : Decision (superblock_wf sb).
Proof.
  refine (cast_if (decide (in_u 32 (format_version sb) ∧ in_u 32 (min_reader_version sb) ∧
    in_u 64 (feature_flags sb) ∧ in_u 32 (page_size sb) ∧
    (length (db_id sb) = 16%nat ∧ is_bytes (db_id sb)) ∧
    in_u 64 (checkpoint_lsn sb) ∧ in_u 64 (catalog_root sb))));
    abstract (first [constructor; tauto | intros []; tauto]).
Defined.

Definition is_power_of_two (x : Z) : bool := (0 <? x) && (Z.land x (x - 1) =? 0).

Definition valid_page_size (page_size : Z) : bool :=
  (MIN_PAGE_SIZE <=? page_size) && (page_size <=? MAX_PAGE_SIZE) && is_power_of_two page_size.

Definition read_db_id (page : list Z) : outcome (list Z) := slice page 28 44.

Section superblock.
Context `{Crc32c}.

Definition encode (self : Superblock) (page : list Z) : outcome (list Z) :=
  if bool_decide (length page < HEADER_LEN)%nat
  then Err (InvalidArgument "superblock page must be at least 64 bytes") else
  if negb (valid_page_size (page_size self))
  then Err (InvalidArgument "page size {} must be a power of two between 4096 and 65536 bytes") else
  if format_version self <? min_reader_version self
  then Err (InvalidArgument "minimum reader version {} cannot exceed format version {}") else
  let page := replicate (length page) 0 in
  let! page := copy_at page 0 8 MAGIC in
  let! page := copy_at page 8 12 (to_le 4 (format_version self)) in
  let! page := copy_at page 12 16 (to_le 4 (min_reader_version self)) in
  let! page := copy_at page 16 24 (to_le 8 (feature_flags self)) in
  let! page := copy_at page 24 28 (to_le 4 (page_size self)) in
  let! page := copy_at page 28 44 (db_id self) in
  let! page := copy_at page 44 52 (to_le 8 (checkpoint_lsn self)) in
  let! page := copy_at page 52 60 (to_le 8 (catalog_root self)) in
  let! covered := slice page 0 CHECKSUM_OFFSET in
  let checksum := crc32c covered in
  copy_at page CHECKSUM_OFFSET HEADER_LEN (to_le 4 checksum).

Definition validate_decoded (self : Superblock) (supported read_safe : Z) : outcome unit :=
  if SUPPORTED_FORMAT_VERSION <? min_reader_version self
  then Err (VersionMismatch (format_version self) (min_reader_version self) SUPPORTED_FORMAT_VERSION) else
  if negb (Z.land (feature_flags self) (Z.lnot (Z.lor read_safe supported)) =? 0)
  then Err (VersionMismatch (format_version self) (min_reader_version self) SUPPORTED_FORMAT_VERSION) else
  if negb (valid_page_size (page_size self))
  then Err (Corrupt "invalid page size in superblock") else
  Ok tt.

Definition decode_with_masks (page : list Z) (supported read_safe : Z) : outcome Superblock :=
  if bool_decide (length page < HEADER_LEN)%nat
  then Err (Corrupt "superblock page is shorter than 64 bytes") else
  let! magic := slice page 0 8 in
  if bool_decide (magic ≠ MAGIC) then Err (Corrupt "invalid superblock magic") else
  let! expected_checksum := read_u32 page CHECKSUM_OFFSET in
  let! covered := slice page 0 CHECKSUM_OFFSET in
  let actual_checksum := crc32c covered in
  if negb (actual_checksum =? expected_checksum)
  then Err (Corrupt "superblock checksum does not match") else
  let! format_version := read_u32 page 8 in
  let! min_reader_version := read_u32 page 12 in
  let! feature_flags := read_u64 page 16 in
  let! page_size := read_u32 page 24 in
  let! db_id := read_db_id page in
  let! checkpoint_lsn := read_u64 page 44 in
  let! catalog_root := read_u64 page 52 in
  let superblock := mkSuperblock format_version min_reader_version feature_flags page_size
    db_id checkpoint_lsn catalog_root in
  let! _ := validate_decoded superblock supported read_safe in
  Ok superblock.

Definition decode (page : list Z) : outcome Superblock :=
  decode_with_masks page SUPPORTED_FLAG_MASK READ_SAFE_FLAG_MASK.

Definition requires_read_only (self : Superblock) : bool :=
  negb (Z.land (Z.land (feature_flags self) READ_SAFE_FLAG_MASK) (Z.lnot SUPPORTED_FLAG_MASK) =? 0).
End superblock.

(** [choose_authoritative]: both arguments are already computed results. *)
Definition choose_authoritative (a b : outcome Superblock) : outcome Superblock :=
  match a, b with
  | Err (VersionMismatch f m s), _ => Err (VersionMismatch f m s)
  | _, Err (VersionMismatch f m s) => Err (VersionMismatch f m s)
  | Ok a, Ok b => if checkpoint_lsn a <? checkpoint_lsn b then Ok b else Ok a
  | Ok a, Err _ => Ok a
  | Err _, Ok b => Ok b
  | Err first, Err _ => Err first
  | Panic, _ | _, Panic => Panic
  end.

(** ** Layout *)

(** The 64 header bytes of [sb], field by field. *)
Definition header_prefix (sb : Superblock) : list Z :=
  MAGIC ++ to_le 4 (format_version sb) ++ to_le 4 (min_reader_version sb) ++
  to_le 8 (feature_flags sb) ++ to_le 4 (page_size sb) ++ db_id sb ++
  to_le 8 (checkpoint_lsn sb) ++ to_le 8 (catalog_root sb).

Definition header_bytes `{Crc32c} (sb : Superblock) : list Z :=
  header_prefix sb ++ to_le 4 (crc32c (header_prefix sb)).

(** A header this build writes and reads back. *)
Definition encodable (sb : Superblock) : Prop :=
  superblock_wf sb ∧ valid_page_size (page_size sb) = true ∧
  min_reader_version sb ≤ format_version sb.

Definition readable (sb : Superblock) : Prop :=
  min_reader_version sb ≤ SUPPORTED_FORMAT_VERSION ∧
  Z.land (feature_flags sb) (Z.lnot (Z.lor READ_SAFE_FLAG_MASK SUPPORTED_FLAG_MASK)) = 0.

Lemma length_header_prefix sb :
  length (db_id sb) = 16%nat → length (header_prefix sb) = 60%nat.
Proof.
  intros Hid. unfold header_prefix. rewrite !length_app, !length_to_le, Hid. done.
Qed.

Section layout.
Context `{Crc32c}.

Lemma length_header_bytes sb :
  length (db_id sb) = 16%nat → length (header_bytes sb) = 64%nat.
Proof.
  intros Hid. unfold header_bytes. rewrite length_app, length_header_prefix, length_to_le; done.
Qed.

(** [encode] writes the header bytes and zeroes the rest of the page. *)
Lemma encode_layout sb page :
  encodable sb → (64 ≤ length page)%nat →
  encode sb page = Ok (header_bytes sb ++ replicate (length page - 64) 0).
Proof.
  intros (Hwf & Hps & Hv) Hlen. destruct (wf_db_id _ Hwf) as [Hid _].
  unfold encode, HEADER_LEN, CHECKSUM_OFFSET.
  rewrite bool_decide_eq_false_2 by lia. rewrite Hps. simpl negb.
  rewrite (proj2 (Z.ltb_ge _ _)) by done. cbn iota.
  set (n := length page) in *.
  change (replicate n 0) with ([] ++ replicate n 0).
  do 8 (append_field n). 
  match goal with |- context [slice (?d ++ _) 0 60] => set (done := d) end.
  assert (done = header_prefix sb) as Hdone.
  { unfold done, header_prefix. rewrite <- !app_assoc. done. }
  assert (length done = 60%nat) as Hl by (rewrite Hdone; by apply length_header_prefix).
  rewrite slice_Ok by (rewrite ?length_app, ?length_replicate; lia). cbn [bind].
  rewrite sub_app_l, sub_all by lia.
  rewrite (copy_at_append _ _ _ n) by (rewrite ?length_to_le, ?length_replicate; lia).
  rewrite drop_replicate. unfold header_bytes. rewrite Hdone. do 3 f_equal. lia.
Qed.
End layout.

Section decode.
Context `{Crc32c}.

Lemma encodable_header_prefix sb :
  encodable sb → length (header_prefix sb) = 60%nat.
Proof. intros (Hwf & _). by apply length_header_prefix, wf_db_id. Qed.

(** The fields of a header, as [decode] finds them. *)
Lemma header_fields sb rest (h := header_bytes sb ++ rest) :
  length (db_id sb) = 16%nat →
  sub 0 8 h = MAGIC ∧ sub 8 12 h = to_le 4 (format_version sb) ∧
  sub 12 16 h = to_le 4 (min_reader_version sb) ∧ sub 16 24 h = to_le 8 (feature_flags sb) ∧
  sub 24 28 h = to_le 4 (page_size sb) ∧ sub 28 44 h = db_id sb ∧
  sub 44 52 h = to_le 8 (checkpoint_lsn sb) ∧ sub 52 60 h = to_le 8 (catalog_root sb) ∧
  sub 60 64 h = to_le 4 (crc32c (header_prefix sb)) ∧ sub 0 60 h = header_prefix sb.
Proof.
  intros Hid.
  assert (length (header_prefix sb) = 60%nat) as Hp by by apply length_header_prefix.
  assert (sub 0 60 h = header_prefix sb) as H060.
  { unfold h, header_bytes. rewrite <- app_assoc, sub_app_l by lia. by apply sub_all. }
  assert (∀ a b, (b ≤ 60)%nat → sub a b h = sub a b (header_prefix sb)) as Hin.
  { intros a b Hb. unfold h, header_bytes. rewrite <- app_assoc, sub_app_l by lia. done. }
  split_and!; try done; rewrite ?Hin by lia; try (unfold header_prefix; 
    repeat (first [rewrite sub_app_l by (simpl_len; lia); rewrite sub_all by (simpl_len; lia); done
            | rewrite sub_app_r by (simpl_len; lia); rewrite ?length_to_le, ?Hid; simpl length; simpl Nat.sub]);
    rewrite sub_all; done).
  unfold h, header_bytes. rewrite <- app_assoc, sub_app_r, Hp by lia. simpl Nat.sub.
  rewrite sub_app_l by (simpl_len; lia). rewrite sub_all; [done|]. by rewrite length_to_le.
Qed.

Lemma decode_header sb rest supported read_safe :
  superblock_wf sb →
  decode_with_masks (header_bytes sb ++ rest) supported read_safe =
  let! _ := validate_decoded sb supported read_safe in Ok sb.
Proof.
  intros Hwf. destruct (wf_db_id _ Hwf) as [Hid _].
  pose proof (header_fields sb rest Hid) as (F0 & F8 & F12 & F16 & F24 & F28 & F44 & F52 & F60 & Fc).
  assert (64 ≤ length (header_bytes sb ++ rest))%nat as Hl
    by (rewrite length_app, length_header_bytes; lia).
  unfold decode_with_masks, read_db_id, HEADER_LEN, CHECKSUM_OFFSET.
  rewrite bool_decide_eq_false_2 by lia.
  rewrite !slice_Ok, !read_u32_Ok, !read_u64_Ok by lia. cbn [bind Nat.add].
  rewrite F0, F8, F12, F16, F24, F28, F44, F52, F60, Fc.
  rewrite bool_decide_eq_false_2 by tauto.
  rewrite (from_to_le_u 4 32 (crc32c _)), Z.eqb_refl by (done || apply crc32c_append_u32).
  rewrite (from_to_le_u 4 32 (format_version sb)), (from_to_le_u 4 32 (min_reader_version sb)),
    (from_to_le_u 8 64 (feature_flags sb)), (from_to_le_u 4 32 (page_size sb)),
    (from_to_le_u 8 64 (checkpoint_lsn sb)), (from_to_le_u 8 64 (catalog_root sb))
    by (done || apply Hwf).
  by destruct sb.
Qed.

Lemma validate_readable sb :
  valid_page_size (page_size sb) = true → readable sb →
  validate_decoded sb SUPPORTED_FLAG_MASK READ_SAFE_FLAG_MASK = Ok tt.
Proof.
  intros Hps [Hv Hf]. unfold validate_decoded.
  rewrite (proj2 (Z.ltb_ge _ _)) by done. rewrite Hf, Hps. done.
Qed.

Lemma decode_encoded sb rest :
  encodable sb → readable sb → decode (header_bytes sb ++ rest) = Ok sb.
Proof.
  intros (Hwf & Hps & _) Hr. unfold decode. rewrite decode_header by done.
  by rewrite validate_readable.
Qed.

Lemma validate_decoded_no_panic sb s r : validate_decoded sb s r ≠ Panic.
Proof. unfold validate_decoded. by repeat case_match. Qed.

Lemma decode_no_panic page s r : decode_with_masks page s r ≠ Panic.
Proof.
  unfold decode_with_masks, read_db_id, HEADER_LEN, CHECKSUM_OFFSET.
  case_bool_decide; [done|].
  rewrite !slice_Ok, !read_u32_Ok, !read_u64_Ok by lia. cbn [bind].
  case_bool_decide; [done|]. case_match; [done|].
  intros [?%validate_decoded_no_panic|(? & ? & ?)]%bind_Panic; done.
Qed.

(** What a successful decode establishes: the page starts with the header
    bytes of the superblock it returns, which passed validation. *)
Lemma decode_inv page s r sb :
  is_bytes page → decode_with_masks page s r = Ok sb →
  superblock_wf sb ∧ take 64 page = header_bytes sb ∧ validate_decoded sb s r = Ok tt.
Proof.
  intros Hb. unfold decode_with_masks, read_db_id, HEADER_LEN, CHECKSUM_OFFSET.
  case_bool_decide as Hl; [done|].
  rewrite !slice_Ok, !read_u32_Ok, !read_u64_Ok by lia. cbn [bind Nat.add].
  case_bool_decide as Hm; [done|].
  destruct (_ =? _) eqn:Hc; [|done]. cbn [negb]. apply Z.eqb_eq in Hc.
  intros (u & Hv & [= <-])%bind_Ok. destruct u.
  pose proof (read_field_u page 8 4 32) as R8. pose proof (read_field_u page 12 4 32) as R12.
  pose proof (read_field_u page 16 8 64) as R16. pose proof (read_field_u page 24 4 32) as R24.
  pose proof (read_field_u page 44 8 64) as R44. pose proof (read_field_u page 52 8 64) as R52.
  pose proof (read_field_u page 60 4 32) as R60. cbn [Nat.add] in *.
  split_and!; [| |done].
  - constructor; simpl; try (apply R8 || apply R12 || apply R16 || apply R24 || apply R44 || apply R52); try done; try lia.
    split; [apply length_sub; lia | by apply sub_bytes].
  - unfold header_bytes, header_prefix. cbn [format_version min_reader_version feature_flags
      page_size db_id checkpoint_lsn catalog_root].
    rewrite (proj2 (R8 Hb ltac:(lia) eq_refl)), (proj2 (R12 Hb ltac:(lia) eq_refl)),
      (proj2 (R16 Hb ltac:(lia) eq_refl)), (proj2 (R24 Hb ltac:(lia) eq_refl)),
      (proj2 (R44 Hb ltac:(lia) eq_refl)), (proj2 (R52 Hb ltac:(lia) eq_refl)), <- Hm.
    rewrite !sub_cat by lia. rewrite Hc.
    rewrite (proj2 (R60 Hb ltac:(lia) eq_refl)), sub_cat by lia. by unfold sub.
Qed.
End decode.

(** ** Correctness *)

Section claims.
Context `{Crc32c}.

(** Encoding a well-formed superblock into any page of at least 64 bytes
    succeeds, keeps the page length, zeroes everything past the header, and
    decoding that page gives the superblock back; the page bytes that follow
    the header are not looked at. *)
Theorem superblock_roundtrip sb page :
  encodable sb → readable sb → (64 ≤ length page)%nat →
  ∃ page', encode sb page = Ok page' ∧ length page' = length page ∧
    drop 64 page' = replicate (length page - 64) 0 ∧
    ∀ rest, decode (take 64 page' ++ rest) = Ok sb.
Proof.
  intros He Hr Hl. pose proof (wf_db_id _ (proj1 He)) as [Hid _].
  pose proof (length_header_bytes sb Hid) as Hh.
  eexists. split; [by apply encode_layout|].
  rewrite length_app, length_replicate, Hh, take_app_length', drop_app_length' by done.
  split_and!; [lia | done |]. intros rest. by apply decode_encoded.
Qed.

(** Decoding never panics, whatever the bytes, and is canonical: a page
    that decodes holds exactly the header bytes that encoding the decoded
    superblock writes, its fields fit their types, and it passed the version,
    feature-flag and page-size gates. *)
Theorem superblock_decode_canonical page :
  is_bytes page → decode page ≠ Panic ∧
  ∀ sb, decode page = Ok sb →
    superblock_wf sb ∧ readable sb ∧ valid_page_size (page_size sb) = true ∧
    (min_reader_version sb ≤ format_version sb →
     encode sb (replicate 64 0) = Ok (take 64 page)).
Proof.
  intros Hb. split; [apply decode_no_panic|]. intros sb Hd.
  destruct (decode_inv _ _ _ _ Hb Hd) as (Hwf & Ht & Hv).
  unfold validate_decoded in Hv. inv_ok Hv. reflect_bools.
  split_and!; [done | by split | done |]. intros Hle.
  rewrite encode_layout by (done || rewrite length_replicate; lia).
  rewrite length_replicate, Nat.sub_diag, app_nil_r, Ht. done.
Qed.
End claims.

(** A fresh database header, as [Pager::create] writes it. *)
Definition example_sb : Superblock :=
  mkSuperblock 1 1 33 4096 (replicate 16 7) 42 9.

Lemma superblock_roundtrip_witness :
  ∃ page', @encode castagnoli example_sb (replicate 100 1) = Ok page' ∧
    @decode castagnoli (take 64 page') = Ok example_sb.
Proof.
  destruct (@superblock_roundtrip castagnoli example_sb (replicate 100 1)) as (p & He & _ & _ & Hd).
  - split_and!; [by apply (bool_decide_unpack _); vm_compute | done | done].
  - done.
  - vm_compute. lia.
  - exists p. split; [done|]. rewrite <- (app_nil_r (take 64 p)). apply Hd.
Defined.

Lemma superblock_decode_canonical_witness :
  @decode castagnoli (replicate 64 0) ≠ Panic.
Proof.
  apply (@superblock_decode_canonical castagnoli (replicate 64 0)).
  apply (bool_decide_unpack _). by vm_compute.
Defined.
