(* ===== verification/FreePages.v ===== *)
(** Free-page bookkeeping codecs: [free_pages.rs].

    The superblock extension (bytes 64..92 of a slot page, with its own CRC),
    the retirement ledger pages, and the in-memory queue of pages written by a
    failed prospective generation. *)

From S2P Require Import Prelude Bytes.

Definition EXTENSION_OFFSET : nat := 64.
Definition EXTENSION_END : nat := 92.
Definition EXTENSION_CRC_OFFSET : nat := 88.
Definition LEDGER_ENTRIES_OFFSET : nat := 32.
Definition LEDGER_ENTRY_LEN : nat := 16.
Definition LEDGER_MAGIC : list Z := [68; 69; 86; 79; 78; 70; 80; 76].
Definition LEDGER_CRC_OFFSET : nat := 24.

Record SuperblockExtension := mkExtension {
  retire_ledger_head : Z;
  retire_ledger_tail : Z;
  retired_total : Z;
}.

Record LedgerEntry := mkEntry {
  page_id : Z;
  retired_lsn : Z;
}.

Record LedgerPage := mkLedger {
  next_page : Z;
  consumed_count : Z;
  entries : list LedgerEntry;
}.

#[export] Instance SuperblockExtension_eq_dec : EqDecision SuperblockExtension.
Proof. solve_decision. Defined.
#[export] Instance LedgerEntry_eq_dec : EqDecision LedgerEntry.
Proof. solve_decision. Defined.
#[export] Instance LedgerPage_eq_dec : EqDecision LedgerPage.
Proof. solve_decision. Defined.

(** ** Prospective retirements *)

(** [PROSPECTIVE_RETIREMENTS]: page ids queued per database id.  The process
    global map is the state these functions thread. *)
Notation Prospective := (gmap (list Z) (gset Z)).

Definition queue_prospective_pages (id : list Z) (pages : list Z) (queued : Prospective) : Prospective :=
  let entry := default ∅ (queued !! id) in
  <[id := entry ∪ list_to_set (filter (λ page_id, 2 ≤ page_id) pages)]> queued.

Definition prospective_page_count (id : list Z) (queued : Prospective) : nat :=
  match queued !! id with Some pages => size pages | None => 0%nat end.

(** The queued ids.  A [BTreeSet] iterates in ascending order; the callers only
    use the pages as a set. *)
Definition prospective_pages (id : list Z) (queued : Prospective) : gset Z :=
  default ∅ (queued !! id).

Definition published_prospective_pages (id : list Z) (pages : list Z) (queued : Prospective) : Prospective :=
  match queued !! id with
  | None => queued
  | Some entry =>
      let entry := foldl (λ e page_id, e ∖ {[page_id]}) entry pages in
      if bool_decide (entry = ∅) then delete id queued else <[id := entry]> queued
  end.

Section codecs.
Context `{Crc32c}.

(** ** The superblock extension *)

Definition encode_into (self : SuperblockExtension) (page : list Z) : outcome (list Z) :=
  if bool_decide (length page < EXTENSION_END)%nat
  then Err (InvalidArgument "superblock page of {} bytes cannot hold the {EXTENSION_END}-byte extension") else
  let! page := copy_at page 64 72 (to_le 8 (retire_ledger_head self)) in
  let! page := copy_at page 72 80 (to_le 8 (retire_ledger_tail self)) in
  let! page := copy_at page 80 88 (to_le 8 (retired_total self)) in
  let! covered := slice page EXTENSION_OFFSET EXTENSION_CRC_OFFSET in
  let checksum := crc32c covered in
  copy_at page EXTENSION_CRC_OFFSET EXTENSION_END (to_le 4 checksum).

(** [decode_from]: [Ok None] is degraded mode. *)
Definition decode_from (page : list Z) : outcome (option SuperblockExtension) :=
  if bool_decide (length page < EXTENSION_END)%nat then Ok None else
  let! expected := read_u32 page EXTENSION_CRC_OFFSET in
  let! covered := slice page EXTENSION_OFFSET EXTENSION_CRC_OFFSET in
  if negb (crc32c covered =? expected) then Ok None else
  let! head := read_u64 page 64 in
  let! tail := read_u64 page 72 in
  let! total := read_u64 page 80 in
  Ok (Some (mkExtension head tail total)).

Definition has_ledger (self : SuperblockExtension) : bool := negb (retire_ledger_head self =? 0).

(** ** Ledger pages *)

(** [LedgerPage::capacity]: the subtraction underflows below 32 bytes. *)
Definition capacity (page_size : nat) : outcome nat :=
  if bool_decide (page_size < LEDGER_ENTRIES_OFFSET)%nat then Panic
  else Ok ((page_size - LEDGER_ENTRIES_OFFSET) / LEDGER_ENTRY_LEN)%nat.

Definition ledger_checksum (self : LedgerPage) (page : list Z) : outcome Z :=
  let entries_end := (LEDGER_ENTRIES_OFFSET + length (entries self) * LEDGER_ENTRY_LEN)%nat in
  let! head := slice page 0 LEDGER_CRC_OFFSET in
  let hasher := crc32c_append 0 head in
  let! body := slice page LEDGER_ENTRIES_OFFSET entries_end in
  Ok (crc32c_append hasher body).

Definition write_entry (page : list Z) (ie : nat * LedgerEntry) : outcome (list Z) :=
  let '(index, entry) := ie in
  let offset := (LEDGER_ENTRIES_OFFSET + index * LEDGER_ENTRY_LEN)%nat in
  let! page := copy_at page offset (offset + 8) (to_le 8 (page_id entry)) in
  copy_at page (offset + 8) (offset + 16) (to_le 8 (retired_lsn entry)).

Definition ledger_encode (self : LedgerPage) (page_size : nat) : outcome (list Z) :=
  let! cap := capacity page_size in
  if bool_decide (cap < length (entries self))%nat
  then Err (InvalidArgument "{} ledger entries exceed the page capacity {}") else
  let! entry_count := ok_or (try_u 32 (zlen (entries self)))
    (InvalidArgument "ledger entry count exceeds u32") in
  if entry_count <? consumed_count self
  then Err (InvalidArgument "ledger consumed_count {} exceeds entry_count {entry_count}") else
  let page := replicate page_size 0 in
  let! page := copy_at page 0 8 LEDGER_MAGIC in
  let! page := copy_at page 8 16 (to_le 8 (next_page self)) in
  let! page := copy_at page 16 20 (to_le 4 entry_count) in
  let! page := copy_at page 20 24 (to_le 4 (consumed_count self)) in
  let! page := for_each (enumerate (entries self)) page write_entry in
  let! checksum := ledger_checksum self page in
  copy_at page LEDGER_CRC_OFFSET (LEDGER_CRC_OFFSET + 4) (to_le 4 checksum).

Definition read_entry (page : list Z) (index : nat) : outcome LedgerEntry :=
  let offset := (LEDGER_ENTRIES_OFFSET + index * LEDGER_ENTRY_LEN)%nat in
  let! page_id := read_u64 page offset in
  let! retired_lsn := read_u64 page (offset + 8) in
  Ok (mkEntry page_id retired_lsn).

Definition ledger_decode (page : list Z) : outcome LedgerPage :=
  if bool_decide (length page < LEDGER_ENTRIES_OFFSET)%nat
  then Err (Corrupt "ledger page is shorter than its header") else
  let! magic := slice page 0 8 in
  if bool_decide (magic ≠ LEDGER_MAGIC)
  then Err (Corrupt "ledger page magic is not DEVONFPL") else
  let! entry_count := read_u32 page 16 in
  let entry_count := Z.to_nat entry_count in
  let! consumed := read_u32 page 20 in
  let! cap := capacity (length page) in
  if bool_decide (cap < entry_count)%nat
  then Err (Corrupt "ledger entry_count exceeds the page capacity") else
  if bool_decide (entry_count < Z.to_nat consumed)%nat
  then Err (Corrupt "ledger consumed_count exceeds entry_count") else
  let! next := read_u64 page 8 in
  let! es := collect (read_entry page) (seq 0 entry_count) in
  let decoded := mkLedger next consumed es in
  let! expected := read_u32 page LEDGER_CRC_OFFSET in
  let! actual := ledger_checksum decoded page in
  if negb (actual =? expected)
  then Err (Corrupt "ledger page checksum does not match") else
  Ok decoded.
End codecs.

(** ** Well-formedness *)

Definition extension_wf (x : SuperblockExtension) : Prop :=
  in_u 64 (retire_ledger_head x) ∧ in_u 64 (retire_ledger_tail x) ∧ in_u 64 (retired_total x).

Definition entry_wf (e : LedgerEntry) : Prop := in_u 64 (page_id e) ∧ in_u 64 (retired_lsn e).

Definition ledger_wf (lp : LedgerPage) : Prop :=
  in_u 64 (next_page lp) ∧ in_u 32 (consumed_count lp) ∧ Forall entry_wf (entries lp).

(** What [encode] requires: the entries fit the page, the consumed prefix is
    one of them.  Pages are at most 64 KiB, so the count fits 32 bits. *)
Definition ledger_fits (lp : LedgerPage) (page_size : nat) : Prop :=
  (32 + 16 * length (entries lp) ≤ page_size)%nat ∧ zlen (entries lp) < 2 ^ 32 ∧
  consumed_count lp ≤ zlen (entries lp).

Definition entry_bytes (e : LedgerEntry) : list Z :=
  to_le 8 (page_id e) ++ to_le 8 (retired_lsn e).

Definition ledger_head (lp : LedgerPage) : list Z :=
  LEDGER_MAGIC ++ to_le 8 (next_page lp) ++ to_le 4 (zlen (entries lp)) ++
  to_le 4 (consumed_count lp).

Definition entries_bytes (es : list LedgerEntry) : list Z := concat (entry_bytes <$> es).

Lemma length_entry_bytes e : length (entry_bytes e) = 16%nat.
Proof. done. Qed.

Lemma length_entries_bytes es : length (entries_bytes es) = (16 * length es)%nat.
Proof. unfold entries_bytes. by apply length_concat_fixed. Qed.

(** The loop of [encode]: entries are appended to the written prefix. *)
Lemma write_entries es : ∀ k (done : list Z) n,
  length done = (32 + k * 16)%nat → (length done + 16 * length es ≤ n)%nat →
  for_each (enumerate_from k es) (done ++ replicate (n - length done) 0) write_entry =
  Ok ((done ++ entries_bytes es) ++ replicate (n - length done - 16 * length es) 0).
Proof.
  induction es as [|e es IH]; intros k done n Hd Hn.
  - unfold entries_bytes. simpl. rewrite app_nil_r. do 3 f_equal. lia.
  - rewrite enumerate_from_cons. cbn [for_each].
    unfold write_entry at 1, LEDGER_ENTRIES_OFFSET, LEDGER_ENTRY_LEN. simpl length in Hn.
    rewrite copy_at_Ok by (rewrite ?length_app, ?length_replicate, ?length_to_le; lia).
    cbn [bind]. rewrite take_app_length' by lia.
    rewrite drop_app_ge, drop_replicate by lia.
    rewrite (app_assoc done), copy_at_Ok by (rewrite ?length_app, ?length_replicate, ?length_to_le; lia).
    cbn [bind]. rewrite take_app_length' by (rewrite length_app, length_to_le; lia).
    rewrite drop_app_ge by (rewrite length_app, length_to_le; lia). rewrite drop_replicate.
    rewrite <- !app_assoc. rewrite (app_assoc (to_le 8 (page_id e))). fold (entry_bytes e).
    rewrite (app_assoc done (entry_bytes e)).
    set (done' := done ++ entry_bytes e).
    assert (length done' = (length done + 16)%nat) as Hd' by (unfold done'; rewrite length_app; done).
    replace (n - length done - (32 + k * 16 + 8 - length done) -
      (32 + k * 16 + 16 - length (done ++ to_le 8 (page_id e))))%nat
      with (n - length done')%nat by (rewrite Hd', length_app, length_to_le; lia).
    rewrite IH by (rewrite Hd'; lia).
    replace (n - length done - 16 * length (e :: es))%nat
      with (n - length done' - 16 * length es)%nat by (simpl length; lia).
    change (entries_bytes (e :: es)) with (entry_bytes e ++ entries_bytes es).
    generalize (n - length done' - 16 * length es)%nat. intros m.
    unfold done'. by rewrite <- !app_assoc.
Qed.

Section layout.
Context `{Crc32c}.

(** The bytes of a ledger page. *)
Definition ledger_bytes (lp : LedgerPage) (page_size : nat) : list Z :=
  ledger_head lp ++
  to_le 4 (crc32c_append (crc32c_append 0 (ledger_head lp)) (entries_bytes (entries lp))) ++
  replicate 4 0 ++ entries_bytes (entries lp) ++
  replicate (page_size - 32 - 16 * length (entries lp)) 0.

Lemma length_ledger_head lp : length (ledger_head lp) = 24%nat.
Proof. done. Qed.

Lemma capacity_fits n k : (32 + 16 * k ≤ n)%nat ↔ (32 ≤ n ∧ k ≤ (n - 32) / 16)%nat.
Proof.
  split; [intros; split; [lia|]|intros [? Hk]].
  - apply Nat.div_le_lower_bound; lia.
  - pose proof (Nat.Div0.mul_div_le (n - 32) 16). lia.
Qed.

Lemma ledger_encode_layout lp n :
  ledger_fits lp n → ledger_encode lp n = Ok (ledger_bytes lp n).
Proof.
  intros (Hcap & Hcnt & Hcons).
  unfold ledger_encode, capacity, LEDGER_ENTRIES_OFFSET, LEDGER_ENTRY_LEN, LEDGER_CRC_OFFSET.
  pose proof (proj1 (capacity_fits _ _) Hcap) as [Hn Hk].
  rewrite bool_decide_eq_false_2 by lia. cbn [bind].
  rewrite bool_decide_eq_false_2 by lia.
  rewrite try_u_in by (split; [apply zlen_nonneg | done]). cbn [ok_or bind].
  rewrite (proj2 (Z.ltb_ge _ _)) by done. cbn iota.
  change (replicate n 0) with ([] ++ replicate n 0).
  do 4 (append_field n).
  match goal with |- context [for_each _ (?d ++ replicate ?m 0) _] =>
    replace d with (ledger_head lp) by (unfold ledger_head; by rewrite <- !app_assoc);
    replace (replicate m 0) with (replicate 8 0 ++ replicate (n - 32) 0)
      by (rewrite <- replicate_add; f_equal; lia) end.
  rewrite app_assoc. set (done := ledger_head lp ++ replicate 8 0).
  assert (length done = 32%nat) as Hd by done.
  rewrite <- Hd at 1. unfold enumerate. rewrite (write_entries _ 0) by (rewrite Hd; lia).
  cbn [bind]. set (body := entries_bytes _). set (z := replicate _ 0).
  assert (length body = (16 * length (entries lp))%nat) as Hb by apply length_entries_bytes.
  unfold ledger_checksum, LEDGER_ENTRIES_OFFSET, LEDGER_ENTRY_LEN, LEDGER_CRC_OFFSET.
  rewrite !slice_Ok by (rewrite ?length_app; unfold z; rewrite ?length_replicate; lia).
  cbn [bind]. rewrite (sub_app_l 0 24), (sub_app_l 0 24) by (rewrite ?length_app; lia).
  assert (sub 0 24 done = ledger_head lp) as -> by done.
  rewrite (sub_app_l 32), sub_app_r, sub_all by (rewrite ?length_app, ?Hd, ?Hb; lia).
  rewrite copy_at_Ok by (rewrite ?length_app, ?length_to_le; lia). f_equal.
Qed.

(** Reading a laid-out page back. *)
Lemma ledger_fields lp n (p := ledger_bytes lp n) :
  ledger_fits lp n →
  length p = n ∧ sub 0 8 p = LEDGER_MAGIC ∧ sub 8 16 p = to_le 8 (next_page lp) ∧
  sub 16 20 p = to_le 4 (zlen (entries lp)) ∧ sub 20 24 p = to_le 4 (consumed_count lp) ∧
  sub 0 24 p = ledger_head lp ∧
  sub 24 28 p = to_le 4 (crc32c_append (crc32c_append 0 (ledger_head lp)) (entries_bytes (entries lp))) ∧
  sub 32 (32 + length (entries lp) * 16) p = entries_bytes (entries lp).
Proof.
  intros (Hcap & _). unfold p, ledger_bytes.
  pose proof (length_entries_bytes (entries lp)) as He.
  split_and!; try done.
  - rewrite !length_app, length_to_le, !length_replicate, He, length_ledger_head. lia.
  - rewrite !app_assoc, sub_app_l by (rewrite !length_app, He; simpl; lia).
    rewrite sub_app_r by done. rewrite sub_all; [done|]. rewrite He. simpl. lia.
Qed.

Lemma collect_entries (page : list Z) es :
  Forall entry_wf es → (32 + length es * 16 ≤ length page)%nat →
  sub 32 (32 + length es * 16) page = entries_bytes es →
  collect (read_entry page) (seq 0 (length es)) = Ok es.
Proof.
  intros Hwf Hl Hs. apply collect_Ok, Forall2_lookup. intros i.
  destruct (es !! i) as [e|] eqn:Ei.
  - pose proof (lookup_lt_Some _ _ _ Ei) as Hi. rewrite lookup_seq_lt, Nat.add_0_l by done. constructor.
    unfold read_entry, LEDGER_ENTRIES_OFFSET, LEDGER_ENTRY_LEN.
    rewrite !read_u64_Ok by lia. cbn [bind].
    assert (∀ c d, (c ≤ d)%nat → (d ≤ 16)%nat →
      sub (32 + i * 16 + c) (32 + i * 16 + d) page = sub c d (entry_bytes e)) as Hsub.
    { intros c d Hc Hd. pose proof (sub_concat_fixed entry_bytes es 16 i e (λ _ _, eq_refl) Ei) as Hf.
      fold (entries_bytes es) in Hf. rewrite <- Hs in Hf. rewrite <- Hf, !sub_sub by lia.
      f_equal; lia. }
    pose proof (Hsub 0 8)%nat as H1. pose proof (Hsub 8 16)%nat as H2.
    rewrite Nat.add_0_r in H1. rewrite (H1 ltac:(lia) ltac:(lia)).
    replace (32 + i * 16 + 8 + 8)%nat with (32 + i * 16 + 16)%nat by lia.
    rewrite (H2 ltac:(lia) ltac:(lia)).
    pose proof (proj1 (Forall_lookup _ _) Hwf i e Ei) as [Hp Hr].
    unfold entry_bytes. rewrite sub_app_l, sub_all by done.
    rewrite (sub_app_r 8 16), sub_all by done.
    rewrite !(from_to_le_u 8 64) by done. by destruct e.
  - apply lookup_ge_None_1 in Ei. rewrite lookup_seq_ge by lia. constructor.
Qed.

Lemma ledger_decode_layout lp n :
  ledger_wf lp → ledger_fits lp n → ledger_decode (ledger_bytes lp n) = Ok lp.
Proof.
  intros (Hn & Hc & Hes) Hf. pose proof Hf as (Hcap & Hcnt & Hcons).
  pose proof (ledger_fields lp n Hf) as (Hl & F0 & F8 & F16 & F20 & Fh & Fc & Fe).
  pose proof (proj1 (capacity_fits _ _) Hcap) as [Hn32 Hk].
  set (p := ledger_bytes lp n) in *.
  unfold ledger_decode, capacity, LEDGER_ENTRIES_OFFSET, LEDGER_ENTRY_LEN, LEDGER_CRC_OFFSET.
  rewrite bool_decide_eq_false_2 by lia.
  rewrite slice_Ok, !read_u32_Ok, !read_u64_Ok by lia. cbn [bind Nat.add].
  rewrite F0, F8, F16, F20, Fc, bool_decide_eq_false_2 by tauto.
  rewrite (from_to_le_u 4 32 (zlen _)) by first [done | split; [apply zlen_nonneg | done]].
  rewrite (from_to_le_u 4 32 (consumed_count _)), (from_to_le_u 8 64) by done.
  unfold in_u in Hc. unfold zlen in *. rewrite Nat2Z.id, Hl. cbn [bind].
  rewrite bool_decide_eq_false_2 by lia. rewrite bool_decide_eq_false_2 by lia.
  rewrite collect_entries by (done || lia). cbn [bind].
  unfold ledger_checksum, LEDGER_ENTRIES_OFFSET, LEDGER_ENTRY_LEN, LEDGER_CRC_OFFSET.
  cbn [entries]. rewrite !slice_Ok by lia. cbn [bind]. rewrite Fh, Fe.
  rewrite (from_to_le_u 4 32) by (done || apply crc32c_append_u32).
  rewrite Z.eqb_refl. by destruct lp.
Qed.

Lemma read_entry_wf page i e :
  is_bytes page → (32 + 16 * i + 16 ≤ length page)%nat → read_entry page i = Ok e → entry_wf e.
Proof.
  intros Hb Hl. unfold read_entry, LEDGER_ENTRIES_OFFSET, LEDGER_ENTRY_LEN.
  rewrite !read_u64_Ok by lia. cbn [bind].
  assert (32 + i * 16 + 16 ≤ length page)%nat as Hle by lia. clear Hl. revert Hle.
  generalize (32 + i * 16)%nat as o. intros o Ho He.
  assert (e = mkEntry (from_le (sub o (o + 8) page)) (from_le (sub (o + 8) (o + 8 + 8) page)))
    as -> by congruence.
  split; apply (read_field_u page _ 8 64); done || lia.
Qed.

(** A decoded page obeys the format's bounds. *)
Lemma ledger_decode_inv page lp :
  is_bytes page → ledger_decode page = Ok lp →
  ledger_wf lp ∧ ledger_fits lp (length page).
Proof.
  intros Hb. unfold ledger_decode, capacity, LEDGER_ENTRIES_OFFSET, LEDGER_ENTRY_LEN, LEDGER_CRC_OFFSET.
  case_bool_decide as Hl; [done|].
  rewrite slice_Ok, !read_u32_Ok, !read_u64_Ok by lia. cbn [bind Nat.add].
  case_bool_decide as Hm; [done|].
  pose proof (read_field_u page 8 8 64 Hb ltac:(lia) eq_refl) as [R8 _].
  pose proof (read_field_u page 16 4 32 Hb ltac:(lia) eq_refl) as [R16 _].
  pose proof (read_field_u page 20 4 32 Hb ltac:(lia) eq_refl) as [R20 _].
  cbn [Nat.add] in *.
  case_bool_decide as Hcap; [done|]. case_bool_decide as Hcons; [done|].
  intros (es & Hes & (chk & Hchk & Hlast)%bind_Ok)%bind_Ok.
  inv_ok Hlast. subst lp. pose proof Hes as Hes'%collect_Ok.
  pose proof (Forall2_length _ _ _ Hes') as Hlen. rewrite length_seq in Hlen.
  assert (32 + 16 * length es ≤ length page)%nat as Hfit.
  { apply capacity_fits. lia. }
  unfold in_u in *. split.
  - split_and!; simpl; [done..|]. apply Forall_lookup. intros i e Hi.
    destruct (Forall2_lookup_r _ _ _ _ _ Hes' Hi) as (j & Hj & Hread).
    apply lookup_seq in Hj as [-> Hj]. eapply read_entry_wf; [done| |done]. lia.
  - unfold ledger_fits, zlen; simpl. lia.
Qed.

Lemma ledger_decode_no_panic page : ledger_decode page ≠ Panic.
Proof.
  unfold ledger_decode, capacity, LEDGER_ENTRIES_OFFSET, LEDGER_ENTRY_LEN, LEDGER_CRC_OFFSET.
  case_bool_decide as Hl; [done|].
  rewrite slice_Ok, !read_u32_Ok, !read_u64_Ok by lia. cbn [bind Nat.add].
  case_bool_decide; [done|].
  case_bool_decide as Hcap; [done|]. case_bool_decide as Hcons; [done|].
  set (cnt := Z.to_nat (from_le (sub 16 20 page))) in *.
  assert (32 + 16 * cnt ≤ length page)%nat as Hfit by (apply capacity_fits; lia).
  intros [Hp|(es & Hes & Hp)]%bind_Panic; revert Hp.
  - apply collect_no_panic. intros i Hi%elem_of_seq.
    unfold read_entry, LEDGER_ENTRIES_OFFSET, LEDGER_ENTRY_LEN. rewrite !read_u64_Ok by lia. done.
  - apply collect_Ok, Forall2_length in Hes. rewrite length_seq in Hes.
    unfold ledger_checksum, LEDGER_ENTRIES_OFFSET, LEDGER_ENTRY_LEN, LEDGER_CRC_OFFSET.
    cbn [entries]. rewrite !slice_Ok by lia. cbn [bind]. by case_match.
Qed.
End layout.

(** ** Correctness *)

Section claims.
Context `{Crc32c}.

Lemma extension_codec x page :
  extension_wf x → (92 ≤ length page)%nat →
  ∃ page', encode_into x page = Ok page' ∧ length page' = length page ∧
    decode_from page' = Ok (Some x) ∧
    ∀ c d, (d ≤ 64 ∨ 92 ≤ c)%nat → sub c d page' = sub c d page.
Proof.
  intros (Hh & Ht & Hr) Hl.
  unfold encode_into, EXTENSION_OFFSET, EXTENSION_END, EXTENSION_CRC_OFFSET.
  rewrite bool_decide_eq_false_2 by lia.
  destruct (copy_at_spec page 64 72 (to_le 8 (retire_ledger_head x))) as (p1 & -> & L1 & E1 & D1);
    [lia..|by rewrite length_to_le|]. cbn [bind].
  destruct (copy_at_spec p1 72 80 (to_le 8 (retire_ledger_tail x))) as (p2 & -> & L2 & E2 & D2);
    [lia..|by rewrite length_to_le|]. cbn [bind].
  destruct (copy_at_spec p2 80 88 (to_le 8 (retired_total x))) as (p3 & -> & L3 & E3 & D3);
    [lia..|by rewrite length_to_le|]. cbn [bind].
  rewrite slice_Ok by lia. cbn [bind].
  destruct (copy_at_spec p3 88 92 (to_le 4 (crc32c (sub 64 88 p3)))) as (p4 & -> & L4 & E4 & D4);
    [lia..|by rewrite length_to_le|].
  exists p4. split_and!; [done | lia | |].
  - unfold decode_from, EXTENSION_OFFSET, EXTENSION_END, EXTENSION_CRC_OFFSET.
    rewrite bool_decide_eq_false_2 by lia.
    rewrite !read_u32_Ok, !read_u64_Ok, slice_Ok by lia. cbn [bind Nat.add].
    rewrite E4, (D4 64 88)%nat by lia.
    rewrite (from_to_le_u 4 32), Z.eqb_refl by (done || apply crc32c_append_u32). cbn [negb].
    rewrite (D4 64 72)%nat, (D3 64 72)%nat, (D2 64 72)%nat, E1 by lia.
    rewrite (D4 72 80)%nat, (D3 72 80)%nat, E2 by lia.
    rewrite (D4 80 88)%nat, E3 by lia.
    rewrite !(from_to_le_u 8 64) by done. by destruct x.
  - intros c d Hcd. rewrite D4, D3, D2, D1 by lia. done.
Qed.

(** The superblock extension and the ledger page round-trip.  Writing an
    extension leaves every byte outside 64..92 as it was and decodes to the
    same extension; a ledger page within its capacity encodes to one page of
    the requested size and decodes to itself. *)
Theorem free_pages_roundtrip x page lp n :
  extension_wf x → (92 ≤ length page)%nat → ledger_wf lp → ledger_fits lp n →
  (∃ page', encode_into x page = Ok page' ∧ length page' = length page ∧
     decode_from page' = Ok (Some x) ∧
     ∀ c d, (d ≤ 64 ∨ 92 ≤ c)%nat → sub c d page' = sub c d page) ∧
  (∃ bytes, ledger_encode lp n = Ok bytes ∧ length bytes = n ∧ ledger_decode bytes = Ok lp).
Proof.
  intros Hx Hp Hlp Hf. split; [by apply extension_codec|].
  exists (ledger_bytes lp n). split_and!.
  - by apply ledger_encode_layout.
  - by apply ledger_fields.
  - by apply ledger_decode_layout.
Qed.

(** Decoding a ledger page never panics, and a page it accepts obeys the
    format: the entries fit the page, the consumed prefix is within them, every
    field fits its type. *)
Theorem ledger_decode_validates page :
  is_bytes page → ledger_decode page ≠ Panic ∧
  ∀ lp, ledger_decode page = Ok lp → ledger_wf lp ∧ ledger_fits lp (length page).
Proof.
  intros Hb. split; [apply ledger_decode_no_panic|]. intros lp. by apply ledger_decode_inv.
Qed.
End claims.

Lemma free_pages_roundtrip_witness :
  ∃ bytes, @ledger_encode castagnoli (mkLedger 0 1 [mkEntry 7 3; mkEntry 9 4]) 128 = Ok bytes ∧
    @ledger_decode castagnoli bytes = Ok (mkLedger 0 1 [mkEntry 7 3; mkEntry 9 4]).
Proof.
  destruct (@free_pages_roundtrip castagnoli (mkExtension 5 5 2) (replicate 92 0)
    (mkLedger 0 1 [mkEntry 7 3; mkEntry 9 4]) 128) as [_ (bytes & He & _ & Hd)].
  - unfold extension_wf, in_u; simpl; lia.
  - vm_compute. lia.
  - split_and!; [by vm_compute.. | repeat constructor; by vm_compute].
  - unfold ledger_fits, zlen; simpl; lia.
  - exists bytes. split; [exact He | exact Hd].
Defined.

Lemma ledger_decode_validates_witness :
  @ledger_decode castagnoli (replicate 64 255) ≠ Panic.
Proof.
  apply (@ledger_decode_validates castagnoli (replicate 64 255)).
  apply (bool_decide_unpack _). by vm_compute.
Defined.

(** ** The prospective queue *)

(** Queued pages are data pages: superblock pages are filtered out. *)
Definition prospective_ok (q : Prospective) : Prop :=
  ∀ id pages, q !! id = Some pages → ∀ p, p ∈ pages → 2 ≤ p.

Lemma foldl_difference (pages : list Z) (e : gset Z) :
  foldl (λ e page_id, e ∖ {[page_id]}) e pages = e ∖ list_to_set pages.
Proof.
  revert e. induction pages as [|p ps IH]; intros e; simpl; [set_solver|].
  rewrite IH. set_solver.
Qed.

(** The prospective queue is a set of data pages per database: queueing
    adds the ids that are not superblock pages, publication removes exactly the
    published ids (and the emptied entry), other databases are untouched. *)
Theorem prospective_queue_spec id pages q :
  prospective_ok q →
  prospective_ok (queue_prospective_pages id pages q) ∧
  prospective_ok (published_prospective_pages id pages q) ∧
  (∀ p, p ∈ prospective_pages id (queue_prospective_pages id pages q) ↔
        p ∈ prospective_pages id q ∨ (p ∈ pages ∧ 2 ≤ p)) ∧
  (∀ p, p ∈ prospective_pages id (published_prospective_pages id pages q) ↔
        p ∈ prospective_pages id q ∧ p ∉ pages) ∧
  (∀ id', id' ≠ id →
     queue_prospective_pages id pages q !! id' = q !! id' ∧
     published_prospective_pages id pages q !! id' = q !! id').
Proof.
  intros Hq. unfold queue_prospective_pages, published_prospective_pages, prospective_pages.
  split_and!.
  - intros id' ps. rewrite lookup_insert. case_decide; [|by apply Hq].
    intros [= <-] p. rewrite elem_of_union, elem_of_list_to_set, list_elem_of_filter.
    intros [Hp|[? _]]; [|done]. destruct (q !! id) eqn:E; simpl in Hp; [by eapply Hq|set_solver].
  - intros id' ps. destruct (q !! id) as [e|] eqn:E; [|by apply Hq].
    rewrite foldl_difference. case_bool_decide.
    + intros [_ ?]%lookup_delete_Some. by eapply Hq.
    + rewrite lookup_insert. case_decide; [|by apply Hq].
      intros [= <-] p [Hp _]%elem_of_difference. by eapply Hq.
  - intros p. rewrite lookup_insert_eq. simpl.
    rewrite elem_of_union, elem_of_list_to_set, list_elem_of_filter. tauto.
  - intros p. destruct (q !! id) as [e|] eqn:E; [|rewrite E; set_solver].
    rewrite foldl_difference. case_bool_decide as He.
    + rewrite lookup_delete_eq. simpl. set_solver.
    + rewrite lookup_insert_eq. simpl. set_solver.
  - intros id' Hne. rewrite lookup_insert_ne by done. split; [done|].
    destruct (q !! id); [|done]. case_bool_decide; [by rewrite lookup_delete_ne|by rewrite lookup_insert_ne].
Qed.

Lemma prospective_queue_spec_witness :
  5 ∈ prospective_pages [1] (queue_prospective_pages [1] [0; 5] ∅).
Proof.
  destruct (prospective_queue_spec [1] [0; 5] ∅) as (_ & _ & Hq & _).
  - intros id ps H. rewrite lookup_empty in H. discriminate H.
  - apply Hq. right. split; [apply (bool_decide_unpack _); vm_compute; exact I|lia].
Defined.
