(* ===== verification/Wal.v ===== *)
(** The write-ahead log sidecar: [wal.rs].

    The log file is its byte string.  [WalReader::read_next] reads the record
    at a byte cursor; the loops over it ([replay], [replay_from],
    [scan_intact_prefix]) are [read_from].  The writer keeps the file, the end
    of the intact prefix, the next LSN and the poison reason, and threads them
    through [append]; a failed write is an input of [append]. *)

From S2P Require Import Prelude Bytes.
From Equations Require Import Equations.

Definition HEADER_LEN : nat := 16.

(** One intact record: its LSN and its payload. *)
Notation WalRecord := (Z * list Z)%type.

Record WalWriter := mkWriter {
  file : list Z;
  log_end : nat;
  next_lsn : option Z;
  poison_reason : option string;
}.

(** What a failing [write_all] leaves behind: how many of the bytes reached the
    file, and whether the [set_len] that truncates them succeeds. *)
Inductive WriteFault :=
| NoFault
| WriteFails (written : nat) (truncate_ok : bool).

Section wal.
Context `{Crc32c}.

Definition encode_header (lsn : Z) (payload : list Z) : outcome (list Z) :=
  let! payload_len := ok_or (try_u 32 (zlen payload))
    (InvalidArgument "WAL payload length exceeds u32::MAX") in
  let lsn_bytes := to_le 8 lsn in
  let checksum := crc32c_append (crc32c lsn_bytes) payload in
  let header := replicate HEADER_LEN 0 in
  let! header := copy_at header 0 4 (to_le 4 payload_len) in
  let! header := copy_at header 4 8 (to_le 4 checksum) in
  copy_at header 8 16 lsn_bytes.

(** [read_payload]: a payload that runs past the end of the file is a torn
    tail.  (The source also refuses a payload it cannot allocate.) *)
Definition read_payload (file : list Z) (pos payload_len : nat) : option (list Z) :=
  if bool_decide (length file - pos < payload_len)%nat then None
  else Some (sub pos (pos + payload_len) file).

(** [read_next] at the byte cursor [pos]: the record and the following cursor,
    or [None] at the end of the intact prefix. *)
Definition read_next (file : list Z) (pos : nat) (last_lsn : option Z) : option (WalRecord * nat) :=
  if bool_decide (length file < pos + HEADER_LEN)%nat then None else
  let header := sub pos (pos + HEADER_LEN) file in
  let payload_len := Z.to_nat (from_le (sub 0 4 header)) in
  let expected_crc := from_le (sub 4 8 header) in
  let lsn_bytes := sub 8 16 header in
  let lsn := from_le lsn_bytes in
  match read_payload file (pos + HEADER_LEN) payload_len with
  | None => None
  | Some payload =>
      let actual_crc := crc32c_append (crc32c lsn_bytes) payload in
      if negb (actual_crc =? expected_crc) ||
         match last_lsn with Some last => lsn <=? last | None => false end
      then None
      else Some ((lsn, payload), (pos + HEADER_LEN + payload_len)%nat)
  end.

Lemma read_next_advances f pos last r pos' :
  read_next f pos last = Some (r, pos') → (pos < pos' ≤ length f)%nat.
Proof.
  unfold read_next, read_payload, HEADER_LEN. case_bool_decide; [done|].
  case_bool_decide; [done|]. case_match; naive_solver lia.
Qed.

(** The loop over [read_next]: the records from [pos] on, the end of the intact
    prefix and the last LSN seen. *)
Equations? read_from (f : list Z) (pos : nat) (last : option Z) :
  list WalRecord * (nat * option Z) by wf (length f - pos)%nat lt :=
  read_from f pos last with exist (λ r, read_next f pos last = r) (read_next f pos last) eq_refl => {
    | exist _ None _ := ([], (pos, last));
    | exist _ (Some (r, pos')) Hr :=
        let '(rs, e) := read_from f pos' (Some r.1) in (r :: rs, e) }.
Proof. apply read_next_advances in Hr. lia. Qed.

(** [replay]: every intact record of the file, in file order. *)
Definition replay (f : list Z) : list WalRecord := (read_from f 0 None).1.

(** [replay_from]: the records from a cursor, and the following cursor. *)
Definition replay_from (f : list Z) (offset : nat) : outcome (list WalRecord * nat) :=
  if bool_decide (length f < offset)%nat
  then Err (InvalidArgument "WAL replay offset {offset} is beyond the file length {file_len}")
  else let '(rs, (new_offset, _)) := read_from f offset None in Ok (rs, new_offset).

Definition scan_intact_prefix (f : list Z) : nat * option Z := (read_from f 0 None).2.

Definition next_lsn_after (last_lsn : option Z) (requested : Z) : option Z :=
  match last_lsn with
  | Some last =>
      match try_u 64 (last + 1) with
      | Some next => Some (Z.max requested next)
      | None => None
      end
  | None => Some requested
  end.

(** [WalWriter::open] on the bytes of an existing (or empty) file. *)
Definition open (f : list Z) (requested : Z) : WalWriter :=
  let '(log_end, last_lsn) := scan_intact_prefix f in
  mkWriter (take log_end f) log_end (next_lsn_after last_lsn requested) None.

Definition ensure_usable (w : WalWriter) : outcome unit :=
  match poison_reason w with
  | Some context => Err (Corrupt context)
  | None => Ok tt
  end.

(** [write_all] at [log_end]: the bytes replace what follows. *)
Definition write_at (f : list Z) (pos : nat) (bytes : list Z) : list Z :=
  take pos f ++ bytes ++ drop (pos + length bytes) f.

Definition recover_failed_append (w : WalWriter) (truncate_ok : bool) : DevonError * WalWriter :=
  if truncate_ok
  then (Io "append failed",
        mkWriter (take (log_end w) (file w)) (log_end w) (next_lsn w) (poison_reason w))
  else (Corrupt "WAL writer poisoned: append failed ({write_error}) and truncating the torn tail to byte {} failed ({truncate_error})",
        mkWriter (file w) (log_end w) (next_lsn w)
          (Some "WAL writer poisoned: append failed ({write_error}) and truncating the torn tail to byte {} failed ({truncate_error})"%string)).

Definition append (fault : WriteFault) (payload : list Z) (w : WalWriter) : outcome Z * WalWriter :=
  match ensure_usable w with
  | Err e => (Err e, w)
  | Panic => (Panic, w)
  | Ok _ =>
    match next_lsn w with
    | None => (Err (InvalidArgument "WAL LSN space is exhausted"), w)
    | Some lsn =>
      match encode_header lsn payload with
      | Err e => (Err e, w)
      | Panic => (Panic, w)
      | Ok header =>
        let record_len := Z.of_nat HEADER_LEN + zlen payload in
        match try_u 64 (Z.of_nat (log_end w) + record_len) with
        | None => (Err (InvalidArgument "WAL file length exceeds u64::MAX"), w)
        | Some new_log_end =>
          match fault with
          | WriteFails written truncate_ok =>
              let torn := write_at (file w) (log_end w) (take written (header ++ payload)) in
              let '(e, w') := recover_failed_append
                (mkWriter torn (log_end w) (next_lsn w) (poison_reason w)) truncate_ok in
              (Err e, w')
          | NoFault =>
              (Ok lsn, mkWriter (write_at (file w) (log_end w) (header ++ payload))
                 (Z.to_nat new_log_end) (try_u 64 (lsn + 1)) (poison_reason w))
          end
        end
      end
    end
  end.

(** The bytes of one record. *)
Definition frame (r : WalRecord) : list Z :=
  to_le 4 (zlen r.2) ++
  to_le 4 (crc32c_append (crc32c (to_le 8 r.1)) r.2) ++ to_le 8 r.1 ++ r.2.

Definition frames (rs : list WalRecord) : list Z := concat (frame <$> rs).

Definition record_wf (r : WalRecord) : Prop := in_u 64 r.1 ∧ zlen r.2 < 2 ^ 32.

Lemma length_frame r : length (frame r) = (16 + length r.2)%nat.
Proof. unfold frame. rewrite !length_app, !length_to_le. lia. Qed.

Lemma encode_header_Ok lsn payload :
  zlen payload < 2 ^ 32 →
  encode_header lsn payload = Ok (take 16 (frame (lsn, payload))).
Proof.
  intros Hl. unfold encode_header, HEADER_LEN.
  rewrite try_u_in by (split; [apply zlen_nonneg | done]). cbn [ok_or bind].
  change (replicate 16 0) with ([] ++ replicate 16 0).
  do 2 (append_field 16%nat).
  rewrite (copy_at_append _ _ _ 16) by (simpl_len; lia).
  unfold frame. rewrite !app_assoc, take_app_length' by done. by rewrite app_nil_r.
Qed.

Lemma read_from_eq f pos last :
  read_from f pos last =
  match read_next f pos last with
  | None => ([], (pos, last))
  | Some (r, pos') => let '(rs, e) := read_from f pos' (Some r.1) in (r :: rs, e)
  end.
Proof.
  rewrite read_from_equation_1. unfold read_from_unfold_clause_1.
  destruct (read_next f pos last) as [[r pos']|]; done.
Qed.

(** ** Reading frames *)

Lemma frame_fields r :
  zlen r.2 < 2 ^ 32 → let h := take 16 (frame r) in
  Z.to_nat (from_le (sub 0 4 h)) = length r.2 ∧
  sub 4 8 h = to_le 4 (crc32c_append (crc32c (to_le 8 r.1)) r.2) ∧
  sub 8 16 h = to_le 8 r.1.
Proof.
  intros Hl h. unfold h, frame. rewrite !sub_take by lia.
  split_and!; [|done..].
  change (sub 0 4 _) with (to_le 4 (zlen r.2)).
  rewrite (from_to_le_u 4 32) by first [done | split; [apply zlen_nonneg | done]].
  unfold zlen. lia.
Qed.

(** The header of a frame found at [length pre] in any longer byte string. *)
Lemma sub_header_app (pre : list Z) r post :
  sub (length pre) (length pre + 16) (pre ++ frame r ++ post) = take 16 (frame r).
Proof.
  rewrite sub_app_r by lia. replace (length pre - length pre)%nat with 0%nat by lia.
  replace (length pre + 16 - length pre)%nat with 16%nat by lia.
  rewrite sub_app_l by (rewrite length_frame; lia). done.
Qed.

Lemma read_next_frame pre r post last :
  record_wf r → (∀ l, last = Some l → l < r.1) →
  read_next (pre ++ frame r ++ post) (length pre) last =
  Some (r, (length pre + length (frame r))%nat).
Proof.
  intros [Hlsn Hlen] Hlast. unfold read_next, read_payload, HEADER_LEN.
  rewrite bool_decide_eq_false_2 by (rewrite !length_app, length_frame; lia).
  rewrite sub_header_app. destruct (frame_fields r Hlen) as (-> & -> & ->).
  rewrite bool_decide_eq_false_2 by (rewrite !length_app, length_frame; lia).
  assert (sub (length pre + 16) (length pre + 16 + length r.2) (pre ++ frame r ++ post) = r.2) as ->.
  { rewrite sub_app_r by lia.
    replace (length pre + 16 - length pre)%nat with 16%nat by lia.
    replace (length pre + 16 + length r.2 - length pre)%nat with (16 + length r.2)%nat by lia.
    rewrite sub_app_l by (rewrite length_frame; lia).
    unfold frame. rewrite !app_assoc, sub_app_r, sub_all by (rewrite !length_app, !length_to_le; lia). done. }
  rewrite (from_to_le_u 4 32), Z.eqb_refl by (done || apply crc32c_append_u32). cbn [negb orb].
  rewrite (from_to_le_u 8 64) by done.
  assert (match last with Some l => r.1 <=? l | None => false end = false) as ->.
  { destruct last as [l|]; [|done]. apply Z.leb_gt. by apply Hlast. }
  rewrite length_frame. destruct r; simpl. do 2 f_equal. lia.
Qed.

(** A strict prefix of a frame is never a record: a torn tail. *)
Lemma read_next_torn pre r k last :
  record_wf r → (k < length (frame r))%nat →
  read_next (pre ++ take k (frame r)) (length pre) last = None.
Proof.
  intros [_ Hlen] Hk. rewrite length_frame in Hk. unfold read_next, read_payload, HEADER_LEN.
  case_bool_decide as Hs; [done|]. rewrite length_app, length_take, length_frame in Hs.
  assert (sub (length pre) (length pre + 16) (pre ++ take k (frame r)) = take 16 (frame r)) as ->.
  { rewrite sub_app_r by lia. replace (length pre - length pre)%nat with 0%nat by lia.
    replace (length pre + 16 - length pre)%nat with 16%nat by lia.
    rewrite sub_take by lia. done. }
  destruct (frame_fields r Hlen) as (-> & _).
  rewrite bool_decide_eq_true_2; [done|]. rewrite length_app, length_take, length_frame. lia.
Qed.

Lemma read_next_end pre last : read_next pre (length pre) last = None.
Proof. unfold read_next, HEADER_LEN. rewrite bool_decide_eq_true_2; [done|lia]. Qed.

(** LSNs strictly ascend from [last] on. *)
Fixpoint ascending (last : option Z) (rs : list WalRecord) : Prop :=
  match rs with
  | [] => True
  | r :: rs => (∀ l, last = Some l → l < r.1) ∧ ascending (Some r.1) rs
  end.

Fixpoint last_of (last : option Z) (rs : list WalRecord) : option Z :=
  match rs with [] => last | r :: rs => last_of (Some r.1) rs end.

Lemma last_of_app last rs rs' : last_of last (rs ++ rs') = last_of (last_of last rs) rs'.
Proof. revert last. induction rs; intros; simpl; auto. Qed.

Lemma ascending_app last rs rs' :
  ascending last (rs ++ rs') ↔ ascending last rs ∧ ascending (last_of last rs) rs'.
Proof. revert last. induction rs as [|r rs IH]; intros last; simpl; [tauto|]. rewrite IH. tauto. Qed.

Lemma frames_app rs rs' : frames (rs ++ rs') = frames rs ++ frames rs'.
Proof. unfold frames. by rewrite fmap_app, concat_app. Qed.

Lemma read_from_frames rs : ∀ pre post last,
  Forall record_wf rs → ascending last rs →
  read_from (pre ++ frames rs ++ post) (length pre) last =
  let '(rs', e) := read_from (pre ++ frames rs ++ post) (length pre + length (frames rs)) (last_of last rs)
  in (rs ++ rs', e).
Proof.
  induction rs as [|r rs IH]; intros pre post last Hwf Ha.
  - simpl. rewrite Nat.add_0_r. by destruct (read_from _ _ _).
  - inversion Hwf as [|?? Hr Hrs]; subst. destruct Ha as [Hl Ha].
    change (frames (r :: rs)) with (frame r ++ frames rs).
    rewrite <- app_assoc. rewrite read_from_eq, read_next_frame by done.
    pose proof (IH (pre ++ frame r) post (Some r.1) Hrs Ha) as IH'.
    rewrite <- app_assoc, !length_app in IH'. rewrite IH', length_app. simpl last_of.
    rewrite Nat.add_assoc. clear. by case (read_from _ _ _).
Qed.

(** Intact records followed by a strict prefix of a frame (maybe empty). *)
Definition torn_log (rs : list WalRecord) (f : list Z) : Prop :=
  Forall record_wf rs ∧ ascending None rs ∧
  ∃ r k, record_wf r ∧ (k < length (frame r))%nat ∧ f = frames rs ++ take k (frame r).

Lemma torn_log_intact rs :
  Forall record_wf rs → ascending None rs → torn_log rs (frames rs).
Proof.
  intros. split_and!; [done..|]. exists (0, []), 0%nat.
  rewrite length_frame, take_0, app_nil_r. split_and!; [by vm_compute | lia | done].
Qed.

Lemma read_from_torn rs f :
  torn_log rs f → read_from f 0 None = (rs, (length (frames rs), last_of None rs)).
Proof.
  intros (Hwf & Ha & r & k & Hr & Hk & ->).
  pose proof (read_from_frames rs [] (take k (frame r)) None Hwf Ha) as E.
  simpl in E. rewrite E, read_from_eq, read_next_torn by done. simpl. by rewrite app_nil_r.
Qed.

Lemma replay_torn rs f : torn_log rs f → replay f = rs.
Proof. intros Hf. unfold replay. by rewrite (read_from_torn _ _ Hf). Qed.

(** ** The writer *)

(** The acknowledged records [rs] of a writer: its intact prefix holds exactly
    their frames, the next LSN is above them, and a poisoned writer's file ends
    in a torn tail at worst. *)
Record writer_inv (w : WalWriter) (rs : list WalRecord) : Prop := {
  inv_end : log_end w = length (frames rs);
  inv_log : torn_log rs (file w);
  inv_clean : poison_reason w = None → file w = frames rs;
  inv_next : ∀ n, next_lsn w = Some n → in_u 64 n ∧ ∀ l, last_of None rs = Some l → l < n;
}.

Lemma ascending_records_snoc rs r :
  ascending None rs → (∀ l, last_of None rs = Some l → l < r.1) → ascending None (rs ++ [r]).
Proof. intros Ha Hl. apply ascending_app. simpl. auto. Qed.

Lemma open_inv rs f requested :
  torn_log rs f → in_u 64 requested → writer_inv (open f requested) rs.
Proof.
  intros Hf Hreq. pose proof Hf as (Hwf & Ha & r & k & Hr & Hk & Ef).
  unfold open, scan_intact_prefix. rewrite (read_from_torn _ _ Hf). cbn [snd].
  assert (take (length (frames rs)) f = frames rs) as Ht by (rewrite Ef; by apply take_app_length').
  split; simpl.
  - done.
  - rewrite Ht. by apply torn_log_intact.
  - by rewrite Ht.
  - intros n. destruct (last_of None rs) as [l|] eqn:El; simpl.
    + destruct (try_u 64 (l + 1)) as [m|] eqn:Em; [|done].
      apply try_u_Some in Em as [-> Hm]. intros [= <-]. unfold in_u in *.
      split; [lia|]. intros ? [= <-]. lia.
    + intros [= <-]. done.
Qed.

Lemma write_at_end f bytes : write_at f (length f) bytes = f ++ bytes.
Proof. unfold write_at. rewrite take_ge, drop_ge by lia. by rewrite app_nil_r. Qed.

(** Every branch of [append]: an acknowledged append extends the records, every
    error keeps them. *)
Lemma append_inv fault payload w rs :
  writer_inv w rs →
  (∀ n b, fault = WriteFails n b → (n < 16 + length payload)%nat) →
  match append fault payload w with
  | (Ok lsn, w') => next_lsn w = Some lsn ∧ writer_inv w' (rs ++ [(lsn, payload)])
  | (Err _, w') => writer_inv w' rs
  | (Panic, _) => False
  end.
Proof.
  intros Hi Hfault. unfold append, ensure_usable.
  destruct (poison_reason w) eqn:Hpo; [done|].
  destruct (next_lsn w) as [lsn|] eqn:Hn; [|done].
  destruct (decide (zlen payload < 2 ^ 32)) as [Hlen|Hlen]; last first.
  { unfold encode_header. rewrite (proj2 (try_u_None 32 _)); [done|]. unfold in_u. lia. }
  rewrite encode_header_Ok by done.
  destruct (try_u 64 _) as [e|] eqn:He; [|done].
  apply try_u_Some in He as [-> He]. pose proof (inv_next _ _ Hi _ Hn) as [Hlsn Hgt].
  pose proof (inv_clean _ _ Hi Hpo) as Hf. pose proof (inv_end _ _ Hi) as Hend.
  pose proof (inv_log _ _ Hi) as (Hwf & Ha & _).
  assert (record_wf (lsn, payload)) as Hr by done.
  assert (take 16 (frame (lsn, payload)) ++ payload = frame (lsn, payload)) as Hfr.
  { unfold frame. rewrite !app_assoc, take_app_length' by done. done. }
  rewrite Hfr, Hend, Hf, !write_at_end. destruct fault as [|written truncate_ok].
  - split; [done|]. assert (torn_log (rs ++ [(lsn, payload)]) (frames (rs ++ [(lsn, payload)]))) as Ht.
    { apply torn_log_intact; [by apply Forall_app; auto | by apply ascending_records_snoc]. }
    assert (frames (rs ++ [(lsn, payload)]) = frames rs ++ frame (lsn, payload)) as Hfs.
    { rewrite frames_app. unfold frames at 2. simpl. by rewrite app_nil_r. }
    split; simpl.
    + rewrite Hfs, length_app, length_frame. simpl. unfold zlen, HEADER_LEN. lia.
    + by rewrite <- Hfs.
    + by rewrite Hfs.
    + intros n Hx%try_u_Some. destruct Hx as [-> Hx]. split; [done|].
      rewrite last_of_app. simpl. intros l [= <-]. lia.
  - specialize (Hfault _ _ eq_refl). unfold recover_failed_append.
    destruct truncate_ok; split; simpl; try done; rewrite ?write_at_end, ?Hn; try (by intros ? [= <-]).
    + rewrite take_app_length' by done. by apply torn_log_intact.
    + intros _. by rewrite take_app_length'.
    + split_and!; [done..|]. exists (lsn, payload), written. rewrite length_frame. done.
Qed.

(** A run of the writer: the acknowledged records, in order. *)
Fixpoint run (ops : list (WriteFault * list Z)) (w : WalWriter) : list WalRecord * WalWriter :=
  match ops with
  | [] => ([], w)
  | (fault, payload) :: ops =>
      match append fault payload w with
      | (Ok lsn, w') => let '(rs, w'') := run ops w' in ((lsn, payload) :: rs, w'')
      | (_, w') => run ops w'
      end
  end.

(** A write that fails has not written every byte. *)
Definition partial_faults (ops : list (WriteFault * list Z)) : Prop :=
  Forall (λ op, ∀ n b, op.1 = WriteFails n b → (n < 16 + length op.2)%nat) ops.

Lemma run_inv ops : ∀ w rs acked w',
  partial_faults ops → writer_inv w rs → run ops w = (acked, w') →
  writer_inv w' (rs ++ acked).
Proof.
  induction ops as [|[fault payload] ops IH]; intros w rs acked w' Hf Hi; simpl.
  - intros [= <- <-]. by rewrite app_nil_r.
  - inversion Hf as [|?? H1 H2]; subst. pose proof (append_inv fault payload w rs Hi H1) as Ha.
    destruct (append fault payload w) as [[lsn|e|] w1]; [|by apply IH|done].
    destruct Ha as [_ Ha]. destruct (run ops w1) as [rs' w''] eqn:E. intros [= <- <-].
    apply (IH _ _ _ _ H2 Ha) in E. by rewrite <- app_assoc in E.
Qed.

(** ** Which appends are acknowledged *)

(** The LSN space, the payload length field and the file length leave room. *)
Definition append_fits (n end_ : Z) (payload : list Z) : bool :=
  (n <? 2 ^ 64) && (zlen payload <? 2 ^ 32) && (end_ + 16 + zlen payload <? 2 ^ 64).

(** The records a log with next LSN [n] and length [end_] acknowledges: every
    append that fits and whose write succeeds, at consecutive LSNs, until a torn
    tail cannot be cut off. *)
Fixpoint expected_records (n end_ : Z) (ops : list (WriteFault * list Z)) : list WalRecord :=
  match ops with
  | [] => []
  | (fault, payload) :: ops =>
      if append_fits n end_ payload then
        match fault with
        | NoFault => (n, payload) :: expected_records (n + 1) (end_ + 16 + zlen payload) ops
        | WriteFails _ true => expected_records n end_ ops
        | WriteFails _ false => []
        end
      else expected_records n end_ ops
  end.

(** A usable writer whose next LSN is [n] and whose log ends at [end_]. *)
Definition writer_at (w : WalWriter) (n end_ : Z) : Prop :=
  poison_reason w = None ∧ next_lsn w = try_u 64 n ∧ 0 ≤ n ∧ Z.of_nat (log_end w) = end_.

Lemma append_exact fault payload w n end_ :
  writer_at w n end_ →
  if append_fits n end_ payload then
    match fault with
    | NoFault => ∃ w', append fault payload w = (Ok n, w') ∧ writer_at w' (n + 1) (end_ + 16 + zlen payload)
    | WriteFails _ true => ∃ e w', append fault payload w = (Err e, w') ∧ writer_at w' n end_
    | WriteFails _ false => ∃ e w', append fault payload w = (Err e, w') ∧ poison_reason w' ≠ None
    end
  else ∃ e, append fault payload w = (Err e, w).
Proof.
  intros (Hp & Hn & H0 & He). pose proof (zlen_nonneg payload). unfold append, ensure_usable, append_fits, HEADER_LEN. rewrite Hp, Hn, He.
  destruct (Z.ltb_spec n (2 ^ 64)) as [Hlt|Hge]; cbn [andb]; [rewrite try_u_in by done|by rewrite (proj2 (try_u_None 64 n)) by (unfold in_u; lia); eauto].
  destruct (Z.ltb_spec (zlen payload) (2 ^ 32)) as [Hl|Hl]; cbn [andb]; last first.
  { unfold encode_header. rewrite (proj2 (try_u_None 32 _)) by (unfold in_u; lia). cbn [ok_or bind]. eauto. }
  rewrite encode_header_Ok by done.
  destruct (Z.ltb_spec (end_ + 16 + zlen payload) (2 ^ 64)) as [Hs|Hs].
  2: rewrite (proj2 (try_u_None 64 _)) by (unfold in_u; lia); eauto.
  rewrite try_u_in by (unfold in_u; lia). unfold recover_failed_append. destruct fault as [|written []].
  - eexists. split; [done|]. split_and!; simpl; [done|done|lia|lia].
  - eexists _, _. split; [done|]. split_and!; simpl; [done|by rewrite try_u_in|lia|done].
  - eexists _, _. split; [done|]. done.
Qed.

Lemma run_poisoned ops w : poison_reason w ≠ None → (run ops w).1 = [].
Proof.
  intros Hp. induction ops as [|[fault payload] ops IH]; [done|]. cbn [run]. unfold append, ensure_usable.
  by destruct (poison_reason w).
Qed.

Lemma run_expected ops : ∀ w n end_, writer_at w n end_ → (run ops w).1 = expected_records n end_ ops.
Proof.
  induction ops as [|[fault payload] ops IH]; intros w n end_ Hw; [done|]. cbn [run expected_records].
  pose proof (append_exact fault payload w n end_ Hw) as Ha. destruct (append_fits n end_ payload); [destruct fault as [|written []]|].
  - destruct Ha as (w' & -> & Hw'). specialize (IH w' _ _ Hw'). destruct (run ops w'). simpl in *. by rewrite IH.
  - destruct Ha as (e & w' & -> & Hw'). auto.
  - destruct Ha as (e & w' & -> & Hw'). by apply run_poisoned.
  - destruct Ha as (e & ->). auto.
Qed.

Lemma append_refused payload w rs :
  writer_inv w rs → poison_reason w = None → zlen payload < 2 ^ 32 →
  match append NoFault payload w with
  | (Err _, w') => w' = w ∧ (next_lsn w = None ∨ 2 ^ 64 ≤ zlen (frames rs) + 16 + zlen payload)
  | _ => True
  end.
Proof.
  intros Hi Hp Hl. pose proof (inv_end _ _ Hi) as He. pose proof (inv_next _ _ Hi) as Hn. unfold append, ensure_usable. rewrite Hp.
  destruct (next_lsn w) as [n|]; [|by split; [|left]]. rewrite encode_header_Ok by done.
  destruct (try_u 64 _) eqn:E; [done|]. apply try_u_None in E. split; [done|]. right.
  rewrite He in E. pose proof (zlen_nonneg payload). unfold in_u, zlen, HEADER_LEN in *. lia.
Qed.

(** Nothing fails and everything fits: all payloads, numbered from [n] on. *)
Lemma expected_all ops : ∀ n end_,
  Forall (λ op, op.1 = NoFault ∧ zlen op.2 < 2 ^ 32) ops → n + zlen ops ≤ 2 ^ 64 →
  end_ + zlen (concat ops.*2) + 16 * zlen ops < 2 ^ 64 →
  expected_records n end_ ops = imap (λ i op, (n + Z.of_nat i, op.2)) ops.
Proof.
  induction ops as [|[fault payload] ops IH]; intros n end_ Hok Hn Hs; [done|]. apply Forall_cons in Hok as [[Hf Hl] Hok].
  cbn [fst snd] in Hf, Hl. subst fault. rewrite fmap_cons in Hs. cbn [concat snd] in Hs. rewrite zlen_cons, ?zlen_app in *.
  pose proof (zlen_nonneg payload). pose proof (zlen_nonneg ops). pose proof (zlen_nonneg (concat ops.*2)).
  cbn [expected_records imap]. unfold append_fits. rewrite !(proj2 (Z.ltb_lt _ _)) by lia. cbn [andb].
  rewrite IH by (done || lia). f_equal; [f_equal; simpl; lia|]. apply imap_ext. intros i op _. simpl. f_equal. lia.
Qed.

(** ** Arbitrary bytes *)

(** A record [read_next] accepts is exactly the frame of what it returns. *)
Lemma read_next_inv f pos last r pos' :
  is_bytes f → read_next f pos last = Some (r, pos') →
  record_wf r ∧ (∀ l, last = Some l → l < r.1) ∧ sub pos pos' f = frame r ∧
  (pos + 16 ≤ pos' ≤ length f)%nat.
Proof.
  intros Hb. unfold read_next, read_payload, HEADER_LEN. case_bool_decide as Hl; [done|].
  rewrite !sub_sub by lia. rewrite Nat.add_0_r.
  pose proof (read_field_u f pos 4 32 Hb ltac:(lia) eq_refl) as [R0 T0].
  pose proof (read_field_u f (pos + 4) 4 32 Hb ltac:(lia) eq_refl) as [R4 T4].
  pose proof (read_field_u f (pos + 8) 8 64 Hb ltac:(lia) eq_refl) as [R8 T8].
  rewrite <- !Nat.add_assoc in *. cbn [Nat.add] in *.
  set (n := from_le (sub pos (pos + 4) f)) in *.
  case_bool_decide as Hp; [done|]. cbn iota.
  match goal with |- context [crc32c_append _ ?p] => set (payload := p) end. destruct (_ || _) eqn:Hc; [done|].
  apply orb_false_iff in Hc as [Hcrc Hlsn]. apply negb_false_iff, Z.eqb_eq in Hcrc.
  intros [= <- <-]. unfold in_u in R0.
  assert (zlen payload = n) as Hn.
  { unfold payload, zlen. rewrite length_sub by lia. lia. }
  split_and!; simpl; try lia.
  - split; simpl; [done|]. rewrite Hn. lia.
  - intros l ->. by apply Z.leb_gt in Hlsn.
  - unfold frame; cbn [fst snd]. rewrite Hn, T0, T8, Hcrc, T4. unfold payload. by rewrite !sub_cat by lia.
Qed.

Lemma read_from_inv f : is_bytes f → ∀ pos last rs e l,
  read_from f pos last = (rs, (e, l)) → (pos ≤ length f)%nat →
  Forall record_wf rs ∧ ascending last rs ∧ l = last_of last rs ∧
  (pos ≤ e ≤ length f)%nat ∧ sub pos e f = frames rs.
Proof.
  intros Hb pos. remember (length f - pos)%nat as m eqn:Hm.
  revert pos Hm. induction (lt_wf m) as [m _ IH]. intros pos -> last rs e l.
  rewrite read_from_eq. destruct (read_next f pos last) as [[r pos']|] eqn:Hr.
  - destruct (read_from f pos' (Some r.1)) as [rs' [e' l']] eqn:E. intros [= <- <- <-] Hpos.
    apply read_next_inv in Hr as (Hw & Hgt & Hs & Hp); [|done].
    destruct (IH (length f - pos')%nat ltac:(lia) pos' eq_refl _ _ _ _ E ltac:(lia))
      as (H1 & H2 & H3 & H4 & H5).
    split_and!; simpl; auto; try lia.
    rewrite <- (sub_cat pos pos' e'), Hs, H5 by lia. done.
  - intros [= <- <- <-] Hpos. split_and!; simpl; auto; try lia.
    unfold sub. by rewrite Nat.sub_diag, take_0.
Qed.

(** ** Correctness *)

(** C16: acknowledged appends are durable, ordered and exactly the ones that
    fit.  From a fresh file, after any sequence of appends in which writes may
    fail part way (and their repair may fail too): the acknowledged records are
    the appends that fit and whose write succeeded, at consecutive LSNs from the
    requested one, up to the first tail that could not be cut off; replaying the
    file yields exactly them, and failed appends leave no trace.  When no write
    fails and the sequence fits, every payload is acknowledged, the i-th at the
    requested LSN plus i. *)
Theorem wal_durability requested ops acked w :
  in_u 64 requested → partial_faults ops → run ops (open [] requested) = (acked, w) →
  acked = expected_records requested 0 ops ∧
  replay (file w) = acked ∧ ascending None acked ∧ log_end w = length (frames acked) ∧
  (poison_reason w = None → file w = frames acked) ∧
  (Forall (λ op, op.1 = NoFault ∧ zlen op.2 < 2 ^ 32) ops → requested + zlen ops ≤ 2 ^ 64 →
   zlen (concat ops.*2) + 16 * zlen ops < 2 ^ 64 →
   replay (file w) = imap (λ i op, (requested + Z.of_nat i, op.2)) ops).
Proof.
  intros Hreq Hops Hrun.
  assert (writer_inv (open [] requested) []) as H0.
  { apply open_inv; [|done]. by apply (torn_log_intact []). }
  assert (writer_at (open [] requested) requested 0) as Hat.
  { unfold writer_at, open, scan_intact_prefix. rewrite read_from_eq, (read_next_end []). simpl. split_and!; [done|by rewrite try_u_in|apply Hreq|done]. }
  pose proof (run_inv ops _ [] _ _ Hops H0 Hrun) as Hi. simpl in Hi.
  pose proof (run_expected ops _ _ _ Hat) as Hexp. rewrite Hrun in Hexp. cbn [fst] in Hexp.
  pose proof (replay_torn _ _ (inv_log _ _ Hi)) as Hrep. split_and!; [done|done| | | |].
  - apply (inv_log _ _ Hi).
  - apply (inv_end _ _ Hi).
  - apply (inv_clean _ _ Hi).
  - intros Hall Hn Hs. rewrite Hrep, Hexp. apply expected_all; (done || lia).
Qed.

(** C17: crash repair.  A log that ends in any strict prefix of one more record
    replays to the intact records; opening it truncates the file to exactly
    their bytes, assigns LSNs above the last intact one and at least the
    requested one, and the next append is read back after them; it can be
    refused only when the LSNs or the file length are exhausted, and then
    changes nothing. *)
Theorem wal_crash_repair rs f requested payload :
  torn_log rs f → in_u 64 requested → zlen payload < 2 ^ 32 →
  let w := open f requested in
  replay f = rs ∧ file w = frames rs ∧ poison_reason w = None ∧
  match append NoFault payload w with
  | (Ok lsn, w') => requested ≤ lsn ∧ replay (file w') = rs ++ [(lsn, payload)]
  | (Err _, w') => w' = w ∧ replay (file w') = rs ∧
      (next_lsn w = None ∨ 2 ^ 64 ≤ zlen (frames rs) + 16 + zlen payload)
  | (Panic, _) => False
  end.
Proof.
  intros Hf Hreq Hlen w. pose proof (open_inv _ _ _ Hf Hreq) as Hi. fold w in Hi.
  assert (poison_reason w = None) as Hpo.
  { unfold w, open. by destruct (scan_intact_prefix f). }
  split_and!; [by apply replay_torn | by apply (inv_clean _ _ Hi) | done |].
  pose proof (append_inv NoFault payload w rs Hi ltac:(done)) as Ha.
  pose proof (append_refused payload w rs Hi Hpo Hlen) as Href.
  destruct (append NoFault payload w) as [[lsn|e|] w']; [|by destruct Href; split_and!; [|apply replay_torn, (inv_log _ _ Ha)|]|done].
  destruct Ha as [Hn Ha]. split; [|apply replay_torn, (inv_log _ _ Ha)].
  revert Hn. unfold w, open. destruct (scan_intact_prefix f) as [e last]. simpl.
  destruct last as [l|]; simpl; [|intros [= ->]; lia].
  destruct (try_u 64 (l + 1)); [|done]. intros [= <-]. lia.
Qed.

(** Replay is canonical on arbitrary bytes.  Whatever the file holds, the
    intact prefix found by the reader is within the file and is byte for byte
    the encoding of the records it returns, which have strictly ascending
    LSNs; so truncating to it and replaying again changes nothing, and
    resuming from any record boundary returns the remaining records. *)
Theorem wal_replay_canonical f :
  is_bytes f → let e := (scan_intact_prefix f).1 in
  (e ≤ length f)%nat ∧ take e f = frames (replay f) ∧ ascending None (replay f) ∧
  replay (take e f) = replay f ∧
  ∀ r1 r2, replay f = r1 ++ r2 →
    replay_from (take e f) (length (frames r1)) = Ok (r2, e).
Proof.
  intros Hb e. unfold replay, scan_intact_prefix in *. subst e.
  destruct (read_from f 0 None) as [rs [e l]] eqn:E. simpl.
  pose proof (read_from_inv f Hb _ _ _ _ _ E ltac:(lia)) as (Hw & Ha & -> & Hp & Hs).
  assert (take e f = frames rs) as Ht.
  { rewrite <- Hs. unfold sub. by rewrite Nat.sub_0_r, drop_0. }
  rewrite Ht. split_and!; [lia | done | done | |].
  - by rewrite (read_from_torn rs) by by apply torn_log_intact.
  - intros r1 r2 Hr. unfold replay_from.
    assert (length (frames rs) = e) as He by (rewrite <- Ht, length_take; lia).
    rewrite Hr, frames_app in He |- *. rewrite length_app in He.
    rewrite bool_decide_eq_false_2 by (rewrite length_app; lia).
    rewrite Hr in Hw, Ha. apply Forall_app in Hw as [_ Hw2]. apply ascending_app in Ha as [_ Ha2].
    assert (ascending None r2) as Ha2' by (destruct r2; [done|by destruct Ha2]).
    pose proof (read_from_frames r2 (frames r1) [] None Hw2 Ha2') as E2.
    rewrite app_nil_r in E2. rewrite E2, read_from_eq.
    rewrite <- length_app, read_next_end, app_nil_r, length_app. by rewrite He.
Qed.
End wal.

Lemma wal_durability_witness :
  let faulty := [(NoFault, [1; 2]); (WriteFails 5 true, [3]); (NoFault, [4]); (WriteFails 17 false, [5; 6]); (NoFault, [7])] in
  let healthy := [(NoFault, [1; 2]); (NoFault, []); (NoFault, [7])] in
  replay (H := castagnoli) (file (run (H := castagnoli) faulty (open (H := castagnoli) [] 10)).2) = [(10, [1; 2]); (11, [4])] ∧
  replay (H := castagnoli) (file (run (H := castagnoli) healthy (open (H := castagnoli) [] 10)).2) = [(10, [1; 2]); (11, []); (12, [7])].
Proof.
  intros faulty healthy. split.
  - destruct (wal_durability (H := castagnoli) 10 faulty (run (H := castagnoli) faulty (open (H := castagnoli) [] 10)).1
      (run (H := castagnoli) faulty (open (H := castagnoli) [] 10)).2) as (He & Hr & _).
    + by vm_compute.
    + unfold partial_faults, faulty. rewrite !Forall_cons, Forall_nil. split_and!; try done; intros n b [= <- <-]; simpl; lia.
    + apply surjective_pairing.
    + rewrite Hr, He. reflexivity.
  - destruct (wal_durability (H := castagnoli) 10 healthy (run (H := castagnoli) healthy (open (H := castagnoli) [] 10)).1
      (run (H := castagnoli) healthy (open (H := castagnoli) [] 10)).2) as (_ & _ & _ & _ & _ & Hall).
    + by vm_compute.
    + unfold partial_faults, healthy. rewrite !Forall_cons, Forall_nil. split_and!; done.
    + apply surjective_pairing.
    + rewrite Hall; [reflexivity| |by vm_compute|by vm_compute]. unfold healthy. rewrite !Forall_cons, Forall_nil. split_and!; done.
Defined.

Lemma wal_crash_repair_witness :
  let f := frames (H := castagnoli) [(1, [9])] ++ take 7 (frame (H := castagnoli) (2, [8])) in
  replay (H := castagnoli) f = [(1, [9])].
Proof.
  intros f. refine (proj1 (wal_crash_repair (H := castagnoli) [(1, [9])] f 5 [3] _ _ _)).
  - split_and!.
    + rewrite Forall_cons, Forall_nil. split; [by vm_compute | done].
    + simpl. split; [intros ? [=] | done].
    + exists (2, [8]), 7%nat. split_and!; [by vm_compute | vm_compute; lia | done].
  - by vm_compute.
  - by vm_compute.
Defined.

Lemma wal_replay_canonical_witness :
  replay (H := castagnoli) (take (scan_intact_prefix (H := castagnoli) [1; 2; 3]).1 [1; 2; 3]) =
  replay (H := castagnoli) [1; 2; 3].
Proof.
  apply (wal_replay_canonical (H := castagnoli) [1; 2; 3]).
  apply (bool_decide_unpack _). by vm_compute.
Defined.
