(* ===== verification/Decimal.v ===== *)
(** Exact fixed-point decimals: [devondb-types/src/decimal.rs].

    A [Decimal128] is an unscaled 128-bit integer and a scale.  Every operation
    refuses rather than rounds or wraps, except the two rounding operations,
    which round once, midpoint away from zero. *)

From S2P Require Import Prelude.

Definition MAX_PRECISION : Z := 38.
Definition MAX_SCALE : Z := 38.

Record Decimal128 := mkDecimal {
  digits : Z;
  scale : Z;
}.

#[export] Instance Decimal128_eq_dec : EqDecision Decimal128.
Proof. solve_decision. Defined.

(** The struct's field types, and the scale bound [new] enforces. *)
Definition decimal_wf (d : Decimal128) : Prop := in_i 128 (digits d) ∧ 0 ≤ scale d ≤ MAX_SCALE.

#[export] Instance decimal_wf_dec d : Decision (decimal_wf d).
Proof. unfold decimal_wf. apply _. Defined.

Definition new (digits scale : Z) : outcome Decimal128 :=
  if MAX_SCALE <? scale
  then Err (InvalidArgument "decimal scale {scale} exceeds the maximum {MAX_SCALE}")
  else Ok (mkDecimal digits scale).

(** The [while magnitude >= 10] loop.  128 iterations are enough for any
    128-bit magnitude: each one divides it by ten. *)
Fixpoint precision_loop (fuel : nat) (magnitude count : Z) : Z :=
  match fuel with
  | O => count
  | S fuel => if 10 <=? magnitude then precision_loop fuel (magnitude / 10) (count + 1) else count
  end.

Definition precision (self : Decimal128) : Z := precision_loop 128 (Z.abs (digits self)) 1.

Definition fits (self : Decimal128) (precision_ scale_ : Z) : bool :=
  (scale self =? scale_) && (precision self <=? precision_).

(** [power_of_ten]: the [u128] product; exponents up to 38 do not overflow. *)
Definition power_of_ten (exponent : Z) : outcome Z :=
  for_each (seq 0 (Z.to_nat exponent)) 1 (λ factor _, expect (try_u 128 (factor * 10))).

Definition round_magnitude (quotient remainder divisor : Z) : outcome Z :=
  if divisor / 2 + divisor mod 2 <=? remainder
  then ok_or (try_u 128 (quotient + 1))
    (InvalidArgument "decimal midpoint-away rounding overflowed u128")
  else Ok quotient.

Definition signed_magnitude (magnitude : Z) (negative : bool) : outcome Z :=
  if magnitude =? 0 then Ok 0 else
  if negative && (magnitude =? 2 ^ 127) then Ok (- 2 ^ 127) else
  let! digits := ok_or (try_i 128 magnitude) (InvalidArgument "decimal result exceeds i128") in
  if negative
  then ok_or (try_i 128 (- digits)) (InvalidArgument "decimal result exceeds i128")
  else Ok digits.

Definition pad_to_scale (self : Decimal128) (target_scale precision_ : Z) : outcome Decimal128 :=
  if target_scale <? scale self
  then Err (InvalidArgument "cannot pad decimal scale {} down to {target_scale}") else
  if MAX_SCALE <? target_scale
  then Err (InvalidArgument "decimal scale {target_scale} exceeds the maximum {MAX_SCALE}") else
  let! power := power_of_ten (target_scale - scale self) in
  let! factor := ok_or (try_i 128 power)
    (InvalidArgument "decimal scale padding factor exceeds i128") in
  let! digits := ok_or (try_i 128 (digits self * factor))
    (InvalidArgument "decimal scale padding overflowed i128") in
  let! result := new digits target_scale in
  if negb (fits result precision_ target_scale)
  then Err (InvalidArgument "decimal value {result} does not fit Decimal({precision}, {target_scale})")
  else Ok result.

Definition round_to_places (self : Decimal128) (places precision_ : Z) : outcome Decimal128 :=
  if scale self <? places
  then Err (InvalidArgument "decimal rounding places {places} exceeds scale {}") else
  let! divisor := power_of_ten (scale self - places) in
  let magnitude := Z.abs (digits self) in
  let quotient := magnitude / divisor in
  let remainder := magnitude mod divisor in
  let! rounded := round_magnitude quotient remainder divisor in
  let! digits := signed_magnitude rounded (digits self <? 0) in
  let! rounded := new digits places in
  pad_to_scale rounded (scale self) precision_.

(** Ten additions of the remainder, each reduced once by the denominator. *)
Definition next_decimal_digit (remainder denominator : Z) : outcome (Z * Z) :=
  for_each (seq 0 10) (0, 0) (λ '(digit, next_remainder) _,
    let! sum := ok_or (try_u 128 (next_remainder + remainder))
      (InvalidArgument "exact decimal remainder overflowed u128") in
    if denominator <=? sum then Ok (digit + 1, sum - denominator) else Ok (digit, sum)).

Definition scaled_long_division (numerator denominator shifts : Z) : outcome (Z * Z) :=
  for_each (seq 0 (Z.to_nat shifts)) (numerator / denominator, numerator mod denominator)
    (λ '(quotient, remainder) _,
      let! (digit, next_remainder) := next_decimal_digit remainder denominator in
      let! quotient := ok_or
        (match try_u 128 (quotient * 10) with
         | Some value => try_u 128 (value + digit)
         | None => None
         end) (InvalidArgument "exact decimal quotient overflowed u128") in
      Ok (quotient, next_remainder)).

Definition rounded_with_larger_denominator (numerator denominator shifts : Z) : outcome Z :=
  let! factor := power_of_ten shifts in
  let base_quotient := numerator / denominator in
  let base_remainder := numerator mod denominator in
  let quotient := base_quotient / factor in
  let discarded := base_quotient mod factor in
  let! twice_discarded := ok_or (try_u 128 (discarded * 2))
    (InvalidArgument "exact decimal quotient remainder overflowed u128") in
  let rounds_up := (factor <=? twice_discarded) ||
    ((factor - twice_discarded =? 1) && (denominator / 2 + denominator mod 2 <=? base_remainder)) in
  if rounds_up
  then ok_or (try_u 128 (quotient + 1))
    (InvalidArgument "decimal midpoint-away rounding overflowed u128")
  else Ok quotient.

Definition rounded_ratio_magnitude (numerator denominator exponent : Z) : outcome Z :=
  if 0 <=? exponent then
    let! shifts := ok_or (try_u 8 exponent)
      (InvalidArgument "decimal division scale exponent is out of range") in
    let! (quotient, remainder) := scaled_long_division numerator denominator shifts in
    round_magnitude quotient remainder denominator
  else
    let! shifts := ok_or (try_u 8 (- exponent))
      (InvalidArgument "decimal division scale exponent is out of range") in
    rounded_with_larger_denominator numerator denominator shifts.

Definition round_div_to_places (self denominator : Decimal128) (places precision_ : Z) :
  outcome Decimal128 :=
  if digits denominator =? 0 then Err (InvalidArgument "decimal division by zero") else
  if scale self <? places
  then Err (InvalidArgument "decimal division rounding places {places} exceeds result scale {}") else
  let exponent := scale denominator + places - scale self in
  let! magnitude := rounded_ratio_magnitude (Z.abs (digits self)) (Z.abs (digits denominator)) exponent in
  let negative := negb (bool_decide ((digits self <? 0) = (digits denominator <? 0))) in
  let! digits := signed_magnitude magnitude negative in
  let! rounded := new digits places in
  pad_to_scale rounded (scale self) precision_.

Definition checked_result (digits : option Z) (scale : Z) : outcome Decimal128 :=
  let! digits := ok_or digits (InvalidArgument "decimal arithmetic result overflowed i128") in
  let! result := new digits scale in
  if MAX_PRECISION <? precision result
  then Err (InvalidArgument "decimal arithmetic result {result} exceeds {MAX_PRECISION} digits")
  else Ok result.

Definition require_same_scale (self other : Decimal128) : outcome unit :=
  if scale self =? scale other then Ok tt
  else Err (InvalidArgument "decimal {operator} requires equal scales; got {} and {}").

Definition checked_add_same_scale (self other : Decimal128) : outcome Decimal128 :=
  let! _ := require_same_scale self other in
  checked_result (try_i 128 (digits self + digits other)) (scale self).

Definition checked_sub_same_scale (self other : Decimal128) : outcome Decimal128 :=
  let! _ := require_same_scale self other in
  checked_result (try_i 128 (digits self - digits other)) (scale self).

(** The scale sum is a [u8] addition; it cannot overflow below scale 128. *)
Definition checked_mul (self other : Decimal128) : outcome Decimal128 :=
  let! scale := expect (try_u 8 (scale self + scale other)) in
  if MAX_SCALE <? scale
  then Err (InvalidArgument "decimal product scale {scale} exceeds the maximum {MAX_SCALE}")
  else checked_result (try_i 128 (digits self * digits other)) scale.

Definition from_i64_scaled (value scale : Z) : outcome Decimal128 :=
  if MAX_SCALE <? scale
  then Err (InvalidArgument "decimal scale {scale} exceeds the maximum {MAX_SCALE}") else
  let! power := power_of_ten scale in
  let! factor := ok_or (try_i 128 power)
    (InvalidArgument "decimal Int64 promotion factor exceeds i128") in
  checked_result (try_i 128 (value * factor)) scale.

(** ** Text form *)

(** [u128::to_string]: decimal ASCII digits, most significant first.  39 digits
    hold any 128-bit magnitude. *)
Fixpoint to_dec (fuel : nat) (m : Z) : list Z :=
  match fuel with
  | O => []
  | S fuel => (if m <? 10 then [] else to_dec fuel (m / 10)) ++ [48 + m mod 10]
  end.
Definition u128_to_string (m : Z) : list Z := to_dec 39 m.

(** [{magnitude:0>scale$}]: left-pad with zeros to [width]. *)
Definition pad_left (width : nat) (text : list Z) : list Z :=
  replicate (width - length text) 48 ++ text.

(** [Display for Decimal128]. *)
Definition display (self : Decimal128) : list Z :=
  if scale self =? 0 then
    (if digits self <? 0 then [45] else []) ++ u128_to_string (Z.abs (digits self))
  else
    let sign := if digits self <? 0 then [45] else [] in
    let magnitude := u128_to_string (Z.abs (digits self)) in
    let scale := Z.to_nat (scale self) in
    if bool_decide (scale < length magnitude)%nat then
      let at_ := (length magnitude - scale)%nat in
      sign ++ take at_ magnitude ++ [46] ++ drop at_ magnitude
    else sign ++ [48; 46] ++ pad_left scale magnitude.

(** [str::strip_prefix] and [str::split_once] on one ASCII character. *)
Definition strip_prefix (c : Z) (text : list Z) : option (list Z) :=
  match text with b :: rest => if b =? c then Some rest else None | [] => None end.

Fixpoint split_once (c : Z) (text : list Z) : option (list Z * list Z) :=
  match text with
  | [] => None
  | b :: text =>
      if b =? c then Some ([], text) else
      match split_once c text with
      | Some (before, after) => Some (b :: before, after)
      | None => None
      end
  end.

Definition is_ascii_digit (b : Z) : bool := (48 <=? b) && (b <=? 57).

Definition push_digit (acc b : Z) : outcome Z :=
  ok_or (match try_i 128 (acc * 10) with
         | Some d => try_i 128 (d + (b - 48))
         | None => None
         end) (InvalidArgument "decimal literal `{text}` overflows 38 digits").

(** [FromStr for Decimal128]. *)
Definition from_str (text : list Z) : outcome Decimal128 :=
  let '(sign, body) :=
    match strip_prefix 45 text with
    | Some rest => (-1, rest)
    | None => (1, default text (strip_prefix 43 text))
    end in
  let '(integral, fractional) :=
    match split_once 46 body with
    | Some (integral, fractional) => (integral, Some fractional)
    | None => (body, None)
    end in
  if bool_decide (integral = []) || bool_decide (fractional = Some [])
  then Err (InvalidArgument "`{text}` is not a decimal literal: the grammar is decimal(<sign?digits[.digits]>)") else
  if negb (forallb is_ascii_digit integral) ||
     negb (forallb is_ascii_digit (default [48] fractional))
  then Err (InvalidArgument "`{text}` is not a decimal literal") else
  let! scale := ok_or (try_u 8 (zlen (default [] fractional)))
    (InvalidArgument "decimal literal `{text}` has more than {MAX_SCALE} fractional digits") in
  if MAX_SCALE <? scale
  then Err (InvalidArgument "decimal literal `{text}` has more than {MAX_SCALE} fractional digits") else
  let! digits := for_each (integral ++ default [] fractional) 0 push_digit in
  new (sign * digits) scale.

(** ** Digits, powers and rounding *)

(** Division rounded to nearest, midpoints up (away from zero on magnitudes). *)
Definition half_away (n d : Z) : Z := (2 * n + d) / (2 * d).

(** [v] with the sign of the quotient. *)
Definition with_sign (negative : bool) (v : Z) : Z := if negative then - v else v.

Lemma precision_loop_spec fuel : ∀ m c,
  0 ≤ m < 10 ^ (Z.of_nat fuel + 1) →
  ∃ k, precision_loop fuel m c = c + k ∧ 0 ≤ k ∧ m < 10 ^ (k + 1) ∧ (0 < k → 10 ^ k ≤ m).
Proof.
  induction fuel as [|fuel IH]; intros m c Hm; simpl.
  - exists 0. split_and!; try lia.
  - destruct (10 <=? m) eqn:E; reflect_bools; [|exists 0; split_and!; lia].
    assert (10 ^ (Z.of_nat (S fuel) + 1) = 10 * 10 ^ (Z.of_nat fuel + 1)) as Ep.
    { rewrite <- Z.pow_succ_r by lia. f_equal. lia. }
    destruct (IH (m / 10) (c + 1)) as (k & -> & Hk & Hlt & Hge).
    { split; [apply Z.div_pos; lia | apply Z.div_lt_upper_bound; lia]. }
    exists (k + 1). split_and!; [lia | lia | |].
    + rewrite (Z.pow_add_r 10 (k + 1) 1) by lia. pose proof (Z.mod_pos_bound m 10).
      pose proof (Z.div_mod m 10). lia.
    + intros _. rewrite Z.pow_add_r by lia. pose proof (Z.div_mod m 10).
      pose proof (Z.mod_pos_bound m 10). destruct (decide (k = 0)) as [->|]; simpl; lia.
Qed.

Lemma precision_spec d :
  in_i 128 (digits d) →
  1 ≤ precision d ∧ Z.abs (digits d) < 10 ^ precision d ∧
  (1 < precision d → 10 ^ (precision d - 1) ≤ Z.abs (digits d)).
Proof.
  intros H. unfold precision.
  destruct (precision_loop_spec 128 (Z.abs (digits d)) 1) as (k & -> & Hk & Hlt & Hge).
  { split; [lia|]. unfold in_i in H. apply Z.le_lt_trans with (2 ^ 127); [lia | by vm_compute]. }
  replace (1 + k - 1) with k by lia. rewrite (Z.add_comm 1 k). split_and!; [lia | done | ].
  intros. apply Hge. lia.
Qed.

(** A decimal has at most [p] digits exactly when its magnitude is below [10^p]. *)
Lemma precision_le d p :
  in_i 128 (digits d) → 1 ≤ p → precision d ≤ p ↔ Z.abs (digits d) < 10 ^ p.
Proof.
  intros Hd Hp. destruct (precision_spec d Hd) as (H1 & H2 & H3). split; intros H.
  - apply Z.lt_le_trans with (10 ^ precision d); [done|]. apply Z.pow_le_mono_r; lia.
  - destruct (decide (precision d ≤ p)); [done|].
    assert (10 ^ p ≤ 10 ^ (precision d - 1)) by (apply Z.pow_le_mono_r; lia). lia.
Qed.

Lemma pow10_u128 k : 0 ≤ k ≤ 38 → 0 < 10 ^ k ≤ 10 ^ 38.
Proof.
  intros. split; [apply Z.pow_pos_nonneg; lia | apply Z.pow_le_mono_r; lia].
Qed.

Lemma power_of_ten_loop k l m :
  length l = k → 0 ≤ m → Z.of_nat k + m ≤ 38 →
  for_each l (10 ^ m) (λ factor (_ : nat), expect (try_u 128 (factor * 10))) = Ok (10 ^ (m + Z.of_nat k)).
Proof.
  revert l m. induction k as [|k IH]; intros [|x l] m Hl Hm Hk; try done; simpl.
  - do 2 f_equal. lia.
  - pose proof (pow10_u128 (m + 1) ltac:(lia)) as Hb.
    assert (10 ^ m * 10 = 10 ^ (m + 1)) as -> by (rewrite Z.pow_add_r by lia; done).
    rewrite try_u_in by (unfold in_u; lia). simpl. rewrite IH by (simpl in Hl; lia).
    do 2 f_equal. lia.
Qed.

Lemma power_of_ten_Ok e : 0 ≤ e ≤ 38 → power_of_ten e = Ok (10 ^ e).
Proof.
  intros. unfold power_of_ten. change 1 with (10 ^ 0) at 1.
  rewrite (power_of_ten_loop (Z.to_nat e)) by (rewrite ?length_seq; lia). do 2 f_equal. lia.
Qed.

Lemma half_away_cases n d :
  0 ≤ n → 0 < d →
  half_away n d = if d / 2 + d mod 2 <=? n mod d then n / d + 1 else n / d.
Proof.
  intros Hn Hd. unfold half_away.
  pose proof (Z.div_mod n d). pose proof (Z.mod_pos_bound n d).
  pose proof (Z.div_mod d 2). pose proof (Z.mod_pos_bound d 2).
  destruct (_ <=? _) eqn:E; reflect_bools; symmetry.
  - apply (Z.div_unique_pos _ _ _ (2 * (n mod d) - d)); nia.
  - apply (Z.div_unique_pos _ _ _ (2 * (n mod d) + d)); nia.
Qed.

Lemma half_away_bound n d : 0 ≤ n → 0 < d → n / d ≤ half_away n d ≤ n / d + 1.
Proof. intros. rewrite half_away_cases by done. case_match; lia. Qed.

Lemma round_magnitude_Ok n d :
  0 ≤ n → 0 < d → n / d + 1 < 2 ^ 128 →
  round_magnitude (n / d) (n mod d) d = Ok (half_away n d).
Proof.
  intros Hn Hd Hb. unfold round_magnitude. rewrite half_away_cases by done.
  pose proof (Z.div_pos n d). case_match; [|done]. rewrite try_u_in by (unfold in_u; lia). done.
Qed.

Lemma signed_magnitude_Ok m neg r :
  0 ≤ m → signed_magnitude m neg = Ok r ↔ r = with_sign neg m ∧ in_i 128 (with_sign neg m).
Proof.
  intros Hm. unfold signed_magnitude, with_sign.
  destruct (m =? 0) eqn:E; reflect_bools.
  { subst. destruct neg; split; intros; unfold in_i in *; naive_solver lia. }
  destruct (decide (in_i 128 m)) as [Hi|Hi].
  - rewrite try_i_in by done. unfold in_i in Hi. simpl.
    destruct neg; simpl.
    + rewrite (proj2 (Z.eqb_neq m (2 ^ 127))) by lia. rewrite try_i_in by (unfold in_i; lia). simpl.
      unfold in_i. naive_solver lia.
    + unfold in_i. naive_solver lia.
  - rewrite (proj2 (try_i_None 128 m)) by done. unfold in_i in *. simpl.
    destruct neg; simpl; [|naive_solver lia].
    destruct (m =? 2 ^ 127) eqn:E2; reflect_bools; naive_solver lia.
Qed.

Lemma signed_magnitude_no_panic m neg : signed_magnitude m neg ≠ Panic.
Proof.
  unfold signed_magnitude. repeat case_match; try done.
  - intros [?|(? & ? & ?)]%bind_Panic; by eapply ok_or_no_panic.
  - intros [?|(? & ? & ?)]%bind_Panic; [by eapply ok_or_no_panic | done].
Qed.

Lemma new_Ok x s r : new x s = Ok r ↔ s ≤ 38 ∧ r = mkDecimal x s.
Proof. unfold new, MAX_SCALE. destruct (38 <? s) eqn:E; reflect_bools; naive_solver lia. Qed.

Lemma pad_to_scale_Ok d t p r :
  decimal_wf d →
  pad_to_scale d t p = Ok r ↔
    scale d ≤ t ≤ 38 ∧ r = mkDecimal (digits d * 10 ^ (t - scale d)) t ∧
    in_i 128 (digits r) ∧ precision r ≤ p.
Proof.
  intros [Hd Hs]. unfold pad_to_scale, MAX_SCALE in *.
  destruct (t <? scale d) eqn:E1; reflect_bools; [naive_solver lia|].
  destruct (38 <? t) eqn:E2; reflect_bools; [naive_solver lia|].
  rewrite power_of_ten_Ok by lia. cbn [bind].
  pose proof (pow10_u128 (t - scale d) ltac:(lia)) as Hp.
  rewrite try_i_in by (unfold in_i; lia). cbn [ok_or bind].
  destruct (try_i 128 _) as [x|] eqn:Ex; cbn [ok_or bind].
  - apply try_i_Some in Ex as [-> Hx]. unfold new, MAX_SCALE.
    rewrite (proj2 (Z.ltb_ge _ _)) by done. cbn [bind].
    unfold fits. simpl scale. rewrite Z.eqb_refl. simpl andb.
    destruct (_ <=? p) eqn:Ep; reflect_bools; simpl; split.
    + intros [= <-]. auto.
    + intros (_ & -> & _). done.
    + done.
    + intros (_ & -> & _ & ?). lia.
  - apply try_i_None in Ex. naive_solver.
Qed.

Lemma pad_to_scale_no_panic d t p :
  0 ≤ scale d → pad_to_scale d t p ≠ Panic.
Proof.
  intros Hs. unfold pad_to_scale, MAX_SCALE.
  destruct (t <? scale d) eqn:E1; reflect_bools; [done|].
  destruct (38 <? t) eqn:E2; reflect_bools; [done|].
  rewrite power_of_ten_Ok by lia. cbn [bind].
  pose proof (pow10_u128 (t - scale d) ltac:(lia)) as Hp.
  rewrite try_i_in by (unfold in_i; lia). cbn [ok_or bind].
  destruct (try_i 128 _); cbn [ok_or bind]; [|done].
  unfold new, MAX_SCALE. rewrite (proj2 (Z.ltb_ge _ _)) by done. cbn [bind]. by case_match.
Qed.

(** ** Long division *)

(** After [k] additions of the remainder: [k * r] divided by the denominator. *)
Lemma next_digit_loop r d l : ∀ k,
  0 ≤ r < d → d ≤ 2 ^ 127 → 0 ≤ k →
  for_each l (k * r / d, k * r mod d) (λ '(digit, next_remainder) (_ : nat),
    let! sum := ok_or (try_u 128 (next_remainder + r))
      (InvalidArgument "exact decimal remainder overflowed u128") in
    if d <=? sum then Ok (digit + 1, sum - d) else Ok (digit, sum)) =
  Ok ((k + zlen l) * r / d, (k + zlen l) * r mod d).
Proof.
  induction l as [|x l IH]; intros k Hr Hd Hk.
  - unfold zlen. simpl. by rewrite Z.add_0_r.
  - cbn [for_each]. pose proof (Z.mod_pos_bound (k * r) d ltac:(lia)) as Hm.
    rewrite try_u_in by (unfold in_u; lia). cbn [ok_or bind].
    assert (∀ q s, 0 ≤ s < d → (k + 1) * r = d * q + s → (q, s) = ((k + 1) * r / d, (k + 1) * r mod d)) as Hqr.
    { intros q s Hs E. f_equal; [by eapply Z.div_unique_pos | by eapply Z.mod_unique_pos]. }
    pose proof (Z.div_mod (k * r) d ltac:(lia)) as Hdm.
    destruct (d <=? _) eqn:E; reflect_bools; cbn [bind];
      (rewrite (Hqr _ _); [|lia|lia]); rewrite IH by lia; rewrite zlen_cons; do 3 f_equal; lia.
Qed.

Lemma next_decimal_digit_Ok r d :
  0 ≤ r < d → d ≤ 2 ^ 127 → next_decimal_digit r d = Ok (10 * r / d, 10 * r mod d).
Proof.
  intros Hr Hd. unfold next_decimal_digit.
  pose proof (next_digit_loop r d (seq 0 10) 0 Hr Hd ltac:(lia)) as E.
  rewrite Z.mul_0_l, Z.div_0_l, Z.mod_0_l in E by lia. exact E.
Qed.

Definition quotient_overflow : DevonError := InvalidArgument "exact decimal quotient overflowed u128".

Lemma long_division_loop d l : ∀ n,
  0 ≤ n → 0 < d → d ≤ 2 ^ 127 →
  for_each l (n / d, n mod d) (λ '(quotient, remainder) (_ : nat),
      let! (digit, next_remainder) := next_decimal_digit remainder d in
      let! quotient := ok_or
        (match try_u 128 (quotient * 10) with
         | Some value => try_u 128 (value + digit)
         | None => None
         end) quotient_overflow in
      Ok (quotient, next_remainder)) =
  (if bool_decide (l = [] ∨ n * 10 ^ zlen l / d < 2 ^ 128)
   then Ok (n * 10 ^ zlen l / d, n * 10 ^ zlen l mod d) else Err quotient_overflow).
Proof.
  induction l as [|x l IH]; intros n Hn Hd0 Hd.
  - rewrite bool_decide_eq_true_2 by auto. unfold zlen. simpl. by rewrite Z.mul_1_r.
  - cbn [for_each]. pose proof (Z.mod_pos_bound n d Hd0) as Hm.
    rewrite next_decimal_digit_Ok by lia. cbn [bind].
    assert (n * 10 / d = n / d * 10 + 10 * (n mod d) / d) as Hq.
    { rewrite (Z.div_mod n d) at 1 by lia.
      replace ((d * (n / d) + n mod d) * 10) with (10 * (n mod d) + (n / d * 10) * d) by lia.
      rewrite Z.div_add by lia. lia. }
    assert (n * 10 mod d = 10 * (n mod d) mod d) as Hr.
    { rewrite Z.mul_comm, Z.mul_mod_idemp_r by lia. done. }
    pose proof (Z.div_pos (10 * (n mod d)) d ltac:(lia) Hd0) as Hdig.
    pose proof (Z.div_pos n d Hn Hd0) as Hnd.
    assert (n * 10 * 10 ^ zlen l = n * 10 ^ zlen (x :: l)) as Hpow.
    { rewrite zlen_cons, Z.pow_add_r by (lia || apply zlen_nonneg). lia. }
    assert (n * 10 / d ≤ n * 10 ^ zlen (x :: l) / d) as Hmono.
    { rewrite <- Hpow. apply Z.div_le_mono; [done|].
      pose proof (Z.pow_pos_nonneg 10 (zlen l) ltac:(lia) (zlen_nonneg l)). nia. }
    destruct (decide (n * 10 / d < 2 ^ 128)) as [Hlt|Hge].
    + rewrite (try_u_in 128 (n / d * 10)), try_u_in by (unfold in_u; lia). cbn [ok_or bind].
      rewrite <- Hq, <- Hr, IH by lia. rewrite Hpow.
      destruct l as [|y l].
      2: { rewrite (bool_decide_ext (y :: l = [] ∨ _) (x :: y :: l = [] ∨ n * 10 ^ zlen (x :: y :: l) / d < 2 ^ 128))
             by naive_solver. done. }
      rewrite !bool_decide_eq_true_2; [done| right |by left].
      unfold zlen; simpl length. change (10 ^ Z.of_nat 1) with 10. done.
    + rewrite (bool_decide_eq_false_2 (x :: l = [] ∨ _)) by (intros [?|?]; [done|lia]).
      destruct (try_u 128 (n / d * 10)) as [v|] eqn:E; [|done].
      apply try_u_Some in E as [-> _]. rewrite (proj2 (try_u_None 128 _)); [done|].
      unfold in_u. lia.
Qed.

Lemma scaled_long_division_spec n d k :
  0 ≤ n → 0 < d → d ≤ 2 ^ 127 → n < 2 ^ 128 → 0 ≤ k →
  scaled_long_division n d k =
  if bool_decide (n * 10 ^ k / d < 2 ^ 128)
  then Ok (n * 10 ^ k / d, n * 10 ^ k mod d) else Err quotient_overflow.
Proof.
  intros Hn Hd0 Hd Hn2 Hk. unfold scaled_long_division.
  pose proof (long_division_loop d (seq 0 (Z.to_nat k)) n Hn Hd0 Hd) as E.
  unfold zlen in E. rewrite length_seq, Z2Nat.id in E by done. unfold quotient_overflow in *.
  etransitivity; [exact E|].
  destruct (decide (seq 0 (Z.to_nat k) = [])) as [Hs|Hs].
  - assert (k = 0) as -> by (apply (f_equal length) in Hs; rewrite length_seq in Hs; simpl in Hs; lia).
    rewrite !bool_decide_eq_true_2; [done | | by left].
    rewrite Z.mul_1_r. apply Z.div_lt_upper_bound; nia.
  - by rewrite (bool_decide_ext _ (n * 10 ^ k / d < 2 ^ 128)) by naive_solver.
Qed.

Lemma larger_denominator_Ok n d k :
  0 ≤ n ≤ 2 ^ 127 → 0 < d → 1 ≤ k ≤ 38 →
  rounded_with_larger_denominator n d k = Ok (half_away n (d * 10 ^ k)).
Proof.
  intros Hn Hd Hk. unfold rounded_with_larger_denominator.
  rewrite power_of_ten_Ok by lia. cbn [bind].
  pose proof (pow10_u128 k ltac:(lia)) as Hf. set (f := 10 ^ k) in *.
  assert (∃ g, f = 2 * g) as [g Hg].
  { exists (5 * 10 ^ (k - 1)). unfold f. replace k with (k - 1 + 1) at 1 by lia.
    rewrite Z.pow_add_r by lia. lia. }
  pose proof (Z.mod_pos_bound (n / d) f ltac:(lia)) as Hdisc.
  pose proof (Z.mod_pos_bound n d Hd) as Hrem. pose proof (Z.div_pos n d ltac:(lia) Hd) as Hq.
  pose proof (Z.div_mod n d ltac:(lia)) as En. pose proof (Z.div_mod (n / d) f ltac:(lia)) as Eq.
  pose proof (Z.div_pos (n / d) f Hq ltac:(lia)) as Hqf.
  assert (n / d / f ≤ 2 ^ 127).
  { apply Z.div_le_upper_bound; [lia|]. apply Z.div_le_upper_bound; nia. }
  rewrite try_u_in by (unfold in_u; lia). cbn [ok_or bind].
  assert ((f - n / d mod f * 2 =? 1) = false) as -> by (apply Z.eqb_neq; lia).
  rewrite andb_false_l, orb_false_r.
  destruct (f <=? n / d mod f * 2) eqn:E; reflect_bools.
  - rewrite try_u_in by (unfold in_u; lia). cbn [ok_or]. f_equal. unfold half_away.
    apply (Z.div_unique_pos _ _ _ (2 * (d * (n / d mod f) + n mod d) - d * f)); nia.
  - f_equal. unfold half_away.
    assert (n / d mod f * 2 ≤ f - 2) by lia.
    apply (Z.div_unique_pos _ _ _ (2 * (d * (n / d mod f) + n mod d) + d * f)); nia.
Qed.

(** The rounded ratio [n * 10^e / d], with [e] of either sign. *)
Definition ratio (n d e : Z) : Z := half_away (n * 10 ^ Z.max 0 e) (d * 10 ^ Z.max 0 (- e)).

Lemma rounded_ratio_spec n d e :
  0 ≤ n ≤ 2 ^ 127 → 0 < d ≤ 2 ^ 127 → -38 ≤ e ≤ 76 →
  rounded_ratio_magnitude n d e ≠ Panic ∧
  ∀ m, rounded_ratio_magnitude n d e = Ok m ↔ m = ratio n d e ∧ m < 2 ^ 128.
Proof.
  intros Hn Hd He. unfold rounded_ratio_magnitude, ratio.
  destruct (0 <=? e) eqn:E; reflect_bools.
  - rewrite try_u_in by (unfold in_u; lia). cbn [ok_or bind].
    rewrite scaled_long_division_spec by lia.
    rewrite (Z.max_r 0 e), (Z.max_l 0 (- e)), Z.mul_1_r by lia.
    set (N := n * 10 ^ e). assert (0 ≤ N) by (apply Z.mul_nonneg_nonneg; [lia | apply Z.pow_nonneg; lia]).
    pose proof (half_away_bound N d ltac:(lia) ltac:(lia)) as Hh.
    case_bool_decide as Hb; cbn [bind].
    + destruct (decide (N / d + 1 < 2 ^ 128)) as [Hlt|Hge].
      * rewrite round_magnitude_Ok by lia. split; [done|]. intros m. split; [|naive_solver].
        intros [= <-]. lia.
      * unfold round_magnitude. pose proof (half_away_cases N d ltac:(lia) ltac:(lia)) as Hc.
        destruct (_ <=? _); [|split; [done|]; rewrite Hc; naive_solver].
        rewrite (proj2 (try_u_None 128 _)) by (unfold in_u; lia). simpl.
        split; [done|]. rewrite Hc. naive_solver lia.
    + split; [done|]. naive_solver lia.
  - rewrite try_u_in by (unfold in_u; lia). cbn [ok_or bind].
    rewrite larger_denominator_Ok by lia. rewrite Z.max_l, Z.max_r, Z.mul_1_r by lia.
    split; [done|]. intros m. split; [|naive_solver]. intros [= <-]. split; [done|].
    pose proof (Z.pow_pos_nonneg 10 (- e) ltac:(lia) ltac:(lia)).
    pose proof (half_away_bound n (d * 10 ^ (- e)) ltac:(lia) ltac:(nia)).
    assert (n / (d * 10 ^ (- e)) ≤ n); [|lia].
    assert (1 ≤ d * 10 ^ (- e)) by nia. revert Hn. generalize dependent (d * 10 ^ (- e)).
    intros D _ HD [Hn _]. apply Z.div_le_upper_bound; nia.
Qed.

(** ** Text *)

(** The value of a digit string read after [acc]. *)
Definition dec_val (acc : Z) (text : list Z) : Z := foldl (λ a b, a * 10 + (b - 48)) acc text.

Definition all_digits (text : list Z) : Prop := Forall (λ b, 48 ≤ b ≤ 57) text.

Lemma all_digits_forallb text : all_digits text → forallb is_ascii_digit text = true.
Proof.
  induction 1 as [|b t Hb _ IH]; [done|]. simpl. rewrite IH, andb_true_r.
  unfold is_ascii_digit. rewrite !(proj2 (Z.leb_le _ _)) by lia. done.
Qed.

Lemma dec_val_ge text : ∀ acc, all_digits text → 0 ≤ acc → acc ≤ dec_val acc text.
Proof.
  induction text as [|b t IH]; intros acc Ht Hacc; simpl; [lia|].
  inversion Ht; subst. etransitivity; [|apply IH; [done|lia]]. lia.
Qed.

Lemma push_digits_Ok text : ∀ acc,
  all_digits text → 0 ≤ acc → dec_val acc text < 2 ^ 127 →
  for_each text acc push_digit = Ok (dec_val acc text).
Proof.
  induction text as [|b t IH]; intros acc Ht Hacc Hb; simpl; [done|].
  inversion Ht as [|?? Hd Ht']; subst. simpl in Hb.
  pose proof (dec_val_ge t (acc * 10 + (b - 48)) Ht' ltac:(lia)) as Hge. unfold dec_val in *.
  unfold push_digit. rewrite (try_i_in 128 (acc * 10)) by (unfold in_i; lia).
  rewrite try_i_in by (unfold in_i; lia). cbn [ok_or bind]. apply IH; [done | lia | done].
Qed.

Lemma to_dec_spec fuel : ∀ m,
  0 ≤ m < 10 ^ Z.of_nat fuel → (0 < fuel)%nat →
  all_digits (to_dec fuel m) ∧ dec_val 0 (to_dec fuel m) = m ∧ to_dec fuel m ≠ [].
Proof.
  induction fuel as [|fuel IH]; intros m Hm Hf; [lia|]. cbn [to_dec].
  pose proof (Z.mod_pos_bound m 10 ltac:(lia)) as Hr. pose proof (Z.div_mod m 10 ltac:(lia)) as Em.
  assert (all_digits [48 + m mod 10]) as Hlast by (repeat constructor; lia).
  destruct (m <? 10) eqn:E; reflect_bools.
  - split_and!; [done | | done]. unfold dec_val. simpl. rewrite Z.mod_small by lia. lia.
  - rewrite Nat2Z.inj_succ, Z.pow_succ_r in Hm by lia.
    assert (0 < fuel)%nat as Hf'. { destruct fuel; [simpl in Hm; lia|lia]. }
    destruct (IH (m / 10)) as (Hd & Hv & Hne); [|done|].
    { split; [apply Z.div_pos; lia | apply Z.div_lt_upper_bound; lia]. }
    split_and!.
    + by apply Forall_app.
    + unfold dec_val in *. rewrite foldl_app, Hv. simpl. lia.
    + by destruct (to_dec fuel (m / 10)).
Qed.

Lemma u128_to_string_spec m :
  0 ≤ m ≤ 2 ^ 127 →
  all_digits (u128_to_string m) ∧ dec_val 0 (u128_to_string m) = m ∧ u128_to_string m ≠ [].
Proof.
  intros. apply to_dec_spec; [|lia]. split; [lia|].
  apply Z.le_lt_trans with (2 ^ 127); [lia | by vm_compute].
Qed.

Lemma split_once_digits l r : all_digits l → split_once 46 (l ++ 46 :: r) = Some (l, r).
Proof.
  induction 1 as [|b l Hb _ IH]; [done|]. simpl.
  rewrite (proj2 (Z.eqb_neq b 46)), IH by lia. done.
Qed.

Lemma split_once_none l : all_digits l → split_once 46 l = None.
Proof.
  induction 1 as [|b l Hb _ IH]; [done|]. simpl.
  rewrite (proj2 (Z.eqb_neq b 46)), IH by lia. done.
Qed.

Lemma dec_val_zeros n text : dec_val 0 (replicate n 48 ++ text) = dec_val 0 text.
Proof. induction n; [done|]. simpl. unfold dec_val in *. simpl. done. Qed.

Lemma all_digits_zeros n : all_digits (replicate n 48).
Proof. apply Forall_replicate. lia. Qed.

(** Parsing an unsigned body of digits with an optional fraction. *)
Lemma from_str_body (neg : bool) integral fractional :
  all_digits integral → integral ≠ [] →
  all_digits (default [] fractional) → fractional ≠ Some [] →
  zlen (default [] fractional) ≤ 38 →
  dec_val 0 (integral ++ default [] fractional) < 2 ^ 127 →
  from_str ((if neg then [45] else []) ++ integral ++
            match fractional with Some f => 46 :: f | None => [] end) =
  Ok (mkDecimal (with_sign neg (dec_val 0 (integral ++ default [] fractional)))
        (zlen (default [] fractional))).
Proof.
  intros Hi Hne Hf Hfe Hs Hv. unfold from_str.
  set (tail := match fractional with Some f => 46 :: f | None => [] end).
  assert ((match strip_prefix 45 ((if neg then [45] else []) ++ integral ++ tail) with
           | Some rest => (-1, rest)
           | None => (1, default ((if neg then [45] else []) ++ integral ++ tail)
                (strip_prefix 43 ((if neg then [45] else []) ++ integral ++ tail)))
           end) = (if neg then -1 else 1, integral ++ tail)) as ->.
  { destruct neg; [done|]. destruct integral as [|b l]; [done|]. inversion Hi; subst.
    simpl. rewrite (proj2 (Z.eqb_neq b 45)), (proj2 (Z.eqb_neq b 43)) by lia. done. }
  assert ((match split_once 46 (integral ++ tail) with
           | Some (integral, fractional) => (integral, Some fractional)
           | None => (integral ++ tail, None)
           end) = (integral, fractional)) as ->.
  { unfold tail. destruct fractional as [f|].
    - by rewrite split_once_digits.
    - by rewrite app_nil_r, split_once_none. }
  rewrite !bool_decide_eq_false_2 by done. cbn [orb].
  assert (forallb is_ascii_digit (default [48] fractional) = true) as ->.
  { destruct fractional; [by apply all_digits_forallb | done]. }
  rewrite (all_digits_forallb integral) by done. cbn [negb orb].
  pose proof (zlen_nonneg (default [] fractional)).
  rewrite try_u_in by (unfold in_u; lia). cbn [ok_or bind].
  unfold MAX_SCALE. rewrite (proj2 (Z.ltb_ge _ _)) by lia.
  rewrite push_digits_Ok by (done || lia || by apply Forall_app). cbn [bind].
  unfold new, MAX_SCALE. rewrite (proj2 (Z.ltb_ge _ _)) by lia. do 2 f_equal.
  unfold with_sign. destruct neg; lia.
Qed.

Lemma with_sign_abs x : with_sign (x <? 0) (Z.abs x) = x.
Proof. unfold with_sign. destruct (x <? 0) eqn:E; reflect_bools; lia. Qed.

Lemma from_str_display d :
  decimal_wf d → digits d ≠ - 2 ^ 127 → from_str (display d) = Ok d.
Proof.
  intros [Hd Hs] Hmin. unfold in_i, MAX_SCALE in *.
  destruct (u128_to_string_spec (Z.abs (digits d)) ltac:(lia)) as (Hdig & Hval & Hne).
  unfold display. set (m := u128_to_string (Z.abs (digits d))) in *.
  destruct (scale d =? 0) eqn:E; reflect_bools.
  { pose proof (from_str_body (digits d <? 0) m None) as P. simpl in P.
    rewrite app_nil_r in P. rewrite P by (done || constructor || (rewrite Hval; lia)).
    rewrite Hval, with_sign_abs, (eq_refl : zlen (@nil Z) = 0). destruct d; simpl in *. by subst. }
  case_bool_decide as Hlen.
  - set (k := (length m - Z.to_nat (scale d))%nat).
    pose proof (from_str_body (digits d <? 0) (take k m) (Some (drop k m))) as P. simpl in P.
    assert (length (drop k m) = Z.to_nat (scale d)) as Hdl by (rewrite length_drop; unfold k; lia).
    rewrite take_drop in P. unfold zlen in P. rewrite Hdl in P.
    change ([46] ++ drop k m) with (46 :: drop k m). rewrite P.
    + rewrite Hval, with_sign_abs, Z2Nat.id by lia. by destruct d.
    + by apply Forall_take.
    + intros Hk%(f_equal length). rewrite length_take in Hk. simpl in Hk. lia.
    + by apply Forall_drop.
    + intros [= Hk%(f_equal length)]. rewrite Hdl in Hk. simpl in Hk. lia.
    + lia.
    + rewrite Hval. lia.
  - pose proof (from_str_body (digits d <? 0) [48] (Some (pad_left (Z.to_nat (scale d)) m))) as P.
    cbn [from_option id app] in P. unfold pad_left in *.
    assert (zlen (replicate (Z.to_nat (scale d) - length m) 48 ++ m) = scale d) as Hz.
    { rewrite zlen_app. unfold zlen. rewrite length_replicate. lia. }
    assert (dec_val 0 (48 :: replicate (Z.to_nat (scale d) - length m) 48 ++ m) = Z.abs (digits d)) as Hv.
    { rewrite <- Hval. apply (dec_val_zeros (S _)). }
    change ([48; 46] ++ ?x) with (48 :: 46 :: x). rewrite P.
    + rewrite Hv, with_sign_abs, Hz. by destruct d.
    + repeat constructor; lia.
    + done.
    + apply Forall_app. split; [apply all_digits_zeros | done].
    + intros [= Hk]. by apply app_nil in Hk as [_ ?].
    + lia.
    + rewrite Hv. lia.
Qed.

(** ** Correctness *)

(** [r] is representable at 38 digits. *)
Definition fits38 (x : Z) : Prop := Z.abs x < 10 ^ 38.

Lemma checked_result_Ok x s r :
  checked_result (try_i 128 x) s = Ok r ↔ s ≤ 38 ∧ r = mkDecimal x s ∧ fits38 x.
Proof.
  unfold checked_result. destruct (try_i 128 x) as [y|] eqn:E; cbn [ok_or bind].
  - apply try_i_Some in E as [-> Hx]. rewrite bind_Ok. setoid_rewrite new_Ok.
    unfold MAX_PRECISION, fits38. pose proof (precision_le (mkDecimal x s) 38 Hx ltac:(lia)) as Hp.
    simpl digits in Hp. split.
    + intros (a & [Hs ->] & Ha). destruct (38 <? _) eqn:E; reflect_bools; [done|]. naive_solver.
    + intros (Hs & -> & Hf). exists (mkDecimal x s). split; [done|].
      rewrite (proj2 (Z.ltb_ge _ _)) by tauto. done.
  - apply try_i_None in E. split; [done|]. intros (_ & _ & Hf). destruct E.
    unfold in_i, fits38 in *. lia.
Qed.

(** Addition, subtraction and multiplication of decimals are exact: they
    succeed precisely when the scales agree (or sum to at most 38) and the
    exact result has at most 38 digits, and then return that exact result;
    otherwise they refuse, never rounding or wrapping. *)
Theorem decimal_arith_exact a b r :
  decimal_wf a → decimal_wf b →
  (checked_add_same_scale a b = Ok r ↔
     scale a = scale b ∧ r = mkDecimal (digits a + digits b) (scale a) ∧ fits38 (digits r)) ∧
  (checked_sub_same_scale a b = Ok r ↔
     scale a = scale b ∧ r = mkDecimal (digits a - digits b) (scale a) ∧ fits38 (digits r)) ∧
  (checked_mul a b = Ok r ↔
     scale a + scale b ≤ 38 ∧ r = mkDecimal (digits a * digits b) (scale a + scale b) ∧
     fits38 (digits r)).
Proof.
  unfold decimal_wf, MAX_SCALE. intros [Ha Hsa] [Hb Hsb].
  unfold checked_add_same_scale, checked_sub_same_scale, checked_mul, require_same_scale, MAX_SCALE.
  rewrite try_u_in by (unfold in_u; lia). cbn [expect bind]. split_and!.
  1,2: destruct (scale a =? scale b) eqn:E; reflect_bools; cbn [bind]; [|naive_solver];
    rewrite checked_result_Ok; naive_solver lia.
  destruct (38 <? _) eqn:E; reflect_bools; [naive_solver lia|].
  rewrite checked_result_Ok. naive_solver lia.
Qed.

(** Rounding to [places] returns the value rounded once, midpoint away from
    zero, at the original scale, exactly when that result fits the 128-bit
    digits and the requested precision; it never panics. *)
Theorem decimal_round_to_places_exact d places p :
  decimal_wf d → 0 ≤ places →
  round_to_places d places p ≠ Panic ∧
  ∀ r, round_to_places d places p = Ok r ↔
    places ≤ scale d ∧
    r = mkDecimal (with_sign (digits d <? 0) (half_away (Z.abs (digits d)) (10 ^ (scale d - places)))
                   * 10 ^ (scale d - places)) (scale d) ∧
    in_i 128 (digits r) ∧ precision r ≤ p.
Proof.
  intros [Hd Hs] Hp0. unfold round_to_places, MAX_SCALE in *.
  destruct (scale d <? places) eqn:E; reflect_bools; [naive_solver lia|].
  rewrite power_of_ten_Ok by lia. cbn [bind].
  pose proof (pow10_u128 (scale d - places) ltac:(lia)) as [Hpow _].
  unfold in_i in Hd. set (n := Z.abs (digits d)). set (D := 10 ^ (scale d - places)) in *.
  assert (0 ≤ n / D ≤ n) as Hq.
  { split; [apply Z.div_pos; lia|]. clear -Hpow. subst n. apply Z.div_le_upper_bound; nia. }
  rewrite round_magnitude_Ok by lia. cbn [bind].
  pose proof (half_away_bound n D ltac:(lia) Hpow) as Hh.
  set (neg := digits d <? 0). set (q := half_away n D) in *.
  assert (∀ x, in_i 128 x → decimal_wf (mkDecimal x places)) as Hwf.
  { intros. split; simpl; [done|]. unfold MAX_SCALE. lia. }
  split.
  - intros [Hp|(x & Hx & [Hp|(y & Hy & Hp)]%bind_Panic)]%bind_Panic; revert Hp.
    + apply signed_magnitude_no_panic.
    + unfold new. by case_match.
    + apply new_Ok in Hy as [_ ->]. by apply pad_to_scale_no_panic.
  - intros r. rewrite bind_Ok. setoid_rewrite signed_magnitude_Ok; [|lia].
    setoid_rewrite bind_Ok. setoid_rewrite new_Ok. split.
    + intros (x & [-> Hx] & y & [_ ->] & Hr).
      apply pad_to_scale_Ok in Hr; [|by apply Hwf]. naive_solver.
    + intros (_ & -> & Hin & Hprec). simpl digits in *.
      assert (in_i 128 (with_sign neg q)) as Hx.
      { unfold in_i, with_sign in *. clear -Hin Hh Hq Hpow. destruct neg; nia. }
      eexists. split; [done|]. eexists. split; [split; [lia|done]|].
      apply pad_to_scale_Ok; [by apply Hwf|]. simpl. naive_solver lia.
Qed.

(** C39: division treats the operands as one exact rational and rounds once:
    the result is the quotient at [places] rounded midpoint away from zero,
    padded to the numerator's scale, whenever it fits; a zero denominator or
    too many places is refused, and nothing panics. *)
Theorem decimal_round_div_exact a b places p :
  decimal_wf a → decimal_wf b → 0 ≤ places →
  let e := scale b + places - scale a in
  let negative := negb (bool_decide ((digits a <? 0) = (digits b <? 0))) in
  round_div_to_places a b places p ≠ Panic ∧
  ∀ r, round_div_to_places a b places p = Ok r ↔
    digits b ≠ 0 ∧ places ≤ scale a ∧
    r = mkDecimal (with_sign negative (ratio (Z.abs (digits a)) (Z.abs (digits b)) e)
                   * 10 ^ (scale a - places)) (scale a) ∧
    in_i 128 (digits r) ∧ precision r ≤ p.
Proof.
  intros [Ha Hsa] [Hb Hsb] Hp0 e negative. unfold round_div_to_places, MAX_SCALE in *.
  destruct (digits b =? 0) eqn:E0; reflect_bools; [naive_solver|].
  destruct (scale a <? places) eqn:E; reflect_bools; [naive_solver lia|].
  fold e. fold negative. unfold in_i in Ha, Hb.
  destruct (rounded_ratio_spec (Z.abs (digits a)) (Z.abs (digits b)) e
    ltac:(lia) ltac:(lia) ltac:(unfold e; lia)) as [Hnp Hspec].
  set (q := ratio _ _ _) in *.
  assert (0 ≤ q) as Hq0.
  { unfold q, ratio, half_away. pose proof (Z.pow_pos_nonneg 10 (Z.max 0 e) ltac:(lia) ltac:(lia)).
    pose proof (Z.pow_pos_nonneg 10 (Z.max 0 (- e)) ltac:(lia) ltac:(lia)).
    apply Z.div_pos; nia. }
  assert (∀ x, in_i 128 x → decimal_wf (mkDecimal x places)) as Hwf.
  { intros. split; simpl; [done|]. unfold MAX_SCALE. lia. }
  split.
  - intros [Hp|(m & Hm & [Hp|(x & Hx & [Hp|(y & Hy & Hp)]%bind_Panic)]%bind_Panic)]%bind_Panic; [done|revert Hp..].
    + apply signed_magnitude_no_panic.
    + unfold new. by case_match.
    + apply new_Ok in Hy as [_ ->]. by apply pad_to_scale_no_panic.
  - intros r. rewrite bind_Ok. setoid_rewrite Hspec. setoid_rewrite bind_Ok. split.
    + intros (m & [-> Hm] & x & Hx & (y & Hy & Hr)%bind_Ok).
      apply signed_magnitude_Ok in Hx as [-> Hx]; [|done]. apply new_Ok in Hy as [_ ->].
      apply pad_to_scale_Ok in Hr; [|by apply Hwf]. naive_solver.
    + intros (_ & _ & -> & Hin & Hprec). simpl digits in *.
      pose proof (pow10_u128 (scale a - places) ltac:(lia)) as [Hpow _].
      assert (in_i 128 (with_sign negative q)) as Hx.
      { unfold in_i, with_sign in *. clear -Hin Hq0 Hpow. destruct negative; nia. }
      exists q. split; [split; [done|]|].
      { unfold in_i, with_sign in Hx. destruct negative; lia. }
      exists (with_sign negative q). rewrite signed_magnitude_Ok by done. split; [done|].
      apply bind_Ok. setoid_rewrite new_Ok. eexists. split; [split; [lia|done]|].
      apply pad_to_scale_Ok; [by apply Hwf|]. simpl. naive_solver lia.
Qed.

(** [FromStr] accumulates the positive magnitude before it applies the sign, so
    it refuses the text of [i128::MIN] at every scale. *)
Lemma min_refused :
  Forall (λ sc, from_str (display (mkDecimal (- 2 ^ 127) sc)) =
    Err (InvalidArgument "decimal literal `{text}` overflows 38 digits")) (Z.of_nat <$> seq 0 39).
Proof. repeat (apply List.Forall_cons; [vm_compute; reflexivity|]). apply List.Forall_nil. Qed.

(** C40: the text form round-trips, with one exception: parsing what [Display]
    prints gives back the same digits and scale, except for the decimals whose
    digits are [i128::MIN], which [new] builds and [Display] prints and whose
    text is refused as an overflow. *)
Theorem decimal_text_roundtrip d :
  decimal_wf d →
  new (digits d) (scale d) = Ok d ∧
  from_str (display d) =
    if decide (digits d = - 2 ^ 127)
    then Err (InvalidArgument "decimal literal `{text}` overflows 38 digits") else Ok d.
Proof.
  intros Hwf. pose proof Hwf as [_ Hsc]. split; [apply new_Ok; unfold MAX_SCALE in *; split; [lia|by destruct d]|].
  case_decide as E; [|by apply from_str_display].
  pose proof min_refused as Hm. rewrite Forall_forall in Hm. rewrite <- (Hm (scale d)); [destruct d; simpl in *; by subst|].
  apply list_elem_of_fmap. exists (Z.to_nat (scale d)). split; [lia|]. apply elem_of_seq. unfold MAX_SCALE in Hsc. lia.
Qed.

Lemma decimal_arith_exact_witness :
  checked_mul (mkDecimal 125 2) (mkDecimal (-4) 1) = Ok (mkDecimal (-500) 3).
Proof.
  apply (decimal_arith_exact (mkDecimal 125 2) (mkDecimal (-4) 1) (mkDecimal (-500) 3));
    [by vm_compute | by vm_compute |].
  split_and!; [by vm_compute..].
Defined.

Lemma decimal_round_to_places_exact_witness :
  round_to_places (mkDecimal (-12345) 3) 2 10 = Ok (mkDecimal (-12350) 3).
Proof.
  apply (decimal_round_to_places_exact (mkDecimal (-12345) 3) 2 10); [by vm_compute | lia |].
  split_and!; by vm_compute.
Defined.

Lemma decimal_round_div_exact_witness :
  round_div_to_places (mkDecimal 1000 2) (mkDecimal (-3) 0) 2 10 = Ok (mkDecimal (-333) 2).
Proof.
  apply (decimal_round_div_exact (mkDecimal 1000 2) (mkDecimal (-3) 0) 2 10);
    [by vm_compute | by vm_compute | lia |].
  split_and!; by vm_compute.
Defined.

Lemma decimal_text_roundtrip_witness :
  from_str [45; 48; 46; 48; 53] = Ok (mkDecimal (-5) 2) ∧
  from_str (display (mkDecimal (- 2 ^ 127) 3)) = Err (InvalidArgument "decimal literal `{text}` overflows 38 digits").
Proof.
  split; [apply (decimal_text_roundtrip (mkDecimal (-5) 2))|apply (decimal_text_roundtrip (mkDecimal (- 2 ^ 127) 3))];
    apply (bool_decide_unpack _); vm_compute; exact I.
Defined.
