(* ===== verification/Types.v ===== *)
(** Runtime values and typed columns: [devondb-types/src/value.rs],
    [logical_type.rs], [column.rs].

    A float is its IEEE-754 bit pattern, a [String] its UTF-8 bytes.  Coq
    equality on values is therefore equality of representations, which is what
    the codecs preserve; the derived [PartialEq] is [value_eq], which compares
    floats numerically. *)

From S2P Require Import Prelude Bytes Decimal.

(** ** Logical types *)

Inductive B1Rescore := RescoreNone | RescoreF16 | RescoreI8 | RescoreF32.

Inductive VectorEncoding :=
| F16
| I8
| B1 (rotation_seed : Z) (rescore : B1Rescore).

Inductive LogicalType :=
| TBool
| TInt64
| TFloat64
| TString
| TGeoPoint
| TVector (dim : Z)
| TVectorEncoded (dim : Z) (encoding : VectorEncoding)
| TTimestamp
| TBytes
| TDecimal (precision scale : Z)
| TJson.

#[export] Instance B1Rescore_eq_dec : EqDecision B1Rescore.
Proof. solve_decision. Defined.
#[export] Instance VectorEncoding_eq_dec : EqDecision VectorEncoding.
Proof. solve_decision. Defined.
#[export] Instance LogicalType_eq_dec : EqDecision LogicalType.
Proof. solve_decision. Defined.

Definition value_type (ty : LogicalType) : LogicalType :=
  match ty with TVectorEncoded dim _ => TVector dim | other => other end.

Definition vector_dim (ty : LogicalType) : option Z :=
  match ty with TVector dim | TVectorEncoded dim _ => Some dim | _ => None end.

(** ** Values *)

Record GeoPoint := mkGeo { lat_deg : Z; lng_deg : Z }.

Inductive Value :=
| Null
| Bool (value : bool)
| Int64 (value : Z)
| Float64 (bits : Z)
| String (text : list Z)
| Vector (elements : list Z)
| Geo (point : GeoPoint)
| Timestamp (micros : Z)
| Bytes (value : list Z)
| Decimal (value : Decimal128)
| Json (text : list Z).

#[export] Instance GeoPoint_eq_dec : EqDecision GeoPoint.
Proof. solve_decision. Defined.
#[export] Instance Value_eq_dec : EqDecision Value.
Proof. solve_decision. Defined.

(** [f64::is_finite] and [f32::is_finite] on bit patterns: the exponent field
    is not all ones. *)
Definition is_finite64 (bits : Z) : bool := negb (Z.land (Z.shiftr bits 52) 2047 =? 2047).
Definition is_finite32 (bits : Z) : bool := negb (Z.land (Z.shiftr bits 23) 255 =? 255).

(** [==] on floats of a [e]-bit exponent and [m]-bit mantissa: NaN differs from
    everything, the two zeros agree, other values agree when their bits do. *)
Definition float_is_nan (e m bits : Z) : bool :=
  (Z.land (Z.shiftr bits m) (2 ^ e - 1) =? 2 ^ e - 1) && negb (Z.land bits (2 ^ m - 1) =? 0).
Definition float_eq (e m a b : Z) : bool :=
  negb (float_is_nan e m a) && negb (float_is_nan e m b) &&
  ((a =? b) || (Z.land (Z.lor a b) (2 ^ (e + m) - 1) =? 0)).
Definition f64_eq : Z → Z → bool := float_eq 11 52.
Definition f32_eq : Z → Z → bool := float_eq 8 23.

Fixpoint f32s_eq (xs ys : list Z) : bool :=
  match xs, ys with
  | [], [] => true
  | x :: xs, y :: ys => f32_eq x y && f32s_eq xs ys
  | _, _ => false
  end.

(** The derived [PartialEq for Value]. *)
Definition value_eq (a b : Value) : bool :=
  match a, b with
  | Null, Null => true
  | Bool x, Bool y => Bool.eqb x y
  | Int64 x, Int64 y => x =? y
  | Float64 x, Float64 y => f64_eq x y
  | String x, String y => bool_decide (x = y)
  | Vector x, Vector y => f32s_eq x y
  | Geo x, Geo y => f64_eq (lat_deg x) (lat_deg y) && f64_eq (lng_deg x) (lng_deg y)
  | Timestamp x, Timestamp y => x =? y
  | Bytes x, Bytes y => bool_decide (x = y)
  | Decimal x, Decimal y => bool_decide (x = y)
  | Json x, Json y => bool_decide (x = y)
  | _, _ => false
  end.

Definition matches_type (self : Value) (ty : LogicalType) : bool :=
  match self, ty with
  | Null, _ => true
  | Bool _, TBool | Int64 _, TInt64 | Float64 _, TFloat64 | String _, TString => true
  | Vector value, TVector dim | Vector value, TVectorEncoded dim _ => zlen value =? dim
  | Geo _, TGeoPoint => true
  | Timestamp _, TTimestamp => true
  | Bytes _, TBytes => true
  | Decimal value, TDecimal precision scale => Decimal.fits value precision scale
  | Json _, TJson => true
  | _, _ => false
  end.

Definition approx_bytes (self : Value) : Z :=
  match self with
  | Null | Bool _ | Int64 _ | Float64 _ => 16
  | String value => 32 + zlen value
  | Vector value => 32 + 4 * zlen value
  | Geo _ => 24
  | Timestamp _ => 16
  | Bytes value => 32 + zlen value
  | Decimal _ => 24
  | Json value => 32 + zlen value
  end.

Definition logical_type (self : Value) : option LogicalType :=
  match self with
  | Null => None
  | Bool _ => Some TBool
  | Int64 _ => Some TInt64
  | Float64 _ => Some TFloat64
  | String _ => Some TString
  | Vector value => Some (TVector (wrap_u 32 (zlen value)))
  | Geo _ => Some TGeoPoint
  | Timestamp _ => Some TTimestamp
  | Bytes _ => Some TBytes
  | Decimal value => Some (TDecimal (Decimal.precision value) (Decimal.scale value))
  | Json _ => Some TJson
  end.

(** ** The validity bitmap *)

Record Bitmap := mkBitmap { words : list Z; bitmap_len : nat }.

#[export] Instance Bitmap_eq_dec : EqDecision Bitmap.
Proof. solve_decision. Defined.

Definition word_bit (i : nat) : Z := Z.shiftl 1 (Z.of_nat (i `mod` 64)).

Definition all_valid (len : nat) : Bitmap :=
  let words := replicate (div_ceil len 64) (2 ^ 64 - 1) in
  let tail := (len `mod` 64)%nat in
  let words :=
    if bool_decide (tail ≠ 0%nat ∧ words ≠ [])
    then <[(length words - 1)%nat := Z.shiftl 1 (Z.of_nat tail) - 1]> words else words in
  mkBitmap words len.

Definition is_valid (self : Bitmap) (i : nat) : bool :=
  match words self !! (i / 64)%nat with
  | Some word => negb (Z.land word (word_bit i) =? 0)
  | None => false
  end.

Definition set (self : Bitmap) (i : nat) : outcome Bitmap :=
  let! word := index (words self) (i / 64) in
  Ok (mkBitmap (<[(i / 64)%nat := Z.lor word (word_bit i)]> (words self)) (bitmap_len self)).

Definition clear (self : Bitmap) (i : nat) : outcome Bitmap :=
  let! word := index (words self) (i / 64) in
  Ok (mkBitmap (<[(i / 64)%nat := Z.land word (Z.lnot (word_bit i))]> (words self)) (bitmap_len self)).

Definition bitmap_approx_bytes (self : Bitmap) : Z := zlen (words self) * 8.

(** ** Typed columns *)

Inductive Column :=
| CInt64 (values : list Z) (validity : option Bitmap)
| CFloat64 (values : list Z) (validity : option Bitmap)
| CBool (values : list bool) (validity : option Bitmap)
| CTimestamp (values : list Z) (validity : option Bitmap)
| CDecimal (values : list Z) (scale : Z) (validity : option Bitmap)
| Boxed (values : list Value).

#[export] Instance Column_eq_dec : EqDecision Column.
Proof. solve_decision. Defined.

Definition as_int64 (v : Value) : option Z := match v with Int64 x => Some x | _ => None end.
Definition as_float64 (v : Value) : option Z := match v with Float64 x => Some x | _ => None end.
Definition as_bool (v : Value) : option bool := match v with Bool x => Some x | _ => None end.
Definition as_timestamp (v : Value) : option Z := match v with Timestamp x => Some x | _ => None end.
Definition as_decimal_digits (v : Value) (scale : Z) : option Z :=
  match v with
  | Decimal d => if Decimal.scale d =? scale then Some (Decimal.digits d) else None
  | _ => None
  end.

(** One iteration of [typed_parts]; [None] is the early return. *)
Definition typed_step {T} (dflt : T) (extract : Value → option T) (n : nat)
    (s : option (list T * option Bitmap)) (iv : nat * Value) :
    outcome (option (list T * option Bitmap)) :=
  match s with
  | None => Ok None
  | Some (slots, validity) =>
      let '(index, value) := iv in
      match value with
      | Null =>
          let! bitmap := clear (default (all_valid n) validity) index in
          Ok (Some (slots ++ [dflt], Some bitmap))
      | other =>
          match extract other with
          | Some t => Ok (Some (slots ++ [t], validity))
          | None => Ok None
          end
      end
  end.

Definition typed_parts {T} (dflt : T) (extract : Value → option T) (values : list Value) :
    outcome (option (list T * option Bitmap)) :=
  for_each (enumerate values) (Some ([], None)) (typed_step dflt extract (length values)).

Definition from_values (ty : LogicalType) (values : list Value) : outcome Column :=
  match ty with
  | TInt64 =>
      let! parts := typed_parts 0 as_int64 values in
      Ok (match parts with Some (vs, validity) => CInt64 vs validity | None => Boxed values end)
  | TFloat64 =>
      let! parts := typed_parts 0 as_float64 values in
      Ok (match parts with Some (vs, validity) => CFloat64 vs validity | None => Boxed values end)
  | TBool =>
      let! parts := typed_parts false as_bool values in
      Ok (match parts with Some (vs, validity) => CBool vs validity | None => Boxed values end)
  | TTimestamp =>
      let! parts := typed_parts 0 as_timestamp values in
      Ok (match parts with Some (vs, validity) => CTimestamp vs validity | None => Boxed values end)
  | TDecimal _ scale =>
      if Decimal.MAX_SCALE <? scale then Ok (Boxed values) else
      let! parts := typed_parts 0 (λ v, as_decimal_digits v scale) values in
      Ok (match parts with Some (vs, validity) => CDecimal vs scale validity | None => Boxed values end)
  | TString | TBytes | TJson | TVector _ | TVectorEncoded _ _ | TGeoPoint => Ok (Boxed values)
  end.

Definition column_len (self : Column) : nat :=
  match self with
  | CInt64 values _ | CFloat64 values _ | CTimestamp values _ | CDecimal values _ _ => length values
  | CBool values _ => length values
  | Boxed values => length values
  end.

Definition typed_value {T} (validity : option Bitmap) (row : nat) (values : list T)
    (wrap : T → Value) : outcome Value :=
  match validity with
  | Some bitmap =>
      if negb (is_valid bitmap row) then Ok Null else let! v := index values row in Ok (wrap v)
  | None => let! v := index values row in Ok (wrap v)
  end.

Definition decimal_value (digits scale : Z) : Value :=
  match Decimal.new digits scale with Ok d => Decimal d | _ => Null end.

Definition value_at (self : Column) (row : nat) : outcome Value :=
  match self with
  | CInt64 values validity => typed_value validity row values Int64
  | CFloat64 values validity => typed_value validity row values Float64
  | CBool values validity => typed_value validity row values Bool
  | CTimestamp values validity => typed_value validity row values Timestamp
  | CDecimal values scale validity => typed_value validity row values (λ d, decimal_value d scale)
  | Boxed values => index values row
  end.

Definition value_ref_boxed (self : Column) (row : nat) : option Value :=
  match self with Boxed values => values !! row | _ => None end.

Definition fixed_width_bytes (len : nat) (width : Z) (validity : option Bitmap) : Z :=
  Z.of_nat len * width + match validity with Some b => bitmap_approx_bytes b | None => 0 end.

Definition column_approx_bytes (self : Column) : Z :=
  match self with
  | CInt64 values validity | CFloat64 values validity | CTimestamp values validity =>
      fixed_width_bytes (length values) 8 validity
  | CBool values validity => fixed_width_bytes (length values) 1 validity
  | CDecimal values _ validity => fixed_width_bytes (length values) 16 validity
  | Boxed values => foldr Z.add 0 (approx_bytes <$> values)
  end.

(** [PartialEq for Column]: row-wise agreement of [value_at], stopping at the
    first row that differs. *)
Fixpoint all_rows (test : nat → outcome bool) (rows : list nat) : outcome bool :=
  match rows with
  | [] => Ok true
  | row :: rows => let! same := test row in if same then all_rows test rows else Ok false
  end.

Definition column_eq (self other : Column) : outcome bool :=
  if bool_decide (column_len self = column_len other) then
    all_rows (λ row,
      let! a := value_at self row in
      let! b := value_at other row in
      Ok (value_eq a b)) (seq 0 (column_len self))
  else Ok false.

Definition column_eq_values (self : Column) (other : list Value) : outcome bool :=
  if bool_decide (column_len self = length other) then
    all_rows (λ row,
      let! a := value_at self row in
      let! b := index other row in
      Ok (value_eq a b)) (seq 0 (column_len self))
  else Ok false.

(** ** Bitmap lemmas *)

Lemma land_shiftl_1 w k :
  0 ≤ k → negb (Z.land w (Z.shiftl 1 k) =? 0) = Z.testbit w k.
Proof.
  intros Hk. assert (Z.land w (Z.shiftl 1 k) = if Z.testbit w k then 2 ^ k else 0) as ->.
  { rewrite Z.shiftl_1_l. apply Z.bits_inj'. intros n Hn. rewrite Z.land_spec, Z.pow2_bits_eqb by lia.
    destruct (k =? n) eqn:E; reflect_bools; subst.
    - rewrite andb_true_r. destruct (Z.testbit w n) eqn:Et; [by rewrite Z.pow2_bits_true | by rewrite Z.testbit_0_l].
    - rewrite andb_false_r. destruct (Z.testbit w k); [by rewrite Z.pow2_bits_false | by rewrite Z.testbit_0_l]. }
  pose proof (Z.pow_pos_nonneg 2 k). destruct (Z.testbit w k); [|done].
  rewrite (proj2 (Z.eqb_neq _ _)) by lia. done.
Qed.

Lemma is_valid_testbit b i :
  is_valid b i =
  match words b !! (i / 64)%nat with
  | Some w => Z.testbit w (Z.of_nat (i `mod` 64))
  | None => false
  end.
Proof. unfold is_valid, word_bit. case_match; [|done]. apply land_shiftl_1. lia. Qed.

(** Updating one word: the row it addresses, and every other row. *)
Lemma is_valid_insert ws n i j w (f : bool) :
  ws !! (i / 64)%nat = Some w →
  (∀ w', (w' = Z.lor w (word_bit i) ∧ f = true) ∨ (w' = Z.land w (Z.lnot (word_bit i)) ∧ f = false) →
    is_valid (mkBitmap (<[(i / 64)%nat := w']> ws) n) j =
    if decide (j = i) then f else is_valid (mkBitmap ws n) j).
Proof.
  intros Hw w' Hw'. rewrite !is_valid_testbit. simpl words.
  destruct (decide (i / 64 = j / 64)%nat) as [E|E].
  - pose proof (lookup_lt_Some _ _ _ Hw) as Hlt.
    rewrite <- E, Hw, list_lookup_insert_eq by done. unfold word_bit in Hw'. rewrite Z.shiftl_1_l in Hw'.
    pose proof (Nat.div_mod_eq i 64) as Di. pose proof (Nat.div_mod_eq j 64) as Dj.
    destruct Hw' as [[-> ->]|[-> ->]]; rewrite ?Z.lor_spec, ?Z.land_spec, ?Z.lnot_spec, Z.pow2_bits_eqb by lia.
    all: case_decide as Eij; [subst; rewrite Z.eqb_refl|rewrite (proj2 (Z.eqb_neq _ _)) by lia].
    all: by rewrite ?orb_true_r, ?orb_false_r, ?andb_true_r, ?andb_false_r.
  - rewrite list_lookup_insert_ne by done. rewrite decide_False; [done|]. by intros ->.
Qed.

Lemma clear_spec b i :
  (i / 64 < length (words b))%nat →
  ∃ b', clear b i = Ok b' ∧ length (words b') = length (words b) ∧
    ∀ j, is_valid b' j = if decide (j = i) then false else is_valid b j.
Proof.
  intros [w Hw]%lookup_lt_is_Some_2. unfold clear, index. rewrite Hw. cbn [expect bind].
  eexists. split; [done|]. simpl. split; [apply length_insert|].
  intros j. destruct b as [ws n]. by apply (is_valid_insert ws n i j w false); auto.
Qed.

Lemma set_spec b i :
  (i / 64 < length (words b))%nat →
  ∃ b', set b i = Ok b' ∧ length (words b') = length (words b) ∧
    ∀ j, is_valid b' j = if decide (j = i) then true else is_valid b j.
Proof.
  intros [w Hw]%lookup_lt_is_Some_2. unfold set, index. rewrite Hw. cbn [expect bind].
  eexists. split; [done|]. simpl. split; [apply length_insert|].
  intros j. destruct b as [ws n]. by apply (is_valid_insert ws n i j w true); auto.
Qed.

Lemma div_ceil_spec n m i : (0 < m)%nat → (i < div_ceil n m)%nat ↔ (i * m < n)%nat.
Proof.
  intros Hm. unfold div_ceil.
  pose proof (Nat.div_mod_eq (n + (m - 1)) m). pose proof (Nat.mod_upper_bound (n + (m - 1)) m). nia.
Qed.

Lemma length_all_valid n : length (words (all_valid n)) = div_ceil n 64.
Proof. unfold all_valid. simpl. case_bool_decide; rewrite ?length_insert, length_replicate; done. Qed.

Lemma word_in_range n i : (i < n)%nat → (i / 64 < div_ceil n 64)%nat.
Proof. intros. apply div_ceil_spec; [lia|]. pose proof (Nat.div_mod_eq i 64). lia. Qed.

Lemma all_valid_spec n i : is_valid (all_valid n) i = bool_decide (i < n)%nat.
Proof.
  rewrite is_valid_testbit. pose proof (Nat.div_mod_eq i 64) as Di. pose proof (Nat.mod_upper_bound i 64) as Mi.
  pose proof (Nat.div_mod_eq n 64) as Dn. pose proof (Nat.mod_upper_bound n 64) as Mn.
  pose proof (length_all_valid n) as Hl.
  destruct (decide (i / 64 < div_ceil n 64)%nat) as [Hi|Hi]; last first.
  { rewrite lookup_ge_None_2 by lia. rewrite bool_decide_eq_false_2; [done|].
    intros ?. by destruct Hi; apply word_in_range. }
  assert (i / 64 * 64 < n)%nat as Hw by (by apply div_ceil_spec in Hi; lia).
  unfold all_valid; cbn [words]. rewrite length_replicate.
  set (ws := replicate (div_ceil n 64) (2 ^ 64 - 1)).
  assert (ws !! (i / 64)%nat = Some (2 ^ 64 - 1)) as Hfull by by apply lookup_replicate_2.
  change (2 ^ 64 - 1) with (Z.ones 64) in Hfull.
  assert (div_ceil n 64 = n / 64 + if decide (n `mod` 64 = 0) then 0 else 1)%nat as Hc.
  { unfold div_ceil. case_decide as E; symmetry.
    - apply (Nat.div_unique _ _ _ 63); lia.
    - apply (Nat.div_unique _ _ _ (n `mod` 64 - 1)); lia. }
  case_bool_decide as Ht.
  - destruct Ht as [Ht _]. rewrite decide_False in Hc by done.
    destruct (decide (i / 64 = div_ceil n 64 - 1)%nat) as [E|E].
    + rewrite E, list_lookup_insert_eq by (unfold ws; rewrite length_replicate; lia).
      rewrite Z.shiftl_1_l. change (2 ^ Z.of_nat (n `mod` 64) - 1) with (Z.pred (2 ^ Z.of_nat (n `mod` 64))).
      rewrite <- Z.ones_equiv. rewrite Z.testbit_ones_nonneg by lia.
      apply eq_true_iff_eq. rewrite Z.ltb_lt, bool_decide_eq_true. lia.
    + rewrite list_lookup_insert_ne by lia. rewrite Hfull, Z.testbit_ones_nonneg by lia.
      rewrite (proj2 (Z.ltb_lt _ _)), bool_decide_eq_true_2 by lia. done.
  - rewrite Hfull, Z.testbit_ones_nonneg by lia.
    rewrite (proj2 (Z.ltb_lt _ _)) by lia. symmetry. apply bool_decide_eq_true.
    destruct (decide (n `mod` 64 = 0)%nat) as [E|E]; [lia|]. exfalso. apply Ht. split; [done|].
    unfold ws. rewrite Hc. destruct (n / 64 + 1)%nat eqn:E1; [lia|done].
Qed.

(** ** Columns read back the rows they were built from *)

Section TypedParts.
Context {T : Type} (dflt : T) (extract : Value → option T).

(** What the slots and the bitmap say of the rows seen so far, out of [n]. *)
Definition slot_ok (v : Value) (t : T) : Prop :=
  match v with Null => t = dflt | _ => extract v = Some t end.

Definition parts_ok (n : nat) (rows : list Value) (parts : list T * option Bitmap) : Prop :=
  Forall2 slot_ok rows parts.1 ∧
  match parts.2 with
  | None => Null ∉ rows
  | Some b =>
      length (words b) = div_ceil n 64 ∧
      ∀ j, is_valid b j = bool_decide (j < n ∧ rows !! j ≠ Some Null)%nat
  end.

Lemma parts_ok_start n : parts_ok n [] ([], None).
Proof. split; [constructor|]. simpl. set_solver. Qed.

Lemma parts_ok_value n rows slots validity v t :
  v ≠ Null → extract v = Some t →
  parts_ok n rows (slots, validity) → parts_ok n (rows ++ [v]) (slots ++ [t], validity).
Proof.
  intros Hv Ht [Hs Hb]. simpl in *. split; simpl.
  - apply Forall2_app; [done|]. constructor; [|done]. by destruct v.
  - destruct validity as [b|]; [|set_solver]. destruct Hb as [Hl Hb]. split; [done|].
    intros j. rewrite Hb. apply bool_decide_ext.
    destruct (decide (j < length rows)%nat); [by rewrite lookup_app_l|].
    rewrite lookup_app_r, (lookup_ge_None_2 rows) by lia.
    destruct (j - length rows)%nat; simpl; naive_solver.
Qed.

Lemma parts_ok_null n rows slots validity :
  (length rows < n)%nat → parts_ok n rows (slots, validity) →
  ∃ b, clear (default (all_valid n) validity) (length rows) = Ok b ∧
    parts_ok n (rows ++ [Null]) (slots ++ [dflt], Some b).
Proof.
  intros Hn [Hs Hb]. simpl in *.
  assert (length (words (default (all_valid n) validity)) = div_ceil n 64 ∧
    ∀ j, is_valid (default (all_valid n) validity) j = bool_decide (j < n ∧ rows !! j ≠ Some Null)%nat)
    as [Hl Hv].
  { destruct validity as [b|]; simpl; [done|]. split; [apply length_all_valid|].
    intros j. rewrite all_valid_spec. apply bool_decide_ext. split; [|naive_solver].
    intros. split; [done|]. intros E%list_elem_of_lookup_2. done. }
  destruct (clear_spec (default (all_valid n) validity) (length rows)) as (b & Hc & Hlb & Hvb).
  { rewrite Hl. by apply word_in_range. }
  exists b. split; [done|]. split; simpl.
  - apply Forall2_app; [done|]. by repeat constructor.
  - split; [by rewrite Hlb|]. intros j. rewrite Hvb, Hv. symmetry. case_decide as E.
    + subst. apply bool_decide_eq_false. rewrite lookup_app_r, Nat.sub_diag by lia. naive_solver.
    + apply bool_decide_ext. destruct (decide (j < length rows)%nat); [by rewrite lookup_app_l|].
      rewrite !lookup_ge_None_2 by (rewrite ?length_app; simpl; lia). done.
Qed.

Lemma typed_parts_from n rest rows parts :
  n = length (rows ++ rest) → parts_ok n rows parts →
  ∃ r, for_each (enumerate_from (length rows) rest) (Some parts) (typed_step dflt extract n) = Ok r ∧
    match r with
    | Some parts' => parts_ok n (rows ++ rest) parts'
    | None => ∃ v, v ∈ rest ∧ v ≠ Null ∧ extract v = None
    end.
Proof.
  revert rows parts. induction rest as [|v rest IH]; intros rows [slots validity] Hn Hp.
  { eexists. split; [done|]. by rewrite app_nil_r. }
  rewrite enumerate_from_cons. cbn [for_each typed_step].
  assert (∀ parts', parts_ok n (rows ++ [v]) parts' → ∃ r,
    for_each (enumerate_from (S (length rows)) rest) (Some parts') (typed_step dflt extract n) = Ok r ∧
    match r with
    | Some parts' => parts_ok n (rows ++ v :: rest) parts'
    | None => ∃ w, w ∈ v :: rest ∧ w ≠ Null ∧ extract w = None
    end) as Hrec.
  { intros parts' Hp'. destruct (IH (rows ++ [v]) parts') as (r & Hr & Hm); [|done|].
    { by rewrite <- app_assoc. }
    rewrite length_app, Nat.add_1_r in Hr. exists r. split; [done|].
    rewrite <- app_assoc in Hm. destruct r; [done|]. set_solver. }
  rewrite length_app in Hn. simpl in Hn.
  destruct (decide (v = Null)) as [->|Hv].
  - destruct (parts_ok_null n rows slots validity) as (b & -> & Hb); [lia|done|]. cbn [bind]. auto.
  - destruct (extract v) as [t|] eqn:Et.
    + replace (match v with Null => _ | _ => _ end)
        with (Ok (Some (slots ++ [t], validity))) by (destruct v; try rewrite Et; done).
      cbn [bind]. apply Hrec. by apply parts_ok_value.
    + exists None. split; [|set_solver].
      replace (match v with Null => _ | _ => _ end)
        with (@Ok (option (list T * option Bitmap)) None) by (destruct v; try rewrite Et; done).
      cbn [bind]. clear. generalize (S (length rows)). induction rest; intros k; [done|].
      rewrite enumerate_from_cons. simpl. done.
Qed.

Lemma typed_parts_spec values :
  ∃ r, typed_parts dflt extract values = Ok r ∧
    match r with
    | Some parts => parts_ok (length values) values parts
    | None => ∃ v, v ∈ values ∧ v ≠ Null ∧ extract v = None
    end.
Proof. apply (typed_parts_from (length values) values []); [done|]. apply parts_ok_start. Qed.

(** Reading a row back through any [wrap] that inverts [extract]. *)
Lemma typed_value_spec n rows slots validity row v wrap :
  parts_ok n rows (slots, validity) → n = length rows →
  (∀ u t, extract u = Some t → wrap t = u) →
  rows !! row = Some v → typed_value validity row slots wrap = Ok v.
Proof.
  intros [Hs Hb] -> Hw Hv. simpl in *.
  destruct (Forall2_lookup_l _ _ _ _ _ Hs Hv) as (t & Ht & Hok).
  assert (index slots row = Ok t) as Hi by (unfold index; by rewrite Ht).
  unfold typed_value. pose proof (lookup_lt_Some _ _ _ Hv).
  assert (v ≠ Null → Ok (wrap t) = Ok v) as Hval.
  { intros. f_equal. apply Hw. by destruct v. }
  destruct validity as [b|].
  - destruct Hb as [_ Hb]. rewrite Hb, Hi. case_bool_decide as E; simpl.
    + apply Hval. naive_solver.
    + rewrite Hv in E. f_equal. destruct (decide (v = Null)); [done|]. naive_solver.
  - rewrite Hi. simpl. apply Hval. intros ->. by apply list_elem_of_lookup_2 in Hv.
Qed.

Lemma parts_ok_length n rows slots validity :
  parts_ok n rows (slots, validity) → length slots = length rows.
Proof. intros [Hs _]. symmetry. by eapply Forall2_length. Qed.
End TypedParts.

(** A column of [ty] whose every value the type admits is stored typed. *)
Definition is_boxed (c : Column) : bool := match c with Boxed _ => true | _ => false end.
Definition has_typed_variant (ty : LogicalType) : bool :=
  match ty with
  | TInt64 | TFloat64 | TBool | TTimestamp => true
  | TDecimal _ scale => scale <=? Decimal.MAX_SCALE
  | _ => false
  end.

(** What a column built from [values] promises; the typed variant is used when
    nothing forces the fallback. *)
Definition column_represents (values : list Value) (boxed : bool) (col : Column) : Prop :=
  column_len col = length values ∧ is_boxed col = boxed ∧
  ∀ row v, values !! row = Some v → value_at col row = Ok v.

Lemma boxed_represents values : column_represents values true (Boxed values).
Proof. split_and!; [done..|]. intros row v Hv. simpl. unfold index. by rewrite Hv. Qed.

Lemma typed_represents {T} (dflt : T) extract wrap values (build : list T → option Bitmap → Column) :
  (∀ u t, extract u = Some t → wrap t = u) →
  (∀ vs b, column_len (build vs b) = length vs) → (∀ vs b, is_boxed (build vs b) = false) →
  (∀ vs b row, value_at (build vs b) row = typed_value b row vs wrap) →
  ∃ col boxed,
    (let! parts := typed_parts dflt extract values in
     Ok (match parts with Some (vs, validity) => build vs validity | None => Boxed values end)) = Ok col ∧
    column_represents values boxed col ∧
    (boxed = true → ∃ v, v ∈ values ∧ v ≠ Null ∧ extract v = None).
Proof.
  intros Hw Hlen Hbox Hval. destruct (typed_parts_spec dflt extract values) as (r & -> & Hr).
  cbn [bind]. destruct r as [[vs b]|].
  - exists (build vs b), false. split_and!; [done| |done]. split_and!; [|done|].
    + rewrite Hlen. by eapply parts_ok_length.
    + intros row v Hv. rewrite Hval. by eapply typed_value_spec.
  - exists (Boxed values), true. split_and!; [done|apply boxed_represents|done].
Qed.

Lemma from_values_represents ty values :
  ∃ col boxed, from_values ty values = Ok col ∧ column_represents values boxed col ∧
    (boxed = true → has_typed_variant ty = false ∨
       ∃ v, v ∈ values ∧ matches_type v ty = false) ∧
    (has_typed_variant ty = false → boxed = true).
Proof.
  destruct ty as [| | | | | | | | | precision sc |]; simpl from_values; simpl has_typed_variant.
  4-7,9,11: by eexists _, true; split_and!; [done|apply boxed_represents|by left|done].
  1: destruct (typed_represents false as_bool Bool values CBool) as (c & b & E & Hc & Hb);
    [by intros [] ? [= ->]|done..|].
  2: destruct (typed_represents 0 as_int64 Int64 values CInt64) as (c & b & E & Hc & Hb);
    [by intros [] ? [= ->]|done..|].
  3: destruct (typed_represents 0 as_float64 Float64 values CFloat64) as (c & b & E & Hc & Hb);
    [by intros [] ? [= ->]|done..|].
  4: destruct (typed_represents 0 as_timestamp Timestamp values CTimestamp) as (c & b & E & Hc & Hb);
    [by intros [] ? [= ->]|done..|].
  1-4: exists c, b; split_and!; [done..| |done];
    intros Hbox; right; destruct (Hb Hbox) as (v & Hv & Hn & He); exists v; split; [done|by destruct v].
  destruct (Decimal.MAX_SCALE <? sc) eqn:Es; reflect_bools.
  { eexists _, true. split_and!; [done|apply boxed_represents| |done]. left. by apply Z.leb_gt. }
  destruct (typed_represents 0 (λ v, as_decimal_digits v sc) (λ d, decimal_value d sc) values
    (λ vs b, CDecimal vs sc b)) as (c & b & E & Hc & Hb); [|done..|].
  { intros [] t; simpl; try done. destruct (_ =? _) eqn:Ed; [|done]. intros [= <-]. reflect_bools.
    unfold decimal_value, Decimal.new. rewrite (proj2 (Z.ltb_ge _ _)) by lia. subst sc. by destruct value. }
  exists c, b. split_and!; [done..| |].
  - intros Hbox. right. destruct (Hb Hbox) as (v & Hv & Hn & He). exists v. split; [done|].
    destruct v; try done. simpl in *. unfold Decimal.fits. by destruct (_ =? sc).
  - intros H%Z.leb_gt. lia.
Qed.

(** [Column::from_values] never panics, keeps the number of rows, and
    [value_at] gives back every input row, NULLs included, for every logical
    type; the typed (contiguous) representation is used exactly when the type
    has one, unless some value is not admitted by the type. *)
Theorem column_reads_back ty values :
  ∃ col, from_values ty values = Ok col ∧ column_len col = length values ∧
    (∀ row v, values !! row = Some v → value_at col row = Ok v) ∧
    (has_typed_variant ty = false → is_boxed col = true) ∧
    (has_typed_variant ty = true → forallb (λ v, matches_type v ty) values = true →
       is_boxed col = false).
Proof.
  destruct (from_values_represents ty values) as (col & b & -> & (Hl & Hb & Hv) & H1 & H2).
  exists col. split_and!; [done..| |]; rewrite Hb; [done|].
  intros Ht Hm. destruct b; [|done]. destruct H1 as [?|(v & Hv' & Hf)]; [done|congruence|].
  rewrite forallb_forall in Hm. apply list_elem_of_In in Hv'. rewrite (Hm v Hv') in Hf. done.
Qed.

Lemma all_rows_spec (test : nat → outcome bool) (f : nat → bool) k n :
  (∀ row, (k ≤ row < k + n)%nat → test row = Ok (f row)) →
  all_rows test (seq k n) = Ok (forallb f (seq k n)).
Proof.
  revert k. induction n as [|n IH]; intros k Ht; [done|]. simpl.
  rewrite Ht by lia. simpl. destruct (f k); [|done]. apply IH. intros. apply Ht. lia.
Qed.

Lemma forallb_ext_in {A} (f g : A → bool) l :
  (∀ x, In x l → f x = g x) → forallb f l = forallb g l.
Proof.
  induction l as [|x l IH]; intros H; [done|]. simpl. rewrite H by (by left). f_equal.
  apply IH. intros. apply H. by right.
Qed.

Lemma forallb_rows {A B} (f : A → B → bool) vs ws k :
  length vs = length ws →
  forallb (λ row, match vs !! (row - k)%nat, ws !! (row - k)%nat with Some v, Some w => f v w | _, _ => false end)
    (seq k (length vs)) = forallb (uncurry f) (zip vs ws).
Proof.
  revert ws k. induction vs as [|v vs IH]; intros [|w ws] k; try done. intros [= Hl].
  cbn [length seq forallb zip zip_with uncurry]. rewrite Nat.sub_diag. simpl. f_equal.
  rewrite <- (IH ws (S k)) by done. apply forallb_ext_in. intros row [Hr _]%in_seq.
  replace (row - k)%nat with (S (row - S k)) by lia. done.
Qed.

(** Column equality does not depend on the representation: two columns,
    built at any logical types, compare equal exactly when they have the same
    number of rows and the rows agree pairwise under [Value]'s equality. *)
Theorem column_eq_rowwise ty1 ty2 vs ws c1 c2 :
  from_values ty1 vs = Ok c1 → from_values ty2 ws = Ok c2 →
  column_eq c1 c2 = Ok (bool_decide (length vs = length ws) && forallb (uncurry value_eq) (zip vs ws)) ∧
  column_eq_values c1 ws = column_eq c1 c2.
Proof.
  intros H1 H2.
  destruct (from_values_represents ty1 vs) as (c & b & E & (Hl1 & _ & Hv1) & _).
  destruct (from_values_represents ty2 ws) as (c' & b' & E' & (Hl2 & _ & Hv2) & _).
  rewrite H1 in E. rewrite H2 in E'. injection E as <-. injection E' as <-.
  unfold column_eq, column_eq_values. rewrite Hl1, Hl2. case_bool_decide as El; [|done]. simpl.
  rewrite <- (forallb_rows value_eq vs ws 0) by done.
  set (same := λ row, match vs !! (row - 0)%nat, ws !! (row - 0)%nat with Some v, Some w => value_eq v w | _, _ => false end).
  assert (∀ row, (0 ≤ row < 0 + length vs)%nat → ∃ v w, value_at c1 row = Ok v ∧ value_at c2 row = Ok w ∧
    index ws row = Ok w ∧ same row = value_eq v w) as Hrow.
  { intros row Hr. destruct (lookup_lt_is_Some_2 vs row) as [v Hv]; [lia|].
    destruct (lookup_lt_is_Some_2 ws row) as [w Hw]; [lia|]. exists v, w. unfold same, index.
    rewrite Nat.sub_0_r, Hv, Hw. auto. }
  rewrite !(all_rows_spec _ same); [done| |].
  all: intros row Hr; destruct (Hrow row Hr) as (v & w & Ev & Ew & Ei & ->).
  all: by rewrite Ev, ?Ew, ?Ei.
Qed.

Lemma column_eq_rowwise_witness :
  ∃ c1 c2, from_values TInt64 [Int64 7; Null] = Ok c1 ∧ from_values TString [Int64 7; Null] = Ok c2 ∧
    c1 ≠ c2 ∧ column_eq c1 c2 = Ok true.
Proof.
  eexists _, _. split; [reflexivity|]. split; [reflexivity|]. split; [done|].
  refine (proj1 (column_eq_rowwise TInt64 TString [Int64 7; Null] [Int64 7; Null] _ _ _ _)); reflexivity.
Defined.

(** The documented panics of [value_at], [set] and [clear] past the row
    count do not all happen: with a validity bitmap a row past the end reads as
    NULL, and a bit past [len] inside the last word can be set, after which
    [is_valid] reports that row valid. *)
Theorem column_past_the_end :
  (let! c := from_values TInt64 [Int64 7; Null] in value_at c 5) = Ok Null ∧
  (let! c := from_values TInt64 [Int64 7] in value_at c 5) = Panic ∧
  (let! b := set (all_valid 2) 5 in Ok (bitmap_len b, is_valid b 5)) = Ok (2%nat, true).
Proof. split_and!; reflexivity. Qed.
