(* ===== verification/Codec.v ===== *)
(** What the values-section codecs of
    [devondb-storage/src/node_group/encodings/] share: the machine ranges of
    column values, the UTF-8 check of [std::str::from_utf8], the validity
    helpers, and [ValuesCodec], the contract of [encodings/mod.rs] ("decoders
    validate everything ... and return [Corrupt], never panic") that every
    encoding module discharges and its clients rely on. *)

From S2P Require Import Prelude Bytes Decimal Types.

(** ** UTF-8 *)

Definition between (lo hi b : Z) : bool := (lo <=? b) && (b <=? hi).
Definition continuation (b : Z) : bool := between 128 191 b.

(** Well-formed UTF-8 (Unicode table 3-7), the condition [from_utf8] checks. *)
Fixpoint utf8_valid (bs : list Z) : bool :=
  match bs with
  | [] => true
  | b0 :: rest0 =>
      if between 0 127 b0 then utf8_valid rest0
      else if between 194 223 b0 then
        match rest0 with
        | b1 :: rest1 => continuation b1 && utf8_valid rest1
        | _ => false
        end
      else if between 224 239 b0 then
        match rest0 with
        | b1 :: b2 :: rest2 =>
            (if b0 =? 224 then between 160 191 b1
             else if b0 =? 237 then between 128 159 b1 else continuation b1) &&
            continuation b2 && utf8_valid rest2
        | _ => false
        end
      else if between 240 244 b0 then
        match rest0 with
        | b1 :: b2 :: b3 :: rest3 =>
            (if b0 =? 240 then between 144 191 b1
             else if b0 =? 244 then between 128 143 b1 else continuation b1) &&
            continuation b2 && continuation b3 && utf8_valid rest3
        | _ => false
        end
      else false
  end.

Definition from_utf8 (bs : list Z) (e : DevonError) : outcome (list Z) :=
  if utf8_valid bs then Ok bs else Err e.

(** ** Values in their machine ranges *)

Definition value_wf (v : Value) : Prop :=
  match v with
  | Null | Bool _ => True
  | Int64 x | Timestamp x => in_i 64 x
  | Float64 bits => in_u 64 bits
  | String text | Json text => is_bytes text ∧ utf8_valid text = true
  | Vector elements => Forall (in_u 32) elements
  | Geo point => in_u 64 (lat_deg point) ∧ in_u 64 (lng_deg point)
  | Bytes bs => is_bytes bs
  | Decimal d => decimal_wf d
  end.

(** ** Parameters and validity *)

Definition params : Type := Z * Z * Z.
Definition no_params : params := (0, 0, 0).

Definition column_validity (validity : Bitmap) (row_count : nat) : option Bitmap :=
  if existsb (λ row, negb (is_valid validity row)) (seq 0 row_count) then Some validity else None.

Definition no_row_valid (validity : Bitmap) (row_count : nat) : bool :=
  forallb (λ row, negb (is_valid validity row)) (seq 0 row_count).

(** [(0..column.len()).map(|row| column.value_at(row))]. *)
Definition column_rows (c : Column) : outcome (list Value) := collect (value_at c) (seq 0 (column_len c)).

(** The bitmap says which rows are NULL. *)
Definition validity_matches (validity : Bitmap) (values : list Value) : Prop :=
  ∀ row v, values !! row = Some v → is_valid validity row = negb (bool_decide (v = Null)).

Definition reads_as (c : Column) (values : list Value) : Prop :=
  column_len c = length values ∧ ∀ row v, values !! row = Some v → value_at c row = Ok v.

(** ** The contract of an encoding *)

Class ValuesCodec
    (encode : Column → LogicalType → outcome (list Z * params))
    (decode : params → list Z → Bitmap → nat → LogicalType → outcome Column)
    (accepts : LogicalType → list Value → Prop) := {
  (** Decoding what was encoded gives back every row. *)
  codec_roundtrip ty values col validity :
    from_values ty values = Ok col →
    Forall value_wf values → forallb (λ v, matches_type v ty) values = true →
    zlen values < 2 ^ 32 → accepts ty values → validity_matches validity values →
    ∃ bytes p, encode col ty = Ok (bytes, p) ∧ is_bytes bytes ∧
      ∃ col', decode p bytes validity (length values) ty = Ok col' ∧ reads_as col' values;
  (** Any bytes decode to an error or a column of the declared row count. *)
  codec_total p bytes validity row_count ty :
    is_bytes bytes →
    (∃ e, decode p bytes validity row_count ty = Err e) ∨
    (∃ col, decode p bytes validity row_count ty = Ok col ∧ column_len col = row_count);
}.

(** ** Lemmas on validity *)

Lemma column_validity_spec validity n row :
  (row < n)%nat →
  match column_validity validity n with Some b => is_valid b row | None => true end = is_valid validity row.
Proof.
  intros Hr. unfold column_validity. destruct (existsb _ _) eqn:E; [done|].
  destruct (is_valid validity row) eqn:Ev; [done|]. exfalso.
  assert (existsb (λ row, negb (is_valid validity row)) (seq 0 n) = true); [|congruence].
  apply existsb_exists. exists row. rewrite Ev. split; [apply in_seq; lia|done].
Qed.

(** A typed column whose slots hold [unwrap]ped values reads as [values]. *)
Lemma typed_value_reads {T} (wrap : T → Value) validity values slots :
  validity_matches validity values →
  Forall2 (λ v t, v = Null ∨ wrap t = v) values slots →
  ∀ row v, values !! row = Some v →
    typed_value (column_validity validity (length values)) row slots wrap = Ok v.
Proof.
  intros Hm Hs row v Hv. pose proof (lookup_lt_Some _ _ _ Hv) as Hlt.
  pose proof (column_validity_spec validity (length values) row Hlt) as Hc.
  rewrite (Hm _ _ Hv) in Hc. destruct (Forall2_lookup_l _ _ _ _ _ Hs Hv) as (t & Ht & Hw).
  unfold typed_value, index. rewrite Ht. simpl.
  destruct (column_validity _ _); rewrite ?Hc; case_bool_decide; simpl; try done; destruct Hw; congruence.
Qed.

Lemma no_row_valid_spec validity values :
  validity_matches validity values →
  no_row_valid validity (length values) = forallb (λ v, bool_decide (v = Null)) values.
Proof.
  intros Hm. unfold no_row_valid. apply eq_true_iff_eq. rewrite !forallb_forall. split.
  - intros H v (row & Hv)%list_elem_of_In%list_elem_of_lookup.
    specialize (H row ltac:(apply in_seq; apply lookup_lt_Some in Hv; lia)).
    rewrite (Hm _ _ Hv), negb_involutive in H. done.
  - intros H row [_ Hr]%in_seq. destruct (lookup_lt_is_Some_2 values row) as [v Hv]; [lia|].
    rewrite (Hm _ _ Hv), negb_involutive. apply H. apply list_elem_of_In. by eapply list_elem_of_lookup_2.
Qed.

(** The rows of a column built from values are those values. *)
Lemma from_values_reads ty values col : from_values ty values = Ok col → reads_as col values.
Proof.
  intros H. destruct (from_values_represents ty values) as (c & b & E & (Hl & _ & Hv) & _).
  rewrite H in E. injection E as <-. by split.
Qed.

Lemma for_rows_values {S} col values (s : S) body (g : S → Value → outcome S) :
  reads_as col values →
  (∀ s row v, values !! row = Some v → body s row = g s v) →
  for_each (seq 0 (column_len col)) s body = for_each values s g.
Proof. intros [-> _]. apply for_seq_list. Qed.

Definition i64_of (v : Value) : Z := match v with Int64 x | Timestamp x => x | _ => 0 end.
Definition bool_of (v : Value) : bool := match v with Bool b => b | _ => false end.
Definition digits_of (v : Value) : Z := match v with Decimal d => Decimal.digits d | _ => 0 end.

Lemma reads_as_typed {T} (wrap : T → Value) (proj : Value → T) validity values
    (build : list T → option Bitmap → Column) :
  (∀ vs b, column_len (build vs b) = length vs) →
  (∀ vs b row, value_at (build vs b) row = typed_value b row vs wrap) →
  validity_matches validity values → (∀ v, v ∈ values → v = Null ∨ wrap (proj v) = v) →
  reads_as (build (proj <$> values) (column_validity validity (length values))) values.
Proof.
  intros Hl Hv Hm Hw. split; [by rewrite Hl, length_fmap|]. intros row v Hrow. rewrite Hv.
  apply (typed_value_reads wrap); [done| |done]. apply Forall2_fmap_r, Forall2_same_length_lookup_2; [done|].
  intros i x y Hx Hy. rewrite Hx in Hy. injection Hy as <-. apply Hw. by eapply list_elem_of_lookup_2.
Qed.

(** What a value of a type is, up to NULL. *)
Lemma matches_int64 v : matches_type v TInt64 = true → v = Null ∨ Int64 (i64_of v) = v.
Proof. destruct v; simpl; auto; done. Qed.
Lemma matches_timestamp v : matches_type v TTimestamp = true → v = Null ∨ Timestamp (i64_of v) = v.
Proof. destruct v; simpl; auto; done. Qed.
Lemma matches_bool v : matches_type v TBool = true → v = Null ∨ Bool (bool_of v) = v.
Proof. destruct v; simpl; auto; done. Qed.
Lemma matches_decimal v pr sc :
  sc ≤ 38 → matches_type v (TDecimal pr sc) = true → v = Null ∨ decimal_value (digits_of v) sc = v.
Proof.
  destruct v; simpl; auto; try done. unfold Decimal.fits. intros Hs H. reflect_bools. right.
  unfold decimal_value, Decimal.new, Decimal.MAX_SCALE. rewrite (proj2 (Z.ltb_ge _ _)) by lia.
  subst. by destruct value.
Qed.

(** The digits of an admitted decimal fit the declaration; so does NULL's zero. *)
Lemma matches_decimal_fits v pr sc :
  1 ≤ pr → value_wf v → matches_type v (TDecimal pr sc) = true →
  in_i 128 (digits_of v) ∧ Decimal.precision (mkDecimal (digits_of v) sc) ≤ pr.
Proof.
  destruct v; simpl; try done; intros Hp Hwf Hm.
  unfold Decimal.fits in Hm. reflect_bools. destruct Hwf. split; [done|]. unfold Decimal.precision in *. done.
Qed.

(** ** Checking concrete inputs *)

#[export] Instance value_wf_dec v : Decision (value_wf v).
Proof. destruct v; simpl; unfold is_bytes, is_byte; apply _. Defined.

Lemma validity_matches_check validity values :
  forallb (λ iv, Bool.eqb (is_valid validity iv.1) (negb (bool_decide (iv.2 = Null)))) (enumerate values) = true →
  validity_matches validity values.
Proof.
  intros H row v Hv. rewrite forallb_forall in H. apply eqb_true_iff.
  apply (H (row, v)), list_elem_of_In, list_elem_of_lookup. exists row. unfold enumerate, enumerate_from.
  apply lookup_zip_Some. split; [|done]. apply lookup_seq_lt. by eapply lookup_lt_Some.
Qed.

Ltac check_values := apply (bool_decide_unpack _); vm_compute; exact I.
