(* ===== verification/Rle.v ===== *)
(** Run-length encoding (id 2) of a values section:
    [devondb-storage/src/node_group/encodings/rle.rs]. *)

From S2P Require Import Prelude Bytes Decimal Types Codec.

(** ** The code *)

Section Runs.
Context {T : Type} `{!EqDecision T}.

Definition flush_run (push_value : T → list Z) (body : list Z) (run_count : Z) (value : T) (len : nat) :
    outcome (list Z * Z) :=
  let! run_len := ok_or (try_u 32 (Z.of_nat len)) (InvalidArgument "rle run length exceeds u32") in
  let body := body ++ to_le 4 run_len in
  let body := body ++ push_value value in
  let! run_count := ok_or (try_u 32 (run_count + 1)) (InvalidArgument "rle run count exceeds u32") in
  Ok (body, run_count).

(** The loop state: body, run count, the run being extended. *)
Definition run_state : Type := list Z * Z * option (T * nat).

Definition encode_step (push_value : T → list Z) (s : run_state) (value : T) : outcome run_state :=
  let '(body, run_count, current) := s in
  match current with
  | Some (held, len) =>
      if decide (held = value) then Ok (body, run_count, Some (held, S len))
      else
        let! (body, run_count) := flush_run push_value body run_count held len in
        Ok (body, run_count, Some (value, 1%nat))
  | None => Ok (body, run_count, Some (value, 1%nat))
  end.

Definition encode_runs (row_count : nat) (slot : nat → outcome T) (push_value : T → list Z) :
    outcome (list Z) :=
  let! (body, run_count, current) :=
    for_each (seq 0 row_count) ([], 0, None)
      (λ s row, let! value := slot row in encode_step push_value s value) in
  let! (body, run_count) :=
    match current with
    | Some (held, len) => flush_run push_value body run_count held len
    | None => Ok (body, run_count)
    end in
  Ok (to_le 4 run_count ++ body).

(** One iteration of the run loop of [parse_runs]: values of [N] bytes. *)
Definition parse_step (N : nat) (read_value : list Z → outcome T) (bytes : list Z)
    (s : list (Z * T) * Z) (index : nat) : outcome (list (Z * T) * Z) :=
  let '(runs, covered) := s in
  let entry_len := (4 + N)%nat in
  let start := (4 + index * entry_len)%nat in
  let! run_len := read_u32 bytes start in
  if run_len =? 0 then Err (Corrupt "rle run {index} has length 0") else
  let! covered := ok_or (try_u 64 (covered + run_len)) (Corrupt "rle run lengths overflow row coverage") in
  let! slot := slice bytes (start + 4) (start + entry_len) in
  let! value := read_value slot in
  Ok (runs ++ [(run_len, value)], covered).

Definition parse_runs (N : nat) (read_value : list Z → outcome T) (bytes : list Z) (row_count : nat) :
    outcome (list (Z * T)) :=
  if (length bytes <? 4)%nat
  then Err (Corrupt "rle values section is {} bytes, smaller than the 4-byte run_count prefix") else
  let! run_count := read_u32 bytes 0 in
  let entry_len := (4 + N)%nat in
  let! needed := ok_or (try_u 64 (run_count * Z.of_nat entry_len))
    (Corrupt "rle run_count {run_count} overflows the run section length for {ty}") in
  let actual := zlen bytes - 4 in
  if actual <? needed
  then Err (Corrupt "rle run section is {actual} bytes, expected {needed} for {run_count} runs") else
  if needed <? actual
  then Err (Corrupt "rle values section has {} trailing bytes after {run_count} runs") else
  let! (runs, covered) :=
    for_each (seq 0 (Z.to_nat run_count)) ([], 0) (parse_step N read_value bytes) in
  if negb (covered =? Z.of_nat row_count)
  then Err (Corrupt "rle runs cover {covered} rows, expected {row_count}") else
  Ok runs.

Definition decode_runs (N : nat) (read_value : list Z → outcome T) (bytes : list Z) (row_count : nat) :
    outcome (list T) :=
  let! runs := parse_runs N read_value bytes row_count in
  Ok (concat ((λ '(run_len, value), replicate (Z.to_nat run_len) value) <$> runs)).
End Runs.

Definition i64_slot (column : Column) (row : nat) : outcome Z :=
  let! v := value_at column row in
  match v with
  | Null => Ok 0
  | Int64 value | Timestamp value => Ok value
  | _ => Err (InvalidArgument "encoding rle value {other} does not match {ty}")
  end.

Definition bool_slot (column : Column) (row : nat) : outcome bool :=
  let! v := value_at column row in
  match v with
  | Null => Ok false
  | Bool value => Ok value
  | _ => Err (InvalidArgument "encoding rle value {other} does not match {ty}")
  end.

Definition decimal_slot (column : Column) (row : nat) (scale : Z) : outcome Z :=
  let! v := value_at column row in
  let mismatch := Err (InvalidArgument "encoding rle value {other} does not match {ty}") in
  match v with
  | Null => Ok 0
  | Decimal value => if Decimal.scale value =? scale then Ok (Decimal.digits value) else mismatch
  | _ => mismatch
  end.

Definition push_bool (value : bool) : list Z := [if value then 1 else 0].

Definition encode (column : Column) (ty : LogicalType) : outcome (list Z * params) :=
  let! bytes :=
    match ty with
    | TInt64 | TTimestamp => encode_runs (column_len column) (i64_slot column) (to_le 8)
    | TBool => encode_runs (column_len column) (bool_slot column) push_bool
    | TDecimal _ scale => encode_runs (column_len column) (λ row, decimal_slot column row scale) (to_le 16)
    | _ => Err (InvalidArgument "encoding rle is not admissible for {other}")
    end in
  Ok (bytes, no_params).

Definition read_i64 (slot : list Z) : outcome Z := Ok (from_le_signed 64 slot).

Definition read_bool (slot : list Z) : outcome bool :=
  let! byte := index slot 0 in
  if 1 <? byte then Err (Corrupt "rle Bool value is {byte}, expected 0 or 1") else Ok (byte =? 1).

Definition read_decimal (precision scale : Z) (slot : list Z) : outcome Z :=
  let digits := from_le_signed 128 slot in
  let! value := map_err (λ _, Corrupt "rle Decimal is invalid: {error}") (Decimal.new digits scale) in
  if negb (Decimal.fits value precision scale)
  then Err (Corrupt "rle Decimal digits exceed declared precision {precision}")
  else Ok digits.

Definition decode_decimal (bytes : list Z) (validity : Bitmap) (row_count : nat) (precision scale : Z) :
    outcome Column :=
  if negb ((1 <=? precision) && (precision <=? Decimal.MAX_PRECISION)) || (precision <? scale)
  then Err (Corrupt "rle column has invalid Decimal({precision}, {scale}) declaration") else
  let! values := decode_runs 16 (read_decimal precision scale) bytes row_count in
  Ok (CDecimal values scale (column_validity validity row_count)).

Definition decode (p : params) (bytes : list Z) (validity : Bitmap) (row_count : nat) (ty : LogicalType) :
    outcome Column :=
  if negb (bool_decide (p = no_params)) then Err (Corrupt "encoding rle parameters are not zero") else
  match ty with
  | TInt64 =>
      let! values := decode_runs 8 read_i64 bytes row_count in
      Ok (CInt64 values (column_validity validity row_count))
  | TTimestamp =>
      let! values := decode_runs 8 read_i64 bytes row_count in
      Ok (CTimestamp values (column_validity validity row_count))
  | TBool =>
      let! values := decode_runs 1 read_bool bytes row_count in
      Ok (CBool values (column_validity validity row_count))
  | TDecimal precision scale => decode_decimal bytes validity row_count precision scale
  | _ => Err (Corrupt "encoding rle is not admissible for {other}")
  end.

(** ** Lemmas on runs *)

Section RunLemmas.
Context {T : Type} `{!EqDecision T} (N : nat) (push_value : T → list Z) (read_value : list Z → outcome T).

Definition run_bytes (run : Z * T) : list Z := to_le 4 run.1 ++ push_value run.2.
Definition expand (runs : list (Z * T)) : list T :=
  concat ((λ '(run_len, value), replicate (Z.to_nat run_len) value) <$> runs).
Definition runs_ok (runs : list (Z * T)) : Prop := Forall (λ run, 0 < run.1 < 2 ^ 32) runs.

Lemma expand_app r1 r2 : expand (r1 ++ r2) = expand r1 ++ expand r2.
Proof. unfold expand. by rewrite fmap_app, concat_app. Qed.

Lemma length_expand runs :
  runs_ok runs → zlen (expand runs) = foldr (λ run n, run.1 + n) 0 runs ∧ zlen runs ≤ zlen (expand runs).
Proof.
  induction 1 as [|[n t] runs Hr Hrs [IH1 IH2]]; [done|]. simpl in Hr.
  change (expand ((n, t) :: runs)) with (replicate (Z.to_nat n) t ++ expand runs).
  unfold zlen in *. rewrite length_app, length_replicate. simpl. lia.
Qed.

(** The runs the loop has seen: flushed to [body], or still open. *)
Definition run_inv (vals : list T) (s : run_state) : Prop :=
  let '(body, run_count, current) := s in
  ∃ runs, body = concat (run_bytes <$> runs) ∧ run_count = zlen runs ∧ runs_ok runs ∧
    match current with
    | None => vals = [] ∧ runs = []
    | Some (held, len) => (0 < len)%nat ∧ vals = expand runs ++ replicate len held
    end.

Lemma flush_run_spec runs held len :
  (0 < len)%nat → runs_ok runs → zlen (expand runs) + Z.of_nat len < 2 ^ 32 →
  flush_run push_value (concat (run_bytes <$> runs)) (zlen runs) held len =
    Ok (concat (run_bytes <$> (runs ++ [(Z.of_nat len, held)])), zlen (runs ++ [(Z.of_nat len, held)])) ∧
  runs_ok (runs ++ [(Z.of_nat len, held)]) ∧
  expand (runs ++ [(Z.of_nat len, held)]) = expand runs ++ replicate len held.
Proof.
  intros Hl Hr Hn. destruct (length_expand _ Hr) as [_ Hc]. pose proof (zlen_nonneg runs).
  unfold flush_run. rewrite !try_u_in by (unfold in_u; lia). cbn [ok_or bind].
  split_and!.
  - rewrite fmap_app, concat_app, zlen_app. csimpl. change (run_bytes (Z.of_nat len, held))
      with (to_le 4 (Z.of_nat len) ++ push_value held).
    by rewrite app_nil_r, <- app_assoc.
  - apply Forall_app. split; [done|]. constructor; [simpl; lia|done].
  - rewrite expand_app. f_equal. unfold expand. simpl. by rewrite app_nil_r, Nat2Z.id.
Qed.

Lemma encode_step_spec vals s v :
  run_inv vals s → zlen vals < 2 ^ 32 →
  ∃ s', encode_step push_value s v = Ok s' ∧ run_inv (vals ++ [v]) s'.
Proof.
  destruct s as [[body rc] cur]. intros (runs & -> & -> & Hr & Hc) Hn. unfold encode_step.
  destruct cur as [[held len]|].
  - destruct Hc as [Hl ->]. case_decide as Ev.
    + eexists. split; [done|]. exists runs. split_and!; [done..|lia|].
      subst. rewrite <- app_assoc. f_equal. change (v :: replicate len v) with (replicate (S len) v).
      rewrite <- Nat.add_1_r at 1. by rewrite replicate_add.
    + rewrite zlen_app in Hn. unfold zlen at 2 in Hn. rewrite length_replicate in Hn.
      destruct (flush_run_spec runs held len) as (-> & Hr' & He); [done..|]. cbn [bind].
      eexists. split; [done|]. eexists. split_and!; [done..|lia|]. by rewrite He.
  - destruct Hc as [-> ->]. eexists. split; [done|]. exists []. split_and!; try done. lia.
Qed.

Lemma encode_loop_spec rest vals s :
  run_inv vals s → zlen (vals ++ rest) < 2 ^ 32 →
  ∃ s', for_each rest s (encode_step push_value) = Ok s' ∧ run_inv (vals ++ rest) s'.
Proof.
  revert vals s. induction rest as [|v rest IH]; intros vals s Hs Hn.
  { eexists. rewrite app_nil_r. done. }
  destruct (encode_step_spec vals s v Hs) as (s1 & E & H1).
  { rewrite zlen_app in Hn. pose proof (zlen_nonneg (v :: rest)). lia. }
  simpl. rewrite E. cbn [bind]. destruct (IH (vals ++ [v]) s1) as (s2 & E2 & H2); [done| |].
  { by rewrite <- app_assoc. }
  exists s2. by rewrite <- app_assoc in H2.
Qed.

(** The encoder writes the values as runs of positive length. *)
Lemma encode_runs_spec slot vals :
  (∀ i v, vals !! i = Some v → slot i = Ok v) → zlen vals < 2 ^ 32 →
  ∃ runs, encode_runs (length vals) slot push_value = Ok (to_le 4 (zlen runs) ++ concat (run_bytes <$> runs)) ∧
    runs_ok runs ∧ expand runs = vals.
Proof.
  intros Hslot Hn. unfold encode_runs.
  rewrite (for_seq_list vals _ _ (encode_step push_value)) by (intros s i v Hv; by rewrite (Hslot _ _ Hv)).
  destruct (encode_loop_spec vals [] ([], 0, None)) as ([[body rc] cur] & -> & runs & -> & -> & Hr & Hc);
    [by exists []; split_and!; try done; constructor|done|]. cbn [bind]. rewrite app_nil_l in Hc. destruct cur as [[held len]|].
  - destruct Hc as [Hl Hv]. destruct (flush_run_spec runs held len) as (-> & Hr' & He); [done..| |].
    { rewrite Hv, zlen_app in Hn. unfold zlen at 2 in Hn. by rewrite length_replicate in Hn. }
    cbn [bind]. eexists. split; [done|]. split; [done|]. by rewrite He.
  - destruct Hc as [-> ->]. by exists [].
Qed.

Hypothesis push_length : ∀ t, length (push_value t) = N.

Lemma length_run_bytes runs : length (concat (run_bytes <$> runs)) = ((4 + N) * length runs)%nat.
Proof.
  apply length_concat_fixed. intros run _. unfold run_bytes. simpl_len. by rewrite push_length.
Qed.

(** Reading the [i]-th run of an encoded section. *)
Lemma parse_step_encoded runs s i run :
  let bytes := to_le 4 (zlen runs) ++ concat (run_bytes <$> runs) in
  runs_ok runs → runs !! i = Some run → read_value (push_value run.2) = Ok run.2 →
  parse_step N read_value bytes s i =
    let! covered := ok_or (try_u 64 (s.2 + run.1)) (Corrupt "rle run lengths overflow row coverage") in
    Ok (s.1 ++ [run], covered).
Proof.
  intros bytes Hr Hi Hread. destruct s as [acc covered]. destruct run as [n t]. cbn [fst snd] in *.
  pose proof (lookup_lt_Some _ _ _ Hi) as Hlt.
  assert (length bytes = 4 + (4 + N) * length runs)%nat as Hlen.
  { unfold bytes. simpl_len. by rewrite length_run_bytes. }
  assert (sub (4 + i * (4 + N)) (4 + i * (4 + N) + (4 + N)) bytes = run_bytes (n, t)) as Hsub.
  { unfold bytes. rewrite sub_app_r by (simpl_len; lia). simpl_len.
    rewrite <- (sub_concat_fixed run_bytes runs (4 + N) i (n, t)); [f_equal; lia| |done].
    intros run _. unfold run_bytes. simpl_len. by rewrite push_length. }
  unfold parse_step. rewrite read_u32_Ok by nia. rewrite slice_Ok by nia.
  set (start := (4 + i * (4 + N))%nat) in *.
  assert (sub start (start + 4) bytes = to_le 4 n) as ->.
  { transitivity (sub 0 4 (sub start (start + (4 + N)) bytes)).
    - rewrite sub_sub by lia. f_equal; lia.
    - rewrite Hsub. unfold run_bytes. simpl fst. rewrite sub_app_l by (simpl_len; lia).
      by rewrite sub_all. }
  assert (sub (start + 4) (start + (4 + N)) bytes = push_value t) as ->.
  { transitivity (sub 4 (4 + N) (sub start (start + (4 + N)) bytes)).
    - rewrite sub_sub by lia. f_equal; lia.
    - rewrite Hsub. unfold run_bytes. simpl fst. simpl snd. rewrite sub_app_r by (simpl_len; lia).
      simpl_len. rewrite sub_all; [done|]. rewrite push_length. lia. }
  eapply Forall_lookup_1 in Hr; [|done]. simpl in Hr. cbn [bind].
  rewrite (from_to_le_u 4 32) by (done || unfold in_u; lia).
  rewrite (proj2 (Z.eqb_neq _ _)) by lia. destruct (try_u 64 _); [|done]. simpl. by rewrite Hread.
Qed.

Lemma decode_runs_encoded runs :
  runs_ok runs → zlen (expand runs) < 2 ^ 32 → Z.of_nat N < 2 ^ 31 →
  (∀ run, run ∈ runs → read_value (push_value run.2) = Ok run.2) →
  decode_runs N read_value (to_le 4 (zlen runs) ++ concat (run_bytes <$> runs)) (length (expand runs)) =
    Ok (expand runs).
Proof.
  intros Hr Hn HN Hread. destruct (length_expand _ Hr) as [Hsum Hcount]. pose proof (zlen_nonneg runs).
  unfold decode_runs, parse_runs. set (bytes := to_le 4 _ ++ _).
  assert (length bytes = 4 + (4 + N) * length runs)%nat as Hlen.
  { unfold bytes. simpl_len. by rewrite length_run_bytes. }
  rewrite (proj2 (Nat.ltb_ge _ _)) by lia. rewrite read_u32_Ok by lia. unfold bytes at 1.
  rewrite sub_app_l, sub_all by (simpl_len; lia). rewrite (from_to_le_u 4 32) by (done || unfold in_u; lia).
  cbn [bind]. rewrite try_u_in by (unfold in_u; unfold zlen in *; nia). cbn [ok_or bind].
  assert (zlen bytes - 4 = zlen runs * Z.of_nat (4 + N)) as -> by (unfold zlen; lia).
  rewrite Z.ltb_irrefl. unfold zlen at 1. rewrite Nat2Z.id.
  rewrite (for_seq_list runs _ _ (λ s run,
    let! covered := ok_or (try_u 64 (s.2 + run.1)) (Corrupt "rle run lengths overflow row coverage") in
    Ok (s.1 ++ [run], covered))).
  2: { intros s i run Hi. apply parse_step_encoded; [done..|]. apply Hread. by eapply list_elem_of_lookup_2. }
  assert (∀ rest acc c, 0 ≤ c → runs_ok rest → c + foldr (λ run n, run.1 + n) 0 rest < 2 ^ 32 →
    for_each rest (acc, c) (λ s run,
      let! covered := ok_or (try_u 64 (s.2 + run.1)) (Corrupt "rle run lengths overflow row coverage") in
      Ok (s.1 ++ [run], covered)) = Ok (acc ++ rest, c + foldr (λ run n, run.1 + n) 0 rest)) as Hloop.
  { clear. intros rest. induction rest as [|[n t] rest IH]; intros acc c Hc Hr Hb; simpl.
    { by rewrite app_nil_r, Z.add_0_r. }
    inversion_clear Hr as [|? ? Hn Hrest]. simpl in *.
    destruct (length_expand _ Hrest) as [<- _] in IH, Hb |- *. pose proof (zlen_nonneg (expand rest)).
    rewrite try_u_in by (unfold in_u; lia). cbn [ok_or bind].
    destruct (length_expand _ Hrest) as [E _]. rewrite IH; [|lia|done|lia].
    f_equal. f_equal; [by rewrite <- app_assoc|lia]. }
  rewrite Hloop by (done || lia). cbn [bind]. rewrite app_nil_l, Z.add_0_l, <- Hsum.
  unfold zlen. rewrite Z.eqb_refl. done.
Qed.

(** Totality: arbitrary bytes give an error or [row_count] values. *)
Lemma parse_step_total bytes s i :
  is_bytes bytes → (∀ slot, length slot = N → read_value slot ≠ Panic) →
  (4 + i * (4 + N) + (4 + N) ≤ length bytes)%nat → zlen (expand s.1) = s.2 →
  parse_step N read_value bytes s i ≠ Panic ∧
  ∀ s', parse_step N read_value bytes s i = Ok s' → zlen (expand s'.1) = s'.2.
Proof.
  intros Hb Hread Hi Hs. destruct s as [acc covered]. unfold parse_step.
  rewrite read_u32_Ok by lia. rewrite slice_Ok by lia. cbn [bind].
  set (n := from_le _). assert (0 ≤ n) as Hn.
  { apply from_le_bound. by apply sub_bytes. }
  destruct (n =? 0); [done|]. destruct (try_u 64 _) as [c|] eqn:Ec; [|done]. cbn [ok_or bind].
  apply try_u_Some in Ec as [-> _].
  destruct (read_value _) as [v|e|] eqn:Er; cbn [bind]; [|done|].
  - split; [done|]. intros s' [= <-]. simpl in *. rewrite expand_app, zlen_app, Hs. f_equal.
    unfold expand, zlen. csimpl. rewrite app_nil_r, length_replicate. lia.
  - exfalso. revert Er. apply Hread. rewrite length_sub; lia.
Qed.

Lemma decode_runs_total bytes row_count :
  is_bytes bytes → (∀ slot, length slot = N → read_value slot ≠ Panic) →
  decode_runs N read_value bytes row_count ≠ Panic ∧
  ∀ values, decode_runs N read_value bytes row_count = Ok values → length values = row_count.
Proof.
  intros Hb Hread. unfold decode_runs, parse_runs.
  destruct (Nat.ltb_spec (length bytes) 4); [done|]. rewrite read_u32_Ok by lia. cbn [bind].
  set (n := from_le _). assert (0 ≤ n) as Hn by (apply from_le_bound; by apply sub_bytes).
  destruct (try_u 64 _) as [needed|] eqn:En; [|done]. apply try_u_Some in En as [-> _]. cbn [ok_or bind].
  destruct (Z.ltb_spec (zlen bytes - 4) (n * Z.of_nat (4 + N))); [done|].
  destruct (Z.ltb_spec (n * Z.of_nat (4 + N)) (zlen bytes - 4)); [done|].
  assert (∀ s i, i ∈ seq 0 (Z.to_nat n) → zlen (expand s.1) = s.2 →
    parse_step N read_value bytes s i ≠ Panic ∧
    ∀ s', parse_step N read_value bytes s i = Ok s' → zlen (expand s'.1) = s'.2) as Hstep.
  { intros s i Hi%elem_of_seq Hs. apply parse_step_total; [done..| |done]. unfold zlen in *. nia. }
  destruct (for_each _ _ _) as [[runs covered]|e|] eqn:El; cbn [bind]; [|done|].
  - destruct (covered =? _) eqn:Ec; simpl; [|done]. split; [done|]. intros values [= <-].
    apply (for_each_inv (λ s : list (Z * T) * Z, zlen (expand s.1) = s.2)) in El; simpl in *; [|done|].
    + reflect_bools. unfold zlen in El. fold (expand runs). lia.
    + intros i s1 s2 Hi Hs Hok. by eapply Hstep.
  - exfalso. revert El. apply (for_each_no_panic (λ s : list (Z * T) * Z, zlen (expand s.1) = s.2)); [done|].
    intros i s1 Hi Hs. by apply Hstep.
Qed.
End RunLemmas.

(** ** The codec *)

Definition rle_accepts (ty : LogicalType) (values : list Value) : Prop :=
  match ty with
  | TInt64 | TTimestamp | TBool => True
  | TDecimal precision scale => 1 ≤ precision ≤ 38 ∧ 0 ≤ scale ≤ precision
  | _ => False
  end.

(** Encoding then decoding the slots of the values themselves. *)
Lemma runs_roundtrip {T} `{!EqDecision T} (N : nat) push_value read_value (slot : nat → outcome T)
    (proj : Value → T) values :
  (∀ t, length (push_value t) = N) → Z.of_nat N < 2 ^ 31 → zlen values < 2 ^ 32 →
  (∀ i v, values !! i = Some v → slot i = Ok (proj v)) →
  (∀ v, v ∈ values → read_value (push_value (proj v)) = Ok (proj v)) →
  (∀ t, is_bytes (push_value t)) →
  ∃ bytes, encode_runs (length values) slot push_value = Ok bytes ∧ is_bytes bytes ∧
    decode_runs N read_value bytes (length values) = Ok (proj <$> values).
Proof.
  intros Hpush HN Hn Hslot Hread Hbytes.
  destruct (encode_runs_spec push_value slot (proj <$> values)) as (runs & E & Hr & He).
  { intros i t. rewrite list_lookup_fmap. intros (v & Hv & ->)%fmap_Some. by apply Hslot. }
  { unfold zlen in *. by rewrite length_fmap. }
  rewrite length_fmap in E. eexists. split; [done|]. split.
  - apply Forall_app. split; [apply to_le_bytes|]. apply Forall_concat, Forall_fmap, Forall_true.
    intros run. apply Forall_app. split; [apply to_le_bytes|apply Hbytes].
  - rewrite <- He, <- (length_fmap proj values), <- He.
    apply decode_runs_encoded; [done..| | done|].
    { rewrite He. unfold zlen in *. by rewrite length_fmap. }
    intros [n t] Hrun. simpl.
    assert (t ∈ proj <$> values) as (v & -> & Hv)%list_elem_of_fmap; [|by apply Hread].
    rewrite <- He. unfold expand. apply list_elem_of_In, in_concat.
    exists (replicate (Z.to_nat n) t). split.
    + apply list_elem_of_In, list_elem_of_fmap. by exists (n, t).
    + apply list_elem_of_In, elem_of_replicate. split; [done|].
      unfold runs_ok in Hr. rewrite Forall_forall in Hr. specialize (Hr _ Hrun). simpl in Hr. lia.
Qed.


Lemma read_bool_push b : read_bool (push_bool b) = Ok b.
Proof. by destruct b. Qed.

Lemma read_i64_push x : in_i 64 x → read_i64 (to_le 8 x) = Ok x.
Proof. intros. unfold read_i64. by rewrite (from_to_le_i 8 64). Qed.

Lemma read_decimal_push precision scale d :
  scale ≤ 38 → in_i 128 d → Decimal.precision (mkDecimal d scale) ≤ precision →
  read_decimal precision scale (to_le 16 d) = Ok d.
Proof.
  intros Hs Hd Hp. unfold read_decimal. rewrite (from_to_le_i 16 128) by done.
  unfold Decimal.new, Decimal.MAX_SCALE. rewrite (proj2 (Z.ltb_ge _ _)) by lia. cbn [map_err bind].
  unfold Decimal.fits. simpl. rewrite Z.eqb_refl, (proj2 (Z.leb_le _ _)) by done. done.
Qed.

Lemma rle_case {T} `{!EqDecision T} (N : nat) push_value read_value (slot : nat → outcome T)
    (proj : Value → T) (wrap : T → Value) (build : list T → option Bitmap → Column) col validity values :
  reads_as col values → zlen values < 2 ^ 32 → validity_matches validity values →
  (∀ t, length (push_value t) = N) → Z.of_nat N < 2 ^ 31 → (∀ t, is_bytes (push_value t)) →
  (∀ i v, v ∈ values → value_at col i = Ok v → slot i = Ok (proj v)) →
  (∀ v, v ∈ values → read_value (push_value (proj v)) = Ok (proj v)) →
  (∀ vs b, column_len (build vs b) = length vs) →
  (∀ vs b row, value_at (build vs b) row = typed_value b row vs wrap) →
  (∀ v, v ∈ values → v = Null ∨ wrap (proj v) = v) →
  ∃ bytes, encode_runs (column_len col) slot push_value = Ok bytes ∧ is_bytes bytes ∧
    ∃ vs, decode_runs N read_value bytes (length values) = Ok vs ∧
      reads_as (build vs (column_validity validity (length values))) values.
Proof.
  intros [Hlen Hrow] Hn Hv Hpush HN Hbytes Hslot Hread Hbl Hbv Hw.
  destruct (runs_roundtrip N push_value read_value slot proj values) as (bytes & E & Hb & Hd); [done..| |done|done|].
  { intros i v Hi. apply Hslot; [by eapply list_elem_of_lookup_2|by apply Hrow]. }
  rewrite Hlen. exists bytes. split; [done|]. split; [done|]. eexists. split; [done|].
  by apply (reads_as_typed wrap).
Qed.

#[local] Hint Resolve length_to_le to_le_bytes : devon.

Lemma rle_roundtrips ty values col validity :
  from_values ty values = Ok col →
  Forall value_wf values → forallb (λ v, matches_type v ty) values = true →
  zlen values < 2 ^ 32 → rle_accepts ty values → validity_matches validity values →
  ∃ bytes p, encode col ty = Ok (bytes, p) ∧ is_bytes bytes ∧
    ∃ col', decode p bytes validity (length values) ty = Ok col' ∧ reads_as col' values.
Proof.
  intros Hcol Hwf Hm Hn Ha Hv. apply from_values_reads in Hcol.
  rewrite Forall_forall in Hwf. rewrite forallb_forall in Hm.
  assert (∀ v, v ∈ values → matches_type v ty = true) as Hty by (intros; by apply Hm, list_elem_of_In).
  assert (∀ v, v ∈ values → in_i 64 (i64_of v)) as H64.
  { intros v Hin. specialize (Hwf v Hin). by destruct v. }
  assert (∀ bytes A (m : outcome (list A)) (f : list A → Column),
    (∃ vs, m = Ok vs ∧ reads_as (f vs) values) →
    encode col ty = Ok (bytes, no_params) → is_bytes bytes →
    decode no_params bytes validity (length values) ty = (let! vs := m in Ok (f vs)) →
    ∃ bytes p, encode col ty = Ok (bytes, p) ∧ is_bytes bytes ∧
      ∃ col', decode p bytes validity (length values) ty = Ok col' ∧ reads_as col' values) as Hdone.
  { intros bytes A m f (vs & -> & Hr) He Hb Hd. exists bytes, no_params. split; [done|]. split; [done|].
    eexists. split; [done|]. done. }
  destruct ty as [| | | | | | | | | pr sc |]; try done.
  - destruct (rle_case 1 push_bool read_bool (bool_slot col) bool_of Bool CBool col validity values)
      as (bytes & E & Hb & Hd); auto using read_bool_push, matches_bool; try done.
    { intros []; (constructor; [unfold is_byte; range_lia|constructor]). }
    { intros i v Hin E. unfold bool_slot. rewrite E. specialize (Hty v Hin). by destruct v. }
    eapply Hdone; [exact Hd|unfold encode; by rewrite E|done|done].
  - destruct (rle_case 8 (to_le 8) read_i64 (i64_slot col) i64_of Int64 CInt64 col validity values)
      as (bytes & E & Hb & Hd); auto using read_i64_push, matches_int64 with devon; try done.
    { intros i v Hin E. unfold i64_slot. rewrite E. specialize (Hty v Hin). by destruct v. }
    eapply Hdone; [exact Hd|unfold encode; by rewrite E|done|done].
  - destruct (rle_case 8 (to_le 8) read_i64 (i64_slot col) i64_of Timestamp CTimestamp col validity values)
      as (bytes & E & Hb & Hd); auto using read_i64_push, matches_timestamp with devon; try done.
    { intros i v Hin E. unfold i64_slot. rewrite E. specialize (Hty v Hin). by destruct v. }
    eapply Hdone; [exact Hd|unfold encode; by rewrite E|done|done].
  - destruct Ha as [Hpr Hsc].
    destruct (rle_case 16 (to_le 16) (read_decimal pr sc) (λ row, decimal_slot col row sc) digits_of
      (λ d, decimal_value d sc) (λ vs b, CDecimal vs sc b) col validity values) as (bytes & E & Hb & Hd);
      auto with devon; try done.
    { intros i v Hin E. unfold decimal_slot. rewrite E. specialize (Hty v Hin). destruct v; try done.
      simpl in *. unfold Decimal.fits in Hty. reflect_bools. subst. by rewrite Z.eqb_refl. }
    { intros v Hin. destruct (matches_decimal_fits v pr sc); [lia|by auto..|].
      apply read_decimal_push; auto; lia. }
    { intros v Hin. apply (matches_decimal v pr); [lia|auto]. }
    eapply Hdone; [exact Hd|unfold encode; by rewrite E|done|].
    unfold decode, decode_decimal, Decimal.MAX_PRECISION.
    by rewrite !(proj2 (Z.leb_le _ _)), (proj2 (Z.ltb_ge _ _)) by lia.
Qed.

Lemma read_i64_total slot : length slot = 8%nat → read_i64 slot ≠ Panic.
Proof. done. Qed.
Lemma read_bool_total slot : length slot = 1%nat → read_bool slot ≠ Panic.
Proof. destruct slot as [|b []]; try done. intros _. unfold read_bool. simpl. by destruct (1 <? b). Qed.
Lemma read_decimal_total pr sc slot : length slot = 16%nat → read_decimal pr sc slot ≠ Panic.
Proof.
  intros _. unfold read_decimal, Decimal.new. destruct (_ <? _); simpl; [done|]. by destruct (Decimal.fits _ _ _).
Qed.

Lemma rle_total p bytes validity row_count ty :
  is_bytes bytes →
  (∃ e, decode p bytes validity row_count ty = Err e) ∨
  (∃ col, decode p bytes validity row_count ty = Ok col ∧ column_len col = row_count).
Proof.
  intros Hb. unfold decode. destruct (negb _); [by eauto|].
  assert (∀ T (N : nat) (read_value : list Z → outcome T) (build : list T → Column),
    (∀ slot, length slot = N → read_value slot ≠ Panic) → (∀ vs, column_len (build vs) = length vs) →
    (∃ e, (let! values := decode_runs N read_value bytes row_count in Ok (build values)) = Err e) ∨
    (∃ col, (let! values := decode_runs N read_value bytes row_count in Ok (build values)) = Ok col ∧
       column_len col = row_count)) as Hcase.
  { intros T N read_value build Hr Hl.
    destruct (decode_runs_total N read_value bytes row_count Hb Hr) as [Hp Hk].
    destruct (decode_runs _ _ _ _) as [vs|e|]; [|by eauto|done]. right. eexists. split; [done|].
    rewrite Hl. by apply Hk. }
  destruct ty; lazymatch goal with
    | |- context [decode_decimal] => idtac
    | |- context [decode_runs] => apply Hcase; auto using read_i64_total, read_bool_total
    | |- _ => left; by eexists
    end.
  unfold decode_decimal. destruct (_ || _); [by eauto|].
  apply (Hcase _ 16%nat _ (λ vs, CDecimal vs scale (column_validity validity row_count)));
    auto using read_decimal_total.
Qed.

#[export] Instance rle_codec : ValuesCodec encode decode rle_accepts :=
  {| codec_roundtrip := rle_roundtrips; codec_total := rle_total |}.

(** Run-length encoding round-trips: for every column of an admissible type
    ([Int64], [Timestamp], [Bool], [Decimal]) the encoder succeeds, and decoding
    its bytes under the column's validity bitmap gives a column that reads every
    row back, NULLs included. *)
Theorem rle_roundtrip ty values col validity :
  from_values ty values = Ok col →
  Forall value_wf values → forallb (λ v, matches_type v ty) values = true →
  zlen values < 2 ^ 32 → rle_accepts ty values → validity_matches validity values →
  ∃ bytes p, encode col ty = Ok (bytes, p) ∧ is_bytes bytes ∧
    ∃ col', decode p bytes validity (length values) ty = Ok col' ∧ reads_as col' values.
Proof. apply codec_roundtrip. Qed.

Lemma rle_roundtrip_witness :
  let values := [Int64 5; Int64 5; Null; Int64 (-3)] in
  ∃ col bytes p col', from_values TInt64 values = Ok col ∧ encode col TInt64 = Ok (bytes, p) ∧
    decode p bytes (mkBitmap [11] 4) (length values) TInt64 = Ok col' ∧ reads_as col' values.
Proof.
  intros values. set (col := match from_values TInt64 values with Ok c => c | _ => Boxed [] end). exists col.
  destruct (rle_roundtrip TInt64 values col (mkBitmap [11] 4)) as (bytes & p & He & _ & col' & Hd & Hr);
    [vm_compute; reflexivity|check_values|vm_compute; reflexivity|vm_compute; reflexivity|exact I
    |apply validity_matches_check; vm_compute; reflexivity|].
  exists bytes, p, col'. split; [vm_compute; reflexivity|]. split; [exact He|]. split; [exact Hd|exact Hr].
Defined.
