(* ===== verification/Constant.v ===== *)
(** Constant encoding (id 1): one shared non-NULL value,
    [devondb-storage/src/node_group/encodings/constant.rs]. *)

From S2P Require Import Prelude Bytes Decimal Types Codec.

(** ** The code *)

Definition value_section_len (ty : LogicalType) : option nat :=
  match ty with
  | TInt64 | TFloat64 | TTimestamp => Some 8%nat
  | TBool => Some 1%nat
  | TDecimal _ _ => Some 16%nat
  | TString => None
  | _ => None
  end.

Definition zero_spelling (ty : LogicalType) : list Z :=
  match value_section_len ty with
  | Some width => replicate width 0
  | None => replicate 4 0
  end.

Definition same_value (l r : Value) : bool :=
  match l, r with
  | Float64 l, Float64 r => l =? r
  | _, _ => value_eq l r
  end.

Definition encode_value (value : Value) (ty : LogicalType) : outcome (list Z) :=
  match ty, value with
  | TInt64, Int64 value | TTimestamp, Timestamp value => Ok (to_le 8 value)
  | TFloat64, Float64 value => Ok (to_le 8 value)
  | TBool, Bool value => Ok [if value then 1 else 0]
  | TDecimal _ _, Decimal value => Ok (to_le 16 (Decimal.digits value))
  | TString, String value =>
      let! len := ok_or (try_u 32 (zlen value))
        (InvalidArgument "encoding constant String value length exceeds u32") in
      Ok (to_le 4 len ++ value)
  | _, _ => Err (InvalidArgument "encoding constant value {value} does not match {ty}")
  end.

(** One iteration of the scan for the shared value. *)
Definition constant_step (constant : option Value) (value : Value) : outcome (option Value) :=
  match value with
  | Null => Ok constant
  | _ =>
      match constant with
      | None => Ok (Some value)
      | Some shared =>
          if same_value shared value then Ok constant
          else Err (InvalidArgument "encoding constant requires one shared non-null value but row {row} disagrees")
      end
  end.

Definition encode (column : Column) (ty : LogicalType) : outcome (list Z * params) :=
  let! constant := for_each (seq 0 (column_len column)) None
    (λ constant row, let! value := value_at column row in constant_step constant value) in
  let! bytes := match constant with Some value => encode_value value ty | None => Ok (zero_spelling ty) end in
  Ok (bytes, no_params).

Definition fixed_slot (N : nat) (bytes : list Z) : outcome (list Z) :=
  if negb (length bytes =? N)%nat
  then Err (Corrupt "constant value section is {} bytes, expected exactly {N} for {ty}")
  else Ok bytes.

Definition slots {T} (dflt value : T) (validity : Bitmap) (row_count : nat) : list T :=
  (λ row, if is_valid validity row then value else dflt) <$> seq 0 row_count.

Definition decode_decimal (bytes : list Z) (validity : Bitmap) (row_count : nat) (precision scale : Z) :
    outcome Column :=
  if negb ((1 <=? precision) && (precision <=? Decimal.MAX_PRECISION)) || (precision <? scale)
  then Err (Corrupt "constant column has invalid Decimal({precision}, {scale}) declaration") else
  let! slot := fixed_slot 16 bytes in
  let digits := from_le_signed 128 slot in
  let! value := map_err (λ _, Corrupt "constant Decimal is invalid: {error}") (Decimal.new digits scale) in
  if negb (Decimal.fits value precision scale)
  then Err (Corrupt "constant Decimal digits exceed declared precision {precision}") else
  Ok (CDecimal (slots 0 digits validity row_count) scale (column_validity validity row_count)).

Definition decode_string (bytes : list Z) (validity : Bitmap) (row_count : nat) : outcome Column :=
  if (length bytes <? 4)%nat
  then Err (Corrupt "constant String value section is {} bytes, expected at least 4") else
  let! len := read_u32 bytes 0 in
  if negb (zlen bytes - 4 =? len)
  then Err (Corrupt "constant String value section is {} bytes, expected {} for a {len}-byte value") else
  let! tail := slice bytes 4 (length bytes) in
  let! text := from_utf8 tail (Corrupt "constant String is not valid UTF-8: {error}") in
  Ok (Boxed ((λ row, if is_valid validity row then String text else Null) <$> seq 0 row_count)).

Definition decode (p : params) (bytes : list Z) (validity : Bitmap) (row_count : nat) (ty : LogicalType) :
    outcome Column :=
  if negb (bool_decide (p = no_params)) then Err (Corrupt "encoding constant parameters are not zero") else
  let all_null := no_row_valid validity row_count in
  if all_null && negb (bool_decide (bytes = zero_spelling ty))
  then Err (Corrupt "constant value slot is not the zero spelling but every row is NULL") else
  match ty with
  | TInt64 =>
      let! slot := fixed_slot 8 bytes in
      Ok (CInt64 (slots 0 (from_le_signed 64 slot) validity row_count) (column_validity validity row_count))
  | TTimestamp =>
      let! slot := fixed_slot 8 bytes in
      Ok (CTimestamp (slots 0 (from_le_signed 64 slot) validity row_count) (column_validity validity row_count))
  | TFloat64 =>
      let! slot := fixed_slot 8 bytes in
      Ok (CFloat64 (slots 0 (from_le slot) validity row_count) (column_validity validity row_count))
  | TBool =>
      let! bs := fixed_slot 1 bytes in
      let! slot := index bs 0 in
      if 1 <? slot then Err (Corrupt "constant Bool value is {slot}, expected 0 or 1") else
      Ok (CBool (slots false (slot =? 1) validity row_count) (column_validity validity row_count))
  | TDecimal precision scale => decode_decimal bytes validity row_count precision scale
  | TString => decode_string bytes validity row_count
  | _ => Err (Corrupt "encoding constant is not admissible for {other}")
  end.

(** ** Lemmas *)

#[local] Opaque Decimal.precision float_eq.

(** Which columns the encoding accepts: one non-NULL value, if any. *)
Definition constant_type (ty : LogicalType) : Prop :=
  match ty with
  | TInt64 | TFloat64 | TTimestamp | TBool | TString => True
  | TDecimal precision scale => 1 ≤ precision ≤ 38 ∧ 0 ≤ scale ≤ precision
  | _ => False
  end.

Definition short_string (v : Value) : Prop :=
  match v with String s => zlen s < 2 ^ 32 | _ => True end.

Definition constant_accepts (ty : LogicalType) (values : list Value) : Prop :=
  constant_type ty ∧ Forall short_string values ∧ ∃ shared, Forall (λ v, v = Null ∨ v = shared) values.

(** Admissible values compare by representation. *)
Lemma same_value_refl v ty : matches_type v ty = true → constant_type ty → same_value v v = true.
Proof.
  intros Hm Ha. destruct v; try (destruct ty; first [discriminate Hm | destruct Ha]; fail);
    unfold same_value, value_eq;
    first [apply Bool.eqb_reflx | apply Z.eqb_refl | by apply bool_decide_eq_true_2 | done].
Qed.

Lemma constant_step_value c v :
  v ≠ Null → (c = None ∨ c = Some v) → same_value v v = true → constant_step c v = Ok (Some v).
Proof.
  intros Hn Hc Hs. destruct Hc as [->| ->]; unfold constant_step; rewrite ?Hs; clear Hs; by destruct v.
Qed.

Lemma constant_scan ty values shared c :
  Forall (λ v, v = Null ∨ v = shared) values → forallb (λ v, matches_type v ty) values = true →
  constant_type ty → (c = None ∨ c = Some shared) →
  for_each values c constant_step =
    Ok (if bool_decide (c = None) && forallb (λ v, bool_decide (v = Null)) values then None else Some shared).
Proof.
  intros Hs. revert c. induction Hs as [|v values Hv Hs IH]; intros c Hm Ha Hc.
  { simpl. destruct Hc as [->| ->]; done. }
  simpl in Hm. apply andb_true_iff in Hm as [Hmv Hm]. cbn [for_each].
  destruct (decide (v = Null)) as [->|Hn].
  { simpl. by apply IH. }
  destruct Hv as [?| ->]; [done|]. simpl forallb. rewrite (bool_decide_eq_false_2 (shared = Null)) by done.
  rewrite andb_false_l, andb_false_r, constant_step_value by eauto using same_value_refl.
  cbn [bind]. rewrite IH by auto. done.
Qed.

(** The section the encoder writes. *)
Definition constant_bytes (ty : LogicalType) (values : list Value) (shared : Value) : outcome (list Z) :=
  if forallb (λ v, bool_decide (v = Null)) values then Ok (zero_spelling ty) else encode_value shared ty.

Lemma encode_spec ty values col shared :
  reads_as col values → Forall (λ v, v = Null ∨ v = shared) values →
  forallb (λ v, matches_type v ty) values = true → constant_type ty →
  encode col ty = let! bytes := constant_bytes ty values shared in Ok (bytes, no_params).
Proof.
  intros Hc Hs Hm Ht. unfold encode, constant_bytes.
  rewrite (for_rows_values col values _ _ constant_step); [|done|].
  2: { intros c row v Hv. destruct Hc as [_ Hr]. by rewrite (Hr _ _ Hv). }
  rewrite (constant_scan ty values shared) by auto.
  rewrite (bool_decide_eq_true_2 (None = None)), andb_true_l by done. cbn [bind].
  by destruct (forallb (λ v, bool_decide (v = Null)) values).
Qed.

(** The slots of the decoder are the shared value at valid rows. *)
Lemma slots_spec {T} (dflt t : T) (proj : Value → T) validity values shared :
  validity_matches validity values → Forall (λ v, v = Null ∨ v = shared) values →
  proj Null = dflt → (forallb (λ v, bool_decide (v = Null)) values = false → t = proj shared) →
  slots dflt t validity (length values) = proj <$> values.
Proof.
  intros Hm Hs Hn Ht. apply list_eq. intros i. unfold slots. rewrite !list_lookup_fmap.
  destruct (values !! i) as [v|] eqn:Hv; last first.
  { apply lookup_ge_None in Hv. rewrite lookup_ge_None_2; [done|]. rewrite length_seq. lia. }
  pose proof (lookup_lt_Some _ _ _ Hv). rewrite lookup_seq_lt by lia. csimpl. f_equal.
  rewrite (Hm _ _ Hv). case_bool_decide as E; simpl; [by subst|].
  rewrite Ht.
  - rewrite Forall_forall in Hs. destruct (Hs v) as [?| ->]; [by eapply list_elem_of_lookup_2|done..].
  - apply not_true_iff_false. rewrite forallb_forall. intros Hall.
    apply E. apply (bool_decide_eq_true (v = Null)), Hall, list_elem_of_In. by eapply list_elem_of_lookup_2.
Qed.

(** One fixed-width type: [push] spells the value, [read] reads it back. *)
Lemma constant_case {T} (dflt : T) (push : T → list Z) (read : list Z → T) (width : nat)
    (proj : Value → T) (wrap : T → Value) (build : list T → option Bitmap → Column)
    ty values shared validity :
  Forall (λ v, v = Null ∨ v = shared) values → validity_matches validity values →
  (forallb (λ v, bool_decide (v = Null)) values = false → encode_value shared ty = Ok (push (proj shared))) →
  value_section_len ty = Some width →
  (∀ t, length (push t) = width) → (∀ t, is_bytes (push t)) →
  (forallb (λ v, bool_decide (v = Null)) values = false → read (push (proj shared)) = proj shared) →
  proj Null = dflt →
  (∀ vs b, column_len (build vs b) = length vs) →
  (∀ vs b row, value_at (build vs b) row = typed_value b row vs wrap) →
  (∀ v, v ∈ values → v = Null ∨ wrap (proj v) = v) →
  ∃ bytes, constant_bytes ty values shared = Ok bytes ∧ is_bytes bytes ∧ length bytes = width ∧
    no_row_valid validity (length values) && negb (bool_decide (bytes = zero_spelling ty)) = false ∧
    (bytes = zero_spelling ty ∨
       forallb (λ v, bool_decide (v = Null)) values = false ∧ bytes = push (proj shared)) ∧
    reads_as (build (slots dflt (read bytes) validity (length values))
      (column_validity validity (length values))) values.
Proof.
  intros Hs Hm He Hw Hl Hb Hread Hn Hbl Hbv Hwrap.
  rewrite (no_row_valid_spec validity values Hm). unfold constant_bytes.
  assert (∀ t, (forallb (λ v, bool_decide (v = Null)) values = false → t = proj shared) →
    reads_as (build (slots dflt t validity (length values)) (column_validity validity (length values))) values) as Hr.
  { intros t Ht. rewrite (slots_spec dflt t proj validity values shared) by done. by apply (reads_as_typed wrap). }
  destruct (forallb (λ v, bool_decide (v = Null)) values).
  - exists (zero_spelling ty). unfold zero_spelling. rewrite Hw. split_and!; auto.
    + apply Forall_replicate. unfold is_byte. range_lia.
    + by rewrite length_replicate.
    + by rewrite bool_decide_eq_true_2.
    + by apply Hr.
  - rewrite He by done. eexists. split_and!; auto.
Qed.

Lemma shared_in values shared :
  Forall (λ v, v = Null ∨ v = shared) values → forallb (λ v, bool_decide (v = Null)) values = false →
  shared ∈ values.
Proof.
  induction 1 as [|v values Hv Hs IH]; simpl; [done|]. case_bool_decide; simpl.
  - intros. right. auto.
  - destruct Hv as [?| ->]; [done|]. intros _. left.
Qed.

Section Roundtrip.
Context (ty : LogicalType) (values : list Value) (shared : Value) (col : Column) (validity : Bitmap).
Context (Hcol : reads_as col values) (Hwf : Forall value_wf values)
  (Hm : forallb (λ v, matches_type v ty) values = true)
  (Hshort : Forall short_string values) (Hs : Forall (λ v, v = Null ∨ v = shared) values)
  (Hv : validity_matches validity values) (Ht : constant_type ty).

Notation some_value := (forallb (λ v, bool_decide (v = Null)) values = false).

Lemma matches_in v : v ∈ values → matches_type v ty = true.
Proof. rewrite forallb_forall in Hm. intros. by apply Hm, list_elem_of_In. Qed.
Lemma shared_matches : some_value → matches_type shared ty = true ∧ value_wf shared ∧ short_string shared.
Proof.
  intros Hn. pose proof (shared_in values shared Hs Hn) as Hin. split; [by apply matches_in|].
  by rewrite !Forall_forall in *; auto.
Qed.
Lemma shared_nonnull : some_value → shared ≠ Null.
Proof.
  intros Hn ->. apply not_true_iff_false in Hn. apply Hn, forallb_forall. intros v Hin%list_elem_of_In.
  apply bool_decide_eq_true. rewrite Forall_forall in Hs. destruct (Hs v Hin); done.
Qed.

(** What is left to show for one type. *)
Lemma constant_done bytes col' :
  constant_bytes ty values shared = Ok bytes → is_bytes bytes →
  decode no_params bytes validity (length values) ty = Ok col' → reads_as col' values →
  ∃ bytes p, encode col ty = Ok (bytes, p) ∧ is_bytes bytes ∧
    ∃ col', decode p bytes validity (length values) ty = Ok col' ∧ reads_as col' values.
Proof.
  intros Hc Hb Hd Hr. exists bytes, no_params. rewrite (encode_spec ty values col shared) by done.
  rewrite Hc. split; [done|]. split; [done|]. by exists col'.
Qed.

Lemma fixed_slot_Ok N bytes : length bytes = N → fixed_slot N bytes = Ok bytes.
Proof. intros <-. unfold fixed_slot. by rewrite Nat.eqb_refl. Qed.

Ltac solve_case := auto using length_to_le, to_le_bytes; try done.

(** 64-bit slots: integers, timestamps, floats. *)
Lemma constant_case64 (proj : Value → Z) (wrap : Z → Value) (build : list Z → option Bitmap → Column) read :
  value_section_len ty = Some 8%nat →
  (some_value → encode_value shared ty = Ok (to_le 8 (proj shared))) →
  (some_value → read (to_le 8 (proj shared)) = proj shared) → proj Null = 0 →
  (∀ vs b, column_len (build vs b) = length vs) →
  (∀ vs b row, value_at (build vs b) row = typed_value b row vs wrap) →
  (∀ v, v ∈ values → v = Null ∨ wrap (proj v) = v) →
  (∀ bytes, decode no_params bytes validity (length values) ty =
    if no_row_valid validity (length values) && negb (bool_decide (bytes = zero_spelling ty))
    then Err (Corrupt "constant value slot is not the zero spelling but every row is NULL") else
    let! slot := fixed_slot 8 bytes in
    Ok (build (slots 0 (read slot) validity (length values)) (column_validity validity (length values)))) →
  ∃ bytes p, encode col ty = Ok (bytes, p) ∧ is_bytes bytes ∧
    ∃ col', decode p bytes validity (length values) ty = Ok col' ∧ reads_as col' values.
Proof.
  intros Hw He Hread Hn Hbl Hbv Hwrap Hd.
  destruct (constant_case 0 (to_le 8) read 8 proj wrap build ty values shared validity)
    as (bytes & Hc & Hb & Hl & Hz & _ & Hr); solve_case.
  eapply constant_done; [done|done| |exact Hr]. by rewrite Hd, Hz, fixed_slot_Ok.
Qed.

Lemma constant_case_bool :
  ty = TBool →
  ∃ bytes p, encode col ty = Ok (bytes, p) ∧ is_bytes bytes ∧
    ∃ col', decode p bytes validity (length values) ty = Ok col' ∧ reads_as col' values.
Proof.
  intros E. destruct (constant_case false (λ b : bool, [if b then 1 else 0]) (λ bs, default 0 (head bs) =? 1)
    1 bool_of Bool CBool ty values shared validity) as (bytes & Hc & Hb & Hl & Hz & Hspell & Hr); solve_case.
  - intros Hn. destruct (shared_matches Hn) as [Hsm _]. pose proof (shared_nonnull Hn). subst ty.
    by destruct shared.
  - by subst ty.
  - intros []; (constructor; [unfold is_byte; range_lia|constructor]).
  - intros _. by destruct (bool_of shared).
  - intros v Hin. apply matches_bool. rewrite <- E. by apply matches_in.
  - eapply constant_done; [done|done| |exact Hr]. unfold decode. rewrite Hz. cbn [negb bool_decide].
    subst ty. rewrite fixed_slot_Ok by done.
    destruct Hspell as [->|[_ ->]]; [done|]. by destruct (bool_of shared).
Qed.

Lemma constant_case_decimal pr sc :
  ty = TDecimal pr sc → 1 ≤ pr ≤ 38 → 0 ≤ sc ≤ pr →
  ∃ bytes p, encode col ty = Ok (bytes, p) ∧ is_bytes bytes ∧
    ∃ col', decode p bytes validity (length values) ty = Ok col' ∧ reads_as col' values.
Proof.
  intros E Hpr Hsc.
  assert (some_value → in_i 128 (digits_of shared) ∧
    Decimal.precision (mkDecimal (digits_of shared) sc) ≤ pr) as Hdig.
  { intros Hn. destruct (shared_matches Hn) as (Hsm & Hw & _). subst ty.
    apply matches_decimal_fits; [lia|done..]. }
  destruct (constant_case 0 (to_le 16) (from_le_signed 128) 16 digits_of (λ d, decimal_value d sc)
    (λ vs b, CDecimal vs sc b) ty values shared validity) as (bytes & Hc & Hb & Hl & Hz & Hspell & Hr); solve_case.
  - intros Hn. destruct (shared_matches Hn) as [Hsm _]. pose proof (shared_nonnull Hn). subst ty.
    by destruct shared.
  - by subst ty.
  - intros Hn. apply (from_to_le_i 16 128); [done..|]. by apply Hdig.
  - intros v Hin. apply (matches_decimal v pr); [lia|]. rewrite <- E. by apply matches_in.
  - eapply constant_done; [done|done| |exact Hr]. unfold decode. rewrite Hz. cbn [negb bool_decide].
    subst ty. unfold decode_decimal, Decimal.MAX_PRECISION.
    rewrite !(proj2 (Z.leb_le _ _)), (proj2 (Z.ltb_ge _ _)) by lia. cbn [andb negb orb].
    rewrite fixed_slot_Ok by done. cbn [bind]. unfold Decimal.new, Decimal.MAX_SCALE.
    rewrite (proj2 (Z.ltb_ge _ _)) by lia. cbn [map_err bind]. unfold Decimal.fits. cbn [Decimal.scale].
    rewrite Z.eqb_refl, (proj2 (Z.leb_le _ _)); [done|].
    destruct Hspell as [->|[Hn ->]].
    + change (from_le_signed 128 (zero_spelling (TDecimal pr sc))) with 0. vm_compute Decimal.precision. lia.
    + rewrite (from_to_le_i 16 128) by (done || by apply Hdig). by apply Hdig.
Qed.

Lemma decode_string_spec text :
  zlen text < 2 ^ 32 → utf8_valid text = true →
  decode_string (to_le 4 (zlen text) ++ text) validity (length values) =
    Ok (Boxed ((λ row, if is_valid validity row then String text else Null) <$> seq 0 (length values))).
Proof.
  intros Hl Hu. pose proof (zlen_nonneg text). unfold decode_string. simpl_len.
  rewrite (proj2 (Nat.ltb_ge _ _)) by lia. rewrite read_u32_Ok by (simpl_len; lia).
  rewrite sub_app_l, sub_all by (simpl_len; lia). rewrite (from_to_le_u 4 32) by (done || unfold in_u; lia).
  cbn [bind]. rewrite zlen_app. unfold zlen at 1. rewrite length_to_le.
  replace (Z.of_nat 4 + zlen text - 4 =? zlen text) with true by (symmetry; apply Z.eqb_eq; lia). cbn [negb].
  rewrite slice_Ok by (simpl_len; lia). rewrite sub_app_r, length_to_le by (simpl_len; lia).
  rewrite sub_all by lia. cbn [bind]. unfold from_utf8. by rewrite Hu.
Qed.

Lemma boxed_reads text :
  (some_value → shared = String text) →
  reads_as (Boxed ((λ row, if is_valid validity row then String text else Null) <$> seq 0 (length values))) values.
Proof.
  intros Hsh. change ((λ row, if is_valid validity row then String text else Null) <$> seq 0 (length values))
    with (slots Null (String text) validity (length values)).
  rewrite (slots_spec Null (String text) (λ v, v) validity values shared) by (done || naive_solver).
  rewrite list_fmap_id. split; [done|]. intros row v Hrow. simpl. unfold index. by rewrite Hrow.
Qed.

Lemma constant_case_string :
  ty = TString →
  ∃ bytes p, encode col ty = Ok (bytes, p) ∧ is_bytes bytes ∧
    ∃ col', decode p bytes validity (length values) ty = Ok col' ∧ reads_as col' values.
Proof.
  intros E. pose proof (no_row_valid_spec validity values Hv) as Hnone.
  destruct (forallb (λ v, bool_decide (v = Null)) values) eqn:Hall.
  - apply (constant_done (zero_spelling ty) (Boxed
      ((λ row, if is_valid validity row then String [] else Null) <$> seq 0 (length values)))).
    + unfold constant_bytes. by rewrite Hall.
    + subst ty. apply Forall_replicate. unfold is_byte. range_lia.
    + unfold decode. rewrite Hnone, bool_decide_eq_true_2 by done. subst ty.
      apply (decode_string_spec []); done.
    + apply boxed_reads. by rewrite Hall.
  - destruct (shared_matches Hall) as (Hsm & Hw & Hsh). pose proof (shared_nonnull Hall) as Hnn.
    assert (∃ text, shared = String text) as [text Esh].
    { rewrite E in Hsm. destruct shared; try done. by eexists. }
    rewrite Esh in Hw, Hsh. destruct Hw as [Hb Hu].
    apply (constant_done (to_le 4 (zlen text) ++ text) (Boxed
      ((λ row, if is_valid validity row then String text else Null) <$> seq 0 (length values)))).
    + unfold constant_bytes. rewrite Hall, Esh, E. simpl. rewrite try_u_in; [done|].
      pose proof (zlen_nonneg text). simpl in Hsh. unfold in_u. lia.
    + apply Forall_app. split; [apply to_le_bytes|done].
    + unfold decode. rewrite Hnone, E. by apply decode_string_spec.
    + apply boxed_reads. by rewrite Esh.
Qed.
End Roundtrip.

Lemma constant_roundtrips ty values col validity :
  from_values ty values = Ok col →
  Forall value_wf values → forallb (λ v, matches_type v ty) values = true →
  zlen values < 2 ^ 32 → constant_accepts ty values → validity_matches validity values →
  ∃ bytes p, encode col ty = Ok (bytes, p) ∧ is_bytes bytes ∧
    ∃ col', decode p bytes validity (length values) ty = Ok col' ∧ reads_as col' values.
Proof.
  intros Hcol Hwf Hm Hn (Ht & Hshort & shared & Hs) Hv. apply from_values_reads in Hcol.
  assert (∀ v, v ∈ values → matches_type v ty = true) as Hin by (intros; by eapply matches_in).
  assert (forallb (λ v, bool_decide (v = Null)) values = false →
    matches_type shared ty = true ∧ value_wf shared ∧ shared ≠ Null) as Hsh.
  { intros Hall. destruct (shared_matches ty values shared Hwf Hm Hshort Hs Hall) as (? & ? & _).
    split; [done|]. split; [done|]. by eapply shared_nonnull. }
  destruct ty as [| | | | | | | | | pr sc |]; try done.
  - by eapply constant_case_bool.
  - eapply (constant_case64 TInt64 values shared col validity) with
      (proj := i64_of) (wrap := Int64) (build := CInt64) (read := from_le_signed 64);
      auto using matches_int64; intros Hall; destruct (Hsh Hall) as (? & ? & ?); destruct shared; try done.
    by apply (from_to_le_i 8 64).
  - eapply (constant_case64 TFloat64 values shared col validity) with
      (proj := λ v, match v with Float64 x => x | _ => 0 end) (wrap := Float64) (build := CFloat64) (read := from_le);
      auto.
    + intros Hall. destruct (Hsh Hall) as (? & ? & ?). by destruct shared.
    + intros Hall. destruct (Hsh Hall) as (? & ? & ?). destruct shared; try done. by apply (from_to_le_u 8 64).
    + intros v Hval. specialize (Hin v Hval). destruct v; auto; done.
  - by eapply constant_case_string.
  - eapply (constant_case64 TTimestamp values shared col validity) with
      (proj := i64_of) (wrap := Timestamp) (build := CTimestamp) (read := from_le_signed 64);
      auto using matches_timestamp; intros Hall; destruct (Hsh Hall) as (? & ? & ?); destruct shared; try done.
    by apply (from_to_le_i 8 64).
  - destruct Ht. by eapply constant_case_decimal.
Qed.

Lemma constant_total p bytes validity row_count ty :
  is_bytes bytes →
  (∃ e, decode p bytes validity row_count ty = Err e) ∨
  (∃ col, decode p bytes validity row_count ty = Ok col ∧ column_len col = row_count).
Proof.
  intros _. unfold decode. destruct (negb _); [by eauto|]. destruct (_ && _); [by eauto|].
  assert (∀ N (k : list Z → outcome Column),
    (length bytes = N → (∃ e, k bytes = Err e) ∨ ∃ col, k bytes = Ok col ∧ column_len col = row_count) →
    (∃ e, (let! slot := fixed_slot N bytes in k slot) = Err e) ∨
    ∃ col, (let! slot := fixed_slot N bytes in k slot) = Ok col ∧ column_len col = row_count) as Hslot.
  { intros N k Hk. unfold fixed_slot. destruct (Nat.eqb_spec (length bytes) N); simpl; eauto. }
  assert (∀ T (d t : T), length (slots d t validity row_count) = row_count) as Hlen.
  { intros. unfold slots. by rewrite length_fmap, length_seq. }
  destruct ty as [| | | | | | | | | pr sc |]; try (left; by eexists).
  - apply Hslot. intros Hl. destruct bytes as [|b []]; try done. simpl.
    destruct (1 <? b); [by eauto|]. right. eexists. split; [done|]. apply Hlen.
  - apply Hslot. intros _. right. eexists. split; [done|]. apply Hlen.
  - apply Hslot. intros _. right. eexists. split; [done|]. apply Hlen.
  - unfold decode_string. destruct (Nat.ltb_spec (length bytes) 4); [by eauto|].
    rewrite read_u32_Ok by lia. cbn [bind]. destruct (negb _); [by eauto|].
    rewrite slice_Ok by lia. cbn [bind]. unfold from_utf8. destruct (utf8_valid _); simpl; [|by eauto].
    right. eexists. split; [done|]. simpl. by rewrite length_fmap, length_seq.
  - apply Hslot. intros _. right. eexists. split; [done|]. apply Hlen.
  - unfold decode_decimal. destruct (_ || _); [by eauto|]. apply Hslot. intros _.
    unfold Decimal.new. destruct (_ <? sc); simpl; [by eauto|]. destruct (negb _); [by eauto|].
    right. eexists. split; [done|]. apply Hlen.
Qed.

#[export] Instance constant_codec : ValuesCodec encode decode constant_accepts :=
  {| codec_roundtrip := constant_roundtrips; codec_total := constant_total |}.

(** Constant encoding round-trips: a column whose non-NULL rows all hold one
    value (of any fixed-width type, or a string) is encoded to that value's
    spelling and decoded back to the same rows. *)
Theorem constant_roundtrip ty values col validity :
  from_values ty values = Ok col →
  Forall value_wf values → forallb (λ v, matches_type v ty) values = true →
  zlen values < 2 ^ 32 → constant_accepts ty values → validity_matches validity values →
  ∃ bytes p, encode col ty = Ok (bytes, p) ∧ is_bytes bytes ∧
    ∃ col', decode p bytes validity (length values) ty = Ok col' ∧ reads_as col' values.
Proof. apply codec_roundtrip. Qed.

Lemma constant_roundtrip_witness :
  let values := [String [104; 105]; Null; String [104; 105]] in
  ∃ col bytes p col', from_values TString values = Ok col ∧ encode col TString = Ok (bytes, p) ∧
    decode p bytes (mkBitmap [5] 5) (length values) TString = Ok col' ∧ reads_as col' values.
Proof.
  intros values. set (col := match from_values TString values with Ok c => c | _ => Boxed [] end). exists col.
  destruct (constant_roundtrip TString values col (mkBitmap [5] 3)) as (bytes & p & He & _ & col' & Hd & Hr);
    [vm_compute; reflexivity|check_values|vm_compute; reflexivity|vm_compute; reflexivity|split; [exact I|]; split; [repeat constructor|exists (String [104; 105]); check_values]
    |apply validity_matches_check; vm_compute; reflexivity|].
  exists bytes, p, col'. split; [vm_compute; reflexivity|]. split; [exact He|]. split; [exact Hd|exact Hr].
Defined.
