(* ===== verification/BitpackFor.v ===== *)
(** Frame-of-reference bit-packing (id 3) in the FastLanes transposed order,
    for [Int64] and [Timestamp]:
    [devondb-storage/src/node_group/encodings/bitpack_for.rs]. *)

From S2P Require Import Prelude Bytes Decimal Types Codec.

(** ** The code *)

Definition BLOCK_ROWS : nat := Z.to_nat 1024.
Definition WORDS_PER_PLANE : nat := 16.
Definition LANES_PER_WORD : nat := 64.
Definition BYTES_PER_PLANE : nat := WORDS_PER_PLANE * 8.
Definition HEADER_LEN : nat := 12.
Definition MAX_BIT_WIDTH : Z := 64.

Definition typed_slots (column : Column) (ty : LogicalType) : outcome (list Z * option Bitmap) :=
  match ty, column with
  | TInt64, CInt64 values validity | TTimestamp, CTimestamp values validity => Ok (values, validity)
  | _, _ => Err (InvalidArgument "encoding bitpack_for column storage does not match {ty}")
  end.

Definition row_valid (validity : option Bitmap) (row : nat) : bool :=
  match validity with None => true | Some bitmap => is_valid bitmap row end.

Definition delta_of (value reference : Z) : Z := wrap_u 64 (value - reference).

Definition reference_of (values : list Z) (validity : option Bitmap) : Z :=
  default 0 (foldl (λ reference iv,
    if negb (row_valid validity iv.1) then reference
    else Some (match reference with None => iv.2 | Some minimum => Z.min minimum iv.2 end))
    None (enumerate values)).

(** [u64::leading_zeros]. *)
Definition leading_zeros (x : Z) : Z := if x =? 0 then 64 else 63 - Z.log2 x.

Definition widest_of (values : list Z) (validity : option Bitmap) (reference : Z) : Z :=
  foldl (λ widest iv, if row_valid validity iv.1 then Z.max widest (delta_of iv.2 reference) else widest)
    0 (enumerate values).

Definition bit_width_of (values : list Z) (validity : option Bitmap) (reference : Z) : Z :=
  MAX_BIT_WIDTH - leading_zeros (widest_of values validity reference).

Definition fill_deltas (values : list Z) (validity : option Bitmap) (reference : Z) (block : nat) :
    outcome (list Z) :=
  collect (λ slot,
    let row := (block * BLOCK_ROWS + slot)%nat in
    if (row <? length values)%nat && row_valid validity row
    then let! value := index values row in Ok (delta_of value reference)
    else Ok 0) (seq 0 BLOCK_ROWS).

Definition pack_word (deltas : list Z) (plane word : nat) : outcome Z :=
  for_each (seq 0 LANES_PER_WORD) 0 (λ packed lane,
    let! delta := index deltas (16 * lane + word) in
    Ok (Z.lor packed (Z.shiftl (Z.land (Z.shiftr delta (Z.of_nat plane)) 1) (Z.of_nat lane)))).

Definition pack_block (deltas : list Z) (bit_width : Z) (out : list Z) : outcome (list Z) :=
  for_each (seq 0 (Z.to_nat bit_width)) out (λ out plane,
    for_each (seq 0 WORDS_PER_PLANE) out (λ out word,
      let! packed := pack_word deltas plane word in Ok (out ++ to_le 8 packed))).

Definition encode (column : Column) (ty : LogicalType) : outcome (list Z * params) :=
  let! (values, validity) := typed_slots column ty in
  let reference := reference_of values validity in
  let bit_width := bit_width_of values validity reference in
  let block_count := div_ceil (length values) BLOCK_ROWS in
  let bytes := to_le 8 reference ++ [bit_width] ++ [0; 0; 0] in
  let! bytes := for_each (seq 0 block_count) bytes (λ bytes block,
    let! deltas := fill_deltas values validity reference block in
    pack_block deltas bit_width bytes) in
  Ok (bytes, (bit_width, 0, 0)).

Definition header (p : params) (bytes : list Z) : outcome (Z * Z) :=
  let '(p0, p1, p2) := p in
  if negb (p1 =? 0) || negb (p2 =? 0)
  then Err (Corrupt "encoding bitpack_for parameters p1/p2 are not zero") else
  if (length bytes <? HEADER_LEN)%nat
  then Err (Corrupt "bitpack_for header is {} bytes, expected at least {HEADER_LEN}") else
  let! raw := slice bytes 0 8 in
  let reference := from_le_signed 64 raw in
  let! reserved := slice bytes 9 HEADER_LEN in
  if negb (bool_decide (reserved = [0; 0; 0]))
  then Err (Corrupt "bitpack_for reserved header bytes are not zero") else
  let! bit_width := index bytes 8 in
  if MAX_BIT_WIDTH <? bit_width
  then Err (Corrupt "bitpack_for bit width {bit_width} exceeds {MAX_BIT_WIDTH}") else
  if negb (p0 =? bit_width)
  then Err (Corrupt "bitpack_for directory parameter bit width {} disagrees with the section bit width {bit_width}") else
  Ok (reference, bit_width).

Definition section_len (row_count : nat) (bit_width : Z) : outcome Z :=
  let overflow := Corrupt "bitpack_for section length overflows" in
  let! planes := ok_or (try_u 64 (Z.of_nat (div_ceil row_count BLOCK_ROWS) * bit_width)) overflow in
  let! blocks := ok_or (try_u 64 (planes * Z.of_nat BYTES_PER_PLANE)) overflow in
  ok_or (try_u 64 (blocks + Z.of_nat HEADER_LEN)) overflow.

Definition unpack_block (bytes : list Z) (bit_width : Z) : outcome (list Z) :=
  for_each (seq 0 (Z.to_nat bit_width)) (replicate BLOCK_ROWS 0) (λ deltas plane,
    for_each (seq 0 WORDS_PER_PLANE) deltas (λ deltas word,
      let offset := ((plane * WORDS_PER_PLANE + word) * 8)%nat in
      let! raw := slice bytes offset (offset + 8) in
      let packed := from_le raw in
      for_each (seq 0 LANES_PER_WORD) deltas (λ deltas lane,
        let! delta := index deltas (16 * lane + word) in
        Ok (<[(16 * lane + word)%nat :=
              Z.lor delta (Z.shiftl (Z.land (Z.shiftr packed (Z.of_nat lane)) 1) (Z.of_nat plane))]> deltas)))).

Definition apply_step (reference : Z) (validity : Bitmap) (row_count block : nat)
    (values : list Z) (sd : nat * Z) : outcome (list Z) :=
  let '(slot, delta) := sd in
  let row := (block * BLOCK_ROWS + slot)%nat in
  if (row_count <=? row)%nat && negb (delta =? 0)
  then Err (Corrupt "bitpack_for padding slot {slot} of block {block} is not zero") else
  if (row <? row_count)%nat && negb (is_valid validity row) && negb (delta =? 0)
  then Err (Corrupt "bitpack_for NULL slot {row} holds nonzero delta {delta}") else
  if (row <? row_count)%nat && is_valid validity row then
    let! value := ok_or (try_i 64 (reference + delta))
      (Corrupt "bitpack_for reference {reference} + delta {delta} overflows i64 at row {row}") in
    let! _ := index values row in
    Ok (<[row := value]> values)
  else Ok values.

Definition apply_deltas (values deltas : list Z) (reference : Z) (validity : Bitmap) (row_count block : nat) :
    outcome (list Z) :=
  for_each (enumerate deltas) values (apply_step reference validity row_count block).

Definition decode_blocks (bytes : list Z) (reference bit_width : Z) (validity : Bitmap) (row_count : nat) :
    outcome (list Z) :=
  let block_bytes := (Z.to_nat bit_width * BYTES_PER_PLANE)%nat in
  for_each (seq 0 (div_ceil row_count BLOCK_ROWS)) (replicate row_count 0) (λ values block,
    let start := (HEADER_LEN + block * block_bytes)%nat in
    let! raw := slice bytes start (start + block_bytes) in
    let! deltas := unpack_block raw bit_width in
    apply_deltas values deltas reference validity row_count block).

Definition decode (p : params) (bytes : list Z) (validity : Bitmap) (row_count : nat) (ty : LogicalType) :
    outcome Column :=
  if negb (match ty with TInt64 | TTimestamp => true | _ => false end)
  then Err (Corrupt "encoding bitpack_for is not admissible for {ty}") else
  let! (reference, bit_width) := header p bytes in
  let! expected_len := section_len row_count bit_width in
  if negb (zlen bytes =? expected_len)
  then Err (Corrupt "bitpack_for section is {} bytes, expected exactly {expected_len} for {row_count} rows at bit width {bit_width}") else
  if no_row_valid validity row_count && negb (reference =? 0)
  then Err (Corrupt "bitpack_for reference is {reference} but every row is NULL") else
  let! values := decode_blocks bytes reference bit_width validity row_count in
  let validity := column_validity validity row_count in
  Ok (match ty with TInt64 => CInt64 values validity | _ => CTimestamp values validity end).

#[global] Opaque BLOCK_ROWS.

(** ** Packing *)

Definition bit_at (x : Z) (plane lane : nat) : Z :=
  Z.shiftl (Z.land (Z.shiftr x (Z.of_nat plane)) 1) (Z.of_nat lane).

Lemma bit_at_testbit x plane lane k :
  0 ≤ k → Z.testbit (bit_at x plane lane) k = bool_decide (k = Z.of_nat lane) && Z.testbit x (Z.of_nat plane).
Proof.
  intros Hk. unfold bit_at. rewrite Z.shiftl_spec by lia. rewrite Z.land_comm.
  destruct (decide (k = Z.of_nat lane)) as [->|Hne].
  - rewrite bool_decide_eq_true_2, Z.sub_diag by done.
    rewrite Z.land_spec, Z.shiftr_spec by lia. by rewrite Z.add_0_l.
  - rewrite bool_decide_eq_false_2 by done. destruct (decide (k < Z.of_nat lane)).
    + apply Z.testbit_neg_r. lia.
    + rewrite Z.land_spec. change 1 with (Z.ones 1). rewrite Z.testbit_ones_nonneg by lia.
      by rewrite (proj2 (Z.ltb_ge _ _)) by lia.
Qed.

(** The word [pack_word] computes. *)
Definition packed_word (n : nat) (deltas : list Z) (plane word : nat) : Z :=
  foldl (λ packed lane, Z.lor packed (bit_at (deltas !!! (16 * lane + word)%nat) plane lane)) 0 (seq 0 n).

Lemma packed_word_testbit n deltas plane word k :
  0 ≤ k → Z.testbit (packed_word n deltas plane word) k =
    bool_decide (k < Z.of_nat n) && Z.testbit (deltas !!! (16 * Z.to_nat k + word)%nat) (Z.of_nat plane).
Proof.
  intros Hk. unfold packed_word. induction n as [|n IH].
  { simpl. rewrite Z.testbit_0_l, bool_decide_eq_false_2 by lia. done. }
  rewrite seq_S, foldl_app, Nat.add_0_l. cbn [foldl]. rewrite Z.lor_spec, IH, bit_at_testbit by done.
  destruct (decide (k = Z.of_nat n)) as [->|].
  - rewrite Nat2Z.id, bool_decide_eq_false_2, !bool_decide_eq_true_2 by lia. done.
  - rewrite (bool_decide_eq_false_2 (k = _)), orb_false_r by done. f_equal. apply bool_decide_ext. lia.
Qed.

Lemma packed_word_u64 deltas plane word : in_u 64 (packed_word 64 deltas plane word).
Proof.
  assert (0 ≤ packed_word 64 deltas plane word) as H0.
  { unfold packed_word. generalize (seq 0 64). intros l.
    assert (∀ acc, 0 ≤ acc → 0 ≤ foldl (λ packed lane, Z.lor packed (bit_at (deltas !!! (16 * lane + word)%nat) plane lane)) acc l)
      as H; [|by apply H].
    induction l as [|lane l IH]; intros acc Hacc; [done|]. apply IH. apply Z.lor_nonneg. split; [done|].
    apply Z.shiftl_nonneg, Z.land_nonneg. by right. }
  split; [done|]. apply Z.lt_nge. intros Hge.
  assert (0 < packed_word 64 deltas plane word) as Hpos by lia.
  pose proof (Z.bit_log2 _ Hpos) as Hb. pose proof (Z.log2_le_mono _ _ Hge) as Hlog.
  rewrite Z.log2_pow2 in Hlog by lia. rewrite packed_word_testbit in Hb by lia.
  rewrite bool_decide_eq_false_2 in Hb by lia. done.
Qed.

Lemma pack_word_spec deltas plane word :
  length deltas = BLOCK_ROWS → (word < 16)%nat → pack_word deltas plane word = Ok (packed_word 64 deltas plane word).
Proof.
  intros Hl Hw. unfold pack_word, packed_word, LANES_PER_WORD.
  rewrite <- for_each_foldl. apply for_each_ext. intros packed lane Hlane%elem_of_seq.
  destruct (lookup_lt_is_Some_2 deltas (16 * lane + word)) as [x Hx].
  { rewrite Hl. change BLOCK_ROWS with (Z.to_nat 1024). lia. }
  unfold index. rewrite Hx, (list_lookup_total_correct _ _ _ Hx). done.
Qed.

Definition plane_bytes (deltas : list Z) (plane : nat) : list Z :=
  concat (to_le 8 <$> (packed_word 64 deltas plane <$> seq 0 16)).
Definition block_bytes (deltas : list Z) (bit_width : nat) : list Z :=
  concat (plane_bytes deltas <$> seq 0 bit_width).

(** Appending in a loop. *)
Lemma for_each_append {A} (f : nat → list A) xs out :
  for_each xs out (λ out x, Ok (out ++ f x)) = Ok (out ++ concat (f <$> xs)).
Proof.
  rewrite for_each_foldl. f_equal. revert out. induction xs as [|x xs IH]; intros out; csimpl.
  - by rewrite app_nil_r.
  - by rewrite IH, app_assoc.
Qed.

Lemma pack_block_spec deltas bit_width out :
  length deltas = BLOCK_ROWS →
  pack_block deltas bit_width out = Ok (out ++ block_bytes deltas (Z.to_nat bit_width)).
Proof.
  intros Hl. unfold pack_block, block_bytes, WORDS_PER_PLANE. rewrite <- for_each_append. apply for_each_ext.
  intros out' plane _. unfold plane_bytes. rewrite <- list_fmap_compose, <- for_each_append.
  apply for_each_ext. intros out'' word Hword%elem_of_seq. rewrite pack_word_spec by (done || lia). done.
Qed.

Lemma length_plane_bytes deltas plane : length (plane_bytes deltas plane) = BYTES_PER_PLANE.
Proof.
  unfold plane_bytes. rewrite (length_concat_fixed _ _ 8); [|intros; apply length_to_le].
  by rewrite length_fmap, length_seq.
Qed.

Lemma length_block_bytes deltas w : length (block_bytes deltas w) = (w * BYTES_PER_PLANE)%nat.
Proof.
  unfold block_bytes. rewrite (length_concat_fixed _ _ BYTES_PER_PLANE); [|intros; apply length_plane_bytes].
  rewrite length_seq. lia.
Qed.

Lemma block_word deltas w plane word :
  (plane < w)%nat → (word < 16)%nat →
  sub ((plane * 16 + word) * 8) ((plane * 16 + word) * 8 + 8) (block_bytes deltas w) =
  to_le 8 (packed_word 64 deltas plane word).
Proof.
  intros Hp Hw.
  pose proof (sub_concat_fixed (plane_bytes deltas) (seq 0 w) BYTES_PER_PLANE plane plane) as H1.
  rewrite <- (sub_concat_fixed (to_le 8) (packed_word 64 deltas plane <$> seq 0 16) 8 word
    (packed_word 64 deltas plane word)).
  - fold (plane_bytes deltas plane). rewrite <- H1; [|intros; apply length_plane_bytes|].
    + unfold block_bytes. change BYTES_PER_PLANE with 128%nat. rewrite sub_sub by lia. f_equal; lia.
    + by rewrite lookup_seq_lt.
  - intros. apply length_to_le.
  - by rewrite list_lookup_fmap, lookup_seq_lt.
Qed.

(** ** Unpacking *)

Lemma block_rows_1024 : BLOCK_ROWS = Z.to_nat 1024.
Proof. reflexivity. Qed.

Lemma slot_split slot : (slot < BLOCK_ROWS)%nat → (slot / 16 < 64 ∧ slot `mod` 16 < 16 ∧ slot = 16 * (slot / 16) + slot `mod` 16)%nat.
Proof.
  rewrite block_rows_1024. intros Hs. pose proof (Nat.div_mod_eq slot 16).
  pose proof (Nat.mod_upper_bound slot 16). lia.
Qed.

Section Unpack.
(** [word_at plane word]: the packed words of a block. *)
Context (word_at : nat → nat → Z).

Lemma unpack_lanes n word plane deltas :
  (n ≤ 64)%nat → (word < 16)%nat → length deltas = BLOCK_ROWS →
  ∃ d', for_each (seq 0 n) deltas (λ deltas lane,
      let! delta := index deltas (16 * lane + word) in
      Ok (<[(16 * lane + word)%nat := Z.lor delta (bit_at (word_at plane word) lane plane)]> deltas)) = Ok d' ∧
    length d' = BLOCK_ROWS ∧
    ∀ slot, (slot < BLOCK_ROWS)%nat → d' !!! slot =
      if decide (slot `mod` 16 = word ∧ slot / 16 < n)%nat
      then Z.lor (deltas !!! slot) (bit_at (word_at plane word) (slot / 16) plane) else deltas !!! slot.
Proof.
  intros Hn Hw Hl. induction n as [|n IH].
  { eexists. split; [done|]. split; [done|]. intros slot _. rewrite decide_False by lia. done. }
  destruct IH as (d & Hd & Hdl & Hdv); [lia|]. rewrite seq_S, for_each_app, Hd, Nat.add_0_l. cbn [bind for_each].
  destruct (lookup_lt_is_Some_2 d (16 * n + word)) as [x Hx].
  { rewrite Hdl, block_rows_1024. lia. }
  assert ((16 * n + word) `mod` 16 = word ∧ (16 * n + word) / 16 = n)%nat as [Em Ed].
  { split; symmetry; [apply (Nat.mod_unique _ _ n)|apply (Nat.div_unique _ _ _ word)]; lia. }
  unfold index at 1. rewrite Hx. cbn [expect bind]. eexists. split; [done|].
  split; [by rewrite length_insert|]. intros slot Hs. destruct (slot_split slot Hs) as (Hq & Hr & Hqr).
  destruct (decide (slot = 16 * n + word)%nat) as [->|Hne].
  - rewrite list_lookup_total_insert_eq by lia. rewrite Em, Ed, decide_True by lia.
    f_equal. apply list_lookup_total_correct in Hx as <-. rewrite Hdv by done.
    rewrite Em, Ed, decide_False by lia. done.
  - rewrite list_lookup_total_insert_ne by done. rewrite Hdv by done.
    destruct (decide (slot `mod` 16 = word ∧ slot / 16 < n)%nat).
    + rewrite decide_True by lia. done.
    + rewrite decide_False by lia. done.
Qed.

(** The body of the word loop, reading the packed word from memory. *)
Context (read_word : nat → nat → outcome Z) (width : nat).
Context (read_word_spec : ∀ plane word, (plane < width)%nat → (word < 16)%nat → read_word plane word = Ok (word_at plane word)).

Definition unpack_word (plane : nat) (deltas : list Z) (word : nat) : outcome (list Z) :=
  let! packed := read_word plane word in
  for_each (seq 0 LANES_PER_WORD) deltas (λ deltas lane,
    let! delta := index deltas (16 * lane + word) in
    Ok (<[(16 * lane + word)%nat := Z.lor delta (bit_at packed lane plane)]> deltas)).

Lemma unpack_words n plane deltas :
  (n ≤ 16)%nat → (plane < width)%nat → length deltas = BLOCK_ROWS →
  ∃ d', for_each (seq 0 n) deltas (unpack_word plane) = Ok d' ∧ length d' = BLOCK_ROWS ∧
    ∀ slot, (slot < BLOCK_ROWS)%nat → d' !!! slot =
      if decide (slot `mod` 16 < n)%nat
      then Z.lor (deltas !!! slot) (bit_at (word_at plane (slot `mod` 16)) (slot / 16) plane) else deltas !!! slot.
Proof.
  intros Hn Hp Hl. induction n as [|n IH].
  { eexists. split; [done|]. split; [done|]. intros slot _. rewrite decide_False by lia. done. }
  destruct IH as (d & Hd & Hdl & Hdv); [lia|]. rewrite seq_S, for_each_app, Hd, Nat.add_0_l. cbn [bind for_each].
  unfold unpack_word at 1. rewrite read_word_spec by lia. cbn [bind].
  destruct (unpack_lanes 64 n plane d) as (d' & Hd' & Hdl' & Hdv'); [lia..|done|].
  unfold LANES_PER_WORD. rewrite Hd'. cbn [bind]. exists d'. split; [done|]. split; [done|].
  intros slot Hs. destruct (slot_split slot Hs) as (Hq & Hr & _). rewrite Hdv', Hdv by done.
  destruct (decide (slot `mod` 16 < n)%nat), (decide (slot `mod` 16 = n)%nat).
  - lia.
  - rewrite !decide_False by lia. by rewrite decide_True by lia.
  - rewrite decide_True by lia. rewrite (decide_True (P := slot `mod` 16 < S n)%nat) by lia. by subst n.
  - rewrite !decide_False by lia. done.
Qed.

Lemma unpack_planes n :
  (n ≤ width)%nat →
  ∃ d', for_each (seq 0 n) (replicate BLOCK_ROWS 0) (λ deltas plane,
      for_each (seq 0 WORDS_PER_PLANE) deltas (unpack_word plane)) = Ok d' ∧ length d' = BLOCK_ROWS ∧
    ∀ slot k, (slot < BLOCK_ROWS)%nat → 0 ≤ k → Z.testbit (d' !!! slot) k =
      bool_decide (k < Z.of_nat n) &&
      Z.testbit (word_at (Z.to_nat k) (slot `mod` 16)) (Z.of_nat (slot / 16)).
Proof.
  intros Hn. induction n as [|n IH].
  { eexists. split; [done|]. split; [by rewrite length_replicate|]. intros slot k Hs Hk.
    rewrite lookup_total_replicate_2, Z.testbit_0_l, bool_decide_eq_false_2 by (done || lia). done. }
  destruct IH as (d & Hd & Hdl & Hdv); [lia|]. rewrite seq_S, for_each_app, Hd, Nat.add_0_l. cbn [bind for_each].
  destruct (unpack_words 16 n d) as (d' & Hd' & Hdl' & Hdv'); [lia..|done|].
  unfold WORDS_PER_PLANE. rewrite Hd'. cbn [bind]. exists d'. split; [done|]. split; [done|].
  intros slot k Hs Hk. destruct (slot_split slot Hs) as (Hq & Hr & _).
  rewrite Hdv', decide_True, Z.lor_spec, Hdv, bit_at_testbit by (done || lia).
  destruct (decide (k = Z.of_nat n)) as [->|].
  - rewrite Nat2Z.id, bool_decide_eq_false_2, !bool_decide_eq_true_2 by lia. done.
  - rewrite (bool_decide_eq_false_2 (k = _)), orb_false_r by done. f_equal. apply bool_decide_ext. lia.
Qed.
End Unpack.

Definition bytes_word (bytes : list Z) (plane word : nat) : Z :=
  from_le (sub ((plane * 16 + word) * 8) ((plane * 16 + word) * 8 + 8) bytes).

Lemma unpack_block_spec bytes w :
  length bytes = (Z.to_nat w * BYTES_PER_PLANE)%nat →
  ∃ deltas, unpack_block bytes w = Ok deltas ∧ length deltas = BLOCK_ROWS ∧
    ∀ slot k, (slot < BLOCK_ROWS)%nat → 0 ≤ k → Z.testbit (deltas !!! slot) k =
      bool_decide (k < Z.of_nat (Z.to_nat w)) &&
      Z.testbit (bytes_word bytes (Z.to_nat k) (slot `mod` 16)) (Z.of_nat (slot / 16)).
Proof.
  intros Hl. set (read_word := λ plane word : nat, let offset := ((plane * WORDS_PER_PLANE + word) * 8)%nat in
    let! raw := slice bytes offset (offset + 8) in Ok (from_le raw)).
  assert (unpack_block bytes w = for_each (seq 0 (Z.to_nat w)) (replicate BLOCK_ROWS 0) (λ deltas plane,
    for_each (seq 0 WORDS_PER_PLANE) deltas (unpack_word read_word plane))) as ->.
  { apply for_each_ext. intros deltas plane _. apply for_each_ext. intros d word _.
    unfold unpack_word, read_word. by rewrite bind_assoc. }
  apply (unpack_planes (bytes_word bytes) read_word (Z.to_nat w)); [|done]. unfold read_word.
  intros plane word Hp Hw. unfold WORDS_PER_PLANE. rewrite slice_Ok; [done|lia|].
  rewrite Hl. change BYTES_PER_PLANE with 128%nat. nia.
Qed.

(** Unpacking a packed block restores deltas that fit the width. *)
Lemma unpack_pack deltas w :
  length deltas = BLOCK_ROWS → Forall (λ d, 0 ≤ d < 2 ^ Z.of_nat (Z.to_nat w)) deltas →
  unpack_block (block_bytes deltas (Z.to_nat w)) w = Ok deltas.
Proof.
  intros Hl Hd. destruct (unpack_block_spec (block_bytes deltas (Z.to_nat w)) w) as (d' & -> & Hl' & Hv).
  { apply length_block_bytes. }
  f_equal. apply (list_eq_same_length _ _ BLOCK_ROWS); [done..|].
  intros slot x y Hs Hx Hy. apply list_lookup_total_correct in Hx as <-.
  rewrite Forall_forall in Hd. pose proof (Hd y ltac:(by eapply list_elem_of_lookup_2)) as Hr.
  apply list_lookup_total_correct in Hy. destruct (slot_split slot Hs) as (Hq & Hm & Es).
  apply Z.bits_inj'. intros k Hk. rewrite Hv by done. case_bool_decide as E; rewrite ?andb_true_l, ?andb_false_l.
  - unfold bytes_word. rewrite block_word, (from_to_le_u 8 64) by (apply packed_word_u64 || done || lia).
    rewrite packed_word_testbit, bool_decide_eq_true_2 by lia. rewrite Nat2Z.id, <- Es, Z2Nat.id, Hy by lia. apply andb_true_l.
  - symmetry. destruct (decide (y = 0)) as [->|]; [apply Z.testbit_0_l|].
    apply Z.bits_above_log2; [lia|]. apply Z.log2_lt_pow2; [lia|].
    eapply Z.lt_le_trans; [apply Hr|]. apply Z.pow_le_mono_r; lia.
Qed.

(** ** Reference and width *)

Lemma reference_fold validity (l : list (nat * Z)) acc :
  let r := foldl (λ reference iv, if negb (row_valid validity iv.1) then reference
    else Some (match reference with None => iv.2 | Some minimum => Z.min minimum iv.2 end)) acc l in
  (∀ i x, (i, x) ∈ l → row_valid validity i = true → ∃ m, r = Some m ∧ m ≤ x) ∧
  (∀ m0, acc = Some m0 → ∃ m, r = Some m ∧ m ≤ m0) ∧
  (∀ m, r = Some m → acc = Some m ∨ ∃ i, (i, m) ∈ l ∧ row_valid validity i = true).
Proof.
  revert acc. induction l as [|[i x] l IH]; intros acc; simpl.
  { split_and!; [set_solver| |by auto]. intros m0 ->. exists m0. split; [done|lia]. }
  set (acc' := if negb (row_valid validity i) then acc
    else Some (match acc with None => x | Some minimum => Z.min minimum x end)).
  destruct (IH acc') as (H1 & H2 & H3). split_and!.
  - intros j y [[= -> ->]|Hin]%elem_of_cons Hv; [|by eapply H1].
    unfold acc' in H2 |- *. rewrite Hv in H2 |- *. simpl in H2 |- *.
    destruct (H2 _ eq_refl) as (m & Hm & Hle). exists m. split; [done|]. destruct acc; lia.
  - intros m0 ->. unfold acc' in H2 |- *. destruct (row_valid validity i); simpl in *; [|by eauto].
    destruct (H2 _ eq_refl) as (m & Hm & Hle). exists m. split; [done|]. lia.
  - intros m Hm. destruct (H3 m Hm) as [E|(j & Hj & Hv)]; [|right; exists j; split; [by right|done]].
    unfold acc' in E. destruct (row_valid validity i) eqn:Ev; simpl in E; [|by left].
    destruct acc as [m0|]; injection E as E.
    + destruct (Z.min_spec m0 x) as [[_ Em]|[_ Em]]; rewrite Em in E; subst; [by left|].
      right. exists i. split; [by left|done].
    + subst. right. exists i. split; [by left|done].
Qed.

Lemma widest_fold validity reference (l : list (nat * Z)) acc :
  let r := foldl (λ widest iv, if row_valid validity iv.1 then Z.max widest (delta_of iv.2 reference) else widest) acc l in
  in_u 64 acc →
  in_u 64 r ∧ acc ≤ r ∧ (∀ i x, (i, x) ∈ l → row_valid validity i = true → delta_of x reference ≤ r).
Proof.
  revert acc. induction l as [|[i x] l IH]; intros acc; simpl; intros Hacc.
  { split_and!; [done|lia|set_solver]. }
  assert (in_u 64 (delta_of x reference)) as Hd by (unfold delta_of, wrap_u, in_u; apply Z.mod_pos_bound; lia).
  destruct (row_valid validity i) eqn:Ev.
  - destruct (IH (Z.max acc (delta_of x reference))) as (H1 & H2 & H3); [unfold in_u in *; lia|].
    split_and!; [done|lia|]. intros j y [[= -> ->]|Hin]%elem_of_cons Hv; [lia|by eapply H3].
  - destruct (IH acc Hacc) as (H1 & H2 & H3). split_and!; [done..|].
    intros j y [[= -> ->]|Hin]%elem_of_cons Hv; [congruence|by eapply H3].
Qed.

Lemma elem_of_enumerate_2 {A} (l : list A) i x : l !! i = Some x → (i, x) ∈ enumerate l.
Proof.
  intros Hx. apply list_elem_of_lookup. exists i. unfold enumerate, enumerate_from.
  apply lookup_zip_Some. split; [|done]. apply lookup_seq_lt. by eapply lookup_lt_Some.
Qed.

Lemma reference_spec vs validity :
  Forall (in_i 64) vs →
  in_i 64 (reference_of vs validity) ∧
  (∀ i x, vs !! i = Some x → row_valid validity i = true → reference_of vs validity ≤ x) ∧
  ((∀ i, (i < length vs)%nat → row_valid validity i = false) → reference_of vs validity = 0).
Proof.
  intros Hr. unfold reference_of. destruct (reference_fold validity (enumerate vs) None) as (H1 & _ & H3).
  destruct (foldl _ None (enumerate vs)) as [m|] eqn:E; simpl in *.
  - destruct (H3 m eq_refl) as [|(i & Hi & Hv)]; [done|]. apply elem_of_enumerate in Hi as Hi'.
    split_and!.
    + rewrite Forall_forall in Hr. apply Hr. by eapply list_elem_of_lookup_2.
    + intros j x Hx Hvx. destruct (H1 j x) as (m' & [= <-] & Hle); [by apply elem_of_enumerate_2|done|done].
    + intros Hnone. rewrite Hnone in Hv; [done|]. by eapply lookup_lt_Some.
  - split_and!; [range_lia| |done]. intros j x Hx Hvx.
    destruct (H1 j x) as (m' & ? & _); [by apply elem_of_enumerate_2|done|done].
Qed.

Lemma bit_width_spec vs validity reference :
  let w := bit_width_of vs validity reference in
  0 ≤ w ≤ 64 ∧ ∀ i x, vs !! i = Some x → row_valid validity i = true → 0 ≤ delta_of x reference < 2 ^ w.
Proof.
  unfold bit_width_of, widest_of.
  destruct (widest_fold validity reference (enumerate vs) 0) as (H1 & H2 & H3); [unfold in_u; lia|].
  set (r := foldl _ _ _) in *. unfold leading_zeros, MAX_BIT_WIDTH.
  assert (0 ≤ 64 - (if r =? 0 then 64 else 63 - Z.log2 r) ≤ 64 ∧ r < 2 ^ (64 - (if r =? 0 then 64 else 63 - Z.log2 r)))
    as [Hb Hlt].
  { destruct (r =? 0) eqn:E; reflect_bools; [rewrite E; simpl; lia|].
    assert (Z.log2 r < 64) by (apply Z.log2_lt_pow2; unfold in_u in H1; lia).
    pose proof (Z.log2_nonneg r). split; [lia|].
    replace (64 - (63 - Z.log2 r)) with (Z.succ (Z.log2 r)) by lia. apply Z.log2_spec. unfold in_u in H1. lia. }
  split; [done|]. intros i x Hx Hv. split.
  - unfold delta_of, wrap_u. apply Z.mod_pos_bound. lia.
  - eapply Z.le_lt_trans; [|exact Hlt]. eapply H3; [by apply elem_of_enumerate_2|done].
Qed.

(** ** The round trip *)

#[local] Opaque reference_of bit_width_of BYTES_PER_PLANE.

(** The typed slots of a column: NULLs as zero, and which rows are valid. *)
Definition slots_of (values : list Value) (vs : list Z) (validity : option Bitmap) : Prop :=
  vs = i64_of <$> values ∧
  ∀ row v, values !! row = Some v → row_valid validity row = negb (bool_decide (v = Null)).

Lemma parts_slots (extract : Value → option Z) values vs b :
  (∀ v t, extract v = Some t → i64_of v = t) →
  parts_ok 0 extract (length values) values (vs, b) → slots_of values vs b.
Proof.
  intros He [Hs Hb]. simpl in *. split.
  - apply list_eq_Forall2, Forall2_fmap_r. eapply Forall2_impl; [apply Forall2_flip, Hs|].
    intros t v Hv. unfold flip, slot_ok in Hv. destruct v; try done; symmetry; by apply He.
  - intros row v Hv. pose proof (lookup_lt_Some _ _ _ Hv). destruct b as [b|]; simpl.
    + destruct Hb as [_ Hb]. rewrite Hb, Hv. rewrite <- bool_decide_not. apply bool_decide_ext. naive_solver.
    + rewrite bool_decide_eq_false_2; [done|]. intros ->. by apply list_elem_of_lookup_2 in Hv.
Qed.

Lemma typed_slots_spec ty values col :
  (ty = TInt64 ∨ ty = TTimestamp) → from_values ty values = Ok col →
  forallb (λ v, matches_type v ty) values = true →
  ∃ vs b, typed_slots col ty = Ok (vs, b) ∧ slots_of values vs b.
Proof.
  intros Hty Hcol Hm. rewrite forallb_forall in Hm.
  assert (∀ extract, (∀ v, matches_type v ty = true → v = Null ∨ is_Some (extract v)) →
    ¬ ∃ v, v ∈ values ∧ v ≠ Null ∧ extract v = @None Z) as Hex.
  { intros extract He (v & Hv & Hn & Ev). apply list_elem_of_In, Hm, He in Hv as [?|[? ?]]; congruence. }
  destruct Hty as [-> | ->]; unfold from_values in Hcol.
  - destruct (typed_parts_spec 0 as_int64 values) as (r & E & Hr). rewrite E in Hcol.
    destruct r as [[vs b]|]; injection Hcol as <-.
    + exists vs, b. split; [done|]. apply (parts_slots as_int64); [by intros [] ? [=]|done].
    + exfalso. apply Hex in Hr; [done|]. intros []; simpl; eauto; done.
  - destruct (typed_parts_spec 0 as_timestamp values) as (r & E & Hr). rewrite E in Hcol.
    destruct r as [[vs b]|]; injection Hcol as <-.
    + exists vs, b. split; [done|]. apply (parts_slots as_timestamp); [by intros [] ? [=]|done].
    + exfalso. apply Hex in Hr; [done|]. intros []; simpl; eauto; done.
Qed.

Section Roundtrip.
Context (values : list Value) (vs : list Z) (b : option Bitmap) (validity : Bitmap).
Context (Hslots : slots_of values vs b) (Hvalid : validity_matches validity values)
  (Hrange : Forall (in_i 64) vs) (Hn : zlen values < 2 ^ 32).

Notation reference := (reference_of vs b).
Notation width := (bit_width_of vs b reference).
Notation n := (length values).

Definition delta_at (row : nat) : Z :=
  if (row <? length vs)%nat && row_valid b row then (vs !!! row) - reference else 0.

Lemma length_vs : length vs = n.
Proof. destruct Hslots as [-> _]. apply length_fmap. Qed.

(** Rows: the slot, its validity on both sides, and its delta. *)
Lemma row_spec row :
  (row < n)%nat → ∃ t, vs !! row = Some t ∧ in_i 64 t ∧ is_valid validity row = row_valid b row ∧
    (row_valid b row = false → t = 0) ∧
    (row_valid b row = true → delta_of t reference = t - reference ∧ 0 ≤ t - reference < 2 ^ width).
Proof.
  intros Hrow. destruct (lookup_lt_is_Some_2 values row Hrow) as [v Hv]. destruct Hslots as [Evs Hrv].
  assert (vs !! row = Some (i64_of v)) as Ht by (by rewrite Evs, list_lookup_fmap, Hv).
  exists (i64_of v). split; [done|]. assert (in_i 64 (i64_of v)) as Hi by (rewrite Forall_lookup in Hrange; eauto).
  split; [done|]. rewrite (Hvalid _ _ Hv), (Hrv _ _ Hv). split; [done|]. split.
  - intros E. apply negb_false_iff, bool_decide_eq_true in E. by subst.
  - intros E. destruct (reference_spec vs b Hrange) as (Hr & Hmin & _).
    assert (row_valid b row = true) as Hb by (by rewrite (Hrv _ _ Hv)).
    specialize (Hmin _ _ Ht Hb). destruct (bit_width_spec vs b reference) as [_ Hw].
    specialize (Hw _ _ Ht Hb). unfold delta_of in *. rewrite wrap_u_small in Hw |- *; [done|range_lia..].
Qed.

Lemma width_bounds : 0 ≤ width ≤ 64.
Proof. apply bit_width_spec. Qed.

Lemma fill_deltas_spec block :
  fill_deltas vs b reference block = Ok ((λ slot, delta_at (block * BLOCK_ROWS + slot)) <$> seq 0 BLOCK_ROWS).
Proof.
  unfold fill_deltas. apply collect_Ok, Forall2_fmap_r, Forall2_same_length_lookup_2; [done|].
  intros i x y Hx Hy. rewrite Hx in Hy. injection Hy as <-. unfold compose, delta_at.
  destruct ((_ <? _)%nat && _) eqn:E; [|done]. apply andb_true_iff in E as [E1 E2].
  apply Nat.ltb_lt in E1. rewrite length_vs in E1. destruct (row_spec _ E1) as (t & Ht & _ & _ & _ & Hd).
  unfold index. rewrite Ht. simpl. f_equal. rewrite (list_lookup_total_correct _ _ _ Ht). by apply Hd.
Qed.

Lemma delta_at_bound row : 0 ≤ delta_at row < 2 ^ width.
Proof.
  unfold delta_at. pose proof width_bounds.
  destruct ((_ <? _)%nat && _) eqn:E; [|split; [lia|apply Z.pow_pos_nonneg; lia]].
  apply andb_true_iff in E as [E1 E2]. apply Nat.ltb_lt in E1. rewrite length_vs in E1.
  destruct (row_spec _ E1) as (t & Ht & _ & _ & _ & Hd). rewrite (list_lookup_total_correct _ _ _ Ht).
  by apply Hd.
Qed.

Definition block_deltas (block : nat) : list Z :=
  (λ slot, delta_at (block * BLOCK_ROWS + slot)) <$> seq 0 BLOCK_ROWS.

Lemma length_block_deltas block : length (block_deltas block) = BLOCK_ROWS.
Proof. unfold block_deltas. by rewrite length_fmap, length_seq. Qed.

Definition header_bytes : list Z := to_le 8 reference ++ [width] ++ [0; 0; 0].
Definition section_bytes : list Z :=
  header_bytes ++ concat ((λ block, block_bytes (block_deltas block) (Z.to_nat width)) <$> seq 0 (div_ceil n BLOCK_ROWS)).

Lemma encode_section ty col :
  typed_slots col ty = Ok (vs, b) → encode col ty = Ok (section_bytes, (width, 0, 0)).
Proof.
  intros E. unfold encode. rewrite E. cbn [bind]. rewrite length_vs.
  erewrite for_each_ext; [by rewrite for_each_append|].
  intros out block _. rewrite fill_deltas_spec. cbn [bind]. apply pack_block_spec, length_block_deltas.
Qed.

(** The values decoded after the first [row] rows. *)
Definition decoded (row : nat) : list Z := take row vs ++ replicate (n - row) 0.

Lemma apply_step_spec block slot :
  let row := (block * BLOCK_ROWS + slot)%nat in
  apply_step reference validity n block (decoded row) (slot, delta_at row) = Ok (decoded (S row)).
Proof.
  intros row. unfold apply_step. fold row. destruct (decide (row < n)%nat) as [Hrow|Hrow].
  - rewrite (proj2 (Nat.leb_gt n row)), (proj2 (Nat.ltb_lt row n)) by lia. cbn [andb].
    destruct (row_spec row Hrow) as (t & Ht & Hi & Hval & Hzero & Hd).
    assert (delta_at row = if row_valid b row then t - reference else 0) as Hdelta.
    { unfold delta_at. rewrite length_vs, (proj2 (Nat.ltb_lt _ _)) by done. simpl.
      by rewrite (list_lookup_total_correct _ _ _ Ht). }
    rewrite Hval, Hdelta. destruct (row_valid b row) eqn:Erow; cbn [negb andb].
    + replace (reference + (t - reference)) with t by lia. rewrite try_i_in by done. cbn [ok_or bind].
      unfold decoded, index. rewrite lookup_app_r by (rewrite length_take; lia).
      rewrite length_take, length_vs, Nat.min_l, Nat.sub_diag by lia.
      replace (n - row)%nat with (S (n - S row)) by lia. simpl. f_equal.
      rewrite insert_app_r_alt by (rewrite length_take; lia).
      rewrite length_take, length_vs, Nat.min_l, Nat.sub_diag by lia. simpl.
      by rewrite (take_S_r _ _ t), <- app_assoc.
    + rewrite Z.eqb_refl. simpl. unfold decoded. f_equal.
      replace (n - row)%nat with (S (n - S row)) by lia. simpl.
      rewrite (take_S_r _ _ t), <- app_assoc by done. by rewrite Hzero.
  - assert (delta_at row = 0) as ->.
    { unfold delta_at. rewrite (proj2 (Nat.ltb_ge _ _)); [done|]. rewrite length_vs. lia. }
    rewrite (proj2 (Nat.ltb_ge row n)) by lia. cbn [andb]. rewrite Z.eqb_refl, andb_false_r.
    unfold decoded. rewrite !take_ge by (rewrite length_vs; lia).
    by replace (n - S row)%nat with (n - row)%nat by lia.
Qed.

Lemma apply_deltas_spec block :
  apply_deltas (decoded (block * BLOCK_ROWS)) (block_deltas block) reference validity n block =
    Ok (decoded (block * BLOCK_ROWS + BLOCK_ROWS)).
Proof.
  unfold apply_deltas, block_deltas, enumerate.
  assert (∀ m k, for_each (enumerate_from k ((λ slot, delta_at (block * BLOCK_ROWS + slot)) <$> seq k m))
    (decoded (block * BLOCK_ROWS + k)) (apply_step reference validity n block) =
    Ok (decoded (block * BLOCK_ROWS + (k + m)))) as H.
  { induction m as [|m IH]; intros k; [by rewrite Nat.add_0_r|]. cbn [seq].
    rewrite fmap_cons, enumerate_from_cons. cbn [for_each]. rewrite apply_step_spec. cbn [bind]. rewrite plus_n_Sm, IH. by rewrite Nat.add_succ_comm. }
  specialize (H BLOCK_ROWS 0%nat). by rewrite !Nat.add_0_r, Nat.add_0_l in H.
Qed.

Lemma decode_blocks_spec :
  decode_blocks section_bytes reference width validity n = Ok vs.
Proof.
  unfold decode_blocks. pose proof width_bounds as Hw.
  assert (∀ m, (m ≤ div_ceil n BLOCK_ROWS)%nat →
    for_each (seq 0 m) (replicate n 0) (λ values block,
      let start := (HEADER_LEN + block * (Z.to_nat width * BYTES_PER_PLANE))%nat in
      let! raw := slice section_bytes start (start + Z.to_nat width * BYTES_PER_PLANE) in
      let! deltas := unpack_block raw width in
      apply_deltas values deltas reference validity n block) = Ok (decoded (m * BLOCK_ROWS))) as H.
  { induction m as [|m IH]; intros Hm.
    { unfold decoded. simpl. by rewrite Nat.sub_0_r. }
    rewrite seq_S, for_each_app, IH by lia. cbn [bind for_each]. rewrite Nat.add_0_l.
    set (f := λ block, block_bytes (block_deltas block) (Z.to_nat width)).
    assert (∀ x, length (f x) = (Z.to_nat width * BYTES_PER_PLANE)%nat) as Hf by (intros x; unfold f; by rewrite length_block_bytes).
    assert (length section_bytes = HEADER_LEN + (Z.to_nat width * BYTES_PER_PLANE) * div_ceil n BLOCK_ROWS)%nat as Hl.
    { unfold section_bytes. fold f. rewrite length_app, (length_concat_fixed _ _ _ (λ x _, Hf x)), length_seq.
      unfold header_bytes. by simpl_len. }
    rewrite slice_Ok by (rewrite ?Hl; nia). cbn [bind].
    assert (sub (HEADER_LEN + m * (Z.to_nat width * BYTES_PER_PLANE))
      (HEADER_LEN + m * (Z.to_nat width * BYTES_PER_PLANE) + Z.to_nat width * BYTES_PER_PLANE) section_bytes = f m) as ->.
    { unfold section_bytes. fold f. assert (length header_bytes = HEADER_LEN) as Hh by (unfold header_bytes; by simpl_len).
      rewrite sub_app_r, Hh by lia.
      rewrite <- (sub_concat_fixed f (seq 0 (div_ceil n BLOCK_ROWS)) _ m m (λ x _, Hf x)) by (by rewrite lookup_seq_lt).
      f_equal; lia. }
    unfold f. rewrite unpack_pack; [|apply length_block_deltas|].
    2: { rewrite Z2Nat.id by lia. apply Forall_fmap, Forall_true. intros. apply delta_at_bound. }
    cbn [bind]. rewrite apply_deltas_spec. cbn [bind]. do 2 f_equal. lia. }
  rewrite H by done. f_equal. unfold decoded.
  assert (n ≤ div_ceil n BLOCK_ROWS * BLOCK_ROWS)%nat.
  { pose proof (div_ceil_spec n BLOCK_ROWS (div_ceil n BLOCK_ROWS)) as Hc. rewrite block_rows_1024 in *. lia. }
  rewrite take_ge by (rewrite length_vs; lia). replace (n - _)%nat with 0%nat by lia. apply app_nil_r.
Qed.
End Roundtrip.

Lemma header_spec reference w rest :
  in_i 64 reference → 0 ≤ w ≤ 64 →
  header (w, 0, 0) ((to_le 8 reference ++ [w] ++ [0; 0; 0]) ++ rest) = Ok (reference, w).
Proof.
  intros Hr Hw. unfold header. cbn [Z.eqb negb orb]. set (bytes := _ ++ rest).
  assert (length bytes = 12 + length rest)%nat as Hl by (unfold bytes; by simpl_len).
  change HEADER_LEN with 12%nat. rewrite (proj2 (Nat.ltb_ge _ _)) by lia.
  rewrite !slice_Ok by lia. cbn [bind].
  assert (sub 0 8 bytes = to_le 8 reference) as ->.
  { unfold bytes. rewrite <- app_assoc, sub_app_l, sub_all by (by simpl_len). done. }
  assert (sub 9 12 bytes = [0; 0; 0]) as ->.
  { unfold bytes. rewrite <- app_assoc, sub_app_r by (simpl_len; lia). rewrite length_to_le. done. }
  rewrite (from_to_le_i 8 64) by done. cbn [negb]. rewrite bool_decide_eq_true_2 by done. cbn [negb].
  assert (index bytes 8 = Ok w) as ->.
  { unfold index, bytes. rewrite <- app_assoc, lookup_app_r by (simpl_len; lia). by rewrite length_to_le. }
  cbn [bind]. unfold MAX_BIT_WIDTH. rewrite (proj2 (Z.ltb_ge _ _)) by lia. by rewrite Z.eqb_refl.
Qed.

Lemma section_len_spec row_count w :
  Z.of_nat row_count < 2 ^ 32 → 0 ≤ w ≤ 64 →
  section_len row_count w = Ok (Z.of_nat (HEADER_LEN + Z.to_nat w * BYTES_PER_PLANE * div_ceil row_count BLOCK_ROWS)).
Proof.
  intros Hn Hw. unfold section_len. change BYTES_PER_PLANE with 128%nat. change HEADER_LEN with 12%nat.
  assert (div_ceil row_count BLOCK_ROWS ≤ row_count)%nat as Hc.
  { apply Nat.nlt_ge. intros H. apply div_ceil_spec in H; rewrite block_rows_1024 in *; lia. }
  rewrite !try_u_in by (unfold in_u; nia). cbn [ok_or bind]. rewrite try_u_in by (unfold in_u; nia).
  cbn [ok_or bind]. rewrite try_u_in by (unfold in_u; nia). simpl. f_equal. lia.
Qed.

Definition bitpack_accepts (ty : LogicalType) (values : list Value) : Prop := ty = TInt64 ∨ ty = TTimestamp.

Lemma bitpack_roundtrips ty values col validity :
  from_values ty values = Ok col →
  Forall value_wf values → forallb (λ v, matches_type v ty) values = true →
  zlen values < 2 ^ 32 → bitpack_accepts ty values → validity_matches validity values →
  ∃ bytes p, encode col ty = Ok (bytes, p) ∧ is_bytes bytes ∧
    ∃ col', decode p bytes validity (length values) ty = Ok col' ∧ reads_as col' values.
Proof.
  intros Hcol Hwf Hm Hn Hty Hv. destruct (typed_slots_spec ty values col Hty Hcol Hm) as (vs & b & Hs & Hslots).
  assert (Forall (in_i 64) vs) as Hrange.
  { destruct Hslots as [-> _]. apply Forall_fmap. eapply Forall_impl; [done|]. intros [] Hx; try range_lia; done. }
  pose proof (width_bounds vs b) as Hw. destruct (reference_spec vs b Hrange) as (Href & _ & Hnone).
  exists (section_bytes values vs b), (bit_width_of vs b (reference_of vs b), 0, 0).
  split; [by apply (encode_section values vs b validity)|]. split.
  { unfold section_bytes, header_bytes. apply Forall_app. split.
    - apply Forall_app. split; [apply to_le_bytes|]. repeat constructor; unfold is_byte; range_lia.
    - apply Forall_concat, Forall_fmap, Forall_true. intros block. apply Forall_concat, Forall_fmap, Forall_true.
      intros plane. apply Forall_concat, Forall_fmap, Forall_true. intros. apply to_le_bytes. }
  assert (decode (bit_width_of vs b (reference_of vs b), 0, 0) (section_bytes values vs b) validity (length values) ty =
    Ok (match ty with TInt64 => CInt64 vs (column_validity validity (length values))
        | _ => CTimestamp vs (column_validity validity (length values)) end)) as Hd.
  { unfold decode. replace (match ty with TInt64 | TTimestamp => true | _ => false end) with true by (by destruct Hty; subst).
    cbn [negb]. unfold section_bytes at 1, header_bytes at 1. rewrite header_spec by done. cbn [bind].
    rewrite section_len_spec by done. cbn [bind].
    assert (zlen (section_bytes values vs b) = Z.of_nat (HEADER_LEN + Z.to_nat (bit_width_of vs b (reference_of vs b)) *
      BYTES_PER_PLANE * div_ceil (length values) BLOCK_ROWS)) as ->.
    { unfold zlen, section_bytes. f_equal. rewrite length_app, (length_concat_fixed _ _ _ (λ x _, length_block_bytes _ _)).
      rewrite length_seq. unfold header_bytes. by simpl_len. }
    rewrite Z.eqb_refl. cbn [negb].
    replace (no_row_valid validity (length values) && negb (reference_of vs b =? 0)) with false; last first.
    { symmetry. apply andb_false_iff. destruct (no_row_valid validity (length values)) eqn:E; [right|by left].
      rewrite (no_row_valid_spec validity values Hv), forallb_forall in E. rewrite Hnone; [done|].
      intros i Hi. destruct Hslots as [-> Hrv]. rewrite length_fmap in Hi.
      destruct (lookup_lt_is_Some_2 values i Hi) as [v Hvi]. rewrite (Hrv _ _ Hvi).
      rewrite (E v); [done|]. apply list_elem_of_In. by eapply list_elem_of_lookup_2. }
    rewrite decode_blocks_spec by done. done. }
  eexists. split; [exact Hd|]. assert (∀ v, v ∈ values → matches_type v ty = true) as Hin.
  { rewrite forallb_forall in Hm. intros. by apply Hm, list_elem_of_In. }
  destruct Hslots as [-> _]. destruct Hty as [-> | ->].
  - apply (reads_as_typed Int64); auto using matches_int64.
  - apply (reads_as_typed Timestamp); auto using matches_timestamp.
Qed.

(** ** Totality *)

Lemma apply_deltas_total values deltas reference validity row_count block :
  length values = row_count →
  apply_deltas values deltas reference validity row_count block ≠ Panic ∧
  ∀ values', apply_deltas values deltas reference validity row_count block = Ok values' → length values' = row_count.
Proof.
  intros Hl.
  assert (∀ values sd, length values = row_count →
    apply_step reference validity row_count block values sd ≠ Panic ∧
    ∀ values', apply_step reference validity row_count block values sd = Ok values' → length values' = row_count) as Hstep.
  { clear values Hl. intros values [slot delta] Hl. unfold apply_step. set (row := (_ + slot)%nat).
    destruct (_ && _); [done|]. destruct (_ && _); [done|].
    destruct (Nat.ltb_spec row row_count); simpl; [|by split; [done|intros ? [= <-]]].
    destruct (is_valid validity row); [|by split; [done|intros ? [= <-]]].
    destruct (try_i 64 _); [|done]. simpl. destruct (lookup_lt_is_Some_2 values row) as [x Hx]; [lia|].
    unfold index. rewrite Hx. simpl. split; [done|]. intros ? [= <-]. by rewrite length_insert. }
  split.
  - apply (for_each_no_panic (λ vs, length vs = row_count)); [done|]. intros sd vs _ Hvs. by apply Hstep.
  - intros values' H. eapply (for_each_inv (λ vs, length vs = row_count)); [done| |exact H].
    intros sd s1 s2 _ Hs1 Hs2. by eapply Hstep.
Qed.

Lemma decode_blocks_total bytes reference w validity row_count :
  length bytes = (HEADER_LEN + Z.to_nat w * BYTES_PER_PLANE * div_ceil row_count BLOCK_ROWS)%nat →
  decode_blocks bytes reference w validity row_count ≠ Panic ∧
  ∀ values, decode_blocks bytes reference w validity row_count = Ok values → length values = row_count.
Proof.
  intros Hl. unfold decode_blocks.
  assert (∀ values block, block ∈ seq 0 (div_ceil row_count BLOCK_ROWS) → length values = row_count →
    let start := (HEADER_LEN + block * (Z.to_nat w * BYTES_PER_PLANE))%nat in
    let m := let! raw := slice bytes start (start + Z.to_nat w * BYTES_PER_PLANE) in
             let! deltas := unpack_block raw w in
             apply_deltas values deltas reference validity row_count block in
    m ≠ Panic ∧ ∀ values', m = Ok values' → length values' = row_count) as Hstep.
  { intros values block Hb%elem_of_seq Hv start. rewrite slice_Ok by (unfold start; rewrite ?Hl; nia). cbn [bind].
    destruct (unpack_block_spec (sub start (start + Z.to_nat w * BYTES_PER_PLANE) bytes) w) as (deltas & -> & _).
    { rewrite length_sub; [lia|]. unfold start. rewrite Hl. nia. }
    cbn [bind]. by apply apply_deltas_total. }
  split.
  - apply (for_each_no_panic (λ vs, length vs = row_count)); [by rewrite length_replicate|].
    intros block vs Hb Hvs. by apply Hstep.
  - intros values' H. eapply (for_each_inv (λ vs, length vs = row_count)); [by rewrite length_replicate| |exact H].
    intros block s1 s2 Hb Hs1 Hs2. by eapply Hstep.
Qed.

Lemma header_total p bytes :
  is_bytes bytes →
  (∃ e, header p bytes = Err e) ∨ ∃ reference w, header p bytes = Ok (reference, w) ∧ 0 ≤ w ≤ 64.
Proof.
  intros Hb. destruct p as [[p0 p1] p2]. unfold header. destruct (_ || _); [by eauto|].
  destruct (Nat.ltb_spec (length bytes) HEADER_LEN) as [|Hl]; [by eauto|]. change HEADER_LEN with 12%nat in *.
  rewrite !slice_Ok by lia. cbn [bind]. destruct (negb _); [by eauto|].
  destruct (lookup_lt_is_Some_2 bytes 8) as [w Hw]; [lia|]. unfold index. rewrite Hw. cbn [expect bind].
  destruct (MAX_BIT_WIDTH <? w) eqn:E; [by eauto|]. destruct (negb _); [by eauto|]. right.
  eexists _, w. split; [done|]. unfold MAX_BIT_WIDTH in E. reflect_bools.
  unfold is_bytes in Hb. rewrite Forall_lookup in Hb. specialize (Hb _ _ Hw). unfold is_byte, in_u in Hb. lia.
Qed.

Lemma bitpack_total p bytes validity row_count ty :
  is_bytes bytes →
  (∃ e, decode p bytes validity row_count ty = Err e) ∨
  (∃ col, decode p bytes validity row_count ty = Ok col ∧ column_len col = row_count).
Proof.
  intros Hb. unfold decode. destruct (negb _); [by eauto|].
  destruct (header_total p bytes Hb) as [[e ->]|(reference & w & -> & Hw)]; [by eauto|]. cbn [bind].
  destruct (section_len row_count w) as [len|e|] eqn:El; [|by eauto|].
  - cbn [bind]. destruct (negb (zlen bytes =? len)) eqn:E; [by eauto|]. destruct (_ && _); [by eauto|].
    reflect_bools. unfold section_len in El.
    apply bind_Ok in El as (planes & [-> _]%ok_or_Ok%try_u_Some & El).
    apply bind_Ok in El as (blocks & [-> _]%ok_or_Ok%try_u_Some & [-> _]%ok_or_Ok%try_u_Some).
    destruct (decode_blocks_total bytes reference w validity row_count) as [Hp Hk].
    { unfold zlen in E. lia. }
    destruct (decode_blocks _ _ _ _ _) as [vs|e|]; [|by eauto|done]. right. eexists. split; [done|].
    rewrite <- (Hk vs eq_refl). by destruct ty.
  - exfalso. revert El. unfold section_len.
    destruct (try_u 64 _); [|done]. cbn [ok_or bind]. destruct (try_u 64 _); [|done]. cbn [ok_or bind].
    apply ok_or_no_panic.
Qed.

#[export] Instance bitpack_codec : ValuesCodec encode decode bitpack_accepts :=
  {| codec_roundtrip := bitpack_roundtrips; codec_total := bitpack_total |}.

(** C31: bit-packing round-trips: any [Int64] or [Timestamp] column, with values
    anywhere in the 64-bit range, is packed against its minimum in the FastLanes
    transposed order and unpacked to the same rows, in every block. *)
Theorem bitpack_roundtrip ty values col validity :
  from_values ty values = Ok col →
  Forall value_wf values → forallb (λ v, matches_type v ty) values = true →
  zlen values < 2 ^ 32 → bitpack_accepts ty values → validity_matches validity values →
  ∃ bytes p, encode col ty = Ok (bytes, p) ∧ is_bytes bytes ∧
    ∃ col', decode p bytes validity (length values) ty = Ok col' ∧ reads_as col' values.
Proof. apply codec_roundtrip. Qed.

Lemma bitpack_roundtrip_witness :
  let values := [Timestamp 7; Null; Timestamp (-9); Timestamp 1000] in
  ∃ col bytes p col', from_values TTimestamp values = Ok col ∧ encode col TTimestamp = Ok (bytes, p) ∧
    decode p bytes (mkBitmap [13] 4) (length values) TTimestamp = Ok col' ∧ reads_as col' values.
Proof.
  intros values. set (col := match from_values TTimestamp values with Ok c => c | _ => Boxed [] end). exists col.
  destruct (bitpack_roundtrip TTimestamp values col (mkBitmap [13] 4)) as (bytes & p & He & _ & col' & Hd & Hr);
    [vm_compute; reflexivity|check_values|vm_compute; reflexivity|vm_compute; reflexivity|right; reflexivity
    |apply validity_matches_check; vm_compute; reflexivity|].
  exists bytes, p, col'. split; [vm_compute; reflexivity|]. split; [exact He|]. split; [exact Hd|exact Hr].
Defined.
