(* ===== verification/Dictionary.v ===== *)
(** Dictionary encoding (id 4) of string columns: a sorted dictionary and one
    code per row, [devondb-storage/src/node_group/encodings/dictionary.rs]. *)

From stdpp Require Import sorting.
From S2P Require Import Prelude Bytes Decimal Types Codec.

(** ** Sorting and searching *)

(** [sort_unstable]: equal strings are indistinguishable, so the sorted
    sequence is determined; insertion sort computes it. *)
Fixpoint insert_sorted (x : list Z) (l : list (list Z)) : list (list Z) :=
  match l with
  | [] => [x]
  | y :: l => if str_le x y then x :: y :: l else y :: insert_sorted x l
  end.
Definition sort_unstable (l : list (list Z)) : list (list Z) := foldr insert_sorted [] l.

(** [Vec::dedup]: drops an element equal to the one kept before it. *)
Fixpoint dedup_after (prev : list Z) (l : list (list Z)) : list (list Z) :=
  match l with
  | [] => []
  | x :: l => if decide (x = prev) then dedup_after prev l else x :: dedup_after x l
  end.
Definition dedup (l : list (list Z)) : list (list Z) :=
  match l with [] => [] | x :: l => x :: dedup_after x l end.

(** [slice::binary_search] on a sorted slice without duplicates: the position
    of the element, if it is there. *)
Definition binary_search (dictionary : list (list Z)) (text : list Z) : option nat :=
  fst <$> list_find (λ entry, entry = text) dictionary.

(** [as_chunks::<N>().0]: the full chunks of [n] bytes. *)
Definition as_chunks (n : nat) (bytes : list Z) : list (list Z) :=
  (λ i, sub (n * i) (n * i + n) bytes) <$> seq 0 (length bytes / n).

(** [windows(2)]. *)
Definition windows2 {A} (l : list A) : list (A * A) := zip l (tail l).

(** ** The code *)

Definition PARAMS_V1 : params := (4, 0, 0).
Definition U32 : nat := 4.

Definition collect_step (dictionary : list (list Z)) (v : Value) : outcome (list (list Z)) :=
  match v with
  | Null => Ok dictionary
  | String text => Ok (dictionary ++ [text])
  | _ => Err (InvalidArgument "encoding dictionary value {other} does not match {ty}")
  end.

Definition collect_dictionary (column : Column) : outcome (list (list Z)) :=
  let! dictionary := for_each (seq 0 (column_len column)) []
    (λ dictionary row, let! v := value_at column row in collect_step dictionary v) in
  Ok (dedup (sort_unstable dictionary)).

Definition write_offset (s : list Z * Z) (entry : list Z) : outcome (list Z * Z) :=
  let '(bytes, offset) := s in
  let! len := ok_or (try_u 32 (zlen entry)) (InvalidArgument "dictionary entry length exceeds u32") in
  let! offset := expect (try_u 32 (offset + len)) in
  Ok (bytes ++ to_le 4 offset, offset).

Definition code_of (dictionary : list (list Z)) (v : Value) : outcome Z :=
  match v with
  | Null => Ok 0
  | String text =>
      ok_or ((λ index, wrap_u 32 (Z.of_nat index)) <$> binary_search dictionary text)
        (InvalidArgument "encoding dictionary lost an entry between passes")
  | _ => Err (InvalidArgument "encoding dictionary value {other} does not match String")
  end.

Definition write_section (column : Column) (dictionary : list (list Z)) : outcome (list Z) :=
  let! dict_count := ok_or (try_u 32 (zlen dictionary))
    (InvalidArgument "encoding dictionary entry count exceeds u32") in
  let heap_len := foldl (λ sum entry, sum + zlen entry) 0 dictionary in
  let! heap_len_u32 := ok_or (try_u 32 heap_len)
    (InvalidArgument "encoding dictionary heap length exceeds u32") in
  let bytes := to_le 4 dict_count in
  let bytes := bytes ++ to_le 4 0 in
  let! (bytes, offset) := for_each dictionary (bytes, 0) write_offset in
  if negb (offset =? heap_len_u32) then Panic else
  let! bytes := for_each dictionary bytes (λ bytes entry, Ok (bytes ++ entry)) in
  for_each (seq 0 (column_len column)) bytes (λ bytes row,
    let! v := value_at column row in
    let! code := code_of dictionary v in
    Ok (bytes ++ to_le 4 code)).

Definition is_string_type (ty : LogicalType) : bool := match ty with TString => true | _ => false end.

Definition encode (column : Column) (ty : LogicalType) : outcome (list Z * params) :=
  if negb (is_string_type ty)
  then Err (InvalidArgument "encoding dictionary is not admissible for {ty}") else
  let! dictionary := collect_dictionary column in
  let! bytes := write_section column dictionary in
  Ok (bytes, PARAMS_V1).

Definition split_section (bytes : list Z) (row_count : nat) : outcome (list Z * list Z * list Z) :=
  if (length bytes <? U32)%nat
  then Err (Corrupt "dictionary section is {} bytes, smaller than the u32 dict_count 4") else
  let! dict_count := read_u32 bytes 0 in
  let overflow := Corrupt "dictionary offsets length overflows usize" in
  let! entries := ok_or (try_u 64 (dict_count + 1)) overflow in
  let! offsets_len := ok_or (try_u 64 (4 * entries)) overflow in
  let! codes_len := ok_or (try_u 64 (4 * Z.of_nat row_count))
    (Corrupt "dictionary codes length overflows usize for {row_count} rows") in
  let overflow := Corrupt "dictionary section length overflows usize" in
  let! sum := ok_or (try_u 64 (4 + offsets_len)) overflow in
  let! minimum := ok_or (try_u 64 (sum + codes_len)) overflow in
  if zlen bytes <? minimum
  then Err (Corrupt "dictionary section is {} bytes, too short for dict_count {dict_count} and {row_count} codes ({minimum} minimum)") else
  let heap_len := Z.to_nat (zlen bytes - minimum) in
  let offsets_end := (U32 + Z.to_nat offsets_len)%nat in
  let! offsets_bytes := slice bytes U32 offsets_end in
  let offsets := from_le <$> as_chunks U32 offsets_bytes in
  let! heap := slice bytes offsets_end (offsets_end + heap_len) in
  let! codes := slice bytes (offsets_end + heap_len) (length bytes) in
  Ok (offsets, heap, codes).

Definition entry_step (heap : list Z) (entries : list (list Z)) (pair : Z * Z) : outcome (list (list Z)) :=
  let! raw := slice heap (Z.to_nat pair.1) (Z.to_nat pair.2) in
  let! entry := from_utf8 raw (Corrupt "dictionary entry {index} is not valid UTF-8: {error}") in
  if match last entries with Some previous => str_le entry previous | None => false end
  then Err (Corrupt "dictionary entries are not unique and sorted bytewise ascending at entry {index}")
  else Ok (entries ++ [entry]).

Definition validate_entries (offsets heap : list Z) : outcome (list (list Z)) :=
  if negb (bool_decide (head offsets = Some 0))
  then Err (Corrupt "dictionary offsets start at {}, expected 0") else
  if existsb (λ pair, pair.2 <? pair.1) (windows2 offsets)
  then Err (Corrupt "dictionary offsets are not non-decreasing") else
  let! heap_len := ok_or (try_u 32 (zlen heap)) (Corrupt "dictionary heap length exceeds u32") in
  if negb (bool_decide (last offsets = Some heap_len))
  then Err (Corrupt "dictionary offsets end at {} but the heap is {heap_len} bytes") else
  for_each (windows2 offsets) [] (entry_step heap).

Definition code_step (entries : list (list Z)) (validity : Bitmap) (values : list Value)
    (rc : nat * list Z) : outcome (list Value) :=
  let '(row, chunk) := rc in
  let code := from_le chunk in
  if negb (is_valid validity row) then
    if negb (code =? 0) then Err (Corrupt "dictionary code at NULL row {row} is {code}, expected 0")
    else Ok (values ++ [Null])
  else
    let! entry := ok_or (entries !! Z.to_nat code)
      (Corrupt "dictionary code {code} at row {row} is out of range for dict_count {}") in
    Ok (values ++ [String entry]).

Definition materialize (entries : list (list Z)) (codes : list Z) (validity : Bitmap) : outcome Column :=
  let! values := for_each (enumerate (as_chunks U32 codes)) [] (code_step entries validity) in
  Ok (Boxed values).

Definition decode (p : params) (bytes : list Z) (validity : Bitmap) (row_count : nat) (ty : LogicalType) :
    outcome Column :=
  if negb (bool_decide (p = PARAMS_V1))
  then Err (Corrupt "encoding dictionary parameters are not the v1 spelling {PARAMS_V1:?}") else
  if negb (is_string_type ty) then Err (Corrupt "encoding dictionary is not admissible for {ty}") else
  let! (offsets, heap, codes) := split_section bytes row_count in
  let! entries := validate_entries offsets heap in
  materialize entries codes validity.

(** ** The dictionary *)

Lemma elem_of_insert_sorted x y l : y ∈ insert_sorted x l ↔ y = x ∨ y ∈ l.
Proof.
  induction l as [|z l IH]; simpl; [set_solver|]. destruct (str_le x z); [set_solver|].
  rewrite elem_of_cons, IH. set_solver.
Qed.

Lemma length_insert_sorted x l : length (insert_sorted x l) = S (length l).
Proof. induction l as [|z l IH]; simpl; [done|]. destruct (str_le x z); simpl; lia. Qed.

Lemma insert_sorted_sorted x l : StronglySorted str_leP l → StronglySorted str_leP (insert_sorted x l).
Proof.
  induction 1 as [|y l Hs IH Hy]; simpl; [by repeat constructor|]. destruct (str_le x y) eqn:E.
  - constructor; [by constructor|]. constructor; [done|]. eapply Forall_impl; [done|]. intros z Hz.
    by transitivity y.
  - constructor; [done|]. apply Forall_forall. intros z [->|Hz]%elem_of_insert_sorted.
    + apply str_le_false in E. apply str_le_true. by right.
    + by rewrite Forall_forall in Hy; auto.
Qed.

Lemma sort_unstable_spec l :
  StronglySorted str_leP (sort_unstable l) ∧ (∀ x, x ∈ sort_unstable l ↔ x ∈ l) ∧
  length (sort_unstable l) = length l.
Proof.
  induction l as [|x l (IH1 & IH2 & IH3)]; simpl; [split_and!; [constructor|done..]|]. split_and!.
  - by apply insert_sorted_sorted.
  - intros y. rewrite elem_of_insert_sorted, IH2, elem_of_cons. done.
  - rewrite length_insert_sorted. lia.
Qed.

Lemma dedup_after_spec prev l :
  StronglySorted str_leP (prev :: l) →
  StronglySorted str_lt (prev :: dedup_after prev l) ∧ (∀ x, x ∈ prev :: dedup_after prev l ↔ x ∈ prev :: l) ∧
  (length (dedup_after prev l) ≤ length l)%nat.
Proof.
  revert prev. induction l as [|x l IH]; intros prev Hs.
  { simpl. split_and!; [by repeat constructor|done|lia]. }
  apply StronglySorted_inv in Hs as [Hs Hp]. simpl. case_decide as E.
  - subst x. destruct (IH prev Hs) as (H1 & H2 & H3). split_and!; [done| |lia].
    intros y. rewrite H2, !elem_of_cons. naive_solver.
  - destruct (IH x Hs) as (H1 & H2 & H3). split_and!; [|intros y; rewrite elem_of_cons, H2, !elem_of_cons; done|simpl; lia].
    assert (str_lt prev x) as Hlt.
    { inversion_clear Hp as [|? ? Hx _]. apply str_le_true in Hx as [->|]; done. }
    constructor; [done|]. constructor; [done|].
    apply StronglySorted_inv in H1 as [_ H1]. eapply Forall_impl; [done|]. intros y Hy. by eapply str_lt_trans.
Qed.

Lemma dictionary_spec l :
  let d := dedup (sort_unstable l) in
  StronglySorted str_lt d ∧ (∀ x, x ∈ d ↔ x ∈ l) ∧ (length d ≤ length l)%nat.
Proof.
  destruct (sort_unstable_spec l) as (H1 & H2 & H3). destruct (sort_unstable l) as [|x l'] eqn:E; simpl in *.
  { split_and!; [constructor|done|lia]. }
  destruct (dedup_after_spec x l' H1) as (H4 & H5 & H6). split_and!; [done| |lia].
  intros y. by rewrite H5, H2.
Qed.

Lemma sorted_nodup l : StronglySorted str_lt l → NoDup l.
Proof.
  induction 1 as [|x l Hs IH Hx]; constructor; [|done]. intros Hin. rewrite Forall_forall in Hx.
  specialize (Hx x Hin). unfold str_lt in Hx. by rewrite (proj2 (str_cmp_eq x x)) in Hx.
Qed.

Lemma sorted_next l i x y :
  StronglySorted str_lt l → l !! i = Some x → l !! S i = Some y → str_lt x y.
Proof.
  intros Hs. revert i. induction Hs as [|z l Hs IH Hz]; intros i; [done|].
  destruct i as [|i]; simpl; [|apply IH]. intros [= ->] Hy. rewrite Forall_lookup in Hz. by eapply Hz.
Qed.

(** The encoder's search finds every collected string at its own position. *)
Lemma binary_search_spec d text : text ∈ d → ∃ i, binary_search d text = Some i ∧ d !! i = Some text.
Proof.
  intros Hin. unfold binary_search.
  destruct (list_find_elem_of (λ entry, entry = text) d text Hin eq_refl) as [[i x] E].
  rewrite E. apply list_find_Some in E as (Hi & -> & _). by exists i.
Qed.

(** ** The section the encoder writes *)

Definition texts (values : list Value) : list (list Z) :=
  omap (λ v, match v with String text => Some text | _ => None end) values.

Definition off (d : list (list Z)) (i : nat) : Z := zlen (concat (take i d)).
Definition offsets_of (d : list (list Z)) : list Z := off d <$> seq 0 (S (length d)).
Definition code_at (d : list (list Z)) (v : Value) : Z :=
  match v with String text => Z.of_nat (default 0%nat (binary_search d text)) | _ => 0 end.
Definition dict_section (d : list (list Z)) (values : list Value) : list Z :=
  to_le 4 (zlen d) ++ concat (to_le 4 <$> offsets_of d) ++ concat d ++ concat (to_le 4 <$> (code_at d <$> values)).

Lemma heap_insert x l : zlen (concat (insert_sorted x l)) = zlen x + zlen (concat l).
Proof.
  induction l as [|y l IH]; simpl; [by rewrite app_nil_r; change (zlen (@nil Z)) with 0; lia|].
  destruct (str_le x y); simpl; rewrite ?zlen_app, ?IH; lia.
Qed.

Lemma heap_dedup l : zlen (concat (dedup (sort_unstable l))) ≤ zlen (concat l).
Proof.
  assert (zlen (concat (sort_unstable l)) = zlen (concat l)) as <-.
  { induction l as [|x l IH]; [done|]. simpl. rewrite heap_insert, zlen_app, IH. done. }
  assert (∀ prev k, zlen (concat (dedup_after prev k)) ≤ zlen (concat k)) as H.
  { intros prev k. revert prev. induction k as [|y k IH]; intros prev; simpl; [done|].
    pose proof (IH prev). pose proof (IH y). pose proof (zlen_nonneg y). case_decide; simpl; rewrite ?zlen_app; lia. }
  destruct (sort_unstable l) as [|x k]; simpl; [done|]. rewrite !zlen_app. specialize (H x k). lia.
Qed.

Lemma off_le d i : 0 ≤ off d i ≤ zlen (concat d).
Proof.
  assert (zlen (concat d) = zlen (concat (take i d)) + zlen (concat (drop i d))) as ->.
  { by rewrite <- zlen_app, <- concat_app, take_drop. }
  unfold off. pose proof (zlen_nonneg (concat (take i d))). pose proof (zlen_nonneg (concat (drop i d))). lia.
Qed.

Lemma off_S d i x : d !! i = Some x → off d (S i) = off d i + zlen x.
Proof. intros Hx. unfold off. rewrite (take_S_r _ _ _ Hx), concat_app, zlen_app. simpl. by rewrite app_nil_r. Qed.

(** The bytes of the [i]-th entry. *)
Lemma heap_entry d i x :
  d !! i = Some x → slice (concat d) (Z.to_nat (off d i)) (Z.to_nat (off d (S i))) = Ok x.
Proof.
  intros Hx. pose proof (off_le d (S i)) as Hb. pose proof (off_le d i). rewrite (off_S _ _ _ Hx) in *.
  rewrite slice_Ok; [|unfold zlen in *; lia..]. f_equal.
  assert (concat d = concat (take i d) ++ x ++ concat (drop (S i) d)) as ->.
  { rewrite <- (take_drop_middle d i x Hx) at 1. by rewrite concat_app. }
  rewrite sub_app_r; unfold off, zlen in *; [|lia].
  rewrite sub_app_l by lia. transitivity (sub 0 (length x) x); [f_equal; lia|by rewrite sub_all].
Qed.

Lemma write_offsets rest done bytes :
  zlen (concat (done ++ rest)) < 2 ^ 32 →
  for_each rest (bytes, zlen (concat done)) write_offset =
    Ok (bytes ++ concat (to_le 4 <$> (off (done ++ rest) <$> seq (S (length done)) (length rest))),
        zlen (concat (done ++ rest))).
Proof.
  revert done bytes. induction rest as [|x rest IH]; intros done bytes Hb.
  { simpl. by rewrite !app_nil_r. }
  cbn [for_each]. unfold write_offset at 1.
  pose proof (zlen_nonneg (concat done)). pose proof (zlen_nonneg x). pose proof (zlen_nonneg (concat rest)).
  rewrite concat_app in Hb. simpl in Hb. rewrite !zlen_app in Hb.
  rewrite try_u_in by (unfold in_u; lia). cbn [ok_or bind]. rewrite try_u_in by (unfold in_u; lia). cbn [expect bind].
  assert (zlen (concat done) + zlen x = zlen (concat (done ++ [x]))) as E.
  { rewrite concat_app, zlen_app. simpl. by rewrite app_nil_r. }
  rewrite E, IH.
  - rewrite <- (app_assoc done). change ([x] ++ rest) with (x :: rest). f_equal. f_equal.
    cbn [length seq]. rewrite !fmap_cons. cbn [concat]. rewrite <- app_assoc. f_equal.
    rewrite length_app, Nat.add_1_r. f_equal. f_equal. unfold off. f_equal. f_equal.
    change (done ++ x :: rest) with (done ++ [x] ++ rest). rewrite app_assoc.
    rewrite take_app_length'; [done|]. rewrite length_app. simpl. lia.
  - rewrite <- app_assoc. simpl. rewrite concat_app. simpl. rewrite !zlen_app. lia.
Qed.

Lemma heap_len_spec (d : list (list Z)) acc : foldl (λ sum entry, sum + zlen entry) acc d = acc + zlen (concat d).
Proof.
  revert acc. induction d as [|x d IH]; intros acc; simpl; [change (zlen (@nil Z)) with 0; lia|].
  rewrite IH, zlen_app. lia.
Qed.

Lemma code_of_spec d v :
  (length d < Z.to_nat (2 ^ 32))%nat → matches_type v TString = true →
  (∀ text, v = String text → text ∈ d) → code_of d v = Ok (code_at d v).
Proof.
  intros Hd Hm Hin. destruct v; try done. simpl. destruct (binary_search_spec d text) as (i & E & Hi); [by apply Hin|].
  rewrite E. simpl. rewrite wrap_u_small; [done|]. apply lookup_lt_Some in Hi. unfold in_u. lia.
Qed.

Lemma write_section_spec col values d :
  reads_as col values → forallb (λ v, matches_type v TString) values = true →
  zlen d < 2 ^ 32 → zlen (concat d) < 2 ^ 32 → (∀ x, x ∈ texts values → x ∈ d) →
  write_section col d = Ok (dict_section d values).
Proof.
  intros Hc Hm Hd Hh Hin. unfold write_section.
  pose proof (zlen_nonneg d). pose proof (zlen_nonneg (concat d)).
  rewrite try_u_in by (unfold in_u; lia). cbn [ok_or bind]. rewrite heap_len_spec, Z.add_0_l.
  rewrite try_u_in by (unfold in_u; lia). cbn [ok_or bind].
  pose proof (write_offsets d [] (to_le 4 (zlen d) ++ to_le 4 0)) as Hw. change (zlen (concat [])) with 0 in Hw.
  rewrite Hw by done. cbn [bind]. rewrite app_nil_l, Z.eqb_refl. cbn [negb].
  assert (∀ (l : list (list Z)) out, for_each l out (λ bytes entry, Ok (bytes ++ entry)) = Ok (out ++ concat l)) as Happ.
  { intros l. induction l as [|x l IH]; intros out; simpl; [by rewrite app_nil_r|]. by rewrite IH, <- app_assoc. }
  rewrite Happ. cbn [bind].
  rewrite (for_rows_values col values _ _ (λ bytes v, Ok (bytes ++ to_le 4 (code_at d v)))); [|done|].
  - rewrite for_each_foldl. f_equal.
    assert (∀ (l : list Value) out, foldl (λ bytes v, bytes ++ to_le 4 (code_at d v)) out l =
      out ++ concat (to_le 4 <$> (code_at d <$> l))) as ->.
    { intros l. induction l as [|v l IH]; intros out; [by rewrite app_nil_r|].
      rewrite !fmap_cons. cbn [foldl concat]. by rewrite IH, <- app_assoc. }
    unfold dict_section, offsets_of. cbn [length seq]. rewrite !fmap_cons. cbn [concat].
    change (off d 0) with 0. by rewrite <- !app_assoc.
  - intros bytes row v Hv. destruct Hc as [_ Hr]. rewrite (Hr _ _ Hv). cbn [bind].
    apply list_elem_of_lookup_2 in Hv. rewrite code_of_spec; [done|unfold zlen in *; lia| |].
    + rewrite forallb_forall in Hm. by apply Hm, list_elem_of_In.
    + intros text ->. apply Hin. apply list_elem_of_omap. by exists (String text).
Qed.

Lemma collect_dictionary_spec col values :
  reads_as col values → forallb (λ v, matches_type v TString) values = true →
  collect_dictionary col = Ok (dedup (sort_unstable (texts values))).
Proof.
  intros Hc Hm. unfold collect_dictionary. rewrite (for_rows_values col values _ _ collect_step); [|done|].
  2: { intros d row v Hv. destruct Hc as [_ Hr]. by rewrite (Hr _ _ Hv). }
  assert (∀ acc, for_each values acc collect_step = Ok (acc ++ texts values)) as ->; [|done].
  clear Hc. induction values as [|v values IH]; intros acc; [by rewrite app_nil_r|].
  simpl in Hm. apply andb_true_iff in Hm as [Hv Hm]. destruct v; try done; simpl; rewrite IH by done; [done|].
  by rewrite <- app_assoc.
Qed.

(** ** Reading it back *)

Lemma as_chunks_concat {A} (f : A → list Z) (xs : list A) :
  (∀ x, length (f x) = 4%nat) → as_chunks 4 (concat (f <$> xs)) = f <$> xs.
Proof.
  intros Hf. unfold as_chunks. rewrite (length_concat_fixed _ _ 4) by auto.
  replace (4 * length xs / 4)%nat with (length xs) by (symmetry; rewrite Nat.mul_comm; by apply Nat.div_mul).
  apply list_eq. intros i. rewrite !list_lookup_fmap.
  destruct (xs !! i) as [x|] eqn:Hx.
  - rewrite lookup_seq_lt by (by eapply lookup_lt_Some). cbn [fmap option_fmap option_map]. f_equal. apply (sub_concat_fixed f xs 4 i x); auto.
  - apply lookup_ge_None in Hx. by rewrite lookup_ge_None_2 by (rewrite length_seq; lia).
Qed.

Lemma from_le_chunks xs : Forall (in_u 32) xs → from_le <$> (to_le 4 <$> xs) = xs.
Proof.
  induction 1 as [|x xs Hx Hxs IH]; [done|]. rewrite !fmap_cons, IH. f_equal. by apply (from_to_le_u 4 32).
Qed.

Lemma length_offsets_bytes d : length (concat (to_le 4 <$> offsets_of d)) = (4 * S (length d))%nat.
Proof.
  rewrite (length_concat_fixed _ _ 4) by (intros; apply length_to_le).
  unfold offsets_of. by rewrite length_fmap, length_seq.
Qed.

Lemma split_section_spec d values :
  zlen d < 2 ^ 32 → zlen values < 2 ^ 32 → zlen (concat d) < 2 ^ 32 →
  split_section (dict_section d values) (length values) =
    Ok (offsets_of d, concat d, concat (to_le 4 <$> (code_at d <$> values))).
Proof.
  intros Hd Hv Hh. pose proof (zlen_nonneg d). unfold split_section.
  set (O := concat (to_le 4 <$> offsets_of d)). set (C := concat (to_le 4 <$> (code_at d <$> values))).
  assert (length O = 4 * S (length d))%nat as HO by apply length_offsets_bytes.
  assert (length C = 4 * length values)%nat as HC.
  { unfold C. rewrite (length_concat_fixed _ _ 4) by (intros; apply length_to_le). by rewrite length_fmap. }
  assert (dict_section d values = to_le 4 (zlen d) ++ O ++ concat d ++ C) as E by done.
  assert (length (dict_section d values) = 4 + 4 * S (length d) + length (concat d) + 4 * length values)%nat as Hl.
  { rewrite E, !length_app, length_to_le, HO, HC. lia. }
  change U32 with 4%nat. rewrite (proj2 (Nat.ltb_ge _ _)) by lia. rewrite read_u32_Ok by lia.
  assert (sub 0 (0 + 4) (dict_section d values) = to_le 4 (zlen d)) as ->.
  { rewrite E, sub_app_l, sub_all by (simpl_len; lia). done. }
  rewrite (from_to_le_u 4 32) by (done || unfold in_u; lia). cbn [bind].
  do 5 (rewrite try_u_in by (unfold in_u, zlen in *; lia); cbn [ok_or bind]).
  rewrite (proj2 (Z.ltb_ge _ _)) by (unfold zlen in *; lia).
  replace (Z.to_nat (zlen (dict_section d values) - (4 + 4 * (zlen d + 1) + 4 * Z.of_nat (length values))))
    with (length (concat d)) by (unfold zlen; lia).
  replace (Z.to_nat (4 * (zlen d + 1))) with (length O) by (unfold zlen; lia).
  rewrite !slice_Ok by lia. cbn [bind]. rewrite E.
  assert (length (to_le 4 (zlen d)) = 4%nat) as H4 by apply length_to_le.
  assert (sub 4 (4 + length O) (to_le 4 (zlen d) ++ O ++ concat d ++ C) = O) as ->.
  { rewrite sub_app_r, H4 by lia. rewrite sub_app_l by lia. by rewrite sub_all by lia. }
  assert (sub (4 + length O) (4 + length O + length (concat d)) (to_le 4 (zlen d) ++ O ++ concat d ++ C) = concat d) as ->.
  { rewrite sub_app_r, H4 by lia. rewrite sub_app_r by lia. rewrite sub_app_l by lia.
    replace (4 + length O - 4 - length O)%nat with 0%nat by lia. by rewrite sub_all by lia. }
  assert (sub (4 + length O + length (concat d)) (length (to_le 4 (zlen d) ++ O ++ concat d ++ C))
    (to_le 4 (zlen d) ++ O ++ concat d ++ C) = C) as ->.
  { rewrite sub_app_r, H4 by lia. rewrite sub_app_r by lia. rewrite sub_app_r by lia.
    replace (4 + length O + length (concat d) - 4 - length O - length (concat d))%nat with 0%nat by lia.
    rewrite sub_all; [done|]. rewrite !length_app, H4. lia. }
  do 3 f_equal. unfold O. rewrite as_chunks_concat by (intros; apply length_to_le). apply from_le_chunks.
  unfold offsets_of. apply Forall_fmap, Forall_true. intros i. unfold compose. pose proof (off_le d i).
  unfold in_u. lia.
Qed.

Lemma windows2_offsets d : windows2 (offsets_of d) = (λ i, (off d i, off d (S i))) <$> seq 0 (length d).
Proof.
  unfold windows2, offsets_of. apply list_eq. intros i.
  destruct (decide (i < length d)%nat) as [Hi|Hi].
  - transitivity (Some (off d i, off d (S i))).
    + apply lookup_zip_Some. split.
      * rewrite list_lookup_fmap, lookup_seq_lt by lia. done.
      * cbn [seq]. rewrite fmap_cons. cbn [tail]. rewrite list_lookup_fmap, lookup_seq_lt by lia. done.
    + rewrite list_lookup_fmap, lookup_seq_lt by lia. done.
  - rewrite !lookup_ge_None_2; [done|by rewrite length_fmap, length_seq; lia|].
    cbn [seq]. rewrite fmap_cons. cbn [tail]. rewrite length_zip_with, !length_fmap, length_seq. lia.
Qed.

Lemma validate_loop d k :
  StronglySorted str_lt d → Forall (λ x, utf8_valid x = true) d → (k ≤ length d)%nat →
  for_each ((λ i, (off d i, off d (S i))) <$> seq k (length d - k)) (take k d) (entry_step (concat d)) = Ok d.
Proof.
  intros Hs Hu. remember (length d - k)%nat as m eqn:Em. revert k Em. induction m as [|m IH]; intros k Em Hk.
  { simpl. rewrite take_ge by lia. done. }
  cbn [seq]. rewrite fmap_cons. cbn [for_each]. destruct (lookup_lt_is_Some_2 d k) as [x Hx]; [lia|].
  unfold entry_step at 1. cbn [fst snd]. rewrite (heap_entry d k x Hx). cbn [bind]. unfold from_utf8.
  rewrite Forall_lookup in Hu. rewrite (Hu _ _ Hx). cbn [bind].
  replace (match last (take k d) with Some previous => str_le x previous | None => false end) with false.
  - cbn [bind]. rewrite <- (take_S_r _ _ _ Hx). apply IH; lia.
  - symmetry. destruct (last (take k d)) as [prev|] eqn:El; [|done].
    rewrite last_lookup, length_take, Nat.min_l in El by lia.
    destruct k as [|k]; [by rewrite take_0 in El|]. cbn [Nat.pred] in El.
    rewrite lookup_take_lt in El by lia. apply str_le_false.
    by eapply sorted_next.
Qed.

Lemma validate_entries_spec d :
  StronglySorted str_lt d → Forall (λ x, utf8_valid x = true) d → zlen (concat d) < 2 ^ 32 →
  validate_entries (offsets_of d) (concat d) = Ok d.
Proof.
  intros Hs Hu Hh. pose proof (zlen_nonneg (concat d)). unfold validate_entries.
  rewrite bool_decide_eq_true_2 by done. cbn [negb].
  rewrite windows2_offsets. destruct (existsb _ _) eqn:E.
  { exfalso. apply existsb_exists in E as (p & (i & -> & Hi%elem_of_seq)%list_elem_of_In%list_elem_of_fmap & Hlt).
    destruct (lookup_lt_is_Some_2 d i) as [x Hx]; [lia|]. cbn [fst snd] in Hlt. rewrite (off_S _ _ _ Hx) in Hlt.
    pose proof (zlen_nonneg x). reflect_bools. lia. }
  rewrite try_u_in by (unfold in_u; lia). cbn [ok_or bind]. rewrite bool_decide_eq_true_2.
  - cbn [negb]. rewrite <- (Nat.sub_0_r (length d)) at 1. by apply (validate_loop d 0); [..|lia].
  - unfold offsets_of. rewrite seq_S, fmap_app. csimpl. rewrite last_snoc. unfold off. simpl. by rewrite firstn_all.
Qed.

Lemma materialize_spec d values validity :
  validity_matches validity values → zlen d < 2 ^ 32 →
  forallb (λ v, matches_type v TString) values = true → (∀ x, x ∈ texts values → x ∈ d) →
  materialize d (concat (to_le 4 <$> (code_at d <$> values))) validity = Ok (Boxed values).
Proof.
  intros Hm Hd Hs Hin. unfold materialize. change U32 with 4%nat.
  rewrite as_chunks_concat by (intros; apply length_to_le).
  assert (∀ rest done, values = done ++ rest →
    for_each (enumerate_from (length done) (to_le 4 <$> (code_at d <$> rest))) done (code_step d validity) = Ok values) as H.
  { induction rest as [|v rest IH]; intros done E; [by rewrite E, app_nil_r|].
    assert (values !! length done = Some v) as Hv by (rewrite E, lookup_app_r, Nat.sub_diag by lia; done).
    rewrite !fmap_cons, enumerate_from_cons. cbn [for_each].
    assert (code_step d validity done (length done, to_le 4 (code_at d v)) = Ok (done ++ [v])) as ->.
    { unfold code_step. rewrite (Hm _ _ Hv). pose proof (list_elem_of_lookup_2 _ _ _ Hv) as Hel.
      assert (matches_type v TString = true) as Hmv.
      { rewrite forallb_forall in Hs. by apply Hs, list_elem_of_In. }
      destruct v; try done. simpl code_at.
      destruct (binary_search_spec d text) as (i & -> & Hi).
      { apply Hin, list_elem_of_omap. by exists (String text). }
      pose proof (lookup_lt_Some _ _ _ Hi). cbn [default]. rewrite (from_to_le_u 4 32) by (done || unfold in_u, zlen in *; simpl; lia).
      simpl. by rewrite Nat2Z.id, Hi. }
    cbn [bind]. specialize (IH (done ++ [v])). rewrite length_app, Nat.add_1_r in IH. apply IH.
    rewrite E, <- app_assoc. done. }
  specialize (H values [] eq_refl). unfold enumerate. cbn [length] in H. by rewrite H.
Qed.

Definition dictionary_accepts (ty : LogicalType) (values : list Value) : Prop :=
  ty = TString ∧ zlen (concat (texts values)) < 2 ^ 32.

Lemma dictionary_roundtrips ty values col validity :
  from_values ty values = Ok col →
  Forall value_wf values → forallb (λ v, matches_type v ty) values = true →
  zlen values < 2 ^ 32 → dictionary_accepts ty values → validity_matches validity values →
  ∃ bytes p, encode col ty = Ok (bytes, p) ∧ is_bytes bytes ∧
    ∃ col', decode p bytes validity (length values) ty = Ok col' ∧ reads_as col' values.
Proof.
  intros Hcol Hwf Hm Hn [-> Hheap] Hv. apply from_values_reads in Hcol.
  destruct (dictionary_spec (texts values)) as (Hsort & Hel & Hlen).
  pose proof (heap_dedup (texts values)) as Hh. set (d := dedup (sort_unstable (texts values))) in *.
  assert (length (texts values) ≤ length values)%nat.
  { unfold texts. clear. induction values as [|[] values IH]; csimpl; lia. }
  assert (zlen d < 2 ^ 32) as Hd by (unfold zlen in *; lia).
  assert (Forall (λ x, is_bytes x ∧ utf8_valid x = true) d) as Hok.
  { apply Forall_forall. intros x Hx. apply Hel, list_elem_of_omap in Hx as (v & Hvin & Ev).
    rewrite Forall_forall in Hwf. specialize (Hwf v Hvin). by destruct v; simplify_eq. }
  exists (dict_section d values), PARAMS_V1. split_and!.
  - unfold encode. cbn [is_string_type negb]. rewrite (collect_dictionary_spec col values) by done. cbn [bind].
    fold d. rewrite (write_section_spec col values d); [done..| |]; [lia|]. intros x. by rewrite Hel.
  - unfold dict_section. apply Forall_app. split; [apply to_le_bytes|]. apply Forall_app. split.
    { apply Forall_concat, Forall_fmap, Forall_true. intros. apply to_le_bytes. }
    apply Forall_app. split; [apply Forall_concat; by eapply Forall_impl; [exact Hok|intros ? []]|].
    apply Forall_concat, Forall_fmap, Forall_true. intros. apply to_le_bytes.
  - exists (Boxed values). split.
    + unfold decode. rewrite bool_decide_eq_true_2 by done. cbn [negb is_string_type].
      rewrite split_section_spec by (done || lia). cbn [bind]. rewrite validate_entries_spec.
      * cbn [bind]. apply materialize_spec; [done..|]. intros x. by rewrite Hel.
      * done.
      * by eapply Forall_impl; [exact Hok|intros ? []].
      * lia.
    + split; [done|]. intros row v Hrow. simpl. unfold index. by rewrite Hrow.
Qed.

(** ** Totality *)

Lemma windows2_bounds l top a b :
  existsb (λ pair, pair.2 <? pair.1) (windows2 l) = false → last l = Some top →
  (a, b) ∈ windows2 l → a ≤ b ≤ top.
Proof.
  revert top. induction l as [|x l IH]; intros top Hw Hl Hin; [by apply elem_of_nil in Hin|].
  destruct l as [|y l]; [by apply elem_of_nil in Hin|].
  change (windows2 (x :: y :: l)) with ((x, y) :: windows2 (y :: l)) in *.
  cbn [existsb] in Hw. apply orb_false_iff in Hw as [Hxy Hw]. cbn [fst snd] in Hxy. reflect_bools.
  change (last (x :: y :: l)) with (last (y :: l)) in Hl.
  apply elem_of_cons in Hin as [[= -> ->]|Hin]; [|by apply IH].
  split; [done|]. clear IH Hxy x. destruct l as [|z l]; [injection Hl as ->; lia|].
  revert y z Hw Hl. induction l as [|w l IH]; intros y z Hw Hl;
    change (windows2 (y :: z :: ?k)) with ((y, z) :: windows2 (z :: k)) in Hw;
    cbn [existsb] in Hw; apply orb_false_iff in Hw as [Hyz Hw]; cbn [fst snd] in Hyz; reflect_bools.
  - injection Hl as ->. done.
  - specialize (IH z w Hw Hl). lia.
Qed.

Lemma split_section_total bytes row_count :
  is_bytes bytes →
  (∃ e, split_section bytes row_count = Err e) ∨
  ∃ offsets heap codes, split_section bytes row_count = Ok (offsets, heap, codes) ∧ length codes = (4 * row_count)%nat.
Proof.
  intros Hb. unfold split_section. change U32 with 4%nat.
  destruct (Nat.ltb_spec (length bytes) 4); [by eauto|]. rewrite read_u32_Ok by lia. cbn [bind].
  set (c := from_le _). assert (0 ≤ c) as Hc by (apply from_le_bound; by apply sub_bytes).
  do 5 (match goal with |- context [try_u 64 ?x] => destruct (try_u 64 x) as [?|] eqn:?E; [|cbn [ok_or bind]; by eauto] end;
    match goal with E : try_u _ _ = Some _ |- _ => apply try_u_Some in E as [-> ?] end; cbn [ok_or bind]).
  match goal with |- context [?a <? ?b] => destruct (Z.ltb_spec a b) end; [by eauto|]. right.
  rewrite !slice_Ok by (unfold zlen in *; lia). cbn [bind]. eexists _, _, _. split; [done|].
  rewrite length_sub; unfold zlen in *; lia.
Qed.

Lemma validate_entries_total offsets heap : validate_entries offsets heap ≠ Panic.
Proof.
  unfold validate_entries. destruct (negb _); [done|]. destruct (existsb _ _) eqn:Ew; [done|].
  destruct (try_u 32 (zlen heap)) as [n|] eqn:En; [|done]. apply try_u_Some in En as [-> _]. cbn [ok_or bind].
  destruct (negb _) eqn:El; [done|]. reflect_bools.
  apply (for_each_no_panic (λ _, True)); [done|]. intros [a b] entries Hin _. split; [|done].
  pose proof (windows2_bounds _ _ _ _ Ew El Hin) as Hab. unfold entry_step. cbn [fst snd].
  rewrite slice_Ok by (unfold zlen in *; lia). cbn [bind]. unfold from_utf8.
  destruct (utf8_valid _); [|done]. cbn [bind]. by case_match; [case_match|].
Qed.

Lemma materialize_total entries codes validity row_count :
  length codes = (4 * row_count)%nat →
  (∃ e, materialize entries codes validity = Err e) ∨
  ∃ col, materialize entries codes validity = Ok col ∧ column_len col = row_count.
Proof.
  intros Hl. unfold materialize. change U32 with 4%nat.
  assert (length (as_chunks 4 codes) = row_count) as Hn.
  { unfold as_chunks. rewrite length_fmap, length_seq, Hl, Nat.mul_comm. by apply Nat.div_mul. }
  assert (∀ values rc, code_step entries validity values rc ≠ Panic ∧
    ∀ values', code_step entries validity values rc = Ok values' → length values' = S (length values)) as Hstep.
  { intros values [row chunk]. unfold code_step. destruct (negb (is_valid _ _)).
    - destruct (negb _); [done|]. split; [done|]. intros ? [= <-]. rewrite length_app. simpl. lia.
    - destruct (entries !! _); simpl; [|done]. split; [done|]. intros ? [= <-]. rewrite length_app. simpl. lia. }
  assert (∀ (l : list (nat * list Z)) acc,
    for_each l acc (code_step entries validity) ≠ Panic ∧
    ∀ r, for_each l acc (code_step entries validity) = Ok r → length r = (length acc + length l)%nat) as Hloop.
  { induction l as [|rc l IH]; intros acc; simpl; [split; [done|]; intros ? [= <-]; lia|].
    destruct (Hstep acc rc) as [Hp Hk]. destruct (code_step _ _ _ _) as [acc'|e|]; simpl; [|done..].
    destruct (IH acc') as [Hp' Hk']. split; [done|]. intros r Hr. rewrite (Hk' r Hr), (Hk acc' eq_refl). lia. }
  destruct (Hloop (enumerate (as_chunks 4 codes)) []) as [Hp Hk].
  destruct (for_each _ _ _) as [values|e|]; simpl; [|by eauto|done]. right. eexists. split; [done|].
  simpl. rewrite (Hk values eq_refl). simpl. unfold enumerate, enumerate_from.
  rewrite length_zip_with, length_seq. lia.
Qed.

Lemma dictionary_total p bytes validity row_count ty :
  is_bytes bytes →
  (∃ e, decode p bytes validity row_count ty = Err e) ∨
  (∃ col, decode p bytes validity row_count ty = Ok col ∧ column_len col = row_count).
Proof.
  intros Hb. unfold decode. destruct (negb _); [by eauto|]. destruct (negb _); [by eauto|].
  destruct (split_section_total bytes row_count Hb) as [[e ->]|(offsets & heap & codes & -> & Hl)]; [by eauto|].
  cbn [bind]. pose proof (validate_entries_total offsets heap).
  destruct (validate_entries offsets heap) as [entries|e|]; [|by eauto|done]. by apply materialize_total.
Qed.

#[export] Instance dictionary_codec : ValuesCodec encode decode dictionary_accepts :=
  {| codec_roundtrip := dictionary_roundtrips; codec_total := dictionary_total |}.

(** C32: dictionary encoding round-trips: any string column whose text fits 32-bit
    offsets is encoded to a sorted dictionary and row codes, and decoded back to
    the same rows. *)
Theorem dictionary_roundtrip ty values col validity :
  from_values ty values = Ok col →
  Forall value_wf values → forallb (λ v, matches_type v ty) values = true →
  zlen values < 2 ^ 32 → dictionary_accepts ty values → validity_matches validity values →
  ∃ bytes p, encode col ty = Ok (bytes, p) ∧ is_bytes bytes ∧
    ∃ col', decode p bytes validity (length values) ty = Ok col' ∧ reads_as col' values.
Proof. apply codec_roundtrip. Qed.

Lemma dictionary_roundtrip_witness :
  let values := [String [98]; Null; String [97; 98]; String [98]] in
  ∃ col bytes p col', from_values TString values = Ok col ∧ encode col TString = Ok (bytes, p) ∧
    decode p bytes (mkBitmap [13] 5) (length values) TString = Ok col' ∧ reads_as col' values.
Proof.
  intros values. set (col := match from_values TString values with Ok c => c | _ => Boxed [] end). exists col.
  destruct (dictionary_roundtrip TString values col (mkBitmap [13] 4)) as (bytes & p & He & _ & col' & Hd & Hr);
    [vm_compute; reflexivity|check_values|vm_compute; reflexivity|vm_compute; reflexivity|split; [reflexivity|vm_compute; reflexivity]
    |apply validity_matches_check; vm_compute; reflexivity|].
  exists bytes, p, col'. split; [vm_compute; reflexivity|]. split; [exact He|]. split; [exact Hd|exact Hr].
Defined.
