(* ===== verification/Encodings.v ===== *)
(** The encoding registry and its directory section:
    [devondb-storage/src/node_group/encodings/mod.rs] and the section code of
    [node_group.rs] ([write_section], [decode_section_frame],
    [decode_encoding_section]).  The codecs themselves are reached through the
    [ValuesCodec] interface. *)

From S2P Require Import Prelude Bytes Decimal Types Codec Rle Constant BitpackFor Dictionary.

(** ** The registry *)

Inductive Encoding := Plain | Constant | Rle | BitpackFor | Dictionary | Fsst | Alp.

#[export] Instance Encoding_eq_dec : EqDecision Encoding.
Proof. solve_decision. Defined.

Definition id (self : Encoding) : Z :=
  match self with
  | Plain => 0 | Constant => 1 | Rle => 2 | BitpackFor => 3 | Dictionary => 4 | Fsst => 5 | Alp => 6
  end.

Definition from_id (id : Z) : option Encoding :=
  match id with
  | 0 => Some Plain | 1 => Some Constant | 2 => Some Rle | 3 => Some BitpackFor
  | 4 => Some Dictionary | 5 => Some Fsst | 6 => Some Alp | _ => None
  end.

Definition name (self : Encoding) : string :=
  match self with
  | Plain => "plain" | Constant => "constant" | Rle => "rle" | BitpackFor => "bitpack_for"
  | Dictionary => "dictionary" | Fsst => "fsst" | Alp => "alp"
  end.

Definition is_admissible_for (self : Encoding) (ty : LogicalType) : bool :=
  match self with
  | Plain => true
  | Constant => match ty with TInt64 | TFloat64 | TBool | TTimestamp | TDecimal _ _ | TString => true | _ => false end
  | Rle => match ty with TInt64 | TTimestamp | TDecimal _ _ | TBool => true | _ => false end
  | BitpackFor => match ty with TInt64 | TTimestamp => true | _ => false end
  | Dictionary | Fsst => match ty with TString => true | _ => false end
  | Alp => match ty with TFloat64 => true | _ => false end
  end.

(** ** The COLUMN_ENCODINGS section *)

Definition ENCODING_RECORD_LEN : nat := 4.

Definition encode_section_payload (selections : list (Encoding * params)) : list Z :=
  foldl (λ payload sel, (payload ++ [id sel.1]) ++ [sel.2.1.1; sel.2.1.2; sel.2.2]) [] selections.

Definition decode_record (s : list (Encoding * params) * bool) (rt : list Z * LogicalType) :
    outcome (list (Encoding * params) * bool) :=
  let '(selections, all_plain) := s in
  let '(record, logical_type) := rt in
  let! b0 := index record 0 in
  let! encoding := ok_or (from_id b0) (Corrupt "COLUMN_ENCODINGS column {index} encoding id {} is not registered") in
  if negb (is_admissible_for encoding logical_type)
  then Err (Corrupt "COLUMN_ENCODINGS column {index} encoding {} is not admissible for {logical_type}") else
  let! b1 := index record 1 in
  let! b2 := index record 2 in
  let! b3 := index record 3 in
  let params := (b1, b2, b3) in
  if bool_decide (encoding = Plain ∨ encoding = Constant) && negb (bool_decide (params = no_params))
  then Err (Corrupt "COLUMN_ENCODINGS column {index} encoding {} parameters are not zero") else
  Ok (selections ++ [(encoding, params)], all_plain && bool_decide (encoding = Plain)).

Definition decode_encoding_section (payload : list Z) (types : list LogicalType) :
    outcome (list (Encoding * params)) :=
  let! expected := ok_or (try_u 64 (zlen types * 4)) (Corrupt "COLUMN_ENCODINGS payload length overflows usize") in
  if negb (zlen payload =? expected)
  then Err (Corrupt "COLUMN_ENCODINGS section_len is {}, expected {expected}") else
  let! (selections, all_plain) :=
    for_each (zip (as_chunks ENCODING_RECORD_LEN payload) types) ([], true) decode_record in
  if (all_plain : bool)
  then Err (Corrupt "COLUMN_ENCODINGS section is present but every column is plain")
  else Ok selections.

(** ** Framed extension sections *)

Definition SECTION_HEADER_LEN : nat := 8.

Section Frames.
Context `{!Crc32c}.

Definition write_section (page : list Z) (cursor : nat) (payload : list Z) : outcome (list Z * nat) :=
  let! section_len := ok_or (try_u 32 (zlen payload)) (InvalidArgument "node-group section length exceeds u32") in
  let! e := ok_or (try_u 64 (Z.of_nat (cursor + SECTION_HEADER_LEN) + zlen payload))
    (InvalidArgument "node-group directory length overflows usize") in
  let end_ := Z.to_nat e in
  if (length page <? end_)%nat
  then Err (InvalidArgument "node group directory sections exceed the page capacity") else
  let! page := copy_at page cursor (cursor + 4) (to_le 4 section_len) in
  let! page := copy_at page (cursor + 4) (cursor + 8) (to_le 4 (crc32c payload)) in
  let! page := copy_at page (cursor + SECTION_HEADER_LEN) end_ payload in
  Ok (page, end_).

Definition decode_section_frame (page : list Z) (cursor : nat) (validate_checksum : bool) :
    outcome (list Z * nat) :=
  let! header_end := ok_or (try_u 64 (Z.of_nat (cursor + SECTION_HEADER_LEN)))
    (Corrupt "node-group directory section bit {bit} header offset overflows") in
  if zlen page <? header_end
  then Err (Corrupt "node-group directory section bit {bit} header overruns the page") else
  let! section_len := read_u32 page cursor in
  let! section_end := ok_or (try_u 64 (header_end + section_len))
    (Corrupt "node-group directory section bit {bit} length overflows") in
  if zlen page <? section_end
  then Err (Corrupt "node-group directory section bit {bit} length overruns the page") else
  let! payload := slice page (Z.to_nat header_end) (Z.to_nat section_end) in
  let! bad :=
    (if validate_checksum then let! stored := read_u32 page (cursor + 4) in Ok (negb (crc32c payload =? stored))
     else Ok false) in
  if (bad : bool)
  then Err (Corrupt "node-group directory section bit {bit} CRC-32C does not match")
  else Ok (payload, Z.to_nat section_end).
End Frames.

(** ** Theorems *)

Lemma from_id_id e : from_id (id e) = Some e.
Proof. by destruct e. Qed.
Lemma id_from_id i e : from_id i = Some e → id e = i.
Proof. unfold from_id. repeat case_match; by intros [= <-]. Qed.
Lemma id_byte e : is_byte (id e).
Proof. destruct e; unfold is_byte; range_lia. Qed.

(** What a section may declare for a column. *)
Definition selection_ok (ty : LogicalType) (sel : Encoding * params) : Prop :=
  is_admissible_for sel.1 ty = true ∧ ((sel.1 = Plain ∨ sel.1 = Constant) → sel.2 = no_params).

Definition record_of (sel : Encoding * params) : list Z := [id sel.1; sel.2.1.1; sel.2.1.2; sel.2.2].

Lemma encode_section_payload_spec sels : encode_section_payload sels = concat (record_of <$> sels).
Proof.
  unfold encode_section_payload. assert (∀ acc,
    foldl (λ payload sel, (payload ++ [id sel.1]) ++ [sel.2.1.1; sel.2.1.2; sel.2.2]) acc sels =
    acc ++ concat (record_of <$> sels)) as H; [|by rewrite H].
  induction sels as [|s sels IH]; intros acc; csimpl; [by rewrite app_nil_r|].
  rewrite IH, <- !app_assoc. done.
Qed.

Lemma decode_record_Ok sels plain record ty s :
  length record = 4%nat →
  decode_record (sels, plain) (record, ty) = Ok s ↔
  ∃ sel, record = record_of sel ∧ selection_ok ty sel ∧ s = (sels ++ [sel], plain && bool_decide (sel.1 = Plain)).
Proof.
  destruct record as [|b0 [|b1 [|b2 [|b3 []]]]]; try done. intros _. unfold decode_record, index. simpl.
  destruct (from_id b0) as [e|] eqn:Ei; simpl.
  - apply id_from_id in Ei as <-. destruct (is_admissible_for e ty) eqn:Ea; simpl.
    + destruct (_ && _) eqn:Ep.
      * reflect_bools. split; [done|]. intros ([e' [[p1 p2] p3]] & [= He -> -> ->] & [_ Hs] & _). simpl in *.
        assert (e' = e) as ->; [|by apply Hs in H]. apply (f_equal from_id) in He. rewrite !from_id_id in He. congruence.
      * split.
        -- intros [= <-]. exists (e, (b1, b2, b3)). split; [done|]. split; [|done]. split; [done|]. simpl. intros He.
           apply andb_false_iff in Ep as [Ep|Ep]; reflect_bools; done.
        -- intros ([e' [[p1 p2] p3]] & [= He -> -> ->] & _ & ->). simpl in *.
           apply (f_equal from_id) in He. rewrite !from_id_id in He. injection He as ->. done.
    + split; [done|]. intros ([e' [[p1 p2] p3]] & [= He -> -> ->] & [Hs _] & _). simpl in *.
      apply (f_equal from_id) in He. rewrite !from_id_id in He. congruence.
  - split; [done|]. intros ([e' [[p1 p2] p3]] & [= -> -> -> ->] & _). simpl in Ei. by rewrite from_id_id in Ei.
Qed.

Lemma as_chunks_spec n bytes :
  length bytes = (4 * n)%nat →
  concat (as_chunks 4 bytes) = bytes ∧ Forall (λ c, length c = 4%nat) (as_chunks 4 bytes) ∧
  length (as_chunks 4 bytes) = n.
Proof.
  intros Hl. unfold as_chunks. rewrite Hl.
  replace (4 * n / 4)%nat with n by (symmetry; rewrite Nat.mul_comm; by apply Nat.div_mul).
  rewrite length_fmap, length_seq. split; [|split; [|done]].
  - assert (∀ m, (m ≤ n)%nat → concat ((λ i, sub (4 * i) (4 * i + 4) bytes) <$> seq 0 m) = sub 0 (4 * m) bytes) as H.
    { induction m as [|m IH]; intros Hm; [done|]. rewrite seq_S, fmap_app, concat_app, IH, Nat.add_0_l by lia.
      rewrite list_fmap_singleton. cbn [concat]. rewrite app_nil_r, sub_cat by lia. f_equal. lia. }
    rewrite H by done. by rewrite sub_all by lia.
  - apply Forall_fmap, Forall_forall. intros i Hi%elem_of_seq. unfold compose. rewrite length_sub; lia.
Qed.

Lemma decode_records records types acc plain s :
  Forall (λ c, length c = 4%nat) records → length records = length types →
  for_each (zip records types) (acc, plain) decode_record = Ok s ↔
  ∃ sels, records = record_of <$> sels ∧ Forall2 selection_ok types sels ∧
    s = (acc ++ sels, plain && forallb (λ sel, bool_decide (sel.1 = Plain)) sels).
Proof.
  intros Hr. revert types acc plain. induction Hr as [|r records Hr Hrs IH]; intros [|ty types] acc plain; try done.
  - intros _. simpl. split.
    + intros [= <-]. exists []. split_and!; [done|constructor|]. by rewrite app_nil_r, andb_true_r.
    + intros (sels & Hs & _ & ->). destruct sels; [|done]. by rewrite app_nil_r, andb_true_r.
  - intros [= Hl]. cbn [zip zip_with for_each]. rewrite bind_Ok. split.
    + intros (s1 & (sel & -> & Hok & ->)%decode_record_Ok & (sels & -> & Hoks & ->)%IH); [|done|done].
      exists (sel :: sels). split_and!; [done|by constructor|]. simpl. by rewrite <- app_assoc, andb_assoc.
    + intros (sels & Hs & Hoks & ->). destruct sels as [|sel sels]; [done|].
      rewrite fmap_cons in Hs. injection Hs as -> ->. apply Forall2_cons in Hoks as [Hok Hoks].
      eexists. split; [by apply decode_record_Ok; [done|eauto]|]. apply IH; [done|].
      exists sels. split_and!; [done..|]. simpl. by rewrite <- app_assoc, andb_assoc.
Qed.

(** The COLUMN_ENCODINGS section decoder accepts exactly the payloads the
    encoder produces for selections that are registered, admissible for their
    column's type, parameter-free where the format says so, and not all plain. *)
Theorem encoding_section_exact types payload sels :
  zlen types < 2 ^ 61 →
  decode_encoding_section payload types = Ok sels ↔
  payload = encode_section_payload sels ∧ Forall2 selection_ok types sels ∧
  Exists (λ sel, sel.1 ≠ Plain) sels.
Proof.
  intros Ht. unfold decode_encoding_section. pose proof (zlen_nonneg types).
  rewrite try_u_in by (unfold in_u; lia). cbn [ok_or bind].
  assert (∀ sels : list (Encoding * params), Exists (λ sel, sel.1 ≠ Plain) sels ↔
    forallb (λ sel, bool_decide (sel.1 = Plain)) sels = false) as Hplain.
  { clear. induction sels as [|sel sels IH]; simpl; [split; [by intros ?%Exists_nil|done]|].
    rewrite Exists_cons, IH. case_bool_decide; simpl; naive_solver. }
  rewrite Hplain, encode_section_payload_spec.
  assert (Forall2 selection_ok types sels → length (concat (record_of <$> sels)) = (4 * length types)%nat) as Hlen.
  { intros H2. rewrite (length_concat_fixed _ _ 4) by done. by erewrite <- Forall2_length by done. }
  destruct (negb (zlen payload =? zlen types * 4)) eqn:El; reflect_bools.
  { split; [done|]. intros (-> & H2 & _). apply Hlen in H2. unfold zlen in El. lia. }
  destruct (as_chunks_spec (length types) payload) as (Hc & H4 & Hn); [unfold zlen in *; lia|].
  change ENCODING_RECORD_LEN with 4%nat. rewrite bind_Ok. split.
  - intros ([sels' pl] & (sels'' & Hr & H2 & [= -> ->])%decode_records & Hk); [|done|done].
    simpl in Hk. destruct (forallb _ sels'') eqn:Ef; [done|]. injection Hk as ->.
    rewrite Hr in Hc. auto.
  - intros (Hp & H2 & Hf). exists (sels, false). split; [|done].
    apply decode_records; [done..|]. exists sels. split_and!; [|done|by rewrite andb_true_l, Hf].
    rewrite Hp. by apply as_chunks_concat.
Qed.

Lemma encoding_section_exact_witness :
  decode_encoding_section [2; 0; 0; 0; 0; 0; 0; 0] [TInt64; TJson] = Ok [(Rle, no_params); (Plain, no_params)].
Proof.
  apply (encoding_section_exact [TInt64; TJson]); [vm_compute; reflexivity|].
  split; [reflexivity|]. split.
  - repeat constructor; try (intros [?|?]; discriminate).
  - left. discriminate.
Defined.

(** ** Frames *)

Section FrameLemmas.
Context `{!Crc32c}.

Lemma write_section_frame page cursor payload :
  zlen payload < 2 ^ 32 → (cursor + 8 + length payload ≤ length page)%nat → zlen page < 2 ^ 64 →
  ∃ page', write_section page cursor payload = Ok (page', (cursor + 8 + length payload)%nat) ∧
    length page' = length page ∧
    sub cursor (cursor + 4) page' = to_le 4 (zlen payload) ∧
    sub (cursor + 4) (cursor + 8) page' = to_le 4 (crc32c payload) ∧
    sub (cursor + 8) (cursor + 8 + length payload) page' = payload ∧
    ∀ c d, (d ≤ cursor ∨ cursor + 8 + length payload ≤ c)%nat → sub c d page' = sub c d page.
Proof.
  intros Hp Hfit Hpage. unfold write_section. pose proof (zlen_nonneg payload).
  rewrite try_u_in by (unfold in_u; lia). cbn [ok_or bind]. change SECTION_HEADER_LEN with 8%nat.
  rewrite try_u_in by (unfold in_u, zlen in *; lia). cbn [ok_or bind].
  replace (Z.to_nat (Z.of_nat (cursor + 8) + zlen payload)) with (cursor + 8 + length payload)%nat by (unfold zlen; lia).
  rewrite (proj2 (Nat.ltb_ge _ _)) by lia.
  destruct (copy_at_spec page cursor (cursor + 4) (to_le 4 (zlen payload))) as (p1 & -> & L1 & S1 & O1);
    [lia|lia|rewrite length_to_le; lia|]. cbn [bind].
  destruct (copy_at_spec p1 (cursor + 4) (cursor + 8) (to_le 4 (crc32c payload))) as (p2 & -> & L2 & S2 & O2);
    [lia|lia|rewrite length_to_le; lia|]. cbn [bind].
  destruct (copy_at_spec p2 (cursor + 8) (cursor + 8 + length payload) payload) as (p3 & -> & L3 & S3 & O3); [lia..|].
  cbn [bind]. exists p3. split; [done|]. split_and!; [lia| | |done|].
  - rewrite O3, O2 by lia. done.
  - rewrite O3 by lia. done.
  - intros c d Hcd. rewrite O3, O2, O1 by lia. done.
Qed.

Lemma decode_section_frame_spec page cursor payload validate :
  zlen payload < 2 ^ 32 → (cursor + 8 + length payload ≤ length page)%nat → zlen page < 2 ^ 64 →
  sub cursor (cursor + 4) page = to_le 4 (zlen payload) →
  sub (cursor + 4) (cursor + 8) page = to_le 4 (crc32c payload) →
  sub (cursor + 8) (cursor + 8 + length payload) page = payload →
  decode_section_frame page cursor validate = Ok (payload, (cursor + 8 + length payload)%nat).
Proof.
  intros Hp Hfit Hpage S1 S2 S3. unfold decode_section_frame. change SECTION_HEADER_LEN with 8%nat.
  pose proof (zlen_nonneg payload).
  rewrite try_u_in by (unfold in_u, zlen in *; lia). cbn [ok_or bind].
  rewrite (proj2 (Z.ltb_ge _ _)) by (unfold zlen in *; lia). rewrite !read_u32_Ok by lia. cbn [bind].
  replace (cursor + 4 + 4)%nat with (cursor + 8)%nat by lia. rewrite S1, S2.
  rewrite (from_to_le_u 4 32) by (done || unfold in_u; lia).
  rewrite try_u_in by (unfold in_u, zlen in *; lia). cbn [ok_or bind].
  rewrite (proj2 (Z.ltb_ge _ _)) by (unfold zlen in *; lia).
  replace (Z.to_nat (Z.of_nat (cursor + 8) + zlen payload)) with (cursor + 8 + length payload)%nat by (unfold zlen; lia).
  rewrite Nat2Z.id, slice_Ok by lia. cbn [bind]. rewrite S3.
  destruct validate; cbn [bind]; [|done].
  rewrite (from_to_le_u 4 32) by (done || apply crc32c_append_u32). by rewrite Z.eqb_refl.
Qed.
End FrameLemmas.

(** A framed directory section that fits the page is written without
    touching any byte outside its frame, and the reader gets exactly the payload
    back, its checksum verified; one that does not fit is refused. *)
Theorem section_frame_roundtrip `{!Crc32c} page cursor payload validate :
  zlen payload < 2 ^ 32 → zlen page < 2 ^ 64 → Z.of_nat cursor < 2 ^ 63 →
  if decide (cursor + 8 + length payload ≤ length page)%nat then
    ∃ page' end_, write_section page cursor payload = Ok (page', end_) ∧ length page' = length page ∧
      decode_section_frame page' cursor validate = Ok (payload, end_) ∧
      ∀ c d, (d ≤ cursor ∨ end_ ≤ c)%nat → sub c d page' = sub c d page
  else ∃ e, write_section page cursor payload = Err e.
Proof.
  intros Hp Hpage Hc. case_decide as Hfit.
  - destruct (write_section_frame page cursor payload) as (page' & Hw & Hl & S1 & S2 & S3 & Hout); [done..|].
    exists page', (cursor + 8 + length payload)%nat. split_and!; [done..| |done].
    apply decode_section_frame_spec; rewrite ?Hl; try done. unfold zlen in *. by rewrite Hl.
  - unfold write_section. pose proof (zlen_nonneg payload). change SECTION_HEADER_LEN with 8%nat.
    rewrite try_u_in by (unfold in_u; lia). cbn [ok_or bind].
    rewrite try_u_in by (unfold in_u, zlen in *; lia). cbn [ok_or bind].
    rewrite (proj2 (Nat.ltb_lt _ _)) by (unfold zlen in *; lia). by eexists.
Qed.

Lemma section_frame_roundtrip_witness :
  ∃ page' end_, @write_section castagnoli (replicate 16 0) 2 [7; 8] = Ok (page', end_) ∧
    @decode_section_frame castagnoli page' 2 true = Ok ([7; 8], end_).
Proof.
  destruct (@section_frame_roundtrip castagnoli (replicate 16 0) 2 [7; 8] true
    ltac:(vm_compute; reflexivity) ltac:(vm_compute; reflexivity) ltac:(vm_compute; reflexivity))
    as (page' & e & Hw & _ & Hd & _).
  exists page', e. split; [exact Hw|exact Hd].
Defined.

(** ** Every decoder against the registry *)

Definition modelled_decode (e : Encoding) :
    option (params → list Z → Bitmap → nat → LogicalType → outcome Column) :=
  match e with
  | Constant => Some Constant.decode
  | Rle => Some Rle.decode
  | BitpackFor => Some BitpackFor.decode
  | Dictionary => Some Dictionary.decode
  | _ => None
  end.

Lemma decode_total_interface enc dec acc `{!ValuesCodec enc dec acc} p bytes validity row_count ty :
  is_bytes bytes →
  (∃ e, dec p bytes validity row_count ty = Err e) ∨
  (∃ col, dec p bytes validity row_count ty = Ok col ∧ column_len col = row_count).
Proof. apply codec_total. Qed.

Lemma inadmissible_refused e dec p bytes validity row_count ty :
  modelled_decode e = Some dec → is_admissible_for e ty = false → ∃ err, dec p bytes validity row_count ty = Err err.
Proof.
  intros Hd Ha. destruct e; try done; injection Hd as <-.
  - unfold Constant.decode. destruct (negb _); [by eauto|]. destruct (_ && _); [by eauto|]. destruct ty; try done; by eauto.
  - unfold Rle.decode. destruct (negb _); [by eauto|]. destruct ty; try done; by eauto.
  - unfold BitpackFor.decode. destruct ty; try done; by eauto.
  - unfold Dictionary.decode. destruct (negb _); [by eauto|]. destruct ty; try done; by eauto.
Qed.

(** C33: the constant, RLE, bit-packing and dictionary decoders never panic: on
    arbitrary parameters, bytes, bitmap and row count they return an error or a
    column of exactly the declared row count, and they refuse every type the
    registry does not admit. *)
Theorem decoders_total e dec p bytes validity row_count ty :
  modelled_decode e = Some dec → is_bytes bytes →
  dec p bytes validity row_count ty ≠ Panic ∧
  (∀ col, dec p bytes validity row_count ty = Ok col →
     column_len col = row_count ∧ is_admissible_for e ty = true).
Proof.
  intros Hd Hb.
  assert ((∃ err, dec p bytes validity row_count ty = Err err) ∨
    ∃ col, dec p bytes validity row_count ty = Ok col ∧ column_len col = row_count) as Htot.
  { destruct e; try done; injection Hd as <-; by eapply decode_total_interface; [apply _|]. }
  pose proof (inadmissible_refused e dec p bytes validity row_count ty Hd) as Hadm.
  destruct Htot as [[err ->]|(col & E & Hl)]; [done|]. rewrite E in *. split; [done|].
  intros col' [= <-]. split; [done|]. destruct (is_admissible_for e ty); [done|]. by destruct Hadm.
Qed.

Lemma decoders_total_witness :
  Rle.decode no_params [1; 0; 0; 0; 3; 0; 0; 0; 1] (mkBitmap [7] 3) 3 TBool ≠ Panic ∧ is_admissible_for Rle TBool = true.
Proof.
  destruct (decoders_total Rle Rle.decode no_params [1; 0; 0; 0; 3; 0; 0; 0; 1] (mkBitmap [7] 3) 3 TBool) as [H1 H2];
    [reflexivity|check_values|].
  split; [exact H1|]. eapply H2. vm_compute. reflexivity.
Defined.
