(* ===== verification/Budget.v ===== *)
(** The shared memory budget, [devondb-storage/src/budget.rs].

    [try_charge], [release] and the RAII reservation [ChargedBytes] first as
    the functions one thread runs when nobody interferes, then as the
    interleaving of any number of threads: each [compare_exchange_weak] loop is
    a program counter with its last observed total, and every atomic access is
    one step.  All accesses go to one atomic, so the [Relaxed] order gives each
    of them a place in a single modification order, which the interleaving is. *)

From stdpp Require Import relations.
From S2P Require Import Prelude.

Record MemoryBudget := mkBudget { limit : Z; charged : Z }.

Definition budget_wf (b : MemoryBudget) : Prop := in_u 64 (limit b) ∧ 0 ≤ charged b ≤ limit b.

(** ** One thread *)

(** [MemoryBudget::new] and [unlimited]. *)
Definition new (limit : Z) : MemoryBudget := mkBudget limit 0.
Definition unlimited : MemoryBudget := new (2 ^ 64 - 1).

(** The body of the [try_charge] loop: the total to install, or [None] for the
    [return false] of the overflow and limit checks. *)
Definition charge_target (limit current bytes : Z) : option Z :=
  match try_u 64 (current + bytes) with
  | None => None
  | Some next => if limit <? next then None else Some next
  end.

(** The body of the [release] loop: the total to install; the
    [debug_assert!] is a panic. *)
Definition release_target (current bytes : Z) : outcome Z :=
  if bytes <=? current then Ok (Z.max 0 (current - bytes)) else Panic.

Definition try_charge (b : MemoryBudget) (bytes : Z) : bool * MemoryBudget :=
  match charge_target (limit b) (charged b) bytes with
  | Some next => (true, mkBudget (limit b) next)
  | None => (false, b)
  end.

Definition release (b : MemoryBudget) (bytes : Z) : outcome MemoryBudget :=
  let! next := release_target (charged b) bytes in Ok (mkBudget (limit b) next).

(** [charge_or_reclaim]: the installed reclaimer is a callback that may change
    the charged total. *)
Definition charge_or_reclaim (reclaimer : option (Z → MemoryBudget → MemoryBudget)) (b : MemoryBudget) (bytes : Z) :
    bool * MemoryBudget :=
  match try_charge b bytes with
  | (true, b) => (true, b)
  | (false, b) =>
      match reclaimer with
      | None => (false, b)
      | Some reclaimer => try_charge (reclaimer bytes b) bytes
      end
  end.

(** [ChargedBytes]: a reservation of [bytes]. *)
Definition try_new (b : MemoryBudget) (bytes : Z) (context : string) : outcome Z * MemoryBudget :=
  match try_charge b bytes with
  | (true, b) => (Ok bytes, b)
  | (false, b) => (Err (BudgetExceeded context), b)
  end.

Definition grow (b : MemoryBudget) (self : Z) (additional : Z) (context : string) : outcome Z * MemoryBudget :=
  match try_charge b additional with
  | (true, b) => (Ok (self + additional), b)
  | (false, b) => (Err (BudgetExceeded context), b)
  end.

Definition shrink (b : MemoryBudget) (self bytes : Z) : outcome (Z * MemoryBudget) :=
  let released := Z.min self bytes in
  let! b := release b released in
  Ok (self - released, b).

Definition drop_charged (b : MemoryBudget) (self : Z) : outcome MemoryBudget := release b self.

(** ** Many threads *)

Inductive pc :=
| Idle
| ChargeLoop (bytes current : Z)
| ReleaseLoop (bytes current : Z)
| Panicked.

(** A thread: its program counter and the bytes its reservations hold.  While a
    release is in flight its bytes have left [held] and not yet [charged]. *)
Record thread := mkThread { at_pc : pc; held : Z }.
Record system := mkSystem { total : Z; threads : list thread }.

Definition owed (t : thread) : Z := match at_pc t with ReleaseLoop bytes _ => bytes | _ => 0 end.
Definition stake (t : thread) : Z := held t + owed t.

Section System.
Context (lim : Z).

(** Steps of one thread against the shared total. *)
Inductive tstep : Z → thread → Z → thread → Prop :=
| charge_load c h bytes :
    in_u 64 bytes → tstep c (mkThread Idle h) c (mkThread (ChargeLoop bytes c) h)
| charge_refused c h bytes cur :
    charge_target lim cur bytes = None →
    tstep c (mkThread (ChargeLoop bytes cur) h) c (mkThread Idle h)
| charge_cas_ok c h bytes next :
    charge_target lim c bytes = Some next →
    tstep c (mkThread (ChargeLoop bytes c) h) next (mkThread Idle (h + bytes))
| charge_cas_failed c h bytes cur next :
    charge_target lim cur bytes = Some next →
    tstep c (mkThread (ChargeLoop bytes cur) h) c (mkThread (ChargeLoop bytes c) h)
| release_load c h bytes :
    0 ≤ bytes ≤ h → tstep c (mkThread Idle h) c (mkThread (ReleaseLoop bytes c) (h - bytes))
| release_cas_ok c h bytes next :
    release_target c bytes = Ok next →
    tstep c (mkThread (ReleaseLoop bytes c) h) next (mkThread Idle h)
| release_cas_failed c h bytes cur next :
    release_target cur bytes = Ok next →
    tstep c (mkThread (ReleaseLoop bytes cur) h) c (mkThread (ReleaseLoop bytes c) h)
| release_asserts c h bytes cur :
    release_target cur bytes = Panic →
    tstep c (mkThread (ReleaseLoop bytes cur) h) c (mkThread Panicked h).

Inductive step : system → system → Prop :=
| step_thread i c t ts c' t' :
    ts !! i = Some t → tstep c t c' t' → step (mkSystem c ts) (mkSystem c' (<[i := t']> ts)).

Definition initial (n : nat) : system := mkSystem 0 (replicate n (mkThread Idle 0)).
End System.

(** ** Lemmas *)

Lemma charge_target_Some lim cur bytes next :
  in_u 64 lim → charge_target lim cur bytes = Some next ↔ next = cur + bytes ∧ 0 ≤ cur + bytes ≤ lim.
Proof.
  intros Hl. unfold charge_target. destruct (try_u 64 (cur + bytes)) eqn:E.
  - apply try_u_Some in E as [-> Hu]. destruct (Z.ltb_spec lim (cur + bytes)); unfold in_u in *; naive_solver lia.
  - apply try_u_None in E. unfold in_u in *. naive_solver lia.
Qed.

Lemma charge_target_None lim cur bytes :
  in_u 64 lim → 0 ≤ cur + bytes → charge_target lim cur bytes = None ↔ lim < cur + bytes.
Proof.
  intros Hl H0. destruct (charge_target lim cur bytes) eqn:E.
  - apply charge_target_Some in E; [|done]. naive_solver lia.
  - split; [|done]. intros _. destruct (decide (cur + bytes ≤ lim)); [|lia].
    assert (charge_target lim cur bytes = Some (cur + bytes)) by (apply charge_target_Some; auto). congruence.
Qed.

Lemma release_target_Ok cur bytes next :
  release_target cur bytes = Ok next ↔ bytes ≤ cur ∧ next = Z.max 0 (cur - bytes).
Proof. unfold release_target. destruct (Z.leb_spec bytes cur); naive_solver lia. Qed.

(** Both operations, by arithmetic. *)
Lemma try_charge_spec b n : budget_wf b → in_u 64 n → try_charge b n =
  (if decide (charged b + n ≤ limit b) then (true, mkBudget (limit b) (charged b + n)) else (false, b)).
Proof.
  intros [Hl Hc] Hn. unfold try_charge. case_decide.
  - rewrite (proj2 (charge_target_Some _ _ _ (charged b + n) Hl)) by (unfold in_u in *; lia). done.
  - rewrite (proj2 (charge_target_None (limit b) (charged b) n Hl ltac:(unfold in_u in *; lia))) by lia. done.
Qed.

Lemma release_exact l c s : 0 ≤ s ≤ c → release (mkBudget l c) s = Ok (mkBudget l (c - s)).
Proof. intros Hsc. unfold release. simpl. rewrite (proj2 (release_target_Ok c s (c - s))) by lia. done. Qed.

(** A charge succeeds exactly when it fits the limit, and then raises the
    total by exactly its size; with a reclaimer that only releases, a failed
    charge is retried once on what is left; a reservation grown, shrunk and
    dropped gives back exactly what it holds, without tripping the release
    assertion. *)
Theorem budget_accounting b bytes reclaimer self context :
  budget_wf b → in_u 64 bytes → 0 ≤ self ≤ charged b →
  (∀ r n b', reclaimer = Some r → budget_wf b' → limit (r n b') = limit b' ∧ 0 ≤ charged (r n b') ≤ charged b') →
  try_charge b bytes =
    (if decide (charged b + bytes ≤ limit b) then (true, mkBudget (limit b) (charged b + bytes)) else (false, b)) ∧
  (let r := charge_or_reclaim reclaimer b bytes in
   budget_wf r.2 ∧ limit r.2 = limit b ∧
   (charged b + bytes ≤ limit b → r.1 = true) ∧
   (r.1 = true → bytes ≤ charged r.2 ≤ charged b + bytes)) ∧
  (∀ n b', grow b self n context = (Ok (self + n), b') → in_u 64 n →
     drop_charged b' (self + n) = Ok (mkBudget (limit b) (charged b - self))) ∧
  (∀ n, in_u 64 n → ∃ b', shrink b self n = Ok (self - Z.min self n, b') ∧
     drop_charged b' (self - Z.min self n) = Ok (mkBudget (limit b) (charged b - self))) ∧
  drop_charged b self = Ok (mkBudget (limit b) (charged b - self)).
Proof.
  intros Hwfb Hb Hs Hr. pose proof Hwfb as [Hl Hc].
  pose proof try_charge_spec as Htry. pose proof release_exact as Hdrop. change release with drop_charged in Hdrop.
  split; [by apply Htry|]. split_and!.
  - unfold charge_or_reclaim. rewrite Htry by done. case_decide as Hfit; simpl.
    { unfold budget_wf, in_u in *. split_and!; simpl; try done; lia. }
    destruct reclaimer as [r|]; simpl; [|split_and!; try done; lia].
    destruct (Hr r bytes b eq_refl) as [Hrl Hrc]; [done|].
    assert (budget_wf (r bytes b)) as Hwf by (split; rewrite Hrl; [done|lia]).
    rewrite Htry by done. case_decide; simpl; unfold budget_wf, in_u in *; split_and!; simpl; rewrite ?Hrl; try done; lia.
  - intros n b' Hg Hn. unfold grow in Hg. rewrite Htry in Hg by done. case_decide; [|done].
    injection Hg as <-. rewrite Hdrop by (unfold in_u in *; lia). do 2 f_equal. lia.
  - intros n Hn. unfold shrink, release. rewrite (proj2 (release_target_Ok _ _ (charged b - Z.min self n))).
    + simpl. eexists. split; [done|]. rewrite Hdrop by (unfold in_u in *; lia). do 2 f_equal. lia.
    + unfold in_u in *. lia.
  - destruct b. by apply Hdrop.
Qed.

Lemma budget_accounting_witness :
  try_charge (mkBudget 100 60) 50 = (false, mkBudget 100 60) ∧
  charge_or_reclaim (Some (λ _ b, mkBudget (limit b) 0)) (mkBudget 100 60) 50 = (true, mkBudget 100 50) ∧
  drop_charged (mkBudget 100 60) 10 = Ok (mkBudget 100 50).
Proof.
  destruct (budget_accounting (mkBudget 100 60) 50 (Some (λ _ b, mkBudget (limit b) 0)) 10 "scan")
    as (H1 & _ & _ & _ & H5).
  - split; [range_lia|simpl; lia].
  - range_lia.
  - simpl. lia.
  - intros r n b' [= <-] [Hl Hc]. simpl. split; [reflexivity|lia].
  - split; [exact H1|]. split; [vm_compute; reflexivity|exact H5].
Defined.

(** ** The concurrent invariant *)

Definition sum_stakes (ts : list thread) : Z := foldr (λ t n, stake t + n) 0 ts.

Lemma sum_stakes_insert ts i t t' :
  ts !! i = Some t → sum_stakes (<[i := t']> ts) = sum_stakes ts - stake t + stake t'.
Proof.
  revert i. induction ts as [|u ts IH]; intros [|i] Hi; simplify_eq/=; [lia|]. rewrite (IH i Hi). lia.
Qed.

(** Each thread: nonnegative holdings, sane loop registers, and a release that
    never saw a total below what it still owes. *)
Definition thread_ok (t : thread) : Prop :=
  0 ≤ held t ∧
  match at_pc t with
  | Idle => True
  | ChargeLoop bytes cur => in_u 64 bytes ∧ 0 ≤ cur
  | ReleaseLoop bytes cur => 0 ≤ bytes ≤ cur
  | Panicked => False
  end.

Definition system_ok (lim : Z) (s : system) : Prop :=
  total s = sum_stakes (threads s) ∧ 0 ≤ total s ≤ lim ∧ Forall thread_ok (threads s).

Lemma stake_nonneg t : thread_ok t → 0 ≤ stake t.
Proof. destruct t as [[] h]; unfold thread_ok, stake, owed; simpl; lia. Qed.

Lemma stake_le_sum ts i t : Forall thread_ok ts → ts !! i = Some t → stake t ≤ sum_stakes ts.
Proof.
  intros Hf. revert i. induction Hf as [|u ts Hu Hf IH]; intros i Hi; [done|].
  pose proof (stake_nonneg u Hu). assert (0 ≤ sum_stakes ts).
  { clear -Hf. induction Hf as [|u ts Hu Hf IH]; simpl; [lia|]. pose proof (stake_nonneg u Hu). lia. }
  destruct i as [|i]; simplify_eq/=; [lia|]. specialize (IH i Hi). lia.
Qed.

Lemma tstep_ok lim c t c' t' :
  in_u 64 lim → tstep lim c t c' t' → thread_ok t → stake t ≤ c → 0 ≤ c ≤ lim →
  thread_ok t' ∧ c' = c - stake t + stake t' ∧ 0 ≤ c' ≤ lim.
Proof.
  intros Hl Hstep Ht Hst Hc. destruct Hstep; unfold thread_ok, stake, owed in *; simpl in *;
    try match goal with
    | H : charge_target _ _ _ = Some _ |- _ => apply charge_target_Some in H as [-> ?]; [|done]
    | H : release_target _ _ = Ok _ |- _ => apply release_target_Ok in H as [? ->]
    end; unfold in_u in *; try lia.
  unfold release_target in H. destruct (Z.leb_spec bytes cur); [done|]. lia.
Qed.

Lemma step_ok lim s s' : in_u 64 lim → step lim s s' → system_ok lim s → system_ok lim s'.
Proof.
  intros Hl [i c t ts c' t' Hi Ht] (Hsum & Hc & Hf). simpl in *.
  destruct (tstep_ok lim c t c' t' Hl Ht) as (H1 & H2 & H3); [|by rewrite Hsum; eapply stake_le_sum|done|].
  { by eapply Forall_lookup_1. }
  split_and!; simpl; [|lia|lia|by apply Forall_insert]. rewrite (sum_stakes_insert _ _ _ _ Hi). lia.
Qed.

Lemma initial_ok lim n : in_u 64 lim → system_ok lim (initial n).
Proof.
  intros Hl. split_and!; simpl; [|lia|unfold in_u in Hl; lia|].
  - induction n as [|n IH]; [done|]. simpl in *. unfold stake, owed in *. simpl. lia.
  - apply Forall_replicate. done.
Qed.

(** C38: under any interleaving of any number of threads charging and releasing
    through the compare-and-swap loops, spurious failures included, the charged
    total always equals the bytes held plus the bytes of releases in flight,
    never exceeds the limit, and the release assertion never fires. *)
Theorem budget_concurrent_safe lim n s :
  in_u 64 lim → rtc (step lim) (initial n) s →
  total s = sum_stakes (threads s) ∧ 0 ≤ total s ≤ lim ∧
  Forall (λ t, 0 ≤ held t ∧ at_pc t ≠ Panicked) (threads s).
Proof.
  intros Hl Hr. assert (system_ok lim s) as (H1 & H2 & H3).
  { revert Hr. apply (rtc_ind_r (system_ok lim)); [by apply initial_ok|]. intros s1 s2 _ Hs. by apply step_ok. }
  split; [done|]. split; [done|]. eapply Forall_impl; [exact H3|].
  intros t [Hh Hp]. split; [done|]. by destruct (at_pc t).
Qed.

Lemma budget_concurrent_safe_witness :
  ∃ s, rtc (step 100) (initial 2) s ∧ total s = 70 ∧ total s = sum_stakes (threads s) ∧ 0 ≤ total s ≤ 100.
Proof.
  exists (mkSystem 70 [mkThread Idle 70; mkThread (ChargeLoop 50 70) 0]).
  assert (rtc (step 100) (initial 2) (mkSystem 70 [mkThread Idle 70; mkThread (ChargeLoop 50 70) 0])) as Hr.
  { eapply rtc_l; [apply (step_thread 100 0 0 (mkThread Idle 0)); [reflexivity|apply (charge_load 100 0 0 70); range_lia]|].
    eapply rtc_l; [apply (step_thread 100 1 0 (mkThread Idle 0)); [reflexivity|apply (charge_load 100 0 0 50); range_lia]|].
    eapply rtc_l; [apply (step_thread 100 0 0 (mkThread (ChargeLoop 70 0) 0)); [reflexivity|apply (charge_cas_ok 100 0 0 70 70); reflexivity]|].
    eapply rtc_l; [apply (step_thread 100 1 70 (mkThread (ChargeLoop 50 0) 0)); [reflexivity|apply (charge_cas_failed 100 70 0 50 0 50); reflexivity]|].
    apply rtc_refl. }
  destruct (budget_concurrent_safe 100 2 _ ltac:(range_lia) Hr) as (H1 & H2 & _).
  split; [exact Hr|]. split; [reflexivity|]. split; [exact H1|exact H2].
Defined.
