(* ===== verification/Schema.v ===== *)
(** Table schemas and identifier matching: [devondb-types/src/schema.rs].
    Names are their UTF-8 bytes. *)

From S2P Require Import Prelude Bytes Decimal Types.

(** ** Identifiers *)

(** [u8::is_ascii_uppercase], [str::to_ascii_lowercase]. *)
Definition is_ascii_uppercase (b : Z) : bool := (65 <=? b) && (b <=? 90).
Definition to_ascii_lowercase (name : list Z) : list Z :=
  (λ b, if is_ascii_uppercase b then b + 32 else b) <$> name.

Definition fold (name : list Z) : list Z :=
  if existsb is_ascii_uppercase name then to_ascii_lowercase name else name.

Definition suggestion_budget (folded_input_len : nat) : nat :=
  if (folded_input_len <=? 4)%nat then 1 else if (folded_input_len <=? 8)%nat then 2 else 3.

(** One cell of the table: [current[column + 1] = ...]. *)
Definition lev_cell (previous : list nat) (a_byte : Z) (current : list nat) (cb : nat * Z) : outcome (list nat) :=
  let '(column, b_byte) := cb in
  let! diagonal := index previous column in
  let substitution := (diagonal + if (a_byte =? b_byte)%Z then 0 else 1)%nat in
  let! above := index previous (column + 1) in
  let! left_ := index current column in
  let! _ := index current (column + 1) in
  Ok (<[(column + 1)%nat := ((substitution `min` (above + 1)) `min` (left_ + 1))%nat]> current).

(** One row, then [mem::swap]. *)
Definition lev_row (b : list Z) (s : list nat * list nat) (ra : nat * Z) : outcome (list nat * list nat) :=
  let '(previous, current) := s in
  let '(row, a_byte) := ra in
  let! _ := index current 0 in
  let! current := for_each (enumerate b) (<[0%nat := (row + 1)%nat]> current) (lev_cell previous a_byte) in
  Ok (current, previous).

Definition levenshtein (a b : list Z) : outcome nat :=
  let! (previous, _) := for_each (enumerate a) (seq 0 (length b + 1), replicate (length b + 1) 0%nat) (lev_row b) in
  index previous (length b).

Definition suggest_step (folded_input : list Z) (budget : nat) (best : option (nat * list Z)) (candidate : list Z) :
    outcome (option (nat * list Z)) :=
  let! distance := levenshtein folded_input (fold candidate) in
  let closer := match best with None => true | Some (best_distance, _) => (distance <? best_distance)%nat end in
  Ok (if negb (distance =? 0)%nat && (distance <=? budget)%nat && closer then Some (distance, candidate) else best).

Definition did_you_mean (input : list Z) (candidates : list (list Z)) : outcome (option (list Z)) :=
  let folded_input := fold input in
  let budget := suggestion_budget (length folded_input) in
  let! best := for_each candidates None (suggest_step folded_input budget) in
  Ok (snd <$> best).

(** ** Schemas *)

Record Column := mkColumn { name : list Z; ty : LogicalType; primary_key : bool }.
Record NodeTableSchema := mkNodeSchema { node_name : list Z; node_columns : list Column }.
Record RelTableSchema := mkRelSchema {
  rel_name : list Z; rel_from : list Z; rel_to : list Z; rel_columns : list Column }.

#[export] Instance Column_eq_dec : EqDecision Column.
Proof. solve_decision. Defined.
#[export] Instance NodeTableSchema_eq_dec : EqDecision NodeTableSchema.
Proof. solve_decision. Defined.
#[export] Instance RelTableSchema_eq_dec : EqDecision RelTableSchema.
Proof. solve_decision. Defined.

(** [kind]: the literal strings ["node"] and ["relationship"]. *)
Inductive table_kind := NodeKind | RelKind.
Definition is_rel (kind : table_kind) : bool := match kind with RelKind => true | NodeKind => false end.

Definition validate_table_name (name : list Z) : outcome () :=
  if bool_decide (name = []) then Err (InvalidArgument "{kind} table has an empty table name") else Ok ().

Definition validate_endpoint_name (name : list Z) : outcome () :=
  if bool_decide (name = [])
  then Err (InvalidArgument "relationship table `{rel_name}` has an empty {endpoint} node-table name") else Ok ().

Definition validate_decimal_column (column : Column) : outcome () :=
  match ty column with
  | TDecimal precision scale =>
      if negb ((1 <=? precision) && (precision <=? Decimal.MAX_PRECISION))
      then Err (InvalidArgument "column `{}` in {kind} table `{table_name}` has Decimal precision {precision}; precision must be between 1 and {MAX_PRECISION}") else
      if precision <? scale
      then Err (InvalidArgument "column `{}` in {kind} table `{table_name}` has Decimal scale {scale}; scale must not exceed precision {precision}") else
      Ok ()
  | _ => Ok ()
  end.

Definition is_geo (t : LogicalType) : bool := match t with TGeoPoint => true | _ => false end.
Definition is_scalar_v2 (t : LogicalType) : bool :=
  match t with TTimestamp | TBytes | TDecimal _ _ | TJson => true | _ => false end.

(** One iteration of [validate_columns]; the state is the set of folded names. *)
Definition validate_column (kind : table_kind) (names : list (list Z)) (column : Column) : outcome (list (list Z)) :=
  if bool_decide (name column = [])
  then Err (InvalidArgument "column at index {index} in {kind} table `{table_name}` has an empty name") else
  if bool_decide (fold (name column) ∈ names)
  then Err (InvalidArgument "column `{}` is duplicated in {kind} table `{table_name}`") else
  let! _ := validate_decimal_column column in
  if is_rel kind && is_geo (ty column)
  then Err (InvalidArgument "column `{}` in {kind} table `{table_name}`: GeoPoint relationship properties are not supported") else
  if is_rel kind && is_scalar_v2 (ty column)
  then Err (InvalidArgument "column `{}` in {kind} table `{table_name}`: {} relationship properties are not supported") else
  Ok (fold (name column) :: names).

Definition validate_columns (kind : table_kind) (columns : list Column) : outcome () :=
  let! _ := for_each columns [] (validate_column kind) in Ok ().

Definition validate_node_primary_key (columns : list Column) : outcome () :=
  let primary_keys := filter (λ c, primary_key c = true) columns in
  if negb (length primary_keys =? 1)%nat
  then Err (InvalidArgument "node table `{table_name}` must have exactly one primary key column; found {names:?}") else
  let! pk := index primary_keys 0 in
  if negb (match ty pk with TInt64 | TString => true | _ => false end)
  then Err (InvalidArgument "primary key column `{}` in node table `{table_name}` has type {}; v0 requires Int64 or String")
  else Ok ().

Definition validate_rel_primary_keys (columns : list Column) : outcome () :=
  if existsb primary_key columns
  then Err (InvalidArgument "column `{}` in relationship table `{table_name}` cannot be a primary key") else Ok ().

Definition new_node (name : list Z) (columns : list Column) : outcome NodeTableSchema :=
  let! _ := validate_table_name name in
  let! _ := validate_columns NodeKind columns in
  let! _ := validate_node_primary_key columns in
  Ok (mkNodeSchema name columns).

Definition new_rel (name from to : list Z) (columns : list Column) : outcome RelTableSchema :=
  let! _ := validate_table_name name in
  let! _ := validate_endpoint_name from in
  let! _ := validate_endpoint_name to in
  let! _ := validate_columns RelKind columns in
  let! _ := validate_rel_primary_keys columns in
  Ok (mkRelSchema name from to columns).

Definition column_index (columns : list Column) (wanted : list Z) : option nat :=
  let folded := fold wanted in
  fst <$> list_find (λ column, fold (name column) = folded) columns.

(** ** Folding *)

Lemma fold_spec s : fold s = to_ascii_lowercase s.
Proof.
  unfold fold. destruct (existsb is_ascii_uppercase s) eqn:E; [done|]. unfold to_ascii_lowercase.
  induction s as [|b s IH]; [done|]. simpl in E. apply orb_false_iff in E as [Eb E]. csimpl. rewrite Eb.
  f_equal. by apply IH.
Qed.

Lemma fold_idemp s : fold (fold s) = fold s.
Proof.
  rewrite !fold_spec. unfold to_ascii_lowercase. rewrite <- list_fmap_compose. apply list_fmap_ext.
  intros _ b _. simpl. unfold is_ascii_uppercase.
  destruct ((65 <=? b) && (b <=? 90)) eqn:E; [|by rewrite E]. reflect_bools.
  replace ((65 <=? b + 32) && (b + 32 <=? 90)) with false; [done|].
  symmetry. apply andb_false_iff. right. apply Z.leb_gt. lia.
Qed.

Lemma length_fold s : length (fold s) = length s.
Proof. rewrite fold_spec. apply length_fmap. Qed.

(** ** Edit distance *)

(** Edit scripts: keep, substitute, insert or delete a byte. *)
Inductive edits : list Z → list Z → nat → Prop :=
| edits_nil : edits [] [] 0
| edits_keep x a b n : edits a b n → edits (x :: a) (x :: b) n
| edits_subst x y a b n : edits a b n → edits (x :: a) (y :: b) (S n)
| edits_insert y a b n : edits a b n → edits a (y :: b) (S n)
| edits_delete x a b n : edits a b n → edits (x :: a) b (S n).

(** The textbook recursion. *)
Fixpoint dist (a : list Z) : list Z → nat :=
  fix dist_a (b : list Z) : nat :=
    match a, b with
    | [], b => length b
    | a, [] => length a
    | x :: a', y :: b' =>
        (((dist a' b' + if (x =? y)%Z then 0 else 1) `min` (dist a' b + 1)) `min` (dist_a b' + 1))%nat
    end.

Lemma dist_cons x a y b :
  dist (x :: a) (y :: b) =
    (((dist a b + if (x =? y)%Z then 0 else 1) `min` (dist a (y :: b) + 1)) `min` (dist (x :: a) b + 1))%nat.
Proof. reflexivity. Qed.

Lemma dist_nil_r a : dist a [] = length a.
Proof. by destruct a. Qed.
Lemma dist_nil_l b : dist [] b = length b.
Proof. by destruct b. Qed.

Lemma dist_edits a b : edits a b (dist a b).
Proof.
  revert b. induction a as [|x a IHa]; intros b.
  { rewrite dist_nil_l. induction b; simpl; by constructor. }
  induction b as [|y b IHb].
  { rewrite dist_nil_r. clear. assert (∀ l, edits l [] (length l)) as H by (induction l; simpl; by constructor). apply H. }
  rewrite dist_cons. match goal with |- edits _ _ (Nat.min (Nat.min ?p ?q) ?r) =>
    destruct (Nat.min_dec (Nat.min p q) r) as [-> | ->]; [destruct (Nat.min_dec p q) as [-> | ->]|] end.
  - destruct (Z.eqb_spec x y) as [-> |]; [rewrite Nat.add_0_r|rewrite Nat.add_1_r]; by constructor.
  - rewrite Nat.add_1_r. by constructor.
  - rewrite Nat.add_1_r. by constructor.
Qed.

Lemma dist_step_l x a b : (dist (x :: a) b ≤ S (dist a b))%nat.
Proof. destruct b as [|y b]; [by rewrite !dist_nil_r|]. rewrite dist_cons. lia. Qed.
Lemma dist_step_r y a b : (dist a (y :: b) ≤ S (dist a b))%nat.
Proof. destruct a as [|x a]; [by rewrite !dist_nil_l|]. rewrite dist_cons. lia. Qed.

Lemma edits_dist a b n : edits a b n → (dist a b ≤ n)%nat.
Proof.
  induction 1 as [|x a b n H IH|x y a b n H IH|y a b n H IH|x a b n H IH].
  - simpl. lia.
  - rewrite dist_cons, Z.eqb_refl. lia.
  - rewrite dist_cons. destruct (x =? y); lia.
  - pose proof (dist_step_r y a b). lia.
  - pose proof (dist_step_l x a b). lia.
Qed.

Lemma edits_app a b n a' b' m : edits a b n → edits a' b' m → edits (a ++ a') (b ++ b') (n + m).
Proof. induction 1; intros; simpl; [done|constructor; auto..]. Qed.

Lemma edits_rev a b n : edits a b n → edits (reverse a) (reverse b) n.
Proof.
  induction 1 as [|x a b n H IH|x y a b n H IH|y a b n H IH|x a b n H IH]; rewrite ?reverse_cons; [constructor|..].
  - rewrite <- (Nat.add_0_r n). apply edits_app; [done|]. repeat constructor.
  - rewrite <- Nat.add_1_r. apply edits_app; [done|]. repeat constructor.
  - rewrite <- Nat.add_1_r, <- (app_nil_r (reverse a)). apply edits_app; [done|]. repeat constructor.
  - rewrite <- Nat.add_1_r, <- (app_nil_r (reverse b)). apply edits_app; [done|]. repeat constructor.
Qed.

Lemma dist_reverse a b : dist (reverse a) (reverse b) = dist a b.
Proof.
  apply Nat.le_antisymm.
  - apply edits_dist, edits_rev, dist_edits.
  - apply edits_dist. rewrite <- (reverse_involutive a), <- (reverse_involutive b) at 1. apply edits_rev, dist_edits.
Qed.

Lemma dist_zero a b : dist a b = 0%nat ↔ a = b.
Proof.
  split.
  - intros H. pose proof (dist_edits a b) as He. rewrite H in He. clear H.
    remember 0%nat as n. induction He; try done. f_equal. auto.
  - intros ->. cut (dist b b ≤ 0)%nat; [lia|]. apply edits_dist. induction b; by constructor.
Qed.

(** The table the two-row loop fills: distances between prefixes. *)
Section Table.
Context (a b : list Z).

Definition D (i j : nat) : nat := dist (reverse (take i a)) (reverse (take j b)).
Definition table_row (i : nat) : list nat := D i <$> seq 0 (length b + 1).

Lemma D_0_l j : (j ≤ length b)%nat → D 0 j = j.
Proof. intros. unfold D. rewrite take_0, reverse_nil, dist_nil_l, length_reverse, length_take. lia. Qed.
Lemma D_0_r i : (i ≤ length a)%nat → D i 0 = i.
Proof. intros. unfold D. rewrite take_0, reverse_nil, dist_nil_r, length_reverse, length_take. lia. Qed.

Lemma D_S i j x y :
  a !! i = Some x → b !! j = Some y →
  D (S i) (S j) = (((D i j + if (x =? y)%Z then 0 else 1) `min` (D i (S j) + 1)) `min` (D (S i) j + 1))%nat.
Proof.
  intros Hx Hy. unfold D. rewrite (take_S_r _ _ _ Hx), (take_S_r _ _ _ Hy), !reverse_snoc. apply dist_cons.
Qed.

Lemma table_row_lookup i j : (j ≤ length b)%nat → table_row i !! j = Some (D i j).
Proof. intros. unfold table_row. by rewrite list_lookup_fmap, lookup_seq_lt by lia. Qed.

Lemma table_row_0 : table_row 0 = seq 0 (length b + 1).
Proof.
  unfold table_row. rewrite <- (list_fmap_id (seq 0 (length b + 1))) at 2. apply list_fmap_ext.
  intros i j [-> ?]%lookup_seq. apply D_0_l. simpl. lia.
Qed.

(** The cells of row [i + 1] up to the end of [prefix]. *)
Definition filled (i : nat) (prefix : list Z) (current : list nat) : Prop :=
  length current = (length b + 1)%nat ∧ ∀ j, (j ≤ length prefix)%nat → current !! j = Some (D (S i) j).

Lemma lev_cells i x rest prefix current :
  a !! i = Some x → b = prefix ++ rest → filled i prefix current →
  ∃ current', for_each (enumerate_from (length prefix) rest) current (lev_cell (table_row i) x) = Ok current' ∧
    filled i b current'.
Proof.
  intros Hx. revert prefix current. induction rest as [|y rest IH]; intros prefix current Hb Hf.
  { eexists. split; [done|]. by rewrite Hb, app_nil_r. }
  rewrite enumerate_from_cons. cbn [for_each]. destruct Hf as [Hl Hf].
  assert (length b = length prefix + S (length rest))%nat as Hlb by (rewrite Hb, length_app; done).
  assert (b !! length prefix = Some y) as Hy by (rewrite Hb, lookup_app_r, Nat.sub_diag by lia; done).
  destruct (lookup_lt_is_Some_2 current (length prefix + 1)) as [old Hold]; [lia|].
  unfold lev_cell at 1, index. rewrite !table_row_lookup, Hf by lia. cbn [expect bind].
  rewrite Hold. cbn [expect bind]. rewrite Nat.add_1_r in *. rewrite <- (D_S i (length prefix) x y Hx Hy).
  destruct (IH (prefix ++ [y]) (<[S (length prefix) := D (S i) (S (length prefix))]> current)) as (c' & Hc & Hfc).
  - by rewrite <- app_assoc.
  - split; [rewrite length_insert; lia|]. intros j. rewrite length_app. simpl. intros Hj.
    destruct (decide (j = S (length prefix))) as [-> |].
    + rewrite list_lookup_insert_eq by lia. done.
    + rewrite list_lookup_insert_ne by done. apply Hf. lia.
  - exists c'. rewrite length_app, Nat.add_1_r in Hc. done.
Qed.

Lemma filled_row i current : filled i b current → current = table_row (S i).
Proof.
  intros [Hl Hf]. apply (list_eq_same_length _ _ (length b + 1)); [|done|].
  { unfold table_row. by rewrite length_fmap, length_seq. }
  intros j x y Hj Hx Hy. rewrite Hf in Hx by lia. rewrite table_row_lookup in Hy by lia. congruence.
Qed.

Lemma lev_row_spec i x current :
  a !! i = Some x → length current = (length b + 1)%nat →
  lev_row b (table_row i, current) (i, x) = Ok (table_row (S i), table_row i).
Proof.
  intros Hx Hl. unfold lev_row. destruct (lookup_lt_is_Some_2 current 0) as [old Hold]; [lia|].
  unfold index at 1. rewrite Hold. cbn [expect bind].
  destruct (lev_cells i x b [] (<[0%nat := (i + 1)%nat]> current)) as (c' & Hc & Hf); [done..| |].
  - split; [by rewrite length_insert|]. intros j Hj. simpl in Hj. replace j with 0%nat by lia.
    rewrite list_lookup_insert_eq by lia. rewrite D_0_r; [f_equal; lia|]. apply lookup_lt_Some in Hx. lia.
  - unfold enumerate. cbn [length] in Hc. rewrite Hc. cbn [bind]. by rewrite (filled_row _ _ Hf).
Qed.

Lemma levenshtein_dist : levenshtein a b = Ok (dist a b).
Proof.
  unfold levenshtein. rewrite <- table_row_0.
  assert (∀ rest prefix current, a = prefix ++ rest → length current = (length b + 1)%nat →
    ∃ cur', for_each (enumerate_from (length prefix) rest) (table_row (length prefix), current) (lev_row b) =
      Ok (table_row (length a), cur')) as Hloop.
  { induction rest as [|x rest IH]; intros prefix current Ha Hl.
    { eexists. by rewrite Ha, app_nil_r. }
    rewrite enumerate_from_cons. cbn [for_each].
    rewrite lev_row_spec; [|rewrite Ha, lookup_app_r, Nat.sub_diag by lia; done|done]. cbn [bind].
    destruct (IH (prefix ++ [x]) (table_row (length prefix))) as (cur' & Hc).
    - by rewrite <- app_assoc.
    - unfold table_row. by rewrite length_fmap, length_seq.
    - exists cur'. rewrite length_app, Nat.add_1_r in Hc. done. }
  destruct (Hloop a [] (replicate (length b + 1) 0%nat)) as (cur' & Hc); [done|by rewrite length_replicate|].
  unfold enumerate. cbn [length] in Hc. rewrite Hc. cbn [bind]. unfold index.
  rewrite table_row_lookup by done. simpl. unfold D. by rewrite !firstn_all, dist_reverse.
Qed.
End Table.

(** The two-row [levenshtein] never indexes out of range and returns the
    edit distance: some script of keeps, substitutions, insertions and
    deletions has that cost, and none costs less; it is zero exactly on equal
    strings. *)
Theorem levenshtein_minimal a b :
  ∃ n, levenshtein a b = Ok n ∧ edits a b n ∧ (∀ m, edits a b m → (n ≤ m)%nat) ∧ (n = 0%nat ↔ a = b).
Proof.
  exists (dist a b). split; [apply levenshtein_dist|]. split; [apply dist_edits|]. split; [apply edits_dist|apply dist_zero].
Qed.

(** ** Suggestions *)

(** A candidate close enough to be suggested, and its distance. *)
Definition suggestible (input candidate : list Z) : Prop :=
  let d := dist (fold input) (fold candidate) in (0 < d ≤ suggestion_budget (length input))%nat.

#[export] Instance suggestible_dec input candidate : Decision (suggestible input candidate).
Proof. unfold suggestible. apply _. Defined.

(** The best candidate so far: nearest, earliest on ties. *)
Definition best_of (input : list Z) (seen : list (list Z)) (best : option (nat * list Z)) : Prop :=
  match best with
  | None => ∀ c, c ∈ seen → ¬ suggestible input c
  | Some (n, c) =>
      n = dist (fold input) (fold c) ∧ suggestible input c ∧
      ∃ pre post, seen = pre ++ c :: post ∧
        (∀ d, d ∈ pre → suggestible input d → (n < dist (fold input) (fold d))%nat) ∧
        (∀ d, d ∈ post → suggestible input d → (n ≤ dist (fold input) (fold d))%nat)
  end.

Lemma suggest_step_spec input seen best c :
  best_of input seen best →
  ∃ best', suggest_step (fold input) (suggestion_budget (length (fold input))) best c = Ok best' ∧
    best_of input (seen ++ [c]) best'.
Proof.
  intros Hb. unfold suggest_step. rewrite levenshtein_dist. cbn [bind]. eexists. split; [done|].
  rewrite length_fold. set (n := dist (fold input) (fold c)).
  assert (suggestible input c ↔ negb (n =? 0)%nat && (n <=? suggestion_budget (length input))%nat = true) as Hs.
  { unfold suggestible. fold n. rewrite andb_true_iff, negb_true_iff, Nat.eqb_neq, Nat.leb_le. lia. }
  destruct (negb (n =? 0)%nat && (n <=? suggestion_budget (length input))%nat); rewrite ?andb_true_l, ?andb_false_l; simpl.
  - destruct best as [[m c']|]; simpl in *.
    + destruct Hb as (-> & Hc' & pre & post & -> & Hpre & Hpost). destruct (Nat.ltb_spec n (dist (fold input) (fold c'))).
      * split_and!; [done|by apply Hs|]. exists (pre ++ c' :: post), []. split_and!; [done| |set_solver].
        intros d [Hd|[-> |Hd]%elem_of_cons]%elem_of_app Hsd; [specialize (Hpre d Hd Hsd)|done|specialize (Hpost d Hd Hsd)]; unfold n in *; lia.
      * split_and!; [done..|]. exists pre, (post ++ [c]). split_and!; [by rewrite <- app_assoc|done|].
        intros d [Hd| ->%list_elem_of_singleton]%elem_of_app Hsd; [by apply Hpost|done].
    + split_and!; [done|by apply Hs|]. exists seen, []. split_and!; [done| |set_solver].
      intros d Hd Hsd. by apply Hb in Hd.
  - assert (¬ suggestible input c) as Hns by (intros H%Hs; done). destruct best as [[m c']|]; simpl in *.
    + destruct Hb as (-> & Hc' & pre & post & -> & Hpre & Hpost). split_and!; [done..|].
      exists pre, (post ++ [c]). split_and!; [by rewrite <- app_assoc|done|].
      intros d [Hd| ->%list_elem_of_singleton]%elem_of_app Hsd; [by apply Hpost|done].
    + intros d [Hd| ->%list_elem_of_singleton]%elem_of_app; [by apply Hb|done].
Qed.

(** [did_you_mean] suggests the earliest of the nearest candidates that
    differ from the input and lie within its edit budget, and suggests nothing
    exactly when there is no such candidate. *)
Theorem did_you_mean_nearest input candidates :
  ∃ r, did_you_mean input candidates = Ok r ∧
    match r with
    | None => ∀ c, c ∈ candidates → ¬ suggestible input c
    | Some c =>
        suggestible input c ∧ ∃ pre post, candidates = pre ++ c :: post ∧
          (∀ d, d ∈ pre → suggestible input d → (dist (fold input) (fold c) < dist (fold input) (fold d))%nat) ∧
          (∀ d, d ∈ post → suggestible input d → (dist (fold input) (fold c) ≤ dist (fold input) (fold d))%nat)
    end.
Proof.
  unfold did_you_mean.
  assert (∀ rest seen best, best_of input seen best →
    ∃ best', for_each rest best (suggest_step (fold input) (suggestion_budget (length (fold input)))) = Ok best' ∧
      best_of input (seen ++ rest) best') as Hloop.
  { induction rest as [|c rest IH]; intros seen best Hb; [eexists; by rewrite app_nil_r|]. cbn [for_each].
    destruct (suggest_step_spec input seen best c Hb) as (b1 & -> & H1). cbn [bind].
    destruct (IH (seen ++ [c]) b1 H1) as (b2 & -> & H2). exists b2. by rewrite <- app_assoc in H2. }
  destruct (Hloop candidates [] None) as (best & -> & Hbest); [by intros c ?%elem_of_nil|].
  cbn [bind]. eexists. split; [done|]. rewrite app_nil_l in Hbest.
  destruct best as [[n c]|]; simpl in *; [|done]. destruct Hbest as (-> & Hc & Hex). done.
Qed.

(** ** Schema validation *)

(** What a column may be in a table of the kind. *)
Definition decimal_ok (t : LogicalType) : Prop :=
  match t with TDecimal precision scale => 1 ≤ precision ≤ 38 ∧ scale ≤ precision | _ => True end.

Definition column_ok (kind : table_kind) (c : Column) : Prop :=
  name c ≠ [] ∧ decimal_ok (ty c) ∧
  match kind with NodeKind => True | RelKind => is_geo (ty c) = false ∧ is_scalar_v2 (ty c) = false end.

Lemma validate_decimal_column_Ok c : validate_decimal_column c = Ok () ↔ decimal_ok (ty c).
Proof.
  unfold validate_decimal_column, decimal_ok, Decimal.MAX_PRECISION. destruct (ty c); try done.
  destruct ((1 <=? precision) && (precision <=? 38)) eqn:E; simpl.
  - reflect_bools. destruct (Z.ltb_spec precision scale); naive_solver lia.
  - apply andb_false_iff in E as [E|E]; reflect_bools; split; try done; lia.
Qed.

Lemma validate_column_Ok kind names c names' :
  validate_column kind names c = Ok names' ↔
  column_ok kind c ∧ fold (name c) ∉ names ∧ names' = fold (name c) :: names.
Proof.
  unfold validate_column, column_ok. pose proof (validate_decimal_column_Ok c) as Hd.
  case_bool_decide as E1; [naive_solver|]. case_bool_decide as E2; [naive_solver|].
  destruct (validate_decimal_column c) as [[]|e|]; simpl; [|naive_solver..].
  destruct kind; simpl; [naive_solver|].
  destruct (is_geo (ty c)), (is_scalar_v2 (ty c)); naive_solver.
Qed.

Lemma validate_columns_Ok kind columns :
  validate_columns kind columns = Ok () ↔
  Forall (column_ok kind) columns ∧ NoDup (fold ∘ name <$> columns).
Proof.
  unfold validate_columns.
  assert (∀ cs names s, for_each cs names (validate_column kind) = Ok s ↔
    Forall (column_ok kind) cs ∧ NoDup (fold ∘ name <$> cs) ∧
    (∀ n, n ∈ fold ∘ name <$> cs → n ∉ names) ∧ s = reverse (fold ∘ name <$> cs) ++ names) as H.
  { induction cs as [|c cs IH]; intros names s; cbn [for_each].
    { csimpl. split; [intros [= <-]; split_and!; [constructor|constructor|set_solver|done]|naive_solver]. }
    rewrite bind_Ok. csimpl. rewrite Forall_cons, NoDup_cons, reverse_cons, <- app_assoc. simpl. split.
    - intros (n1 & (Hc & Hn & ->)%validate_column_Ok & (H1 & H2 & H3 & ->)%IH). split_and!; try done.
      + intros Hin. by apply (H3 _ Hin), elem_of_cons; left.
      + intros n [->|Hin]%elem_of_cons; [done|]. intros Hn'. apply (H3 _ Hin). by right.
    - intros ([Hc Hcs] & [Hn1 Hnd] & Hdis & ->). eexists. split.
      + apply validate_column_Ok. split_and!; [done|apply Hdis; by left|done].
      + apply IH. split_and!; [done..| |done]. intros n Hin [->|Hn]%elem_of_cons; [done|].
        by apply (Hdis n); [right|]. }
  rewrite bind_Ok. split.
  - intros (s & (H1 & H2 & _)%H & _). done.
  - intros [H1 H2]. eexists. split; [|done]. apply H. split_and!; [done..| |done]. intros n _ ?%elem_of_nil. done.
Qed.

Lemma validate_node_primary_key_Ok columns :
  validate_node_primary_key columns = Ok () ↔
  ∃ pk, filter (λ c, primary_key c = true) columns = [pk] ∧ (ty pk = TInt64 ∨ ty pk = TString).
Proof.
  unfold validate_node_primary_key. destruct (filter _ columns) as [|pk [|pk' pks]]; simpl.
  - split; [done|]. by intros (? & ? & _).
  - destruct (ty pk) eqn:E; simpl; (split;
      [first [discriminate | intros _; exists pk; rewrite E; by auto]
      |first [by intros _ | intros (pk' & [= <-] & [H|H]); congruence]]).
  - split; [done|]. by intros (? & ? & _).
Qed.

Lemma existsb_primary_key columns :
  existsb primary_key columns = false ↔ Forall (λ c, primary_key c = false) columns.
Proof. induction columns as [|c cs IH]; simpl; [split; [constructor|done]|]. by rewrite orb_false_iff, IH, Forall_cons. Qed.

(** Node-table creation succeeds exactly on well-formed schemas: a
    non-empty name, named columns whose folded names are distinct, legal decimal
    declarations, and exactly one primary key, of type [Int64] or [String]; it
    never panics and keeps name and columns as given. *)
Theorem node_schema_validation n columns :
  new_node n columns ≠ Panic ∧
  ∀ schema, new_node n columns = Ok schema ↔
    schema = mkNodeSchema n columns ∧ n ≠ [] ∧
    Forall (column_ok NodeKind) columns ∧ NoDup (fold ∘ name <$> columns) ∧
    ∃ pk, filter (λ c, primary_key c = true) columns = [pk] ∧ (ty pk = TInt64 ∨ ty pk = TString).
Proof.
  pose proof (validate_columns_Ok NodeKind columns) as Hc. pose proof (validate_node_primary_key_Ok columns) as Hp.
  assert (validate_columns NodeKind columns ≠ Panic) as Hcp.
  { unfold validate_columns. intros [E|(? & _ & ?)]%bind_Panic; [|done]. revert E.
    apply (for_each_no_panic (λ _, True)); [done|]. intros c names _ _. split; [|done].
    unfold validate_column, validate_decimal_column. repeat case_match; done. }
  assert (validate_node_primary_key columns ≠ Panic) as Hpp.
  { unfold validate_node_primary_key. destruct (filter _ columns) as [|? []]; simpl; try done. by destruct (negb _). }
  unfold new_node, validate_table_name. case_bool_decide as En; simpl; [split; [done|]; naive_solver|].
  destruct (validate_columns NodeKind columns) as [[]|e|]; simpl; [|split; [done|]; naive_solver|done].
  destruct (validate_node_primary_key columns) as [[]|e|]; simpl; [|split; [done|]; naive_solver|done].
  split; [done|]. naive_solver.
Qed.

(** Relationship-table creation succeeds exactly on well-formed schemas:
    non-empty table and endpoint names, named columns with distinct folded names,
    no geo or scalar-v2 properties and no primary key. *)
Theorem rel_schema_validation n from to columns :
  new_rel n from to columns ≠ Panic ∧
  ∀ schema, new_rel n from to columns = Ok schema ↔
    schema = mkRelSchema n from to columns ∧ n ≠ [] ∧ from ≠ [] ∧ to ≠ [] ∧
    Forall (column_ok RelKind) columns ∧ NoDup (fold ∘ name <$> columns) ∧
    Forall (λ c, primary_key c = false) columns.
Proof.
  pose proof (validate_columns_Ok RelKind columns) as Hc. pose proof (existsb_primary_key columns) as Hp.
  assert (validate_columns RelKind columns ≠ Panic) as Hcp.
  { unfold validate_columns. intros [E|(? & _ & ?)]%bind_Panic; [|done]. revert E.
    apply (for_each_no_panic (λ _, True)); [done|]. intros c names _ _. split; [|done].
    unfold validate_column, validate_decimal_column. repeat case_match; done. }
  unfold new_rel, validate_table_name, validate_endpoint_name, validate_rel_primary_keys.
  case_bool_decide; simpl; [split; [done|]; naive_solver|]. case_bool_decide; simpl; [split; [done|]; naive_solver|].
  case_bool_decide; simpl; [split; [done|]; naive_solver|].
  destruct (validate_columns RelKind columns) as [[]|e|]; simpl; [|split; [done|]; naive_solver|done].
  destruct (existsb primary_key columns); simpl; (split; [done|]); naive_solver.
Qed.

(** In a validated schema column lookup ignores ASCII case and is
    unambiguous: a column is found at exactly its own position by every spelling
    that folds to its name. *)
Lemma column_index_unique n columns schema i c wanted :
  new_node n columns = Ok schema → columns !! i = Some c →
  fold wanted = fold (name c) ↔ column_index (node_columns schema) wanted = Some i.
Proof.
  intros Hn Hi.
  assert (schema = mkNodeSchema n columns ∧ NoDup (fold ∘ name <$> columns)) as [-> Hnd].
  { unfold new_node in Hn. inv_ok Hn. subst. split; [done|]. destruct x0. by apply validate_columns_Ok in Hx0 as [_ ?]. }
  unfold column_index. simpl. split.
  - intros E. destruct (list_find _ columns) as [[j d]|] eqn:Ef; simpl.
    + apply list_find_Some in Ef as (Hj & Hd & _). f_equal.
      apply (NoDup_lookup _ j i (fold (name c)) Hnd); rewrite list_lookup_fmap, ?Hj, ?Hi; simpl; congruence.
    + apply list_find_None in Ef. rewrite Forall_lookup in Ef. by destruct (Ef i c Hi).
  - intros ([j d] & Ef & ->)%fmap_Some. apply list_find_Some in Ef as (Hj & Hd & _). simpl in Hi. congruence.
Qed.
