(* ===== verification/TxnLog.v ===== *)
(** Transactional framing of the WAL: [devondb-storage/src/txn_log.rs].

    The JSON layer ([serde_json] and the derived [Serialize]/[Deserialize] of
    the envelope structs) is the class [SerdeJson]: its operations are
    parameters, its laws are what derived serialization documents.  [Result<_,
    String>] of the order checks is an [InvalidArgument] outcome. *)

From S2P Require Import Prelude Bytes Decimal Types Schema.

(** ** Payloads *)

Inductive RelEndpoint := From | To.

Inductive DdlPayload :=
| CreateNodeTable (schema : NodeTableSchema)
| CreateRelTable (schema : RelTableSchema).

Inductive WalPayload :=
| NodeInsert (table : list Z) (row : list Value)
| RelInsert (rel : list Z) (from to : Z) (values : list Value)
| NodeUpdate (table : list Z) (row : list Value)
| RelDelete (rel : list Z) (endpoint : RelEndpoint) (offset : Z)
| NodeDelete (table : list Z) (key : Value)
| Ddl (ddl : DdlPayload)
| Commit (records : Z).

Record CommittedRecord := mkRecord { begin_lsn : Z; payload : WalPayload }.
Record CommittedGroup := mkGroup { commit_lsn : Z; records : list CommittedRecord }.

#[export] Instance RelEndpoint_eq_dec : EqDecision RelEndpoint.
Proof. solve_decision. Defined.
#[export] Instance DdlPayload_eq_dec : EqDecision DdlPayload.
Proof. solve_decision. Defined.
#[export] Instance WalPayload_eq_dec : EqDecision WalPayload.
Proof. solve_decision. Defined.

(** ** The JSON envelopes *)

(** The serde structs [NodeInsertPayload], [RelInsertPayload],
    [NodeUpdateEnvelope], [RelDeleteEnvelope], [NodeDeleteEnvelope],
    [DdlEnvelope] and [CommitEnvelope]. *)
Inductive Envelope :=
| NodeInsertPayload (table : list Z) (row : list Value)
| RelInsertPayload (rel : list Z) (from to : Z) (values : list Value)
| NodeUpdateEnvelope (table : list Z) (row : list Value)
| RelDeleteEnvelope (rel : list Z) (endpoint : RelEndpoint) (offset : Z)
| NodeDeleteEnvelope (table : list Z) (key : Value)
| DdlEnvelope (ddl : DdlPayload)
| CommitEnvelope (records : Z).

Inductive EnvelopeKind := KNodeInsert | KRelInsert | KNodeUpdate | KRelDelete | KNodeDelete | KDdl | KCommit.

Definition kind_of (e : Envelope) : EnvelopeKind :=
  match e with
  | NodeInsertPayload _ _ => KNodeInsert
  | RelInsertPayload _ _ _ _ => KRelInsert
  | NodeUpdateEnvelope _ _ => KNodeUpdate
  | RelDeleteEnvelope _ _ _ => KRelDelete
  | NodeDeleteEnvelope _ _ => KNodeDelete
  | DdlEnvelope _ => KDdl
  | CommitEnvelope _ => KCommit
  end.

(** The top-level field names of each struct. *)
Definition field_names (e : Envelope) : list string :=
  match e with
  | NodeInsertPayload _ _ => ["table"; "row"]
  | RelInsertPayload _ _ _ _ => ["rel"; "from"; "to"; "values"]
  | NodeUpdateEnvelope _ _ => ["update"]
  | RelDeleteEnvelope _ _ _ => ["rel_delete"]
  | NodeDeleteEnvelope _ _ => ["delete"]
  | DdlEnvelope _ => ["ddl"]
  | CommitEnvelope _ => ["commit"]
  end%string.

Definition envelope_values (e : Envelope) : list Value :=
  match e with
  | NodeInsertPayload _ row | NodeUpdateEnvelope _ row => row
  | RelInsertPayload _ _ _ values => values
  | NodeDeleteEnvelope _ key => [key]
  | _ => []
  end.

Class SerdeJson := {
  (** [serde_json::to_vec]. *)
  to_vec : Envelope → option (list Z);
  (** [serde_json::from_slice::<serde_json::Value>] and [as_object]: [None] for
      invalid JSON, [Some None] for a value that is not an object, else its keys. *)
  parse_object : list Z → option (option (list string));
  (** [serde_json::from_slice] at one of the envelope structs. *)
  from_slice : EnvelopeKind → list Z → option Envelope;
  (** Values whose JSON text reads back to the same value.  Not every value is
      one: serde_json without its [float_roundtrip] feature may read the digits
      of an [f64] back as a neighboring float, and writes NaN and the infinities
      as [null]. *)
  exact_value : Value → Prop;

  (** A struct is written as an object with its field names. *)
  to_vec_keys e bs : to_vec e = Some bs → parse_object bs = Some (Some (field_names e));
  (** Reading a struct back gives it, when its values are exact. *)
  from_slice_to_vec e bs :
    to_vec e = Some bs → Forall exact_value (envelope_values e) → from_slice (kind_of e) bs = Some e;
  (** Deserialization gives the requested struct. *)
  from_slice_kind k bs e : from_slice k bs = Some e → kind_of e = k;
}.

(** ** Order of records in a transaction *)

Record order_state := mkOrder {
  phase : Z;
  last_node_table : option (list Z);
  last_rel_table : option (list Z);
  last_rel_delete_table : option (list Z);
  rel_delete_claims : list (list Z * RelEndpoint * Z);
}.

Definition order_start : order_state := mkOrder 0 None None None [].

Definition advance_phase (current next : Z) : outcome Z :=
  if next <? current
  then Err (InvalidArgument "{kind} appears after a later record kind; expected DDL, then node inserts, then relationship inserts, then node updates, then relationship endpoint deletes, then node deletes")
  else Ok next.

Definition require_lexicographic_table (previous : option (list Z)) (table : list Z) : outcome (option (list Z)) :=
  if match previous with Some name => bool_decide (str_cmp table name = Lt) | None => false end
  then Err (InvalidArgument "{kind} table `{table}` is out of lexicographic order")
  else Ok (Some table).

Definition order_step (s : order_state) (record : WalPayload) : outcome order_state :=
  let '(mkOrder phase last_node last_rel last_del claims) := s in
  match record with
  | Ddl _ =>
      let! phase := advance_phase phase 0 in
      Ok (mkOrder phase last_node last_rel last_del claims)
  | NodeInsert table _ =>
      let! phase := advance_phase phase 1 in
      let! last_node := require_lexicographic_table last_node table in
      Ok (mkOrder phase last_node last_rel last_del claims)
  | RelInsert rel _ _ _ =>
      let! phase := advance_phase phase 2 in
      let! last_rel := require_lexicographic_table last_rel rel in
      Ok (mkOrder phase last_node last_rel last_del claims)
  | NodeUpdate _ _ =>
      let! phase := advance_phase phase 3 in
      Ok (mkOrder phase last_node last_rel last_del claims)
  | RelDelete rel endpoint offset =>
      let! phase := advance_phase phase 4 in
      let! last_del := require_lexicographic_table last_del rel in
      if bool_decide ((rel, endpoint, offset) ∈ claims)
      then Err (InvalidArgument "duplicate relationship endpoint delete claim for `{rel}` {endpoint:?} offset {offset}")
      else Ok (mkOrder phase last_node last_rel last_del (claims ++ [(rel, endpoint, offset)]))
  | NodeDelete _ _ =>
      let! phase := advance_phase phase 5 in
      Ok (mkOrder phase last_node last_rel last_del claims)
  | Commit _ => Err (InvalidArgument "transaction records must not contain a commit payload")
  end.

Definition validate_record_order (records : list WalPayload) : outcome () :=
  let! _ := for_each records order_start order_step in Ok ().

(** ** Encoding and decoding payloads *)

Definition non_finite (v : Value) : bool :=
  match v with
  | Float64 bits => negb (is_finite64 bits)
  | Vector elements => existsb (λ element, negb (is_finite32 element)) elements
  | _ => false
  end.

Definition validate_finite_values (values : list Value) : outcome () :=
  if existsb non_finite values
  then Err (InvalidArgument "{table_kind} table `{table}` contains a non-finite {value_kind} value")
  else Ok ().

Definition validate_ddl_schema (ddl : DdlPayload) : outcome () :=
  map_err (λ _, Corrupt "DDL WAL payload has an invalid schema: {error}")
    (match ddl with
     | CreateNodeTable schema => let! _ := new_node (node_name schema) (node_columns schema) in Ok ()
     | CreateRelTable schema =>
         let! _ := new_rel (rel_name schema) (rel_from schema) (rel_to schema) (rel_columns schema) in Ok ()
     end).

Section Codec.
Context `{SJ : !SerdeJson}.

Definition encode_json (e : Envelope) : outcome (list Z) :=
  ok_or (to_vec e) (InvalidArgument "{kind} cannot be encoded: {error}").

Definition decode_json (k : EnvelopeKind) (payload : list Z) : outcome Envelope :=
  ok_or (from_slice k payload) (Corrupt "{kind} is malformed: {error}").

Definition encode_payload (payload : WalPayload) : outcome (list Z) :=
  match payload with
  | NodeInsert table row =>
      let! _ := validate_finite_values row in encode_json (NodeInsertPayload table row)
  | RelInsert rel from to values =>
      let! _ := validate_finite_values values in encode_json (RelInsertPayload rel from to values)
  | NodeUpdate table row =>
      let! _ := validate_finite_values row in encode_json (NodeUpdateEnvelope table row)
  | RelDelete rel endpoint offset => encode_json (RelDeleteEnvelope rel endpoint offset)
  | NodeDelete table key =>
      let! _ := validate_finite_values [key] in encode_json (NodeDeleteEnvelope table key)
  | Ddl ddl => encode_json (DdlEnvelope ddl)
  | Commit records =>
      if records =? 0 then Err (InvalidArgument "commit WAL payload must name at least one record")
      else encode_json (CommitEnvelope records)
  end.

(** [decode_node_insert], ..., [decode_commit]: a struct of the wrong kind
    cannot come out of a typed [decode_json]. *)
Definition decode_node_insert (payload : list Z) : outcome WalPayload :=
  let! record := decode_json KNodeInsert payload in
  match record with NodeInsertPayload table row => Ok (NodeInsert table row) | _ => Panic end.

Definition decode_rel_insert (payload : list Z) : outcome WalPayload :=
  let! record := decode_json KRelInsert payload in
  match record with RelInsertPayload rel from to values => Ok (RelInsert rel from to values) | _ => Panic end.

Definition decode_node_update (payload : list Z) : outcome WalPayload :=
  let! envelope := decode_json KNodeUpdate payload in
  match envelope with NodeUpdateEnvelope table row => Ok (NodeUpdate table row) | _ => Panic end.

Definition decode_rel_delete (payload : list Z) : outcome WalPayload :=
  let! envelope := decode_json KRelDelete payload in
  match envelope with RelDeleteEnvelope rel endpoint offset => Ok (RelDelete rel endpoint offset) | _ => Panic end.

Definition decode_node_delete (payload : list Z) : outcome WalPayload :=
  let! envelope := decode_json KNodeDelete payload in
  match envelope with NodeDeleteEnvelope table key => Ok (NodeDelete table key) | _ => Panic end.

Definition decode_ddl (payload : list Z) : outcome WalPayload :=
  let! envelope := decode_json KDdl payload in
  match envelope with
  | DdlEnvelope ddl => let! _ := validate_ddl_schema ddl in Ok (Ddl ddl)
  | _ => Panic
  end.

Definition decode_commit (payload : list Z) : outcome WalPayload :=
  let! envelope := decode_json KCommit payload in
  match envelope with
  | CommitEnvelope records =>
      if records =? 0 then Err (Corrupt "commit WAL payload must name at least one record")
      else Ok (Commit records)
  | _ => Panic
  end.

Definition discriminator_keys : list string :=
  ["commit"; "ddl"; "table"; "rel"; "update"; "rel_delete"; "delete"]%string.

Definition decode_payload (payload : list Z) : outcome WalPayload :=
  let! value := ok_or (parse_object payload) (Corrupt "WAL payload is not valid JSON: {error}") in
  let! object := ok_or value (Corrupt "WAL payload must be a JSON object") in
  let discriminators := filter (λ key, key ∈ object) discriminator_keys in
  if negb (length discriminators =? 1)%nat
  then Err (Corrupt "WAL payload must contain exactly one discriminator key (commit, ddl, table, rel, update, rel_delete, delete); found {discriminators:?}") else
  let! key := index discriminators 0 in
  if String.eqb key "commit" then decode_commit payload
  else if String.eqb key "ddl" then decode_ddl payload
  else if String.eqb key "table" then decode_node_insert payload
  else if String.eqb key "rel" then decode_rel_insert payload
  else if String.eqb key "update" then decode_node_update payload
  else if String.eqb key "rel_delete" then decode_rel_delete payload
  else if String.eqb key "delete" then decode_node_delete payload
  else Err (Corrupt "WAL payload discriminator is unknown").

(** ** Transactions *)

Definition encode_transaction (records : list WalPayload) : outcome (list (list Z)) :=
  if bool_decide (records = []) then Err (InvalidArgument "empty transactions do not write WAL records") else
  let! _ := validate_record_order records in
  let! record_count := ok_or (try_u 64 (zlen records))
    (InvalidArgument "transaction record count exceeds u64::MAX") in
  let! encoded := collect encode_payload records in
  let! commit := encode_payload (Commit record_count) in
  Ok (encoded ++ [commit]).

Definition ensure_ascending_commit_lsn (previous : option Z) (current : Z) : outcome () :=
  match previous with
  | Some previous =>
      if current <=? previous
      then Err (Corrupt "WAL commit LSNs must strictly ascend across groups: previous commit LSN {previous}, current commit LSN {current}")
      else Ok ()
  | None => Ok ()
  end.

Definition finish_group (groups : list CommittedGroup) (pending : list WalPayload)
    (commit_lsn expected_records checkpoint_lsn : Z) : outcome (list CommittedGroup) :=
  if commit_lsn <=? checkpoint_lsn then Ok groups else
  let! actual_records := ok_or (try_u 64 (zlen pending))
    (Corrupt "WAL group at LSN {commit_lsn} exceeds u64::MAX records") in
  if negb (expected_records =? actual_records)
  then Err (Corrupt "WAL commit at LSN {commit_lsn} declares {expected_records} records but the group contains {actual_records}") else
  let! _ := map_err (λ _, Corrupt "WAL group committed at LSN {commit_lsn}: {context}")
    (validate_record_order pending) in
  Ok (groups ++ [mkGroup commit_lsn (mkRecord commit_lsn <$> pending)]).

Definition error_at_lsn (error : DevonError) : DevonError :=
  match error with Corrupt _ => Corrupt "WAL payload at LSN {lsn}: {context}" | other => other end.

(** The loop state: pending records, groups, previous commit LSN. *)
Definition group_state : Type := list WalPayload * list CommittedGroup * option Z.

Definition group_step (checkpoint_lsn : Z) (s : group_state) (record : Z * list Z) : outcome group_state :=
  let '(pending, groups, previous) := s in
  let '(lsn, bytes) := record in
  let! p := map_err error_at_lsn (decode_payload bytes) in
  match p with
  | Commit records =>
      let! _ := ensure_ascending_commit_lsn previous lsn in
      let! groups := finish_group groups pending lsn records checkpoint_lsn in
      Ok ([], groups, Some lsn)
  | record => Ok (pending ++ [record], groups, previous)
  end.

Definition group_transactions (records : list (Z * list Z)) (checkpoint_lsn : Z) : outcome (list CommittedGroup) :=
  let! (_, groups, _) := for_each records ([], [], None) (group_step checkpoint_lsn) in Ok groups.
End Codec.

(** ** Payload round trip *)

Definition payload_values (p : WalPayload) : list Value :=
  match p with
  | NodeInsert _ row | NodeUpdate _ row => row
  | RelInsert _ _ _ values => values
  | NodeDelete _ key => [key]
  | _ => []
  end.

(** Schemas only exist validated. *)
Definition ddl_ok (p : WalPayload) : Prop :=
  match p with
  | Ddl (CreateNodeTable s) => new_node (node_name s) (node_columns s) = Ok s
  | Ddl (CreateRelTable s) => new_rel (rel_name s) (rel_from s) (rel_to s) (rel_columns s) = Ok s
  | _ => True
  end.

Definition is_commit (p : WalPayload) : bool := match p with Commit _ => true | _ => false end.

Section Payloads.
Context `{SJ : !SerdeJson}.

Definition payload_ok (p : WalPayload) : Prop := Forall exact_value (payload_values p) ∧ ddl_ok p.

(** The discriminator of an encoded envelope selects its decoder. *)
Lemma decode_payload_dispatch e bs :
  to_vec e = Some bs →
  decode_payload bs =
    match kind_of e with
    | KNodeInsert => decode_node_insert bs
    | KRelInsert => decode_rel_insert bs
    | KNodeUpdate => decode_node_update bs
    | KRelDelete => decode_rel_delete bs
    | KNodeDelete => decode_node_delete bs
    | KDdl => decode_ddl bs
    | KCommit => decode_commit bs
    end.
Proof. intros He. unfold decode_payload. rewrite (to_vec_keys _ _ He). by destruct e. Qed.

Lemma encode_json_Ok e bs : encode_json e = Ok bs ↔ to_vec e = Some bs.
Proof. unfold encode_json. apply ok_or_Ok. Qed.

Lemma payload_roundtrip p bs : encode_payload p = Ok bs → payload_ok p → decode_payload bs = Ok p.
Proof.
  intros He [Hex Hddl].
  assert (∀ e, to_vec e = Some bs → envelope_values e = payload_values p → decode_json (kind_of e) bs = Ok e) as Hread.
  { intros e Hto Ev. unfold decode_json. by rewrite (from_slice_to_vec e bs Hto) by (by rewrite Ev). }
  destruct p as [t row|rel from to vs|t row|rel ep off|t key|ddl|n]; simpl in He;
    try (apply bind_Ok in He as (? & _ & He)); try (destruct (n =? 0) eqn:En; [done|]);
    apply encode_json_Ok in He; rewrite (decode_payload_dispatch _ _ He); specialize (Hread _ He eq_refl);
    simpl in *; unfold decode_node_insert, decode_rel_insert, decode_node_update, decode_rel_delete,
      decode_node_delete, decode_ddl, decode_commit; rewrite Hread; cbn [bind]; try done; last by rewrite En.
  unfold validate_ddl_schema. by destruct ddl; rewrite Hddl.
Qed.

Lemma decode_payload_commit bs n : decode_payload bs = Ok (Commit n) → n ≠ 0.
Proof.
  unfold decode_payload. intros H. inv_ok H. destruct (_ =? _)%string in H.
  { unfold decode_commit in H. inv_ok H. destruct x2; try done. destruct (Z.eqb_spec records0 0); [done|]. congruence. }
  repeat match type of H with (if ?b then _ else _) = _ => destruct b end;
    unfold decode_node_insert, decode_rel_insert, decode_node_update, decode_rel_delete,
      decode_node_delete, decode_ddl in H; inv_ok H; try done; destruct x2; try done; inv_ok H; done.
Qed.

(** ** Grouping a written log *)

Lemma group_step_record checkpoint pending groups previous lsn bs p :
  decode_payload bs = Ok p → is_commit p = false →
  group_step checkpoint (pending, groups, previous) (lsn, bs) = Ok (pending ++ [p], groups, previous).
Proof. intros Hd Hc. unfold group_step. rewrite Hd. by destruct p. Qed.

Lemma group_records checkpoint groups previous lsns encoded ps pending :
  Forall2 (λ p bs, decode_payload bs = Ok p) ps encoded → Forall (λ p, is_commit p = false) ps →
  length lsns = length encoded →
  for_each (zip lsns encoded) (pending, groups, previous) (group_step checkpoint) =
    Ok (pending ++ ps, groups, previous).
Proof.
  intros Hd. revert lsns pending. induction Hd as [|p bs ps encoded Hp Hps IH]; intros [|lsn lsns] pending Hc Hl; try done.
  { simpl. by rewrite app_nil_r. }
  apply Forall_cons in Hc as [Hc Hcs]. cbn [zip zip_with for_each]. rewrite (group_step_record _ _ _ _ _ _ p) by done.
  cbn [bind]. rewrite IH by (done || simpl in Hl; lia). by rewrite <- app_assoc.
Qed.

(** A committed transaction of the log: the LSNs of its records, the commit
    record's last. *)
Record logged := mkLogged { lsns : list Z; commit_at : Z; txn : list WalPayload }.

Definition logged_bytes (l : logged) (encoded : list (list Z)) : list (Z * list Z) :=
  zip (lsns l ++ [commit_at l]) encoded.

Definition logged_group (l : logged) : CommittedGroup := mkGroup (commit_at l) (mkRecord (commit_at l) <$> txn l).

Definition logged_ok (l : logged) (encoded : list (list Z)) : Prop :=
  encode_transaction (txn l) = Ok encoded ∧ length (lsns l) = length (txn l) ∧ Forall payload_ok (txn l).

Lemma order_no_commit ps s s' : for_each ps s order_step = Ok s' → Forall (λ p, is_commit p = false) ps.
Proof.
  revert s. induction ps as [|p ps IH]; intros s; [constructor|]. cbn [for_each].
  intros (s1 & H1 & H2)%bind_Ok. constructor; [|by eapply IH]. destruct p; try done. by destruct s.
Qed.

Lemma encode_transaction_Ok ps encoded :
  encode_transaction ps = Ok encoded →
  ps ≠ [] ∧ validate_record_order ps = Ok () ∧ zlen ps < 2 ^ 64 ∧ Forall (λ p, is_commit p = false) ps ∧
  ∃ body commit, encoded = body ++ [commit] ∧ Forall2 (λ p bs, encode_payload p = Ok bs) ps body ∧
    encode_payload (Commit (zlen ps)) = Ok commit.
Proof.
  intros H. unfold encode_transaction in H. case_bool_decide as E; [done|]. inv_ok H.
  apply ok_or_Ok, try_u_Some in Hx0 as [-> Hu]. apply collect_Ok in Hx1. destruct x.
  split_and!; [done..|by destruct Hu| |].
  - unfold validate_record_order in Hx. inv_ok Hx. by eapply order_no_commit.
  - exists x1, x2. by rewrite <- H.
Qed.

Lemma group_logged checkpoint groups previous l encoded :
  logged_ok l encoded → (∀ prev, previous = Some prev → prev < commit_at l) →
  for_each (logged_bytes l encoded) ([], groups, previous) (group_step checkpoint) =
    Ok ([], groups ++ (if checkpoint <? commit_at l then [logged_group l] else []), Some (commit_at l)).
Proof.
  intros (He & Hl & Hok) Hasc.
  destruct (encode_transaction_Ok _ _ He) as (Hne & Hord & Hlen & Hnc & body & commit & -> & Hbody & Hcommit).
  assert (Forall2 (λ p bs, decode_payload bs = Ok p) (txn l) body) as Hdec.
  { apply Forall2_same_length_lookup. split; [by eapply Forall2_length|]. intros i p bs Hp Hbs.
    rewrite Forall_lookup in Hok. eapply payload_roundtrip; [|by eapply Hok].
    by eapply (Forall2_lookup_lr _ _ _ _ _ _ Hbody). }
  assert (decode_payload commit = Ok (Commit (zlen (txn l)))) as Hdc.
  { eapply payload_roundtrip; [exact Hcommit|]. split; [constructor|done]. }
  pose proof (Forall2_length _ _ _ Hbody) as Hbl. unfold logged_bytes. rewrite zip_with_app by lia.
  rewrite for_each_app, (group_records _ _ _ _ _ (txn l)) by (done || lia). cbn [bind for_each zip_with].
  rewrite app_nil_l. cbn [for_each zip zip_with]. unfold group_step. rewrite Hdc. cbn [map_err bind].
  assert (ensure_ascending_commit_lsn previous (commit_at l) = Ok ()) as ->.
  { destruct previous as [prev|]; [|done]. simpl. rewrite (proj2 (Z.leb_gt _ _)); [done|]. by apply Hasc. }
  cbn [bind]. unfold finish_group. destruct (Z.leb_spec (commit_at l) checkpoint) as [Hle|Hgt].
  - cbn [bind]. rewrite (proj2 (Z.ltb_ge _ _)) by lia. by rewrite app_nil_r.
  - rewrite (proj2 (Z.ltb_lt _ _)) by lia. pose proof (zlen_nonneg (txn l)).
    rewrite try_u_in by (unfold in_u; lia). cbn [ok_or bind]. rewrite Z.eqb_refl, Hord. done.
Qed.
End Payloads.

(** ** Theorems *)

Section Recovery.
Context `{SJ : !SerdeJson}.

Lemma group_log checkpoint log groups previous :
  Forall (λ le : logged * list (list Z), logged_ok le.1 le.2) log →
  ascending Z.lt (commit_at ∘ fst <$> log) →
  (∀ prev l, previous = Some prev → head log = Some l → prev < commit_at l.1) →
  ∃ previous', for_each (concat ((λ le, logged_bytes le.1 le.2) <$> log)) ([], groups, previous) (group_step checkpoint) =
    Ok ([], groups ++ (logged_group <$> filter (λ l, checkpoint < commit_at l) (fst <$> log)), previous').
Proof.
  intros Hok. revert groups previous. induction Hok as [|[l e] log Hl Hlog IH]; intros groups previous Hasc Hprev.
  { eexists. simpl. by rewrite app_nil_r. }
  csimpl. rewrite for_each_app, (group_logged checkpoint groups previous l e Hl).
  2: { intros prev Hp. by apply (Hprev prev (l, e)). }
  cbn [bind]. destruct (IH (groups ++ (if checkpoint <? commit_at l then [logged_group l] else [])) (Some (commit_at l)))
    as (previous' & ->).
  - by eapply ascending_tail.
  - intros prev l' [= <-] Hl'. destruct log as [|l1 log]; [done|]. injection Hl' as <-.
    by apply ascending_cons in Hasc as [? _].
  - exists previous'. do 3 f_equal. rewrite <- app_assoc. f_equal. rewrite filter_cons.
    destruct (Z.ltb_spec checkpoint (commit_at l)); case_decide; try lia; done.
Qed.

(** C20: recovery of a log written by [encode_transaction]: grouping the
    records of any sequence of transactions with ascending commit LSNs,
    followed by the records of an unfinished transaction, gives exactly the
    committed transactions above the checkpoint, in order, every payload
    intact and stamped with its commit LSN; the unfinished tail is dropped.
    The values logged are ones whose JSON text reads back to the same value
    ([exact_value]; see [SerdeJson]). *)
Theorem txn_log_recovery checkpoint log tail_lsns tail_payloads tail :
  Forall (λ le : logged * list (list Z), logged_ok le.1 le.2) log →
  ascending Z.lt (commit_at ∘ fst <$> log) →
  Forall2 (λ p bs, encode_payload p = Ok bs ∧ payload_ok p ∧ is_commit p = false) tail_payloads tail →
  length tail_lsns = length tail →
  group_transactions (concat ((λ le, logged_bytes le.1 le.2) <$> log) ++ zip tail_lsns tail) checkpoint =
    Ok (logged_group <$> filter (λ l, checkpoint < commit_at l) (fst <$> log)).
Proof.
  intros Hlog Hasc Htail Hlen. unfold group_transactions.
  destruct (group_log checkpoint log [] None Hlog Hasc) as (previous & Hg); [done|].
  rewrite for_each_app, Hg. cbn [bind]. rewrite (group_records _ _ _ _ _ tail_payloads); [done| | |done].
  - eapply Forall2_impl; [exact Htail|]. intros p bs (He & Hok & _). by eapply payload_roundtrip.
  - apply Forall_forall. intros p [i Hp]%list_elem_of_lookup.
    by destruct (Forall2_lookup_l _ _ _ _ _ Htail Hp) as (bs & _ & _ & _ & ?).
Qed.

(** What a recovered group promises. *)
Definition group_sound (checkpoint : Z) (g : CommittedGroup) : Prop :=
  checkpoint < commit_lsn g ∧ records g ≠ [] ∧
  Forall (λ r, begin_lsn r = commit_lsn g ∧ is_commit (payload r) = false) (records g) ∧
  validate_record_order (payload <$> records g) = Ok ().

Definition grouping_inv (checkpoint : Z) (s : group_state) : Prop :=
  let '(pending, groups, previous) := s in
  Forall (λ p, is_commit p = false) pending ∧ Forall (group_sound checkpoint) groups ∧
  ascending Z.lt (commit_lsn <$> groups) ∧
  ∀ g, last (commit_lsn <$> groups) = Some g → ∃ prev, previous = Some prev ∧ g ≤ prev.

Lemma finish_group_Ok groups pending lsn n checkpoint groups' :
  finish_group groups pending lsn n checkpoint = Ok groups' →
  (lsn ≤ checkpoint ∧ groups' = groups) ∨
  (checkpoint < lsn ∧ n = zlen pending ∧ validate_record_order pending = Ok () ∧
   groups' = groups ++ [mkGroup lsn (mkRecord lsn <$> pending)]).
Proof.
  unfold finish_group. destruct (Z.leb_spec lsn checkpoint); [intros [= <-]; by left|]. intros Hf. right. inv_ok Hf.
  apply ok_or_Ok, try_u_Some in Hx as [-> _]. reflect_bools.
  destruct (validate_record_order pending) as [[]|e|]; try done.
Qed.

Lemma payload_mkRecord lsn (ps : list WalPayload) : payload <$> (mkRecord lsn <$> ps) = ps.
Proof. rewrite <- list_fmap_compose. apply list_fmap_id. Qed.

Lemma group_step_inv checkpoint s r s' :
  grouping_inv checkpoint s → group_step checkpoint s r = Ok s' → grouping_inv checkpoint s'.
Proof.
  destruct s as [[pending groups] previous], r as [lsn bs]. intros (Hp & Hg & Hasc & Hlast) Hs. unfold group_step in Hs.
  apply bind_Ok in Hs as (p & Hd & Hs).
  destruct (is_commit p) eqn:Ec.
  - destruct p as [| | | | | |n]; try done. apply bind_Ok in Hs as ([] & He & Hs). apply bind_Ok in Hs as (groups' & Hf & [= <-]).
    assert (n ≠ 0) as Hn.
    { apply (decode_payload_commit bs). destruct (decode_payload bs); simpl in Hd; congruence. }
    apply finish_group_Ok in Hf as [[Hle ->]|(Hgt & -> & Hord & ->)].
    + split_and!; [constructor|done..|]. intros g Hgl. exists lsn. split; [done|].
      destruct (Hlast g Hgl) as (prev & -> & Hle'). simpl in He. destruct (Z.leb_spec lsn prev); [done|]. lia.
    + split_and!; [constructor| | |].
      * apply Forall_app. split; [done|]. constructor; [|constructor]. split_and!; simpl; [done| | |by rewrite payload_mkRecord].
        -- intros Hnil%fmap_nil_inv. by rewrite Hnil in Hn.
        -- apply Forall_fmap. eapply Forall_impl; [exact Hp|]. done.
      * rewrite fmap_app. apply ascending_snoc. split; [done|]. intros g Hgl. simpl.
        destruct (Hlast g Hgl) as (prev & -> & Hle'). simpl in He. destruct (Z.leb_spec lsn prev); [done|]. lia.
      * intros g. rewrite fmap_app, list_fmap_singleton, last_snoc. intros [= <-]. exists lsn. split; [done|]. simpl. lia.
  - assert (s' = (pending ++ [p], groups, previous)) as -> by (by destruct p; simplify_eq/=).
    split_and!; [|done..]. apply Forall_app. split; [done|]. by constructor.
Qed.

(** On any log whatsoever, the groups recovery returns are sound: commit
    LSNs strictly ascend and lie above the checkpoint, every group is
    non-empty, its records carry its commit LSN, contain no commit record and
    stand in the canonical order. *)
Theorem group_transactions_sound log checkpoint groups :
  group_transactions log checkpoint = Ok groups →
  Forall (group_sound checkpoint) groups ∧ ascending Z.lt (commit_lsn <$> groups).
Proof.
  unfold group_transactions. intros ([[pending groups'] previous] & Hl & [= <-])%bind_Ok.
  apply (for_each_inv (grouping_inv checkpoint)) in Hl as (_ & Hg & Ha & _); [done| |].
  - split_and!; [constructor..|apply ascending_nil|done].
  - intros r s1 s2 _ H1 H2. by eapply group_step_inv.
Qed.
End Recovery.

(** ** The canonical record order *)

Definition phase_of (p : WalPayload) : Z :=
  match p with
  | Ddl _ => 0 | NodeInsert _ _ => 1 | RelInsert _ _ _ _ => 2 | NodeUpdate _ _ => 3
  | RelDelete _ _ _ => 4 | NodeDelete _ _ => 5 | Commit _ => 6
  end.
Definition node_insert_table (p : WalPayload) : option (list Z) :=
  match p with NodeInsert table _ => Some table | _ => None end.
Definition rel_insert_table (p : WalPayload) : option (list Z) :=
  match p with RelInsert rel _ _ _ => Some rel | _ => None end.
Definition rel_delete_table (p : WalPayload) : option (list Z) :=
  match p with RelDelete rel _ _ => Some rel | _ => None end.
Definition rel_delete_claim (p : WalPayload) : option (list Z * RelEndpoint * Z) :=
  match p with RelDelete rel endpoint offset => Some (rel, endpoint, offset) | _ => None end.

Definition name_le (a b : list Z) : Prop := str_cmp b a ≠ Lt.

(** The order as a declarative property of the whole transaction. *)
Definition canonical_order (ps : list WalPayload) : Prop :=
  Forall (λ p, is_commit p = false) ps ∧
  ascending Z.le (phase_of <$> ps) ∧
  ascending name_le (omap node_insert_table ps) ∧
  ascending name_le (omap rel_insert_table ps) ∧
  ascending name_le (omap rel_delete_table ps) ∧
  NoDup (omap rel_delete_claim ps).

Definition order_summary (ps : list WalPayload) : order_state :=
  mkOrder (default 0 (last (phase_of <$> ps))) (last (omap node_insert_table ps)) (last (omap rel_insert_table ps))
    (last (omap rel_delete_table ps)) (omap rel_delete_claim ps).

Lemma advance_phase_Ok current next r : advance_phase current next = Ok r ↔ current ≤ next ∧ r = next.
Proof. unfold advance_phase. destruct (Z.ltb_spec next current); naive_solver lia. Qed.

Lemma require_lexicographic_Ok previous table r :
  require_lexicographic_table previous table = Ok r ↔
  (∀ prev, previous = Some prev → name_le prev table) ∧ r = Some table.
Proof.
  unfold require_lexicographic_table, name_le. destruct previous as [prev|]; [|naive_solver].
  case_bool_decide; naive_solver.
Qed.

Lemma NoDup_snoc {A} (l : list A) x : NoDup (l ++ [x]) ↔ NoDup l ∧ x ∉ l.
Proof.
  rewrite NoDup_app. split; [intros (? & H & _); split; [done|]; intros Hx; by apply (H x Hx), list_elem_of_singleton|].
  intros [Hl Hx]. split_and!; [done| |apply NoDup_singleton]. intros y Hy ->%list_elem_of_singleton. done.
Qed.

Lemma phase_ascending ps p :
  ascending Z.le (phase_of <$> (ps ++ [p])) ↔
  ascending Z.le (phase_of <$> ps) ∧ default 0 (last (phase_of <$> ps)) ≤ phase_of p.
Proof.
  rewrite fmap_app, list_fmap_singleton, ascending_snoc. destruct (last (phase_of <$> ps)) eqn:E; simpl; [naive_solver|].
  assert (0 ≤ phase_of p) by (destruct p; simpl; lia). naive_solver.
Qed.

Lemma order_step_spec ps p s' :
  canonical_order ps →
  order_step (order_summary ps) p = Ok s' ↔ canonical_order (ps ++ [p]) ∧ s' = order_summary (ps ++ [p]).
Proof.
  intros (Hc & Hph & Hn & Hr & Hd & Hnd). unfold canonical_order, order_summary.
  rewrite phase_ascending, !omap_app, Forall_app, Forall_singleton, fmap_app, list_fmap_singleton, last_snoc.
  destruct p as [t row|rel from to vs|t row|rel ep off|t key|ddl|n]; csimpl; rewrite ?app_nil_r.
  - rewrite bind_Ok. setoid_rewrite bind_Ok. setoid_rewrite advance_phase_Ok. setoid_rewrite require_lexicographic_Ok.
    rewrite ascending_snoc, last_snoc. naive_solver.
  - rewrite bind_Ok. setoid_rewrite bind_Ok. setoid_rewrite advance_phase_Ok. setoid_rewrite require_lexicographic_Ok.
    rewrite ascending_snoc, last_snoc. naive_solver.
  - rewrite bind_Ok. setoid_rewrite advance_phase_Ok. naive_solver.
  - rewrite bind_Ok. setoid_rewrite bind_Ok. setoid_rewrite advance_phase_Ok. setoid_rewrite require_lexicographic_Ok.
    rewrite ascending_snoc, last_snoc, NoDup_snoc. case_bool_decide; naive_solver.
  - rewrite bind_Ok. setoid_rewrite advance_phase_Ok. naive_solver.
  - rewrite bind_Ok. setoid_rewrite advance_phase_Ok. naive_solver.
  - naive_solver.
Qed.

Lemma order_loop ps s' : for_each ps order_start order_step = Ok s' ↔ canonical_order ps ∧ s' = order_summary ps.
Proof.
  revert s'. induction ps as [|p ps IH] using rev_ind; intros s'.
  { simpl. split; [intros [= <-]|intros [_ ->]; done]. split; [|done].
    split_and!; [constructor|apply ascending_nil..|constructor]. }
  rewrite for_each_app, bind_Ok. cbn [for_each]. split.
  - intros (s1 & [Hc ->]%IH & (s2 & Hs2 & [= <-])%bind_Ok). by apply order_step_spec.
  - intros [Hc ->]. assert (canonical_order ps) as Hps.
    { destruct Hc as (H1 & H2 & H3 & H4 & H5 & H6). rewrite !omap_app in *. rewrite fmap_app in H2.
      apply Forall_app in H1 as [H1 _]. apply NoDup_app in H6 as (H6 & _).
      assert (∀ A (R : A → A → Prop) l k, ascending R (l ++ k) → ascending R l) as Hpre.
      { intros A R l k H i x y Hx Hy. apply (H i); by apply lookup_app_l_Some. }
      split_and!; eauto. }
    exists (order_summary ps). split; [by apply IH|]. apply bind_Ok. eexists. split; [|done]. by apply order_step_spec.
Qed.

(** The record-order check accepts exactly the transactions in canonical
    order: DDL, node inserts, relationship inserts, node updates, relationship
    deletes, node deletes; inserts and relationship deletes sorted by table;
    no delete claim twice; no commit record inside. *)
Theorem record_order_exact ps : validate_record_order ps = Ok () ↔ canonical_order ps.
Proof.
  unfold validate_record_order. rewrite bind_Ok. split.
  - intros (s & [Hc _]%order_loop & _). done.
  - intros Hc. exists (order_summary ps). split; [by apply order_loop|done].
Qed.

(** ** A codec for witnesses *)

(** A JSON layer that writes node inserts of empty rows and commits, tagged. *)
Definition tagged_to_vec (e : Envelope) : option (list Z) :=
  match e with
  | NodeInsertPayload table [] => Some (1 :: table)
  | CommitEnvelope n => Some [2; n]
  | _ => None
  end.
Definition tagged_parse (bs : list Z) : option (option (list string)) :=
  match bs with
  | 1 :: _ => Some (Some ["table"; "row"]%string)
  | 2 :: _ => Some (Some ["commit"]%string)
  | _ => None
  end.
Definition tagged_from_slice (k : EnvelopeKind) (bs : list Z) : option Envelope :=
  match k, bs with
  | KNodeInsert, 1 :: table => Some (NodeInsertPayload table [])
  | KCommit, [2; n] => Some (CommitEnvelope n)
  | _, _ => None
  end.

Definition tagged_json : SerdeJson.
Proof.
  refine {| to_vec := tagged_to_vec; parse_object := tagged_parse; from_slice := tagged_from_slice;
    exact_value := λ _, True |}.
  - intros [] bs; simpl; try done; [|by intros [= <-]]. destruct row; [by intros [= <-]|done].
  - intros [] bs; simpl; try done; [|by intros [= <-]]. destruct row; [by intros [= <-]|done].
  - intros [] bs e; simpl; try done; repeat case_match; try done; by intros [= <-].
Defined.

Lemma txn_log_recovery_witness :
  @group_transactions tagged_json
    ([(1, [1; 65]); (2, [1; 66]); (3, [2; 2])] ++ [(4, [1; 67])]) 0 =
  Ok [mkGroup 3 [mkRecord 3 (NodeInsert [65] []); mkRecord 3 (NodeInsert [66] [])]].
Proof.
  refine (@txn_log_recovery tagged_json 0
    [(mkLogged [1; 2] 3 [NodeInsert [65] []; NodeInsert [66] []], [[1; 65]; [1; 66]; [2; 2]])]
    [4] [NodeInsert [67] []] [[1; 67]] _ _ _ _).
  - constructor; [|constructor]. split; [reflexivity|]. split; [reflexivity|].
    repeat (constructor; [split; [constructor|exact I]|]). constructor.
  - intros [|i] x y; discriminate.
  - constructor; [|constructor]. split; [reflexivity|]. split; [split; [constructor|exact I]|reflexivity].
  - reflexivity.
Defined.

Lemma group_transactions_sound_witness :
  ∃ groups, @group_transactions tagged_json [(5, [1; 65]); (6, [2; 1])] 4 = Ok groups ∧
    Forall (group_sound 4) groups ∧ ascending Z.lt (commit_lsn <$> groups).
Proof.
  eexists. split; [vm_compute; reflexivity|].
  apply (@group_transactions_sound tagged_json [(5, [1; 65]); (6, [2; 1])] 4). vm_compute. reflexivity.
Defined.

(** A JSON layer for the witnesses of later files: integer rows, integer keys,
    relationship deletes, relationship tables without columns, and commits. *)
Definition ints_of (vs : list Value) : option (list Z) := mapM (λ v, match v with Int64 z => Some z | _ => None end) vs.

Definition name_then (tag : Z) (n rest : list Z) : list Z := tag :: zlen n :: n ++ rest.

Definition plain_to_vec (e : Envelope) : option (list Z) :=
  match e with
  | NodeInsertPayload table row => name_then 1 table <$> ints_of row
  | NodeUpdateEnvelope table row => name_then 3 table <$> ints_of row
  | NodeDeleteEnvelope table (Int64 key) => Some (name_then 4 table [key])
  | RelDeleteEnvelope rel endpoint offset => Some (name_then 5 rel [match endpoint with From => 0 | To => 1 end; offset])
  | DdlEnvelope (CreateRelTable (mkRelSchema n from to [])) => Some (name_then 6 n (name_then 0 from to))
  | CommitEnvelope n => Some [2; n]
  | _ => None
  end.

Definition plain_parse (bs : list Z) : option (option (list string)) :=
  match bs with
  | 1 :: _ => Some (Some ["table"; "row"]%string)
  | 2 :: _ => Some (Some ["commit"]%string)
  | 3 :: _ => Some (Some ["update"]%string)
  | 4 :: _ => Some (Some ["delete"]%string)
  | 5 :: _ => Some (Some ["rel_delete"]%string)
  | 6 :: _ => Some (Some ["ddl"]%string)
  | _ => None
  end.

Definition plain_from_slice (k : EnvelopeKind) (bs : list Z) : option Envelope :=
  match k, bs with
  | KNodeInsert, 1 :: n :: rest => Some (NodeInsertPayload (take (Z.to_nat n) rest) (Int64 <$> drop (Z.to_nat n) rest))
  | KNodeUpdate, 3 :: n :: rest => Some (NodeUpdateEnvelope (take (Z.to_nat n) rest) (Int64 <$> drop (Z.to_nat n) rest))
  | KNodeDelete, 4 :: n :: rest =>
      match drop (Z.to_nat n) rest with [key] => Some (NodeDeleteEnvelope (take (Z.to_nat n) rest) (Int64 key)) | _ => None end
  | KRelDelete, 5 :: n :: rest =>
      match drop (Z.to_nat n) rest with
      | [e; offset] => Some (RelDeleteEnvelope (take (Z.to_nat n) rest) (if e =? 0 then From else To) offset)
      | _ => None
      end
  | KDdl, 6 :: n :: rest =>
      match drop (Z.to_nat n) rest with
      | _ :: m :: rest' => Some (DdlEnvelope (CreateRelTable (mkRelSchema (take (Z.to_nat n) rest) (take (Z.to_nat m) rest') (drop (Z.to_nat m) rest') [])))
      | _ => None
      end
  | KCommit, [2; n] => Some (CommitEnvelope n)
  | _, _ => None
  end.

Lemma ints_of_Some vs zs : ints_of vs = Some zs → vs = Int64 <$> zs.
Proof.
  unfold ints_of. intros H%mapM_Some. induction H as [|v z vs zs Hv _ IH]; [done|]. csimpl. rewrite IH. by destruct v; simplify_eq.
Qed.

Lemma take_name (n rest : list Z) : take (Z.to_nat (zlen n)) (n ++ rest) = n ∧ drop (Z.to_nat (zlen n)) (n ++ rest) = rest.
Proof. unfold zlen. rewrite Nat2Z.id. split; [by apply take_app_length'|by apply drop_app_length']. Qed.

Definition plain_json : SerdeJson.
Proof.
  refine {| to_vec := plain_to_vec; parse_object := plain_parse; from_slice := plain_from_slice; exact_value := λ _, True |}.
  - intros [table row|rel from to vs|table row|rel ep off|table key|d|n] bs; simpl; try done.
    + by intros (zs & _ & ->)%fmap_Some.
    + by intros (zs & _ & ->)%fmap_Some.
    + by intros [= <-].
    + destruct key; try done. by intros [= <-].
    + destruct d as [|[n from to []]]; try done. by intros [= <-].
    + by intros [= <-].
  - intros [table row|rel from to vs|table row|rel ep off|table key|d|n] bs; simpl; try done; intros H _.
    + apply fmap_Some in H as (zs & ->%ints_of_Some & ->). cbn. by destruct (take_name table zs) as [-> ->].
    + apply fmap_Some in H as (zs & ->%ints_of_Some & ->). cbn. by destruct (take_name table zs) as [-> ->].
    + injection H as <-. cbn. destruct (take_name rel [match ep with From => 0 | To => 1 end; off]) as [-> ->]. by destruct ep.
    + destruct key; try done. injection H as <-. cbn. by destruct (take_name table [value]) as [-> ->].
    + destruct d as [|[n from to []]]; try done. injection H as <-. cbn. destruct (take_name n (name_then 0 from to)) as [-> ->]. cbn.
      by destruct (take_name from to) as [-> ->].
    + by injection H as <-.
  - intros [] bs e; simpl; try done; repeat case_match; try done; by intros [= <-].
Defined.
