(* ===== verification/Backend.v ===== *)
(** Byte backends under the pager: [devondb-storage/src/backend.rs].

    [PagerBackend] is the trait: the four operations over a backend state [B],
    with the contract its documentation states, in terms of the byte image the
    backend holds.  [MemoryBackend], which mirrors the local file exactly, is
    the instance whose code is modelled; the pager is proved against the
    class. *)

From S2P Require Import Prelude Bytes.

(** ** The image a write leaves *)

(** [src] over [img] at [off], zero-extended when it runs past the end. *)
Definition write_image (img : list Z) (off : nat) (src : list Z) : list Z :=
  let img := img ++ replicate (off + length src - length img) 0 in
  take off img ++ src ++ drop (off + length src) img.

(** ** The contract *)

Class PagerBackend (B : Type) := {
  image : B → list Z;
  (** No fault pending: every operation in range succeeds. *)
  healthy : B → Prop;

  len : B → outcome Z;
  read_exact_at : B → Z → nat → outcome (list Z);
  write_all_at : B → Z → list Z → outcome () * B;
  sync_all : B → outcome ();

  len_ok b : healthy b → len b = Ok (zlen (image b));
  (** Exact reads: all the bytes, or an error. *)
  read_ok b off n :
    healthy b → 0 ≤ off → (Z.to_nat off + n ≤ length (image b))%nat → off + Z.of_nat n < 2 ^ 64 →
    read_exact_at b off n = Ok (sub (Z.to_nat off) (Z.to_nat off + n) (image b));
  read_inv b off n bs :
    0 ≤ off → read_exact_at b off n = Ok bs →
    (Z.to_nat off + n ≤ length (image b))%nat ∧ bs = sub (Z.to_nat off) (Z.to_nat off + n) (image b);
  read_no_panic b off n : read_exact_at b off n ≠ Panic;
  write_ok b off src :
    healthy b → 0 ≤ off → off + zlen src < 2 ^ 64 →
    ∃ b', write_all_at b off src = (Ok (), b') ∧ healthy b' ∧ image b' = write_image (image b) (Z.to_nat off) src;
  sync_ok b : healthy b → sync_all b = Ok ();
}.

(** ** The memory backend *)

Record MemoryBackend := mkMemory { bytes : list Z; fail_with : option string }.

Definition memory_new : MemoryBackend := mkMemory [] None.

Definition truncate (self : MemoryBackend) (len : Z) : MemoryBackend :=
  mkMemory (take (Z.to_nat len) (bytes self)) (fail_with self).

Definition injected_fault (self : MemoryBackend) : outcome () :=
  match fail_with self with
  | Some _ => Err (Io "injected memory-backend fault")
  | None => Ok ()
  end.

Definition checked_range (offset : Z) (len : nat) : outcome (nat * nat) :=
  let! start := ok_or (try_u 64 offset) (Io "memory-backend offset overflows usize") in
  let! end_ := ok_or (try_u 64 (start + Z.of_nat len)) (Io "memory-backend range overflows usize") in
  Ok (Z.to_nat start, Z.to_nat end_).

Definition short_read : DevonError := Io "memory-backend short read".

Definition memory_len (self : MemoryBackend) : outcome Z :=
  let! _ := injected_fault self in Ok (zlen (bytes self)).

Definition memory_read_exact_at (self : MemoryBackend) (offset : Z) (n : nat) : outcome (list Z) :=
  let! _ := injected_fault self in
  let! (start, end_) := checked_range offset n in
  if (end_ <=? length (bytes self))%nat then Ok (sub start end_ (bytes self)) else Err short_read.

Definition memory_write_all_at (self : MemoryBackend) (offset : Z) (src : list Z) : outcome () * MemoryBackend :=
  let result :=
    let! _ := injected_fault self in
    let! (start, end_) := checked_range offset (length src) in
    let resized := bytes self ++ replicate (end_ - length (bytes self)) 0 in
    copy_at resized start end_ src in
  match result with
  | Ok written => (Ok (), mkMemory written (fail_with self))
  | Err e => (Err e, self)
  | Panic => (Panic, self)
  end.

Definition memory_sync_all (self : MemoryBackend) : outcome () := injected_fault self.

(** ** The contract holds *)

Lemma length_write_image img off src :
  length (write_image img off src) = Nat.max (length img) (off + length src).
Proof. unfold write_image. rewrite !length_app, length_take, length_drop, length_app, length_replicate. lia. Qed.

Lemma sub_write_image_eq img off src : sub off (off + length src) (write_image img off src) = src.
Proof. unfold write_image. apply sub_copy_eq; [rewrite length_app, length_replicate; lia|lia]. Qed.

Lemma sub_write_image_ne img off src c d :
  (d ≤ length img)%nat → (d ≤ off ∨ off + length src ≤ c)%nat →
  sub c d (write_image img off src) = sub c d img.
Proof.
  intros Hd Hcd. unfold write_image. transitivity (sub c d (img ++ replicate (off + length src - length img) 0)).
  - destruct Hcd; [apply sub_copy_before|apply sub_copy_after]; rewrite ?length_app, ?length_replicate; lia.
  - destruct (decide (c ≤ d)%nat); [by apply sub_app_l|]. unfold sub. replace (d - c)%nat with 0%nat by lia. done.
Qed.

Lemma write_image_bytes img off src : is_bytes img → is_bytes src → is_bytes (write_image img off src).
Proof.
  intros Hi Hs. unfold write_image, is_bytes. rewrite !Forall_app. split_and!; [apply Forall_take|done|apply Forall_drop];
    apply Forall_app; (split; [done|]); apply Forall_replicate; unfold is_byte; range_lia.
Qed.

#[export] Instance memory_backend : PagerBackend MemoryBackend.
Proof.
  refine {| image := bytes; healthy := λ b, fail_with b = None; len := memory_len;
    read_exact_at := memory_read_exact_at; write_all_at := memory_write_all_at; sync_all := memory_sync_all |}.
  - intros b Hb. unfold memory_len, injected_fault. by rewrite Hb.
  - intros b off n Hb Ho Hn Hoff. unfold memory_read_exact_at, injected_fault, checked_range. rewrite Hb. cbn [bind].
    rewrite !try_u_in by (unfold in_u; lia). cbn [ok_or bind]. rewrite try_u_in by (unfold in_u; lia). cbn [ok_or bind].
    replace (Z.to_nat (off + Z.of_nat n)) with (Z.to_nat off + n)%nat by lia.
    by rewrite (proj2 (Nat.leb_le _ _)).
  - intros b off n bs Ho Hr. unfold memory_read_exact_at, checked_range in Hr. inv_ok Hr. destruct x0 as [s e].
    inv_ok Hx0. apply ok_or_Ok, try_u_Some in Hx1 as [-> _]. apply ok_or_Ok, try_u_Some in Hx2 as [-> _].
    simplify_eq. destruct (Nat.leb_spec (Z.to_nat (off + Z.of_nat n)) (length (bytes b))) as [Hle|]; [|done].
    injection Hr as <-. replace (Z.to_nat (off + Z.of_nat n)) with (Z.to_nat off + n)%nat in * by lia. done.
  - intros b off n. unfold memory_read_exact_at, injected_fault, checked_range.
    destruct (fail_with b); [done|]. cbn [bind]. destruct (try_u 64 off); [|done]. cbn [ok_or bind].
    destruct (try_u 64 _); [|done]. cbn [ok_or bind]. by destruct (_ <=? _)%nat.
  - intros b off src Hb Ho Hoff. unfold memory_write_all_at, injected_fault, checked_range. rewrite Hb. cbn [bind].
    rewrite !try_u_in by (unfold in_u, zlen in *; lia). cbn [ok_or bind].
    rewrite try_u_in by (unfold in_u, zlen in *; lia). cbn [ok_or bind].
    replace (Z.to_nat (off + Z.of_nat (length src))) with (Z.to_nat off + length src)%nat by lia.
    rewrite copy_at_Ok by (rewrite ?length_app, ?length_replicate; lia). by eexists.
  - intros b Hb. unfold memory_sync_all, injected_fault. by rewrite Hb.
Defined.
