(* ===== verification/PageCache.v ===== *)
(** The budgeted page cache: [PageCache], [FrameTable] and [Frame] of
    [devondb-storage/src/pager.rs].

    A frame is pinned while a reader holds a clone of its [Arc]; who holds one
    is outside the cache, so the reference count test is the argument
    [pinned].  The frame mutex is held across each operation below. *)

From stdpp Require Import gmap.
From S2P Require Import Prelude Bytes Budget.

Definition FRAME_OVERHEAD : Z := 64.
Definition MIN_CACHE_FRAMES : nat := 8.

Record Frame := mkFrame { data : list Z; referenced : bool }.

Record FrameTable := mkTable { frames : gmap Z Frame; clock : list Z; hand : nat }.

Definition empty_table : FrameTable := mkTable ∅ [] 0.

(** ** The frame table *)

Definition get (self : FrameTable) (page_id : Z) : option (list Z) * FrameTable :=
  match frames self !! page_id with
  | Some frame =>
      (Some (data frame), mkTable (<[page_id := mkFrame (data frame) true]> (frames self)) (clock self) (hand self))
  | None => (None, self)
  end.

Definition insert (self : FrameTable) (page_id : Z) (page : list Z) : FrameTable :=
  mkTable (<[page_id := mkFrame page true]> (frames self)) (clock self ++ [page_id]) (hand self).

(** [self.clock] is the list after the removal. *)
Definition adjust_hand_after_remove (self : FrameTable) (position : nat) : FrameTable :=
  mkTable (frames self) (clock self)
    (if bool_decide (clock self = []) then 0%nat
     else if (position <? hand self)%nat then (hand self - 1)%nat
     else if (hand self =? length (clock self))%nat then 0%nat
     else hand self).

(** [self.clock.remove(position)] and the adjustment. *)
Definition remove_clock (self : FrameTable) (position : nat) : FrameTable :=
  adjust_hand_after_remove (mkTable (frames self) (delete position (clock self)) (hand self)) position.

Definition remove (self : FrameTable) (page_id : Z) : bool * FrameTable :=
  match frames self !! page_id with
  | None => (false, self)
  | Some _ =>
      let self := mkTable (delete page_id (frames self)) (clock self) (hand self) in
      match list_find (λ candidate, candidate = page_id) (clock self) with
      | Some (position, _) => (true, remove_clock self position)
      | None => (true, self)
      end
  end.

(** The remainder by an empty clock's length panics. *)
Definition advance_hand (self : FrameTable) : outcome FrameTable :=
  if bool_decide (clock self = []) then Panic
  else Ok (mkTable (frames self) (clock self) ((hand self + 1) mod length (clock self))%nat).

Section evict.
Context (pinned : Z → bool).

Fixpoint evict_loop (visits : nat) (self : FrameTable) : outcome (bool * FrameTable) :=
  match visits with
  | O => Ok (false, self)
  | S visits =>
      let! page_id := index (clock self) (hand self) in
      match frames self !! page_id with
      | None => evict_loop visits (remove_clock self (hand self))
      | Some frame =>
          if referenced frame then
            let! self := advance_hand (mkTable (<[page_id := mkFrame (data frame) false]> (frames self))
              (clock self) (hand self)) in
            evict_loop visits self
          else if negb (pinned page_id) then Ok (remove self page_id)
          else let! self := advance_hand self in evict_loop visits self
      end
  end.

Definition evict_one (self : FrameTable) : outcome (bool * FrameTable) :=
  if (size (frames self) <? MIN_CACHE_FRAMES)%nat then Ok (false, self)
  else evict_loop (length (clock self) * 2) self.
End evict.

(** ** The cache *)

Record PageCache := mkCache { table : FrameTable; budget : MemoryBudget; frame_charge : Z }.

Definition cache_new (page_size : Z) (budget : MemoryBudget) : PageCache :=
  mkCache empty_table budget (page_size + FRAME_OVERHEAD).

Section cache.
Context (pinned : Z → bool).

(** The eviction loops: every round evicts a frame, so one more round than
    there are frames is enough; running out is a panic. *)
Fixpoint reclaim_loop (rounds : nat) (self : PageCache) : outcome (bool * PageCache) :=
  match rounds with
  | O => Panic
  | S rounds =>
      let! (evicted, t) := evict_one pinned (table self) in
      if evicted then
        let! b := release (budget self) (frame_charge self) in
        match try_charge b (frame_charge self) with
        | (true, b) => Ok (true, mkCache t b (frame_charge self))
        | (false, b) => reclaim_loop rounds (mkCache t b (frame_charge self))
        end
      else Ok (false, mkCache t (budget self) (frame_charge self))
  end.

Definition charge_after_reclaim (self : PageCache) : outcome (bool * PageCache) :=
  match try_charge (budget self) (frame_charge self) with
  | (true, b) => Ok (true, mkCache (table self) b (frame_charge self))
  | (false, b) => reclaim_loop (S (size (frames (table self)))) (mkCache (table self) b (frame_charge self))
  end.

Definition invalidate (self : PageCache) (page_id : Z) : outcome PageCache :=
  match remove (table self) page_id with
  | (true, t) => let! b := release (budget self) (frame_charge self) in Ok (mkCache t b (frame_charge self))
  | (false, t) => Ok (mkCache t (budget self) (frame_charge self))
  end.

Fixpoint shed_loop (rounds : nat) (bytes released : Z) (any : bool) (self : PageCache) : outcome (bool * PageCache) :=
  match rounds with
  | O => Panic
  | S rounds =>
      if released <? bytes then
        let! (evicted, t) := evict_one pinned (table self) in
        if evicted then
          let! b := release (budget self) (frame_charge self) in
          shed_loop rounds bytes (Z.min (2 ^ 64 - 1) (released + frame_charge self)) true
            (mkCache t b (frame_charge self))
        else Ok (any, mkCache t (budget self) (frame_charge self))
      else Ok (any, self)
  end.

Definition shed (self : PageCache) (bytes : Z) : outcome (bool * PageCache) :=
  shed_loop (S (size (frames (table self)))) bytes 0 false self.

(** [Drop for PageCache]: the budget the cache leaves behind. *)
Definition cache_drop (self : PageCache) : outcome MemoryBudget :=
  release (budget self) (Z.min (2 ^ 64 - 1) (Z.of_nat (size (frames (table self))) * frame_charge self)).
End cache.

(** ** Invariant *)

(** The clock lists every frame once and the hand points into it. *)
Record table_ok (t : FrameTable) : Prop := {
  ok_nodup : NoDup (clock t);
  ok_clock p : p ∈ clock t ↔ is_Some (frames t !! p);
  ok_hand : (hand t < length (clock t))%nat ∨ clock t = [] ∧ hand t = 0%nat;
}.

(** The page bytes the frames hold, reference bits forgotten. *)
Definition contents (t : FrameTable) : gmap Z (list Z) := data <$> frames t.

Lemma size_clock t : table_ok t → size (frames t) = length (clock t).
Proof.
  intros [Hn Hc _]. rewrite <- size_dom.
  replace (dom (frames t)) with (list_to_set (clock t) : gset Z).
  - by apply size_list_to_set.
  - apply set_eq. intros p. rewrite elem_of_list_to_set, elem_of_dom. apply Hc.
Qed.

Lemma contents_lookup t p : contents t !! p = data <$> frames t !! p.
Proof. apply lookup_fmap. Qed.

Lemma table_ok_empty : table_ok empty_table.
Proof.
  constructor; simpl; [constructor | | by right].
  intros p. rewrite lookup_empty, is_Some_alt. split; [by intros ?%elem_of_nil|done].
Qed.

Lemma get_spec t p :
  table_ok t → (get t p).1 = contents t !! p ∧ table_ok (get t p).2 ∧ contents (get t p).2 = contents t.
Proof.
  intros [Hn Hc Hh]. unfold get. destruct (frames t !! p) as [f|] eqn:E; simpl.
  - split_and!; [by rewrite contents_lookup, E| |].
    + constructor; simpl; [done| |done]. intros q. rewrite Hc, lookup_insert_is_Some'.
      split; [by right|]. intros [<-|?]; [by rewrite E|done].
    + unfold contents. simpl. rewrite fmap_insert. apply insert_id. by rewrite lookup_fmap, E.
  - split_and!; [by rewrite contents_lookup, E|done|done].
Qed.

Lemma insert_spec t p page :
  table_ok t → contents t !! p = None → table_ok (insert t p page) ∧ contents (insert t p page) = <[p := page]> (contents t).
Proof.
  intros [Hn Hc Hh] E. rewrite contents_lookup, fmap_None in E. split.
  - constructor; simpl.
    + apply NoDup_app. split_and!; [done| |by apply NoDup_singleton].
      intros q Hq ->%list_elem_of_singleton. apply Hc in Hq as [? ?]. congruence.
    + intros q. rewrite elem_of_app, list_elem_of_singleton, Hc, lookup_insert_is_Some'. naive_solver.
    + left. rewrite length_app. simpl. destruct Hh as [?|[_ ?]]; lia.
  - unfold contents. simpl. by rewrite fmap_insert.
Qed.

Lemma list_find_eq (p : Z) l : p ∈ l → ∃ i, list_find (λ x, x = p) l = Some (i, p) ∧ l !! i = Some p.
Proof.
  intros Hp. destruct (list_find_elem_of (λ x, x = p) l p Hp eq_refl) as [[i q] E].
  pose proof E as (Hi & -> & _)%list_find_Some. by exists i.
Qed.

Lemma elem_of_delete_nodup (l : list Z) i p q :
  NoDup l → l !! i = Some p → q ∈ delete i l ↔ q ∈ l ∧ q ≠ p.
Proof.
  intros Hn Hi. rewrite (delete_Permutation l i p Hi) in Hn. rewrite (delete_Permutation l i p Hi) at 2.
  apply NoDup_cons in Hn as [Hp _]. rewrite elem_of_cons. naive_solver.
Qed.

Lemma remove_clock_hand t i :
  (hand t < length (clock t))%nat → (i < length (clock t))%nat →
  let t' := remove_clock t i in
  (hand t' < length (clock t'))%nat ∨ clock t' = [] ∧ hand t' = 0%nat.
Proof.
  intros Hh Hi t'. unfold t', remove_clock, adjust_hand_after_remove. simpl.
  pose proof (length_delete (clock t) i ltac:(by apply lookup_lt_is_Some)) as Hl.
  case_bool_decide as E; [by right|]. left. rewrite Hl.
  assert (length (clock t) - 1 ≠ 0)%nat by (rewrite <- Hl; by destruct (delete _ _)).
  destruct (Nat.ltb_spec i (hand t)); [lia|]. destruct (Nat.eqb_spec (hand t) (length (clock t) - 1)); lia.
Qed.

(** Removing a cached page drops exactly its frame. *)
Lemma remove_spec t p :
  table_ok t →
  (remove t p).1 = bool_decide (is_Some (contents t !! p)) ∧ table_ok (remove t p).2 ∧
  contents (remove t p).2 = delete p (contents t).
Proof.
  intros Hok. pose proof Hok as [Hn Hc Hh]. unfold remove. rewrite contents_lookup.
  destruct (frames t !! p) as [f|] eqn:E; simpl.
  - assert (p ∈ clock t) as Hp by (by rewrite Hc, E).
    destruct (list_find_eq p (clock t) Hp) as (i & -> & Hi). simpl.
    pose proof (lookup_lt_Some _ _ _ Hi). destruct Hh as [Hh|[Hz _]]; [|by rewrite Hz in Hp; apply elem_of_nil in Hp].
    split_and!; [done| |].
    + constructor; simpl.
      * rewrite (delete_Permutation _ _ _ Hi) in Hn. by apply NoDup_cons in Hn as [_ ?].
      * intros q. rewrite elem_of_delete_nodup, Hc, lookup_delete_is_Some by done. naive_solver.
      * by apply (remove_clock_hand (mkTable (delete p (frames t)) (clock t) (hand t))).
    + unfold contents. simpl. by rewrite fmap_delete.
  - split_and!; [done|done|].
    symmetry. apply delete_id. by rewrite contents_lookup, E.
Qed.

(** ** Eviction *)

Section evict_proof.
Context (pinned : Z → bool).

(** [k] steps after the hand stood at [h], the frames visited since have their
    reference bit cleared. *)
Definition swept (h k : nat) (t0 t : FrameTable) : Prop :=
  table_ok t ∧ contents t = contents t0 ∧ clock t = clock t0 ∧
  hand t = ((h + k) mod length (clock t0))%nat ∧
  ∀ j p f, (j < k)%nat → clock t0 !! ((h + j) mod length (clock t0))%nat = Some p →
    frames t !! p = Some f → referenced f = false.

Lemma mod_wrap h k n : (n ≠ 0)%nat → (n ≤ k)%nat → ((h + k) mod n = (h + (k - n)) mod n)%nat.
Proof.
  intros Hn Hk. replace (h + k)%nat with (h + (k - n) + 1 * n)%nat by lia. by rewrite Nat.Div0.mod_add.
Qed.

(** One visit that evicts nothing. *)
Lemma visit_step h k t0 t p f :
  swept h k t0 t → clock t !! hand t = Some p → frames t !! p = Some f →
  (referenced f = true ∨ pinned p = true) →
  ∃ t', swept h (S k) t0 t' ∧
    ∀ v, evict_loop pinned (S v) t = evict_loop pinned v t'.
Proof.
  intros (Hok & Hcon & Hclk & Hhand & Hsw) Hp Hf Hc.
  set (t' := mkTable (<[p := mkFrame (data f) false]> (frames t)) (clock t) ((hand t + 1) mod length (clock t))%nat).
  assert (clock t ≠ []) as Hne by (by intros E; rewrite E in Hp).
  assert (length (clock t0) ≠ 0)%nat as Hn0 by (rewrite <- Hclk; by destruct (clock t)).
  assert (∀ m, (∀ q g, m !! q = Some g → q ≠ p → frames t !! q = Some g) → (∃ g, m !! p = Some g ∧ referenced g = false) →
    (data <$> m = contents t) → 
    swept h (S k) t0 (mkTable m (clock t) ((hand t + 1) mod length (clock t))%nat)) as Hnext.
  { intros m Hm (g & Hg & Hgr) Hdata. split_and!; simpl; [|by rewrite <- Hcon, <- Hdata|done| |].
    - destruct Hok as [Hn Hc' Hh']. constructor; simpl; [done| |].
      + intros q. rewrite Hc'. transitivity (is_Some (contents t !! q)).
        { by rewrite contents_lookup, fmap_is_Some. } by rewrite <- Hdata, lookup_fmap, fmap_is_Some.
      + left. apply Nat.mod_upper_bound. by destruct (clock t).
    - rewrite Hhand, Hclk, Nat.Div0.add_mod_idemp_l. f_equal. lia.
    - intros j q g' Hj Hq Hg'. destruct (decide (q = p)) as [->|Hqp]; [congruence|].
      destruct (decide (j = k)) as [->|]; [|eapply (Hsw j); [lia|done|by apply Hm]].
      rewrite <- Hhand, <- Hclk in Hq. congruence. }
  assert (∀ t1, clock t1 = clock t → hand t1 = hand t → advance_hand t1 = 
    Ok (mkTable (frames t1) (clock t) ((hand t + 1) mod length (clock t))%nat)) as Hadv.
  { intros t1 Ec Eh. unfold advance_hand. by rewrite Ec, Eh, bool_decide_eq_false_2. }
  destruct (referenced f) eqn:Hr.
  - exists t'. split.
    + apply Hnext.
      * intros q g Hq Hqp. by rewrite lookup_insert_ne in Hq.
      * eexists. by rewrite lookup_insert_eq.
      * rewrite fmap_insert. apply insert_id. by rewrite contents_lookup, Hf.
    + intros v. cbn [evict_loop]. unfold index. rewrite Hp. cbn [expect bind]. rewrite Hf, Hr.
      rewrite Hadv by done. done.
  - destruct Hc as [|Hpin]; [done|]. eexists. split.
    + apply (Hnext (frames t)); [done|by exists f|done].
    + intros v. cbn [evict_loop]. unfold index. rewrite Hp. cbn [expect bind]. rewrite Hf, Hr, Hpin.
      cbn [negb]. rewrite Hadv by done. done.
Qed.

(** What an eviction attempt may do to the cached pages. *)
Definition evicted_from (c c' : gmap Z (list Z)) (r : bool) : Prop :=
  if r then ∃ p, is_Some (c !! p) ∧ pinned p = false ∧ c' = delete p c else c' = c.

Lemma evict_loop_spec h t0 (n := length (clock t0)) v : ∀ k t,
  (n ≠ 0)%nat → swept h k t0 t →
  ∃ r t', evict_loop pinned v t = Ok (r, t') ∧ table_ok t' ∧ evicted_from (contents t0) (contents t') r ∧
    (r = false → ∀ m p, (n ≤ m)%nat → (k ≤ m < k + v)%nat →
       clock t0 !! ((h + m) mod n)%nat = Some p → pinned p = true).
Proof.
  induction v as [|v IH]; intros k t Hn Hsw.
  { exists false, t. destruct Hsw as (? & ? & ?). split_and!; [done..|lia]. }
  pose proof Hsw as (Hok & Hcon & Hclk & Hhand & Href).
  assert (is_Some (clock t !! hand t)) as [p Hp].
  { apply lookup_lt_is_Some. rewrite Hclk, Hhand. by apply Nat.mod_upper_bound. }
  assert (is_Some (frames t !! p)) as [f Hf] by (apply Hok; by eapply list_elem_of_lookup_2).
  destruct (decide (referenced f = true ∨ pinned p = true)) as [Hc|Hc].
  - destruct (visit_step h k t0 t p f Hsw Hp Hf Hc) as (t' & Hsw' & Hloop). rewrite Hloop.
    destruct (IH (S k) t' Hn Hsw') as (r & t'' & Hr & Hok' & Hev & Hpin).
    exists r, t''. split_and!; [done..|]. intros -> m q Hm Hk Hq.
    destruct (decide (m = k)) as [->|]; [|apply (Hpin eq_refl m); (done || lia)].
    fold n in Hhand. rewrite <- Hhand, <- Hclk in Hq. assert (q = p) as -> by congruence.
    destruct Hc as [Hr1|]; [|done].
    rewrite (Href (k - n)%nat p f) in Hr1; [done|lia| |done].
    fold n. rewrite <- mod_wrap by done. by rewrite <- Hhand, <- Hclk.
  - apply Decidable.not_or in Hc as [Hrf Hpf]. apply not_true_is_false in Hrf, Hpf.
    exists true, (remove t p).2. destruct (remove_spec t p Hok) as (H1 & H2 & H3).
    assert (is_Some (contents t !! p)) as Hin by (by rewrite contents_lookup, Hf).
    split_and!; [|done| |done].
    + cbn [evict_loop]. unfold index. rewrite Hp. cbn [expect bind]. rewrite Hf, Hrf, Hpf. cbn [negb].
      rewrite bool_decide_eq_true_2 in H1 by done. destruct (remove t p); simpl in *. by subst.
    + exists p. rewrite <- Hcon. done.
Qed.

(** Two sweeps find a victim whenever there is one. *)
Lemma evict_one_spec t :
  table_ok t →
  ∃ r t', evict_one pinned t = Ok (r, t') ∧ table_ok t' ∧ evicted_from (contents t) (contents t') r ∧
    (r = true ↔ (MIN_CACHE_FRAMES ≤ size (frames t))%nat ∧ ∃ p, is_Some (contents t !! p) ∧ pinned p = false).
Proof.
  intros Hok. unfold evict_one, MIN_CACHE_FRAMES. destruct (Nat.ltb_spec (size (frames t)) 8) as [Hs|Hs].
  { exists false, t. split_and!; [done..|]. split; [done|lia]. }
  pose proof (size_clock t Hok) as Hsz. destruct Hok as [Hn Hc [Hh|[Hz _]]]; [|by rewrite Hsz, Hz in Hs; simpl in Hs; lia].
  destruct (evict_loop_spec (hand t) t (length (clock t) * 2) 0 t) as (r & t' & Hr & Hok' & Hev & Hpin).
  - lia.
  - split_and!; [by constructor; auto|done..| |lia]. rewrite Nat.add_0_r. symmetry. by apply Nat.mod_small.
  - exists r, t'. split_and!; [done..|]. destruct r.
    + split; [|done]. intros _. split; [done|]. destruct Hev as (p & ? & ? & _). by exists p.
    + split; [done|]. intros (_ & p & Hp & Hpf). exfalso.
      rewrite contents_lookup, fmap_is_Some in Hp. apply Hc, list_elem_of_lookup_1 in Hp as [i Hi].
      pose proof (lookup_lt_Some _ _ _ Hi).
      assert ((hand t + (length (clock t) + (length (clock t) - hand t + i) mod length (clock t))) mod length (clock t) = i)%nat
        as Hpos.
      { rewrite Nat.add_assoc, Nat.Div0.add_mod_idemp_r.
        replace (hand t + length (clock t) + (length (clock t) - hand t + i))%nat with (i + 2 * length (clock t))%nat by lia.
        rewrite Nat.Div0.mod_add. by apply Nat.mod_small. }
      rewrite <- Hpos in Hi. pose proof (Nat.mod_upper_bound (length (clock t) - hand t + i) (length (clock t)) ltac:(lia)).
      assert (pinned p = true) by (eapply Hpin; [done| | |exact Hi]; lia). congruence.
Qed.
End evict_proof.

(** ** Budget accounting *)

(** The cache holds one charge per frame; [others] is what the rest of the
    database has charged to the same budget. *)
Record cache_ok (c : PageCache) (others : Z) : Prop := {
  ok_table : table_ok (table c);
  ok_budget : budget_wf (budget c);
  ok_charge : 0 < frame_charge c < 2 ^ 64;
  ok_others : 0 ≤ others;
  ok_charged : charged (budget c) = others + Z.of_nat (size (frames (table c))) * frame_charge c;
}.

Definition cached (c : PageCache) : gmap Z (list Z) := contents (table c).

Lemma size_contents t : size (frames t) = size (contents t).
Proof. unfold contents. by rewrite map_size_fmap. Qed.

Lemma release_frame c t others k :
  cache_ok c others → table_ok t → (size (frames (table c)) = size (frames t) + k)%nat →
  ∃ b, release (budget c) (Z.of_nat k * frame_charge c) = Ok b ∧ limit b = limit (budget c) ∧
    cache_ok (mkCache t b (frame_charge c)) others.
Proof.
  intros [Ht [Hl Hb] Hc Ho Hch] Ht' Hsz. destruct (budget c) as [l ch] eqn:E. simpl in *.
  rewrite release_exact by nia. eexists. split_and!; [done..|].
  constructor; simpl; [done|split; simpl; [done|nia]|done|done|]. rewrite Hch, Hsz. nia.
Qed.

(** Filling a frame uses the charge taken for it. *)
Lemma cache_insert_ok c others p page :
  cache_ok c (others + frame_charge c) → 0 ≤ others → cached c !! p = None →
  let c' := mkCache (insert (table c) p page) (budget c) (frame_charge c) in
  cache_ok c' others ∧ cached c' = <[p := page]> (cached c).
Proof.
  intros [Ht Hb Hc Ho Hch] H0 Hp c'. destruct (insert_spec (table c) p page Ht Hp) as [Ht' Hcon]. split; [|done].
  unfold c'. constructor; cbn [table budget frame_charge]; [done..|]. rewrite Hch, !size_contents, Hcon, map_size_insert_None by done. lia.
Qed.

Lemma cache_get_ok c others p (r := get (table c) p) (c' := mkCache r.2 (budget c) (frame_charge c)) :
  cache_ok c others → r.1 = cached c !! p ∧ cache_ok c' others ∧ cached c' = cached c.
Proof.
  intros [Ht Hb Hc Ho Hch]. destruct (get_spec (table c) p Ht) as (H1 & H2 & H3). split_and!; [done| |done].
  constructor; simpl; [done..|]. by rewrite Hch, !size_contents, <- H3.
Qed.

Lemma evicted_size pinned t t' : evicted_from pinned (contents t) (contents t') true → size (frames t) = S (size (frames t')).
Proof.
  intros (p & Hp & _ & Hd). rewrite !size_contents, Hd, map_size_delete_Some; [|done].
  assert (size (contents t) ≠ 0)%nat; [|lia]. intros E%map_size_empty_iff. rewrite E, lookup_empty in Hp. by destruct Hp.
Qed.

Section cache_proof.
Context (pinned : Z → bool).

(** Pages may have been dropped, but no pinned one. *)
Definition shrunk (m m' : gmap Z (list Z)) : Prop :=
  m' ⊆ m ∧ ∀ p, pinned p = true → m' !! p = m !! p.

#[local] Instance shrunk_preorder : PreOrder shrunk.
Proof.
  split; [by intros m|]. intros m1 m2 m3 [H1 H2] [H3 H4]. split; [by etrans|].
  intros p Hp. by rewrite H4, H2.
Qed.

Definition nothing_evictable (c : PageCache) : Prop :=
  (size (cached c) < MIN_CACHE_FRAMES)%nat ∨ ∀ p, is_Some (cached c !! p) → pinned p = true.

Lemma evicted_shrunk m m' r : evicted_from pinned m m' r → shrunk m m'.
Proof.
  destruct r; simpl; [|by intros ->]. intros (p & _ & Hp & ->). split; [apply delete_subseteq|].
  intros q Hq. rewrite lookup_delete_ne; [done|congruence].
Qed.

(** An eviction attempt, with its release. *)
Lemma evict_and_release c others :
  cache_ok c others →
  ∃ t, table_ok t ∧ shrunk (cached c) (contents t) ∧
  ((evict_one pinned (table c) = Ok (true, t) ∧ size (frames (table c)) = S (size (frames t)) ∧
    ∃ b, release (budget c) (frame_charge c) = Ok b ∧ limit b = limit (budget c) ∧
      cache_ok (mkCache t b (frame_charge c)) others) ∨
   (evict_one pinned (table c) = Ok (false, t) ∧ contents t = cached c ∧
    cache_ok (mkCache t (budget c) (frame_charge c)) others ∧
    nothing_evictable (mkCache t (budget c) (frame_charge c)))).
Proof.
  intros Hc. destruct (evict_one_spec pinned (table c) (ok_table _ _ Hc)) as (r & t & Hr & Ht & Hev & Hiff).
  exists t. split_and!; [done|by eapply evicted_shrunk|]. destruct r; [left|right].
  - assert (size (frames (table c)) = size (frames t) + 1)%nat as Hsz by (apply evicted_size in Hev; lia).
    destruct (release_frame c t others 1 Hc Ht Hsz) as (b & Hb & Hlb & Hok). rewrite Z.mul_1_l in Hb.
    split_and!; [done|lia|]. by exists b.
  - simpl in Hev. split_and!; [done|done| |].
    + destruct Hc as [? ? ? ? Hch]. constructor; simpl; try done.
      rewrite Hch, !size_contents, Hev. done.
    + unfold nothing_evictable, cached. simpl. rewrite Hev, <- size_contents.
      destruct (decide (size (frames (table c)) < MIN_CACHE_FRAMES)%nat); [by left|right].
      intros p Hp. destruct (pinned p) eqn:E; [done|]. exfalso.
      assert (false = true); [|done]. apply Hiff. split; [lia|]. by exists p.
Qed.

Definition reclaim_post (c : PageCache) (others : Z) (res : outcome (bool * PageCache)) : Prop :=
  ∃ r c', res = Ok (r, c') ∧ shrunk (cached c) (cached c') ∧ limit (budget c') = limit (budget c) ∧
    frame_charge c' = frame_charge c ∧
    if r then cache_ok c' (others + frame_charge c)
    else cache_ok c' others ∧ nothing_evictable c' ∧ limit (budget c') < charged (budget c') + frame_charge c'.

Lemma charge_ok c others :
  cache_ok c others → charged (budget c) + frame_charge c ≤ limit (budget c) →
  cache_ok (mkCache (table c) (mkBudget (limit (budget c)) (charged (budget c) + frame_charge c)) (frame_charge c))
    (others + frame_charge c).
Proof.
  intros [Ht [Hl Hb] Hch Ho Hc] Hfit. constructor; simpl; [done|split; simpl; [done|lia]|done|lia|lia].
Qed.

Lemma reclaim_loop_spec n : ∀ c others,
  cache_ok c others → (size (frames (table c)) < n)%nat →
  limit (budget c) < charged (budget c) + frame_charge c →
  reclaim_post c others (reclaim_loop pinned n c).
Proof.
  induction n as [|n IH]; intros c others Hc Hn Hfull; [lia|].
  destruct (evict_and_release c others Hc) as (t & Ht & Hs & [(He & Hsz & b & Hb & Hlb & Hok)|(He & Hcon & Hok & Hne)]);
    cbn [reclaim_loop]; rewrite He; cbn [bind].
  - rewrite Hb. cbn [bind].
    rewrite try_charge_spec by (try apply Hok; pose proof (ok_charge _ _ Hc); unfold in_u; lia).
    case_decide as Hfit.
    + exists true, (mkCache t (mkBudget (limit b) (charged b + frame_charge c)) (frame_charge c)).
      split_and!; [done|done|done|done|]. by apply (charge_ok (mkCache t b (frame_charge c)) others).
    + destruct (IH (mkCache t b (frame_charge c)) others Hok) as (r & c' & Hr & Hs' & Hl & Hf & Hpost); [simpl; lia..|].
      exists r, c'. split_and!; [done|by etrans|by rewrite Hl|done|done].
  - exists false, (mkCache t (budget c) (frame_charge c)). split_and!; done.
Qed.

Lemma charge_after_reclaim_spec c others :
  cache_ok c others → reclaim_post c others (charge_after_reclaim pinned c).
Proof.
  intros Hc. unfold charge_after_reclaim.
  rewrite try_charge_spec by (try apply Hc; pose proof (ok_charge _ _ Hc); unfold in_u; lia).
  case_decide.
  - eexists true, _. split_and!; [done|done|done|done|]. by apply charge_ok.
  - replace (mkCache (table c) (budget c) (frame_charge c)) with c by (by destruct c).
    apply reclaim_loop_spec; [done|lia|lia].
Qed.

Lemma invalidate_spec c others p :
  cache_ok c others →
  ∃ c', invalidate c p = Ok c' ∧ cache_ok c' others ∧ cached c' = delete p (cached c) ∧
    charged (budget c') = charged (budget c) - (if cached c !! p then frame_charge c else 0).
Proof.
  intros Hc. unfold invalidate. pose proof (remove_spec (table c) p (ok_table _ _ Hc)) as (Hr & Ht & Hcon).
  destruct (remove (table c) p) as [r t] eqn:E. simpl in *.
  assert (size (frames (table c)) = size (frames t) + (if r then 1 else 0))%nat as Hsz.
  { rewrite !size_contents, Hcon, Hr. case_bool_decide as Hp.
    - rewrite map_size_delete_Some by done. assert (size (contents (table c)) ≠ 0)%nat; [|lia].
      intros E0%map_size_empty_iff. rewrite E0, lookup_empty in Hp. by destruct Hp.
    - rewrite map_size_delete_None; [lia|]. by apply eq_None_not_Some. }
  destruct r.
  - destruct (release_frame c t others 1 Hc Ht Hsz) as (b & Hb & Hlb & Hok). rewrite Z.mul_1_l in Hb.
    rewrite Hb. simpl. eexists. split_and!; [done|done|done|]. symmetry in Hr. apply bool_decide_eq_true in Hr as [page Hp].
    unfold cached. rewrite Hp. pose proof (ok_charged _ _ Hok) as H1. pose proof (ok_charged _ _ Hc) as H2. simpl in H1 |- *. rewrite H1, H2, Hsz. lia.
  - eexists. split_and!; [done| |done|]; last first.
    { symmetry in Hr. apply bool_decide_eq_false, eq_None_not_Some in Hr. unfold cached. rewrite Hr. simpl. lia. }
    destruct Hc as [? ? ? ? Hch]. constructor; simpl; try done.
    rewrite Hch, Hsz. lia.
Qed.

Lemma shed_loop_spec n : ∀ bytes released any c others,
  cache_ok c others → (size (frames (table c)) < n)%nat → 0 ≤ released → released + charged (budget c) < 2 ^ 64 →
  ∃ r c', shed_loop pinned n bytes released any c = Ok (r, c') ∧ cache_ok c' others ∧ shrunk (cached c) (cached c') ∧
    (bytes ≤ released + (charged (budget c) - charged (budget c')) ∨ nothing_evictable c') ∧
    (r = true ↔ any = true ∨ charged (budget c') < charged (budget c)) ∧
    charged (budget c') ≤ charged (budget c).
Proof.
  induction n as [|n IH]; intros bytes released any c others Hc Hn H0 Hmax; [lia|]. cbn [shed_loop].
  destruct (Z.ltb_spec released bytes) as [Hb|Hb]; cycle 1.
  { exists any, c. split_and!; [done..|left; lia|intuition lia|lia]. }
  destruct (evict_and_release c others Hc) as (t & Ht & Hs & [(He & Hsz & b & Hr & Hlb & Hok)|(He & Hcon & Hok & Hne)]);
    rewrite He; cbn [bind]; cycle 1.
  { exists any, (mkCache t (budget c) (frame_charge c)). split_and!; [done..|by right|simpl; intuition lia|simpl; lia]. }
  rewrite Hr. cbn [bind]. pose proof (ok_charge _ _ Hc) as Hch.
  pose proof (ok_charged _ _ Hc) as Hcc. pose proof (ok_charged _ _ Hok) as Hcb. simpl in Hcb.
  assert (charged b = charged (budget c) - frame_charge c) as Hdrop by (rewrite Hcc, Hcb, Hsz; lia).
  pose proof (ok_budget _ _ Hok) as [_ Hpos]. simpl in Hpos.
  rewrite Z.min_r by lia.
  destruct (IH bytes (released + frame_charge c) true _ others Hok) as (r & c' & -> & Hok' & Hs' & Hdone & Hany & Hle);
    [simpl; lia..|]. simpl in *.
  exists r, c'. split_and!; [done|done|by etrans| | |lia].
  - destruct Hdone; [left; lia|by right].
  - rewrite Hany. intuition lia.
Qed.

Lemma cache_drop_spec c others :
  cache_ok c others → cache_drop c = Ok (mkBudget (limit (budget c)) others).
Proof.
  intros [_ [Hl Hb] Hc Ho Hch]. unfold cache_drop. unfold in_u in Hl. rewrite Z.min_r by lia.
  destruct (budget c) as [l ch]. simpl in *. rewrite release_exact by nia. do 2 f_equal. lia.
Qed.
End cache_proof.

Lemma cache_new_ok page_size b :
  budget_wf b → 0 ≤ page_size < 2 ^ 32 → cache_ok (cache_new page_size b) (charged b).
Proof.
  intros Hb Hp. constructor; simpl; [apply table_ok_empty|done|unfold FRAME_OVERHEAD; lia|apply Hb|].
  rewrite map_size_empty. lia.
Qed.

(** ** Correctness *)

(** C36: the clock eviction is total and complete: on a consistent frame table
    it never indexes out of the clock, keeps the table consistent, and evicts
    a page if and only if the table holds eight frames or more and some cached
    page is unpinned; it then drops exactly one page, an unpinned one, and
    otherwise only clears reference bits.  Two sweeps are always enough.  The
    comparison is strict, so a table of exactly eight frames is shrunk to seven:
    the floor that eviction keeps is seven frames, not the documented eight. *)
Theorem clock_eviction_complete pinned t :
  table_ok t →
  ∃ r t', evict_one pinned t = Ok (r, t') ∧ table_ok t' ∧ evicted_from pinned (contents t) (contents t') r ∧
    (r = true ↔ (MIN_CACHE_FRAMES ≤ size (frames t))%nat ∧ ∃ p, is_Some (contents t !! p) ∧ pinned p = false) ∧
    (r = true → size (frames t) = S (size (frames t')) ∧ (MIN_CACHE_FRAMES - 1 ≤ size (frames t'))%nat).
Proof.
  intros Ht. destruct (evict_one_spec pinned t Ht) as (r & t' & He & Ht' & Hev & Hiff). exists r, t'. split_and!; [done..|].
  intros ->. pose proof (evicted_size _ _ _ Hev). destruct Hiff as [[Hfl _] _]; [done|]. unfold MIN_CACHE_FRAMES in *. lia.
Qed.

(** C37: the cache's share of the memory budget is one frame charge per cached
    page after every operation.  A lookup gives the cached page and changes no
    page and no charge.  Making room for a frame drops no pinned page and ends
    with the charge taken, which filling the frame then uses up, or with nothing
    evictable left and no room under the limit.  Invalidation removes the named
    page, whether or not a reader still holds it, and releases its charge if it
    was cached.  Shedding drops no pinned page, releases the bytes asked for
    unless nothing evictable is left, and says whether it released any.  No
    operation trips the release assertion, and dropping the cache returns the
    budget to what the others have charged. *)
Theorem page_cache_accounting pinned c others :
  cache_ok c others →
  (∀ p, let '(r, t) := get (table c) p in
     let c' := mkCache t (budget c) (frame_charge c) in
     r = cached c !! p ∧ cache_ok c' others ∧ cached c' = cached c) ∧
  reclaim_post pinned c others (charge_after_reclaim pinned c) ∧
  (∀ c' p page, charge_after_reclaim pinned c = Ok (true, c') → cached c !! p = None →
     let c'' := mkCache (insert (table c') p page) (budget c') (frame_charge c') in
     cache_ok c'' others ∧ cached c'' = <[p := page]> (cached c') ∧ shrunk pinned (cached c) (cached c')) ∧
  (∀ p, ∃ c', invalidate c p = Ok c' ∧ cache_ok c' others ∧ cached c' = delete p (cached c) ∧
     charged (budget c') = charged (budget c) - (if cached c !! p then frame_charge c else 0)) ∧
  (∀ bytes, ∃ r c', shed pinned c bytes = Ok (r, c') ∧ cache_ok c' others ∧
     shrunk pinned (cached c) (cached c') ∧
     (bytes ≤ charged (budget c) - charged (budget c') ∨ nothing_evictable pinned c') ∧
     (r = true ↔ charged (budget c') < charged (budget c))) ∧
  cache_drop c = Ok (mkBudget (limit (budget c)) others).
Proof.
  intros Hc. pose proof (charge_after_reclaim_spec pinned c others Hc) as Hpost. split_and!.
  - intros p. pose proof (cache_get_ok c others p Hc) as Hg. by destruct (get (table c) p).
  - done.
  - intros c' p page Hr Hp. destruct Hpost as (r & c1 & Hr1 & Hs & _ & Hf & Hok). rewrite Hr in Hr1. simplify_eq.
    rewrite <- Hf in Hok. apply and_assoc. split; [|done]. apply cache_insert_ok; [done|apply Hc|].
    destruct (cached c1 !! p) eqn:E; [|done]. pose proof (lookup_weaken _ _ _ _ E (proj1 Hs)). congruence.
  - intros p. by apply invalidate_spec.
  - intros bytes. pose proof (ok_budget _ _ Hc) as [Hl Hb]. unfold in_u in Hl.
    destruct (shed_loop_spec pinned (S (size (frames (table c)))) bytes 0 false c others Hc)
      as (r & c' & ? & ? & ? & Hd & Hr & _); [lia..|].
    exists r, c'. split_and!; [done..| |naive_solver]. by rewrite Z.add_0_l in Hd.
  - by apply cache_drop_spec.
Qed.

(** Frames for the pages [ps], filled in order. *)
Definition example_table (ps : list Z) : FrameTable := foldl (λ t p, insert t p [p]) empty_table ps.

Lemma example_table_ok ps : NoDup ps → table_ok (example_table ps).
Proof.
  assert (∀ t, table_ok t → NoDup ps → (∀ p, p ∈ ps → contents t !! p = None) →
    table_ok (foldl (λ t p, insert t p [p]) t ps)) as Hfill.
  { induction ps as [|p ps IH]; simpl; intros t Ht Hnd Hfresh; [done|]. apply NoDup_cons in Hnd as [Hp Hnd].
    destruct (insert_spec t p [p] Ht (Hfresh p ltac:(by left))) as [Ht' Hc].
    apply IH; [done|done|]. intros q Hq. rewrite Hc, lookup_insert_ne by (by intros ->). apply Hfresh. by right. }
  intros Hnd. apply Hfill; [apply table_ok_empty|done|done].
Qed.

(** Exactly eight frames, page 2 pinned: page 3 goes and seven are left. *)
Lemma clock_eviction_complete_witness :
  ∃ t', evict_one (λ p, p =? 2) (example_table [2; 3; 4; 5; 6; 7; 8; 9]) = Ok (true, t') ∧
    contents t' !! 3 = None ∧ contents t' !! 2 = Some [2] ∧ size (frames t') = 7%nat.
Proof.
  destruct (clock_eviction_complete (λ p, p =? 2) (example_table [2; 3; 4; 5; 6; 7; 8; 9])) as (r & t' & He & _ & _ & _ & Hsz);
    [apply example_table_ok; apply (bool_decide_unpack _); vm_compute; exact I|].
  assert (r = true) as ->.
  { apply (f_equal (λ o, match o with Ok (r, _) => r | _ => false end)) in He. vm_compute in He. by symmetry. }
  exists t'. split; [exact He|]. destruct (Hsz eq_refl) as [Hs _]. split_and!.
  - apply (f_equal (λ o, match o with Ok (_, t) => contents t !! 3 | _ => None end)) in He. vm_compute in He. vm_compute. by symmetry.
  - apply (f_equal (λ o, match o with Ok (_, t) => contents t !! 2 | _ => None end)) in He. vm_compute in He. vm_compute. by symmetry.
  - apply eq_add_S. rewrite <- Hs. vm_compute. reflexivity.
Defined.

(** Nine frames fill the limit beside ten bytes of others; page 2 is pinned. *)
Definition example_cache : PageCache :=
  mkCache (example_table [2; 3; 4; 5; 6; 7; 8; 9; 10]) (mkBudget 37450 37450) 4160.

Lemma example_cache_ok : cache_ok example_cache 10.
Proof.
  constructor; [apply example_table_ok; apply (bool_decide_unpack _); vm_compute; exact I| |simpl; lia|lia|vm_compute; reflexivity].
  split; simpl; range_lia.
Qed.

Lemma page_cache_accounting_witness :
  ∃ c', charge_after_reclaim (λ p, p =? 2) example_cache = Ok (true, c') ∧
    let c'' := mkCache (insert (table c') 11 [11]) (budget c') (frame_charge c') in
    cache_ok c'' 10 ∧ cached c'' = <[11 := [11]]> (cached c') ∧ shrunk (λ p, p =? 2) (cached example_cache) (cached c') ∧
    cache_drop example_cache = Ok (mkBudget 37450 10).
Proof.
  destruct (page_cache_accounting (λ p, p =? 2) example_cache 10 example_cache_ok) as (_ & _ & Hfill & _ & _ & Hdrop).
  destruct (charge_after_reclaim (λ p, p =? 2) example_cache) as [[[] c']|e|] eqn:E; [|vm_compute in E; discriminate E..].
  exists c'. split; [reflexivity|]. destruct (Hfill c' 11 [11] eq_refl) as (H1 & H2 & H3); [vm_compute; reflexivity|].
  split_and!; [exact H1|exact H2|exact H3|exact Hdrop].
Defined.
