(* ===== verification/PageAlloc.v ===== *)
(** Choosing pages to reuse or to give back: the pure searches of
    [devondb-storage/src/pager.rs] ([select_earliest_run],
    [find_contiguous_run], [reclaimable_tail], [trim_unselected_scan],
    [compaction_threshold_reached]).

    The scanned ledger prefix is a list; a page's ledger position is its first
    index in it.  [select_earliest_run] is the sliding-window maximum over the
    sorted page ids; its specification speaks of page ids and ledger positions
    only. *)

From stdpp Require Import gmap sorting list_numbers.
From S2P Require Import Prelude Bytes FreePages.

Definition COMPACTION_FREE_PERCENT : Z := 25.
Definition COMPACTION_TRUNCATE_PAGE_LIMIT : nat := 64.
Definition SUPERBLOCK_SLOTS : Z := 2.

Record ScannedReuseEntry := mkScanned { ledger_page : Z; consumed_after : Z; entry : LedgerEntry }.

Record ReuseScan := mkScan {
  entries : list ScannedReuseEntry;
  selected : option (gset nat);
  ledger_pages : gset Z;
}.

(** ** The run that ends earliest in the ledger *)

(** [position.entry(page_id).or_insert(index)] over the scan. *)
Definition first_positions (es : list ScannedReuseEntry) : gmap Z nat :=
  foldl (λ m '(index, candidate),
    match m !! page_id (entry candidate) with
    | Some _ => m
    | None => <[page_id (entry candidate) := index]> m
    end) ∅ (enumerate es).

Section select.
Context (position : gmap Z nat) (ids : list Z) (count : nat).

(** [position[&ids[j]]]. *)
Definition position_at (j : nat) : outcome nat :=
  let! id := index ids j in expect (position !! id).

(** [while window.back()...]: the deque from its back. *)
Fixpoint pop_back_while (at_ : nat) (back_first : list nat) : outcome (list nat) :=
  match back_first with
  | [] => Ok []
  | back :: rest =>
      let! p := position_at back in
      if (p <=? at_)%nat then pop_back_while at_ rest else Ok back_first
  end.

(** [while window.front()...]. *)
Fixpoint pop_front_while (i : nat) (window : list nat) : list nat :=
  match window with
  | [] => []
  | front :: rest =>
      if (front + count <=? i + 1)%nat && (front <? i + 1 - count)%nat then pop_front_while i rest else window
  end.

(** The loop state: [best], [run_start], [window] (front first). *)
Definition select_state : Type := option (nat * nat) * nat * list nat.

Definition select_step (s : select_state) (i_id : nat * Z) : outcome select_state :=
  let '(best, run_start, window) := s in
  let '(i, id) := i_id in
  let! breaks :=
    if (0 <? i)%nat then let! previous := index ids (i - 1) in Ok (bool_decide (try_u 64 (previous + 1) ≠ Some id))
    else Ok false in
  let '(run_start, window) := if (breaks : bool) then (i, []) else (run_start, window) in
  let! at_ := expect (position !! id) in
  let! kept := pop_back_while at_ (rev window) in
  let window := rev kept ++ [i] in
  let window := pop_front_while i window in
  if (count <=? i + 1 - run_start)%nat then
    let! through := position_at (match window with front :: _ => front | [] => i end) in
    let better := match best with None => true | Some (best_through, _) => (through <? best_through)%nat end in
    Ok ((if better then Some (through, (i + 1 - count)%nat) else best), run_start, window)
  else Ok (best, run_start, window).
End select.

Definition select_earliest_run (scan : ReuseScan) (count : nat) : outcome ReuseScan :=
  if (count =? 0)%nat then Ok scan else
  let position := first_positions (entries scan) in
  let ids := merge_sort Z.le (map_to_list position).*1 in
  let! (best, _, _) := for_each (enumerate ids) (None, 0%nat, []) (select_step position ids count) in
  match best with
  | None => Ok scan
  | Some (through, start) =>
      let! run := slice ids start (start + count) in
      let! positions := collect (λ id, expect (position !! id)) run in
      Ok (mkScan (take (through + 1) (entries scan)) (Some (list_to_set positions)) (ledger_pages scan))
  end.

Definition trim_unselected_scan (scan : ReuseScan) (skip_capacity : nat) : ReuseScan :=
  match selected scan with
  | None => mkScan (take skip_capacity (entries scan)) None (ledger_pages scan)
  | Some _ => scan
  end.

(** ** Runs of a page set *)

(** One iteration; [inl run] is the early return. *)
Definition contiguous_step (count : nat) (s : list Z + list Z) (page_id : Z) : list Z + list Z :=
  match s with
  | inl found => inl found
  | inr run =>
      let run := match last run with
        | Some previous => if bool_decide (try_u 64 (previous + 1) ≠ Some page_id) then [] else run
        | None => run
        end in
      let run := run ++ [page_id] in
      if (length run =? count)%nat then inl run else inr run
  end.

(** The set iterates in ascending order. *)
Definition find_contiguous_run (pages : gset Z) (count : nat) : option (list Z) :=
  match foldl (contiguous_step count) (inr []) (merge_sort Z.le (elements pages)) with
  | inl run => Some run
  | inr _ => None
  end.

(** ** The reclaimable file tail *)

Fixpoint tail_loop (rounds : nat) (candidates : gset Z) (cursor : Z) (tail : gset Z) : gset Z :=
  match rounds with
  | O => tail
  | S rounds =>
      match try_u 64 (cursor - 1) with
      | None => tail
      | Some page_id =>
          if (page_id <? SUPERBLOCK_SLOTS) || negb (bool_decide (page_id ∈ candidates)) then tail
          else tail_loop rounds candidates page_id ({[page_id]} ∪ tail)
      end
  end.

(** [usize] is 64 bits, so [u64::try_from(page_count)] succeeds. *)
Definition reclaimable_tail (candidates : gset Z) (page_count : Z) : gset Z :=
  tail_loop COMPACTION_TRUNCATE_PAGE_LIMIT candidates page_count ∅.

(** [saturating_mul] at 64 bits. *)
Definition saturating_mul (a b : Z) : Z := Z.min (2 ^ 64 - 1) (a * b).

Definition compaction_threshold_reached (free_pages total_pages : Z) : bool :=
  (SUPERBLOCK_SLOTS <? total_pages) &&
  (saturating_mul total_pages COMPACTION_FREE_PERCENT <=? saturating_mul free_pages 100).

(** ** Runs *)

(** The [count] page ids from [p] on. *)
Definition run_ids (p : Z) (count : nat) : list Z := (λ k, p + Z.of_nat k) <$> seq 0 count.

Lemma elem_of_run_ids p count x : x ∈ run_ids p count ↔ p ≤ x < p + Z.of_nat count.
Proof.
  unfold run_ids. rewrite list_elem_of_fmap. setoid_rewrite elem_of_seq. split.
  - intros (k & -> & Hk). lia.
  - intros Hx. exists (Z.to_nat (x - p)). lia.
Qed.

Lemma run_ids_snoc p m : run_ids p (S m) = run_ids p m ++ [p + Z.of_nat m].
Proof. unfold run_ids. rewrite seq_S, fmap_app. done. Qed.

Lemma length_run_ids p m : length (run_ids p m) = m.
Proof. unfold run_ids. by rewrite length_fmap, length_seq. Qed.

Lemma last_run_ids p m : last (run_ids p (S m)) = Some (p + Z.of_nat m).
Proof. by rewrite run_ids_snoc, last_snoc. Qed.

(** A page set has a run at [p]. *)
Definition has_run (pages : gset Z) (p : Z) (count : nat) : Prop := ∀ x, p ≤ x < p + Z.of_nat count → x ∈ pages.

(** What the search knows after the ascending pages [seen]: no run ends there,
    and [run] is the longest run up to the last page. *)
Definition search_inv (count : nat) (seen : list Z) (run : list Z) : Prop :=
  (∀ p, ¬ (∀ x, p ≤ x < p + Z.of_nat count → x ∈ seen)) ∧
  match last seen with
  | None => run = []
  | Some y => (∀ x, x ∈ seen → x ≤ y) ∧ ∃ q m, run = run_ids q (S m) ∧ y = q + Z.of_nat m ∧ (S m < count)%nat ∧
      q - 1 ∉ seen ∧ ∀ x, q ≤ x ≤ y → x ∈ seen
  end.

Lemma search_step count seen run y :
  (0 < count)%nat → Forall (λ x, x < y) seen → in_u 64 y → search_inv count seen run →
  match contiguous_step count (inr run) y with
  | inl found => ∃ q, found = run_ids q count ∧ y = q + Z.of_nat count - 1 ∧ (∀ x, q ≤ x < y → x ∈ seen) ∧
      ∀ p, ¬ (∀ x, p ≤ x < p + Z.of_nat count → x ∈ seen)
  | inr run' => search_inv count (seen ++ [y]) run'
  end.
Proof.
  intros Hc Hlt Hy [Hnone Hlast]. rewrite Forall_forall in Hlt.
  assert (∀ q m, (∀ x, q ≤ x < y → x ∈ seen) → y = q + Z.of_nat m → (S m ≤ count)%nat → q - 1 ∉ seen →
    match (if (length (run_ids q m ++ [y]) =? count)%nat then inl (run_ids q m ++ [y]) else inr (run_ids q m ++ [y]) : list Z + list Z) with
    | inl found => ∃ q, found = run_ids q count ∧ y = q + Z.of_nat count - 1 ∧ (∀ x, q ≤ x < y → x ∈ seen) ∧
        ∀ p, ¬ (∀ x, p ≤ x < p + Z.of_nat count → x ∈ seen)
    | inr run' => search_inv count (seen ++ [y]) run'
    end) as Hcase.
  { intros q m Hin Hym Hm Hq. rewrite Hym, <- run_ids_snoc, length_run_ids.
    destruct (Nat.eqb_spec (S m) count) as [<-|Hne].
    - exists q. split_and!; [done|lia|intros; apply Hin; lia|done].
    - split.
      + intros p Hp. assert (p + Z.of_nat count - 1 ∈ seen ++ [q + Z.of_nat m]) as Hmax by (apply Hp; lia).
        destruct (decide (p + Z.of_nat count - 1 = y)) as [E|E].
        * assert (q - 1 ∈ seen ++ [q + Z.of_nat m]) as Hin' by (apply Hp; lia).
          apply elem_of_app in Hin' as [?|?%list_elem_of_singleton]; [done|lia].
        * apply (Hnone p). intros x Hx. specialize (Hp x Hx).
          apply elem_of_app in Hp as [?|Hxy%list_elem_of_singleton]; [done|].
          apply elem_of_app in Hmax as [Hs%Hlt|Hs%list_elem_of_singleton]; lia.
      + rewrite last_snoc. split.
        { intros x [Hx%Hlt|Hx%list_elem_of_singleton]%elem_of_app; lia. }
        exists q, m. split_and!; [done|done|lia| |].
        * rewrite not_elem_of_app. split; [done|]. intros ?%list_elem_of_singleton. lia.
        * intros x Hx. apply elem_of_app. destruct (decide (x = y)); [right; apply list_elem_of_singleton; lia|].
          left. apply Hin. lia. }
  unfold contiguous_step. destruct (last seen) as [z|] eqn:El.
  - destruct Hlast as (Hmax & q & m & -> & -> & Hm & Hq & Hin). rewrite last_run_ids.
    assert (q + Z.of_nat m < y) as Hzy by (apply Hlt, Hin; lia).
    case_bool_decide as Hb.
    + apply (Hcase y 0%nat); [lia..|]. intros Hy1%Hmax. apply Hb. rewrite try_u_in; [f_equal; lia|unfold in_u in *; lia].
    + apply try_u_Some in Hb as [E _]. apply (Hcase q (S m)); [|lia|lia|done]. intros x Hx. apply Hin. lia.
  - subst run. apply last_None in El. subst seen. apply (Hcase y 0%nat); [lia..|]. by intros ?%elem_of_nil.
Qed.

Lemma search_found count rest found : foldl (contiguous_step count) (inl found) rest = inl found.
Proof. induction rest; [done|]. by simpl. Qed.

Lemma search_loop count rest : ∀ seen run,
  (0 < count)%nat → StronglySorted Z.lt (seen ++ rest) → Forall (in_u 64) rest → search_inv count seen run →
  match foldl (contiguous_step count) (inr run) rest with
  | inl found => ∃ q, found = run_ids q count ∧ (∀ x, q ≤ x < q + Z.of_nat count → x ∈ seen ++ rest) ∧
      ∀ p, p < q → ¬ (∀ x, p ≤ x < p + Z.of_nat count → x ∈ seen ++ rest)
  | inr _ => ∀ p, ¬ (∀ x, p ≤ x < p + Z.of_nat count → x ∈ seen ++ rest)
  end.
Proof.
  induction rest as [|y rest IH]; intros seen run Hc Hs Hu Hinv.
  { simpl. rewrite app_nil_r. apply Hinv. }
  apply Forall_cons in Hu as [Hy Hu]. apply StronglySorted_app in Hs as (Hlt & Hs1 & [Hgt Hs2]%StronglySorted_cons).
  rewrite Forall_forall in Hgt.
  pose proof (search_step count seen run y Hc) as Hstep. cbn [foldl].
  specialize (Hstep ltac:(apply Forall_forall; set_solver) Hy Hinv).
  destruct (contiguous_step count (inr run) y) as [found|run'].
  - rewrite search_found. destruct Hstep as (q & -> & Hyq & Hin & Hno). exists q. split_and!; [done| |].
    + intros x Hx. destruct (decide (x = y)) as [->|]; [set_solver|]. apply elem_of_app. left. apply Hin. lia.
    + intros p Hp Hall. apply (Hno p). intros x Hx. specialize (Hall x Hx).
      apply elem_of_app in Hall as [?|[->|Hxr%Hgt]%elem_of_cons]; [done|lia|lia].
  - replace (seen ++ y :: rest) with ((seen ++ [y]) ++ rest) by (by rewrite <- app_assoc).
    apply IH; [done| |done|done]. rewrite <- app_assoc. simpl. apply StronglySorted_app_2; [done|done|].
    apply StronglySorted_cons. by rewrite Forall_forall.
Qed.

Lemma sorted_ids (l : list Z) : NoDup l → StronglySorted Z.lt (merge_sort Z.le l).
Proof.
  intros Hnd. assert (StronglySorted Z.le (merge_sort Z.le l)) as Hs by (apply Sorted_StronglySorted, Sorted_merge_sort; apply _).
  rewrite <- (merge_sort_Permutation Z.le l) in Hnd. induction Hs as [|x k Hs IH Hx]; [constructor|].
  apply NoDup_cons in Hnd as [Hxk Hnd]. apply StronglySorted_cons. split; [|by apply IH].
  rewrite Forall_forall in *. intros y Hy. specialize (Hx y Hy). assert (x ≠ y) by (by intros ->). lia.
Qed.

Lemma elem_of_sorted (l : list Z) x : x ∈ merge_sort Z.le l ↔ x ∈ l.
Proof. by rewrite (merge_sort_Permutation Z.le l). Qed.

(** ** The sliding window *)

Section window.
Context (position : gmap Z nat) (ids : list Z) (count : nat) (a : nat → nat).
Hypothesis Hcount : (0 < count)%nat.
Hypothesis Hids : Forall (in_u 64) ids.
Hypothesis Ha : ∀ j id, ids !! j = Some id → position !! id = Some (a j).

(** Indices ascend and their ledger positions descend from front to back. *)
Definition window_order (j k : nat) : Prop := (j < k)%nat ∧ (a k < a j)%nat.

Lemma position_at_Ok j : (j < length ids)%nat → position_at position ids j = Ok (a j).
Proof.
  intros [id Hid]%lookup_lt_is_Some. unfold position_at, index. rewrite Hid. simpl. by rewrite (Ha _ _ Hid).
Qed.

Lemma pop_back_filter at_ w :
  StronglySorted window_order w → Forall (λ k, (k < length ids)%nat) w →
  pop_back_while position ids at_ (rev w) = Ok (rev (filter (λ k, (at_ < a k)%nat) w)).
Proof.
  induction w as [|k w IH] using rev_ind; intros Hs Hl; [done|].
  apply Forall_app in Hl as [Hl [Hk _]%Forall_cons]. apply StronglySorted_app in Hs as (Hlt & Hs & _).
  rewrite rev_unit. cbn [pop_back_while]. rewrite position_at_Ok by done. cbn [bind].
  rewrite filter_app. destruct (Nat.leb_spec (a k) at_) as [Hle|Hgt].
  - rewrite (filter_cons_False _ k) by lia. rewrite filter_nil, app_nil_r. by apply IH.
  - rewrite (filter_cons_True _ k), filter_nil by done. rewrite rev_unit. do 2 f_equal.
    rewrite filter_keeps_all; [done|]. apply Forall_forall. intros j Hj. destruct (Hlt j k) as [_ ?]; [done|set_solver|]. lia.
Qed.

Lemma pop_front_filter i w :
  StronglySorted window_order w → pop_front_while count i w = filter (λ k, (i + 1 ≤ k + count)%nat) w.
Proof.
  induction w as [|k w IH]; intros Hs; [done|]. apply StronglySorted_cons in Hs as [Hk Hs]. cbn [pop_front_while].
  destruct (decide (i + 1 ≤ k + count)%nat) as [Hle|Hgt].
  - rewrite (proj2 (Nat.ltb_ge k (i + 1 - count))) by lia. rewrite andb_false_r.
    rewrite filter_cons_True by done. f_equal. rewrite filter_keeps_all; [done|].
    eapply Forall_impl; [exact Hk|]. intros j [? _]. simpl. lia.
  - rewrite (proj2 (Nat.leb_le (k + count) (i + 1))), (proj2 (Nat.ltb_lt k (i + 1 - count))) by lia. cbn [andb].
    rewrite filter_cons_False by lia. by apply IH.
Qed.

(** The window over the indices [lo..hi]. *)
Definition window_ok (lo hi : nat) (w : list nat) : Prop :=
  StronglySorted window_order w ∧ Forall (λ k, (lo ≤ k ≤ hi)%nat) w ∧
  ∀ j, (lo ≤ j ≤ hi)%nat → ∃ k, k ∈ w ∧ (j ≤ k)%nat ∧ (a j ≤ a k)%nat.

Lemma sorted_filter (P : nat → Prop) `{!∀ k, Decision (P k)} w :
  StronglySorted window_order w → StronglySorted window_order (filter P w).
Proof.
  induction 1 as [|k w Hs IH Hk]; [constructor|]. destruct (decide (P k)).
  - rewrite filter_cons_True by done. apply StronglySorted_cons. split; [|done]. rewrite Forall_forall in *.
    intros j [_ Hj]%list_elem_of_filter. auto.
  - by rewrite filter_cons_False.
Qed.

(** Sliding by one: [w] covers [lo..i-1] (or is empty), the result [lo'..i]. *)
Lemma window_slide lo i w :
  (i < length ids)%nat → (lo ≤ i)%nat →
  StronglySorted window_order w → Forall (λ k, (lo ≤ k < i)%nat) w →
  (∀ j, (lo ≤ j < i)%nat → ∃ k, k ∈ w ∧ (j ≤ k)%nat ∧ (a j ≤ a k)%nat) →
  ∃ kept, pop_back_while position ids (a i) (rev w) = Ok kept ∧
    window_ok (Nat.max lo (i + 1 - count)) i (pop_front_while count i (rev kept ++ [i])).
Proof.
  intros Hi Hlo Hs Hr Hdom.
  eexists. split; [apply pop_back_filter; [done|]; eapply Forall_impl; [exact Hr|simpl; lia]|].
  rewrite rev_involutive. set (w1 := filter (λ k, (a i < a k)%nat) w).
  assert (∀ k, k ∈ w1 ↔ (a i < a k)%nat ∧ k ∈ w) as Hw1 by (intros k; unfold w1; by rewrite list_elem_of_filter).
  rewrite Forall_forall in Hr.
  assert (StronglySorted window_order (w1 ++ [i])) as Hs1.
  { apply StronglySorted_app. split_and!; [|by apply sorted_filter|by repeat constructor].
    intros k j [Hk Hkw]%Hw1 ->%list_elem_of_singleton. split; [apply Hr in Hkw; lia|done]. }
  rewrite pop_front_filter by done. split_and!.
  - by apply sorted_filter.
  - apply Forall_forall. intros k [Hk [[_ Hkw]%Hw1| ->%list_elem_of_singleton]%elem_of_app]%list_elem_of_filter;
      [apply Hr in Hkw; lia|lia].
  - intros j Hj. assert (i ∈ filter (λ k, (i + 1 ≤ k + count)%nat) (w1 ++ [i])) as Hii.
    { apply list_elem_of_filter. split; [lia|]. set_solver. }
    destruct (decide (j = i)) as [->|]; [by exists i|].
    destruct (Hdom j) as (k & Hk & Hjk & Hak); [lia|].
    destruct (decide (a i < a k)%nat); [|exists i; split_and!; [done|lia|lia]].
    exists k. split_and!; [|done|done]. apply list_elem_of_filter. split; [lia|]. apply elem_of_app. left. by apply Hw1.
Qed.

(** [t] is the largest ledger position of the indices [lo..hi]. *)
Definition is_max (t lo hi : nat) : Prop :=
  (∃ j, (lo ≤ j ≤ hi)%nat ∧ a j = t) ∧ ∀ j, (lo ≤ j ≤ hi)%nat → (a j ≤ t)%nat.

Lemma window_max lo hi w :
  (lo ≤ hi)%nat → window_ok lo hi w → ∃ f rest, w = f :: rest ∧ (f ≤ hi)%nat ∧ is_max (a f) lo hi.
Proof.
  intros Hlh (Hs & Hr & Hdom). destruct w as [|f rest].
  { destruct (Hdom lo) as (k & Hk & _); [lia|]. by apply elem_of_nil in Hk. }
  apply StronglySorted_cons in Hs as [Hf _]. apply Forall_cons in Hr as [Hr _]. exists f, rest.
  split_and!; [done|lia|]. split; [by exists f|]. intros j (k & [->|Hk]%elem_of_cons & _ & Hak)%Hdom; [done|].
  rewrite Forall_forall in Hf. destruct (Hf k Hk). lia.
Qed.
End window.

(** ** The loop of [select_earliest_run] *)

Section select_loop.
Context (position : gmap Z nat) (ids : list Z) (count : nat) (a : nat → nat).
Hypothesis Hcount : (0 < count)%nat.
Hypothesis Hids : Forall (in_u 64) ids.
Hypothesis Ha : ∀ j id, ids !! j = Some id → position !! id = Some (a j).

(** The page ids at [lo..hi] are consecutive. *)
Definition consec (lo hi : nat) : Prop :=
  ∀ j, (lo ≤ j ≤ hi)%nat → ids !!! j = ids !!! lo + Z.of_nat (j - lo).

(** A run of [count] page ids ends at index [e]. *)
Definition run_end (e : nat) : Prop := (count ≤ e + 1)%nat ∧ consec (e + 1 - count) e.

Definition best_ok (n : nat) (best : option (nat * nat)) : Prop :=
  match best with
  | None => ∀ e, (e < n)%nat → ¬ run_end e
  | Some (t, s) => (s + count ≤ n)%nat ∧ run_end (s + count - 1) ∧ is_max a t s (s + count - 1) ∧
      ∀ e t', (e < n)%nat → run_end e → is_max a t' (e + 1 - count) e → (t ≤ t')%nat
  end.

(** [run_start] begins the maximal block of consecutive ids that holds [i]. *)
Definition block (run_start i : nat) : Prop :=
  (run_start ≤ i)%nat ∧ consec run_start i ∧
  (run_start = 0%nat ∨ ids !!! run_start ≠ ids !!! (run_start - 1)%nat + 1).

Definition select_inv (n : nat) (s : select_state) : Prop :=
  let '(best, run_start, window) := s in
  best_ok n best ∧
  match n with
  | O => run_start = 0%nat ∧ window = []
  | S i => block run_start i ∧ window_ok a (Nat.max run_start (n - count)) i window
  end.

Lemma block_run_end run_start i :
  block run_start i → run_end i ↔ (count ≤ i + 1 - run_start)%nat.
Proof.
  intros (Hr & Hc & Hstart). split.
  - intros [Hi He]. destruct (decide (count ≤ i + 1 - run_start)%nat); [done|].
    destruct Hstart as [->|Hne]; [lia|]. destruct Hne.
    rewrite (He run_start), (He (run_start - 1)%nat) by lia. lia.
  - intros Hle. split; [lia|]. intros j Hj. rewrite (Hc j), (Hc (i + 1 - count)%nat) by lia. lia.
Qed.

Lemma best_step n best t :
  run_end n → is_max a t (n + 1 - count) n → best_ok n best →
  best_ok (S n) (if match best with None => true | Some (b, _) => (t <? b)%nat end
                 then Some (t, (n + 1 - count)%nat) else best).
Proof.
  intros Hrun Hmax Hb. assert (Hrun' := Hrun). destruct Hrun' as [Hcn _].
  assert (∀ t' : nat, is_max a t' (n + 1 - count) n → t = t') as Huniq.
  { intros t' [(j' & Hj' & <-) H2]. destruct Hmax as [(j & Hj & <-) H1].
    apply Nat.le_antisymm; [by apply H2|by apply H1]. }
  assert (best_ok (S n) (Some (t, (n + 1 - count)%nat)) ↔
    ∀ e t', (e < n)%nat → run_end e → is_max a t' (e + 1 - count) e → (t ≤ t')%nat) as Hnew.
  { unfold best_ok. replace (n + 1 - count + count - 1)%nat with n by lia. split; [intros (_ & _ & _ & Hall) e t' He; apply Hall; lia|].
    intros Hall. split_and!; [lia|done|done|]. intros e t' He Hr Hm. destruct (decide (e = n)) as [->|]; [|apply (Hall e); [lia|done..]].
    by rewrite (Huniq t'). }
  destruct best as [[b s]|].
  - destruct Hb as (Hs & Hr & Hm & Hmin). destruct (Nat.ltb_spec t b) as [Hlt|Hge].
    + apply Hnew. intros e t' He Hre Hme. pose proof (Hmin e t' He Hre Hme). lia.
    + unfold best_ok. split_and!; [lia|done|done|]. intros e t' He Hre Hme.
      destruct (decide (e = n)) as [->|]; [by rewrite <- (Huniq t')|apply (Hmin e); [lia|done..]].
  - apply Hnew. intros e t' He Hre. by destruct (Hb e).
Qed.

Lemma best_skip n best : ¬ run_end n → best_ok n best → best_ok (S n) best.
Proof.
  intros Hno. destruct best as [[b s]|]; simpl.
  - intros (Hs & Hr & Hm & Hmin). split_and!; [lia|done|done|]. intros e t' He Hre Hme.
    destruct (decide (e = n)) as [->|]; [done|]. apply (Hmin e); [lia|done..].
  - intros H e He. destruct (decide (e = n)) as [->|]; [done|]. apply H. lia.
Qed.

(** Once the block is known, the rest of the iteration. *)
Lemma select_tail n id best run_start window :
  ids !! n = Some id → block run_start n →
  StronglySorted (window_order a) window → Forall (λ k, (Nat.max run_start (n - count) ≤ k < n)%nat) window →
  (∀ j, (Nat.max run_start (n - count) ≤ j < n)%nat → ∃ k, k ∈ window ∧ (j ≤ k)%nat ∧ (a j ≤ a k)%nat) →
  best_ok n best →
  ∃ s', (let! at_ := expect (position !! id) in
    let! kept := pop_back_while position ids at_ (rev window) in
    let window := rev kept ++ [n] in
    let window := pop_front_while count n window in
    if (count <=? n + 1 - run_start)%nat then
      let! through := position_at position ids (match window with front :: _ => front | [] => n end) in
      let better := match best with None => true | Some (best_through, _) => (through <? best_through)%nat end in
      Ok ((if better then Some (through, (n + 1 - count)%nat) else best), run_start, window)
    else Ok (best, run_start, window)) = Ok s' ∧ select_inv (S n) s'.
Proof.
  intros Hid Hblock Hs Hr Hdom Hb. assert (n < length ids)%nat as Hn by (by eapply lookup_lt_Some).
  rewrite (Ha _ _ Hid). cbn [expect bind].
  pose proof Hblock as (Hle & _ & _).
  destruct (window_slide position ids count a Hcount Hids Ha (Nat.max run_start (n - count)) n window)
    as (kept & -> & Hw); [done|lia|done..|]. cbn [bind].
  replace (Nat.max (Nat.max run_start (n - count)) (n + 1 - count)) with (Nat.max run_start (S n - count)) in Hw by lia.
  pose proof (block_run_end _ _ Hblock) as Hre.
  destruct (Nat.leb_spec count (n + 1 - run_start)) as [Hc|Hc].
  - destruct (window_max count a Hcount (Nat.max run_start (S n - count)) n _ ltac:(lia) Hw) as (f & rest & Ew & Hf & Hmax).
    rewrite Ew in *. rewrite (position_at_Ok position ids a Ha f) by lia. cbn [bind]. eexists. split; [done|]. split; [|done].
    replace (Nat.max run_start (S n - count)) with (n + 1 - count)%nat in Hmax by lia.
    apply best_step; [by apply Hre|done|done].
  - eexists. split; [done|]. split; [|done]. apply best_skip; [|done]. rewrite Hre. lia.
Qed.

Lemma select_step_ok n id s :
  ids !! n = Some id → select_inv n s →
  ∃ s', select_step position ids count s (n, id) = Ok s' ∧ select_inv (S n) s'.
Proof.
  destruct s as [[best run_start] window]. intros Hid [Hb Hrest]. unfold select_step.
  assert (ids !!! n = id) as Hidt by (by apply list_lookup_total_correct).
  destruct n as [|i].
  - destruct Hrest as [-> ->]. cbn [Nat.ltb Nat.leb bind]. apply select_tail; [done| |constructor|constructor|lia|done].
    split_and!; [lia| |by left]. intros j Hj. replace j with 0%nat by lia. simpl. lia.
  - destruct Hrest as [(Hle & Hc & Hstart) (Hs & Hr & Hdom)]. cbn [Nat.ltb Nat.leb].
    replace (S i - 1)%nat with i by lia.
    destruct (lookup_lt_is_Some_2 ids i) as [previous Hp]; [apply lookup_lt_Some in Hid; lia|].
    assert (ids !!! i = previous) as Hpt by (by apply list_lookup_total_correct).
    unfold index. rewrite Hp. cbn [ok_or expect bind]. case_bool_decide as Hbreak.
    + apply select_tail; [done| |constructor|constructor|lia|done]. split_and!; [lia| |].
      * intros j Hj. replace j with (S i) by lia. rewrite Nat.sub_diag. lia.
      * right. replace (S i - 1)%nat with i by lia. intros E.
        rewrite Forall_lookup in Hids. apply Hids in Hid as Hu. apply Hbreak. assert (previous + 1 = id) as -> by lia.
        by apply try_u_in.
    + apply try_u_Some in Hbreak as [E _]. apply select_tail; [done| |done| | |done].
      * split_and!; [lia| |done]. intros j Hj. destruct (decide (j = S i)) as [->|]; [|apply Hc; lia].
        pose proof (Hc i ltac:(lia)). rewrite Hidt. lia.
      * eapply Forall_impl; [exact Hr|]. simpl. intros k. lia.
      * intros j Hj. apply Hdom. lia.
Qed.

Lemma select_loop_ok rest : ∀ seen s,
  ids = seen ++ rest → select_inv (length seen) s →
  ∃ s', for_each (enumerate_from (length seen) rest) s (select_step position ids count) = Ok s' ∧ select_inv (length ids) s'.
Proof.
  induction rest as [|id rest IH]; intros seen s Hsplit Hinv.
  { exists s. split; [done|]. by rewrite Hsplit, app_nil_r. }
  rewrite enumerate_from_cons. cbn [for_each].
  destruct (select_step_ok (length seen) id s) as (s' & -> & Hinv'); [|done|].
  { rewrite Hsplit. apply list_lookup_middle. done. }
  cbn [bind]. destruct (IH (seen ++ [id]) s') as (s'' & Hs & Hinv'').
  - by rewrite <- app_assoc.
  - by rewrite length_app, Nat.add_1_r.
  - exists s''. rewrite length_app, Nat.add_1_r in Hs. done.
Qed.
End select_loop.

(** ** First ledger positions *)

(** The ledger position of a page: the first entry that lists it. *)
Definition first_position (es : list ScannedReuseEntry) (id : Z) : option nat :=
  fst <$> list_find (λ e, page_id (entry e) = id) es.

Lemma first_position_snoc es e id :
  first_position (es ++ [e]) id =
  match first_position es id with
  | Some j => Some j
  | None => if decide (page_id (entry e) = id) then Some (length es) else None
  end.
Proof.
  unfold first_position. destruct (list_find _ es) as [[j x]|] eqn:E.
  - by rewrite (list_find_app_l _ es [e] j x E).
  - rewrite list_find_app_r by done. simpl. destruct (decide _); [|done]. by rewrite ?Nat.add_0_r.
Qed.

Lemma first_positions_spec es id : first_positions es !! id = first_position es id.
Proof.
  unfold first_positions, enumerate. induction es as [|e es IH] using rev_ind; [done|].
  assert (enumerate_from 0 (es ++ [e]) = enumerate_from 0 es ++ [(length es, e)]) as ->.
  { unfold enumerate_from. rewrite length_app, Nat.add_1_r, seq_S, zip_with_app by (by rewrite length_seq). done. }
  rewrite foldl_app, first_position_snoc, <- IH. clear IH. cbn [foldl].
  set (m := foldl _ _ _). destruct (m !! page_id (entry e)) as [j|] eqn:E.
  - destruct (m !! id) eqn:E2; [done|]. rewrite decide_False; [done|]. congruence.
  - destruct (decide (page_id (entry e) = id)) as [<-|Hne].
    + by rewrite E, lookup_insert_eq.
    + rewrite lookup_insert_ne by done. by destruct (m !! id).
Qed.


(** ** Runs of a sorted id list *)

Lemma sorted_lookup (l : list Z) i j x y :
  StronglySorted Z.lt l → (i < j)%nat → l !! i = Some x → l !! j = Some y → x < y.
Proof.
  intros Hs. revert i j. induction Hs as [|z l Hs IH Hz]; intros i j Hij Hi Hj; [done|].
  destruct j as [|j]; [lia|]. destruct i as [|i]; simpl in *; simplify_eq.
  - rewrite Forall_lookup in Hz. by eapply Hz.
  - apply (IH i j); [lia|done..].
Qed.

Lemma sorted_run_lookup (l : list Z) i p n :
  StronglySorted Z.lt l → l !! i = Some p → (∀ x, p ≤ x < p + Z.of_nat n → x ∈ l) →
  ∀ k, (k < n)%nat → l !! (i + k)%nat = Some (p + Z.of_nat k).
Proof.
  intros Hs Hi Hall k Hk. induction k as [|k IH].
  { rewrite Nat.add_0_r, Z.add_0_r. done. }
  specialize (IH ltac:(lia)). destruct (list_elem_of_lookup_1 l (p + Z.of_nat (S k))) as [j Hj]; [apply Hall; lia|].
  assert (i + k < j)%nat as Hij.
  { destruct (decide (i + k < j)%nat); [done|]. destruct (decide (j = i + k)%nat) as [->|]; [rewrite IH in Hj; simplify_eq; lia|].
    pose proof (sorted_lookup l j (i + k) _ _ Hs ltac:(lia) Hj IH). lia. }
  destruct (decide (j = i + S k)%nat) as [->|]; [done|].
  destruct (lookup_lt_is_Some_2 l (i + S k)) as [y Hy]; [apply lookup_lt_Some in Hj; lia|].
  pose proof (sorted_lookup l (i + k) (i + S k) _ _ Hs ltac:(lia) IH Hy).
  pose proof (sorted_lookup l (i + S k) j _ _ Hs ltac:(lia) Hy Hj). lia.
Qed.

(** Every page id of the run at [p] is listed by the scan. *)
Definition whole_run (es : list ScannedReuseEntry) (p : Z) (count : nat) : Prop :=
  ∀ x, p ≤ x < p + Z.of_nat count → is_Some (first_position es x).

(** [t] is the last ledger position of the run at [p]. *)
Definition run_through (es : list ScannedReuseEntry) (p : Z) (count t : nat) : Prop :=
  (∃ x, p ≤ x < p + Z.of_nat count ∧ first_position es x = Some t) ∧
  ∀ x j, p ≤ x < p + Z.of_nat count → first_position es x = Some j → (j ≤ t)%nat.

Section bridge.
Context (es : list ScannedReuseEntry) (count : nat).
Hypothesis Hcount : (0 < count)%nat.

Let ids := merge_sort Z.le (map_to_list (first_positions es)).*1.
Let at_ (j : nat) : nat := default 0%nat (first_position es (ids !!! j)).

Lemma scan_ids_sorted : StronglySorted Z.lt ids.
Proof. apply sorted_ids, NoDup_fst_map_to_list. Qed.

Lemma elem_of_scan_ids x : x ∈ ids ↔ is_Some (first_position es x).
Proof.
  unfold ids. rewrite elem_of_sorted, list_elem_of_fmap, <- first_positions_spec. split.
  - intros ([y j] & -> & H%elem_of_map_to_list). by exists j.
  - intros [j Hj]. exists (x, j). split; [done|]. by apply elem_of_map_to_list.
Qed.

Lemma scan_at j id : ids !! j = Some id → first_positions es !! id = Some (at_ j).
Proof.
  intros Hj. rewrite first_positions_spec. unfold at_. rewrite (list_lookup_total_correct _ _ _ Hj).
  destruct (proj1 (elem_of_scan_ids id)) as [k ->]; [by eapply list_elem_of_lookup_2|done].
Qed.

(** A run at index [s] is the run of page ids from the one at [s]. *)
Definition index_run (s : nat) (p : Z) : Prop :=
  ∀ k, (k < count)%nat → ids !! (s + k)%nat = Some (p + Z.of_nat k).

Lemma index_run_whole s p : index_run s p → whole_run es p count.
Proof.
  intros H x Hx. apply elem_of_scan_ids. apply (list_elem_of_lookup_2 _ (s + Z.to_nat (x - p))).
  rewrite H by lia. f_equal. lia.
Qed.

Lemma whole_run_index p : whole_run es p count → ∃ s, index_run s p.
Proof.
  intros H. assert (∀ x, p ≤ x < p + Z.of_nat count → x ∈ ids) as Hin by (intros x Hx; apply elem_of_scan_ids; auto).
  destruct (list_elem_of_lookup_1 ids p) as [s Hs]; [apply Hin; lia|]. exists s.
  intros k Hk. eapply sorted_run_lookup; [apply scan_ids_sorted|done|done|done].
Qed.

Lemma index_run_end s p : index_run s p → (s + count ≤ length ids)%nat ∧ run_end ids count (s + count - 1).
Proof.
  intros H. split.
  - pose proof (H (count - 1)%nat ltac:(lia)) as Hl%lookup_lt_Some. lia.
  - split; [lia|]. replace (s + count - 1 + 1 - count)%nat with s by lia. intros j Hj.
    pose proof (H (j - s)%nat ltac:(lia)) as H1. pose proof (H 0%nat ltac:(lia)) as H2.
    replace (s + (j - s))%nat with j in H1 by lia. rewrite Nat.add_0_r in H2.
    rewrite (list_lookup_total_correct _ _ _ H1), (list_lookup_total_correct _ _ _ H2). lia.
Qed.

Lemma run_end_index e : (e < length ids)%nat → run_end ids count e → ∃ p, index_run (e + 1 - count) p.
Proof.
  intros He [Hc Hr]. exists (ids !!! (e + 1 - count)%nat). intros k Hk.
  destruct (lookup_lt_is_Some_2 ids (e + 1 - count + k)) as [y Hy]; [lia|].
  rewrite Hy. f_equal. rewrite <- (list_lookup_total_correct _ _ _ Hy), Hr by lia. lia.
Qed.

Lemma index_run_at s p k :
  index_run s p → (k < count)%nat → first_position es (p + Z.of_nat k) = Some (at_ (s + k)).
Proof. intros H Hk. rewrite <- first_positions_spec. by apply scan_at, H. Qed.

Lemma run_through_max s p t :
  index_run s p → run_through es p count t ↔ is_max at_ t s (s + count - 1).
Proof.
  intros H. split.
  - intros [(x & Hx & Ht) Hle]. split.
    + exists (s + Z.to_nat (x - p))%nat. split; [lia|]. pose proof (index_run_at s p (Z.to_nat (x - p)) H ltac:(lia)) as E.
      replace (p + Z.of_nat (Z.to_nat (x - p))) with x in E by lia. congruence.
    + intros j Hj. apply (Hle (p + Z.of_nat (j - s))); [lia|]. rewrite (index_run_at s p) by (done || lia). do 2 f_equal. lia.
  - intros [(j & Hj & <-) Hle]. split.
    + exists (p + Z.of_nat (j - s)). split; [lia|]. rewrite (index_run_at s p) by (done || lia). do 2 f_equal. lia.
    + intros x j' Hx E. pose proof (index_run_at s p (Z.to_nat (x - p)) H ltac:(lia)) as E'.
      replace (p + Z.of_nat (Z.to_nat (x - p))) with x in E' by lia. rewrite E' in E. simplify_eq. apply Hle. lia.
Qed.

(** [ids[start..start + count].map(|id| position[id]).collect()]. *)
Lemma select_positions s p :
  index_run s p →
  ∃ run js, slice ids s (s + count) = Ok run ∧ collect (λ id, expect (first_positions es !! id)) run = Ok js ∧
    ∀ j, j ∈ js ↔ ∃ x, p ≤ x < p + Z.of_nat count ∧ first_position es x = Some j.
Proof.
  intros H. destruct (index_run_end s p H) as [Hlen _].
  assert (sub s (s + count) ids = run_ids p count) as Hsub.
  { apply list_eq_same_length with count; [apply length_run_ids|unfold sub; rewrite length_take, length_drop; lia|].
    intros k x y Hk. unfold sub, run_ids. rewrite lookup_take_lt, lookup_drop, H by lia.
    rewrite list_lookup_fmap, lookup_seq_lt by done. intros. by simplify_eq/=. }
  exists (run_ids p count), ((λ k, at_ (s + k)) <$> seq 0 count). split_and!.
  - unfold slice. rewrite decide_True, Hsub by lia. done.
  - apply collect_Ok. unfold run_ids. apply Forall2_fmap, Forall2_same_length_lookup_2; [done|].
    intros k x y Hx Hy. rewrite Hx in Hy. simplify_eq. apply lookup_seq in Hx as [-> Hk]. simpl.
    rewrite first_positions_spec, (index_run_at s p) by done. done.
  - intros j. rewrite list_elem_of_fmap. split.
    + intros (k & -> & Hk%elem_of_seq). exists (p + Z.of_nat k). split; [lia|]. apply index_run_at; [done|lia].
    + intros (x & Hx & E). exists (Z.to_nat (x - p)). split; [|apply elem_of_seq; lia].
      pose proof (index_run_at s p (Z.to_nat (x - p)) H ltac:(lia)) as E'.
      replace (p + Z.of_nat (Z.to_nat (x - p))) with x in E' by lia. congruence.
Qed.
End bridge.

(** C30: the reuse search never panics, and it selects the best run there is:
    when no [count] consecutive page ids are all listed by the scan, the scan
    is returned unchanged; otherwise the selected ledger positions are exactly
    the first positions of a run of [count] consecutive pages whose last
    ledger position is the smallest among all such runs, and the scan is cut
    right behind that position. *)
Theorem earliest_run_optimal (scan : ReuseScan) (count : nat) :
  (0 < count)%nat → Forall (λ e, in_u 64 (page_id (entry e))) (entries scan) →
  ∃ result, select_earliest_run scan count = Ok result ∧
    (((∀ p, ¬ whole_run (entries scan) p count) ∧ result = scan) ∨
     ∃ p t sel, whole_run (entries scan) p count ∧ run_through (entries scan) p count t ∧
       (∀ p' t', whole_run (entries scan) p' count → run_through (entries scan) p' count t' → (t ≤ t')%nat) ∧
       (∀ j, j ∈ sel ↔ ∃ x, p ≤ x < p + Z.of_nat count ∧ first_position (entries scan) x = Some j) ∧
       result = mkScan (take (t + 1) (entries scan)) (Some sel) (ledger_pages scan)).
Proof.
  intros Hc Hu. set (es := entries scan) in *. unfold select_earliest_run.
  rewrite (proj2 (Nat.eqb_neq count 0)) by lia. fold es. cbv zeta.
  set (ids := merge_sort Z.le (map_to_list (first_positions es)).*1).
  set (at_ j := default 0%nat (first_position es (ids !!! j))).
  assert (Forall (in_u 64) ids) as Hids.
  { apply Forall_forall. intros x Hx%elem_of_scan_ids. destruct Hx as [j Hj]. unfold first_position in Hj.
    apply fmap_Some in Hj as ([k e] & Hf & _). apply list_find_Some in Hf as (He & <- & _).
    rewrite Forall_lookup in Hu. by eapply Hu. }
  destruct (select_loop_ok (first_positions es) ids count at_ Hc Hids (scan_at es) ids [] (None, 0%nat, []))
    as ([[best rs] w] & Hrun & Hbest & _); [done|split; [|done]; intros e He; simpl in He; lia|].
  unfold enumerate, select_state in *. simpl length in Hrun. rewrite Hrun. clear Hrun. cbn [bind]. destruct best as [[t s]|].
  - destruct Hbest as (Hs & Hend & Hmax & Hmin).
    destruct (run_end_index es count Hc (s + count - 1) ltac:(fold ids; lia) Hend) as [p Hp].
    replace (s + count - 1 + 1 - count)%nat with s in Hp by lia.
    destruct (select_positions es count Hc s p Hp) as (run & js & Hrun & Hjs & Hiff). fold ids in Hrun. rewrite Hrun. cbn [bind]. rewrite Hjs.
    eexists. split; [done|]. right. exists p, t, (list_to_set js). split_and!; [| | | |done].
    + by eapply index_run_whole.
    + by eapply run_through_max.
    + intros p' t' Hw Ht. destruct (whole_run_index es count Hc p' Hw) as [s' Hs'].
      destruct (index_run_end es count Hc s' p' Hs') as [Hl He].
      apply (Hmin (s' + count - 1)%nat); [fold ids in Hl; lia|done|]. eapply run_through_max in Ht; [|done..].
      by replace (s' + count - 1 + 1 - count)%nat with s' by lia.
    + intros j. by rewrite elem_of_list_to_set.
  - eexists. split; [done|]. left. split; [|done]. intros p Hw.
    destruct (whole_run_index es count Hc p Hw) as [s' Hs']. destruct (index_run_end es count Hc s' p Hs') as [Hl He].
    apply (Hbest (s' + count - 1)%nat); [fold ids in Hl; lia|done].
Qed.

(** Pages 9, 4, 7, 5, 8: of the runs (4,5), (7,8), (8,9) the first ends
    earliest, at position 3. *)
Definition scan_example : ReuseScan :=
  mkScan ((λ p, mkScanned 20 1 (mkEntry p 3)) <$> [9; 4; 7; 5; 8]) None {[20]}.

Lemma earliest_run_optimal_witness :
  select_earliest_run scan_example 2 = Ok (mkScan (take 4 (entries scan_example)) (Some {[1%nat; 3%nat]}) {[20]}) ∧
  ∃ result, select_earliest_run scan_example 2 = Ok result ∧
    (((∀ p, ¬ whole_run (entries scan_example) p 2) ∧ result = scan_example) ∨
     ∃ p t sel, whole_run (entries scan_example) p 2 ∧ run_through (entries scan_example) p 2 t ∧
       (∀ p' t', whole_run (entries scan_example) p' 2 → run_through (entries scan_example) p' 2 t' → (t ≤ t')%nat) ∧
       (∀ j, j ∈ sel ↔ ∃ x, p ≤ x < p + Z.of_nat 2 ∧ first_position (entries scan_example) x = Some j) ∧
       result = mkScan (take (t + 1) (entries scan_example)) (Some sel) (ledger_pages scan_example)).
Proof.
  split; [vm_compute; reflexivity|].
  apply (earliest_run_optimal scan_example 2); [lia|]. repeat constructor; vm_compute; done.
Defined.

(** [find_contiguous_run] returns the [count] consecutive pages with the
    smallest first page id, and [None] exactly when the set has no such run. *)
Theorem contiguous_run_smallest (pages : gset Z) (count : nat) :
  (0 < count)%nat → (∀ x, x ∈ pages → in_u 64 x) →
  match find_contiguous_run pages count with
  | Some run => ∃ p, run = run_ids p count ∧ has_run pages p count ∧ ∀ p', has_run pages p' count → p ≤ p'
  | None => ∀ p, ¬ has_run pages p count
  end.
Proof.
  intros Hc Hu. unfold find_contiguous_run. set (ids := merge_sort Z.le (elements pages)).
  assert (∀ x, x ∈ ids ↔ x ∈ pages) as Hel by (intros x; unfold ids; by rewrite elem_of_sorted, elem_of_elements).
  pose proof (search_loop count ids [] [] Hc) as Hs.
  specialize (Hs (sorted_ids _ (NoDup_elements _))). specialize (Hs ltac:(apply Forall_forall; intros x Hx; by apply Hu, Hel)).
  assert (search_inv count [] []) as Hinv.
  { split; [|done]. intros p Hp. specialize (Hp p ltac:(lia)). by apply elem_of_nil in Hp. }
  specialize (Hs Hinv). destruct (foldl _ _ ids) as [run|run].
  - destruct Hs as (q & -> & Hq & Hmin). exists q. split_and!; [done| |].
    + intros x Hx. by apply Hel, Hq.
    + intros p' Hp'. destruct (decide (q ≤ p')); [done|]. destruct (Hmin p'); [lia|]. intros x Hx. by apply Hel, Hp'.
  - intros p Hp. apply (Hs p). intros x Hx. by apply Hel, Hp.
Qed.

Lemma contiguous_run_smallest_witness :
  find_contiguous_run {[12; 3; 11; 8; 10; 4]} 3 = Some [10; 11; 12] ∧
  match find_contiguous_run {[12; 3; 11; 8; 10; 4]} 3 with
  | Some run => ∃ p, run = run_ids p 3 ∧ has_run {[12; 3; 11; 8; 10; 4]} p 3 ∧ ∀ p', has_run {[12; 3; 11; 8; 10; 4]} p' 3 → p ≤ p'
  | None => ∀ p, ¬ has_run {[12; 3; 11; 8; 10; 4]} p 3
  end.
Proof.
  split; [vm_compute; reflexivity|]. apply (contiguous_run_smallest {[12; 3; 11; 8; 10; 4]} 3); [lia|].
  intros x Hx. assert (x = 12 ∨ x = 3 ∨ x = 11 ∨ x = 8 ∨ x = 10 ∨ x = 4) by set_solver. unfold in_u. lia.
Defined.

Lemma tail_loop_spec rounds : ∀ candidates cursor tail,
  0 ≤ cursor < 2 ^ 64 →
  ∃ k, (k ≤ rounds)%nat ∧
    (∀ x, x ∈ tail_loop rounds candidates cursor tail ↔ x ∈ tail ∨ cursor - Z.of_nat k ≤ x < cursor) ∧
    (∀ x, cursor - Z.of_nat k ≤ x < cursor → x ∈ candidates ∧ SUPERBLOCK_SLOTS ≤ x) ∧
    (k = rounds ∨ cursor - Z.of_nat k - 1 < SUPERBLOCK_SLOTS ∨ cursor - Z.of_nat k - 1 ∉ candidates).
Proof.
  unfold SUPERBLOCK_SLOTS. induction rounds as [|rounds IH]; intros candidates cursor tail Hcur; cbn [tail_loop].
  { exists 0%nat. split_and!; [lia|intros x; split; [auto|intros [?|?]; [done|lia]]|lia|by left]. }
  assert ((cursor - 1 < 2 ∨ cursor - 1 ∉ candidates) → ∃ k, (k ≤ S rounds)%nat ∧
    (∀ x, x ∈ tail ↔ x ∈ tail ∨ cursor - Z.of_nat k ≤ x < cursor) ∧
    (∀ x, cursor - Z.of_nat k ≤ x < cursor → x ∈ candidates ∧ 2 ≤ x) ∧
    (k = S rounds ∨ cursor - Z.of_nat k - 1 < 2 ∨ cursor - Z.of_nat k - 1 ∉ candidates)) as Hstop.
  { intros Hs. exists 0%nat. split_and!; [lia|intros x; split; [auto|intros [?|?]; [done|lia]]|lia|].
    right. by rewrite Z.sub_0_r. }
  destruct (try_u 64 (cursor - 1)) as [page|] eqn:E.
  - apply try_u_Some in E as [-> Hin]. unfold SUPERBLOCK_SLOTS in *. destruct (Z.ltb_spec (cursor - 1) 2) as [Hlt|Hge].
    { apply Hstop. by left. }
    case_bool_decide as Hc; [|apply Hstop; by right]. cbn [orb negb].
    destruct (IH candidates (cursor - 1) ({[cursor - 1]} ∪ tail)) as (k & Hk & Hx & Hall & Hend); [unfold in_u in *; lia|].
    exists (S k). split_and!; [lia| | |].
    + intros x. rewrite Hx, elem_of_union, elem_of_singleton. intuition lia.
    + intros x Hx'. destruct (decide (x = cursor - 1)) as [->|]; [done|]. apply Hall. lia.
    + replace (cursor - Z.of_nat (S k) - 1) with (cursor - 1 - Z.of_nat k - 1) by lia. intuition lia.
  - apply Hstop. left. destruct (decide (cursor - 1 < 2)); [done|]. rewrite try_u_in in E; [done|]. unfold in_u. lia.
Qed.

(** The tail the compactor cuts off is the longest block of reclaimable
    data pages that ends at the end of the file, up to 64 pages: every page of
    it is a candidate, none is a superblock slot, and the block stops only at
    the limit, at the superblocks or at a page that is not a candidate. *)
Theorem reclaimable_tail_maximal (candidates : gset Z) (page_count : Z) :
  in_u 64 page_count →
  ∃ k : nat, (k ≤ COMPACTION_TRUNCATE_PAGE_LIMIT)%nat ∧
    (∀ x, x ∈ reclaimable_tail candidates page_count ↔ page_count - Z.of_nat k ≤ x < page_count) ∧
    (∀ x, x ∈ reclaimable_tail candidates page_count → x ∈ candidates ∧ SUPERBLOCK_SLOTS ≤ x) ∧
    (k = COMPACTION_TRUNCATE_PAGE_LIMIT ∨ page_count - Z.of_nat k - 1 < SUPERBLOCK_SLOTS ∨
     page_count - Z.of_nat k - 1 ∉ candidates).
Proof.
  intros Hin. unfold reclaimable_tail.
  destruct (tail_loop_spec COMPACTION_TRUNCATE_PAGE_LIMIT candidates page_count ∅ Hin) as (k & Hk & Hx & Hall & Hend).
  exists k. assert (∀ x, x ∈ tail_loop COMPACTION_TRUNCATE_PAGE_LIMIT candidates page_count ∅ ↔
    page_count - Z.of_nat k ≤ x < page_count) as Hiff by (intros x; rewrite Hx; set_solver).
  split_and!; [done|done| |done]. intros x Hx'. by apply Hall, Hiff.
Qed.

Lemma reclaimable_tail_maximal_witness :
  elements (reclaimable_tail {[9; 8; 5; 1]} 10) ≡ₚ [8; 9] ∧
  ∃ k : nat, (k ≤ COMPACTION_TRUNCATE_PAGE_LIMIT)%nat ∧
    (∀ x, x ∈ reclaimable_tail {[9; 8; 5; 1]} 10 ↔ 10 - Z.of_nat k ≤ x < 10) ∧
    (∀ x, x ∈ reclaimable_tail {[9; 8; 5; 1]} 10 → x ∈ ({[9; 8; 5; 1]} : gset Z) ∧ SUPERBLOCK_SLOTS ≤ x) ∧
    (k = COMPACTION_TRUNCATE_PAGE_LIMIT ∨ 10 - Z.of_nat k - 1 < SUPERBLOCK_SLOTS ∨
     10 - Z.of_nat k - 1 ∉ ({[9; 8; 5; 1]} : gset Z)).
Proof.
  split; [vm_compute; constructor|]. apply (reclaimable_tail_maximal {[9; 8; 5; 1]} 10). vm_compute. done.
Defined.
