(* ===== verification/Pager.v ===== *)
(** The pager: [devondb-storage/src/pager.rs].

    Creation and opening of a database image, the dual-slot superblock
    protocol, data-page reads through the optional page cache, page writes and
    file-tail allocation.  Everything is proved against [PagerBackend]: the
    local file and the memory backend are two implementations of it.

    The writer mutex serializes the write side end to end, so each writing
    operation is one function on the pager state; an operation returns its
    result together with the state it leaves, which matters on error paths. *)

From stdpp Require Import gmap.
From S2P Require Import Prelude Bytes Superblock FreePages Budget PageCache Backend.

Definition SUPERBLOCK_HEADER_LEN : nat := 64.
Definition SUPERBLOCK_SLOTS : Z := 2.
Definition VALID_PAGE_SIZES : list Z := [4096; 8192; 16384; 32768; 65536].

Record PagerState := mkState { superblock : Superblock; authoritative_slot : Z }.

Record FreeState := mkFree {
  extension : option SuperblockExtension;
  degraded : bool;
  pending_extension : option SuperblockExtension;
  consumed_in_session : gmap Z Z;
  reused_in_session : Z;
  truncated_in_session : Z;
  deferred_reuse : gset Z;
  pending_deferred_reuse : list Z;
  retired_total_floor : Z;
}.

Definition free_default : FreeState := mkFree None false None ∅ 0 0 ∅ [] 0.

(** [path], the mutexes and the two sticky write facts ([wrote_zone_maps],
    [wrote_column_encodings]) belong to operations outside this file. *)
Record Pager (B : Type) := mkPager {
  backend : B;
  psize : Z;
  state : PagerState;
  cache : option PageCache;
  page_reads : Z;
  free : FreeState;
  min_pin : Z;
}.
Arguments mkPager {B}.
Arguments backend {B}.
Arguments psize {B}.
Arguments state {B}.
Arguments cache {B}.
Arguments page_reads {B}.
Arguments free {B}.
Arguments min_pin {B}.

(** ** Free functions *)

Definition validate_file_length (file_len page_size : Z) : outcome () :=
  let minimum_len := page_size * SUPERBLOCK_SLOTS in
  if file_len <? minimum_len then Err (Corrupt "database file length {file_len} is shorter than two pages") else
  if negb (file_len mod page_size =? 0) then Err (Corrupt "database file length {file_len} is not page-aligned") else
  Ok tt.

Definition initial_superblock (page_size : Z) (db_id : list Z) : Superblock :=
  mkSuperblock SUPPORTED_FORMAT_VERSION SUPPORTED_FORMAT_VERSION 0 page_size db_id 0 0.

Definition selected_slot (a b : outcome Superblock) : Z :=
  match a, b with
  | Ok a, Ok b => if checkpoint_lsn a <? checkpoint_lsn b then 1 else 0
  | Ok _, _ => 0
  | _, Ok _ => 1
  | _, _ => 0
  end.

Definition ensure_data_page (page_id : Z) : outcome () :=
  if page_id <? SUPERBLOCK_SLOTS then Err (InvalidArgument "pages 0 and 1 are reserved for superblocks") else Ok tt.

Definition page_offset (page_id page_size : Z) : outcome Z :=
  ok_or (try_u 64 (page_id * page_size)) (InvalidArgument "page offset overflows u64").

Definition ensure_commit_is_valid (current next : Superblock) : outcome () :=
  if negb (page_size next =? page_size current)
  then Err (InvalidArgument "a commit cannot change the database page size") else
  if bool_decide (db_id next ≠ db_id current)
  then Err (InvalidArgument "a commit cannot change the database identifier") else
  if checkpoint_lsn next <=? checkpoint_lsn current
  then Err (InvalidArgument "a committed superblock must advance the checkpoint LSN") else
  Ok tt.

(** [Option::or]. *)
Definition opt_or {A} (a b : option A) : option A := match a with Some _ => a | None => b end.

(** ** The state and error monad of the operations *)

Section monad.
Context {B : Type}.

Definition PM (A : Type) : Type := Pager B → outcome A * Pager B.

Definition pret {A} (a : A) : PM A := λ p, (Ok a, p).
Definition pbind {A C} (m : PM A) (k : A → PM C) : PM C := λ p,
  match m p with
  | (Ok a, p) => k a p
  | (Err e, p) => (Err e, p)
  | (Panic, p) => (Panic, p)
  end.
Definition lift {A} (m : outcome A) : PM A := λ p, (m, p).
Definition reads {A} (f : Pager B → outcome A) : PM A := λ p, (f p, p).
Definition modify (f : Pager B → Pager B) : PM () := λ p, (Ok tt, f p).

Definition set_backend (b : B) (p : Pager B) : Pager B :=
  mkPager b (psize p) (state p) (cache p) (page_reads p) (free p) (min_pin p).
Definition set_state (s : PagerState) (p : Pager B) : Pager B :=
  mkPager (backend p) (psize p) s (cache p) (page_reads p) (free p) (min_pin p).
Definition set_cache (c : option PageCache) (p : Pager B) : Pager B :=
  mkPager (backend p) (psize p) (state p) c (page_reads p) (free p) (min_pin p).
Definition set_reads (n : Z) (p : Pager B) : Pager B :=
  mkPager (backend p) (psize p) (state p) (cache p) n (free p) (min_pin p).
Definition set_free (f : FreeState) (p : Pager B) : Pager B :=
  mkPager (backend p) (psize p) (state p) (cache p) (page_reads p) f (min_pin p).
Definition set_min_pin (n : Z) (p : Pager B) : Pager B :=
  mkPager (backend p) (psize p) (state p) (cache p) (page_reads p) (free p) n.

Lemma pbind_ret {A C} (m : PM A) (k : A → PM C) p a p' : m p = (Ok a, p') → pbind m k p = k a p'.
Proof. unfold pbind. by intros ->. Qed.
Lemma pbind_err {A C} (m : PM A) (k : A → PM C) p e p' : m p = (Err e, p') → pbind m k p = (Err e, p').
Proof. unfold pbind. by intros ->. Qed.
End monad.
Arguments PM : clear implicits.

Notation "'let*' x := m 'in' k" := (pbind m (λ x, k)) (at level 200, x pattern, m at level 100, k at level 200).

Section pager.
Context {B : Type} `{!PagerBackend B} {CR : Crc32c}.

(** [self.backend.write_all_at(offset, page)?] and [self.backend.sync_all()?]. *)
Definition backend_write (offset : Z) (page : list Z) : PM B () := λ p,
  let '(r, b) := write_all_at (backend p) offset page in (r, set_backend b p).
Definition backend_sync : PM B () := reads (λ p, sync_all (backend p)).

(** ** Creation and opening *)

Definition encode_page (sb : Superblock) : outcome (list Z) :=
  let! header := encode sb (replicate SUPERBLOCK_HEADER_LEN 0) in
  let page := replicate (Z.to_nat (page_size sb)) 0 in
  copy_at page 0 SUPERBLOCK_HEADER_LEN header.

Definition pager_new (b : B) (sb : Superblock) (slot : Z) (f : FreeState) : Pager B :=
  mkPager b (page_size sb) (mkState sb slot) None 0 f 0.

(** The byte operations of [create] and [create_memory_for_test]. *)
Definition create (b : B) (page_size : Z) (db_id : list Z) : outcome (Pager B) :=
  let sb := initial_superblock page_size db_id in
  let! page := encode_page sb in
  ((let* _ := backend_write 0 page in
    let* _ := backend_write page_size page in
    let* _ := backend_sync in
    reads (λ p, Ok p)) (pager_new b sb 0 free_default)).1.

Definition read_slot (b : B) (offset : Z) (expected_page_size : option Z) : outcome Superblock :=
  let! header := read_exact_at b offset SUPERBLOCK_HEADER_LEN in
  let! sb := decode header in
  match expected_page_size with
  | Some expected => if negb (expected =? page_size sb) then Err (Corrupt "superblock slots disagree on page size") else Ok sb
  | None => Ok sb
  end.

Fixpoint probe_slots (b : B) (candidates : list Z) : outcome Superblock :=
  match candidates with
  | [] => Err (Corrupt "could not locate a valid second superblock slot")
  | candidate :: rest =>
      match read_slot b candidate (Some candidate) with
      | Ok sb => Ok sb
      | Err _ => probe_slots b rest
      | Panic => Panic
      end
  end.

Definition read_second_slot (b : B) (page_size : option Z) : outcome Superblock :=
  match page_size with
  | Some page_size => read_slot b page_size (Some page_size)
  | None => probe_slots b VALID_PAGE_SIZES
  end.

Definition read_free_state (b : B) (sb : Superblock) (slot : Z) : outcome FreeState :=
  if Z.land (feature_flags sb) FREE_PAGES_FLAG =? 0 then Ok free_default else
  for_each [0; 1] free_default (λ st s,
    match read_exact_at b (s * page_size sb) EXTENSION_END with
    | Err _ => Ok st
    | Panic => Panic
    | Ok prefix =>
        let! decoded := decode_from prefix in
        match decoded with
        | Some ext =>
            Ok (mkFree (if s =? slot then Some ext else extension st) (degraded st) (pending_extension st)
              (consumed_in_session st) (reused_in_session st) (truncated_in_session st) (deferred_reuse st)
              (pending_deferred_reuse st) (Z.max (retired_total_floor st) (retired_total ext)))
        | None =>
            Ok (mkFree (extension st) (if s =? slot then true else degraded st) (pending_extension st)
              (consumed_in_session st) (reused_in_session st) (truncated_in_session st) (deferred_reuse st)
              (pending_deferred_reuse st) (retired_total_floor st))
        end
    end).

Definition open_backend (b : B) : outcome (Pager B) :=
  let slot_zero := read_slot b 0 None in
  let page_size := match slot_zero with Ok sb => Some (page_size sb) | _ => None end in
  let slot_one := read_second_slot b page_size in
  let slot := selected_slot slot_zero slot_one in
  let! sb := choose_authoritative slot_zero slot_one in
  let! file_len := len b in
  let! _ := validate_file_length file_len (Superblock.page_size sb) in
  let! f := read_free_state b sb slot in
  Ok (pager_new b sb slot f).

(** Attach the shared budget and activate the cache. *)
Definition with_budget (bud : MemoryBudget) (p : Pager B) : Pager B :=
  set_cache (Some (cache_new (psize p) bud)) p.

(** ** Data pages *)

Definition readable_page_offset (page_id : Z) (p : Pager B) : outcome Z :=
  let! _ := ensure_data_page page_id in
  let! offset := page_offset page_id (psize p) in
  let! end_ := ok_or (try_u 64 (offset + psize p)) (InvalidArgument "page end offset overflows u64") in
  let! file_len := len (backend p) in
  if file_len <? end_ then Err (InvalidArgument "page is beyond the end of the database file") else Ok offset.

Definition read_page_at (offset : Z) (p : Pager B) : outcome (list Z) :=
  read_exact_at (backend p) offset (Z.to_nat (psize p)).

(** The miss path of [read_page_ref]: charge a frame, read, insert. *)
Definition fill_frame (pinned : Z → bool) (page_id offset : Z) (c : PageCache) : PM B (list Z) :=
  let* (charged, c) := lift (charge_after_reclaim pinned c) in
  let* _ := modify (set_cache (Some c)) in
  if negb charged then reads (read_page_at offset) else λ p,
  match read_page_at offset p with
  | Ok page =>
      (Ok page, set_cache (Some (mkCache (insert (table c) page_id page) (budget c) (frame_charge c))) p)
  | Err error =>
      match release (budget c) (frame_charge c) with
      | Ok b => (Err error, set_cache (Some (mkCache (table c) b (frame_charge c))) p)
      | _ => (Panic, p)
      end
  | Panic => (Panic, p)
  end.

Definition read_page_ref (pinned : Z → bool) (page_id : Z) : PM B (list Z) :=
  let* offset := reads (readable_page_offset page_id) in
  let* _ := modify (λ p, set_reads (wrap_u 64 (page_reads p + 1)) p) in
  let* cached := reads (λ p, Ok (cache p)) in
  match cached with
  | None => reads (read_page_at offset)
  | Some c =>
      match get (table c) page_id with
      | (Some page, t) =>
          let* _ := modify (set_cache (Some (mkCache t (budget c) (frame_charge c)))) in pret page
      | (None, t) => fill_frame pinned page_id offset (mkCache t (budget c) (frame_charge c))
      end
  end.

Definition write_page_locked (page_id : Z) (data : list Z) : PM B () :=
  let* offset := reads (λ p, page_offset page_id (psize p)) in
  let* _ := backend_write offset data in
  let* cached := reads (λ p, Ok (cache p)) in
  match cached with
  | None => pret tt
  | Some c => let* c := lift (invalidate c page_id) in modify (set_cache (Some c))
  end.

Definition write_page (page_id : Z) (data : list Z) : PM B () :=
  let* _ := lift (ensure_data_page page_id) in
  let* size := reads (λ p, Ok (psize p)) in
  if negb (zlen data =? size)
  then lift (Err (InvalidArgument "page data length must equal the database page size")) else
  write_page_locked page_id data.

Fixpoint append_pages (file_len page_size : Z) (indices : list Z) : PM B () :=
  match indices with
  | [] => pret tt
  | index :: rest =>
      let* run := lift (ok_or (try_u 64 (page_size * index)) (InvalidArgument "page run length overflows u64")) in
      let* offset := lift (ok_or (try_u 64 (file_len + run)) (InvalidArgument "page run end overflows u64")) in
      let* _ := backend_write offset (replicate (Z.to_nat page_size) 0) in
      append_pages file_len page_size rest
  end.

Definition append_run_locked (count : nat) : PM B Z :=
  let* page_size := reads (λ p, Ok (psize p)) in
  let* file_len := reads (λ p, len (backend p)) in
  if negb (file_len mod page_size =? 0) then lift (Err (Corrupt "database file length is not page-aligned")) else
  let page_id := file_len / page_size in
  if page_id <? SUPERBLOCK_SLOTS then lift (Err (Corrupt "database file is missing a superblock page")) else
  let* _ := append_pages file_len page_size (Z.of_nat <$> seq 0 count) in
  pret page_id.

(** [unwrap_or(0)]: an unreadable length counts as no page. *)
Definition page_count (p : Pager B) : Z :=
  match len (backend p) with Ok length => length / psize p | _ => 0 end.

Definition is_reusable_page_id (page_id : Z) (p : Pager B) : bool :=
  is_ok (ensure_data_page page_id) && (page_id <? page_count p).

Definition shed_cache (pinned : Z → bool) (bytes : Z) : PM B bool := λ p,
  match cache p with
  | None => (Ok false, p)
  | Some c =>
      match shed pinned c bytes with
      | Ok (any, c) => (Ok any, set_cache (Some c) p)
      | Err e => (Err e, p)
      | Panic => (Panic, p)
      end
  end.

(** ** The superblock protocol *)

Definition encode_slot_page (sb : Superblock) (include_pending : bool) (p : Pager B) : outcome (list Z) :=
  let! page := encode_page sb in
  if Z.land (feature_flags sb) FREE_PAGES_FLAG =? 0 then Ok page else
  let ext :=
    if include_pending
    then opt_or (pending_extension (free p)) (extension (free p))
    else extension (free p) in
  match ext with Some e => encode_into e page | None => Ok page end.

(** The floor after a failed flip: the slot may be durable. *)
Definition failed_flip (f : FreeState) : FreeState :=
  match pending_extension f with
  | Some pending =>
      mkFree (extension f) (degraded f) (pending_extension f) (consumed_in_session f) (reused_in_session f)
        (truncated_in_session f) (deferred_reuse f) (pending_deferred_reuse f)
        (Z.max (retired_total_floor f) (retired_total pending))
  | None => f
  end.

(** The promotion after a successful flip. *)
Definition promote_pending (f : FreeState) : FreeState :=
  match pending_extension f with
  | Some pending =>
      mkFree (Some pending) false None (consumed_in_session f) (reused_in_session f) (truncated_in_session f)
        (foldl (λ s page_id, s ∖ {[page_id]}) (deferred_reuse f) (pending_deferred_reuse f)) [] (retired_total_floor f)
  | None => f
  end.

Definition commit_superblock (next : Superblock) : PM B () :=
  let* st := reads (λ p, Ok (state p)) in
  let* _ := lift (ensure_commit_is_valid (superblock st) next) in
  let* page := reads (encode_slot_page next true) in
  let next_slot := 1 - authoritative_slot st in
  let* size := reads (λ p, Ok (psize p)) in
  let* _ := backend_write (next_slot * size) page in
  let* _ := λ p, match sync_all (backend p) with
    | Err error => (Err error, set_free (failed_flip (free p)) p)
    | r => (r, p)
    end in
  let* _ := modify (set_state (mkState next next_slot)) in
  modify (λ p, set_free (promote_pending (free p)) p).

Definition with_flags (sb : Superblock) (flags : Z) : Superblock :=
  mkSuperblock (format_version sb) (min_reader_version sb) flags (page_size sb) (db_id sb)
    (checkpoint_lsn sb) (catalog_root sb).

(** One iteration of the slot loop of [commit_feature_flags]. *)
Definition publish_slot (slot : Z) (page : list Z) : PM B () :=
  let* size := reads (λ p, Ok (psize p)) in
  let* _ := backend_write (slot * size) page in
  backend_sync.

Definition commit_feature_flags (flags : Z) : PM B () :=
  let* st := reads (λ p, Ok (state p)) in
  if feature_flags (superblock st) =? flags then pret tt else
  let sb := with_flags (superblock st) flags in
  let* page := reads (encode_slot_page sb false) in
  let other_slot := 1 - authoritative_slot st in
  let* _ := publish_slot other_slot page in
  let* _ := publish_slot (authoritative_slot st) page in
  modify (λ p, set_state (mkState sb (authoritative_slot (state p))) p).

Definition raise_min_pin (candidate : Z) (p : Pager B) : Pager B := set_min_pin (Z.max (min_pin p) candidate) p.

Definition degrade_free_pages_locked (p : Pager B) : Pager B :=
  let f := free p in
  set_free (mkFree None true (pending_extension f) ∅ (reused_in_session f) (truncated_in_session f) (deferred_reuse f)
    (pending_deferred_reuse f)
    (match extension f with Some e => Z.max (retired_total_floor f) (retired_total e) | None => retired_total_floor f end)) p.

Definition has_free_pages_ledger (p : Pager B) : bool :=
  match opt_or (pending_extension (free p)) (extension (free p)) with
  | Some e => has_ledger e
  | None => false
  end.
End pager.

(** ** What an image holds *)

(** The header bytes of a superblock slot. *)
Definition slot_header (img : list Z) (ps s : Z) : list Z := sub (Z.to_nat (s * ps)) (Z.to_nat (s * ps) + 64) img.

(** A page-aligned image of at least two pages, the first of them zero past the
    extension (where a smaller page size would look for slot 1). *)
Record disk_wf (img : list Z) (ps : Z) : Prop := {
  dw_bytes : is_bytes img;
  dw_ps : valid_page_size ps = true;
  dw_aligned : zlen img mod ps = 0;
  dw_len : 2 * ps ≤ zlen img < 2 ^ 64;
  dw_tail : sub 92 (Z.to_nat ps) img = replicate (Z.to_nat ps - 92) 0;
}.

Lemma valid_page_size_cases ps : valid_page_size ps = true → ps ∈ VALID_PAGE_SIZES.
Proof.
  unfold valid_page_size, is_power_of_two, MIN_PAGE_SIZE, MAX_PAGE_SIZE, VALID_PAGE_SIZES. intros Hv. reflect_bools.
  pose proof (Z.log2_spec ps ltac:(lia)) as [Hlo Hhi].
  assert (ps = 2 ^ Z.log2 ps) as Hpow.
  { destruct (decide (ps = 2 ^ Z.log2 ps)) as [|Hne]; [done|]. exfalso.
    pose proof (Z.log2_nonneg ps).
    assert (Z.log2 (ps - 1) = Z.log2 ps) as Hl by (apply Z.log2_unique; lia).
    assert (Z.testbit (Z.land ps (ps - 1)) (Z.log2 ps) = true) as Hbit.
    { rewrite Z.land_spec, Z.bit_log2 by lia. rewrite <- Hl at 1. by rewrite Z.bit_log2 by lia. }
    match goal with H : Z.land _ _ = 0 |- _ => rewrite H, Z.bits_0 in Hbit end. done. }
  assert (12 ≤ Z.log2 ps) by (apply (Z.log2_le_mono 4096 ps); lia).
  assert (Z.log2 ps ≤ 16) by (apply (Z.log2_le_mono ps 65536); lia).
  assert (Z.log2 ps = 12 ∨ Z.log2 ps = 13 ∨ Z.log2 ps = 14 ∨ Z.log2 ps = 15 ∨ Z.log2 ps = 16) as E by lia.
  rewrite Hpow. destruct E as [->|[->|[->|[->| ->]]]]; simpl; set_solver.
Qed.

Lemma disk_ps_bounds img ps : disk_wf img ps → 4096 ≤ ps ≤ 65536.
Proof.
  intros [_ Hv _ _ _]. unfold valid_page_size, MIN_PAGE_SIZE, MAX_PAGE_SIZE in Hv. reflect_bools. lia.
Qed.

(** Every byte of [m] is the old or the new one: what a crash during a write
    may leave. *)
Definition torn (old new m : list Z) : Prop :=
  length old = length new ∧ length m = length new ∧ ∀ i, m !! i = old !! i ∨ m !! i = new !! i.

Lemma lookup_sub {A} a b (l : list A) i : (b ≤ length l)%nat → (i < b - a)%nat → sub a b l !! i = l !! (a + i)%nat.
Proof. intros Hb Hi. unfold sub. rewrite lookup_take_lt, lookup_drop by lia. done. Qed.

Lemma torn_sub a b old new m : (a ≤ b ≤ length new)%nat → torn old new m → torn (sub a b old) (sub a b new) (sub a b m).
Proof.
  intros Hab (Hl & Hm & Hi). split_and!; [rewrite !length_sub; lia..|]. intros i.
  destruct (decide (i < b - a)%nat) as [Hlt|Hge].
  - rewrite !lookup_sub by lia. apply Hi.
  - left. rewrite !lookup_ge_None_2; [done|rewrite length_sub; lia..].
Qed.

Lemma torn_same l m : torn l l m → m = l.
Proof. intros (_ & _ & Hi). apply list_eq. intros i. by destruct (Hi i). Qed.

Lemma torn_bytes old new m : torn old new m → is_bytes old → is_bytes new → is_bytes m.
Proof.
  intros (_ & _ & Hi) Ho Hn. apply Forall_lookup. intros i x Hx.
  destruct (Hi i) as [E|E]; rewrite E in Hx; [by eapply (Forall_lookup_1 _ old)|by eapply (Forall_lookup_1 _ new)].
Qed.

(** What open makes of the two slots: [None] is a damaged one. *)
Definition arbitrate (o0 o1 : option Superblock) : option (Superblock * Z) :=
  match o0, o1 with
  | Some a, Some b => if checkpoint_lsn a <? checkpoint_lsn b then Some (b, 1) else Some (a, 0)
  | Some a, None => Some (a, 0)
  | None, Some b => Some (b, 1)
  | None, None => None
  end.

Definition set_slot (s : Z) (o : option Superblock) (os : option Superblock * option Superblock) :
    option Superblock * option Superblock :=
  if s =? 0 then (o, os.2) else (os.1, o).

Definition slot_of (s : Z) (os : option Superblock * option Superblock) : option Superblock :=
  if s =? 0 then os.1 else os.2.

(** Slot [s] holds [sb], and the other slot does not win over it: it is
    damaged, or older, or of the same LSN and either slot 1 or identical. *)
Definition authoritative (os : option Superblock * option Superblock) (sb : Superblock) (s : Z) : Prop :=
  (s = 0 ∨ s = 1) ∧ slot_of s os = Some sb ∧
  match slot_of (1 - s) os with
  | None => True
  | Some other =>
      checkpoint_lsn other < checkpoint_lsn sb ∨ checkpoint_lsn other = checkpoint_lsn sb ∧ (s = 0 ∨ other = sb)
  end.

Ltac slot_cases os :=
  unfold authoritative, set_slot, slot_of in *; destruct os as [[?a|] [?b|]]; simpl in *; try done.
Ltac ltb_cases := match goal with |- context [?x <? ?y] => destruct (Z.ltb_spec x y) end.

Lemma authoritative_chosen os sb s :
  authoritative os sb s → ∃ s', arbitrate os.1 os.2 = Some (sb, s') ∧ authoritative os sb s'.
Proof.
  intros ([-> | ->] & Hs & Ho); slot_cases os; simplify_eq; try destruct Ho as [?|[? [?|?]]]; simplify_eq;
    try ltb_cases; try lia; eexists; (split; [done|]); simpl; auto 6.
Qed.

(** The slot that is not the authoritative one may be damaged or replaced. *)
Lemma authoritative_lost os sb s : authoritative os sb s → authoritative (set_slot (1 - s) None os) sb s.
Proof. intros ([-> | ->] & Hs & _); slot_cases os; auto. Qed.

Lemma authoritative_won os sb s next :
  authoritative os sb s → checkpoint_lsn sb < checkpoint_lsn next →
  authoritative (set_slot (1 - s) (Some next) os) next (1 - s).
Proof. intros ([-> | ->] & Hs & _) Hlt; slot_cases os; simplify_eq; auto. Qed.

(** Publishing the same LSN: the first write decides for the new superblock
    when it goes to slot 0; the second one always does. *)
Lemma authoritative_flags os sb s sb' (os1 := set_slot (1 - s) (Some sb') os) :
  authoritative os sb s → checkpoint_lsn sb' = checkpoint_lsn sb →
  authoritative os1 (if s =? 0 then sb else sb') 0 ∧
  authoritative (set_slot s None os1) sb' (1 - s) ∧ authoritative (set_slot s (Some sb') os1) sb' s.
Proof.
  intros ([-> | ->] & Hs & Ho) Heq; unfold os1; slot_cases os; simplify_eq; simpl; split_and!; auto;
    right; auto.
Qed.

(** ** Opening an image *)

Section open_proof.
Context {CR : Crc32c}.

Definition slot_holds (img : list Z) (ps s : Z) (o : option Superblock) : Prop :=
  match o with
  | Some sb => decode (slot_header img ps s) = Ok sb ∧ page_size sb = ps
  | None => ∃ m, decode (slot_header img ps s) = Err (Corrupt m)
  end.

Definition slots_hold (img : list Z) (ps : Z) (os : option Superblock * option Superblock) : Prop :=
  slot_holds img ps 0 os.1 ∧ slot_holds img ps 1 os.2.

Lemma decode_zeros : decode (replicate 64 0) = Err (Corrupt "invalid superblock magic").
Proof. reflexivity. Qed.

Lemma decode_bad_crc h :
  length h = 64%nat → crc32c (take 60 h) ≠ from_le (sub 60 64 h) → ∃ m, decode h = Err (Corrupt m).
Proof.
  intros Hl Hc. unfold decode, decode_with_masks, HEADER_LEN, CHECKSUM_OFFSET.
  rewrite bool_decide_eq_false_2 by lia. rewrite !slice_Ok, read_u32_Ok by lia. cbn [bind Nat.add].
  case_bool_decide; [by eexists|]. destruct (Z.eqb_spec (crc32c (sub 0 60 h)) (from_le (sub 60 64 h))) as [E|E]; [|by eexists].
  destruct Hc. rewrite <- E. unfold sub. by rewrite drop_0.
Qed.

Lemma decode_from_total page : ∃ o, decode_from page = Ok o.
Proof.
  unfold decode_from, EXTENSION_END, EXTENSION_OFFSET, EXTENSION_CRC_OFFSET. case_bool_decide; [by eexists|].
  rewrite read_u32_Ok, slice_Ok, !read_u64_Ok by lia. cbn [bind]. case_match; by eexists.
Qed.

Lemma decode_from_prefix page : (92 ≤ length page)%nat → decode_from (take 92 page) = decode_from page.
Proof.
  intros Hl. unfold decode_from, EXTENSION_END, EXTENSION_OFFSET, EXTENSION_CRC_OFFSET.
  assert (length (take 92 page) = 92%nat) as Ht by (rewrite length_take; lia).
  rewrite !bool_decide_eq_false_2 by lia. rewrite !read_u32_Ok, !slice_Ok, !read_u64_Ok by lia. cbn [bind Nat.add].
  by rewrite !sub_take by lia.
Qed.

Lemma decode_from_wf page e : is_bytes page → decode_from page = Ok (Some e) → extension_wf e.
Proof.
  intros Hb. unfold decode_from, EXTENSION_END, EXTENSION_OFFSET, EXTENSION_CRC_OFFSET. case_bool_decide as Hl; [done|].
  rewrite read_u32_Ok, slice_Ok, !read_u64_Ok by lia. cbn [bind]. case_match; [done|]. intros [= <-].
  pose proof (λ o, read_field_u page o 8 64 Hb) as Hf.
  split; [|split]; [apply (Hf 64%nat)|apply (Hf 72%nat)|apply (Hf 80%nat)]; (done || lia).
Qed.

Lemma pages_len img ps : disk_wf img ps → (Z.to_nat ps + Z.to_nat ps ≤ length img)%nat.
Proof. intros [_ _ _ Hl _]. unfold zlen in Hl. lia. Qed.

Lemma sub_zeros a b img ps :
  disk_wf img ps → (92 ≤ a ≤ b)%nat → (b ≤ Z.to_nat ps)%nat → sub a b img = replicate (b - a) 0.
Proof.
  intros Hd Ha Hb. pose proof (pages_len _ _ Hd).
  replace (sub a b img) with (sub (a - 92) (b - 92) (sub 92 (Z.to_nat ps) img)).
  - rewrite (dw_tail _ _ Hd). unfold sub. rewrite drop_replicate, take_replicate. f_equal. lia.
  - rewrite sub_sub by lia. f_equal; lia.
Qed.

Section backend.
Context {B : Type} `{!PagerBackend B}.
Implicit Types (b : B).

Lemma read_image b ps off n :
  healthy b → disk_wf (image b) ps → 0 ≤ off → (Z.to_nat off + n ≤ length (image b))%nat →
  read_exact_at b off n = Ok (sub (Z.to_nat off) (Z.to_nat off + n) (image b)).
Proof. intros Hh [_ _ _ Hl _] Ho Hn. apply read_ok; [done..|]. unfold zlen in Hl. lia. Qed.

(** A slot read is the arbitration's view of the slot. *)
Lemma read_slot_holds b ps s o expected :
  healthy b → disk_wf (image b) ps → s = 0 ∨ s = 1 → slot_holds (image b) ps s o →
  (expected = None ∨ expected = Some ps) →
  match o with
  | Some sb => read_slot b (s * ps) expected = Ok sb
  | None => ∃ m, read_slot b (s * ps) expected = Err (Corrupt m)
  end.
Proof.
  intros Hh Hd Hs Ho He. pose proof (disk_ps_bounds _ _ Hd). pose proof (pages_len _ _ Hd).
  unfold read_slot, SUPERBLOCK_HEADER_LEN. rewrite (read_image b ps) by (done || destruct Hs as [-> | ->]; lia).
  cbn [bind]. fold (slot_header (image b) ps s). destruct o as [sb|]; simpl in Ho.
  - destruct Ho as [-> Hps]. cbn [bind]. destruct He as [-> | ->]; [done|]. by rewrite Hps, Z.eqb_refl.
  - destruct Ho as [m ->]. by exists m.
Qed.

(** With slot 0 damaged, the probe skips the smaller page sizes. *)
Lemma probe_finds b ps sb :
  healthy b → disk_wf (image b) ps → slot_holds (image b) ps 1 (Some sb) →
  probe_slots b VALID_PAGE_SIZES = Ok sb.
Proof.
  intros Hh Hd Hs. pose proof (pages_len _ _ Hd) as Hl. pose proof (disk_ps_bounds _ _ Hd) as Hps.
  assert (read_slot b ps (Some ps) = Ok sb) as Hok.
  { replace ps with (1 * ps) at 1 by lia. apply (read_slot_holds b ps 1 (Some sb)); auto. }
  assert (∀ c, 4096 ≤ c → c + 64 ≤ ps → ∃ e, read_slot b c (Some c) = Err e) as Hskip.
  { intros c Hc Hcp. unfold read_slot, SUPERBLOCK_HEADER_LEN. rewrite (read_image b ps) by (done || lia).
    rewrite (sub_zeros _ _ _ ps) by (done || lia). cbn [bind].
    replace (Z.to_nat c + 64 - Z.to_nat c)%nat with 64%nat by lia. rewrite decode_zeros. by eexists. }
  pose proof (valid_page_size_cases ps (dw_ps _ _ Hd)) as Hin. unfold VALID_PAGE_SIZES in *. clear Hps Hl Hs Hd.
  repeat (apply elem_of_cons in Hin as [-> | Hin];
    [cbn [probe_slots]; repeat (first [rewrite Hok; done
      | match goal with |- context [read_slot b ?c (Some ?c)] => destruct (Hskip c ltac:(lia) ltac:(lia)) as [? ->] end])|]).
  by apply elem_of_nil in Hin.
Qed.

Definition free_wf (f : FreeState) : Prop :=
  ∀ e, extension f = Some e ∨ pending_extension f = Some e → extension_wf e.

(** The extension open finds in the chosen slot: [None] is degraded mode. *)
Definition slot_extension (img : list Z) (ps s : Z) : outcome (option SuperblockExtension) :=
  decode_from (sub (Z.to_nat (s * ps)) (Z.to_nat (s * ps) + 92) img).

Lemma read_free_state_spec b sb s :
  healthy b → disk_wf (image b) (page_size sb) → s = 0 ∨ s = 1 →
  ∃ f, read_free_state b sb s = Ok f ∧ free_wf f ∧ pending_extension f = None ∧
    (Z.land (feature_flags sb) FREE_PAGES_FLAG ≠ 0 →
     ∃ o, slot_extension (image b) (page_size sb) s = Ok o ∧ extension f = o ∧ degraded f = bool_decide (o = None)).
Proof.
  intros Hh Hd Hs. unfold read_free_state, EXTENSION_END.
  destruct (Z.eqb_spec (Z.land (feature_flags sb) FREE_PAGES_FLAG) 0) as [Hf|Hf].
  { exists free_default. split_and!; [done|by intros e [|]|done|done]. }
  pose proof (disk_ps_bounds _ _ Hd). pose proof (pages_len _ _ Hd).
  destruct (decode_from_total (sub (Z.to_nat (0 * page_size sb)) (Z.to_nat (0 * page_size sb) + 92) (image b))) as [o0 E0].
  destruct (decode_from_total (sub (Z.to_nat (1 * page_size sb)) (Z.to_nat (1 * page_size sb) + 92) (image b))) as [o1 E1].
  assert (∀ i o, decode_from (sub (Z.to_nat (i * page_size sb)) (Z.to_nat (i * page_size sb) + 92) (image b)) = Ok o →
    ∀ e, o = Some e → extension_wf e) as Hwf.
  { intros i o Ho e ->. eapply decode_from_wf; [|exact Ho]. apply sub_bytes, Hd. }
  pose proof (Hwf 0 o0 E0) as W0. pose proof (Hwf 1 o1 E1) as W1.
  cbn [for_each]. rewrite !(read_image b (page_size sb)) by (done || lia). rewrite E0. cbn [bind].
  unfold slot_extension, free_wf. destruct Hs as [-> | ->]; (destruct o0 as [e0|], o1 as [e1|]); cbn [bind]; rewrite E1; cbn [bind];
    (eexists; split_and!; [done|simpl; intros e [[= <-]|[=]]; auto|done|intros _; eexists; split_and!; [first [exact E0|reflexivity]|done|done]]).
Qed.

(** Opening picks the authoritative superblock. *)
Lemma open_disk b ps os sb s :
  healthy b → disk_wf (image b) ps → slots_hold (image b) ps os → authoritative os sb s →
  ∃ s' f, open_backend b = Ok (pager_new b sb s' f) ∧ authoritative os sb s' ∧ arbitrate os.1 os.2 = Some (sb, s') ∧
    read_free_state b sb s' = Ok f ∧ page_size sb = ps.
Proof.
  intros Hh Hd [H0 H1] Ha. destruct (authoritative_chosen _ _ _ Ha) as (s' & Harb & Ha').
  pose proof Ha' as (Hs' & Hslot & _).
  assert (page_size sb = ps) as Hps.
  { unfold slot_of in Hslot. destruct Hs' as [-> | ->]; simpl in Hslot; [rewrite Hslot in H0|rewrite Hslot in H1]; naive_solver. }
  destruct (read_free_state_spec b sb s') as (f & Hf & _); [done|by rewrite Hps|done|].
  exists s', f. split_and!; [|done..].
  pose proof (read_slot_holds b ps 0 os.1 None Hh Hd ltac:(auto) H0 ltac:(auto)) as R0.
  pose proof (read_slot_holds b ps 1 os.2 (Some ps) Hh Hd ltac:(auto) H1 ltac:(auto)) as R1.
  rewrite Z.mul_0_l in R0. rewrite Z.mul_1_l in R1.
  assert (validate_file_length (zlen (image b)) ps = Ok tt) as Hv.
  { unfold validate_file_length, SUPERBLOCK_SLOTS. rewrite (proj2 (Z.ltb_ge _ _)) by (pose proof (dw_len _ _ Hd); lia).
    by rewrite (dw_aligned _ _ Hd). }
  assert (∀ r0 r1, read_slot b 0 None = r0 →
    read_second_slot b (match r0 with Ok sb => Some (page_size sb) | _ => None end) = r1 →
    selected_slot r0 r1 = s' → choose_authoritative r0 r1 = Ok sb → open_backend b = Ok (pager_new b sb s' f)) as Hopen.
  { intros r0 r1 Er0 Er1 Es Ec. unfold open_backend. rewrite Er0, Er1, Ec, len_ok by done. cbn [bind].
    rewrite Hps, Hv. cbn [bind]. by rewrite Es, Hf. }
  destruct os as [[a|] [c|]]; simpl in *.
  - destruct H0 as [_ Hpa]. apply (Hopen (Ok a) (Ok c)); [done|by rewrite Hpa| |]; simpl; destruct (_ <? _); naive_solver.
  - destruct H0 as [_ Hpa]. destruct R1 as [m R1].
    apply (Hopen (Ok a) (Err (Corrupt m))); [done|by rewrite Hpa| |]; simpl; naive_solver.
  - destruct R0 as [m R0]. apply (Hopen (Err (Corrupt m)) (Ok c)); [done|by apply (probe_finds b ps)| |]; simpl; naive_solver.
  - done.
Qed.
End backend.
End open_proof.

(** ** Writing a slot *)

Section slot_proof.
Context {CR : Crc32c}.

(** A page image that publishes [sb]. *)
Record slot_page (sb : Superblock) (page : list Z) : Prop := {
  sp_length : length page = Z.to_nat (page_size sb);
  sp_bytes : is_bytes page;
  sp_header : sub 0 64 page = header_bytes sb;
  sp_tail : sub 92 (Z.to_nat (page_size sb)) page = replicate (Z.to_nat (page_size sb) - 92) 0;
}.

Lemma header_bytes_bytes sb : superblock_wf sb → is_bytes (header_bytes sb).
Proof.
  intros Hwf. unfold header_bytes, header_prefix, is_bytes. rewrite !Forall_app.
  split_and!; try apply to_le_bytes; [by apply (bool_decide_unpack _); vm_compute|apply Hwf].
Qed.

Lemma encodable_ps sb : encodable sb → 4096 ≤ page_size sb ≤ 65536.
Proof.
  intros (_ & Hv & _). unfold valid_page_size, MIN_PAGE_SIZE, MAX_PAGE_SIZE in Hv. reflect_bools. lia.
Qed.

Lemma encode_page_spec sb : encodable sb → ∃ page, encode_page sb = Ok page ∧ slot_page sb page.
Proof.
  intros He. pose proof (encodable_ps sb He). pose proof (wf_db_id _ (proj1 He)) as [Hid _].
  pose proof (length_header_bytes sb Hid) as Hl. unfold encode_page, SUPERBLOCK_HEADER_LEN.
  rewrite encode_layout by (done || rewrite length_replicate; lia). rewrite length_replicate, Nat.sub_diag, app_nil_r.
  cbn [bind]. rewrite copy_at_Ok by (rewrite ?length_replicate; lia). eexists. split; [done|].
  rewrite take_0, app_nil_l, drop_replicate. constructor.
  - rewrite length_app, length_replicate. lia.
  - apply Forall_app. split; [apply header_bytes_bytes, He|]. apply Forall_replicate. unfold is_byte. range_lia.
  - rewrite sub_app_l, sub_all by lia. done.
  - rewrite sub_app_r by lia. unfold sub. rewrite drop_replicate, take_replicate. f_equal. lia.
Qed.

Lemma encode_into_bytes e page page' : is_bytes page → encode_into e page = Ok page' → is_bytes page'.
Proof.
  unfold encode_into. intros Hb He. inv_ok He.
  repeat match goal with H : copy_at ?p _ _ _ = Ok ?q, Hp : is_bytes ?p |- _ =>
    apply (copy_at_bytes _ _ _ _ _ Hp (to_le_bytes _ _)) in H end. done.
Qed.

Lemma encode_slot_page_spec {B} sb pending (p : Pager B) :
  encodable sb → free_wf (free p) →
  ∃ page, encode_slot_page sb pending p = Ok page ∧ slot_page sb page ∧
    (Z.land (feature_flags sb) FREE_PAGES_FLAG ≠ 0 → ∀ e,
     (if pending then opt_or (pending_extension (free p)) (extension (free p)) else extension (free p)) = Some e →
     decode_from page = Ok (Some e)).
Proof.
  intros He Hf. destruct (encode_page_spec sb He) as (page & Hp & Hsp). unfold encode_slot_page. rewrite Hp. cbn [bind].
  destruct (Z.eqb_spec (Z.land (feature_flags sb) FREE_PAGES_FLAG) 0) as [Hz|Hnz]; [by exists page|].
  set (ext := if pending then _ else _). assert (∀ e, ext = Some e → extension_wf e) as Hwf.
  { intros e Hx. apply Hf. unfold ext, opt_or in Hx. destruct pending, (pending_extension (free p)); auto. }
  destruct ext as [e|] eqn:Ee; [|exists page; split_and!; [done..|by intros _ e [=]]].
  pose proof (encodable_ps sb He) as Hps. pose proof Hsp as [Hl Hb Hh Ht].
  destruct (extension_codec e page) as (page' & He' & Hl' & Hd & Hsame); [by apply Hwf|lia|].
  exists page'. split_and!; [done| |by intros _ ? [= <-]]. constructor.
  - lia.
  - by eapply encode_into_bytes.
  - rewrite Hsame by lia. done.
  - rewrite Hsame by lia. done.
Qed.

Lemma slot_page_decodes sb page : encodable sb → readable sb → slot_page sb page → decode (sub 0 64 page) = Ok sb.
Proof. intros He Hr [_ _ -> _]. rewrite <- (app_nil_r (header_bytes sb)). by apply decode_encoded. Qed.

(** The bytes of a window that lies inside, or outside, a written page. *)
Lemma sub_write_inside img off src c d :
  (c ≤ d ≤ length src)%nat →
  sub (off + c) (off + d) (write_image img off src) = sub c d src.
Proof.
  intros Hcd. rewrite <- (sub_write_image_eq img off src) at 2. rewrite sub_sub by lia. done.
Qed.

Lemma write_slot img ps os s sb page (img' := write_image img (Z.to_nat (s * ps)) page) :
  disk_wf img ps → slots_hold img ps os → s = 0 ∨ s = 1 →
  encodable sb → readable sb → page_size sb = ps → slot_page sb page →
  length img' = length img ∧ disk_wf img' ps ∧ slots_hold img' ps (set_slot s (Some sb) os) ∧
  slot_header img' ps s = header_bytes sb ∧ slot_header img' ps (1 - s) = slot_header img ps (1 - s) ∧
  sub 92 (Z.to_nat ps) img' = sub 92 (Z.to_nat ps) img ∧ slot_extension img' ps s = decode_from page ∧
  (∀ c d, (d ≤ length img)%nat → (Z.to_nat (2 * ps) ≤ c)%nat → sub c d img' = sub c d img).
Proof.
  intros Hd [H0 H1] Hs He Hr Hps Hsp. pose proof (disk_ps_bounds _ _ Hd) as Hb. pose proof (pages_len _ _ Hd) as Hl.
  pose proof Hsp as [Hlp Hbp Hhp Htp]. rewrite Hps in Hlp, Htp.
  assert (length img' = length img) as Hlen by (unfold img'; rewrite length_write_image, Hlp; destruct Hs as [-> | ->]; lia).
  assert (slot_header img' ps s = header_bytes sb) as Hself.
  { unfold slot_header, img'. rewrite <- Hhp. rewrite <- (Nat.add_0_r (Z.to_nat (s * ps))) at 1.
    apply sub_write_inside. lia. }
  assert (slot_header img' ps (1 - s) = slot_header img ps (1 - s)) as Hother.
  { unfold slot_header, img'. apply sub_write_image_ne; destruct Hs as [-> | ->]; lia. }
  assert (sub 92 (Z.to_nat ps) img' = sub 92 (Z.to_nat ps) img) as Htail.
  { unfold img'. destruct Hs as [-> | ->]; [|apply sub_write_image_ne; lia].
    rewrite (dw_tail _ _ Hd), <- Htp. apply (sub_write_inside img 0 page 92 (Z.to_nat ps)). lia. }
  assert (slot_holds img' ps s (Some sb)) as Hnew.
  { split; [|done]. rewrite Hself, <- Hhp. by apply slot_page_decodes. }
  split_and!; [done| | |done|done|done| |].
  - constructor; [|apply Hd|unfold zlen in *; rewrite Hlen; apply Hd|unfold zlen; rewrite Hlen; apply Hd|].
    + apply write_image_bytes; [apply Hd|done].
    + rewrite Htail. apply Hd.
  - unfold slots_hold, slot_holds in *. destruct Hs as [-> | ->]; (split; simpl; [|]); try done;
      [change (1 - 0) with 1 in Hother|change (1 - 1) with 0 in Hother]; rewrite Hother; done.
  - unfold slot_extension, img'. rewrite <- (decode_from_prefix page) by lia. f_equal.
    rewrite <- (Nat.add_0_r (Z.to_nat (s * ps))) at 1. rewrite sub_write_inside by lia. unfold sub. by rewrite drop_0, Nat.sub_0_r.
  - intros c d Hdl Hc. apply sub_write_image_ne; [done|]. right. rewrite Hlp. destruct Hs as [-> | ->]; lia.
Qed.

(** The checksum detects this torn header write: a mixture of the old and the
    new header that is neither of them fails its CRC. *)
Definition crc_detects_torn (old new : list Z) : Prop :=
  ∀ m, torn old new m → m = old ∨ m = new ∨ crc32c (take 60 m) ≠ from_le (sub 60 64 m).

(** After a crash the slot holds the new superblock, what it held, or damage;
    nothing else has changed. *)
Lemma torn_slot img ps os s sb page m (img' := write_image img (Z.to_nat (s * ps)) page) :
  disk_wf img ps → slots_hold img ps os → s = 0 ∨ s = 1 →
  encodable sb → readable sb → page_size sb = ps → slot_page sb page →
  torn img img' m → crc_detects_torn (slot_header img ps s) (header_bytes sb) →
  disk_wf m ps ∧
  (slots_hold m ps (set_slot s (Some sb) os) ∨ slots_hold m ps os ∨ slots_hold m ps (set_slot s None os)) ∧
  (∀ c d, (c ≤ d ≤ length img)%nat → (Z.to_nat (2 * ps) ≤ c)%nat → sub c d m = sub c d img).
Proof.
  intros Hd Hos Hs He Hr Hps Hsp Ht Hcrc.
  destruct (write_slot img ps os s sb page Hd Hos Hs He Hr Hps Hsp) as (Hlen & Hd' & Hos' & Hself & Hother & Htail & _ & Hdata).
  fold img' in Hlen, Hd', Hos', Hself, Hother, Htail, Hdata.
  pose proof (disk_ps_bounds _ _ Hd) as Hb. pose proof (pages_len _ _ Hd) as Hl.
  assert (∀ c d, (c ≤ d ≤ length img)%nat → sub c d img' = sub c d img → sub c d m = sub c d img) as Hsame.
  { intros c d Hcd E. apply (torn_sub c d) in Ht; [|lia]. rewrite E in Ht. by apply torn_same in Ht. }
  assert (length m = length img) as Hlm by (destruct Ht as (? & ? & _); lia).
  assert (slot_header m ps (1 - s) = slot_header img ps (1 - s)) as Hmo
    by (apply Hsame; [destruct Hs as [-> | ->]; lia|exact Hother]).
  assert (slot_holds m ps (1 - s) (slot_of (1 - s) os)) as Hmo'.
  { destruct Hos as [H0 H1]. unfold slot_holds, slot_of in *. rewrite Hmo. destruct Hs as [-> | ->]; simpl; done. }
  assert (∀ o, slot_holds m ps s o → slots_hold m ps (set_slot s o os)) as Hset.
  { intros o Ho. unfold slots_hold, set_slot, slot_of in *. destruct Hs as [-> | ->]; simpl in *; done. }
  split_and!.
  - constructor; [eapply torn_bytes; [done|apply Hd|apply Hd']|apply Hd|unfold zlen in *; rewrite Hlm; apply Hd
      |unfold zlen; rewrite Hlm; apply Hd|].
    rewrite Hsame; [apply Hd|lia|done].
  - assert (torn (slot_header img ps s) (header_bytes sb) (slot_header m ps s)) as Hth.
    { rewrite <- Hself. apply torn_sub; [|done]. destruct Hs as [-> | ->]; lia. }
    assert (slot_holds img' ps s (Some sb)) as Hnew by (destruct Hos' as [? ?], Hs as [-> | ->]; done).
    destruct (Hcrc _ Hth) as [E|[E|Hbad]].
    + right; left. replace os with (set_slot s (slot_of s os) os) by (by destruct Hs as [-> | ->], os).
      apply Hset. destruct Hos as [H0 H1]. unfold slot_holds, slot_of in *. rewrite E. destruct Hs as [-> | ->]; done.
    + left. apply Hset. unfold slot_holds in *. by rewrite E, <- Hself.
    + right; right. apply Hset. apply decode_bad_crc; [|done].
      destruct Hth as (_ & -> & _). by apply length_header_bytes, wf_db_id, He.
  - intros c d Hcd Hc. apply Hsame; [done|]. apply Hdata; lia.
Qed.
End slot_proof.

(** ** The pager invariant *)

(** The bytes of data page [id], when the image has it. *)
Definition page_at (img : list Z) (ps id : Z) : option (list Z) :=
  if decide (2 ≤ id ∧ (id + 1) * ps ≤ zlen img)
  then Some (sub (Z.to_nat (id * ps)) (Z.to_nat (id * ps) + Z.to_nat ps) img) else None.

Section pager_proof.
Context {B : Type} `{!PagerBackend B} {CR : Crc32c}.
Implicit Types p : Pager B.

(** Every cached page is the page of the image. *)
Definition coherent (img : list Z) (ps : Z) (c : option PageCache) : Prop :=
  match c with
  | None => True
  | Some c => ∃ others, cache_ok c others ∧ ∀ id page, cached c !! id = Some page → page_at img ps id = Some page
  end.

Record pager_ok (p : Pager B) : Prop := {
  po_size : psize p = page_size (superblock (state p));
  po_disk : disk_wf (image (backend p)) (psize p);
  po_slots : ∃ os, slots_hold (image (backend p)) (psize p) os ∧
    authoritative os (superblock (state p)) (authoritative_slot (state p));
  po_free : free_wf (free p);
  po_cache : coherent (image (backend p)) (psize p) (cache p);
}.

(** Reading without the cache. *)
Lemma uncached_read p id :
  healthy (backend p) → disk_wf (image (backend p)) (psize p) → in_u 64 id →
  match page_at (image (backend p)) (psize p) id with
  | Some page => readable_page_offset id p = Ok (id * psize p) ∧ read_page_at (id * psize p) p = Ok page
  | None => ∃ m, readable_page_offset id p = Err (InvalidArgument m)
  end.
Proof.
  intros Hh Hd Hid. pose proof (disk_ps_bounds _ _ Hd) as Hb. pose proof (dw_len _ _ Hd) as Hlen. unfold in_u in Hid.
  unfold page_at, readable_page_offset, ensure_data_page, SUPERBLOCK_SLOTS, page_offset.
  case_decide as Hin.
  - rewrite (proj2 (Z.ltb_ge _ _)) by lia. cbn [bind].
    rewrite try_u_in by (unfold in_u; nia). cbn [ok_or bind]. rewrite try_u_in by (unfold in_u; nia). cbn [ok_or bind].
    rewrite len_ok by done. cbn [bind]. rewrite (proj2 (Z.ltb_ge _ _)) by nia. split; [done|].
    unfold read_page_at. apply (read_image _ (psize p)); [done|done|nia|]. unfold zlen in *. nia.
  - destruct (Z.ltb_spec id 2); [by eexists|]. cbn [bind].
    destruct (try_u 64 (id * psize p)) eqn:E1; [|by eexists]. apply try_u_Some in E1 as [-> _]. cbn [ok_or bind].
    destruct (try_u 64 (id * psize p + psize p)) eqn:E2; [|by eexists]. apply try_u_Some in E2 as [-> _]. cbn [ok_or bind].
    rewrite len_ok by done. cbn [bind]. rewrite (proj2 (Z.ltb_lt _ _)) by nia. by eexists.
Qed.

(** The bookkeeping of a read. *)
Definition read_frame (p p' : Pager B) : Prop :=
  backend p' = backend p ∧ psize p' = psize p ∧ state p' = state p ∧ free p' = free p ∧ min_pin p' = min_pin p.

Lemma read_frame_ok p p' :
  pager_ok p → read_frame p p' → coherent (image (backend p)) (psize p) (cache p') → pager_ok p'.
Proof.
  intros [H1 H2 H3 H4 H5] (Eb & Ep & Es & Ef & _) Hc. constructor; rewrite ?Eb, ?Ep, ?Es, ?Ef; done.
Qed.

Lemma fill_frame_spec pinned p id page c others :
  healthy (backend p) → cache_ok c others →
  (∀ q pg, cached c !! q = Some pg → page_at (image (backend p)) (psize p) q = Some pg) →
  cached c !! id = None → page_at (image (backend p)) (psize p) id = Some page →
  read_page_at (id * psize p) p = Ok page →
  ∃ p', fill_frame pinned id (id * psize p) c p = (Ok page, p') ∧ read_frame p p' ∧
    coherent (image (backend p)) (psize p) (cache p').
Proof.
  intros Hh Hc Hcoh Hid Hpage Hread. unfold fill_frame.
  destruct (charge_after_reclaim_spec pinned c others Hc) as (r & c' & Hr & [Hsub _] & _ & Hfc & Hpost).
  erewrite pbind_ret by (unfold lift; by rewrite Hr). cbn beta iota. erewrite pbind_ret by done.
  assert (∀ q pg, cached c' !! q = Some pg → page_at (image (backend p)) (psize p) q = Some pg) as Hcoh'.
  { intros q pg Hq. apply Hcoh. by eapply lookup_weaken. }
  destruct r; cbn [negb].
  - change (read_page_at (id * psize p) (set_cache (Some c') p)) with (read_page_at (id * psize p) p). rewrite Hread.
    eexists. split_and!; [done|done|]. simpl. rewrite <- Hfc in Hpost.
    assert (cached c' !! id = None) as Hnone.
    { destruct (cached c' !! id) eqn:E; [|done]. rewrite (lookup_weaken _ _ _ _ E Hsub) in Hid. done. }
    destruct (cache_insert_ok c' others id page Hpost (ok_others _ _ Hc) Hnone) as [Hok Hcc].
    exists others. split; [done|]. rewrite Hcc. intros q pg.
    rewrite lookup_insert_Some. intros [[<- <-]|[_ Hq]]; [done|by apply Hcoh'].
  - unfold reads. change (read_page_at (id * psize p) (set_cache (Some c') p)) with (read_page_at (id * psize p) p). rewrite Hread.
    eexists. split_and!; [done|done|]. simpl. exists others. split; [apply Hpost|done].
Qed.

(** Attaching a budget starts from an empty cache. *)
Lemma with_budget_ok bud p : pager_ok p → budget_wf bud → pager_ok (with_budget bud p).
Proof.
  intros [Hsz Hd Hs Hf _] Hb. pose proof (disk_ps_bounds _ _ Hd). constructor; try done. exists (charged bud). split.
  - apply cache_new_ok; [done|lia].
  - intros id page Hl. unfold cached, contents in Hl. simpl in Hl. by rewrite fmap_empty, lookup_empty in Hl.
Qed.

(** C29: a page read through the cache returns exactly what a read without one
    returns: the page's bytes in the image when the id names a data page
    inside the file, an invalid-argument error otherwise (reserved ids, ids
    past the end, offsets that overflow); it changes neither the image nor the
    superblock, and leaves the cache coherent and its budget accounted. *)
Theorem cached_reads_transparent pinned p id :
  pager_ok p → healthy (backend p) → in_u 64 id →
  ∃ r p', read_page_ref pinned id p = (r, p') ∧ pager_ok p' ∧ read_frame p p' ∧
    r = (read_page_ref pinned id (set_cache None p)).1 ∧
    match page_at (image (backend p)) (psize p) id with
    | Some page => r = Ok page
    | None => ∃ m, r = Err (InvalidArgument m)
    end.
Proof.
  intros Hok Hh Hid. pose proof (uncached_read p id Hh (po_disk _ Hok) Hid) as Hu.
  destruct (page_at (image (backend p)) (psize p) id) as [page|] eqn:Epg.
  - destruct Hu as [Hoff Hread]. unfold read_page_ref.
    erewrite pbind_ret by (unfold reads; by rewrite Hoff). erewrite pbind_ret by done. erewrite pbind_ret by done.
    erewrite (pbind_ret _ _ (set_cache None p)) by (unfold reads; change (readable_page_offset id (set_cache None p)) with
      (readable_page_offset id p); by rewrite Hoff).
    erewrite (pbind_ret _ _ (set_cache None p)) by done. erewrite (pbind_ret _ _ (set_reads _ (set_cache None p))) by done.
    set (p1 := set_reads (wrap_u 64 (page_reads p + 1)) p).
    assert (∀ q, reads (read_page_at (id * psize p)) (set_reads q (set_cache None p)) = (Ok page, set_reads q (set_cache None p)))
      as Hbare by (intros q; unfold reads; by rewrite <- Hread).
    simpl (cache (set_reads _ (set_cache None p))). rewrite Hbare. cbn [fst]. change (cache p1) with (cache p).
    pose proof (po_cache _ Hok) as Hcoh. destruct (cache p) as [c|] eqn:Ec; simpl in Hcoh.
    + destruct Hcoh as (others & Hc & Hcoh). destruct (cache_get_ok c others id Hc) as (Hg & Hc' & Hcon).
      destruct (get (table c) id) as [[pg|] t] eqn:Eg; simpl in Hg, Hc', Hcon; cbn beta iota.
      * erewrite pbind_ret by done. symmetry in Hg. rewrite (Hcoh _ _ Hg) in Epg. simplify_eq.
        eexists _, _. split_and!; [done| |done|done|done].
        apply (read_frame_ok p); [done..|]. simpl. exists others. by rewrite Hcon.
      * destruct (fill_frame_spec pinned p1 id page (mkCache t (budget c) (frame_charge c)) others) as (p' & Hf & Hfr & Hco);
          [done|done|by rewrite Hcon|by rewrite Hcon|done|done|].
        change (psize p1) with (psize p) in Hf. rewrite Hf. eexists _, _. split_and!; [done| |done|done|done].
        by apply (read_frame_ok p).
    + unfold reads. rewrite <- Hread. eexists _, _. split_and!; [done| |done|done|done].
      apply (read_frame_ok p); [done..|]. simpl. by rewrite Ec.
  - destruct Hu as [m Hm]. exists (Err (InvalidArgument m)), p. unfold read_page_ref.
    erewrite pbind_err by (unfold reads; by rewrite Hm). split_and!; [done|done|done| |by exists m].
    erewrite pbind_err; [done|]. unfold reads. change (readable_page_offset id (set_cache None p)) with (readable_page_offset id p).
    by rewrite Hm.
Qed.

(** ** Writing data pages *)

Lemma backend_write_ok p off src :
  healthy (backend p) → 0 ≤ off → off + zlen src < 2 ^ 64 →
  ∃ b, backend_write off src p = (Ok tt, set_backend b p) ∧ healthy b ∧
    image b = write_image (image (backend p)) (Z.to_nat off) src.
Proof.
  intros Hh Ho Hl. destruct (write_ok (backend p) off src Hh Ho Hl) as (b & Hw & Hb & Hi).
  exists b. unfold backend_write. by rewrite Hw.
Qed.

(** A write past the slots leaves them alone. *)
Lemma data_write_disk img ps off src (img' := write_image img off src) :
  disk_wf img ps → is_bytes src → (Z.to_nat (2 * ps) ≤ off)%nat → zlen img' mod ps = 0 → zlen img' < 2 ^ 64 →
  disk_wf img' ps ∧ ∀ os, slots_hold img ps os → slots_hold img' ps os.
Proof.
  intros Hd Hb Ho Ha Hm. pose proof (pages_len _ _ Hd). pose proof (disk_ps_bounds _ _ Hd).
  assert (∀ c d, (d ≤ Z.to_nat (2 * ps))%nat → sub c d img' = sub c d img) as Hsame.
  { intros c d Hcd. apply sub_write_image_ne; lia. }
  split.
  - constructor; [by apply write_image_bytes; [apply Hd|]|apply Hd|done| |].
    + split; [|done]. pose proof (dw_len _ _ Hd). unfold img', zlen in *. rewrite length_write_image. lia.
    + rewrite Hsame by lia. apply Hd.
  - intros os. unfold slots_hold, slot_holds, slot_header. rewrite !Hsame by lia. done.
Qed.

Lemma page_at_Some img ps id page :
  page_at img ps id = Some page ↔
  2 ≤ id ∧ (id + 1) * ps ≤ zlen img ∧ page = sub (Z.to_nat (id * ps)) (Z.to_nat (id * ps) + Z.to_nat ps) img.
Proof. unfold page_at. case_decide; naive_solver. Qed.

Lemma page_at_write img ps id data q pg (img' := write_image img (Z.to_nat (id * ps)) data) :
  0 < ps → 2 ≤ id → zlen data = ps →
  page_at img' ps id = Some data ∧ (q ≠ id → page_at img ps q = Some pg → page_at img' ps q = Some pg).
Proof.
  intros Hps Hid Hl. assert (zlen img' = Z.max (zlen img) ((id + 1) * ps)) as Hlen.
  { unfold img', zlen in *. rewrite length_write_image. lia. }
  split.
  - apply page_at_Some. split_and!; [done|lia|]. replace (Z.to_nat ps) with (length data) by (unfold zlen in Hl; lia).
    symmetry. apply sub_write_image_eq.
  - intros Hne (H2 & Hle & ->)%page_at_Some. apply page_at_Some. split_and!; [done|lia|].
    unfold img'. rewrite sub_write_image_ne; [done|unfold zlen in *; nia|].
    destruct (decide (q < id)); [left|right]; unfold zlen in *; nia.
Qed.

Lemma coherent_mono img img' ps c :
  (∀ q pg, page_at img ps q = Some pg → page_at img' ps q = Some pg) → coherent img ps c → coherent img' ps c.
Proof. destruct c as [c|]; simpl; [|done]. intros Hm (others & Hc & Hcoh). exists others. eauto. Qed.

Lemma write_page_locked_ok p id data :
  pager_ok p → healthy (backend p) → 2 ≤ id → (id + 1) * psize p < 2 ^ 64 → zlen data = psize p → is_bytes data →
  ∃ p', write_page_locked id data p = (Ok tt, p') ∧ pager_ok p' ∧ healthy (backend p') ∧
    psize p' = psize p ∧ state p' = state p ∧ free p' = free p ∧
    image (backend p') = write_image (image (backend p)) (Z.to_nat (id * psize p)) data.
Proof.
  intros Hok Hh Hid Hmax Hl Hb. pose proof (po_disk _ Hok) as Hd. pose proof (disk_ps_bounds _ _ Hd) as Hps.
  destruct (backend_write_ok p (id * psize p) data Hh) as (b & Hw & Hhb & Hi); [nia|lia|].
  unfold write_page_locked, page_offset. erewrite pbind_ret by (unfold reads; by rewrite try_u_in by (unfold in_u; nia)).
  erewrite pbind_ret by exact Hw. erewrite pbind_ret by done. change (cache (set_backend b p)) with (cache p).
  assert (zlen (image b) = Z.max (zlen (image (backend p))) ((id + 1) * psize p)) as Hlen.
  { rewrite Hi. unfold zlen in *. rewrite length_write_image. lia. }
  assert (zlen (image b) mod psize p = 0) as Hal.
  { rewrite Hlen. destruct (Z.max_spec (zlen (image (backend p))) ((id + 1) * psize p)) as [[_ ->]|[_ ->]];
      [by apply Z_mod_mult|apply Hd]. }
  destruct (data_write_disk (image (backend p)) (psize p) (Z.to_nat (id * psize p)) data Hd Hb) as [Hd' Hs'];
    [nia|by rewrite <- Hi|rewrite <- Hi, Hlen; pose proof (dw_len _ _ Hd); lia|]. rewrite <- Hi in Hd', Hs'.
  assert (∀ c', coherent (image b) (psize p) c' → pager_ok (set_cache c' (set_backend b p))) as Hfin.
  { intros c' Hc'. constructor; simpl; [apply Hok|done| |apply Hok|done].
    destruct (po_slots _ Hok) as (os & ? & ?). exists os. auto. }
  pose proof (po_cache _ Hok) as Hcoh. destruct (cache p) as [c|] eqn:Ec.
  - destruct Hcoh as (others & Hc & Hcoh). destruct (invalidate_spec c others id Hc) as (c' & Hinv & Hc' & Hcon & _).
    erewrite pbind_ret by (unfold lift; by rewrite Hinv). eexists. split; [done|]. split_and!; try done.
    apply Hfin. exists others. split; [done|]. rewrite Hcon. intros q pg [Hne Hq]%lookup_delete_Some.
    rewrite Hi. apply (page_at_write _ _ _ _ q pg); [lia|done|done|done|by apply Hcoh].
  - eexists. split; [done|]. split_and!; try done.
    replace (set_backend b p) with (set_cache None (set_backend b p)) by (by unfold set_cache, set_backend; rewrite <- Ec).
    by apply Hfin.
Qed.

(** ** File-tail allocation *)

Lemma write_image_append img src : write_image img (length img) src = img ++ src.
Proof.
  unfold write_image. replace (length img + length src - length img)%nat with (length src) by lia.
  rewrite take_app_length, drop_ge, app_nil_r; [done|]. rewrite length_app, length_replicate. lia.
Qed.

Definition zero_pages (ps : Z) (n : nat) : list Z := replicate (n * Z.to_nat ps) 0.

Lemma zlen_zero_pages ps n : 0 ≤ ps → zlen (zero_pages ps n) = Z.of_nat n * ps.
Proof. intros. unfold zero_pages, zlen. rewrite length_replicate. nia. Qed.

(** The pages past the old end are zero pages. *)
Lemma page_at_append img ps n i :
  0 < ps → zlen img mod ps = 0 → 2 * ps ≤ zlen img → zlen img / ps ≤ i < zlen img / ps + Z.of_nat n →
  page_at img ps i = None ∧ page_at (img ++ zero_pages ps n) ps i = Some (replicate (Z.to_nat ps) 0).
Proof.
  intros Hps Hal H2 Hi. pose proof (Z.div_mod (zlen img) ps ltac:(lia)) as Hdm. rewrite Hal, Z.add_0_r in Hdm.
  set (f := zlen img / ps) in *. split; [unfold page_at; rewrite decide_False; [done|nia]|].
  apply page_at_Some. split_and!; [nia|rewrite zlen_app, zlen_zero_pages; nia|].
  rewrite sub_app_r by (unfold zlen in Hdm; nia). unfold sub, zero_pages.
  rewrite drop_replicate, take_replicate. f_equal. unfold zlen in *. nia.
Qed.

Lemma page_at_app img tail ps q pg : 0 ≤ ps → page_at img ps q = Some pg → page_at (img ++ tail) ps q = Some pg.
Proof.
  intros Hps (H2 & Hle & ->)%page_at_Some. apply page_at_Some. rewrite zlen_app. pose proof (zlen_nonneg tail).
  split_and!; [done|lia|]. rewrite sub_app_l; [done|unfold zlen in *; nia].
Qed.

Lemma append_pages_ok img ps n : ∀ k p,
  0 < ps → healthy (backend p) → image (backend p) = img ++ zero_pages ps k →
  zlen img + Z.of_nat (k + n) * ps < 2 ^ 64 →
  ∃ b, append_pages (zlen img) ps (Z.of_nat <$> seq k n) p = (Ok tt, set_backend b p) ∧ healthy b ∧
    image b = img ++ zero_pages ps (k + n).
Proof.
  induction n as [|n IH]; intros k p Hps Hh Hi Hmax; simpl.
  { exists (backend p). rewrite Nat.add_0_r. split_and!; [|done..]. by destruct p. }
  pose proof (zlen_nonneg img). erewrite pbind_ret by (unfold lift; by rewrite try_u_in by (unfold in_u; nia)).
  erewrite pbind_ret by (unfold lift; by rewrite try_u_in by (unfold in_u; nia)).
  assert (Z.to_nat (zlen img + ps * Z.of_nat k) = length (image (backend p))) as Hoff.
  { rewrite Hi, length_app. unfold zero_pages, zlen. rewrite length_replicate. nia. }
  destruct (backend_write_ok p (zlen img + ps * Z.of_nat k) (replicate (Z.to_nat ps) 0) Hh) as (b & Hw & Hb & Hib);
    [nia|unfold zlen in *; rewrite length_replicate; nia|].
  erewrite pbind_ret by exact Hw. rewrite Hoff, write_image_append, Hi in Hib.
  destruct (IH (S k) (set_backend b p)) as (b' & Hap & Hb' & Hi'); [done|done| |by rewrite Nat.add_succ_comm|].
  - simpl. rewrite Hib, <- app_assoc. unfold zero_pages. rewrite <- replicate_add. do 2 f_equal. simpl. lia.
  - exists b'. split_and!; [exact Hap|done|]. by rewrite Hi', Nat.add_succ_comm.
Qed.

Lemma append_run_ok p count :
  pager_ok p → healthy (backend p) → zlen (image (backend p)) + Z.of_nat count * psize p < 2 ^ 64 →
  ∃ b, append_run_locked count p = (Ok (zlen (image (backend p)) / psize p), set_backend b p) ∧
    healthy b ∧ image b = image (backend p) ++ zero_pages (psize p) count ∧ pager_ok (set_backend b p).
Proof.
  intros Hok Hh Hmax. pose proof (po_disk _ Hok) as Hd. pose proof (disk_ps_bounds _ _ Hd) as Hps.
  pose proof (dw_len _ _ Hd) as Hlen. unfold append_run_locked, SUPERBLOCK_SLOTS.
  erewrite pbind_ret by done. erewrite pbind_ret by (unfold reads; by rewrite len_ok).
  rewrite (dw_aligned _ _ Hd). cbn [negb Z.eqb]. cbn zeta iota.
  rewrite (proj2 (Z.ltb_ge _ _)) by (apply Z.div_le_lower_bound; lia). cbn iota.
  destruct (append_pages_ok (image (backend p)) (psize p) count 0 p) as (b & Ha & Hb & Hi);
    [lia|done|unfold zero_pages; simpl; by rewrite app_nil_r|done|]. simpl in Hi.
  exists b. erewrite pbind_ret by exact Ha. split_and!; [done..|].
  assert (zlen (image b) = zlen (image (backend p)) + Z.of_nat count * psize p) as Hlb.
  { by rewrite Hi, zlen_app, zlen_zero_pages by lia. }
  rewrite <- write_image_append in Hi.
  destruct (data_write_disk (image (backend p)) (psize p) (length (image (backend p))) (zero_pages (psize p) count) Hd) as [Hd' Hs'].
  - apply Forall_replicate. unfold is_byte. range_lia.
  - unfold zlen in Hlen. lia.
  - rewrite <- Hi, Hlb, Z_mod_plus_full. apply Hd.
  - rewrite <- Hi, Hlb. lia.
  - rewrite <- Hi in Hd', Hs'. constructor; simpl; [apply Hok|done| |apply Hok|].
    + destruct (po_slots _ Hok) as (os & ? & ?). exists os. auto.
    + eapply coherent_mono; [|apply Hok]. intros q pg. rewrite Hi, write_image_append. apply page_at_app. lia.
Qed.

(** ** The protocol *)

Lemma open_ok b ps os sb s :
  healthy b → disk_wf (image b) ps → slots_hold (image b) ps os → authoritative os sb s →
  ∃ q, open_backend b = Ok q ∧ pager_ok q ∧ superblock (state q) = sb ∧ backend q = b ∧ psize q = ps ∧
    authoritative os sb (authoritative_slot (state q)) ∧
    (Z.land (feature_flags sb) FREE_PAGES_FLAG ≠ 0 →
     ∃ o, slot_extension (image b) ps (authoritative_slot (state q)) = Ok o ∧ extension (free q) = o ∧
       degraded (free q) = bool_decide (o = None)).
Proof.
  intros Hh Hd Hs Ha. destruct (open_disk b ps os sb s Hh Hd Hs Ha) as (s' & f & Ho & Ha' & _ & Hf & Hps).
  destruct (read_free_state_spec b sb s') as (f' & Hf' & Hwf & _ & Hext); [done|by rewrite Hps|apply Ha'|].
  rewrite Hf in Hf'. injection Hf' as <-. eexists. split; [exact Ho|]. subst ps. split_and!; simpl; try done.
  constructor; simpl; [done..| |done|done]. by exists os.
Qed.

Lemma slot_write_pages img img' ps id :
  length img' = length img → 0 < ps →
  (∀ c d, (c ≤ d ≤ length img)%nat → (Z.to_nat (2 * ps) ≤ c)%nat → sub c d img' = sub c d img) →
  page_at img' ps id = page_at img ps id.
Proof.
  intros Hl Hps Hsame. unfold page_at, zlen. rewrite Hl. case_decide as E; [|done]. f_equal. apply Hsame; nia.
Qed.

(** One slot write, the invariant's part. *)
Lemma write_slot_ok p s sb page os :
  pager_ok p → healthy (backend p) → s = 0 ∨ s = 1 → slots_hold (image (backend p)) (psize p) os →
  encodable sb → readable sb → page_size sb = psize p → slot_page sb page →
  ∃ b, backend_write (s * psize p) page p = (Ok tt, set_backend b p) ∧ healthy b ∧
    image b = write_image (image (backend p)) (Z.to_nat (s * psize p)) page ∧
    disk_wf (image b) (psize p) ∧ slots_hold (image b) (psize p) (set_slot s (Some sb) os) ∧
    slot_extension (image b) (psize p) s = decode_from page ∧
    slot_header (image b) (psize p) (1 - s) = slot_header (image (backend p)) (psize p) (1 - s) ∧
    (∀ id, page_at (image b) (psize p) id = page_at (image (backend p)) (psize p) id).
Proof.
  intros Hok Hh Hs Hos He Hr Hps Hsp. pose proof (po_disk _ Hok) as Hd. pose proof (disk_ps_bounds _ _ Hd) as Hb.
  destruct (write_slot _ _ os s sb page Hd Hos Hs He Hr Hps Hsp) as (Hl & Hd' & Hos' & _ & Hother & _ & Hext & Hdata).
  destruct (backend_write_ok p (s * psize p) page Hh) as (b & Hw & Hhb & Hi);
    [destruct Hs as [-> | ->]; lia|unfold zlen; rewrite (sp_length _ _ Hsp), Hps; destruct Hs as [-> | ->]; lia|].
  exists b. rewrite Hi. split_and!; try done. intros id. apply slot_write_pages; [done|lia|].
  intros c d ? ?. apply Hdata; lia.
Qed.

Lemma coherent_pages img img' ps c :
  (∀ id, page_at img' ps id = page_at img ps id) → coherent img ps c → coherent img' ps c.
Proof. intros E. apply coherent_mono. intros q pg. by rewrite E. Qed.

Lemma ensure_commit_valid cur next :
  page_size next = page_size cur ∧ db_id next = db_id cur ∧ checkpoint_lsn cur < checkpoint_lsn next →
  ensure_commit_is_valid cur next = Ok tt.
Proof.
  intros (Hp & Hi & Hl). unfold ensure_commit_is_valid. rewrite Hp, Z.eqb_refl. simpl.
  rewrite bool_decide_eq_false_2 by tauto. by rewrite (proj2 (Z.leb_gt _ _)).
Qed.

Lemma ensure_commit_invalid cur next :
  ¬ (page_size next = page_size cur ∧ db_id next = db_id cur ∧ checkpoint_lsn cur < checkpoint_lsn next) →
  ∃ m, ensure_commit_is_valid cur next = Err (InvalidArgument m).
Proof.
  intros Hn. unfold ensure_commit_is_valid. destruct (Z.eqb_spec (page_size next) (page_size cur)); [|by eexists]. simpl.
  case_bool_decide as E; [by eexists|]. destruct (Z.leb_spec (checkpoint_lsn next) (checkpoint_lsn cur)); [by eexists|].
  destruct Hn. auto.
Qed.

(** A valid commit, with the page it wrote. *)
Lemma commit_ok p next :
  pager_ok p → healthy (backend p) → encodable next → readable next →
  page_size next = page_size (superblock (state p)) ∧ db_id next = db_id (superblock (state p)) ∧
    checkpoint_lsn (superblock (state p)) < checkpoint_lsn next →
  ∃ b page, let s := 1 - authoritative_slot (state p) in
    let p' := set_free (promote_pending (free p)) (set_state (mkState next s) (set_backend b p)) in
    commit_superblock next p = (Ok tt, p') ∧ healthy b ∧ pager_ok p' ∧ slot_page next page ∧
    image b = write_image (image (backend p)) (Z.to_nat (s * psize p)) page ∧
    (Z.land (feature_flags next) FREE_PAGES_FLAG ≠ 0 →
     ∀ e, extension (free p') = Some e → slot_extension (image b) (psize p) s = Ok (Some e)) ∧
    (∀ id, page_at (image b) (psize p) id = page_at (image (backend p)) (psize p) id).
Proof.
  intros Hok Hh He Hr Hv. pose proof Hv as (Hps & _ & Hlsn). destruct (po_slots _ Hok) as (os & Hos & Ha).
  set (s := 1 - authoritative_slot (state p)). assert (s = 0 ∨ s = 1) as Hs by (destruct Ha as [Ha _]; lia).
  destruct (encode_slot_page_spec next true p He (po_free _ Hok)) as (page & Hp & Hsp & Hext).
  destruct (write_slot_ok p s next page os) as (b & Hw & Hb & Hi & Hd' & Hos' & Hx & _ & Hpg); try done.
  { by rewrite (po_size _ Hok). }
  exists b, page. cbn zeta. split_and!; try done.
  - unfold commit_superblock. erewrite pbind_ret by done. erewrite pbind_ret by (unfold lift; by rewrite ensure_commit_valid).
    erewrite pbind_ret by (unfold reads; by rewrite Hp). cbn zeta. erewrite pbind_ret by done.
    erewrite pbind_ret by exact Hw. erewrite pbind_ret by (simpl; by rewrite sync_ok). reflexivity.
  - constructor; simpl; [by rewrite Hps; apply Hok|done| | |by eapply coherent_pages; [|apply Hok]].
    + eexists. split; [exact Hos'|]. by apply (authoritative_won _ (superblock (state p))).
    + intros e. unfold promote_pending. destruct (pending_extension (free p)) eqn:E; simpl; intros [?|?]; simplify_eq;
        apply (po_free _ Hok); auto.
  - intros Hf e Hee. rewrite Hx. apply Hext; [done|]. revert Hee. unfold promote_pending, opt_or. simpl.
    by destruct (pending_extension (free p)).
Qed.

(** The slot with the higher LSN is the one open selects. *)
Lemma authoritative_newer os sb s next s' :
  authoritative os sb s → checkpoint_lsn sb < checkpoint_lsn next →
  authoritative (set_slot (1 - s) (Some next) os) next s' → s' = 1 - s.
Proof.
  intros ([-> | ->] & Hs & _) Hlt (Hs' & Hslot & _). all: slot_cases os; simplify_eq; destruct Hs' as [-> | ->]; simpl in *; simplify_eq;
    (done || lia).
Qed.

(** What a crash while one slot is written leaves: open succeeds, on a data
    area that has not changed. *)
Lemma torn_slot_opens img ps os s sb page b :
  healthy b → disk_wf img ps → slots_hold img ps os → s = 0 ∨ s = 1 →
  encodable sb → readable sb → page_size sb = ps → slot_page sb page →
  torn img (write_image img (Z.to_nat (s * ps)) page) (image b) →
  crc_detects_torn (slot_header img ps s) (header_bytes sb) →
  (∀ id, page_at (image b) ps id = page_at img ps id) ∧
  ∀ cand : list Superblock, (∀ o, o = set_slot s (Some sb) os ∨ o = os ∨ o = set_slot s None os →
    ∃ c s', authoritative o c s' ∧ c ∈ cand) →
  ∃ q, open_backend b = Ok q ∧ pager_ok q ∧ superblock (state q) ∈ cand ∧ backend q = b.
Proof.
  intros Hh Hd Hos Hs He Hr Hps Hsp Ht Hcrc. pose proof (disk_ps_bounds _ _ Hd).
  destruct (torn_slot img ps os s sb page (image b) Hd Hos Hs He Hr Hps Hsp Ht Hcrc) as (Hd' & Hos' & Hdata).
  destruct (write_slot img ps os s sb page Hd Hos Hs He Hr Hps Hsp) as (Hl & _).
  split; [intros id; apply slot_write_pages; [destruct Ht as (? & ? & _); lia|lia|done]|].
  intros cand Hcand. 
  assert (∃ o, slots_hold (image b) ps o ∧ (o = set_slot s (Some sb) os ∨ o = os ∨ o = set_slot s None os)) as (o & Ho & Heq).
  { destruct Hos' as [?|[?|?]]; eexists; eauto. }
  destruct (Hcand o Heq) as (c & s' & Ha & Hin).
  destruct (open_ok b ps o c s' Hh Hd' Ho Ha) as (q & Hq & Hok & <- & Hb & _). by exists q.
Qed.

Lemma flags_ok p flags (s := authoritative_slot (state p)) (sb := with_flags (superblock (state p)) flags) :
  pager_ok p → healthy (backend p) → encodable sb → readable sb → flags ≠ feature_flags (superblock (state p)) →
  ∃ page b1 b2, let p' := set_state (mkState sb s) (set_backend b2 p) in
    encode_slot_page sb false p = Ok page ∧ publish_slot (1 - s) page p = (Ok tt, set_backend b1 p) ∧
    publish_slot s page (set_backend b1 p) = (Ok tt, set_backend b2 p) ∧
    commit_feature_flags flags p = (Ok tt, p') ∧ pager_ok p' ∧ healthy b2 ∧ slot_page sb page ∧
    image b1 = write_image (image (backend p)) (Z.to_nat ((1 - s) * psize p)) page ∧
    image b2 = write_image (image b1) (Z.to_nat (s * psize p)) page ∧
    disk_wf (image b1) (psize p) ∧ slot_header (image b1) (psize p) s = slot_header (image (backend p)) (psize p) s ∧
    (∀ os, slots_hold (image (backend p)) (psize p) os → slots_hold (image b1) (psize p) (set_slot (1 - s) (Some sb) os)) ∧
    (∀ id, page_at (image b1) (psize p) id = page_at (image (backend p)) (psize p) id).
Proof.
  intros Hok Hh He Hr Hne. destruct (po_slots _ Hok) as (os & Hos & Ha).
  assert (s = 0 ∨ s = 1) as Hs by apply Ha. assert (page_size sb = psize p) as Hps by (symmetry; apply Hok).
  destruct (encode_slot_page_spec sb false p He (po_free _ Hok)) as (page & Hp & Hsp & Hext).
  destruct (authoritative_flags os _ _ sb Ha eq_refl) as (Ha1 & _ & Ha2).
  destruct (write_slot_ok p (1 - s) sb page os) as (b1 & Hw1 & Hb1 & Hi1 & Hd1 & Hos1 & _ & Hh1 & Hpg1); try done; [lia|].
  set (p1 := set_state (mkState (if s =? 0 then superblock (state p) else sb) 0) (set_backend b1 p)).
  assert (pager_ok p1) as Hok1.
  { constructor; simpl; [destruct (s =? 0); [apply Hok|done]|done|by eexists|apply Hok|].
    by eapply coherent_pages; [|apply Hok]. }
  destruct (write_slot_ok p1 s sb page (set_slot (1 - s) (Some sb) os)) as (b2 & Hw2 & Hb2 & Hi2 & Hd2 & Hos2 & _ & _ & Hpg2); try done.
  assert (publish_slot (1 - s) page p = (Ok tt, set_backend b1 p)) as Hpub1.
  { unfold publish_slot. erewrite pbind_ret by done. erewrite pbind_ret by exact Hw1. unfold backend_sync, reads. simpl.
    by rewrite sync_ok. }
  assert (publish_slot s page (set_backend b1 p) = (Ok tt, set_backend b2 p)) as Hpub2.
  { unfold publish_slot. erewrite pbind_ret by done. erewrite (pbind_ret _ _ _ _ (set_backend b2 p)).
    - unfold backend_sync, reads. simpl. by rewrite sync_ok.
    - revert Hw2. unfold backend_write. simpl. destruct (write_all_at _ _ _) as [r b']. by intros [= -> <-]. }
  exists page, b1, b2. cbn zeta. split_and!; try done.
  - unfold commit_feature_flags. erewrite pbind_ret by done. rewrite (proj2 (Z.eqb_neq _ _)) by done. cbn zeta.
    erewrite pbind_ret by exact (f_equal (λ r, (r, p)) Hp).
    erewrite pbind_ret by exact Hpub1. by erewrite pbind_ret by exact Hpub2.
  - constructor; simpl; [done|done|by eexists|apply Hok|].
    eapply coherent_pages; [|apply Hok1]. done.
  - by replace (1 - (1 - s)) with s in Hh1 by lia.
  - intros os' Hos'. destruct (write_slot_ok p (1 - s) sb page os') as (b1' & _ & _ & Hi1' & _ & Hos1' & _); try done; [lia|].
    by rewrite Hi1, <- Hi1'.
Qed.

Lemma create_ok b ps id (sb := initial_superblock ps id) :
  healthy b → image b = [] → in_u 32 ps → length id = 16%nat → is_bytes id → valid_page_size ps = true →
  ∃ p, create b ps id = Ok p ∧ pager_ok p ∧ healthy (backend p) ∧ superblock (state p) = sb ∧
    zlen (image (backend p)) = 2 * ps ∧ open_backend (backend p) = Ok p.
Proof.
  intros Hh Hi Hps Hid Hb Hv.
  assert (encodable sb) as He by (split_and!; [constructor; done|done|done]).
  assert (readable sb) as Hr by done.
  destruct (encode_page_spec sb He) as (page & Hp & Hsp). pose proof (encodable_ps sb He) as Hpb. simpl in Hpb.
  pose proof (sp_length _ _ Hsp) as Hl. simpl in Hl.
  destruct (backend_write_ok (pager_new b sb 0 free_default) 0 page Hh) as (b1 & Hw1 & Hb1 & Hi1); [lia|unfold zlen; lia|].
  destruct (backend_write_ok (pager_new b1 sb 0 free_default) ps page Hb1) as (b2 & Hw2 & Hb2 & Hi2); [lia|unfold zlen; lia|].
  simpl in Hi1, Hi2. rewrite Hi in Hi1. change 0%nat with (length ([] : list Z)) in Hi1. simpl Z.to_nat in Hi1.
  change (Z.to_nat 0) with (length ([] : list Z)) in Hi1. rewrite write_image_append in Hi1. simpl in Hi1.
  rewrite Hi1, <- Hl, write_image_append in Hi2.
  assert (disk_wf (image b2) ps) as Hd.
  { rewrite Hi2. constructor; [by apply Forall_app; split; apply Hsp|done| | |].
    - rewrite zlen_app. replace (zlen page) with ps by (unfold zlen; lia).
      replace (ps + ps) with (2 * ps) by lia. by apply Z_mod_mult.
    - rewrite zlen_app. unfold zlen. lia.
    - rewrite sub_app_l by lia. apply (sp_tail _ _ Hsp). }
  assert (slots_hold (image b2) ps (Some sb, Some sb)) as Hos.
  { rewrite Hi2. split; (split; [|done]); unfold slot_header; simpl.
    - rewrite sub_app_l by lia. by apply slot_page_decodes.
    - rewrite sub_app_r, Hl by lia. replace (Z.to_nat (1 * ps) - Z.to_nat ps)%nat with 0%nat by lia.
      replace (Z.to_nat (1 * ps) + 64 - Z.to_nat ps)%nat with 64%nat by lia. by apply slot_page_decodes. }
  assert (authoritative (Some sb, Some sb) sb 0) as Ha by (split_and!; [by left|done|right; auto]).
  destruct (open_disk b2 ps _ sb 0 Hb2 Hd Hos Ha) as (s' & f & Ho & _ & Harb & Hf & _).
  simpl in Harb. injection Harb as <-. injection Hf as <-.
  exists (pager_new b2 sb 0 free_default). split_and!; [|constructor|done|done| |done].
  - unfold create. fold sb. rewrite Hp. cbn [bind]. erewrite pbind_ret by exact Hw1. erewrite pbind_ret by exact Hw2.
    erewrite pbind_ret by (unfold backend_sync, reads; simpl; by rewrite sync_ok). done.
  - done.
  - done.
  - eexists. split; [exact Hos|done].
  - intros e [|]; done.
  - done.
  - simpl. rewrite Hi2, zlen_app. unfold zlen. lia.
Qed.

(** ** Correctness *)

(** Creating a database on an empty backend writes two identical slots and
    yields a pager in its invariant, and opening that backend again yields the
    very same pager; an unsupported page size is refused before anything is
    written. *)
Theorem create_then_open b ps id :
  healthy b → image b = [] → in_u 32 ps → length id = 16%nat → is_bytes id →
  (valid_page_size ps = true → ∃ p, create b ps id = Ok p ∧ pager_ok p ∧ healthy (backend p) ∧
     superblock (state p) = initial_superblock ps id ∧ zlen (image (backend p)) = 2 * ps ∧
     open_backend (backend p) = Ok p) ∧
  (valid_page_size ps = false → ∃ m, create b ps id = Err (InvalidArgument m)).
Proof.
  intros Hh Hi Hps Hid Hb. split; intros Hv; [by apply create_ok|].
  unfold create, encode_page, encode. simpl. rewrite Hv. by eexists.
Qed.

(** C19: a commit that keeps the page size and the database id and advances the
    LSN flips the authoritative slot to the new superblock, touches no data
    page, and is what a reopen finds, together with the free-page extension it
    promoted; any other commit is refused with nothing written and nothing
    changed. *)
Theorem commit_superblock_durable p next :
  pager_ok p → healthy (backend p) → encodable next → readable next →
  let cur := superblock (state p) in
  (page_size next = page_size cur ∧ db_id next = db_id cur ∧ checkpoint_lsn cur < checkpoint_lsn next →
   ∃ p' q, commit_superblock next p = (Ok tt, p') ∧ pager_ok p' ∧ healthy (backend p') ∧
     state p' = mkState next (1 - authoritative_slot (state p)) ∧
     (∀ id, page_at (image (backend p')) (psize p) id = page_at (image (backend p)) (psize p) id) ∧
     open_backend (backend p') = Ok q ∧ pager_ok q ∧ state q = state p' ∧
     (Z.land (feature_flags next) FREE_PAGES_FLAG ≠ 0 → ∀ e, extension (free p') = Some e →
        extension (free q) = Some e ∧ degraded (free q) = false)) ∧
  (¬ (page_size next = page_size cur ∧ db_id next = db_id cur ∧ checkpoint_lsn cur < checkpoint_lsn next) →
   ∃ m, commit_superblock next p = (Err (InvalidArgument m), p)).
Proof.
  intros Hok Hh He Hr cur. split; intros Hv; cycle 1.
  { destruct (ensure_commit_invalid _ _ Hv) as [m Hm]. exists m. unfold commit_superblock. erewrite pbind_ret by done.
    erewrite pbind_err; [done|]. unfold lift. fold cur. by rewrite Hm. }
  destruct (commit_ok p next Hok Hh He Hr Hv) as (b & page & Hc & Hb & Hok' & Hsp & Hi & Hext & Hpg).
  destruct (po_slots _ Hok) as (os & Hos & Ha). pose proof Hv as (Hps & _ & Hlsn).
  assert (1 - authoritative_slot (state p) = 0 ∨ 1 - authoritative_slot (state p) = 1) as Hs by (destruct Ha as [Ha _]; lia).
  destruct (write_slot_ok p (1 - authoritative_slot (state p)) next page os) as (b' & _ & _ & Hi' & Hd' & Hos' & _); try done.
  { by rewrite (po_size _ Hok). }
  rewrite Hi', <- Hi in Hd', Hos'.
  destruct (open_ok b (psize p) _ next _ Hb Hd' Hos' (authoritative_won _ _ _ _ Ha Hlsn)) as (q & Hq & Hqok & Hqs & _ & _ & Hqa & Hqx).
  pose proof (authoritative_newer _ _ _ _ _ Ha Hlsn Hqa) as Hslot.
  eexists _, q. split; [exact Hc|]. split_and!; try done.
  - simpl. destruct (state q); simpl in *. by subst.
  - intros Hf e Hee. destruct (Hqx Hf) as (o & Ho & -> & ->). rewrite Hslot, (Hext Hf e Hee) in Ho. by injection Ho as <-.
Qed.

(** C18: a crash at any point of a superblock commit is atomic.  Whatever mix of
    old and new bytes the interrupted slot write left, as long as the header
    checksum tells that mix from both headers, the file opens, on the old
    superblock or on the new one, with every data page as it was. *)
Theorem commit_crash_atomic p next p' b :
  pager_ok p → healthy (backend p) → encodable next → readable next →
  commit_superblock next p = (Ok tt, p') →
  healthy b → torn (image (backend p)) (image (backend p')) (image b) →
  crc_detects_torn (slot_header (image (backend p)) (psize p) (1 - authoritative_slot (state p))) (header_bytes next) →
  (∀ id, page_at (image b) (psize p) id = page_at (image (backend p)) (psize p) id) ∧
  ∃ q, open_backend b = Ok q ∧ pager_ok q ∧ backend q = b ∧
    (superblock (state q) = superblock (state p) ∨ superblock (state q) = next).
Proof.
  intros Hok Hh He Hr Hc Hhb Ht Hcrc. set (cur := superblock (state p)).
  destruct (decide (page_size next = page_size cur ∧ db_id next = db_id cur ∧ checkpoint_lsn cur < checkpoint_lsn next)) as [Hv|Hv].
  2:{ destruct (ensure_commit_invalid _ _ Hv) as [m Hm]. unfold commit_superblock in Hc. erewrite pbind_ret in Hc by done.
      erewrite pbind_err in Hc; [done|]. unfold lift. fold cur. by rewrite Hm. }
  destruct (commit_ok p next Hok Hh He Hr Hv) as (b0 & page & Hc' & _ & _ & Hsp & Hi & _). rewrite Hc' in Hc. injection Hc as <-.
  destruct (po_slots _ Hok) as (os & Hos & Ha). pose proof Hv as (Hps & _ & Hlsn). simpl in Ht. rewrite Hi in Ht.
  destruct (torn_slot_opens (image (backend p)) (psize p) os (1 - authoritative_slot (state p)) next page b) as [Hpg Hopen]; try done.
  { apply Hok. } { destruct Ha as [Ha _]; lia. } { by rewrite (po_size _ Hok). }
  split; [done|]. destruct (Hopen [cur; next]) as (q & Hq & Hqok & Hin & Hqb).
  - intros o [-> |[-> | ->]].
    + exists next, (1 - authoritative_slot (state p)). split; [by apply (authoritative_won _ cur)|set_solver].
    + exists cur, (authoritative_slot (state p)). split; [done|set_solver].
    + exists cur, (authoritative_slot (state p)). split; [by apply authoritative_lost|set_solver].
  - exists q. split_and!; try done. set_solver.
Qed.

(** C28: publishing feature flags writes the same page into the other slot and
    then into the authoritative one, without advancing the LSN, leaving the new
    flags in force whichever slot a reopen picks.  A crash that leaves any mix
    of old and new bytes of the first write, or, the first one being complete,
    of the second, opens on the old or on the new flags, all other superblock
    fields and all data pages unchanged, as long as the header checksum tells
    the mix from both headers. *)
Theorem feature_flags_crash_safe p flags (s := authoritative_slot (state p)) (sb := with_flags (superblock (state p)) flags) :
  pager_ok p → healthy (backend p) → encodable sb → readable sb → flags ≠ feature_flags (superblock (state p)) →
  ∃ page p1 p2 p' q, encode_slot_page sb false p = Ok page ∧
    publish_slot (1 - s) page p = (Ok tt, p1) ∧ publish_slot s page p1 = (Ok tt, p2) ∧
    commit_feature_flags flags p = (Ok tt, p') ∧ backend p' = backend p2 ∧ pager_ok p' ∧ state p' = mkState sb s ∧
    open_backend (backend p') = Ok q ∧ superblock (state q) = sb ∧
    ∀ b, healthy b →
      torn (image (backend p)) (image (backend p1)) (image b) ∧
        crc_detects_torn (slot_header (image (backend p)) (psize p) (1 - s)) (header_bytes sb) ∨
      torn (image (backend p1)) (image (backend p')) (image b) ∧
        crc_detects_torn (slot_header (image (backend p)) (psize p) s) (header_bytes sb) →
      (∀ id, page_at (image b) (psize p) id = page_at (image (backend p)) (psize p) id) ∧
      ∃ r, open_backend b = Ok r ∧ pager_ok r ∧
        (superblock (state r) = superblock (state p) ∨ superblock (state r) = sb).
Proof.
  intros Hok Hh He Hr Hne. destruct (flags_ok p flags Hok Hh He Hr Hne) as
    (page & b1 & b2 & Hpage & Hp1 & Hp2 & Hc & Hok' & Hb2 & Hsp & Hi1 & Hi2 & Hd1 & Hh1 & Hos1 & Hpg1).
  fold s in Hp1, Hp2, Hc, Hok', Hi1, Hi2, Hh1, Hos1. destruct (po_slots _ Hok) as (os & Hos & Ha). destruct (po_slots _ Hok') as (os' & Hos' & Ha').
  assert (page_size sb = psize p) as Hps by (symmetry; apply Hok). assert (s = 0 ∨ s = 1) as Hs by apply Ha.
  destruct (authoritative_flags os _ _ sb Ha eq_refl) as (F1 & F2 & F3). fold s in F1, F2, F3.
  destruct (open_ok b2 (psize p) os' sb s) as (q & Hq & Hqok & Hqs & _); [done|apply Hok'|done|done|].
  eexists page, _, _, _, q. split; [exact Hpage|]. split; [exact Hp1|]. split; [exact Hp2|]. split; [exact Hc|]. split_and!; try done.
  intros b Hb Hcase.
  assert (∀ o, o = set_slot (1 - s) (Some sb) os → ∃ c s', authoritative o c s' ∧ c ∈ [superblock (state p); sb]) as C1.
  { intros o ->. eexists _, 0. split; [exact F1|]. destruct (s =? 0); set_solver. }
  destruct Hcase as [[Ht Hcrc]|[Ht Hcrc]].
  - simpl in Ht. rewrite Hi1 in Ht. destruct (torn_slot_opens (image (backend p)) (psize p) os (1 - s) sb page b) as [Hpg Hopen]; try done;
      [apply Hok|lia|]. split; [done|].
    destruct (Hopen [superblock (state p); sb]) as (r & Hro & Hrok & Hin & _); [|exists r; split_and!; try done; set_solver].
    intros o [Heq|[-> | ->]]; [by apply C1|..]; exists (superblock (state p)), s; (split; [|set_solver]); [done|by apply authoritative_lost].
  - simpl in Ht. rewrite Hi2 in Ht.
    destruct (torn_slot_opens (image b1) (psize p) (set_slot (1 - s) (Some sb) os) s sb page b) as [Hpg Hopen]; try done;
      [by apply Hos1|by rewrite Hh1|]. split; [intros id; by rewrite Hpg, Hpg1|].
    destruct (Hopen [superblock (state p); sb]) as (r & Hro & Hrok & Hin & _); [|exists r; split_and!; try done; set_solver].
    intros o [-> |[Heq| ->]]; [exists sb, s; split; [done|set_solver]|by apply C1|exists sb, (1 - s); split; [done|set_solver]].
Qed.

(** Writing a data page makes exactly that page read back as written, and
    leaves the superblock, every other page and the cache's coherence as they
    were; reserved ids and wrong lengths are refused with nothing written.
    Appending a run yields the page ids right after the end of the file, each
    a page of zeros, and moves the end by exactly that many pages. *)
Theorem page_writes_exact p :
  pager_ok p → healthy (backend p) →
  (∀ id data, 2 ≤ id → (id + 1) * psize p < 2 ^ 64 → zlen data = psize p → is_bytes data →
     ∃ p', write_page id data p = (Ok tt, p') ∧ pager_ok p' ∧ healthy (backend p') ∧ state p' = state p ∧
       page_at (image (backend p')) (psize p) id = Some data ∧
       ∀ q pg, q ≠ id → page_at (image (backend p)) (psize p) q = Some pg → page_at (image (backend p')) (psize p) q = Some pg) ∧
  (∀ id data, id < 2 ∨ zlen data ≠ psize p → ∃ m, write_page id data p = (Err (InvalidArgument m), p)) ∧
  (∀ count, zlen (image (backend p)) + Z.of_nat count * psize p < 2 ^ 64 →
     ∃ first p', append_run_locked count p = (Ok first, p') ∧ pager_ok p' ∧ healthy (backend p') ∧ state p' = state p ∧
       page_count p = first ∧ page_count p' = first + Z.of_nat count ∧
       (∀ i, first ≤ i < first + Z.of_nat count →
          page_at (image (backend p)) (psize p) i = None ∧
          page_at (image (backend p')) (psize p) i = Some (replicate (Z.to_nat (psize p)) 0)) ∧
       ∀ q pg, page_at (image (backend p)) (psize p) q = Some pg → page_at (image (backend p')) (psize p) q = Some pg).
Proof.
  intros Hok Hh. pose proof (po_disk _ Hok) as Hd. pose proof (disk_ps_bounds _ _ Hd) as Hps. split_and!.
  - intros id data Hid Hmax Hl Hb. destruct (write_page_locked_ok p id data) as (p' & Hw & Hok' & Hh' & _ & Hst & _ & Hi); try done.
    exists p'. rewrite Hi. split_and!; try done.
    + unfold write_page, ensure_data_page, SUPERBLOCK_SLOTS. rewrite (proj2 (Z.ltb_ge _ _)) by lia.
      erewrite pbind_ret by done. erewrite pbind_ret by done. by rewrite Hl, Z.eqb_refl.
    + refine (proj1 (page_at_write _ _ _ _ id data _ _ _)); (done || lia).
    + intros q pg Hne Hq. refine (proj2 (page_at_write _ _ _ _ q pg _ _ _) Hne Hq); (done || lia).
  - intros id data Hbad. unfold write_page, ensure_data_page, SUPERBLOCK_SLOTS.
    destruct (Z.ltb_spec id 2); [by eexists; erewrite pbind_err|]. erewrite pbind_ret by done. erewrite pbind_ret by done.
    rewrite (proj2 (Z.eqb_neq _ _)) by lia. by eexists.
  - intros count Hmax. destruct (append_run_ok p count Hok Hh Hmax) as (b & Ha & Hb & Hi & Hok').
    eexists _, _. split; [exact Ha|]. split_and!; try done.
    + unfold page_count. by rewrite len_ok.
    + unfold page_count. simpl. rewrite len_ok, Hi, zlen_app, zlen_zero_pages by (done || lia). by rewrite Z.div_add by lia.
    + intros i Hin. simpl. rewrite Hi. apply page_at_append; [lia|apply Hd|apply Hd|done].
    + intros q pg Hq. simpl. rewrite Hi. apply page_at_app; [lia|done].
Qed.
End pager_proof.

(** ** Concrete databases *)

(** Every mixture of two images. *)
Fixpoint mixtures (old new : list Z) : list (list Z) :=
  match old, new with
  | o :: old, n :: new =>
      let rest := mixtures old new in
      if o =? n then cons o <$> rest else (cons o <$> rest) ++ (cons n <$> rest)
  | _, _ => [[]]
  end.

Lemma torn_mixtures old : ∀ new m, torn old new m → m ∈ mixtures old new.
Proof.
  induction old as [|o old IH]; intros [|n new] [|x m] (Hl & Hm & Hi); simpl in *; try done; [by left|].
  assert (m ∈ mixtures old new) as Hin.
  { apply IH. split_and!; [lia..|]. intros i. apply (Hi (S i)). }
  assert (∀ y, x = y → x :: m ∈ cons y <$> mixtures old new) as Hc by (intros y ->; by apply list_elem_of_fmap_2).
  destruct (Hi 0%nat) as [[= E]|[= E]]; destruct (Z.eqb_spec o n); rewrite ?elem_of_app; subst; auto.
Qed.

Definition crc_detects_check {CR : Crc32c} (old new : list Z) : bool :=
  forallb (λ m, bool_decide (m = old) || bool_decide (m = new) || negb (crc32c (take 60 m) =? from_le (sub 60 64 m)))
    (mixtures old new).

Lemma crc_detects_check_sound {CR : Crc32c} old new : crc_detects_check old new = true → crc_detects_torn old new.
Proof.
  intros Hc m Hm%torn_mixtures. unfold crc_detects_check in Hc. rewrite forallb_forall in Hc.
  apply list_elem_of_In in Hm. specialize (Hc m Hm). apply orb_true_iff in Hc as [[E|E]%orb_true_iff|E].
  - left. by apply bool_decide_eq_true in E.
  - right; left. by apply bool_decide_eq_true in E.
  - right; right. reflect_bools. done.
Qed.

(** A prefix of the new bytes reached the disk. *)
Lemma torn_prefix (old new : list Z) k : length old = length new → torn old new (take k new ++ drop k old).
Proof.
  intros Hl. split_and!; [done|rewrite length_app, length_take, length_drop; lia|]. intros i.
  destruct (decide (i < k)%nat) as [Hi|Hi].
  - right. destruct (decide (i < length new)%nat).
    + rewrite lookup_app_l, lookup_take_lt by (rewrite ?length_take; lia). done.
    + rewrite !lookup_ge_None_2; [done|lia|rewrite length_app, length_take, length_drop; lia].
  - left. rewrite lookup_app_r, length_take by (rewrite length_take; lia).
    rewrite lookup_drop. destruct (decide (k ≤ length new)%nat); [f_equal; lia|].
    rewrite !lookup_ge_None_2; [done|lia|lia].
Qed.

Definition example_id : list Z := replicate 16 7.
Definition example_next : Superblock := mkSuperblock 1 1 0 4096 example_id 1 0.

#[local] Existing Instance castagnoli.

(** The database [create] leaves on an empty memory backend. *)
Definition example_pager : Pager MemoryBackend :=
  match create memory_new 4096 example_id with
  | Ok p => p
  | _ => pager_new memory_new (initial_superblock 4096 example_id) 0 free_default
  end.

Lemma example_pager_ok : pager_ok example_pager ∧ healthy (backend example_pager).
Proof.
  destruct (create_ok memory_new 4096 example_id) as (p & Hc & Hok & Hh & _);
    [reflexivity|reflexivity|range_lia|reflexivity| |reflexivity|].
  - by apply (bool_decide_unpack _); vm_compute.
  - unfold example_pager. rewrite Hc. by split.
Qed.

Lemma example_next_ok : encodable example_next ∧ readable example_next.
Proof. split; [split_and!|]; try done. by apply (bool_decide_unpack _); vm_compute. Qed.

Lemma create_then_open_witness :
  ∃ p, create memory_new 4096 example_id = Ok p ∧ open_backend (backend p) = Ok p.
Proof.
  destruct (create_then_open memory_new 4096 example_id) as [Hc _]; [reflexivity|reflexivity|range_lia|reflexivity| |].
  - apply (bool_decide_unpack _). vm_compute. exact I.
  - destruct (Hc eq_refl) as (p & H1 & _ & _ & _ & _ & H2). exists p. split; assumption.
Defined.

Lemma commit_superblock_durable_witness :
  ∃ p' q, commit_superblock example_next example_pager = (Ok tt, p') ∧
    open_backend (backend p') = Ok q ∧ superblock (state q) = example_next.
Proof.
  destruct (commit_superblock_durable example_pager example_next (proj1 example_pager_ok) (proj2 example_pager_ok)
    (proj1 example_next_ok) (proj2 example_next_ok)) as [Hc _].
  destruct Hc as (p' & q & H1 & _ & _ & H2 & _ & H3 & _ & H4 & _).
  - vm_compute. repeat split.
  - exists p', q. rewrite H4, H2. repeat split; assumption.
Defined.

(** The pager after the commit. *)
Definition example_committed : Pager MemoryBackend := (commit_superblock example_next example_pager).2.

Lemma example_commit : commit_superblock example_next example_pager = (Ok tt, example_committed).
Proof.
  assert ((commit_superblock example_next example_pager).1 = Ok tt) as H by (vm_compute; reflexivity).
  unfold example_committed. rewrite (surjective_pairing (commit_superblock example_next example_pager)), H at 1. reflexivity.
Qed.

(** A crash that leaves 62 bytes of the new slot page: the header, and half of
    its checksum. *)
Definition example_crashed : MemoryBackend :=
  mkMemory (take 4158 (image (backend example_committed)) ++ drop 4158 (image (backend example_pager))) None.

Lemma commit_crash_atomic_witness :
  ∃ q, open_backend example_crashed = Ok q ∧
    (superblock (state q) = superblock (state example_pager) ∨ superblock (state q) = example_next).
Proof.
  destruct (commit_crash_atomic example_pager example_next example_committed example_crashed
    (proj1 example_pager_ok) (proj2 example_pager_ok) (proj1 example_next_ok) (proj2 example_next_ok) example_commit)
    as (_ & q & Hq & _ & _ & Hsb).
  - reflexivity.
  - apply torn_prefix. vm_compute. reflexivity.
  - apply crc_detects_check_sound. vm_compute. reflexivity.
  - exists q. split; assumption.
Defined.

(** Setting [FREE_PAGES] on the fresh database: the superblock, the slot page,
    and the pagers after the first and after the second slot write. *)
Definition example_flagged : Superblock := with_flags (superblock (state example_pager)) FREE_PAGES_FLAG.
Definition example_flag_page : list Z := 
  match encode_slot_page example_flagged false example_pager with Ok page => page | _ => [] end.
Definition example_first : Pager MemoryBackend := (publish_slot 1 example_flag_page example_pager).2.
Definition example_second : Pager MemoryBackend := (publish_slot 0 example_flag_page example_first).2.

(** The crashes that leave 62 bytes of the first slot write, and those that
    leave 62 bytes of the second. *)
Definition example_first_torn : MemoryBackend :=
  mkMemory (take 4158 (image (backend example_first)) ++ drop 4158 (image (backend example_pager))) None.
Definition example_second_torn : MemoryBackend :=
  mkMemory (take 62 (image (backend example_second)) ++ drop 62 (image (backend example_first))) None.

Lemma feature_flags_crash_safe_witness :
  ∃ p' q r1 r2, commit_feature_flags FREE_PAGES_FLAG example_pager = (Ok tt, p') ∧ open_backend (backend p') = Ok q ∧
    superblock (state q) = example_flagged ∧
    open_backend example_first_torn = Ok r1 ∧
    (superblock (state r1) = superblock (state example_pager) ∨ superblock (state r1) = example_flagged) ∧
    open_backend example_second_torn = Ok r2 ∧
    (superblock (state r2) = superblock (state example_pager) ∨ superblock (state r2) = example_flagged).
Proof.
  destruct (feature_flags_crash_safe example_pager FREE_PAGES_FLAG (proj1 example_pager_ok) (proj2 example_pager_ok))
    as (page & p1 & p2 & p' & q & Hpage & H1 & H2 & Hc & Hb & _ & _ & Hq & Hsb & Hcrash).
  - split; [apply (bool_decide_unpack _); vm_compute; exact I|]. split; vm_compute; [reflexivity|intros [=]].
  - split; vm_compute; [intros [=]|reflexivity].
  - vm_compute. intros [=].
  - assert (example_flag_page = page) as Epage by (unfold example_flag_page, example_flagged; rewrite Hpage; reflexivity).
    assert (authoritative_slot (state example_pager) = 0) as Es by (vm_compute; reflexivity).
    rewrite Es in H1, H2.
    assert (example_first = p1) as E1 by (unfold example_first; rewrite Epage; exact (f_equal snd H1)).
    assert (example_second = p2) as E2 by (unfold example_second; rewrite Epage, E1; exact (f_equal snd H2)).
    rewrite Hb, <- E1, <- E2 in Hcrash.
    destruct (Hcrash example_first_torn) as (_ & r1 & Hr1 & _ & Hs1); [reflexivity| |].
    { left. split; [apply torn_prefix; vm_compute; reflexivity|].
      apply crc_detects_check_sound. vm_compute. reflexivity. }
    destruct (Hcrash example_second_torn) as (_ & r2 & Hr2 & _ & Hs2); [reflexivity| |].
    { right. split; [apply torn_prefix; vm_compute; reflexivity|].
      apply crc_detects_check_sound. vm_compute. reflexivity. }
    exists p', q, r1, r2. repeat split; assumption.
Defined.

(** The fresh database with a data page of fives, page 2, and an empty cache of
    1 MiB. *)
Definition example_data : list Z := replicate 4096 5.
Definition example_cached : Pager MemoryBackend :=
  with_budget (Budget.new 1048576) (write_page_locked 2 example_data (append_run_locked 1 example_pager).2).2.

Lemma example_cached_ok : pager_ok example_cached ∧ healthy (backend example_cached).
Proof.
  destruct example_pager_ok as [Hok Hh].
  destruct (append_run_ok example_pager 1 Hok Hh) as (b & Ha & Hb & Hi & Hok1); [by vm_compute|].
  destruct (write_page_locked_ok (set_backend b example_pager) 2 example_data Hok1 Hb) as (p' & Hw & Hok' & Hh' & _);
    [done|by vm_compute|by vm_compute|by apply (bool_decide_unpack _); vm_compute|].
  unfold example_cached. rewrite Ha. cbn [snd]. rewrite Hw. cbn [snd]. split; [|exact Hh'].
  apply with_budget_ok; [exact Hok'|]. repeat split; done.
Qed.

(** The first read of page 2 misses the cache and fills it, the second one is
    answered by it. *)
Lemma cached_reads_transparent_witness :
  ∃ p1 p2 c, cache example_cached = Some c ∧ cached c !! 2 = None ∧
    read_page_ref (λ _, false) 2 example_cached = (Ok example_data, p1) ∧
    (cached <$> cache p1) = Some {[2 := example_data]} ∧
    read_page_ref (λ _, false) 2 p1 = (Ok example_data, p2) ∧ pager_ok p2.
Proof.
  assert (in_u 64 2) as Hid by range_lia.
  destruct (cached_reads_transparent (λ _, false) example_cached 2 (proj1 example_cached_ok) (proj2 example_cached_ok) Hid)
    as (r1 & p1 & Hr1 & Hok1 & Hf1 & _ & H1).
  assert (page_at (image (backend example_cached)) (psize example_cached) 2 = Some example_data) as Epage
    by (apply (bool_decide_unpack _); vm_compute; exact I).
  rewrite Epage in H1. rewrite H1 in Hr1.
  destruct (cached_reads_transparent (λ _, false) p1 2 Hok1) as (r2 & p2 & Hr2 & Hok2 & _ & _ & H2);
    [|exact Hid|].
  - destruct Hf1 as (Hb & _). rewrite Hb. exact (proj2 example_cached_ok).
  - destruct Hf1 as (Hb & Hs & _). rewrite Hb, Hs, Epage in H2. rewrite H2 in Hr2.
    assert (p1 = (read_page_ref (λ _, false) 2 example_cached).2) as E1 by (rewrite Hr1; reflexivity).
    eexists p1, p2, _. split; [reflexivity|]. split; [vm_compute; reflexivity|]. split; [exact Hr1|].
    split; [rewrite E1; apply (bool_decide_unpack _); vm_compute; exact I|]. split; [exact Hr2|exact Hok2].
Defined.

Lemma page_writes_exact_witness :
  ∃ first p', append_run_locked 3 example_pager = (Ok first, p') ∧ page_count p' = first + 3 ∧
    page_at (image (backend p')) (psize example_pager) first = Some (replicate (Z.to_nat (psize example_pager)) 0).
Proof.
  destruct (page_writes_exact example_pager (proj1 example_pager_ok) (proj2 example_pager_ok)) as (_ & _ & Hr).
  destruct (Hr 3%nat) as (first & p' & H1 & _ & _ & _ & _ & H2 & H3 & _).
  - vm_compute. reflexivity.
  - exists first, p'. split; [exact H1|]. split; [exact H2|]. apply H3. split; [apply Z.le_refl|lia].
Defined.
