(* ===== verification/Catalog.v ===== *)
(** The in-memory catalog: [devondb-storage/src/catalog.rs].

    Its data, every operation that changes it, and the validation that loading
    runs on a decoded catalog.  The theorem says that the two agree: whatever
    sequence of operations built a catalog, that validation accepts it.  [HashSet]s of
    names are [gset]s, the storage map is a [gmap] iterated in key order, and a
    JSON plan is its [serde_json::Value] tree. *)

From stdpp Require Import gmap sorting relations.
From S2P Require Import Prelude Bytes Types Schema.

Notation cat_name := (list Z).

Record TableStorage := mkTableStorage { groups : list Z }.
Record RelStorage := mkRelStorage { fwd : list Z; bwd : list Z }.
Inductive StorageState := NodeStorage (s : TableStorage) | RelStorageOf (s : RelStorage).

(** [IndexKind] has the one constructor [Hnsw]. *)
Record IndexEntry := mkIndex { index_name : cat_name; index_table : cat_name; index_column : cat_name; index_root : Z }.

Record InterfaceColumn := mkInterfaceColumn { required_name : cat_name; required_ty : LogicalType }.
Record InterfaceEntry := mkInterface { interface_name : cat_name; interface_columns : list InterfaceColumn }.

Record NodeClassEntry := mkNodeClass {
  class_table : cat_name;
  class_display : option cat_name;
  class_plural : option cat_name;
  class_label : option cat_name;
  class_summary : list cat_name;
  class_color : option cat_name;
  class_description : option cat_name;
  class_implements : list cat_name;
}.

Record RelClassEntry := mkRelClass {
  rel_class_table : cat_name; rel_class_verb : option cat_name; rel_class_inverse : option cat_name }.

Record Ontology := mkOntology {
  interfaces : list InterfaceEntry; node_classes : list NodeClassEntry; rel_classes : list RelClassEntry }.

Definition ontology_default : Ontology := mkOntology [] [] [].
Definition ontology_is_empty (o : Ontology) : bool :=
  match o with mkOntology [] [] [] => true | _ => false end.

(** [serde_json::Value]. *)
Inductive JsonValue :=
| JNull
| JBool (b : bool)
| JNumber (text : list Z)
| JString (text : list Z)
| JArray (items : list JsonValue)
| JObject (fields : list (list Z * JsonValue)).

Record PinEntry := mkPin { pin_name : cat_name; pin_text : list Z; pin_plan : JsonValue; pin_created_lsn : Z }.

#[export] Instance JsonValue_eq_dec : EqDecision JsonValue.
Proof.
  refine (fix go x y := let _ : EqDecision JsonValue := @go in
    match x, y with
    | JNull, JNull => left _
    | JBool a, JBool b => cast_if (decide (a = b))
    | JNumber a, JNumber b => cast_if (decide (a = b))
    | JString a, JString b => cast_if (decide (a = b))
    | JArray a, JArray b => cast_if (decide (a = b))
    | JObject a, JObject b => cast_if (decide (a = b))
    | _, _ => right _
    end); congruence.
Defined.
#[export] Instance InterfaceColumn_eq_dec : EqDecision InterfaceColumn.
Proof. solve_decision. Defined.
#[export] Instance InterfaceEntry_eq_dec : EqDecision InterfaceEntry.
Proof. solve_decision. Defined.
#[export] Instance NodeClassEntry_eq_dec : EqDecision NodeClassEntry.
Proof. solve_decision. Defined.
#[export] Instance RelClassEntry_eq_dec : EqDecision RelClassEntry.
Proof. solve_decision. Defined.
#[export] Instance Ontology_eq_dec : EqDecision Ontology.
Proof. solve_decision. Defined.
#[export] Instance PinEntry_eq_dec : EqDecision PinEntry.
Proof. solve_decision. Defined.

Record Catalog := mkCatalog {
  node_tables : list NodeTableSchema;
  rel_tables : list RelTableSchema;
  storage : gmap cat_name StorageState;
  indexes : list IndexEntry;
  ontology : option Ontology;
  pins : list PinEntry;
}.

Definition default_catalog : Catalog := mkCatalog [] [] ∅ [] None [].

(** ** Lookups *)

(** [iter().find(|x| fold(name(x)) == fold(wanted))]. *)
Definition find_folded {A} (key : A → cat_name) (xs : list A) (wanted : cat_name) : option A :=
  snd <$> list_find (λ x, fold (key x) = fold wanted) xs.

Definition node_table (self : Catalog) (name : cat_name) : option NodeTableSchema :=
  find_folded node_name (node_tables self) name.
Definition rel_table (self : Catalog) (name : cat_name) : option RelTableSchema :=
  find_folded rel_name (rel_tables self) name.
Definition contains_table (self : Catalog) (name : cat_name) : bool :=
  bool_decide (is_Some (node_table self name)) || bool_decide (is_Some (rel_table self name)).

Definition storage_state (self : Catalog) (name : cat_name) : option StorageState :=
  snd <$> find_folded fst (btree_iter (storage self)) name.

Definition table_storage (self : Catalog) (name : cat_name) : option TableStorage :=
  match storage_state self name with Some (NodeStorage s) => Some s | _ => None end.
Definition rel_storage (self : Catalog) (name : cat_name) : option RelStorage :=
  match storage_state self name with Some (RelStorageOf s) => Some s | _ => None end.

Definition node_class (self : Catalog) (table : cat_name) : option NodeClassEntry :=
  ontology self ≫= λ o, find_folded class_table (node_classes o) table.
Definition rel_class (self : Catalog) (table : cat_name) : option RelClassEntry :=
  ontology self ≫= λ o, find_folded rel_class_table (rel_classes o) table.
Definition interface (self : Catalog) (name : cat_name) : option InterfaceEntry :=
  ontology self ≫= λ o, find_folded interface_name (interfaces o) name.

(** ** Validation *)

Definition corrupt_to_invalid (error : DevonError) : DevonError :=
  match error with Corrupt context => InvalidArgument context | other => other end.

Definition json_get (v : JsonValue) (key : list Z) : option JsonValue :=
  match v with
  | JObject fields => match list_find (λ kv, kv.1 = key) fields with Some (_, kv) => Some kv.2 | None => None end
  | _ => None
  end.
Definition is_object (v : JsonValue) : bool := match v with JObject _ => true | _ => false end.
Definition is_number (v : JsonValue) : bool := match v with JNumber _ => true | _ => false end.

(** ["v"] and ["plan"]. *)
Definition key_v : list Z := [118].
Definition key_plan : list Z := [112; 108; 97; 110].

Definition validate_pin_entry (entry : PinEntry) : outcome () :=
  if negb (is_object (pin_plan entry)) then Err (Corrupt "pin `{}` plan is not a JSON object") else
  if negb (match json_get (pin_plan entry) key_v with Some v => is_number v | None => false end)
  then Err (Corrupt "pin `{}` plan has no numeric `v`") else
  if negb (match json_get (pin_plan entry) key_plan with Some v => is_object v | None => false end)
  then Err (Corrupt "pin `{}` plan has no object `plan`") else Ok ().

Definition validate_index_entry (self : Catalog) (index : IndexEntry) : outcome () :=
  if index_root index =? 0 then Err (Corrupt "index `{}` has root page 0") else
  match node_table self (index_table index) with
  | None => Err (Corrupt "index `{}` covers unknown node table `{}`")
  | Some schema =>
      if bool_decide (column_index (node_columns schema) (index_column index) = None)
      then Err (Corrupt "index `{}` covers unknown column `{}.{}`") else Ok ()
  end.

(** A loop that rejects a second element with the same key and checks each. *)
Definition distinct_step {A K} `{Countable K} (key : A → K) (duplicate : DevonError) (check : A → outcome ())
    (seen : gset K) (x : A) : outcome (gset K) :=
  if bool_decide (key x ∈ seen) then Err duplicate else
  let! _ := check x in Ok ({[key x]} ∪ seen).

Definition validate_interface_entry (entry : InterfaceEntry) : outcome () :=
  if bool_decide (interface_name entry = []) then Err (Corrupt "interface has an empty name") else
  if bool_decide (interface_columns entry = []) then Err (Corrupt "interface `{}` declares no columns") else
  let! _ := for_each (interface_columns entry) ∅ (λ names column,
    if bool_decide (required_name column = []) then Err (Corrupt "interface `{}` has a column with an empty name")
    else distinct_step (λ c, fold (required_name c)) (Corrupt "interface `{}` column `{}` has a fold-equal duplicate")
      (λ _, Ok ()) names column) in
  Ok ().

Definition satisfies (schema : NodeTableSchema) (required : InterfaceColumn) : bool :=
  match column_index (node_columns schema) (required_name required) ≫= (λ i, node_columns schema !! i) with
  | Some column => bool_decide (ty column = required_ty required)
  | None => false
  end.

Definition validate_node_class_entry (self : Catalog) (entry : NodeClassEntry) : outcome () :=
  match node_table self (class_table entry) with
  | None => Err (Corrupt "node class names unknown node table `{}`")
  | Some schema =>
      let! _ := for_each (option_list (class_label entry) ++ class_summary entry) () (λ _ column,
        if bool_decide (column_index (node_columns schema) column = None)
        then Err (Corrupt "node class for `{}` names unknown column `{column}`") else Ok ()) in
      for_each (class_implements entry) () (λ _ name,
        match interface self name with
        | None => Err (Corrupt "node class for `{}` implements unknown interface `{name}`")
        | Some i => for_each (interface_columns i) () (λ _ required,
            if satisfies schema required then Ok ()
            else Err (Corrupt "node table `{}` does not satisfy interface `{}`: requires column `{}` of type {}"))
        end)
  end.

Definition validate_rel_class_entry (self : Catalog) (entry : RelClassEntry) : outcome () :=
  if bool_decide (rel_table self (rel_class_table entry) = None)
  then Err (Corrupt "relationship class names unknown relationship table `{}`") else Ok ().

Definition validate_decoded_table (tables : gset cat_name) (table_name : cat_name) (columns : list Column) :
    outcome (gset cat_name) :=
  if bool_decide (fold table_name ∈ tables)
  then Err (Corrupt "table name `{table_name}` has a fold-equal duplicate in the catalog") else
  let! _ := for_each columns ∅ (distinct_step (λ c, fold (name c))
    (Corrupt "column `{}` has a fold-equal duplicate in table `{table_name}`") (λ _, Ok ())) in
  Ok ({[fold table_name]} ∪ tables).

Definition validate_schemas (self : Catalog) : outcome () :=
  let! tables := for_each (node_tables self) ∅ (λ tables s, validate_decoded_table tables (node_name s) (node_columns s)) in
  let! _ := for_each (rel_tables self) tables (λ tables s, validate_decoded_table tables (rel_name s) (rel_columns s)) in
  Ok ().

Definition validate_storage_entry (self : Catalog) (entry : cat_name * StorageState) : outcome () :=
  let '(name, state) := entry in
  let node := bool_decide (is_Some (node_table self name)) in
  let rel := bool_decide (is_Some (rel_table self name)) in
  match state with
  | NodeStorage _ => if node then Ok () else if rel
      then Err (Corrupt "relationship table `{name}` has node-table storage")
      else Err (Corrupt "storage state names unknown table `{name}`")
  | RelStorageOf _ => if rel then Ok () else if node
      then Err (Corrupt "node table `{name}` has relationship-table storage")
      else Err (Corrupt "storage state names unknown table `{name}`")
  end.

Definition validate_storage (self : Catalog) : outcome () :=
  let! _ := for_each (btree_iter (storage self)) ∅ (distinct_step (λ e, fold e.1)
    (Corrupt "storage state contains fold-equal table name `{name}`") (validate_storage_entry self)) in
  Ok ().

(** The two name sets of [validate_indexes]. *)
Definition index_step (self : Catalog) (s : gset cat_name * gset (cat_name * cat_name)) (index : IndexEntry) :
    outcome (gset cat_name * gset (cat_name * cat_name)) :=
  let '(names, columns) := s in
  let! names := distinct_step (λ i, fold (index_name i))
    (Corrupt "index name `{}` has a fold-equal duplicate in the catalog") (λ _, Ok ()) names index in
  let! columns := distinct_step (λ i, (fold (index_table i), fold (index_column i)))
    (Corrupt "index column `{}.{}` has a fold-equal duplicate in the catalog") (validate_index_entry self) columns index in
  Ok (names, columns).

Definition validate_indexes (self : Catalog) : outcome () :=
  let! _ := for_each (indexes self) (∅, ∅) (index_step self) in Ok ().

Definition validate_ontology (self : Catalog) : outcome () :=
  match ontology self with
  | None => Ok ()
  | Some o =>
      if ontology_is_empty o then Err (Corrupt "catalog ontology section is present but declares nothing") else
      let! _ := for_each (interfaces o) ∅ (distinct_step (λ i, fold (interface_name i))
        (Corrupt "interface `{}` has a fold-equal duplicate in the catalog") validate_interface_entry) in
      let! _ := for_each (node_classes o) ∅ (distinct_step (λ c, fold (class_table c))
        (Corrupt "node class for `{}` has a fold-equal duplicate in the catalog") (validate_node_class_entry self)) in
      let! _ := for_each (rel_classes o) ∅ (distinct_step (λ c, fold (rel_class_table c))
        (Corrupt "relationship class for `{}` has a fold-equal duplicate in the catalog") (validate_rel_class_entry self)) in
      Ok ()
  end.

Definition validate_pins (self : Catalog) : outcome () :=
  let! _ := for_each (pins self) ∅ (distinct_step (λ p, fold (pin_name p))
    (Corrupt "pin `{}` has a fold-equal duplicate in the catalog") validate_pin_entry) in
  Ok ().

(** [from_payload] after its JSON step, which re-validates each schema through
    [try_from] ([schema.rs]) and is not modelled. *)
Definition validate (self : Catalog) : outcome Catalog :=
  let! _ := validate_schemas self in
  let! _ := validate_storage self in
  let! _ := validate_indexes self in
  let! _ := validate_ontology self in
  let! _ := validate_pins self in
  Ok self.

(** ** Operations *)

Definition duplicate_table : DevonError := InvalidArgument "table name `{name}` is already in the catalog".

Definition add_node_table (self : Catalog) (schema : NodeTableSchema) : outcome Catalog :=
  if contains_table self (node_name schema) then Err duplicate_table else
  Ok (mkCatalog (node_tables self ++ [schema]) (rel_tables self) (storage self) (indexes self) (ontology self) (pins self)).

Definition require_node_table (self : Catalog) (name : cat_name) : outcome () :=
  if bool_decide (node_table self name = None) then Err (NotFound "node table `{name}`") else Ok ().

Definition reject_vector_encoded_relationship_columns (columns : list Column) : outcome () :=
  for_each columns () (λ _ column,
    match ty column with
    | TVectorEncoded _ _ => Err (InvalidArgument "column `{}` in relationship table `{table_name}` has type {}; VectorEncoded relationship properties are not supported")
    | _ => Ok ()
    end).

Definition add_rel_table (self : Catalog) (schema : RelTableSchema) : outcome Catalog :=
  if contains_table self (rel_name schema) then Err duplicate_table else
  let! _ := require_node_table self (rel_from schema) in
  let! _ := require_node_table self (rel_to schema) in
  let! _ := reject_vector_encoded_relationship_columns (rel_columns schema) in
  Ok (mkCatalog (node_tables self) (rel_tables self ++ [schema]) (storage self) (indexes self) (ontology self) (pins self)).

Definition put_storage (self : Catalog) (name : cat_name) (state : StorageState) : Catalog :=
  mkCatalog (node_tables self) (rel_tables self) (<[name := state]> (storage self)) (indexes self) (ontology self) (pins self).

Definition set_table_storage (self : Catalog) (name : cat_name) (s : TableStorage) : outcome Catalog :=
  let! display_name := ok_or (node_name <$> node_table self name) (NotFound "node table `{name}`") in
  Ok (put_storage self display_name (NodeStorage s)).

Definition set_rel_storage (self : Catalog) (name : cat_name) (s : RelStorage) : outcome Catalog :=
  let! display_name := ok_or (rel_name <$> rel_table self name) (NotFound "relationship table `{name}`") in
  Ok (put_storage self display_name (RelStorageOf s)).

Definition with_indexes (self : Catalog) (i : list IndexEntry) : Catalog :=
  mkCatalog (node_tables self) (rel_tables self) (storage self) i (ontology self) (pins self).

Definition add_index (self : Catalog) (entry : IndexEntry) : outcome Catalog :=
  if existsb (λ i, bool_decide (fold (index_name i) = fold (index_name entry))) (indexes self)
  then Err (InvalidArgument "index name `{}` is already in the catalog") else
  if existsb (λ i, bool_decide (fold (index_table i) = fold (index_table entry)) &&
                   bool_decide (fold (index_column i) = fold (index_column entry))) (indexes self)
  then Err (InvalidArgument "column `{}.{}` is already indexed by `{}`") else
  let! _ := map_err corrupt_to_invalid (validate_index_entry self entry) in
  Ok (with_indexes self (indexes self ++ [entry])).

Definition set_index_root (self : Catalog) (name : cat_name) (root : Z) : outcome Catalog :=
  if root =? 0 then Err (InvalidArgument "index `{name}` cannot use root page 0") else
  match list_find (λ i, fold (index_name i) = fold name) (indexes self) with
  | None => Err (NotFound "index `{name}`")
  | Some (n, i) => Ok (with_indexes self (<[n := mkIndex (index_name i) (index_table i) (index_column i) root]> (indexes self)))
  end.

Definition with_pins (self : Catalog) (p : list PinEntry) : Catalog :=
  mkCatalog (node_tables self) (rel_tables self) (storage self) (indexes self) (ontology self) p.

Definition pin (self : Catalog) (entry : PinEntry) : outcome Catalog :=
  if existsb (λ p, bool_decide (fold (pin_name p) = fold (pin_name entry))) (pins self)
  then Err (InvalidArgument "pin `{}` is already in the catalog") else
  let! _ := map_err corrupt_to_invalid (validate_pin_entry entry) in
  Ok (with_pins self (pins self ++ [entry])).

Definition unpin (self : Catalog) (name : cat_name) : outcome Catalog :=
  match list_find (λ p, fold (pin_name p) = fold name) (pins self) with
  | None => Err (NotFound "pin `{name}`{}")
  | Some (n, _) => Ok (with_pins self (base.delete n (pins self)))
  end.

Definition with_ontology (self : Catalog) (o : Ontology) : Catalog :=
  mkCatalog (node_tables self) (rel_tables self) (storage self) (indexes self) (Some o) (pins self).

Definition declare_interface (self : Catalog) (entry : InterfaceEntry) : outcome Catalog :=
  if bool_decide (is_Some (interface self (interface_name entry)))
  then Err (InvalidArgument "interface `{}` is already declared") else
  let! _ := map_err corrupt_to_invalid (validate_interface_entry entry) in
  let o := default ontology_default (ontology self) in
  Ok (with_ontology self (mkOntology (interfaces o ++ [entry]) (node_classes o) (rel_classes o))).

Definition declare_node_class (self : Catalog) (entry : NodeClassEntry) : outcome Catalog :=
  if bool_decide (is_Some (node_class self (class_table entry)))
  then Err (InvalidArgument "node table `{}` already has a class declaration") else
  let! _ := map_err corrupt_to_invalid (validate_node_class_entry self entry) in
  let o := default ontology_default (ontology self) in
  Ok (with_ontology self (mkOntology (interfaces o) (node_classes o ++ [entry]) (rel_classes o))).

Definition declare_rel_class (self : Catalog) (entry : RelClassEntry) : outcome Catalog :=
  if bool_decide (is_Some (rel_class self (rel_class_table entry)))
  then Err (InvalidArgument "relationship table `{}` already has a class declaration") else
  let! _ := map_err corrupt_to_invalid (validate_rel_class_entry self entry) in
  let o := default ontology_default (ontology self) in
  Ok (with_ontology self (mkOntology (interfaces o) (node_classes o) (rel_classes o ++ [entry]))).

(** ** Loops that collect distinct names *)

Lemma distinct_each {A K} `{Countable K} (key : A → K) dup check xs : ∀ (seen s : gset K),
  for_each xs seen (distinct_step key dup check) = Ok s ↔
  NoDup (key <$> xs) ∧ Forall (λ x, key x ∉ seen ∧ check x = Ok ()) xs ∧ s = list_to_set (key <$> xs) ∪ seen.
Proof.
  induction xs as [|x xs IH]; intros seen s; cbn [for_each].
  { csimpl. split; [intros [= <-]; split_and!; [constructor|constructor|set_solver]|].
    intros (_ & _ & ->). f_equal. set_solver. }
  rewrite bind_Ok. unfold distinct_step at 1. csimpl. rewrite NoDup_cons, Forall_cons. split.
  - intros (s1 & H1 & H2). case_bool_decide as Hin; [done|]. apply bind_Ok in H1 as ([] & Hc & [= <-]).
    apply IH in H2 as (Hnd & Hall & ->). rewrite Forall_forall in Hall. split_and!; [|done|done|done| |set_solver].
    + intros (y & Hy & Hyx)%list_elem_of_fmap. destruct (Hall y Hyx). set_solver.
    + apply Forall_forall. intros y Hy. destruct (Hall y Hy). set_solver.
  - intros ([Hx Hnd] & [[Hs Hc] Hall] & ->). eexists. rewrite bool_decide_false by done. rewrite Hc. split; [done|].
    apply IH. rewrite Forall_forall in Hall |- *. split_and!; [done| |set_solver]. intros y Hy.
    destruct (Hall y Hy). split; [|done]. apply not_elem_of_union. split; [|done]. rewrite elem_of_singleton.
    intros E. apply Hx, list_elem_of_fmap. eauto.
Qed.

Lemma distinct_all {A K} `{Countable K} (key : A → K) dup check xs :
  NoDup (key <$> xs) → Forall (λ x, check x = Ok ()) xs →
  ∃ s : gset K, for_each xs ∅ (distinct_step key dup check) = Ok s.
Proof.
  intros Hnd Hall. eexists. apply distinct_each. split_and!; [done| |done]. eapply Forall_impl; [exact Hall|].
  intros x Hx. split; [set_solver|done].
Qed.

(** ** Folded lookup *)

Lemma find_folded_Some {A} (key : A → cat_name) xs w x :
  find_folded key xs w = Some x → x ∈ xs ∧ fold (key x) = fold w.
Proof.
  unfold find_folded. intros ([i y] & Hf & ->)%fmap_Some. apply list_find_Some in Hf as (Hi & Hy & _).
  split; [by eapply list_elem_of_lookup_2|done].
Qed.

Lemma find_folded_None {A} (key : A → cat_name) xs w :
  find_folded key xs w = None ↔ Forall (λ x, fold (key x) ≠ fold w) xs.
Proof. unfold find_folded. rewrite fmap_None, list_find_None. done. Qed.

Lemma find_folded_app {A} (key : A → cat_name) xs ys w x :
  find_folded key xs w = Some x → find_folded key (xs ++ ys) w = Some x.
Proof.
  unfold find_folded. intros ([i y] & Hf & ->)%fmap_Some. by rewrite (list_find_app_l _ _ ys _ _ Hf).
Qed.

Lemma find_folded_unique {A} (key : A → cat_name) xs w x :
  NoDup (fold ∘ key <$> xs) → x ∈ xs → fold (key x) = fold w → find_folded key xs w = Some x.
Proof.
  intros Hnd Hx Hk. destruct (find_folded key xs w) as [y|] eqn:E.
  - apply find_folded_Some in E as [Hy Hyk]. f_equal.
    apply list_elem_of_lookup in Hx as [i Hi]. apply list_elem_of_lookup in Hy as [j Hj].
    assert (i = j) as ->; [|congruence]. apply (NoDup_lookup _ i j (fold w) Hnd); rewrite list_lookup_fmap, ?Hi, ?Hj; simpl; congruence.
  - apply find_folded_None in E. rewrite Forall_forall in E. by destruct (E x Hx).
Qed.

Lemma find_folded_same {A} (key : A → cat_name) xs v w : fold v = fold w → find_folded key xs v = find_folded key xs w.
Proof. intros E. unfold find_folded. by rewrite E. Qed.

(** ** The invariant *)

Definition table_names (c : Catalog) : list cat_name := (node_name <$> node_tables c) ++ (rel_name <$> rel_tables c).

Definition tables_ok (c : Catalog) : Prop :=
  NoDup (fold <$> table_names c) ∧
  Forall (λ s, NoDup (fold ∘ name <$> node_columns s)) (node_tables c) ∧
  Forall (λ s, NoDup (fold ∘ name <$> rel_columns s)) (rel_tables c).

(** Storage is filed under the table's own spelling, by kind. *)
Definition storage_ok (c : Catalog) : Prop :=
  ∀ n st, storage c !! n = Some st →
    match st with
    | NodeStorage _ => n ∈ node_name <$> node_tables c
    | RelStorageOf _ => n ∈ rel_name <$> rel_tables c
    end.

Definition indexes_ok (c : Catalog) : Prop :=
  NoDup (fold ∘ index_name <$> indexes c) ∧
  NoDup ((λ i, (fold (index_table i), fold (index_column i))) <$> indexes c) ∧
  Forall (λ i, validate_index_entry c i = Ok ()) (indexes c).

Definition ontology_ok (c : Catalog) : Prop :=
  match ontology c with
  | None => True
  | Some o =>
      ontology_is_empty o = false ∧
      (NoDup (fold ∘ interface_name <$> interfaces o) ∧ Forall (λ i, validate_interface_entry i = Ok ()) (interfaces o)) ∧
      (NoDup (fold ∘ class_table <$> node_classes o) ∧ Forall (λ e, validate_node_class_entry c e = Ok ()) (node_classes o)) ∧
      (NoDup (fold ∘ rel_class_table <$> rel_classes o) ∧ Forall (λ e, validate_rel_class_entry c e = Ok ()) (rel_classes o))
  end.

Definition pins_ok (c : Catalog) : Prop :=
  NoDup (fold ∘ pin_name <$> pins c) ∧ Forall (λ p, validate_pin_entry p = Ok ()) (pins c).

Definition catalog_ok (c : Catalog) : Prop :=
  tables_ok c ∧ storage_ok c ∧ indexes_ok c ∧ ontology_ok c ∧ pins_ok c.

Lemma NoDup_fold_app (xs ys : list cat_name) :
  NoDup (fold <$> xs ++ ys) → NoDup (fold <$> xs) ∧ NoDup (fold <$> ys).
Proof. rewrite fmap_app. intros (? & _ & ?)%NoDup_app. done. Qed.

Lemma tables_ok_nodes c : tables_ok c → NoDup (fold ∘ node_name <$> node_tables c).
Proof. intros [H _]. apply NoDup_fold_app in H as [H _]. by rewrite <- list_fmap_compose in H. Qed.
Lemma tables_ok_rels c : tables_ok c → NoDup (fold ∘ rel_name <$> rel_tables c).
Proof. intros [H _]. apply NoDup_fold_app in H as [_ H]. by rewrite <- list_fmap_compose in H. Qed.

Lemma node_table_own c s : tables_ok c → s ∈ node_tables c → node_table c (node_name s) = Some s.
Proof. intros H Hs. apply find_folded_unique; [by apply tables_ok_nodes|done|done]. Qed.
Lemma rel_table_own c s : tables_ok c → s ∈ rel_tables c → rel_table c (rel_name s) = Some s.
Proof. intros H Hs. apply find_folded_unique; [by apply tables_ok_rels|done|done]. Qed.

Lemma storage_keys c n st : storage_ok c → storage c !! n = Some st → n ∈ table_names c.
Proof.
  intros H Hst. specialize (H n st Hst). unfold table_names. rewrite elem_of_app. destruct st; auto.
Qed.

Lemma decoded_tables_Ok {A} (key : A → cat_name) (cols : A → list Column) xs : ∀ seen : gset cat_name,
  NoDup (fold ∘ key <$> xs) → Forall (λ x, NoDup (fold ∘ name <$> cols x)) xs →
  Forall (λ x, fold (key x) ∉ seen) xs →
  for_each xs seen (λ tables s, validate_decoded_table tables (key s) (cols s)) = Ok (list_to_set (fold ∘ key <$> xs) ∪ seen).
Proof.
  induction xs as [|x xs IH]; intros seen Hnd Hcols Hseen; cbn [for_each].
  { f_equal. set_solver. }
  csimpl. csimpl in Hnd. apply NoDup_cons in Hnd as [Hx Hnd]. apply Forall_cons in Hcols as [Hc Hcols].
  apply Forall_cons in Hseen as [Hs Hseen]. unfold validate_decoded_table at 1. rewrite bool_decide_false by done.
  destruct (distinct_all (λ c, fold (name c)) (Corrupt "column `{}` has a fold-equal duplicate in table `{table_name}`")
    (λ _, Ok ()) (cols x) Hc) as [s ->]; [by apply Forall_true|].
  cbn [bind]. rewrite IH; [f_equal; set_solver|done|done|].
  rewrite Forall_forall in Hseen |- *. intros y Hy. apply not_elem_of_union. split; [|by apply Hseen].
  rewrite elem_of_singleton. intros E. apply Hx, list_elem_of_fmap. exists y. split; [by symmetry|done].
Qed.

Lemma validate_schemas_ok c : tables_ok c → validate_schemas c = Ok ().
Proof.
  intros Ht. pose proof (tables_ok_nodes c Ht) as Hn. pose proof (tables_ok_rels c Ht) as Hr. destruct Ht as (Hnd & Hc & Hrc).
  unfold validate_schemas. rewrite decoded_tables_Ok; [|done|done|by apply Forall_forall; set_solver]. cbn [bind].
  rewrite decoded_tables_Ok; [done|done|done|]. apply Forall_forall. intros s Hin. rewrite union_empty_r_L.
  rewrite elem_of_list_to_set. unfold table_names in Hnd. rewrite fmap_app in Hnd. apply NoDup_app in Hnd as (_ & Hd & _).
  intros Hin'. rewrite list_fmap_compose in Hin'. apply (Hd _ Hin'). rewrite list_elem_of_fmap. exists (rel_name s).
  split; [done|]. apply list_elem_of_fmap. eauto.
Qed.

(** Fold-equal names of tables are the same name. *)
Lemma table_names_fold_inj c x y :
  tables_ok c → x ∈ table_names c → y ∈ table_names c → fold x = fold y → x = y.
Proof.
  intros [Hnd _] Hx Hy E. apply list_elem_of_lookup in Hx as [i Hx]. apply list_elem_of_lookup in Hy as [j Hy].
  assert (i = j) as ->; [|congruence].
  apply (NoDup_lookup _ i j (fold x) Hnd); rewrite list_lookup_fmap, ?Hx, ?Hy; simpl; congruence.
Qed.

Lemma storage_NoDup c : tables_ok c → storage_ok c → NoDup (fold ∘ fst <$> btree_iter (storage c)).
Proof.
  intros Ht Hs. rewrite list_fmap_compose. apply NoDup_fmap_2_strong; [|apply btree_iter_NoDup].
  assert (∀ n, n ∈ (btree_iter (storage c)).*1 → n ∈ table_names c) as Hin.
  { intros n Hn. apply list_elem_of_fmap in Hn as ([n' st] & -> & H). apply elem_of_btree_iter in H. by eapply storage_keys. }
  intros x y Hx Hy. apply (table_names_fold_inj c); auto.
Qed.

Lemma validate_storage_ok c : tables_ok c → storage_ok c → validate_storage c = Ok ().
Proof.
  intros Ht Hs. unfold validate_storage.
  destruct (distinct_all (λ e : cat_name * StorageState, fold e.1)
    (Corrupt "storage state contains fold-equal table name `{name}`") (validate_storage_entry c) (btree_iter (storage c)))
    as [seen ->]; [by apply storage_NoDup| |done].
  apply Forall_forall. intros [n st] H. apply elem_of_btree_iter in H. specialize (Hs n st H). unfold validate_storage_entry.
  destruct st; apply list_elem_of_fmap in Hs as (t & -> & Hin).
  - rewrite (node_table_own c t Ht Hin). by rewrite bool_decide_true by eauto.
  - rewrite (rel_table_own c t Ht Hin). by rewrite (bool_decide_true (is_Some (Some t))) by eauto.
Qed.

Lemma validate_indexes_ok c : indexes_ok c → validate_indexes c = Ok ().
Proof.
  intros (H1 & H2 & H3). unfold validate_indexes. set (e1 := Corrupt "index name `{}` has a fold-equal duplicate in the catalog").
  set (e2 := Corrupt "index column `{}.{}` has a fold-equal duplicate in the catalog").
  destruct (distinct_all (λ i, fold (index_name i)) e1 (λ _, Ok ()) (indexes c) H1) as [s1 Hs1]; [by apply Forall_true|].
  destruct (distinct_all (λ i, (fold (index_table i), fold (index_column i))) e2 (validate_index_entry c) (indexes c) H2 H3)
    as [s2 Hs2].
  assert (∀ xs a b s1 s2,
    for_each xs a (distinct_step (λ i, fold (index_name i)) e1 (λ _, Ok ())) = Ok s1 →
    for_each xs b (distinct_step (λ i, (fold (index_table i), fold (index_column i))) e2 (validate_index_entry c)) = Ok s2 →
    for_each xs (a, b) (index_step c) = Ok (s1, s2)) as Hpair.
  { induction xs as [|x xs IH]; intros a b t1 t2; cbn [for_each]; [by intros [= <-] [= <-]|].
    intros (a' & Ha & H1')%bind_Ok (b' & Hb & H2')%bind_Ok. unfold index_step at 1. fold e1 e2. rewrite Ha. cbn [bind].
    rewrite Hb. cbn [bind]. by apply IH. }
  by rewrite (Hpair _ _ _ _ _ Hs1 Hs2).
Qed.

Lemma validate_ontology_ok c : ontology_ok c → validate_ontology c = Ok ().
Proof.
  unfold validate_ontology, ontology_ok. destruct (ontology c) as [o|]; [|done].
  intros (-> & [H1 H1'] & [H2 H2'] & [H3 H3']).
  edestruct (distinct_all (λ i, fold (interface_name i))) as [s1 ->]; [done|done|].
  cbn [bind]. edestruct (distinct_all (λ e, fold (class_table e))) as [s2 ->]; [done|done|].
  cbn [bind]. by edestruct (distinct_all (λ e, fold (rel_class_table e))) as [s3 ->].
Qed.

Lemma validate_pins_ok c : pins_ok c → validate_pins c = Ok ().
Proof. intros [H1 H2]. unfold validate_pins. by edestruct (distinct_all (λ p, fold (pin_name p))) as [s ->]. Qed.

Lemma catalog_ok_validate c : catalog_ok c → validate c = Ok c.
Proof.
  intros (Ht & Hs & Hi & Ho & Hp). unfold validate. rewrite validate_schemas_ok, validate_storage_ok by done. cbn [bind].
  by rewrite validate_indexes_ok, validate_ontology_ok, validate_pins_ok.
Qed.

(** ** Every operation keeps the invariant *)

(** What was found is still found, unchanged. *)
Definition extends (c c' : Catalog) : Prop :=
  (∀ n s, node_table c n = Some s → node_table c' n = Some s) ∧
  (∀ n s, rel_table c n = Some s → rel_table c' n = Some s) ∧
  (∀ n i, interface c n = Some i → interface c' n = Some i).

Lemma for_each_unit_Ok {A} (xs : list A) (f : () → A → outcome ()) :
  for_each xs () f = Ok () ↔ Forall (λ x, f () x = Ok ()) xs.
Proof.
  induction xs as [|x xs IH]; [by split|]. cbn [for_each]. rewrite bind_Ok, Forall_cons, <- IH. split.
  - by intros ([] & ? & ?).
  - intros [? ?]. by exists ().
Qed.

Lemma extends_index c c' i : extends c c' → validate_index_entry c i = Ok () → validate_index_entry c' i = Ok ().
Proof.
  intros (Hn & _) H. unfold validate_index_entry in *. destruct (index_root i =? 0); [done|].
  destruct (node_table c (index_table i)) as [s|] eqn:E; [|done]. by rewrite (Hn _ _ E).
Qed.

Lemma extends_rel_class c c' e : extends c c' → validate_rel_class_entry c e = Ok () → validate_rel_class_entry c' e = Ok ().
Proof.
  intros (_ & Hr & _) H. unfold validate_rel_class_entry in *. case_bool_decide as E; [done|].
  destruct (rel_table c (rel_class_table e)) as [s|] eqn:E'; [|done]. by rewrite (Hr _ _ E').
Qed.

Lemma extends_node_class c c' e : extends c c' → validate_node_class_entry c e = Ok () → validate_node_class_entry c' e = Ok ().
Proof.
  intros (Hn & _ & Hi) H. unfold validate_node_class_entry in *.
  destruct (node_table c (class_table e)) as [s|] eqn:E; [|done]. rewrite (Hn _ _ E).
  apply bind_Ok in H as ([] & -> & H). cbn [bind]. rewrite for_each_unit_Ok in H |- *.
  eapply Forall_impl; [exact H|]. intros n. cbv beta. destruct (interface c n) as [i|] eqn:Ei; [|done]. by rewrite (Hi _ _ Ei).
Qed.

Lemma extends_indexes c c' : indexes c' = indexes c → extends c c' → indexes_ok c → indexes_ok c'.
Proof.
  intros E Hx (H1 & H2 & H3). unfold indexes_ok. rewrite E. split_and!; [done..|]. eapply Forall_impl; [exact H3|].
  intros i. by apply extends_index.
Qed.

Lemma extends_ontology c c' : ontology c' = ontology c → extends c c' → ontology_ok c → ontology_ok c'.
Proof.
  intros E Hx. unfold ontology_ok. rewrite E. destruct (ontology c) as [o|]; [|done].
  intros (H0 & [H1 H1'] & [H2 H2'] & [H3 H3']). split_and!; [done|done|done|done| |done|].
  - eapply Forall_impl; [exact H2'|]. intros e. by apply extends_node_class.
  - eapply Forall_impl; [exact H3'|]. intros e. by apply extends_rel_class.
Qed.

(** Same tables and same declared interfaces. *)
Lemma extends_same c c' :
  node_tables c' = node_tables c → rel_tables c' = rel_tables c → ontology c' = ontology c → extends c c'.
Proof. intros E1 E2 E3. unfold extends, node_table, rel_table, interface. by rewrite E1, E2, E3. Qed.

Lemma contains_table_false c n :
  contains_table c n = false → Forall (λ x, fold x ≠ fold n) (table_names c).
Proof.
  unfold contains_table. intros H. apply orb_false_iff in H as [H1 H2]. apply bool_decide_eq_false in H1, H2.
  apply eq_None_not_Some, find_folded_None in H1. apply eq_None_not_Some, find_folded_None in H2. unfold table_names.
  rewrite Forall_app, !Forall_fmap. done.
Qed.

Lemma fresh_fold (xs : list cat_name) n : Forall (λ x, fold x ≠ fold n) xs → fold n ∉ fold <$> xs.
Proof. rewrite Forall_forall. intros H (x & Hx & Hin)%list_elem_of_fmap. by apply (H x Hin). Qed.

Lemma new_node_columns n cols s : new_node n cols = Ok s → s = mkNodeSchema n cols ∧ NoDup (fold ∘ name <$> cols).
Proof. unfold new_node. intros H. inv_ok H. destruct x0. apply validate_columns_Ok in Hx0 as [_ ?]. done. Qed.
Lemma new_rel_columns n f t cols s : new_rel n f t cols = Ok s → s = mkRelSchema n f t cols ∧ NoDup (fold ∘ name <$> cols).
Proof. unfold new_rel. intros H. inv_ok H. destruct x2. apply validate_columns_Ok in Hx2 as [_ ?]. done. Qed.

Lemma add_node_table_ok c n cols s c' :
  new_node n cols = Ok s → add_node_table c s = Ok c' → catalog_ok c → catalog_ok c'.
Proof.
  intros [-> Hcols]%new_node_columns Hadd (Ht & Hs & Hi & Ho & Hp). unfold add_node_table in Hadd.
  destruct (contains_table c _) eqn:Hnew; [done|]. injection Hadd as <-. apply contains_table_false in Hnew.
  destruct Ht as (Hnd & Hnc & Hrc).
  match goal with |- catalog_ok ?c' => assert (extends c c') as Hx end.
  { split; [|split]; intros m t; [apply find_folded_app|exact id|exact id]. }
  split_and!; [|intros m st H; specialize (Hs m st H); destruct st; simpl; [rewrite fmap_app; set_solver|done]
    |by apply (extends_indexes c)|by apply (extends_ontology c)|done].
  split_and!; [|simpl; rewrite Forall_app; split; [done|by repeat constructor]|done].
  unfold table_names in *. simpl. rewrite (fmap_app node_name), <- app_assoc. simpl. rewrite <- Permutation_middle.
  csimpl. apply NoDup_cons. split; [by apply fresh_fold|done].
Qed.

Lemma add_rel_table_ok c n f t cols s c' :
  new_rel n f t cols = Ok s → add_rel_table c s = Ok c' → catalog_ok c → catalog_ok c'.
Proof.
  intros [-> Hcols]%new_rel_columns Hadd (Ht & Hs & Hi & Ho & Hp). unfold add_rel_table in Hadd.
  destruct (contains_table c _) eqn:Hnew; [done|]. inv_ok Hadd. subst c'. apply contains_table_false in Hnew.
  destruct Ht as (Hnd & Hnc & Hrc).
  match goal with |- catalog_ok ?c' => assert (extends c c') as Hext end.
  { split; [|split]; intros m r; [exact id|apply find_folded_app|exact id]. }
  split_and!; [|intros m st H; specialize (Hs m st H); destruct st; simpl; [done|rewrite fmap_app; set_solver]
    |by apply (extends_indexes c)|by apply (extends_ontology c)|done].
  split_and!; [|done|simpl; rewrite Forall_app; split; [done|by repeat constructor]].
  unfold table_names in *. simpl. rewrite (fmap_app rel_name), app_assoc. simpl. rewrite <- Permutation_cons_append.
  csimpl. apply NoDup_cons. split; [by apply fresh_fold|done].
Qed.

Lemma put_storage_ok c n st :
  match st with NodeStorage _ => n ∈ node_name <$> node_tables c | RelStorageOf _ => n ∈ rel_name <$> rel_tables c end →
  catalog_ok c → catalog_ok (put_storage c n st).
Proof.
  intros Hn (Ht & Hs & Hi & Ho & Hp).
  assert (extends c (put_storage c n st)) as Hx by (by apply extends_same).
  split_and!; [done| |by apply (extends_indexes c)|by apply (extends_ontology c)|done].
  intros m st' H. cbn [put_storage storage] in H. apply lookup_insert_Some in H as [[<- <-]|[_ H]]; [done|by apply (Hs m st')].
Qed.

Lemma set_table_storage_ok c n s c' : set_table_storage c n s = Ok c' → catalog_ok c → catalog_ok c'.
Proof.
  unfold set_table_storage. intros H. inv_ok H. subst. apply ok_or_Ok, fmap_Some in Hx as (t & Ht & ->).
  apply find_folded_Some in Ht as [Hin _]. apply put_storage_ok. apply list_elem_of_fmap. eauto.
Qed.

Lemma set_rel_storage_ok c n s c' : set_rel_storage c n s = Ok c' → catalog_ok c → catalog_ok c'.
Proof.
  unfold set_rel_storage. intros H. inv_ok H. subst. apply ok_or_Ok, fmap_Some in Hx as (t & Ht & ->).
  apply find_folded_Some in Ht as [Hin _]. apply put_storage_ok. apply list_elem_of_fmap. eauto.
Qed.

(** Appending an entry whose key is new. *)
Lemma NoDup_snoc_key {A K} (key : A → K) xs x :
  NoDup (key <$> xs) → (∀ y, y ∈ xs → key y ≠ key x) → NoDup (key <$> xs ++ [x]).
Proof.
  intros Hnd Hx. rewrite fmap_app. apply NoDup_app. split_and!; [done| |apply NoDup_singleton].
  intros k (y & -> & Hy)%list_elem_of_fmap ?%list_elem_of_singleton. by apply (Hx y Hy).
Qed.

Lemma map_err_Ok {A} f (m : outcome A) a : map_err f m = Ok a ↔ m = Ok a.
Proof. by destruct m. Qed.

Lemma existsb_false {A} (f : A → bool) xs x : existsb f xs = false → x ∈ xs → f x = false.
Proof.
  induction xs as [|y xs IH]; simpl; [by intros _ ?%elem_of_nil|]. intros [H1 H2]%orb_false_iff [->|Hx]%elem_of_cons; auto.
Qed.

Lemma with_indexes_ok c xs : indexes_ok (with_indexes c xs) → catalog_ok c → catalog_ok (with_indexes c xs).
Proof.
  intros Hi (Ht & Hs & _ & Ho & Hp). split_and!; [done..| |done]. eapply extends_ontology; [done| |exact Ho].
  by apply extends_same.
Qed.

Lemma add_index_ok c e c' : add_index c e = Ok c' → catalog_ok c → catalog_ok c'.
Proof.
  unfold add_index. intros H Hok. destruct (existsb _ (indexes c)) eqn:E1; [done|]. destruct (existsb _ (indexes c)) eqn:E2 in H; [done|].
  inv_ok H. subst c'. apply map_err_Ok in Hx. destruct x. apply with_indexes_ok; [|done].
  destruct Hok as (_ & _ & (H1 & H2 & H3) & _).
  assert (extends c (with_indexes c (indexes c ++ [e]))) as Hext by (by apply extends_same).
  split_and!; simpl.
  - apply NoDup_snoc_key; [done|]. intros y Hy. pose proof (existsb_false _ _ _ E1 Hy) as E; cbv beta in E. by apply bool_decide_eq_false in E.
  - apply NoDup_snoc_key; [done|]. intros y Hy [= E3 E4]. pose proof (existsb_false _ _ _ E2 Hy) as E.
    simpl in E. rewrite !bool_decide_true in E by done. done.
  - rewrite Forall_app. split; [|repeat constructor; by eapply extends_index].
    eapply Forall_impl; [exact H3|]. intros i. by apply extends_index.
Qed.

Lemma set_index_root_ok c n root c' : set_index_root c n root = Ok c' → catalog_ok c → catalog_ok c'.
Proof.
  unfold set_index_root. intros H Hok. destruct (root =? 0) eqn:Er; [done|].
  destruct (list_find _ (indexes c)) as [[k i]|] eqn:Ef; [|done]. injection H as <-.
  apply list_find_Some in Ef as (Hk & _ & _). apply with_indexes_ok; [|done].
  destruct Hok as (_ & _ & (H1 & H2 & H3) & _). set (i' := mkIndex _ _ _ root).
  match goal with |- indexes_ok ?c' => assert (extends c c') as Hext by (by apply extends_same) end.
  split_and!; simpl.
  - rewrite list_fmap_insert. rewrite list_insert_id; [done|]. rewrite list_lookup_fmap, Hk. done.
  - rewrite list_fmap_insert. rewrite list_insert_id; [done|]. rewrite list_lookup_fmap, Hk. done.
  - apply Forall_insert.
    + eapply Forall_impl; [exact H3|]. intros j. by apply extends_index.
    + rewrite Forall_lookup in H3. specialize (H3 k i Hk). eapply extends_index in H3; [|exact Hext].
      unfold validate_index_entry in *. simpl in *. rewrite Er. by destruct (index_root i =? 0).
Qed.

Lemma with_pins_ok c ps : pins_ok (with_pins c ps) → catalog_ok c → catalog_ok (with_pins c ps).
Proof.
  intros Hp (Ht & Hs & Hi & Ho & _). assert (extends c (with_pins c ps)) as Hext by (by apply extends_same).
  split_and!; [done..|by apply (extends_indexes c)|by apply (extends_ontology c)|done].
Qed.

Lemma pin_ok c e c' : pin c e = Ok c' → catalog_ok c → catalog_ok c'.
Proof.
  unfold pin. intros H Hok. destruct (existsb _ (pins c)) eqn:E1; [done|]. inv_ok H. subst c'. apply map_err_Ok in Hx.
  destruct x. apply with_pins_ok; [|done]. destruct Hok as (_ & _ & _ & _ & H1 & H2). split; simpl.
  - apply NoDup_snoc_key; [done|]. intros y Hy. pose proof (existsb_false _ _ _ E1 Hy) as E; cbv beta in E. by apply bool_decide_eq_false in E.
  - rewrite Forall_app. split; [done|]. by repeat constructor.
Qed.

Lemma unpin_ok c n c' : unpin c n = Ok c' → catalog_ok c → catalog_ok c'.
Proof.
  unfold unpin. intros H Hok. destruct (list_find _ (pins c)) as [[k p]|]; [|done]. injection H as <-.
  apply with_pins_ok; [|done]. destruct Hok as (_ & _ & _ & _ & H1 & H2). split; simpl.
  - eapply sublist_NoDup; [exact H1|]. apply fmap_sublist, sublist_delete.
  - by apply Forall_delete.
Qed.

(** Adding declarations, with the catalog's tables unchanged. *)
Lemma with_ontology_ok c o :
  extends c (with_ontology c o) → ontology_ok (with_ontology c o) → catalog_ok c → catalog_ok (with_ontology c o).
Proof. intros Hx Ho (Ht & Hs & Hi & _ & Hp). split_and!; [done..|by apply (extends_indexes c)|done|done]. Qed.

(** What the present declarations satisfy, empty or not. *)
Lemma ontology_parts c c' :
  extends c c' → ontology_ok c →
  let o := default ontology_default (ontology c) in
  (NoDup (fold ∘ interface_name <$> interfaces o) ∧ Forall (λ i, validate_interface_entry i = Ok ()) (interfaces o)) ∧
  (NoDup (fold ∘ class_table <$> node_classes o) ∧ Forall (λ e, validate_node_class_entry c' e = Ok ()) (node_classes o)) ∧
  (NoDup (fold ∘ rel_class_table <$> rel_classes o) ∧ Forall (λ e, validate_rel_class_entry c' e = Ok ()) (rel_classes o)).
Proof.
  intros Hx. unfold ontology_ok. destruct (ontology c) as [o|]; simpl.
  - intros (_ & [H1 H1'] & [H2 H2'] & [H3 H3']). split_and!; [done|done|done| |done|].
    + eapply Forall_impl; [exact H2'|]. intros e. by apply extends_node_class.
    + eapply Forall_impl; [exact H3'|]. intros e. by apply extends_rel_class.
  - intros _. split_and!; constructor.
Qed.

Lemma interface_default c n : interface c n = find_folded interface_name (interfaces (default ontology_default (ontology c))) n.
Proof. unfold interface. by destruct (ontology c). Qed.
Lemma node_class_default c n : node_class c n = find_folded class_table (node_classes (default ontology_default (ontology c))) n.
Proof. unfold node_class. by destruct (ontology c). Qed.
Lemma rel_class_default c n : rel_class c n = find_folded rel_class_table (rel_classes (default ontology_default (ontology c))) n.
Proof. unfold rel_class. by destruct (ontology c). Qed.

Lemma find_folded_fresh {A} (key : A → cat_name) xs x y :
  find_folded key xs (key x) = None → y ∈ xs → (fold ∘ key) y ≠ (fold ∘ key) x.
Proof. intros H Hy. apply find_folded_None in H. rewrite Forall_forall in H. by apply H. Qed.

Lemma declare_interface_ok c e c' : declare_interface c e = Ok c' → catalog_ok c → catalog_ok c'.
Proof.
  unfold declare_interface. intros H Hok. case_bool_decide as Hnew; [done|]. inv_ok H. subst c'.
  apply map_err_Ok in Hx. destruct x. apply eq_None_not_Some in Hnew. rewrite interface_default in Hnew.
  set (o := default ontology_default (ontology c)) in *. set (o' := mkOntology _ _ _).
  assert (extends c (with_ontology c o')) as Hext.
  { split; [|split]; intros m i; [exact id|exact id|]. rewrite interface_default. apply find_folded_app. }
  apply with_ontology_ok; [done| |done]. destruct Hok as (_ & _ & _ & Ho & _).
  destruct (ontology_parts c _ Hext Ho) as ([H1 H1'] & H2 & H3). fold o in H1, H1', H2, H3. split.
  { simpl. by destruct (interfaces o). }
  split_and!; [| |apply H2|apply H2|apply H3|apply H3].
  - apply (NoDup_snoc_key (fold ∘ interface_name)); [done|]. intros y. by apply find_folded_fresh.
  - apply Forall_app. split; [done|]. by repeat constructor.
Qed.

Lemma same_interfaces_extend c nc rc :
  extends c (with_ontology c (mkOntology (interfaces (default ontology_default (ontology c))) nc rc)).
Proof.
  split; [|split]; intros m i; [exact id|exact id|]. rewrite !interface_default. exact id.
Qed.

Lemma declare_node_class_ok c e c' : declare_node_class c e = Ok c' → catalog_ok c → catalog_ok c'.
Proof.
  unfold declare_node_class. intros H Hok. case_bool_decide as Hnew; [done|]. inv_ok H. subst c'.
  apply map_err_Ok in Hx. destruct x. apply eq_None_not_Some in Hnew. rewrite node_class_default in Hnew.
  set (o := default ontology_default (ontology c)) in *.
  pose proof (same_interfaces_extend c (node_classes o ++ [e]) (rel_classes o)) as Hext. fold o in Hext.
  apply with_ontology_ok; [done| |done]. destruct Hok as (_ & _ & _ & Ho & _).
  destruct (ontology_parts c _ Hext Ho) as (H1 & [H2 H2'] & H3). fold o in H1, H2, H2', H3. split.
  { simpl. destruct (interfaces o); [|done]. by destruct (node_classes o). }
  split_and!; [apply H1|apply H1| | |apply H3|apply H3].
  - apply (NoDup_snoc_key (fold ∘ class_table)); [done|]. intros y. by apply find_folded_fresh.
  - apply Forall_app. split; [done|]. repeat constructor. by eapply extends_node_class.
Qed.

Lemma declare_rel_class_ok c e c' : declare_rel_class c e = Ok c' → catalog_ok c → catalog_ok c'.
Proof.
  unfold declare_rel_class. intros H Hok. case_bool_decide as Hnew; [done|]. inv_ok H. subst c'.
  apply map_err_Ok in Hx. destruct x. apply eq_None_not_Some in Hnew. rewrite rel_class_default in Hnew.
  set (o := default ontology_default (ontology c)) in *.
  pose proof (same_interfaces_extend c (node_classes o) (rel_classes o ++ [e])) as Hext. fold o in Hext.
  apply with_ontology_ok; [done| |done]. destruct Hok as (_ & _ & _ & Ho & _).
  destruct (ontology_parts c _ Hext Ho) as (H1 & H2 & [H3 H3']). fold o in H1, H2, H3, H3'. split.
  { simpl. destruct (interfaces o), (node_classes o); try done. by destruct (rel_classes o). }
  split_and!; [apply H1|apply H1|apply H2|apply H2| |].
  - apply (NoDup_snoc_key (fold ∘ rel_class_table)); [done|]. intros y. by apply find_folded_fresh.
  - apply Forall_app. split; [done|]. repeat constructor. by eapply extends_rel_class.
Qed.

(** ** Reachable catalogs *)

(** One successful operation; schemas exist only validated. *)
Inductive catalog_step (c : Catalog) : Catalog → Prop :=
| step_add_node n cols s c' : new_node n cols = Ok s → add_node_table c s = Ok c' → catalog_step c c'
| step_add_rel n f t cols s c' : new_rel n f t cols = Ok s → add_rel_table c s = Ok c' → catalog_step c c'
| step_table_storage n s c' : set_table_storage c n s = Ok c' → catalog_step c c'
| step_rel_storage n s c' : set_rel_storage c n s = Ok c' → catalog_step c c'
| step_add_index e c' : add_index c e = Ok c' → catalog_step c c'
| step_index_root n root c' : set_index_root c n root = Ok c' → catalog_step c c'
| step_pin e c' : pin c e = Ok c' → catalog_step c c'
| step_unpin n c' : unpin c n = Ok c' → catalog_step c c'
| step_interface e c' : declare_interface c e = Ok c' → catalog_step c c'
| step_node_class e c' : declare_node_class c e = Ok c' → catalog_step c c'
| step_rel_class e c' : declare_rel_class c e = Ok c' → catalog_step c c'.

#[export] Hint Resolve add_node_table_ok add_rel_table_ok set_table_storage_ok set_rel_storage_ok add_index_ok
  set_index_root_ok pin_ok unpin_ok declare_interface_ok declare_node_class_ok declare_rel_class_ok : devon.

Lemma catalog_step_ok c c' : catalog_step c c' → catalog_ok c → catalog_ok c'.
Proof. destruct 1; eauto with devon. Qed.

Lemma default_catalog_ok : catalog_ok default_catalog.
Proof.
  split_and!; [split_and!; constructor| |split_and!; constructor|done|split; constructor].
  intros n st H. cbn in H. by rewrite lookup_empty in H.
Qed.

Lemma catalog_reachable_ok c : rtc catalog_step default_catalog c → catalog_ok c.
Proof.
  intros H. pose proof default_catalog_ok as H0. induction H as [|c1 c2 c3 Hs _ IH]; [done|]. by eapply IH, catalog_step_ok.
Qed.

(** ** Storage lookups *)

Lemma storage_state_spec c m st :
  tables_ok c → storage_ok c →
  storage_state c m = Some st ↔ ∃ n, storage c !! n = Some st ∧ fold n = fold m.
Proof.
  intros Ht Hs. unfold storage_state. split.
  - intros ([n st'] & Hf & ->)%fmap_Some. apply find_folded_Some in Hf as [Hin E].
    apply elem_of_btree_iter in Hin. eauto.
  - intros (n & Hn & E). rewrite (find_folded_unique fst _ m (n, st)); [done| | |done].
    + by apply storage_NoDup.
    + by apply elem_of_btree_iter.
Qed.

(** Filing storage under a table's own name. *)
Lemma put_storage_state c n st m :
  catalog_ok c → catalog_ok (put_storage c n st) →
  storage_state (put_storage c n st) m = if decide (fold m = fold n) then Some st else storage_state c m.
Proof.
  intros (Ht & Hs & _) (Ht' & Hs' & _). destruct (decide (fold m = fold n)) as [E|E].
  - apply (storage_state_spec _ _ _ Ht' Hs'). exists n. split; [apply lookup_insert_eq|done].
  - apply option_eq. intros st'. rewrite !storage_state_spec by done. cbn [put_storage storage]. split.
    + intros (k & [[-> ->]|[_ Hk]]%lookup_insert_Some & Ek); [congruence|eauto].
    + intros (k & Hk & Ek). exists k. split; [|done]. apply lookup_insert_Some. right. split; [congruence|done].
Qed.

Lemma set_table_storage_get c n s c' m :
  catalog_ok c → set_table_storage c n s = Ok c' →
  storage_state c' m = if decide (fold m = fold n) then Some (NodeStorage s) else storage_state c m.
Proof.
  intros Hok H. pose proof (set_table_storage_ok _ _ _ _ H Hok) as Hok'. unfold set_table_storage in H.
  inv_ok H. subst c'. apply ok_or_Ok, fmap_Some in Hx as (t & Ht & ->). apply find_folded_Some in Ht as [_ E].
  rewrite put_storage_state by done. by rewrite E.
Qed.

Lemma set_rel_storage_get c n s c' m :
  catalog_ok c → set_rel_storage c n s = Ok c' →
  storage_state c' m = if decide (fold m = fold n) then Some (RelStorageOf s) else storage_state c m.
Proof.
  intros Hok H. pose proof (set_rel_storage_ok _ _ _ _ H Hok) as Hok'. unfold set_rel_storage in H.
  inv_ok H. subst c'. apply ok_or_Ok, fmap_Some in Hx as (t & Ht & ->). apply find_folded_Some in Ht as [_ E].
  rewrite put_storage_state by done. by rewrite E.
Qed.

(** C27: a catalog built by any sequence of successful operations (tables,
    storage maps, indexes, pins, interfaces and classes) passes every check that
    loading makes after its JSON step (the validation of each schema that serde
    repeats while it parses is part of that step); and in such a catalog
    storage set under any spelling of a table's name is what every spelling of
    that name reads back, with every other table's storage unchanged. *)
Theorem reachable_catalog_loads (c : Catalog) :
  rtc catalog_step default_catalog c →
  validate c = Ok c ∧
  (∀ n s c', set_table_storage c n s = Ok c' →
    ∀ m, table_storage c' m = if decide (fold m = fold n) then Some s else table_storage c m) ∧
  (∀ n s c', set_rel_storage c n s = Ok c' →
    ∀ m, rel_storage c' m = if decide (fold m = fold n) then Some s else rel_storage c m).
Proof.
  intros Hok%catalog_reachable_ok. split_and!; [by apply catalog_ok_validate| |]; intros n s c' H m.
  - unfold table_storage. rewrite (set_table_storage_get _ _ _ _ m Hok H). by destruct (decide _).
  - unfold rel_storage. rewrite (set_rel_storage_get _ _ _ _ m Hok H). by destruct (decide _).
Qed.

(** Table [Pa] with key column [id], storage set as [pa], one index. *)
Definition example_columns : list Column := [mkColumn [105; 100] TInt64 true; mkColumn [118] (TVector 2) false].
Definition example_catalog : Catalog :=
  mkCatalog [mkNodeSchema [80; 97] example_columns] [] {[ [80; 97] := NodeStorage (mkTableStorage [7]) ]}
    [mkIndex [105] [112; 97] [86] 9] None [].

Lemma reachable_catalog_loads_witness :
  rtc catalog_step default_catalog example_catalog ∧
  validate example_catalog = Ok example_catalog ∧
  (∀ n s c', set_table_storage example_catalog n s = Ok c' →
    ∀ m, table_storage c' m = if decide (fold m = fold n) then Some s else table_storage example_catalog m) ∧
  (∀ n s c', set_rel_storage example_catalog n s = Ok c' →
    ∀ m, rel_storage c' m = if decide (fold m = fold n) then Some s else rel_storage example_catalog m).
Proof.
  assert (rtc catalog_step default_catalog example_catalog) as H.
  { eapply rtc_l; [eapply (step_add_node _ [80; 97] example_columns); vm_compute; reflexivity|].
    eapply rtc_l; [eapply (step_table_storage _ [112; 97] (mkTableStorage [7])); vm_compute; reflexivity|].
    eapply rtc_l; [eapply (step_add_index _ (mkIndex [105] [112; 97] [86] 9)); vm_compute; reflexivity|].
    apply rtc_refl. }
  split; [exact H|]. exact (reachable_catalog_loads example_catalog H).
Defined.

(** Loading also accepts storage filed under another spelling of a table's
    name, but the next [set_table_storage] files it a second time, and the
    result no longer loads.  No sequence of operations builds such a catalog. *)
Definition misfiled_catalog : Catalog :=
  mkCatalog [mkNodeSchema [80; 97] example_columns] [] {[ [112; 97] := NodeStorage (mkTableStorage [7]) ]} [] None [].

Example misfiled_catalog_degrades :
  validate misfiled_catalog = Ok misfiled_catalog ∧
  ∃ c', set_table_storage misfiled_catalog [80; 97] (mkTableStorage [8]) = Ok c' ∧
    validate c' = Err (Corrupt "storage state contains fold-equal table name `{name}`").
Proof. split; [vm_compute; reflexivity|]. eexists. split; vm_compute; reflexivity. Qed.
