(* ===== verification/Overlay.v ===== *)
(** The committed overlay: [devondb-storage/src/overlay.rs].

    Commits since the last checkpoint form a chain of deltas; readers replay it
    oldest first.  This file has the deltas and how they are rebuilt from WAL
    payloads, the chain, the net update/delete effects of a table, and the
    insert slots with their stable positions.  The abstract table of the second
    half is a plain list of rows changed by one operation at a time; the slot
    machinery, with its index of live positions, is proved to implement it.

    A [BTreeMap] is a [gmap]; where its iteration order matters it is
    [btree_iter].  A borrowed key ([PkKey]) and the owned copy of it the
    readers use ([OverlayKey]) are one type.  The HNSW part of a delta is
    derived state outside this model. *)

From stdpp Require Import gmap sorting.
From S2P Require Import Prelude Bytes Types Schema TxnLog.

Notation row := (list Value).
Notation table_name := (list Z).

(** ** Deltas *)

Record OverlayEdge := mkEdge { edge_from : Z; edge_to : Z; edge_values : list Value }.

Record RelEndpointTombstones := mkTombstones { from_offsets : gset Z; to_offsets : gset Z }.

Definition no_tombstones : RelEndpointTombstones := mkTombstones ∅ ∅.

Definition union_with (self other : RelEndpointTombstones) : RelEndpointTombstones :=
  mkTombstones (from_offsets self ∪ from_offsets other) (to_offsets self ∪ to_offsets other).

Definition tombstones_is_empty (self : RelEndpointTombstones) : bool :=
  bool_decide (from_offsets self = ∅) && bool_decide (to_offsets self = ∅).

(** [DdlOp] has the constructors of [DdlPayload], and [From<DdlPayload>] is the
    identity on them. *)
Notation DdlOp := DdlPayload.

Record CommitDelta := mkDelta {
  nodes : gmap table_name (list row);
  node_updates : gmap table_name (list row);
  node_deletes : gmap table_name (list Value);
  edges : gmap table_name (list OverlayEdge);
  rel_tombstones : gmap table_name RelEndpointTombstones;
  ddl : list DdlOp;
}.

Definition default_delta : CommitDelta := mkDelta ∅ ∅ ∅ ∅ ∅ [].

#[export] Instance OverlayEdge_eq_dec : EqDecision OverlayEdge.
Proof. solve_decision. Defined.
#[export] Instance RelEndpointTombstones_eq_dec : EqDecision RelEndpointTombstones.
Proof. solve_decision. Defined.
#[export] Instance CommitDelta_eq_dec : EqDecision CommitDelta.
Proof. solve_decision. Defined.

(** [map.entry(key).or_default().push(x)]. *)
Definition push_entry {A} (m : gmap table_name (list A)) (key : table_name) (x : A) : gmap table_name (list A) :=
  <[key := default [] (m !! key) ++ [x]]> m.

Definition delta_step (delta : CommitDelta) (payload : WalPayload) : outcome CommitDelta :=
  let '(mkDelta ns us ds es ts dd) := delta in
  match payload with
  | NodeInsert table row => Ok (mkDelta (push_entry ns table row) us ds es ts dd)
  | RelInsert rel from to values => Ok (mkDelta ns us ds (push_entry es rel (mkEdge from to values)) ts dd)
  | NodeUpdate table row => Ok (mkDelta ns (push_entry us table row) ds es ts dd)
  | RelDelete rel endpoint offset =>
      let tombstones := default no_tombstones (ts !! rel) in
      let tombstones := match endpoint with
        | From => mkTombstones ({[offset]} ∪ from_offsets tombstones) (to_offsets tombstones)
        | To => mkTombstones (from_offsets tombstones) ({[offset]} ∪ to_offsets tombstones)
        end in
      Ok (mkDelta ns us ds es (<[rel := tombstones]> ts) dd)
  | NodeDelete table key => Ok (mkDelta ns us (push_entry ds table key) es ts dd)
  | Ddl ddl => Ok (mkDelta ns us ds es ts (dd ++ [ddl]))
  | Commit _ => Err (Corrupt "commit delta contains a WAL commit payload")
  end.

Definition from_wal_payloads (payloads : list WalPayload) : outcome CommitDelta :=
  for_each payloads default_delta delta_step.

Definition from_committed_group (group : CommittedGroup) : outcome CommitDelta :=
  if bool_decide (Exists (λ record, begin_lsn record ≠ commit_lsn group) (records group))
  then Err (Corrupt "WAL group committed at LSN {commit_lsn} contains record stamped with begin LSN {}")
  else from_wal_payloads (payload <$> records group).

(** ** The chain *)

(** The budget handle of a link is left out; its charge is what [Commit.v] reserves. *)
Inductive CommitLink := mkLink {
  prev : option CommitLink;
  link_lsn : Z;
  delta : CommitDelta;
  charged_bytes : Z;
}.

Fixpoint newest_to_oldest (link : CommitLink) : list CommitLink :=
  link :: match prev link with Some older => newest_to_oldest older | None => [] end.

(** The iterator pops its vector from the back. *)
Definition commit_links_oldest_first (head : option CommitLink) : list CommitLink :=
  reverse (match head with Some link => newest_to_oldest link | None => [] end).

(** ** Primary keys *)

Inductive PkKey := PkInt64 (value : Z) | PkString (text : list Z).

#[export] Instance PkKey_eq_dec : EqDecision PkKey.
Proof. solve_decision. Defined.
#[export] Instance PkKey_countable : Countable PkKey.
Proof.
  apply (inj_countable' (λ k, match k with PkInt64 z => inl z | PkString s => inr s end)
    (λ s, match s with inl z => PkInt64 z | inr s => PkString s end)).
  by intros [].
Defined.

(** [TryFrom<&Value> for PkKey]. *)
Definition pk_try_from (value : Value) : outcome PkKey :=
  match value with
  | Int64 value => Ok (PkInt64 value)
  | String text => Ok (PkString text)
  | _ => Err (Corrupt "overlay primary key must be Int64 or String, found {}")
  end.

Definition row_pk (row : row) (primary_key_column : nat) : outcome PkKey :=
  let! value := ok_or (row !! primary_key_column)
    (Corrupt "overlay row for node table `{table}` has no primary-key column at index {primary_key_column}") in
  pk_try_from value.

Definition optional_row_pk (row : row) (primary_key_column : nat) : option PkKey :=
  match row !! primary_key_column with
  | Some value => match pk_try_from value with Ok key => Some key | _ => None end
  | None => None
  end.

(** ** Net effects *)

Record NodeDmlEffects := mkEffects { updates : gmap PkKey row; tombstones : gset PkKey }.

Definition no_effects : NodeDmlEffects := mkEffects ∅ ∅.

(** [table_rows] and [table_values]. *)
Definition table_rows {A} (rows : gmap table_name (list A)) (table : table_name) : list A :=
  default [] (rows !! table).

Section table.
Context (primary_key_column : nat).

Definition effects_update (effects : NodeDmlEffects) (row : row) : outcome NodeDmlEffects :=
  let! key := row_pk row primary_key_column in
  Ok (mkEffects (<[key := row]> (updates effects)) (tombstones effects ∖ {[key]})).

Definition effects_delete (effects : NodeDmlEffects) (value : Value) : outcome NodeDmlEffects :=
  let! key := pk_try_from value in
  Ok (mkEffects (base.delete key (updates effects)) ({[key]} ∪ tombstones effects)).

Definition effects_insert (effects : NodeDmlEffects) (row : row) : outcome NodeDmlEffects :=
  let! key := row_pk row primary_key_column in
  Ok (mkEffects (base.delete key (updates effects)) (tombstones effects ∖ {[key]})).

Definition effects_link (table : table_name) (effects : NodeDmlEffects) (link : CommitLink) : outcome NodeDmlEffects :=
  let! effects := for_each (table_rows (node_updates (delta link)) table) effects effects_update in
  let! effects := for_each (table_rows (node_deletes (delta link)) table) effects effects_delete in
  for_each (table_rows (nodes (delta link)) table) effects effects_insert.

Definition node_dml_effects (head : option CommitLink) (table : table_name) : outcome NodeDmlEffects :=
  for_each (commit_links_oldest_first head) no_effects (effects_link table).

(** ** Insert slots *)

(** [rows[i] = x]. *)
Definition store_at {A} (rows : list A) (i : nat) (x : A) : outcome (list A) :=
  if decide (i < length rows)%nat then Ok (<[i := x]> rows) else Panic.

(** [rows] and [active]. *)
Definition slot_state : Type := list (option row) * gmap PkKey nat.

Definition slot_update (s : slot_state) (row : row) : outcome slot_state :=
  let '(rows, active) := s in
  match optional_row_pk row primary_key_column with
  | None => Ok (rows, active)
  | Some key =>
      match active !! key with
      | Some position => let! rows := store_at rows position (Some row) in Ok (rows, active)
      | None => Ok (rows, active)
      end
  end.

Definition slot_delete (s : slot_state) (value : Value) : outcome slot_state :=
  let '(rows, active) := s in
  match pk_try_from value with
  | Ok key =>
      match active !! key with
      | Some position => let! rows := store_at rows position None in Ok (rows, base.delete key active)
      | None => Ok (rows, active)
      end
  | _ => Ok (rows, active)
  end.

Definition slot_insert (s : slot_state) (row : row) : outcome slot_state :=
  let '(rows, active) := s in
  match optional_row_pk row primary_key_column with
  | None => Ok (rows ++ [Some row], active)
  | Some key =>
      let previous := active !! key in
      let active := <[key := length rows]> active in
      let! rows := match previous with Some p => store_at rows p None | None => Ok rows end in
      Ok (rows ++ [Some row], active)
  end.

Definition apply_node_updates (s : slot_state) (rows : list row) : outcome slot_state := for_each rows s slot_update.
Definition apply_node_deletes (s : slot_state) (values : list Value) : outcome slot_state := for_each values s slot_delete.
Definition apply_node_inserts (s : slot_state) (rows : list row) : outcome slot_state := for_each rows s slot_insert.

Definition slots_link (table : table_name) (s : slot_state) (link : CommitLink) : outcome slot_state :=
  let! s := apply_node_updates s (table_rows (node_updates (delta link)) table) in
  let! s := apply_node_deletes s (table_rows (node_deletes (delta link)) table) in
  apply_node_inserts s (table_rows (nodes (delta link)) table).

Definition effective_node_rows (head : option CommitLink) (table : table_name) : outcome (list (option row)) :=
  let! (rows, _) := for_each (commit_links_oldest_first head) ([], ∅) (slots_link table) in Ok rows.

Record OverlayNodeSlot := mkSlot { position : nat; slot_row : option row }.

Definition node_slots_oldest_first (head : option CommitLink) (table : table_name) : outcome (list OverlayNodeSlot) :=
  let! rows := effective_node_rows head table in
  Ok ((λ '(position, row), mkSlot position row) <$> enumerate rows).

Definition node_rows_oldest_first (head : option CommitLink) (table : table_name) : outcome (list row) :=
  let! slots := node_slots_oldest_first head table in Ok (omap slot_row slots).
End table.

(** ** Relationships *)

Definition rel_edges_oldest_first (head : option CommitLink) (table : table_name) : list OverlayEdge :=
  commit_links_oldest_first head ≫= λ link, table_rows (edges (delta link)) table.

Definition rel_tombstones_oldest_first (head : option CommitLink) (table : table_name) : RelEndpointTombstones :=
  foldl (λ ts link, match rel_tombstones (delta link) !! table with Some d => union_with ts d | None => ts end)
    no_tombstones (commit_links_oldest_first head).

Definition node_offset (checkpointed_total : Z) (overlay_position : nat) : outcome Z :=
  let! overlay_position := ok_or (try_u 64 (Z.of_nat overlay_position))
    (InvalidArgument "overlay row position exceeds u64::MAX") in
  ok_or (try_u 64 (checkpointed_total + overlay_position))
    (InvalidArgument "checkpointed row total {checkpointed_total} plus overlay position {overlay_position} exceeds u64::MAX").

(** ** The abstract table *)

(** What one commit does to a table, one operation at a time. *)
Inductive TableOp := OpUpdate (r : row) | OpDelete (key : Value) | OpInsert (r : row).

Definition commit_ops (table : table_name) (d : CommitDelta) : list TableOp :=
  (OpUpdate <$> table_rows (node_updates d) table) ++ (OpDelete <$> table_rows (node_deletes d) table) ++
  (OpInsert <$> table_rows (nodes d) table).

Definition chain_ops (head : option CommitLink) (table : table_name) : list TableOp :=
  commit_links_oldest_first head ≫= λ link, commit_ops table (delta link).

Definition value_key (v : Value) : option PkKey := match pk_try_from v with Ok key => Some key | _ => None end.

Section spec.
Context (pk : nat).

Notation row_key r := (optional_row_pk r pk).

(** The rows whose key is not [k]. *)
Definition without (k : PkKey) (t : list row) : list row := filter (λ x, row_key x ≠ Some k) t.

Definition replace_row (k : PkKey) (r x : row) : row := if decide (row_key x = Some k) then r else x.

(** An update replaces the row in its place, a delete removes it, an insert
    supersedes a row of the same key and goes to the end. *)
Definition table_op (t : list row) (op : TableOp) : list row :=
  match op with
  | OpUpdate r => match row_key r with Some k => replace_row k r <$> t | None => t end
  | OpDelete v => match value_key v with Some k => without k t | None => t end
  | OpInsert r => match row_key r with Some k => without k t | None => t end ++ [r]
  end.

Definition run_ops (ops : list TableOp) (t : list row) : list row := foldl table_op t ops.

Lemma run_ops_app ops ops' t : run_ops (ops ++ ops') t = run_ops ops' (run_ops ops t).
Proof. apply foldl_app. Qed.

(** The key an operation is about. *)
Definition op_key (op : TableOp) : option PkKey :=
  match op with OpUpdate r | OpInsert r => row_key r | OpDelete v => value_key v end.

Lemma without_absent k t : Forall (λ x, row_key x ≠ Some k) t → without k t = t.
Proof. apply filter_keeps_all. Qed.

Lemma replace_absent k r t : Forall (λ x, row_key x ≠ Some k) t → replace_row k r <$> t = t.
Proof.
  induction 1 as [|x t Hx Ht IH]; [done|]. csimpl. rewrite IH. unfold replace_row. by rewrite decide_False.
Qed.

Lemma elem_of_without k t x : x ∈ without k t ↔ row_key x ≠ Some k ∧ x ∈ t.
Proof. unfold without. by rewrite list_elem_of_filter. Qed.

Lemma replace_row_key k r x : row_key r = Some k → row_key (replace_row k r x) = row_key x.
Proof. intros H. unfold replace_row. destruct (decide _) as [->|]; done. Qed.

(** ** Slots implement the abstract table *)

Definition slot_op (s : slot_state) (op : TableOp) : outcome slot_state :=
  match op with
  | OpUpdate r => slot_update pk s r
  | OpDelete v => slot_delete s v
  | OpInsert r => slot_insert pk s r
  end.

Lemma slots_chain_ops head table s :
  for_each (commit_links_oldest_first head) s (slots_link pk table) = for_each (chain_ops head table) s slot_op.
Proof.
  unfold chain_ops. rewrite for_each_bind. apply for_each_ext. intros s' link _.
  unfold slots_link, apply_node_updates, apply_node_deletes, apply_node_inserts, commit_ops.
  rewrite for_each_app, for_each_fmap. apply bind_ext. intros s1. rewrite for_each_app, for_each_fmap.
  apply bind_ext. intros s2. by rewrite for_each_fmap.
Qed.

(** [active] is the index of the live slots by key. *)
Definition slots_ok (s : slot_state) : Prop :=
  ∀ k p, s.2 !! k = Some p ↔ ∃ r, s.1 !! p = Some (Some r) ∧ row_key r = Some k.

Definition live_rows (rows : list (option row)) : list row := omap id rows.

Lemma live_rows_app a b : live_rows (a ++ b) = live_rows a ++ live_rows b.
Proof. apply omap_app. Qed.

Lemma elem_of_live_rows x rows : x ∈ live_rows rows ↔ ∃ p, rows !! p = Some (Some x).
Proof.
  unfold live_rows. rewrite list_elem_of_omap. setoid_rewrite list_elem_of_lookup. naive_solver.
Qed.

(** The live slots that are not the one at [p] have another key. *)
Lemma live_slot_split rows active k p :
  slots_ok (rows, active) → active !! k = Some p →
  ∃ a x b, rows = a ++ Some x :: b ∧ length a = p ∧ row_key x = Some k ∧
    Forall (λ y, row_key y ≠ Some k) (live_rows a) ∧ Forall (λ y, row_key y ≠ Some k) (live_rows b).
Proof.
  intros Hok Hk. destruct (proj1 (Hok k p) Hk) as (x & Hx & Hxk). simpl in Hx.
  exists (take p rows), x, (drop (S p) rows). split_and!; [by rewrite take_drop_middle| |done| |].
  - apply lookup_lt_Some in Hx. rewrite length_take. lia.
  - apply Forall_forall. intros y [q Hq]%elem_of_live_rows Hy. apply lookup_take_Some in Hq as [Hq Hlt].
    assert (active !! k = Some q) as Hq' by (apply (Hok k q); eauto). simplify_eq/=. lia.
  - apply Forall_forall. intros y [q Hq]%elem_of_live_rows Hy. rewrite lookup_drop in Hq.
    assert (active !! k = Some (S p + q)%nat) as Hq' by (apply (Hok k _); eauto). simplify_eq/=. lia.
Qed.

Lemma slot_absent rows active k :
  slots_ok (rows, active) → active !! k = None → Forall (λ y, row_key y ≠ Some k) (live_rows rows).
Proof.
  intros Hok Hk. apply Forall_forall. intros y [q Hq]%elem_of_live_rows Hy.
  assert (active !! k = Some q) by (apply (Hok k q); eauto). congruence.
Qed.

Lemma without_app k a b : without k (a ++ b) = without k a ++ without k b.
Proof. apply filter_app. Qed.

Lemma without_cons_eq k x b : row_key x = Some k → without k (x :: b) = without k b.
Proof. intros H. unfold without. by rewrite filter_cons_False by naive_solver. Qed.

(** Overwriting a slot with [z] changes the index only at the slot's key. *)
Lemma slots_ok_store rows active k p z :
  slots_ok (rows, active) → active !! k = Some p →
  (∀ r, z = Some r → row_key r = Some k) →
  slots_ok (<[p := z]> rows, match z with Some _ => active | None => base.delete k active end).
Proof.
  intros Hok Hk Hz k' q. destruct (proj1 (Hok k p) Hk) as (x & Hx & Hxk). simpl in Hx.
  assert (p < length rows)%nat as Hp by (by eapply lookup_lt_Some). cbn [fst snd].
  destruct (decide (p = q)) as [<-|Hne].
  - rewrite list_lookup_insert_eq by done. split.
    + intros Hk'. destruct z as [r|].
      * apply (Hok k' p) in Hk' as (r' & Hr' & Hk'). simpl in Hr'. simplify_eq. exists r. split; [done|]. rewrite Hz; done.
      * apply lookup_delete_Some in Hk' as [Hne Hk']. apply (Hok k' p) in Hk' as (r' & Hr' & Hk'). simpl in Hr'. by simplify_eq.
    + intros (r & Hr & Hk'). simplify_eq. by rewrite Hz in Hk' by done; simplify_eq.
  - rewrite list_lookup_insert_ne by done.
    destruct z as [r|]; [apply (Hok k' q)|]. rewrite lookup_delete_Some, (Hok k' q). simpl. split; [naive_solver|].
    intros (r & Hr & Hk'). split; [|eauto]. intros <-. apply Hne.
    assert (active !! k = Some q) by (apply (Hok k q); eauto). congruence.
Qed.

Lemma slots_ok_push rows active r :
  slots_ok (rows, active) →
  match row_key r with
  | Some k => active !! k = None → slots_ok (rows ++ [Some r], <[k := length rows]> active)
  | None => slots_ok (rows ++ [Some r], active)
  end.
Proof.
  intros Hok. destruct (row_key r) as [k|] eqn:Hr.
  - intros Hk k' q. cbn [fst snd]. destruct (decide (k' = k)) as [->|Hne].
    + rewrite lookup_insert_eq. split; [intros [= <-]; exists r; split; [by apply list_lookup_middle|done]|].
      intros (r' & Hr' & Hk'). apply lookup_app_Some in Hr' as [Hr'|[Hq Hr']].
      * assert (active !! k = Some q) by (apply (Hok k q); eauto). congruence.
      * f_equal. apply list_lookup_singleton_Some in Hr' as [? _]. lia.
    + rewrite lookup_insert_ne, (Hok k' q) by done. simpl. split.
      * intros (r' & Hr' & Hk'). exists r'. split; [|done]. by apply lookup_app_l_Some.
      * intros (r' & Hr' & Hk'). exists r'. split; [|done]. apply lookup_app_Some in Hr' as [Hr'|[Hq Hr']]; [done|].
        apply list_lookup_singleton_Some in Hr' as [_ [= <-]]. congruence.
  - intros k' q. rewrite (Hok k' q). simpl. split.
    + intros (r' & Hr' & Hk'). exists r'. split; [|done]. by apply lookup_app_l_Some.
    + intros (r' & Hr' & Hk'). exists r'. split; [|done]. apply lookup_app_Some in Hr' as [Hr'|[Hq Hr']]; [done|].
      apply list_lookup_singleton_Some in Hr' as [_ [= <-]]. congruence.
Qed.

(** Assigned positions are stable: a slot keeps its key or becomes a hole, and
    a hole stays one. *)
Definition slots_stable (rows rows' : list (option row)) : Prop :=
  ∀ p, match rows !! p with
       | Some (Some r) => rows' !! p = Some None ∨ ∃ r', rows' !! p = Some (Some r') ∧ row_key r' = row_key r
       | Some None => rows' !! p = Some None
       | None => True
       end.

Lemma slots_stable_refl rows : slots_stable rows rows.
Proof. intros p. destruct (rows !! p) as [[r|]|]; eauto. Qed.

Lemma slots_stable_trans a b c : slots_stable a b → slots_stable b c → slots_stable a c.
Proof.
  intros H1 H2 p. specialize (H1 p). specialize (H2 p). destruct (a !! p) as [[r|]|]; [|by rewrite H1 in H2|done].
  destruct H1 as [E|(r' & E & Hk)]; rewrite E in H2; [by left|]. rewrite <- Hk. done.
Qed.

Lemma slots_stable_push rows z : slots_stable rows (rows ++ [z]).
Proof.
  intros p. destruct (rows !! p) as [[r|]|] eqn:E; [|by apply lookup_app_l_Some|done].
  right. exists r. split; [by apply lookup_app_l_Some|done].
Qed.

Lemma slots_stable_store rows p x z :
  rows !! p = Some (Some x) → (∀ r, z = Some r → row_key r = row_key x) → slots_stable rows (<[p := z]> rows).
Proof.
  intros Hx Hz q. destruct (decide (p = q)) as [<-|Hne].
  - rewrite Hx, list_lookup_insert_eq by (by eapply lookup_lt_Some). destruct z as [r|]; [|by left]. right. eauto.
  - rewrite list_lookup_insert_ne by done. destruct (rows !! q) as [[r|]|]; eauto.
Qed.

(** Clearing the slot that holds a key. *)
Lemma clear_slot rows active k p :
  slots_ok (rows, active) → active !! k = Some p →
  store_at rows p None = Ok (<[p := None]> rows) ∧ slots_ok (<[p := None]> rows, base.delete k active) ∧
  live_rows (<[p := None]> rows) = without k (live_rows rows) ∧ slots_stable rows (<[p := None]> rows).
Proof.
  intros Hok Hk. destruct (live_slot_split rows active k p Hok Hk) as (a & x & b & Hrows & Hp & Hx & Ha & Hb).
  assert (rows !! p = Some (Some x)) as Hlk by (by rewrite Hrows, list_lookup_middle).
  split_and!.
  - unfold store_at. rewrite decide_True; [done|]. by eapply lookup_lt_Some.
  - by apply (slots_ok_store rows active k p None).
  - rewrite Hrows, insert_app_r_alt, Hp, Nat.sub_diag by lia. cbn [insert list_insert]. rewrite !live_rows_app. cbn [live_rows omap list_omap id].
    rewrite without_app, without_cons_eq, !without_absent by done. done.
  - by eapply slots_stable_store.
Qed.

Lemma slot_op_ok s op :
  slots_ok s → ∃ s', slot_op s op = Ok s' ∧ slots_ok s' ∧ live_rows s'.1 = table_op (live_rows s.1) op ∧
    slots_stable s.1 s'.1.
Proof.
  destruct s as [rows active]. intros Hok. destruct op as [r|v|r]; cbn [slot_op fst].
  - unfold slot_update, table_op. destruct (row_key r) as [k|] eqn:Hr.
    2: { eexists. split_and!; [done..|apply slots_stable_refl]. }
    destruct (active !! k) as [p|] eqn:Hk.
    + destruct (live_slot_split rows active k p Hok Hk) as (a & x & b & Hrows & Hp & Hx & Ha & Hb).
      assert (rows !! p = Some (Some x)) as Hlk by (by rewrite Hrows, list_lookup_middle).
      unfold store_at. rewrite decide_True by (by eapply lookup_lt_Some). cbn [bind]. eexists. split_and!; [done| | |].
      * apply (slots_ok_store rows active k p (Some r)); [done|done|congruence].
      * cbn [fst]. rewrite Hrows, insert_app_r_alt, Hp, Nat.sub_diag by lia. cbn [insert list_insert]. rewrite !live_rows_app. cbn [live_rows omap list_omap id].
        rewrite fmap_app. csimpl. rewrite !replace_absent by done. unfold replace_row. by rewrite decide_True.
      * eapply slots_stable_store; [done|]. intros ? [= <-]. congruence.
    + eexists. split_and!; [done|done| |apply slots_stable_refl]. rewrite replace_absent; [done|].
      by eapply slot_absent.
  - unfold slot_delete, table_op, value_key. destruct (pk_try_from v) as [k| |] eqn:Hv.
    2,3: eexists; split_and!; [done..|apply slots_stable_refl].
    destruct (active !! k) as [p|] eqn:Hk.
    + destruct (clear_slot rows active k p Hok Hk) as (-> & Hok' & Hlive & Hst). eexists. by split_and!.
    + eexists. split_and!; [done|done| |apply slots_stable_refl]. rewrite without_absent; [done|]. by eapply slot_absent.
  - unfold slot_insert, table_op. destruct (row_key r) as [k|] eqn:Hr.
    + destruct (active !! k) as [p|] eqn:Hk.
      * destruct (clear_slot rows active k p Hok Hk) as (-> & Hok' & Hlive & Hst). cbn [bind]. eexists.
        pose proof (slots_ok_push _ _ r Hok') as Hpush. rewrite Hr in Hpush. specialize (Hpush (lookup_delete_eq _ _)).
        rewrite length_insert, insert_delete_eq in Hpush. split_and!; [done|done| |].
        -- cbn [fst]. by rewrite live_rows_app, Hlive.
        -- eapply slots_stable_trans; [exact Hst|apply slots_stable_push].
      * cbn [bind]. eexists. pose proof (slots_ok_push _ _ r Hok) as Hpush. rewrite Hr in Hpush.
        split_and!; [done|by apply Hpush| |apply slots_stable_push]. cbn [fst].
        rewrite live_rows_app, without_absent; [done|]. by eapply slot_absent.
    + eexists. pose proof (slots_ok_push _ _ r Hok) as Hpush. rewrite Hr in Hpush.
      split_and!; [done|done| |apply slots_stable_push]. cbn [fst]. by rewrite live_rows_app.
Qed.

Lemma slot_ops_ok ops : ∀ s,
  slots_ok s → ∃ s', for_each ops s slot_op = Ok s' ∧ slots_ok s' ∧ live_rows s'.1 = run_ops ops (live_rows s.1) ∧
    slots_stable s.1 s'.1.
Proof.
  induction ops as [|op ops IH]; intros s Hok.
  { exists s. split_and!; [done..|apply slots_stable_refl]. }
  destruct (slot_op_ok s op Hok) as (s1 & Hs1 & Hok1 & Hl1 & Hst1).
  destruct (IH s1 Hok1) as (s2 & Hs2 & Hok2 & Hl2 & Hst2). exists s2. cbn [for_each]. rewrite Hs1. cbn [bind].
  split_and!; [done|done| |by eapply slots_stable_trans]. rewrite Hl2, Hl1. done.
Qed.

Lemma slots_ok_start : slots_ok ([], ∅).
Proof. intros k p. cbn. rewrite lookup_empty, lookup_nil. naive_solver. Qed.

Lemma effective_rows_ok head table :
  ∃ s, for_each (commit_links_oldest_first head) ([], ∅) (slots_link pk table) = Ok s ∧
    effective_node_rows pk head table = Ok s.1 ∧ slots_ok s ∧ live_rows s.1 = run_ops (chain_ops head table) [].
Proof.
  destruct (slot_ops_ok (chain_ops head table) ([], ∅) slots_ok_start) as ([rows active] & Hs & Hok & Hl & _).
  exists (rows, active). unfold effective_node_rows. rewrite slots_chain_ops. unfold slot_state in *.
  rewrite Hs. by split_and!.
Qed.

Lemma node_rows_live head table :
  node_rows_oldest_first pk head table = let! rows := effective_node_rows pk head table in Ok (live_rows rows).
Proof.
  unfold node_rows_oldest_first, node_slots_oldest_first. rewrite bind_assoc. apply bind_ext. intros rows. cbn [bind].
  f_equal. unfold enumerate. generalize 0%nat. induction rows as [|x rows IH]; intros k; [done|].
  rewrite enumerate_from_cons. unfold live_rows in *. csimpl. rewrite IH. by destruct x.
Qed.
End spec.

(** ** Net effects *)

(** The net effect on one key: a replacement row, or [None] for a delete. *)
Definition key_effect (e : NodeDmlEffects) (k : PkKey) : option (option row) :=
  if decide (k ∈ tombstones e) then Some None else Some <$> updates e !! k.

Section effects.
Context (pk : nat).

Notation row_key r := (optional_row_pk r pk).

Definition effects_op (e : NodeDmlEffects) (op : TableOp) : outcome NodeDmlEffects :=
  match op with
  | OpUpdate r => effects_update pk e r
  | OpDelete v => effects_delete e v
  | OpInsert r => effects_insert pk e r
  end.

Lemma effects_chain_ops head table :
  node_dml_effects pk head table = for_each (chain_ops head table) no_effects effects_op.
Proof.
  unfold node_dml_effects, chain_ops. rewrite for_each_bind. apply for_each_ext. intros e link _. unfold effects_link, commit_ops.
  rewrite for_each_app, for_each_fmap. apply bind_ext. intros s1. rewrite for_each_app, for_each_fmap.
  apply bind_ext. intros s2. by rewrite for_each_fmap.
Qed.

Lemma row_pk_Ok r k : row_pk r pk = Ok k ↔ row_key r = Some k.
Proof.
  unfold row_pk, optional_row_pk. destruct (r !! pk) as [v|]; simpl; [|done]. destruct (pk_try_from v); naive_solver.
Qed.

Lemma row_pk_Err r : row_key r = None → ∃ e, row_pk r pk = Err e.
Proof.
  unfold row_pk, optional_row_pk. destruct (r !! pk) as [v|]; simpl; [|eauto]. destruct v; simpl; naive_solver.
Qed.

(** The last operation on a key decides. *)
Definition effect_step (k : PkKey) (eff : option (option row)) (op : TableOp) : option (option row) :=
  if decide (op_key pk op = Some k)
  then match op with OpUpdate r => Some (Some r) | OpDelete _ => Some None | OpInsert _ => None end
  else eff.

Definition last_effect (ops : list TableOp) (k : PkKey) : option (option row) := foldl (effect_step k) None ops.

(** No key is both replaced and deleted, and a replacement has its key. *)
Definition effects_ok (e : NodeDmlEffects) : Prop :=
  (∀ k, k ∈ tombstones e → updates e !! k = None) ∧ (∀ k r, updates e !! k = Some r → row_key r = Some k).

Lemma effects_op_ok e op k :
  effects_ok e → op_key pk op = Some k →
  ∃ e', effects_op e op = Ok e' ∧ effects_ok e' ∧ ∀ k', key_effect e' k' = effect_step k' (key_effect e k') op.
Proof.
  intros [Hd Hk] Hop. destruct op as [r|v|r]; cbn [op_key effects_op] in *.
  - unfold effects_update. rewrite (proj2 (row_pk_Ok r k) Hop). cbn [bind]. eexists. split; [done|]. split; [split|].
    + intros k'. cbn. rewrite elem_of_difference, elem_of_singleton. intros [H1 H2]. rewrite lookup_insert_ne by done. auto.
    + intros k' r'. cbn. intros [[<- <-]|[_ H]]%lookup_insert_Some; auto.
    + intros k'. unfold key_effect, effect_step. cbn. rewrite Hop. destruct (decide (Some k = Some k')) as [[= <-]|Hne].
      * rewrite decide_False by set_solver. by rewrite lookup_insert_eq.
      * rewrite lookup_insert_ne by congruence. destruct (decide (k' ∈ tombstones e)).
        -- rewrite decide_True by set_solver. done.
        -- rewrite decide_False by set_solver. done.
  - unfold effects_delete. unfold value_key in Hop. destruct (pk_try_from v) as [k0| |] eqn:Hv; [|done..].
    injection Hop as ->. cbn [bind]. eexists. split; [done|]. split; [split|].
    + intros k'. cbn. intros [->%elem_of_singleton|H]%elem_of_union; [apply lookup_delete_eq|].
      destruct (decide (k = k')) as [<-|]; [apply lookup_delete_eq|]. rewrite lookup_delete_ne by done. auto.
    + intros k' r'. cbn. intros [_ H]%lookup_delete_Some. auto.
    + intros k'. unfold key_effect, effect_step, op_key, value_key. cbn. rewrite Hv. destruct (decide (Some k = Some k')) as [[= <-]|Hne].
      * by rewrite decide_True by set_solver.
      * rewrite lookup_delete_ne by congruence. destruct (decide (k' ∈ tombstones e)).
        -- by rewrite decide_True by set_solver.
        -- by rewrite decide_False by set_solver.
  - unfold effects_insert. rewrite (proj2 (row_pk_Ok r k) Hop). cbn [bind]. eexists. split; [done|]. split; [split|].
    + intros k'. cbn. rewrite elem_of_difference, elem_of_singleton. intros [H1 H2]. rewrite lookup_delete_ne by done. auto.
    + intros k' r'. cbn. intros [_ H]%lookup_delete_Some. auto.
    + intros k'. unfold key_effect, effect_step. cbn. rewrite Hop. destruct (decide (Some k = Some k')) as [[= <-]|Hne].
      * rewrite decide_False by set_solver. by rewrite lookup_delete_eq.
      * rewrite lookup_delete_ne by congruence. destruct (decide (k' ∈ tombstones e)).
        -- rewrite decide_True by set_solver. done.
        -- rewrite decide_False by set_solver. done.
Qed.

Lemma effects_op_keyless e op : op_key pk op = None → ∃ err, effects_op e op = Err err.
Proof.
  destruct op as [r|v|r]; cbn [op_key effects_op].
  - intros [err H]%row_pk_Err. unfold effects_update. rewrite H. by eexists.
  - unfold value_key, effects_delete. destruct v; simpl; intros Hn; first [discriminate Hn | eexists; reflexivity].
  - intros [err H]%row_pk_Err. unfold effects_insert. rewrite H. by eexists.
Qed.

Lemma effects_ops_ok ops : ∀ e,
  effects_ok e → Forall (λ op, is_Some (op_key pk op)) ops →
  ∃ e', for_each ops e effects_op = Ok e' ∧ effects_ok e' ∧
    ∀ k, key_effect e' k = foldl (effect_step k) (key_effect e k) ops.
Proof.
  induction ops as [|op ops IH]; intros e Hok Hkeyed; [by exists e|].
  apply Forall_cons in Hkeyed as [[k Hk] Hkeyed]. destruct (effects_op_ok e op k Hok Hk) as (e1 & He1 & Hok1 & Heff1).
  destruct (IH e1 Hok1 Hkeyed) as (e2 & He2 & Hok2 & Heff2). exists e2. cbn [for_each]. rewrite He1. cbn [bind].
  split_and!; [done|done|]. intros k'. rewrite Heff2, Heff1. done.
Qed.

Lemma effects_ops_keyless ops e :
  effects_ok e → ¬ Forall (λ op, is_Some (op_key pk op)) ops → ∃ err, for_each ops e effects_op = Err err.
Proof.
  revert e. induction ops as [|op ops IH]; intros e Hok Hno; [by destruct Hno|]. cbn [for_each].
  destruct (op_key pk op) as [k|] eqn:Hk.
  - destruct (effects_op_ok e op k Hok Hk) as (e1 & -> & Hok1 & _). apply IH; [done|]. intros H. apply Hno.
    constructor; [by rewrite Hk|done].
  - destruct (effects_op_keyless e op Hk) as [err ->]. by exists err.
Qed.

Lemma no_effects_ok : effects_ok no_effects.
Proof. split; [intros k Hk|intros k r Hr]; [done|cbn in Hr; by rewrite lookup_empty in Hr]. Qed.

Lemma no_effects_key k : key_effect no_effects k = None.
Proof. unfold key_effect. by rewrite decide_False by set_solver. Qed.

(** The net effects of a commit chain are decided per key by its last
    operation in commit order (updates, then deletes, then inserts): a key is
    mapped to a replacement row exactly when it was last updated, to that row;
    it is a tombstone exactly when it was last deleted; an insert clears both.
    The computation fails exactly when some row or delete of the chain has no
    [Int64] or [String] key, with an error and never with a panic. *)
Theorem dml_effects_last_operation (head : option CommitLink) (table : table_name) :
  match node_dml_effects pk head table with
  | Ok e =>
      Forall (λ op, is_Some (op_key pk op)) (chain_ops head table) ∧
      ∀ k, (∀ r, updates e !! k = Some r ↔ last_effect (chain_ops head table) k = Some (Some r)) ∧
           (k ∈ tombstones e ↔ last_effect (chain_ops head table) k = Some None)
  | Err _ => ¬ Forall (λ op, is_Some (op_key pk op)) (chain_ops head table)
  | Panic => False
  end.
Proof.
  rewrite effects_chain_ops. destruct (decide (Forall (λ op, is_Some (op_key pk op)) (chain_ops head table))) as [Hk|Hk].
  - destruct (effects_ops_ok _ _ no_effects_ok Hk) as (e & -> & [Hd _] & Heff). split; [done|]. intros k.
    specialize (Heff k). rewrite no_effects_key in Heff. fold (last_effect (chain_ops head table) k) in Heff.
    rewrite <- Heff. unfold key_effect. destruct (decide (k ∈ tombstones e)) as [Hin|Hin].
    + rewrite (Hd _ Hin). naive_solver.
    + destruct (updates e !! k); naive_solver.
  - by destruct (effects_ops_keyless _ _ no_effects_ok Hk) as [err ->].
Qed.
End effects.

Lemma oldest_first_snoc head lsn d c :
  commit_links_oldest_first (Some (mkLink head lsn d c)) = commit_links_oldest_first head ++ [mkLink head lsn d c].
Proof. unfold commit_links_oldest_first. cbn [newest_to_oldest prev]. by rewrite reverse_cons; destruct head. Qed.

Lemma chain_ops_snoc head lsn d c table :
  chain_ops (Some (mkLink head lsn d c)) table = chain_ops head table ++ commit_ops table d.
Proof. unfold chain_ops. rewrite oldest_first_snoc, bind_app. csimpl. by rewrite app_nil_r. Qed.

(** C26: the committed overlay of a node table implements the abstract table in
    which an update replaces a row where it stands, a delete removes it and an
    insert appends: reading the chain never panics, its visible rows are, in
    order, those of the abstract table after all operations of the chain, and
    physical positions are stable: when one more commit is linked, every slot
    keeps its position and its key or becomes a hole, and holes stay holes. *)
Theorem overlay_slots_refine (pk : nat) (head : option CommitLink) (table : table_name) :
  ∃ slots, effective_node_rows pk head table = Ok slots ∧
    node_slots_oldest_first pk head table = Ok ((λ '(position, row), mkSlot position row) <$> enumerate slots) ∧
    node_rows_oldest_first pk head table = Ok (run_ops pk (chain_ops head table) []) ∧
    ∀ lsn d c, ∃ slots',
      effective_node_rows pk (Some (mkLink head lsn d c)) table = Ok slots' ∧ slots_stable pk slots slots'.
Proof.
  destruct (effective_rows_ok pk head table) as (s & Hs & Heff & Hok & Hlive). exists s.1. split_and!; [done| | |].
  - unfold node_slots_oldest_first. by rewrite Heff.
  - rewrite node_rows_live, Heff. cbn [bind]. by rewrite Hlive.
  - intros lsn d c. destruct (slot_ops_ok pk (commit_ops table d) s Hok) as (s' & Hs' & _ & _ & Hst).
    exists s'.1. split; [|done]. unfold effective_node_rows. rewrite slots_chain_ops in Hs |- *.
    rewrite chain_ops_snoc, for_each_app. unfold slot_state in *. rewrite Hs. cbn [bind]. rewrite Hs'. by destruct s'.
Qed.
