(* ===== verification/View.v ===== *)
(** Reading a node table through a snapshot:
    [devondb/src/database/view.rs] over the chain of [Overlay.v].

    A view is the checkpointed rows (the decoded groups in order), the commit
    chain of the published state, and possibly a transaction's own delta.  Two
    readers are modelled: the physical-slot reader ([apply_slot_effects], used
    where node offsets matter) and the streaming scan with its key lookups.
    Working-set charges and zone-map pruning are left out.  Both are related to
    the abstract table of [Overlay.v] run on the checkpointed rows. *)

From stdpp Require Import gmap sorting.
From S2P Require Import Prelude Bytes Types Schema TxnLog Catalog Overlay.

(** ** Keys *)

(** [OverlayKey] is the owned [PkKey]; [from_pk_key] is the identity. *)
Notation OverlayKey := PkKey.

Definition key_from_value (value : Value) : outcome OverlayKey :=
  match value with
  | Int64 value => Ok (PkInt64 value)
  | String value => Ok (PkString value)
  | _ => Err (Corrupt "node DML primary key must be Int64 or String, found {other}")
  end.

Definition key_to_value (self : OverlayKey) : Value :=
  match self with PkInt64 value => Int64 value | PkString value => String value end.

Definition key_from_row (row : row) (key_index : nat) : outcome OverlayKey :=
  match row !! key_index with
  | Some (Int64 value) => Ok (PkInt64 value)
  | Some (String value) => Ok (PkString value)
  | Some _ => Err (Corrupt "node table `{table}` overlay has invalid primary key {value}")
  | None => Err (Corrupt "node table `{table}` overlay row is missing its primary key")
  end.

Definition primary_key_of (schema : NodeTableSchema) : outcome (nat * list Z) :=
  let! (i, c) := ok_or (list_find (λ c, primary_key c = true) (node_columns schema))
    (Corrupt "node table `{}` has no primary key") in
  Ok (i, name c).

(** ** Visible effects *)

Inductive VisibleRowEffect := VUpdate (r : row) | VDelete.

Notation visible_effects := (gmap OverlayKey VisibleRowEffect).

(** [visible.insert(..)] for the committed updates and tombstones. *)
Definition committed_effects (key_index : nat) (committed : NodeDmlEffects) : outcome visible_effects :=
  let! visible := for_each (map_to_list (updates committed)) ∅ (λ visible '(_, row),
    let! key := key_from_row row key_index in Ok (<[key := VUpdate row]> visible)) in
  Ok (foldl (λ visible key, <[key := VDelete]> visible) visible (elements (tombstones committed))).

Definition apply_own_dml_effects (visible : visible_effects) (own : CommitDelta) (table : table_name) (key_index : nat) :
    outcome visible_effects :=
  let! visible := for_each (table_rows (node_updates own) table) visible (λ visible row,
    let! key := key_from_row row key_index in Ok (<[key := VUpdate row]> visible)) in
  let! visible := for_each (table_rows (node_deletes own) table) visible (λ visible key,
    let! key := key_from_value key in Ok (<[key := VDelete]> visible)) in
  for_each (table_rows (nodes own) table) visible (λ visible row,
    let! key := key_from_row row key_index in Ok (base.delete key visible)).

Record ReadView := mkView {
  (** [state.catalog], [state.chain] *)
  state_catalog : Catalog;
  state_chain : option CommitLink;
  own : option CommitDelta;
}.

(** [PublishedState::node_dml_effects]. *)
Definition state_dml_effects (view : ReadView) (table : table_name) : outcome NodeDmlEffects :=
  let! schema := ok_or (node_table (state_catalog view) table) (NotFound "node table `{table}`") in
  let! (i, _) := ok_or (list_find (λ c, primary_key c = true) (node_columns schema))
    (Corrupt "node table `{table}` has no primary-key column") in
  node_dml_effects i (state_chain view) table.

Definition visible_dml_effects (view : ReadView) (schema : NodeTableSchema) : outcome visible_effects :=
  let! (key_index, _) := primary_key_of schema in
  let! visible :=
    if bool_decide (is_Some (node_table (state_catalog view) (node_name schema))) then
      let! committed := state_dml_effects view (node_name schema) in committed_effects key_index committed
    else Ok ∅ in
  match own view with
  | Some own => apply_own_dml_effects visible own (node_name schema) key_index
  | None => Ok visible
  end.

(** [PublishedState::node_slots]. *)
Definition state_node_slots (view : ReadView) (table : table_name) : outcome (list (option row)) :=
  let pk := default 0%nat (node_table (state_catalog view) table ≫= λ schema,
    fst <$> list_find (λ c, primary_key c = true) (node_columns schema)) in
  let! slots := node_slots_oldest_first pk (state_chain view) table in Ok (slot_row <$> slots).

(** ** The physical-slot reader *)

Definition slot_effect_step (key_index : nat) (effects : visible_effects)
    (s : list (option row) * gmap OverlayKey nat) (r : option row) : outcome (list (option row) * gmap OverlayKey nat) :=
  let '(visible, positions) := s in
  match r with
  | None => Ok (visible ++ [None], positions)
  | Some row =>
      let! key := key_from_row row key_index in
      let replacement := match effects !! key with
        | Some (VUpdate replacement) => Some replacement
        | Some VDelete => None
        | None => Some row
        end in
      let previous := positions !! key in
      let positions := <[key := length visible]> positions in
      let! visible := match previous with Some p => store_at visible p None | None => Ok visible end in
      let positions := match replacement with None => base.delete key positions | Some _ => positions end in
      Ok (visible ++ [replacement], positions)
  end.

Definition apply_slot_effects (schema : NodeTableSchema) (rows : list (option row)) (effects : visible_effects) :
    outcome (list (option row)) :=
  let! (key_index, _) := primary_key_of schema in
  let! (visible, _) := for_each rows ([], ∅) (slot_effect_step key_index effects) in
  Ok visible.

(** The slots of the view: checkpointed rows, committed insert slots, own inserts. *)
Definition physical_slots (view : ReadView) (schema : NodeTableSchema) (checkpointed : list row) : outcome (list (option row)) :=
  let! slots := state_node_slots view (node_name schema) in
  Ok ((Some <$> checkpointed) ++ slots ++
      match own view with Some own => Some <$> table_rows (nodes own) (node_name schema) | None => [] end).

(** The rows [node_rows_for_view] returns. *)
Definition node_rows_for_view (view : ReadView) (schema : NodeTableSchema) (checkpointed : list row) :
    outcome (list (option row)) :=
  let! effects := visible_dml_effects view schema in
  let! rows := physical_slots view schema checkpointed in
  apply_slot_effects schema rows effects.

(** ** What the slot reader computes *)

Section masked.
Context (pk : nat).

Notation row_key r := (optional_row_pk r pk).

Definition has_key (k : PkKey) (x : option row) : bool :=
  match x with Some y => bool_decide (row_key y = Some k) | None => false end.

Definition fate (eff : visible_effects) (k : PkKey) (r : row) : option row :=
  match eff !! k with Some (VUpdate r') => Some r' | Some VDelete => None | None => Some r end.

(** A row is hidden by a later row of its key, and otherwise meets its key's
    effect. *)
Fixpoint masked (eff : visible_effects) (rows : list (option row)) : list (option row) :=
  match rows with
  | [] => []
  | x :: rest =>
      match x with
      | None => None
      | Some r => match row_key r with
          | None => Some r
          | Some k => if existsb (has_key k) rest then None else fate eff k r
          end
      end :: masked eff rest
  end.

Definition hide (k : PkKey) (x : option row) : option row := if has_key k x then None else x.

Definition eff_ok (eff : visible_effects) : Prop := ∀ k r, eff !! k = Some (VUpdate r) → row_key r = Some k.

Lemma fate_key eff k r y : eff_ok eff → row_key r = Some k → fate eff k r = Some y → row_key y = Some k.
Proof. unfold fate. intros Hok Hr. destruct (eff !! k) as [[r'|]|] eqn:E; naive_solver. Qed.

Lemma hide_fate eff k k' r :
  eff_ok eff → row_key r = Some k' → hide k (fate eff k' r) = if decide (k = k') then None else fate eff k' r.
Proof.
  intros Hok Hr. unfold hide, has_key. destruct (fate eff k' r) as [y|] eqn:E; [|by destruct (decide _)].
  rewrite (fate_key eff k' r y Hok Hr E). destruct (decide (k = k')) as [->|].
  - by rewrite bool_decide_true.
  - by rewrite bool_decide_false by congruence.
Qed.

Lemma has_key_eq k k' r : row_key r = Some k → has_key k' (Some r) = bool_decide (k' = k).
Proof. intros Hr. unfold has_key. rewrite Hr. apply bool_decide_ext. split; congruence. Qed.

Lemma masked_snoc eff rows r k :
  eff_ok eff → row_key r = Some k →
  masked eff (rows ++ [Some r]) = (hide k <$> masked eff rows) ++ [fate eff k r].
Proof.
  intros Hok Hr. induction rows as [|x rows IH]; [simpl; by rewrite Hr|]. cbn [masked app]. rewrite IH. csimpl. f_equal.
  destruct x as [y|]; [|done]. destruct (row_key y) as [k'|] eqn:Hk'.
  - rewrite existsb_app. cbn [existsb]. rewrite (has_key_eq k k' r Hr), orb_false_r.
    destruct (existsb (has_key k') rows); cbn [orb]; [done|].
    rewrite hide_fate by done. destruct (decide (k = k')) as [->|].
    + by rewrite bool_decide_true.
    + by rewrite bool_decide_false.
  - unfold hide, has_key. rewrite Hk'. by rewrite bool_decide_false.
Qed.

Lemma masked_snoc_hole eff rows : masked eff (rows ++ [None]) = masked eff rows ++ [None].
Proof.
  induction rows as [|x rows IH]; [done|]. cbn [masked app]. rewrite IH. f_equal.
  destruct x as [y|]; [|done]. destruct (row_key y) as [k'|]; [|done]. by rewrite existsb_app, orb_false_r.
Qed.

Lemma masked_hide_agree eff eff' k rows :
  eff_ok eff → eff_ok eff' → (∀ k', k' ≠ k → eff !! k' = eff' !! k') →
  hide k <$> masked eff rows = hide k <$> masked eff' rows.
Proof.
  intros Hok Hok' Hag. induction rows as [|x rows IH]; [done|]. csimpl. rewrite IH. f_equal.
  destruct x as [y|]; [|done]. destruct (row_key y) as [k'|] eqn:Hk'; [|done].
  destruct (existsb (has_key k') rows); [done|]. rewrite !hide_fate by done.
  destruct (decide (k = k')); [done|]. unfold fate. by rewrite Hag.
Qed.

Lemma masked_delete eff k rows :
  eff_ok eff → masked (<[k := VDelete]> eff) rows = hide k <$> masked eff rows.
Proof.
  intros Hok. induction rows as [|x rows IH]; [done|]. csimpl. rewrite IH. f_equal.
  destruct x as [y|]; [|done]. destruct (row_key y) as [k'|] eqn:Hk'.
  - destruct (existsb (has_key k') rows); [done|]. rewrite hide_fate by done. unfold fate.
    destruct (decide (k = k')) as [->|]; [by rewrite lookup_insert_eq|by rewrite lookup_insert_ne].
  - unfold hide, has_key. rewrite Hk'. by rewrite bool_decide_false.
Qed.

Lemma masked_update eff k r rows :
  eff_ok eff → eff !! k ≠ Some VDelete →
  masked (<[k := VUpdate r]> eff) rows = option_map (replace_row pk k r) <$> masked eff rows.
Proof.
  intros Hok Hd. induction rows as [|x rows IH]; [done|]. csimpl. rewrite IH. f_equal.
  destruct x as [y|]; [|done]. destruct (row_key y) as [k'|] eqn:Hk'.
  - destruct (existsb (has_key k') rows); [done|]. destruct (decide (k = k')) as [<-|Hne].
    + destruct (fate eff k y) as [z|] eqn:E.
      * simpl. unfold replace_row. rewrite decide_True by (by eapply fate_key). unfold fate. by rewrite lookup_insert_eq.
      * unfold fate in E. by destruct (eff !! k) as [[]|].
    + assert (fate (<[k := VUpdate r]> eff) k' y = fate eff k' y) as -> by (unfold fate; by rewrite lookup_insert_ne).
      destruct (fate eff k' y) as [z|] eqn:E; [|done]. simpl. unfold replace_row.
      rewrite decide_False; [done|]. rewrite (fate_key eff k' y z) by done. congruence.
  - simpl. unfold replace_row. by rewrite Hk', decide_False.
Qed.

(** Deleting or superseding a row beforehand makes no difference. *)
Lemma masked_hole eff a x b k :
  row_key x = Some k → eff !! k = Some VDelete ∨ existsb (has_key k) b = true →
  masked eff (a ++ None :: b) = masked eff (a ++ Some x :: b).
Proof.
  intros Hx Hor. assert (∀ y, existsb (has_key k) b = false → fate eff k y = None) as Hfate.
  { intros y Hb. destruct Hor as [E|E]; [unfold fate; by rewrite E|congruence]. }
  induction a as [|z a IH]; cbn [app masked].
  - rewrite Hx. destruct (existsb (has_key k) b) eqn:E; [done|]. by rewrite Hfate.
  - rewrite IH. f_equal. destruct z as [y|]; [|done]. destruct (row_key y) as [k'|]; [|done].
    rewrite !existsb_app. cbn [existsb]. rewrite (has_key_eq k k' x Hx). simpl. destruct (decide (k' = k)) as [->|Hne].
    + rewrite bool_decide_true by done. destruct (existsb (has_key k) a); [done|]. simpl.
      destruct (existsb (has_key k) b) eqn:E; [done|]. by rewrite Hfate.
    + by rewrite bool_decide_false.
Qed.

(** So does replacing a row that is going to be replaced. *)
Lemma masked_replace eff a x y b k r :
  row_key x = Some k → row_key y = Some k → eff !! k = Some (VUpdate r) →
  masked eff (a ++ Some x :: b) = masked eff (a ++ Some y :: b).
Proof.
  intros Hx Hy He. assert (∀ z, fate eff k z = Some r) as Hfate by (intros z; unfold fate; by rewrite He).
  induction a as [|z a IH]; cbn [app masked].
  - by rewrite Hx, Hy, !Hfate.
  - rewrite IH. f_equal. destruct z as [w|]; [|done]. destruct (row_key w) as [k'|]; [|done].
    rewrite !existsb_app. cbn [existsb]. by rewrite (has_key_eq k k' x Hx), (has_key_eq k k' y Hy).
Qed.

Lemma live_cons x rows : live_rows (x :: rows) = option_list x ++ live_rows rows.
Proof. by destruct x. Qed.

Lemma live_hide k rows : live_rows (hide k <$> rows) = without pk k (live_rows rows).
Proof.
  induction rows as [|x rows IH]; [done|]. rewrite fmap_cons, !live_cons, IH. destruct x as [y|]; [|done].
  unfold hide, has_key. case_bool_decide as Hk; simpl.
  - by rewrite without_cons_eq.
  - unfold without. by rewrite filter_cons_True.
Qed.

Lemma live_fmap (f : row → row) rows : live_rows (option_map f <$> rows) = f <$> live_rows rows.
Proof. induction rows as [|x rows IH]; [done|]. rewrite fmap_cons, !live_cons, IH. by destruct x. Qed.

(** Without effects and with distinct keys everything is visible. *)
Lemma masked_start (base : list row) :
  NoDup ((λ r, row_key r) <$> base) → masked ∅ (Some <$> base) = Some <$> base.
Proof.
  induction base as [|r base IH]; [done|]. csimpl. intros [Hr Hnd]%NoDup_cons. rewrite IH by done. f_equal.
  destruct (row_key r) as [k|] eqn:Hk; [|done].
  assert (existsb (has_key k) (Some <$> base) = false) as ->.
  { apply not_true_iff_false. intros (x & Hx & Hxk)%existsb_exists. apply list_elem_of_In, list_elem_of_fmap in Hx as (y & -> & Hy).
    simpl in Hxk. apply bool_decide_eq_true in Hxk. apply Hr, list_elem_of_fmap. exists y. split; [congruence|done]. }
  unfold fate. by rewrite lookup_empty.
Qed.

Lemma live_Some (base : list row) : live_rows (Some <$> base) = base.
Proof. induction base as [|r base IH]; [done|]. by rewrite fmap_cons, live_cons, IH. Qed.
End masked.

(** ** One operation at a time *)

(** Updates and deletes of a history name rows that exist, and every operation
    has a key. *)
Definition op_valid (pk : nat) (t : list row) (op : TableOp) : Prop :=
  is_Some (op_key pk op) ∧
  match op with
  | OpUpdate _ | OpDelete _ => Exists (λ x, optional_row_pk x pk = op_key pk op) t
  | OpInsert _ => True
  end.

Fixpoint valid_history (pk : nat) (t : list row) (ops : list TableOp) : Prop :=
  match ops with
  | [] => True
  | op :: ops => op_valid pk t op ∧ valid_history pk (table_op pk t op) ops
  end.

#[export] Instance op_valid_dec pk t op : Decision (op_valid pk t op).
Proof. unfold op_valid. destruct op; apply _. Defined.
#[export] Instance valid_history_dec pk t ops : Decision (valid_history pk t ops).
Proof. revert t. induction ops; intros t; simpl; apply _. Defined.

Lemma valid_history_app pk t ops ops' :
  valid_history pk t (ops ++ ops') ↔ valid_history pk t ops ∧ valid_history pk (run_ops pk ops t) ops'.
Proof.
  revert t. induction ops as [|op ops IH]; intros t; simpl; [naive_solver|]. rewrite IH. unfold run_ops. simpl. naive_solver.
Qed.

Lemma valid_history_keyed pk t ops : valid_history pk t ops → Forall (λ op, is_Some (op_key pk op)) ops.
Proof. revert t. induction ops as [|op ops IH]; intros t; simpl; [constructor|]. intros [[H _] Hv]. constructor; eauto. Qed.

Section refine.
Context (pk : nat).

Notation row_key r := (optional_row_pk r pk).

Definition eff_op (eff : visible_effects) (op : TableOp) : visible_effects :=
  match op_key pk op with
  | None => eff
  | Some k =>
      match op with
      | OpUpdate r => <[k := VUpdate r]> eff
      | OpDelete _ => <[k := VDelete]> eff
      | OpInsert _ => base.delete k eff
      end
  end.

(** The slot list without clearing old slots. *)
Definition push_op (rows : list (option row)) (op : TableOp) : list (option row) :=
  match op with OpInsert r => rows ++ [Some r] | _ => rows end.

Lemma eff_op_ok eff op : eff_ok pk eff → eff_ok pk (eff_op eff op).
Proof.
  intros Hok. unfold eff_op. destruct (op_key pk op) as [k|] eqn:Hk; [|done]. destruct op as [r|v|r]; intros k' r'.
  - intros [[<- [= <-]]|[_ H]]%lookup_insert_Some; [done|by apply Hok].
  - intros [[_ H]|[_ H]]%lookup_insert_Some; [done|by apply Hok].
  - intros [_ H]%lookup_delete_Some. by apply Hok.
Qed.

Lemma plain_step eff rows op :
  eff_ok pk eff → op_valid pk (live_rows (masked pk eff rows)) op →
  live_rows (masked pk (eff_op eff op) (push_op rows op)) = table_op pk (live_rows (masked pk eff rows)) op.
Proof.
  intros Hok [[k Hk] Hv]. unfold eff_op. rewrite Hk. destruct op as [r|v|r]; cbn [op_key push_op table_op] in *; rewrite Hk in *.
  - assert (eff !! k ≠ Some VDelete) as Hd.
    { intros Hd. apply Exists_exists in Hv as (x & Hx & Hxk).
      assert (masked pk eff rows = hide pk k <$> masked pk eff rows) as E.
      { rewrite <- masked_delete by done. by rewrite insert_id. }
      rewrite E, live_hide in Hx. by apply elem_of_without in Hx as [? _]. }
    rewrite masked_update by done. apply live_fmap.
  - rewrite masked_delete by done. apply live_hide.
  - assert (eff_ok pk (base.delete k eff)) as Hok'.
    { intros k' r' [_ H]%lookup_delete_Some. by apply Hok. }
    rewrite (masked_snoc pk _ _ r k) by done. rewrite live_rows_app. f_equal.
    + rewrite (masked_hide_agree pk (base.delete k eff) eff k); [apply live_hide|done|done|].
      intros k' Hne. by rewrite lookup_delete_ne.
    + unfold fate. by rewrite lookup_delete_eq.
Qed.

(** The slots cleared or replaced along the way do not show. *)
Lemma slot_step_same eff prefix s op s' :
  slots_ok pk s → slot_op pk s op = Ok s' → is_Some (op_key pk op) →
  masked pk (eff_op eff op) (prefix ++ s'.1) = masked pk (eff_op eff op) (prefix ++ push_op s.1 op).
Proof.
  destruct s as [rows active]. intros Hok Hop [k Hk]. unfold eff_op. rewrite Hk.
  assert (∀ p, active !! k = Some p → ∃ a x b, rows = a ++ Some x :: b ∧ length a = p ∧ row_key x = Some k ∧
    store_at rows p None = Ok (a ++ None :: b) ∧ ∀ r, store_at rows p (Some r) = Ok (a ++ Some r :: b)) as Hsplit.
  { intros p Hp. destruct (live_slot_split pk rows active k p Hok Hp) as (a & x & b & -> & <- & Hx & _). exists a, x, b.
    assert (∀ z, store_at (a ++ Some x :: b) (length a) z = Ok (a ++ z :: b)) as Hst.
    { intros z. unfold store_at. rewrite decide_True by (rewrite length_app; simpl; lia).
      by rewrite insert_app_r_alt, Nat.sub_diag by done. }
    split_and!; [done|done|done|apply Hst|intros r; apply Hst]. }
  destruct op as [r|v|r]; cbn [op_key slot_op push_op fst] in *.
  - unfold slot_update in Hop. rewrite Hk in Hop. destruct (active !! k) as [p|].
    + destruct (Hsplit p eq_refl) as (a & x & b & -> & _ & Hx & _ & E). rewrite E in Hop. injection Hop as <-. cbn [fst].
      rewrite !app_assoc. symmetry. eapply masked_replace; [done|done|apply lookup_insert_eq].
    + by injection Hop as <-.
  - unfold slot_delete in Hop. unfold value_key in Hk. destruct (pk_try_from v) as [k0| |]; [|done..].
    injection Hk as ->. destruct (active !! k) as [p|].
    + destruct (Hsplit p eq_refl) as (a & x & b & -> & _ & Hx & E & _). rewrite E in Hop. injection Hop as <-. cbn [fst].
      rewrite !app_assoc. eapply masked_hole; [done|]. left. apply lookup_insert_eq.
    + by injection Hop as <-.
  - unfold slot_insert in Hop. rewrite Hk in Hop. destruct (active !! k) as [p|].
    + destruct (Hsplit p eq_refl) as (a & x & b & -> & _ & Hx & E & _). rewrite E in Hop. injection Hop as <-. cbn [fst].
      rewrite <- !app_assoc, !app_assoc, <- !app_assoc. rewrite !(app_assoc prefix a). cbn [app].
      eapply masked_hole; [done|]. right. rewrite existsb_app. apply orb_true_iff. right. simpl.
      rewrite Hk, bool_decide_true by done. done.
    + by injection Hop as <-.
Qed.

Lemma chain_masked ops : ∀ prefix s eff,
  slots_ok pk s → eff_ok pk eff → valid_history pk (live_rows (masked pk eff (prefix ++ s.1))) ops →
  ∃ s', for_each ops s (slot_op pk) = Ok s' ∧ slots_ok pk s' ∧ eff_ok pk (foldl eff_op eff ops) ∧
    live_rows (masked pk (foldl eff_op eff ops) (prefix ++ s'.1)) = run_ops pk ops (live_rows (masked pk eff (prefix ++ s.1))).
Proof.
  induction ops as [|op ops IH]; intros prefix s eff Hs Heff Hv; [by exists s|].
  destruct Hv as [Hop Hv]. destruct (slot_op_ok pk s op Hs) as (s1 & Hs1 & Hok1 & _).
  pose proof (slot_step_same eff prefix s op s1 Hs Hs1 (proj1 Hop)) as Hsame.
  pose proof (plain_step eff (prefix ++ s.1) op Heff Hop) as Hstep.
  assert (push_op (prefix ++ s.1) op = prefix ++ push_op s.1 op) as Hpush.
  { destruct op; simpl; [done|done|by rewrite app_assoc]. }
  rewrite Hpush, <- Hsame in Hstep.
  destruct (IH prefix s1 (eff_op eff op)) as (s' & Hs' & Hok' & Heff' & Hrun).
  - done.
  - by apply eff_op_ok.
  - by rewrite Hstep.
  - exists s'. cbn [for_each]. rewrite Hs1. cbn [bind]. split_and!; [done|done|done|]. cbn [foldl]. rewrite Hrun, Hstep. done.
Qed.

Lemma own_masked ops : ∀ rows eff,
  eff_ok pk eff → valid_history pk (live_rows (masked pk eff rows)) ops →
  eff_ok pk (foldl eff_op eff ops) ∧
  live_rows (masked pk (foldl eff_op eff ops) (foldl push_op rows ops)) = run_ops pk ops (live_rows (masked pk eff rows)).
Proof.
  induction ops as [|op ops IH]; intros rows eff Heff Hv; [done|]. destruct Hv as [Hop Hv]. cbn [foldl].
  pose proof (plain_step eff rows op Heff Hop) as Hstep.
  destruct (IH (push_op rows op) (eff_op eff op)) as [H1 H2]; [by apply eff_op_ok|by rewrite Hstep|].
  split; [done|]. rewrite H2, Hstep. done.
Qed.

Lemma push_commit_ops table d rows :
  foldl push_op rows (commit_ops table d) = rows ++ (Some <$> table_rows (nodes d) table).
Proof.
  unfold commit_ops. rewrite !foldl_app.
  assert (∀ (us : list row) acc, foldl push_op acc (OpUpdate <$> us) = acc) as -> by (by induction us; simpl).
  assert (∀ (ds : list Value) acc, foldl push_op acc (OpDelete <$> ds) = acc) as -> by (by induction ds; simpl).
  generalize (table_rows (nodes d) table). intros ins. revert rows.
  induction ins as [|r ins IH]; intros rows; csimpl; [by rewrite app_nil_r|]. rewrite IH, <- app_assoc. done.
Qed.

(** ** The slot reader computes [masked] *)

Lemma key_from_row_Ok r k : key_from_row r pk = Ok k ↔ row_key r = Some k.
Proof.
  unfold key_from_row, optional_row_pk. destruct (r !! pk) as [v|]; [|done]. destruct v; simpl; naive_solver.
Qed.

Lemma hide_slot rows active k p :
  slots_ok pk (rows, active) → active !! k = Some p → hide pk k <$> rows = <[p := None]> rows.
Proof.
  intros Hok Hp. destruct (live_slot_split pk rows active k p Hok Hp) as (a & x & b & -> & <- & Hx & Ha & Hb).
  rewrite insert_app_r_alt, Nat.sub_diag by done. rewrite fmap_app. cbn [insert list_insert fmap list_fmap].
  assert (∀ l, Forall (λ y, row_key y ≠ Some k) (live_rows l) → hide pk k <$> l = l) as Hid.
  { induction l as [|z l IH]; [done|]. rewrite live_cons, fmap_cons. intros [H1 H2]%Forall_app. rewrite IH by done.
    f_equal. destruct z as [y|]; [|done]. simpl in H1. apply Forall_cons in H1 as [H1 _]. unfold hide, has_key.
    by rewrite bool_decide_false. }
  rewrite !Hid by done. unfold hide at 1, has_key. by rewrite Hx, bool_decide_true.
Qed.

Lemma hide_no_slot rows active k :
  slots_ok pk (rows, active) → active !! k = None → hide pk k <$> rows = rows.
Proof.
  intros Hok Hp. pose proof (slot_absent pk rows active k Hok Hp) as Hno. clear Hok.
  induction rows as [|z l IH]; [done|]. rewrite live_cons in Hno. apply Forall_app in Hno as [H1 H2].
  rewrite fmap_cons, IH by done. f_equal. destruct z as [y|]; [|done]. apply Forall_cons in H1 as [H1 _].
  unfold hide, has_key. by rewrite bool_decide_false.
Qed.

Lemma slots_ok_hole rows active : slots_ok pk (rows, active) → slots_ok pk (rows ++ [None], active).
Proof.
  intros Hok k p. rewrite (Hok k p). cbn [fst]. split; intros (r & Hr & Hk); exists r; (split; [|done]).
  - by apply lookup_app_l_Some.
  - apply lookup_app_Some in Hr as [Hr|[_ Hr]]; [done|]. apply list_lookup_singleton_Some in Hr as [_ Hr]. done.
Qed.

Lemma slot_effect_step_ok eff rows positions r :
  eff_ok pk eff → slots_ok pk (masked pk eff rows, positions) →
  (∀ x, r = Some x → is_Some (row_key x)) →
  ∃ positions', slot_effect_step pk eff (masked pk eff rows, positions) r = Ok (masked pk eff (rows ++ [r]), positions') ∧
    slots_ok pk (masked pk eff (rows ++ [r]), positions').
Proof.
  intros Heff Hok Hr. destruct r as [x|].
  2: { exists positions. rewrite masked_snoc_hole. split; [done|]. by apply slots_ok_hole. }
  destruct (Hr x eq_refl) as [k Hk]. rewrite (masked_snoc pk eff rows x k) by done.
  unfold slot_effect_step. rewrite (proj2 (key_from_row_Ok x k) Hk). cbn [bind]. fold (fate eff k x).
  set (V := masked pk eff rows) in *.
  assert (∃ active', (match positions !! k with Some p => store_at V p None | None => Ok V end) = Ok (hide pk k <$> V) ∧
    slots_ok pk (hide pk k <$> V, active') ∧ active' !! k = None ∧ base.delete k active' = base.delete k positions) as (active' & -> & Hok' & Hnone & Hdel).
  { destruct (positions !! k) as [p|] eqn:Hp.
    - destruct (clear_slot pk V positions k p Hok Hp) as (-> & Hok' & _). rewrite <- (hide_slot V positions k p Hok Hp) in *.
      exists (base.delete k positions). split_and!; [done|done|apply lookup_delete_eq|apply delete_delete_eq].
    - rewrite (hide_no_slot V positions k) by done. by exists positions. }
  cbn [bind]. eexists. split; [done|]. assert (length V = length (hide pk k <$> V)) as -> by (by rewrite length_fmap).
  destruct (fate eff k x) as [y|] eqn:Ef.
  - pose proof (slots_ok_push pk _ _ y Hok') as Hpush. rewrite (fate_key pk eff k x y Heff Hk Ef) in Hpush.
    specialize (Hpush Hnone). by rewrite <- insert_delete_eq, Hdel, insert_delete_eq in Hpush.
  - apply slots_ok_hole. rewrite delete_insert_eq, <- Hdel, delete_id by done. done.
Qed.

Lemma slot_effects_ok eff rest : ∀ rows positions,
  eff_ok pk eff → slots_ok pk (masked pk eff rows, positions) →
  Forall (λ r, ∀ x, r = Some x → is_Some (row_key x)) rest →
  ∃ positions', for_each rest (masked pk eff rows, positions) (slot_effect_step pk eff) =
    Ok (masked pk eff (rows ++ rest), positions').
Proof.
  induction rest as [|r rest IH]; intros rows positions Heff Hok Hkeyed.
  { exists positions. by rewrite app_nil_r. }
  apply Forall_cons in Hkeyed as [Hr Hkeyed]. cbn [for_each].
  destruct (slot_effect_step_ok eff rows positions r Heff Hok Hr) as (positions1 & -> & Hok1). cbn [bind].
  destruct (IH (rows ++ [r]) positions1 Heff Hok1 Hkeyed) as [positions2 ->]. exists positions2. by rewrite <- app_assoc.
Qed.
End refine.

(** ** Effects as the view collects them *)

Definition to_visible (e : option (option row)) : option VisibleRowEffect :=
  match e with Some (Some r) => Some (VUpdate r) | Some None => Some VDelete | None => None end.

Section visible.
Context (pk : nat).

Notation row_key r := (optional_row_pk r pk).

Lemma eff_run_lookup ops : ∀ eff e k,
  eff !! k = to_visible e →
  foldl (eff_op pk) eff ops !! k = to_visible (foldl (effect_step pk k) e ops).
Proof.
  induction ops as [|op ops IH]; intros eff e k He; [done|]. cbn [foldl]. apply IH.
  unfold eff_op, effect_step. destruct (op_key pk op) as [k0|] eqn:Hk.
  - destruct (decide (Some k0 = Some k)) as [[= ->]|Hne].
    + destruct op; [apply lookup_insert_eq|apply lookup_insert_eq|apply lookup_delete_eq].
    + destruct op; [rewrite lookup_insert_ne|rewrite lookup_insert_ne|rewrite lookup_delete_ne]; congruence.
  - by rewrite decide_False.
Qed.

Lemma committed_updates_ok l : ∀ visible : visible_effects,
  NoDup l.*1 → Forall (λ kr, row_key kr.2 = Some kr.1) l →
  ∃ visible', for_each l visible (λ visible '(_, row),
      let! key := key_from_row row pk in Ok (<[key := VUpdate row]> visible)) = Ok visible' ∧
    ∀ k, visible' !! k = match (list_to_map l : gmap PkKey row) !! k with Some r => Some (VUpdate r) | None => visible !! k end.
Proof.
  induction l as [|[k0 r0] l IH]; intros visible Hnd Hkeys.
  { exists visible. split; [done|]. intros k. simpl. by rewrite lookup_empty. }
  csimpl in Hnd. apply NoDup_cons in Hnd as [Hk0 Hnd]. apply Forall_cons in Hkeys as [Hr0 Hkeys]. cbn [for_each].
  rewrite (proj2 (key_from_row_Ok pk r0 k0) Hr0). cbn [bind].
  destruct (IH (<[k0 := VUpdate r0]> visible) Hnd Hkeys) as (v' & -> & Hv'). exists v'. split; [done|].
  intros k. rewrite Hv'. simpl. destruct (decide (k0 = k)) as [<-|Hne].
  - rewrite lookup_insert_eq. apply not_elem_of_list_to_map_1 in Hk0. by rewrite Hk0, lookup_insert_eq.
  - by rewrite !lookup_insert_ne.
Qed.

Lemma tombstone_fold ks : ∀ (visible : visible_effects) k,
  foldl (λ visible key, <[key := VDelete]> visible) visible ks !! k =
  if decide (k ∈ ks) then Some VDelete else visible !! k.
Proof.
  induction ks as [|k0 ks IH]; intros visible k; [done|]. cbn [foldl]. rewrite IH.
  destruct (decide (k ∈ ks)) as [Hin|Hin].
  - by rewrite decide_True by (by right).
  - destruct (decide (k0 = k)) as [<-|Hne].
    + rewrite lookup_insert_eq, decide_True by (by left). done.
    + rewrite lookup_insert_ne, decide_False by set_solver. done.
Qed.

Lemma committed_effects_ok e :
  effects_ok pk e → ∃ v, committed_effects pk e = Ok v ∧ ∀ k, v !! k = to_visible (key_effect e k).
Proof.
  intros [Hd Hu]. unfold committed_effects.
  destruct (committed_updates_ok (map_to_list (updates e)) ∅) as (v & -> & Hv).
  { apply NoDup_fst_map_to_list. }
  { apply Forall_forall. intros [k r] H%elem_of_map_to_list. by apply Hu. }
  cbn [bind]. eexists. split; [done|]. intros k. rewrite tombstone_fold, Hv, list_to_map_to_list, lookup_empty.
  unfold key_effect. destruct (decide (k ∈ tombstones e)) as [Hin|Hin].
  - by rewrite decide_True by (by apply elem_of_elements).
  - rewrite decide_False by (by rewrite elem_of_elements). by destruct (updates e !! k).
Qed.

(** Committed effects of a chain whose operations all have keys. *)
Lemma chain_effects_ok head table :
  Forall (λ op, is_Some (op_key pk op)) (chain_ops head table) →
  ∃ e, node_dml_effects pk head table = Ok e ∧
    committed_effects pk e = Ok (foldl (eff_op pk) ∅ (chain_ops head table)).
Proof.
  intros Hk. rewrite effects_chain_ops. destruct (effects_ops_ok pk _ _ (no_effects_ok pk) Hk) as (e & -> & Hok & Heff).
  exists e. split; [done|]. destruct (committed_effects_ok e Hok) as (v & -> & Hv). f_equal. apply map_eq. intros k.
  rewrite Hv, Heff, no_effects_key. symmetry. by apply eff_run_lookup.
Qed.

Lemma eff_op_key v op k :
  op_key pk op = Some k →
  eff_op pk v op = match op with
    | OpUpdate r => <[k := VUpdate r]> v | OpDelete _ => <[k := VDelete]> v | OpInsert _ => base.delete k v end.
Proof. intros Hk. unfold eff_op. by rewrite Hk. Qed.

Lemma own_effects_ok d table visible :
  Forall (λ op, is_Some (op_key pk op)) (commit_ops table d) →
  apply_own_dml_effects visible d table pk = Ok (foldl (eff_op pk) visible (commit_ops table d)).
Proof.
  unfold commit_ops. rewrite !Forall_app, !Forall_fmap. intros (Hu & Hd & Hi). unfold apply_own_dml_effects.
  rewrite !foldl_app.
  assert (∀ rows v, Forall (is_Some ∘ (λ r, op_key pk (OpUpdate r))) rows →
    for_each rows v (λ (visible : visible_effects) row, let! key := key_from_row row pk in Ok (<[key := VUpdate row]> visible)) =
    Ok (foldl (eff_op pk) v (OpUpdate <$> rows))) as Hup.
  { induction rows as [|r rows IH]; intros v Hrows; [done|]. apply Forall_cons in Hrows as [[k Hk] Hrows]. cbn [for_each].
    rewrite (proj2 (key_from_row_Ok pk r k) Hk). cbn [bind]. rewrite IH by done. csimpl. by rewrite (eff_op_key v (OpUpdate r) k Hk). }
  rewrite Hup by done. cbn [bind].
  assert (∀ vs v, Forall (is_Some ∘ (λ x, op_key pk (OpDelete x))) vs →
    for_each vs v (λ (visible : visible_effects) key, let! key := key_from_value key in Ok (<[key := VDelete]> visible)) =
    Ok (foldl (eff_op pk) v (OpDelete <$> vs))) as Hdel.
  { induction vs as [|x vs IH]; intros v Hvs; [done|]. apply Forall_cons in Hvs as [[k Hk] Hvs]. cbn [for_each].
    assert (key_from_value x = Ok k) as ->.
    { cbn in Hk. unfold value_key in Hk. destruct x; simpl in *; congruence. }
    cbn [bind]. rewrite IH by done. csimpl. by rewrite (eff_op_key v (OpDelete x) k Hk). }
  rewrite Hdel by done. cbn [bind]. revert Hi. generalize (foldl (eff_op pk) (foldl (eff_op pk) visible (OpUpdate <$> table_rows (node_updates d) table))
    (OpDelete <$> table_rows (node_deletes d) table)).
  generalize (table_rows (nodes d) table). induction l as [|r rows IH]; intros v Hrows; [done|].
  apply Forall_cons in Hrows as [[k Hk] Hrows]. cbn [for_each]. rewrite (proj2 (key_from_row_Ok pk r k) Hk). cbn [bind].
  rewrite IH by done. csimpl. by rewrite (eff_op_key v (OpInsert r) k Hk).
Qed.
End visible.

(** ** Reading a snapshot *)

(** The operations a view sees on a table: those committed since the last
    checkpoint, then its own. *)
Definition view_ops (view : ReadView) (table : table_name) : list TableOp :=
  chain_ops (state_chain view) table ++ match own view with Some d => commit_ops table d | None => [] end.

(** The table is committed under this schema, or the transaction created it. *)
Definition table_known (view : ReadView) (schema : NodeTableSchema) : Prop :=
  node_table (state_catalog view) (node_name schema) = Some schema ∨
  node_table (state_catalog view) (node_name schema) = None ∧ chain_ops (state_chain view) (node_name schema) = [].

Definition keyed_base (pk : nat) (base : list row) : Prop :=
  NoDup ((λ r, optional_row_pk r pk) <$> base) ∧ Forall (λ r, is_Some (optional_row_pk r pk)) base.

Lemma primary_key_of_find schema pk n :
  primary_key_of schema = Ok (pk, n) → ∃ c, list_find (λ c, primary_key c = true) (node_columns schema) = Some (pk, c).
Proof.
  unfold primary_key_of. intros H. inv_ok H. apply ok_or_Ok in Hx. destruct x as [i c]. injection H as <- _. eauto.
Qed.

Section snapshot.
Context (view : ReadView) (schema : NodeTableSchema) (pk : nat) (n : list Z).
Hypothesis Hpk : primary_key_of schema = Ok (pk, n).
Hypothesis Hknown : table_known view schema.

Let table := node_name schema.

Lemma view_effects_ok :
  Forall (λ op, is_Some (op_key pk op)) (view_ops view table) →
  visible_dml_effects view schema = Ok (foldl (eff_op pk) ∅ (view_ops view table)).
Proof.
  unfold view_ops. rewrite Forall_app, foldl_app. intros [Hc Ho]. unfold visible_dml_effects. rewrite Hpk. cbn [bind].
  assert ((if bool_decide (is_Some (node_table (state_catalog view) (node_name schema))) then
      let! committed := state_dml_effects view (node_name schema) in committed_effects pk committed
    else Ok ∅) = Ok (foldl (eff_op pk) ∅ (chain_ops (state_chain view) table))) as ->.
  { unfold table in *. destruct Hknown as [E|[E Hnil]]; rewrite E.
    - rewrite bool_decide_true by eauto. unfold state_dml_effects. rewrite E. cbn [ok_or bind].
      destruct (primary_key_of_find schema pk n Hpk) as [c ->]. cbn [ok_or bind].
      destruct (chain_effects_ok pk (state_chain view) (node_name schema) Hc) as (e & -> & He). by cbn [bind].
    - rewrite bool_decide_false by (by intros [? ?]). by rewrite Hnil. }
  cbn [bind]. destruct (own view) as [d|]; [|done]. by apply own_effects_ok.
Qed.

Lemma slot_rows_enumerate (rows : list (option row)) :
  slot_row <$> ((λ '(position, row), mkSlot position row) <$> enumerate rows) = rows.
Proof.
  unfold enumerate. generalize 0%nat. induction rows as [|x rows IH]; intros k; [done|].
  rewrite enumerate_from_cons. csimpl. by rewrite IH.
Qed.

Lemma view_slots_ok :
  ∃ s, for_each (chain_ops (state_chain view) table) ([], ∅) (slot_op pk) = Ok s ∧ state_node_slots view table = Ok s.1.
Proof.
  unfold state_node_slots, node_slots_oldest_first, effective_node_rows, table in *.
  destruct Hknown as [E|[E Hnil]]; rewrite E.
  - cbn [mbind option_bind]. destruct (primary_key_of_find schema pk n Hpk) as [c ->]. cbn [fmap option_fmap option_map default fst id].
    rewrite slots_chain_ops. destruct (slot_ops_ok pk (chain_ops (state_chain view) (node_name schema)) ([], ∅) (slots_ok_start pk))
      as ([rows active] & Hs & _). unfold slot_state in *. rewrite Hs. exists (rows, active). split; [done|].
    cbn [bind]. by rewrite slot_rows_enumerate.
  - cbn [mbind option_bind default]. rewrite slots_chain_ops, Hnil. by exists ([], ∅).
Qed.
End snapshot.

Lemma chain_slots_keyed pk ops s s' :
  for_each ops s (slot_op pk) = Ok s' → Forall (λ op, is_Some (op_key pk op)) ops →
  Forall (λ x, is_Some (optional_row_pk x pk)) (live_rows s.1) → slots_ok pk s →
  Forall (λ x, is_Some (optional_row_pk x pk)) (live_rows s'.1).
Proof.
  revert s. induction ops as [|op ops IH]; intros s Hrun Hkeyed Hs Hok; [by injection Hrun as <-|].
  apply Forall_cons in Hkeyed as [Hop Hkeyed]. cbn [for_each] in Hrun.
  destruct (slot_op_ok pk s op Hok) as (s1 & Hs1 & Hok1 & Hl1 & _). rewrite Hs1 in Hrun. cbn [bind] in Hrun.
  apply (IH s1); [done|done| |done]. rewrite Hl1, Forall_forall in *. unfold table_op. intros x.
  destruct Hop as [k Hk]. destruct op as [r|v|r]; cbn [op_key] in Hk; rewrite Hk.
  - intros (y & -> & Hy)%list_elem_of_fmap. rewrite replace_row_key by done. auto.
  - intros [_ Hx]%elem_of_without. auto.
  - intros [[_ Hx]%elem_of_without| ->%list_elem_of_singleton]%elem_of_app; [auto|]. by rewrite Hk.
Qed.

(** The physical slots of a view, the effects, and what they show. *)
Lemma view_rows_ok view schema pk n base :
  primary_key_of schema = Ok (pk, n) → table_known view schema → keyed_base pk base →
  valid_history pk base (view_ops view (node_name schema)) →
  ∃ slots, physical_slots view schema base = Ok slots ∧
    visible_dml_effects view schema = Ok (foldl (eff_op pk) ∅ (view_ops view (node_name schema))) ∧
    eff_ok pk (foldl (eff_op pk) ∅ (view_ops view (node_name schema))) ∧
    Forall (λ r, ∀ x, r = Some x → is_Some (optional_row_pk x pk)) slots ∧
    live_rows (masked pk (foldl (eff_op pk) ∅ (view_ops view (node_name schema))) slots) =
      run_ops pk (view_ops view (node_name schema)) base.
Proof.
  intros Hpk Hknown [Hnd Hbase] Hv. pose proof (valid_history_keyed _ _ _ Hv) as Hkeyed.
  rewrite (view_effects_ok view schema pk n Hpk Hknown Hkeyed).
  destruct (view_slots_ok view schema pk n Hpk Hknown) as (s & Hs & Hslots). unfold physical_slots. rewrite Hslots. cbn [bind].
  assert (live_rows (masked pk ∅ ((Some <$> base) ++ [])) = base) as Hstart.
  { rewrite app_nil_r, masked_start by done. apply live_Some. }
  unfold view_ops in Hv, Hkeyed |- *. apply valid_history_app in Hv as [Hvc Hvo]. rewrite foldl_app.
  destruct (chain_masked pk (chain_ops (state_chain view) (node_name schema)) (Some <$> base) ([], ∅) ∅)
    as (s' & Hs' & Hok' & Heff & Hrun); [apply slots_ok_start|by intros ? ? ?%lookup_empty_Some|cbn [fst]; by rewrite Hstart|].
  unfold slot_state in *. rewrite Hs in Hs'. injection Hs' as <-. cbn [fst] in Hrun. rewrite Hstart in Hrun.
  eexists. split; [done|]. split; [done|].
  destruct (own_masked pk (match own view with Some d => commit_ops (node_name schema) d | None => [] end)
    ((Some <$> base) ++ s.1) _ Heff) as [Heff' Hrun']; [by rewrite Hrun|].
  apply Forall_app in Hkeyed as [Hkc Hko].
  assert (Forall (λ r, ∀ x, r = Some x → is_Some (optional_row_pk x pk)) ((Some <$> base) ++ s.1)) as Hkslots.
  { apply Forall_app. split.
    - apply Forall_fmap. eapply Forall_impl; [exact Hbase|]. intros r Hr x [= <-]. done.
    - assert (Forall (λ x, is_Some (optional_row_pk x pk)) (live_rows s.1)) as Hl.
      { eapply (chain_slots_keyed pk _ ([], ∅)); [exact Hs|exact Hkc|constructor|apply slots_ok_start]. }
      rewrite Forall_forall in Hl. apply Forall_forall. intros r Hr x ->. apply Hl. apply list_elem_of_lookup in Hr as [i Hi].
      apply elem_of_live_rows. eauto. }
  rewrite run_ops_app in *. split_and!; [done| |].
  - rewrite app_assoc. apply Forall_app. split; [done|]. destruct (own view) as [d|]; [|constructor].
    unfold commit_ops in Hko. rewrite !Forall_app, !Forall_fmap in Hko. destruct Hko as (_ & _ & Hi).
    apply Forall_fmap. eapply Forall_impl; [exact Hi|]. intros r Hr x [= <-]. exact Hr.
  - rewrite app_assoc. rewrite <- Hrun, <- Hrun'. f_equal. f_equal.
    destruct (own view) as [d|]; [by rewrite push_commit_ops|by rewrite app_nil_r].
Qed.

(** The slot reader masks the physical slots with the effects. *)
Lemma node_rows_masked (view : ReadView) (schema : NodeTableSchema) (pk : nat) (n : list Z) (base : list row) :
  primary_key_of schema = Ok (pk, n) → table_known view schema → keyed_base pk base →
  valid_history pk base (view_ops view (node_name schema)) →
  ∃ slots, physical_slots view schema base = Ok slots ∧ eff_ok pk (foldl (eff_op pk) ∅ (view_ops view (node_name schema))) ∧
    node_rows_for_view view schema base = Ok (masked pk (foldl (eff_op pk) ∅ (view_ops view (node_name schema))) slots) ∧
    live_rows (masked pk (foldl (eff_op pk) ∅ (view_ops view (node_name schema))) slots) = run_ops pk (view_ops view (node_name schema)) base.
Proof.
  intros Hpk Hknown Hbase Hv.
  destruct (view_rows_ok view schema pk n base Hpk Hknown Hbase Hv) as (slots & Hslots & Heff & Hok & Hkeyed & Hlive).
  exists slots. split_and!; [done|done| |done].
  unfold node_rows_for_view, apply_slot_effects. rewrite Heff. cbn [bind]. rewrite Hslots. cbn [bind]. rewrite Hpk. cbn [bind].
  destruct (slot_effects_ok pk _ slots [] ∅ Hok (slots_ok_start pk) Hkeyed) as [positions Hrun].
  cbn [masked app] in Hrun. by rewrite Hrun.
Qed.

Lemma node_rows_view_ok (view : ReadView) (schema : NodeTableSchema) (pk : nat) (n : list Z) (base : list row) :
  primary_key_of schema = Ok (pk, n) → table_known view schema → keyed_base pk base →
  valid_history pk base (view_ops view (node_name schema)) →
  ∃ rows, node_rows_for_view view schema base = Ok rows ∧
    live_rows rows = run_ops pk (view_ops view (node_name schema)) base.
Proof. intros Hpk Hknown Hbase Hv. destruct (node_rows_masked view schema pk n base) as (slots & _ & _ & Hr & Hl); eauto. Qed.

(** C4: a snapshot read refines the abstract table: over checkpointed rows with
    distinct keys, for every commit chain and every own delta of the
    transaction that only update and delete existing rows, the slot reader
    succeeds and its visible rows are, in order, the checkpointed rows with all
    operations of the chain and then the transaction's own applied one by one.
    In particular a key deleted and inserted again shows only its new row, and
    a row updated twice only its last version. *)
Theorem snapshot_read_refines (view : ReadView) (schema : NodeTableSchema) (pk : nat) (n : list Z) (base : list row) :
  primary_key_of schema = Ok (pk, n) → table_known view schema → keyed_base pk base →
  valid_history pk base (view_ops view (node_name schema)) →
  ∃ rows, node_rows_for_view view schema base = Ok rows ∧
    live_rows rows = run_ops pk (view_ops view (node_name schema)) base.
Proof. apply node_rows_view_ok. Qed.

(** Table [Pa(id, v)]: two checkpointed rows, two commits, an own delta. *)
Definition ex_table : table_name := [80; 97].
Definition ex_schema : NodeTableSchema :=
  mkNodeSchema ex_table [mkColumn [105; 100] TInt64 true; mkColumn [118] TInt64 false].
Definition ex_row (id v : Z) : row := [Int64 id; Int64 v].
Definition ex_delta (ups : list row) (dels : list Value) (ins : list row) : CommitDelta :=
  mkDelta {[ ex_table := ins ]} {[ ex_table := ups ]} {[ ex_table := dels ]} ∅ ∅ [].
Definition ex_chain : option CommitLink :=
  Some (mkLink (Some (mkLink None 5 (ex_delta [ex_row 1 11] [Int64 2] [ex_row 3 30]) 0))
    9 (ex_delta [] [Int64 3] [ex_row 2 22; ex_row 4 40]) 0).
Definition ex_view : ReadView :=
  mkView (mkCatalog [ex_schema] [] ∅ [] None []) ex_chain (Some (ex_delta [ex_row 2 23] [Int64 4] [ex_row 4 41])).
Definition ex_base : list row := [ex_row 1 10; ex_row 2 20].

Lemma snapshot_read_refines_witness :
  node_rows_for_view ex_view ex_schema ex_base =
    Ok [Some (ex_row 1 11); None; None; Some (ex_row 2 23); None; Some (ex_row 4 41)] ∧
  ∃ rows, node_rows_for_view ex_view ex_schema ex_base = Ok rows ∧
    live_rows rows = run_ops 0 (view_ops ex_view (node_name ex_schema)) ex_base.
Proof.
  split; [vm_compute; reflexivity|].
  apply (snapshot_read_refines ex_view ex_schema 0 [105; 100] ex_base).
  - vm_compute. reflexivity.
  - left. vm_compute. reflexivity.
  - split; [apply (bool_decide_unpack _); vm_compute; exact I|repeat constructor; vm_compute; eauto].
  - apply (bool_decide_unpack _). vm_compute. exact I.
Defined.
