(* ===== verification/Csr.v ===== *)
(** CSR adjacency groups in memory, [devondb-storage/src/csr_group.rs]: one
    group holds the edges of the node slots it covers as an offsets array, a
    neighbors array and one column per property.

    The specification is an adjacency list per slot: [csr_of] lays lists out as
    arrays, and every operation is proved to be the list operation through it. *)

From S2P Require Import Prelude Bytes Decimal Types Codec.

Record CsrGroup := mkCsr { csr_types : list LogicalType; offsets : list Z; neighbors : list Z; csr_columns : list (list Value) }.

(** ** Operations *)

Definition csr_row_count (self : CsrGroup) : nat := (length (offsets self) - 1)%nat.
Definition edge_count (self : CsrGroup) : nat := length (neighbors self).
Definition csr_column_count (self : CsrGroup) : nat := length (csr_columns self).

Definition csr_new (row_count : nat) (types : list LogicalType) : outcome CsrGroup :=
  if (row_count =? 0)%nat then Err (InvalidArgument "a CSR group must cover at least one row") else
  if 2 ^ 32 <=? Z.of_nat row_count then Err (InvalidArgument "CSR row count exceeds u32") else
  Ok (mkCsr types (replicate (row_count + 1) 0) [] ((λ _, []) <$> types)).

Definition csr_validate_values (types : list LogicalType) (values : list Value) : outcome unit :=
  if negb (length values =? length types)%nat
  then Err (InvalidArgument "relationship property arity mismatch: expected {}, actual {}") else
  for_each (zip values types) tt (λ _ '(value, logical_type),
    if matches_type value logical_type then Ok tt
    else Err (InvalidArgument "property column {index} value {value} does not match expected type {logical_type}")).

(** [Vec::insert]. *)
Definition vec_insert {A} (l : list A) (i : nat) (x : A) : outcome (list A) :=
  if (i <=? length l)%nat then Ok (take i l ++ x :: drop i l) else Panic.

Definition push_edge (self : CsrGroup) (slot : nat) (neighbor : Z) (values : list Value) : outcome CsrGroup :=
  if (csr_row_count self <=? slot)%nat then Err (InvalidArgument "CSR slot {slot} is outside row_count {}") else
  let! _ := csr_validate_values (csr_types self) values in
  if 2 ^ 32 - 1 <=? zlen (neighbors self) then Err (InvalidArgument "CSR edge count exceeds u32") else
  let! insertion_index := index (offsets self) (slot + 1) in
  let! neighbors' := vec_insert (neighbors self) (Z.to_nat insertion_index) neighbor in
  let! columns := collect (λ '(column, value), vec_insert column (Z.to_nat insertion_index) value) (zip (csr_columns self) values) in
  Ok (mkCsr (csr_types self) (take (slot + 1) (offsets self) ++ (Z.add 1 <$> drop (slot + 1) (offsets self))) neighbors' columns).

Definition edge_range (self : CsrGroup) (slot : nat) : option (nat * nat) :=
  start ← offsets self !! slot; end_ ← offsets self !! (slot + 1)%nat; Some (Z.to_nat start, Z.to_nat end_).

Definition csr_neighbor (group : CsrGroup) (edge_index : nat) : outcome Z :=
  ok_or (neighbors group !! edge_index) (Corrupt "CSR group is missing neighbor at edge {edge_index}").

Definition csr_value (self : CsrGroup) (edge_index column_index : nat) : option Value :=
  column ← csr_columns self !! column_index; column !! edge_index.

Definition csr_values (group : CsrGroup) (edge_index : nat) : outcome (list Value) :=
  collect (λ column_index, ok_or (csr_value group edge_index column_index)
    (Corrupt "CSR group is missing edge {edge_index}, property column {column_index}")) (seq 0 (csr_column_count group)).

Definition missing_slot : DevonError := Corrupt "CSR group is missing slot {slot}".

(** [copy_existing_edges]. *)
Definition copy_existing_edges (source destination : CsrGroup) : outcome CsrGroup :=
  for_each (seq 0 (csr_row_count source)) destination (λ destination slot,
    let! (start, end_) := ok_or (edge_range source slot) missing_slot in
    for_each (seq start (end_ - start)) destination (λ destination edge_index,
      let! neighbor := csr_neighbor source edge_index in
      let! values := csr_values source edge_index in
      push_edge destination slot neighbor values)).

Fixpoint monotonic (l : list Z) : bool :=
  match l with
  | x :: ((y :: _) as rest) => (x <=? y) && monotonic rest
  | _ => true
  end.

(** [validate_structure], and the same checks with [Corrupt] in [decode_offsets]. *)
Definition validate_structure (group : CsrGroup) : outcome unit :=
  if negb (bool_decide (head (offsets group) = Some 0)) then Err (InvalidArgument "CSR offsets do not start at zero") else
  if negb (monotonic (offsets group)) then Err (InvalidArgument "CSR offsets are not monotonic") else
  if negb (bool_decide (last (offsets group) = Some (Z.of_nat (edge_count group))))
  then Err (InvalidArgument "CSR final offset does not equal edge count") else
  if existsb (λ column, negb (length column =? edge_count group)%nat) (csr_columns group)
  then Err (InvalidArgument "CSR property column length does not equal edge count") else Ok tt.

(** ** Adjacency lists *)

Notation edge := (Z * list Value)%type.
Notation adjacency := (list (list edge)).

(** Running totals from [k]. *)
Fixpoint sums (k : nat) (ls : list nat) : list nat :=
  match ls with [] => [k] | l :: ls => k :: sums (k + l) ls end.

Definition column_of (i : nat) (edges : list edge) : list Value := (λ e, default Null (e.2 !! i)) <$> edges.

(** The arrays of an adjacency. *)
Definition csr_of (types : list LogicalType) (adj : adjacency) : CsrGroup :=
  mkCsr types (Z.of_nat <$> sums 0 (length <$> adj)) (concat adj).*1 ((λ i, column_of i (concat adj)) <$> seq 0 (length types)).

Definition edge_ok (types : list LogicalType) (e : edge) : Prop := Forall2 (λ v ty, matches_type v ty = true) e.2 types.

Definition add_edge (slot : nat) (e : edge) (adj : adjacency) : adjacency := alter (λ l, l ++ [e]) slot adj.

Lemma length_sums ls : ∀ k, length (sums k ls) = S (length ls).
Proof. induction ls as [|l ls IH]; intros k; [done|]. simpl. by rewrite IH. Qed.

Lemma csr_of_rows types adj : csr_row_count (csr_of types adj) = length adj.
Proof. unfold csr_row_count. simpl. rewrite length_fmap, length_sums, length_fmap. lia. Qed.

Lemma csr_of_edges types adj : edge_count (csr_of types adj) = length (concat adj).
Proof. unfold edge_count. simpl. by rewrite length_fmap. Qed.

Lemma sums_replicate n : ∀ k, sums k (replicate n 0%nat) = replicate (S n) k.
Proof. induction n as [|n IH]; intros k; [done|]. cbn [replicate sums]. by rewrite Nat.add_0_r, IH. Qed.

Lemma sums_lookup ls : ∀ k i, (i ≤ length ls)%nat → sums k ls !! i = Some (k + sum_list (take i ls))%nat.
Proof.
  induction ls as [|l ls IH]; intros k i Hi; simpl in Hi.
  - assert (i = 0%nat) as -> by lia. by rewrite Nat.add_0_r.
  - destruct i as [|i]; [by rewrite Nat.add_0_r|]. cbn [sums take]. change ((k :: sums (k + l) ls) !! S i) with (sums (k + l) ls !! i).
    rewrite IH by lia. f_equal. simpl. lia.
Qed.

Lemma sums_succ ls : ∀ k, sums (S k) ls = S <$> sums k ls.
Proof. induction ls as [|l ls IH]; intros k; [done|]. cbn [sums]. rewrite fmap_cons, <- IH. done. Qed.

(** One more edge in a slot shifts every later offset. *)
Lemma sums_alter ls : ∀ slot k, (slot < length ls)%nat →
  sums k (alter S slot ls) = take (slot + 1) (sums k ls) ++ (S <$> drop (slot + 1) (sums k ls)).
Proof.
  induction ls as [|l ls IH]; intros slot k Hs; simpl in Hs; [lia|]. destruct slot as [|slot].
  - cbn [alter list_alter sums take drop Nat.add app]. f_equal. by rewrite Nat.add_succ_r, sums_succ.
  - change (alter S (S slot) (l :: ls)) with (l :: alter S slot ls). cbn [sums Nat.add take drop app]. f_equal. apply IH. lia.
Qed.

Lemma length_add_edge slot e (adj : adjacency) : length <$> add_edge slot e adj = alter S slot (length <$> adj).
Proof.
  unfold add_edge. revert slot. induction adj as [|l adj IH]; intros [|slot]; try done.
  - simpl. by rewrite length_app, Nat.add_1_r.
  - change (alter (λ l, l ++ [e]) (S slot) (l :: adj)) with (l :: alter (λ l, l ++ [e]) slot adj). rewrite !fmap_cons, IH. done.
Qed.

Lemma sum_list_cons n ns : sum_list (n :: ns) = (n + sum_list ns)%nat.
Proof. done. Qed.

(** The edges up to and including a slot's. *)
Definition edges_through (slot : nat) (adj : adjacency) : nat := sum_list (take (slot + 1) (length <$> adj)).

Lemma edges_through_le slot adj : (edges_through slot adj ≤ length (concat adj))%nat.
Proof.
  unfold edges_through. generalize (slot + 1)%nat. induction adj as [|l adj IH]; intros n; [by destruct n|].
  destruct n as [|n]; [simpl; lia|]. rewrite fmap_cons. cbn [take concat]. rewrite sum_list_cons, length_app. specialize (IH n). lia.
Qed.

Lemma concat_add_edge slot e (adj : adjacency) : (slot < length adj)%nat →
  concat (add_edge slot e adj) = take (edges_through slot adj) (concat adj) ++ e :: drop (edges_through slot adj) (concat adj).
Proof.
  unfold edges_through, add_edge. revert slot. induction adj as [|l adj IH]; intros slot Hs; simpl in Hs; [lia|]. destruct slot as [|slot].
  - cbn [alter list_alter concat]. rewrite fmap_cons. cbn [Nat.add take]. rewrite sum_list_cons, Nat.add_0_r, take_app_length, drop_app_length.
    by rewrite <- app_assoc.
  - change (alter (λ l, l ++ [e]) (S slot) (l :: adj)) with (l :: alter (λ l, l ++ [e]) slot adj). rewrite fmap_cons.
    cbn [concat Nat.add take]. rewrite sum_list_cons, IH by lia. by rewrite take_app_add, drop_app_add, <- app_assoc.
Qed.

Lemma csr_new_spec n types :
  (0 < n)%nat → Z.of_nat n < 2 ^ 32 → csr_new n types = Ok (csr_of types (replicate n [])).
Proof.
  intros Hn Hu. unfold csr_new. rewrite (proj2 (Nat.eqb_neq _ _)), (proj2 (Z.leb_gt _ _)) by lia. unfold csr_of. f_equal.
  assert (concat (replicate n ([] : list edge)) = []) as -> by (clear; by induction n). f_equal.
  - rewrite fmap_replicate. cbn [length]. rewrite sums_replicate, fmap_replicate. by rewrite Nat.add_1_r.
  - generalize 0%nat. clear. induction types as [|ty types IH]; intros k; [done|]. cbn [length seq]. rewrite !fmap_cons. by rewrite <- IH.
Qed.

Lemma validate_values_ok types values : Forall2 (λ v ty, matches_type v ty = true) values types → csr_validate_values types values = Ok tt.
Proof.
  intros Hm. unfold csr_validate_values. rewrite (Forall2_length _ _ _ Hm), Nat.eqb_refl. cbn [negb].
  induction Hm as [|v ty values types Hv _ IH]; [done|]. cbn [zip zip_with for_each]. rewrite Hv. exact IH.
Qed.

Lemma vec_insert_map {A B} (f : A → B) l i x : (i ≤ length l)%nat → vec_insert (f <$> l) i (f x) = Ok (f <$> take i l ++ x :: drop i l).
Proof.
  intros Hi. unfold vec_insert. rewrite length_fmap, (proj2 (Nat.leb_le _ _)) by done. by rewrite fmap_app, fmap_cons, fmap_take, fmap_drop.
Qed.

(** Pushing an edge is appending it to its slot. *)
Lemma push_edge_spec types adj slot neighbor values :
  (slot < length adj)%nat → edge_ok types (neighbor, values) → Z.of_nat (length (concat adj)) < 2 ^ 32 - 1 →
  push_edge (csr_of types adj) slot neighbor values = Ok (csr_of types (add_edge slot (neighbor, values) adj)).
Proof.
  intros Hs He Hn. unfold push_edge. rewrite csr_of_rows, (proj2 (Nat.leb_gt _ _)) by done. cbn [csr_of csr_types].
  rewrite validate_values_ok by done. unfold csr_of. cbn [bind neighbors csr_columns csr_types offsets]. unfold zlen. rewrite length_fmap, (proj2 (Z.leb_gt _ _)) by lia.
  unfold index. rewrite list_lookup_fmap, sums_lookup by (rewrite length_fmap; lia). cbn [fmap option_fmap option_map expect bind].
  rewrite Nat.add_0_l, Nat2Z.id. fold (edges_through slot adj). pose proof (edges_through_le slot adj) as Hle.
  rewrite (vec_insert_map fst (concat adj) _ (neighbor, values)) by done. cbn [bind]. rewrite <- concat_add_edge by done.
  assert (collect (λ '(column, value), vec_insert column (edges_through slot adj) value)
    (zip ((λ i, column_of i (concat adj)) <$> seq 0 (length types)) values) =
    Ok ((λ i, column_of i (concat (add_edge slot (neighbor, values) adj))) <$> seq 0 (length types))) as ->.
  { apply collect_Ok. pose proof (Forall2_length _ _ _ He) as Hl. simpl in Hl. apply Forall2_same_length_lookup_2.
    { rewrite length_zip_with, !length_fmap, length_seq. lia. }
    intros i [col v] col' Hz Hc. apply lookup_zip_Some in Hz as [Hcol Hv]. simpl in *.
    apply list_lookup_fmap_Some in Hcol as (j & -> & [-> _]%lookup_seq). apply list_lookup_fmap_Some in Hc as (j & -> & [-> _]%lookup_seq). simpl.
    rewrite concat_add_edge by done. unfold column_of. rewrite <- (vec_insert_map _ (concat adj) _ (neighbor, values)) by done. simpl. by rewrite Hv. }
  cbn [bind]. do 2 f_equal. rewrite length_add_edge, sums_alter by (by rewrite length_fmap).
  assert (∀ l : list nat, Z.add 1 <$> (Z.of_nat <$> l) = Z.of_nat <$> (S <$> l)) as Hz.
  { induction l as [|x l IH]; [done|]. rewrite !fmap_cons, IH. f_equal. lia. }
  by rewrite <- fmap_take, <- fmap_drop, Hz, fmap_app.
Qed.

(** ** Reading a slot *)

Lemma concat_slot (adj : adjacency) slot l : adj !! slot = Some l →
  concat adj = take (sum_list (take slot (length <$> adj))) (concat adj) ++ l ++ drop (edges_through slot adj) (concat adj) ∧
  edges_through slot adj = (sum_list (take slot (length <$> adj)) + length l)%nat.
Proof.
  unfold edges_through. revert slot. induction adj as [|l0 adj IH]; intros [|slot] Hl; try done.
  - injection Hl as ->. rewrite fmap_cons. cbn [take Nat.add concat]. rewrite sum_list_cons. simpl sum_list. rewrite Nat.add_0_r, drop_app_length. done.
  - rewrite fmap_cons. cbn [take Nat.add concat]. rewrite !sum_list_cons. destruct (IH slot Hl) as [H1 H2]. rewrite H2.
    rewrite take_app_add, <- Nat.add_assoc, drop_app_add. rewrite <- H2. split; [|lia]. rewrite <- app_assoc. by f_equal.
Qed.

Lemma edge_range_spec types adj slot l : adj !! slot = Some l →
  edge_range (csr_of types adj) slot = Some (sum_list (take slot (length <$> adj)), edges_through slot adj).
Proof.
  intros Hl. apply lookup_lt_Some in Hl. unfold edge_range, csr_of. cbn [offsets].
  rewrite !list_lookup_fmap, !sums_lookup by (rewrite length_fmap; lia). cbn. by rewrite !Nat2Z.id.
Qed.

Lemma edge_range_none types adj slot : (length adj ≤ slot)%nat → edge_range (csr_of types adj) slot = None.
Proof.
  intros Hs. unfold edge_range, csr_of. cbn [offsets]. rewrite !list_lookup_fmap. destruct (sums 0 (length <$> adj) !! slot); [|done]. cbn.
  rewrite (lookup_ge_None_2 (sums 0 _)); [done|]. rewrite length_sums, length_fmap. lia.
Qed.

Lemma csr_edge_spec types adj i e : Forall (edge_ok types) (concat adj) → concat adj !! i = Some e →
  csr_neighbor (csr_of types adj) i = Ok e.1 ∧ csr_values (csr_of types adj) i = Ok e.2.
Proof.
  intros Hok Hi. unfold csr_neighbor, csr_values, csr_value, csr_column_count, csr_of. cbn [neighbors csr_columns].
  rewrite list_lookup_fmap, Hi. split; [done|]. rewrite length_fmap, length_seq.
  assert (edge_ok types e) as He by (rewrite Forall_forall in Hok; apply Hok; by eapply list_elem_of_lookup_2).
  pose proof (Forall2_length _ _ _ He) as Hl. apply collect_Ok, Forall2_same_length_lookup_2; [by rewrite length_seq|].
  intros j j' v [-> Hj]%lookup_seq Hv. simpl. rewrite list_lookup_fmap, lookup_seq_lt by lia. cbn. unfold column_of.
  rewrite list_lookup_fmap, Hi. cbn. by rewrite Hv.
Qed.

(** The edge indices of a slot. *)
Lemma slot_indices adj slot l : adj !! slot = Some l →
  Forall2 (λ i e, concat adj !! i = Some e)
    (seq (sum_list (take slot (length <$> adj))) (edges_through slot adj - sum_list (take slot (length <$> adj)))) l.
Proof.
  intros Hl. destruct (concat_slot adj slot l Hl) as [Hc He]. rewrite He, (Nat.add_comm _ (length l)), Nat.add_sub.
  apply Forall2_same_length_lookup_2; [by rewrite length_seq|].
  intros i j e [-> Hi]%lookup_seq He'. pose proof (edges_through_le slot adj) as Hle.
  rewrite Hc. rewrite lookup_app_r by (rewrite length_take; lia). rewrite length_take, Nat.min_l by lia.
  rewrite Nat.add_comm, Nat.add_sub. by apply lookup_app_l_Some.
Qed.

(** A loop over the edges of a slot. *)
Lemma for_slot_indices {S} adj slot l (s : S) F G : adj !! slot = Some l → (∀ s i e, concat adj !! i = Some e → F s i = G s e) →
  for_each (seq (sum_list (take slot (length <$> adj))) (edges_through slot adj - sum_list (take slot (length <$> adj)))) s F = for_each l s G.
Proof.
  intros Hl HFG. pose proof (slot_indices adj slot l Hl) as Hs. clear Hl. revert s. induction Hs as [|i e idx l' Hi _ IH]; intros s; [done|].
  cbn [for_each]. rewrite (HFG s i e Hi). apply bind_ext. intros s'. apply IH.
Qed.

Lemma for_slot_edges {S} types adj slot l (s : S) body : Forall (edge_ok types) (concat adj) → adj !! slot = Some l →
  for_each (seq (sum_list (take slot (length <$> adj))) (edges_through slot adj - sum_list (take slot (length <$> adj)))) s
    (λ s i, let! n := csr_neighbor (csr_of types adj) i in let! vs := csr_values (csr_of types adj) i in body s n vs) =
  for_each l s (λ s e, body s e.1 e.2).
Proof.
  intros Hok Hl. apply for_slot_indices; [done|]. intros s' i e Hi. by destruct (csr_edge_spec types adj i e Hok Hi) as [-> ->].
Qed.

(** ** Adding many edges *)

Definition add_edges (adj : adjacency) (xs : list (nat * edge)) : adjacency := foldl (λ a x, add_edge x.1 x.2 a) adj xs.

(** The edges meant for one slot. *)
Definition at_slot (slot : nat) (xs : list (nat * edge)) : list edge := omap (λ x, if decide (x.1 = slot) then Some x.2 else None) xs.

Lemma length_add_edges xs : ∀ adj, length (add_edges adj xs) = length adj.
Proof. induction xs as [|x xs IH]; intros adj; [done|]. cbn [add_edges foldl]. fold (add_edges (add_edge x.1 x.2 adj) xs). rewrite IH. apply length_alter. Qed.

Lemma add_edges_lookup xs slot : ∀ adj l, adj !! slot = Some l → add_edges adj xs !! slot = Some (l ++ at_slot slot xs).
Proof.
  induction xs as [|[s e] xs IH]; intros adj l Hl; [by rewrite app_nil_r|]. cbn [add_edges foldl fst snd at_slot omap list_omap].
  fold (add_edges (add_edge s e adj) xs) (at_slot slot xs). destruct (decide (s = slot)) as [->|Hne].
  - rewrite (IH _ (l ++ [e])); [by rewrite <- app_assoc|]. unfold add_edge. by rewrite list_lookup_alter_eq, Hl.
  - apply IH. unfold add_edge. by rewrite list_lookup_alter_ne.
Qed.

Lemma length_concat_add slot e (adj : adjacency) : (slot < length adj)%nat → length (concat (add_edge slot e adj)) = S (length (concat adj)).
Proof. intros Hs. rewrite concat_add_edge by done. rewrite length_app, length_take. simpl. rewrite length_drop. pose proof (edges_through_le slot adj). lia. Qed.

Lemma add_edge_outside slot e (adj : adjacency) : (length adj ≤ slot)%nat → add_edge slot e adj = adj.
Proof.
  unfold add_edge. revert slot. induction adj as [|l adj IH]; intros [|slot] Hs; simpl in Hs; try done; [lia|].
  change (l :: alter (λ l, l ++ [e]) slot adj = l :: adj). by rewrite IH by lia.
Qed.

Lemma add_edge_all P slot e (adj : adjacency) : Forall P (concat adj) → P e → Forall P (concat (add_edge slot e adj)).
Proof.
  intros Ha He. destruct (decide (slot < length adj)%nat) as [Hs|Hs].
  - rewrite concat_add_edge by done. rewrite <- (take_drop (edges_through slot adj) (concat adj)) in Ha. apply Forall_app in Ha as [? ?].
    apply Forall_app. split; [done|]. by constructor.
  - rewrite add_edge_outside by lia. done.
Qed.

Lemma push_all_spec types xs : ∀ adj,
  Forall (λ x, (x.1 < length adj)%nat ∧ edge_ok types x.2) xs → Z.of_nat (length (concat adj) + length xs) < 2 ^ 32 →
  for_each xs (csr_of types adj) (λ g x, push_edge g x.1 x.2.1 x.2.2) = Ok (csr_of types (add_edges adj xs)).
Proof.
  induction xs as [|[s [n vs]] xs IH]; intros adj Hx Hn; [done|]. apply Forall_cons in Hx as [[Hs He] Hx]. cbn [for_each fst snd].
  simpl in Hn. rewrite push_edge_spec by (done || lia). cbn [bind]. rewrite IH; [done| |].
  - eapply Forall_impl; [exact Hx|]. intros x [? ?]. split; [|done]. unfold add_edge. by rewrite length_alter.
  - rewrite length_concat_add by done. lia.
Qed.

(** The edges of an adjacency with their slots, slot by slot. *)
Definition slotted (k : nat) (adj : adjacency) : list (nat * edge) := enumerate_from k adj ≫= λ '(s, l), (λ e, (s, e)) <$> l.

Lemma slotted_cons k l adj : slotted k (l :: adj) = ((λ e, (k, e)) <$> l) ++ slotted (S k) adj.
Proof. unfold slotted. by rewrite enumerate_from_cons. Qed.

Lemma at_slot_app slot xs ys : at_slot slot (xs ++ ys) = at_slot slot xs ++ at_slot slot ys.
Proof. unfold at_slot. apply omap_app. Qed.

Lemma at_slot_same slot (l : list edge) : at_slot slot ((λ e, (slot, e)) <$> l) = l.
Proof. induction l as [|e l IH]; [done|]. unfold at_slot in *. cbn. rewrite decide_True by done. by rewrite IH. Qed.

Lemma at_slot_other slot s (l : list edge) : s ≠ slot → at_slot slot ((λ e, (s, e)) <$> l) = [].
Proof. intros Hne. induction l as [|e l IH]; [done|]. unfold at_slot in *. cbn. rewrite decide_False by done. apply IH. Qed.

Lemma at_slot_slotted adj : ∀ k slot, (k ≤ slot)%nat → at_slot slot (slotted k adj) = default [] (adj !! (slot - k)%nat).
Proof.
  induction adj as [|l adj IH]; intros k slot Hk; [done|]. rewrite slotted_cons, at_slot_app. destruct (decide (k = slot)) as [->|Hne].
  - rewrite at_slot_same, Nat.sub_diag. simpl. assert (∀ j, (slot < j)%nat → at_slot slot (slotted j adj) = []) as Hnil.
    { clear. induction adj as [|l adj IH]; intros j Hj; [done|]. rewrite slotted_cons, at_slot_app, at_slot_other, IH by lia. done. }
    rewrite Hnil by lia. apply app_nil_r.
  - rewrite at_slot_other by done. rewrite IH by lia. simpl. by replace (slot - k)%nat with (S (slot - S k)) by lia.
Qed.

Lemma length_slotted adj : ∀ k, length (slotted k adj) = length (concat adj).
Proof. induction adj as [|l adj IH]; intros k; [done|]. rewrite slotted_cons. cbn [concat]. by rewrite !length_app, length_fmap, IH. Qed.

Lemma slotted_all types adj k : Forall (edge_ok types) (concat adj) → Forall (λ x, (k ≤ x.1 < k + length adj)%nat ∧ edge_ok types x.2) (slotted k adj).
Proof.
  revert k. induction adj as [|l adj IH]; intros k Ha; [constructor|]. cbn [concat] in Ha. apply Forall_app in Ha as [Hl Ha].
  rewrite slotted_cons. apply Forall_app. split.
  - apply Forall_fmap. eapply Forall_impl; [exact Hl|]. intros e He. simpl. split; [lia|done].
  - eapply Forall_impl; [apply IH, Ha|]. intros x [? ?]. simpl. split; [lia|done].
Qed.

Lemma for_each_app_list {A B S} (f : A → list B) (xs : list A) body : ∀ s : S,
  for_each xs s (λ s a, for_each (f a) s body) = for_each (xs ≫= f) s body.
Proof. induction xs as [|x xs IH]; intros s; [done|]. cbn [for_each mbind list_bind]. rewrite for_each_app. apply bind_ext. intros s'. apply IH. Qed.

(** Walking a whole group, slot by slot. *)
Lemma for_group_edges {S} types adj (s : S) body : Forall (edge_ok types) (concat adj) →
  for_each (seq 0 (csr_row_count (csr_of types adj))) s (λ s slot,
    let! (start, end_) := ok_or (edge_range (csr_of types adj) slot) missing_slot in
    for_each (seq start (end_ - start)) s (λ s i,
      let! n := csr_neighbor (csr_of types adj) i in let! vs := csr_values (csr_of types adj) i in body s slot n vs)) =
  for_each (slotted 0 adj) s (λ s x, body s x.1 x.2.1 x.2.2).
Proof.
  intros Hok. rewrite csr_of_rows. unfold slotted.
  assert (∀ k n (s : S), (k + n ≤ length adj)%nat → for_each (seq k n) s (λ s slot,
    let! (start, end_) := ok_or (edge_range (csr_of types adj) slot) missing_slot in
    for_each (seq start (end_ - start)) s (λ s i,
      let! n := csr_neighbor (csr_of types adj) i in let! vs := csr_values (csr_of types adj) i in body s slot n vs)) =
    for_each (enumerate_from k (take n (drop k adj)) ≫= λ '(s, l), (λ e, (s, e)) <$> l) s (λ s x, body s x.1 x.2.1 x.2.2)) as Hloop.
  { intros k n. revert k. induction n as [|n IH]; intros k s0 Hk; [done|]. cbn [seq for_each].
    destruct (lookup_lt_is_Some_2 adj k) as [l Hl]; [lia|]. rewrite (drop_S adj l k Hl). cbn [take]. rewrite enumerate_from_cons.
    cbn [mbind list_bind]. rewrite for_each_app, (edge_range_spec types adj k l Hl). cbn [ok_or bind].
    rewrite (for_slot_edges types adj k l s0 (λ s n vs, body s k n vs)) by done.
    assert (∀ l' (s1 : S), for_each ((λ e, (k, e)) <$> l') s1 (λ s x, body s x.1 x.2.1 x.2.2) = for_each l' s1 (λ s e, body s k e.1 e.2)) as Hm.
    { induction l' as [|e l' IHl]; intros s1; [done|]. cbn [fmap list_fmap for_each fst snd]. apply bind_ext. intros s2. apply IHl. }
    rewrite <- Hm. apply bind_ext. intros s1. apply IH. lia. }
  rewrite (Hloop 0%nat (length adj) s) by lia. by rewrite drop_0, firstn_all.
Qed.

Lemma copy_existing_spec types adj n :
  Forall (edge_ok types) (concat adj) → (length adj ≤ n)%nat → Z.of_nat (length (concat adj)) < 2 ^ 32 →
  copy_existing_edges (csr_of types adj) (csr_of types (replicate n [])) = Ok (csr_of types (add_edges (replicate n []) (slotted 0 adj))).
Proof.
  intros Hok Hn Hlt. unfold copy_existing_edges. rewrite (for_group_edges types adj _ (λ d slot n vs, push_edge d slot n vs) Hok).
  apply push_all_spec.
  - eapply Forall_impl; [apply slotted_all, Hok|]. intros x [? ?]. rewrite length_replicate. split; [lia|done].
  - rewrite length_slotted. assert (concat (replicate n ([] : list edge)) = []) as -> by (clear; by induction n). simpl. lia.
Qed.

(** Keeping, changing or dropping edges while pushing them. *)
Lemma length_concat_adds xs : ∀ adj : adjacency, Forall (λ x, (x.1 < length adj)%nat) xs →
  length (concat (add_edges adj xs)) = (length (concat adj) + length xs)%nat.
Proof.
  induction xs as [|x xs IH]; intros adj Hx; [simpl; lia|]. apply Forall_cons in Hx as [Hs Hx]. cbn [add_edges foldl].
  fold (add_edges (add_edge x.1 x.2 adj) xs). rewrite IH; [|by unfold add_edge; rewrite length_alter].
  rewrite length_concat_add by done. simpl. lia.
Qed.

Lemma add_edges_app adj xs ys : add_edges adj (xs ++ ys) = add_edges (add_edges adj xs) ys.
Proof. unfold add_edges. by rewrite foldl_app. Qed.

Lemma push_omap {A} types (f : A → option (nat * edge)) xs : ∀ adj,
  Forall (λ x, (x.1 < length adj)%nat ∧ edge_ok types x.2) (omap f xs) → Z.of_nat (length (concat adj) + length (omap f xs)) < 2 ^ 32 →
  for_each xs (csr_of types adj) (λ g x, match f x with Some (s, e) => push_edge g s e.1 e.2 | None => Ok g end) =
    Ok (csr_of types (add_edges adj (omap f xs))).
Proof.
  induction xs as [|x xs IH]; intros adj Hx Hn; [done|]. cbn [omap list_omap for_each] in *. destruct (f x) as [[s [n vs]]|]; [|by apply IH].
  apply Forall_cons in Hx as [[Hs He] Hx]. simpl in Hs, He. rewrite push_edge_spec; [|done|done|simpl in Hn; lia]. cbn [bind fst snd].
  rewrite IH; [done| |].
  - unfold add_edge. by rewrite length_alter.
  - rewrite length_concat_add by done. simpl in Hn. cbn [omap list_omap] in *. lia.
Qed.

(** The edges reaching a slot through a renumbering of slots. *)
Lemma at_slot_omap {A} (T : nat * A → option (nat * edge)) (E : A → option edge) s t0 (xs : list (nat * A)) :
  Forall (λ x, (y ← T x; if decide (y.1 = s) then Some y.2 else None) = (if decide (x.1 = t0) then E x.2 else None)) xs →
  at_slot s (omap T xs) = omap E (omap (λ x, if decide (x.1 = t0) then Some x.2 else None) xs).
Proof.
  induction 1 as [|x xs Hx _ IH]; [done|]. unfold at_slot in *. cbn [omap list_omap]. destruct (T x) as [[s' e]|]; simpl in Hx.
  - cbn [omap list_omap fst snd]. destruct (decide (s' = s)), (decide (x.1 = t0)); cbn [omap list_omap]; rewrite <- ?Hx, ?IH; congruence.
  - rewrite IH. destruct (decide (x.1 = t0)); [|done]. cbn [omap list_omap]. by rewrite <- Hx.
Qed.

Lemma at_slot_none {A} (T : A → option (nat * edge)) s (xs : list A) : Forall (λ x, ∀ e, T x ≠ Some (s, e)) xs → at_slot s (omap T xs) = [].
Proof.
  induction 1 as [|x xs Hx _ IH]; [done|]. unfold at_slot in *. cbn [omap list_omap]. destruct (T x) as [[s' e]|] eqn:E; [|done].
  cbn [omap list_omap fst snd]. rewrite decide_False; [done|]. intros ->. by eapply Hx.
Qed.
