(* ===== verification/CsrCodec.v ===== *)
(** The bytes of a CSR group, [devondb-storage/src/csr_group.rs]: the offsets,
    neighbors and property arrays as payloads, with their validity bitmaps.
    The directory page that names them is in [CsrPages.v]. *)

From S2P Require Import Prelude Bytes Types Codec Csr.

(** ** Bitmaps *)

Definition bitmap_bytes (row_count : nat) : nat := div_ceil row_count 8.

Definition set_bit (bitmap : list Z) (row : nat) : outcome (list Z) :=
  let! b := index bitmap (row / 8) in
  Ok (<[(row / 8)%nat := Z.lor b (Z.shiftl 1 (Z.of_nat (row mod 8)))]> bitmap).

Definition bit_is_set (bitmap : list Z) (row : nat) : outcome bool :=
  let! b := index bitmap (row / 8) in Ok (negb (Z.land b (Z.shiftl 1 (Z.of_nat (row mod 8))) =? 0)).

Definition validate_bitmap_padding (bitmap : list Z) (row_count : nat) : outcome () :=
  let used_bits := (row_count mod 8)%nat in
  if (used_bits =? 0)%nat then Ok tt else
  let used_mask := Z.shiftl 1 (Z.of_nat used_bits) - 1 in
  match last bitmap with
  | Some byte => if negb (Z.land byte (255 - used_mask) =? 0)
      then Err (Corrupt "property column {index} {name} bitmap trailing bits are not zero") else Ok tt
  | None => Ok tt
  end.

(** ** Encoding a column *)

Definition invalid_stored_value : DevonError := InvalidArgument "property column {column} edge {row} has invalid stored value {value}".
Definition is_null (v : Value) : bool := match v with Null => true | _ => false end.

Definition encode_validity (column : list Value) : outcome (list Z) :=
  for_each (enumerate column) (replicate (bitmap_bytes (length column)) 0) (λ validity '(row, value),
    if is_null value then Ok validity else set_bit validity row).

Definition encode_bools (column : list Value) (payload : list Z) : outcome (list Z) :=
  let! values := for_each (enumerate column) (replicate (bitmap_bytes (length column)) 0) (λ values '(row, value),
    match value with
    | Null | Bool false => Ok values
    | Bool true => set_bit values row
    | _ => Err invalid_stored_value
    end) in
  Ok (payload ++ values).

Definition encode_int64s (column : list Value) (payload : list Z) : outcome (list Z) :=
  for_each column payload (λ payload value,
    match value with
    | Null => Ok (payload ++ replicate 8 0)
    | Int64 value => Ok (payload ++ to_le 8 value)
    | _ => Err invalid_stored_value
    end).

Definition encode_float64s (column : list Value) (payload : list Z) : outcome (list Z) :=
  for_each column payload (λ payload value,
    match value with
    | Null => Ok (payload ++ replicate 8 0)
    | Float64 bits => Ok (payload ++ to_le 8 bits)
    | _ => Err invalid_stored_value
    end).

Definition encode_vectors (column : list Value) (dim : Z) (payload : list Z) : outcome (list Z) :=
  let! slot_len := ok_or (try_u 64 (dim * 4)) (InvalidArgument "vector slot length overflows usize") in
  for_each column payload (λ payload value,
    match value with
    | Null => Ok (payload ++ replicate (Z.to_nat slot_len) 0)
    | Vector vector => if zlen vector =? dim then Ok (payload ++ concat (to_le 4 <$> vector)) else Err invalid_stored_value
    | _ => Err invalid_stored_value
    end).

Definition encode_strings (column : list Value) (payload : list Z) : outcome (list Z) :=
  let offsets_start := length payload in
  let offsets_len := ((length column + 1) * 4)%nat in
  let! (payload, _) := for_each (enumerate column) (payload ++ replicate offsets_len 0, 0) (λ '(payload, heap_len) '(row, value),
    let! (payload, heap_len) :=
      match value with
      | String text =>
          let! value_len := ok_or (try_u 32 (zlen text)) (InvalidArgument "string value length exceeds u32") in
          let! heap_len := ok_or (try_u 32 (heap_len + value_len)) (InvalidArgument "string heap length exceeds u32") in
          Ok (payload ++ text, heap_len)
      | Null => Ok (payload, heap_len)
      | _ => Err invalid_stored_value
      end in
    let offset := (offsets_start + (row + 1) * 4)%nat in
    let! payload := copy_at payload offset (offset + 4) (to_le 4 heap_len) in
    Ok (payload, heap_len)) in
  Ok payload.

Definition encode_column (column : list Value) (logical_type : LogicalType) : outcome (list Z) :=
  let! payload := encode_validity column in
  let! payload :=
    match logical_type with
    | TBool => encode_bools column payload
    | TInt64 => encode_int64s column payload
    | TFloat64 => encode_float64s column payload
    | TString => encode_strings column payload
    | TVector dim => encode_vectors column dim payload
    | TVectorEncoded _ _ => Err (InvalidArgument "relationship property column {column_index} has type {logical_type}; VectorEncoded relationship properties are not supported")
    | TGeoPoint => Err (InvalidArgument "relationship property column {column_index} has type GeoPoint; GeoPoint relationship properties are not supported")
    | TTimestamp | TBytes | TDecimal _ _ | TJson => Err (InvalidArgument "relationship property column {column_index} has type {logical_type}; the scalar-v2 storage codec is staged")
    end in
  if 2 ^ 32 - 1 <? zlen payload then Err (InvalidArgument "property column {column_index} payload length exceeds u32") else Ok payload.

(** ** Decoding a column *)

Definition decode_fixed_slots (validity values : list Z) (row_count slot_len : nat) (decode : list Z → Value) : outcome (list Value) :=
  collect (λ row,
    let! slot := slice values (row * slot_len) (row * slot_len + slot_len) in
    let! valid := bit_is_set validity row in
    if valid then Ok (decode slot) else
    if existsb (λ byte, negb (byte =? 0)) slot then Err (Corrupt "property column {index} row {row} null value slot is not zero") else Ok Null)
    (seq 0 row_count).

Definition decode_bools (validity values : list Z) (row_count : nat) : outcome (list Value) :=
  let! _ := validate_bitmap_padding values row_count in
  collect (λ row,
    let! valid := bit_is_set validity row in
    let! value := bit_is_set values row in
    if valid then Ok (Bool value) else
    if value then Err (Corrupt "property column {index} row {row} null Bool slot is not zero") else Ok Null) (seq 0 row_count).

(** [as_chunks::<N>().0]: whole chunks of [n] bytes. *)
Fixpoint chunks (fuel n : nat) (bs : list Z) : list (list Z) :=
  match fuel with
  | O => []
  | S fuel => if (length bs <? n)%nat then [] else take n bs :: chunks fuel n (drop n bs)
  end.
Definition as_chunks (n : nat) (bs : list Z) : list (list Z) := chunks (length bs) n bs.

Definition decode_vectors (validity values : list Z) (row_count : nat) (dim : Z) : outcome (list Value) :=
  let! slot_len := ok_or (try_u 64 (dim * 4)) (Corrupt "property column {index} vector slot length overflows") in
  decode_fixed_slots validity values row_count (Z.to_nat slot_len) (λ slot, Vector (from_le <$> as_chunks 4 slot)).

Definition validate_string_offsets (offsets : list Z) (heap_len : nat) : outcome () :=
  if negb (bool_decide (head offsets = Some 0)) then Err (Corrupt "property column {index} string offsets do not start at zero") else
  if negb (monotonic offsets) then Err (Corrupt "property column {index} string offsets are not monotonic") else
  if negb (bool_decide (last offsets = Some (Z.of_nat heap_len)))
  then Err (Corrupt "property column {index} final string offset does not equal heap length {heap_len}") else Ok tt.

Definition decode_strings (validity values : list Z) (row_count : nat) : outcome (list Value) :=
  let offsets_len := ((row_count + 1) * 4)%nat in
  let! offset_bytes := slice values 0 offsets_len in
  let offsets := from_le <$> as_chunks 4 offset_bytes in
  let! heap := slice values offsets_len (length values) in
  let! _ := validate_string_offsets offsets (length heap) in
  collect (λ row,
    let! start := index offsets row in
    let! end_ := index offsets (row + 1) in
    let! valid := bit_is_set validity row in
    if valid then
      let! bs := slice heap (Z.to_nat start) (Z.to_nat end_) in
      let! text := from_utf8 bs (Corrupt "property column {index} row {row} string is not valid UTF-8: {error}") in Ok (String text)
    else if start =? end_ then Ok Null else Err (Corrupt "property column {index} row {row} null String slot is not zero length"))
    (seq 0 row_count).

Definition decode_column (payload : list Z) (row_count : nat) (logical_type : LogicalType) : outcome (list Value) :=
  let validity_len := bitmap_bytes row_count in
  let! validity := slice payload 0 validity_len in
  let! _ := validate_bitmap_padding validity row_count in
  let! values := slice payload validity_len (length payload) in
  match logical_type with
  | TBool => decode_bools validity values row_count
  | TInt64 => decode_fixed_slots validity values row_count 8 (λ slot, Int64 (from_le_signed 64 slot))
  | TFloat64 => decode_fixed_slots validity values row_count 8 (λ slot, Float64 (from_le slot))
  | TString => decode_strings validity values row_count
  | TVector dim => decode_vectors validity values row_count dim
  | TVectorEncoded _ _ => Err (Corrupt "column {column_index} has type {logical_type}, but no writer can persist VectorEncoded payloads yet")
  | TGeoPoint => Err (Corrupt "column {column_index} has type GeoPoint, which has no persisted layout")
  | TTimestamp | TBytes | TDecimal _ _ | TJson => Err (Corrupt "column {column_index} has type {logical_type}, which has no persisted layout (scalar-v2 is staged)")
  end.

(** ** Offsets and neighbors *)

Definition encode_offsets (offsets : list Z) : list Z := concat (to_le 4 <$> offsets).
Definition encode_neighbors (neighbors : list Z) : list Z := concat (to_le 8 <$> neighbors).

Definition decode_offsets (payload : list Z) (row_count edge_count : nat) : outcome (list Z) :=
  let offsets := from_le <$> as_chunks 4 payload in
  if negb (length offsets =? row_count + 1)%nat then Err (Corrupt "CSR offsets array has the wrong element count") else
  if negb (bool_decide (head offsets = Some 0)) then Err (Corrupt "CSR offsets do not start at zero") else
  if negb (monotonic offsets) then Err (Corrupt "CSR offsets are not monotonic") else
  if negb (bool_decide (last offsets = Some (Z.of_nat edge_count))) then Err (Corrupt "CSR final offset does not equal edge_count {edge_count}") else
  Ok offsets.

Definition decode_neighbors (payload : list Z) (row_count : option Z) : outcome (list Z) :=
  let neighbors := from_le <$> as_chunks 8 payload in
  match row_count with
  | Some row_count => if existsb (λ neighbor, row_count <=? neighbor) neighbors
      then Err (Corrupt "CSR neighbor {index} offset {neighbor} is outside endpoint row count {row_count}") else Ok neighbors
  | None => Ok neighbors
  end.

(** ** Bitmaps read back *)

Definition bit (bitmap : list Z) (row : nat) : bool :=
  match bitmap !! (row / 8)%nat with Some b => Z.testbit b (Z.of_nat (row mod 8)) | None => false end.

Lemma bit_is_set_ok bitmap row : (row < 8 * length bitmap)%nat → bit_is_set bitmap row = Ok (bit bitmap row).
Proof.
  intros Hr. unfold bit_is_set, bit, index. destruct (lookup_lt_is_Some_2 bitmap (row / 8)) as [b Hb]; [apply Nat.Div0.div_lt_upper_bound; lia|].
  rewrite Hb. cbn [expect bind]. f_equal. set (j := Z.of_nat (row mod 8)). assert (0 ≤ j) by lia. rewrite Z.shiftl_1_l.
  destruct (Z.testbit b j) eqn:Ht.
  - apply negb_true_iff, Z.eqb_neq. intros E. pose proof (f_equal (λ z, Z.testbit z j) E) as Ej. simpl in Ej.
    by rewrite Z.land_spec, Z.pow2_bits_true, Ht, Z.bits_0 in Ej by done.
  - apply negb_false_iff, Z.eqb_eq. apply Z.bits_inj'. intros k Hk. rewrite Z.land_spec, Z.bits_0.
    destruct (decide (k = j)) as [->|Hne]; [by rewrite Ht|]. by rewrite Z.pow2_bits_false, andb_false_r.
Qed.

Lemma testbit_byte b j : in_u 8 b → 8 ≤ j → Z.testbit b j = false.
Proof.
  intros [H0 H1] Hj. destruct (decide (b = 0)) as [->|]; [apply Z.bits_0|]. apply Z.bits_above_log2; [done|].
  apply Z.lt_le_trans with 8; [|done]. by apply Z.log2_lt_pow2; [lia|].
Qed.

Lemma byte_lor b j : in_u 8 b → 0 ≤ j < 8 → in_u 8 (Z.lor b (2 ^ j)).
Proof.
  intros Hb Hj. assert (0 ≤ Z.lor b (2 ^ j)) as Hpos by (apply Z.lor_nonneg; split; [apply Hb|apply Z.pow_nonneg; lia]). split; [done|].
  destruct (decide (Z.lor b (2 ^ j) = 0)) as [->|Hne]; [done|]. apply Z.log2_lt_pow2; [lia|]. rewrite Z.log2_lor by (apply Hb || apply Z.pow_nonneg; lia).
  rewrite Z.log2_pow2 by lia. apply Z.max_lub_lt; [|lia]. destruct (decide (b = 0)) as [->|]; [done|]. apply Z.log2_lt_pow2; [destruct Hb; lia|apply Hb].
Qed.

Lemma set_bit_ok bitmap row : (row < 8 * length bitmap)%nat → is_bytes bitmap →
  ∃ bitmap', set_bit bitmap row = Ok bitmap' ∧ length bitmap' = length bitmap ∧ is_bytes bitmap' ∧
    ∀ r, bit bitmap' r = (if decide (r = row) then true else bit bitmap r).
Proof.
  intros Hr Hb. unfold set_bit, index. destruct (lookup_lt_is_Some_2 bitmap (row / 8)) as [b Hlb]; [apply Nat.Div0.div_lt_upper_bound; lia|].
  rewrite Hlb. cbn [expect bind]. rewrite Z.shiftl_1_l. assert (0 ≤ Z.of_nat (row mod 8) < 8) as Hj by (pose proof (Nat.mod_upper_bound row 8 ltac:(done)); lia).
  eexists. split; [done|]. split; [apply length_insert|]. split.
  { apply Forall_insert; [done|]. apply byte_lor; [|done]. by eapply Forall_lookup_1. }
  intros r. unfold bit. destruct (decide (r / 8 = row / 8)%nat) as [E|E].
  - rewrite E, list_lookup_insert_eq, Hlb by (by apply lookup_lt_Some in Hlb). rewrite Z.lor_spec.
    destruct (decide (r = row)) as [->|Hne]; [by rewrite Z.pow2_bits_true, orb_true_r by lia|].
    rewrite Z.pow2_bits_false, orb_false_r; [done|]. intros Hm. apply Hne. rewrite (Nat.div_mod_eq r 8), (Nat.div_mod_eq row 8). lia.
  - rewrite list_lookup_insert_ne by done. rewrite decide_False; [done|]. congruence.
Qed.

(** Setting the bits of the rows that satisfy [f], by a loop over the rows. *)
Lemma bits_loop (f : Value → bool) (check : Value → Prop) body column : ∀ k bitmap,
  (∀ bm r v, v ∈ column → check v → body bm (r, v) = if f v then set_bit bm r else Ok bm) → Forall check column →
  (k + length column ≤ 8 * length bitmap)%nat → is_bytes bitmap → 
  ∃ bitmap', for_each (enumerate_from k column) bitmap body = Ok bitmap' ∧ length bitmap' = length bitmap ∧ is_bytes bitmap' ∧
    ∀ r, bit bitmap' r = if decide (k ≤ r)%nat then match column !! (r - k)%nat with Some v => f v || bit bitmap r | None => bit bitmap r end else bit bitmap r.
Proof.
  induction column as [|v column IH]; intros k bitmap Hbody Hc Hl Hb.
  { exists bitmap. split; [done|]. split; [done|]. split; [done|]. intros r. destruct (decide _); [|done]. by rewrite lookup_nil. }
  apply Forall_cons in Hc as [Hv Hc]. simpl in Hl. rewrite enumerate_from_cons. cbn [for_each]. rewrite Hbody; [|by constructor|done].
  assert (∃ bm', (if f v then set_bit bitmap k else Ok bitmap) = Ok bm' ∧ length bm' = length bitmap ∧ is_bytes bm' ∧
    ∀ r, bit bm' r = (if decide (r = k) then f v || bit bitmap r else bit bitmap r)) as (bm' & -> & Hl' & Hb' & Hbit).
  { destruct (f v).
    - destruct (set_bit_ok bitmap k) as (bm' & -> & H1 & H2 & H3); [lia|done|]. exists bm'. split_and!; done.
    - exists bitmap. split_and!; [done|done|done|]. intros r. by destruct (decide _). }
  cbn [bind]. destruct (IH (S k) bm') as (bm2 & -> & Hl2 & Hb2 & Hbit2); [|done|lia|done|].
  { intros bm r w Hw. apply Hbody. by constructor. }
  exists bm2. split; [done|]. split; [lia|]. split; [done|]. intros r. rewrite Hbit2. destruct (decide (S k ≤ r)%nat).
  - rewrite decide_True by lia. replace (r - k)%nat with (S (r - S k)) by lia. simpl. rewrite Hbit, decide_False by lia. done.
  - rewrite Hbit. destruct (decide (r = k)) as [->|].
    + rewrite decide_True by lia. by rewrite Nat.sub_diag.
    + by rewrite decide_False by lia.
Qed.

Lemma bit_zeros n r : bit (replicate n 0) r = false.
Proof. unfold bit. destruct (replicate n 0 !! _) as [b|] eqn:E; [|done]. apply lookup_replicate in E as [-> _]. apply Z.bits_0. Qed.

Lemma bitmap_bytes_bound n : (n ≤ 8 * bitmap_bytes n)%nat ∧ (8 * bitmap_bytes n < n + 8)%nat.
Proof. unfold bitmap_bytes, div_ceil. pose proof (Nat.div_mod_eq (n + (8 - 1)) 8%nat). pose proof (Nat.mod_upper_bound (n + (8 - 1)) 8 ltac:(lia)). lia. Qed.

Definition column_bits (f : Value → bool) (column : list Value) (bitmap : list Z) : Prop :=
  length bitmap = bitmap_bytes (length column) ∧ is_bytes bitmap ∧ ∀ r, bit bitmap r = match column !! r with Some v => f v | None => false end.

Lemma encode_bits (f : Value → bool) (check : Value → Prop) (body : list Z → nat * Value → outcome (list Z)) (column : list Value) :
  (∀ bm r v, v ∈ column → check v → body bm (r, v) = if f v then set_bit bm r else Ok bm) → Forall check column →
  ∃ bitmap, for_each (enumerate column) (replicate (bitmap_bytes (length column)) 0) body = Ok bitmap ∧ column_bits f column bitmap.
Proof.
  intros Hbody Hc. unfold enumerate. destruct (bits_loop f check body column 0 (replicate (bitmap_bytes (length column)) 0) Hbody Hc) as (bm & -> & Hl & Hb & Hbit).
  - rewrite length_replicate. pose proof (bitmap_bytes_bound (length column)). lia.
  - apply Forall_replicate. done.
  - exists bm. split; [done|]. split; [by rewrite Hl, length_replicate|]. split; [done|]. intros r. rewrite Hbit, decide_True, Nat.sub_0_r, bit_zeros by lia.
    destruct (column !! r); [apply orb_false_r|done].
Qed.

Lemma padding_ok f column bitmap : column_bits f column bitmap → validate_bitmap_padding bitmap (length column) = Ok tt.
Proof.
  intros (Hl & Hb & Hbit). unfold validate_bitmap_padding. destruct (Nat.eqb_spec (length column mod 8) 0) as [|Hu]; [done|].
  destruct (last bitmap) as [b|] eqn:Hlast; [|done]. rewrite last_lookup in Hlast. set (n := length column) in *. set (u := (n mod 8)%nat) in *.
  assert (u < 8)%nat as Hu8 by (apply Nat.mod_upper_bound; done). pose proof (Nat.div_mod_eq n 8) as Hn. fold u in Hn.
  assert (pred (length bitmap) = n / 8)%nat as Hidx by (rewrite Hl; pose proof (bitmap_bytes_bound n); lia). rewrite Hidx in Hlast.
  assert (∀ j, (u ≤ j < 8)%nat → Z.testbit b (Z.of_nat j) = false) as Hz.
  { intros j Hj. specialize (Hbit (8 * (n / 8) + j)%nat). unfold bit in Hbit. rewrite (lookup_ge_None_2 column) in Hbit by (fold n; lia).
    replace ((8 * (n / 8) + j) / 8)%nat with (n / 8)%nat in Hbit by (rewrite Nat.mul_comm, Nat.div_add_l, (Nat.div_small j) by lia; lia).
    rewrite Hlast in Hbit. replace ((8 * (n / 8) + j) mod 8)%nat with j in Hbit by (rewrite Nat.add_comm, Nat.mul_comm, Nat.Div0.mod_add, Nat.mod_small; lia). done. }
  assert (Z.land b (255 - (Z.shiftl 1 (Z.of_nat u) - 1)) = 0) as ->; [|done]. apply Z.bits_inj'. intros k Hk. rewrite Z.land_spec, Z.bits_0.
  destruct (decide (k < Z.of_nat u)) as [Hlt|Hge].
  - assert (Z.testbit (255 - (Z.shiftl 1 (Z.of_nat u) - 1)) k = false) as ->; [|apply andb_false_r].
    assert (∃ k', k = Z.of_nat k' ∧ (k' < u)%nat) as (k' & -> & Hk') by (exists (Z.to_nat k); lia). clear -Hk' Hu8.
    do 8 (destruct u as [|u]; [do 8 (destruct k' as [|k']; [reflexivity || lia|]); lia|]). lia.
  - destruct (decide (k < 8)) as [Hk8|Hk8]; [replace k with (Z.of_nat (Z.to_nat k)) by lia; by rewrite Hz by lia|].
    rewrite testbit_byte; [done| |lia]. by eapply Forall_lookup_1.
Qed.

(** ** Arrays of fixed-size slots *)

Lemma append_loop (slot : Value → list Z) (check : Value → Prop) (body : list Z → Value → outcome (list Z)) column : ∀ payload,
  (∀ p v, check v → body p v = Ok (p ++ slot v)) → Forall check column → for_each column payload body = Ok (payload ++ concat (slot <$> column)).
Proof.
  induction column as [|v column IH]; intros payload Hbody Hc; [cbn; by rewrite app_nil_r|]. apply Forall_cons in Hc as [Hv Hc].
  cbn [for_each]. rewrite Hbody by done. cbn [bind]. rewrite IH by done. rewrite fmap_cons. cbn [concat]. by rewrite app_assoc.
Qed.

Lemma chunks_concat n ls : (0 < n)%nat → Forall (λ l, length l = n) ls → as_chunks n (concat ls) = ls.
Proof.
  intros Hn Hls. unfold as_chunks. assert (∀ fuel, (length ls ≤ fuel)%nat → chunks fuel n (concat ls) = ls) as H.
  { induction Hls as [|l ls Hl Hls IH]; intros fuel Hf.
    - destruct fuel; [done|]. simpl. by destruct n; [lia|].
    - destruct fuel as [|fuel]; [simpl in Hf; lia|]. cbn [chunks concat]. rewrite length_app, (proj2 (Nat.ltb_ge _ _)) by lia.
      rewrite take_app_length', drop_app_length' by done. by rewrite IH by (simpl in Hf; lia). }
  apply H. clear H. induction Hls as [|l ls Hl Hls IH]; [done|]. cbn [concat length]. rewrite length_app. lia.
Qed.

Lemma from_chunks (n : nat) w xs : (0 < n)%nat → 8 * Z.of_nat n = w → Forall (in_u w) xs → from_le <$> as_chunks n (concat (to_le n <$> xs)) = xs.
Proof.
  intros Hn Hw Hx. rewrite chunks_concat; [|done|apply Forall_fmap, Forall_forall; intros x _; apply length_to_le].
  rewrite <- list_fmap_compose. rewrite <- (list_fmap_id xs) at 2. apply list_fmap_ext. intros i x Hi. simpl. rewrite (from_to_le_u n w); [done|lia|].
  by eapply Forall_lookup_1.
Qed.

Definition not_null (v : Value) : bool := negb (is_null v).

Lemma collect_column {A} (f : nat → outcome A) (column : list A) : (∀ r v, column !! r = Some v → f r = Ok v) → collect f (seq 0 (length column)) = Ok column.
Proof.
  intros Hf. apply collect_Ok. apply Forall2_same_length_lookup_2; [by rewrite length_seq|]. intros i r v [-> _]%lookup_seq Hv. by apply Hf.
Qed.

Lemma decode_fixed_ok validity column (slot : Value → list Z) (n : nat) decode :
  column_bits not_null column validity → (∀ v, v ∈ column → length (slot v) = n) → (∀ v, v ∈ column → v ≠ Null → decode (slot v) = v) → slot Null = replicate n 0 →
  decode_fixed_slots validity (concat (slot <$> column)) (length column) n decode = Ok column.
Proof.
  intros (Hl & _ & Hbit) Hlen Hdec Hnull. unfold decode_fixed_slots. apply collect_column. intros r v Hv. pose proof (lookup_lt_Some _ _ _ Hv) as Hlt.
  assert (v ∈ column) as Hin by (by eapply list_elem_of_lookup_2). rewrite slice_Ok; cycle 1.
  { lia. }
  { rewrite (length_concat_fixed slot column n) by done. nia. }
  rewrite (Nat.mul_comm r n), (sub_concat_fixed slot column n r v) by done. cbn [bind].
  rewrite bit_is_set_ok by (rewrite Hl; pose proof (bitmap_bytes_bound (length column)); lia). cbn [bind]. rewrite Hbit, Hv. unfold not_null.
  destruct v; cbn [is_null negb]; try (by rewrite Hdec). rewrite Hnull.
  assert (existsb (λ byte, negb (byte =? 0)) (replicate n 0) = false) as ->; [|done]. clear. by induction n.
Qed.

(** ** Strings *)

Definition text_of (v : Value) : list Z := match v with String text => text | _ => [] end.

Definition string_ok (v : Value) : Prop := match v with Null => True | String text => is_bytes text ∧ utf8_valid text = true | _ => False end.

Lemma sums_head k ls : sums k ls = k :: tail (sums k ls).
Proof. by destruct ls. Qed.

Lemma string_offsets_loop column : ∀ k pre done_ heap,
  Forall string_ok column → length done_ = (4 * (k + 1))%nat → Z.of_nat (length heap + length (concat (text_of <$> column))) < 2 ^ 32 →
  for_each (enumerate_from k column) (pre ++ done_ ++ replicate (4 * length column) 0 ++ heap, Z.of_nat (length heap)) (λ '(payload, heap_len) '(row, value),
    let! (payload, heap_len) :=
      match value with
      | String text =>
          let! value_len := ok_or (try_u 32 (zlen text)) (InvalidArgument "string value length exceeds u32") in
          let! heap_len := ok_or (try_u 32 (heap_len + value_len)) (InvalidArgument "string heap length exceeds u32") in
          Ok (payload ++ text, heap_len)
      | Null => Ok (payload, heap_len)
      | _ => Err invalid_stored_value
      end in
    let offset := (length pre + (row + 1) * 4)%nat in
    let! payload := copy_at payload offset (offset + 4) (to_le 4 heap_len) in
    Ok (payload, heap_len)) =
  Ok (pre ++ done_ ++ concat (to_le 4 <$> (Z.of_nat <$> tail (sums (length heap) (length <$> (text_of <$> column))))) ++ heap ++ concat (text_of <$> column),
      Z.of_nat (length heap + length (concat (text_of <$> column)))).
Proof.
  induction column as [|v column IH]; intros k pre done_ heap Hok Hd Hroom.
  { cbn. by rewrite !app_nil_r, Nat.add_0_r. }
  apply Forall_cons in Hok as [Hv Hok]. rewrite enumerate_from_cons. cbn [for_each]. rewrite !fmap_cons in *. cbn [concat sums tail] in *. rewrite length_app in Hroom.
  assert (match v with
      | String text =>
          let! value_len := ok_or (try_u 32 (zlen text)) (InvalidArgument "string value length exceeds u32") in
          let! heap_len := ok_or (try_u 32 (Z.of_nat (length heap) + value_len)) (InvalidArgument "string heap length exceeds u32") in
          Ok ((pre ++ done_ ++ replicate (4 * length (v :: column)) 0 ++ heap) ++ text, heap_len)
      | Null => Ok (pre ++ done_ ++ replicate (4 * length (v :: column)) 0 ++ heap, Z.of_nat (length heap))
      | _ => Err invalid_stored_value
      end = Ok (pre ++ done_ ++ replicate (4 * length (v :: column)) 0 ++ heap ++ text_of v, Z.of_nat (length (heap ++ text_of v)))) as ->.
  { destruct v; try done; cbn [text_of] in *.
    - by rewrite app_nil_r.
    - unfold zlen. rewrite try_u_in by (unfold in_u; lia). cbn [ok_or bind]. rewrite try_u_in by (unfold in_u; lia). cbn [ok_or bind].
      rewrite length_app, Nat2Z.inj_add, <- !app_assoc. done. }
  cbn [bind]. set (h := heap ++ text_of v).
  assert (copy_at (pre ++ done_ ++ replicate (4 * length (v :: column)) 0 ++ h) (length pre + (k + 1) * 4) (length pre + (k + 1) * 4 + 4) (to_le 4 (Z.of_nat (length h))) =
    Ok (pre ++ (done_ ++ to_le 4 (Z.of_nat (length h))) ++ replicate (4 * length column) 0 ++ h)) as ->.
  { rewrite copy_at_Ok; [|lia|rewrite !length_app, length_replicate; simpl; lia|rewrite length_to_le; lia].
    rewrite (app_assoc pre done_). rewrite take_app_length' by (rewrite length_app; lia).
    replace (4 * length (v :: column))%nat with (4 + 4 * length column)%nat by (simpl; lia). rewrite replicate_add, <- (app_assoc (replicate 4 0)), (app_assoc _ (replicate 4 0)).
    rewrite drop_app_length' by (rewrite !length_app, length_replicate; lia). by rewrite <- !app_assoc. }
  cbn [bind]. rewrite (IH (S k) pre (done_ ++ to_le 4 (Z.of_nat (length h))) h); [|done|rewrite length_app, length_to_le; lia|unfold h; rewrite length_app; lia].
  unfold h. rewrite length_app. f_equal. f_equal; [|rewrite length_app; lia].
  rewrite (sums_head (length heap + length (text_of v))). cbn [fmap list_fmap concat]. rewrite <- !app_assoc. done.
Qed.

(** *** Offset arrays *)

Lemma sums_last ls : ∀ k, last (sums k ls) = Some (k + sum_list ls)%nat.
Proof.
  induction ls as [|l ls IH]; intros k; [cbn; f_equal; lia|]. cbn [sums]. rewrite (sums_head (k + l) ls).
  change (last (k :: k + l :: tail (sums (k + l) ls))%nat) with (last (k + l :: tail (sums (k + l) ls))%nat).
  rewrite <- sums_head, IH. simpl. f_equal. lia.
Qed.

Lemma sums_monotonic ls : ∀ k, monotonic (Z.of_nat <$> sums k ls) = true.
Proof.
  induction ls as [|l ls IH]; intros k; [done|]. cbn [sums]. specialize (IH (k + l)%nat). rewrite fmap_cons. rewrite (sums_head (k + l) ls) in *.
  rewrite fmap_cons in *. cbn [monotonic] in *. rewrite IH, andb_true_r. apply Z.leb_le. lia.
Qed.

Lemma sum_lengths {A} (ls : list (list A)) : sum_list (length <$> ls) = length (concat ls).
Proof. induction ls as [|l ls IH]; [done|]. rewrite fmap_cons, sum_list_cons. cbn [concat]. by rewrite length_app, IH. Qed.

Lemma sums_bound ls : ∀ k, Forall (λ n, (n ≤ k + sum_list ls)%nat) (sums k ls).
Proof.
  induction ls as [|l ls IH]; intros k; cbn [sums]; [constructor; [simpl; lia|done]|]. rewrite sum_list_cons. constructor; [lia|].
  eapply Forall_impl; [apply IH|]. intros n Hn. simpl in *. lia.
Qed.

Lemma sub_sums {A} (ls : list (list A)) : ∀ r l, ls !! r = Some l →
  sub (sum_list (take r (length <$> ls))) (sum_list (take (r + 1) (length <$> ls))) (concat ls) = l ∧
  (sum_list (take r (length <$> ls)) ≤ sum_list (take (r + 1) (length <$> ls)) ≤ length (concat ls))%nat.
Proof.
  induction ls as [|l0 ls IH]; intros r l Hr; [done|]. destruct r as [|r].
  - injection Hr as ->. rewrite fmap_cons. cbn [take Nat.add concat]. rewrite sum_list_cons. change (sum_list []) with 0%nat. rewrite Nat.add_0_r, length_app.
    split; [|lia]. rewrite sub_app_l by lia. by apply sub_all.
  - destruct (IH r l Hr) as [Hs Hle]. rewrite fmap_cons. cbn [take Nat.add concat]. rewrite !sum_list_cons, length_app. split; [|lia].
    rewrite sub_app_r by lia. replace (_ - _)%nat with (sum_list (take r (length <$> ls))) by lia.
    replace (_ - _)%nat with (sum_list (take (r + 1) (length <$> ls))) by lia. exact Hs.
Qed.

(** *** A string column *)

Definition string_values (column : list Value) : list Z :=
  concat (to_le 4 <$> (Z.of_nat <$> sums 0 (length <$> (text_of <$> column)))) ++ concat (text_of <$> column).

Lemma encode_strings_ok column payload : Forall string_ok column → Z.of_nat (length (concat (text_of <$> column))) < 2 ^ 32 →
  encode_strings column payload = Ok (payload ++ string_values column).
Proof.
  intros Hok Hroom. unfold encode_strings. cbv zeta. pose proof (string_offsets_loop column 0 payload (replicate 4 0) [] Hok) as Hloop.
  cbv zeta in Hloop. rewrite app_nil_r in Hloop. change (Z.of_nat (length [])) with 0 in Hloop. replace ((length column + 1) * 4)%nat with (4 + 4 * length column)%nat by lia.
  rewrite replicate_add. unfold enumerate. rewrite Hloop by (done || (simpl; lia)). cbn [bind]. unfold string_values. by destruct (length <$> (text_of <$> column)).
Qed.

Lemma decode_strings_ok validity column : column_bits not_null column validity → Forall string_ok column →
  Z.of_nat (length (concat (text_of <$> column))) < 2 ^ 32 → decode_strings validity (string_values column) (length column) = Ok column.
Proof.
  intros (Hl & _ & Hbit) Hok Hroom. set (texts := text_of <$> column) in *. set (offs := Z.of_nat <$> sums 0 (length <$> texts)).
  assert (length (concat (to_le 4 <$> offs)) = (length column + 1) * 4)%nat as Hol.
  { rewrite (length_concat_fixed (to_le 4) offs 4) by (intros; apply length_to_le). unfold offs, texts. rewrite length_fmap, length_sums, !length_fmap. lia. }
  assert (Forall (in_u 32) offs) as Hu.
  { unfold offs. apply Forall_fmap. eapply Forall_impl; [apply (sums_bound _ 0)|]. intros n Hn. simpl in *. rewrite sum_lengths in Hn. unfold in_u. lia. }
  unfold decode_strings, string_values. fold texts offs. rewrite slice_Ok by (rewrite ?length_app; lia). cbn [bind]. rewrite sub_app_l, sub_all by lia.
  rewrite slice_Ok by (rewrite ?length_app; lia). cbn [bind]. rewrite sub_app_r by lia. rewrite Hol, Nat.sub_diag, sub_all by (rewrite length_app; lia).
  rewrite (from_chunks 4 32) by (done || lia). unfold validate_string_offsets.
  assert (head offs = Some 0) as Hhead by (unfold offs; by destruct (length <$> texts)).
  assert (last offs = Some (Z.of_nat (length (concat texts)))) as Hlast by (unfold offs; rewrite fmap_last, sums_last, sum_lengths; done).
  assert (monotonic offs = true) as Hmono by apply sums_monotonic.
  rewrite (bool_decide_eq_true_2 _ Hhead), Hmono, (bool_decide_eq_true_2 _ Hlast). cbn [negb bind]. apply collect_column. intros r v Hv.
  assert (texts !! r = Some (text_of v)) as Ht by (unfold texts; by rewrite list_lookup_fmap, Hv). destruct (sub_sums texts r _ Ht) as [Hsub Hle].
  pose proof (lookup_lt_Some _ _ _ Hv) as Hlt. unfold index, offs. rewrite !list_lookup_fmap, !sums_lookup by (unfold texts; rewrite !length_fmap; lia).
  cbn [fmap option_fmap option_map expect bind Nat.add]. rewrite bit_is_set_ok by (rewrite Hl; pose proof (bitmap_bytes_bound (length column)); lia). cbn [bind].
  rewrite Hbit, Hv. rewrite Forall_forall in Hok. specialize (Hok v ltac:(by eapply list_elem_of_lookup_2)). destruct v; try done; cbn [not_null is_null negb text_of] in *.
  - assert (sum_list (take r (length <$> texts)) = sum_list (take (r + 1) (length <$> texts))) as ->; [|by rewrite Z.eqb_refl].
    apply (f_equal length) in Hsub. rewrite length_sub in Hsub by lia. simpl in Hsub. lia.
  - rewrite !Nat2Z.id, slice_Ok by lia. cbn [bind]. rewrite Hsub. unfold from_utf8. destruct Hok as [_ ->]. done.
Qed.

(** ** A column *)

(** The property types a relationship can store. *)
Definition storable (ty : LogicalType) : Prop :=
  match ty with TBool | TInt64 | TFloat64 | TString => True | TVector dim => in_u 32 dim | _ => False end.

Definition int_slot (v : Value) : list Z := match v with Int64 x => to_le 8 x | _ => replicate 8 0 end.
Definition float_slot (v : Value) : list Z := match v with Float64 x => to_le 8 x | _ => replicate 8 0 end.
Definition vector_slot (dim : Z) (v : Value) : list Z :=
  match v with Vector xs => concat (to_le 4 <$> xs) | _ => replicate (Z.to_nat (dim * 4)) 0 end.
Definition is_true (v : Value) : bool := match v with Bool true => true | _ => false end.

(** The bytes of a column's values, after its validity bitmap. *)
Definition values_size (column : list Value) (ty : LogicalType) : nat :=
  match ty with
  | TBool => bitmap_bytes (length column)
  | TInt64 | TFloat64 => 8 * length column
  | TVector dim => Z.to_nat (dim * 4) * length column
  | _ => 4 * (length column + 1) + length (concat (text_of <$> column))
  end.

Definition column_size (column : list Value) (ty : LogicalType) : nat := bitmap_bytes (length column) + values_size column ty.

Definition column_ok (column : list Value) (ty : LogicalType) : Prop :=
  Forall (λ v, matches_type v ty = true ∧ value_wf v) column ∧ Z.of_nat (column_size column ty) < 2 ^ 32.

(** What one type's codec does, given the bitmap of the rows that are not null. *)
Definition values_roundtrip (column : list Value) (ty : LogicalType) (encode : list Z → outcome (list Z))
    (decode : list Z → list Z → outcome (list Value)) : Prop :=
  ∃ values, length values = values_size column ty ∧ (∀ payload, encode payload = Ok (payload ++ values)) ∧
    ∀ validity, column_bits not_null column validity → decode validity values = Ok column.

Lemma bools_roundtrip column : column_ok column TBool →
  values_roundtrip column TBool (encode_bools column) (λ validity values, decode_bools validity values (length column)).
Proof.
  intros [Hc _]. destruct (encode_bits is_true (λ v, matches_type v TBool = true) (λ values '(row, value),
    match value with Null | Bool false => Ok values | Bool true => set_bit values row | _ => Err invalid_stored_value end) column) as (bm & Hbm & Hbits).
  { intros bm r v _ Hv. destruct v; try done. by destruct value. }
  { eapply Forall_impl; [exact Hc|]. by intros v [? _]. }
  exists bm. split; [apply Hbits|]. split; [intros payload; unfold encode_bools; by rewrite Hbm|]. intros validity (Hl & _ & Hbit). unfold decode_bools.
  rewrite (padding_ok is_true column bm Hbits). cbn [bind]. apply collect_column. intros r v Hv. pose proof (lookup_lt_Some _ _ _ Hv). destruct Hbits as (Hl' & _ & Hbit').
  pose proof (bitmap_bytes_bound (length column)). rewrite !bit_is_set_ok by lia. cbn [bind]. rewrite Hbit, Hbit', Hv. rewrite Forall_forall in Hc.
  destruct (Hc v ltac:(by eapply list_elem_of_lookup_2)) as [Hm _]. destruct v; try done. by destruct value.
Qed.

(** A codec of fixed-size slots. *)
Lemma slots_roundtrip column ty slot n decode body : (∀ v, v ∈ column → length (slot v) = n) → values_size column ty = (n * length column)%nat →
  (∀ v, v ∈ column → v ≠ Null → decode (slot v) = v) → slot Null = replicate n 0 → Forall (λ v, ∀ p, body p v = Ok (p ++ slot v)) column →
  values_roundtrip column ty (λ payload, for_each column payload body) (λ validity values, decode_fixed_slots validity values (length column) n decode).
Proof.
  intros Hn Hs Hdec Hnull Hbody. exists (concat (slot <$> column)). split; [by rewrite (length_concat_fixed slot column n)|]. split.
  - intros payload. apply (append_loop slot (λ v, ∀ p, body p v = Ok (p ++ slot v))); [|done]. intros p v Hv. apply Hv.
  - intros validity Hv. by apply decode_fixed_ok.
Qed.

Lemma column_ok_value column ty v : column_ok column ty → v ∈ column → matches_type v ty = true ∧ value_wf v.
Proof. intros [Hc _] Hv. rewrite Forall_forall in Hc. by apply Hc. Qed.

Lemma ints_roundtrip column : column_ok column TInt64 →
  values_roundtrip column TInt64 (encode_int64s column) (λ validity values, decode_fixed_slots validity values (length column) 8 (λ slot, Int64 (from_le_signed 64 slot))).
Proof.
  intros Hc. apply (slots_roundtrip column TInt64 int_slot 8); [|done| |done|].
  - intros v Hv. destruct v; try apply length_replicate. apply length_to_le.
  - intros v Hv Hne. destruct (column_ok_value _ _ _ Hc Hv) as [Hm Hw]. destruct v; try done. cbn [int_slot]. by rewrite (from_to_le_i 8 64).
  - apply Forall_forall. intros v Hv p. destruct (column_ok_value _ _ _ Hc Hv) as [Hm _]. by destruct v.
Qed.

Lemma floats_roundtrip column : column_ok column TFloat64 →
  values_roundtrip column TFloat64 (encode_float64s column) (λ validity values, decode_fixed_slots validity values (length column) 8 (λ slot, Float64 (from_le slot))).
Proof.
  intros Hc. apply (slots_roundtrip column TFloat64 float_slot 8); [|done| |done|].
  - intros v Hv. destruct v; try apply length_replicate. apply length_to_le.
  - intros v Hv Hne. destruct (column_ok_value _ _ _ Hc Hv) as [Hm Hw]. destruct v; try done. cbn [float_slot]. by rewrite (from_to_le_u 8 64).
  - apply Forall_forall. intros v Hv p. destruct (column_ok_value _ _ _ Hc Hv) as [Hm _]. by destruct v.
Qed.

Lemma vectors_roundtrip column dim : in_u 32 dim → column_ok column (TVector dim) →
  values_roundtrip column (TVector dim) (encode_vectors column dim) (λ validity values, decode_vectors validity values (length column) dim).
Proof.
  intros Hdim Hc. unfold encode_vectors, decode_vectors. rewrite try_u_in by (destruct Hdim; unfold in_u; lia). cbn [ok_or bind].
  assert (∀ v, v ∈ column → length (vector_slot dim v) = Z.to_nat (dim * 4)) as Hlen.
  { intros v Hv. destruct (column_ok_value _ _ _ Hc Hv) as [Hm _]. destruct v; try apply length_replicate. cbn [vector_slot].
    rewrite (length_concat_fixed (to_le 4) elements 4) by (intros; apply length_to_le). apply Z.eqb_eq in Hm. unfold zlen in Hm. lia. }
  apply (slots_roundtrip column (TVector dim) (vector_slot dim) (Z.to_nat (dim * 4))); [done|done| |done|].
  - intros v Hv Hne. destruct (column_ok_value _ _ _ Hc Hv) as [Hm Hw]. destruct v; try done. cbn [vector_slot]. by rewrite (from_chunks 4 32) by (done || lia).
  - apply Forall_forall. intros v Hv p. destruct (column_ok_value _ _ _ Hc Hv) as [Hm _]. destruct v; try done. cbn [matches_type] in Hm. by rewrite Hm.
Qed.

Lemma strings_roundtrip column : column_ok column TString →
  values_roundtrip column TString (encode_strings column) (λ validity values, decode_strings validity values (length column)).
Proof.
  intros Hc. assert (Forall string_ok column) as Hok.
  { apply Forall_forall. intros v Hv. destruct (column_ok_value _ _ _ Hc Hv) as [Hm Hw]. by destruct v. }
  assert (Z.of_nat (length (concat (text_of <$> column))) < 2 ^ 32) as Hroom by (destruct Hc as [_ Hc]; unfold column_size, values_size in Hc; lia).
  exists (string_values column). split.
  - unfold string_values, values_size. rewrite length_app, (length_concat_fixed (to_le 4) _ 4) by (intros; apply length_to_le). rewrite length_fmap, length_sums, !length_fmap. lia.
  - split; [intros payload; by apply encode_strings_ok|]. intros validity Hv. by apply decode_strings_ok.
Qed.

Lemma column_roundtrip column ty : storable ty → column_ok column ty →
  ∃ payload, encode_column column ty = Ok payload ∧ length payload = column_size column ty ∧ decode_column payload (length column) ty = Ok column.
Proof.
  intros Hty Hc. destruct (encode_bits not_null (λ _, True) (λ validity '(row, value), if is_null value then Ok validity else set_bit validity row) column)
    as (validity & Hv & Hbits); [intros bm r v _ _; unfold not_null; by destruct (is_null v)|by apply Forall_forall|].
  assert (∀ encode decode, values_roundtrip column ty encode decode → ∃ payload,
    (let! payload := encode validity in if 2 ^ 32 - 1 <? zlen payload then Err (InvalidArgument "property column {column_index} payload length exceeds u32") else Ok payload) = Ok payload ∧
    length payload = column_size column ty ∧
    (let! validity := slice payload 0 (bitmap_bytes (length column)) in
     let! _ := validate_bitmap_padding validity (length column) in
     let! values := slice payload (bitmap_bytes (length column)) (length payload) in decode validity values) = Ok column) as Hwrap.
  { intros encode decode (values & Hl & He & Hd). exists (validity ++ values). pose proof Hbits as (Hlv & _). rewrite He. cbn [bind].
    assert (length (validity ++ values) = column_size column ty) as Hlen by (unfold column_size; rewrite length_app; lia).
    unfold zlen. rewrite Hlen, (proj2 (Z.ltb_ge _ _)) by (destruct Hc as [_ Hc]; lia). split; [done|]. split; [done|].
    rewrite slice_Ok by (rewrite ?length_app; lia). cbn [bind]. rewrite <- Hlv, sub_app_l, sub_all by lia. rewrite (padding_ok _ _ _ Hbits). cbn [bind].
    rewrite <- Hlen, slice_Ok by (rewrite ?length_app; lia). cbn [bind]. rewrite sub_app_r, Nat.sub_diag, sub_all by (rewrite ?length_app; lia). by apply Hd. }
  unfold encode_column, encode_validity. rewrite Hv. cbn [bind]. unfold decode_column.
  destruct ty; try done; simpl in Hty.
  - apply (Hwrap _ _ (bools_roundtrip column Hc)).
  - apply (Hwrap _ _ (ints_roundtrip column Hc)).
  - apply (Hwrap _ _ (floats_roundtrip column Hc)).
  - apply (Hwrap _ _ (strings_roundtrip column Hc)).
  - apply (Hwrap _ _ (vectors_roundtrip column _ Hty Hc)).
Qed.
