(* ===== verification/RelTable.v ===== *)
(** Relationship tables: [devondb-storage/src/rel_table.rs], with the property
    reads of [rel_table/property_neighbors.rs].

    Persisting one CSR group and sizing an endpoint's node groups are the class
    [CsrStore], which [CsrPages.v] discharges over the pager.  The theorems about
    these definitions are in [RelCheckpoint.v] (a checkpoint that renumbers
    nodes), [RelMerge.v] (one that does not) and [RelScan.v]. *)

From stdpp Require Import gmap sorting.
From S2P Require Import Prelude Bytes Types Schema Catalog Overlay Csr CsrCodec.

(** ** Data *)

Inductive Direction := Out | In | Both.

#[export] Instance Direction_eq_dec : EqDecision Direction.
Proof. solve_decision. Defined.

Record Edge := mkRelEdge { e_from : Z; e_to : Z; e_values : list Value }.
Record RelTable := mkRelTable {
  rt_schema : RelTableSchema;
  buffered_edges : list Edge;
  endpoint_tombstones : RelEndpointTombstones }.
Record PendingEdge := mkPending { p_slot : nat; p_neighbor : Z; p_values : list Value }.
Record EndpointLayout := mkLayout { row_counts : list nat; starts : list Z; total_rows : Z }.
Record CsrCheckpointEstimate := mkEstimate {
  est_rows : Z; est_edges : Z; resident_bytes : Z; encoded_bytes : Z; est_property_bytes : Z }.

(** ** Node-offset remaps *)

Record OffsetRemap := mkRemap { old_domain : Z; deleted : list Z }.

(** [Vec::dedup]. *)
Fixpoint dedup_offsets (l : list Z) : list Z :=
  match l with
  | x :: ((y :: _) as rest) => if x =? y then dedup_offsets rest else x :: dedup_offsets rest
  | _ => l
  end.

(** [slice::binary_search] on a strictly increasing slice: the position of the
    element, or where it would be inserted. *)
Definition binary_search (l : list Z) (x : Z) : nat + nat :=
  let position := length (filter (λ d, d < x) l) in
  if bool_decide (x ∈ l) then inl position else inr position.

Definition remap_new (old_domain : Z) (deleted : list Z) : outcome OffsetRemap :=
  let deleted := dedup_offsets (merge_sort Z.le deleted) in
  if existsb (λ offset, old_domain <=? offset) deleted
  then Err (Corrupt "deleted node offset {offset} is outside old epoch domain {old_domain}")
  else Ok (mkRemap old_domain deleted).

Definition remap_identity (old_domain : Z) : OffsetRemap := mkRemap old_domain [].

Definition new_domain (self : OffsetRemap) : outcome Z :=
  ok_or (try_u 64 (old_domain self - zlen (deleted self))) (Corrupt "deleted-offset rank exceeds the old epoch domain").

Definition is_identity (self : OffsetRemap) : bool := bool_decide (deleted self = []).

Definition remap_map (self : OffsetRemap) (old_offset : Z) : outcome (option Z) :=
  if old_domain self <=? old_offset then Err (Corrupt "node offset {old_offset} is outside old epoch domain {}") else
  match binary_search (deleted self) old_offset with
  | inl _ => Ok None
  | inr rank => Ok (Some (old_offset - Z.of_nat rank))
  end.

Definition is_deleted (self : OffsetRemap) (x : Z) : bool :=
  match binary_search (deleted self) x with inl _ => true | inr _ => false end.

(** [while first < end && deleted(first) { first += 1 }], [n] being [end - first]. *)
Fixpoint skip_up (self : OffsetRemap) (n : nat) (first : Z) : Z :=
  match n with
  | O => first
  | S n => if is_deleted self first then skip_up self n (first + 1) else first
  end.

(** [while last > first && deleted(last) { last -= 1 }], [n] being [last - first]. *)
Fixpoint skip_down (self : OffsetRemap) (n : nat) (last : Z) : Z :=
  match n with
  | O => last
  | S n => if is_deleted self last then skip_down self n (last - 1) else last
  end.

Definition survivor_range (self : OffsetRemap) (start end_ : Z) : outcome (option (Z * Z)) :=
  if end_ <=? start then Ok None else
  let first := skip_up self (Z.to_nat (end_ - start)) start in
  if first =? end_ then Ok None else
  let last := skip_down self (Z.to_nat (end_ - 1 - first)) (end_ - 1) in
  let! mapped := remap_map self first in
  let! mapped_first := ok_or mapped (Corrupt "first survivor mapped to deletion") in
  let! mapped := remap_map self last in
  let! mapped_last := ok_or mapped (Corrupt "last survivor mapped to deletion") in
  Ok (Some (mapped_first, mapped_last + 1)).

(** ** Endpoint layouts *)

(** [slice::partition_point] on a partitioned slice. *)
Fixpoint partition_point {A} (p : A → bool) (l : list A) : nat :=
  match l with
  | [] => 0
  | x :: l => if p x then S (partition_point p l) else 0
  end.

Definition locate (self : EndpointLayout) (offset : Z) : outcome (option (nat * nat)) :=
  if total_rows self <=? offset then Ok None else
  match partition_point (λ start, start <=? offset) (starts self) with
  | O => Panic
  | S group => let! start := index (starts self) group in Ok (Some (group, Z.to_nat (offset - start)))
  end.

(** ** The store *)

(** Sizes the compiler picks: of [CsrGroup], [LogicalType], [Value], and of a
    [Vec]. *)
Class Sizes := { size_of_group : Z; size_of_type : Z; size_of_value : Z; size_of_vec : Z }.

(** A group that can be persisted: at least one edge, neighbors within [u64],
    values of storable property types, and the lengths of its offsets,
    neighbors and column payloads within [u32]. *)
Definition columns_good (types : list LogicalType) (adj : adjacency) : Prop :=
  ∀ i ty, types !! i = Some ty → storable ty ∧ column_ok (column_of i (concat adj)) ty.

Definition group_good (types : list LogicalType) (adj : adjacency) : Prop :=
  (0 < length adj)%nat ∧ (Z.of_nat (length adj) + 1) * 4 < 2 ^ 32 ∧
  (0 < length (concat adj))%nat ∧ Z.of_nat (length (concat adj)) * 8 < 2 ^ 32 ∧
  Forall (λ e : edge, in_u 64 e.1) (concat adj) ∧ columns_good types adj ∧ Forall (edge_ok types) (concat adj).

Definition below (n : Z) (g : CsrGroup) : bool := forallb (λ x, x <? n) (neighbors g).

(** What [CsrGroup::write], [read_checked], the directory header read by
    [checkpoint_estimate] (the counts and the byte lengths of the property
    columns), [NodeGroup::read_row_count] and the memory budget promise to this
    component.  [csr_at] says that a group is persisted at a
    page, [endpoint_at] that a node group of that many columns has so many
    rows; reads do not change the store.  A store that is [roomy types cap k]
    can write [k] groups of these property types and has [cap] bytes of scratch
    memory to grant. *)
Class CsrStore (W : Type) := {
  csr_write : CsrGroup → SM W Z;
  csr_read_checked : W → Z → list LogicalType → Z → outcome CsrGroup;
  csr_header : W → Z → list LogicalType → outcome (Z * Z * list Z);
  read_row_count : W → Z → nat → outcome nat;
  charge_or_reclaim : Z → W → bool * W;
  budget_release : Z → W → W;
  csr_at : W → Z → list LogicalType → CsrGroup → Prop;
  endpoint_at : W → Z → nat → nat → Prop;
  csr_lens : CsrGroup → list Z;
  roomy : list LogicalType → Z → nat → W → Prop;
  csr_at_reads w id types g n : csr_at w id types g → below n g = true → csr_read_checked w id types n = Ok g;
  csr_at_header w id types g : csr_at w id types g →
    csr_header w id types = Ok (Z.of_nat (csr_row_count g), Z.of_nat (edge_count g), csr_lens g);
  endpoint_at_reads w id columns rows : endpoint_at w id columns rows → read_row_count w id columns = Ok rows;
  csr_write_at types adj w id w' : group_good types adj → csr_write (csr_of types adj) w = (Ok id, w') →
    id ≠ 0 ∧ csr_at w' id types (csr_of types adj);
  csr_write_keeps g w r w' : csr_write g w = (r, w') →
    (∀ id ts g', csr_at w id ts g' → csr_at w' id ts g') ∧ (∀ id c n, endpoint_at w id c n → endpoint_at w' id c n);
  charge_keeps n w b w' : charge_or_reclaim n w = (b, w') →
    (∀ id ts g', csr_at w id ts g' → csr_at w' id ts g') ∧ (∀ id c m, endpoint_at w id c m → endpoint_at w' id c m);
  release_keeps n w :
    (∀ id ts g', csr_at w id ts g' → csr_at (budget_release n w) id ts g') ∧
    (∀ id c m, endpoint_at w id c m → endpoint_at (budget_release n w) id c m);
  roomy_writes types cap k adj w : roomy types cap (S k) w → group_good types adj →
    ∃ id w', csr_write (csr_of types adj) w = (Ok id, w') ∧ roomy types cap k w';
  roomy_grants types cap k n w : roomy types cap k w → 0 ≤ n ≤ cap →
    ∃ w', charge_or_reclaim n w = (true, w') ∧ roomy types (cap - n) k w';
  roomy_released types cap k n w : roomy types cap k w → 0 ≤ n → roomy types (cap + n) k (budget_release n w);
  roomy_less types cap k w : roomy types cap (S k) w → roomy types cap k w;
}.

(** ** Sizing *)

Definition checked_usize (n : Z) (e : DevonError) : outcome Z := ok_or (try_u 64 n) e.
Definition saturating_usize (n : Z) : Z := Z.min n (2 ^ 64 - 1).

Definition REQUIRED_ARRAY_COUNT : Z := 2.

Section Sizing.
Context `{Sizes}.

Definition checkpoint_estimate (row_count edge_count : Z) (types : list LogicalType) (property_bytes : Z) : outcome CsrCheckpointEstimate :=
  let! offset_count := checked_usize (row_count + 1) (InvalidArgument "CSR checkpoint offset count overflows usize") in
  let! offsets_bytes := checked_usize (offset_count * 4) (InvalidArgument "CSR checkpoint offsets estimate overflows usize") in
  let! neighbor_bytes := checked_usize (edge_count * 8) (InvalidArgument "CSR checkpoint neighbors estimate overflows usize") in
  let value_error := InvalidArgument "CSR checkpoint value estimate overflows usize" in
  let! value_slots := checked_usize (edge_count * zlen types) value_error in
  let! value_slots := checked_usize (value_slots * size_of_value) value_error in
  let container_error := InvalidArgument "CSR checkpoint container estimate overflows usize" in
  let! container_bytes := checked_usize (size_of_group + saturating_usize (zlen types * size_of_type)) container_error in
  let! container_bytes := checked_usize (container_bytes + saturating_usize (zlen types * size_of_vec)) container_error in
  let resident_error := InvalidArgument "CSR checkpoint resident estimate overflows usize" in
  let! resident := checked_usize (container_bytes + offsets_bytes) resident_error in
  let! resident := checked_usize (resident + neighbor_bytes) resident_error in
  let! resident := checked_usize (resident + value_slots) resident_error in
  let! resident := checked_usize (resident + property_bytes) resident_error in
  let encoding_error := InvalidArgument "CSR checkpoint encoding estimate overflows usize" in
  let! encoded := checked_usize (offsets_bytes + neighbor_bytes) encoding_error in
  let! encoded := checked_usize (encoded + property_bytes) encoding_error in
  let! encoded := checked_usize (encoded + saturating_usize ((zlen types + REQUIRED_ARRAY_COUNT) * size_of_vec)) encoding_error in
  Ok (mkEstimate row_count edge_count resident encoded property_bytes).

End Sizing.

(** ** Operations *)

Section Operations.
Context {W : Type} `{CS : CsrStore W} `{Sizes}.

Definition group_estimate (w : W) (directory_page : Z) (types : list LogicalType) : outcome CsrCheckpointEstimate :=
  let! (row_count, edge_count, lens) := csr_header w directory_page types in
  let! property_bytes := for_each lens 0 (λ total byte_len,
    checked_usize (total + byte_len) (Corrupt "CSR property byte estimate overflows usize")) in
  checkpoint_estimate row_count edge_count types property_bytes.

Definition checkpoint_property_bytes (values : list Value) : outcome Z :=
  for_each values 0 (λ total value,
    checked_usize (total + approx_bytes value) (InvalidArgument "CSR property byte estimate overflows usize")).

Definition rel_new (schema : RelTableSchema) : RelTable := mkRelTable schema [] no_tombstones.

Definition set_endpoint_tombstones (self : RelTable) (tombstones : RelEndpointTombstones) : RelTable :=
  mkRelTable (rt_schema self) (buffered_edges self) tombstones.

Definition schema_types (schema : RelTableSchema) : list LogicalType := ty <$> rel_columns schema.

Definition rel_validate_values (schema : RelTableSchema) (values : list Value) : outcome () :=
  if negb (length values =? length (rel_columns schema))%nat
  then Err (InvalidArgument "relationship table `{}` expects {} property columns but edge has {} values") else
  for_each (zip (rel_columns schema) values) tt (λ _ '(column, value),
    if matches_type value (ty column) then Ok tt
    else Err (InvalidArgument "column `{}` in relationship table `{}` expects {} but received {value}")).

Definition recover_edge (self : RelTable) (from_offset to_offset : Z) (values : list Value) : outcome RelTable :=
  let! _ := rel_validate_values (rt_schema self) values in
  Ok (mkRelTable (rt_schema self) (buffered_edges self ++ [mkRelEdge from_offset to_offset values]) (endpoint_tombstones self)).

Definition has_buffered_edges (self : RelTable) : bool := negb (bool_decide (buffered_edges self = [])).

Definition validate_direction (schema : RelTableSchema) (direction : Direction) : outcome () :=
  if bool_decide (direction = Both) && negb (bool_decide (fold (rel_from schema) = fold (rel_to schema)))
  then Err (InvalidArgument "relationship table `{}` cannot use Both direction across node tables `{}` and `{}`") else Ok tt.

Definition ensure_rel_schema (schema : RelTableSchema) (catalog : Catalog) : outcome () :=
  let! catalog_schema := ok_or (rel_table catalog (rel_name schema)) (NotFound "relationship table `{}`") in
  if bool_decide (catalog_schema = schema) then Ok tt
  else Err (InvalidArgument "relationship table `{}` schema differs from the catalog").

Definition read_node_group_row_count (w : W) (page_id : Z) (expected_columns : nat) : outcome nat :=
  map_err (λ error, match error with
    | Corrupt _ => Corrupt "node group {group_index}: {context}"
    | InvalidArgument _ => Corrupt "node group {group_index} references invalid directory page {page_id}: {context}"
    | other => other
    end) (read_row_count w page_id expected_columns).

Definition layout_step (w : W) (columns : nat) (s : list nat * list Z * Z) (group_id : Z) : outcome (list nat * list Z * Z) :=
  let '(row_counts, starts, total_rows) := s in
  let! row_count := read_node_group_row_count w group_id columns in
  let! total := checked_usize (total_rows + Z.of_nat row_count) (Corrupt "node table `{table_name}` row count overflows u64") in
  Ok (row_counts ++ [row_count], starts ++ [total_rows], total).

Definition endpoint_layout (w : W) (catalog : Catalog) (table_name : cat_name) : outcome EndpointLayout :=
  let! schema := ok_or (node_table catalog table_name) (NotFound "node table `{table_name}`") in
  let group_ids := default [] (groups <$> table_storage catalog table_name) in
  let! (row_counts, starts, total_rows) := for_each group_ids ([], [], 0) (layout_step w (length (node_columns schema))) in
  Ok (mkLayout row_counts starts total_rows).

Definition validate_buffered_offsets (edges : list Edge) (from_layout to_layout : EndpointLayout) : outcome () :=
  for_each edges tt (λ _ edge,
    if total_rows from_layout <=? e_from edge
    then Err (InvalidArgument "edge {index} from offset {} is outside checkpointed row count {}") else
    if total_rows to_layout <=? e_to edge
    then Err (InvalidArgument "edge {index} to offset {} is outside checkpointed row count {}") else Ok tt).

Definition validate_buffered_remap_offsets (edges : list Edge) (from_remap to_remap : OffsetRemap) : outcome () :=
  for_each edges tt (λ _ edge,
    let! _ := remap_map from_remap (e_from edge) in let! _ := remap_map to_remap (e_to edge) in Ok tt).

Definition validate_remap_layout (remap : OffsetRemap) (old_layout new_layout : EndpointLayout) : outcome () :=
  if old_domain remap <? total_rows old_layout
  then Err (Corrupt "node table `{table}` checkpointed rows {} exceed old remap domain {}") else
  let! expected := new_domain remap in
  if negb (total_rows new_layout =? expected)
  then Err (Corrupt "node table `{table}` remap produces {expected} rows but replacement storage has {}") else Ok tt.

Definition validate_storage_lengths (s : RelStorage) (from_layout to_layout : EndpointLayout) : outcome () :=
  if (length (row_counts from_layout) <? length (fwd s))%nat
  then Err (Corrupt "relationship forward storage has more groups than its source table") else
  if (length (row_counts to_layout) <? length (bwd s))%nat
  then Err (Corrupt "relationship backward storage has more groups than its destination table") else Ok tt.

Definition stored_group_id (group_ids : list Z) (i : nat) : option Z :=
  page_id ← group_ids !! i; if page_id =? 0 then None else Some page_id.

Definition validate_csr_row_count (group : CsrGroup) (endpoint_row_count : nat) : outcome () :=
  if (endpoint_row_count <? csr_row_count group)%nat
  then Err (Corrupt "CSR group {group_index} row_count {} exceeds endpoint node-group row_count {endpoint_row_count}") else Ok tt.

Definition no_both : DevonError := InvalidArgument "cannot materialize Both direction".

Definition edge_endpoints (edge : Edge) (direction : Direction) : outcome (Z * Z) :=
  match direction with
  | Out => Ok (e_from edge, e_to edge)
  | In => Ok (e_to edge, e_from edge)
  | Both => Err no_both
  end.

(** *** Tombstones *)

Definition grouped_endpoint_is_tombstoned (self : RelTable) (direction : Direction) (offset : Z) : bool :=
  match direction with
  | Out => bool_decide (offset ∈ from_offsets (endpoint_tombstones self))
  | In => bool_decide (offset ∈ to_offsets (endpoint_tombstones self))
  | Both => false
  end.

Definition neighbor_is_tombstoned (self : RelTable) (direction : Direction) (offset : Z) : bool :=
  match direction with
  | Out => bool_decide (offset ∈ to_offsets (endpoint_tombstones self))
  | In => bool_decide (offset ∈ from_offsets (endpoint_tombstones self))
  | Both => false
  end.

Definition edge_is_tombstoned (self : RelTable) (from to : Z) : bool :=
  bool_decide (from ∈ from_offsets (endpoint_tombstones self)) || bool_decide (to ∈ to_offsets (endpoint_tombstones self)).

Definition remapped_edge_is_tombstoned (self : RelTable) (direction : Direction) (grouped neighbor : Z) : bool :=
  match direction with
  | Out => edge_is_tombstoned self grouped neighbor
  | In => edge_is_tombstoned self neighbor grouped
  | Both => false
  end.

(** *** Reading *)

(** The buffered edges of a source in a direction, as neighbors. *)
Definition buffered_neighbor (direction : Direction) (from : Z) (edge : Edge) : option Z :=
  match direction with
  | Out => if e_from edge =? from then Some (e_to edge) else None
  | In => if e_to edge =? from then Some (e_from edge) else None
  | Both => None
  end.

Definition neighbors_one_unfiltered (self : RelTable) (w : W) (group_ids : list Z) (grouped_layout : EndpointLayout)
    (neighbor_row_count : Z) (direction : Direction) (from : Z) : outcome (list Z) :=
  let! located := locate grouped_layout from in
  let! persisted :=
    match located with
    | Some (group_index, slot) =>
        match stored_group_id group_ids group_index with
        | Some group_id =>
            let! group := csr_read_checked w group_id (schema_types (rt_schema self)) neighbor_row_count in
            let! rows := index (row_counts grouped_layout) group_index in
            let! _ := validate_csr_row_count group rows in
            match edge_range group slot with
            | Some (start, end_) => collect (csr_neighbor group) (seq start (end_ - start))
            | None => Ok []
            end
        | None => Ok []
        end
    | None => Ok []
    end in
  Ok (persisted ++ omap (buffered_neighbor direction from) (buffered_edges self)).

Definition neighbors_one (self : RelTable) (w : W) (group_ids : list Z) (grouped_layout : EndpointLayout)
    (neighbor_row_count : Z) (direction : Direction) (from : Z) : outcome (list Z) :=
  if grouped_endpoint_is_tombstoned self direction from then Ok [] else
  let! neighbors := neighbors_one_unfiltered self w group_ids grouped_layout neighbor_row_count direction from in
  Ok (filter (λ neighbor, neighbor_is_tombstoned self direction neighbor = false) neighbors).

(** The checks every directional read starts with. *)
Definition read_layouts (self : RelTable) (w : W) (catalog : Catalog) (direction : Direction) :
    outcome (EndpointLayout * EndpointLayout * option RelStorage) :=
  let! _ := ensure_rel_schema (rt_schema self) catalog in
  let! _ := validate_direction (rt_schema self) direction in
  let! from_layout := endpoint_layout w catalog (rel_from (rt_schema self)) in
  let! to_layout := endpoint_layout w catalog (rel_to (rt_schema self)) in
  let s := rel_storage catalog (rel_name (rt_schema self)) in
  let! _ := match s with Some s => validate_storage_lengths s from_layout to_layout | None => Ok tt end in
  Ok (from_layout, to_layout, s).

Definition fwd_ids (s : option RelStorage) : list Z := default [] (fwd <$> s).
Definition bwd_ids (s : option RelStorage) : list Z := default [] (bwd <$> s).

Definition rel_neighbors (self : RelTable) (w : W) (catalog : Catalog) (direction : Direction) (from : Z) : outcome (list Z) :=
  let! (from_layout, to_layout, s) := read_layouts self w catalog direction in
  let outgoing := neighbors_one self w (fwd_ids s) from_layout (total_rows to_layout) Out from in
  let incoming := neighbors_one self w (bwd_ids s) to_layout (total_rows from_layout) In from in
  match direction with
  | Out => outgoing
  | In => incoming
  | Both =>
      let! neighbors := outgoing in
      let! incoming := incoming in
      let incoming := if bool_decide (fold (rel_from (rt_schema self)) = fold (rel_to (rt_schema self)))
        then filter (λ neighbor, neighbor ≠ from) incoming else incoming in
      Ok (neighbors ++ incoming)
  end.

Definition neighbors_before_filtering (self : RelTable) (w : W) (catalog : Catalog) (direction : Direction) (from : Z) : outcome (list Z) :=
  let! (from_layout, to_layout, s) := read_layouts self w catalog direction in
  let outgoing := neighbors_one_unfiltered self w (fwd_ids s) from_layout (total_rows to_layout) Out from in
  let incoming := neighbors_one_unfiltered self w (bwd_ids s) to_layout (total_rows from_layout) In from in
  match direction with
  | Out => outgoing
  | In => incoming
  | Both => let! neighbors := outgoing in let! incoming := incoming in Ok (neighbors ++ incoming)
  end.

(** [ScannedRelationship] is an edge. *)
Definition property_edge (self : RelTable) (direction : Direction) (from : Z) (group : CsrGroup) (edges : list Edge) (position : nat) :
    outcome (list Edge) :=
  let! neighbor := csr_neighbor group position in
  if neighbor_is_tombstoned self direction neighbor then Ok edges else
  let '(source, destination) := if bool_decide (direction = Out) then (from, neighbor) else (neighbor, from) in
  let! values := collect (λ column, ok_or (csr_value group position column) (Corrupt "CSR edge property is missing"))
    (seq 0 (csr_column_count group)) in
  Ok (edges ++ [mkRelEdge source destination values]).

Definition buffered_incident (self : RelTable) (direction : Direction) (from : Z) (edge : Edge) : bool :=
  (if bool_decide (direction = Out) then e_from edge =? from else e_to edge =? from) &&
  negb (edge_is_tombstoned self (e_from edge) (e_to edge)).

Definition property_neighbors_one (self : RelTable) (w : W) (ids : list Z) (layout : EndpointLayout) (neighbor_rows : Z)
    (direction : Direction) (from : Z) : outcome (list Edge) :=
  if grouped_endpoint_is_tombstoned self direction from then Ok [] else
  let! located := locate layout from in
  let! persisted :=
    match located with
    | Some (i, slot) =>
        match stored_group_id ids i with
        | Some page =>
            let! group := csr_read_checked w page (schema_types (rt_schema self)) neighbor_rows in
            let! rows := index (row_counts layout) i in
            let! _ := validate_csr_row_count group rows in
            match edge_range group slot with
            | Some (start, end_) => for_each (seq start (end_ - start)) [] (property_edge self direction from group)
            | None => Ok []
            end
        | None => Ok []
        end
    | None => Ok []
    end in
  Ok (persisted ++ filter (λ edge, buffered_incident self direction from edge = true) (buffered_edges self)).

Definition neighbors_with_properties (self : RelTable) (w : W) (catalog : Catalog) (direction : Direction) (from : Z) : outcome (list Edge) :=
  let! (from_layout, to_layout, s) := read_layouts self w catalog direction in
  let! edges := if bool_decide (direction = In) then Ok [] else
    property_neighbors_one self w (fwd_ids s) from_layout (total_rows to_layout) Out from in
  if bool_decide (direction = Out) then Ok edges else
  let! incoming := property_neighbors_one self w (bwd_ids s) to_layout (total_rows from_layout) In from in
  Ok (edges ++ filter (λ edge, direction ≠ Both ∨ e_from edge ≠ e_to edge) incoming).

(** *** Checkpoint without deletions *)

Definition merge_key (grouped_layout : EndpointLayout) (direction : Direction) (edge : Edge) : outcome (nat * PendingEdge) :=
  match direction with
  | Out =>
      let! located := locate grouped_layout (e_from edge) in
      let! (group, slot) := ok_or located (InvalidArgument "source offset is outside checkpointed storage") in
      Ok (group, mkPending slot (e_to edge) (e_values edge))
  | In =>
      let! located := locate grouped_layout (e_to edge) in
      let! (group, slot) := ok_or located (InvalidArgument "destination offset is outside checkpointed storage") in
      Ok (group, mkPending slot (e_from edge) (e_values edge))
  | Both => Err no_both
  end.

(** [group_ids.resize(index + 1, 0)] when it is shorter, then the store. *)
Definition set_group_id (group_ids : list Z) (i : nat) (page_id : Z) : list Z :=
  <[i := page_id]> (group_ids ++ replicate (i + 1 - length group_ids) 0).

Definition push_pending (replacement : CsrGroup) (edge : PendingEdge) : outcome CsrGroup :=
  push_edge replacement (p_slot edge) (p_neighbor edge) (p_values edge).

Definition merge_group (types : list LogicalType) (grouped_layout : EndpointLayout) (neighbor_row_count : Z)
    (group_ids : list Z) (entry : nat * list PendingEdge) : SM W (list Z) :=
  let '(group_index, group_additions) := entry in
  let+ row_count := slift (index (row_counts grouped_layout) group_index) in
  let+ w := λ w, (Ok w, w) in
  let+ existing := slift (match stored_group_id group_ids group_index with
    | Some page_id =>
        let! group := csr_read_checked w page_id types neighbor_row_count in
        let! _ := validate_csr_row_count group row_count in Ok (Some group)
    | None => Ok None
    end) in
  let+ replacement := slift (csr_new row_count types) in
  let+ replacement := slift (match existing with Some group => copy_existing_edges group replacement | None => Ok replacement end) in
  let+ replacement := slift (for_each group_additions replacement push_pending) in
  let+ page_id := csr_write replacement in
  sret (set_group_id group_ids group_index page_id).

(** The additions of a [BTreeMap] keyed by group, in key order. *)
Definition additions_by_group (groups : nat) (keyed : list (nat * PendingEdge)) : list (nat * list PendingEdge) :=
  omap (λ g, match omap (λ x, if decide (x.1 = g) then Some x.2 else None) keyed with [] => None | l => Some (g, l) end) (seq 0 groups).

Definition merge_direction (group_ids : list Z) (grouped_layout : EndpointLayout) (neighbor_row_count : Z)
    (types : list LogicalType) (edges : list Edge) (direction : Direction) : SM W (list Z) :=
  let+ keyed := slift (collect (merge_key grouped_layout direction) edges) in
  sfor (additions_by_group (length (row_counts grouped_layout)) keyed) group_ids (merge_group types grouped_layout neighbor_row_count).

Definition rel_checkpoint (self : RelTable) (catalog : Catalog) : SM W (RelTable * Catalog) :=
  if bool_decide (buffered_edges self = []) then sret (self, catalog) else
  let schema := rt_schema self in
  let+ _ := slift (ensure_rel_schema schema catalog) in
  let+ w := λ w, (Ok w, w) in
  let+ from_layout := slift (endpoint_layout w catalog (rel_from schema)) in
  let+ to_layout := slift (endpoint_layout w catalog (rel_to schema)) in
  let+ _ := slift (validate_buffered_offsets (buffered_edges self) from_layout to_layout) in
  let s := default (mkRelStorage [] []) (rel_storage catalog (rel_name schema)) in
  let+ _ := slift (validate_storage_lengths s from_layout to_layout) in
  let types := schema_types schema in
  let+ fwd' := merge_direction (fwd s) from_layout (total_rows to_layout) types (buffered_edges self) Out in
  let+ bwd' := merge_direction (bwd s) to_layout (total_rows from_layout) types (buffered_edges self) In in
  let+ catalog := slift (set_rel_storage catalog (rel_name schema) (mkRelStorage fwd' bwd')) in
  sret (mkRelTable schema [] (endpoint_tombstones self), catalog).

(** *** Checkpoint with a remap *)

Definition relevant_old_groups (old_ids : list Z) (old_layout : EndpointLayout) (remap : OffsetRemap) (new_start new_end : Z) :
    outcome (list (nat * Z)) :=
  for_each (enumerate (row_counts old_layout)) [] (λ relevant '(i, row_count),
    match stored_group_id old_ids i with
    | None => Ok relevant
    | Some page_id =>
        let! start := index (starts old_layout) i in
        let! old_end := checked_usize (start + Z.of_nat row_count) (Corrupt "old CSR source range overflows u64") in
        let! range := survivor_range remap start old_end in
        match range with
        | None => Ok relevant
        | Some (mapped_start, mapped_end) =>
            if (mapped_start <? new_end) && (new_start <? mapped_end) then Ok (relevant ++ [(i, page_id)]) else Ok relevant
        end
    end).

Definition larger_scratch (old_scratch : Z) (estimate : CsrCheckpointEstimate) : outcome Z :=
  let! bytes := checked_usize (resident_bytes estimate + encoded_bytes estimate) (Corrupt "old CSR decode estimate overflows usize") in
  Ok (Z.max old_scratch bytes).

Definition estimate_old_groups (w : W) (types : list LogicalType) (relevant : list (nat * Z)) (candidate : option Z) : outcome (Z * Z * Z) :=
  let! (edge_capacity, property_bytes, old_scratch) := for_each relevant (0, 0, 0) (λ s x,
    let '(edge_capacity, property_bytes, old_scratch) := s in
    let! estimate := group_estimate w x.2 types in
    let! edge_capacity := checked_usize (edge_capacity + est_edges estimate) (Corrupt "old CSR edge estimate overflows usize") in
    let! property_bytes := checked_usize (property_bytes + est_property_bytes estimate) (Corrupt "old CSR property estimate overflows usize") in
    let! old_scratch := larger_scratch old_scratch estimate in
    Ok (edge_capacity, property_bytes, old_scratch)) in
  match candidate with
  | Some page_id =>
      if bool_decide (page_id ∈ relevant.*2) then Ok (edge_capacity, property_bytes, old_scratch) else
      let! estimate := group_estimate w page_id types in
      let! old_scratch := larger_scratch old_scratch estimate in
      Ok (edge_capacity, property_bytes, old_scratch)
  | None => Ok (edge_capacity, property_bytes, old_scratch)
  end.

Definition overlay_group_estimate (self : RelTable) (direction : Direction) (grouped_remap neighbor_remap : OffsetRemap) (new_start new_end : Z) :
    outcome (Z * Z) :=
  for_each (buffered_edges self) (0, 0) (λ '(edges, properties) edge,
    if edge_is_tombstoned self (e_from edge) (e_to edge) then Ok (edges, properties) else
    let! (grouped, neighbor) := edge_endpoints edge direction in
    let! grouped := remap_map grouped_remap grouped in
    match grouped with
    | None => Ok (edges, properties)
    | Some grouped =>
        if (grouped <? new_start) || (new_end <=? grouped) then Ok (edges, properties) else
        let! neighbor := remap_map neighbor_remap neighbor in
        match neighbor with
        | None => Ok (edges, properties)
        | Some _ =>
            let! edges := checked_usize (edges + 1) (Corrupt "overlay CSR edge estimate overflows usize") in
            let! bytes := checkpoint_property_bytes (e_values edge) in
            let! properties := checked_usize (properties + bytes) (Corrupt "overlay CSR property estimate overflows usize") in
            Ok (edges, properties)
        end
    end).

Definition replacement_slot (replacement : CsrGroup) (new_start new_source : Z) : option nat :=
  if new_source <? new_start then None else
  let slot := Z.to_nat (new_source - new_start) in
  if (slot <? csr_row_count replacement)%nat then Some slot else None.

Definition append_remapped_old_group (self : RelTable) (w : W) (replacement : CsrGroup) (page_id : Z) (old_index : nat)
    (old_grouped : EndpointLayout) (old_neighbor_rows : Z) (grouped_remap neighbor_remap : OffsetRemap) (new_start : Z)
    (direction : Direction) (types : list LogicalType) : outcome CsrGroup :=
  let! group := csr_read_checked w page_id types old_neighbor_rows in
  let! rows := index (row_counts old_grouped) old_index in
  let! _ := validate_csr_row_count group rows in
  for_each (seq 0 (csr_row_count group)) replacement (λ replacement slot,
    let! start := index (starts old_grouped) old_index in
    let! old_source := checked_usize (start + Z.of_nat slot) (Corrupt "old CSR source offset overflows u64") in
    let! new_source := remap_map grouped_remap old_source in
    match new_source with
    | None => Ok replacement
    | Some new_source =>
        match replacement_slot replacement new_start new_source with
        | None => Ok replacement
        | Some new_slot =>
            let! (start, end_) := ok_or (edge_range group slot) missing_slot in
            for_each (seq start (end_ - start)) replacement (λ replacement edge_index,
              let! old_neighbor := csr_neighbor group edge_index in
              if remapped_edge_is_tombstoned self direction old_source old_neighbor then Ok replacement else
              let! new_neighbor := remap_map neighbor_remap old_neighbor in
              match new_neighbor with
              | None => Ok replacement
              | Some new_neighbor =>
                  let! values := csr_values group edge_index in
                  push_edge replacement new_slot new_neighbor values
              end)
        end
    end).

Definition append_remapped_overlay_group (self : RelTable) (replacement : CsrGroup) (direction : Direction)
    (grouped_remap neighbor_remap : OffsetRemap) (new_start new_end : Z) : outcome CsrGroup :=
  for_each (buffered_edges self) replacement (λ replacement edge,
    if edge_is_tombstoned self (e_from edge) (e_to edge) then Ok replacement else
    let! (grouped, neighbor) := edge_endpoints edge direction in
    let! new_grouped := remap_map grouped_remap grouped in
    match new_grouped with
    | None => Ok replacement
    | Some new_grouped =>
        if (new_grouped <? new_start) || (new_end <=? new_grouped) then Ok replacement else
        let! new_neighbor := remap_map neighbor_remap neighbor in
        match new_neighbor with
        | None => Ok replacement
        | Some new_neighbor => push_edge replacement (Z.to_nat (new_grouped - new_start)) new_neighbor (e_values edge)
        end
    end).

(** The derived [PartialEq] of a group: property values are compared with
    their own [PartialEq], so zeros of both signs are equal and NaNs are not. *)
Definition list_eqb {A} (eqb : A → A → bool) (l k : list A) : bool :=
  (length l =? length k)%nat && forallb (λ '(x, y), eqb x y) (zip l k).

Definition group_eqb (a b : CsrGroup) : bool :=
  bool_decide (csr_types a = csr_types b) && bool_decide (offsets a = offsets b) && bool_decide (neighbors a = neighbors b) &&
  list_eqb (list_eqb value_eq) (csr_columns a) (csr_columns b).

Definition replacement_page_id (candidate : option Z) (replacement : CsrGroup) (old_neighbor_rows : Z) (types : list LogicalType) : SM W Z :=
  if (edge_count replacement =? 0)%nat then sret 0 else
  let+ w := λ w, (Ok w, w) in
  let+ reuse := slift (match candidate with
    | Some page_id => let! old := csr_read_checked w page_id types old_neighbor_rows in Ok (if group_eqb old replacement then Some page_id else None)
    | None => Ok None
    end) in
  match reuse with Some page_id => sret page_id | None => csr_write replacement end.

(** Building one replacement group while its scratch bytes are charged. *)
Definition build_replacement (self : RelTable) (w : W) (row_count : nat) (relevant : list (nat * Z)) (old_grouped : EndpointLayout)
    (old_neighbor_rows : Z) (grouped_remap neighbor_remap : OffsetRemap) (new_start new_end : Z) (direction : Direction)
    (types : list LogicalType) : outcome CsrGroup :=
  let! replacement := csr_new row_count types in
  let! replacement := for_each relevant replacement (λ replacement '(old_index, page_id),
    append_remapped_old_group self w replacement page_id old_index old_grouped old_neighbor_rows grouped_remap neighbor_remap new_start direction types) in
  append_remapped_overlay_group self replacement direction grouped_remap neighbor_remap new_start new_end.

(** The bytes asked of the budget for one replacement group. *)
Definition scratch_request (self : RelTable) (w : W) (row_count : nat) (relevant : list (nat * Z)) (candidate : option Z)
    (grouped_remap neighbor_remap : OffsetRemap) (new_start new_end : Z) (direction : Direction) (types : list LogicalType) : outcome Z :=
  let! (edge_capacity, property_bytes, old_scratch) := estimate_old_groups w types relevant candidate in
  let! (overlay_edges, overlay_properties) := overlay_group_estimate self direction grouped_remap neighbor_remap new_start new_end in
  let! edge_capacity := checked_usize (edge_capacity + overlay_edges) (Corrupt "replacement CSR edge estimate overflows usize") in
  let! property_bytes := checked_usize (property_bytes + overlay_properties) (Corrupt "replacement CSR property estimate overflows usize") in
  let! estimate := checkpoint_estimate (Z.of_nat row_count) edge_capacity types property_bytes in
  let scratch_error := Corrupt "detach checkpoint scratch estimate overflows usize" in
  let! requested := checked_usize (old_scratch + resident_bytes estimate) scratch_error in
  checked_usize (requested + encoded_bytes estimate) scratch_error.

(** A body run while [bytes] are charged; they are released on every exit. *)
Definition with_scratch {A} (bytes : Z) (body : SM W A) : SM W A := λ w,
  let '(granted, w) := charge_or_reclaim bytes w in
  if granted then let '(r, w) := body w in (r, budget_release bytes w)
  else (Err (BudgetExceeded "DETACH_CHECKPOINT_BLOCKED relationship={} direction={} group={} requested={} charged={} limit={}"), w).

Definition remapped_group (self : RelTable) (old_ids : list Z) (old_grouped new_grouped : EndpointLayout) (old_neighbor_rows : Z)
    (grouped_remap neighbor_remap : OffsetRemap) (types : list LogicalType) (direction : Direction) (group_index : nat) : SM W Z :=
  let+ row_count := slift (index (row_counts new_grouped) group_index) in
  let+ new_start := slift (index (starts new_grouped) group_index) in
  let+ new_end := slift (checked_usize (new_start + Z.of_nat row_count) (Corrupt "replacement CSR source range overflows u64")) in
  let+ relevant := slift (relevant_old_groups old_ids old_grouped grouped_remap new_start new_end) in
  let candidate := stored_group_id old_ids group_index in
  let+ w := λ w, (Ok w, w) in
  let+ requested := slift (scratch_request self w row_count relevant candidate grouped_remap neighbor_remap new_start new_end direction types) in
  with_scratch requested (
    let+ w := λ w, (Ok w, w) in
    let+ replacement := slift (build_replacement self w row_count relevant old_grouped old_neighbor_rows grouped_remap neighbor_remap
      new_start new_end direction types) in
    replacement_page_id candidate replacement old_neighbor_rows types).

Definition set_direction_ids (s : RelStorage) (direction : Direction) (ids : list Z) : outcome RelStorage :=
  match direction with
  | Out => Ok (mkRelStorage ids (bwd s))
  | In => Ok (mkRelStorage (fwd s) ids)
  | Both => Panic
  end.

(** [while new_ids.last() == Some(&0) { new_ids.pop(); }] *)
Fixpoint trim_zeros (ids : list Z) : list Z :=
  match ids with
  | [] => []
  | id :: ids => match trim_zeros ids with [] => if id =? 0 then [] else [id] | rest => id :: rest end
  end.

Definition in_store {A} (m : SM W A) : SM (W * Catalog) A := λ s, let '(r, w) := m s.1 in (r, (w, s.2)).

Definition put_direction (name : cat_name) (s : RelStorage) (direction : Direction) (ids : list Z) : SM (W * Catalog) RelStorage :=
  let+ s := slift (set_direction_ids s direction ids) in
  λ wc, match set_rel_storage wc.2 name s with
  | Ok catalog => (Ok s, (wc.1, catalog))
  | Err e => (Err e, wc)
  | Panic => (Panic, wc)
  end.

Definition rewrite_remapped_direction (self : RelTable) (s : RelStorage) (old_grouped new_grouped : EndpointLayout) (old_neighbor_rows : Z)
    (grouped_remap neighbor_remap : OffsetRemap) (types : list LogicalType) (direction : Direction) : SM (W * Catalog) RelStorage :=
  let+ old_ids := slift (match direction with Out => Ok (fwd s) | In => Ok (bwd s) | Both => Err no_both end) in
  let+ (s, new_ids) := sfor (seq 0 (length (row_counts new_grouped))) (s, []) (λ '(s, new_ids) group_index,
    let+ page_id := in_store (remapped_group self old_ids old_grouped new_grouped old_neighbor_rows grouped_remap neighbor_remap types
      direction group_index) in
    let new_ids := new_ids ++ [page_id] in
    let+ s := put_direction (rel_name (rt_schema self)) s direction new_ids in
    sret (s, new_ids)) in
  put_direction (rel_name (rt_schema self)) s direction (trim_zeros new_ids).

(** The state is the store and the unpublished new catalog. *)
Definition checkpoint_with_remap (self : RelTable) (old_catalog : Catalog) (from_remap to_remap : OffsetRemap) : SM (W * Catalog) RelTable :=
  if bool_decide (buffered_edges self = []) && tombstones_is_empty (endpoint_tombstones self) && is_identity from_remap && is_identity to_remap
  then sret self else
  let schema := rt_schema self in
  let+ (w, new_catalog) := λ s, (Ok s, s) in
  let+ _ := slift (ensure_rel_schema schema old_catalog) in
  let+ _ := slift (ensure_rel_schema schema new_catalog) in
  let+ old_from := slift (endpoint_layout w old_catalog (rel_from schema)) in
  let+ old_to := slift (endpoint_layout w old_catalog (rel_to schema)) in
  let+ new_from := slift (endpoint_layout w new_catalog (rel_from schema)) in
  let+ new_to := slift (endpoint_layout w new_catalog (rel_to schema)) in
  let+ _ := slift (validate_remap_layout from_remap old_from new_from) in
  let+ _ := slift (validate_remap_layout to_remap old_to new_to) in
  let+ _ := slift (validate_buffered_remap_offsets (buffered_edges self) from_remap to_remap) in
  let s := default (mkRelStorage [] []) (rel_storage old_catalog (rel_name schema)) in
  let+ _ := slift (validate_storage_lengths s old_from old_to) in
  let types := schema_types schema in
  let+ s := rewrite_remapped_direction self s old_from new_from (total_rows old_to) from_remap to_remap types Out in
  let+ s := rewrite_remapped_direction self s old_to new_to (total_rows old_from) to_remap from_remap types In in
  λ wc, match set_rel_storage wc.2 (rel_name schema) s with
  | Ok catalog => (Ok (mkRelTable schema [] no_tombstones), (wc.1, catalog))
  | Err e => (Err e, wc)
  | Panic => (Panic, wc)
  end.

End Operations.
