(* ===== verification/CsrPages.v ===== *)
(** CSR groups on pages: [CsrGroup::write] and [read_inner] of
    [devondb-storage/src/csr_group.rs] over the pager.

    The pager's promises are the class [PageStore]; the file discharges
    [CsrStore], the interface [RelTable.v] is proved against. *)

From stdpp Require Import gmap.
From S2P Require Import Prelude Bytes Types Codec Schema Catalog Overlay Csr CsrCodec RelTable.

(** ** The directory page *)

Definition DIRECTORY_MAGIC : list Z := [82; 67; 83; 82].
Definition DIRECTORY_HEADER_LEN : nat := 16.
Definition DIRECTORY_ENTRY_LEN : nat := 16.
Definition REQUIRED_ARRAYS : nat := 2.

Record ArrayEntry := mkEntry { first_page : Z; byte_len : Z; checksum : Z }.

Definition encode_entry (page : list Z) (i : nat) (entry : ArrayEntry) : outcome (list Z) :=
  let offset := (DIRECTORY_HEADER_LEN + i * DIRECTORY_ENTRY_LEN)%nat in
  let! page := copy_at page offset (offset + 8) (to_le 8 (first_page entry)) in
  let! page := copy_at page (offset + 8) (offset + 12) (to_le 4 (byte_len entry)) in
  copy_at page (offset + 12) (offset + 16) (to_le 4 (checksum entry)).

Definition encode_directory (row_count edge_count : nat) (entries : list ArrayEntry) (page_size : nat) : outcome (list Z) :=
  let! row_count := ok_or (try_u 32 (Z.of_nat row_count)) (InvalidArgument "CSR row count exceeds u32") in
  let! edge_count := ok_or (try_u 32 (Z.of_nat edge_count)) (InvalidArgument "CSR edge count exceeds u32") in
  let! column_count := ok_or (try_u 64 (zlen entries - Z.of_nat REQUIRED_ARRAYS)) (InvalidArgument "CSR directory lacks required arrays") in
  let! column_count := ok_or (try_u 32 column_count) (InvalidArgument "CSR column count exceeds u32") in
  let! page := copy_at (replicate page_size 0) 0 4 DIRECTORY_MAGIC in
  let! page := copy_at page 4 8 (to_le 4 row_count) in
  let! page := copy_at page 8 12 (to_le 4 edge_count) in
  let! page := copy_at page 12 16 (to_le 4 column_count) in
  for_each (enumerate entries) page (λ page '(i, entry), encode_entry page i entry).

Definition directory_entries_end (entry_count page_len : nat) : outcome nat :=
  let end_ := (DIRECTORY_HEADER_LEN + entry_count * DIRECTORY_ENTRY_LEN)%nat in
  if (page_len <? end_)%nat then Err (Corrupt "CSR column_count exceeds directory page capacity") else Ok end_.

Definition decode_entry (page : list Z) (i : nat) : outcome ArrayEntry :=
  let offset := (DIRECTORY_HEADER_LEN + i * DIRECTORY_ENTRY_LEN)%nat in
  let! first_page := read_u64 page offset in
  let! byte_len := read_u32 page (offset + 8) in
  let! checksum := read_u32 page (offset + 12) in
  Ok (mkEntry first_page byte_len checksum).

Definition decode_directory (page : list Z) (types : list LogicalType) : outcome (nat * nat * list ArrayEntry) :=
  if (length page <? DIRECTORY_HEADER_LEN)%nat then Err (Corrupt "CSR directory is shorter than its header") else
  if negb (bool_decide (take 4 page = DIRECTORY_MAGIC)) then Err (Corrupt "CSR directory magic is not RCSR") else
  let! row_count := read_u32 page 4 in
  if row_count =? 0 then Err (Corrupt "CSR directory row_count is zero") else
  let! edge_count := read_u32 page 8 in
  if edge_count =? 0 then Err (Corrupt "CSR directory edge_count is zero") else
  let! column_count := read_u32 page 12 in
  if negb (column_count =? zlen types) then Err (Corrupt "CSR column_count is {column_count}, expected {} from schema") else
  let entry_count := (length types + REQUIRED_ARRAYS)%nat in
  let! entries_end := directory_entries_end entry_count (length page) in
  if existsb (λ byte, negb (byte =? 0)) (drop entries_end page) then Err (Corrupt "CSR directory padding is not zero") else
  let! entries := collect (decode_entry page) (seq 0 entry_count) in
  Ok (Z.to_nat row_count, Z.to_nat edge_count, entries).

(** *** The directory reads back *)

Definition entry_wf (e : ArrayEntry) : Prop := in_u 64 (first_page e) ∧ in_u 32 (byte_len e) ∧ in_u 32 (checksum e).
Definition entry_bytes (e : ArrayEntry) : list Z := to_le 8 (first_page e) ++ to_le 4 (byte_len e) ++ to_le 4 (checksum e).

Definition directory_bytes (rows edges : nat) (entries : list ArrayEntry) (page_size : nat) : list Z :=
  (DIRECTORY_MAGIC ++ to_le 4 (Z.of_nat rows) ++ to_le 4 (Z.of_nat edges) ++ to_le 4 (zlen entries - 2)) ++ concat (entry_bytes <$> entries) ++
  replicate (page_size - 16 - 16 * length entries) 0.

Lemma length_csr_entry_bytes e : length (entry_bytes e) = 16%nat.
Proof. unfold entry_bytes. by rewrite !length_app, !length_to_le. Qed.

Lemma length_entries entries : length (concat (entry_bytes <$> entries)) = (16 * length entries)%nat.
Proof. apply length_concat_fixed. intros; apply length_csr_entry_bytes. Qed.

Lemma length_directory rows edges entries page_size : (16 + 16 * length entries ≤ page_size)%nat → length (directory_bytes rows edges entries page_size) = page_size.
Proof. intros Hp. unfold directory_bytes. rewrite !length_app, length_entries, !length_to_le, length_replicate. simpl. lia. Qed.

Lemma encode_entry_ok done_ i e n : length done_ = (16 + i * 16)%nat → (16 ≤ n)%nat →
  encode_entry (done_ ++ replicate n 0) i e = Ok ((done_ ++ entry_bytes e) ++ replicate (n - 16) 0).
Proof.
  intros Hd Hn. unfold encode_entry, DIRECTORY_HEADER_LEN, DIRECTORY_ENTRY_LEN, entry_bytes. set (o := (16 + i * 16)%nat) in *.
  rewrite (copy_at_append done_ _ _ (o + n)) by (rewrite ?length_to_le, ?length_replicate; lia). cbn [bind]. rewrite drop_replicate.
  rewrite (copy_at_append (done_ ++ _) _ _ (o + n)) by (rewrite ?length_app, ?length_to_le, ?length_replicate; lia). cbn [bind]. rewrite drop_replicate.
  rewrite (copy_at_append _ _ _ (o + n)) by (rewrite ?length_app, ?length_to_le, ?length_replicate; lia). rewrite drop_replicate, <- !app_assoc. do 6 f_equal. lia.
Qed.

Lemma encode_entries_ok entries : ∀ k done_ n, length done_ = (16 + k * 16)%nat → (16 * length entries ≤ n)%nat →
  for_each (enumerate_from k entries) (done_ ++ replicate n 0) (λ page '(i, entry), encode_entry page i entry) =
    Ok (done_ ++ concat (entry_bytes <$> entries) ++ replicate (n - 16 * length entries) 0).
Proof.
  induction entries as [|e entries IH]; intros k done_ n Hd Hn; [cbn; by rewrite Nat.sub_0_r|]. simpl in Hn. rewrite enumerate_from_cons. cbn [for_each].
  rewrite encode_entry_ok by (done || lia). cbn [bind]. rewrite IH by (rewrite ?length_app, ?length_csr_entry_bytes; lia). rewrite fmap_cons. cbn [concat length].
  rewrite <- !app_assoc. do 5 f_equal. lia.
Qed.

Lemma encode_directory_ok rows edges entries page_size : (16 + 16 * length entries ≤ page_size)%nat → (2 ≤ length entries)%nat →
  Z.of_nat rows < 2 ^ 32 → Z.of_nat edges < 2 ^ 32 → zlen entries - 2 < 2 ^ 32 →
  encode_directory rows edges entries page_size = Ok (directory_bytes rows edges entries page_size).
Proof.
  intros Hp H2 Hr He Hn. unfold encode_directory. rewrite !try_u_in by (unfold in_u, zlen, REQUIRED_ARRAYS in *; lia). cbn [ok_or bind].
  rewrite !try_u_in by (unfold in_u, zlen, REQUIRED_ARRAYS in *; lia). cbn [ok_or bind].
  change (replicate page_size 0) with ([] ++ replicate page_size 0).
  rewrite (copy_at_append [] _ _ page_size) by (rewrite ?length_replicate; simpl; lia). cbn [bind]. rewrite drop_replicate.
  do 3 (append_field page_size). unfold enumerate. rewrite (encode_entries_ok entries 0) by (rewrite ?length_app, ?length_to_le; simpl; lia).
  unfold directory_bytes. cbn [app]. rewrite <- !app_assoc. unfold REQUIRED_ARRAYS. do 7 f_equal. lia.
Qed.

Lemma read_field page pre field post n w x : page = pre ++ field ++ post → field = to_le n x → 8 * Z.of_nat n = w → in_u w x →
  slice page (length pre) (length pre + n) = Ok (to_le n x) ∧ from_le (to_le n x) = x.
Proof.
  intros -> -> Hw Hx. split; [|apply (from_to_le_u n w); [lia|done]]. rewrite slice_Ok by (rewrite ?length_app, ?length_to_le; lia). f_equal.
  rewrite sub_app_r, Nat.sub_diag by lia. replace (length pre + n - length pre)%nat with n by lia.
  rewrite sub_app_l, sub_all by (rewrite ?length_to_le; lia). done.
Qed.

Lemma decode_entry_ok page hdr entries post i e : page = hdr ++ concat (entry_bytes <$> entries) ++ post → length hdr = 16%nat →
  entries !! i = Some e → entry_wf e → decode_entry page i = Ok e.
Proof.
  intros -> Hh Hi (W1 & W2 & W3). unfold decode_entry, DIRECTORY_HEADER_LEN, DIRECTORY_ENTRY_LEN. pose proof (take_drop_middle entries i e Hi) as Hm.
  set (pre := hdr ++ concat (entry_bytes <$> take i entries)). assert (length pre = 16 + i * 16)%nat as Hp.
  { unfold pre. rewrite length_app, length_entries, length_take. apply lookup_lt_Some in Hi. lia. }
  set (post' := concat (entry_bytes <$> drop (S i) entries) ++ post).
  assert (hdr ++ concat (entry_bytes <$> entries) ++ post = pre ++ entry_bytes e ++ post') as ->.
  { unfold pre, post'. rewrite <- Hm at 1. rewrite fmap_app, fmap_cons, concat_app. cbn [concat]. by rewrite <- !app_assoc. }
  unfold entry_bytes. rewrite <- !app_assoc. unfold read_u64, read_u32. rewrite <- Hp.
  destruct (read_field _ pre (to_le 8 (first_page e)) (to_le 4 (byte_len e) ++ to_le 4 (checksum e) ++ post') 8 64 _ eq_refl eq_refl eq_refl W1) as [Hr1 Hv1].
  rewrite Hr1. cbn [bind]. rewrite Hv1.
  cbn [bind]. rewrite (app_assoc pre). replace (length pre + 8)%nat with (length (pre ++ to_le 8 (first_page e))) by (rewrite length_app, length_to_le; lia).
  destruct (read_field _ (pre ++ to_le 8 (first_page e)) (to_le 4 (byte_len e)) (to_le 4 (checksum e) ++ post') 4 32 _ eq_refl eq_refl eq_refl W2) as [Hr2 Hv2].
  rewrite Hr2. cbn [bind]. rewrite Hv2.
  cbn [bind]. rewrite (app_assoc (pre ++ _)). replace (length pre + 12)%nat with (length ((pre ++ to_le 8 (first_page e)) ++ to_le 4 (byte_len e))) by (rewrite !length_app, !length_to_le; lia).
  destruct (read_field _ ((pre ++ to_le 8 (first_page e)) ++ to_le 4 (byte_len e)) (to_le 4 (checksum e)) post' 4 32 _ eq_refl eq_refl eq_refl W3) as [Hr3 Hv3].
  rewrite Hr3. cbn [bind]. rewrite Hv3.
  by destruct e.
Qed.

Lemma existsb_zeros n : existsb (λ byte, negb (byte =? 0)) (replicate n 0) = false.
Proof. by induction n. Qed.

Lemma directory_roundtrip rows edges entries page_size types : (16 + 16 * length entries ≤ page_size)%nat → length entries = (length types + 2)%nat →
  (0 < rows)%nat → Z.of_nat rows < 2 ^ 32 → (0 < edges)%nat → Z.of_nat edges < 2 ^ 32 → zlen entries - 2 < 2 ^ 32 → Forall entry_wf entries →
  decode_directory (directory_bytes rows edges entries page_size) types = Ok (rows, edges, entries).
Proof.
  intros Hp Hlen Hr Hr' He He' Hn Hwf. set (page := directory_bytes rows edges entries page_size).
  assert (length page = page_size) as Hpl by (by apply length_directory). unfold decode_directory. rewrite Hpl. unfold DIRECTORY_HEADER_LEN.
  rewrite (proj2 (Nat.ltb_ge _ _)) by lia. assert (take 4 page = DIRECTORY_MAGIC) as Hmagic by done.
  rewrite (bool_decide_eq_true_2 _ Hmagic). cbn [negb]. unfold read_u32.
  assert (∃ post, page = DIRECTORY_MAGIC ++ to_le 4 (Z.of_nat rows) ++ post) as (q1 & E1) by (unfold page, directory_bytes; rewrite <- !app_assoc; eauto).
  assert (∃ post, page = (DIRECTORY_MAGIC ++ to_le 4 (Z.of_nat rows)) ++ to_le 4 (Z.of_nat edges) ++ post) as (q2 & E2) by (unfold page, directory_bytes; rewrite <- !app_assoc; eauto).
  assert (∃ post, page = ((DIRECTORY_MAGIC ++ to_le 4 (Z.of_nat rows)) ++ to_le 4 (Z.of_nat edges)) ++ to_le 4 (zlen entries - 2) ++ post) as (q3 & E3)
    by (unfold page, directory_bytes; rewrite <- !app_assoc; eauto).
  destruct (read_field page _ _ q1 4 32 (Z.of_nat rows) E1 eq_refl eq_refl ltac:(unfold in_u; lia)) as [R1 V1].
  destruct (read_field page _ _ q2 4 32 (Z.of_nat edges) E2 eq_refl eq_refl ltac:(unfold in_u; lia)) as [R2 V2].
  destruct (read_field page _ _ q3 4 32 (zlen entries - 2) E3 eq_refl eq_refl ltac:(unfold in_u, zlen in *; lia)) as [R3 V3].
  rewrite !length_app, !length_to_le in R2. rewrite !length_app, !length_to_le in R3. change (length DIRECTORY_MAGIC) with 4%nat in R1, R2, R3. cbn [Nat.add] in R1, R2, R3 |- *.
  rewrite R1. cbn [bind]. rewrite V1, (proj2 (Z.eqb_neq _ _)) by lia. rewrite R2. cbn [bind]. rewrite V2, (proj2 (Z.eqb_neq _ _)) by lia. rewrite R3. cbn [bind].
  rewrite V3, (proj2 (Z.eqb_eq _ _)) by (unfold zlen; lia). cbn [negb]. unfold directory_entries_end, DIRECTORY_HEADER_LEN, DIRECTORY_ENTRY_LEN, REQUIRED_ARRAYS.
  rewrite ?Hpl, (proj2 (Nat.ltb_ge _ _)) by lia. cbn [bind].
  assert (drop (16 + (length types + 2) * 16) page = replicate (page_size - 16 - 16 * length entries) 0) as ->.
  { unfold page, directory_bytes. rewrite app_assoc. apply drop_app_length'. rewrite !length_app, length_entries, !length_to_le. simpl. lia. }
  rewrite existsb_zeros. assert (collect (decode_entry page) (seq 0 (length types + 2)) = Ok entries) as ->.
  { rewrite <- Hlen. apply collect_column. intros i e Hi. eapply (decode_entry_ok _ _ entries); [done|by rewrite !length_app, !length_to_le|done|]. by eapply Forall_lookup_1. }
  cbn [bind]. by rewrite !Nat2Z.id.
Qed.

(** ** Payload lengths *)

Definition validate_fixed_payload_len (entry : ArrayEntry) (expected : Z) : outcome () :=
  let! expected := ok_or (try_u 64 expected) (Corrupt "{name} payload length overflows") in
  if negb (byte_len entry =? expected) then Err (Corrupt "{name} byte_len is {}, expected exactly {expected}") else Ok tt.

Definition fixed_payload_len (row_count : nat) (ty : LogicalType) : option Z :=
  let validity_len := Z.of_nat (bitmap_bytes row_count) in
  values_len ← match ty with
    | TBool => Some validity_len
    | TInt64 | TFloat64 => try_u 64 (Z.of_nat row_count * 8)
    | TVector dim => slots ← try_u 64 (Z.of_nat row_count * dim); try_u 64 (slots * 4)
    | _ => None
    end;
  try_u 64 (validity_len + values_len).

Definition string_payload_prefix_len (row_count : nat) : option Z :=
  count ← try_u 64 (Z.of_nat row_count + 1); len ← try_u 64 (count * 4); try_u 64 (Z.of_nat (bitmap_bytes row_count) + len).

Definition validate_column_payload_len (entry : ArrayEntry) (edge_count : nat) (ty : LogicalType) : outcome () :=
  match ty with
  | TString =>
      let! minimum := ok_or (string_payload_prefix_len edge_count) (Corrupt "property column {column_index} string prefix length overflows") in
      if byte_len entry <? minimum then Err (Corrupt "property column {column_index} byte_len is {actual}, smaller than string prefix {minimum}") else Ok tt
  | _ =>
      let! expected := ok_or (fixed_payload_len edge_count ty) (Corrupt "property column {column_index} implied payload length overflows") in
      if negb (byte_len entry =? expected) then Err (Corrupt "property column {column_index} byte_len is {actual}, expected exactly {expected} for {logical_type}") else Ok tt
  end.

(** ** The pager *)

(** What the pager promises.  [held w id page] says that page [id] is in use
    and holds [page]: an allocation hands out pages that are not in use, a write
    changes no other page, and neither failing calls nor syncs lose a page.  A
    pager with [page_room k] can hand out runs of [k] more pages together, writes
    the pages it handed out ([usable]) and syncs without failing. *)
Class PageStore (W : Type) := {
  page_bytes : nat;
  allocate_run : nat → SM W Z;
  write_page : Z → list Z → SM W ();
  read_page : W → Z → outcome (list Z);
  pager_sync : SM W ();
  held : W → Z → list Z → Prop;
  usable : W → Z → Prop;
  page_room : Z → W → Prop;
  page_bytes_min : (64 ≤ page_bytes)%nat;
  held_reads w id page : held w id page → read_page w id = Ok page;
  allocate_keeps n w r w' id page : allocate_run n w = (r, w') → held w id page →
    held w' id page ∧ ∀ first, r = Ok first → ¬ first ≤ id < first + Z.of_nat n;
  allocate_range n w first w' : allocate_run n w = (Ok first, w') → 2 ≤ first ∧ first + Z.of_nat n ≤ 2 ^ 64;
  write_held id page w w' : length page = page_bytes → write_page id page w = (Ok tt, w') → held w' id page;
  write_others id page w r w' id' page' : write_page id page w = (r, w') → id' ≠ id → held w id' page' → held w' id' page';
  sync_keeps w r w' id page : pager_sync w = (r, w') → held w id page → held w' id page;
  room_allocates n k w : page_room (Z.of_nat n + k) w → 0 ≤ k → (0 < n)%nat → ∃ first w', allocate_run n w = (Ok first, w') ∧ page_room k w';
  allocate_usable n w first w' id : allocate_run n w = (Ok first, w') → first ≤ id < first + Z.of_nat n → usable w' id;
  write_usable id page w w' id' : write_page id page w = (Ok tt, w') → usable w id' → usable w' id';
  room_writes id k page w : page_room k w → usable w id → length page = page_bytes → ∃ w', write_page id page w = (Ok tt, w') ∧ page_room k w';
  room_syncs k w : page_room k w → ∃ w', pager_sync w = (Ok tt, w') ∧ page_room k w';
  room_less k k' w : page_room k w → k' ≤ k → page_room k' w;
}.

Section Pages.
Context {W : Type} `{PS : PageStore W} `{CR : Crc32c}.

(** ** Writing *)

Definition validate_for_write (self : CsrGroup) : outcome () :=
  if (edge_count self =? 0)%nat then Err (InvalidArgument "cannot write an empty CSR group") else
  let entry_count := (csr_column_count self + REQUIRED_ARRAYS)%nat in
  if (page_bytes <? DIRECTORY_HEADER_LEN)%nat then Err (InvalidArgument "page is shorter than a CSR directory header") else
  let max_entries := ((page_bytes - DIRECTORY_HEADER_LEN) / DIRECTORY_ENTRY_LEN)%nat in
  if (max_entries <? entry_count)%nat then Err (InvalidArgument "CSR group needs {entry_count} directory entries but capacity is {max_entries}") else
  validate_structure self.

Definition encode_payloads (self : CsrGroup) : outcome (list (list Z)) :=
  let! columns := collect (λ '(column, ty), encode_column column ty) (zip (csr_columns self) (csr_types self)) in
  Ok (encode_offsets (offsets self) :: encode_neighbors (neighbors self) :: columns).

(** Page [i] of a payload, padded with zeros. *)
Definition payload_page (payload : list Z) (i : nat) : list Z :=
  let start := (i * page_bytes)%nat in
  let end_ := Nat.min (length payload) (start + page_bytes) in
  sub start end_ payload ++ replicate (page_bytes - (end_ - start)) 0.

Definition write_payload (payload : list Z) : SM W Z :=
  let page_count := div_ceil (length payload) page_bytes in
  if (page_count =? 0)%nat then slift (Err (InvalidArgument "CSR payload cannot occupy zero pages")) else
  let+ first := allocate_run page_count in
  let+ page_ids := slift (collect (λ i, ok_or (try_u 64 (first + Z.of_nat i)) (InvalidArgument "CSR payload page run overflows u64")) (seq 0 page_count)) in
  let+ _ := sfor (enumerate page_ids) tt (λ _ '(i, page_id), write_page page_id (payload_page payload i)) in
  slift (index page_ids 0).

Definition write_entry (entries : list ArrayEntry) (payload : list Z) : SM W (list ArrayEntry) :=
  let+ first := write_payload payload in
  let+ len := slift (ok_or (try_u 32 (zlen payload)) (InvalidArgument "CSR payload length exceeds u32")) in
  sret (entries ++ [mkEntry first len (crc32c payload)]).

Definition write_group (self : CsrGroup) : SM W Z :=
  let+ _ := slift (validate_for_write self) in
  let+ payloads := slift (encode_payloads self) in
  let+ entries := sfor payloads [] write_entry in
  let+ directory_page := allocate_run 1 in
  let+ directory := slift (encode_directory (csr_row_count self) (edge_count self) entries page_bytes) in
  let+ _ := write_page directory_page directory in
  let+ _ := pager_sync in
  sret directory_page.

(** ** Reading *)

Definition read_referenced_page (w : W) (page_id : Z) : outcome (list Z) :=
  map_err (λ error, match error with InvalidArgument _ => Corrupt "{name} references invalid payload page {page_id}: {context}" | other => other end)
    (read_page w page_id).

Definition read_payload (w : W) (entry : ArrayEntry) : outcome (list Z) :=
  let len := Z.to_nat (byte_len entry) in
  for_each (seq 0 (div_ceil len page_bytes)) [] (λ payload i,
    let! page_id := ok_or (try_u 64 (first_page entry + Z.of_nat i)) (Corrupt "{name} payload page run overflows u64") in
    let! page := read_referenced_page w page_id in
    let taken := Nat.min (len - length payload) page_bytes in
    let! bytes := slice page 0 taken in
    let! rest := slice page taken (length page) in
    if (taken <? page_bytes)%nat && existsb (λ byte, negb (byte =? 0)) rest
    then Err (Corrupt "{name} payload page padding is not zero") else Ok (payload ++ bytes)).

Definition read_checked_payload (w : W) (entry : ArrayEntry) : outcome (list Z) :=
  let! payload := read_payload w entry in
  if crc32c payload =? checksum entry then Ok payload else Err (Corrupt "{name} payload CRC-32C does not match").

Definition read_group (w : W) (directory_page : Z) (types : list LogicalType) (neighbor_row_count : option Z) : outcome CsrGroup :=
  let! directory := read_page w directory_page in
  let! (row_count, edge_count, entries) := decode_directory directory types in
  let! entry := index entries 0 in
  let! _ := validate_fixed_payload_len entry ((Z.of_nat row_count + 1) * 4) in
  let! payload := read_checked_payload w entry in
  let! offsets := decode_offsets payload row_count edge_count in
  let! entry := index entries 1 in
  let! _ := validate_fixed_payload_len entry (Z.of_nat edge_count * 8) in
  let! payload := read_checked_payload w entry in
  let! neighbors := decode_neighbors payload neighbor_row_count in
  let! columns := collect (λ '(entry, ty),
    let! _ := validate_column_payload_len entry edge_count ty in
    let! payload := read_checked_payload w entry in
    decode_column payload edge_count ty) (zip (drop REQUIRED_ARRAYS entries) types) in
  Ok (mkCsr types offsets neighbors columns).

(** [checkpoint_estimate] reads the directory only. *)
Definition read_header (w : W) (directory_page : Z) (types : list LogicalType) : outcome (Z * Z * list Z) :=
  let! page := read_page w directory_page in
  let! (row_count, edge_count, entries) := decode_directory page types in
  Ok (Z.of_nat row_count, Z.of_nat edge_count, byte_len <$> drop REQUIRED_ARRAYS entries).

(** The pages of one group. *)
Definition csr_page_inventory (w : W) (directory_page : Z) (types : list LogicalType) : outcome (list Z) :=
  let! page := read_page w directory_page in
  let! (_, _, entries) := decode_directory page types in
  for_each entries [directory_page] (λ pages entry,
    for_each (seq 0 (Nat.max (div_ceil (Z.to_nat (byte_len entry)) page_bytes) 1)) pages (λ pages i,
      let! page_id := ok_or (try_u 64 (first_page entry + Z.of_nat i)) (Corrupt "CSR payload page run overflows u64") in
      Ok (pages ++ [page_id]))).

(** ** Pages in use are never lost *)

Definition preserves {A} (m : SM W A) : Prop := ∀ w r w' id page, m w = (r, w') → held w id page → held w' id page.

Lemma preserves_lift {A} (m : outcome A) : preserves (slift m).
Proof. by intros w r w' id page [= <- <-]. Qed.

Lemma preserves_bind {A B} (m : SM W A) (k : A → SM W B) : preserves m → (∀ a, preserves (k a)) → preserves (let+ a := m in k a).
Proof.
  intros Hm Hk w r w' id page H Hh. unfold sbind in H. destruct (m w) as [[a|e|] w1] eqn:E; [|by injection H as <- <-; eapply Hm..].
  eapply Hk; [exact H|]. by eapply Hm.
Qed.

Lemma preserves_for {A S} (xs : list A) (s : S) body : (∀ s x, preserves (body s x)) → preserves (sfor xs s body).
Proof. intros Hb. revert s. induction xs as [|x xs IH]; intros s; [apply preserves_lift|]. apply preserves_bind; [apply Hb|apply IH]. Qed.

Lemma preserves_sync : preserves pager_sync.
Proof. intros w r w' id page. apply sync_keeps. Qed.

(** An allocated run can be written without touching a page in use. *)
Lemma preserves_run {A} n (k : Z → SM W A) :
  (∀ first w r w' id page, k first w = (r, w') → ¬ first ≤ id < first + Z.of_nat n → held w id page → held w' id page) → preserves (let+ first := allocate_run n in k first).
Proof.
  intros Hk w r w' id page H Hh. unfold sbind in H. destruct (allocate_run n w) as [o w1] eqn:E. destruct (allocate_keeps _ _ _ _ _ _ E Hh) as [Hh1 Hno].
  destruct o as [first|e|]; [|by injection H as <- <-..]. eapply Hk; [exact H|by apply Hno|done].
Qed.

Lemma writes_others (page_of : nat → list Z) ids : ∀ k w r w' id page,
  sfor (enumerate_from k ids) tt (λ _ '(i, page_id), write_page page_id (page_of i)) w = (r, w') → id ∉ ids → held w id page → held w' id page.
Proof.
  induction ids as [|x ids IH]; intros k w r w' id page H Hid Hh; [by injection H as <- <-|]. rewrite enumerate_from_cons in H. cbn [sfor] in H.
  apply not_elem_of_cons in Hid as [Hne Hid]. unfold sbind at 1 in H. destruct (write_page x (page_of k) w) as [o w1] eqn:E.
  pose proof (write_others _ _ _ _ _ _ _ E Hne Hh) as Hh1. destruct o as [[]|e|]; [|by injection H as <- <-..]. by eapply IH.
Qed.

Definition run_of (first : Z) (n : nat) : list Z := (λ i, first + Z.of_nat i) <$> seq 0 n.

Lemma elem_run_of first n x : x ∈ run_of first n ↔ first ≤ x < first + Z.of_nat n.
Proof.
  unfold run_of. rewrite list_elem_of_fmap. split.
  - intros (i & -> & Hi). apply elem_of_seq in Hi. lia.
  - intros Hx. exists (Z.to_nat (x - first)). split; [lia|]. apply elem_of_seq. lia.
Qed.

Lemma collect_run first n e : first + Z.of_nat n ≤ 2 ^ 64 → 0 ≤ first → collect (λ i, ok_or (try_u 64 (first + Z.of_nat i)) e) (seq 0 n) = Ok (run_of first n).
Proof.
  intros Hu Hf. apply collect_Ok. unfold run_of. apply Forall2_fmap_r. apply Forall2_same_length_lookup_2; [done|]. intros i x y Hx Hy. rewrite Hx in Hy. injection Hy as <-.
  apply lookup_seq in Hx as [-> Hi]. by rewrite try_u_in by (unfold in_u; lia).
Qed.

Lemma preserves_payload payload : preserves (write_payload payload).
Proof.
  unfold write_payload. destruct (div_ceil (length payload) page_bytes =? 0)%nat; [apply preserves_lift|]. set (n := div_ceil (length payload) page_bytes).
  intros w r w' id page H Hh. unfold sbind at 1 in H. destruct (allocate_run n w) as [o w1] eqn:E. destruct (allocate_keeps _ _ _ _ _ _ E Hh) as [Hh1 Hno].
  destruct o as [first|e|]; [|by injection H as <- <-..]. specialize (Hno first eq_refl). destruct (allocate_range _ _ _ _ E) as [H2 Hu].
  rewrite (collect_run first n) in H by lia. unfold sbind, slift in H.
  destruct (sfor (enumerate (run_of first n)) tt _ w1) as [o2 w2] eqn:Ew. assert (held w2 id page) as Hh2.
  { eapply (writes_others (payload_page payload)); [exact Ew| |exact Hh1]. by rewrite elem_run_of. }
  destruct o2 as [[]|e|]; by injection H as <- <-.
Qed.

Lemma preserves_entry entries payload : preserves (write_entry entries payload).
Proof. apply preserves_bind; [apply preserves_payload|intros f]. apply preserves_bind; [apply preserves_lift|intros len]. apply preserves_lift. Qed.

Lemma preserves_group self : preserves (write_group self).
Proof.
  unfold write_group. apply preserves_bind; [apply preserves_lift|intros _]. apply preserves_bind; [apply preserves_lift|intros payloads].
  apply preserves_bind.
  { apply preserves_for, preserves_entry. }
  intros entries. apply preserves_run. intros first w r w' id page H Hid Hh. unfold sbind, slift in H.
  destruct (encode_directory _ _ entries page_bytes) as [dir|e|]; [|by injection H as <- <-..]. destruct (write_page first dir w) as [o w1] eqn:E.
  assert (held w1 id page) as Hh1 by (eapply write_others; [exact E|lia|exact Hh]). destruct o as [[]|e|]; [|by injection H as <- <-..].
  destruct (pager_sync w1) as [o2 w2] eqn:E2. pose proof (sync_keeps _ _ _ _ _ E2 Hh1) as Hh2. destruct o2 as [[]|e|]; by injection H as <- <-.
Qed.

(** ** Payloads read back *)

Definition payload_at (w : W) (first : Z) (payload : list Z) : Prop :=
  0 ≤ first ∧ first + Z.of_nat (div_ceil (length payload) page_bytes) ≤ 2 ^ 64 ∧
  ∀ i, (i < div_ceil (length payload) page_bytes)%nat → held w (first + Z.of_nat i) (payload_page payload i).

(** Every page in use still holds what it held. *)
Definition pages_le (w w' : W) : Prop := ∀ id page, held w id page → held w' id page.

Lemma preserves_le {A} (m : SM W A) w r w' : preserves m → m w = (r, w') → pages_le w w'.
Proof. intros Hm H id page. by eapply Hm. Qed.

Lemma payload_at_kept w w' first payload : pages_le w w' → payload_at w first payload → payload_at w' first payload.
Proof. intros Hm (H1 & H2 & H3). split; [done|]. split; [done|]. intros i Hi. by apply Hm, H3. Qed.

Lemma length_payload_page payload i : (i * page_bytes ≤ length payload)%nat → length (payload_page payload i) = page_bytes.
Proof.
  intros Hi. unfold payload_page. rewrite length_app, length_replicate, length_sub by lia. pose proof page_bytes_min. lia.
Qed.

Lemma pages_div_ceil a b : (0 < b)%nat → (a ≤ div_ceil a b * b ∧ (div_ceil a b * b < a + b))%nat.
Proof.
  intros Hb. unfold div_ceil. pose proof (Nat.div_mod_eq (a + (b - 1)) b). pose proof (Nat.mod_upper_bound (a + (b - 1)) b ltac:(lia)). nia.
Qed.

Lemma write_pages_held payload ids : ∀ k w w', NoDup ids → ((k + length ids - 1) * page_bytes ≤ length payload)%nat →
  sfor (enumerate_from k ids) tt (λ _ '(i, page_id), write_page page_id (payload_page payload i)) w = (Ok tt, w') →
  ∀ i id, ids !! i = Some id → held w' id (payload_page payload (k + i)).
Proof.
  induction ids as [|id ids IH]; intros k w w' Hnd Hk H i id' Hi; [done|]. apply NoDup_cons in Hnd as [Hni Hnd]. cbn [length] in Hk.
  rewrite enumerate_from_cons in H. cbn [sfor] in H. apply sbind_Ok in H as ([] & w1 & E1 & H). destruct i as [|i].
  - injection Hi as <-. rewrite Nat.add_0_r. eapply (writes_others (payload_page payload)); [exact H|done|]. eapply write_held; [|exact E1]. apply length_payload_page. nia.
  - rewrite Nat.add_succ_r. eapply (IH (S k)); [done|nia|exact H|done].
Qed.

Lemma write_pages_room payload room ids : ∀ k w, page_room room w → Forall (usable w) ids → ((k + length ids - 1) * page_bytes ≤ length payload)%nat →
  ∃ w', sfor (enumerate_from k ids) tt (λ _ '(i, page_id), write_page page_id (payload_page payload i)) w = (Ok tt, w') ∧ page_room room w'.
Proof.
  induction ids as [|id ids IH]; intros k w Hr H2 Hk; [by exists w|]. apply Forall_cons in H2 as [Hid H2]. cbn [length] in Hk. rewrite enumerate_from_cons. cbn [sfor].
  destruct (room_writes id room (payload_page payload k) w Hr Hid ltac:(apply length_payload_page; nia)) as (w1 & E1 & Hr1). unfold sbind at 1. rewrite E1.
  apply IH; [done| |nia]. eapply Forall_impl; [exact H2|]. intros x. by eapply write_usable.
Qed.

Lemma NoDup_run first n : NoDup (run_of first n).
Proof. apply NoDup_fmap; [intros x y; lia|apply NoDup_seq]. Qed.

Lemma length_run first n : length (run_of first n) = n.
Proof. unfold run_of. by rewrite length_fmap, length_seq. Qed.

Lemma run_lookup first n i : (i < n)%nat → run_of first n !! i = Some (first + Z.of_nat i).
Proof. intros Hi. unfold run_of. by rewrite list_lookup_fmap, lookup_seq_lt. Qed.

Lemma write_payload_held payload w first w' : write_payload payload w = (Ok first, w') → payload_at w' first payload ∧ 2 ≤ first.
Proof.
  intros H. pose proof page_bytes_min as Hmin. destruct (pages_div_ceil (length payload) page_bytes) as [D1 D2]; [lia|]. unfold write_payload in H.
  set (n := div_ceil (length payload) page_bytes) in *. destruct (Nat.eqb_spec n 0) as [|Hn]; [done|]. apply sbind_Ok in H as (first' & w1 & E1 & H).
  destruct (allocate_range _ _ _ _ E1) as [H2 Hu]. unfold sbind at 1, slift at 1 in H. rewrite (collect_run first' n) in H by lia.
  apply sbind_Ok in H as ([] & w2 & E2 & H). unfold slift, index in H. rewrite run_lookup in H by lia. injection H as <- <-. rewrite Z.add_0_r. split; [|done].
  split; [lia|]. split; [done|]. intros i Hi. fold n in Hi. apply (write_pages_held payload (run_of first' n) 0 w1 w2); [apply NoDup_run|rewrite length_run; nia|exact E2|by apply run_lookup].
Qed.

Lemma write_payload_room payload room w : page_room (Z.of_nat (div_ceil (length payload) page_bytes) + room) w → 0 ≤ room → (0 < length payload)%nat → ∃ first w', write_payload payload w = (Ok first, w') ∧ page_room room w'.
Proof.
  intros Hr Hroom Hl. pose proof page_bytes_min as Hmin. destruct (pages_div_ceil (length payload) page_bytes) as [D1 D2]; [lia|]. unfold write_payload.
  set (n := div_ceil (length payload) page_bytes) in *. assert (0 < n)%nat as Hn by nia. rewrite (proj2 (Nat.eqb_neq n 0)) by lia.
  destruct (room_allocates n room w Hr Hroom Hn) as (first & w1 & E1 & Hr1). destruct (allocate_range _ _ _ _ E1) as [H2 Hu]. unfold sbind at 1. rewrite E1.
  unfold sbind at 1, slift at 1. rewrite (collect_run first n) by lia. destruct (write_pages_room payload room (run_of first n) 0 w1 Hr1) as (w2 & E2 & Hr2).
  { apply Forall_forall. intros x Hx. apply elem_run_of in Hx. by eapply allocate_usable. }
  { rewrite length_run. nia. }
  unfold sbind at 1, enumerate. rewrite E2. unfold slift, index. rewrite run_lookup by lia. eauto.
Qed.

Lemma read_payload_ok w first payload c : payload_at w first payload → read_payload w (mkEntry first (zlen payload) c) = Ok payload.
Proof.
  intros (Hf & Hu & Hh). pose proof page_bytes_min as Hmin. destruct (pages_div_ceil (length payload) page_bytes) as [D1 D2]; [lia|].
  unfold read_payload. cbn [byte_len first_page]. unfold zlen. rewrite Nat2Z.id. set (n := div_ceil (length payload) page_bytes) in *.
  enough (∀ m k, (k + m = n)%nat → for_each (seq k m) (take (k * page_bytes) payload) (λ payload0 i,
    let! page_id := ok_or (try_u 64 (first + Z.of_nat i)) (Corrupt "{name} payload page run overflows u64") in
    let! page := read_referenced_page w page_id in
    let taken := Nat.min (length payload - length payload0) page_bytes in
    let! bytes := slice page 0 taken in
    let! rest := slice page taken (length page) in
    if (taken <? page_bytes)%nat && existsb (λ byte, negb (byte =? 0)) rest
    then Err (Corrupt "{name} payload page padding is not zero") else Ok (payload0 ++ bytes)) = Ok payload) as Hloop by (by apply (Hloop n 0%nat)).
  induction m as [|m IH]; intros k Hk; [cbn; f_equal; apply take_ge; nia|]. cbn [seq for_each]. rewrite try_u_in by (unfold in_u; lia). cbn [ok_or bind].
  unfold read_referenced_page. rewrite (held_reads _ _ _ (Hh k ltac:(lia))). cbn [map_err bind]. cbv zeta.
  assert (k * page_bytes ≤ length payload)%nat as Hkl by nia. rewrite length_take, (Nat.min_l (k * page_bytes)) by done.
  set (taken := Nat.min (length payload - k * page_bytes) page_bytes). assert (length (payload_page payload k) = page_bytes) as Hl by (by apply length_payload_page).
  assert (payload_page payload k = sub (k * page_bytes) (k * page_bytes + taken) payload ++ replicate (page_bytes - taken) 0) as Hpage.
  { unfold payload_page. replace (Nat.min (length payload) (k * page_bytes + page_bytes)) with (k * page_bytes + taken)%nat by lia. do 2 f_equal. lia. }
  assert (length (sub (k * page_bytes) (k * page_bytes + taken) payload) = taken) as Hsl by (rewrite length_sub; lia).
  assert (sub 0 taken (payload_page payload k) = sub (k * page_bytes) (k * page_bytes + taken) payload) as Ha by (rewrite Hpage, sub_app_l, sub_all by lia; done).
  assert (sub taken page_bytes (payload_page payload k) = replicate (page_bytes - taken) 0) as Hb.
  { rewrite Hpage, sub_app_r, Hsl, Nat.sub_diag by lia. apply sub_all. by rewrite length_replicate. }
  rewrite Hl, !slice_Ok by lia. cbn [bind]. rewrite Ha, Hb, existsb_zeros, andb_false_r. cbn [bind].
  assert (take (k * page_bytes) payload ++ sub (k * page_bytes) (k * page_bytes + taken) payload = take (S k * page_bytes) payload) as ->; [|apply IH; lia].
  unfold sub. rewrite Nat.add_comm, Nat.add_sub. destruct (decide (taken = page_bytes)) as [->|Hne].
  - rewrite take_take_drop. f_equal. lia.
  - rewrite (take_ge (drop _ _)) by (rewrite length_drop; lia). rewrite take_drop. symmetry. apply take_ge. lia.
Qed.

(** ** Groups read back *)

(** The entry of a payload persisted at its first page. *)
Definition entry_at (w : W) (e : ArrayEntry) (payload : list Z) : Prop :=
  payload_at w (first_page e) payload ∧ e = mkEntry (first_page e) (zlen payload) (crc32c payload) ∧ in_u 32 (zlen payload) ∧ in_u 64 (first_page e).

Definition group_layout (w : W) (id : Z) (types : list LogicalType) (g : CsrGroup) (entries : list ArrayEntry) : Prop :=
  ∃ adj payloads, g = csr_of types adj ∧ group_good types adj ∧ encode_payloads g = Ok payloads ∧ Forall2 (entry_at w) entries payloads ∧
    (16 + 16 * length entries ≤ page_bytes)%nat ∧ zlen entries - 2 < 2 ^ 32 ∧ held w id (directory_bytes (csr_row_count g) (edge_count g) entries page_bytes).

Definition group_at (w : W) (id : Z) (types : list LogicalType) (g : CsrGroup) : Prop := ∃ entries, group_layout w id types g entries.

Lemma entry_at_kept w w' e payload : pages_le w w' → entry_at w e payload → entry_at w' e payload.
Proof. intros Hm (H1 & H2). split; [by eapply payload_at_kept|done]. Qed.

Lemma group_at_kept w w' id types g : pages_le w w' → group_at w id types g → group_at w' id types g.
Proof.
  intros Hm (entries & adj & payloads & H1 & H2 & H3 & H4 & H5 & H6 & H7). exists entries, adj, payloads. split_and!; try done.
  - eapply Forall2_impl; [exact H4|]. intros e p. by apply entry_at_kept.
  - by apply Hm.
Qed.

Lemma write_entries_at payloads : ∀ entries w entries' w', sfor payloads entries write_entry w = (Ok entries', w') →
  ∃ added, entries' = entries ++ added ∧ Forall2 (entry_at w') added payloads.
Proof.
  induction payloads as [|p payloads IH]; intros entries w entries' w' H; [injection H as <- <-; exists []; by rewrite app_nil_r|]. cbn [sfor] in H.
  apply sbind_Ok in H as (entries1 & w1 & E1 & H). unfold write_entry in E1. apply sbind_Ok in E1 as (first & w2 & Ew & E1).
  unfold sbind, slift in E1. destruct (try_u 32 (zlen p)) as [len|] eqn:El; [|done]. injection E1 as <- <-. apply try_u_Some in El as [-> Hu].
  destruct (IH _ _ _ _ H) as (added & -> & Ha). exists (mkEntry first (zlen p) (crc32c p) :: added). split; [by rewrite <- app_assoc|]. constructor; [|done].
  destruct (write_payload_held _ _ _ _ Ew) as [Hp H2]. apply (entry_at_kept w2).
  - eapply preserves_le; [|exact H]. apply preserves_for, preserves_entry.
  - split; [exact Hp|]. split; [done|]. split; [done|]. destruct Hp as (P1 & P2 & _). pose proof page_bytes_min.
    destruct (pages_div_ceil (length p) page_bytes) as [D1 D2]; [lia|]. unfold in_u. cbn [first_page]. split; [lia|].
    destruct (decide (div_ceil (length p) page_bytes = 0)%nat) as [E0|]; [|lia]. exfalso. unfold write_payload in Ew. by rewrite E0 in Ew.
Qed.

(** A payload's pages were not in use before it was written. *)
Lemma write_payload_fresh payload w first w' id page : write_payload payload w = (Ok first, w') → held w id page →
  id ∉ run_of first (div_ceil (length payload) page_bytes).
Proof.
  intros H Hh. unfold write_payload in H. set (n := div_ceil (length payload) page_bytes) in *. destruct (n =? 0)%nat eqn:Hn; [done|]. apply Nat.eqb_neq in Hn.
  apply sbind_Ok in H as (first' & w1 & E1 & H). destruct (allocate_range _ _ _ _ E1) as [H2 Hu]. unfold sbind at 1, slift at 1 in H. rewrite (collect_run first' n) in H by lia.
  apply sbind_Ok in H as ([] & w2 & E2 & H). unfold slift, index in H. rewrite run_lookup in H by lia. injection H as <- <-. rewrite Z.add_0_r, elem_run_of.
  destruct (allocate_keeps _ _ _ _ _ _ E1 Hh) as [_ Hno]. by apply Hno.
Qed.

Lemma write_entries_fresh payloads : ∀ entries w entries' w' id page, sfor payloads entries write_entry w = (Ok entries', w') → held w id page →
  ∃ added, entries' = entries ++ added ∧ Forall2 (λ e p, id ∉ run_of (first_page e) (div_ceil (length p) page_bytes)) added payloads.
Proof.
  induction payloads as [|p payloads IH]; intros entries w entries' w' id page H Hh; [injection H as <- <-; exists []; by rewrite app_nil_r|]. cbn [sfor] in H.
  apply sbind_Ok in H as (entries1 & w1 & E1 & H). pose proof (preserves_entry _ _ _ _ _ _ _ E1 Hh) as Hh1. unfold write_entry in E1. apply sbind_Ok in E1 as (first & w2 & Ew & E1).
  unfold sbind, slift in E1. destruct (try_u 32 (zlen p)) as [len|] eqn:El; [|done]. injection E1 as <- <-.
  destruct (IH _ _ _ _ _ _ H Hh1) as (added & -> & Ha). exists (mkEntry first len (crc32c p) :: added). split; [by rewrite <- app_assoc|]. constructor; [|done].
  by eapply write_payload_fresh.
Qed.

(** The payloads of a group that can be persisted: each column's encoding has the
    length its type implies and decodes to the column. *)
Definition payload_ok (edges : nat) (x : list Value * LogicalType) (payload : list Z) : Prop :=
  encode_column x.1 x.2 = Ok payload ∧ storable x.2 ∧ column_ok x.1 x.2 ∧ length x.1 = edges ∧ length payload = column_size x.1 x.2 ∧
  decode_column payload edges x.2 = Ok x.1.

Lemma group_columns types adj i column ty : group_good types adj → zip (csr_columns (csr_of types adj)) types !! i = Some (column, ty) →
  column = column_of i (concat adj) ∧ types !! i = Some ty ∧ storable ty ∧ column_ok column ty ∧ length column = length (concat adj).
Proof.
  intros (_ & _ & _ & _ & _ & Hc & _) Hz. apply lookup_zip_Some in Hz as [Hcol Hty]. cbn [csr_of csr_columns] in Hcol. rewrite list_lookup_fmap in Hcol.
  apply fmap_Some in Hcol as (j & [-> Hj]%lookup_seq & ->). simpl. destruct (Hc i ty Hty). split_and!; try done. unfold column_of. apply length_fmap.
Qed.

Lemma encode_payloads_ok types adj (g := csr_of types adj) : group_good types adj →
  ∃ columns, encode_payloads g = Ok (encode_offsets (offsets g) :: encode_neighbors (neighbors g) :: columns) ∧
    Forall2 (payload_ok (edge_count g)) (zip (csr_columns g) types) columns.
Proof.
  intros Hg. assert (∀ x, x ∈ zip (csr_columns g) types → ∃ payload, payload_ok (edge_count g) x payload) as Hall.
  { intros [column ty] Hx. apply list_elem_of_lookup in Hx as [i Hx]. destruct (group_columns _ _ _ _ _ Hg Hx) as (_ & _ & Hs & Hc & Hl).
    destruct (column_roundtrip column ty Hs Hc) as (payload & He & Hlen & Hd). exists payload. unfold payload_ok, g. rewrite csr_of_edges. cbn [fst snd]. rewrite <- Hl at 2. done. }
  apply Forall_forall, Forall_exists_Forall2_l in Hall as [columns Hall]. exists columns. split; [|done]. unfold encode_payloads.
  assert (collect (λ '(column, ty), encode_column column ty) (zip (csr_columns g) (csr_types g)) = Ok columns) as ->; [|done].
  apply collect_Ok. eapply Forall2_impl; [exact Hall|]. intros [column ty] payload H. apply H.
Qed.

Lemma validate_structure_ok types adj : group_good types adj → validate_structure (csr_of types adj) = Ok tt.
Proof.
  intros Hg. unfold validate_structure. rewrite csr_of_edges. cbn [csr_of offsets csr_columns]. rewrite sums_monotonic. rewrite (sums_head 0). cbn [fmap list_fmap head].
  rewrite <- (fmap_cons Z.of_nat), <- sums_head, fmap_last, sums_last, sum_lengths. cbn [fmap option_fmap option_map Nat.add negb]. rewrite !bool_decide_eq_true_2 by done. cbn [negb].
  assert (existsb (λ column, negb (length column =? length (concat adj))%nat) ((λ i, column_of i (concat adj)) <$> seq 0 (length types)) = false) as ->; [|done].
  apply not_true_iff_false. rewrite existsb_exists. intros (column & Hc & Hne). apply list_elem_of_In, list_elem_of_fmap in Hc as (i & -> & _).
  unfold column_of in Hne. by rewrite length_fmap, Nat.eqb_refl in Hne.
Qed.

(** The directory has room for the entries of these columns. *)
Definition directory_fits (types : list LogicalType) : Prop := (16 + 16 * (length types + 2) ≤ page_bytes)%nat ∧ zlen types < 2 ^ 32.

Lemma validate_for_write_ok types adj : group_good types adj → directory_fits types → validate_for_write (csr_of types adj) = Ok tt.
Proof.
  intros Hg [Hf _]. pose proof Hg as (_ & _ & G3 & _). unfold validate_for_write. rewrite csr_of_edges, (proj2 (Nat.eqb_neq _ 0)) by lia.
  unfold csr_column_count, REQUIRED_ARRAYS, DIRECTORY_HEADER_LEN, DIRECTORY_ENTRY_LEN. cbn [csr_of csr_columns]. rewrite length_fmap, length_seq.
  rewrite (proj2 (Nat.ltb_ge page_bytes 16)) by lia. rewrite (proj2 (Nat.ltb_ge _ _)); [by apply validate_structure_ok|].
  apply Nat.div_le_lower_bound; lia.
Qed.

Lemma validate_for_write_fits types adj : validate_for_write (csr_of types adj) = Ok tt → (16 + 16 * (length types + 2) ≤ page_bytes)%nat.
Proof.
  unfold validate_for_write, csr_column_count, REQUIRED_ARRAYS, DIRECTORY_HEADER_LEN, DIRECTORY_ENTRY_LEN. cbn [csr_of csr_columns]. rewrite length_fmap, length_seq.
  destruct (_ =? 0)%nat; [done|]. destruct (Nat.ltb_spec page_bytes 16); [done|]. destruct (Nat.ltb_spec ((page_bytes - 16) / 16) (length types + 2)); [done|]. intros _.
  pose proof (Nat.Div0.mul_div_le (page_bytes - 16) 16). lia.
Qed.

(** A written group's pages are in use, and none of them was before. *)
Lemma write_group_layout types adj w id w' : group_good types adj → write_group (csr_of types adj) w = (Ok id, w') →
  id ≠ 0 ∧ ∃ entries, group_layout w' id types (csr_of types adj) entries ∧
    ∀ q page, held w q page → q ≠ id ∧ Forall (λ e, q ∉ run_of (first_page e) (div_ceil (Z.to_nat (byte_len e)) page_bytes)) entries.
Proof.
  intros Hg H. pose proof Hg as (G1 & G2 & G3 & G4 & _). destruct (encode_payloads_ok types adj Hg) as (cols & Hp & Hcols). set (g := csr_of types adj) in *.
  set (payloads := encode_offsets (offsets g) :: encode_neighbors (neighbors g) :: cols) in *. unfold write_group in H. apply sbind_Ok in H as ([] & w0 & Hv & H). injection Hv as Hv <-.
  unfold sbind at 1, slift at 1 in H. rewrite Hp in H. apply sbind_Ok in H as (entries & w2 & He & H).
  apply sbind_Ok in H as (dir & w3 & Ed & H). apply sbind_Ok in H as (page & w4 & Hpg & H). injection Hpg as Hpg <-.
  apply sbind_Ok in H as ([] & w5 & Ew & H). apply sbind_Ok in H as ([] & w6 & Es & H). injection H as <- <-.
  destruct (write_entries_at payloads [] w entries w2 He) as (added & Eq & Ha). cbn [app] in Eq. subst added. pose proof (Forall2_length _ _ _ Ha) as Hle.
  assert (length payloads = length types + 2)%nat as Hlp.
  { apply Forall2_length in Hcols. rewrite length_zip_with in Hcols. unfold g in Hcols. cbn [csr_of csr_columns] in Hcols. rewrite length_fmap, length_seq, Nat.min_id in Hcols. simpl. lia. }
  pose proof (validate_for_write_fits _ _ Hv) as Hfit. destruct (allocate_range _ _ _ _ Ed) as [Hid Hu]. split; [lia|].
  assert (zlen entries - 2 < 2 ^ 32) as Hz.
  { unfold encode_directory in Hpg. apply bind_Ok in Hpg as (r & _ & Hpg). apply bind_Ok in Hpg as (e & _ & Hpg). apply bind_Ok in Hpg as (c & Hc & Hpg).
    apply ok_or_Ok, try_u_Some in Hc as [-> _]. apply bind_Ok in Hpg as (c & Hc & _). apply ok_or_Ok, try_u_Some in Hc as [-> [_ Hc]]. unfold REQUIRED_ARRAYS in Hc. lia. }
  rewrite encode_directory_ok in Hpg by (unfold zlen in *; unfold g; rewrite ?csr_of_rows, ?csr_of_edges; lia). injection Hpg as <-.
  exists entries. split; [exists adj, payloads; split_and!; try done; [|lia|]|].
  - eapply Forall2_impl; [exact Ha|]. intros e p Hep. eapply entry_at_kept; [by eapply preserves_le; [apply preserves_sync|]|].
    destruct Hep as [(P1 & P2 & P3) Hep]. split; [|exact Hep]. split; [done|]. split; [done|]. intros i Hi. specialize (P3 i Hi).
    destruct (allocate_keeps _ _ _ _ _ _ Ed P3) as [P4 Hno]. specialize (Hno dir eq_refl). eapply write_others; [exact Ew|lia|exact P4].
  - eapply sync_keeps; [exact Es|]. eapply write_held; [|exact Ew]. apply length_directory. lia.
  - intros q page Hq. destruct (write_entries_fresh payloads [] w entries w2 q page He Hq) as (added & Eq & Hf). cbn [app] in Eq. subst added.
    assert (held w2 q page) as Hq2 by (eapply (preserves_for payloads [] write_entry); [apply preserves_entry|exact He|exact Hq]).
    destruct (allocate_keeps _ _ _ _ _ _ Ed Hq2) as [_ Hno]. specialize (Hno dir eq_refl). split; [lia|].
    apply Forall_forall. intros e [i Hi]%list_elem_of_lookup. destruct (Forall2_lookup_l _ _ _ _ _ Hf Hi) as (p & Hpi & Hq'). destruct (Forall2_lookup_l _ _ _ _ _ Ha Hi) as (p' & Hpi' & (_ & Ee & _)).
    rewrite Hpi in Hpi'. injection Hpi' as <-. rewrite Ee. cbn [first_page byte_len]. unfold zlen. by rewrite Nat2Z.id.
Qed.

Lemma write_group_at types adj w id w' : group_good types adj → write_group (csr_of types adj) w = (Ok id, w') → id ≠ 0 ∧ group_at w' id types (csr_of types adj).
Proof. intros Hg H. destruct (write_group_layout types adj w id w' Hg H) as (Hid & entries & Hl & _). split; [done|by exists entries]. Qed.

Lemma entry_wf_at w e payload : entry_at w e payload → entry_wf e.
Proof. intros (_ & -> & Hl & Hf). split_and!; [exact Hf|exact Hl|apply crc32c_append_u32]. Qed.

Lemma read_checked_ok w e payload : entry_at w e payload → read_checked_payload w e = Ok payload.
Proof. intros (Hp & -> & _). unfold read_checked_payload. rewrite read_payload_ok by exact Hp. cbn [bind checksum]. by rewrite Z.eqb_refl. Qed.

Lemma column_len_ok edges x payload w e : payload_ok edges x payload → entry_at w e payload → validate_column_payload_len e edges x.2 = Ok tt.
Proof.
  destruct x as [column ty]. intros (He & Hs & [Hc Hsize] & Hl & Hlen & _) (_ & -> & _). cbn [fst snd] in *. unfold zlen in *. rewrite <- Hl. rewrite Hlen in *.
  assert (∀ z, Z.of_nat (column_size column ty) = z → fixed_payload_len (length column) ty = Some z → 
    (let! expected := ok_or (fixed_payload_len (length column) ty) (Corrupt "property column {column_index} implied payload length overflows") in
     if negb (Z.of_nat (column_size column ty) =? expected) then Err (Corrupt "property column {column_index} byte_len is {actual}, expected exactly {expected} for {logical_type}") else Ok tt) = Ok tt) as Hfix.
  { intros z Hz ->. cbn [ok_or bind]. by rewrite Hz, Z.eqb_refl. }
  unfold column_size in *. destruct ty as [| | | |dim| | | | | |]; try done; unfold validate_column_payload_len; cbn [byte_len values_size] in *.
  - apply (Hfix _ eq_refl). unfold fixed_payload_len. cbn [mbind option_bind]. rewrite try_u_in by (unfold in_u; lia). f_equal. lia.
  - apply (Hfix _ eq_refl). unfold fixed_payload_len. rewrite try_u_in by (unfold in_u; lia). cbn [mbind option_bind]. rewrite try_u_in by (unfold in_u; lia). f_equal. lia.
  - apply (Hfix _ eq_refl). unfold fixed_payload_len. rewrite try_u_in by (unfold in_u; lia). cbn [mbind option_bind]. rewrite try_u_in by (unfold in_u; lia). f_equal. lia.
  - unfold string_payload_prefix_len. do 3 (rewrite try_u_in by (unfold in_u; lia); cbn [mbind option_bind ok_or bind]). rewrite (proj2 (Z.ltb_ge _ _)) by lia. done.
  - destruct Hs as [Hd _]. apply (Hfix _ eq_refl). unfold fixed_payload_len. do 3 (rewrite try_u_in by (unfold in_u; lia); cbn [mbind option_bind ok_or bind]). f_equal. lia.
Qed.

Lemma length_encode_offsets xs : length (encode_offsets xs) = (4 * length xs)%nat.
Proof. apply length_concat_fixed. intros; apply length_to_le. Qed.

Lemma length_encode_neighbors xs : length (encode_neighbors xs) = (8 * length xs)%nat.
Proof. apply length_concat_fixed. intros; apply length_to_le. Qed.

Lemma decode_offsets_ok types adj (g := csr_of types adj) : group_good types adj →
  decode_offsets (encode_offsets (offsets g)) (csr_row_count g) (edge_count g) = Ok (offsets g).
Proof.
  intros (G1 & G2 & G3 & G4 & _). unfold decode_offsets, encode_offsets. rewrite (from_chunks 4 32); [|lia|done|].
  2:{ unfold g. cbn [csr_of offsets]. apply Forall_fmap. eapply Forall_impl; [apply sums_bound|]. intros n Hn. rewrite sum_lengths in Hn. unfold in_u. simpl. lia. }
  unfold g. rewrite csr_of_rows, csr_of_edges. cbn [csr_of offsets]. rewrite length_fmap, length_sums, length_fmap, (proj2 (Nat.eqb_eq _ _)) by lia. cbn [negb].
  rewrite sums_monotonic, fmap_last, sums_last, sum_lengths. cbn [fmap option_fmap option_map Nat.add]. rewrite (sums_head 0). cbn [fmap list_fmap head]. by rewrite !bool_decide_eq_true_2.
Qed.

Lemma decode_neighbors_ok types adj n (g := csr_of types adj) : group_good types adj → below n g = true → decode_neighbors (encode_neighbors (neighbors g)) (Some n) = Ok (neighbors g).
Proof.
  intros (_ & _ & _ & _ & G5 & _) Hb. unfold decode_neighbors, encode_neighbors. rewrite (from_chunks 8 64); [|lia|done|].
  2:{ unfold g. cbn [csr_of neighbors]. by apply Forall_fmap. }
  assert (existsb (λ x, n <=? x) (neighbors g) = false) as ->; [|done]. apply not_true_iff_false. rewrite existsb_exists. intros (x & Hx & Hn).
  unfold below in Hb. rewrite forallb_forall in Hb. specialize (Hb x Hx). lia.
Qed.

Lemma layout_directory w id types g entries : group_layout w id types g entries →
  ∃ page, read_page w id = Ok page ∧ decode_directory page types = Ok (csr_row_count g, edge_count g, entries).
Proof.
  intros (adj & payloads & -> & Hg & Hp & He & Hfit & Hz & Hh). destruct (encode_payloads_ok types adj Hg) as (cols & Hp' & Hcols). rewrite Hp in Hp'.
  injection Hp' as ->. apply Forall2_length in Hcols. rewrite length_zip_with in Hcols. cbn [csr_of csr_columns] in Hcols. rewrite length_fmap, length_seq, Nat.min_id in Hcols.
  pose proof (Forall2_length _ _ _ He) as Hl. cbn [length] in Hl. pose proof Hg as (G1 & G2 & G3 & G4 & _). eexists. split; [by apply held_reads|].
  apply directory_roundtrip; rewrite ?csr_of_rows, ?csr_of_edges; try lia.
  apply Forall_forall. intros e [i Hi]%list_elem_of_lookup. destruct (Forall2_lookup_l _ _ _ _ _ He Hi) as (p & _ & Hep). by eapply entry_wf_at.
Qed.

(** The parts of a persisted group. *)
Lemma group_at_parts w id types g : group_at w id types g →
  ∃ adj e0 e1 es cols, g = csr_of types adj ∧ group_good types adj ∧
    entry_at w e0 (encode_offsets (offsets g)) ∧ entry_at w e1 (encode_neighbors (neighbors g)) ∧ Forall2 (entry_at w) es cols ∧
    Forall2 (payload_ok (edge_count g)) (zip (csr_columns g) types) cols ∧ length cols = length types ∧
    ∃ page, read_page w id = Ok page ∧ decode_directory page types = Ok (csr_row_count g, edge_count g, e0 :: e1 :: es).
Proof.
  intros (entries & Hl). pose proof (layout_directory _ _ _ _ _ Hl) as Hdir. destruct Hl as (adj & payloads & -> & Hg & Hp & He & _).
  destruct (encode_payloads_ok types adj Hg) as (cols & Hp' & Hcols). rewrite Hp in Hp'. injection Hp' as ->.
  assert (length cols = length types) as Hlc.
  { apply Forall2_length in Hcols. rewrite length_zip_with in Hcols. cbn [csr_of csr_columns] in Hcols. rewrite length_fmap, length_seq, Nat.min_id in Hcols. lia. }
  destruct entries as [|e0 entries]; [by inversion He|]. apply Forall2_cons in He as [H0 He]. destruct entries as [|e1 es]; [by inversion He|]. apply Forall2_cons in He as [H1 He].
  by exists adj, e0, e1, es, cols.
Qed.

Lemma group_at_reads w id types g n : group_at w id types g → below n g = true → read_group w id types (Some n) = Ok g.
Proof.
  intros Hat Hb. destruct (group_at_parts _ _ _ _ Hat) as (adj & e0 & e1 & es & cols & -> & Hg & H0 & H1 & Hes & Hcols & Hlc & page & Hpage & Hdir).
  pose proof Hg as (G1 & G2 & G3 & G4 & _). unfold read_group. rewrite Hpage. cbn [bind]. rewrite Hdir. cbn [bind index lookup list_lookup expect].
  set (g := csr_of types adj) in *. assert (length (offsets g) = S (csr_row_count g)) as Hlo by (unfold csr_row_count; unfold g; cbn [csr_of offsets]; rewrite length_fmap, length_sums; lia).
  assert (csr_row_count g = length adj) as Hrows by apply csr_of_rows. assert (edge_count g = length (concat adj)) as Hedges by apply csr_of_edges.
  assert (∀ e p z, entry_at w e p → zlen p = z → z < 2 ^ 64 → validate_fixed_payload_len e z = Ok tt) as Hfix.
  { intros e p z (_ & -> & _) <- Hz. unfold validate_fixed_payload_len. pose proof (zlen_nonneg p). rewrite try_u_in by (unfold in_u; lia). cbn [ok_or bind byte_len]. by rewrite Z.eqb_refl. }
  rewrite (Hfix _ _ _ H0) by (unfold zlen; rewrite ?length_encode_offsets; lia). cbn [bind]. rewrite (read_checked_ok _ _ _ H0). cbn [bind]. unfold g at 1 2 3. rewrite decode_offsets_ok by done. cbn [bind].
  rewrite (Hfix _ _ _ H1) by (unfold zlen; rewrite ?length_encode_neighbors; change (length (neighbors g)) with (edge_count g); lia). cbn [bind]. rewrite (read_checked_ok _ _ _ H1). cbn [bind].
  unfold g at 1. rewrite (decode_neighbors_ok types adj n) by done. cbn [bind]. change (drop REQUIRED_ARRAYS (e0 :: e1 :: es)) with es.
  assert (collect (λ '(entry, ty), let! _ := validate_column_payload_len entry (edge_count g) ty in let! payload := read_checked_payload w entry in
    decode_column payload (edge_count g) ty) (zip es types) = Ok (csr_columns g)) as ->; [|done].
  apply collect_Ok. assert (length (csr_columns g) = length types) as Hlt by (unfold g; cbn [csr_of csr_columns]; by rewrite length_fmap, length_seq).
  pose proof (Forall2_length _ _ _ Hes). apply Forall2_same_length_lookup_2; [rewrite length_zip_with; lia|]. intros i [e ty] column [He Hty]%lookup_zip_Some Hcol.
  destruct (Forall2_lookup_l _ _ _ _ _ Hes He) as (p & Hp & Hep). destruct (Forall2_lookup_r _ _ _ _ _ Hcols Hp) as (x & Hx & Hok).
  assert (x = (column, ty)) as -> by (destruct x; apply lookup_zip_Some in Hx as [? ?]; congruence).
  pose proof (column_len_ok _ _ _ _ _ Hok Hep) as Hlen. cbn [snd] in Hlen. rewrite Hlen. cbn [bind]. rewrite (read_checked_ok _ _ _ Hep). cbn [bind]. apply Hok.
Qed.

(** The byte lengths of the property columns. *)
Definition column_lens (g : CsrGroup) : list Z := zip_with (λ column ty, Z.of_nat (column_size column ty)) (csr_columns g) (csr_types g).

Lemma group_at_header w id types g : group_at w id types g → read_header w id types = Ok (Z.of_nat (csr_row_count g), Z.of_nat (edge_count g), column_lens g).
Proof.
  intros Hat. destruct (group_at_parts _ _ _ _ Hat) as (adj & e0 & e1 & es & cols & -> & Hg & _ & _ & Hes & Hcols & Hlc & page & Hpage & Hdir).
  unfold read_header. rewrite Hpage. cbn [bind]. rewrite Hdir. cbn [bind]. change (drop REQUIRED_ARRAYS (e0 :: e1 :: es)) with es. do 2 f_equal.
  pose proof (Forall2_length _ _ _ Hes) as Hl. pose proof (Forall2_length _ _ _ Hcols) as Hl2. unfold column_lens. change (csr_types (csr_of types adj)) with types.
  apply (list_eq_same_length _ _ _ eq_refl); [by rewrite length_fmap, length_zip_with, <- length_zip_with with (f := pair), Hl2|]. intros i x y _ Hx Hy. rewrite list_lookup_fmap in Hx.
  apply fmap_Some in Hx as (e & He & ->). apply lookup_zip_with_Some in Hy as (column & ty & -> & Hc & Hty).
  destruct (Forall2_lookup_l _ _ _ _ _ Hes He) as (p & Hp & _ & -> & _). destruct (Forall2_lookup_r _ _ _ _ _ Hcols Hp) as (z & Hz & Hok).
  assert (z = (column, ty)) as -> by (destruct z; apply lookup_zip_Some in Hz as [? ?]; congruence). cbn [byte_len]. unfold zlen. f_equal. apply Hok.
Qed.

(** ** The page inventory *)

Definition entry_pages (e : ArrayEntry) : list Z := run_of (first_page e) (Nat.max (div_ceil (Z.to_nat (byte_len e)) page_bytes) 1).

Lemma inventory_run first n : ∀ k acc, 0 ≤ first → first + Z.of_nat (k + n) ≤ 2 ^ 64 →
  for_each (seq k n) acc (λ pages i, let! page_id := ok_or (try_u 64 (first + Z.of_nat i)) (Corrupt "CSR payload page run overflows u64") in Ok (pages ++ [page_id])) =
    Ok (acc ++ ((λ i, first + Z.of_nat i) <$> seq k n)).
Proof.
  induction n as [|n IH]; intros k acc Hf Hu; [by rewrite app_nil_r|]. cbn [seq for_each]. rewrite try_u_in by (unfold in_u; lia). cbn [ok_or bind].
  rewrite IH by lia. by rewrite fmap_cons, <- app_assoc.
Qed.

Lemma entry_pages_at w e payload : entry_at w e payload → (0 < length payload)%nat →
  entry_pages e = run_of (first_page e) (div_ceil (length payload) page_bytes) ∧ 0 ≤ first_page e ∧ first_page e + Z.of_nat (div_ceil (length payload) page_bytes) ≤ 2 ^ 64.
Proof.
  intros ((P1 & P2 & _) & -> & _) Hl. unfold entry_pages. cbn [first_page byte_len]. unfold zlen. rewrite Nat2Z.id. pose proof page_bytes_min.
  destruct (pages_div_ceil (length payload) page_bytes) as [D _]; [lia|]. rewrite Nat.max_l by nia. done.
Qed.

Lemma group_payloads_nonempty types adj payloads : group_good types adj → encode_payloads (csr_of types adj) = Ok payloads → Forall (λ p, (0 < length p)%nat ∧ zlen p < 2 ^ 32) payloads.
Proof.
  intros Hg Hp. pose proof Hg as (G1 & G2 & G3 & G4 & _). destruct (encode_payloads_ok types adj Hg) as (cols & Hp' & Hcols). rewrite Hp in Hp'. injection Hp' as ->.
  pose proof (csr_of_edges types adj) as Hedges. pose proof (csr_of_rows types adj) as Hrows. set (g := csr_of types adj) in *. unfold zlen. constructor; [|constructor].
  - rewrite length_encode_offsets, length_fmap, length_sums, length_fmap. lia.
  - rewrite length_encode_neighbors, length_fmap. lia.
  - apply Forall_forall. intros p [i Hi]%list_elem_of_lookup. destruct (Forall2_lookup_r _ _ _ _ _ Hcols Hi) as ([column ty] & _ & (_ & _ & [_ Hs] & Hl & Hlen & _)).
    cbn [fst snd] in *. split; [|lia]. rewrite Hlen. unfold column_size, bitmap_bytes. pose proof (pages_div_ceil (length column) 8 ltac:(lia)). lia.
Qed.

Lemma inventory_entries w entries payloads : Forall2 (entry_at w) entries payloads → Forall (λ p, (0 < length p)%nat ∧ zlen p < 2 ^ 32) payloads → ∀ acc,
  for_each entries acc (λ pages entry,
    for_each (seq 0 (Nat.max (div_ceil (Z.to_nat (byte_len entry)) page_bytes) 1)) pages (λ pages i,
      let! page_id := ok_or (try_u 64 (first_page entry + Z.of_nat i)) (Corrupt "CSR payload page run overflows u64") in
      Ok (pages ++ [page_id]))) = Ok (acc ++ concat (entry_pages <$> entries)).
Proof.
  induction 1 as [|e p entries payloads He _ IH]; intros Hp acc; [by rewrite app_nil_r|]. apply Forall_cons in Hp as [[Hp _] Hps]. cbn [for_each].
  destruct (entry_pages_at _ _ _ He Hp) as (_ & Hf & Hu). pose proof (page_bytes_min). destruct (pages_div_ceil (length p) page_bytes) as [D _]; [lia|].
  rewrite inventory_run; [|done|]. 2:{ destruct He as (_ & -> & _). cbn [byte_len first_page] in *. unfold zlen. rewrite Nat2Z.id, Nat.max_l by nia. lia. }
  cbn [bind]. rewrite IH by done. rewrite fmap_cons. cbn [concat]. by rewrite app_assoc.
Qed.

(** ** A write that has room succeeds *)

(** A payload has fewer than 2^32 bytes, and a page at least one. *)
Definition payload_pages : Z := 2 ^ 32.
Definition group_pages (types : list LogicalType) : Z := (zlen types + 2) * payload_pages + 1.

Lemma div_ceil_le n : Z.of_nat n < 2 ^ 32 → Z.of_nat (div_ceil n page_bytes) ≤ payload_pages.
Proof. intros Hn. pose proof page_bytes_min. destruct (pages_div_ceil n page_bytes) as [_ D]; [lia|]. unfold payload_pages. nia. Qed.

Lemma write_entries_room payloads : ∀ entries room w, Forall (λ p, (0 < length p)%nat ∧ zlen p < 2 ^ 32) payloads → page_room (zlen payloads * payload_pages + room) w → 0 ≤ room →
  ∃ entries' w', sfor payloads entries write_entry w = (Ok entries', w') ∧ page_room room w'.
Proof.
  induction payloads as [|p payloads IH]; intros entries room w Hp Hr Hroom; [by exists entries, w|]. apply Forall_cons in Hp as [[Hpos Hmax] Hp]. unfold zlen in Hr. cbn [length] in Hr. rewrite Nat2Z.inj_succ in Hr.
  pose proof (div_ceil_le (length p) Hmax). destruct (write_payload_room p (zlen payloads * payload_pages + room) w) as (first & w1 & E1 & Hr1); [| |done|].
  { eapply room_less; [exact Hr|]. unfold zlen. nia. }
  { unfold zlen, payload_pages. lia. }
  cbn [sfor]. unfold sbind at 1, write_entry at 1, sbind at 1. rewrite E1. unfold sbind, slift. pose proof (zlen_nonneg p). rewrite try_u_in by (unfold in_u; lia). cbn [ok_or sret].
  by apply IH.
Qed.

Lemma write_group_room types adj room w : group_good types adj → directory_fits types → page_room (group_pages types + room) w → 0 ≤ room →
  ∃ id w', write_group (csr_of types adj) w = (Ok id, w') ∧ page_room room w'.
Proof.
  intros Hg Hf Hr Hroom. pose proof Hg as (G1 & G2 & G3 & G4 & _). pose proof Hf as [F1 F2]. destruct (encode_payloads_ok types adj Hg) as (cols & Hp & Hcols).
  pose proof (Forall2_length _ _ _ Hcols) as Hlc. rewrite length_zip_with in Hlc. cbn [csr_of csr_columns] in Hlc. rewrite length_fmap, length_seq, Nat.min_id in Hlc.
  unfold write_group. unfold sbind at 1, slift at 1. rewrite validate_for_write_ok by done. unfold sbind at 1, slift at 1. rewrite Hp.
  pose proof (csr_of_edges types adj) as Hedges. pose proof (csr_of_rows types adj) as Hrows. set (g := csr_of types adj) in *.
  set (payloads := encode_offsets (offsets g) :: encode_neighbors (neighbors g) :: cols) in *.
  assert (length payloads = length types + 2)%nat as Hlp by (simpl; lia). assert (zlen payloads = zlen types + 2) as Hlp' by (unfold zlen; lia).
  destruct (write_entries_room payloads [] (1 + room) w) as (entries & w1 & E1 & Hr1).
  { by eapply group_payloads_nonempty. }
  { eapply room_less; [exact Hr|]. unfold group_pages. rewrite Hlp'. lia. }
  { lia. }
  unfold sbind at 1. rewrite E1. destruct (write_entries_at payloads [] w entries w1 E1) as (added & Eq & Ha). cbn [app] in Eq. subst added. pose proof (Forall2_length _ _ _ Ha) as Hle.
  destruct (room_allocates 1 room w1 Hr1 Hroom ltac:(lia)) as (dir & w2 & E2 & Hr2). unfold sbind at 1. rewrite E2. assert (usable w2 dir) as Hid by (eapply allocate_usable; [exact E2|lia]).
  unfold sbind at 1, slift at 1. rewrite encode_directory_ok by (unfold zlen in *; lia).
  destruct (room_writes dir room (directory_bytes (csr_row_count g) (edge_count g) entries page_bytes) w2 Hr2 Hid) as (w3 & E3 & Hr3); [apply length_directory; lia|].
  unfold sbind at 1. rewrite E3. destruct (room_syncs room w3 Hr3) as (w4 & E4 & Hr4). unfold sbind at 1. rewrite E4. by exists dir, w4.
Qed.

Lemma inventory_ok w id types g entries : group_layout w id types g entries →
  csr_page_inventory w id types = Ok (id :: concat (entry_pages <$> entries)) ∧
  Forall (λ e, entry_pages e = run_of (first_page e) (div_ceil (Z.to_nat (byte_len e)) page_bytes)) entries ∧
  ∀ q, q ∈ id :: concat (entry_pages <$> entries) → ∃ page, held w q page.
Proof.
  intros Hl. destruct (layout_directory _ _ _ _ _ Hl) as (page & Hpage & Hdir). destruct Hl as (adj & payloads & -> & Hg & Hp & He & _ & _ & Hh).
  pose proof (group_payloads_nonempty _ _ _ Hg Hp) as Hne. split; [|split].
  - unfold csr_page_inventory. rewrite Hpage. cbn [bind]. rewrite Hdir. cbn [bind]. by rewrite (inventory_entries w entries payloads).
  - apply Forall_forall. intros e [i Hi]%list_elem_of_lookup. destruct (Forall2_lookup_l _ _ _ _ _ He Hi) as (p & Hpi & Hep). pose proof (Forall_lookup_1 _ _ _ _ Hne Hpi) as [Hpos _].
    destruct (entry_pages_at _ _ _ Hep Hpos) as [-> _]. destruct Hep as (_ & -> & _). cbn [first_page byte_len]. unfold zlen. by rewrite Nat2Z.id.
  - intros q [->|Hq]%elem_of_cons; [eauto|]. apply list_elem_of_In, in_concat in Hq as (l & Hl & Hq). apply list_elem_of_In in Hl, Hq. apply list_elem_of_fmap in Hl as (e & -> & He').
    apply list_elem_of_lookup in He' as [i Hi]. destruct (Forall2_lookup_l _ _ _ _ _ He Hi) as (p & Hpi & Hep). pose proof (Forall_lookup_1 _ _ _ _ Hne Hpi) as [Hpos _].
    destruct (entry_pages_at _ _ _ Hep Hpos) as [E _]. rewrite E in Hq. apply elem_run_of in Hq. destruct Hep as ((_ & _ & Hpages) & _).
    exists (payload_page p (Z.to_nat (q - first_page e))). specialize (Hpages (Z.to_nat (q - first_page e)) ltac:(lia)).
    by replace (first_page e + Z.of_nat (Z.to_nat (q - first_page e))) with q in Hpages by lia.
Qed.

(** C9: A group that can be persisted, written to a pager that has room for it,
    reads back equal, from the directory page the write returns and with the
    neighbor check on.  No page in use changes, and the page inventory of the new
    group lists pages that are in use now and were not before: retiring the group
    later frees no page of anything written earlier. *)
Theorem csr_write_read types adj room n w (g := csr_of types adj) :
  group_good types adj → directory_fits types → page_room (group_pages types + room) w → 0 ≤ room → below n g = true →
  ∃ id w' pages, write_group g w = (Ok id, w') ∧ pages_le w w' ∧ page_room room w' ∧ read_group w' id types (Some n) = Ok g ∧
    csr_page_inventory w' id types = Ok pages ∧ id ∈ pages ∧ ∀ q, q ∈ pages → (∃ page, held w' q page) ∧ ∀ page, ¬ held w q page.
Proof.
  intros Hg Hf Hr Hroom Hb. destruct (write_group_room types adj room w Hg Hf Hr Hroom) as (id & w' & E & Hr'). destruct (write_group_layout types adj w id w' Hg E) as (_ & entries & Hl & Hfresh).
  destruct (inventory_ok _ _ _ _ _ Hl) as (Hinv & Hruns & Hheld). exists id, w', (id :: concat (entry_pages <$> entries)). split; [done|]. split; [eapply preserves_le; [apply preserves_group|exact E]|].
  split; [done|]. split; [apply group_at_reads; [by exists entries|done]|]. split; [done|]. split; [by left|]. intros q Hq. split; [by apply Hheld|]. intros page Hp.
  destruct (Hfresh q page Hp) as [Hne Hall]. apply elem_of_cons in Hq as [|Hq]; [done|]. apply list_elem_of_In, in_concat in Hq as (l & Hin & Hq). apply list_elem_of_In in Hin, Hq.
  apply list_elem_of_fmap in Hin as (e & -> & He). rewrite Forall_forall in Hruns, Hall. rewrite (Hruns e He) in Hq. by apply (Hall e He).
Qed.

End Pages.

(** ** The store of the relationship tables *)

(** What [NodeGroup::read_row_count] and the memory budget promise beside the
    pager: the row count is read from the directory page, the budget's calls touch
    no page, and the pager's calls leave the scratch memory that can be granted. *)
Class StoreEnv (W : Type) `{PS : PageStore W} := {
  page_rows : list Z → nat → outcome nat;
  rows_at : W → Z → nat → outcome nat;
  charge : Z → W → bool * W;
  release : Z → W → W;
  scratch : Z → W → Prop;
  rows_at_held w id page c n : held w id page → page_rows page c = Ok n → rows_at w id c = Ok n;
  charge_held n w b w' id page : charge n w = (b, w') → held w id page → held w' id page;
  release_held n w id page : held w id page → held (release n w) id page;
  charge_room n w b w' k : charge n w = (b, w') → page_room k w → page_room k w';
  release_room n w k : page_room k w → page_room k (release n w);
  scratch_charge n c w : scratch c w → 0 ≤ n ≤ c → ∃ w', charge n w = (true, w') ∧ scratch (c - n) w';
  scratch_release n c w : scratch c w → 0 ≤ n → scratch (c + n) (release n w);
  scratch_allocate n w r w' c : allocate_run n w = (r, w') → scratch c w → scratch c w';
  scratch_write id page w r w' c : write_page id page w = (r, w') → scratch c w → scratch c w';
  scratch_sync w r w' c : pager_sync w = (r, w') → scratch c w → scratch c w';
}.

Section Store.
Context {W : Type} `{PS : PageStore W} `{CR : Crc32c} `{SE : !StoreEnv W}.

Definition keeps_scratch {A} (m : SM W A) : Prop := ∀ w r w' c, m w = (r, w') → scratch c w → scratch c w'.

Lemma writes_keep_lift {A} (m : outcome A) : keeps_scratch (slift m).
Proof. by intros w r w' c [= <- <-]. Qed.

Lemma writes_keep_bind {A B} (m : SM W A) (k : A → SM W B) : keeps_scratch m → (∀ a, keeps_scratch (k a)) → keeps_scratch (let+ a := m in k a).
Proof.
  intros Hm Hk w r w' c H Hs. unfold sbind in H. destruct (m w) as [[a|e|] w1] eqn:E; [|by injection H as <- <-; eapply Hm..].
  eapply Hk; [exact H|]. by eapply Hm.
Qed.

Lemma keeps_for {A S} (xs : list A) (s : S) body : (∀ s x, keeps_scratch (body s x)) → keeps_scratch (sfor xs s body).
Proof. intros Hb. revert s. induction xs as [|x xs IH]; intros s; [apply writes_keep_lift|]. apply writes_keep_bind; [apply Hb|apply IH]. Qed.

Lemma keeps_group g : keeps_scratch (write_group g).
Proof.
  assert (∀ n, keeps_scratch (allocate_run n)) as Ha by (intros n w r w' c; apply scratch_allocate).
  assert (∀ id page, keeps_scratch (write_page id page)) as Hw by (intros id page w r w' c; apply scratch_write).
  assert (keeps_scratch pager_sync) as Hs by (intros w r w' c; apply scratch_sync).
  assert (∀ p, keeps_scratch (write_payload p)) as Hp.
  { intros p. unfold write_payload. destruct (_ =? 0)%nat; [apply writes_keep_lift|]. apply writes_keep_bind; [apply Ha|intros first]. apply writes_keep_bind; [apply writes_keep_lift|intros ids].
    apply writes_keep_bind; [|intros _; apply writes_keep_lift]. apply keeps_for. intros _ [i id]. apply Hw. }
  unfold write_group. repeat (apply writes_keep_bind; [apply writes_keep_lift|intros ?]). apply writes_keep_bind.
  { apply keeps_for. intros es p. apply writes_keep_bind; [apply Hp|intros f]. apply writes_keep_bind; [apply writes_keep_lift|intros ?]. apply writes_keep_lift. }
  intros es. apply writes_keep_bind; [apply Ha|intros d]. apply writes_keep_bind; [apply writes_keep_lift|intros page]. apply writes_keep_bind; [apply Hw|intros _]. apply writes_keep_bind; [apply Hs|intros _]. apply writes_keep_lift.
Qed.

Definition endpoint_on_page (w : W) (id : Z) (columns rows : nat) : Prop := ∃ page, held w id page ∧ page_rows page columns = Ok rows.

Lemma pages_kept w w' : pages_le w w' →
  (∀ id ts g, group_at w id ts g → group_at w' id ts g) ∧ (∀ id c n, endpoint_on_page w id c n → endpoint_on_page w' id c n).
Proof.
  intros Hle. split; [intros id ts g; by apply group_at_kept|]. intros id c n (page & Hh & Hr). exists page. split; [by apply Hle|done].
Qed.

#[export, refine] Instance page_csr : CsrStore W := {
  csr_write := write_group;
  csr_read_checked w id types n := read_group w id types (Some n);
  csr_header := read_header;
  read_row_count := rows_at;
  charge_or_reclaim := charge;
  budget_release := release;
  csr_at := group_at;
  endpoint_at := endpoint_on_page;
  csr_lens := column_lens;
  roomy types cap k w := directory_fits types ∧ scratch cap w ∧ page_room (Z.of_nat k * group_pages types) w;
}.
Proof.
  - apply group_at_reads.
  - apply group_at_header.
  - intros w id c n (page & Hh & Hr). by eapply rows_at_held.
  - apply write_group_at.
  - intros g w r w' H. apply pages_kept. eapply preserves_le; [apply preserves_group|exact H].
  - intros n w b w' H. apply pages_kept. intros id page. by eapply charge_held.
  - intros n w. apply pages_kept. intros id page. apply release_held.
  - intros types cap k adj w (Hf & Hs & Hr) Hg. rewrite Nat2Z.inj_succ, Z.mul_succ_l, Z.add_comm in Hr.
    destruct (write_group_room types adj _ w Hg Hf Hr ltac:(unfold group_pages, payload_pages, zlen; lia)) as (id & w' & E & Hr'). exists id, w'. split; [done|]. split; [done|]. split; [by eapply keeps_group|done].
  - intros types cap k n w (Hf & Hs & Hr) Hn. destruct (scratch_charge n cap w Hs Hn) as (w' & E & Hs'). exists w'. split; [done|]. split; [done|]. split; [done|]. by eapply charge_room.
  - intros types cap k n w (Hf & Hs & Hr) Hn. split; [done|]. split; [by apply scratch_release|by apply release_room].
  - intros types cap k w (Hf & Hs & Hr). split; [done|]. split; [done|]. eapply room_less; [exact Hr|]. unfold group_pages, payload_pages, zlen. lia.
Defined.

End Store.

(** ** A pager in memory *)

Record MemPager := mkMemPager { mp_pages : list (list Z) }.
Definition mp_page (w : MemPager) (id : Z) : option (list Z) := if 2 <=? id then mp_pages w !! Z.to_nat (id - 2) else None.

#[export, refine] Instance memory_pager : PageStore MemPager := {
  page_bytes := 128%nat;
  allocate_run n w :=
    if 2 + zlen (mp_pages w) + Z.of_nat n <=? 2 ^ 64 then (Ok (2 + zlen (mp_pages w)), mkMemPager (mp_pages w ++ replicate n (replicate 128 0)))
    else (Err (InvalidArgument "page run overflows u64"), w);
  write_page id page w :=
    match mp_page w id with
    | Some _ => (Ok tt, mkMemPager (<[Z.to_nat (id - 2) := page]> (mp_pages w)))
    | None => (Err (InvalidArgument "page out of range"), w)
    end;
  read_page w id := ok_or (mp_page w id) (InvalidArgument "page out of range");
  pager_sync w := (Ok tt, w);
  held w id page := mp_page w id = Some page;
  usable w id := is_Some (mp_page w id);
  page_room k w := 2 + zlen (mp_pages w) + k ≤ 2 ^ 64;
}.
Proof.
  - lia.
  - intros w id page ->. done.
  - intros n w r w' id page H Hh. unfold mp_page in *. destruct (Z.leb_spec 2 id); [|done]. pose proof (lookup_lt_Some _ _ _ Hh) as Hlt. destruct (_ <=? 2 ^ 64); injection H as <- <-.
    + split; [cbn [mp_pages]; by rewrite lookup_app_l|]. intros first [= <-]. unfold zlen. lia.
    + done.
  - intros n w first w' H. destruct (Z.leb_spec (2 + zlen (mp_pages w) + Z.of_nat n) (2 ^ 64)); [|done]. injection H as <- <-. pose proof (zlen_nonneg (mp_pages w)). lia.
  - intros id page w w' _ H. unfold mp_page in *. destruct (Z.leb_spec 2 id); [|done]. destruct (mp_pages w !! _) eqn:E; [|done]. injection H as <-. cbn [mp_pages].
    apply list_lookup_insert_eq. by eapply lookup_lt_Some.
  - intros id page w r w' id' page' H Hne Hh. unfold mp_page in *. destruct (Z.leb_spec 2 id'); [|done]. destruct (Z.leb_spec 2 id); [|by injection H as <- <-].
    destruct (mp_pages w !! Z.to_nat (id - 2)); injection H as <- <-; [|done]. cbn [mp_pages]. rewrite list_lookup_insert_ne by lia. done.
  - by intros w r w' id page [= <- <-].
  - intros n k w Hr Hk Hn. rewrite (proj2 (Z.leb_le _ _)) by lia. eexists _, _. split; [done|]. cbn [mp_pages]. unfold zlen in *. rewrite length_app, length_replicate. lia.
  - intros n w first w' id H Hid. destruct (Z.leb_spec (2 + zlen (mp_pages w) + Z.of_nat n) (2 ^ 64)); [|done]. injection H as <- <-. unfold mp_page. pose proof (zlen_nonneg (mp_pages w)).
    rewrite (proj2 (Z.leb_le _ _)) by lia. cbn [mp_pages]. apply lookup_lt_is_Some_2. rewrite length_app, length_replicate. unfold zlen in *. lia.
  - intros id page w w' id' H [page' Hu]. unfold mp_page in *. destruct (2 <=? id'); [|done]. destruct (Z.leb_spec 2 id); [|done]. destruct (mp_pages w !! Z.to_nat (id - 2)); [|done]. injection H as <-.
    cbn [mp_pages]. apply lookup_lt_is_Some_2. rewrite length_insert. by eapply lookup_lt_Some.
  - intros id k page w Hr [old Hu] _. rewrite Hu. eexists. split; [done|]. cbn [mp_pages]. unfold zlen. by rewrite length_insert.
  - intros k w Hr. by exists w.
  - intros k k' w Hr Hle. lia.
Defined.

Definition ex_adjacency : adjacency := [[(1, [String [97; 98]; Bool true]); (2, [Null; Bool false])]; []; [(0, [String []; Null])]].

Lemma csr_write_read_witness (CR := castagnoli) :
  ∃ id w' pages, write_group (csr_of [TString; TBool] ex_adjacency) (mkMemPager [replicate 128 7]) = (Ok id, w') ∧ mp_page w' 2 = Some (replicate 128 7) ∧
    read_group w' id [TString; TBool] (Some 3) = Ok (csr_of [TString; TBool] ex_adjacency) ∧ csr_page_inventory w' id [TString; TBool] = Ok pages ∧ 2 ∉ pages.
Proof.
  destruct (csr_write_read (CR := CR) [TString; TBool] ex_adjacency 0 3 (mkMemPager [replicate 128 7])) as (id & w' & pages & H1 & H2 & _ & H4 & H5 & _ & H7).
  - split; [simpl; lia|]. split; [vm_compute; reflexivity|]. split; [simpl; lia|]. split; [vm_compute; reflexivity|].
    split; [repeat constructor; vm_compute; (discriminate || reflexivity)|]. split; [|repeat constructor].
    intros [|[|i]] ty Hi; [injection Hi as <-..|done]; (split; [done|]; split; [repeat constructor; lia|vm_compute; reflexivity]).
  - split; [vm_compute; lia|vm_compute; reflexivity].
  - vm_compute. discriminate.
  - lia.
  - vm_compute. reflexivity.
  - exists id, w', pages. split; [exact H1|]. split; [by apply H2|]. split; [exact H4|]. split; [exact H5|]. intros Hin. destruct (H7 2 Hin) as [_ Hno]. by apply (Hno (replicate 128 7)).
Defined.

(** [NodeGroup::read_row_count] in a file whose feature flags are clear, where any
    directory flag is refused; a budget that always grants. *)
Definition plain_row_count (page : list Z) (expected_columns : nat) : outcome nat :=
  if (length page <? DIRECTORY_HEADER_LEN)%nat || negb (bool_decide (take 4 page = [78; 71; 82; 80])) then Err (Corrupt "node-group directory magic is not NGRP") else
  let! row_count := read_u32 page 4 in
  if row_count =? 0 then Err (Corrupt "node-group directory row_count is zero") else
  let! column_count := read_u32 page 8 in
  if negb (column_count =? Z.of_nat expected_columns) then Err (Corrupt "node-group column_count is {column_count}, expected {expected_columns}") else
  let! flags := read_u32 page 12 in
  if negb (flags =? 0) then Err (Corrupt "node-group directory bit {bit} is set but its feature is clear") else Ok (Z.to_nat row_count).

#[export, refine] Instance memory_env : StoreEnv MemPager := {
  page_rows := plain_row_count;
  rows_at w id c := let! page := read_page w id in plain_row_count page c;
  charge n w := (true, w);
  release n w := w;
  scratch c w := True;
}.
Proof.
  all: try done.
  - intros w id page c n Hh Hr. rewrite (held_reads _ _ _ Hh). exact Hr.
  - by intros n w b w' id page [= <- <-].
  - by intros n w b w' k [= <- <-].
  - intros n c w _ _. eauto.
Defined.

(** The relationship tables' store on these pages. *)
Definition memory_page_csr : CsrStore MemPager := page_csr (CR := castagnoli).
