(* ===== verification/RelRemap.v ===== *)
(** Renumbering of nodes at a checkpoint, and what the CSR groups of one
    direction of [RelTable.v] store: remaps, endpoint layouts and the edges of a
    stored direction, on which the proofs about both checkpoints build. *)

From stdpp Require Import gmap sorting.
From S2P Require Import Prelude Bytes Types Schema Catalog Overlay Csr CsrCodec RelTable.

(** ** Remaps *)

Record remap_wf (r : OffsetRemap) : Prop := {
  domain_u64 : in_u 64 (old_domain r);
  deleted_sorted : StronglySorted Z.lt (deleted r);
  deleted_inside : Forall (λ d, 0 ≤ d < old_domain r) (deleted r);
}.

Definition rank (l : list Z) (x : Z) : nat := length (filter (λ d, d < x) l).

(** Where a node goes. *)
Definition renumber (r : OffsetRemap) (x : Z) : option Z :=
  if decide (x ∈ deleted r) then None else Some (x - Z.of_nat (rank (deleted r) x)).

Lemma remap_map_ok r x : x < old_domain r → remap_map r x = Ok (renumber r x).
Proof.
  intros Hx. unfold remap_map, binary_search, renumber. rewrite (proj2 (Z.leb_gt _ _)) by done.
  case_bool_decide as E; [by rewrite decide_True|by rewrite decide_False].
Qed.

Lemma is_deleted_iff r x : is_deleted r x = true ↔ x ∈ deleted r.
Proof. unfold is_deleted, binary_search. case_bool_decide; naive_solver. Qed.

Lemma filter_agree {A} (P Q : A → Prop) `{!∀ x, Decision (P x)} `{!∀ x, Decision (Q x)} l :
  Forall (λ x, P x ↔ Q x) l → filter P l = filter Q l.
Proof. induction 1 as [|x l Hx _ IH]; [done|]. rewrite !filter_cons, IH. destruct (decide (P x)), (decide (Q x)); tauto. Qed.

(** Between two numbers there are at most as many deletions as numbers. *)
Lemma rank_gap l : StronglySorted Z.lt l → ∀ x y, x ≤ y → Z.of_nat (rank l x) ≤ Z.of_nat (rank l y) ≤ Z.of_nat (rank l x) + (y - x).
Proof.
  induction 1 as [|d l Hl IH Hd]; intros x y Hxy; [unfold rank; simpl; lia|]. unfold rank in *. rewrite !filter_cons.
  destruct (decide (d < x)) as [H1|H1], (decide (d < y)) as [H2|H2]; try lia; cbn [length]; try (specialize (IH x y Hxy); lia).
  assert (filter (λ e, e < x) l = []) as ->.
  { apply filter_none. eapply Forall_impl; [exact Hd|]. intros e He. simpl in He. lia. }
  specialize (IH (d + 1) y ltac:(lia)).
  assert (filter (λ e, e < d + 1) l = []) as Hnil.
  { apply filter_none. eapply Forall_impl; [exact Hd|]. intros e He. simpl in He. lia. }
  rewrite Hnil in IH. simpl in *. lia.
Qed.

Lemma rank_step l x : StronglySorted Z.lt l → x ∉ l → rank l (x + 1) = rank l x.
Proof.
  intros _ Hx. unfold rank. f_equal. apply filter_agree. apply Forall_forall. intros d Hd. assert (d ≠ x) by (intros ->; done). lia.
Qed.

(** Renumbering keeps the order. *)
Lemma renumber_mono r x y x' y' : remap_wf r → renumber r x = Some x' → renumber r y = Some y' → x < y → x' < y'.
Proof.
  intros Hr Hx Hy Hxy. unfold renumber in *. destruct (decide (x ∈ deleted r)); [done|]. destruct (decide (y ∈ deleted r)); [done|].
  injection Hx as <-. injection Hy as <-. pose proof (rank_step (deleted r) x (deleted_sorted r Hr) ltac:(done)) as Hs.
  pose proof (rank_gap (deleted r) (deleted_sorted r Hr) (x + 1) y ltac:(lia)) as Hg. rewrite Hs in Hg. lia.
Qed.

Lemma renumber_inj r x y z : remap_wf r → renumber r x = Some z → renumber r y = Some z → x = y.
Proof.
  intros Hr Hx Hy. destruct (Z.lt_trichotomy x y) as [H|[H|H]]; [|done|].
  - pose proof (renumber_mono r x y z z Hr Hx Hy H). lia.
  - pose proof (renumber_mono r y x z z Hr Hy Hx H). lia.
Qed.

Lemma rank_all l n : Forall (λ d, d < n) l → rank l n = length l.
Proof. intros Hl. unfold rank. by rewrite filter_keeps_all. Qed.

Lemma rank_none l n : Forall (λ d, n ≤ d) l → rank l n = 0%nat.
Proof. intros Hl. unfold rank. rewrite filter_none; [done|]. eapply Forall_impl; [exact Hl|]. intros d Hd. simpl in *. lia. Qed.

(** The new numbers fill the new domain. *)
Lemma renumber_range r x x' : remap_wf r → 0 ≤ x < old_domain r → renumber r x = Some x' → 0 ≤ x' < old_domain r - zlen (deleted r).
Proof.
  intros Hr Hx Hx'. unfold renumber in Hx'. destruct (decide (x ∈ deleted r)) as [|Hn]; [done|]. injection Hx' as <-.
  pose proof (rank_gap _ (deleted_sorted r Hr) 0 x ltac:(lia)) as H0. rewrite rank_none in H0.
  2:{ eapply Forall_impl; [apply (deleted_inside r Hr)|]. intros d Hd. simpl in *. lia. }
  pose proof (rank_gap _ (deleted_sorted r Hr) (x + 1) (old_domain r) ltac:(lia)) as H1. rewrite rank_step in H1 by (done || apply Hr).
  rewrite (rank_all _ (old_domain r)) in H1 by (eapply Forall_impl; [apply (deleted_inside r Hr)|]; intros d Hd; simpl in *; lia).
  unfold zlen. lia.
Qed.

Lemma new_domain_ok r : remap_wf r → new_domain r = Ok (old_domain r - zlen (deleted r)).
Proof.
  intros Hr. unfold new_domain. rewrite try_u_in; [done|]. pose proof (domain_u64 r Hr) as [Hlo Hhi].
  pose proof (rank_gap _ (deleted_sorted r Hr) 0 (old_domain r) ltac:(lia)) as H0. rewrite rank_none, rank_all in H0; cycle 1.
  - eapply Forall_impl; [apply (deleted_inside r Hr)|]. intros d Hd. simpl in *. lia.
  - eapply Forall_impl; [apply (deleted_inside r Hr)|]. intros d Hd. simpl in *. lia.
  - unfold in_u, zlen. lia.
Qed.

Lemma skip_up_spec r n : ∀ first, let f := skip_up r n first in
  first ≤ f ≤ first + Z.of_nat n ∧ (∀ x, first ≤ x < f → x ∈ deleted r) ∧ (f < first + Z.of_nat n → f ∉ deleted r).
Proof.
  induction n as [|n IH]; intros first; cbn [skip_up]; [split_and!; [lia|lia|intros x ?; lia|lia]|].
  destruct (is_deleted r first) eqn:E.
  - apply is_deleted_iff in E. destruct (IH (first + 1)) as (H1 & H2 & H3). split_and!; [lia|lia| |intros ?; apply H3; lia].
    intros x Hx. destruct (decide (x = first)) as [->|]; [done|]. apply H2. lia.
  - split_and!; [lia|lia|intros x ?; lia|]. intros _ Hin. apply is_deleted_iff in Hin. congruence.
Qed.

Lemma skip_down_spec r n : ∀ last, let f := skip_down r n last in
  last - Z.of_nat n ≤ f ≤ last ∧ (∀ x, f < x ≤ last → x ∈ deleted r) ∧ (last - Z.of_nat n < f → f ∉ deleted r).
Proof.
  induction n as [|n IH]; intros last; cbn [skip_down]; [split_and!; [lia|lia|intros x ?; lia|lia]|].
  destruct (is_deleted r last) eqn:E.
  - apply is_deleted_iff in E. destruct (IH (last - 1)) as (H1 & H2 & H3). split_and!; [lia|lia| |intros ?; apply H3; lia].
    intros x Hx. destruct (decide (x = last)) as [->|]; [done|]. apply H2. lia.
  - split_and!; [lia|lia|intros x ?; lia|]. intros _ Hin. apply is_deleted_iff in Hin. congruence.
Qed.

Lemma renumber_survives r x : x ∉ deleted r → ∃ x', renumber r x = Some x'.
Proof. intros Hx. unfold renumber. rewrite decide_False by done. eauto. Qed.

(** The range of new numbers of an old range holds every survivor's. *)
Lemma survivor_range_spec r start end_ : remap_wf r → end_ ≤ old_domain r →
  ∃ range, survivor_range r start end_ = Ok range ∧
    ∀ x x', start ≤ x < end_ → renumber r x = Some x' → ∃ lo hi, range = Some (lo, hi) ∧ lo ≤ x' < hi.
Proof.
  intros Hr Hend. unfold survivor_range. destruct (Z.leb_spec end_ start) as [|Hlt].
  { exists None. split; [done|]. intros x x' ?. lia. }
  destruct (skip_up_spec r (Z.to_nat (end_ - start)) start) as (U1 & U2 & U3). set (first := skip_up r _ start) in *.
  destruct (Z.eqb_spec first end_) as [Hf|Hf].
  { exists None. split; [done|]. intros x x' Hx Hx'. unfold renumber in Hx'. rewrite decide_True in Hx'; [done|]. apply U2. lia. }
  assert (first ∉ deleted r) as Hfs by (apply U3; lia). destruct (renumber_survives r first Hfs) as (a & Ha).
  destruct (skip_down_spec r (Z.to_nat (end_ - 1 - first)) (end_ - 1)) as (D1 & D2 & D3). set (lst := skip_down r _ (end_ - 1)) in *.
  assert (lst ∉ deleted r) as Hls. { destruct (decide (lst = first)) as [->|]; [done|]. apply D3. lia. }
  destruct (renumber_survives r lst Hls) as (b & Hb). rewrite !remap_map_ok, Ha, Hb by lia. cbn [ok_or bind]. eexists. split; [done|].
  intros x x' Hx Hx'. assert (x ∉ deleted r) as Hn by (intros Hin; unfold renumber in Hx'; by rewrite decide_True in Hx').
  exists a, (b + 1). split; [done|]. assert (first ≤ x) by (destruct (Z.le_gt_cases first x); [done|exfalso; apply Hn, U2; lia]).
  assert (x ≤ lst) by (destruct (Z.le_gt_cases x lst); [done|exfalso; apply Hn, D2; lia]). split.
  - destruct (decide (first = x)) as [<-|]; [rewrite Ha in Hx'; injection Hx' as ->; lia|].
    pose proof (renumber_mono r first x a x' Hr Ha Hx' ltac:(lia)). lia.
  - destruct (decide (lst = x)) as [<-|]; [rewrite Hb in Hx'; injection Hx' as ->; lia|].
    pose proof (renumber_mono r x lst x' b Hr Hx' Hb ltac:(lia)). lia.
Qed.

(** ** Layouts *)

(** The first row of each group. *)
Fixpoint start_list (k : Z) (counts : list nat) : list Z :=
  match counts with [] => [] | c :: counts => k :: start_list (k + Z.of_nat c) counts end.

Definition rows_of (counts : list nat) : Z := Z.of_nat (sum_list counts).

Definition layout_of (counts : list nat) : EndpointLayout := mkLayout counts (start_list 0 counts) (rows_of counts).

Lemma start_list_lookup counts : ∀ k i c, counts !! i = Some c → start_list k counts !! i = Some (k + rows_of (take i counts)).
Proof.
  induction counts as [|c0 counts IH]; intros k i c Hi; [done|]. destruct i as [|i]; [simpl; f_equal; unfold rows_of; simpl; lia|].
  cbn [start_list take]. change ((k :: start_list (k + Z.of_nat c0) counts) !! S i) with (start_list (k + Z.of_nat c0) counts !! i).
  rewrite (IH _ _ c) by done. f_equal. unfold rows_of. rewrite sum_list_cons. lia.
Qed.

Lemma length_start_list counts : ∀ k, length (start_list k counts) = length counts.
Proof. induction counts as [|c counts IH]; intros k; [done|]. simpl. by rewrite IH. Qed.

Lemma rows_of_cons c counts : rows_of (c :: counts) = Z.of_nat c + rows_of counts.
Proof. unfold rows_of. rewrite sum_list_cons. lia. Qed.

Lemma rows_of_nonneg counts : 0 ≤ rows_of counts.
Proof. unfold rows_of. lia. Qed.

Lemma rows_of_take counts i c : counts !! i = Some c → rows_of (take i counts) + Z.of_nat c ≤ rows_of counts.
Proof.
  revert i. induction counts as [|c0 counts IH]; intros [|i] Hi; [done|done| |].
  - injection Hi as ->. rewrite rows_of_cons. pose proof (rows_of_nonneg counts). change (rows_of (take 0 (c :: counts))) with 0. lia.
  - cbn [take]. rewrite !rows_of_cons. specialize (IH i Hi). lia.
Qed.

(** Where an offset lies. *)
Definition lies (counts : list nat) (x : Z) (g slot : nat) : Prop :=
  ∃ c, counts !! g = Some c ∧ (slot < c)%nat ∧ x = rows_of (take g counts) + Z.of_nat slot.

Lemma partition_starts counts : ∀ k x, k ≤ x < k + rows_of counts →
  ∃ g slot c, partition_point (λ start, start <=? x) (start_list k counts) = S g ∧
    counts !! g = Some c ∧ (slot < c)%nat ∧ x = k + rows_of (take g counts) + Z.of_nat slot.
Proof.
  induction counts as [|c counts IH]; intros k x Hx; [unfold rows_of in Hx; simpl in Hx; lia|]. rewrite rows_of_cons in Hx.
  cbn [start_list partition_point]. rewrite (proj2 (Z.leb_le _ _)) by lia. destruct (decide (x < k + Z.of_nat c)) as [Hlt|Hge].
  - exists 0%nat, (Z.to_nat (x - k)), c. split_and!; [|done|lia|change (rows_of (take 0 (c :: counts))) with 0; lia].
    f_equal. destruct counts as [|c1 counts]; [done|]. cbn [start_list partition_point]. by rewrite (proj2 (Z.leb_gt _ _)) by lia.
  - destruct (IH (k + Z.of_nat c) x ltac:(lia)) as (g & slot & c' & Hp & Hg & Hs & Hx'). exists (S g), slot, c'.
    rewrite Hp. split_and!; [done|done|done|]. cbn [take]. rewrite rows_of_cons. lia.
Qed.

Lemma locate_inside counts x : 0 ≤ x < rows_of counts →
  ∃ g slot, locate (layout_of counts) x = Ok (Some (g, slot)) ∧ lies counts x g slot.
Proof.
  intros Hx. unfold locate, layout_of. cbn [total_rows starts]. rewrite (proj2 (Z.leb_gt _ _)) by lia.
  destruct (partition_starts counts 0 x ltac:(lia)) as (g & slot & c & -> & Hg & Hs & Hx'). unfold index.
  rewrite (start_list_lookup _ _ _ _ Hg). cbn [expect bind]. exists g, slot. split; [|by exists c]. do 3 f_equal. lia.
Qed.

Lemma locate_outside counts x : rows_of counts ≤ x → locate (layout_of counts) x = Ok None.
Proof. intros Hx. unfold locate, layout_of. cbn [total_rows]. by rewrite (proj2 (Z.leb_le _ _)). Qed.

Lemma lies_inside counts x g slot : lies counts x g slot → 0 ≤ x < rows_of counts.
Proof. intros (c & Hg & Hs & ->). pose proof (rows_of_take _ _ _ Hg). pose proof (rows_of_nonneg (take g counts)). lia. Qed.

Lemma rows_of_take_lt counts g g' c : counts !! g = Some c → (g < g')%nat → (g' ≤ length counts)%nat →
  rows_of (take g counts) + Z.of_nat c ≤ rows_of (take g' counts).
Proof.
  intros Hg Hlt Hle. assert (take g' counts !! g = Some c) as Ht by (rewrite lookup_take_lt; done).
  pose proof (rows_of_take _ _ _ Ht) as H. rewrite take_take, Nat.min_l in H by lia. done.
Qed.

Lemma lies_unique counts x g slot g' slot' : lies counts x g slot → lies counts x g' slot' → g = g' ∧ slot = slot'.
Proof.
  intros (c & Hg & Hs & Hx) (c' & Hg' & Hs' & Hx'). pose proof (lookup_lt_Some _ _ _ Hg). pose proof (lookup_lt_Some _ _ _ Hg').
  destruct (Nat.lt_trichotomy g g') as [H'|[->|H']].
  - pose proof (rows_of_take_lt counts g g' c Hg H' ltac:(lia)). lia.
  - split; [done|]. lia.
  - pose proof (rows_of_take_lt counts g' g c' Hg' H' ltac:(lia)). lia.
Qed.

Lemma lies_locate counts x g slot : lies counts x g slot → locate (layout_of counts) x = Ok (Some (g, slot)).
Proof.
  intros Hl. destruct (locate_inside counts x (lies_inside _ _ _ _ Hl)) as (g' & slot' & -> & Hl').
  by destruct (lies_unique _ _ _ _ _ _ Hl Hl') as [-> ->].
Qed.

(** ** Edges of a stored direction *)

(** The edges at a node, the groups holding [A]. *)
Definition edges_at (counts : list nat) (A : list adjacency) (x : Z) : list edge :=
  match locate (layout_of counts) x with
  | Ok (Some (g, slot)) => default [] (A !! g ≫= λ a, a !! slot)
  | _ => []
  end.

Lemma edges_at_lies counts A x g slot : lies counts x g slot → edges_at counts A x = default [] (A !! g ≫= λ a, a !! slot).
Proof. intros Hl. unfold edges_at. by rewrite (lies_locate _ _ _ _ Hl). Qed.

Lemma edges_at_outside counts A x : rows_of counts ≤ x → edges_at counts A x = [].
Proof. intros Hx. unfold edges_at. by rewrite locate_outside. Qed.

Section Stored.
Context {W : Type} `{CS : CsrStore W}.

(** Group [i] of a direction holds the adjacency [a] over [c] rows. *)
Definition group_stored (w : W) (types : list LogicalType) (n : Z) (ids : list Z) (i : nat) (c : nat) (a : adjacency) : Prop :=
  (length a ≤ c)%nat ∧ Forall (λ e : edge, 0 ≤ e.1 < n) (concat a) ∧
  match stored_group_id ids i with
  | Some id => csr_at w id types (csr_of types a) ∧ group_good types a
  | None => concat a = []
  end.

(** A direction's groups over an endpoint with these row counts; [n] bounds the
    neighbors. *)
Definition dir_stored (w : W) (types : list LogicalType) (counts : list nat) (n : Z) (ids : list Z) (A : list adjacency) : Prop :=
  length A = length counts ∧ (length ids ≤ length counts)%nat ∧
  ∀ i c a, counts !! i = Some c → A !! i = Some a → group_stored w types n ids i c a.

Lemma neighbors_below n types adj : Forall (λ e : edge, 0 ≤ e.1 < n) (concat adj) → below n (csr_of types adj) = true.
Proof.
  intros Ha. unfold below. apply forallb_forall. intros x Hx. cbn [csr_of neighbors] in Hx. apply list_elem_of_In, list_elem_of_fmap in Hx as (e & -> & He).
  rewrite Forall_forall in Ha. specialize (Ha e He). apply Z.ltb_lt. destruct Ha. lia.
Qed.

(** Reading the edges of one node. *)
Lemma read_group_ok w types counts n ids A g slot x id :
  dir_stored w types counts n ids A → lies counts x g slot → stored_group_id ids g = Some id →
  ∃ a c, A !! g = Some a ∧ counts !! g = Some c ∧ csr_read_checked w id types n = Ok (csr_of types a) ∧
    validate_csr_row_count (csr_of types a) c = Ok tt ∧ Forall (edge_ok types) (concat a) ∧
    edges_at counts A x = default [] (a !! slot).
Proof.
  intros (Hlen & _ & Hall) Hl Hid. pose proof Hl as (c & Hg & Hs & _). destruct (lookup_lt_is_Some_2 A g) as [a Ha].
  { rewrite Hlen. by apply lookup_lt_Some in Hg. }
  destruct (Hall _ _ _ Hg Ha) as (Hrows & Hn & Hst). rewrite Hid in Hst. destruct Hst as (Hat & _ & _ & _ & _ & _ & _ & Hok). exists a, c. split_and!; try done.
  - by apply csr_at_reads, neighbors_below.
  - unfold validate_csr_row_count. by rewrite csr_of_rows, (proj2 (Nat.ltb_ge _ _)) by done.
  - rewrite (edges_at_lies _ _ _ _ _ Hl), Ha. done.
Qed.

Lemma unstored_edges w types counts n ids A g slot x :
  dir_stored w types counts n ids A → lies counts x g slot → stored_group_id ids g = None → edges_at counts A x = [].
Proof.
  intros (Hlen & _ & Hall) Hl Hid. rewrite (edges_at_lies _ _ _ _ _ Hl). destruct Hl as (c & Hg & _ & _).
  destruct (A !! g) as [a|] eqn:Ha; [|done]. destruct (Hall _ _ _ Hg Ha) as (_ & _ & Hst). rewrite Hid in Hst. simpl.
  destruct (a !! slot) as [l|] eqn:Hl; [|done]. simpl. destruct l as [|e l]; [done|]. exfalso. apply list_elem_of_lookup_2 in Hl.
  assert (e ∈ concat a) as He by (apply list_elem_of_In, in_concat; exists (e :: l); split; [by apply list_elem_of_In|by left]). rewrite Hst in He. by apply not_elem_of_nil in He.
Qed.

(** ** What a read returns *)

Lemma collect_neighbors types adj slot l : Forall (edge_ok types) (concat adj) → adj !! slot = Some l →
  collect (csr_neighbor (csr_of types adj)) (seq (sum_list (take slot (length <$> adj))) (edges_through slot adj - sum_list (take slot (length <$> adj))))
  = Ok l.*1.
Proof.
  intros Hok Hl. apply collect_Ok. apply Forall2_fmap_r. eapply Forall2_impl; [by apply slot_indices|]. intros i e Hi. simpl.
  by destruct (csr_edge_spec types adj i e Hok Hi) as [-> _].
Qed.

Lemma unfiltered_reads self w counts n ids A direction x :
  dir_stored w (schema_types (rt_schema self)) counts n ids A → 0 ≤ x →
  neighbors_one_unfiltered self w ids (layout_of counts) n direction x =
    Ok ((edges_at counts A x).*1 ++ omap (buffered_neighbor direction x) (buffered_edges self)).
Proof.
  intros Hd Hx. unfold neighbors_one_unfiltered. destruct (decide (x < rows_of counts)) as [Hlt|Hge].
  2:{ rewrite locate_outside, edges_at_outside by lia. done. }
  destruct (locate_inside counts x ltac:(lia)) as (g & slot & -> & Hl). cbn [bind].
  destruct (stored_group_id ids g) as [id|] eqn:Hid; [|by rewrite (unstored_edges w _ counts n ids A g slot x Hd Hl Hid)].
  destruct (read_group_ok w _ counts n ids A g slot x id Hd Hl Hid) as (a & c & _ & Hc & -> & Hv & Hok & ->).
  unfold index. cbn [layout_of row_counts bind]. rewrite Hc. cbn [expect bind]. rewrite Hv. cbn [bind]. destruct (a !! slot) as [l|] eqn:Ha.
  - rewrite (edge_range_spec _ _ _ _ Ha), (collect_neighbors _ _ _ _ Hok Ha). done.
  - rewrite edge_range_none by (by apply lookup_ge_None). done.
Qed.

(** The neighbors of a node in one direction, read through the tombstones. *)
Definition seen (self : RelTable) (direction : Direction) (x : Z) (l : list Z) : list Z :=
  if grouped_endpoint_is_tombstoned self direction x then [] else filter (λ y, neighbor_is_tombstoned self direction y = false) l.

Lemma neighbors_one_reads self w counts n ids A direction x :
  dir_stored w (schema_types (rt_schema self)) counts n ids A → 0 ≤ x →
  neighbors_one self w ids (layout_of counts) n direction x =
    Ok (seen self direction x ((edges_at counts A x).*1 ++ omap (buffered_neighbor direction x) (buffered_edges self))).
Proof.
  intros Hd Hx. unfold neighbors_one, seen. destruct (grouped_endpoint_is_tombstoned self direction x); [done|].
  by rewrite (unfiltered_reads self w counts n ids A).
Qed.

End Stored.
