(* ===== verification/RelRebuild.v ===== *)
(** Rebuilding the CSR groups of one direction for a renumbering of the nodes:
    the loops of [append_remapped_old_group], [append_remapped_overlay_group]
    and [rewrite_remapped_direction] of [RelTable.v], as list functions. *)

From stdpp Require Import gmap.
From S2P Require Import Prelude Bytes Types Schema Catalog Overlay Csr CsrCodec RelTable RelRemap.

Lemma bind_nil {A B} (l : list A) (f : A → list B) : (∀ z, z ∈ l → f z = []) → l ≫= f = [].
Proof.
  intros Hf. induction l as [|z l IH]; [done|]. cbn [mbind list_bind]. rewrite (Hf z) by constructor. apply IH. intros y Hy. apply Hf. by constructor.
Qed.

Lemma bind_unique {A B} (l : list A) (f : A → list B) y : NoDup l → y ∈ l → (∀ z, z ∈ l → z ≠ y → f z = []) → l ≫= f = f y.
Proof.
  intros Hnd. induction Hnd as [|z l Hz Hnd IH]; intros Hy Hf; [by apply not_elem_of_nil in Hy|]. cbn [mbind list_bind].
  apply elem_of_cons in Hy as [->|Hy].
  - rewrite (bind_nil l f), app_nil_r; [done|]. intros z' Hz'. apply Hf; [by constructor|]. intros ->. done.
  - rewrite (Hf z); [|constructor|by intros ->]. apply IH; [done|]. intros z' Hz' Hne. apply Hf; [by constructor|done].
Qed.

Lemma at_slot_bind {A} (f : A → list (nat * edge)) s l : at_slot s (l ≫= f) = l ≫= λ x, at_slot s (f x).
Proof. induction l as [|x l IH]; [done|]. cbn [mbind list_bind]. rewrite at_slot_app. f_equal. exact IH. Qed.

Section Rebuild.
Context {W : Type} `{CS : CsrStore W} `{SZ : Sizes}.
Context (self : RelTable) (direction : Direction) (gr nr : OffsetRemap).
Context (Hd : direction ≠ Both) (Hgr : remap_wf gr) (Hnr : remap_wf nr).
Notation types := (schema_types (rt_schema self)).

(** What becomes of an edge of node [x]. *)
Definition kept (x : Z) (e : edge) : option edge :=
  if remapped_edge_is_tombstoned self direction x e.1 then None else (λ n, (n, e.2)) <$> renumber nr e.1.

(** The slot of node [x] in the replacement group of [rows] rows at [new_start]. *)
Definition slot_for (new_start : Z) (rows : nat) (x : Z) : option nat :=
  x' ← renumber gr x;
  if (new_start <=? x') && (x' <? new_start + Z.of_nat rows) then Some (Z.to_nat (x' - new_start)) else None.

Definition moved_edge (new_start : Z) (rows : nat) (x : Z) (e : edge) : option (nat * edge) :=
  s ← slot_for new_start rows x; e' ← kept x e; Some (s, e').

Definition moved_group (new_start : Z) (rows : nat) (start : Z) (a : adjacency) : list (nat * edge) :=
  omap (λ x, moved_edge new_start rows (start + Z.of_nat x.1) x.2) (slotted 0 a).

(** A buffered edge from its grouped endpoint. *)
Definition grouped_of (edge : Edge) : Z := match direction with In => e_to edge | _ => e_from edge end.
Definition neighbor_of (edge : Edge) : Z := match direction with In => e_from edge | _ => e_to edge end.

Definition moved_overlay (new_start : Z) (rows : nat) : list (nat * edge) :=
  omap (λ edge, moved_edge new_start rows (grouped_of edge) (neighbor_of edge, e_values edge)) (buffered_edges self).

Lemma edge_endpoints_ok edge : edge_endpoints edge direction = Ok (grouped_of edge, neighbor_of edge).
Proof. unfold grouped_of, neighbor_of. by destruct direction. Qed.

Lemma remapped_tombstone edge :
  remapped_edge_is_tombstoned self direction (grouped_of edge) (neighbor_of edge) = edge_is_tombstoned self (e_from edge) (e_to edge).
Proof. unfold grouped_of, neighbor_of. by destruct direction. Qed.

Lemma slot_for_lt new_start rows x s : slot_for new_start rows x = Some s → (s < rows)%nat.
Proof.
  unfold slot_for. destruct (renumber gr x) as [x'|]; [|done]. simpl. destruct (Z.leb_spec new_start x'), (Z.ltb_spec x' (new_start + Z.of_nat rows)); try done.
  intros [= <-]. lia.
Qed.

Lemma moved_ok new_start rows x e y : edge_ok types e → moved_edge new_start rows x e = Some y → (y.1 < rows)%nat ∧ edge_ok types y.2.
Proof.
  intros He. unfold moved_edge. destruct (slot_for new_start rows x) as [s|] eqn:Hs; [|done]. unfold kept. simpl.
  destruct (remapped_edge_is_tombstoned self direction x e.1); [done|]. destruct (renumber nr e.1); [|done]. intros [= <-].
  split; [by eapply slot_for_lt|]. done.
Qed.

Lemma replacement_slot_ok d new_start x x' : renumber gr x = Some x' →
  replacement_slot (csr_of types d) new_start x' = slot_for new_start (length d) x.
Proof.
  intros Hx. unfold replacement_slot, slot_for. rewrite Hx, csr_of_rows. simpl. destruct (Z.ltb_spec x' new_start), (Z.leb_spec new_start x'); try lia; try done.
  simpl. destruct (Z.ltb_spec x' (new_start + Z.of_nat (length d))), (Nat.ltb_spec (Z.to_nat (x' - new_start)) (length d)); try lia; done.
Qed.

(** *** One old group *)

Definition moved_slot (new_start : Z) (rows : nat) (x : Z) (l : list edge) : list (nat * edge) := omap (moved_edge new_start rows x) l.

Lemma moved_slots new_start rows start k a :
  omap (λ x, moved_edge new_start rows (start + Z.of_nat x.1) x.2) (slotted k a) =
  enumerate_from k a ≫= λ '(t, l), moved_slot new_start rows (start + Z.of_nat t) l.
Proof.
  revert k. induction a as [|l a IH]; intros k; [done|]. rewrite slotted_cons, omap_app, IH, enumerate_from_cons. cbn [mbind list_bind]. f_equal.
  unfold moved_slot. clear IH. induction l as [|e l IH]; [done|]. cbn [fmap list_fmap omap list_omap fst snd]. by rewrite IH.
Qed.

Lemma add_group_ok d new_start start n a slot l :
  Forall (edge_ok types) (concat a) → Forall (λ e : edge, 0 ≤ e.1 < n) (concat a) → n ≤ old_domain nr →
  a !! slot = Some l → in_u 64 (start + Z.of_nat slot) → start + Z.of_nat slot < old_domain gr →
  Z.of_nat (length (concat d) + length (moved_slot new_start (length d) (start + Z.of_nat slot) l)) < 2 ^ 32 →
  (let! old_source := checked_usize (start + Z.of_nat slot) (Corrupt "old CSR source offset overflows u64") in
   let! new_source := remap_map gr old_source in
   match new_source with
   | None => Ok (csr_of types d)
   | Some new_source =>
       match replacement_slot (csr_of types d) new_start new_source with
       | None => Ok (csr_of types d)
       | Some new_slot =>
           let! (start, end_) := ok_or (edge_range (csr_of types a) slot) missing_slot in
           for_each (seq start (end_ - start)) (csr_of types d) (λ replacement edge_index,
             let! old_neighbor := csr_neighbor (csr_of types a) edge_index in
             if remapped_edge_is_tombstoned self direction old_source old_neighbor then Ok replacement else
             let! new_neighbor := remap_map nr old_neighbor in
             match new_neighbor with
             | None => Ok replacement
             | Some new_neighbor =>
                 let! values := csr_values (csr_of types a) edge_index in
                 push_edge replacement new_slot new_neighbor values
             end)
       end
   end) = Ok (csr_of types (add_edges d (moved_slot new_start (length d) (start + Z.of_nat slot) l))).
Proof.
  intros Hok Hn Hle Hl Hu Hdom Hroom. unfold checked_usize. rewrite try_u_in by done. cbn [ok_or bind]. rewrite remap_map_ok by done. cbn [bind].
  set (x := start + Z.of_nat slot) in *.
  assert (slot_for new_start (length d) x = None → moved_slot new_start (length d) x l = []) as Hnone.
  { intros Hs. unfold moved_slot, moved_edge. rewrite Hs. simpl. clear. by induction l. }
  destruct (renumber gr x) as [x'|] eqn:Hx'; [|rewrite Hnone; [done|unfold slot_for; by rewrite Hx']].
  rewrite (replacement_slot_ok d new_start x x' Hx'). destruct (slot_for new_start (length d) x) as [s|] eqn:Hs; [|by rewrite Hnone].
  rewrite (edge_range_spec _ _ _ _ Hl). cbn [ok_or bind].
  rewrite (for_slot_indices a slot l (csr_of types d) _ (λ g e, match moved_edge new_start (length d) x e with
    Some (s, e) => push_edge g s e.1 e.2 | None => Ok g end) Hl).
  - unfold moved_slot. apply push_omap; [|exact Hroom]. rewrite Forall_forall. intros y (e & He & Hy)%list_elem_of_omap.
    eapply moved_ok; [|exact Hy]. rewrite Forall_forall in Hok. apply Hok. apply list_elem_of_In, in_concat. exists l.
    split; [apply list_elem_of_In; by eapply list_elem_of_lookup_2|by apply list_elem_of_In].
  - intros g i e Hi. destruct (csr_edge_spec types a i e Hok Hi) as [-> ->]. cbn [bind]. unfold moved_edge, kept. rewrite Hs. simpl.
    destruct (remapped_edge_is_tombstoned self direction x e.1); [done|]. rewrite remap_map_ok.
    + cbn [bind]. by destruct (renumber nr e.1).
    + rewrite Forall_forall in Hn. specialize (Hn e ltac:(by eapply list_elem_of_lookup_2)). simpl in Hn. lia.
Qed.

Lemma moved_all_ok new_start rows start k a : Forall (edge_ok types) (concat a) →
  Forall (λ y, (y.1 < rows)%nat ∧ edge_ok types y.2) (omap (λ x, moved_edge new_start rows (start + Z.of_nat x.1) x.2) (slotted k a)).
Proof.
  intros Hok. rewrite Forall_forall. intros y (x & Hx & Hy)%list_elem_of_omap. eapply moved_ok; [|exact Hy].
  pose proof (slotted_all types a k Hok) as Hs. rewrite Forall_forall in Hs. by apply (Hs x Hx).
Qed.

(** A loop over slots that adds edges slot by slot. *)
Lemma slots_loop F (g : nat → list edge → list (nat * edge)) rows (a : adjacency) :
  (∀ t l, a !! t = Some l → Forall (λ y, (y.1 < rows)%nat) (g t l)) →
  (∀ d t l, length d = rows → a !! t = Some l → Z.of_nat (length (concat d) + length (g t l)) < 2 ^ 32 →
     F (csr_of types d) t = Ok (csr_of types (add_edges d (g t l)))) →
  ∀ m k d, (k + m = length a)%nat → length d = rows →
  Z.of_nat (length (concat d) + length (enumerate_from k (drop k a) ≫= λ '(t, l), g t l)) < 2 ^ 32 →
  for_each (seq k m) (csr_of types d) F = Ok (csr_of types (add_edges d (enumerate_from k (drop k a) ≫= λ '(t, l), g t l))).
Proof.
  intros Hg HF. induction m as [|m IH]; intros k d Hk Hlen Hroom; [by rewrite drop_ge by lia|].
  cbn [seq for_each]. destruct (lookup_lt_is_Some_2 a k) as [l Hl]; [lia|]. rewrite (drop_S a l k Hl) in *. rewrite enumerate_from_cons in *.
  cbn [mbind list_bind] in *. rewrite length_app in Hroom. rewrite (HF d k l) by (done || lia). cbn [bind]. rewrite add_edges_app.
  apply IH; [lia|by rewrite length_add_edges|]. rewrite length_concat_adds by (rewrite Hlen; by apply Hg). lia.
Qed.

Lemma slot_edge_ok (a : adjacency) t l e : Forall (edge_ok types) (concat a) → a !! t = Some l → e ∈ l → edge_ok types e.
Proof.
  intros Hok Hl He. rewrite Forall_forall in Hok. apply Hok. apply list_elem_of_In, in_concat. exists l.
  split; [apply list_elem_of_In; by eapply list_elem_of_lookup_2|by apply list_elem_of_In].
Qed.

Lemma append_group_ok w d new_start counts n ids A i c a id :
  dir_stored w types counts n ids A → counts !! i = Some c → A !! i = Some a → stored_group_id ids i = Some id →
  rows_of counts ≤ old_domain gr → n ≤ old_domain nr →
  Z.of_nat (length (concat d) + length (moved_group new_start (length d) (rows_of (take i counts)) a)) < 2 ^ 32 →
  append_remapped_old_group self w (csr_of types d) id i (layout_of counts) n gr nr new_start direction types =
    Ok (csr_of types (add_edges d (moved_group new_start (length d) (rows_of (take i counts)) a))).
Proof.
  intros (Hlen & _ & Hall) Hc Ha Hid Hdom Hn Hroom. destruct (Hall _ _ _ Hc Ha) as (Hrows & Hb & Hst). rewrite Hid in Hst.
  destruct Hst as (Hat & _ & _ & _ & _ & _ & _ & Hok). unfold append_remapped_old_group. rewrite (csr_at_reads _ _ _ _ _ Hat) by (by apply neighbors_below).
  cbn [bind]. unfold index. cbn [layout_of row_counts starts]. rewrite Hc. cbn [expect bind]. unfold validate_csr_row_count.
  rewrite csr_of_rows, (proj2 (Nat.ltb_ge _ _)) by done. cbn [bind]. rewrite (start_list_lookup _ _ _ _ Hc), Z.add_0_l.
  set (start := rows_of (take i counts)) in *. pose proof (rows_of_take _ _ _ Hc) as Hmax. pose proof (rows_of_nonneg (take i counts)) as Hpos.
  fold start in Hmax, Hpos. pose proof (domain_u64 gr Hgr) as [_ Hu]. unfold moved_group in *. rewrite moved_slots in *.
  rewrite <- (drop_0 a) in Hroom |- * at 2. apply (slots_loop _ (λ t l, moved_slot new_start (length d) (start + Z.of_nat t) l) (length d)); try done.
  - intros t l Hl. unfold moved_slot. rewrite Forall_forall. intros y (e & He & Hy)%list_elem_of_omap.
    by apply (moved_ok new_start (length d) (start + Z.of_nat t) e y (slot_edge_ok a t l e Hok Hl He) Hy).
  - intros d' t l Hd' Hl Hr. cbn [expect bind]. pose proof (lookup_lt_Some _ _ _ Hl). rewrite <- Hd' in *.
    apply (add_group_ok d' new_start start n a t l); try done; [unfold in_u; lia|lia].
Qed.

(** *** The groups an endpoint range comes from *)

Definition relevant_of (ids : list Z) (counts : list nat) (new_start new_end : Z) (x : nat * nat) : option (nat * Z) :=
  id ← stored_group_id ids x.1;
  match survivor_range gr (rows_of (take x.1 counts)) (rows_of (take x.1 counts) + Z.of_nat x.2) with
  | Ok (Some (lo, hi)) => if (lo <? new_end) && (new_start <? hi) then Some (x.1, id) else None
  | _ => None
  end.

Lemma relevant_ok ids counts new_start new_end : rows_of counts ≤ old_domain gr →
  relevant_old_groups ids (layout_of counts) gr new_start new_end = Ok (omap (relevant_of ids counts new_start new_end) (enumerate counts)).
Proof.
  intros Hdom. unfold relevant_old_groups. cbn [layout_of row_counts starts].
  assert (∀ l acc, Forall (λ x, counts !! x.1 = Some x.2) l → for_each l acc (λ relevant '(i, row_count),
    match stored_group_id ids i with
    | None => Ok relevant
    | Some page_id =>
        let! start := index (start_list 0 counts) i in
        let! old_end := checked_usize (start + Z.of_nat row_count) (Corrupt "old CSR source range overflows u64") in
        let! range := survivor_range gr start old_end in
        match range with
        | None => Ok relevant
        | Some (mapped_start, mapped_end) =>
            if (mapped_start <? new_end) && (new_start <? mapped_end) then Ok (relevant ++ [(i, page_id)]) else Ok relevant
        end
    end) = Ok (acc ++ omap (relevant_of ids counts new_start new_end) l)) as Hloop.
  { intros l acc Hl. revert acc. induction Hl as [|[i c] l Hi _ IH]; intros acc; [by rewrite app_nil_r|]. simpl in Hi. cbn [for_each omap list_omap].
    unfold relevant_of at 1. cbn [fst snd]. destruct (stored_group_id ids i) as [id|]; [|apply IH]. cbn [mbind option_bind].
    unfold index. rewrite (start_list_lookup _ _ _ _ Hi), Z.add_0_l. cbn [expect bind]. pose proof (rows_of_take _ _ _ Hi) as Hmax.
    pose proof (rows_of_nonneg (take i counts)). pose proof (domain_u64 gr Hgr) as [_ Hu]. unfold checked_usize. rewrite try_u_in by (unfold in_u; lia).
    cbn [ok_or bind]. destruct (survivor_range_spec gr (rows_of (take i counts)) (rows_of (take i counts) + Z.of_nat c) Hgr ltac:(lia)) as (range & -> & _).
    cbn [bind]. destruct range as [[lo hi]|]; [|apply IH]. destruct ((lo <? new_end) && (new_start <? hi)); [|apply IH].
    cbn [bind]. rewrite IH, <- app_assoc. done. }
  rewrite Hloop; [done|]. apply Forall_forall. intros [i c] Hx. by apply elem_of_enumerate in Hx.
Qed.

Lemma relevant_stored ids counts new_start new_end i id :
  (i, id) ∈ omap (relevant_of ids counts new_start new_end) (enumerate counts) → stored_group_id ids i = Some id ∧ ∃ c, counts !! i = Some c.
Proof.
  intros ([i' c] & Hx & Hr)%list_elem_of_omap. apply elem_of_enumerate in Hx. unfold relevant_of in Hr. cbn [fst snd] in Hr.
  destruct (stored_group_id ids i') as [id'|] eqn:Hid; [|done]. cbn [mbind option_bind] in Hr.
  destruct (survivor_range gr _ _) as [[[lo hi]|]| |]; try done. destruct ((lo <? new_end) && (new_start <? hi)); [|done]. injection Hr as -> ->. eauto.
Qed.

Lemma relevant_complete ids counts new_start new_end x x' g slot id : rows_of counts ≤ old_domain gr →
  lies counts x g slot → renumber gr x = Some x' → new_start ≤ x' < new_end → stored_group_id ids g = Some id →
  (g, id) ∈ omap (relevant_of ids counts new_start new_end) (enumerate counts).
Proof.
  intros Hdom (c & Hg & Hs & Hx) Hx' Hin Hid. apply list_elem_of_omap. exists (g, c). split; [by apply enumerate_elem_of|].
  unfold relevant_of. cbn [fst snd]. rewrite Hid. cbn [mbind option_bind]. pose proof (rows_of_take _ _ _ Hg) as Hmax.
  destruct (survivor_range_spec gr (rows_of (take g counts)) (rows_of (take g counts) + Z.of_nat c) Hgr ltac:(lia)) as (range & -> & Hr).
  destruct (Hr x x' ltac:(lia) Hx') as (lo & hi & -> & Hlo). by rewrite (proj2 (Z.ltb_lt lo new_end)), (proj2 (Z.ltb_lt new_start hi)) by lia.
Qed.

Lemma relevant_NoDup ids counts new_start new_end k : NoDup (omap (relevant_of ids counts new_start new_end) (enumerate_from k counts)).*1.
Proof.
  assert (∀ l, NoDup l.*1 → NoDup (omap (relevant_of ids counts new_start new_end) l).*1) as H.
  { induction l as [|[i c] l IH]; intros Hnd; [constructor|]. apply NoDup_cons in Hnd as [Hni Hnd]. cbn [omap list_omap].
    destruct (relevant_of ids counts new_start new_end (i, c)) as [[j id]|] eqn:E; [|by apply IH]. cbn [fmap list_fmap fst]. apply NoDup_cons. split; [|by apply IH].
    assert (∀ y z, relevant_of ids counts new_start new_end y = Some z → z.1 = y.1) as Hfst.
    { intros y z Hy. unfold relevant_of in Hy. destruct (stored_group_id ids y.1); [|done]. cbn [mbind option_bind] in Hy.
      destruct (survivor_range gr _ _) as [[[lo hi]|]| |]; try done. destruct (_ && _); [|done]. by injection Hy as <-. }
    apply Hfst in E. simpl in E. subst j. intros ([j' id'] & -> & Hin)%list_elem_of_fmap. apply list_elem_of_omap in Hin as (y & Hy & Ey).
    apply Hfst in Ey. simpl in *. subst. apply Hni. apply list_elem_of_fmap. eauto. }
  apply H. rewrite enumerate_fst. apply NoDup_seq.
Qed.

(** *** A replacement group *)

Definition edges_fit : Prop :=
  Forall (λ edge, 0 ≤ grouped_of edge < old_domain gr ∧ 0 ≤ neighbor_of edge < old_domain nr ∧
    Forall2 (λ v ty, matches_type v ty = true) (e_values edge) types) (buffered_edges self).

Definition moved_old (ids : list Z) (counts : list nat) (A : list adjacency) (new_start : Z) (rows : nat) : list (nat * edge) :=
  omap (relevant_of ids counts new_start (new_start + Z.of_nat rows)) (enumerate counts) ≫= λ x,
    moved_group new_start rows (rows_of (take x.1 counts)) (default [] (A !! x.1)).

(** The edges of the replacement group, in the order they are pushed. *)
Definition moved_all (ids : list Z) (counts : list nat) (A : list adjacency) (new_start : Z) (rows : nat) : list (nat * edge) :=
  moved_old ids counts A new_start rows ++ moved_overlay new_start rows.

Lemma overlay_ok d new_start : edges_fit →
  Z.of_nat (length (concat d) + length (moved_overlay new_start (length d))) < 2 ^ 32 →
  append_remapped_overlay_group self (csr_of types d) direction gr nr new_start (new_start + Z.of_nat (length d)) =
    Ok (csr_of types (add_edges d (moved_overlay new_start (length d)))).
Proof.
  intros Hfit Hroom. unfold append_remapped_overlay_group.
  erewrite (for_each_ext _ _ _ (λ g edge, match moved_edge new_start (length d) (grouped_of edge) (neighbor_of edge, e_values edge) with
    Some (s, e) => push_edge g s e.1 e.2 | None => Ok g end)).
  - unfold moved_overlay in *. apply push_omap; [|exact Hroom]. rewrite Forall_forall. intros y (edge & He & Hy)%list_elem_of_omap.
    unfold edges_fit in Hfit. rewrite Forall_forall in Hfit. destruct (Hfit edge He) as (_ & _ & Hv). eapply moved_ok; [|exact Hy]. exact Hv.
  - intros g edge Hin. unfold edges_fit in Hfit. rewrite Forall_forall in Hfit. destruct (Hfit edge Hin) as (Hg & Hn & _).
    unfold moved_edge, kept, slot_for. cbn [fst snd]. rewrite remapped_tombstone. destruct (edge_is_tombstoned self (e_from edge) (e_to edge)).
    { destruct (renumber gr (grouped_of edge)) as [x'|]; [|done]. simpl. by destruct (_ && _). }
    rewrite edge_endpoints_ok. cbn [bind]. rewrite remap_map_ok by lia. cbn [bind]. destruct (renumber gr (grouped_of edge)) as [x'|]; [|done].
    simpl. rewrite Z.ltb_antisym, (Z.ltb_antisym _ x'). destruct (new_start <=? x'), (new_start + Z.of_nat (length d) <=? x'); try done. simpl.
    rewrite remap_map_ok by lia. cbn [bind]. by destruct (renumber nr (neighbor_of edge)).
Qed.

Lemma build_ok w counts n ids A rows new_start :
  dir_stored w types counts n ids A → rows_of counts ≤ old_domain gr → n ≤ old_domain nr → edges_fit →
  (0 < rows)%nat → Z.of_nat rows < 2 ^ 32 → Z.of_nat (length (moved_all ids counts A new_start rows)) < 2 ^ 32 →
  build_replacement self w rows (omap (relevant_of ids counts new_start (new_start + Z.of_nat rows)) (enumerate counts)) (layout_of counts) n gr nr
    new_start (new_start + Z.of_nat rows) direction types =
  Ok (csr_of types (add_edges (replicate rows []) (moved_all ids counts A new_start rows))).
Proof.
  intros Hst Hdom Hn Hfit Hpos Hmax Hroom. unfold build_replacement. rewrite csr_new_spec by done. cbn [bind].
  assert (∀ rel d, length d = rows → Forall (λ x : nat * Z, stored_group_id ids x.1 = Some x.2 ∧ ∃ c, counts !! x.1 = Some c) rel →
    Z.of_nat (length (concat d) + length (rel ≫= λ x, moved_group new_start rows (rows_of (take x.1 counts)) (default [] (A !! x.1)))) < 2 ^ 32 →
    for_each rel (csr_of types d) (λ replacement '(old_index, page_id),
      append_remapped_old_group self w replacement page_id old_index (layout_of counts) n gr nr new_start direction types) =
    Ok (csr_of types (add_edges d (rel ≫= λ x, moved_group new_start rows (rows_of (take x.1 counts)) (default [] (A !! x.1)))))) as Hloop.
  { induction rel as [|[i id] rel IH]; intros d Hd' Hrel Hr; [done|]. apply Forall_cons in Hrel as [[Hid [c Hc]] Hrel]. simpl in Hid, Hc.
    destruct (lookup_lt_is_Some_2 A i) as [a Ha]; [destruct Hst as [-> _]; by apply lookup_lt_Some in Hc|].
    cbn [mbind list_bind for_each fst snd] in *. rewrite Ha in *. cbn [default from_option Datatypes.id] in *. rewrite length_app in Hr. subst rows.
    rewrite (append_group_ok w d new_start counts n ids A i c a id) by (done || lia). cbn [bind]. rewrite add_edges_app. apply IH; [by rewrite length_add_edges|done|].
    rewrite length_concat_adds; [lia|]. destruct Hst as (_ & _ & Hall). destruct (Hall _ _ _ Hc Ha) as (_ & _ & Hg). rewrite Hid in Hg.
    eapply Forall_impl; [apply moved_all_ok|]; [apply Hg|]. by intros y [? _]. }
  unfold moved_all in *. rewrite length_app in Hroom. assert (concat (replicate rows ([] : list edge)) = []) as Hnil by (clear; by induction rows).
  rewrite Hloop; [|by rewrite length_replicate| |rewrite Hnil; unfold moved_old in Hroom; simpl; lia].
  2:{ apply Forall_forall. intros [i id] Hx. by apply relevant_stored in Hx. }
  cbn [bind]. rewrite add_edges_app. fold (moved_old ids counts A new_start rows). set (d := add_edges (replicate rows []) (moved_old ids counts A new_start rows)).
  assert (length d = rows) as Hlen by (unfold d; by rewrite length_add_edges, length_replicate). pose proof (overlay_ok d new_start Hfit) as Hov. rewrite Hlen in Hov. rewrite Hov; [done|]. clear Hov.
  unfold d at 1. rewrite length_concat_adds, Hnil; [simpl; lia|]. rewrite length_replicate. unfold moved_old.
  apply Forall_forall. intros y (x & Hy & Hx)%list_elem_of_bind. unfold moved_group in Hy. apply list_elem_of_omap in Hy as (z & _ & Hy).
  unfold moved_edge in Hy. destruct (slot_for new_start rows _) as [s0|] eqn:Es; [|done]. apply slot_for_lt in Es. simpl in Hy. destruct (kept _ _); [|done]. by injection Hy as <-.
Qed.

(** *** The edges a slot receives *)

(** The buffered edges of node [x]. *)
Definition buffered_at (x : Z) : list edge :=
  omap (λ edge, if grouped_of edge =? x then Some (neighbor_of edge, e_values edge) else None) (buffered_edges self).

Lemma slot_for_iff new_start rows x s y : renumber gr x = Some (new_start + Z.of_nat s) → (s < rows)%nat →
  slot_for new_start rows y = Some s ↔ y = x.
Proof.
  intros Hx Hs. split.
  - unfold slot_for. destruct (renumber gr y) as [y'|] eqn:Hy; [|done]. simpl. destruct (Z.leb_spec new_start y'), (Z.ltb_spec y' (new_start + Z.of_nat rows)); try done.
    intros [= <-]. apply (renumber_inj gr y x y' Hgr Hy). rewrite Hx. f_equal. lia.
  - intros ->. unfold slot_for. rewrite Hx. simpl. rewrite (proj2 (Z.leb_le _ _)), (proj2 (Z.ltb_lt _ _)) by lia. simpl. f_equal. lia.
Qed.

Lemma moved_edge_at new_start rows x s y e : renumber gr x = Some (new_start + Z.of_nat s) → (s < rows)%nat →
  (z ← moved_edge new_start rows y e; if decide (z.1 = s) then Some z.2 else None) = (if decide (y = x) then kept x e else None).
Proof.
  intros Hx Hs. unfold moved_edge. destruct (decide (y = x)) as [->|Hne].
  - rewrite (proj2 (slot_for_iff _ _ _ _ _ Hx Hs) eq_refl). simpl. destruct (kept x e); [|done]. simpl. by rewrite decide_True.
  - destruct (slot_for new_start rows y) as [t|] eqn:Ht; [|done]. simpl. destruct (kept y e); [|done]. simpl. rewrite decide_False; [done|].
    intros ->. by apply (slot_for_iff _ _ _ _ _ Hx Hs) in Ht.
Qed.

Lemma moved_group_at new_start rows start a x s : renumber gr x = Some (new_start + Z.of_nat s) → (s < rows)%nat →
  at_slot s (moved_group new_start rows start a) = if decide (start ≤ x) then omap (kept x) (default [] (a !! Z.to_nat (x - start))) else [].
Proof.
  intros Hx Hs. unfold moved_group. destruct (decide (start ≤ x)) as [Hle|Hgt].
  - rewrite (at_slot_omap _ (kept x) s (Z.to_nat (x - start))).
    + f_equal. pose proof (at_slot_slotted a 0 (Z.to_nat (x - start)) ltac:(lia)) as Hat. rewrite Nat.sub_0_r in Hat. exact Hat.
    + apply Forall_forall. intros [t e] _. cbn [fst snd]. rewrite (moved_edge_at _ _ x) by done.
      destruct (decide (start + Z.of_nat t = x)), (decide (t = Z.to_nat (x - start))); try lia; done.
  - apply at_slot_none. apply Forall_forall. intros [t e] _ e' Hm. pose proof (moved_edge_at new_start rows x s (start + Z.of_nat t) e Hx Hs) as Hat.
    cbn [fst snd] in Hm. rewrite Hm in Hat. simpl in Hat. rewrite decide_True in Hat by done. rewrite decide_False in Hat by lia. done.
Qed.

Lemma moved_old_at w ids counts n A new_start rows x s :
  dir_stored w types counts n ids A → rows_of counts ≤ old_domain gr → 0 ≤ x →
  renumber gr x = Some (new_start + Z.of_nat s) → (s < rows)%nat →
  at_slot s (moved_old ids counts A new_start rows) = omap (kept x) (edges_at counts A x).
Proof.
  intros Hst Hdom Hpos Hx Hs. unfold moved_old. rewrite at_slot_bind. set (rel := omap _ (enumerate counts)).
  assert (∀ i id, (i, id) ∈ rel → (∀ slot, ¬ lies counts x i slot) →
    at_slot s (moved_group new_start rows (rows_of (take i counts)) (default [] (A !! i))) = []) as Hother.
  { intros i id Hi Hno. apply relevant_stored in Hi as (Hid & c & Hc). rewrite (moved_group_at _ _ _ _ x) by done. destruct (decide _) as [Hle|]; [|done].
    destruct (A !! i) as [a|] eqn:Ha; [|done]. simpl. destruct Hst as (_ & _ & Hall). destruct (Hall _ _ _ Hc Ha) as (Hlen & _).
    rewrite lookup_ge_None_2; [done|]. destruct (decide (Z.to_nat (x - rows_of (take i counts)) < c)%nat) as [Hlt|]; [|lia]. exfalso.
    apply (Hno (Z.to_nat (x - rows_of (take i counts)))). exists c. split_and!; [done|done|lia]. }
  destruct (decide (x < rows_of counts)) as [Hin|Hout].
  2:{ rewrite edges_at_outside by lia. apply bind_nil. intros [i id] Hi. eapply Hother; [exact Hi|]. intros slot Hl. apply lies_inside in Hl. lia. }
  destruct (locate_inside counts x ltac:(lia)) as (g & slot & _ & Hl). destruct (stored_group_id ids g) as [id|] eqn:Hid.
  - rewrite (bind_unique rel _ (g, id)).
    + cbn [fst]. rewrite (moved_group_at _ _ _ _ x) by done. rewrite (edges_at_lies _ _ _ _ _ Hl). destruct Hl as (c & Hc & Hsl & Hxe).
      rewrite decide_True by lia. replace (Z.to_nat (x - rows_of (take g counts))) with slot by lia. f_equal. by destruct (A !! g).
    + apply (NoDup_fmap_1 fst). apply relevant_NoDup.
    + eapply relevant_complete; [done|exact Hl|exact Hx|lia|done].
    + intros [i id'] Hi Hne. eapply Hother; [exact Hi|]. intros slot' Hl'. destruct (lies_unique _ _ _ _ _ _ Hl Hl') as [-> _].
      apply relevant_stored in Hi as [Hid' _]. apply Hne. cbn [fst] in *. rewrite Hid in Hid'. by injection Hid' as ->.
  - rewrite (unstored_edges w types counts n ids A g slot x Hst Hl Hid). apply bind_nil. intros [i id] Hi. eapply Hother; [exact Hi|].
    intros slot' Hl'. destruct (lies_unique _ _ _ _ _ _ Hl Hl') as [-> _]. apply relevant_stored in Hi as [Hid' _]. cbn [fst] in *. congruence.
Qed.

Lemma moved_overlay_at new_start rows x s : renumber gr x = Some (new_start + Z.of_nat s) → (s < rows)%nat →
  at_slot s (moved_overlay new_start rows) = omap (kept x) (buffered_at x).
Proof.
  intros Hx Hs. unfold moved_overlay, buffered_at. induction (buffered_edges self) as [|edge l IH]; [done|]. cbn [omap list_omap].
  pose proof (moved_edge_at new_start rows x s (grouped_of edge) (neighbor_of edge, e_values edge) Hx Hs) as Hm.
  destruct (moved_edge new_start rows (grouped_of edge) (neighbor_of edge, e_values edge)) as [[t e]|]; simpl in Hm.
  - unfold at_slot in *. cbn [omap list_omap fst snd]. rewrite IH, Hm. destruct (decide (grouped_of edge = x)) as [E|E].
    + rewrite (proj2 (Z.eqb_eq _ _) E). cbn [omap list_omap]. done.
    + rewrite (proj2 (Z.eqb_neq _ _) E). done.
  - rewrite IH. destruct (decide (grouped_of edge = x)) as [E|E].
    + rewrite (proj2 (Z.eqb_eq _ _) E). cbn [omap list_omap]. by rewrite <- Hm.
    + by rewrite (proj2 (Z.eqb_neq _ _) E).
Qed.

(** A surviving node's slot of the replacement group gets the edges it had that
    survive, renumbered, then its buffered ones. *)
Lemma moved_all_at w ids counts n A new_start rows x s :
  dir_stored w types counts n ids A → rows_of counts ≤ old_domain gr → 0 ≤ x →
  renumber gr x = Some (new_start + Z.of_nat s) → (s < rows)%nat →
  add_edges (replicate rows []) (moved_all ids counts A new_start rows) !! s = Some (omap (kept x) (edges_at counts A x ++ buffered_at x)).
Proof.
  intros Hst Hdom Hpos Hx Hs. rewrite (add_edges_lookup _ _ _ []) by (by apply lookup_replicate_2). unfold moved_all.
  rewrite at_slot_app, (moved_old_at w _ _ n A _ _ x) by done. rewrite (moved_overlay_at _ _ x) by done. by rewrite omap_app.
Qed.

End Rebuild.
