(* ===== verification/RelCheckpoint.v ===== *)
(** The checkpoint of a relationship table as a whole: one rebuilt group, a
    direction, both directions, and the reads that follow. *)

From stdpp Require Import gmap.
From S2P Require Import Prelude Bytes Types Schema Catalog Overlay Csr CsrCodec RelTable RelRemap RelRebuild.

(** ** Groups that compare equal *)

(** A page is kept when its group compares equal to the rebuilt one: the same
    neighbors, and property values that are the same or compare equal. *)
Definition value_same (v v' : Value) : Prop := v = v' ∨ value_eq v v' = true.
Definition edge_same (e e' : edge) : Prop := e.1 = e'.1 ∧ Forall2 value_same e.2 e'.2.

#[export] Instance edge_same_refl : Reflexive edge_same.
Proof. intros e. split; [done|]. induction e.2; constructor; [by left|done]. Qed.

Lemma sums_inj a : ∀ b k, sums k a = sums k b → a = b.
Proof.
  assert (∀ l k, head (sums k l) = Some k) as Hh by (intros [|] ?; done).
  induction a as [|x a IH]; intros [|y b] k E; [done| | |].
  - apply (f_equal length) in E. rewrite !length_sums in E. done.
  - apply (f_equal length) in E. rewrite !length_sums in E. done.
  - cbn [sums] in E. injection E as E. pose proof (f_equal head E) as E1. rewrite !Hh in E1. injection E1 as E1.
    assert (x = y) as -> by lia. f_equal. by eapply IH.
Qed.

Lemma concat_same {A B} (R : A → B → Prop) a : ∀ b, length <$> a = length <$> b → Forall2 R (concat a) (concat b) → Forall2 (Forall2 R) a b.
Proof.
  induction a as [|l a IH]; intros [|k b] E HR; [done|done|done|]. rewrite !fmap_cons in E. injection E as El E. cbn [concat] in HR.
  apply Forall2_app_inv in HR as [H1 H2]; [|done]. constructor; [done|by apply IH].
Qed.

Lemma list_eqb_Forall2 {A} (eqb : A → A → bool) l : ∀ k, list_eqb eqb l k = true ↔ Forall2 (λ x y, eqb x y = true) l k.
Proof.
  induction l as [|x l IH]; intros [|y k].
  - split; [constructor|done].
  - split; [done|by inversion 1].
  - split; [done|by inversion 1].
  - rewrite Forall2_cons, <- IH. unfold list_eqb. cbn [zip zip_with forallb length]. rewrite !andb_true_iff, !Nat.eqb_eq. naive_solver lia.
Qed.

Lemma group_eqb_same types a b : Forall (edge_ok types) (concat a) → Forall (edge_ok types) (concat b) →
  group_eqb (csr_of types a) (csr_of types b) = true → Forall2 (Forall2 edge_same) a b.
Proof.
  intros Ha Hb E. unfold group_eqb in E. rewrite !andb_true_iff in E. destruct E as [[[_ Eo] En] Ec].
  apply bool_decide_eq_true in Eo, En. cbn [csr_of offsets neighbors csr_columns] in *. apply (inj (fmap Z.of_nat)) in Eo. apply sums_inj in Eo.
  apply concat_same; [done|]. apply list_eqb_Forall2 in Ec. apply Forall2_same_length_lookup_2.
  { apply (f_equal length) in En. by rewrite !length_fmap in En. }
  intros i e e' He He'. split.
  - apply (f_equal (.!! i)) in En. rewrite !list_lookup_fmap, He, He' in En. by injection En.
  - rewrite Forall_forall in Ha, Hb. pose proof (Ha e ltac:(by eapply list_elem_of_lookup_2)) as Hv. pose proof (Hb e' ltac:(by eapply list_elem_of_lookup_2)) as Hv'.
    apply Forall2_length in Hv as Hl. apply Forall2_length in Hv' as Hl'. apply Forall2_same_length_lookup_2; [lia|]. intros j v v' Hj Hj'.
    assert (j < length types)%nat as Hlt by (apply lookup_lt_Some in Hj; lia).
    eapply (Forall2_lookup_lr _ _ _ j) in Ec; [|rewrite list_lookup_fmap, lookup_seq_lt by done; done..].
    apply list_eqb_Forall2 in Ec. cbn [Nat.add] in Ec. unfold column_of in Ec. right.
    eapply (Forall2_lookup_lr _ _ _ i) in Ec; [|rewrite list_lookup_fmap; by (rewrite He || rewrite He')..]. by rewrite Hj, Hj' in Ec.
Qed.

Lemma same_neighbors a b n : Forall2 (Forall2 edge_same) a b → Forall (λ e : edge, 0 ≤ e.1 < n) (concat b) → Forall (λ e : edge, 0 ≤ e.1 < n) (concat a).
Proof.
  induction 1 as [|l k a b Hlk _ IH]; [done|]. cbn [concat]. intros [H1 H2]%Forall_app. apply Forall_app. split; [|by apply IH].
  clear -Hlk H1. induction Hlk as [|e e' l k [He _] _ IH]; [done|]. apply Forall_cons in H1 as [? ?]. constructor; [by rewrite He|by apply IH].
Qed.

Lemma add_edges_all P xs : ∀ adj : adjacency, Forall P (concat adj) → Forall (λ x, P x.2) xs → Forall P (concat (add_edges adj xs)).
Proof.
  induction xs as [|x xs IH]; intros adj Ha Hx; [done|]. apply Forall_cons in Hx as [? ?]. cbn [add_edges foldl]. apply IH; [|done]. by apply add_edge_all.
Qed.

(** ** Stores that only grow *)

Definition store_le {W} `{CS : CsrStore W} (w w' : W) : Prop :=
  (∀ id ts g, csr_at w id ts g → csr_at w' id ts g) ∧ (∀ id c n, endpoint_at w id c n → endpoint_at w' id c n).

#[export] Instance store_le_preorder {W} `{CS : CsrStore W} : PreOrder (store_le (W := W)).
Proof. split; [by intros w; split|]. intros w1 w2 w3 [? ?] [? ?]. split; eauto. Qed.

Lemma dir_stored_le {W} `{CS : CsrStore W} w w' types counts n ids A :
  store_le w w' → dir_stored w types counts n ids A → dir_stored w' types counts n ids A.
Proof.
  intros [Hle _] (H1 & H2 & Hall). split_and!; [done|done|]. intros i c a Hc Ha. destruct (Hall i c a Hc Ha) as (Hl & Hb & Hst). split_and!; [done|done|].
  destruct (stored_group_id ids i); [|done]. destruct Hst as [? ?]. split; [by apply Hle|done].
Qed.

(** ** The catalog while directions are filed *)

Definition cat_but (name : cat_name) (c c' : Catalog) : Prop :=
  catalog_ok c' ∧ node_tables c' = node_tables c ∧ rel_tables c' = rel_tables c ∧
  ∀ m, fold m ≠ fold name → storage_state c' m = storage_state c m.

Lemma cat_but_refl name c : catalog_ok c → cat_but name c c.
Proof. by intros. Qed.

Lemma cat_but_trans name c1 c2 c3 : cat_but name c1 c2 → cat_but name c2 c3 → cat_but name c1 c3.
Proof.
  intros (_ & N1 & R1 & S1) (Hok & N2 & R2 & S2). split; [done|]. split; [congruence|]. split; [congruence|]. intros m Hm. by rewrite S2, S1.
Qed.

Lemma cat_but_table name c c' m : cat_but name c c' → rel_table c' m = rel_table c m ∧ node_table c' m = node_table c m.
Proof. intros (_ & N & R & _). unfold rel_table, node_table. by rewrite N, R. Qed.

Lemma set_rel_ok c name sch s : catalog_ok c → rel_table c name = Some sch →
  ∃ c', set_rel_storage c name s = Ok c' ∧ cat_but name c c' ∧ rel_storage c' name = Some s.
Proof.
  intros Hok Hsch. destruct (set_rel_storage c name s) as [c'|e|] eqn:E; [|unfold set_rel_storage in E; by rewrite Hsch in E..].
  exists c'. split; [done|]. pose proof (set_rel_storage_get c name s c' name Hok E) as Hg. rewrite decide_True in Hg by done. split.
  - split; [by eapply set_rel_storage_ok|]. pose proof (λ m, set_rel_storage_get c name s c' m Hok E) as Hget. unfold set_rel_storage in E. rewrite Hsch in E.
    injection E as <-. split; [done|]. split; [done|]. intros m Hm. by rewrite Hget, decide_False.
  - unfold rel_storage. by rewrite Hg.
Qed.

(** The ids of a direction, and of the other one. *)
Definition dir_ids (d : Direction) (s : RelStorage) : list Z := match d with In => bwd s | _ => fwd s end.
Definition flip (d : Direction) : Direction := match d with Out => In | In => Out | Both => Both end.

Lemma set_direction_ok d s ids : d ≠ Both →
  ∃ s', set_direction_ids s d ids = Ok s' ∧ dir_ids d s' = ids ∧ dir_ids (flip d) s' = dir_ids (flip d) s.
Proof. destruct d; [eauto|eauto|done]. Qed.

Lemma trim_stored ids : ∀ i, stored_group_id (trim_zeros ids) i = stored_group_id ids i.
Proof.
  induction ids as [|id ids IH]; intros i; [done|]. cbn [trim_zeros]. unfold stored_group_id in *. destruct (trim_zeros ids) as [|id' rest] eqn:E.
  - destruct (Z.eqb_spec id 0) as [->|Hne]; destruct i as [|i]; try done; simpl; rewrite <- IH; done.
  - destruct i as [|i]; [done|]. simpl. rewrite <- IH. done.
Qed.

Lemma trim_length ids : (length (trim_zeros ids) ≤ length ids)%nat.
Proof. induction ids as [|id ids IH]; [done|]. cbn [trim_zeros]. destruct (trim_zeros ids); [destruct (id =? 0)|]; simpl in *; lia. Qed.

Section Checkpoint.
Context {W : Type} `{CS : CsrStore W} `{SZ : Sizes}.

Section Direction.
Context (self : RelTable) (direction : Direction) (gr nr : OffsetRemap).
Context (Hd : direction ≠ Both) (Hgr : remap_wf gr) (Hnr : remap_wf nr).
Notation types := (schema_types (rt_schema self)).
Context (counts : list nat) (n : Z) (ids : list Z) (A : list adjacency).
Context (Hdom : rows_of counts ≤ old_domain gr) (Hn : n ≤ old_domain nr) (Hfit : edges_fit self direction gr nr).

Notation rebuilt ns rows := (add_edges (replicate rows []) (moved_all self direction gr nr ids counts A ns rows)).
Notation relevant ns rows := (omap (relevant_of gr ids counts ns (ns + Z.of_nat rows)) (enumerate counts)).

Lemma kept_range x e e' : 0 ≤ e.1 < old_domain nr → kept self direction nr x e = Some e' → 0 ≤ e'.1 < old_domain nr - zlen (deleted nr).
Proof.
  intros He. unfold kept. destruct (remapped_edge_is_tombstoned self direction x e.1); [done|]. destruct (renumber nr e.1) as [y|] eqn:Hy; [|done].
  intros [= <-]. by eapply renumber_range.
Qed.

(** Every edge of a rebuilt group has a renumbered neighbor and values of the
    property types. *)
Lemma moved_facts w ns rows : dir_stored w types counts n ids A →
  Forall (λ y : nat * edge, (y.1 < rows)%nat ∧ edge_ok types y.2 ∧ 0 ≤ y.2.1 < old_domain nr - zlen (deleted nr)) (moved_all self direction gr nr ids counts A ns rows).
Proof.
  intros (Hlen & _ & Hall). unfold moved_all. apply Forall_app. split; apply Forall_forall; intros y.
  - unfold moved_old. intros ([i id] & Hy & Hx)%list_elem_of_bind. cbn [fst] in Hy. apply relevant_stored in Hx as (Hid & c & Hc).
    destruct (lookup_lt_is_Some_2 A i) as [a Ha]; [rewrite Hlen; by apply lookup_lt_Some in Hc|]. rewrite Ha in Hy. cbn [default from_option Datatypes.id] in Hy.
    destruct (Hall _ _ _ Hc Ha) as (_ & Hb & Hst). rewrite Hid in Hst. destruct Hst as (_ & _ & _ & _ & _ & _ & _ & Hok).
    apply list_elem_of_omap in Hy as ([t e] & Hte & Hm). cbn [fst snd] in Hm.
    pose proof (slotted_all types a 0 Hok) as Hs. rewrite Forall_forall in Hs. destruct (Hs _ Hte) as [_ He]. cbn [snd] in He.
    destruct (moved_ok self direction gr nr ns rows _ e y He Hm) as [H1 H2]. split_and!; [done|done|..].
    all: unfold moved_edge in Hm; destruct (slot_for gr ns rows _); [|done]; simpl in Hm; destruct (kept self direction nr _ e) as [e'|] eqn:Hk; [|done];
      injection Hm as <-; simpl; eapply kept_range in Hk; [lia|].
    all: assert (e ∈ concat a) as Hin by (clear -Hte; unfold slotted in Hte; apply list_elem_of_bind in Hte as ([t' l] & Hte & Hl);
      apply list_elem_of_fmap in Hte as (e'' & [= -> ->] & He); apply list_elem_of_In, in_concat; exists l; split;
      [apply list_elem_of_In; by eapply list_elem_of_lookup_2, elem_of_enumerate|by apply list_elem_of_In]);
      rewrite Forall_forall in Hb; specialize (Hb e Hin); simpl in Hb; lia.
  - unfold moved_overlay. intros (edge & He & Hm)%list_elem_of_omap. unfold edges_fit in Hfit. rewrite Forall_forall in Hfit. destruct (Hfit edge He) as (_ & Hne & Hv).
    destruct (moved_ok self direction gr nr ns rows (grouped_of direction edge) (neighbor_of direction edge, e_values edge) y Hv Hm) as [H1 H2]. split_and!; [done|done|..].
    all: unfold moved_edge in Hm; destruct (slot_for gr ns rows _); [|done]; simpl in Hm; destruct (kept self direction nr _ _) as [e'|] eqn:Hk; [|done];
      injection Hm as <-; simpl; eapply kept_range in Hk; [lia|exact Hne].
Qed.

Lemma stored_nonzero (l : list Z) i id : stored_group_id l i = Some id → id ≠ 0.
Proof. unfold stored_group_id. destruct (l !! i) as [x|]; [|done]. simpl. destruct (Z.eqb_spec x 0); [done|]. by intros [= <-]. Qed.

Lemma stored_group (l : list Z) i id w : stored_group_id l i = Some id → dir_stored w types counts n l A →
  ∃ c a, counts !! i = Some c ∧ A !! i = Some a ∧ csr_read_checked w id types n = Ok (csr_of types a) ∧ csr_at w id types (csr_of types a) ∧ group_good types a.
Proof.
  intros Hid (Hlen & Hids & Hall). assert (i < length l)%nat as Hi.
  { unfold stored_group_id in Hid. destruct (l !! i) as [x|] eqn:E; [|done]. by apply lookup_lt_Some in E. }
  destruct (lookup_lt_is_Some_2 counts i) as [c Hc]; [lia|]. destruct (lookup_lt_is_Some_2 A i) as [a Ha]; [lia|].
  destruct (Hall _ _ _ Hc Ha) as (_ & Hb & Hst). rewrite Hid in Hst. destruct Hst as [Hat Hg]. exists c, a. split_and!; try done; try apply Hg.
  by apply csr_at_reads, neighbors_below.
Qed.

Lemma checked_usize_Ok z e y : checked_usize z e = Ok y → y = z ∧ in_u 64 z.
Proof. unfold checked_usize. intros H. apply ok_or_Ok in H. by apply try_u_Some in H. Qed.

Lemma remapped_group_ok w cap room new_counts n' gi rows req (ns := rows_of (take gi new_counts)) :
  dir_stored w types counts n ids A → new_counts !! gi = Some rows → (0 < rows)%nat → (Z.of_nat rows + 1) * 4 < 2 ^ 32 → rows_of new_counts < 2 ^ 64 →
  old_domain nr - zlen (deleted nr) ≤ n' →
  Z.of_nat (length (moved_all self direction gr nr ids counts A ns rows)) * 8 < 2 ^ 32 → columns_good types (rebuilt ns rows) →
  scratch_request self w rows (relevant ns rows) (stored_group_id ids gi) gr nr ns (ns + Z.of_nat rows) direction types = Ok req → 0 ≤ req ≤ cap →
  roomy types cap (S room) w →
  ∃ id w' a', remapped_group self ids (layout_of counts) (layout_of new_counts) n gr nr types direction gi w = (Ok id, w') ∧
    store_le w w' ∧ roomy types cap room w' ∧ Forall2 (Forall2 edge_same) a' (rebuilt ns rows) ∧
    Forall (λ e : edge, 0 ≤ e.1 < n') (concat a') ∧
    (if id =? 0 then concat a' = [] else csr_at w' id types (csr_of types a') ∧ group_good types a').
Proof.
  intros Hst Hrows Hpos Hmax Hnew Hn' Hroom Hcols Hreq Hcap Hr. pose proof (moved_facts w ns rows Hst) as Hfacts.
  assert (concat (replicate rows ([] : list edge)) = []) as Hnil by (clear; by induction rows).
  assert (length (concat (rebuilt ns rows)) = length (moved_all self direction gr nr ids counts A ns rows)) as Hcount.
  { rewrite length_concat_adds, Hnil; [done|]. rewrite length_replicate. eapply Forall_impl; [exact Hfacts|]. by intros y (? & _). }
  assert (Forall (edge_ok types) (concat (rebuilt ns rows))) as Hok.
  { apply add_edges_all; [by rewrite Hnil|]. eapply Forall_impl; [exact Hfacts|]. by intros y (_ & ? & _). }
  assert (Forall (λ e : edge, 0 ≤ e.1 < n') (concat (rebuilt ns rows))) as Hb.
  { apply add_edges_all; [by rewrite Hnil|]. eapply Forall_impl; [exact Hfacts|]. intros y (_ & _ & ?). simpl. lia. }
  assert (length (rebuilt ns rows) = rows) as Hlen by (by rewrite length_add_edges, length_replicate).
  destruct (roomy_grants types cap (S room) req w Hr Hcap) as (w1 & Hch & Hr1). pose proof (charge_keeps _ _ _ _ Hch) as Hk1.
  assert (store_le w w1) as Hle1 by exact Hk1. pose proof (dir_stored_le _ _ _ _ _ _ _ Hle1 Hst) as Hst1.
  unfold remapped_group. unfold sbind at 1, slift at 1, index at 1. cbn [layout_of row_counts starts]. rewrite Hrows. cbn [expect].
  unfold sbind at 1, slift at 1, index at 1. rewrite (start_list_lookup _ _ _ _ Hrows), Z.add_0_l. fold ns. cbn [expect].
  unfold sbind at 1, slift at 1, checked_usize at 1. pose proof (rows_of_take _ _ _ Hrows) as Htk. pose proof (rows_of_nonneg (take gi new_counts)) as Hns. fold ns in Htk, Hns.
  rewrite try_u_in by (unfold in_u; lia). cbn [ok_or]. unfold sbind at 1, slift at 1. change (mkLayout counts _ _) with (layout_of counts).
  rewrite (relevant_ok gr Hgr) by done. unfold sbind at 1. unfold sbind at 1, slift at 1. rewrite Hreq. unfold with_scratch. rewrite Hch.
  unfold sbind at 1. unfold sbind at 1, slift at 1.
  rewrite (build_ok self direction gr nr Hd Hgr w1 counts n ids A rows ns) by (done || lia). unfold replacement_page_id. rewrite csr_of_edges, Hcount.
  set (rb := rebuilt ns rows) in *. set (m := length (moved_all self direction gr nr ids counts A ns rows)) in *.
  assert (∀ w2, store_le w1 w2 → store_le w (budget_release req w2)) as Hrel.
  { intros w2 H12. etrans; [exact Hle1|]. etrans; [exact H12|]. exact (release_keeps req w2). }
  assert (∀ w2, roomy types (cap - req) room w2 → roomy types cap room (budget_release req w2)) as Hrr.
  { intros w2 H2. replace cap with (cap - req + req) by lia. apply roomy_released; [done|lia]. }
  assert (Forall2 (Forall2 edge_same) rb rb) as Hrefl by (clear; induction rb as [|l rb IH]; constructor; [|done]; induction l; constructor; done).
  destruct (Nat.eqb_spec m 0) as [H0|H0].
  { exists 0, (budget_release req w1), rb. split_and!; [done|by apply Hrel|by apply Hrr, roomy_less|done|done|]. simpl. apply length_zero_iff_nil. lia. }
  assert (group_good types rb) as Hgood.
  { unfold group_good. rewrite Hlen, Hcount. do 4 (split; [done || lia|]). split; [|done]. apply add_edges_all; [by rewrite Hnil|].
    eapply Forall_impl; [exact Hfacts|]. intros y (_ & _ & ?). pose proof (domain_u64 nr Hnr). pose proof (zlen_nonneg (deleted nr)). unfold in_u in *. simpl. lia. }
  assert (∀ w2, csr_write (csr_of types rb) w1 = w2 → ∃ id w', w2 = (Ok id, w') ∧ store_le w1 w' ∧ roomy types (cap - req) room w' ∧ id ≠ 0 ∧ csr_at w' id types (csr_of types rb)) as Hwrite.
  { intros w2 <-. destruct (roomy_writes types (cap - req) room rb w1 Hr1 Hgood) as (id & w' & Hw & Hr2). exists id, w'. split; [done|].
    split; [exact (csr_write_keeps _ _ _ _ Hw)|]. split; [done|]. by apply (csr_write_at _ _ _ _ _ Hgood Hw). }
  destruct (Hwrite _ eq_refl) as (id & w2 & Hw & Hle2 & Hr2 & Hid & Hat).
  assert (∃ id0 w0 a0, (let '(r, w3) := csr_write (csr_of types rb) w1 in (r, budget_release req w3)) = (Ok id0, w0) ∧ 
    store_le w w0 ∧ roomy types cap room w0 ∧ Forall2 (Forall2 edge_same) a0 rb ∧ Forall (λ e : edge, 0 ≤ e.1 < n') (concat a0) ∧
    (if id0 =? 0 then concat a0 = [] else csr_at w0 id0 types (csr_of types a0) ∧ group_good types a0)) as Hfresh.
  { rewrite Hw. exists id, (budget_release req w2), rb. rewrite (proj2 (Z.eqb_neq _ _) Hid). split; [done|]. split; [by apply Hrel|]. split_and!; try done; [by apply Hrr|by apply release_keeps]. }
  unfold sbind at 1. unfold sbind, slift. destruct (stored_group_id ids gi) as [page|] eqn:Hpage.
  - destruct (stored_group ids gi page w1 Hpage Hst1) as (c & a & Hc & Ha & Hread & Hata & Hgooda). rewrite Hread. cbn [bind].
    destruct (group_eqb (csr_of types a) (csr_of types rb)) eqn:Heq; [|exact Hfresh].
    pose proof (group_eqb_same types a rb ltac:(apply Hgooda) Hok Heq) as Hsame.
    exists page, (budget_release req w1), a. assert (page ≠ 0) as Hp0 by (by eapply stored_nonzero). rewrite (proj2 (Z.eqb_neq _ _) Hp0).
    split; [done|]. split; [by apply Hrel|]. split_and!; [by apply Hrr, roomy_less|done|by eapply same_neighbors|by apply release_keeps|done].
  - exact Hfresh.
Qed.

(** *** Sizing does not depend on what was written since *)

Lemma group_estimate_stable w w' id g : store_le w w' → csr_at w id types g → group_estimate w' id types = group_estimate w id types.
Proof.
  intros [Hle _] Hat. unfold group_estimate. by rewrite (csr_at_header _ _ _ _ Hat), (csr_at_header _ _ _ _ (Hle _ _ _ Hat)).
Qed.

Lemma scratch_stable w w' rows rel candidate ns ne : store_le w w' → dir_stored w types counts n ids A →
  (∀ x, x ∈ rel → stored_group_id ids x.1 = Some x.2) → (∀ id, candidate = Some id → ∃ i, stored_group_id ids i = Some id) →
  scratch_request self w' rows rel candidate gr nr ns ne direction types = scratch_request self w rows rel candidate gr nr ns ne direction types.
Proof.
  intros Hle Hst Hrel Hcand. assert (∀ i id, stored_group_id ids i = Some id → group_estimate w' id types = group_estimate w id types) as Hest.
  { intros i id Hid. destruct (stored_group ids i id w Hid Hst) as (c & a & _ & _ & _ & Hat & _). by eapply group_estimate_stable. }
  unfold scratch_request. assert (estimate_old_groups w' types rel candidate = estimate_old_groups w types rel candidate) as ->; [|done].
  unfold estimate_old_groups. erewrite for_each_ext.
  - apply bind_ext. intros [[ec pb] os]. destruct candidate as [id|]; [|done]. case_bool_decide; [done|].
    destruct (Hcand id eq_refl) as [i Hi]. by rewrite (Hest _ _ Hi).
  - intros [[ec pb] os] x Hx. simpl. by rewrite (Hest _ _ (Hrel x Hx)).
Qed.

(** *** A whole direction *)

Context (new_counts : list nat) (n' cap : Z).
Context (Hnew : rows_of new_counts = old_domain gr - zlen (deleted gr)) (Hn' : n' = old_domain nr - zlen (deleted nr)).

(** Every replacement group has payloads within [u32] and its scratch request is within the budget. *)
Definition rebuild_ready (w : W) : Prop := ∀ gi rows, new_counts !! gi = Some rows →
  let ns := rows_of (take gi new_counts) in
  (0 < rows)%nat ∧ (Z.of_nat rows + 1) * 4 < 2 ^ 32 ∧ Z.of_nat (length (moved_all self direction gr nr ids counts A ns rows)) * 8 < 2 ^ 32 ∧
  columns_good types (rebuilt ns rows) ∧
  ∃ req, scratch_request self w rows (relevant ns rows) (stored_group_id ids gi) gr nr ns (ns + Z.of_nat rows) direction types = Ok req ∧ 0 ≤ req ≤ cap.

Lemma rebuild_ready_le w w' : store_le w w' → dir_stored w types counts n ids A → rebuild_ready w → rebuild_ready w'.
Proof.
  intros Hle Hst Hready gi rows Hg. destruct (Hready gi rows Hg) as (H1 & H2 & H3 & H6 & req & H4 & H5). cbv zeta. split; [done|]. split; [done|]. split; [done|]. split; [done|].
  exists req. split; [|done]. rewrite (scratch_stable w w'); [exact H4|done|done| |eauto]. intros [i id] Hx. apply relevant_stored in Hx as [Hx _]. exact Hx.
Qed.

(** What the loop has built for the first groups. *)
Definition built (w : W) (new_ids : list Z) (As : list adjacency) : Prop :=
  length As = length new_ids ∧ ∀ i id a, new_ids !! i = Some id → As !! i = Some a →
    ∃ rows, new_counts !! i = Some rows ∧ Forall2 (Forall2 edge_same) a (rebuilt (rows_of (take i new_counts)) rows) ∧
      Forall (λ e : edge, 0 ≤ e.1 < n') (concat a) ∧ (if id =? 0 then concat a = [] else csr_at w id types (csr_of types a) ∧ group_good types a).

Lemma built_le w w' new_ids As : store_le w w' → built w new_ids As → built w' new_ids As.
Proof.
  intros [Hle _] [Hlen Hall]. split; [done|]. intros i id a Hid Ha. destruct (Hall i id a Hid Ha) as (rows & H1 & H2 & H3 & H4). exists rows. split_and!; try done.
  destruct (id =? 0); [done|]. destruct H4. split; [by apply Hle|done].
Qed.

Lemma built_snoc w new_ids As id a rows : built w new_ids As → new_counts !! length new_ids = Some rows →
  Forall2 (Forall2 edge_same) a (rebuilt (rows_of (take (length new_ids) new_counts)) rows) → Forall (λ e : edge, 0 ≤ e.1 < n') (concat a) →
  (if id =? 0 then concat a = [] else csr_at w id types (csr_of types a) ∧ group_good types a) → built w (new_ids ++ [id]) (As ++ [a]).
Proof.
  intros [Hlen Hall] Hr Hs Hb Ha. split; [by rewrite !length_app, Hlen|]. intros i id' a' Hi Ha'.
  apply lookup_snoc_Some in Hi as [[Hlt Hi]|[-> <-]].
  - rewrite lookup_app_l in Ha' by lia. by eapply Hall.
  - rewrite <- Hlen, lookup_app_r, Nat.sub_diag in Ha' by lia. injection Ha' as <-. eauto.
Qed.

Lemma direction_loop name sch room : ∀ m k w c s new_ids As,
  (k + m = length new_counts)%nat → length new_ids = k → built w new_ids As → dir_stored w types counts n ids A → rebuild_ready w → roomy types cap (m + room) w →
  catalog_ok c → rel_table c name = Some sch →
  ∃ s' new_ids' As' w' c',
    sfor (seq k m) (s, new_ids) (λ '(s, new_ids) group_index,
      let+ page_id := in_store (remapped_group self ids (layout_of counts) (layout_of new_counts) n gr nr types direction group_index) in
      let new_ids := new_ids ++ [page_id] in
      let+ s := put_direction name s direction new_ids in
      sret (s, new_ids)) (w, c) = (Ok (s', new_ids'), (w', c')) ∧
    store_le w w' ∧ roomy types cap room w' ∧ built w' new_ids' As' ∧ length new_ids' = length new_counts ∧ cat_but name c c' ∧
    dir_ids (flip direction) s' = dir_ids (flip direction) s.
Proof.
  induction m as [|m IH]; intros k w c s new_ids As Hk Hlen Hb Hst Hready Hroomy Hok Hsch.
  { exists s, new_ids, As, w, c. cbn [seq sfor]. split; [done|]. split; [done|]. split; [done|]. split; [done|]. split; [lia|]. split; [by apply cat_but_refl|done]. }
  cbn [seq sfor]. destruct (lookup_lt_is_Some_2 new_counts k) as [rows Hrows]; [lia|].
  destruct (Hready k rows Hrows) as (R1 & R2 & R3 & R6 & req & R4 & R5). pose proof (domain_u64 gr Hgr) as [_ Hu64]. pose proof (zlen_nonneg (deleted gr)).
  destruct (remapped_group_ok w cap (m + room) new_counts n' k rows req) as (id & w1 & a & Hrun & Hle & Hr1 & Hsame & Hbd & Hat); try done; try lia.
  destruct (set_direction_ok direction s (new_ids ++ [id]) Hd) as (s1 & Hs1 & _ & Hflip).
  destruct (set_rel_ok c name sch s1 Hok Hsch) as (c1 & Hc1 & Hbut & _).
  unfold sbind at 1. unfold sbind at 1, in_store. cbn [fst snd]. rewrite Hrun. unfold sbind at 1, put_direction, sbind at 1, slift. rewrite Hs1. cbn [fst snd]. rewrite Hc1.
  cbn [sret]. subst k.
  destruct (IH (S (length new_ids)) w1 c1 s1 (new_ids ++ [id]) (As ++ [a])) as (s' & ids' & As' & w' & c' & Hloop & Hle' & Hr' & Hb' & Hl' & Hc' & Hf').
  - lia.
  - rewrite length_app. simpl. lia.
  - eapply built_snoc; [by eapply built_le|done..].
  - by eapply dir_stored_le.
  - by eapply rebuild_ready_le.
  - done.
  - apply Hbut.
  - by rewrite (proj1 (cat_but_table _ _ _ _ Hbut)).
  - exists s', ids', As', w', c'. split; [exact Hloop|]. split; [by etrans|]. split; [done|]. split; [done|]. split; [done|]. split; [by eapply cat_but_trans|congruence].
Qed.

Lemma built_stored w new_ids As : built w new_ids As → length new_ids = length new_counts → dir_stored w types new_counts n' (trim_zeros new_ids) As.
Proof.
  intros [Hlen Hall] Hl. split; [lia|]. split; [pose proof (trim_length new_ids); lia|]. intros i c a Hc Ha.
  destruct (lookup_lt_is_Some_2 new_ids i) as [id Hid]; [apply lookup_lt_Some in Ha; lia|].
  destruct (Hall i id a Hid Ha) as (rows & Hrows & Hsame & Hb & Hst). rewrite Hc in Hrows. injection Hrows as <-.
  apply Forall2_length in Hsame as Hla. rewrite length_add_edges, length_replicate in Hla. split; [lia|]. split; [done|].
  rewrite trim_stored. unfold stored_group_id. rewrite Hid. simpl. by destruct (id =? 0).
Qed.

Lemma built_edges w0 w new_ids As x x' : built w new_ids As → length new_ids = length new_counts → dir_stored w0 types counts n ids A →
  0 ≤ x < old_domain gr → renumber gr x = Some x' →
  Forall2 edge_same (edges_at new_counts As x') (omap (kept self direction nr x) (edges_at counts A x ++ buffered_at self direction x)).
Proof.
  intros [Hlen Hall] Hl Hst Hx Hx'. pose proof (renumber_range gr x x' Hgr Hx Hx') as Hr. rewrite <- Hnew in Hr.
  destruct (locate_inside new_counts x' ltac:(lia)) as (g & slot & _ & Hlies). rewrite (edges_at_lies _ _ _ _ _ Hlies). destruct Hlies as (rows & Hrows & Hslot & Hxe).
  pose proof (lookup_lt_Some _ _ _ Hrows) as Hlt. destruct (lookup_lt_is_Some_2 As g) as [a Ha]; [lia|]. destruct (lookup_lt_is_Some_2 new_ids g) as [id Hid]; [lia|].
  destruct (Hall g id a Hid Ha) as (rows' & Hrows' & Hsame & _). rewrite Hrows in Hrows'. injection Hrows' as <-. rewrite Ha. simpl. subst x'.
  pose proof (moved_all_at self direction gr nr Hgr w0 ids counts n A (rows_of (take g new_counts)) rows x slot Hst Hdom ltac:(lia) Hx' Hslot) as Hat.
  destruct (Forall2_lookup_r _ _ _ slot _ Hsame Hat) as (l & Hl' & HR). rewrite Hl'. exact HR.
Qed.

Lemma rewrite_direction_ok room w c s sch (name := rel_name (rt_schema self)) :
  dir_ids direction s = ids → dir_stored w types counts n ids A → rebuild_ready w → roomy types cap (length new_counts + room) w → catalog_ok c → rel_table c name = Some sch →
  ∃ s' As w' c',
    rewrite_remapped_direction self s (layout_of counts) (layout_of new_counts) n gr nr types direction (w, c) = (Ok s', (w', c')) ∧
    store_le w w' ∧ roomy types cap room w' ∧ dir_stored w' types new_counts n' (dir_ids direction s') As ∧
    dir_ids (flip direction) s' = dir_ids (flip direction) s ∧ cat_but name c c' ∧
    ∀ x x', 0 ≤ x < old_domain gr → renumber gr x = Some x' →
      Forall2 edge_same (edges_at new_counts As x') (omap (kept self direction nr x) (edges_at counts A x ++ buffered_at self direction x)).
Proof.
  intros Hids Hst Hready Hroomy Hok Hsch. unfold rewrite_remapped_direction. unfold sbind at 1, slift at 1.
  assert (match direction with Out => Ok (fwd s) | In => Ok (bwd s) | Both => Err no_both end = Ok ids) as ->.
  { clear -Hids Hd. destruct direction; [by rewrite <- Hids|by rewrite <- Hids|done]. }
  destruct (direction_loop name sch room (length new_counts) 0 w c s [] []) as (s1 & ids1 & As & w1 & c1 & Hloop & Hle & Hr & Hb & Hl & Hbut & Hflip); try done.
  unfold sbind at 1. change (row_counts (layout_of new_counts)) with new_counts. fold name. cbv zeta in Hloop. rewrite Hloop.
  destruct (set_direction_ok direction s1 (trim_zeros ids1) Hd) as (s2 & Hs2 & Hids2 & Hflip2).
  destruct (set_rel_ok c1 name sch s2) as (c2 & Hc2 & Hbut2 & _); [apply Hbut|by rewrite (proj1 (cat_but_table _ _ _ _ Hbut))|].
  unfold put_direction, sbind, slift. rewrite Hs2. cbn [fst snd]. rewrite Hc2. exists s2, As, w1, c2. split; [done|]. split; [done|]. split; [done|].
  rewrite Hids2. split; [by apply built_stored|]. split; [congruence|]. split; [by eapply cat_but_trans|]. intros x x' Hx Hx'. by eapply built_edges.
Qed.

End Direction.

(** *** Neighbors through the renumbering *)

Lemma buffered_at_fst self direction x : direction ≠ Both → (buffered_at self direction x).*1 = omap (buffered_neighbor direction x) (buffered_edges self).
Proof.
  intros Hd. unfold buffered_at, buffered_neighbor, grouped_of, neighbor_of. induction (buffered_edges self) as [|e l IH]; [done|]. cbn [omap list_omap].
  destruct direction; [| |done]; [destruct (e_from e =? x)|destruct (e_to e =? x)]; rewrite ?fmap_cons, IH; done.
Qed.

Lemma kept_fst self direction nr x l : (omap (kept self direction nr x) l).*1 = omap (renumber nr) (seen self direction x l.*1).
Proof.
  assert (∀ y, remapped_edge_is_tombstoned self direction x y = grouped_endpoint_is_tombstoned self direction x || neighbor_is_tombstoned self direction y) as Ht.
  { intros y. unfold remapped_edge_is_tombstoned, edge_is_tombstoned, grouped_endpoint_is_tombstoned, neighbor_is_tombstoned. destruct direction; [done|apply orb_comm|done]. }
  unfold seen, kept. destruct (grouped_endpoint_is_tombstoned self direction x) eqn:Hg.
  - induction l as [|e l IH]; [done|]. cbn [omap list_omap]. rewrite Ht. cbn [orb]. exact IH.
  - induction l as [|e l IH]; [done|]. rewrite fmap_cons. cbn [omap list_omap]. rewrite Ht. cbn [orb]. rewrite filter_cons.
    destruct (neighbor_is_tombstoned self direction e.1); [exact IH|]. rewrite decide_True by done. cbn [omap list_omap].
    destruct (renumber nr e.1) as [y|]; [|exact IH]. cbn [fmap option_fmap option_map]. rewrite fmap_cons. f_equal. exact IH.
Qed.

Lemma same_fst l k : Forall2 edge_same l k → l.*1 = k.*1.
Proof. induction 1 as [|e e' l k [He _] _ IH]; [done|]. rewrite !fmap_cons. by rewrite He, IH. Qed.

(** ** Endpoints *)

(** The node groups of an endpoint table and their row counts. *)
Definition endpoint_counts (w : W) (c : Catalog) (name : cat_name) (counts : list nat) : Prop :=
  ∃ sch, node_table c name = Some sch ∧
    Forall2 (λ id k, endpoint_at w id (length (node_columns sch)) k) (default [] (groups <$> table_storage c name)) counts ∧ rows_of counts < 2 ^ 64.

Lemma layout_loop w cols gs counts : Forall2 (λ id k, endpoint_at w id cols k) gs counts → ∀ rc st total, 0 ≤ total → total + rows_of counts < 2 ^ 64 →
  for_each gs (rc, st, total) (layout_step w cols) = Ok (rc ++ counts, st ++ start_list total counts, total + rows_of counts).
Proof.
  induction 1 as [|id k gs counts Hid _ IH]; intros rc st total Hpos Hmax.
  - cbn [for_each start_list]. rewrite !app_nil_r. do 2 f_equal. unfold rows_of. simpl. lia.
  - cbn [for_each layout_step]. unfold read_node_group_row_count. rewrite (endpoint_at_reads _ _ _ _ Hid). cbn [map_err bind]. rewrite rows_of_cons in *.
    pose proof (rows_of_nonneg counts). unfold checked_usize. rewrite try_u_in by (unfold in_u; lia). cbn [ok_or bind].
    rewrite IH by lia. rewrite <- !app_assoc. cbn [app start_list]. by rewrite Z.add_assoc.
Qed.

Lemma endpoint_layout_ok w c name counts : endpoint_counts w c name counts → endpoint_layout w c name = Ok (layout_of counts).
Proof.
  intros (sch & Hsch & Hg & Hmax). unfold endpoint_layout. rewrite Hsch. cbn [ok_or bind]. rewrite (layout_loop w _ _ _ Hg) by lia. done.
Qed.

Lemma node_rel_names c m t name r : catalog_ok c → node_table c m = Some t → rel_table c name = Some r → fold m ≠ fold name.
Proof.
  intros ((Hnd & _) & _) [Ht Em]%find_folded_Some [Hr En]%find_folded_Some E. unfold table_names in Hnd. rewrite fmap_app in Hnd.
  apply NoDup_app in Hnd as (_ & Hdis & _). apply (Hdis (fold m)).
  - rewrite <- Em. apply list_elem_of_fmap. exists (node_name t). split; [done|]. apply list_elem_of_fmap. eauto.
  - rewrite E, <- En. apply list_elem_of_fmap. exists (rel_name r). split; [done|]. apply list_elem_of_fmap. eauto.
Qed.

Lemma endpoint_counts_le w w' c c' name rel r counts : store_le w w' → cat_but rel c c' → rel_table c rel = Some r →
  endpoint_counts w c name counts → endpoint_counts w' c' name counts.
Proof.
  intros [_ Hle] Hbut Hr (sch & Hsch & Hg & Hmax). exists sch. destruct (cat_but_table _ _ _ name Hbut) as [_ HN]. destruct (cat_but_table _ _ _ rel Hbut) as [HR _].
  split; [by rewrite HN|]. split; [|done].
  assert (table_storage c' name = table_storage c name) as ->.
  { unfold table_storage. destruct Hbut as (Hok & _ & _ & Hs). rewrite Hs; [done|]. eapply (node_rel_names c'); [done|by rewrite HN|by rewrite HR]. }
  eapply Forall2_impl; [exact Hg|]. intros id k. apply Hle.
Qed.

(** ** What a table holds and what it answers *)

(** The relationship's groups in the store, through the catalog. *)
Record rel_stored (w : W) (c : Catalog) (schema : RelTableSchema) (fc tc : list nat) (Ao Ai : list adjacency) : Prop := {
  rs_schema : rel_table c (rel_name schema) = Some schema;
  rs_from : endpoint_counts w c (rel_from schema) fc;
  rs_to : endpoint_counts w c (rel_to schema) tc;
  rs_out : dir_stored w (schema_types schema) fc (rows_of tc) (fwd_ids (rel_storage c (rel_name schema))) Ao;
  rs_in : dir_stored w (schema_types schema) tc (rows_of fc) (bwd_ids (rel_storage c (rel_name schema))) Ai;
}.

(** The neighbors of [x]: the stored ones, then the buffered ones, without the
    tombstoned; a self loop is not counted twice. *)
Definition answer (self : RelTable) (fc tc : list nat) (Ao Ai : list adjacency) (direction : Direction) (x : Z) : list Z :=
  let outgoing := seen self Out x ((edges_at fc Ao x).*1 ++ omap (buffered_neighbor Out x) (buffered_edges self)) in
  let incoming := seen self In x ((edges_at tc Ai x).*1 ++ omap (buffered_neighbor In x) (buffered_edges self)) in
  match direction with
  | Out => outgoing
  | In => incoming
  | Both => outgoing ++ filter (λ y, y ≠ x) incoming
  end.

Lemma read_layouts_ok self w c fc tc Ao Ai direction : rel_stored w c (rt_schema self) fc tc Ao Ai →
  validate_direction (rt_schema self) direction = Ok tt →
  read_layouts self w c direction = Ok (layout_of fc, layout_of tc, rel_storage c (rel_name (rt_schema self))).
Proof.
  intros [Hs Hf Ht Ho Hi] Hv. unfold read_layouts, ensure_rel_schema. rewrite Hs. cbn [ok_or bind]. rewrite bool_decide_eq_true_2 by done.
  cbn [bind]. rewrite Hv. cbn [bind]. rewrite (endpoint_layout_ok _ _ _ _ Hf). cbn [bind]. rewrite (endpoint_layout_ok _ _ _ _ Ht). cbn [bind].
  destruct (rel_storage c (rel_name (rt_schema self))) as [s|]; [|done]. destruct Ho as (_ & Hlo & _), Hi as (_ & Hli & _). unfold fwd_ids, bwd_ids in *. simpl in Hlo, Hli.
  unfold validate_storage_lengths. cbn [layout_of row_counts]. by rewrite !(proj2 (Nat.ltb_ge _ _)) by done.
Qed.

Lemma neighbors_read self w c fc tc Ao Ai direction x : rel_stored w c (rt_schema self) fc tc Ao Ai →
  validate_direction (rt_schema self) direction = Ok tt → 0 ≤ x →
  rel_neighbors self w c direction x = Ok (answer self fc tc Ao Ai direction x).
Proof.
  intros Hrs Hv Hx. unfold rel_neighbors. rewrite (read_layouts_ok self w c fc tc Ao Ai) by done. cbn [bind]. destruct Hrs as [_ _ _ Ho Hi].
  change (total_rows (layout_of tc)) with (rows_of tc). change (total_rows (layout_of fc)) with (rows_of fc).
  rewrite (neighbors_one_reads self w fc _ _ Ao) by done. rewrite (neighbors_one_reads self w tc _ _ Ai) by done. unfold answer. destruct direction; [done|done|].
  cbn [bind]. unfold validate_direction in Hv. rewrite bool_decide_eq_true_2 in Hv by done.
  by destruct (bool_decide (fold (rel_from (rt_schema self)) = fold (rel_to (rt_schema self)))).
Qed.

(** ** The checkpoint *)

Definition affected (self : RelTable) (from_remap to_remap : OffsetRemap) : bool :=
  negb (bool_decide (buffered_edges self = []) && tombstones_is_empty (endpoint_tombstones self) && is_identity from_remap && is_identity to_remap).

(** A checkpoint for these remaps can be run: the new catalog has the same
    relationship and endpoint tables with the rows the remaps leave, and each
    direction can be rebuilt within the budget. *)
Record checkpoint_ready (self : RelTable) (w : W) (old new : Catalog) (from_remap to_remap : OffsetRemap) (cap : Z)
    (fc tc nfc ntc : list nat) (Ao Ai : list adjacency) : Prop := {
  cr_old : rel_stored w old (rt_schema self) fc tc Ao Ai;
  cr_new : catalog_ok new;
  cr_schema : rel_table new (rel_name (rt_schema self)) = Some (rt_schema self);
  cr_from : endpoint_counts w new (rel_from (rt_schema self)) nfc;
  cr_to : endpoint_counts w new (rel_to (rt_schema self)) ntc;
  cr_from_wf : remap_wf from_remap;
  cr_to_wf : remap_wf to_remap;
  cr_from_dom : rows_of fc ≤ old_domain from_remap;
  cr_to_dom : rows_of tc ≤ old_domain to_remap;
  cr_from_rows : rows_of nfc = old_domain from_remap - zlen (deleted from_remap);
  cr_to_rows : rows_of ntc = old_domain to_remap - zlen (deleted to_remap);
  cr_edges : edges_fit self Out from_remap to_remap;
  cr_out : rebuild_ready self Out from_remap to_remap fc (fwd_ids (rel_storage old (rel_name (rt_schema self)))) Ao nfc cap w;
  cr_in : rebuild_ready self In to_remap from_remap tc (bwd_ids (rel_storage old (rel_name (rt_schema self)))) Ai ntc cap w;
  cr_roomy : roomy (schema_types (rt_schema self)) cap (length nfc + length ntc) w;
}.

Lemma edges_fit_flip self fr tr : edges_fit self Out fr tr → edges_fit self In tr fr.
Proof. unfold edges_fit. intros He. eapply Forall_impl; [exact He|]. intros e (H1 & H2 & H3). split; [exact H2|]. split; [exact H1|exact H3]. Qed.

Lemma validate_remap_ok r counts new_counts : remap_wf r → rows_of counts ≤ old_domain r → rows_of new_counts = old_domain r - zlen (deleted r) →
  validate_remap_layout r (layout_of counts) (layout_of new_counts) = Ok tt.
Proof.
  intros Hr Hd Hn. unfold validate_remap_layout. cbn [layout_of total_rows]. rewrite (proj2 (Z.ltb_ge _ _)) by done. rewrite new_domain_ok by done.
  cbn [bind]. by rewrite Hn, Z.eqb_refl.
Qed.

Lemma validate_buffered_ok self fr tr : edges_fit self Out fr tr → validate_buffered_remap_offsets (buffered_edges self) fr tr = Ok tt.
Proof.
  unfold edges_fit, validate_buffered_remap_offsets. induction 1 as [|e l (H1 & H2 & _) _ IH]; [done|]. cbn [for_each]. simpl in H1, H2.
  rewrite !remap_map_ok by lia. exact IH.
Qed.

Lemma storage_default (o : option RelStorage) : fwd (default (mkRelStorage [] []) o) = fwd_ids o ∧ bwd (default (mkRelStorage [] []) o) = bwd_ids o.
Proof. by destruct o. Qed.

(** Running the checkpoint. *)
Lemma checkpoint_runs self w old new fr tr cap fc tc nfc ntc Ao Ai :
  checkpoint_ready self w old new fr tr cap fc tc nfc ntc Ao Ai → affected self fr tr = true →
  ∃ w' c' Ao' Ai', checkpoint_with_remap self old fr tr (w, new) = (Ok (mkRelTable (rt_schema self) [] no_tombstones), (w', c')) ∧
    store_le w w' ∧ rel_stored w' c' (rt_schema self) nfc ntc Ao' Ai' ∧
    (∀ x x', 0 ≤ x < old_domain fr → renumber fr x = Some x' →
       Forall2 edge_same (edges_at nfc Ao' x') (omap (kept self Out tr x) (edges_at fc Ao x ++ buffered_at self Out x))) ∧
    (∀ x x', 0 ≤ x < old_domain tr → renumber tr x = Some x' →
       Forall2 edge_same (edges_at ntc Ai' x') (omap (kept self In fr x) (edges_at tc Ai x ++ buffered_at self In x))).
Proof.
  intros [[Hs Hf Ht Ho Hi] Hok Hsn Hnf Hnt Wf Wt Df Dt Rf Rt He Qo Qi Hr] Haff. unfold affected in Haff. apply negb_true_iff in Haff.
  unfold checkpoint_with_remap. rewrite Haff. unfold sbind at 1. unfold sbind at 1, slift at 1, ensure_rel_schema at 1. rewrite Hs. cbn [ok_or bind].
  rewrite bool_decide_eq_true_2 by done. unfold sbind at 1, slift at 1, ensure_rel_schema at 1. rewrite Hsn. cbn [ok_or bind]. rewrite bool_decide_eq_true_2 by done.
  unfold sbind at 1, slift at 1. rewrite (endpoint_layout_ok _ _ _ _ Hf). unfold sbind at 1, slift at 1. rewrite (endpoint_layout_ok _ _ _ _ Ht).
  unfold sbind at 1, slift at 1. rewrite (endpoint_layout_ok _ _ _ _ Hnf). unfold sbind at 1, slift at 1. rewrite (endpoint_layout_ok _ _ _ _ Hnt).
  unfold sbind at 1, slift at 1. rewrite (validate_remap_ok fr fc nfc) by done. unfold sbind at 1, slift at 1. rewrite (validate_remap_ok tr tc ntc) by done.
  unfold sbind at 1, slift at 1. rewrite (validate_buffered_ok self fr tr He). unfold sbind at 1, slift at 1.
  set (o := rel_storage old (rel_name (rt_schema self))) in *. destruct (storage_default o) as [Hfwd Hbwd]. set (s := default _ o) in *.
  assert (validate_storage_lengths s (layout_of fc) (layout_of tc) = Ok tt) as ->.
  { unfold validate_storage_lengths. cbn [layout_of row_counts]. rewrite Hfwd, Hbwd. destruct Ho as (_ & Ho & _), Hi as (_ & Hi & _). by rewrite !(proj2 (Nat.ltb_ge _ _)) by done. }
  change (total_rows (layout_of tc)) with (rows_of tc). change (total_rows (layout_of fc)) with (rows_of fc).
  destruct (rewrite_direction_ok self Out fr tr ltac:(done) Wf Wt fc (rows_of tc) (fwd_ids o) Ao Df Dt He nfc (rows_of ntc) cap Rf Rt (length ntc) w new s (rt_schema self))
    as (s1 & Ao' & w1 & c1 & E1 & L1 & R1 & O1 & F1 & B1 & X1); try done.
  unfold sbind at 1. rewrite E1. pose proof (dir_stored_le _ _ _ _ _ _ _ L1 Hi) as Hi1.
  destruct (rewrite_direction_ok self In tr fr ltac:(done) Wt Wf tc (rows_of fc) (bwd_ids o) Ai Dt Df (edges_fit_flip _ _ _ He) ntc (rows_of nfc) cap Rt Rf 0 w1 c1 s1 (rt_schema self))
    as (s2 & Ai' & w2 & c2 & E2 & L2 & R2 & O2 & F2 & B2 & X2); try done.
  { rewrite <- Hbwd. exact F1. }
  { by eapply rebuild_ready_le. }
  { by rewrite Nat.add_0_r. }
  { apply B1. }
  { by rewrite (proj1 (cat_but_table _ _ _ _ B1)). }
  unfold sbind at 1. rewrite E2. cbn [fst snd].
  destruct (set_rel_ok c2 (rel_name (rt_schema self)) (rt_schema self) s2) as (c3 & E3 & B3 & S3); [apply B2| |].
  { by rewrite (proj1 (cat_but_table _ _ _ _ B2)), (proj1 (cat_but_table _ _ _ _ B1)). }
  rewrite E3. exists w2, c3, Ao', Ai'. pose proof (cat_but_trans _ _ _ _ (cat_but_trans _ _ _ _ B1 B2) B3) as B. assert (store_le w w2) as L by (by etrans).
  split; [done|]. split; [done|]. split; [|done]. split.
  - by rewrite (proj1 (cat_but_table _ _ _ _ B)).
  - by eapply endpoint_counts_le.
  - by eapply endpoint_counts_le.
  - rewrite S3. change (fwd_ids (Some s2)) with (dir_ids (flip In) s2). rewrite F2. eapply dir_stored_le; [exact L2|exact O1].
  - rewrite S3. exact O2.
Qed.

(** ** Edges with their properties *)

Definition orient (direction : Direction) (x : Z) (e : edge) : Edge :=
  if bool_decide (direction = Out) then mkRelEdge x e.1 e.2 else mkRelEdge e.1 x e.2.

Definition seen_edges (self : RelTable) (direction : Direction) (x : Z) (l : list edge) : list edge :=
  if grouped_endpoint_is_tombstoned self direction x then [] else filter (λ e, neighbor_is_tombstoned self direction e.1 = false) l.

Lemma csr_values_read g i vs e : csr_values g i = Ok vs → collect (λ column, ok_or (csr_value g i column) e) (seq 0 (csr_column_count g)) = Ok vs.
Proof.
  unfold csr_values. rewrite !collect_Ok. intros Hv. eapply Forall2_impl; [exact Hv|]. intros c v H. simpl in *. apply ok_or_Ok in H. by rewrite H.
Qed.

Lemma property_loop self direction x types a l : Forall (edge_ok types) (concat a) → ∀ slot acc, a !! slot = Some l →
  for_each (seq (sum_list (take slot (length <$> a))) (edges_through slot a - sum_list (take slot (length <$> a)))) acc
    (property_edge self direction x (csr_of types a)) =
  Ok (acc ++ (orient direction x <$> filter (λ e, neighbor_is_tombstoned self direction e.1 = false) l)).
Proof.
  intros Hok slot acc Hl. rewrite (for_slot_indices a slot l acc _ (λ acc e, Ok (acc ++ (orient direction x <$> filter (λ e, neighbor_is_tombstoned self direction e.1 = false) [e]))) Hl).
  - clear Hl. revert acc. induction l as [|e l IH]; intros acc; [by rewrite app_nil_r|]. cbn [for_each bind]. rewrite IH, <- app_assoc. do 2 f_equal.
    rewrite <- fmap_app. f_equal. by rewrite <- filter_app.
  - intros acc' i e Hi. destruct (csr_edge_spec types a i e Hok Hi) as [Hn Hv]. unfold property_edge. rewrite Hn. cbn [bind]. rewrite filter_cons, filter_nil.
    destruct (neighbor_is_tombstoned self direction e.1) eqn:Ht; [by rewrite decide_False, app_nil_r|]. rewrite decide_True by done.
    pose proof (csr_values_read (csr_of types a) i e.2 (Corrupt "CSR edge property is missing") Hv) as Hv'. unfold orient. case_bool_decide; cbv zeta beta iota; by rewrite Hv'.
Qed.

Lemma property_one_reads self w counts n ids A direction x :
  dir_stored w (schema_types (rt_schema self)) counts n ids A → 0 ≤ x → direction ≠ Both →
  property_neighbors_one self w ids (layout_of counts) n direction x =
    Ok (orient direction x <$> seen_edges self direction x (edges_at counts A x ++ buffered_at self direction x)).
Proof.
  intros Hst Hx Hd. unfold property_neighbors_one, seen_edges. destruct (grouped_endpoint_is_tombstoned self direction x) eqn:Hg; [done|].
  assert (filter (λ edge, buffered_incident self direction x edge = true) (buffered_edges self) =
    orient direction x <$> filter (λ e, neighbor_is_tombstoned self direction e.1 = false) (buffered_at self direction x)) as Hbuf.
  { unfold buffered_at, buffered_incident, orient, grouped_of, neighbor_of. induction (buffered_edges self) as [|e l IH]; [done|]. rewrite filter_cons, IH. cbn [omap list_omap].
    unfold edge_is_tombstoned, neighbor_is_tombstoned, grouped_endpoint_is_tombstoned in *. destruct direction; [| |done].
    - rewrite bool_decide_eq_true_2 by done. destruct (Z.eqb_spec (e_from e) x) as [<-|]; [|done]. rewrite Hg. cbn [orb andb]. rewrite filter_cons. cbn [fst].
      destruct (bool_decide (e_to e ∈ _)); [done|]. cbn [negb]. rewrite !decide_True by done. rewrite fmap_cons. by destruct e.
    - rewrite bool_decide_eq_false_2 by done. destruct (Z.eqb_spec (e_to e) x) as [<-|]; [|done]. rewrite Hg, orb_false_r. cbn [andb]. rewrite filter_cons. cbn [fst].
      destruct (bool_decide (e_from e ∈ _)); [done|]. cbn [negb]. rewrite !decide_True by done. rewrite fmap_cons. by destruct e. }
  rewrite Hbuf, filter_app, fmap_app. destruct (decide (x < rows_of counts)) as [Hlt|Hge].
  2:{ rewrite locate_outside, edges_at_outside by lia. done. }
  destruct (locate_inside counts x ltac:(lia)) as (g & slot & -> & Hl). cbn [bind].
  destruct (stored_group_id ids g) as [id|] eqn:Hid; [|by rewrite (unstored_edges w _ counts n ids A g slot x Hst Hl Hid)].
  destruct (read_group_ok w _ counts n ids A g slot x id Hst Hl Hid) as (a & c & _ & Hc & -> & Hv & Hok & ->).
  unfold index. cbn [layout_of row_counts bind]. rewrite Hc. cbn [expect bind]. rewrite Hv. cbn [bind]. destruct (a !! slot) as [l|] eqn:Ha.
  - rewrite (edge_range_spec _ _ _ _ Ha), (property_loop self direction x _ a l Hok slot [] Ha). done.
  - rewrite edge_range_none by (by apply lookup_ge_None). done.
Qed.

(** The incident edges of [x] with their properties. *)
Definition edge_answer (self : RelTable) (fc tc : list nat) (Ao Ai : list adjacency) (direction : Direction) (x : Z) : list Edge :=
  let outgoing := orient Out x <$> seen_edges self Out x (edges_at fc Ao x ++ buffered_at self Out x) in
  let incoming := orient In x <$> seen_edges self In x (edges_at tc Ai x ++ buffered_at self In x) in
  match direction with
  | Out => outgoing
  | In => incoming
  | Both => outgoing ++ filter (λ e, e_from e ≠ e_to e) incoming
  end.

Lemma properties_read self w c fc tc Ao Ai direction x : rel_stored w c (rt_schema self) fc tc Ao Ai →
  validate_direction (rt_schema self) direction = Ok tt → 0 ≤ x →
  neighbors_with_properties self w c direction x = Ok (edge_answer self fc tc Ao Ai direction x).
Proof.
  intros Hrs Hv Hx. unfold neighbors_with_properties. rewrite (read_layouts_ok self w c fc tc Ao Ai) by done. cbn [bind]. destruct Hrs as [_ _ _ Ho Hi].
  change (total_rows (layout_of tc)) with (rows_of tc). change (total_rows (layout_of fc)) with (rows_of fc).
  rewrite (property_one_reads self w fc _ _ Ao) by done. rewrite (property_one_reads self w tc _ _ Ai) by done. unfold edge_answer.
  destruct direction; cbn [bind]; repeat ((rewrite bool_decide_eq_true_2 by done) || (rewrite bool_decide_eq_false_2 by done)); cbn [bind]; [done| |].
  - rewrite filter_keeps_all; [done|]. apply Forall_forall. by left.
  - do 2 f_equal. apply list_filter_iff. naive_solver.
Qed.

(** *** Renumbering answers *)

Definition renumber_edge (fr tr : OffsetRemap) (e : Edge) : option Edge :=
  f ← renumber fr (e_from e); t ← renumber tr (e_to e); Some (mkRelEdge f t (e_values e)).

Definition rel_same (a b : Edge) : Prop := e_from a = e_from b ∧ e_to a = e_to b ∧ Forall2 value_same (e_values a) (e_values b).

Definition grouped_remap (direction : Direction) (fr tr : OffsetRemap) : OffsetRemap := match direction with In => tr | _ => fr end.
Definition neighbor_remap (direction : Direction) (fr tr : OffsetRemap) : OffsetRemap := match direction with In => fr | _ => tr end.

Lemma kept_edges self direction fr tr x x' l : direction ≠ Both → renumber (grouped_remap direction fr tr) x = Some x' →
  orient direction x' <$> omap (kept self direction (neighbor_remap direction fr tr) x) l =
  omap (renumber_edge fr tr) (orient direction x <$> seen_edges self direction x l).
Proof.
  intros Hd Hx. assert (∀ y, remapped_edge_is_tombstoned self direction x y = grouped_endpoint_is_tombstoned self direction x || neighbor_is_tombstoned self direction y) as Ht.
  { intros y. unfold remapped_edge_is_tombstoned, edge_is_tombstoned, grouped_endpoint_is_tombstoned, neighbor_is_tombstoned. destruct direction; [done|apply orb_comm|done]. }
  assert (∀ e, renumber_edge fr tr (orient direction x e) = (λ n, orient direction x' (n, e.2)) <$> renumber (neighbor_remap direction fr tr) e.1) as Hr.
  { intros e. unfold renumber_edge, orient. destruct direction; [| |done]; simpl in *; rewrite Hx; simpl; by destruct (renumber _ e.1). }
  unfold seen_edges, kept. destruct (grouped_endpoint_is_tombstoned self direction x) eqn:Hg.
  - induction l as [|e l IH]; [done|]. cbn [omap list_omap]. rewrite Ht. exact IH.
  - induction l as [|e l IH]; [done|]. cbn [omap list_omap]. rewrite Ht, filter_cons. cbn [orb]. destruct (neighbor_is_tombstoned self direction e.1); [exact IH|].
    rewrite decide_True by done. rewrite fmap_cons. cbn [omap list_omap]. rewrite Hr. destruct (renumber (neighbor_remap direction fr tr) e.1) as [y|]; [|exact IH].
    cbn [fmap option_fmap option_map]. rewrite fmap_cons. f_equal. exact IH.
Qed.

Lemma orient_same direction x l k : Forall2 edge_same l k → Forall2 rel_same (orient direction x <$> l) (orient direction x <$> k).
Proof.
  intros H. apply Forall2_fmap. eapply Forall2_impl; [exact H|]. intros e e' [H1 H2]. unfold orient, rel_same. by case_bool_decide.
Qed.

Lemma filter_same l k : Forall2 rel_same l k → Forall2 rel_same (filter (λ e, e_from e ≠ e_to e) l) (filter (λ e, e_from e ≠ e_to e) k).
Proof.
  induction 1 as [|e e' l k (H1 & H2 & H3) _ IH]; [done|]. rewrite !filter_cons, H1, H2. destruct (decide (e_from e' ≠ e_to e')); [constructor|]; done.
Qed.

(** A self loop stays one, and nothing else becomes one. *)
Lemma omap_filter_loops r (l : list Edge) : remap_wf r →
  filter (λ e, e_from e ≠ e_to e) (omap (renumber_edge r r) l) = omap (renumber_edge r r) (filter (λ e, e_from e ≠ e_to e) l).
Proof.
  intros Hr. induction l as [|e l IH]; [done|]. cbn [omap list_omap]. rewrite filter_cons. destruct (renumber_edge r r e) as [e'|] eqn:E.
  - rewrite filter_cons, IH. pose proof E as E0. unfold renumber_edge in E. destruct (renumber r (e_from e)) as [f|] eqn:Ef; [|done]. destruct (renumber r (e_to e)) as [t|] eqn:Et; [|done].
    simpl in E. injection E as <-. cbn [e_from e_to]. destruct (decide (e_from e ≠ e_to e)) as [Hne|Heq], (decide (f ≠ t)) as [Hft|Hft].
    + cbn [omap list_omap]. by rewrite E0.
    + exfalso. apply Hne. apply (renumber_inj r _ _ f Hr Ef). rewrite Et. f_equal. lia.
    + exfalso. apply Hft. assert (e_from e = e_to e) as E' by lia. rewrite E', Et in Ef. congruence.
    + done.
  - rewrite IH. destruct (decide (e_from e ≠ e_to e)); [|done]. cbn [omap list_omap]. by rewrite E.
Qed.

Lemma omap_filter_other r x x' (l : list Z) : remap_wf r → renumber r x = Some x' →
  filter (λ y, y ≠ x') (omap (renumber r) l) = omap (renumber r) (filter (λ y, y ≠ x) l).
Proof.
  intros Hr Hx. induction l as [|y l IH]; [done|]. cbn [omap list_omap]. rewrite filter_cons. destruct (renumber r y) as [y'|] eqn:E.
  - rewrite filter_cons, IH. destruct (decide (y ≠ x)) as [Hne|Heq], (decide (y' ≠ x')) as [Hn'|Hn'].
    + cbn [omap list_omap]. by rewrite E.
    + exfalso. apply Hne. apply (renumber_inj r _ _ y' Hr E). rewrite Hx. f_equal. lia.
    + exfalso. apply Hn'. assert (y = x) as -> by lia. congruence.
    + done.
  - rewrite IH. destruct (decide (y ≠ x)); [|done]. cbn [omap list_omap]. by rewrite E.
Qed.

Lemma rel_stored_le w w' c schema fc tc Ao Ai : store_le w w' → rel_stored w c schema fc tc Ao Ai → rel_stored w' c schema fc tc Ao Ai.
Proof.
  intros Hle [Hs Hf Ht Ho Hi]. assert (∀ name counts, endpoint_counts w c name counts → endpoint_counts w' c name counts) as He.
  { intros name counts (sch & H1 & H2 & H3). exists sch. split; [done|]. split; [|done]. eapply Forall2_impl; [exact H2|]. intros id k. apply Hle. }
  split; [done|by apply He|by apply He|by eapply dir_stored_le|by eapply dir_stored_le].
Qed.

Lemma seen_clean schema direction x l : seen (mkRelTable schema [] no_tombstones) direction x l = l.
Proof.
  unfold seen, grouped_endpoint_is_tombstoned, neighbor_is_tombstoned. cbn [endpoint_tombstones no_tombstones from_offsets to_offsets].
  destruct direction; rewrite ?bool_decide_eq_false_2 by set_solver; apply filter_keeps_all, Forall_forall; intros y _; rewrite ?bool_decide_eq_false_2 by set_solver; done.
Qed.

Lemma seen_edges_clean schema direction x l : seen_edges (mkRelTable schema [] no_tombstones) direction x l = l.
Proof.
  unfold seen_edges, grouped_endpoint_is_tombstoned, neighbor_is_tombstoned. cbn [endpoint_tombstones no_tombstones from_offsets to_offsets].
  destruct direction; rewrite ?bool_decide_eq_false_2 by set_solver; apply filter_keeps_all, Forall_forall; intros y _; rewrite ?bool_decide_eq_false_2 by set_solver; done.
Qed.

Lemma answer_clean schema fc tc Ao Ai direction x : answer (mkRelTable schema [] no_tombstones) fc tc Ao Ai direction x =
  match direction with
  | Out => (edges_at fc Ao x).*1
  | In => (edges_at tc Ai x).*1
  | Both => (edges_at fc Ao x).*1 ++ filter (λ y, y ≠ x) (edges_at tc Ai x).*1
  end.
Proof. unfold answer. cbv zeta. rewrite !seen_clean. cbn [buffered_edges omap list_omap]. by rewrite !app_nil_r. Qed.

Lemma edge_answer_clean schema fc tc Ao Ai direction x : edge_answer (mkRelTable schema [] no_tombstones) fc tc Ao Ai direction x =
  match direction with
  | Out => orient Out x <$> edges_at fc Ao x
  | In => orient In x <$> edges_at tc Ai x
  | Both => (orient Out x <$> edges_at fc Ao x) ++ filter (λ e, e_from e ≠ e_to e) (orient In x <$> edges_at tc Ai x)
  end.
Proof. unfold edge_answer, buffered_at. cbv zeta. rewrite !seen_edges_clean. cbn [buffered_edges omap list_omap]. by rewrite !app_nil_r. Qed.

(** One direction's answers before and after. *)
Lemma direction_answers self direction fr tr x x' l l' : direction ≠ Both → renumber (grouped_remap direction fr tr) x = Some x' →
  Forall2 edge_same l' (omap (kept self direction (neighbor_remap direction fr tr) x) (l ++ buffered_at self direction x)) →
  l'.*1 = omap (renumber (neighbor_remap direction fr tr)) (seen self direction x (l.*1 ++ omap (buffered_neighbor direction x) (buffered_edges self))) ∧
  Forall2 rel_same (orient direction x' <$> l') (omap (renumber_edge fr tr) (orient direction x <$> seen_edges self direction x (l ++ buffered_at self direction x))).
Proof.
  intros Hd Hx HF. split.
  - by rewrite (same_fst _ _ HF), kept_fst, fmap_app, buffered_at_fst.
  - rewrite <- (kept_edges self direction fr tr x x') by done. by apply orient_same.
Qed.

(** C6: A checkpoint that compacts deleted nodes is invisible to traversals.
    With room in the store and scratch memory for each group it succeeds, leaves
    no buffered edge and no tombstone, and every surviving node has under its new
    number exactly the edges it had, in the same order, with their properties
    and with its neighbors renumbered, outgoing, incoming and both ways; edges
    with a deleted or tombstoned endpoint are gone.  Readers that still hold the
    old catalog read what they read before.  Property values are the same up to
    the sign of a float zero ([rel_same]), because a page is kept when its group
    compares equal. *)
Theorem checkpoint_keeps_traversals self w old new fr tr cap fc tc nfc ntc Ao Ai :
  checkpoint_ready self w old new fr tr cap fc tc nfc ntc Ao Ai → affected self fr tr = true →
  (fold (rel_from (rt_schema self)) = fold (rel_to (rt_schema self)) → fr = tr) →
  ∃ w' c', checkpoint_with_remap self old fr tr (w, new) = (Ok (mkRelTable (rt_schema self) [] no_tombstones), (w', c')) ∧
    ∀ direction x x', validate_direction (rt_schema self) direction = Ok tt →
      0 ≤ x < old_domain (grouped_remap direction fr tr) → renumber (grouped_remap direction fr tr) x = Some x' →
      (∃ l l', neighbors_with_properties self w old direction x = Ok l ∧ neighbors_with_properties self w' old direction x = Ok l ∧
         neighbors_with_properties (mkRelTable (rt_schema self) [] no_tombstones) w' c' direction x' = Ok l' ∧
         Forall2 rel_same l' (omap (renumber_edge fr tr) l)) ∧
      (∃ l, rel_neighbors self w old direction x = Ok l ∧
         rel_neighbors (mkRelTable (rt_schema self) [] no_tombstones) w' c' direction x' = Ok (omap (renumber (neighbor_remap direction fr tr)) l)).
Proof.
  intros Hready Haff Hboth. destruct (checkpoint_runs self w old new fr tr cap fc tc nfc ntc Ao Ai Hready Haff) as (w' & c' & Ao' & Ai' & Hrun & Hle & Hrs' & Xo & Xi).
  destruct Hready as [Hrs _ _ _ _ Wf Wt _ _ _ _ _ _ _ _]. exists w', c'. split; [done|]. intros direction x x' Hv Hx Hx'. set (self' := mkRelTable (rt_schema self) [] no_tombstones).
  assert (0 ≤ x') as Hpos by (eapply proj1, (renumber_range (grouped_remap direction fr tr)); [by destruct direction|done|done]).
  rewrite !(neighbors_read self w old fc tc Ao Ai), !(properties_read self w old fc tc Ao Ai), (properties_read self w' old fc tc Ao Ai) by (done || lia || by eapply rel_stored_le).
  rewrite (neighbors_read self' w' c' nfc ntc Ao' Ai'), (properties_read self' w' c' nfc ntc Ao' Ai') by done.
  assert (∀ y y', 0 ≤ y < old_domain fr → renumber fr y = Some y' → _) as HO by (intros y y' Hy Hy'; exact (direction_answers self Out fr tr y y' _ _ ltac:(done) Hy' (Xo y y' Hy Hy'))).
  assert (∀ y y', 0 ≤ y < old_domain tr → renumber tr y = Some y' → _) as HI by (intros y y' Hy Hy'; exact (direction_answers self In fr tr y y' _ _ ltac:(done) Hy' (Xi y y' Hy Hy'))).
  unfold self'. rewrite answer_clean, edge_answer_clean. unfold answer, edge_answer. cbv zeta.
  destruct direction; cbn [grouped_remap neighbor_remap] in *.
  - destruct (HO x x' Hx Hx') as [-> HR]. split; [|by eexists]. do 2 eexists. by split_and!.
  - destruct (HI x x' Hx Hx') as [-> HR]. split; [|by eexists]. do 2 eexists. by split_and!.
  - assert (fr = tr) as <-.
    { apply Hboth. unfold validate_direction in Hv. rewrite bool_decide_eq_true_2 in Hv by done. case_bool_decide; done. }
    destruct (HO x x' Hx Hx') as [-> HR], (HI x x' Hx Hx') as [-> HR']. split.
    + do 2 eexists. split; [done|]. split; [done|]. split; [done|]. rewrite omap_app, <- omap_filter_loops by done. apply Forall2_app; [done|]. by apply filter_same.
    + eexists. split; [done|]. rewrite omap_app. cbn [neighbor_remap]. by rewrite (omap_filter_other fr x x').
Qed.

End Checkpoint.

(** ** A store in memory *)

(** Groups are named by position from one, node groups by position. *)
Record MemRel := mkMem { mem_groups : list CsrGroup; mem_nodes : list (nat * nat); mem_free : Z }.

Definition mem_group (w : MemRel) (id : Z) (types : list LogicalType) : option CsrGroup :=
  if id <=? 0 then None else
  g ← mem_groups w !! Z.to_nat (id - 1); if bool_decide (csr_types g = types) then Some g else None.

Definition mem_lens (g : CsrGroup) : list Z := (λ c, 8 * zlen c) <$> csr_columns g.

#[export, refine] Instance memory_csr : CsrStore MemRel := {
  csr_write g w := (Ok (zlen (mem_groups w) + 1), mkMem (mem_groups w ++ [g]) (mem_nodes w) (mem_free w));
  csr_read_checked w id types n :=
    match mem_group w id types with
    | Some g => if below n g then Ok g else Err (Corrupt "CSR neighbor {index} offset {neighbor} is outside endpoint row count {row_count}")
    | None => Err (Corrupt "CSR directory magic is not RCSR")
    end;
  csr_header w id types :=
    match mem_group w id types with
    | Some g => Ok (Z.of_nat (csr_row_count g), Z.of_nat (edge_count g), mem_lens g)
    | None => Err (Corrupt "CSR directory magic is not RCSR")
    end;
  read_row_count w id columns :=
    match mem_nodes w !! Z.to_nat id with
    | Some (c, n) => if (c =? columns)%nat then Ok n else Err (Corrupt "node-group column_count is {column_count}, expected {expected_columns}")
    | None => Err (Corrupt "node-group directory magic is not NGRP")
    end;
  charge_or_reclaim n w := if n <=? mem_free w then (true, mkMem (mem_groups w) (mem_nodes w) (mem_free w - n)) else (false, w);
  budget_release n w := mkMem (mem_groups w) (mem_nodes w) (mem_free w + n);
  csr_at w id types g := mem_group w id types = Some g;
  endpoint_at w id c n := mem_nodes w !! Z.to_nat id = Some (c, n);
  csr_lens := mem_lens;
  roomy _ cap _ w := cap ≤ mem_free w;
}.
Proof.
  - intros w id types g n -> ->. done.
  - intros w id types g ->. done.
  - intros w id c n ->. by rewrite Nat.eqb_refl.
  - intros types adj w id w' _ [= <- <-]. pose proof (zlen_nonneg (mem_groups w)). split; [lia|]. unfold mem_group. cbn [mem_groups].
    rewrite (proj2 (Z.leb_gt _ _)) by lia. unfold zlen. rewrite lookup_app_r by lia.
    replace (Z.to_nat _ - _)%nat with 0%nat by lia. simpl. by rewrite bool_decide_eq_true_2.
  - intros g w r w' [= <- <-]. split; [|done]. intros id ts g'. unfold mem_group. destruct (id <=? 0); [done|]. cbn [mem_groups].
    destruct (mem_groups w !! Z.to_nat (id - 1)) as [g0|] eqn:E; [|done]. by rewrite (lookup_app_l_Some _ _ _ _ E).
  - intros n w b w' E. destruct (n <=? mem_free w); injection E as <- <-; done.
  - done.
  - intros types cap k adj w Hr _. eauto.
  - intros types cap k n w Hr Hn. rewrite (proj2 (Z.leb_le _ _)) by lia. eexists. split; [done|]. simpl. lia.
  - intros types cap k n w Hr Hn. simpl. lia.
  - done.
Defined.

(** Three people, of whom the second is being detached, and a fourth inserted
    since the last checkpoint. *)
#[local] Instance example_sizes : Sizes := { size_of_group := 96; size_of_type := 8; size_of_value := 32; size_of_vec := 24 }.

Definition ex_person : NodeTableSchema := mkNodeSchema [80] [mkColumn [105] TInt64 true].
Definition ex_knows : RelTableSchema := mkRelSchema [75] [80] [80] [mkColumn [119] TInt64 false].
Definition ex_out : adjacency := [[(1, [Int64 5]); (2, [Int64 6])]; []; [(0, [Int64 7])]].
Definition ex_in : adjacency := [[(2, [Int64 7])]; [(0, [Int64 5])]; [(0, [Int64 6])]].
Definition ex_mem : MemRel := mkMem [csr_of [TInt64] ex_out; csr_of [TInt64] ex_in] [(1, 3); (1, 3)]%nat 1000000.
Definition ex_rel : RelTable := mkRelTable ex_knows [mkRelEdge 2 3 [Int64 8]] (mkTombstones {[1]} {[1]}).
Definition ex_remap : OffsetRemap := mkRemap 4 [1].
Definition ex_tables : Catalog := mkCatalog [ex_person] [ex_knows] ∅ [] None [].
Definition ex_old : Catalog :=
  mkCatalog [ex_person] [ex_knows] {[ [80] := NodeStorage (mkTableStorage [0]); [75] := RelStorageOf (mkRelStorage [1] [2]) ]} [] None [].
Definition ex_new : Catalog :=
  mkCatalog [ex_person] [ex_knows] {[ [80] := NodeStorage (mkTableStorage [1]); [75] := RelStorageOf (mkRelStorage [1] [2]) ]} [] None [].

Lemma example_counts (w := ex_mem) : endpoint_counts w ex_old [80] [3%nat] ∧ endpoint_counts w ex_new [80] [3%nat].
Proof.
  split; exists ex_person; (split; [vm_compute; reflexivity|split; [|vm_compute; reflexivity]]).
  - assert (default [] (groups <$> table_storage ex_old [80]) = [0]) as -> by (vm_compute; reflexivity). by repeat constructor.
  - assert (default [] (groups <$> table_storage ex_new [80]) = [1]) as -> by (vm_compute; reflexivity). by repeat constructor.
Qed.

Lemma one_group_stored w types c n id a : id ≠ 0 → mem_group w id types = Some (csr_of types a) → group_good types a → (length a ≤ c)%nat →
  Forall (λ e : edge, 0 ≤ e.1 < n) (concat a) → dir_stored w types [c] n [id] [a].
Proof.
  intros Hid Hat Hg Hl Hb. split; [done|]. split; [done|]. intros [|i] c' a' [= <-] [= <-]. split; [done|]. split; [done|].
  unfold stored_group_id. simpl. by rewrite (proj2 (Z.eqb_neq _ _) Hid).
Qed.

Lemma neighbors_check l : forallb (λ e : edge, in_ub 64 e.1) l = true → Forall (λ e : edge, in_u 64 e.1) l.
Proof. rewrite forallb_forall, Forall_forall. intros H e He. by apply in_ub_spec, H, list_elem_of_In. Qed.

(** One [Int64] property column. *)
Lemma int_columns_check a : forallb (λ v, match v with Int64 x => in_ib 64 x | _ => false end) (column_of 0 (concat a)) = true →
  (Z.of_nat (column_size (column_of 0 (concat a)) TInt64) <? 2 ^ 32) = true → columns_good [TInt64] a.
Proof.
  intros Hv Hs [|i] ty Hi; [injection Hi as <-|done]. apply Z.ltb_lt in Hs. split; [done|]. split; [|done]. rewrite forallb_forall in Hv.
  apply Forall_forall. intros v Hin. specialize (Hv v ltac:(by apply list_elem_of_In)). destruct v; try done. split; [done|]. by apply in_ib_spec.
Qed.

Ltac computed := vm_compute; reflexivity.

Lemma example_good : group_good [TInt64] ex_out ∧ group_good [TInt64] ex_in.
Proof.
  split; (split; [simpl; lia|]; split; [computed|]; split; [simpl; lia|]; split; [computed|]; split; [apply neighbors_check; computed|];
    split; [apply int_columns_check; computed|repeat constructor]).
Qed.

Lemma example_ready : checkpoint_ready ex_rel ex_mem ex_old ex_new ex_remap ex_remap 1000000 [3%nat] [3%nat] [3%nat] [3%nat] [ex_out] [ex_in].
Proof.
  destruct example_counts as [Ho Hn]. destruct example_good as [Go Gi].
  assert (fwd_ids (rel_storage ex_old (rel_name (rt_schema ex_rel))) = [1]) as Ef by (vm_compute; reflexivity).
  assert (bwd_ids (rel_storage ex_old (rel_name (rt_schema ex_rel))) = [2]) as Eb by (vm_compute; reflexivity).
  assert (remap_wf ex_remap) as Hw by (constructor; [unfold in_u; simpl; lia|repeat constructor|repeat constructor; simpl; lia]).
  assert (dir_stored ex_mem [TInt64] [3%nat] 3 [1] [ex_out]) as So by (apply one_group_stored; [done|vm_compute; reflexivity|done|simpl; lia|repeat constructor; done]).
  assert (dir_stored ex_mem [TInt64] [3%nat] 3 [2] [ex_in]) as Si by (apply one_group_stored; [done|vm_compute; reflexivity|done|simpl; lia|repeat constructor; done]).
  constructor.
  - constructor; [vm_compute; reflexivity|exact Ho|exact Ho|rewrite Ef; exact So|rewrite Eb; exact Si].
  - apply catalog_reachable_ok. eapply rtc_l; [eapply (step_add_node _ [80] (node_columns ex_person)); vm_compute; reflexivity|].
    eapply rtc_l; [eapply (step_add_rel _ [75] [80] [80] (rel_columns ex_knows)); vm_compute; reflexivity|].
    eapply rtc_l; [eapply (step_table_storage _ [80] (mkTableStorage [1])); vm_compute; reflexivity|].
    eapply rtc_l; [eapply (step_rel_storage _ [75] (mkRelStorage [1] [2])); vm_compute; reflexivity|]. apply rtc_refl.
  - vm_compute; reflexivity.
  - exact Hn.
  - exact Hn.
  - exact Hw.
  - exact Hw.
  - vm_compute. discriminate.
  - vm_compute. discriminate.
  - vm_compute; reflexivity.
  - vm_compute; reflexivity.
  - repeat constructor; vm_compute; (discriminate || reflexivity).
  - rewrite Ef. intros [|gi] rows [= <-]. split; [lia|]. split; [vm_compute; reflexivity|]. split; [vm_compute; reflexivity|]. split; [apply int_columns_check; computed|].
    eexists. split; [vm_compute; reflexivity|]. split; vm_compute; discriminate.
  - rewrite Eb. intros [|gi] rows [= <-]. split; [lia|]. split; [vm_compute; reflexivity|]. split; [vm_compute; reflexivity|]. split; [apply int_columns_check; computed|].
    eexists. split; [vm_compute; reflexivity|]. split; vm_compute; discriminate.
  - vm_compute. discriminate.
Qed.

Lemma checkpoint_keeps_traversals_witness :
  ∃ w' c', checkpoint_with_remap ex_rel ex_old ex_remap ex_remap (ex_mem, ex_new) = (Ok (mkRelTable ex_knows [] no_tombstones), (w', c')) ∧
    rel_neighbors ex_rel ex_mem ex_old Out 2 = Ok [0; 3] ∧ rel_neighbors (mkRelTable ex_knows [] no_tombstones) w' c' Out 1 = Ok [0; 2].
Proof.
  destruct (checkpoint_keeps_traversals ex_rel ex_mem ex_old ex_new ex_remap ex_remap 1000000 [3%nat] [3%nat] [3%nat] [3%nat] [ex_out] [ex_in] example_ready)
    as (w' & c' & Hrun & H).
  - vm_compute. reflexivity.
  - done.
  - exists w', c'. split; [exact Hrun|]. destruct (H Out 2 1) as (_ & l & H1 & H2); [vm_compute; reflexivity|simpl; lia|vm_compute; reflexivity|].
    assert (rel_neighbors ex_rel ex_mem ex_old Out 2 = Ok [0; 3]) as E by (vm_compute; reflexivity). split; [exact E|]. rewrite E in H1. injection H1 as <-. exact H2.
Defined.

(** Pages are kept when they compare equal, and [0.0 == -0.0]: here person 1 is
    detached, person 2 takes its number, and the new edge's [-0.0] reads back as
    the [0.0] of the edge whose page is kept. *)
Definition zero_knows : RelTableSchema := mkRelSchema [75] [80] [80] [mkColumn [119] TFloat64 false].
Definition zero_mem : MemRel :=
  mkMem [csr_of [TFloat64] [[(1, [Float64 0])]; []]; csr_of [TFloat64] [[]; [(0, [Float64 0])]]] [(1, 2); (1, 2)]%nat 1000000.
Definition zero_rel : RelTable := mkRelTable zero_knows [mkRelEdge 0 2 [Float64 (2 ^ 63)]] (mkTombstones {[1]} {[1]}).
Definition zero_catalog (nodes : Z) : Catalog :=
  mkCatalog [ex_person] [zero_knows] {[ [80] := NodeStorage (mkTableStorage [nodes]); [75] := RelStorageOf (mkRelStorage [1] [2]) ]} [] None [].

Definition zero_run : outcome RelTable * (MemRel * Catalog) :=
  checkpoint_with_remap zero_rel (zero_catalog 0) (mkRemap 3 [1]) (mkRemap 3 [1]) (zero_mem, zero_catalog 1).

Lemma kept_page_forgets_zero_sign :
  neighbors_with_properties zero_rel zero_mem (zero_catalog 0) Out 0 = Ok [mkRelEdge 0 2 [Float64 (2 ^ 63)]] ∧
  zero_run.1 = Ok (mkRelTable zero_knows [] no_tombstones) ∧
  neighbors_with_properties (mkRelTable zero_knows [] no_tombstones) zero_run.2.1 zero_run.2.2 Out 0 = Ok [mkRelEdge 0 1 [Float64 0]].
Proof. split; [vm_compute; reflexivity|]. split; vm_compute; reflexivity. Qed.
