(* ===== verification/RelScan.v ===== *)
(** The relationship scan: [RelScanCursor] and [RelTable::scan] of
    [devondb-storage/src/rel_table.rs].

    The cursor walks the forward CSR groups one at a time and then the buffered
    edges.  The theorem is that a drained scan and the traversals agree: the
    outgoing edges of every node are the scanned edges that start there. *)

From stdpp Require Import gmap.
From S2P Require Import Prelude Bytes Types Schema Catalog Overlay Csr CsrCodec RelTable RelRemap RelRebuild RelCheckpoint.

Section Scan.
Context {W : Type} `{CS : CsrStore W} `{SZ : Sizes}.

(** ** The cursor *)

(** What the cursor borrows, and what it changes. *)
Record ScanSource := mkSource {
  source_groups : list Z; fwd_groups : list Z; source_columns : nat; neighbor_rows : Z; scan_types : list LogicalType }.

Record RelScanCursor := mkCursor {
  group_index : nat;
  next_group_start : Z;
  group_start : Z;
  cur_group : option CsrGroup;
  slot : nat;
  edge_index : nat;
  buffered_index : nat;
  base_finished : bool;
  finished : bool }.

Definition add_row_count (total : Z) (rows : nat) : outcome Z :=
  ok_or (try_u 64 (total + Z.of_nat rows)) (Corrupt "node row count exceeds u64::MAX").

Definition node_row_total (w : W) (columns : nat) (group_ids : list Z) : outcome Z :=
  for_each group_ids 0 (λ total group_id,
    let! rows := read_node_group_row_count w group_id columns in
    add_row_count total rows).

Definition cursor_new (table : RelTable) (w : W) (catalog : Catalog) : outcome (ScanSource * RelScanCursor) :=
  let schema := rt_schema table in
  let! _ := ensure_rel_schema schema catalog in
  let! source := ok_or (node_table catalog (rel_from schema)) (NotFound "node table `{}`") in
  let! destination := ok_or (node_table catalog (rel_to schema)) (NotFound "node table `{}`") in
  let source_groups := default [] (groups <$> table_storage catalog (node_name source)) in
  let destination_groups := default [] (groups <$> table_storage catalog (node_name destination)) in
  let s := rel_storage catalog (rel_name schema) in
  if (length source_groups <? length (fwd_ids s))%nat then Err (Corrupt "relationship forward storage has more groups than its source table") else
  if (length destination_groups <? length (bwd_ids s))%nat then Err (Corrupt "relationship backward storage has more groups than its destination table") else
  let! neighbor_rows := node_row_total w (length (node_columns destination)) destination_groups in
  Ok (mkSource source_groups (fwd_ids s) (length (node_columns source)) neighbor_rows (schema_types schema),
      mkCursor 0 0 0 None 0 0 0 false false).

(** [while self.slot < group.row_count()], [n] being the slots left. *)
Fixpoint slot_loop (n : nat) (group : CsrGroup) (c : RelScanCursor) : outcome (option Edge * RelScanCursor) :=
  match n with
  | O => Ok (None, mkCursor (group_index c) (next_group_start c) (group_start c) None (slot c) (edge_index c) (buffered_index c) (base_finished c) (finished c))
  | S n =>
      let! (_, end_) := ok_or (edge_range group (slot c)) (Corrupt "CSR group is missing a covered source slot") in
      if (edge_index c <? end_)%nat then
        let c' := mkCursor (group_index c) (next_group_start c) (group_start c) (cur_group c) (slot c) (edge_index c + 1) (buffered_index c) (base_finished c) (finished c) in
        let! from := ok_or (try_u 64 (group_start c + Z.of_nat (slot c))) (Corrupt "relationship source offset exceeds u64::MAX") in
        let! to := csr_neighbor group (edge_index c) in
        let! values := csr_values group (edge_index c) in
        Ok (Some (mkRelEdge from to values), c')
      else
        slot_loop n group (mkCursor (group_index c) (next_group_start c) (group_start c) (cur_group c) (slot c + 1) end_ (buffered_index c) (base_finished c) (finished c))
  end.

Definition next_group_edge (c : RelScanCursor) : outcome (option Edge * RelScanCursor) :=
  match cur_group c with
  | None => Ok (None, c)
  | Some group => slot_loop (csr_row_count group - slot c) group c
  end.

(** [while let Some(group_id) = self.source_groups.get(self.group_index)], over the groups left. *)
Fixpoint load_loop (src : ScanSource) (w : W) (rest : list Z) (c : RelScanCursor) : outcome (bool * RelScanCursor) :=
  match rest with
  | [] => Ok (false, c)
  | group_id :: rest =>
      let i := group_index c in
      let! row_count := read_node_group_row_count w group_id (source_columns src) in
      let! next := add_row_count (next_group_start c) row_count in
      let c := mkCursor (i + 1) next (next_group_start c) (cur_group c) (slot c) (edge_index c) (buffered_index c) (base_finished c) (finished c) in
      match stored_group_id (fwd_groups src) i with
      | None => load_loop src w rest c
      | Some csr_id =>
          let! group := csr_read_checked w csr_id (scan_types src) (neighbor_rows src) in
          let! _ := validate_csr_row_count group row_count in
          Ok (true, mkCursor (group_index c) (next_group_start c) (group_start c) (Some group) 0 0 (buffered_index c) (base_finished c) (finished c))
      end
  end.

Definition load_next_group (src : ScanSource) (w : W) (c : RelScanCursor) : outcome (bool * RelScanCursor) :=
  load_loop src w (drop (group_index c) (source_groups src)) c.

(** The fuel of the loops below counts iterations; running out is an error the
    code does not have, and the theorem shows that it does not happen. *)
Definition out_of_fuel : DevonError := Corrupt "out of fuel".

Fixpoint next_checkpointed (fuel : nat) (src : ScanSource) (w : W) (c : RelScanCursor) : outcome (option Edge * RelScanCursor) :=
  match fuel with
  | O => Err out_of_fuel
  | S fuel =>
      let! (edge, c) := next_group_edge c in
      match edge with
      | Some edge => Ok (Some edge, c)
      | None =>
          let! (loaded, c) := load_next_group src w c in
          if loaded then next_checkpointed fuel src w c else Ok (None, c)
      end
  end.

Definition next_buffered (table : RelTable) (c : RelScanCursor) : option Edge * RelScanCursor :=
  match buffered_edges table !! buffered_index c with
  | None => (None, c)
  | Some edge =>
      (Some edge, mkCursor (group_index c) (next_group_start c) (group_start c) (cur_group c) (slot c) (edge_index c) (buffered_index c + 1) (base_finished c) (finished c))
  end.

Definition finish_base (c : RelScanCursor) : RelScanCursor :=
  mkCursor (group_index c) (next_group_start c) (group_start c) (cur_group c) (slot c) (edge_index c) (buffered_index c) true (finished c).

Definition next_edge (table : RelTable) (src : ScanSource) (w : W) (c : RelScanCursor) : outcome (option Edge * RelScanCursor) :=
  if base_finished c then Ok (next_buffered table c) else
  let! (edge, c) := next_checkpointed (S (length (source_groups src))) src w c in
  match edge with
  | Some edge => Ok (Some edge, c)
  | None => Ok (next_buffered table (finish_base c))
  end.

Fixpoint next_visible (fuel : nat) (table : RelTable) (src : ScanSource) (w : W) (c : RelScanCursor) : outcome (option Edge * RelScanCursor) :=
  match fuel with
  | O => Err out_of_fuel
  | S fuel =>
      let! (edge, c) := next_edge table src w c in
      match edge with
      | None => Ok (None, c)
      | Some edge => if edge_is_tombstoned table (e_from edge) (e_to edge) then next_visible fuel table src w c else Ok (Some edge, c)
      end
  end.

(** [Iterator::next]: an error ends the iteration too. *)
Definition finish_scan (c : RelScanCursor) : RelScanCursor :=
  mkCursor (group_index c) (next_group_start c) (group_start c) (cur_group c) (slot c) (edge_index c) (buffered_index c) (base_finished c) true.

Definition cursor_next (fuel : nat) (table : RelTable) (src : ScanSource) (w : W) (c : RelScanCursor) : option (outcome Edge) * RelScanCursor :=
  if finished c then (None, c) else
  match next_visible fuel table src w c with
  | Ok (Some edge, c) => (Some (Ok edge), c)
  | Ok (None, c) => (None, finish_scan c)
  | Err error => (Some (Err error), finish_scan c)
  | Panic => (Some Panic, c)
  end.

(** [collect] of the iterator. *)
Fixpoint drain (fuel steps : nat) (table : RelTable) (src : ScanSource) (w : W) (c : RelScanCursor) : outcome (list Edge) :=
  match steps with
  | O => Err out_of_fuel
  | S steps =>
      match cursor_next fuel table src w c with
      | (None, _) => Ok []
      | (Some edge, c) => let! edge := edge in let! rest := drain fuel steps table src w c in Ok (edge :: rest)
      end
  end.

Definition rel_scan (fuel : nat) (table : RelTable) (w : W) (catalog : Catalog) : outcome (list Edge) :=
  let! (src, c) := cursor_new table w catalog in
  drain fuel fuel table src w c.

(** ** What a scan yields *)

Definition group_edges (start : Z) (a : adjacency) : list Edge := (λ x : nat * edge, mkRelEdge (start + Z.of_nat x.1) x.2.1 x.2.2) <$> slotted 0 a.

Fixpoint stored_edges (start : Z) (counts : list nat) (A : list adjacency) : list Edge :=
  match counts, A with
  | c :: counts, a :: A => group_edges start a ++ stored_edges (start + Z.of_nat c) counts A
  | _, _ => []
  end.

Definition visible (self : RelTable) (e : Edge) : Prop := edge_is_tombstoned self (e_from e) (e_to e) = false.

#[global] Instance visible_dec self e : Decision (visible self e).
Proof. unfold visible. apply _. Defined.

Lemma slotted_lookup (a : adjacency) : ∀ j s l i e, a !! s = Some l → l !! i = Some e →
  slotted j a !! (sum_list (take s (length <$> a)) + i)%nat = Some ((j + s)%nat, e) ∧ concat a !! (sum_list (take s (length <$> a)) + i)%nat = Some e.
Proof.
  induction a as [|l0 a IH]; intros j s l i e Hs Hi; [done|]. rewrite slotted_cons. cbn [concat]. rewrite fmap_cons. destruct s as [|s].
  - injection Hs as ->. cbn [take sum_list_with]. pose proof (lookup_lt_Some _ _ _ Hi). simpl. rewrite !lookup_app_l by (rewrite ?length_fmap; done).
    rewrite list_lookup_fmap, Hi, Nat.add_0_r. done.
  - cbn [take]. rewrite sum_list_cons, <- Nat.add_assoc. rewrite !lookup_app_r by (rewrite ?length_fmap; lia). rewrite length_fmap.
    replace (length l0 + (sum_list (take s (length <$> a)) + i) - length l0)%nat with (sum_list (take s (length <$> a)) + i)%nat by lia.
    destruct (IH (S j) s l i e Hs Hi) as [-> ->]. split; [|done]. do 2 f_equal. lia.
Qed.

(** *** One group *)

Section Walk.
Context (w : W) (types : list LogicalType) (counts : list nat) (A : list adjacency) (n : Z) (ids gs : list Z) (cols : nat).
Context (Hst : dir_stored w types counts n ids A) (Hgs : Forall2 (λ id k, endpoint_at w id cols k) gs counts) (Hmax : rows_of counts < 2 ^ 64).
Let src := mkSource gs ids cols n types.

(** The cursor stands in the group [a], before the edge [edge_index]. *)
Record in_group (a : adjacency) (c : RelScanCursor) : Prop := {
  ig_group : cur_group c = Some (csr_of types a);
  ig_ok : Forall (edge_ok types) (concat a);
  ig_start : 0 ≤ group_start c ∧ group_start c + Z.of_nat (length a) < 2 ^ 64;
  ig_slot : (slot c ≤ length a)%nat;
  ig_low : (sum_list (take (slot c) (length <$> a)) ≤ edge_index c)%nat;
  ig_high : (edge_index c ≤ sum_list (take (slot c + 1) (length <$> a)))%nat;
}.

(** The fields the walk leaves alone. *)
Definition same_rest (c c' : RelScanCursor) : Prop :=
  buffered_index c' = buffered_index c ∧ base_finished c' = base_finished c ∧ finished c' = finished c.

Definition same_place (c c' : RelScanCursor) : Prop := group_index c' = group_index c ∧ next_group_start c' = next_group_start c ∧ same_rest c c'.

Lemma slot_loop_ok a : ∀ k c, in_group a c → k = (length a - slot c)%nat →
  ∃ c', same_place c c' ∧
    match drop (edge_index c) (group_edges (group_start c) a) with
    | [] => slot_loop k (csr_of types a) c = Ok (None, c') ∧ cur_group c' = None
    | e :: l => slot_loop k (csr_of types a) c = Ok (Some e, c') ∧ in_group a c' ∧ drop (edge_index c') (group_edges (group_start c') a) = l
    end.
Proof.
  induction k as [|k IH]; intros c Hin Hk; pose proof Hin as [Hg Hok Hs Hsl Hlo Hhi].
  { assert (drop (edge_index c) (group_edges (group_start c) a) = []) as ->.
    { apply drop_ge. unfold group_edges. rewrite length_fmap, length_slotted. rewrite take_ge in Hlo by (rewrite length_fmap; lia). by rewrite sum_lengths in Hlo. }
    eexists. split; [|cbn [slot_loop]; split; [reflexivity|done]]. done. }
  destruct (lookup_lt_is_Some_2 a (slot c)) as [l Hl]; [lia|]. cbn [slot_loop]. rewrite (edge_range_spec types a _ l Hl). cbn [ok_or bind].
  pose proof (proj2 (concat_slot a (slot c) l Hl)) as Hth. unfold edges_through in *. destruct (Nat.ltb_spec (edge_index c) (sum_list (take (slot c + 1) (length <$> a)))) as [Hlt|Hge].
  - destruct (lookup_lt_is_Some_2 l (edge_index c - sum_list (take (slot c) (length <$> a)))) as [e He]; [lia|].
    destruct (slotted_lookup a 0 _ _ _ _ Hl He) as [Hx Hc]. rewrite Nat.add_comm, Nat.sub_add in Hx, Hc by done.
    destruct (csr_edge_spec types a _ _ Hok Hc) as [-> ->]. rewrite try_u_in by (unfold in_u; lia). cbn [ok_or bind].
    assert (group_edges (group_start c) a !! edge_index c = Some (mkRelEdge (group_start c + Z.of_nat (slot c)) e.1 e.2)) as Hge by (unfold group_edges; by rewrite list_lookup_fmap, Hx).
    rewrite (drop_S _ _ _ Hge). eexists. split; [|split; [reflexivity|]]; [done|]. split; [constructor; cbn; try done; lia|]. cbn. by rewrite Nat.add_1_r.
  - assert (edge_index c = sum_list (take (slot c + 1) (length <$> a))) as Heq by lia. rewrite <- Heq.
    destruct (IH (mkCursor (group_index c) (next_group_start c) (group_start c) (cur_group c) (slot c + 1) (edge_index c) (buffered_index c) (base_finished c) (finished c))) as (c' & Hp & Hm).
    + constructor; cbn; try done; try lia. rewrite Heq. rewrite <- (take_drop (slot c + 1) (take (slot c + 1 + 1) (length <$> a))), take_take, sum_list_with_app, Nat.min_l by lia.
      change (sum_list_with id (take (slot c + 1) (length <$> a))) with (sum_list (take (slot c + 1) (length <$> a))). lia.
    + cbn. lia.
    + exists c'. split; [exact Hp|exact Hm].
Qed.

(** *** Group after group *)

(** The stored edges the cursor has not reached are [l]. *)
Definition reaches (c : RelScanCursor) (l : list Edge) : Prop :=
  (group_index c ≤ length counts)%nat ∧ next_group_start c = rows_of (take (group_index c) counts) ∧
  ∃ part, l = part ++ stored_edges (next_group_start c) (drop (group_index c) counts) (drop (group_index c) A) ∧
    match cur_group c with None => part = [] | Some _ => ∃ a, in_group a c ∧ part = drop (edge_index c) (group_edges (group_start c) a) end.

Lemma group_edge_ok c l : reaches c l → ∃ c', same_place c c' ∧
  match next_group_edge c with
  | Ok (Some e, c0) => c0 = c' ∧ ∃ l', l = e :: l' ∧ reaches c' l'
  | Ok (None, c0) => c0 = c' ∧ cur_group c' = None ∧ reaches c' l
  | _ => False
  end.
Proof.
  intros (Hi & Hn & part & -> & Hp). unfold next_group_edge. destruct (cur_group c) as [g|] eqn:Hg.
  2:{ exists c. split; [done|]. split; [done|]. split; [done|]. split; [done|]. split; [done|]. exists part. split; [done|]. by rewrite Hg. }
  destruct Hp as (a & Hin & ->). pose proof (ig_group _ _ Hin) as Hg'. rewrite Hg in Hg'. injection Hg' as ->. rewrite csr_of_rows.
  destruct (slot_loop_ok a _ c Hin eq_refl) as (c' & Hs & Hm). exists c'. split; [done|]. pose proof Hs as (E1 & E2 & _).
  destruct (drop (edge_index c) (group_edges (group_start c) a)) as [|e l] eqn:Hd.
  - destruct Hm as [-> Hnone]. split; [done|]. split; [done|]. rewrite <- E1, <- E2 in *. split; [done|]. split; [done|]. exists []. split; [done|]. by rewrite Hnone.
  - destruct Hm as (-> & Hin' & Hd'). split; [done|]. eexists. split; [reflexivity|]. rewrite <- E1, <- E2 in *. split; [done|]. split; [done|].
    exists l. split; [done|]. rewrite (ig_group _ _ Hin'). by exists a.
Qed.

Lemma load_ok rest : ∀ c l, rest = drop (group_index c) gs → cur_group c = None → reaches c l →
  ∃ b c', load_loop src w rest c = Ok (b, c') ∧ same_rest c c' ∧ reaches c' l ∧ (if b then (group_index c < group_index c')%nat else l = []).
Proof.
  pose proof (Forall2_length _ _ _ Hgs) as Hlen. destruct Hst as (HlA & _ & Hall).
  induction rest as [|id rest IH]; intros c l Hr Hg (Hi & Hn & part & -> & Hp); rewrite Hg in Hp; subst part.
  { exists false, c. split; [done|]. split; [done|]. assert (length counts ≤ group_index c)%nat as Hge by (apply (f_equal length) in Hr; rewrite length_drop in Hr; simpl in Hr; lia).
    rewrite (drop_ge counts) by done. split; [|done]. split; [done|]. split; [done|]. exists []. rewrite (drop_ge counts) by done. split; [done|]. by rewrite Hg. }
  assert (group_index c < length counts)%nat as Hlt by (apply (f_equal length) in Hr; rewrite length_drop in Hr; simpl in Hr; lia).
  destruct (lookup_lt_is_Some_2 counts (group_index c) Hlt) as [k Hk]. destruct (lookup_lt_is_Some_2 A (group_index c)) as [a Ha]; [lia|].
  assert (gs !! group_index c = Some id) as Hid by (rewrite <- (Nat.add_0_r (group_index c)), <- lookup_drop, <- Hr; done).
  pose proof (Forall2_lookup_lr _ _ _ _ _ _ Hgs Hid Hk) as Hat. destruct (Hall _ _ _ Hk Ha) as (Hrows & Hnb & Hs).
  pose proof (rows_of_take _ _ _ Hk) as Htk. pose proof (rows_of_nonneg (take (group_index c) counts)) as Hpos.
  cbn [load_loop]. unfold read_node_group_row_count. change (source_columns src) with cols. rewrite (endpoint_at_reads _ _ _ _ Hat). cbn [map_err bind]. unfold add_row_count.
  rewrite Hn, try_u_in by (unfold in_u; lia). cbn [ok_or bind]. rewrite (drop_S counts k _ Hk), (drop_S A a _ Ha). cbn [stored_edges]. change (fwd_groups src) with ids.
  assert (rows_of (take (group_index c + 1) counts) = rows_of (take (group_index c) counts) + Z.of_nat k) as Hnext.
  { rewrite Nat.add_1_r, (take_S_r _ _ _ Hk). unfold rows_of. rewrite sum_list_with_app. simpl. lia. }
  destruct (stored_group_id ids (group_index c)) as [csr|].
  - destruct Hs as [Hcsr Hgood]. change (neighbor_rows src) with n. change (scan_types src) with types. pose proof (neighbors_below n types a Hnb) as Hb.
    rewrite (csr_at_reads _ _ _ _ _ Hcsr Hb). cbn [bind]. unfold validate_csr_row_count. rewrite csr_of_rows, (proj2 (Nat.ltb_ge _ _)) by done. cbn [bind].
    eexists true, _. split; [reflexivity|]. split; [done|]. split; [|cbn; lia]. split; [cbn; lia|]. split; [cbn; by rewrite Hnext|]. cbn. exists (group_edges (rows_of (take (group_index c) counts)) a).
    rewrite Nat.add_1_r. split; [done|]. exists a. split; [|done]. constructor; cbn; try done; try lia. apply Hgood.
  - assert (group_edges (rows_of (take (group_index c) counts)) a = []) as ->.
    { unfold group_edges. assert (slotted 0 a = []) as -> by (apply length_zero_iff_nil; by rewrite length_slotted, Hs). done. }
    destruct (IH (mkCursor (group_index c + 1) (rows_of (take (group_index c) counts) + Z.of_nat k) (rows_of (take (group_index c) counts)) (cur_group c) (slot c) (edge_index c) (buffered_index c) (base_finished c) (finished c))
      (stored_edges (rows_of (take (group_index c) counts) + Z.of_nat k) (drop (S (group_index c)) counts) (drop (S (group_index c)) A))) as (b & c' & Hload & Hsame & Hreach & Hend).
    + cbn. rewrite <- drop_drop, <- Hr. done.
    + done.
    + split; [cbn; lia|]. split; [cbn; by rewrite Hnext|]. exists []. cbn. rewrite Nat.add_1_r. by rewrite Hg.
    + exists b, c'. split; [exact Hload|]. split; [exact Hsame|]. split; [exact Hreach|]. destruct b; [cbn in Hend; lia|exact Hend].
Qed.

Lemma checkpointed_ok fuel : ∀ c l, reaches c l → (length counts - group_index c < fuel)%nat →
  ∃ c', same_rest c c' ∧ match l with
    | [] => next_checkpointed fuel src w c = Ok (None, c')
    | e :: l' => next_checkpointed fuel src w c = Ok (Some e, c') ∧ reaches c' l'
    end.
Proof.
  induction fuel as [|fuel IH]; intros c l Hr Hf; [lia|]. cbn [next_checkpointed]. destruct (group_edge_ok c l Hr) as (c1 & Hs & Hm). pose proof Hs as (Ei & _ & Hs1).
  destruct (next_group_edge c) as [[[e|] c0]|e|]; [| |done..].
  - destruct Hm as (-> & l' & -> & Hr'). exists c1. split; [done|]. by cbn [bind].
  - destruct Hm as (-> & Hnone & Hr'). cbn [bind]. destruct (load_ok (drop (group_index c1) gs) c1 l eq_refl Hnone Hr') as (b & c2 & Hload & Hs2 & Hr2 & Hb).
    unfold load_next_group. change (source_groups src) with gs. rewrite Hload. cbn [bind]. assert (same_rest c c2) as Hs12 by (unfold same_rest in *; naive_solver congruence).
    destruct b.
    + destruct (IH c2 l Hr2) as (c3 & Hs3 & Hm3); [destruct Hr2 as [Hle _]; lia|]. exists c3. split; [unfold same_rest in *; naive_solver congruence|exact Hm3].
    + subst l. by exists c2.
Qed.

(** *** The whole cursor *)

Context (self : RelTable).

(** The edges the cursor has not reached are [L]. *)
Definition remaining (c : RelScanCursor) (L : list Edge) : Prop :=
  finished c = false ∧
  if base_finished c then L = drop (buffered_index c) (buffered_edges self)
  else ∃ l, reaches c l ∧ L = l ++ drop (buffered_index c) (buffered_edges self).

Lemma buffered_ok c L : finished c = false → base_finished c = true → L = drop (buffered_index c) (buffered_edges self) →
  ∃ c', match L with [] => next_buffered self c = (None, c') | e :: L' => next_buffered self c = (Some e, c') ∧ remaining c' L' end.
Proof.
  intros Hf Hb ->. unfold next_buffered. destruct (buffered_edges self !! buffered_index c) as [e|] eqn:He.
  - rewrite (drop_S _ _ _ He). eexists. split; [reflexivity|]. split; [done|]. cbn. rewrite Hb. by rewrite Nat.add_1_r.
  - apply lookup_ge_None in He. rewrite drop_ge by done. by exists c.
Qed.

Lemma next_edge_ok c L : remaining c L →
  ∃ c', match L with [] => next_edge self src w c = Ok (None, c') | e :: L' => next_edge self src w c = Ok (Some e, c') ∧ remaining c' L' end.
Proof.
  intros [Hf HL]. unfold next_edge. destruct (base_finished c) eqn:Hb.
  { destruct (buffered_ok c L Hf Hb HL) as (c' & Hm). exists c'. destruct L; [by rewrite Hm|]. destruct Hm as [-> Hm]. done. }
  destruct HL as (l & Hr & ->). pose proof (Forall2_length _ _ _ Hgs) as Hlen. change (source_groups src) with gs.
  destruct (checkpointed_ok (S (length gs)) c l Hr ltac:(lia)) as (c1 & Hs & Hm). pose proof Hs as (S1 & S2 & S3). destruct l as [|e l].
  - rewrite Hm. cbn [bind app]. destruct (buffered_ok (finish_base c1) (drop (buffered_index c) (buffered_edges self))) as (c' & Hm'); [by cbn; rewrite S3|done|by cbn; rewrite S1|].
    exists c'. destruct (drop (buffered_index c) (buffered_edges self)); [by rewrite Hm'|]. destruct Hm' as [-> Hm']. done.
  - destruct Hm as [-> Hr']. cbn [bind app]. exists c1. split; [done|]. split; [by rewrite S3|]. rewrite S2, Hb. exists l. by rewrite S1.
Qed.

Lemma next_visible_ok fuel : ∀ c L, remaining c L → (length L < fuel)%nat →
  ∃ c', match filter (visible self) L with
    | [] => next_visible fuel self src w c = Ok (None, c')
    | e :: V => next_visible fuel self src w c = Ok (Some e, c') ∧ ∃ L', remaining c' L' ∧ (length L' < length L)%nat ∧ V = filter (visible self) L'
    end.
Proof.
  induction fuel as [|fuel IH]; intros c L HL Hf; [lia|]. cbn [next_visible]. destruct (next_edge_ok c L HL) as (c1 & Hm). destruct L as [|e L].
  { exists c1. rewrite Hm. done. }
  destruct Hm as [-> HL1]. cbn [bind]. rewrite filter_cons. destruct (edge_is_tombstoned self (e_from e) (e_to e)) eqn:Ht.
  - rewrite decide_False by (unfold visible; by rewrite Ht). simpl in Hf. destruct (IH c1 L HL1 ltac:(lia)) as (c2 & Hm2). exists c2.
    destruct (filter (visible self) L); [done|]. destruct Hm2 as (E2 & L' & HL' & Hlt & EV). split; [done|]. exists L'. split; [done|]. split; [simpl; lia|done].
  - rewrite decide_True by done. exists c1. split; [done|]. exists L. split; [done|]. split; [simpl; lia|done].
Qed.

Lemma drain_ok fuel steps : ∀ c L, remaining c L → (length L < fuel)%nat → (length L < steps)%nat →
  drain fuel steps self src w c = Ok (filter (visible self) L).
Proof.
  induction steps as [|steps IH]; intros c L HL Hf Hsteps; [lia|]. cbn [drain]. unfold cursor_next. rewrite (proj1 HL).
  destruct (next_visible_ok fuel c L HL Hf) as (c1 & Hm). destruct (filter (visible self) L) as [|e V].
  - by rewrite Hm.
  - destruct Hm as (-> & L' & HL' & Hlt & ->). cbn [bind]. rewrite (IH c1 L' HL') by lia. done.
Qed.

Lemma scan_from_start : remaining (mkCursor 0 0 0 None 0 0 0 false false) (stored_edges 0 counts A ++ buffered_edges self).
Proof.
  split; [done|]. exists (stored_edges 0 counts A). split; [|done]. split; [cbn; lia|]. split; [done|]. by exists [].
Qed.

End Walk.

(** *** A scan of a stored table *)

Lemma row_total_ok w cols gs counts : Forall2 (λ id k, endpoint_at w id cols k) gs counts → ∀ total, 0 ≤ total → total + rows_of counts < 2 ^ 64 →
  for_each gs total (λ total group_id, let! rows := read_node_group_row_count w group_id cols in add_row_count total rows) = Ok (total + rows_of counts).
Proof.
  induction 1 as [|id k gs counts Hid _ IH]; intros total Hpos Hmax; [cbn; unfold rows_of; simpl; f_equal; lia|]. cbn [for_each].
  unfold read_node_group_row_count at 1. rewrite (endpoint_at_reads _ _ _ _ Hid). cbn [map_err bind]. rewrite rows_of_cons in *. pose proof (rows_of_nonneg counts).
  unfold add_row_count at 1. rewrite try_u_in by (unfold in_u; lia). cbn [ok_or bind]. rewrite IH by lia. f_equal. lia.
Qed.

Lemma table_storage_fold c name name' : fold name = fold name' → table_storage c name = table_storage c name'.
Proof. intros E. unfold table_storage, storage_state. by rewrite (find_folded_same _ _ _ _ E). Qed.

Lemma rel_scan_ok self w c fc tc Ao Ai fuel : rel_stored w c (rt_schema self) fc tc Ao Ai → (length (stored_edges 0 fc Ao ++ buffered_edges self) < fuel)%nat →
  rel_scan fuel self w c = Ok (filter (visible self) (stored_edges 0 fc Ao ++ buffered_edges self)).
Proof.
  intros [Hs (fs & Hfs & Hfg & Hfm) (ts & Hts & Htg & Htm) Ho Hi] Hfuel. unfold rel_scan, cursor_new, ensure_rel_schema. rewrite Hs. cbn [ok_or bind]. rewrite bool_decide_eq_true_2 by done.
  cbn [bind]. rewrite Hfs, Hts. cbn [ok_or bind]. pose proof (find_folded_Some _ _ _ _ Hfs) as [_ Ef]. pose proof (find_folded_Some _ _ _ _ Hts) as [_ Et].
  rewrite (table_storage_fold c _ _ Ef), (table_storage_fold c _ _ Et). pose proof (Forall2_length _ _ _ Hfg) as Lf. pose proof (Forall2_length _ _ _ Htg) as Lt.
  rewrite !(proj2 (Nat.ltb_ge _ _)) by (destruct Ho as (_ & Ho & _), Hi as (_ & Hi & _); lia). unfold node_row_total. rewrite (row_total_ok w _ _ _ Htg) by lia. cbn [bind]. rewrite Z.add_0_l.
  eapply drain_ok; [exact Ho|exact Hfg|exact Hfm| |done|done]. apply scan_from_start.
Qed.

(** *** Scans and traversals *)

Lemma from_group start a x : filter (λ e, e_from e = x) (group_edges start a) = orient Out x <$> (if decide (start ≤ x) then default [] (a !! Z.to_nat (x - start)) else []).
Proof.
  unfold group_edges. assert (∀ (l : list (nat * edge)), filter (λ e, e_from e = x) ((λ y : nat * edge, mkRelEdge (start + Z.of_nat y.1) y.2.1 y.2.2) <$> l) =
    orient Out x <$> (if decide (start ≤ x) then at_slot (Z.to_nat (x - start)) l else [])) as Hl.
  { induction l as [|[s e] l IH]; [by destruct (decide _)|]. rewrite fmap_cons, filter_cons, IH. cbn [fst snd e_from]. unfold at_slot. cbn [omap list_omap fst snd].
    destruct (decide (start + Z.of_nat s = x)) as [Hx|Hx].
    - rewrite !(decide_True _ _ (P := start ≤ x)) by lia. rewrite (decide_True _ _ (P := s = Z.to_nat (x - start))) by lia. rewrite fmap_cons. f_equal. unfold orient.
      rewrite bool_decide_eq_true_2 by done. by rewrite Hx.
    - destruct (decide (start ≤ x)); [|done]. by rewrite (decide_False _ _ (P := s = Z.to_nat (x - start))) by lia. }
  rewrite Hl. do 2 f_equal. destruct (decide (start ≤ x)); [|done]. rewrite at_slot_slotted by lia. by rewrite Nat.sub_0_r.
Qed.

Lemma edges_at_cons c counts a A x : 0 ≤ x → (length a ≤ c)%nat →
  edges_at (c :: counts) (a :: A) x = if decide (x < Z.of_nat c) then default [] (a !! Z.to_nat x) else edges_at counts A (x - Z.of_nat c).
Proof.
  intros Hx Ha. destruct (decide (x < Z.of_nat c)) as [Hlt|Hge].
  - rewrite (edges_at_lies _ _ x 0 (Z.to_nat x)); [done|]. exists c. split; [done|]. split; [lia|]. change (rows_of (take 0 (c :: counts))) with 0. lia.
  - destruct (decide (x - Z.of_nat c < rows_of counts)) as [Hin|Hout].
    + destruct (locate_inside counts (x - Z.of_nat c) ltac:(lia)) as (g & sl & _ & Hl). rewrite (edges_at_lies _ _ _ _ _ Hl). destruct Hl as (k & Hk & Hs & Hxe).
      apply (edges_at_lies (c :: counts) (a :: A) x (S g) sl). exists k. split; [done|]. split; [done|]. cbn [take]. rewrite rows_of_cons. lia.
    + by rewrite !edges_at_outside by (rewrite ?rows_of_cons; lia).
Qed.

Lemma from_stored counts : ∀ A start x, Forall2 (λ c (a : adjacency), (length a ≤ c)%nat) counts A → start ≤ x →
  filter (λ e, e_from e = x) (stored_edges start counts A) = orient Out x <$> edges_at counts A (x - start).
Proof.
  induction counts as [|c counts IH]; intros A start x HA Hx; [by rewrite edges_at_outside by (unfold rows_of; simpl; lia)|].
  destruct A as [|a A]; [by inversion HA|]. apply Forall2_cons in HA as [Ha HA]. cbn [stored_edges]. rewrite filter_app, from_group, decide_True by done.
  rewrite edges_at_cons by (done || lia). destruct (decide (x - start < Z.of_nat c)) as [Hlt|Hge].
  - assert (filter (λ e, e_from e = x) (stored_edges (start + Z.of_nat c) counts A) = []) as ->; [|by rewrite app_nil_r].
    assert (∀ s A', x < s → filter (λ e, e_from e = x) (stored_edges s counts A') = []) as Hnil; [|apply Hnil; lia]. clear. induction counts as [|c counts IH]; intros s A' Hs; [done|].
    destruct A' as [|a A']; [done|]. cbn [stored_edges]. rewrite filter_app, from_group, decide_False, IH by lia. done.
  - rewrite IH by (done || lia). rewrite lookup_ge_None_2 by lia. cbn. by replace (x - (start + Z.of_nat c)) with (x - start - Z.of_nat c) by lia.
Qed.

Lemma scan_of_node self fc Ao x : Forall2 (λ c (a : adjacency), (length a ≤ c)%nat) fc Ao → 0 ≤ x →
  filter (λ e, e_from e = x) (filter (visible self) (stored_edges 0 fc Ao ++ buffered_edges self)) =
  orient Out x <$> seen_edges self Out x (edges_at fc Ao x ++ buffered_at self Out x).
Proof.
  intros HA Hx. assert (filter (λ e, e_from e = x) (stored_edges 0 fc Ao ++ buffered_edges self) = orient Out x <$> (edges_at fc Ao x ++ buffered_at self Out x)) as Hall.
  { rewrite filter_app, from_stored, Z.sub_0_r, fmap_app by done. f_equal. unfold buffered_at. induction (buffered_edges self) as [|e l IH]; [done|]. rewrite filter_cons, IH. cbn [omap list_omap].
    unfold grouped_of. destruct (Z.eqb_spec (e_from e) x) as [<-|Hne]; [|by rewrite decide_False]. rewrite decide_True by done. rewrite fmap_cons. f_equal. by destruct e. }
  rewrite list_filter_filter, (list_filter_iff _ (λ e, visible self e ∧ e_from e = x)) by naive_solver. rewrite <- list_filter_filter, Hall.
  clear Hall. induction (edges_at fc Ao x ++ buffered_at self Out x) as [|e l IH]; [unfold seen_edges; by destruct (grouped_endpoint_is_tombstoned _ _ _)|].
  rewrite fmap_cons, filter_cons, IH. clear IH. assert (visible self (orient Out x e) ↔ grouped_endpoint_is_tombstoned self Out x || neighbor_is_tombstoned self Out e.1 = false) as Hv by done.
  unfold seen_edges. rewrite filter_cons. destruct (grouped_endpoint_is_tombstoned self Out x), (neighbor_is_tombstoned self Out e.1); cbn [orb] in Hv; destruct (decide (visible self (orient Out x e))); naive_solver.
Qed.

(** C8: A drained relationship scan yields every visible edge once, in storage
    order and then in insertion order, and agrees with the traversals: the
    outgoing edges of any node, with their properties, are the scanned edges that
    start there, in the scan's order.  The scan ends: fuel for one more step than
    there are edges is enough for every loop of the cursor. *)
Theorem scan_is_traversals self w c fc tc Ao Ai fuel :
  rel_stored w c (rt_schema self) fc tc Ao Ai → (length (stored_edges 0 fc Ao) + length (buffered_edges self) < fuel)%nat →
  ∃ edges, rel_scan fuel self w c = Ok edges ∧
    edges = filter (visible self) (stored_edges 0 fc Ao ++ buffered_edges self) ∧
    ∀ x, 0 ≤ x → neighbors_with_properties self w c Out x = Ok (filter (λ e, e_from e = x) edges).
Proof.
  intros Hrs Hf. eexists. split; [apply (rel_scan_ok self w c fc tc Ao Ai fuel Hrs); rewrite length_app; lia|]. split; [done|]. intros x Hx.
  rewrite (properties_read self w c fc tc Ao Ai Out x Hrs eq_refl Hx). unfold edge_answer. f_equal. symmetry. apply scan_of_node; [|done].
  destruct (rs_out _ _ _ _ _ _ _ Hrs) as (Hl & _ & Hall). apply Forall2_same_length_lookup_2; [done|]. intros i k a Hk Ha. by apply (Hall i k a Hk Ha).
Qed.

End Scan.

Lemma scan_is_traversals_witness :
  ∃ edges, rel_scan 5 ex_rel ex_mem ex_old = Ok edges ∧ edges = [mkRelEdge 0 2 [Int64 6]; mkRelEdge 2 0 [Int64 7]; mkRelEdge 2 3 [Int64 8]] ∧
    neighbors_with_properties ex_rel ex_mem ex_old Out 2 = Ok [mkRelEdge 2 0 [Int64 7]; mkRelEdge 2 3 [Int64 8]].
Proof.
  destruct (scan_is_traversals ex_rel ex_mem ex_old [3%nat] [3%nat] [ex_out] [ex_in] 5) as (edges & H1 & H2 & H3).
  - apply (cr_old _ _ _ _ _ _ _ _ _ _ _ _ _ example_ready).
  - vm_compute. lia.
  - exists edges. split; [exact H1|]. assert (edges = [mkRelEdge 0 2 [Int64 6]; mkRelEdge 2 0 [Int64 7]; mkRelEdge 2 3 [Int64 8]]) as E by (rewrite H2; vm_compute; reflexivity).
    split; [exact E|]. rewrite H3 by lia. rewrite E. vm_compute. reflexivity.
Defined.
