(* ===== verification/RelMerge.v ===== *)
(** A checkpoint of a relationship table without deletions,
    [RelTable::checkpoint] of [devondb-storage/src/rel_table.rs]: the buffered
    edges are merged into the CSR groups, and no read can tell. *)

From stdpp Require Import gmap.
From S2P Require Import Prelude Bytes Types Schema Catalog Overlay Csr CsrCodec RelTable RelRemap RelRebuild RelCheckpoint.

Section Merge.
Context {W : Type} `{CS : CsrStore W} `{SZ : Sizes}.

(** ** One group *)

(** A group of [rows] slots: the stored edges, then the added ones. *)
Definition merged (rows : nat) (a : adjacency) (added : list (nat * edge)) : adjacency := add_edges (replicate rows []) (slotted 0 a ++ added).

Definition pending (p : PendingEdge) : nat * edge := (p_slot p, (p_neighbor p, p_values p)).

Lemma merged_slot rows a added slot : (slot < rows)%nat → merged rows a added !! slot = Some (default [] (a !! slot) ++ at_slot slot added).
Proof.
  intros Hs. unfold merged. rewrite (add_edges_lookup _ _ _ []) by by apply lookup_replicate. rewrite at_slot_app, at_slot_slotted by lia. by rewrite Nat.sub_0_r.
Qed.

Lemma concat_replicate_nil rows : concat (replicate rows ([] : list edge)) = [].
Proof. by induction rows. Qed.

(** What is added lies in the group and has the table's types. *)
Definition fits (types : list LogicalType) (rows : nat) (n : Z) (x : nat * edge) : Prop := (x.1 < rows)%nat ∧ edge_ok types x.2 ∧ 0 ≤ x.2.1 < n.

Lemma slotted_fits types n a rows : (length a ≤ rows)%nat → Forall (edge_ok types) (concat a) → Forall (λ e : edge, 0 ≤ e.1 < n) (concat a) → Forall (fits types rows n) (slotted 0 a).
Proof.
  intros Hl Ho Hn. assert (∀ k, Forall (λ x : nat * edge, (k ≤ x.1 < k + length a)%nat ∧ edge_ok types x.2 ∧ 0 ≤ x.2.1 < n) (slotted k a)) as Hall.
  { clear Hl. induction a as [|l a IH]; intros k; [constructor|]. cbn [concat] in *. apply Forall_app in Ho as [Ho1 Ho2], Hn as [Hn1 Hn2]. rewrite slotted_cons. apply Forall_app. split.
    - apply Forall_fmap, Forall_forall. intros e He. rewrite Forall_forall in Ho1, Hn1. simpl. split; [lia|]. split; [by apply Ho1|by apply Hn1].
    - eapply Forall_impl; [by apply IH|]. intros x (? & ?). simpl. split; [lia|done]. }
  eapply Forall_impl; [apply Hall|]. intros x (? & ? & ?). split; [lia|done].
Qed.

Lemma merged_facts types rows n a added : Forall (fits types rows n) (slotted 0 a ++ added) →
  length (merged rows a added) = rows ∧ length (concat (merged rows a added)) = (length (concat a) + length added)%nat ∧
  Forall (edge_ok types) (concat (merged rows a added)) ∧ Forall (λ e : edge, 0 ≤ e.1 < n) (concat (merged rows a added)).
Proof.
  intros Hf. unfold merged. split; [by rewrite length_add_edges, length_replicate|]. split; [|split].
  - rewrite length_concat_adds, concat_replicate_nil, length_app, length_slotted; [done|]. rewrite length_replicate. eapply Forall_impl; [exact Hf|]. by intros x (? & _).
  - apply add_edges_all; [by rewrite concat_replicate_nil|]. eapply Forall_impl; [exact Hf|]. by intros x (_ & ? & _).
  - apply add_edges_all; [by rewrite concat_replicate_nil|]. eapply Forall_impl; [exact Hf|]. by intros x (_ & _ & ?).
Qed.

Lemma merge_loop types rows a added : Forall (λ x : nat * edge, (x.1 < rows)%nat ∧ edge_ok types x.2) (slotted 0 a ++ (pending <$> added)) →
  Z.of_nat (length (concat a) + length added) < 2 ^ 32 →
  for_each added (csr_of types (merged rows a [])) push_pending = Ok (csr_of types (merged rows a (pending <$> added))).
Proof.
  intros Hf Hlen. apply Forall_app in Hf as [Ha Hb]. unfold merged. rewrite app_nil_r, add_edges_app.
  assert (∀ g, for_each added g push_pending = for_each (pending <$> added) g (λ g x, push_edge g x.1 x.2.1 x.2.2)) as ->.
  { induction added as [|p l IH]; intros g; [done|]. rewrite fmap_cons. cbn [for_each]. apply bind_ext. intros g'. apply IH; [by apply Forall_cons in Hb as [_ Hb]|simpl in *; lia]. }
  apply push_all_spec.
  - rewrite length_add_edges, length_replicate. exact Hb.
  - rewrite length_concat_adds, concat_replicate_nil, length_slotted, length_fmap; [simpl; lia|]. rewrite length_replicate. eapply Forall_impl; [exact Ha|]. by intros x [? _].
Qed.

Lemma set_group_stored ids g page i : page ≠ 0 → stored_group_id (set_group_id ids g page) i = if decide (i = g) then Some page else stored_group_id ids i.
Proof.
  intros Hp. unfold stored_group_id, set_group_id. set (long := ids ++ replicate (g + 1 - length ids) 0). assert (g < length long)%nat as Hg by (unfold long; rewrite length_app, length_replicate; lia).
  destruct (decide (i = g)) as [->|Hne].
  - rewrite list_lookup_insert_eq by done. cbn. by rewrite (proj2 (Z.eqb_neq _ _) Hp).
  - rewrite list_lookup_insert_ne by done. unfold long. destruct (decide (i < length ids)%nat) as [Hi|Hi]; [by rewrite lookup_app_l|]. rewrite lookup_app_r by lia.
    rewrite (lookup_ge_None_2 ids) by lia. cbn. destruct (replicate _ 0 !! _) as [z|] eqn:Hz; [|done]. by apply lookup_replicate in Hz as [-> _].
Qed.

Lemma length_set_group ids g page : length (set_group_id ids g page) = Nat.max (length ids) (g + 1).
Proof. unfold set_group_id. rewrite length_insert, length_app, length_replicate. lia. Qed.

Lemma merge_group_ok w types counts n ids A room cap g rows a added :
  dir_stored w types counts n ids A → counts !! g = Some rows → A !! g = Some a → added ≠ [] → Forall (fits types rows n) (pending <$> added) → n ≤ 2 ^ 64 →
  (Z.of_nat rows + 1) * 4 < 2 ^ 32 → Z.of_nat (length (concat a) + length added) * 8 < 2 ^ 32 → columns_good types (merged rows a (pending <$> added)) →
  roomy types cap (S room) w →
  ∃ ids' w', merge_group types (layout_of counts) n ids (g, added) w = (Ok ids', w') ∧ store_le w w' ∧ roomy types cap room w' ∧
    dir_stored w' types counts n ids' (<[g := merged rows a (pending <$> added)]> A).
Proof.
  intros Hst Hc Ha Hne Hfit Hn Hrows Hedges Hcols Hr. pose proof Hst as (HlA & Hids & Hall). destruct (Hall g rows a Hc Ha) as (Hla & Hnb & Hs).
  assert (Forall (edge_ok types) (concat a)) as Hok by (destruct (stored_group_id ids g); [apply Hs|by rewrite Hs]).
  assert (Forall (fits types rows n) (slotted 0 a ++ (pending <$> added))) as Hfits by (apply Forall_app; split; [by apply slotted_fits|done]).
  assert (0 < length added)%nat as Hpos by (destruct added; [done|simpl; lia]). assert (0 < rows)%nat as Hr0.
  { destruct added as [|p added]; [done|]. apply Forall_cons in Hfit as [[? _] _]. lia. }
  unfold merge_group. unfold sbind at 1, slift at 1, index at 1. cbn [layout_of row_counts]. rewrite Hc. cbn [expect]. unfold sbind at 1. unfold sbind at 1, slift at 1.
  set (existing := match stored_group_id ids g with Some _ => Some (csr_of types a) | None => None end).
  assert ((match stored_group_id ids g with
    | Some page_id => let! group := csr_read_checked w page_id types n in let! _ := validate_csr_row_count group rows in Ok (Some group)
    | None => Ok None end) = Ok existing) as ->.
  { unfold existing. destruct (stored_group_id ids g) as [id|]; [|done]. destruct Hs as [Hat _]. rewrite (csr_at_reads _ _ _ _ _ Hat (neighbors_below n types a Hnb)). cbn [bind].
    unfold validate_csr_row_count. by rewrite csr_of_rows, (proj2 (Nat.ltb_ge _ _)) by done. }
  unfold sbind at 1, slift at 1. rewrite csr_new_spec by lia. unfold sbind at 1, slift at 1.
  assert (match existing with Some group => copy_existing_edges group (csr_of types (replicate rows [])) | None => Ok (csr_of types (replicate rows [])) end = Ok (csr_of types (merged rows a []))) as ->.
  { unfold existing, merged. rewrite app_nil_r. destruct (stored_group_id ids g); [by rewrite copy_existing_spec by (done || lia)|].
    assert (slotted 0 a = []) as -> by (apply length_zero_iff_nil; by rewrite length_slotted, Hs). done. }
  unfold sbind at 1, slift at 1. rewrite merge_loop; [|eapply Forall_impl; [exact Hfits|]; by intros x (? & ? & _)|lia].
  destruct (merged_facts types rows n a _ Hfits) as (M1 & M2 & M3 & M4). rewrite length_fmap in M2. set (mg := merged rows a (pending <$> added)) in *.
  assert (group_good types mg) as Hgood.
  { unfold group_good. rewrite M1, M2. split; [done|]. split; [done|]. split; [lia|]. split; [done|]. split; [|done]. eapply Forall_impl; [exact M4|]. intros e He. simpl in He. unfold in_u. lia. }
  destruct (roomy_writes types cap room mg w Hr Hgood) as (id & w' & Hw & Hr'). unfold sbind at 1. rewrite Hw. pose proof (csr_write_keeps _ _ _ _ Hw) as Hle.
  destruct (csr_write_at _ _ _ _ _ Hgood Hw) as [Hid Hat]. exists (set_group_id ids g id), w'. split; [done|]. split; [exact Hle|]. split; [done|].
  pose proof (lookup_lt_Some _ _ _ Hc). split; [by rewrite length_insert|]. split; [rewrite length_set_group; lia|]. intros i c a' Hi Ha'. unfold group_stored. rewrite set_group_stored by done.
  destruct (decide (i = g)) as [->|Hne']. 
  - rewrite list_lookup_insert_eq in Ha' by lia. injection Ha' as <-. rewrite Hc in Hi. injection Hi as <-. split; [lia|]. split; [exact M4|done].
  - rewrite list_lookup_insert_ne in Ha' by done. apply (dir_stored_le _ _ _ _ _ _ _ Hle Hst); done.
Qed.

(** ** Group after group *)

(** The additions to one group fit it, and the merged group can be persisted. *)
Definition mergeable (types : list LogicalType) (counts : list nat) (n : Z) (A : list adjacency) (entry : nat * list PendingEdge) : Prop :=
  ∃ rows a, counts !! entry.1 = Some rows ∧ A !! entry.1 = Some a ∧ entry.2 ≠ [] ∧ Forall (fits types rows n) (pending <$> entry.2) ∧
    (Z.of_nat rows + 1) * 4 < 2 ^ 32 ∧ Z.of_nat (length (concat a) + length entry.2) * 8 < 2 ^ 32 ∧ columns_good types (merged rows a (pending <$> entry.2)).

Definition added_at (g slot : nat) (entries : list (nat * list PendingEdge)) : list edge :=
  entries ≫= λ entry, if decide (entry.1 = g) then at_slot slot (pending <$> entry.2) else [].

Lemma merge_entries types counts n cap room entries : ∀ w ids A, dir_stored w types counts n ids A → n ≤ 2 ^ 64 → NoDup entries.*1 →
  Forall (mergeable types counts n A) entries → roomy types cap (length entries + room) w →
  ∃ ids' A' w', sfor entries ids (merge_group types (layout_of counts) n) w = (Ok ids', w') ∧ store_le w w' ∧ roomy types cap room w' ∧
    dir_stored w' types counts n ids' A' ∧ ∀ x g slot, lies counts x g slot → edges_at counts A' x = edges_at counts A x ++ added_at g slot entries.
Proof.
  induction entries as [|[g added] entries IH]; intros w ids A Hst Hn Hnd Hm Hr.
  { exists ids, A, w. split; [done|]. split; [done|]. split; [done|]. split; [done|]. intros x g slot _. by rewrite app_nil_r. }
  apply NoDup_cons in Hnd as [Hg Hnd]. apply Forall_cons in Hm as [(rows & a & Hc & Ha & Hne & Hfit & B1 & B2 & Hcols) Hm]. cbn [fst snd] in *. cbn [sfor].
  destruct (merge_group_ok w types counts n ids A (length entries + room) cap g rows a added Hst Hc Ha Hne Hfit Hn B1 B2 Hcols Hr) as (ids1 & w1 & E1 & Hle1 & Hr1 & Hst1).
  unfold sbind at 1. rewrite E1. destruct (IH w1 ids1 _ Hst1 Hn Hnd) as (ids2 & A2 & w2 & E2 & Hle2 & Hr2 & Hst2 & Hed); [|exact Hr1|].
  { apply Forall_forall. intros entry He. rewrite Forall_forall in Hm. destruct (Hm entry He) as (rows' & a' & H1 & H2 & H3). exists rows', a'. split; [done|]. split; [|done].
    rewrite list_lookup_insert_ne; [done|]. intros ->. apply Hg. apply list_elem_of_fmap. eauto. }
  exists ids2, A2, w2. split; [done|]. split; [by etrans|]. split; [done|]. split; [done|]. intros x g' slot Hl. rewrite (Hed x g' slot Hl). unfold added_at at 2. cbn [mbind list_bind fst snd].
  fold (added_at g' slot entries). rewrite app_assoc. f_equal. rewrite !(edges_at_lies _ _ _ _ _ Hl). destruct Hl as (c & Hgc & Hslot & _). pose proof (lookup_lt_Some _ _ _ Ha).
  destruct (decide (g = g')) as [->|Hne'].
  - rewrite list_lookup_insert_eq by done. rewrite Ha. cbn. rewrite Hc in Hgc. injection Hgc as <-. by rewrite merged_slot.
  - rewrite list_lookup_insert_ne by done. by rewrite app_nil_r.
Qed.

(** ** One direction *)

Section Direction.
Context (self : RelTable) (direction : Direction) (types : list LogicalType) (counts : list nat) (n : Z).
Context (Hd : direction ≠ Both).

(** Where the merge files an edge. *)
Definition filed (e : Edge) (k : nat * PendingEdge) : Prop :=
  lies counts (grouped_of direction e) k.1 (p_slot k.2) ∧ p_neighbor k.2 = neighbor_of direction e ∧ p_values k.2 = e_values e.

Lemma merge_key_ok e : 0 ≤ grouped_of direction e < rows_of counts → ∃ k, merge_key (layout_of counts) direction e = Ok k ∧ filed e k.
Proof.
  intros Hx. destruct (locate_inside counts _ Hx) as (g & s & Hl & Hlies). unfold grouped_of in Hl, Hx. unfold merge_key, filed.
  destruct direction; [| |done]; rewrite Hl; cbn [bind ok_or]; (eexists; split; [done|]; split; [exact Hlies|done]).
Qed.

Lemma merge_keys_ok edges : Forall (λ e, 0 ≤ grouped_of direction e < rows_of counts) edges →
  ∃ keyed, collect (merge_key (layout_of counts) direction) edges = Ok keyed ∧ Forall2 filed edges keyed.
Proof.
  intros He. assert (∀ e, e ∈ edges → ∃ k, merge_key (layout_of counts) direction e = Ok k ∧ filed e k) as Hall by (intros e Hin; rewrite Forall_forall in He; by apply merge_key_ok, He).
  apply Forall_forall, Forall_exists_Forall2_l in Hall as [keyed Hk]. exists keyed. split.
  - apply collect_Ok. eapply Forall2_impl; [exact Hk|]. by intros e k [? _].
  - eapply Forall2_impl; [exact Hk|]. by intros e k [_ ?].
Qed.

Definition keyed_to (g : nat) (keyed : list (nat * PendingEdge)) : list PendingEdge := omap (λ x, if decide (x.1 = g) then Some x.2 else None) keyed.

Lemma additions_elem m keyed entry : entry ∈ additions_by_group m keyed → (entry.1 < m)%nat ∧ entry.2 = keyed_to entry.1 keyed ∧ entry.2 ≠ [].
Proof.
  unfold additions_by_group. rewrite list_elem_of_omap. intros (g & Hg & He). apply elem_of_seq in Hg. fold (keyed_to g keyed) in He.
  destruct (keyed_to g keyed) as [|p l] eqn:Hk; [done|]. injection He as <-. cbn [fst snd]. rewrite Hk. split; [lia|done].
Qed.

Lemma additions_NoDup m keyed : NoDup (additions_by_group m keyed).*1.
Proof.
  unfold additions_by_group. assert (∀ k, Forall (λ x, (k ≤ x)%nat) (omap (λ g, match keyed_to g keyed with [] => None | l => Some (g, l) end) (seq k m)).*1 ∧
    NoDup (omap (λ g, match keyed_to g keyed with [] => None | l => Some (g, l) end) (seq k m)).*1) as H; [|apply (H 0%nat)].
  induction m as [|m IH]; intros k; [split; constructor|]. destruct (IH (S k)) as [Hall Hnd]. cbn [seq omap list_omap].
  assert (Forall (λ x, (k ≤ x)%nat) (omap (λ g, match keyed_to g keyed with [] => None | l => Some (g, l) end) (seq (S k) m)).*1) as Hall' by (eapply Forall_impl; [exact Hall|]; simpl; lia).
  destruct (keyed_to k keyed); [done|]. rewrite fmap_cons. cbn [fst]. split; [by constructor|]. constructor; [|done]. intros Hin. rewrite Forall_forall in Hall. specialize (Hall k Hin). simpl in Hall. lia.
Qed.

Lemma added_at_keyed m keyed g slot : (g < m)%nat → added_at g slot (additions_by_group m keyed) = at_slot slot (pending <$> keyed_to g keyed).
Proof.
  intros Hg.
  assert (∀ k, added_at g slot (omap (λ g, match keyed_to g keyed with [] => None | l => Some (g, l) end) (seq k m)) =
    if decide (k ≤ g < k + m)%nat then at_slot slot (pending <$> keyed_to g keyed) else []) as H; [|etrans; [exact (H 0%nat)|by rewrite decide_True by lia]].
  clear Hg. induction m as [|m IH]; intros k; [by rewrite decide_False by lia|]. cbn [seq omap list_omap]. specialize (IH (S k)). destruct (decide (k = g)) as [->|Hne].
  - rewrite (decide_False (P := (S g ≤ g < S g + m)%nat)) in IH by lia. rewrite decide_True by lia. destruct (keyed_to g keyed) as [|p l]; [done|].
    unfold added_at in *. cbn [mbind list_bind fst snd]. rewrite decide_True by done. by rewrite IH, app_nil_r.
  - destruct (keyed_to k keyed) as [|p l].
    + rewrite IH. destruct (decide (S k ≤ g < S k + m)%nat), (decide (k ≤ g < k + S m)%nat); (done || lia).
    + unfold added_at in *. cbn [mbind list_bind fst snd]. rewrite decide_False by done. cbn [app]. rewrite IH. destruct (decide (S k ≤ g < S k + m)%nat), (decide (k ≤ g < k + S m)%nat); (done || lia).
Qed.

(** What is filed under a node is what is buffered for it. *)
Lemma filed_at edges keyed x g slot : Forall2 filed edges keyed → lies counts x g slot →
  at_slot slot (pending <$> keyed_to g keyed) = omap (λ e, if grouped_of direction e =? x then Some (neighbor_of direction e, e_values e) else None) edges.
Proof.
  intros Hf Hl. induction Hf as [|e k edges keyed (H1 & H2 & H3) _ IH]; [done|]. unfold keyed_to in *. cbn [omap list_omap].
  assert (k.1 = g ∧ p_slot k.2 = slot ↔ grouped_of direction e = x) as Hiff.
  { split; [intros [<- <-]|intros Hx; rewrite Hx in H1; by apply (lies_unique counts x)]. destruct H1 as (c & Hc & _ & ->), Hl as (c' & _ & _ & ->). done. }
  destruct (Z.eqb_spec (grouped_of direction e) x) as [Hx|Hx].
  - destruct (proj2 Hiff Hx) as [Eg Es]. rewrite decide_True by done. rewrite fmap_cons. unfold at_slot in *. cbn [omap list_omap pending fst snd]. rewrite decide_True by done. by rewrite IH, H2, H3.
  - destruct (decide (k.1 = g)) as [Eg|]; [|exact IH]. rewrite fmap_cons. unfold at_slot in *. cbn [omap list_omap pending fst snd]. rewrite decide_False by naive_solver. exact IH.
Qed.

(** The additions to group [g], each with its slot. *)
Definition group_additions (g : nat) : list (nat * edge) :=
  omap (λ e, match locate (layout_of counts) (grouped_of direction e) with
    | Ok (Some (g', s)) => if decide (g' = g) then Some (s, (neighbor_of direction e, e_values e)) else None
    | _ => None end) (buffered_edges self).

Lemma filed_additions keyed g : Forall2 filed (buffered_edges self) keyed → pending <$> keyed_to g keyed = group_additions g.
Proof.
  unfold group_additions, keyed_to. induction 1 as [|e k edges keyed (H1 & H2 & H3) _ IH]; [done|]. cbn [omap list_omap]. rewrite (lies_locate _ _ _ _ H1).
  destruct (decide (k.1 = g)); [|exact IH]. rewrite fmap_cons, IH. f_equal. unfold pending. by rewrite H2, H3.
Qed.

(** Every group that gets an edge has payloads within [u32] afterwards. *)
Definition merge_ready (A : list adjacency) : Prop := ∀ g rows a, counts !! g = Some rows → A !! g = Some a → group_additions g ≠ [] →
  (Z.of_nat rows + 1) * 4 < 2 ^ 32 ∧ Z.of_nat (length (concat a) + length (group_additions g)) * 8 < 2 ^ 32 ∧ columns_good types (merged rows a (group_additions g)).

Definition edges_placed : Prop :=
  Forall (λ e, 0 ≤ grouped_of direction e < rows_of counts ∧ 0 ≤ neighbor_of direction e < n ∧ Forall2 (λ v ty, matches_type v ty = true) (e_values e) types) (buffered_edges self).

Lemma additions_fit g rows : edges_placed → counts !! g = Some rows → Forall (fits types rows n) (group_additions g).
Proof.
  intros He Hr. apply Forall_forall. intros x. unfold group_additions. rewrite list_elem_of_omap. intros (e & Hin & Hx). unfold edges_placed in He. rewrite Forall_forall in He. destruct (He e Hin) as (H1 & H2 & H3).
  destruct (locate_inside counts _ H1) as (g' & s & Hl & (c & Hc & Hs & _)). rewrite Hl in Hx. destruct (decide (g' = g)) as [->|]; [|done]. injection Hx as <-.
  rewrite Hr in Hc. injection Hc as <-. split; [exact Hs|]. split; [exact H3|exact H2].
Qed.

Lemma length_additions m keyed : (length (additions_by_group m keyed) ≤ m)%nat.
Proof. unfold additions_by_group. etrans; [apply length_omap_le|by rewrite length_seq]. Qed.

Lemma roomy_le cap k k' w : (k' ≤ k)%nat → roomy types cap k w → roomy types cap k' w.
Proof. induction 1 as [|k _ IH]; [done|]. intros Hr. by apply IH, roomy_less. Qed.

Lemma merge_direction_ok w ids A cap room : dir_stored w types counts n ids A → n ≤ 2 ^ 64 → edges_placed → merge_ready A → roomy types cap (length counts + room) w →
  ∃ ids' A' w', merge_direction ids (layout_of counts) n types (buffered_edges self) direction w = (Ok ids', w') ∧ store_le w w' ∧ roomy types cap room w' ∧
    dir_stored w' types counts n ids' A' ∧ ∀ x, 0 ≤ x → edges_at counts A' x = edges_at counts A x ++ buffered_at self direction x.
Proof.
  intros Hst Hn He Hready Hr. pose proof Hst as (HlA & _). destruct (merge_keys_ok (buffered_edges self)) as (keyed & Hk & Hf).
  { eapply Forall_impl; [exact He|]. by intros e (? & _). }
  unfold merge_direction. unfold sbind at 1, slift at 1. rewrite Hk. cbn [layout_of row_counts]. pose proof (length_additions (length counts) keyed) as Hlen.
  destruct (merge_entries types counts n cap room (additions_by_group (length counts) keyed) w ids A Hst Hn (additions_NoDup _ _)) as (ids' & A' & w' & E & Hle & Hr' & Hst' & Hed).
  { apply Forall_forall. intros [g added] (Hg & Ea & Hne)%additions_elem. cbn [fst snd] in *. subst added. destruct (lookup_lt_is_Some_2 counts g Hg) as [rows Hrows]. destruct (lookup_lt_is_Some_2 A g) as [a Ha]; [lia|].
    pose proof (filed_additions keyed g Hf) as Hadd. assert (group_additions g ≠ []) as Hne' by (rewrite <- Hadd; by destruct (keyed_to g keyed)).
    destruct (Hready g rows a Hrows Ha Hne') as (R1 & R2 & R3). exists rows, a. cbn [fst snd]. rewrite Hadd. rewrite <- Hadd, length_fmap in R2. split_and!; try done. by apply additions_fit. }
  { eapply roomy_le; [|exact Hr]. lia. }
  exists ids', A', w'. split; [exact E|]. split; [done|]. split; [done|]. split; [done|]. intros x Hx. destruct (decide (x < rows_of counts)) as [Hlt|Hge].
  - destruct (locate_inside counts x ltac:(lia)) as (g & s & _ & Hl). rewrite (Hed x g s Hl). f_equal. pose proof Hl as (c & Hc & _). apply lookup_lt_Some in Hc.
    rewrite added_at_keyed by done. by apply filed_at.
  - rewrite !edges_at_outside by lia. unfold buffered_at. symmetry. cbn [app]. clear -He Hge. induction He as [|e l (H & _) _ IH]; [done|]. cbn [omap list_omap].
    rewrite (proj2 (Z.eqb_neq _ _)) by lia. exact IH.
Qed.

End Direction.

(** ** The checkpoint *)

Lemma placed_offsets edges fc tc : Forall (λ e, 0 ≤ e_from e < rows_of fc ∧ 0 ≤ e_to e < rows_of tc) edges → validate_buffered_offsets edges (layout_of fc) (layout_of tc) = Ok tt.
Proof.
  unfold validate_buffered_offsets. induction 1 as [|e l [H1 H2] _ IH]; [done|]. cbn [for_each layout_of total_rows]. rewrite !(proj2 (Z.leb_gt _ _)) by lia. exact IH.
Qed.

(** The reads of a table whose buffered edges are stored. *)
Lemma answers_stored self fc tc Ao Ai Ao' Ai' direction x (self' := mkRelTable (rt_schema self) [] (endpoint_tombstones self)) :
  edges_at fc Ao' x = edges_at fc Ao x ++ buffered_at self Out x → edges_at tc Ai' x = edges_at tc Ai x ++ buffered_at self In x →
  answer self' fc tc Ao' Ai' direction x = answer self fc tc Ao Ai direction x ∧ edge_answer self' fc tc Ao' Ai' direction x = edge_answer self fc tc Ao Ai direction x.
Proof.
  intros Ho Hi. unfold answer, edge_answer. cbv zeta. assert (∀ d, buffered_at self' d x = []) as Hb by done. rewrite !Hb, Ho, Hi, !fmap_app, !buffered_at_fst by done.
  cbn [buffered_edges self' omap list_omap]. by rewrite !app_nil_r.
Qed.

(** A checkpoint without deletions can be run. *)
Record merge_checkpoint_ready (self : RelTable) (w : W) (c : Catalog) (cap : Z) (fc tc : list nat) (Ao Ai : list adjacency) : Prop := {
  mc_stored : rel_stored w c (rt_schema self) fc tc Ao Ai;
  mc_catalog : catalog_ok c;
  mc_edges : edges_placed self Out (schema_types (rt_schema self)) fc (rows_of tc);
  mc_out : merge_ready self Out (schema_types (rt_schema self)) fc Ao;
  mc_in : merge_ready self In (schema_types (rt_schema self)) tc Ai;
  mc_roomy : roomy (schema_types (rt_schema self)) cap (length fc + length tc) w;
}.

(** C7: A checkpoint without deletions files every buffered edge and empties the
    buffer, and no read can tell: for every node and direction, neighbors and
    edges with their properties are the same lists after it as before, tombstones
    still applied. *)
Theorem merge_keeps_reads self w c cap fc tc Ao Ai (self' := mkRelTable (rt_schema self) [] (endpoint_tombstones self)) :
  merge_checkpoint_ready self w c cap fc tc Ao Ai →
  ∃ w' c', rel_checkpoint self c w = (Ok (self', c'), w') ∧
    ∀ direction x, validate_direction (rt_schema self) direction = Ok tt → 0 ≤ x →
      (∃ l, rel_neighbors self w c direction x = Ok l ∧ rel_neighbors self' w' c' direction x = Ok l) ∧
      (∃ l, neighbors_with_properties self w c direction x = Ok l ∧ neighbors_with_properties self' w' c' direction x = Ok l).
Proof.
  intros [Hrs Hok He Ro Ri Hr]. unfold rel_checkpoint. destruct (decide (buffered_edges self = [])) as [Hnil|Hne].
  { rewrite bool_decide_eq_true_2 by done. exists w, c. assert (self' = self) as -> by (unfold self'; destruct self; simpl in *; by subst). split; [done|]. intros direction x Hv Hx.
    rewrite (neighbors_read self w c fc tc Ao Ai), (properties_read self w c fc tc Ao Ai) by done. split; eexists; by split. }
  rewrite bool_decide_eq_false_2 by done. pose proof Hrs as [Hs Hf Ht Ho Hi]. unfold sbind at 1, slift at 1, ensure_rel_schema at 1. rewrite Hs. cbn [ok_or bind]. rewrite bool_decide_eq_true_2 by done.
  unfold sbind at 1. unfold sbind at 1, slift at 1. rewrite (endpoint_layout_ok _ _ _ _ Hf). unfold sbind at 1, slift at 1. rewrite (endpoint_layout_ok _ _ _ _ Ht).
  unfold sbind at 1, slift at 1. rewrite placed_offsets by (eapply Forall_impl; [exact He|]; by intros e (? & ? & _)). unfold sbind at 1, slift at 1.
  set (o := rel_storage c (rel_name (rt_schema self))) in *. destruct (storage_default o) as [Hfwd Hbwd]. set (s := default _ o) in *.
  assert (validate_storage_lengths s (layout_of fc) (layout_of tc) = Ok tt) as ->.
  { unfold validate_storage_lengths. cbn [layout_of row_counts]. rewrite Hfwd, Hbwd. destruct Ho as (_ & Ho & _), Hi as (_ & Hi & _). by rewrite !(proj2 (Nat.ltb_ge _ _)) by done. }
  change (total_rows (layout_of tc)) with (rows_of tc). change (total_rows (layout_of fc)) with (rows_of fc). rewrite Hfwd, Hbwd.
  assert (rows_of fc ≤ 2 ^ 64 ∧ rows_of tc ≤ 2 ^ 64) as [Mf Mt] by (destruct Hf as (_ & _ & _ & ?), Ht as (_ & _ & _ & ?); lia).
  destruct (merge_direction_ok self Out _ fc (rows_of tc) ltac:(done) w (fwd_ids o) Ao cap (length tc) Ho Mt He Ro Hr) as (fw & Ao' & w1 & E1 & L1 & R1 & S1 & X1).
  unfold sbind at 1. rewrite E1. assert (edges_placed self In (schema_types (rt_schema self)) tc (rows_of fc)) as He' by (eapply Forall_impl; [exact He|]; intros e (? & ? & ?); split; [done|]; by split).
  destruct (merge_direction_ok self In _ tc (rows_of fc) ltac:(done) w1 (bwd_ids o) Ai cap 0 (dir_stored_le _ _ _ _ _ _ _ L1 Hi) Mf He' Ri) as (bw & Ai' & w2 & E2 & L2 & _ & S2 & X2); [by rewrite Nat.add_0_r|].
  unfold sbind at 1. rewrite E2. destruct (set_rel_ok c (rel_name (rt_schema self)) (rt_schema self) (mkRelStorage fw bw) Hok Hs) as (c' & E3 & B3 & S3). unfold sbind, slift, sret. rewrite E3.
  exists w2, c'. split; [done|]. assert (store_le w w2) as L by (by etrans). assert (rel_stored w2 c' (rt_schema self') fc tc Ao' Ai') as Hrs'.
  { split; [by rewrite (proj1 (cat_but_table _ _ _ _ B3))|by eapply endpoint_counts_le|by eapply endpoint_counts_le| |]; unfold self'; cbn [rt_schema]; rewrite S3; [eapply dir_stored_le; [exact L2|exact S1]|exact S2]. }
  intros direction x Hv Hx. destruct (answers_stored self fc tc Ao Ai Ao' Ai' direction x (X1 x Hx) (X2 x Hx)) as [EA EE].
  rewrite (neighbors_read self w c fc tc Ao Ai), (properties_read self w c fc tc Ao Ai) by done. rewrite (neighbors_read self' w2 c' fc tc Ao' Ai'), (properties_read self' w2 c' fc tc Ao' Ai') by done.
  fold self' in EA, EE. rewrite EA, EE. split; eexists; by split.
Qed.

End Merge.

(** The example of [RelCheckpoint.v], with an edge between stored nodes. *)
Definition merge_rel : RelTable := mkRelTable ex_knows [mkRelEdge 2 1 [Int64 9]] (mkTombstones {[0]} ∅).

Lemma merge_keeps_reads_witness :
  ∃ w' c', rel_checkpoint merge_rel ex_old ex_mem = (Ok (mkRelTable ex_knows [] (mkTombstones {[0]} ∅), c'), w') ∧
    rel_neighbors merge_rel ex_mem ex_old Out 2 = Ok [0; 1] ∧ rel_neighbors (mkRelTable ex_knows [] (mkTombstones {[0]} ∅)) w' c' Out 2 = Ok [0; 1].
Proof.
  destruct (merge_keeps_reads merge_rel ex_mem ex_old 1000000 [3%nat] [3%nat] [ex_out] [ex_in]) as (w' & c' & Hrun & H).
  - constructor.
    + exact (cr_old _ _ _ _ _ _ _ _ _ _ _ _ _ example_ready).
    + apply catalog_reachable_ok. eapply rtc_l; [eapply (step_add_node _ [80] (node_columns ex_person)); vm_compute; reflexivity|].
      eapply rtc_l; [eapply (step_add_rel _ [75] [80] [80] (rel_columns ex_knows)); vm_compute; reflexivity|].
      eapply rtc_l; [eapply (step_table_storage _ [80] (mkTableStorage [0])); vm_compute; reflexivity|].
      eapply rtc_l; [eapply (step_rel_storage _ [75] (mkRelStorage [1] [2])); vm_compute; reflexivity|]. apply rtc_refl.
    + repeat constructor; vm_compute; (discriminate || reflexivity).
    + intros [|g] rows a; [|done]. intros [= <-] [= <-] _. split; [vm_compute; reflexivity|]. split; [vm_compute; reflexivity|]. apply int_columns_check; computed.
    + intros [|g] rows a; [|done]. intros [= <-] [= <-] _. split; [vm_compute; reflexivity|]. split; [vm_compute; reflexivity|]. apply int_columns_check; computed.
    + vm_compute. discriminate.
  - exists w', c'. split; [exact Hrun|]. destruct (H Out 2) as [(l & H1 & H2) _]; [vm_compute; reflexivity|lia|].
    assert (rel_neighbors merge_rel ex_mem ex_old Out 2 = Ok [0; 1]) as E by (vm_compute; reflexivity). split; [exact E|]. rewrite E in H1. injection H1 as <-. exact H2.
Defined.
