(* ===== verification/NodeTable.v ===== *)
(** Materializing a node table at a checkpoint:
    [devondb-storage/src/node_table.rs] and the row groups of
    [node_group.rs] in memory.

    Persisting and decoding one group is the class [GroupStore]: what
    [NodeGroup::write] and [NodeGroup::read] promise to this component.  The
    theorem is that a checkpoint turns the checkpointed groups plus the commit
    chain into groups that hold exactly the rows the abstract table of
    [Overlay.v] has after the chain. *)

From stdpp Require Import gmap sorting.
From S2P Require Import Prelude Bytes Types Schema TxnLog Catalog Overlay View.

(** ** Groups in memory *)

Definition NODE_GROUP_CAPACITY : nat := 2048.

Record NodeGroup := mkNodeGroup { types : list LogicalType; columns : list (list Value); row_count : nat }.

Definition new_group (ts : list LogicalType) : outcome NodeGroup :=
  if bool_decide (ts = []) then Err (InvalidArgument "a node group must contain at least one column")
  else Ok (mkNodeGroup ts ((λ _, []) <$> ts) 0).

Definition push_row (self : NodeGroup) (r : row) : outcome NodeGroup :=
  if negb (length r =? length (types self))%nat
  then Err (InvalidArgument "row arity mismatch: expected {} values, actual {}") else
  if (NODE_GROUP_CAPACITY <=? row_count self)%nat
  then Err (InvalidArgument "node group is full at capacity {NODE_GROUP_CAPACITY} rows") else
  if negb (forallb (λ vt, matches_type vt.1 vt.2) (zip r (types self)))
  then Err (InvalidArgument "column {index} value {value} does not match expected type {logical_type}") else
  Ok (mkNodeGroup (types self) (zip_with (λ c v, c ++ [v]) (columns self) r) (row_count self + 1)).

Definition group_value (self : NodeGroup) (r c : nat) : option Value := columns self !! c ≫= λ column, column !! r.

Definition group_rows (group : NodeGroup) : outcome (list row) :=
  collect (λ row_index, collect (λ column_index,
    ok_or (group_value group row_index column_index) (Corrupt "node group is missing row {row_index}, column {column_index}"))
    (seq 0 (length (columns group)))) (seq 0 (row_count group)).

(** ** The store of groups *)

(** Vector encodings may round; every other column reads back exactly. *)
Definition exact_type (t : LogicalType) : bool := match t with TVectorEncoded _ _ => false | _ => true end.

(** A group built by [new] and [push_row]: full columns of matching values. *)
Definition group_wf (g : NodeGroup) : Prop :=
  types g ≠ [] ∧ length (columns g) = length (types g) ∧ (row_count g ≤ NODE_GROUP_CAPACITY)%nat ∧
  Forall2 (λ column t, length column = row_count g ∧ Forall (λ v, matches_type v t = true) column) (columns g) (types g).

(** [W] is what the pager reaches.  [NodeGroup::write] and [NodeGroup::read]
    ([node_group.rs]) are code of this repository left out of the model; what
    its callers need of them are the laws.  A group is in use from the write
    that returned its id; only such groups are promised to survive a write,
    since pages outside them may be handed out again.  [NodeGroup::read_column]
    decodes one column and [read_row_count] only the header; both agree with
    [read] where it succeeds.  A healthy store has the page size for groups of
    these column types, and the assumption that it has the room for every
    further one: running out of space is not modelled here. *)
Class GroupStore (W : Type) := {
  group_write : W → NodeGroup → outcome Z * W;
  group_read : W → Z → list LogicalType → outcome NodeGroup;
  group_read_column : W → Z → list LogicalType → nat → outcome (list Value * nat);
  group_row_count : W → Z → nat → outcome nat;
  healthy : list LogicalType → W → Prop;
  in_use : W → Z → Prop;
  write_then_read w g id w' :
    group_wf g → Forall (λ t, exact_type t = true) (types g) →
    group_write w g = (Ok id, w') → in_use w' id ∧ group_read w' id (types g) = Ok g;
  write_keeps w g r w' id :
    group_write w g = (r, w') → in_use w id →
    in_use w' id ∧ ∀ ts g', group_read w id ts = Ok g' → group_read w' id ts = Ok g';
  read_column_agrees w id ts c t g column :
    group_read w id ts = Ok g → ts !! c = Some t → exact_type t = true → columns g !! c = Some column →
    group_read_column w id ts c = Ok (column, row_count g);
  row_count_agrees w id ts g : group_read w id ts = Ok g → group_row_count w id (length ts) = Ok (row_count g);
  write_succeeds w g :
    healthy (types g) w → group_wf g → (0 < row_count g)%nat →
    ∃ id w', group_write w g = (Ok id, w') ∧ healthy (types g) w';
}.

(** ** Effects split by key type *)

Record MaterializationEffects := mkMat {
  int_updates : gmap Z row;
  string_updates : gmap (list Z) row;
  int_tombstones : gset Z;
  string_tombstones : gset (list Z);
}.

Definition mat_update (m : MaterializationEffects) (key : PkKey) (r : row) : MaterializationEffects :=
  match key with
  | PkInt64 key => mkMat (<[key := r]> (int_updates m)) (string_updates m) (int_tombstones m) (string_tombstones m)
  | PkString key => mkMat (int_updates m) (<[key := r]> (string_updates m)) (int_tombstones m) (string_tombstones m)
  end.

Definition mat_tombstone (m : MaterializationEffects) (key : PkKey) : MaterializationEffects :=
  match key with
  | PkInt64 key => mkMat (int_updates m) (string_updates m) ({[key]} ∪ int_tombstones m) (string_tombstones m)
  | PkString key => mkMat (int_updates m) (string_updates m) (int_tombstones m) ({[key]} ∪ string_tombstones m)
  end.

(** [From<NodeDmlEffects>]. *)
Definition mat_from (effects : NodeDmlEffects) : MaterializationEffects :=
  foldl mat_tombstone
    (foldl (λ m '(key, r), mat_update m key r) (mkMat ∅ ∅ ∅ ∅) (map_to_list (updates effects)))
    (elements (tombstones effects)).

Definition bad_key : DevonError := Corrupt "node row primary key must be Int64 or String, found {other}".

Definition take_tombstone (m : MaterializationEffects) (value : Value) : outcome (bool * MaterializationEffects) :=
  match value with
  | Int64 key => Ok (bool_decide (key ∈ int_tombstones m),
      mkMat (int_updates m) (string_updates m) (int_tombstones m ∖ {[key]}) (string_tombstones m))
  | String key => Ok (bool_decide (key ∈ string_tombstones m),
      mkMat (int_updates m) (string_updates m) (int_tombstones m) (string_tombstones m ∖ {[key]}))
  | _ => Err bad_key
  end.

Definition take_update (m : MaterializationEffects) (value : Value) : outcome (option row * MaterializationEffects) :=
  match value with
  | Int64 key => Ok (int_updates m !! key,
      mkMat (base.delete key (int_updates m)) (string_updates m) (int_tombstones m) (string_tombstones m))
  | String key => Ok (string_updates m !! key,
      mkMat (int_updates m) (base.delete key (string_updates m)) (int_tombstones m) (string_tombstones m))
  | _ => Err bad_key
  end.

Record BufferedKeys := mkBuffered { int_keys : gset Z; string_keys : gset (list Z) }.

Definition buffered_insert (self : BufferedKeys) (value : Value) : outcome (bool * BufferedKeys) :=
  match value with
  | Int64 key => Ok (bool_decide (key ∉ int_keys self), mkBuffered ({[key]} ∪ int_keys self) (string_keys self))
  | String key => Ok (bool_decide (key ∉ string_keys self), mkBuffered (int_keys self) ({[key]} ∪ string_keys self))
  | _ => Err bad_key
  end.

Definition buffered_contains (self : BufferedKeys) (value : Value) : bool :=
  match value with
  | Int64 key => bool_decide (key ∈ int_keys self)
  | String key => bool_decide (key ∈ string_keys self)
  | _ => false
  end.

(** ** Applying effects to rows *)

Inductive DeleteCompaction := Permitted | Forbidden.

Definition no_pk_column : DevonError := Corrupt "node row has no primary-key column at index {primary_key_column}".

Definition require_delete_compaction (c : DeleteCompaction) : outcome () :=
  match c with
  | Forbidden => Err (InvalidArgument "delete compaction was not affirmed; reviving an inserted primary key shifts load-bearing node offsets")
  | Permitted => Ok ()
  end.

(** Output rows, [changed], [deleted] and the remaining effects. *)
Definition dml_state : Type := list row * bool * bool * MaterializationEffects.

Definition dml_step (pk : nat) (shadowed : option BufferedKeys) (c : DeleteCompaction) (s : dml_state) (r : row) : outcome dml_state :=
  let '(output, changed, deleted, m) := s in
  let! key := ok_or (r !! pk) no_pk_column in
  if match shadowed with Some keys => buffered_contains keys key | None => false end then
    let! _ := require_delete_compaction c in Ok (output, true, true, m)
  else
    let! (dead, m) := take_tombstone m key in
    if (dead : bool) then Ok (output, true, true, m) else
    let! (replacement, m) := take_update m key in
    match replacement with
    | Some replacement => Ok (output ++ [replacement], true, deleted, m)
    | None => Ok (output ++ [r], changed, deleted, m)
    end.

Definition apply_dml_effects (rows : list row) (pk : nat) (m : MaterializationEffects) (shadowed : option BufferedKeys)
    (c : DeleteCompaction) : outcome dml_state :=
  for_each rows ([], false, false, m) (dml_step pk shadowed c).

(** The loop runs over the rows in reverse; the result is reversed back. *)
Definition normalize_buffered_rows (rows : list row) (pk : nat) : outcome (list row * BufferedKeys) :=
  let! (normalized, keys) := for_each (reverse rows) ([], mkBuffered ∅ ∅) (λ '(normalized, keys) r,
    let! key := ok_or (r !! pk) no_pk_column in
    let! (fresh, keys) := buffered_insert keys key in
    Ok ((if (fresh : bool) then normalized ++ [r] else normalized), keys)) in
  Ok (reverse normalized, keys).

(** ** Row and effect validation *)

Definition validate_row (schema : NodeTableSchema) (r : row) : outcome () :=
  if negb (length r =? length (node_columns schema))%nat
  then Err (InvalidArgument "node table `{}` expects {} columns but row has {} values") else
  if forallb (λ cv, matches_type cv.2 (ty cv.1)) (zip (node_columns schema) r) then Ok ()
  else Err (InvalidArgument "column `{}` in node table `{}` expects {} but received {value}").

Definition primary_key_column (schema : NodeTableSchema) : outcome nat :=
  ok_or (fst <$> list_find (λ c, primary_key c = true) (node_columns schema))
    (Corrupt "node table `{}` has no primary-key column").

Definition key_matches_value (key : PkKey) (value : Value) : bool :=
  match key, value with
  | PkInt64 l, Int64 r => l =? r
  | PkString l, String r => bool_decide (l = r)
  | _, _ => false
  end.

Definition validate_dml_effects (schema : NodeTableSchema) (effects : NodeDmlEffects) (c : DeleteCompaction) : outcome () :=
  if negb (bool_decide (tombstones effects = ∅)) && match c with Forbidden => true | Permitted => false end
  then Err (InvalidArgument "delete compaction for node table `{}` was not affirmed; removing a row may shift load-bearing node offsets") else
  if bool_decide (dom (updates effects) ∩ tombstones effects = ∅) then
    let! pk := primary_key_column schema in
    for_each (map_to_list (updates effects)) () (λ _ '(key, r),
      let! _ := map_err (λ _, Corrupt "checkpoint update for node table `{}` carries an invalid replacement row: {error}")
        (validate_row schema r) in
      let! value := index r pk in
      if key_matches_value key value then Ok ()
      else Err (Corrupt "checkpoint update key {} disagrees with its replacement row in node table `{}`"))
  else Err (Corrupt "node table `{}` has a primary key with both update and delete effects").

Definition ensure_effects_consumed (m : MaterializationEffects) : outcome () :=
  if negb (bool_decide (int_updates m = ∅)) || negb (bool_decide (string_updates m = ∅))
  then Err (Corrupt "checkpoint update for node table `{table}` targets primary key {key} which exists nowhere in persisted or overlay rows") else
  if negb (bool_decide (int_tombstones m = ∅)) || negb (bool_decide (string_tombstones m = ∅))
  then Err (Corrupt "checkpoint delete for node table `{table}` targets primary key {key} which exists nowhere in persisted or overlay rows")
  else Ok ().

Definition validate_group_position (group : NodeGroup) (index group_count : nat) : outcome () :=
  if (index + 1 <? group_count)%nat && (row_count group <? NODE_GROUP_CAPACITY)%nat
  then Err (Corrupt "node group {index} is partial but is not the table's last group") else Ok ().

Definition schema_types (schema : NodeTableSchema) : list LogicalType := ty <$> node_columns schema.

(** ** Writing groups *)

Section store.
Context {W : Type} `{GS : !GroupStore W}.

Local Notation SM := (Prelude.SM W).

Definition read_group (id : Z) (ts : list LogicalType) : SM NodeGroup := λ w, (group_read w id ts, w).
Definition persist_group (g : NodeGroup) : SM Z := λ w, group_write w g.

Definition build_group (ts : list LogicalType) (rows : list row) : outcome NodeGroup :=
  let! g := new_group ts in for_each rows g push_row.

Definition write_group (ts : list LogicalType) (rows : list row) : SM Z :=
  let+ g := slift (build_group ts rows) in persist_group g.

(** [while rows.len() >= NODE_GROUP_CAPACITY]; every round removes a full
    group, so [length rows] rounds are enough. *)
Fixpoint full_groups_loop (rounds : nat) (ts : list LogicalType) (groups : list Z) (rows : list row) : SM (list Z * list row) :=
  if (length rows <? NODE_GROUP_CAPACITY)%nat then sret (groups, rows) else
  match rounds with
  | O => slift Panic
  | S rounds =>
      let+ id := write_group ts (take NODE_GROUP_CAPACITY rows) in
      full_groups_loop rounds ts (groups ++ [id]) (drop NODE_GROUP_CAPACITY rows)
  end.

Definition write_full_groups (ts : list LogicalType) (groups : list Z) (rows : list row) : SM (list Z * list row) :=
  full_groups_loop (length rows) ts groups rows.

Definition write_partial_group (ts : list LogicalType) (groups : list Z) (rows : list row) : SM (list Z) :=
  match rows with
  | [] => sret groups
  | _ => let+ id := write_group ts rows in sret (groups ++ [id])
  end.

(** [fill_group]: push rows from [rows[next_row..]] until the group is full. *)
Fixpoint fill_group (g : NodeGroup) (rest : list row) : outcome (NodeGroup * list row) :=
  match rest with
  | [] => Ok (g, [])
  | r :: rest' =>
      if (row_count g <? NODE_GROUP_CAPACITY)%nat then let! g := push_row g r in fill_group g rest' else Ok (g, rest)
  end.

(** The rows not yet placed stand for [buffered_rows[next_row..]]. *)
Definition rewrite_partial_tail (ts : list LogicalType) (groups : list Z) (rest : list row) : SM (list Z * list row) :=
  match last groups with
  | None => sret (groups, rest)
  | Some tail_id =>
      let+ tail := read_group tail_id ts in
      if (NODE_GROUP_CAPACITY <=? row_count tail)%nat then sret (groups, rest) else
      let+ rows := slift (group_rows tail) in
      let+ replacement := slift (build_group ts rows) in
      let+ (replacement, rest) := slift (fill_group replacement rest) in
      let+ id := persist_group replacement in
      sret (take (length groups - 1) groups ++ [id], rest)
  end.

Fixpoint append_groups (rounds : nat) (ts : list LogicalType) (groups : list Z) (rest : list row) : SM (list Z) :=
  match rest with
  | [] => sret groups
  | _ =>
      match rounds with
      | O => slift Panic
      | S rounds =>
          let+ g := slift (new_group ts) in
          let+ (g, rest) := slift (fill_group g rest) in
          let+ id := persist_group g in
          append_groups rounds ts (groups ++ [id]) rest
      end
  end.

Definition materialize_rows (ts : list LogicalType) (groups : list Z) (buffered_rows : list row) : SM (list Z) :=
  let+ (groups, rest) := rewrite_partial_tail ts groups buffered_rows in
  append_groups (length rest) ts groups rest.

(** Groups kept or written, the rows pending after a deletion, the effects left. *)
Definition rewrite_state : Type := list Z * option (list row) * MaterializationEffects.

Definition rewrite_step (ts : list LogicalType) (group_count pk : nat) (buffered : BufferedKeys) (c : DeleteCompaction)
    (s : rewrite_state) (entry : nat * Z) : SM rewrite_state :=
  let '(groups, compacted, m) := s in
  let '(i, group_id) := entry in
  let+ group := read_group group_id ts in
  let+ _ := slift (validate_group_position group i group_count) in
  let+ rows := slift (group_rows group) in
  let+ (rows, changed, deleted, m) := slift (apply_dml_effects rows pk m (Some buffered) c) in
  match compacted with
  | Some pending =>
      let+ (groups, pending) := write_full_groups ts groups (pending ++ rows) in
      sret (groups, Some pending, m)
  | None =>
      if (deleted : bool) then sret (groups, Some rows, m)
      else if (changed : bool) then let+ id := write_group ts rows in sret (groups ++ [id], None, m)
      else sret (groups ++ [group_id], None, m)
  end.

Definition rewrite_persisted_groups (ts : list LogicalType) (persisted : list Z) (pk : nat) (m : MaterializationEffects)
    (buffered : BufferedKeys) (c : DeleteCompaction) : SM rewrite_state :=
  sfor (enumerate persisted) ([], None, m) (rewrite_step ts (length persisted) pk buffered c).

Definition materialize_rows_with_dml (schema : NodeTableSchema) (persisted : list Z) (buffered_rows : list row)
    (m : MaterializationEffects) (c : DeleteCompaction) : SM (list Z * MaterializationEffects) :=
  let ts := schema_types schema in
  let+ pk := slift (primary_key_column schema) in
  let+ (buffered_rows, buffered_keys) := slift (normalize_buffered_rows buffered_rows pk) in
  let+ (groups, compacted, m) := rewrite_persisted_groups ts persisted pk m buffered_keys c in
  let+ (buffered, _, _, m) := slift (apply_dml_effects buffered_rows pk m None c) in
  match compacted with
  | Some rows =>
      let+ (groups, rows) := write_full_groups ts groups (rows ++ buffered) in
      let+ groups := write_partial_group ts groups rows in
      sret (groups, m)
  | None =>
      if bool_decide (buffered = []) then sret (groups, m)
      else let+ groups := materialize_rows ts groups buffered in sret (groups, m)
  end.

(** [catalog.table_storage(name)], empty when the table has none. *)
Definition stored_groups (catalog : Catalog) (name : cat_name) : list Z :=
  match table_storage catalog name with Some s => groups s | None => [] end.

Definition ensure_catalog_schema (schema : NodeTableSchema) (catalog : Catalog) : outcome () :=
  let! catalog_schema := ok_or (node_table catalog (node_name schema)) (NotFound "node table `{}`") in
  if bool_decide (catalog_schema = schema) then Ok ()
  else Err (InvalidArgument "node table `{}` schema differs from the catalog").

(** The buffered rows and the catalog after the call; on an error both are
    unchanged, while groups already written stay in the store. *)
Definition checkpoint_with_dml (schema : NodeTableSchema) (buffered_rows : list row) (catalog : Catalog)
    (effects : NodeDmlEffects) (c : DeleteCompaction) : SM (list row * Catalog) :=
  if bool_decide (buffered_rows = []) && bool_decide (updates effects = ∅) && bool_decide (tombstones effects = ∅)
  then sret (buffered_rows, catalog) else
  let+ _ := slift (ensure_catalog_schema schema catalog) in
  let+ _ := slift (validate_dml_effects schema effects c) in
  let+ (groups, m) := materialize_rows_with_dml schema (stored_groups catalog (node_name schema)) buffered_rows (mat_from effects) c in
  let+ _ := slift (ensure_effects_consumed m) in
  let+ catalog := slift (set_table_storage catalog (node_name schema) (mkTableStorage groups)) in
  sret ([], catalog).

Definition recover_row (schema : NodeTableSchema) (buffered : list row) (r : row) : outcome (list row) :=
  let! _ := validate_row schema r in Ok (buffered ++ [r]).

(** [scan]: the groups in order, then the buffered rows. *)
Definition scan (schema : NodeTableSchema) (buffered : list row) (catalog : Catalog) : SM (list row) :=
  let ids := stored_groups catalog (node_name schema) in
  let+ rows := sfor (enumerate ids) [] (λ rows '(i, id),
    let+ group := read_group id (schema_types schema) in
    let+ _ := slift (validate_group_position group i (length ids)) in
    let+ r := slift (group_rows group) in
    sret (rows ++ r)) in
  sret (rows ++ buffered).

(** ** The node half of a checkpoint *)

(** [recover_overlay_inserts]. *)
Definition recover_overlay_inserts (head : option CommitLink) (schema : NodeTableSchema) : outcome (list row) :=
  for_each (commit_links_oldest_first head) [] (λ buffered link,
    for_each (table_rows (nodes (delta link)) (node_name schema)) buffered (recover_row schema)).

(** [delete_compaction_for]; [identity] is [remap.is_identity()]. *)
Definition delete_compaction_for (catalog : Catalog) (name : cat_name) (identity : bool) : DeleteCompaction :=
  if existsb (λ s, bool_decide (to_ascii_lowercase (rel_from s) = to_ascii_lowercase name) ||
                   bool_decide (to_ascii_lowercase (rel_to s) = to_ascii_lowercase name)) (rel_tables catalog) && identity
  then Forbidden else Permitted.

(** The body of the loop of [materialize_nodes] for one table; [state] is the
    published state's catalog, [catalog] the one being built. *)
Definition materialize_node_table (state : Catalog) (head : option CommitLink) (schema : NodeTableSchema)
    (identity : bool) (catalog : Catalog) : SM Catalog :=
  let+ buffered := slift (recover_overlay_inserts head schema) in
  let+ effects := slift (state_dml_effects (mkView state head None) (node_name schema)) in
  let+ (_, catalog) := checkpoint_with_dml schema buffered catalog effects (delete_compaction_for catalog (node_name schema) identity) in
  sret catalog.
End store.
Arguments SM : clear implicits.

(** ** Columns and rows of a group *)

#[export] Instance Value_inhabited : Inhabited Value := populate Null.

Lemma capacity_pos : (0 < NODE_GROUP_CAPACITY)%nat.
Proof. unfold NODE_GROUP_CAPACITY. lia. Qed.

#[local] Opaque NODE_GROUP_CAPACITY.

(** Row [r] fits columns of types [ts]. *)
Definition row_fits (ts : list LogicalType) (r : row) : Prop := Forall2 (λ v t, matches_type v t = true) r ts.

(** Column-major copy of [rows]. *)
Definition columns_of (n : nat) (rows : list row) : list (list Value) := (λ c, (λ r, r !!! c) <$> rows) <$> seq 0 n.

Definition group_holds (g : NodeGroup) (ts : list LogicalType) (rows : list row) : Prop :=
  types g = ts ∧ row_count g = length rows ∧ columns g = columns_of (length ts) rows ∧
  Forall (row_fits ts) rows ∧ (length rows ≤ NODE_GROUP_CAPACITY)%nat.

Lemma columns_of_push n rows r :
  length r = n → zip_with (λ c v, c ++ [v]) (columns_of n rows) r = columns_of n (rows ++ [r]).
Proof.
  intros Hn. apply list_eq_same_length with n.
  - unfold columns_of. by rewrite length_fmap, length_seq.
  - rewrite length_zip_with. unfold columns_of. rewrite length_fmap, length_seq. lia.
  - intros i x y Hi Hx Hy. unfold columns_of in *. rewrite list_lookup_fmap, lookup_seq_lt in Hy by done. simpl in Hy.
    apply lookup_zip_with_Some in Hx as (c & v & -> & Hc & Hv). rewrite list_lookup_fmap, lookup_seq_lt in Hc by done.
    simplify_eq/=. rewrite fmap_app. simpl. by rewrite (list_lookup_total_correct _ _ _ Hv).
Qed.

Lemma row_fits_forallb ts r :
  length r = length ts → forallb (λ vt, matches_type vt.1 vt.2) (zip r ts) = true ↔ row_fits ts r.
Proof.
  revert ts. induction r as [|v r IH]; intros [|t ts]; simpl; intros Hl; try lia.
  - split; [constructor|done].
  - rewrite andb_true_iff, IH by lia. unfold row_fits. rewrite Forall2_cons. done.
Qed.

Lemma new_group_ok ts : ts ≠ [] → ∃ g, new_group ts = Ok g ∧ group_holds g ts [].
Proof.
  intros H. unfold new_group. rewrite bool_decide_false by done. eexists. split; [done|].
  split_and!; [done|done| |constructor|simpl; lia]. unfold columns_of. simpl. clear H.
  assert (∀ k, (λ _, []) <$> ts = (λ _ : nat, ([] : list Value)) <$> seq k (length ts)) as Hk; [|apply Hk].
  induction ts as [|t ts IH]; intros k; [done|]. csimpl. by rewrite (IH (S k)).
Qed.

Lemma push_row_ok g ts rows r :
  group_holds g ts rows → row_fits ts r → (length rows < NODE_GROUP_CAPACITY)%nat →
  ∃ g', push_row g r = Ok g' ∧ group_holds g' ts (rows ++ [r]).
Proof.
  intros (Ht & Hc & Hcol & Hrows & _) Hr Hlt. pose proof (Forall2_length _ _ _ Hr) as Hlen.
  unfold push_row. rewrite Ht, Hc, (proj2 (Nat.eqb_eq _ _) Hlen). cbn [negb].
  rewrite (proj2 (Nat.leb_gt _ _) Hlt), (proj2 (row_fits_forallb ts r Hlen) Hr). cbn [negb]. eexists. split; [done|].
  split_and!; simpl; [done| | | |].
  - rewrite length_app. simpl. lia.
  - rewrite Hcol. by apply columns_of_push.
  - rewrite Forall_app. split; [done|]. by repeat constructor.
  - rewrite length_app. simpl. lia.
Qed.

Lemma push_rows_ok rest : ∀ g ts rows,
  group_holds g ts rows → Forall (row_fits ts) rest → (length rows + length rest ≤ NODE_GROUP_CAPACITY)%nat →
  ∃ g', for_each rest g push_row = Ok g' ∧ group_holds g' ts (rows ++ rest).
Proof.
  induction rest as [|r rest IH]; intros g ts rows Hg Hrest Hlen.
  { exists g. by rewrite app_nil_r. }
  apply Forall_cons in Hrest as [Hr Hrest]. simpl in Hlen. cbn [for_each].
  destruct (push_row_ok g ts rows r Hg Hr ltac:(lia)) as (g1 & -> & Hg1). cbn [bind].
  destruct (IH g1 ts (rows ++ [r]) Hg1 Hrest) as (g2 & -> & Hg2); [rewrite length_app; simpl; lia|].
  exists g2. split; [done|]. by rewrite <- app_assoc in Hg2.
Qed.

Lemma build_group_ok ts rows :
  ts ≠ [] → Forall (row_fits ts) rows → (length rows ≤ NODE_GROUP_CAPACITY)%nat →
  ∃ g, build_group ts rows = Ok g ∧ group_holds g ts rows.
Proof.
  intros Hts Hrows Hlen. unfold build_group. destruct (new_group_ok ts Hts) as (g & -> & Hg). cbn [bind].
  by apply (push_rows_ok rows g ts []).
Qed.

Lemma group_holds_wf g ts rows : ts ≠ [] → group_holds g ts rows → group_wf g.
Proof.
  intros Hts (Ht & Hc & Hcol & Hrows & Hlen). split_and!.
  - congruence.
  - rewrite Hcol, Ht. unfold columns_of. by rewrite length_fmap, length_seq.
  - lia.
  - rewrite Hcol, Ht, Hc. unfold columns_of. apply Forall2_same_length_lookup_2; [by rewrite length_fmap, length_seq|].
    intros i column t Hi Hti. rewrite list_lookup_fmap in Hi. apply fmap_Some in Hi as (c & Hci & ->).
    apply lookup_seq in Hci as [-> _]. rewrite length_fmap. split; [done|]. apply Forall_fmap.
    eapply Forall_impl; [exact Hrows|]. intros r Hr. simpl.
    destruct (Forall2_lookup_r _ _ _ _ _ Hr Hti) as (v & Hv & Hm). by rewrite (list_lookup_total_correct _ _ _ Hv).
Qed.

Lemma group_rows_ok g ts rows : group_holds g ts rows → group_rows g = Ok rows.
Proof.
  intros (Ht & Hc & Hcol & Hrows & _). unfold group_rows, group_value. rewrite Hc, Hcol. apply collect_Ok.
  apply Forall2_same_length_lookup_2; [apply length_seq|]. intros i j r Hj Hr. apply lookup_seq in Hj as [-> _]. simpl.
  rewrite Forall_lookup in Hrows. pose proof (Forall2_length _ _ _ (Hrows i r Hr)) as Hlen.
  apply collect_Ok. unfold columns_of. rewrite length_fmap, length_seq.
  apply Forall2_same_length_lookup_2; [by rewrite length_seq|]. intros c c' v Hc' Hv. pose proof Hc' as [-> Hlt]%lookup_seq. simpl.
  rewrite list_lookup_fmap, lookup_seq_lt by done. simpl. rewrite list_lookup_fmap, Hr. simpl.
  by rewrite (list_lookup_total_correct _ _ _ Hv).
Qed.

(** ** Stored groups *)

Section stored.
Context {W : Type} `{GS : !GroupStore W} (ts : list LogicalType).
Hypothesis Hts : ts ≠ [].
Hypothesis Hexact : Forall (λ t, exact_type t = true) ts.

Definition holds (w : W) (id : Z) (rows : list row) : Prop :=
  in_use w id ∧ ∃ g, group_read w id ts = Ok g ∧ group_holds g ts rows.

Definition stored (w : W) (ids : list Z) (parts : list (list row)) : Prop := Forall2 (holds w) ids parts.

Lemma stored_one w id rows : holds w id rows → stored w [id] [rows].
Proof. intros Hh. by constructor. Qed.

(** The store after some writes: the groups in use still are, and read as
    before. *)
Definition evolves (w w' : W) : Prop :=
  healthy ts w' ∧ ∀ id, in_use w id → in_use w' id ∧ ∀ ts' g, group_read w id ts' = Ok g → group_read w' id ts' = Ok g.

Lemma evolves_trans w1 w2 w3 : evolves w1 w2 → evolves w2 w3 → evolves w1 w3.
Proof. intros [_ H1] [? H2]. split; [done|]. intros id [Hu Hr]%H1. apply H2 in Hu as [Hu Hr']. auto. Qed.

Lemma stored_evolves w w' ids parts : evolves w w' → stored w ids parts → stored w' ids parts.
Proof. intros [_ H] Hst. eapply Forall2_impl; [exact Hst|]. intros id rows (Hu & g & Hr & Hg). apply H in Hu as [Hu Hk]. split; [done|]. exists g. auto. Qed.

Lemma persist_ok w g rows :
  healthy ts w → group_holds g ts rows → rows ≠ [] →
  ∃ id w', persist_group g w = (Ok id, w') ∧ evolves w w' ∧ holds w' id rows.
Proof.
  intros Hw Hg Hne. pose proof (group_holds_wf g ts rows Hts Hg) as Hwf. pose proof Hg as (Ht & Hc & _).
  unfold persist_group. rewrite <- Ht in Hw.
  destruct (write_succeeds w g Hw Hwf) as (id & w' & E & Hw'); [rewrite Hc; destruct rows; [done|simpl; lia]|].
  exists id, w'. split; [done|]. split.
  - split; [by rewrite <- Ht|]. intros id'. eapply write_keeps, E.
  - pose proof (write_then_read w g id w' Hwf) as Hr. rewrite Ht in Hr. destruct (Hr Hexact E) as [Hu Hread]. split; [done|]. by exists g.
Qed.

Lemma write_group_ok w rows :
  healthy ts w → Forall (row_fits ts) rows → rows ≠ [] → (length rows ≤ NODE_GROUP_CAPACITY)%nat →
  ∃ id w', write_group ts rows w = (Ok id, w') ∧ evolves w w' ∧ holds w' id rows.
Proof.
  intros Hw Hrows Hne Hlen. unfold write_group, sbind, slift.
  destruct (build_group_ok ts rows Hts Hrows Hlen) as (g & -> & Hg). by apply persist_ok.
Qed.

Lemma full_groups_ok rounds : ∀ w ids rows,
  (length rows ≤ rounds)%nat → healthy ts w → Forall (row_fits ts) rows →
  ∃ new parts pending w', full_groups_loop rounds ts ids rows w = (Ok (ids ++ new, pending), w') ∧ evolves w w' ∧
    stored w' new parts ∧ concat parts ++ pending = rows ∧ Forall (λ p, length p = NODE_GROUP_CAPACITY) parts ∧
    (length pending < NODE_GROUP_CAPACITY)%nat ∧ Forall (row_fits ts) pending.
Proof.
  pose proof capacity_pos as Hcap.
  assert (∀ rounds w ids rows, healthy ts w → Forall (row_fits ts) rows → (length rows < NODE_GROUP_CAPACITY)%nat →
    ∃ new parts pending w', full_groups_loop rounds ts ids rows w = (Ok (ids ++ new, pending), w') ∧ evolves w w' ∧
    stored w' new parts ∧ concat parts ++ pending = rows ∧ Forall (λ p, length p = NODE_GROUP_CAPACITY) parts ∧
    (length pending < NODE_GROUP_CAPACITY)%nat ∧ Forall (row_fits ts) pending) as Hdone.
  { intros n w ids rows Hw Hrows Hlt. exists [], [], rows, w.
    assert (full_groups_loop n ts ids rows w = (Ok (ids ++ [], rows), w)) as ->.
    { destruct n; simpl; rewrite (proj2 (Nat.ltb_lt _ _) Hlt), app_nil_r; done. }
    split_and!; [done|by split|constructor|done|constructor|done|done]. }
  induction rounds as [|rounds IH]; intros w ids rows Hr Hw Hrows.
  { apply Hdone; [done..|]. lia. }
  destruct (decide (length rows < NODE_GROUP_CAPACITY)%nat) as [Hlt|Hge]; [by apply Hdone|]. cbn [full_groups_loop].
  rewrite (proj2 (Nat.ltb_ge _ _)) by lia. unfold sbind.
  assert (length (take NODE_GROUP_CAPACITY rows) = NODE_GROUP_CAPACITY) as Hlt by (rewrite length_take; lia).
  destruct (write_group_ok w (take NODE_GROUP_CAPACITY rows)) as (id & w1 & -> & Hev & Hh);
    [done|by apply Forall_take|intros E; rewrite E in Hlt; simpl in Hlt; lia|lia|].
  destruct (IH w1 (ids ++ [id]) (drop NODE_GROUP_CAPACITY rows)) as (new & parts & pending & w2 & -> & Hev2 & Hst & Hcat & Hfull & Hpend & Hfits).
  - rewrite length_drop. lia.
  - apply Hev.
  - by apply Forall_drop.
  - exists (id :: new), (take NODE_GROUP_CAPACITY rows :: parts), pending, w2. rewrite <- app_assoc. split_and!; [done| | | | |done|done].
    + by eapply evolves_trans.
    + constructor; [|done]. by pose proof (stored_evolves _ _ _ _ Hev2 (stored_one _ _ _ Hh)) as [? _]%Forall2_cons.
    + simpl. rewrite <- app_assoc, Hcat. apply take_drop.
    + by constructor.
Qed.
End stored.
