(* ===== verification/Checkpoint.v ===== *)
(** A checkpoint keeps every visible row: the proofs about [NodeTable.v] and
    the node half of [devondb/src/database/checkpoint.rs]. *)

From stdpp Require Import gmap sorting.
From S2P Require Import Prelude Bytes Types Schema TxnLog Catalog Overlay View NodeTable.

#[local] Opaque NODE_GROUP_CAPACITY.

(** Only the last group may be partial, and no group is empty. *)
Definition layout (parts : list (list row)) : Prop :=
  ∃ full tail, parts = full ++ tail ∧ Forall (λ p, length p = NODE_GROUP_CAPACITY) full ∧
    Forall (λ p, p ≠ [] ∧ (length p ≤ NODE_GROUP_CAPACITY)%nat) tail ∧ (length tail ≤ 1)%nat.

Section materialize.
Context {W : Type} `{GS : !GroupStore W} (ts : list LogicalType).
Hypothesis Hts : ts ≠ [].
Hypothesis Hexact : Forall (λ t, exact_type t = true) ts.

Lemma fill_group_ok rest : ∀ g rows,
  group_holds g ts rows → Forall (row_fits ts) rest →
  ∃ g' placed left_, fill_group g rest = Ok (g', left_) ∧ rest = placed ++ left_ ∧ group_holds g' ts (rows ++ placed) ∧
    (left_ = [] ∨ length (rows ++ placed) = NODE_GROUP_CAPACITY).
Proof.
  induction rest as [|r rest IH]; intros g rows Hg Hrest.
  { exists g, [], []. split_and!; [done|done|by rewrite app_nil_r|by left]. }
  apply Forall_cons in Hrest as [Hr Hrest]. cbn [fill_group]. pose proof Hg as (_ & Hc & _ & _ & Hlen). rewrite Hc.
  destruct (Nat.ltb_spec (length rows) NODE_GROUP_CAPACITY) as [Hlt|Hge].
  - destruct (push_row_ok g ts rows r Hg Hr Hlt) as (g1 & -> & Hg1). cbn [bind].
    destruct (IH g1 (rows ++ [r]) Hg1 Hrest) as (g2 & placed & left_ & -> & -> & Hg2 & Hend).
    rewrite <- app_assoc in Hg2, Hend. exists g2, (r :: placed), left_. by split_and!.
  - exists g, [], (r :: rest). rewrite (app_nil_r rows). split_and!; [done|done|done|]. right. lia.
Qed.

Lemma append_groups_ok rounds : ∀ w ids parts rest,
  (length rest ≤ rounds)%nat → healthy ts w → Forall (row_fits ts) rest → stored ts w ids parts →
  Forall (λ p, length p = NODE_GROUP_CAPACITY) parts →
  ∃ ids' parts' w', append_groups rounds ts ids rest w = (Ok ids', w') ∧ evolves ts w w' ∧ stored ts w' ids' parts' ∧
    concat parts' = concat parts ++ rest ∧ layout parts'.
Proof.
  pose proof capacity_pos as Hcap.
  induction rounds as [|rounds IH]; intros w ids parts rest Hr Hw Hrest Hst Hfull.
  all: destruct rest as [|r rest]; [exists ids, parts, w; split_and!; [done|by split|done|by rewrite app_nil_r|]|].
  1,3: by exists parts, []; split_and!; [by rewrite app_nil_r|done|constructor|simpl; lia].
  { simpl in Hr. lia. }
  cbn [append_groups]. unfold sbind, slift. destruct (new_group_ok ts Hts) as (g & -> & Hg).
  destruct (fill_group_ok (r :: rest) g [] Hg Hrest) as (g' & placed & left_ & -> & Hsplit & Hg' & Hend). cbn [app] in Hg', Hend.
  assert (placed ≠ []) as Hne.
  { intros ->. destruct Hend as [->|E]; [done|]. simpl in E. lia. }
  destruct (persist_ok ts Hts Hexact w g' placed Hw Hg' Hne) as (id & w1 & -> & Hev & Hh).
  rewrite Hsplit in Hrest. apply Forall_app in Hrest as [_ Hleft].
  assert (stored ts w1 (ids ++ [id]) (parts ++ [placed])) as Hst1.
  { apply Forall2_app; [by eapply stored_evolves|by apply stored_one]. }
  destruct Hend as [->|Hfulln].
  - exists (ids ++ [id]), (parts ++ [placed]), w1. rewrite app_nil_r in Hsplit. subst placed.
    split_and!; [by destruct rounds|done|done|rewrite concat_app; simpl; by rewrite app_nil_r|].
    exists parts, [r :: rest]. split_and!; [done|done| |done]. repeat constructor; [done|]. apply Hg'.
  - destruct (IH w1 (ids ++ [id]) (parts ++ [placed]) left_) as (ids' & parts' & w' & Hrun & Hev' & Hst' & Hcat & Hlay).
    + apply (f_equal length) in Hsplit. rewrite length_app in Hsplit. simpl in Hsplit, Hr. lia.
    + apply Hev.
    + done.
    + done.
    + apply Forall_app. split; [done|]. by repeat constructor.
    + exists ids', parts', w'. rewrite Hrun. split_and!; [done|by eapply evolves_trans|done| |done].
      rewrite Hcat, concat_app, Hsplit. simpl. by rewrite app_nil_r, app_assoc.
Qed.

(** After the tail is topped up, every group is full or nothing is left. *)
Lemma partial_tail_ok w ids full t rest :
  healthy ts w → Forall (row_fits ts) rest → stored ts w ids (full ++ [t]) → t ≠ [] → (length t ≤ NODE_GROUP_CAPACITY)%nat →
  ∃ ids' t' left_ w', rewrite_partial_tail ts ids rest w = (Ok (ids', left_), w') ∧ evolves ts w w' ∧
    stored ts w' ids' (full ++ [t']) ∧ t' ++ left_ = t ++ rest ∧ t' ≠ [] ∧ (length t' ≤ NODE_GROUP_CAPACITY)%nat ∧
    Forall (row_fits ts) left_ ∧ (left_ = [] ∨ length t' = NODE_GROUP_CAPACITY).
Proof.
  intros Hw Hrest Hst Hne Htl. pose proof Hst as Hst'. apply Forall2_app_inv_r in Hst as (ids0 & ids1 & Hst0 & Hst1 & ->).
  inversion Hst1 as [|id ? ? ? Hh Hnil E1 E2]. subst. inversion Hnil. subst. unfold rewrite_partial_tail, sbind.
  rewrite last_snoc. destruct Hh as (_ & g & Hg & Hgh). unfold read_group. rewrite Hg.
  pose proof Hgh as (_ & Hc & _ & Htf & _). rewrite Hc.
  destruct (Nat.leb_spec NODE_GROUP_CAPACITY (length t)) as [Hge|Hlt].
  { exists (ids0 ++ [id]), t, rest, w. split_and!; [done|by split|done|done|done|done|done|]. right. lia. }
  unfold slift. rewrite (group_rows_ok g ts t Hgh).
  destruct (build_group_ok ts t Hts Htf Htl) as (g1 & -> & Hg1).
  destruct (fill_group_ok rest g1 t Hg1 Hrest) as (g2 & placed & left_ & -> & -> & Hg2 & Hend).
  destruct (persist_ok ts Hts Hexact w g2 (t ++ placed) Hw Hg2) as (id' & w1 & -> & Hev & Hh'); [by destruct t|].
  apply Forall_app in Hrest as [_ Hleft].
  replace (length (ids0 ++ [id]) - 1)%nat with (length ids0) by (rewrite length_app; simpl; lia). rewrite take_app_length.
  exists (ids0 ++ [id']), (t ++ placed), left_, w1. split_and!; [done|done| |by rewrite app_assoc|by destruct t|apply Hg2|done|done].
  apply Forall2_app; [by eapply stored_evolves|by apply stored_one].
Qed.

Lemma full_tail_ok w ids parts rest :
  stored ts w ids parts → Forall (λ p, length p = NODE_GROUP_CAPACITY) parts →
  rewrite_partial_tail ts ids rest w = (Ok (ids, rest), w).
Proof.
  intros Hst Hfull. unfold rewrite_partial_tail. destruct (last ids) as [id|] eqn:El; [|done].
  apply last_Some in El as [ids0 ->]. apply Forall2_app_inv_l in Hst as (p1 & p2 & _ & H2 & ->).
  inversion H2 as [|? p ? ? Hh H2' E1 E2]. subst. destruct Hh as (_ & g & Hg & Hgh). unfold sbind, read_group. rewrite Hg.
  apply Forall_app in Hfull as [_ [Hp _]%Forall_cons]. pose proof Hgh as (_ & Hc & _). by rewrite Hc, Hp, Nat.leb_refl.
Qed.

Lemma materialize_rows_ok w ids parts rest :
  healthy ts w → Forall (row_fits ts) rest → stored ts w ids parts → layout parts →
  ∃ ids' parts' w', materialize_rows ts ids rest w = (Ok ids', w') ∧ evolves ts w w' ∧ stored ts w' ids' parts' ∧
    concat parts' = concat parts ++ rest ∧ layout parts'.
Proof.
  intros Hw Hrest Hst (full & tail & -> & Hfull & Htail & Hlen). unfold materialize_rows, sbind.
  destruct tail as [|t [|]]; [|clear Hlen|simpl in Hlen; lia].
  - rewrite app_nil_r in Hst |- *. rewrite (full_tail_ok w ids full rest Hst Hfull).
    by apply (append_groups_ok (length rest) w ids full rest).
  - apply Forall_cons in Htail as [[Hne Htl] _].
    destruct (partial_tail_ok w ids full t rest Hw Hrest Hst Hne Htl)
      as (ids' & t' & left_ & w1 & -> & Hev & Hst1 & Happ & Hne' & Htl' & Hleft & Hend).
    destruct Hend as [->|Hfulln].
    + exists ids', (full ++ [t']), w1. rewrite app_nil_r in Happ. subst t'. split_and!; [done|done|done| |].
      * rewrite !concat_app. simpl. by rewrite !app_nil_r, app_assoc.
      * exists full, [t ++ rest]. split_and!; [done|done|by repeat constructor|done].
    + destruct (append_groups_ok (length left_) w1 ids' (full ++ [t']) left_)
        as (ids2 & parts' & w' & -> & Hev' & Hst' & Hcat & Hlay); [done|apply Hev|done|done| |].
      { apply Forall_app. split; [done|]. by repeat constructor. }
      exists ids2, parts', w'. split_and!; [done|by eapply evolves_trans|done| |done].
      rewrite Hcat, !concat_app. simpl. by rewrite !app_nil_r, <- !app_assoc, Happ.
Qed.
End materialize.

(** ** Effects split by key type *)

Definition mat_lookup (m : MaterializationEffects) (k : PkKey) : option (option row) :=
  match k with
  | PkInt64 z => if decide (z ∈ int_tombstones m) then Some None else Some <$> int_updates m !! z
  | PkString s => if decide (s ∈ string_tombstones m) then Some None else Some <$> string_updates m !! s
  end.

(** No key has both effects. *)
Definition mat_disjoint (m : MaterializationEffects) : Prop :=
  (∀ z, z ∈ int_tombstones m → int_updates m !! z = None) ∧ (∀ s, s ∈ string_tombstones m → string_updates m !! s = None).

Lemma mat_updates_fold l : ∀ m k,
  NoDup l.*1 → int_tombstones m = ∅ → string_tombstones m = ∅ →
  let m' := foldl (λ m '(key, r), mat_update m key r) m l in
  int_tombstones m' = ∅ ∧ string_tombstones m' = ∅ ∧
  mat_lookup m' k = match (list_to_map l : gmap PkKey row) !! k with Some r => Some (Some r) | None => mat_lookup m k end.
Proof.
  induction l as [|[k0 r0] l IH]; intros m k Hnd Hi Hs; cbn zeta.
  { simpl. rewrite lookup_empty. done. }
  csimpl in Hnd. apply NoDup_cons in Hnd as [Hk0 Hnd]. cbn [foldl].
  destruct (IH (mat_update m k0 r0) k Hnd) as (H1 & H2 & H3); [by destruct k0..|]. split_and!; [done|done|].
  rewrite H3. simpl. apply not_elem_of_list_to_map_1 in Hk0. destruct (decide (k0 = k)) as [<-|Hne].
  - rewrite Hk0, lookup_insert_eq. destruct k0; simpl; rewrite ?Hi, ?Hs, decide_False, lookup_insert_eq by set_solver; done.
  - rewrite lookup_insert_ne by done. destruct (list_to_map l !! k); [done|].
    destruct k0, k; simpl; rewrite ?Hi, ?Hs; try done; rewrite !decide_False by set_solver; rewrite lookup_insert_ne by congruence; done.
Qed.

Lemma mat_tombstones_fold ks : ∀ m k,
  mat_lookup (foldl mat_tombstone m ks) k = if decide (k ∈ ks) then Some None else mat_lookup m k.
Proof.
  induction ks as [|k0 ks IH]; intros m k; [done|]. cbn [foldl]. rewrite IH.
  destruct (decide (k ∈ ks)) as [Hin|Hin]; [by rewrite decide_True by (by right)|].
  destruct (decide (k0 = k)) as [<-|Hne].
  - rewrite decide_True by (by left). destruct k0; simpl; by rewrite decide_True by set_solver.
  - rewrite (decide_False (P := k ∈ k0 :: ks)) by set_solver. destruct k0, k; simpl; try done.
    + destruct (decide (value0 ∈ int_tombstones m)); [by rewrite decide_True by set_solver|].
      rewrite decide_False; [done|]. rewrite elem_of_union, elem_of_singleton. intros [->|?]; done.
    + destruct (decide (text0 ∈ string_tombstones m)); [by rewrite decide_True by set_solver|].
      rewrite decide_False; [done|]. rewrite elem_of_union, elem_of_singleton. intros [->|?]; done.
Qed.

Lemma mat_from_lookup e k : mat_lookup (mat_from e) k = key_effect e k.
Proof.
  unfold mat_from, key_effect. rewrite mat_tombstones_fold.
  destruct (mat_updates_fold (map_to_list (updates e)) (mkMat ∅ ∅ ∅ ∅) k) as (_ & _ & ->); [apply NoDup_fst_map_to_list|done|done|].
  rewrite list_to_map_to_list. destruct (decide (k ∈ tombstones e)) as [Hin|Hin].
  - by rewrite decide_True by (by apply elem_of_elements).
  - rewrite decide_False by (by rewrite elem_of_elements). destruct (updates e !! k); [done|].
    destruct k; simpl; by rewrite decide_False by set_solver.
Qed.

(** Taking the effect of one key. *)
Definition mat_take (m : MaterializationEffects) (k : PkKey) : MaterializationEffects :=
  match k with
  | PkInt64 z => mkMat (base.delete z (int_updates m)) (string_updates m) (int_tombstones m ∖ {[z]}) (string_tombstones m)
  | PkString s => mkMat (int_updates m) (base.delete s (string_updates m)) (int_tombstones m) (string_tombstones m ∖ {[s]})
  end.

Lemma mat_take_lookup m k k' : mat_lookup (mat_take m k) k' = if decide (k = k') then None else mat_lookup m k'.
Proof.
  destruct (decide (k = k')) as [<-|Hne].
  - destruct k; simpl; rewrite decide_False by set_solver; by rewrite lookup_delete_eq.
  - destruct k as [z|s], k' as [z'|s']; simpl; try done.
    + rewrite lookup_delete_ne by congruence. destruct (decide (z' ∈ int_tombstones m)).
      * rewrite decide_True; [done|]. apply elem_of_difference. split; [done|]. rewrite elem_of_singleton. congruence.
      * by rewrite decide_False by set_solver.
    + rewrite lookup_delete_ne by congruence. destruct (decide (s' ∈ string_tombstones m)).
      * rewrite decide_True; [done|]. apply elem_of_difference. split; [done|]. rewrite elem_of_singleton. congruence.
      * by rewrite decide_False by set_solver.
Qed.

Lemma mat_from_disjoint e : (∀ k, k ∈ tombstones e → updates e !! k = None) → mat_disjoint (mat_from e).
Proof.
  intros Hd. unfold mat_from.
  assert (∀ ks m, (∀ z, z ∈ int_tombstones (foldl mat_tombstone m ks) ↔ z ∈ int_tombstones m ∨ PkInt64 z ∈ ks) ∧
    (∀ s, s ∈ string_tombstones (foldl mat_tombstone m ks) ↔ s ∈ string_tombstones m ∨ PkString s ∈ ks) ∧
    int_updates (foldl mat_tombstone m ks) = int_updates m ∧ string_updates (foldl mat_tombstone m ks) = string_updates m) as Ht.
  { induction ks as [|k0 ks IH]; intros m; [set_solver|]. cbn [foldl]. destruct (IH (mat_tombstone m k0)) as (Ha & Hb & Hc & Hd').
    rewrite Hc, Hd'. split_and!; [intros z; rewrite Ha|intros s; rewrite Hb|by destruct k0|by destruct k0];
      destruct k0; simpl; rewrite ?elem_of_union, ?elem_of_singleton, elem_of_cons; naive_solver. }
  assert (∀ l m, int_tombstones (foldl (λ m '(key, r), mat_update m key r) m l) = int_tombstones m ∧
    string_tombstones (foldl (λ m '(key, r), mat_update m key r) m l) = string_tombstones m) as Hu.
  { induction l as [|[k0 r0] l IH]; intros m; [done|]. cbn [foldl]. destruct (IH (mat_update m k0 r0)) as [-> ->]. by destruct k0. }
  set (m0 := foldl _ (mkMat ∅ ∅ ∅ ∅) _). destruct (Ht (elements (tombstones e)) m0) as (H1 & H2 & H3 & H4).
  destruct (Hu (map_to_list (updates e)) (mkMat ∅ ∅ ∅ ∅)) as [E1 E2]. fold m0 in E1, E2. cbn in E1, E2.
  assert (∀ k, k ∈ tombstones e → mat_lookup m0 k = None) as Hnone.
  { intros k Hk. destruct (mat_updates_fold (map_to_list (updates e)) (mkMat ∅ ∅ ∅ ∅) k) as (_ & _ & Hl);
      [apply NoDup_fst_map_to_list|done|done|]. fold m0 in Hl. rewrite Hl, list_to_map_to_list, (Hd k Hk).
    destruct k; simpl; by rewrite decide_False by set_solver. }
  split.
  - intros z Hz%H1. rewrite H3. destruct Hz as [Hz|Hz]; [rewrite E1 in Hz; set_solver|].
    apply elem_of_elements, Hnone in Hz. simpl in Hz. rewrite E1, decide_False in Hz by set_solver. by destruct (int_updates m0 !! z).
  - intros s Hs%H2. rewrite H4. destruct Hs as [Hs|Hs]; [rewrite E2 in Hs; set_solver|].
    apply elem_of_elements, Hnone in Hs. simpl in Hs. rewrite E2, decide_False in Hs by set_solver. by destruct (string_updates m0 !! s).
Qed.

Lemma mat_take_disjoint m k : mat_disjoint m → mat_disjoint (mat_take m k).
Proof.
  intros [H1 H2]. destruct k as [z0|s0]; split; simpl.
  - intros z [Hz ?]%elem_of_difference. apply lookup_delete_None. auto.
  - auto.
  - auto.
  - intros s [Hs ?]%elem_of_difference. apply lookup_delete_None. auto.
Qed.

Lemma ensure_consumed_ok m : (∀ k, mat_lookup m k = None) → ensure_effects_consumed m = Ok ().
Proof.
  intros H. assert (int_tombstones m = ∅ ∧ string_tombstones m = ∅) as [E1 E2].
  { split; apply elem_of_equiv_empty_L; intros x Hx.
    - specialize (H (PkInt64 x)). simpl in H. by rewrite decide_True in H.
    - specialize (H (PkString x)). simpl in H. by rewrite decide_True in H. }
  assert (int_updates m = ∅ ∧ string_updates m = ∅) as [E3 E4].
  { split; apply map_empty; intros x.
    - specialize (H (PkInt64 x)). simpl in H. rewrite E1, decide_False in H by set_solver. by destruct (int_updates m !! x).
    - specialize (H (PkString x)). simpl in H. rewrite E2, decide_False in H by set_solver. by destruct (string_updates m !! x). }
  unfold ensure_effects_consumed. rewrite E1, E2, E3, E4. by rewrite !bool_decide_true.
Qed.

(** ** Applying effects to a run of rows *)

Section apply.
Context (pk : nat).

Notation row_key r := (optional_row_pk r pk).
Notation keys rows := ((λ r, row_key r) <$> rows).

Lemma row_key_value r k : row_key r = Some k → r !! pk = Some (key_to_value k).
Proof.
  unfold optional_row_pk. destruct (r !! pk) as [v|]; [|done]. destruct v; simpl; intros H; try done; by simplify_eq/=.
Qed.

Lemma take_effect m k :
  mat_disjoint m →
  match mat_lookup m k with
  | Some None => take_tombstone m (key_to_value k) = Ok (true, mat_take m k)
  | e => ∃ m1, take_tombstone m (key_to_value k) = Ok (false, m1) ∧
      take_update m1 (key_to_value k) = Ok (match e with Some (Some r) => Some r | _ => None end, mat_take m k)
  end.
Proof.
  intros [H1 H2]. destruct k as [z|s]; simpl.
  - destruct (decide (z ∈ int_tombstones m)) as [Hin|Hin].
    + rewrite bool_decide_true by done. by rewrite (delete_id (int_updates m)) by auto.
    + rewrite bool_decide_false by done. destruct (int_updates m !! z) as [r|] eqn:E; simpl; eexists; (split; [done|]); simpl; by rewrite E.
  - destruct (decide (s ∈ string_tombstones m)) as [Hin|Hin].
    + rewrite bool_decide_true by done. by rewrite (delete_id (string_updates m)) by auto.
    + rewrite bool_decide_false by done. destruct (string_updates m !! s) as [r|] eqn:E; simpl; eexists; (split; [done|]); simpl; by rewrite E.
Qed.

(** What becomes of a row: gone when its key is buffered again or deleted,
    replaced when updated. *)
Definition survivor (shadow : PkKey → bool) (e : PkKey → option (option row)) (r : row) : option row :=
  match row_key r with
  | None => Some r
  | Some k => if shadow k then None else match e k with Some None => None | Some (Some u) => Some u | None => Some r end
  end.

Definition shadow_of (shadowed : option BufferedKeys) (k : PkKey) : bool :=
  match shadowed with Some b => buffered_contains b (key_to_value k) | None => false end.

Lemma dml_step_ok shadowed c e output changed deleted m r k :
  row_key r = Some k → mat_disjoint m → mat_lookup m k = e k → c = Permitted ∨ shadow_of shadowed k = false →
  ∃ ch de m', dml_step pk shadowed c (output, changed, deleted, m) r =
      Ok (output ++ option_list (survivor (shadow_of shadowed) e r), ch, de, m') ∧
    mat_disjoint m' ∧
    (∀ k', mat_lookup m' k' = if decide (k = k' ∧ shadow_of shadowed k = false) then None else mat_lookup m k') ∧
    (ch = false → changed = false ∧ survivor (shadow_of shadowed) e r = Some r) ∧
    (de = match survivor (shadow_of shadowed) e r with None => true | Some _ => deleted end).
Proof.
  intros Hk Hd He Hc. unfold dml_step, survivor. rewrite (row_key_value r k Hk), Hk. cbn [ok_or bind].
  assert (match shadowed with Some keys => buffered_contains keys (key_to_value k) | None => false end = shadow_of shadowed k)
    as -> by (by destruct shadowed).
  destruct (shadow_of shadowed k) eqn:Es.
  - destruct Hc as [->|?]; [|done]. cbn [require_delete_compaction bind]. exists true, true, m. simpl. rewrite app_nil_r.
    split_and!; [done|done| |done|done]. intros k'. by destruct (decide _) as [[_ ?]|].
  - pose proof (take_effect m k Hd) as Ht. rewrite He in Ht.
    assert (∀ k', mat_lookup (mat_take m k) k' = if decide (k = k' ∧ false = false) then None else mat_lookup m k') as Hl.
    { intros k'. rewrite mat_take_lookup. destruct (decide (k = k')); [by rewrite decide_True|by rewrite decide_False by naive_solver]. }
    destruct (e k) as [[u|]|].
    + destruct Ht as (m1 & -> & Hup). cbn [bind]. rewrite Hup. cbn [bind]. exists true, deleted, (mat_take m k).
      split_and!; [done|by apply mat_take_disjoint|done|done|done].
    + rewrite Ht. cbn [bind]. exists true, true, (mat_take m k). simpl. rewrite app_nil_r.
      split_and!; [done|by apply mat_take_disjoint|done|done|done].
    + destruct Ht as (m1 & -> & Hup). cbn [bind]. rewrite Hup. cbn [bind]. exists changed, deleted, (mat_take m k).
      split_and!; [done|by apply mat_take_disjoint|done|done|done].
Qed.

Lemma omap_cons_list {A B} (f : A → option B) x l : omap f (x :: l) = option_list (f x) ++ omap f l.
Proof. simpl. by destruct (f x). Qed.

Lemma dml_loop_ok shadowed c e rows : ∀ output changed deleted m,
  NoDup (keys rows) → Forall (λ r, is_Some (row_key r)) rows → mat_disjoint m →
  (∀ k, Some k ∈ keys rows → mat_lookup m k = e k) →
  c = Permitted ∨ (∀ k, Some k ∈ keys rows → shadow_of shadowed k = false) →
  ∃ ch de m', for_each rows (output, changed, deleted, m) (dml_step pk shadowed c) =
      Ok (output ++ omap (survivor (shadow_of shadowed) e) rows, ch, de, m') ∧
    mat_disjoint m' ∧
    (∀ k, mat_lookup m' k = if decide (Some k ∈ keys rows ∧ shadow_of shadowed k = false) then None else mat_lookup m k) ∧
    (ch = false → changed = false ∧ omap (survivor (shadow_of shadowed) e) rows = rows) ∧
    (de = false → deleted = false ∧ length (omap (survivor (shadow_of shadowed) e) rows) = length rows) ∧
    (de = true → deleted = true ∨ (length (omap (survivor (shadow_of shadowed) e) rows) < length rows)%nat).
Proof.
  induction rows as [|r rows IH]; intros output changed deleted m Hnd Hk Hd He Hc.
  { exists changed, deleted, m. simpl. rewrite app_nil_r. split_and!; [done|done|done|done|done|by left]. }
  csimpl in Hnd. apply NoDup_cons in Hnd as [Hr Hnd]. apply Forall_cons in Hk as [[k0 Hk0] Hk].
  destruct (dml_step_ok shadowed c e output changed deleted m r k0) as (ch & de & m1 & Hstep & Hd1 & Hl1 & Hch1 & Hde1);
    [done|done|apply He; rewrite <- Hk0; by left|destruct Hc as [->|Hc]; [by left|right; apply Hc; rewrite <- Hk0; by left]|].
  destruct (IH (output ++ option_list (survivor (shadow_of shadowed) e r)) ch de m1) as (ch' & de' & m' & Hrun & Hd' & Hl' & Hch' & Hf' & Ht').
  - done.
  - done.
  - done.
  - intros k Hin. rewrite Hl1, decide_False; [apply He; by right|]. intros [-> _]. rewrite <- Hk0 in Hin. done.
  - destruct Hc as [->|Hc]; [by left|]. right. intros k Hin. apply Hc. by right.
  - exists ch', de', m'. cbn [for_each]. rewrite Hstep. cbn [bind]. rewrite Hrun, omap_cons_list, app_assoc.
    pose proof (length_omap_le (survivor (shadow_of shadowed) e) rows) as Hle.
    split_and!; [done|done| | | |].
    + intros k. rewrite Hl', Hl1. destruct (decide (Some k ∈ keys rows ∧ _)) as [[Hin Hs]|Hno].
      * rewrite decide_True; [done|]. split; [by right|done].
      * destruct (decide (k0 = k ∧ _)) as [[<- Hs]|Hno'].
        -- rewrite decide_True; [done|]. split; [|done]. csimpl. rewrite Hk0. by left.
        -- rewrite decide_False; [done|]. intros [[E|Hin]%elem_of_cons Hs]; [|by apply Hno].
           rewrite Hk0 in E. simplify_eq. by apply Hno'.
    + intros [E Eq]%Hch'. destruct (Hch1 E) as [-> ->]. rewrite Eq. done.
    + intros [E Eq]%Hf'. rewrite E in Hde1. destruct (survivor (shadow_of shadowed) e r); [|done]. simpl. rewrite Eq. done.
    + intros [E|E]%Ht'; rewrite length_app; simpl.
      * rewrite E in Hde1. destruct (survivor (shadow_of shadowed) e r); [by left|]. right. simpl. lia.
      * right. destruct (survivor (shadow_of shadowed) e r); simpl; lia.
Qed.

(** Under [Forbidden], a row whose key is buffered again stops the loop. *)
Lemma dml_loop_refused b e rows : ∀ output changed deleted m,
  NoDup (keys rows) → Forall (λ r, is_Some (row_key r)) rows → mat_disjoint m →
  (∀ k, Some k ∈ keys rows → mat_lookup m k = e k) →
  Exists (λ r, default false (shadow_of (Some b) <$> row_key r) = true) rows →
  ∃ text, for_each rows (output, changed, deleted, m) (dml_step pk (Some b) Forbidden) = Err (InvalidArgument text).
Proof.
  induction rows as [|r rows IH]; intros output changed deleted m Hnd Hk Hd He Hex; [by apply Exists_nil in Hex|].
  csimpl in Hnd. apply NoDup_cons in Hnd as [Hr Hnd]. apply Forall_cons in Hk as [[k0 Hk0] Hk]. cbn [for_each].
  destruct (shadow_of (Some b) k0) eqn:Es.
  { unfold dml_step. rewrite (row_key_value r k0 Hk0). cbn [ok_or bind]. change (buffered_contains b (key_to_value k0)) with (shadow_of (Some b) k0).
    rewrite Es. by eexists. }
  destruct (dml_step_ok (Some b) Forbidden e output changed deleted m r k0) as (ch & de & m1 & -> & Hd1 & Hl1 & _);
    [done|done|apply He; rewrite <- Hk0; by left|by right|]. cbn [bind]. apply IH; [done|done|done| |].
  - intros k Hin. rewrite Hl1, decide_False; [apply He; by right|]. intros [-> _]. rewrite <- Hk0 in Hin. done.
  - apply Exists_cons in Hex as [Hex|Hex]; [|done]. rewrite Hk0 in Hex. simpl in Hex. simpl in Es. congruence.
Qed.

(** ** Buffered rows *)

Definition buffered_has (b : BufferedKeys) (k : PkKey) : bool := buffered_contains b (key_to_value k).

Lemma buffered_insert_ok b k :
  ∃ b', buffered_insert b (key_to_value k) = Ok (negb (buffered_has b k), b') ∧
    ∀ k', buffered_has b' k' = bool_decide (k = k') || buffered_has b k'.
Proof.
  destruct k as [z|s]; simpl; eexists; (split; [by rewrite bool_decide_not|]); intros [z'|s']; unfold buffered_has; simpl.
  - destruct (decide (z = z')) as [<-|]; [rewrite (bool_decide_true (PkInt64 z = _)) by done; by rewrite bool_decide_true by set_solver|].
    rewrite (bool_decide_false (PkInt64 z = PkInt64 z')) by congruence. simpl. apply bool_decide_ext. set_solver.
  - done.
  - done.
  - destruct (decide (s = s')) as [<-|]; [rewrite (bool_decide_true (PkString s = _)) by done; by rewrite bool_decide_true by set_solver|].
    rewrite (bool_decide_false (PkString s = PkString s')) by congruence. simpl. apply bool_decide_ext. set_solver.
Qed.

(** The last row of every key, in order. *)
Fixpoint last_rows (rows : list row) : list row :=
  match rows with
  | [] => []
  | r :: rest => if bool_decide (row_key r ∈ keys rest) then last_rows rest else r :: last_rows rest
  end.

Lemma last_rows_keys rows k : k ∈ keys (last_rows rows) ↔ k ∈ keys rows.
Proof.
  induction rows as [|r rows IH]; [done|]. cbn [last_rows]. case_bool_decide as H; csimpl; rewrite ?elem_of_cons, IH; [|done].
  split; [by right|]. intros [->|?]; done.
Qed.

Lemma last_rows_NoDup rows : NoDup (keys (last_rows rows)).
Proof.
  induction rows as [|r rows IH]; [constructor|]. cbn [last_rows]. case_bool_decide as H; [done|]. csimpl.
  apply NoDup_cons. split; [|done]. by rewrite last_rows_keys.
Qed.

Lemma last_rows_sub rows r : r ∈ last_rows rows → r ∈ rows.
Proof.
  induction rows as [|x rows IH]; [done|]. cbn [last_rows]. case_bool_decide; [intros; right; auto|].
  intros [->|?]%elem_of_cons; [by left|right; auto].
Qed.

Lemma normalize_ok rows :
  Forall (λ r, is_Some (row_key r)) rows →
  ∃ b, normalize_buffered_rows rows pk = Ok (last_rows rows, b) ∧ ∀ k, buffered_has b k = bool_decide (Some k ∈ keys rows).
Proof.
  intros Hk. unfold normalize_buffered_rows.
  match goal with |- context [for_each _ _ ?body] => set (f := body) end.
  assert (∃ b, for_each (reverse rows) ([], mkBuffered ∅ ∅) f = Ok (reverse (last_rows rows), b) ∧
    ∀ k, buffered_has b k = bool_decide (Some k ∈ keys rows)) as (b & -> & Hb).
  2: { exists b. cbn [bind]. by rewrite reverse_involutive. }
  induction rows as [|r rows IH].
  { exists (mkBuffered ∅ ∅). split; [done|]. intros [z|s]; unfold buffered_has; simpl; by rewrite !bool_decide_false by set_solver. }
  apply Forall_cons in Hk as [[k0 Hk0] Hk]. destruct (IH Hk) as (b & Hrun & Hb). rewrite reverse_cons, for_each_app, Hrun.
  cbn [bind for_each]. unfold f at 1. rewrite (row_key_value r k0 Hk0). cbn [ok_or bind].
  destruct (buffered_insert_ok b k0) as (b' & -> & Hb'). cbn [bind]. exists b'. split.
  - cbn [last_rows]. rewrite Hb, Hk0. case_bool_decide as Hin; simpl; [done|]. by rewrite reverse_cons.
  - intros k. rewrite Hb', Hb. csimpl. rewrite Hk0.
    destruct (decide (k0 = k)) as [<-|Hne]; [by rewrite (bool_decide_true (k0 = k0)), (bool_decide_true (_ ∈ _ :: _)) by (done || by left)|].
    rewrite (bool_decide_false (k0 = k)) by done. simpl. apply bool_decide_ext. rewrite elem_of_cons. naive_solver.
Qed.
End apply.

(** ** The rewrite of the persisted groups *)

Lemma layout_cons p rest :
  layout (p :: rest) ↔
  p ≠ [] ∧ (length p ≤ NODE_GROUP_CAPACITY)%nat ∧ (rest = [] ∨ length p = NODE_GROUP_CAPACITY) ∧ layout rest.
Proof.
  pose proof capacity_pos as Hcap. split.
  - intros (full & tail & E & Hf & Ht & Hl). destruct full as [|p' full]; simpl in E.
    + destruct tail as [|t [|]]; [done| |simpl in Hl; lia]. injection E as -> ->. apply Forall_cons in Ht as [[Hne Hle] _].
      split_and!; [done|done|by left|]. exists [], []. split_and!; [done|constructor|constructor|simpl; lia].
    + injection E as -> ->. apply Forall_cons in Hf as [Hp Hf]. split_and!; [intros ->; simpl in Hp; lia|lia|by right|].
      by exists full, tail.
  - intros (Hne & Hle & Hor & full & tail & -> & Hf & Ht & Hl). destruct Hor as [E|Hp].
    + apply app_eq_nil in E as [-> ->]. exists [], [p]. split_and!; [done|constructor|by repeat constructor|done].
    + exists (p :: full), tail. split_and!; [done|by constructor|done|done].
Qed.

Lemma layout_mid a p b :
  layout (a ++ p :: b) ↔ Forall (λ q, length q = NODE_GROUP_CAPACITY) a ∧ layout (p :: b).
Proof.
  induction a as [|q a IH]; cbn [app].
  - split; [intros H; split; [constructor|done]|by intros [_ H]].
  - rewrite (layout_cons q), IH, Forall_cons. pose proof capacity_pos. split.
    + intros (_ & _ & [E|Hq] & Ha & Hl); [by apply app_eq_nil in E as [_ ?]|done].
    + intros [[Hq Ha] Hl]. split_and!; [intros ->; simpl in Hq; lia|lia|by right|done|done].
Qed.

Lemma position_ok g p rest i :
  row_count g = length p → layout (p :: rest) → validate_group_position g i (i + S (length rest)) = Ok ().
Proof.
  intros Hc (_ & _ & Hor & _)%layout_cons. unfold validate_group_position. rewrite Hc. destruct Hor as [->|Hp]; simpl.
  - by rewrite (proj2 (Nat.ltb_ge _ _)) by lia.
  - rewrite Hp, Nat.ltb_irrefl. by rewrite andb_false_r.
Qed.

Section rewrite.
Context {W : Type} `{GS : !GroupStore W} (ts : list LogicalType) (pk : nat).
Hypothesis Hts : ts ≠ [].
Hypothesis Hexact : Forall (λ t, exact_type t = true) ts.
Context (e : PkKey → option (option row)) (b : BufferedKeys).
Hypothesis He : ∀ k u, e k = Some (Some u) → row_fits ts u.

Notation row_key r := (optional_row_pk r pk).
Notation keys rows := ((λ r, row_key r) <$> rows).
Notation surviving rows := (omap (survivor pk (buffered_has b) e) rows).

Lemma surviving_fits shadow rows :
  Forall (row_fits ts) rows → Forall (row_fits ts) (omap (survivor pk shadow e) rows).
Proof.
  intros H. apply Forall_forall. intros y (x & Hx & Hy)%list_elem_of_omap. rewrite Forall_forall in H. specialize (H x Hx).
  unfold survivor in Hy. destruct (row_key x) as [k|]; [|by simplify_eq]. destruct (shadow k); [done|].
  destruct (e k) as [[u|]|] eqn:E; simplify_eq; [by eapply He|done].
Qed.

(** What the loop has built: before the first deletion groups of unchanged
    sizes, afterwards full groups and a short rest. *)
Definition rewritten (w : W) (groups : list Z) (compacted : option (list row)) (todo : list (list row)) (out : list row) : Prop :=
  match compacted with
  | None => ∃ gp, stored ts w groups gp ∧ concat gp = out ∧ layout (gp ++ todo)
  | Some pending => ∃ gp, stored ts w groups gp ∧ Forall (λ q, length q = NODE_GROUP_CAPACITY) gp ∧
      concat gp ++ pending = out ∧ Forall (row_fits ts) pending ∧ (length pending < NODE_GROUP_CAPACITY)%nat
  end.

Lemma write_back_ok w groups compacted todo out p rows ch de id :
  healthy ts w → holds ts w id p → rewritten w groups compacted (p :: todo) out → Forall (row_fits ts) rows → layout (p :: todo) →
  (ch = false → rows = p) → (de = false → length rows = length p) → (de = true → (length rows < length p)%nat) →
  ∃ groups' compacted' w', match compacted with
    | Some pending => sbind (write_full_groups ts groups (pending ++ rows)) (λ '(groups, pending), sret (groups, Some pending)) w
    | None => if (de : bool) then sret (groups, Some rows) w
        else if (ch : bool) then sbind (write_group ts rows) (λ id, sret (groups ++ [id], None)) w
        else sret (groups ++ [id], None) w
    end = (Ok (groups', compacted'), w') ∧ evolves ts w w' ∧ rewritten w' groups' compacted' todo (out ++ rows).
Proof.
  intros Hw Hid Hre Hrows Hlay Hch Hde Hdet. apply layout_cons in Hlay as (Hne & Hle & Hor & Htodo). destruct compacted as [pending|].
  - destruct Hre as (gp & Hst & Hfull & <- & Hpf & Hpl). unfold sbind, write_full_groups.
    destruct (full_groups_ok ts Hts Hexact (length (pending ++ rows)) w groups (pending ++ rows))
      as (new & parts & pending' & w' & -> & Hev & Hst' & Hcat & Hfull' & Hl' & Hf'); [done|done|by apply Forall_app|].
    exists (groups ++ new), (Some pending'), w'. split_and!; [done|done|]. exists (gp ++ parts).
    split_and!; [apply Forall2_app; [by eapply stored_evolves|done]|by apply Forall_app| |done|done].
    by rewrite concat_app, <- !app_assoc, Hcat.
  - destruct Hre as (gp & Hst & <- & Hl). destruct de.
    + exists groups, (Some rows), w. split_and!; [done|by split|]. exists gp. apply layout_mid in Hl as [Hfull _].
      split_and!; [done|done|done|done|]. specialize (Hdet eq_refl). lia.
    + specialize (Hde eq_refl).
      assert (layout (gp ++ rows :: todo)) as Hl'.
      { apply layout_mid in Hl as [Hfull _]. apply layout_mid. split; [done|]. apply layout_cons. rewrite Hde.
        split_and!; [|done|done|done]. intros ->. by destruct p. }
      assert (∀ w' id', evolves ts w w' → holds ts w' id' rows → rewritten w' (groups ++ [id']) None todo (concat gp ++ rows)) as Hdone.
      { intros w' id' Hev Hh. exists (gp ++ [rows]). split_and!.
        - apply Forall2_app; [by eapply stored_evolves|by apply stored_one].
        - rewrite concat_app. simpl. by rewrite app_nil_r.
        - by rewrite <- app_assoc. }
      destruct ch.
      * unfold sbind. destruct (write_group_ok ts Hts Hexact w rows Hw Hrows) as (id' & w' & -> & Hev & Hh);
          [intros ->; by destruct p|lia|]. exists (groups ++ [id']), None, w'. split_and!; [done|done|by apply Hdone].
      * exists (groups ++ [id]), None, w. rewrite (Hch eq_refl) in *. split_and!; [done|by split|]. apply Hdone; [by split|done].
Qed.

Definition effects_after (m m' : MaterializationEffects) (rows : list row) : Prop :=
  mat_disjoint m' ∧
  ∀ k, mat_lookup m' k = if decide (Some k ∈ keys rows ∧ buffered_has b k = false) then None else mat_lookup m k.

Lemma rewrite_step_ok c w i count id p todo groups compacted m out :
  c = Permitted ∨ (∀ k, Some k ∈ keys p → buffered_has b k = false) →
  healthy ts w → holds ts w id p → rewritten w groups compacted (p :: todo) out → layout (p :: todo) →
  count = (i + S (length todo))%nat →
  NoDup (keys p) → Forall (λ r, is_Some (row_key r)) p → mat_disjoint m → (∀ k, Some k ∈ keys p → mat_lookup m k = e k) →
  ∃ groups' compacted' m' w', rewrite_step ts count pk b c (groups, compacted, m) (i, id) w = (Ok (groups', compacted', m'), w') ∧
    evolves ts w w' ∧ rewritten w' groups' compacted' todo (out ++ surviving p) ∧ effects_after m m' p.
Proof.
  intros Hperm Hw Hid Hre Hlay -> Hnd Hkeyed Hd Hm. pose proof Hid as (_ & g & Hg & Hgh). pose proof Hgh as (_ & Hc & _ & Hfit & _).
  destruct (dml_loop_ok pk (Some b) c e p [] false false m) as (ch & de & m' & Hrun & Hd' & Hl & Hch & Hf & Ht); [done..|].
  destruct (write_back_ok w groups compacted todo out p (surviving p) ch de id) as (groups' & compacted' & w' & Hwb & Hev & Hre');
    [done|done|done|by apply surviving_fits|done|by intros [_ ?]%Hch|by intros [_ ?]%Hf|by intros [?|?]%Ht|].
  exists groups', compacted', m', w'. split; [|done]. unfold rewrite_step, sbind, read_group. rewrite Hg. unfold slift.
  rewrite (position_ok g p todo i Hc Hlay).
  rewrite (group_rows_ok g ts p Hgh). unfold apply_dml_effects. rewrite Hrun. cbn [app].
  destruct compacted as [pending|]; [|destruct de; [|destruct ch]]; unfold sbind, sret in *.
  - destruct (write_full_groups ts groups _ w) as [[[]| |] ?]; naive_solver.
  - naive_solver.
  - destruct (write_group ts _ w) as [[]?]; naive_solver.
  - naive_solver.
Qed.

Lemma effects_after_app m m1 m2 a rest :
  effects_after m m1 a → effects_after m1 m2 rest → effects_after m m2 (a ++ rest).
Proof.
  intros [_ H1] [Hd H2]. split; [done|]. intros k. rewrite H2, H1, fmap_app.
  destruct (decide (Some k ∈ keys rest ∧ _)) as [[? ?]|Hn].
  - rewrite decide_True; [done|]. rewrite elem_of_app. auto.
  - destruct (decide (Some k ∈ keys a ∧ _)) as [[? ?]|Hn']; [rewrite decide_True; [done|rewrite elem_of_app; auto]|].
    rewrite decide_False; [done|]. rewrite elem_of_app. naive_solver.
Qed.

Lemma rewrite_loop_ok c ids : ∀ i count parts w groups compacted m out,
  c = Permitted ∨ (∀ k, Some k ∈ keys (concat parts) → buffered_has b k = false) →
  healthy ts w → stored ts w ids parts → rewritten w groups compacted parts out → layout parts →
  count = (i + length parts)%nat →
  NoDup (keys (concat parts)) → Forall (λ r, is_Some (row_key r)) (concat parts) → mat_disjoint m →
  (∀ k, Some k ∈ keys (concat parts) → mat_lookup m k = e k) →
  ∃ groups' compacted' m' w',
    sfor (enumerate_from i ids) (groups, compacted, m) (rewrite_step ts count pk b c) w = (Ok (groups', compacted', m'), w') ∧
    evolves ts w w' ∧ rewritten w' groups' compacted' [] (out ++ surviving (concat parts)) ∧ effects_after m m' (concat parts).
Proof.
  induction ids as [|id ids IH]; intros i count parts w groups compacted m out Hperm Hw Hst Hre Hlay Hcount Hnd Hkeyed Hd Hm.
  { inversion Hst. subst. exists groups, compacted, m, w. split_and!; [done|by split|by rewrite app_nil_r|].
    split; [done|]. intros k. by rewrite decide_False by (by intros [?%elem_of_nil ?]). }
  inversion Hst as [|? p ? todo Hid Hst' E1 E2]. subst. cbn [concat] in *. rewrite fmap_app in Hnd.
  apply NoDup_app in Hnd as (Hnp & Hdisj & Hnt). apply Forall_app in Hkeyed as [Hkp Hkt].
  destruct (rewrite_step_ok c w i (i + length (p :: todo)) id p todo groups compacted m out)
    as (groups1 & compacted1 & m1 & w1 & Hstep & Hev1 & Hre1 & Haf1); [|done..| |].
  { destruct Hperm as [|Hperm]; [by left|right]. intros k Hk. apply Hperm. rewrite fmap_app, elem_of_app. by left. }
  { intros k Hk. apply Hm. rewrite fmap_app, elem_of_app. by left. }
  destruct (IH (S i) (i + length (p :: todo))%nat todo w1 groups1 compacted1 m1 (out ++ surviving p))
    as (groups' & compacted' & m' & w' & Hrun & Hev & Hre' & Haf).
  - destruct Hperm as [|Hperm]; [by left|right]. intros k Hk. apply Hperm. rewrite fmap_app, elem_of_app. by right.
  - apply Hev1.
  - by eapply stored_evolves.
  - done.
  - by apply layout_cons in Hlay as (_ & _ & _ & ?).
  - simpl. lia.
  - done.
  - done.
  - apply Haf1.
  - intros k Hk. rewrite (proj2 Haf1), decide_False; [apply Hm; rewrite fmap_app, elem_of_app; by right|].
    intros [Hk' _]. by apply (Hdisj (Some k)).
  - exists groups', compacted', m', w'. rewrite enumerate_from_cons. cbn [sfor]. unfold sbind. rewrite Hstep, Hrun.
    split_and!; [done|by eapply evolves_trans| |by eapply effects_after_app]. by rewrite omap_app, app_assoc.
Qed.

(** Where compaction is forbidden, the first group with a key that is buffered
    again stops the loop; the groups written before it are left behind. *)
Lemma rewrite_loop_refused k0 ids : ∀ i count parts w groups compacted m out,
  Some k0 ∈ keys (concat parts) → buffered_has b k0 = true →
  healthy ts w → stored ts w ids parts → rewritten w groups compacted parts out → layout parts →
  count = (i + length parts)%nat →
  NoDup (keys (concat parts)) → Forall (λ r, is_Some (row_key r)) (concat parts) → mat_disjoint m →
  (∀ k, Some k ∈ keys (concat parts) → mat_lookup m k = e k) →
  ∃ text w', sfor (enumerate_from i ids) (groups, compacted, m) (rewrite_step ts count pk b Forbidden) w =
    (Err (InvalidArgument text), w') ∧ evolves ts w w'.
Proof.
  intros i count parts w groups compacted m out Hin Hb. revert i count parts w groups compacted m out Hin.
  induction ids as [|id ids IH]; intros i count parts w groups compacted m out Hin Hw Hst Hre Hlay -> Hnd Hkeyed Hd Hm.
  { inversion Hst. subst. by apply elem_of_nil in Hin. }
  inversion Hst as [|? p ? todo Hid Hst' E1 E2]. subst. cbn [concat] in *. rewrite fmap_app in Hin, Hnd.
  apply NoDup_app in Hnd as (Hnp & Hdisj & Hnt). apply Forall_app in Hkeyed as [Hkp Hkt].
  assert (∀ k, Some k ∈ keys p → mat_lookup m k = e k) as Hmp by (intros k Hk; apply Hm; rewrite fmap_app, elem_of_app; by left).
  rewrite enumerate_from_cons. cbn [sfor length]. unfold sbind at 1.
  destruct (decide (Exists (λ r, default false (buffered_has b <$> row_key r) = true) p)) as [Hbad|Hgood].
  - destruct (dml_loop_refused pk b e p [] false false m Hnp Hkp Hd Hmp Hbad) as [text Herr].
    destruct Hid as (_ & g & Hg & Hgh). pose proof Hgh as (_ & Hc & _). exists text, w. split; [|by split].
    unfold rewrite_step, sbind, read_group, slift. rewrite Hg, (position_ok g p todo i Hc Hlay), (group_rows_ok g ts p Hgh).
    unfold apply_dml_effects. by rewrite Herr.
  - assert (∀ k, Some k ∈ keys p → buffered_has b k = false) as Hclear.
    { intros k (r & Hr & Hrp)%list_elem_of_fmap. destruct (buffered_has b k) eqn:E; [|done]. exfalso. apply Hgood, Exists_exists.
      exists r. split; [done|]. by rewrite <- Hr; simpl. }
    destruct (rewrite_step_ok Forbidden w i (i + S (length todo)) id p todo groups compacted m out)
      as (groups1 & compacted1 & m1 & w1 & -> & Hev1 & Hre1 & Haf1); [by right|done..|].
    destruct (IH (S i) (i + S (length todo))%nat todo w1 groups1 compacted1 m1 (out ++ surviving p)) as (text & w' & Hrun & Hev);
      [ |apply Hev1|by eapply stored_evolves|done|by apply layout_cons in Hlay as (_ & _ & _ & ?)|simpl; lia|done|done|apply Haf1| |].
    + apply elem_of_app in Hin as [Hin|]; [|done]. by rewrite Hclear in Hb.
    + intros k Hk. rewrite (proj2 Haf1), decide_False; [apply Hm; rewrite fmap_app, elem_of_app; by right|].
      intros [Hk' _]. by apply (Hdisj (Some k)).
    + exists text, w'. split; [done|by eapply evolves_trans].
Qed.
End rewrite.

(** ** The whole table *)

Lemma survivor_ext pk shadow shadow' e (rows : list row) :
  (∀ k, shadow k = shadow' k) → omap (survivor pk shadow e) rows = omap (survivor pk shadow' e) rows.
Proof. intros H. apply list_omap_ext, Forall_Forall2_diag, Forall_true. intros r. unfold survivor. destruct (optional_row_pk r pk); [by rewrite H|done]. Qed.

Section table.
Context {W : Type} `{GS : !GroupStore W} (schema : NodeTableSchema) (pk : nat).
Let ts := schema_types schema.
Hypothesis Hpk : primary_key_column schema = Ok pk.
Hypothesis Hts : ts ≠ [].
Hypothesis Hexact : Forall (λ t, exact_type t = true) ts.

Notation row_key r := (optional_row_pk r pk).
Notation keys rows := ((λ r, row_key r) <$> rows).

(** The rows left in the groups and the buffered rows that follow them. *)
Definition checkpointed_rows (e : PkKey → option (option row)) (base buffered : list row) : list row :=
  omap (survivor pk (λ k, bool_decide (Some k ∈ keys buffered)) e) base ++
  omap (survivor pk (λ _, false) e) (last_rows pk buffered).

Lemma write_rest_ok w groups compacted out rows :
  healthy ts w → rewritten ts w groups compacted [] out → Forall (row_fits ts) rows →
  ∃ ids parts w', match compacted with
    | Some pending => sbind (write_full_groups ts groups (pending ++ rows)) (λ '(groups, rows), write_partial_group ts groups rows) w
    | None => if bool_decide (rows = []) then sret groups w else materialize_rows ts groups rows w
    end = (Ok ids, w') ∧ evolves ts w w' ∧ stored ts w' ids parts ∧ layout parts ∧ concat parts = out ++ rows.
Proof.
  intros Hw Hre Hrows. destruct compacted as [pending|].
  - destruct Hre as (gp & Hst & Hfull & <- & Hpf & _). unfold sbind, write_full_groups.
    destruct (full_groups_ok ts Hts Hexact (length (pending ++ rows)) w groups (pending ++ rows))
      as (new & parts & rest & w1 & -> & Hev & Hst1 & Hcat & Hfull1 & Hl & Hf); [done|done|by apply Forall_app|].
    assert (stored ts w1 (groups ++ new) (gp ++ parts)) as Hst2 by (apply Forall2_app; [by eapply stored_evolves|done]).
    assert (Forall (λ q, length q = NODE_GROUP_CAPACITY) (gp ++ parts)) as Hfull2 by (by apply Forall_app).
    rewrite <- app_assoc, <- Hcat. unfold write_partial_group. destruct rest as [|r rest].
    + exists (groups ++ new), (gp ++ parts), w1. split_and!; [done|done|done| |by rewrite app_nil_r, concat_app].
      exists (gp ++ parts), []. split_and!; [by rewrite app_nil_r|done|constructor|simpl; lia].
    + unfold sbind. destruct (write_group_ok ts Hts Hexact w1 (r :: rest)) as (id & w2 & -> & Hev2 & Hh); [apply Hev|done|done|lia|].
      exists ((groups ++ new) ++ [id]), ((gp ++ parts) ++ [r :: rest]), w2. split_and!; [done|by eapply evolves_trans| | |].
      * apply Forall2_app; [by eapply stored_evolves|by apply stored_one].
      * exists (gp ++ parts), [r :: rest]. split_and!; [done|done| |done]. repeat constructor; [done|lia].
      * rewrite !concat_app. simpl. by rewrite app_nil_r, <- app_assoc.
  - destruct Hre as (gp & Hst & <- & Hlay). rewrite app_nil_r in Hlay. case_bool_decide as Hnil.
    + subst rows. exists groups, gp, w. split_and!; [done|by split|done|done|by rewrite app_nil_r].
    + destruct (materialize_rows_ok ts Hts Hexact w groups gp rows Hw Hrows Hst Hlay)
        as (ids & parts & w' & Hrun & Hev & Hst' & Hcat & Hl). by exists ids, parts, w'.
Qed.

Lemma materialize_with_dml_ok c w ids parts buffered m e :
  c = Permitted ∨ (∀ k, Some k ∈ keys (concat parts) → Some k ∉ keys buffered) →
  healthy ts w → stored ts w ids parts → layout parts →
  keyed_base pk (concat parts) → Forall (row_fits ts) buffered → Forall (λ r, is_Some (row_key r)) buffered →
  mat_disjoint m → (∀ k, mat_lookup m k = e k) → (∀ k u, e k = Some (Some u) → row_fits ts u) →
  (∀ k, is_Some (e k) → Some k ∈ keys (concat parts) ∨ Some k ∈ keys buffered) →
  ∃ ids' parts' m' w', materialize_rows_with_dml schema ids buffered m c w = (Ok (ids', m'), w') ∧
    evolves ts w w' ∧ stored ts w' ids' parts' ∧ layout parts' ∧
    concat parts' = checkpointed_rows e (concat parts) buffered ∧ ensure_effects_consumed m' = Ok ().
Proof.
  intros Hperm Hw Hst Hlay [Hnd Hkeyed] Hfit Hbk Hd Hm He Hdom.
  destruct (normalize_ok pk buffered Hbk) as (b & Hnorm & Hb).
  destruct (rewrite_loop_ok ts pk Hts Hexact e b He c ids 0 (length ids) parts w [] None m [])
    as (groups & compacted & m1 & w1 & Hrun & Hev1 & Hre & [Hd1 Hl1]); [|done|done|exists []; split_and!; [constructor|done|done]|done|by apply Forall2_length in Hst|done|done|done|by intros; apply Hm|].
  { destruct Hperm as [|Hperm]; [by left|right]. intros k Hk. rewrite Hb. by apply bool_decide_eq_false, Hperm. }
  destruct (dml_loop_ok pk None c e (last_rows pk buffered) [] false false m1) as (ch & de & m2 & Hrun2 & Hd2 & Hl2 & _).
  { apply last_rows_NoDup. }
  { rewrite Forall_forall in Hbk |- *. intros r Hr%last_rows_sub. auto. }
  { done. }
  { intros k Hk. apply (proj1 (last_rows_keys pk buffered _)) in Hk. rewrite Hl1, decide_False; [apply Hm|]. rewrite Hb. intros [_ E%bool_decide_eq_false]. by apply E. }
  { by right. }
  rewrite (survivor_ext pk _ (λ k, bool_decide (Some k ∈ keys buffered))) in Hre by exact Hb.
  destruct (write_rest_ok w1 groups compacted _ (omap (survivor pk (λ _, false) e) (last_rows pk buffered)) (proj1 Hev1) Hre)
    as (ids' & parts' & w' & Hwr & Hev & Hst' & Hlay' & Hcat).
  { apply (surviving_fits ts pk Hts e He). rewrite Forall_forall in Hfit |- *. intros r Hr%last_rows_sub. auto. }
  exists ids', parts', m2, w'. split_and!; [|by eapply evolves_trans|done|done|done|].
  - unfold materialize_rows_with_dml, sbind, slift, rewrite_persisted_groups, enumerate. rewrite Hpk, Hnorm. fold ts. rewrite Hrun.
    unfold apply_dml_effects. rewrite Hrun2. change (shadow_of None) with (λ _ : PkKey, false). cbn [app]. destruct compacted as [pending|]; unfold sbind, sret in *.
    + destruct (write_full_groups ts groups _ w1) as [[[? ?]| |] ?]; [|done..]. by rewrite Hwr.
    + destruct (bool_decide _); [by injection Hwr as -> ->|by rewrite Hwr].
  - apply ensure_consumed_ok. intros k. rewrite Hl2, Hl1, Hb, Hm. pose proof (last_rows_keys pk buffered (Some k)) as Hlast.
    destruct (decide (Some k ∈ keys buffered)) as [Hin|Hnin].
    + rewrite decide_True; [done|]. split; [by apply Hlast|done].
    + rewrite decide_False by (by intros [?%Hlast _]). rewrite bool_decide_false by done. destruct (e k) eqn:Ek; [|by destruct (decide _)].
      rewrite decide_True; [done|]. split; [|done]. destruct (Hdom k); [eauto|done|done].
Qed.

Lemma materialize_refused w ids parts buffered m e k0 :
  Some k0 ∈ keys (concat parts) → Some k0 ∈ keys buffered →
  healthy ts w → stored ts w ids parts → layout parts →
  keyed_base pk (concat parts) → Forall (λ r, is_Some (row_key r)) buffered →
  mat_disjoint m → (∀ k, mat_lookup m k = e k) → (∀ k u, e k = Some (Some u) → row_fits ts u) →
  ∃ text w', materialize_rows_with_dml schema ids buffered m Forbidden w = (Err (InvalidArgument text), w') ∧ evolves ts w w'.
Proof.
  intros Hin Hbuf Hw Hst Hlay [Hnd Hkeyed] Hbk Hd Hm He.
  destruct (normalize_ok pk buffered Hbk) as (b & Hnorm & Hb).
  destruct (rewrite_loop_refused ts pk Hts Hexact e b He k0 ids 0 (length ids) parts w [] None m []) as (text & w' & Hrun & Hev);
    [done|rewrite Hb; by apply bool_decide_true|done|done|exists []; split_and!; [constructor|done|done]|done
    |by apply Forall2_length in Hst|done|done|done|by intros; apply Hm|].
  exists text, w'. split; [|done].
  unfold materialize_rows_with_dml, sbind, slift, rewrite_persisted_groups, enumerate. by rewrite Hpk, Hnorm; fold ts; rewrite Hrun.
Qed.
End table.

(** ** The checkpointed rows are the abstract table *)

Section abstract.
Context (pk : nat).

Notation row_key r := (optional_row_pk r pk).
Notation keys rows := ((λ r, row_key r) <$> rows).

Definition inserted (ops : list TableOp) : list row :=
  omap (λ op, match op with OpInsert r => Some r | _ => None end) ops.

Lemma inserted_commit_ops table d : inserted (commit_ops table d) = table_rows (nodes d) table.
Proof.
  unfold inserted, commit_ops. rewrite !omap_app.
  generalize (table_rows (node_updates d) table), (table_rows (node_deletes d) table), (table_rows (nodes d) table).
  intros us ds ns. induction us; csimpl; [|done]. induction ds; csimpl; [|done]. induction ns; csimpl; congruence.
Qed.

Lemma push_inserted ops : ∀ rows, foldl push_op rows ops = rows ++ (Some <$> inserted ops).
Proof.
  induction ops as [|op ops IH]; intros rows; [by rewrite app_nil_r|]. cbn [foldl]. rewrite IH.
  destruct op; csimpl; [done|done|]. by rewrite <- app_assoc.
Qed.

Lemma has_key_exists k rows : existsb (has_key pk k) (Some <$> rows) = bool_decide (Some k ∈ keys rows).
Proof.
  induction rows as [|r rows IH]; [done|]. csimpl. rewrite IH. symmetry.
  rewrite (bool_decide_ext _ (row_key r = Some k ∨ Some k ∈ keys rows)) by (rewrite elem_of_cons; naive_solver).
  apply bool_decide_or.
Qed.

Lemma checkpointed_masked eff e base ins :
  (∀ k, eff !! k = to_visible (e k)) → NoDup (keys base) →
  Forall (λ r, is_Some (row_key r)) base → Forall (λ r, is_Some (row_key r)) ins →
  live_rows (masked pk eff ((Some <$> base) ++ (Some <$> ins))) = checkpointed_rows pk e base ins.
Proof.
  intros Heff Hnd Hbase Hins. unfold checkpointed_rows.
  assert (∀ k r (rest : list row), row_key r = Some k → fate eff k r = survivor pk (λ _, false) e r) as Hfate.
  { intros k r _ Hk. unfold fate, survivor. rewrite Heff, Hk. by destruct (e k) as [[]|]. }
  induction base as [|r base IH].
  - cbn [app fmap list_fmap omap list_omap]. clear Hnd Hbase. induction ins as [|r ins IHi]; [done|].
    apply Forall_cons in Hins as [[k Hk] Hins]. rewrite fmap_cons. cbn [masked last_rows].
    rewrite live_cons, Hk, has_key_exists, IHi by done. case_bool_decide; [done|]. rewrite omap_cons_list. by rewrite (Hfate k r ins).
  - csimpl in Hnd. apply NoDup_cons in Hnd as [Hr Hnd]. apply Forall_cons in Hbase as [[k Hk] Hbase].
    rewrite fmap_cons. cbn [app masked]. rewrite live_cons, IH, Hk, <- fmap_app, has_key_exists, omap_cons_list, <- app_assoc by done.
    rewrite Hk in Hr. f_equal.
    rewrite (bool_decide_ext _ (Some k ∈ keys ins)) by (rewrite fmap_app, elem_of_app; naive_solver).
    rewrite (Hfate k r ins) by done. unfold survivor. rewrite Hk. by case_bool_decide.
Qed.

Lemma table_op_keys t op x :
  x ∈ keys (table_op pk t op) → x ∈ keys t ∨ x ∈ keys (inserted [op]).
Proof.
  rewrite !list_elem_of_fmap. destruct op as [r|v|r]; unfold table_op; csimpl.
  - destruct (row_key r) as [k|] eqn:Hk; [|eauto]. intros (y & -> & (z & -> & Hz)%list_elem_of_fmap). left. exists z.
    by rewrite replace_row_key.
  - destruct (value_key v) as [k|]; [|eauto]. intros (y & -> & [_ Hy]%elem_of_without). eauto.
  - intros (y & -> & [Hy| ->%list_elem_of_singleton]%elem_of_app).
    + left. exists y. split; [done|]. destruct (row_key r); [by apply elem_of_without in Hy as [_ ?]|done].
    + right. exists r. split; [done|]. by left.
Qed.

Lemma effect_target ops k : ∀ t eff,
  valid_history pk t ops → is_Some (foldl (effect_step pk k) eff ops) →
  is_Some eff ∨ Some k ∈ keys t ∨ Some k ∈ keys (inserted ops).
Proof.
  induction ops as [|op ops IH]; intros t eff Hv He; [by left|]. destruct Hv as [Hop Hv]. cbn [foldl] in He.
  assert (inserted (op :: ops) = inserted [op] ++ inserted ops) as -> by (by destruct op).
  rewrite fmap_app, elem_of_app. destruct (IH _ _ Hv He) as [H|[H|H]]; [|apply table_op_keys in H; tauto|tauto].
  unfold effect_step in H. destruct (decide _) as [Hk|]; [|by left]. destruct Hop as [_ Hop].
  assert (∀ y, row_key y = op_key pk op → y ∈ t → Some k ∈ keys t) as Hin.
  { intros y Hy Hyt. apply list_elem_of_fmap. exists y. split; [congruence|done]. }
  destruct op as [r|v|r]; [apply Exists_exists in Hop as (y & Hy & Hyk)..|by destruct H]; eauto.
Qed.

Lemma effect_update ops k u : ∀ eff,
  foldl (effect_step pk k) eff ops = Some (Some u) → eff = Some (Some u) ∨ OpUpdate u ∈ ops.
Proof.
  induction ops as [|op ops IH]; intros eff H; [by left|]. cbn [foldl] in H. apply IH in H as [H|H]; [|right; by right].
  unfold effect_step in H. destruct (decide _); [|by left]. destruct op; simplify_eq. right. by left.
Qed.

Lemma run_ops_checkpointed base ops :
  keyed_base pk base → valid_history pk base ops →
  run_ops pk ops base = checkpointed_rows pk (last_effect pk ops) base (inserted ops).
Proof.
  intros [Hnd Hbase] Hv. pose proof (valid_history_keyed _ _ _ Hv) as Hk.
  assert (live_rows (masked pk ∅ (Some <$> base)) = base) as Hstart by (rewrite masked_start by done; apply live_Some).
  destruct (own_masked pk ops (Some <$> base) ∅) as [_ Hrun]; [by intros ? ? ?%lookup_empty_Some|by rewrite Hstart|].
  rewrite Hstart in Hrun. rewrite <- Hrun, push_inserted. apply checkpointed_masked; [|done|done|].
  - intros k. by apply eff_run_lookup.
  - rewrite Forall_forall in Hk. apply Forall_forall. intros r (op & Hop & E)%list_elem_of_omap. specialize (Hk op Hop). by destruct op; simplify_eq.
Qed.
End abstract.

(** ** A checkpoint of one table *)

Section checkpoint.
Context {W : Type} `{GS : !GroupStore W} (schema : NodeTableSchema) (pk : nat).
Let ts := schema_types schema.
Let table := node_name schema.
Hypothesis Hpk : primary_key_column schema = Ok pk.
Hypothesis Hexact : Forall (λ t, exact_type t = true) ts.

Lemma types_nonempty : ts ≠ [].
Proof.
  unfold primary_key_column in Hpk. apply ok_or_Ok, fmap_Some in Hpk as ([i c] & Hf & _).
  apply list_find_Some in Hf as (Hc & _). unfold ts, schema_types. by destruct (node_columns schema).
Qed.

(** Inserted and replacement rows fit the schema. *)
Definition op_fits (op : TableOp) : Prop :=
  match op with OpUpdate r | OpInsert r => row_fits ts r | OpDelete _ => True end.

Lemma validate_row_fits r : row_fits ts r → validate_row schema r = Ok ().
Proof.
  unfold row_fits, ts, schema_types, validate_row. intros H. pose proof (Forall2_length _ _ _ H) as Hl. rewrite length_fmap in Hl.
  rewrite (proj2 (Nat.eqb_eq _ _) Hl). cbn [negb]. enough (forallb (λ cv, matches_type cv.2 (ty cv.1)) (zip (node_columns schema) r) = true) as -> by done.
  clear Hl. revert H. generalize (node_columns schema). intros cs. revert r. induction cs as [|c cs IH]; intros r H; [done|].
  inversion H as [|v ? r' ? Hv Hr E1 E2]. subst. simpl. by rewrite Hv, IH.
Qed.

Lemma recover_inserts_ok head :
  Forall op_fits (chain_ops head table) → recover_overlay_inserts head schema = Ok (inserted (chain_ops head table)).
Proof.
  unfold recover_overlay_inserts, chain_ops. fold table. generalize (commit_links_oldest_first head). intros links Hf.
  assert (∀ rows acc, Forall (row_fits ts) rows → for_each rows acc (recover_row schema) = Ok (acc ++ rows)) as Hrows.
  { induction rows as [|r rows IH]; intros acc Hr; [by rewrite app_nil_r|]. apply Forall_cons in Hr as [Hr Hrows]. cbn [for_each].
    unfold recover_row at 1. rewrite validate_row_fits by done. cbn [bind]. rewrite IH by done. by rewrite <- app_assoc. }
  assert (∀ acc, for_each links acc (λ buffered link, for_each (table_rows (nodes (delta link)) table) buffered (recover_row schema)) =
    Ok (acc ++ inserted (links ≫= λ link, commit_ops table (delta link)))) as Hlinks; [|apply Hlinks].
  induction links as [|link links IH]; intros acc; [by rewrite app_nil_r|]. csimpl in Hf. apply Forall_app in Hf as [Hl Hf].
  cbn [for_each]. rewrite Hrows. 2: { unfold commit_ops in Hl. rewrite !Forall_app, !Forall_fmap in Hl. apply Hl. }
  cbn [bind]. rewrite IH by done. csimpl. unfold inserted at 2. rewrite omap_app. fold (inserted (commit_ops table (delta link))).
  by rewrite inserted_commit_ops, <- app_assoc.
Qed.

Lemma validate_effects_ok c effects :
  c = Permitted ∨ tombstones effects = ∅ →
  effects_ok pk effects → (∀ k u, updates effects !! k = Some u → row_fits ts u) →
  validate_dml_effects schema effects c = Ok ().
Proof.
  intros Hperm [Hd Hk] Hfit. unfold validate_dml_effects.
  assert (negb (bool_decide (tombstones effects = ∅)) && match c with Forbidden => true | Permitted => false end = false) as ->.
  { destruct Hperm as [->| ->]; [apply andb_false_r|by rewrite bool_decide_true]. }
  rewrite bool_decide_true.
  2: { apply elem_of_equiv_empty_L. intros k [Hu Ht]%elem_of_intersection. apply elem_of_dom in Hu as [u Hu]. rewrite (Hd k Ht) in Hu. done. }
  rewrite Hpk. cbn [bind]. assert (Forall (λ kr, optional_row_pk kr.2 pk = Some kr.1 ∧ row_fits ts kr.2) (map_to_list (updates effects))) as Hall.
  { apply Forall_forall. intros [k u] H%elem_of_map_to_list. split; [by apply Hk|by eapply Hfit]. }
  induction Hall as [|[k u] l [Hku Hfu] _ IH]; [done|]. cbn [for_each]. cbn in Hku, Hfu. rewrite (validate_row_fits u Hfu). cbn [map_err bind].
  unfold index. rewrite (row_key_value pk u k Hku). cbn [expect bind]. enough (key_matches_value k (key_to_value k) = true) as -> by done.
  destruct k; simpl; [apply Z.eqb_refl|by rewrite bool_decide_true].
Qed.

Lemma scan_ok w catalog parts :
  stored ts w (stored_groups catalog table) parts → layout parts → scan schema [] catalog w = (Ok (concat parts), w).
Proof.
  unfold scan. fold table ts. generalize (stored_groups catalog table). intros ids Hst Hlay.
  assert (∀ ids i count parts acc, stored ts w ids parts → layout parts → count = (i + length parts)%nat →
    sfor (enumerate_from i ids) acc (λ rows '(i, id), sbind (read_group id ts) (λ group,
      sbind (slift (validate_group_position group i count)) (λ _, sbind (slift (group_rows group)) (λ r, sret (rows ++ r))))) w =
    (Ok (acc ++ concat parts), w)) as Hloop.
  { clear. induction ids as [|id ids IH]; intros i count parts acc Hst Hlay ->.
    { inversion Hst. subst. simpl. by rewrite app_nil_r. }
    inversion Hst as [|? p ? rest (_ & g & Hg & Hgh) Hst' E1 E2]. subst. rewrite enumerate_from_cons. cbn [sfor].
    unfold sbind at 1 2 3 4, read_group at 1, slift at 1 2. rewrite Hg. pose proof Hgh as (_ & Hc & _).
    cbn [length]. rewrite (position_ok g p rest i Hc Hlay). apply layout_cons in Hlay as (_ & _ & _ & Hlay).
    rewrite (group_rows_ok g ts p Hgh). unfold sret at 1. rewrite (IH (S i) _ rest (acc ++ p)); [|done|done|simpl; lia].
    simpl. by rewrite app_assoc. }
  unfold sbind at 1, enumerate. rewrite (Hloop ids 0%nat (length ids) parts []); [|done|done|by apply Forall2_length in Hst].
  unfold sret. by rewrite app_nil_r.
Qed.
End checkpoint.

Lemma table_op_keyed pk t op : op_valid pk t op → keyed_base pk t → keyed_base pk (table_op pk t op).
Proof.
  intros [[k Hk] _] [Hnd Hall].
  assert (keyed_base pk (without pk k t)) as [Hnd' Hall'].
  { unfold without. split; [|rewrite Forall_forall in Hall |- *; intros x [_ Hx]%list_elem_of_filter; auto]. eapply sublist_NoDup; [exact Hnd|]. apply fmap_sublist, sublist_filter. }
  destruct op as [r|v|r]; cbn [op_key table_op] in *; rewrite Hk; [|done|].
  - split.
    + rewrite <- list_fmap_compose. erewrite list_fmap_ext; [exact Hnd|]. intros i x _. simpl. by apply replace_row_key.
    + apply Forall_fmap. eapply Forall_impl; [exact Hall|]. intros x Hx. simpl. by rewrite replace_row_key.
  - split.
    + rewrite fmap_app. apply NoDup_app. split_and!; [done| |apply NoDup_singleton]. intros x Hx ->%list_elem_of_singleton. rewrite Hk in Hx.
      apply list_elem_of_fmap in Hx as (y & Hy & Hin). apply elem_of_without in Hin as [? _]. done.
    + apply Forall_app. split; [done|]. repeat constructor. by rewrite Hk.
Qed.

Lemma run_ops_keyed pk ops : ∀ t, valid_history pk t ops → keyed_base pk t → keyed_base pk (run_ops pk ops t).
Proof. induction ops as [|op ops IH]; intros t Hv Ht; [done|]. destruct Hv as [Hop Hv]. apply IH; [done|]. by apply table_op_keyed. Qed.

(** A table at rest: its groups hold rows with distinct keys, and the store can
    take more. *)
Definition table_in_store `{GroupStore W} (w : W) (catalog : Catalog) (schema : NodeTableSchema) (pk : nat) (parts : list (list row)) : Prop :=
  healthy (schema_types schema) w ∧ stored (schema_types schema) w (stored_groups catalog (node_name schema)) parts ∧
  layout parts ∧ keyed_base pk (concat parts).

Lemma primary_key_named schema pk : primary_key_column schema = Ok pk → ∃ n, primary_key_of schema = Ok (pk, n).
Proof. unfold primary_key_column, primary_key_of. intros ([i c] & Hf & ->)%ok_or_Ok%fmap_Some. rewrite Hf. simpl. eauto. Qed.

Section result.
Context {W : Type} `{GS : !GroupStore W} (schema : NodeTableSchema) (pk : nat).
Hypothesis Hpk : primary_key_column schema = Ok pk.
Hypothesis Hexact : Forall (λ t, exact_type t = true) (schema_types schema).

Notation table := (node_name schema).

Lemma chain_effects head :
  Forall (λ op, is_Some (op_key pk op)) (chain_ops head table) →
  ∃ effects, node_dml_effects pk head table = Ok effects ∧ effects_ok pk effects ∧
    ∀ k, key_effect effects k = last_effect pk (chain_ops head table) k.
Proof.
  intros Hk. rewrite effects_chain_ops. destruct (effects_ops_ok pk _ _ (no_effects_ok pk) Hk) as (e & -> & Hok & Heff).
  exists e. split_and!; [done|done|]. intros k. by rewrite Heff, no_effects_key.
Qed.

Lemma no_effects_rows effects (base : list row) :
  updates effects = ∅ → Overlay.tombstones effects = ∅ → checkpointed_rows pk (key_effect effects) base [] = base.
Proof.
  intros Hu Ht. unfold checkpointed_rows. cbn [last_rows omap list_omap]. rewrite app_nil_r.
  induction base as [|r base IH]; [done|]. rewrite omap_cons_list, IH. unfold survivor. destruct (optional_row_pk r pk); [|done].
  unfold key_effect. rewrite Hu, Ht, decide_False by set_solver. by rewrite bool_decide_false by (apply not_elem_of_nil).
Qed.

Lemma effects_fit effects ts' :
  (∀ k u, updates effects !! k = Some u → row_fits ts' u) → ∀ k u, key_effect effects k = Some (Some u) → row_fits ts' u.
Proof. intros Hfit k u. unfold key_effect. destruct (decide _); [done|]. intros (x & Hx & [= ->])%fmap_Some. by eapply Hfit. Qed.

(** What the chain's operations say of the buffered rows and the effects. *)
Lemma inserted_fit ops : Forall (op_fits schema) ops → Forall (row_fits (schema_types schema)) (inserted ops).
Proof.
  intros Hf. apply Forall_forall. intros r (op & Hop & E)%list_elem_of_omap. rewrite Forall_forall in Hf. specialize (Hf op Hop).
  by destruct op; simplify_eq.
Qed.

Lemma inserted_keyed ops : Forall (λ op, is_Some (op_key pk op)) ops → Forall (λ r, is_Some (optional_row_pk r pk)) (inserted ops).
Proof.
  intros Hk. apply Forall_forall. intros r (op & Hop & E)%list_elem_of_omap. rewrite Forall_forall in Hk. specialize (Hk op Hop).
  by destruct op; simplify_eq.
Qed.

Lemma updates_fit effects ops :
  effects_ok pk effects → (∀ k, key_effect effects k = last_effect pk ops k) → Forall (op_fits schema) ops →
  ∀ k u, updates effects !! k = Some u → row_fits (schema_types schema) u.
Proof.
  intros Hok Hlast Hf k u Hu. assert (key_effect effects k = Some (Some u)) as He.
  { unfold key_effect. rewrite decide_False; [by rewrite Hu|]. intros Ht. by rewrite (proj1 Hok k Ht) in Hu. }
  rewrite Hlast in He. apply effect_update in He as [?|Hop]; [done|]. rewrite Forall_forall in Hf. exact (Hf _ Hop).
Qed.

Lemma tombstones_nonempty effects ops :
  (∀ k, key_effect effects k = last_effect pk ops k) → (∃ k, last_effect pk ops k = Some None) ↔ tombstones effects ≠ ∅.
Proof.
  intros Hlast. split.
  - intros [k Hk] Ht. rewrite <- Hlast in Hk. unfold key_effect in Hk. rewrite Ht, decide_False in Hk by apply not_elem_of_empty.
    by destruct (updates effects !! k).
  - intros [k Hk]%set_choose_L. exists k. rewrite <- Hlast. unfold key_effect. by rewrite decide_True.
Qed.

(** [materialize_node_table] is the checkpoint of the inserted rows and the
    effects of the chain. *)
Lemma materialize_checkpoint state head identity catalog w effects :
  node_table state table = Some schema → Forall (op_fits schema) (chain_ops head table) →
  node_dml_effects pk head table = Ok effects →
  materialize_node_table state head schema identity catalog w =
    sbind (checkpoint_with_dml schema (inserted (chain_ops head table)) catalog effects (delete_compaction_for catalog table identity))
      (λ '(_, catalog), sret catalog) w.
Proof.
  intros Hstate Hf Heff. unfold primary_key_column in Hpk. apply ok_or_Ok, fmap_Some in Hpk as ([i c] & Hfind & ->).
  unfold materialize_node_table, sbind, slift. rewrite (recover_inserts_ok schema head Hf).
  unfold state_dml_effects. cbn [state_catalog state_chain]. rewrite Hstate. cbn [ok_or bind]. rewrite Hfind. cbn [ok_or bind].
  cbn [fst] in Heff. by rewrite Heff.
Qed.

Lemma checkpoint_ok c w catalog parts buffered effects :
  c = Permitted ∨ tombstones effects = ∅ ∧
    (∀ k, Some k ∈ (λ r, optional_row_pk r pk) <$> concat parts → Some k ∉ (λ r, optional_row_pk r pk) <$> buffered) →
  node_table catalog table = Some schema → catalog_ok catalog → table_in_store w catalog schema pk parts →
  Forall (row_fits (schema_types schema)) buffered → Forall (λ r, is_Some (optional_row_pk r pk)) buffered →
  effects_ok pk effects → (∀ k u, updates effects !! k = Some u → row_fits (schema_types schema) u) →
  (∀ k, is_Some (key_effect effects k) → Some k ∈ (λ r, optional_row_pk r pk) <$> concat parts ∨ Some k ∈ (λ r, optional_row_pk r pk) <$> buffered) →
  ∃ catalog' parts' w', checkpoint_with_dml schema buffered catalog effects c w = (Ok ([], catalog'), w') ∧
    healthy (schema_types schema) w' ∧ stored (schema_types schema) w' (stored_groups catalog' table) parts' ∧ layout parts' ∧
    concat parts' = checkpointed_rows pk (key_effect effects) (concat parts) buffered ∧
    ∀ m, fold m ≠ fold table → storage_state catalog' m = storage_state catalog m.
Proof.
  intros Hperm Hcat Hcok (Hw & Hst & Hlay & Hkb) Hbf Hbk Hok Hfit Hdom. unfold checkpoint_with_dml.
  destruct (bool_decide (buffered = []) && bool_decide (updates effects = ∅) && bool_decide (Overlay.tombstones effects = ∅)) eqn:Hnone.
  { apply andb_true_iff in Hnone as [[->%bool_decide_eq_true Hu%bool_decide_eq_true]%andb_true_iff Ht%bool_decide_eq_true].
    exists catalog, parts, w. split_and!; [done|done|done|done|by rewrite no_effects_rows|done]. }
  unfold sbind, slift, ensure_catalog_schema. rewrite Hcat. cbn [ok_or bind]. rewrite bool_decide_true by done.
  rewrite (validate_effects_ok schema pk Hpk c effects) by naive_solver.
  destruct (materialize_with_dml_ok schema pk Hpk (types_nonempty schema pk Hpk) Hexact c w (stored_groups catalog table) parts buffered
    (mat_from effects) (key_effect effects)) as (ids & parts' & m' & w' & -> & Hev & Hst' & Hlay' & Hrows & ->);
    [naive_solver|done|done|done|done|done|done|apply mat_from_disjoint, Hok|apply mat_from_lookup|by apply effects_fit|done|].
  destruct (set_table_storage catalog table (mkTableStorage ids)) as [catalog'|err|] eqn:Hset.
  2,3: unfold set_table_storage in Hset; by rewrite Hcat in Hset.
  exists catalog', parts', w'. pose proof (λ m, set_table_storage_get _ _ _ _ m Hcok Hset) as Hget.
  split_and!; [done|apply Hev| |done|done|].
  - unfold stored_groups, table_storage. rewrite Hget, decide_True by done. done.
  - intros m Hm. by rewrite Hget, decide_False.
Qed.

Lemma checkpoint_refused w catalog parts buffered effects :
  tombstones effects ≠ ∅ ∨
    (∃ k, Some k ∈ (λ r, optional_row_pk r pk) <$> concat parts ∧ Some k ∈ (λ r, optional_row_pk r pk) <$> buffered) →
  node_table catalog table = Some schema → table_in_store w catalog schema pk parts →
  Forall (λ r, is_Some (optional_row_pk r pk)) buffered →
  effects_ok pk effects → (∀ k u, updates effects !! k = Some u → row_fits (schema_types schema) u) →
  ∃ text w', checkpoint_with_dml schema buffered catalog effects Forbidden w = (Err (InvalidArgument text), w') ∧
    table_in_store w' catalog schema pk parts.
Proof.
  intros Hbad Hcat Hin Hbk Hok Hfit. pose proof Hin as (Hw & Hst & Hlay & Hkb). unfold checkpoint_with_dml.
  assert (bool_decide (buffered = []) && bool_decide (updates effects = ∅) && bool_decide (tombstones effects = ∅) = false) as ->.
  { destruct Hbad as [Hbad|(k & _ & Hk)]; [by rewrite (bool_decide_false _ Hbad), andb_false_r|].
    by destruct buffered; [apply elem_of_nil in Hk|]. }
  unfold sbind, slift, ensure_catalog_schema. rewrite Hcat. cbn [ok_or bind]. rewrite bool_decide_true by done.
  destruct (decide (tombstones effects = ∅)) as [Ht|Ht]; cycle 1.
  { unfold validate_dml_effects. rewrite bool_decide_false by done. cbn [negb andb]. by eexists _, w. }
  destruct Hbad as [?|(k & Hk & Hkb')]; [done|].
  rewrite (validate_effects_ok schema pk Hpk Forbidden effects) by naive_solver.
  destruct (materialize_refused schema pk Hpk (types_nonempty schema pk Hpk) Hexact w (stored_groups catalog table) parts buffered
    (mat_from effects) (key_effect effects) k) as (text & w' & -> & Hev);
    [done|done|done|done|done|done|done|apply mat_from_disjoint, Hok|apply mat_from_lookup|by apply effects_fit|].
  exists text, w'. split; [done|]. split_and!; [apply Hev|by eapply stored_evolves|done|done].
Qed.
End result.

#[local] Instance delete_compaction_eq_dec : EqDecision DeleteCompaction.
Proof. solve_decision. Defined.

(** Does materializing the chain take a physical row away, and so shift the
    offsets after it?  Either a stored key is inserted again, or a key of the
    table is last deleted. *)
Definition last_deleted (pk : nat) (ops : list TableOp) (r : row) : bool :=
  match optional_row_pk r pk ≫= last_effect pk ops with Some None => true | _ => false end.

Definition displaces (pk : nat) (base : list row) (ops : list TableOp) : bool :=
  existsb (λ r, bool_decide (optional_row_pk r pk ∈ (λ r, optional_row_pk r pk) <$> inserted ops)) base ||
  existsb (last_deleted pk ops) (base ++ inserted ops).

Lemma displaces_spec pk base ops :
  keyed_base pk base → valid_history pk base ops →
  let keys rows := (λ r, optional_row_pk r pk) <$> rows in
  if displaces pk base ops
  then (∃ k, last_effect pk ops k = Some None) ∨ (∃ k, Some k ∈ keys base ∧ Some k ∈ keys (inserted ops))
  else (∀ k, last_effect pk ops k ≠ Some None) ∧ ∀ k, Some k ∈ keys base → Some k ∉ keys (inserted ops).
Proof.
  intros [_ Hbase] Hv keys. unfold displaces. destruct (existsb _ base) eqn:Er; [|destruct (existsb _ (base ++ _)) eqn:Ed]; cbn [orb].
  - apply existsb_exists in Er as (r & Hr%list_elem_of_In & Hin%bool_decide_eq_true). right.
    rewrite Forall_forall in Hbase. destruct (Hbase r Hr) as [k Hk]. exists k. rewrite <- Hk. split; [|done].
    apply list_elem_of_fmap. by exists r.
  - apply existsb_exists in Ed as (r & _ & Hd). left. unfold last_deleted in Hd.
    destruct (optional_row_pk r pk) as [k|]; [|done]. exists k. simpl in Hd. by destruct (last_effect pk ops k) as [[]|].
  - split.
    + intros k Hk. apply not_true_iff_false in Ed. apply Ed, existsb_exists.
      destruct (effect_target pk ops k base None Hv) as [?%is_Some_None|Ht]; [by eexists|done|].
      rewrite <- elem_of_app, <- fmap_app in Ht. apply list_elem_of_fmap in Ht as (r & Hr & Hin). exists r.
      split; [by apply list_elem_of_In|]. unfold last_deleted. rewrite <- Hr. simpl. by rewrite Hk.
    + intros k (r & Hr & Hin)%list_elem_of_fmap Hins. apply not_true_iff_false in Er. apply Er, existsb_exists. exists r.
      split; [by apply list_elem_of_In|]. apply bool_decide_eq_true. by rewrite <- Hr.
Qed.


(** A store that keeps the groups in a list and names them by position. *)
Definition mem_read (w : list NodeGroup) (id : Z) (ts : list LogicalType) : outcome NodeGroup :=
  match w !! Z.to_nat id with
  | Some g => if bool_decide (types g = ts) then Ok g else Err (Corrupt "node group column types differ")
  | None => Err (NotFound "node group")
  end.

#[export, refine] Instance memory_store : GroupStore (list NodeGroup) := {
  group_write w g := (Ok (Z.of_nat (length w)), w ++ [g]);
  group_read := mem_read;
  group_read_column w id ts c :=
    let! g := mem_read w id ts in let! column := ok_or (columns g !! c) (Corrupt "no column") in Ok (column, row_count g);
  group_row_count w id n :=
    let! g := ok_or (w !! Z.to_nat id) (NotFound "node group") in
    if (length (types g) =? n)%nat then Ok (row_count g) else Err (Corrupt "node group column count differs");
  healthy _ _ := True;
  in_use w id := (Z.to_nat id < length w)%nat;
}.
Proof.
  - intros w g id w' _ _ [= <- <-]. split; [rewrite length_app; simpl; lia|]. unfold mem_read. rewrite Nat2Z.id, lookup_app_r, Nat.sub_diag by done. simpl. by rewrite bool_decide_true.
  - intros w g r w' id [= <- <-] Hu. split; [rewrite length_app; lia|]. intros ts g'. unfold mem_read.
    destruct (w !! Z.to_nat id) as [g0|] eqn:E; [|done]. by rewrite (lookup_app_l_Some _ _ _ _ E).
  - intros w id ts c t g column Hg _ _ Hc. rewrite Hg. cbn [bind]. by rewrite Hc.
  - intros w id ts g. unfold mem_read. destruct (w !! Z.to_nat id) as [g0|]; [|done]. case_bool_decide as E; [|done].
    intros [= ->]. simpl. by rewrite E, Nat.eqb_refl.
  - intros w g _ _ _. eauto.
Defined.

#[local] Transparent NODE_GROUP_CAPACITY.

Definition ex_store : list NodeGroup := [mkNodeGroup [TInt64; TInt64] [[Int64 1; Int64 2]; [Int64 10; Int64 20]] 2].
Definition ex_catalog : Catalog := mkCatalog [ex_schema] [] {[ ex_table := NodeStorage (mkTableStorage [0]) ]} [] None [].

Lemma ex_in_store : table_in_store ex_store ex_catalog ex_schema 0 [ex_base].
Proof.
  split_and!; [exact I| | |].
  - apply stored_one. split; [vm_compute; lia|]. eexists. split; [vm_compute; reflexivity|].
    split_and!; [reflexivity|reflexivity|vm_compute; reflexivity|repeat constructor|apply (bool_decide_unpack _); vm_compute; exact I].
  - apply layout_cons. split_and!; [done|apply (bool_decide_unpack _); vm_compute; exact I|by left|].
    exists [], []. split_and!; [done|constructor|constructor|cbn; lia].
  - split; [apply (bool_decide_unpack _); vm_compute; exact I|repeat constructor; vm_compute; eauto].
Qed.

(** The same table with a relationship table that refers to it. *)
Definition ex_knows : RelTableSchema := mkRelSchema [75] ex_table ex_table [mkColumn [119] TInt64 false].
Definition ex_referenced : Catalog :=
  mkCatalog [ex_schema] [ex_knows] {[ ex_table := NodeStorage (mkTableStorage [0]) ]} [] None [].

Lemma ex_referenced_in_store : table_in_store ex_store ex_referenced ex_schema 0 [ex_base].
Proof.
  destruct ex_in_store as (? & Hst & ?). split; [done|]. split; [|done].
  assert (stored_groups ex_referenced (node_name ex_schema) = stored_groups ex_catalog (node_name ex_schema)) as -> by (vm_compute; reflexivity).
  done.
Qed.

Lemma ex_catalogs_ok : catalog_ok ex_catalog ∧ catalog_ok ex_referenced.
Proof.
  split; apply catalog_reachable_ok;
    (eapply rtc_l; [eapply (step_add_node _ ex_table (node_columns ex_schema)); vm_compute; reflexivity|]);
    (eapply rtc_l; [eapply (step_table_storage _ ex_table (mkTableStorage [0])); vm_compute; reflexivity|]).
  - apply rtc_refl.
  - eapply rtc_l; [eapply (step_add_rel _ [75] ex_table ex_table [mkColumn [119] TInt64 false]); vm_compute; reflexivity|].
    apply rtc_refl.
Qed.

(** A chain that only updates a row and inserts a new one. *)
Definition ex_growing : option CommitLink := Some (mkLink None 5 (ex_delta [ex_row 1 11] [] [ex_row 3 30]) 0).

