(* ===== verification/Lookup.v ===== *)
(** Finding a row by primary key: the lazily built index over checkpointed
    groups ([devondb-storage/src/overlay.rs]) and key resolution through a
    view ([devondb/src/database/view.rs]).

    The index is derived data whose memory is charged to a shared budget that
    may refuse at any moment; then the caller scans instead.  Whatever the
    budget and the allocator answer, and whenever the caches are shed, a lookup
    gives what a scan of the groups gives.  The budget is an arbitrary state [B]
    with its answers; the release of a dropped index's charge does not
    influence any answer and is left out (see [Budget.v]). *)

From stdpp Require Import gmap sorting.
From S2P Require Import Prelude Bytes Types Schema TxnLog Catalog Overlay View NodeTable Checkpoint.

#[local] Opaque NODE_GROUP_CAPACITY.


(** ** Locations *)

Definition PK_INDEX_BASE_BYTES : Z := 128.
Definition PK_INDEX_INT_ENTRY_BYTES : Z := 48.
Definition PK_INDEX_STRING_ENTRY_BYTES : Z := 64.
Definition PK_INDEX_GROUP_BYTES : Z := 32.

Record GroupLocation := mkLocation { page_id : Z; start_offset : Z; loc_row_count : Z }.

Definition checked_sub (a b : Z) : option Z := if b <=? a then Some (a - b) else None.

Definition row_index (self : GroupLocation) (offset : Z) : outcome nat :=
  let! row := ok_or (checked_sub offset (start_offset self)) (Corrupt "indexed node offset precedes its containing group") in
  if loc_row_count self <=? row then Err (Corrupt "indexed node offset exceeds its containing group") else Ok (Z.to_nat row).

Record PkResolutionIndex := mkPkIndex {
  integer_offsets : gmap Z Z;
  string_offsets : gmap (list Z) Z;
  pk_groups : list GroupLocation;
  pk_charged_bytes : Z;
}.

Definition new_pk_index : PkResolutionIndex := mkPkIndex ∅ ∅ [] 0.

Definition pk_offset (self : PkResolutionIndex) (key : Value) : option Z :=
  match key with
  | Int64 key => integer_offsets self !! key
  | String key => string_offsets self !! key
  | _ => None
  end.

(** [slice::partition_point] of a slice on which [p] holds on a prefix. *)
Fixpoint partition_point {A} (p : A → bool) (l : list A) : nat :=
  match l with [] => 0 | x :: l => if p x then S (partition_point p l) else 0 end.

Definition locate (self : PkResolutionIndex) (key : Value) : outcome (option (Z * GroupLocation)) :=
  match pk_offset self key with
  | None => Ok None
  | Some offset =>
      let position := partition_point (λ location, start_offset location <=? offset) (pk_groups self) in
      let! location := ok_or (match position with O => None | S i => pk_groups self !! i end)
        (Corrupt "indexed node offset has no containing group") in
      let! _ := row_index location offset in
      Ok (Some (offset, location))
  end.

Inductive PkIndexState := Unbuilt | Ready (index : PkResolutionIndex) | Refused.

Inductive PkIndexResult (A : Type) := Indexed (found : option A) | Unavailable.
Arguments Indexed {A}. Arguments Unavailable {A}.

(** The decoded group is kept with its page. *)
Record TablePkCache := mkPkCache { cache_index : PkIndexState; decoded_group : option (Z * NodeGroup) }.

Definition default_pk_cache : TablePkCache := mkPkCache Unbuilt None.

(** [shed_pk_caches] on one table; [held_index] and [held_group] are locks it
    could not take. *)
Definition shed_table (held_index held_group : bool) (c : TablePkCache) : TablePkCache :=
  mkPkCache (if held_index then cache_index c else match cache_index c with Ready _ => Unbuilt | s => s end)
    (if held_group then decoded_group c else None).

(** ** Building and using the index *)

Section cache.
Context {W : Type} `{GS : !GroupStore W} (w : W).
Context {B : Type} (charge_or_reclaim : Z → B → bool * B) (try_reserve : B → bool * B).
(** [size_of::<NodeGroup>()] and [size_of::<Vec<Value>>()]. *)
Context (size_of_group size_of_vec : Z).

Definition charged {A} (answer : B → A * B) : SM B A := λ b, let '(a, b) := answer b in (Ok a, b).

Definition grow_charge (self : PkResolutionIndex) (bytes : Z) : SM B (bool * PkResolutionIndex) :=
  match (if pk_charged_bytes self =? 0 then try_u 64 (PK_INDEX_BASE_BYTES + bytes) else Some bytes) with
  | None => sret (false, self)
  | Some requested =>
      match try_u 64 (pk_charged_bytes self + requested) with
      | None => sret (false, self)
      | Some total =>
          let+ granted := charged (charge_or_reclaim requested) in
          if (granted : bool) then sret (true, mkPkIndex (integer_offsets self) (string_offsets self) (pk_groups self) total)
          else sret (false, self)
      end
  end.

(** [!grow_charge(bytes) || try_reserve(1).is_err()], then the insertion. *)
Definition grow_then (self : PkResolutionIndex) (bytes : Z) (f : PkResolutionIndex → PkResolutionIndex) :
    SM B (bool * PkResolutionIndex) :=
  let+ (granted, self) := grow_charge self bytes in
  if (granted : bool) then
    let+ reserved := charged try_reserve in
    if (reserved : bool) then sret (true, f self) else sret (false, self)
  else sret (false, self).

Definition push_group (self : PkResolutionIndex) (location : GroupLocation) : SM B (bool * PkResolutionIndex) :=
  grow_then self PK_INDEX_GROUP_BYTES (λ self,
    mkPkIndex (integer_offsets self) (string_offsets self) (pk_groups self ++ [location]) (pk_charged_bytes self)).

Definition insert_integer (self : PkResolutionIndex) (key offset : Z) : SM B (bool * PkResolutionIndex) :=
  if bool_decide (is_Some (integer_offsets self !! key)) then sret (true, self) else
  grow_then self PK_INDEX_INT_ENTRY_BYTES (λ self,
    mkPkIndex (<[key := offset]> (integer_offsets self)) (string_offsets self) (pk_groups self) (pk_charged_bytes self)).

Definition insert_string (self : PkResolutionIndex) (key : list Z) (offset : Z) : SM B (bool * PkResolutionIndex) :=
  if bool_decide (is_Some (string_offsets self !! key)) then sret (true, self) else
  match try_u 64 (PK_INDEX_STRING_ENTRY_BYTES + zlen key) with
  | None => sret (false, self)
  | Some bytes => grow_then self bytes (λ self,
      mkPkIndex (integer_offsets self) (<[key := offset]> (string_offsets self)) (pk_groups self) (pk_charged_bytes self))
  end.

Definition pk_insert (self : PkResolutionIndex) (value : Value) (offset : Z) : SM B (bool * PkResolutionIndex) :=
  match value with
  | Int64 key => insert_integer self key offset
  | String key => insert_string self key offset
  | Null => sret (true, self)
  | _ => sret (false, self)
  end.

Definition offset_overflow : DevonError := Corrupt "checkpointed node offset exceeds u64::MAX".

Fixpoint index_group_keys (self : PkResolutionIndex) (keys : list (nat * Value)) (start : Z) : SM B (bool * PkResolutionIndex) :=
  match keys with
  | [] => sret (true, self)
  | (row, key) :: keys =>
      let+ row_offset := slift (ok_or (try_u 64 (Z.of_nat row)) (Corrupt "node-group row index exceeds u64::MAX")) in
      let+ offset := slift (ok_or (try_u 64 (start + row_offset)) offset_overflow) in
      let+ (inserted, self) := pk_insert self key offset in
      if (inserted : bool) then index_group_keys self keys start else sret (false, self)
  end.

Fixpoint build_groups (ts : list LogicalType) (key_column : nat) (ids : list Z) (self : PkResolutionIndex) (start : Z) :
    SM B (option PkResolutionIndex) :=
  match ids with
  | [] => sret (Some self)
  | id :: ids =>
      let+ (keys, group_rows) := slift (group_read_column w id ts key_column) in
      let+ row_count := slift (ok_or (try_u 64 (Z.of_nat group_rows)) (Corrupt "node-group row count exceeds u64::MAX")) in
      let+ (pushed, self) := push_group self (mkLocation id start row_count) in
      if (pushed : bool) then
        let+ (indexed, self) := index_group_keys self (enumerate keys) start in
        if (indexed : bool) then
          let+ start := slift (ok_or (try_u 64 (start + row_count)) offset_overflow) in
          build_groups ts key_column ids self start
        else sret None
      else sret None
  end.

Definition build_pk_index (schema : NodeTableSchema) (ids : list Z) : SM B (option PkResolutionIndex) :=
  let+ key_column := slift (ok_or (fst <$> list_find (λ c, primary_key c = true) (node_columns schema))
    (Corrupt "node table `{}` has no primary key")) in
  build_groups (schema_types schema) key_column ids new_pk_index 0.

Definition ensure_pk_index (state : PkIndexState) (schema : NodeTableSchema) (ids : list Z) : SM B PkIndexState := λ b,
  match state with
  | Unbuilt =>
      match build_pk_index schema ids b with
      | (Ok (Some index), b) => (Ok (Ready index), b)
      | (Ok None, b) => (Ok Refused, b)
      | (Err (BudgetExceeded _), b) => (Ok Refused, b)
      | (Err e, b) => (Err e, b)
      | (Panic, b) => (Panic, b)
      end
  | state => (Ok state, b)
  end.

(** Cache and budget change together; an error leaves the cache as it was. *)
Definition with_index {A} (schema : NodeTableSchema) (ids : list Z) (k : PkIndexState → SM (TablePkCache * B) A) :
    SM (TablePkCache * B) A := λ '(c, b),
  match ensure_pk_index (cache_index c) schema ids b with
  | (Ok state, b) => k state (mkPkCache state (decoded_group c), b)
  | (Err e, b) => (Err e, (c, b))
  | (Panic, b) => (Panic, (c, b))
  end.

Definition lookup_offset (schema : NodeTableSchema) (ids : list Z) (key : Value) : SM (TablePkCache * B) (PkIndexResult Z) :=
  with_index schema ids (λ state,
    match state with
    | Ready index => sret (Indexed (pk_offset index key))
    | Refused => sret Unavailable
    | Unbuilt => slift (Err (Corrupt "PK index build left its state unbuilt"))
    end).

Definition node_group_estimated_bytes (group : NodeGroup) : option Z :=
  columns_bytes ← try_u 64 (zlen (columns group) * size_of_vec);
  start ← try_u 64 (size_of_group + columns_bytes);
  foldl (λ total rc, total ← total; v ← group_value group rc.1 rc.2; try_u 64 (total + approx_bytes v)) (Some start)
    (r ← seq 0 (row_count group); c ← seq 0 (length (columns group)); [(r, c)]).

Definition cache_decoded_group (page : Z) (group : NodeGroup) : SM (TablePkCache * B) () := λ '(c, b),
  match node_group_estimated_bytes group with
  | None => (Ok (), (c, b))
  | Some bytes =>
      let '(granted, b) := charge_or_reclaim bytes b in
      (Ok (), (mkPkCache (cache_index c) (if (granted : bool) then Some (page, group) else decoded_group c), b))
  end.

Definition node_group_row (group : NodeGroup) (row : nat) : outcome (list Value) :=
  collect (λ column, ok_or (group_value group row column) (Corrupt "node group is missing an indexed row value"))
    (seq 0 (length (columns group))).

Definition decode_row (ts : list LogicalType) (page : Z) (row : nat) : SM (TablePkCache * B) (list Value) :=
  let+ group := slift (group_read w page ts) in
  let+ result := slift (node_group_row group row) in
  let+ _ := cache_decoded_group page group in
  sret result.

Definition read_row (schema : NodeTableSchema) (offset : Z) (location : GroupLocation) : SM (TablePkCache * B) (list Value) :=
  let+ row := slift (row_index location offset) in
  λ '(c, b),
    match (match decoded_group c with Some (page, group) => if page =? page_id location then Some group else None | None => None end) with
    | Some group => (node_group_row group row, (c, b))
    | None => decode_row (schema_types schema) (page_id location) row (mkPkCache (cache_index c) None, b)
    end.

Definition lookup_row (schema : NodeTableSchema) (ids : list Z) (key : Value) : SM (TablePkCache * B) (PkIndexResult (list Value)) :=
  with_index schema ids (λ state,
    match state with
    | Ready index =>
        let+ found := slift (locate index key) in
        match found with
        | Some (offset, location) => let+ row := read_row schema offset location in sret (Indexed (Some row))
        | None => sret (Indexed None)
        end
    | Refused => sret Unavailable
    | Unbuilt => slift (Err (Corrupt "PK index build left its state unbuilt"))
    end).

(** ** The fallback *)

(** [group.value(row, key_index) == Some(key)] for the rows of a group. *)
Definition group_find (group : NodeGroup) (key_index : nat) (key : Value) : option nat :=
  fst <$> list_find (λ row, group_value group row key_index = Some key) (seq 0 (row_count group)).

Fixpoint scan_groups (ts : list LogicalType) (ids : list Z) (key_index : nat) (key : Value) (group_start : Z) : outcome (option Z) :=
  match ids with
  | [] => Ok None
  | id :: ids =>
      let! group := group_read w id ts in
      match group_find group key_index key with
      | Some row =>
          let! row := ok_or (try_u 64 (Z.of_nat row)) (Corrupt "node-group row index exceeds u64::MAX") in
          let! offset := ok_or (try_u 64 (group_start + row)) offset_overflow in
          Ok (Some offset)
      | None =>
          let! rows := ok_or (try_u 64 (Z.of_nat (row_count group))) (Corrupt "node-group row count cannot be represented as u64") in
          let! group_start := ok_or (try_u 64 (group_start + rows)) offset_overflow in
          scan_groups ts ids key_index key group_start
      end
  end.

Definition scan_checkpointed_node_key (catalog : Catalog) (schema : NodeTableSchema) (key_index : nat) (key : Value) : outcome (option Z) :=
  scan_groups (schema_types schema) (stored_groups catalog (node_name schema)) key_index key 0.

(** [PublishedState::checkpointed_node_offset] and [checkpointed_node_row]; the
    cache is the table's entry in the registry of the state. *)
Definition checkpointed_node_offset (state : Catalog) (table : cat_name) (key : Value) : SM (TablePkCache * B) (PkIndexResult Z) :=
  match node_table state table with
  | None => sret (Indexed None)
  | Some schema => lookup_offset schema (stored_groups state (node_name schema)) key
  end.

Definition checkpointed_node_row (state : Catalog) (table : cat_name) (key : Value) : SM (TablePkCache * B) (PkIndexResult (list Value)) :=
  match node_table state table with
  | None => sret (Indexed None)
  | Some schema => lookup_row schema (stored_groups state (node_name schema)) key
  end.

(** [catalog] is the view's own catalog. *)
Definition resolve_checkpointed_node_key (state catalog : Catalog) (schema : NodeTableSchema) (key_index : nat) (key : Value) :
    SM (TablePkCache * B) (option Z) :=
  let+ found := checkpointed_node_offset state (node_name schema) key in
  match found with
  | Indexed offset => sret offset
  | Unavailable => slift (scan_checkpointed_node_key catalog schema key_index key)
  end.

(** ** Resolving a row *)

Definition from_query (schema : NodeTableSchema) (key_index : nat) (key : Value) : outcome OverlayKey :=
  let! column := index (node_columns schema) key_index in
  match ty column, key with
  | TInt64, Int64 value => Ok (PkInt64 value)
  | TString, String value => Ok (PkString value)
  | _, _ => Err (InvalidArgument "primary key `{key_column}` in node table `{}` expects {expected} but received {key}")
  end.

Definition missing_node_key : DevonError := NotFound "node table `{table}` primary key {key}".

Definition find_row (key_index : nat) (key : Value) (rows : list row) : option row :=
  snd <$> list_find (λ r, r !! key_index = Some key) rows.

Definition own_node_row (view : ReadView) (table : table_name) (key_index : nat) (key : Value) : option row :=
  own view ≫= λ d, nodes d !! table ≫= find_row key_index key.

(** [PublishedState::node_rows]. *)
Definition state_node_rows (view : ReadView) (table : table_name) : outcome (list row) :=
  let pk := default 0%nat (node_table (state_catalog view) table ≫= λ schema,
    fst <$> list_find (λ c, primary_key c = true) (node_columns schema)) in
  node_rows_oldest_first pk (state_chain view) table.

Definition resolve_node_row (view : ReadView) (catalog : Catalog) (table : cat_name) (key : Value) : SM (TablePkCache * B) row :=
  let+ schema := slift (ok_or (node_table catalog table) (NotFound "node table `{table}`")) in
  let table_name := node_name schema in
  let+ (key_index, _) := slift (primary_key_of schema) in
  let+ cache_key := slift (from_query schema key_index key) in
  let+ effects := slift (visible_dml_effects view schema) in
  match effects !! cache_key with
  | Some (VUpdate r) => sret r
  | Some VDelete => slift (Err missing_node_key)
  | None =>
      match own_node_row view table_name key_index key with
      | Some r => sret r
      | None =>
          let+ rows := slift (state_node_rows view table_name) in
          match find_row key_index key rows with
          | Some r => sret r
          | None =>
              let+ found := checkpointed_node_row (state_catalog view) table_name key in
              match found with
              | Indexed (Some r) => sret r
              | Indexed None => slift (Err missing_node_key)
              | Unavailable =>
                  let+ rows := slift (fst (scan schema [] catalog w)) in
                  slift (ok_or (find_row key_index key rows) missing_node_key)
              end
          end
      end
  end.
End cache.

(** ** Positions of keys *)

Section position.
Context (pk : nat).

Notation row_key r := (optional_row_pk r pk).

(** The position of the first row with key [k]. *)
Fixpoint key_pos (k : PkKey) (rows : list row) : option nat :=
  match rows with
  | [] => None
  | r :: rows => if decide (row_key r = Some k) then Some 0%nat else S <$> key_pos k rows
  end.

Definition key_row (k : PkKey) (rows : list row) : option row := key_pos k rows ≫= (rows !!.).

Lemma key_pos_app k a b :
  key_pos k (a ++ b) = match key_pos k a with Some p => Some p | None => (λ p, (length a + p)%nat) <$> key_pos k b end.
Proof.
  induction a as [|r a IH]; simpl; [by destruct (key_pos k b)|]. destruct (decide _); [done|]. rewrite IH.
  destruct (key_pos k a); [done|]. by destruct (key_pos k b).
Qed.

Lemma key_pos_lt k rows p : key_pos k rows = Some p → (p < length rows)%nat.
Proof.
  revert p. induction rows as [|r rows IH]; intros p; simpl; [done|]. destruct (decide _).
  - intros [= <-]. lia.
  - intros (q & Hq & ->)%fmap_Some. specialize (IH q Hq). lia.
Qed.

Lemma key_row_cons k r rows : key_row k (r :: rows) = if decide (row_key r = Some k) then Some r else key_row k rows.
Proof. unfold key_row. simpl. destruct (decide _); [done|]. by destruct (key_pos k rows). Qed.

Lemma value_key_row r k : r !! pk = Some (key_to_value k) ↔ row_key r = Some k.
Proof.
  split; [|apply row_key_value]. intros H. unfold optional_row_pk. rewrite H. by destruct k.
Qed.

Lemma find_pos_key k rows : fst <$> list_find (λ r, r !! pk = Some (key_to_value k)) rows = key_pos k rows.
Proof.
  induction rows as [|r rows IH]; [done|]. simpl. destruct (decide (r !! pk = Some (key_to_value k))) as [E|E].
  - by rewrite decide_True by (by apply value_key_row).
  - rewrite decide_False by (by rewrite <- value_key_row). rewrite <- IH. by destruct (list_find _ rows) as [[]|].
Qed.

Lemma key_pos_split k rows p :
  key_pos k rows = Some p → ∃ a r b, rows = a ++ r :: b ∧ length a = p ∧ row_key r = Some k.
Proof.
  revert p. induction rows as [|r rows IH]; intros p; [done|]. simpl. destruct (decide (row_key r = Some k)) as [E|E].
  - intros [= <-]. by exists [], r, rows.
  - intros (q & Hq & ->)%fmap_Some. destruct (IH q Hq) as (a & r' & b & -> & Hl & Hk). exists (r :: a), r', b. split_and!; [done|by cbn; f_equal|done].
Qed.

Lemma key_pos_None k rows : key_pos k rows = None → Forall (λ r, row_key r ≠ Some k) rows.
Proof.
  induction rows as [|r rows IH]; [done|]. simpl. destruct (decide _) as [E|E]; [done|]. intros H%fmap_None. constructor; auto.
Qed.

Lemma find_row_key k rows : find_row pk (key_to_value k) rows = key_row k rows.
Proof.
  unfold find_row. induction rows as [|r rows IH]; [done|]. rewrite key_row_cons. simpl.
  destruct (decide (r !! pk = Some (key_to_value k))) as [E|E].
  - by rewrite decide_True by (by apply value_key_row).
  - rewrite decide_False by (by rewrite <- value_key_row). rewrite <- IH. by destruct (list_find _ rows) as [[]|].
Qed.

Lemma key_row_Some k rows r : key_row k rows = Some r → r ∈ rows ∧ row_key r = Some k.
Proof.
  induction rows as [|x rows IH]; [done|]. rewrite key_row_cons. destruct (decide _).
  - intros [= <-]. split; [by left|done].
  - intros [??]%IH. split; [by right|done].
Qed.

Lemma key_row_None k rows : key_row k rows = None ↔ Forall (λ r, row_key r ≠ Some k) rows.
Proof.
  induction rows as [|x rows IH]; [done|]. rewrite key_row_cons, Forall_cons. destruct (decide _); [naive_solver|]. rewrite IH. naive_solver.
Qed.

(** ** What an operation does to one key *)

Definition key_step (k : PkKey) (found : option row) (op : TableOp) : option row :=
  if decide (op_key pk op = Some k)
  then match op with OpUpdate r => found ≫= λ _, Some r | OpDelete _ => None | OpInsert r => Some r end
  else found.

Lemma key_row_app k a b : key_row k (a ++ b) = match key_row k a with Some r => Some r | None => key_row k b end.
Proof. induction a as [|r a IH]; [done|]. cbn [app]. rewrite !key_row_cons. by destruct (decide _). Qed.

Lemma key_row_without k k' t : key_row k (without pk k' t) = if decide (k' = k) then None else key_row k t.
Proof.
  unfold without. induction t as [|r t IH]; [by destruct (decide _)|]. destruct (decide (row_key r = Some k')) as [E|E].
  - rewrite filter_cons_False by naive_solver. rewrite IH, key_row_cons. destruct (decide (k' = k)); [done|].
    by rewrite decide_False by congruence.
  - rewrite filter_cons_True by done. rewrite !key_row_cons, IH. destruct (decide (k' = k)) as [->|]; [|done]. by rewrite decide_False.
Qed.

Lemma key_row_replace k k' r t :
  row_key r = Some k' →
  key_row k (replace_row pk k' r <$> t) = if decide (k' = k) then key_row k t ≫= λ _, Some r else key_row k t.
Proof.
  intros Hr. induction t as [|x t IH]; [by destruct (decide _)|]. rewrite fmap_cons, !key_row_cons, IH, replace_row_key by done.
  unfold replace_row. destruct (decide (k' = k)) as [->|Hne].
  - by destruct (decide (row_key x = Some k)).
  - destruct (decide (row_key x = Some k)) as [E|]; [|done]. rewrite decide_False by congruence. done.
Qed.

Lemma key_row_op k t op : key_row k (table_op pk t op) = key_step k (key_row k t) op.
Proof.
  unfold key_step, table_op. destruct op as [r|v|r]; cbn [op_key].
  - destruct (row_key r) as [k'|] eqn:Hr; [|done]. rewrite key_row_replace by done.
    destruct (decide (k' = k)) as [->|]; [by rewrite decide_True|by rewrite decide_False by congruence].
  - destruct (value_key v) as [k'|]; [|done]. rewrite key_row_without.
    destruct (decide (k' = k)) as [->|]; [by rewrite decide_True|by rewrite decide_False by congruence].
  - destruct (row_key r) as [k'|] eqn:Hr.
    + rewrite key_row_app, key_row_without, key_row_cons, Hr. destruct (decide (k' = k)) as [->|].
      * by rewrite !decide_True.
      * rewrite !decide_False by congruence. by destruct (key_row k t).
    + rewrite key_row_app, key_row_cons, Hr, !decide_False by done. by destruct (key_row k t).
Qed.

Lemma key_row_run k ops : ∀ t, key_row k (run_ops pk ops t) = foldl (key_step k) (key_row k t) ops.
Proof. induction ops as [|op ops IH]; intros t; [done|]. unfold run_ops in *. cbn [foldl]. by rewrite IH, key_row_op. Qed.

(** The last row inserted for a key. *)
Definition insert_step (k : PkKey) (found : option row) (op : TableOp) : option row :=
  match op with OpInsert r => if decide (row_key r = Some k) then Some r else found | _ => found end.

(** A key without a pending effect shows its last insert, or what was there. *)
Lemma no_effect_row k ops found :
  foldl (effect_step pk k) None ops = None →
  foldl (key_step k) found ops = match foldl (insert_step k) None ops with Some r => Some r | None => found end.
Proof.
  induction ops as [|op ops IH] using rev_ind; [done|]. rewrite !foldl_app. cbn [foldl]. unfold effect_step at 1, key_step at 1.
  destruct (decide (op_key pk op = Some k)) as [Hk|Hk].
  - destruct op as [r|v|r]; intros He; [done|done|]. cbn [insert_step]. by rewrite decide_True by exact Hk.
  - intros He. rewrite (IH He). destruct op as [r|v|r]; [done|done|]. cbn [insert_step]. by rewrite decide_False by exact Hk.
Qed.

Lemma deleted_row k ops found : foldl (effect_step pk k) None ops = Some None → foldl (key_step k) found ops = None.
Proof.
  induction ops as [|op ops IH] using rev_ind; [done|]. rewrite !foldl_app. cbn [foldl]. unfold effect_step at 1, key_step at 1.
  destruct (decide (op_key pk op = Some k)) as [Hk|Hk]; [by destruct op|auto].
Qed.

Lemma updated_row k ops t r :
  valid_history pk t ops → foldl (effect_step pk k) None ops = Some (Some r) → key_row k (run_ops pk ops t) = Some r.
Proof.
  induction ops as [|op ops IH] using rev_ind; [done|]. rewrite valid_history_app, run_ops_app, foldl_app. intros [Hv [Hop _]] He.
  cbn [foldl] in He. cbn [run_ops foldl]. rewrite key_row_op. unfold effect_step at 1 in He. unfold key_step.
  destruct (decide (op_key pk op = Some k)) as [Hk|Hk]; [|auto]. destruct op as [r'|v|r']; [|done|done]. injection He as ->.
  destruct (key_row k (run_ops pk ops t)) eqn:E; [done|]. apply key_row_None in E. destruct Hop as [_ Hop].
  apply Exists_exists in Hop as (x & Hx & Hxk). rewrite Forall_forall in E. destruct (E x Hx). congruence.
Qed.
End position.

(** ** The index is right *)

Fixpoint locations (ids : list Z) (parts : list (list row)) (start : Z) : list GroupLocation :=
  match ids, parts with
  | id :: ids, p :: parts => mkLocation id start (zlen p) :: locations ids parts (start + zlen p)
  | _, _ => []
  end.

Lemma partition_point_none {A} (p : A → bool) l : (∀ x, x ∈ l → p x = false) → partition_point p l = 0%nat.
Proof. destruct l as [|x l]; [done|]. intros H. simpl. by rewrite H by (by left). Qed.

Lemma locations_start ids : ∀ parts start l, l ∈ locations ids parts start → start ≤ start_offset l.
Proof.
  induction ids as [|id ids IH]; intros [|p parts] start l Hl; try (by apply elem_of_nil in Hl).
  cbn [locations] in Hl. apply elem_of_cons in Hl as [->|Hl]; [done|]. apply IH in Hl. unfold zlen in *. lia.
Qed.

(** The group before the partition point contains the offset. *)
Lemma locations_find ids : ∀ parts start offset,
  length ids = length parts → start ≤ offset < start + zlen (concat parts) →
  ∃ i id p s, partition_point (λ l, start_offset l <=? offset) (locations ids parts start) = S i ∧
    locations ids parts start !! i = Some (mkLocation id s (zlen p)) ∧ ids !! i = Some id ∧ parts !! i = Some p ∧
    s ≤ offset < s + zlen p ∧ p !! Z.to_nat (offset - s) = concat parts !! Z.to_nat (offset - start).
Proof.
  induction ids as [|id ids IH]; intros [|p parts] start offset Hlen Hoff; simpl in Hlen; try lia.
  { unfold zlen in Hoff. simpl in Hoff. lia. }
  unfold zlen in Hoff. cbn [concat] in Hoff. rewrite length_app in Hoff.
  cbn [locations partition_point start_offset concat]. rewrite (proj2 (Z.leb_le _ _)) by lia.
  destruct (decide (offset < start + zlen p)) as [Hin|Hout].
  - exists 0%nat, id, p, start. rewrite partition_point_none.
    + unfold zlen in Hin |- *. split_and!; [done|done|done|done|lia|lia|]. rewrite lookup_app_l; [done|lia].
    + intros l Hl%locations_start. apply Z.leb_gt. lia.
  - destruct (IH parts (start + zlen p) offset) as (i & id' & p' & s & Hpp & Hloc & Hid & Hp & Hs & Hrow);
      [lia|unfold zlen in *; lia|].
    exists (S i), id', p', s. rewrite Hpp. split_and!; [done|done|done|done|lia|lia|]. unfold zlen in *. rewrite Hrow, lookup_app_r by lia.
    f_equal. lia.
Qed.

Section index.
Context {W : Type} `{GS : !GroupStore W} (w : W) (schema : NodeTableSchema) (pk : nat).
Context {B : Type} (charge_or_reclaim : Z → B → bool * B) (try_reserve : B → bool * B) (size_of_group size_of_vec : Z).
Let ts := schema_types schema.
Hypothesis Hpk : primary_key_column schema = Ok pk.
Hypothesis Hexact : Forall (λ t, exact_type t = true) ts.

Notation row_key r := (optional_row_pk r pk).

Definition offsets_ok (self : PkResolutionIndex) (rows : list row) : Prop :=
  ∀ k, pk_offset self (key_to_value k) = Z.of_nat <$> key_pos pk k rows.

(** Every step either refuses or does its work. *)
Definition refused_or {A} (out : outcome (bool * A) * B) (P : A → Prop) : Prop :=
  ∃ ok a b, out = (Ok (ok, a), b) ∧ (ok = true → P a).

Lemma refused_intro {A} (a : A) b P : refused_or (Ok (false, a), b) P.
Proof. by exists false, a, b. Qed.
Lemma worked_intro {A} (a : A) b (P : A → Prop) : P a → refused_or (Ok (true, a), b) P.
Proof. intros H. by exists true, a, b. Qed.

Lemma grow_then_ok self bytes f b :
  refused_or (grow_then charge_or_reclaim try_reserve self bytes f b) (λ self',
    ∃ total, self' = f (mkPkIndex (integer_offsets self) (string_offsets self) (pk_groups self) total)).
Proof.
  unfold grow_then, sbind, grow_charge.
  destruct (if pk_charged_bytes self =? 0 then _ else _) as [requested|]; [|apply refused_intro].
  destruct (try_u 64 _) as [total|]; [|apply refused_intro]. unfold sbind, charged, sret.
  destruct (charge_or_reclaim requested b) as [[] b1]; [|apply refused_intro].
  destruct (try_reserve b1) as [[] b2]; [apply worked_intro; eauto|apply refused_intro].
Qed.

Lemma pk_insert_ok self rows r k b :
  offsets_ok self rows → row_key r = Some k →
  refused_or (pk_insert charge_or_reclaim try_reserve self (key_to_value k) (zlen rows) b) (λ self',
    offsets_ok self' (rows ++ [r]) ∧ pk_groups self' = pk_groups self).
Proof.
  intros Hok Hr.
  assert (∀ k', Z.of_nat <$> key_pos pk k' (rows ++ [r]) = match pk_offset self (key_to_value k') with
    | Some p => Some p | None => if decide (k = k') then Some (zlen rows) else None end) as Hpos.
  { intros k'. rewrite Hok, key_pos_app. destruct (key_pos pk k' rows); [done|]. simpl. rewrite Hr. destruct (decide (k = k')) as [->|].
    - rewrite decide_True by done. simpl. unfold zlen. f_equal. lia.
    - by rewrite decide_False by congruence. }
  destruct k as [z|s]; cbn [key_to_value pk_insert].
  - unfold insert_integer. case_bool_decide as Hin.
    + exists true, self, b. split; [done|]. intros _. split; [|done]. intros k'. rewrite Hpos.
      destruct (pk_offset self (key_to_value k')) eqn:E; [done|]. rewrite decide_False; [done|]. intros <-. simpl in E. rewrite E in Hin. by destruct Hin.
    + destruct (grow_then_ok self PK_INDEX_INT_ENTRY_BYTES (λ self, mkPkIndex (<[z := zlen rows]> (integer_offsets self)) (string_offsets self)
        (pk_groups self) (pk_charged_bytes self)) b) as (ok & self' & b' & Hrun & Hspec).
      exists ok, self', b'. split; [done|]. intros E. destruct (Hspec E) as [total ->]. split; [|done]. intros k'. rewrite Hpos.
      apply eq_None_not_Some in Hin. destruct k' as [z'|s']; simpl.
      * destruct (decide (z = z')) as [->|Hne].
        -- rewrite lookup_insert_eq, Hin. by rewrite decide_True.
        -- rewrite lookup_insert_ne by done. rewrite decide_False by congruence. by destruct (_ !! z').
      * by destruct (_ !! s').
  - unfold insert_string. case_bool_decide as Hin.
    + exists true, self, b. split; [done|]. intros _. split; [|done]. intros k'. rewrite Hpos.
      destruct (pk_offset self (key_to_value k')) eqn:E; [done|]. rewrite decide_False; [done|]. intros <-. simpl in E. rewrite E in Hin. by destruct Hin.
    + destruct (try_u 64 _) as [bytes|]; [|apply refused_intro].
      destruct (grow_then_ok self bytes (λ self, mkPkIndex (integer_offsets self) (<[s := zlen rows]> (string_offsets self))
        (pk_groups self) (pk_charged_bytes self)) b) as (ok & self' & b' & Hrun & Hspec).
      exists ok, self', b'. split; [done|]. intros E. destruct (Hspec E) as [total ->]. split; [|done]. intros k'. rewrite Hpos.
      apply eq_None_not_Some in Hin. destruct k' as [z'|s']; simpl.
      * by destruct (_ !! z').
      * destruct (decide (s = s')) as [->|Hne].
        -- rewrite lookup_insert_eq, Hin. by rewrite decide_True.
        -- rewrite lookup_insert_ne by done. rewrite decide_False by congruence. by destruct (_ !! s').
Qed.

Lemma index_keys_ok rest : ∀ self i before b start,
  offsets_ok self before → start + Z.of_nat i = zlen before → 0 ≤ start → in_u 64 (zlen (before ++ rest)) →
  Forall (λ r, is_Some (row_key r)) rest →
  refused_or (index_group_keys charge_or_reclaim try_reserve self (enumerate_from i ((λ r, r !!! pk) <$> rest)) start b) (λ self',
    offsets_ok self' (before ++ rest) ∧ pk_groups self' = pk_groups self).
Proof.
  induction rest as [|r rest IH]; intros self i before b start Hok Hstart Hs Hin Hk.
  { rewrite app_nil_r. by apply worked_intro. }
  apply Forall_cons in Hk as [[k Hr] Hk]. rewrite fmap_cons, enumerate_from_cons. cbn [index_group_keys].
  assert (r !!! pk = key_to_value k) as -> by (apply list_lookup_total_correct; by apply row_key_value).
  unfold in_u, zlen in *. rewrite length_app in Hin. simpl in Hin.
  unfold sbind at 1 2, slift. rewrite (try_u_in 64 (Z.of_nat i)) by (unfold in_u; lia). cbn [ok_or].
  rewrite try_u_in by (unfold in_u; lia). cbn [ok_or]. rewrite Hstart. fold (zlen before).
  destruct (pk_insert_ok self before r k b Hok Hr) as (ok & self' & b' & Hrun & Hspec). unfold sbind. rewrite Hrun.
  destruct ok; [|apply refused_intro]. destruct (Hspec eq_refl) as [Hok' Hg].
  destruct (IH self' (S i) (before ++ [r]) b' start) as (ok & self2 & b2 & Hrun2 & Hspec2).
  - done.
  - unfold zlen. rewrite length_app. simpl. lia.
  - done.
  - rewrite <- app_assoc. simpl. unfold zlen. rewrite length_app. simpl. lia.
  - done.
  - exists ok, self2, b2. split; [done|]. intros E. destruct (Hspec2 E) as [H1 H2]. rewrite <- app_assoc in H1. split; [done|congruence].
Qed.

Lemma locations_app ids parts ids' parts' : ∀ start,
  length ids = length parts →
  locations (ids ++ ids') (parts ++ parts') start = locations ids parts start ++ locations ids' parts' (start + zlen (concat parts)).
Proof.
  revert parts. induction ids as [|id ids IH]; intros [|p parts] start Hl; simpl in Hl; try lia.
  - simpl. by rewrite Z.add_0_r.
  - cbn [app locations concat]. rewrite IH by lia. unfold zlen. rewrite length_app. do 3 f_equal. lia.
Qed.

Definition index_ok (self : PkResolutionIndex) (ids : list Z) (parts : list (list row)) : Prop :=
  offsets_ok self (concat parts) ∧ pk_groups self = locations ids parts 0.

Lemma key_column_ok : ∃ t, ts !! pk = Some t ∧ exact_type t = true.
Proof.
  pose proof Hpk as Hfind. unfold primary_key_column in Hfind. apply ok_or_Ok, fmap_Some in Hfind as ([i c] & Hf & E).
  cbn in E. rewrite E. apply list_find_Some in Hf as (Hc & _). exists (ty c). unfold ts, schema_types in *. rewrite list_lookup_fmap, Hc. split; [done|].
  rewrite Forall_forall in Hexact. apply Hexact. apply list_elem_of_fmap. exists c. split; [done|]. by eapply list_elem_of_lookup_2.
Qed.

Lemma read_key_column id p : holds ts w id p → group_read_column w id ts pk = Ok ((λ r, r !!! pk) <$> p, length p).
Proof.
  intros (_ & g & Hg & _ & Hc & Hcol & _). destruct key_column_ok as (t & Ht & Hex). rewrite <- Hc.
  apply (read_column_agrees w id ts pk t g); [done|done|done|]. rewrite Hcol. unfold columns_of. rewrite list_lookup_fmap, lookup_seq_lt; [done|].
  by eapply lookup_lt_Some.
Qed.

Lemma build_groups_ok ids : ∀ parts self before_ids before b,
  stored ts w ids parts → index_ok self before_ids before → length before_ids = length before →
  in_u 64 (zlen (concat (before ++ parts))) → Forall (λ r, is_Some (row_key r)) (concat parts) →
  ∃ res b', build_groups w charge_or_reclaim try_reserve ts pk ids self (zlen (concat before)) b = (Ok res, b') ∧
    ∀ index, res = Some index → index_ok index (before_ids ++ ids) (before ++ parts).
Proof.
  induction ids as [|id ids IH]; intros parts self before_ids before b Hst Hok Hlen Hin Hk.
  { inversion Hst. subst. exists (Some self), b. split; [done|]. intros index [= <-]. by rewrite !app_nil_r. }
  inversion Hst as [|? p ? rest Hid Hst' E1 E2]. subst. cbn [concat] in Hk. apply Forall_app in Hk as [Hkp Hk].
  cbn [build_groups]. unfold sbind at 1 2, slift. rewrite (read_key_column id p Hid).
  assert (zlen (concat (before ++ p :: rest)) = zlen (concat before) + zlen p + zlen (concat rest)) as Htotal.
  { rewrite concat_app. cbn [concat]. unfold zlen. rewrite !length_app. lia. }
  assert (0 ≤ zlen (concat before) ∧ 0 ≤ zlen p ∧ 0 ≤ zlen (concat rest)) as (Hb0 & Hp0 & Hr0) by (unfold zlen; lia).
  unfold in_u in Hin. rewrite try_u_in by (fold (zlen p); unfold in_u; lia). cbn [ok_or].
  destruct (grow_then_ok self PK_INDEX_GROUP_BYTES (λ self, mkPkIndex (integer_offsets self) (string_offsets self)
    (pk_groups self ++ [mkLocation id (zlen (concat before)) (Z.of_nat (length p))]) (pk_charged_bytes self)) b)
    as (ok & self1 & b1 & Hrun1 & Hspec1).
  unfold sbind at 1, push_group. rewrite Hrun1. destruct ok; [|by exists None, b1]. destruct (Hspec1 eq_refl) as [total ->]. clear Hspec1 Hrun1.
  match goal with |- context [index_group_keys _ _ ?s] => set (self1 := s) end.
  destruct (index_keys_ok p self1 0 (concat before) b1 (zlen (concat before))) as (ok & self2 & b2 & Hrun2 & Hspec2).
  { apply Hok. } { lia. } { done. } { unfold in_u, zlen in *. rewrite length_app. lia. } { done. }
  unfold sbind at 1, enumerate. rewrite Hrun2. destruct ok; [|by exists None, b2]. destruct (Hspec2 eq_refl) as [Hok2 Hg2].
  unfold sbind, slift. fold (zlen p). rewrite try_u_in by (unfold in_u; lia). cbn [ok_or].
  assert (zlen (concat before) + zlen p = zlen (concat (before ++ [p]))) as ->.
  { rewrite concat_app. simpl. rewrite app_nil_r. unfold zlen. rewrite length_app. lia. }
  destruct (IH rest self2 (before_ids ++ [id]) (before ++ [p]) b2) as (res & b3 & Hrun3 & Hspec3).
  - done.
  - split; [by rewrite concat_app; simpl; rewrite app_nil_r|]. rewrite Hg2. cbn [self1 pk_groups]. rewrite locations_app by done.
    destruct Hok as [_ ->]. simpl. by rewrite Z.add_0_l.
  - rewrite !length_app. simpl. lia.
  - rewrite <- app_assoc. exact Hin.
  - done.
  - exists res, b3. split; [done|]. intros index E. specialize (Hspec3 index E). by rewrite <- !app_assoc in Hspec3.
Qed.

(** ** Lookups through the cache *)

Definition cache_ok (ids : list Z) (parts : list (list row)) (c : TablePkCache) : Prop :=
  match cache_index c with Ready index => index_ok index ids parts | _ => True end ∧
  ∀ page g, decoded_group c = Some (page, g) → group_read w page ts = Ok g.

Section lookups.
Context (ids : list Z) (parts : list (list row)).
Hypothesis Hst : stored ts w ids parts.
Hypothesis Hin : in_u 64 (zlen (concat parts)).
Hypothesis Hkeyed : Forall (λ r, is_Some (row_key r)) (concat parts).

Lemma ensure_ok state b :
  match state with Ready index => index_ok index ids parts | _ => True end →
  ∃ state' b', ensure_pk_index w charge_or_reclaim try_reserve state schema ids b = (Ok state', b') ∧
    match state' with Ready index => index_ok index ids parts | Refused => True | Unbuilt => False end.
Proof.
  intros H. destruct state as [|index|]; [|by eexists _, _|by eexists _, _]. unfold ensure_pk_index, build_pk_index, sbind, slift.
  pose proof Hpk as Hfind. unfold primary_key_column in Hfind. apply ok_or_Ok in Hfind. rewrite Hfind. cbn [ok_or].
  destruct (build_groups_ok ids parts new_pk_index [] [] b) as (res & b' & Hrun & Hspec);
    [done|by split; [intros []|]|done|done|done|]. cbn [concat app] in Hrun, Hspec. change (zlen []) with 0 in Hrun.
  fold ts. rewrite Hrun. destruct res as [index|]; eexists _, _; (split; [done|]); [by apply Hspec|done].
Qed.

Lemma with_index_ok c b :
  cache_ok ids parts c →
  ∃ state b', (∀ A (k : PkIndexState → SM (TablePkCache * B) A),
      with_index w charge_or_reclaim try_reserve schema ids k (c, b) = k state (mkPkCache state (decoded_group c), b')) ∧
    cache_ok ids parts (mkPkCache state (decoded_group c)) ∧
    match state with Ready index => index_ok index ids parts | Refused => True | Unbuilt => False end.
Proof.
  intros [Hi Hd]. destruct (ensure_ok (cache_index c) b Hi) as (state & b' & Hrun & Hs). exists state, b'.
  split_and!; [intros A k; unfold with_index; by rewrite Hrun| |done]. split; [|done]. by destruct state.
Qed.

Lemma lookup_offset_ok c b k :
  cache_ok ids parts c →
  ∃ found c' b', lookup_offset w charge_or_reclaim try_reserve schema ids (key_to_value k) (c, b) = (Ok found, (c', b')) ∧
    cache_ok ids parts c' ∧ (found = Unavailable ∨ found = Indexed (Z.of_nat <$> key_pos pk k (concat parts))).
Proof.
  intros Hc. unfold lookup_offset. destruct (with_index_ok c b Hc) as (state & b' & -> & Hc' & Hs).
  destruct state as [|index|]; [done| |]; eexists _, _, _; (split; [done|]); (split; [done|]); [right|by left].
  by rewrite (proj1 Hs k).
Qed.

Lemma node_group_row_ok g rows i r : group_holds g ts rows → rows !! i = Some r → node_group_row g i = Ok r.
Proof.
  intros Hg Hr. pose proof (group_rows_ok g ts rows Hg) as Hrows. unfold group_rows in Hrows. apply collect_Ok in Hrows.
  destruct Hg as (_ & Hc & _). destruct (Forall2_lookup_r _ _ _ _ _ Hrows Hr) as (j & Hj & Hrun). apply lookup_seq in Hj as [-> _]. simpl in Hrun.
  apply collect_Ok in Hrun. apply collect_Ok. eapply Forall2_impl; [exact Hrun|]. intros c v Hcv. cbv beta in *.
  apply ok_or_Ok in Hcv. by rewrite Hcv.
Qed.

Lemma read_row_ok c b offset location id p i r :
  cache_ok ids parts c → row_index location offset = Ok i → page_id location = id → id ∈ ids → holds ts w id p → p !! i = Some r →
  ∃ c' b', read_row w charge_or_reclaim size_of_group size_of_vec schema offset location (c, b) = (Ok r, (c', b')) ∧ cache_ok ids parts c'.
Proof.
  intros [Hi Hd] Hrow <- _ (_ & g & Hg & Hgh) Hr. unfold read_row, sbind, slift. rewrite Hrow.
  assert (∀ c, cache_ok ids parts c → ∃ c' b', decode_row w charge_or_reclaim size_of_group size_of_vec ts (page_id location) i (c, b) =
    (Ok r, (c', b')) ∧ cache_ok ids parts c') as Hdecode.
  { intros c' [Hi' Hd']. unfold decode_row, sbind, slift. rewrite Hg, (node_group_row_ok g p i r Hgh Hr).
    unfold cache_decoded_group. destruct (node_group_estimated_bytes _ _ g) as [bytes|]; [|by eexists _, _].
    destruct (charge_or_reclaim bytes b) as [granted b']. eexists _, _. split; [done|]. split; [done|]. cbn [decoded_group].
    destruct granted; [|done]. intros page g' [= <- <-]. done. }
  destruct (decoded_group c) as [[page g']|] eqn:E.
  - destruct (Z.eqb_spec page (page_id location)) as [->|].
    + specialize (Hd _ _ eq_refl). rewrite Hg in Hd. injection Hd as <-. rewrite (node_group_row_ok g p i r Hgh Hr). eexists _, _. split; [done|].
      split; [done|]. intros page g' E'. rewrite E in E'. injection E' as <- <-. done.
    + apply Hdecode. split; [done|]. done.
  - apply Hdecode. split; [done|]. done.
Qed.

Lemma locate_ok index k :
  index_ok index ids parts →
  match key_pos pk k (concat parts) with
  | None => locate index (key_to_value k) = Ok None
  | Some n => ∃ location id p i, locate index (key_to_value k) = Ok (Some (Z.of_nat n, location)) ∧ page_id location = id ∧
      id ∈ ids ∧ holds ts w id p ∧ row_index location (Z.of_nat n) = Ok i ∧ p !! i = concat parts !! n
  end.
Proof.
  intros [Ho Hg]. unfold locate. rewrite Ho, Hg. destruct (key_pos pk k (concat parts)) as [n|] eqn:E; [|done]. cbn [fmap option_fmap option_map].
  apply key_pos_lt in E. pose proof (Forall2_length _ _ _ Hst) as Hlen.
  destruct (locations_find ids parts 0 (Z.of_nat n) Hlen) as (i & id & p & s & -> & -> & Hid & Hp & Hs & Hrow); [unfold zlen; lia|].
  cbn [ok_or bind].
  assert (row_index (mkLocation id s (zlen p)) (Z.of_nat n) = Ok (Z.to_nat (Z.of_nat n - s))) as Hri.
  { unfold row_index, checked_sub. cbn [start_offset loc_row_count]. rewrite (proj2 (Z.leb_le _ _)) by lia. cbn [ok_or bind].
    by rewrite (proj2 (Z.leb_gt _ _)) by lia. }
  rewrite Hri. cbn [bind]. exists (mkLocation id s (zlen p)), id, p, (Z.to_nat (Z.of_nat n - s)).
  split_and!; [done|done|by eapply list_elem_of_lookup_2| |done|].
  - destruct (Forall2_lookup_l _ _ _ _ _ Hst Hid) as (p' & Hp' & Hh). congruence.
  - rewrite Hrow. f_equal. lia.
Qed.

Lemma lookup_row_ok c b k :
  cache_ok ids parts c →
  ∃ found c' b', lookup_row w charge_or_reclaim try_reserve size_of_group size_of_vec schema ids (key_to_value k) (c, b) = (Ok found, (c', b')) ∧
    cache_ok ids parts c' ∧ (found = Unavailable ∨ found = Indexed (key_row pk k (concat parts))).
Proof.
  intros Hc. unfold lookup_row. destruct (with_index_ok c b Hc) as (state & b' & -> & Hc' & Hs).
  destruct state as [|index|]; [done| |by eexists _, _, _; split; [done|]; split; [done|left]].
  unfold sbind, slift, key_row. pose proof (locate_ok index k Hs) as Hl. destruct (key_pos pk k (concat parts)) as [n|] eqn:E.
  - destruct Hl as (location & id & p & i & -> & Hpage & Hid & Hh & Hri & Hrow).
    assert (is_Some (concat parts !! n)) as [r Hr] by (apply lookup_lt_is_Some; by eapply key_pos_lt).
    rewrite Hr in Hrow. destruct (read_row_ok _ b' (Z.of_nat n) location id p i r Hc' Hri Hpage Hid Hh Hrow) as (c2 & b2 & -> & Hc2).
    eexists _, _, _. split; [done|]. split; [done|]. right. cbn. by rewrite Hr.
  - rewrite Hl. eexists _, _, _. split; [done|]. split; [done|]. by right.
Qed.

(** ** Scanning instead *)

Lemma key_to_value_inj k k' : key_to_value k = key_to_value k' → k = k'.
Proof. destruct k, k'; simpl; congruence. Qed.

Lemma group_find_ok g p k :
  group_holds g ts p → Forall (λ r, is_Some (row_key r)) p → group_find g pk (key_to_value k) = key_pos pk k p.
Proof.
  intros (_ & Hc & Hcol & _) Hk. destruct key_column_ok as (t & Ht & _). apply lookup_lt_Some in Ht. unfold group_find. rewrite Hc.
  assert (∀ i, group_value g i pk = (λ r, r !!! pk) <$> p !! i) as Hval.
  { intros i. unfold group_value. rewrite Hcol. unfold columns_of. rewrite list_lookup_fmap, lookup_seq_lt by done. simpl. apply list_lookup_fmap. }
  assert (∀ a q, p = a ++ q → fst <$> list_find (λ row, group_value g row pk = Some (key_to_value k)) (seq (length a) (length q)) = key_pos pk k q) as Hgen.
  2: { by apply (Hgen [] p). }
  intros a q. revert a. induction q as [|r q IH]; intros a Hp; [done|]. cbn [length seq list_find].
  assert (p !! length a = Some r) as Hr by (rewrite Hp, lookup_app_r, Nat.sub_diag by done; done).
  rewrite Forall_forall in Hk. destruct (Hk r) as [k0 Hk0]; [by eapply list_elem_of_lookup_2|].
  assert (r !!! pk = key_to_value k0) as E0 by (apply list_lookup_total_correct; by apply row_key_value).
  rewrite Hval, Hr. cbn [fmap option_fmap option_map key_pos]. rewrite E0, Hk0. destruct (decide (k0 = k)) as [->|Hne].
  - by rewrite !decide_True.
  - rewrite !decide_False by (intros [= E]; first [by apply key_to_value_inj in E|done]). rewrite <- (IH (a ++ [r])).
    + rewrite length_app, Nat.add_1_r. by destruct (list_find _ _) as [[]|].
    + by rewrite <- app_assoc.
Qed.
End lookups.

Lemma scan_groups_ok k ids : ∀ parts start,
  stored ts w ids parts → 0 ≤ start → in_u 64 (start + zlen (concat parts)) → Forall (λ r, is_Some (row_key r)) (concat parts) →
  scan_groups w ts ids pk (key_to_value k) start = Ok ((λ n, start + Z.of_nat n) <$> key_pos pk k (concat parts)).
Proof.
  induction ids as [|id ids IH]; intros parts start Hst Hs Hin Hk; [inversion Hst; by subst|].
  inversion Hst as [|? p ? rest (_ & g & Hg & Hgh) Hst' E1 E2]. subst. cbn [concat] in *. apply Forall_app in Hk as [Hkp Hk].
  cbn [scan_groups]. rewrite Hg. cbn [bind]. rewrite (group_find_ok g p k Hgh Hkp), key_pos_app.
  pose proof Hgh as (_ & Hc & _). unfold in_u, zlen in Hin. rewrite length_app in Hin. destruct (key_pos pk k p) as [n|] eqn:E.
  - apply key_pos_lt in E. rewrite try_u_in by (unfold in_u; lia). cbn [ok_or bind]. rewrite try_u_in by (unfold in_u; lia). done.
  - rewrite Hc, try_u_in by (unfold in_u; lia). cbn [ok_or bind]. rewrite try_u_in by (unfold in_u; lia). cbn [ok_or bind].
    rewrite (IH rest) by (done || lia || (unfold in_u, zlen; lia)). f_equal. rewrite <- option_fmap_compose.
    apply option_fmap_ext. intros n. simpl. lia.
Qed.

(** Any lookups, answered as the budget pleases, and any shedding. *)
Inductive cache_step (ids : list Z) : TablePkCache * B → TablePkCache * B → Prop :=
| step_offset key s r s' : lookup_offset w charge_or_reclaim try_reserve schema ids key s = (r, s') → cache_step ids s s'
| step_row key s r s' : lookup_row w charge_or_reclaim try_reserve size_of_group size_of_vec schema ids key s = (r, s') → cache_step ids s s'
| step_shed held_index held_group c b b' : cache_step ids (c, b) (shed_table held_index held_group c, b').

Section reachable.
Context (ids : list Z) (parts : list (list row)).
Hypothesis Hst : stored ts w ids parts.
Hypothesis Hin : in_u 64 (zlen (concat parts)).
Hypothesis Hkeyed : Forall (λ r, is_Some (row_key r)) (concat parts).

Lemma other_value v : (∃ k, v = key_to_value k) ∨ ∀ self, pk_offset self v = None.
Proof.
  destruct v as [| |z| |t| | | | | |]; try (by right); left.
  - by exists (PkInt64 z).
  - by exists (PkString t).
Qed.

Lemma cache_step_ok s s' : cache_step ids s s' → cache_ok ids parts s.1 → cache_ok ids parts s'.1.
Proof.
  destruct 1 as [v [c b] r [c' b'] H|v [c b] r [c' b'] H|hi hg c b b']; cbn [fst]; intros Hc.
  - destruct (other_value v) as [[k ->]|Hv].
    + destruct (lookup_offset_ok ids parts Hst Hin Hkeyed c b k Hc) as (? & ? & ? & E & Hok & _). rewrite E in H. by injection H as <- <- <-.
    + unfold lookup_offset in H. destruct (with_index_ok ids parts Hst Hin Hkeyed c b Hc) as (state & b1 & E & Hok & Hs). rewrite E in H.
      destruct state; [done| |]; by injection H as <- <- <-.
  - destruct (other_value v) as [[k ->]|Hv].
    + destruct (lookup_row_ok ids parts Hst Hin Hkeyed c b k Hc) as (? & ? & ? & E & Hok & _). rewrite E in H. by injection H as <- <- <-.
    + unfold lookup_row in H. destruct (with_index_ok ids parts Hst Hin Hkeyed c b Hc) as (state & b1 & E & Hok & Hs). rewrite E in H.
      destruct state as [|index|]; [done| |by injection H as <- <- <-].
      unfold sbind, slift, locate in H. rewrite Hv in H. by injection H as <- <- <-.
  - destruct Hc as [Hi Hd]. split; cbn [shed_table cache_index decoded_group].
    + destruct hi; [done|]. by destruct (cache_index c).
    + destruct hg; [done|]. done.
Qed.

Lemma reachable_cache_ok b0 s : rtc (cache_step ids) (default_pk_cache, b0) s → cache_ok ids parts s.1.
Proof.
  intros H. assert (cache_ok ids parts (default_pk_cache, b0).1) as H0 by (split; [done|by intros]).
  induction H as [|s1 s2 s3 Hstep _ IH]; [done|]. by eapply IH, cache_step_ok.
Qed.
End reachable.
End index.

(** C24: the primary-key index is transparent.  Over groups that hold the rows of
    a table, from an empty cache, after any sequence of lookups and sheddings
    in which the memory budget and the allocator answer as they like (so that
    the index may be built, refused, dropped half-built or shed, and the decoded
    group replaced), resolving a key gives the offset a full scan gives, which is
    the position of the first row with that key in the groups' concatenation;
    and the row lookup either declines or gives exactly the row at that offset. *)
Theorem pk_index_transparent `{GroupStore W} {B : Type} (w : W) (charge_or_reclaim : Z → B → bool * B) (try_reserve : B → bool * B)
    (size_of_group size_of_vec : Z) (state catalog : Catalog) (schema : NodeTableSchema) (pk : nat) (parts : list (list row))
    (b0 : B) (s : TablePkCache * B) (k : PkKey) :
  primary_key_column schema = Ok pk → Forall (λ t, exact_type t = true) (schema_types schema) →
  node_table state (node_name schema) = Some schema →
  stored_groups catalog (node_name schema) = stored_groups state (node_name schema) →
  table_in_store w state schema pk parts → in_u 64 (zlen (concat parts)) →
  rtc (cache_step w schema charge_or_reclaim try_reserve size_of_group size_of_vec (stored_groups state (node_name schema)))
    (default_pk_cache, b0) s →
  scan_checkpointed_node_key w catalog schema pk (key_to_value k) = Ok (Z.of_nat <$> key_pos pk k (concat parts)) ∧
  (resolve_checkpointed_node_key w charge_or_reclaim try_reserve state catalog schema pk (key_to_value k) s).1 =
    scan_checkpointed_node_key w catalog schema pk (key_to_value k) ∧
  let found := (checkpointed_node_row w charge_or_reclaim try_reserve size_of_group size_of_vec state (node_name schema) (key_to_value k) s).1 in
  found = Ok Unavailable ∨ found = Ok (Indexed (key_pos pk k (concat parts) ≫= (concat parts !!.))).
Proof.
  intros Hpk Hexact Hnt Hcat (_ & Hst & _ & _ & Hkeyed) Hin Hreach.
  pose proof (reachable_cache_ok w schema pk charge_or_reclaim try_reserve size_of_group size_of_vec Hpk Hexact _ _ Hst Hin Hkeyed _ _ Hreach) as Hok.
  destruct s as [c b]. cbn [fst] in Hok.
  assert (scan_checkpointed_node_key w catalog schema pk (key_to_value k) = Ok (Z.of_nat <$> key_pos pk k (concat parts))) as Hscan.
  { unfold scan_checkpointed_node_key. rewrite Hcat, (scan_groups_ok w schema pk Hpk Hexact k _ parts 0); [|done|done|done|done].
    done. }
  split; [done|]. split.
  - rewrite Hscan. unfold resolve_checkpointed_node_key, checkpointed_node_offset, sbind. rewrite Hnt.
    destruct (lookup_offset_ok w schema pk charge_or_reclaim try_reserve Hpk Hexact _ _ Hst Hin Hkeyed c b k Hok)
      as (found & c' & b' & -> & _ & [->| ->]); [|done]. unfold slift. cbn [fst]. exact Hscan.
  - unfold checkpointed_node_row. rewrite Hnt.
    destruct (lookup_row_ok w schema pk charge_or_reclaim try_reserve size_of_group size_of_vec Hpk Hexact _ _ Hst Hin Hkeyed c b k Hok)
      as (found & c' & b' & -> & _ & [->| ->]); [by left|by right].
Qed.

(** A budget of a fixed number of bytes, and an allocator that never fails. *)
Definition ex_charge (bytes left_ : Z) : bool * Z := if bytes <=? left_ then (true, left_ - bytes) else (false, left_).
Definition ex_reserve (left_ : Z) : bool * Z := (true, left_).

(** Key 2 found through the index after a shed; key 9 nowhere. *)
Lemma pk_index_transparent_witness :
  (∃ s, (rtc (cache_step ex_store ex_schema ex_charge ex_reserve 100 24 [0]) (default_pk_cache, 2000) s ∧
    scan_checkpointed_node_key ex_store ex_catalog ex_schema 0 (Int64 2) = Ok (Some 1)) ∧
    (scan_checkpointed_node_key ex_store ex_catalog ex_schema 0 (key_to_value (PkInt64 2)) = Ok (Z.of_nat <$> key_pos 0 (PkInt64 2) (concat [ex_base])) ∧
    (resolve_checkpointed_node_key ex_store ex_charge ex_reserve ex_catalog ex_catalog ex_schema 0 (key_to_value (PkInt64 2)) s).1 =
      scan_checkpointed_node_key ex_store ex_catalog ex_schema 0 (key_to_value (PkInt64 2)) ∧
    let found := (checkpointed_node_row ex_store ex_charge ex_reserve 100 24 ex_catalog (node_name ex_schema) (key_to_value (PkInt64 2)) s).1 in
    found = Ok Unavailable ∨ found = Ok (Indexed (key_pos 0 (PkInt64 2) (concat [ex_base]) ≫= (concat [ex_base] !!.)))) ∧
    (checkpointed_node_row ex_store ex_charge ex_reserve 100 24 ex_catalog (node_name ex_schema) (Int64 2) s).1 = Ok (Indexed (Some (ex_row 2 20)))) ∧
  scan_checkpointed_node_key ex_store ex_catalog ex_schema 0 (Int64 9) = Ok None.
Proof.
  split; [|vm_compute; reflexivity].
  assert (rtc (cache_step ex_store ex_schema ex_charge ex_reserve 100 24 [0]) (default_pk_cache, 2000)
    (shed_table false true (lookup_row ex_store ex_charge ex_reserve 100 24 ex_schema [0] (Int64 1) (default_pk_cache, 2000)).2.1, 2000)) as Hr.
  { eapply rtc_l; [eapply (step_row _ _ _ _ _ _ _ (Int64 1)); reflexivity|].
    eapply rtc_l; [|apply rtc_refl]. apply (step_shed _ _ _ _ _ _ _ false true). }
  eexists. split; [split; [exact Hr|vm_compute; reflexivity]|]. split; [|vm_compute; reflexivity].
  apply (pk_index_transparent ex_store ex_charge ex_reserve 100 24 ex_catalog ex_catalog ex_schema 0 [ex_base] 2000 _ (PkInt64 2)).
  - vm_compute. reflexivity.
  - repeat constructor.
  - vm_compute. reflexivity.
  - reflexivity.
  - exact ex_in_store.
  - vm_compute. split; congruence.
  - exact Hr.
Defined.

(** ** Resolving a row through a view *)

Section resolve.
Context (pk : nat).

Notation row_key r := (optional_row_pk r pk).

Lemma own_insert_row k rows found :
  NoDup ((λ r, row_key r) <$> rows) →
  foldl (insert_step pk k) found (OpInsert <$> rows) = match key_row pk k rows with Some r => Some r | None => found end.
Proof.
  revert found. induction rows as [|r rows IH]; intros found Hnd; [done|]. csimpl in Hnd. apply NoDup_cons in Hnd as [Hr Hnd].
  csimpl. rewrite IH by done. rewrite key_row_cons. destruct (decide (row_key r = Some k)) as [E|]; [|done].
  destruct (key_row pk k rows) as [r'|] eqn:Er; [|done]. apply key_row_Some in Er as [Hin Hk]. destruct Hr. rewrite E, <- Hk.
  by apply (list_elem_of_fmap_2 (λ r, row_key r)).
Qed.

Lemma commit_insert_row k table d found :
  NoDup ((λ r, row_key r) <$> table_rows (nodes d) table) →
  foldl (insert_step pk k) found (commit_ops table d) =
    match key_row pk k (table_rows (nodes d) table) with Some r => Some r | None => found end.
Proof.
  intros Hnd. unfold commit_ops. rewrite !foldl_app.
  assert (∀ (us : list row) f, foldl (insert_step pk k) f (OpUpdate <$> us) = f) as -> by (by induction us; simpl).
  assert (∀ (ds : list Value) f, foldl (insert_step pk k) f (OpDelete <$> ds) = f) as -> by (by induction ds; simpl).
  by apply own_insert_row.
Qed.

(** Without an insert an effect does not disappear. *)
Lemma effect_stays k ops eff :
  foldl (insert_step pk k) None ops = None → foldl (effect_step pk k) eff ops = None → eff = None.
Proof.
  induction ops as [|op ops IH] using rev_ind; [done|]. rewrite !foldl_app. cbn [foldl]. unfold effect_step at 1.
  destruct op as [r|v|r]; cbn [op_key insert_step].
  - destruct (decide _); [done|auto].
  - destruct (decide _); [done|auto].
  - destruct (decide _); [done|auto].
Qed.

Lemma state_rows_ok view schema n :
  primary_key_of schema = Ok (pk, n) → table_known view schema →
  state_node_rows view (node_name schema) = Ok (run_ops pk (chain_ops (state_chain view) (node_name schema)) []).
Proof.
  intros Hpk Hknown. unfold state_node_rows. destruct Hknown as [E|[E Hnil]]; rewrite E.
  - cbn [mbind option_bind]. destruct (primary_key_of_find schema pk n Hpk) as [c ->]. cbn [fmap option_fmap option_map default fst id].
    rewrite node_rows_live. destruct (effective_rows_ok pk (state_chain view) (node_name schema)) as (s & _ & -> & _ & Hl).
    cbn [bind]. by rewrite Hl.
  - cbn [mbind option_bind default]. rewrite node_rows_live.
    destruct (effective_rows_ok 0 (state_chain view) (node_name schema)) as (s & _ & -> & _ & Hl). cbn [bind]. rewrite Hl, Hnil. done.
Qed.

(** A key with no effect is an own insert, or a row of the chain, or
    checkpointed. *)
Lemma unaffected_row view table base k :
  let own_rows := match own view with Some d => table_rows (nodes d) table | None => [] end in
  NoDup ((λ r, row_key r) <$> own_rows) → last_effect pk (view_ops view table) k = None →
  key_row pk k (run_ops pk (view_ops view table) base) =
    match key_row pk k own_rows with
    | Some r => Some r
    | None => match key_row pk k (run_ops pk (chain_ops (state_chain view) table) []) with
        | Some r => Some r
        | None => key_row pk k base
        end
    end.
Proof.
  intros own_rows Hnd He. rewrite !key_row_run. rewrite (no_effect_row pk k _ _ He). unfold view_ops, last_effect in *.
  rewrite foldl_app in He. rewrite foldl_app.
  assert (∀ found, foldl (insert_step pk k) found (match own view with Some d => commit_ops table d | None => [] end) =
    match key_row pk k own_rows with Some r => Some r | None => found end) as Hown.
  { intros found. unfold own_rows in *. destruct (own view) as [d|]; [by apply commit_insert_row|done]. }
  rewrite Hown. destruct (key_row pk k own_rows) as [r|] eqn:E; [done|].
  pose proof (effect_stays k _ _ (Hown None) He) as Hc. change (key_row pk k []) with (None : option row). rewrite (no_effect_row pk k _ None Hc).
  by destruct (foldl (insert_step pk k) None _).
Qed.
End resolve.

(** Resolving a row through a sound cache. *)
Lemma resolve_node_row_ok `{GroupStore W} {B : Type} (w : W) (charge_or_reclaim : Z → B → bool * B) (try_reserve : B → bool * B)
    (size_of_group size_of_vec : Z) (view : ReadView) (catalog : Catalog) (schema : NodeTableSchema) (pk : nat) (parts : list (list row))
    (c : TablePkCache) (b : B) (k : PkKey) :
  primary_key_column schema = Ok pk → Forall (λ t, exact_type t = true) (schema_types schema) →
  from_query schema pk (key_to_value k) = Ok k →
  node_table catalog (node_name schema) = Some schema → table_known view schema →
  (node_table (state_catalog view) (node_name schema) = None → parts = []) →
  stored_groups catalog (node_name schema) = stored_groups (state_catalog view) (node_name schema) →
  table_in_store w (state_catalog view) schema pk parts → in_u 64 (zlen (concat parts)) →
  valid_history pk (concat parts) (view_ops view (node_name schema)) →
  NoDup ((λ r, optional_row_pk r pk) <$> match own view with Some d => table_rows (nodes d) (node_name schema) | None => [] end) →
  cache_ok w schema pk (stored_groups (state_catalog view) (node_name schema)) parts c →
  ∃ c' b',
    resolve_node_row w charge_or_reclaim try_reserve size_of_group size_of_vec view catalog (node_name schema) (key_to_value k) (c, b) =
      (match key_row pk k (run_ops pk (view_ops view (node_name schema)) (concat parts)) with Some r => Ok r | None => Err missing_node_key end, (c', b')) ∧
    cache_ok w schema pk (stored_groups (state_catalog view) (node_name schema)) parts c'.
Proof.
  intros Hpk Hexact Hquery Hnt Hknown Hnone Hcat Hin Hu Hv Hnd Hok. pose proof Hin as (_ & Hst & Hlay & Hkb). pose proof Hkb as [_ Hkeyed].
  destruct (primary_key_named schema pk Hpk) as [n Hpk'].
  unfold resolve_node_row, sbind, slift. rewrite Hnt. cbn [ok_or]. rewrite Hpk', Hquery.
  rewrite (view_effects_ok view schema pk n Hpk' Hknown) by (by eapply valid_history_keyed).
  rewrite (eff_run_lookup pk (view_ops view (node_name schema)) ∅ None k) by done. fold (last_effect pk (view_ops view (node_name schema)) k).
  destruct (last_effect pk (view_ops view (node_name schema)) k) as [[r|]|] eqn:He; cbn [to_visible].
  { rewrite (updated_row pk k _ _ r Hv He). by exists c, b. }
  { rewrite key_row_run, (deleted_row pk k _ _ He). by exists c, b. }
  rewrite (unaffected_row pk view (node_name schema) (concat parts) k Hnd He).
  assert (own_node_row view (node_name schema) pk (key_to_value k) =
    key_row pk k (match own view with Some d => table_rows (nodes d) (node_name schema) | None => [] end)) as ->.
  { unfold own_node_row, table_rows. destruct (own view) as [d|]; [|done]. cbn [mbind option_bind].
    destruct (nodes d !! node_name schema) as [rows|]; [|done]. apply find_row_key. }
  destruct (key_row pk k (match own view with Some d => _ | None => _ end)) as [r|]; [by exists c, b|].
  rewrite (state_rows_ok pk view schema n Hpk' Hknown). cbn [bind]. rewrite find_row_key.
  destruct (key_row pk k (run_ops pk (chain_ops (state_chain view) (node_name schema)) [])) as [r|]; [by exists c, b|].
  unfold checkpointed_node_row. destruct Hknown as [E|[E _]]; rewrite E; [|assert (parts = []) as -> by auto; by exists c, b].
  destruct (lookup_row_ok w schema pk charge_or_reclaim try_reserve size_of_group size_of_vec Hpk Hexact _ _ Hst Hu Hkeyed c b k Hok)
    as (found & c' & b' & -> & Hc' & [->| ->]); exists c', b'; (split; [|done]).
  - rewrite (scan_ok schema w catalog parts) by (first [by rewrite Hcat|done]). cbn [fst]. rewrite find_row_key. by destruct (key_row pk k (concat parts)).
  - destruct (key_row pk k (concat parts)); done.
Qed.

(** C25: a point lookup agrees with the snapshot reader: for a table at rest, a
    commit chain and an own delta that update and delete existing rows, with the
    own inserts of distinct keys, and any reachable state of the primary-key
    cache, [resolve_node_row] returns the row the slot reader shows for that
    key, and reports the key missing exactly when the reader shows none. *)
Theorem resolve_row_visible `{GroupStore W} {B : Type} (w : W) (charge_or_reclaim : Z → B → bool * B) (try_reserve : B → bool * B)
    (size_of_group size_of_vec : Z) (view : ReadView) (catalog : Catalog) (schema : NodeTableSchema) (pk : nat) (parts : list (list row))
    (b0 : B) (s : TablePkCache * B) (k : PkKey) :
  primary_key_column schema = Ok pk → Forall (λ t, exact_type t = true) (schema_types schema) →
  from_query schema pk (key_to_value k) = Ok k →
  node_table catalog (node_name schema) = Some schema → table_known view schema →
  (node_table (state_catalog view) (node_name schema) = None → parts = []) →
  stored_groups catalog (node_name schema) = stored_groups (state_catalog view) (node_name schema) →
  table_in_store w (state_catalog view) schema pk parts → in_u 64 (zlen (concat parts)) →
  valid_history pk (concat parts) (view_ops view (node_name schema)) →
  NoDup ((λ r, optional_row_pk r pk) <$> match own view with Some d => table_rows (nodes d) (node_name schema) | None => [] end) →
  rtc (cache_step w schema charge_or_reclaim try_reserve size_of_group size_of_vec (stored_groups (state_catalog view) (node_name schema)))
    (default_pk_cache, b0) s →
  ∃ visible, node_rows_for_view view schema (concat parts) = Ok visible ∧
    (resolve_node_row w charge_or_reclaim try_reserve size_of_group size_of_vec view catalog (node_name schema) (key_to_value k) s).1 =
    match key_row pk k (live_rows visible) with Some r => Ok r | None => Err missing_node_key end.
Proof.
  intros Hpk Hexact Hquery Hnt Hknown Hnone Hcat Hin Hu Hv Hnd Hreach. pose proof Hin as (_ & Hst & _ & Hkb). pose proof Hkb as [_ Hkeyed].
  destruct (primary_key_named schema pk Hpk) as [n Hpk'].
  destruct (node_rows_view_ok view schema pk n (concat parts) Hpk' Hknown Hkb Hv) as (visible & Hread & Hvis).
  exists visible. split; [done|]. rewrite Hvis. destruct s as [c b].
  pose proof (reachable_cache_ok w schema pk charge_or_reclaim try_reserve size_of_group size_of_vec Hpk Hexact _ _ Hst Hu Hkeyed _ _ Hreach) as Hok.
  destruct (resolve_node_row_ok w charge_or_reclaim try_reserve size_of_group size_of_vec view catalog schema pk parts c b k)
    as (c' & b' & -> & _); done.
Qed.

(** Key 2 is deleted, inserted again and updated by the view's transaction. *)
Definition ex_lookup_view : ReadView := mkView ex_catalog ex_chain (own ex_view).

Lemma resolve_row_visible_witness :
  (resolve_node_row ex_store ex_charge ex_reserve 100 24 ex_lookup_view ex_catalog ex_table (Int64 2) (default_pk_cache, 0)).1 = Ok (ex_row 2 23) ∧
  (resolve_node_row ex_store ex_charge ex_reserve 100 24 ex_lookup_view ex_catalog ex_table (Int64 3) (default_pk_cache, 0)).1 = Err missing_node_key ∧
  ∃ visible, node_rows_for_view ex_lookup_view ex_schema (concat [ex_base]) = Ok visible ∧
    (resolve_node_row ex_store ex_charge ex_reserve 100 24 ex_lookup_view ex_catalog (node_name ex_schema) (key_to_value (PkInt64 2)) (default_pk_cache, 0)).1 =
    match key_row 0 (PkInt64 2) (live_rows visible) with Some r => Ok r | None => Err missing_node_key end.
Proof.
  split; [vm_compute; reflexivity|]. split; [vm_compute; reflexivity|].
  apply (resolve_row_visible ex_store ex_charge ex_reserve 100 24 ex_lookup_view ex_catalog ex_schema 0 [ex_base] 0).
  - vm_compute. reflexivity.
  - repeat constructor.
  - vm_compute. reflexivity.
  - vm_compute. reflexivity.
  - left. vm_compute. reflexivity.
  - intros E. vm_compute in E. discriminate E.
  - reflexivity.
  - exact ex_in_store.
  - vm_compute. split; congruence.
  - apply (bool_decide_unpack _). vm_compute. exact I.
  - apply (bool_decide_unpack _). vm_compute. exact I.
  - apply rtc_refl.
Defined.
