(* ===== verification/Resolve.v ===== *)
(** Finding a row's offset by primary key: [resolve_node_key] of
    [devondb/src/database/view.rs], with its process-wide cache of key indexes
    over the overlay of published states.

    An offset names a physical slot: the checkpointed rows, then one slot per
    committed insert (a deleted one leaves a hole), then the transaction's own
    inserts.  Edges are stored by offset, so the offset a key resolves to has
    to be the slot in which the snapshot reader shows that key. *)

From stdpp Require Import gmap sorting.
From S2P Require Import Prelude Bytes Types Schema TxnLog Catalog Overlay View NodeTable Checkpoint Lookup.


(** ** The key indexes of published states *)

(** [index_state] is the identity of the state the index was built from: the
    weak reference keeps it from being reused. *)
Record OverlayKeyIndex := mkKeyIndex {
  index_state : Z;
  index_table : table_name;
  key_positions : gmap OverlayKey nat;
  index_row_count : Z;
}.

Definition OVERLAY_KEY_INDEX_CACHE_ENTRIES : nat := 8.

(** One slot of [build_overlay_key_index]: [entry(key).or_insert(position)]. *)
Definition index_slot (key_index : nat) (index : OverlayKeyIndex) (slot : nat * option row) : outcome OverlayKeyIndex :=
  let '(position, r) := slot in
  let! positions := match r with
    | Some r =>
        let! key := key_from_row r key_index in
        Ok (match key_positions index !! key with Some _ => key_positions index | None => <[key := position]> (key_positions index) end)
    | None => Ok (key_positions index)
    end in
  let! count := ok_or (try_u 64 (Z.of_nat position + 1)) (Corrupt "node table `{table}` overlay row count exceeds usize::MAX") in
  Ok (mkKeyIndex (index_state index) (index_table index) positions count).

Definition build_overlay_key_index (state : Z) (view : ReadView) (table : table_name) (key_index : nat) : outcome OverlayKeyIndex :=
  let! slots := state_node_slots view table in
  for_each (enumerate slots) (mkKeyIndex state table ∅ 0) (index_slot key_index).

(** [alive] tells whether a state is still referenced. *)
Definition overlay_key_position (alive : Z → bool) (state : Z) (view : ReadView) (table : table_name) (key_index : nat) (key : OverlayKey) :
    SM (list OverlayKeyIndex) (option nat * Z) := λ indexes,
  let indexes := filter (λ index, alive (index_state index) = true) indexes in
  match snd <$> list_find (λ index, index_state index = state ∧ index_table index = table) indexes with
  | Some index => (Ok (key_positions index !! key, index_row_count index), indexes)
  | None =>
      let indexes := if (length indexes =? OVERLAY_KEY_INDEX_CACHE_ENTRIES)%nat then drop 1 indexes else indexes in
      match build_overlay_key_index state view table key_index with
      | Ok index => (Ok (key_positions index !! key, index_row_count index), indexes ++ [index])
      | Err e => (Err e, indexes)
      | Panic => (Panic, indexes)
      end
  end.

Definition view_has_node_deletes (view : ReadView) (table : table_name) : bool :=
  match own view with Some d => bool_decide (is_Some (node_deletes d !! table)) | None => false end ||
  existsb (λ link, bool_decide (is_Some (node_deletes (delta link) !! table))) (commit_links_oldest_first (state_chain view)).

(** The rows of the transaction with the key, from the front. *)
Definition own_position (view : ReadView) (table : table_name) (key_index : nat) (key : Value) : option nat :=
  own view ≫= λ d, nodes d !! table ≫= λ rows, fst <$> list_find (λ r, r !! key_index = Some key) rows.

Section resolve.
Context {W : Type} `{GS : !GroupStore W} {B : Type} (w : W) (charge_or_reclaim : Z → B → bool * B) (try_reserve : B → bool * B).

Notation KM := (SM ((TablePkCache * B) * list OverlayKeyIndex)).

Definition in_pk_cache {A} (m : SM (TablePkCache * B) A) : KM A := λ '(s, indexes), let '(r, s) := m s in (r, (s, indexes)).
Definition in_indexes {A} (m : SM (list OverlayKeyIndex) A) : KM A := λ '(s, indexes), let '(r, indexes) := m indexes in (r, (s, indexes)).

Definition checkpointed_row_count (catalog : Catalog) (schema : NodeTableSchema) : outcome Z :=
  for_each (stored_groups catalog (node_name schema)) 0 (λ count id,
    let! rows := map_err (λ _, Corrupt "node table `{}` group {group_index} has invalid metadata: {error}")
      (group_row_count w id (length (node_columns schema))) in
    let! rows := ok_or (try_u 64 (Z.of_nat rows)) (Corrupt "node table `{}` group row count exceeds u64::MAX") in
    ok_or (try_u 64 (count + rows)) (Corrupt "checkpointed row count for node table `{}` exceeds u64::MAX")).

Definition resolve_node_key (alive : Z → bool) (state : Z) (view : ReadView) (catalog : Catalog) (table : cat_name) (key : Value) : KM Z :=
  let+ schema := slift (ok_or (node_table catalog table) (NotFound "node table `{table}`")) in
  let table_name := node_name schema in
  let+ (key_index, _) := slift (primary_key_of schema) in
  let+ cache_key := slift (from_query schema key_index key) in
  let+ (overlay_position, overlay_count) := in_indexes (overlay_key_position alive state view table_name key_index cache_key) in
  match own_position view table_name key_index key with
  | Some position =>
      let+ position := slift (ok_or (try_u 64 (overlay_count + Z.of_nat position)) (Corrupt "node table `{table}` overlay position exceeds usize::MAX")) in
      let+ count := slift (checkpointed_row_count catalog schema) in
      slift (node_offset count (Z.to_nat position))
  | None =>
      let+ deleted := slift (if view_has_node_deletes view table_name then
          let! effects := visible_dml_effects view schema in
          Ok (match effects !! cache_key with Some VDelete => true | _ => false end)
        else Ok false) in
      if (deleted : bool) then slift (Err missing_node_key) else
      match overlay_position with
      | Some position =>
          let+ count := slift (checkpointed_row_count catalog schema) in
          slift (node_offset count position)
      | None =>
          let+ offset := in_pk_cache (resolve_checkpointed_node_key w charge_or_reclaim try_reserve (state_catalog view) catalog schema key_index key) in
          slift (ok_or offset missing_node_key)
      end
  end.
End resolve.

(** ** The indexes are right *)

Section positions.
Context (pk : nat).

Notation row_key r := (optional_row_pk r pk).

Lemma slots_ok_unique rows m m' : slots_ok pk (rows, m) → slots_ok pk (rows, m') → m = m'.
Proof. intros H H'. apply map_eq. intros k. apply option_eq. intros p. by rewrite (H k p), (H' k p). Qed.

Lemma index_slots_ok state table active rest : ∀ before m,
  slots_ok pk (before ++ rest, active) → Forall (λ x, ∀ r, x = Some r → is_Some (row_key r)) rest →
  in_u 64 (zlen (before ++ rest)) → slots_ok pk (before, m) →
  for_each (enumerate_from (length before) rest) (mkKeyIndex state table m (zlen before)) (index_slot pk) =
    Ok (mkKeyIndex state table active (zlen (before ++ rest))).
Proof.
  induction rest as [|x rest IH]; intros before m Hact Hkeyed Hu Hm.
  { rewrite app_nil_r in Hact |- *. by rewrite (slots_ok_unique before m active). }
  apply Forall_cons in Hkeyed as [Hx Hkeyed]. rewrite enumerate_from_cons. cbn [for_each]. unfold index_slot at 1.
  assert (in_u 64 (Z.of_nat (length before) + 1)) as Hin by (unfold in_u, zlen in *; rewrite length_app in Hu; cbn [length] in Hu; lia).
  assert (zlen (before ++ [x]) = Z.of_nat (length before) + 1) as Hlen by (unfold zlen; rewrite length_app; cbn [length]; lia).
  assert (∃ m1, match x with
      | Some r => let! key := key_from_row r pk in
          Ok (match m !! key with Some _ => m | None => <[key := length before]> m end)
      | None => Ok m
      end = Ok m1 ∧ slots_ok pk (before ++ [x], m1)) as (m1 & Em1 & Hm1).
  { destruct x as [r|]; [|exists m; split; [done|by apply slots_ok_hole]]. destruct (Hx r eq_refl) as [k Hk].
    rewrite (proj2 (key_from_row_Ok pk r k) Hk). cbn [bind]. assert (m !! k = None) as Hnone.
    { destruct (m !! k) as [p|] eqn:Ep; [|done]. apply (Hm k p) in Ep as (r' & Hr' & Hk').
      assert (active !! k = Some p) as A1 by (apply (Hact k p); exists r'; split; [by apply lookup_app_l_Some|done]).
      assert (active !! k = Some (length before)) as A2 by (apply (Hact k (length before)); exists r; split; [cbn [fst]; by rewrite lookup_app_r, Nat.sub_diag by done|done]).
      rewrite A1 in A2. injection A2 as ->. apply lookup_lt_Some in Hr'. cbn in Hr'. lia. }
    rewrite Hnone. eexists. split; [done|]. pose proof (slots_ok_push pk before m r Hm) as Hpush. rewrite Hk in Hpush. by apply Hpush. }
  cbn [key_positions]. rewrite Em1. cbn [bind]. rewrite try_u_in by done. cbn [ok_or bind index_state index_table]. rewrite <- Hlen.
  rewrite (cons_middle x before rest) in *. rewrite app_assoc in *.
  rewrite <- (IH (before ++ [x]) m1) by done. rewrite length_app. cbn [length]. by rewrite Nat.add_1_r.
Qed.

(** The last slot of a key shows the key's row unless the key is deleted. *)
Lemma masked_at eff a r b k y :
  row_key r = Some k → existsb (has_key pk k) b = false → fate eff k r = Some y → masked pk eff (a ++ Some r :: b) !! length a = Some (Some y).
Proof.
  intros Hr Hb Hy. induction a as [|x a IH]; cbn [app masked length]; [|exact IH]. cbn [lookup list_lookup]. by rewrite Hr, Hb, Hy.
Qed.

(** What is shown with a key stands in a slot of that key. *)
Lemma masked_from eff rows p y k :
  eff_ok pk eff → masked pk eff rows !! p = Some (Some y) → row_key y = Some k → ∃ r, rows !! p = Some (Some r) ∧ row_key r = Some k.
Proof.
  intros Hok. revert p. induction rows as [|x rows IH]; intros [|p]; cbn [masked lookup list_lookup]; [done|done| |apply IH].
  destruct x as [r|]; [|done]. intros [= H] Hy. exists r. split; [done|]. destruct (row_key r) as [k'|] eqn:Hr; [|congruence].
  destruct (existsb _ rows); [done|]. rewrite <- Hy. symmetry. by eapply fate_key.
Qed.

(** The first own insert of a key is the key's last operation. *)
Lemma own_insert_last table d ops k :
  Some k ∈ (λ r, row_key r) <$> table_rows (nodes d) table → last_effect pk (ops ++ commit_ops table d) k = None.
Proof.
  unfold last_effect, commit_ops. rewrite !foldl_app. generalize (foldl (effect_step pk k) (foldl (effect_step pk k) (foldl (effect_step pk k) None ops) (OpUpdate <$> table_rows (node_updates d) table)) (OpDelete <$> table_rows (node_deletes d) table)).
  intros eff (r & Hr & Hin)%list_elem_of_fmap. apply list_elem_of_split in Hin as (a & b & ->). rewrite fmap_app, foldl_app. csimpl.
  unfold effect_step at 2. cbn [op_key]. rewrite <- Hr, decide_True by done. clear. induction b as [|x b IH]; [done|]. csimpl.
  unfold effect_step at 2. by destruct (decide _).
Qed.

(** A key is deleted only if something was. *)
Lemma no_deletes_effect ops k : Forall (λ op, ∀ v, op ≠ OpDelete v) ops → last_effect pk ops k ≠ Some None.
Proof.
  unfold last_effect. intros H. assert (∀ eff, eff ≠ Some None → foldl (effect_step pk k) eff ops ≠ Some None) as Hgen; [|by apply Hgen].
  induction H as [|op ops Hop _ IH]; intros eff Heff; [done|]. cbn [foldl]. apply IH. unfold effect_step. destruct (decide _); [|done].
  destruct op; [done| |done]. by destruct (Hop key).
Qed.
End positions.

(** ** The cache of indexes *)

(** An entry for this state is what building it again would give. *)
Definition index_sound (state : Z) (view : ReadView) (index : OverlayKeyIndex) : Prop :=
  index_state index = state → ∀ schema pk n,
  primary_key_of schema = Ok (pk, n) → table_known view schema → node_name schema = index_table index →
  build_overlay_key_index state view (index_table index) pk = Ok index.

Definition same_state (view view' : ReadView) : Prop := state_catalog view = state_catalog view' ∧ state_chain view = state_chain view'.

(** Any lookups of keys of known tables through any states; only this state has
    its identity. *)
Inductive index_step (state : Z) (view : ReadView) : list OverlayKeyIndex → list OverlayKeyIndex → Prop :=
| step_index alive state' view' schema pk n key indexes r indexes' :
    (state' = state → same_state view' view) → primary_key_of schema = Ok (pk, n) → table_known view' schema →
    overlay_key_position alive state' view' (node_name schema) pk key indexes = (r, indexes') →
    index_step state view indexes indexes'.

Lemma same_state_slots view view' table : same_state view view' → state_node_slots view table = state_node_slots view' table.
Proof. intros [E1 E2]. unfold state_node_slots. by rewrite E1, E2. Qed.

Lemma same_state_known view view' schema : same_state view view' → table_known view schema → table_known view' schema.
Proof. intros [E1 E2]. unfold table_known. by rewrite E1, E2. Qed.

(** The schema of a table does not depend on who asks. *)
Lemma build_same state view schema pk n schema' pk' n' :
  primary_key_of schema = Ok (pk, n) → table_known view schema → primary_key_of schema' = Ok (pk', n') → table_known view schema' →
  node_name schema = node_name schema' →
  build_overlay_key_index state view (node_name schema) pk = build_overlay_key_index state view (node_name schema) pk'.
Proof.
  intros Hpk Hk Hpk' Hk' En. destruct (view_slots_ok view schema pk n Hpk Hk) as (s & Hs & Hslots).
  unfold table_known in Hk, Hk'. rewrite <- En in Hk'. destruct Hk as [E|[E Hnil]].
  - destruct Hk' as [E'|[E' _]]; [|congruence]. rewrite E in E'. injection E' as <-. rewrite Hpk in Hpk'. by injection Hpk' as <- _.
  - rewrite Hnil in Hs. injection Hs as <-. unfold build_overlay_key_index. by rewrite Hslots.
Qed.

Lemma built_named state view table pk index :
  build_overlay_key_index state view table pk = Ok index → index_state index = state ∧ index_table index = table.
Proof.
  unfold build_overlay_key_index. destruct (state_node_slots view table) as [slots| |]; [|done|done]. cbn [bind].
  generalize (enumerate slots). intros l. assert (∀ l i, index_state i = state ∧ index_table i = table →
    for_each l i (index_slot pk) = Ok index → index_state index = state ∧ index_table index = table) as Hgen; [|by apply Hgen].
  clear. induction l as [|[p x] l IH]; intros i Hi; cbn [for_each]; [by intros [= <-]|].
  destruct (index_slot pk i (p, x)) as [i'| |] eqn:E; cbn [bind]; [|done|done]. apply IH. unfold index_slot in E.
  destruct (match x with Some _ => _ | None => _ end) as [ps| |]; [|done|done]. cbn [bind] in E.
  destruct (ok_or _ _) as [count| |]; [|done|done]. by injection E as <-.
Qed.

Lemma retain_sound (P : OverlayKeyIndex → Prop) alive indexes :
  Forall P indexes → Forall P (filter (λ index, alive (index_state index) = true) indexes).
Proof. rewrite !Forall_forall. intros H x [_ Hx]%list_elem_of_filter. auto. Qed.

Lemma overlay_position_sound alive state view schema pk n key indexes r indexes' :
  primary_key_of schema = Ok (pk, n) → table_known view schema → Forall (index_sound state view) indexes →
  overlay_key_position alive state view (node_name schema) pk key indexes = (r, indexes') →
  Forall (index_sound state view) indexes' ∧
  r = let! index := build_overlay_key_index state view (node_name schema) pk in Ok (key_positions index !! key, index_row_count index).
Proof.
  intros Hpk Hk Hs. unfold overlay_key_position. pose proof (retain_sound _ alive _ Hs) as Hf.
  revert Hf. generalize (filter (λ index, alive (index_state index) = true) indexes). intros l Hf.
  destruct (list_find _ l) as [[i index]|] eqn:E; cbn [fmap option_fmap option_map snd].
  - intros [= <- <-]. split; [done|]. apply list_find_Some in E as (Hi & [E1 E2] & _).
    rewrite Forall_forall in Hf. pose proof (Hf index (list_elem_of_lookup_2 _ _ _ Hi) E1 schema pk n Hpk Hk (eq_sym E2)) as Hb.
    rewrite E2 in Hb. by rewrite Hb.
  - assert (Forall (index_sound state view) (if (length l =? OVERLAY_KEY_INDEX_CACHE_ENTRIES)%nat then drop 1 l else l)) as Hf'.
    { destruct (_ =? _)%nat; [by apply Forall_drop|done]. }
    destruct (build_overlay_key_index state view (node_name schema) pk) as [index| |] eqn:Eb; intros [= <- <-]; cbn [bind]; [|done|done].
    split; [|done]. apply Forall_app. split; [done|]. constructor; [|constructor]. intros _ schema' pk' n' Hpk' Hk' En'.
    destruct (built_named _ _ _ _ _ Eb) as [_ Et]. rewrite Et in En' |- *. rewrite <- Eb. symmetry. by eapply build_same.
Qed.

Lemma overlay_position_other alive state state' view view' schema pk n key indexes r indexes' :
  (state' = state → same_state view' view) → primary_key_of schema = Ok (pk, n) → table_known view' schema →
  Forall (index_sound state view) indexes →
  overlay_key_position alive state' view' (node_name schema) pk key indexes = (r, indexes') → Forall (index_sound state view) indexes'.
Proof.
  intros Hsame Hpk Hk Hs Hrun. destruct (decide (state' = state)) as [->|Hne].
  - specialize (Hsame eq_refl). eapply (overlay_position_sound alive state view schema pk n key indexes r indexes'); [done|by eapply same_state_known|done|].
    rewrite <- Hrun. unfold overlay_key_position, build_overlay_key_index. by rewrite (same_state_slots view' view).
  - unfold overlay_key_position in Hrun. pose proof (retain_sound _ alive _ Hs) as Hf.
    revert Hf Hrun. generalize (filter (λ index, alive (index_state index) = true) indexes). intros l Hf.
    destruct (list_find _ l) as [[i index]|]; cbn [fmap option_fmap option_map snd]; [by intros [= <- <-]|].
    assert (Forall (index_sound state view) (if (length l =? OVERLAY_KEY_INDEX_CACHE_ENTRIES)%nat then drop 1 l else l)) as Hf'.
    { destruct (_ =? _)%nat; [by apply Forall_drop|done]. }
    destruct (build_overlay_key_index state' view' (node_name schema) pk) as [index| |] eqn:Eb; intros [= <- <-]; [|done|done].
    apply Forall_app. split; [done|]. constructor; [|constructor]. destruct (built_named _ _ _ _ _ Eb) as [Es _]. intros E. congruence.
Qed.

Lemma reachable_indexes_sound state view indexes : rtc (index_step state view) [] indexes → Forall (index_sound state view) indexes.
Proof.
  assert (Forall (index_sound state view) []) as H0 by constructor. revert H0. generalize ([] : list OverlayKeyIndex). intros l Hl H.
  induction H as [|l1 l2 l3 Hstep _ IH]; [done|]. apply IH. destruct Hstep. by eapply overlay_position_other.
Qed.

(** ** Offsets name slots *)

Section offsets.
Context {W : Type} `{GS : !GroupStore W} {B : Type} (w : W) (charge_or_reclaim : Z → B → bool * B) (try_reserve : B → bool * B).
Context (view : ReadView) (catalog : Catalog) (schema : NodeTableSchema) (pk : nat) (parts : list (list row)).

Notation table := (node_name schema).
Notation row_key r := (optional_row_pk r pk).
Notation own_rows := (match own view with Some d => table_rows (nodes d) (node_name schema) | None => [] end).
Notation ids := (stored_groups (state_catalog view) (node_name schema)).

Hypothesis Hpk : primary_key_column schema = Ok pk.
Hypothesis Hexact : Forall (λ t, exact_type t = true) (schema_types schema).
Hypothesis Hnt : node_table catalog table = Some schema.
Hypothesis Hknown : table_known view schema.
Hypothesis Hnone : node_table (state_catalog view) table = None → parts = [].
Hypothesis Hcat : stored_groups catalog table = ids.
Hypothesis Hin : table_in_store w (state_catalog view) schema pk parts.
Hypothesis Hv : valid_history pk (concat parts) (view_ops view table).
Hypothesis Hnd : NoDup ((λ r, row_key r) <$> own_rows).
Hypothesis Hu : ∀ slots, physical_slots view schema (concat parts) = Ok slots → in_u 64 (zlen slots).

Lemma row_count_ok : in_u 64 (zlen (concat parts)) → checkpointed_row_count w catalog schema = Ok (zlen (concat parts)).
Proof.
  destruct Hin as (_ & Hst & _ & _). unfold checkpointed_row_count. rewrite Hcat. intros Hl.
  assert (∀ ids parts start, stored (schema_types schema) w ids parts → 0 ≤ start → in_u 64 (start + zlen (concat parts)) →
    for_each ids start (λ count id,
      let! rows := map_err (λ _, Corrupt "node table `{}` group {group_index} has invalid metadata: {error}")
        (group_row_count w id (length (node_columns schema))) in
      let! rows := ok_or (try_u 64 (Z.of_nat rows)) (Corrupt "node table `{}` group row count exceeds u64::MAX") in
      ok_or (try_u 64 (count + rows)) (Corrupt "checkpointed row count for node table `{}` exceeds u64::MAX")) =
    Ok (start + zlen (concat parts))) as Hgen.
  2: { rewrite (Hgen _ parts 0); [done|done|done|done]. }
  clear. intros ids parts start Hst. revert start. induction Hst as [|id p ids parts (_ & g & Hg & Hgh) _ IH]; intros start Hs Hl; [cbn; f_equal; unfold zlen; cbn; lia|].
  cbn [for_each concat] in *. pose proof (row_count_agrees _ _ _ _ Hg) as Hrc. unfold schema_types in Hrc at 1. rewrite length_fmap in Hrc. rewrite Hrc. cbn [map_err bind].
  destruct Hgh as (_ & -> & _). unfold in_u, zlen in *. rewrite length_app in *.
  rewrite try_u_in by (unfold in_u; lia). cbn [ok_or bind]. rewrite try_u_in by (unfold in_u; lia). cbn [ok_or bind].
  rewrite IH by (unfold in_u, zlen; lia). f_equal. lia.
Qed.

Lemma resolve_checkpointed_ok c b k :
  in_u 64 (zlen (concat parts)) → cache_ok w schema pk ids parts c →
  ∃ c' b', resolve_checkpointed_node_key w charge_or_reclaim try_reserve (state_catalog view) catalog schema pk (key_to_value k) (c, b) =
    (Ok (Z.of_nat <$> key_pos pk k (concat parts)), (c', b')) ∧ cache_ok w schema pk ids parts c'.
Proof.
  intros Hl Hok. pose proof Hin as (_ & Hst & _ & _ & Hkeyed). unfold resolve_checkpointed_node_key, checkpointed_node_offset, sbind.
  destruct Hknown as [E|[E _]]; rewrite E; [|assert (parts = []) as -> by auto; by exists c, b].
  destruct (lookup_offset_ok w schema pk charge_or_reclaim try_reserve Hpk Hexact _ _ Hst Hl Hkeyed c b k Hok)
    as (found & c' & b' & -> & Hc' & [->| ->]); exists c', b'; (split; [|done]); [|done].
  unfold slift, scan_checkpointed_node_key. by rewrite Hcat, (scan_groups_ok w schema pk Hpk Hexact k _ parts 0).
Qed.

Lemma no_key_slots (rows : list row) k : Forall (λ r, row_key r ≠ Some k) rows → existsb (has_key pk k) (Some <$> rows) = false.
Proof. induction 1 as [|r rows Hr _ IH]; [done|]. csimpl. rewrite bool_decide_false by done. exact IH. Qed.

Lemma nodup_after (a b : list row) r k : NoDup ((λ r, row_key r) <$> a ++ r :: b) → row_key r = Some k → Forall (λ x, row_key x ≠ Some k) b.
Proof.
  rewrite fmap_app. csimpl. intros (_ & _ & [Hr _]%NoDup_cons)%NoDup_app Hk. apply Forall_forall. intros x Hx E. apply Hr.
  rewrite Hk, <- E. by apply (list_elem_of_fmap_2 (λ r, row_key r)).
Qed.

Lemma view_deletes_effect k : view_has_node_deletes view table = false → last_effect pk (view_ops view table) k ≠ Some None.
Proof.
  unfold view_has_node_deletes. intros [Ho Hc]%orb_false_iff. apply no_deletes_effect.
  assert (∀ d, node_deletes d !! table = None → Forall (λ op, ∀ v, op ≠ OpDelete v) (commit_ops table d)) as Hcommit.
  { intros d E. unfold commit_ops. rewrite !Forall_app, !Forall_fmap. split_and!; try (by apply Forall_true). unfold table_rows at 1. rewrite E. constructor. }
  unfold view_ops. apply Forall_app. split.
  - unfold chain_ops. apply Forall_forall. intros op (link & Hop & Hlink)%list_elem_of_bind.
    assert (node_deletes (delta link) !! table = None) as E.
    { apply eq_None_not_Some. intros Hs. assert (true = false) as Hf; [|done]. rewrite <- Hc. symmetry. apply existsb_exists.
      exists link. split; [by apply list_elem_of_In|by apply bool_decide_true]. }
    pose proof (Hcommit _ E) as Hall. rewrite Forall_forall in Hall. by apply Hall.
  - destruct (own view) as [d|]; [|constructor]. apply Hcommit. apply bool_decide_eq_false in Ho. by apply eq_None_not_Some.
Qed.

(** The slot a key is shown in, as the code looks for it. *)
Definition slot_of (active : gmap OverlayKey nat) (rows : list (option row)) (k : PkKey) : option nat :=
  match key_pos pk k own_rows with
  | Some i => Some (length (concat parts) + (length rows + i))%nat
  | None =>
      if decide (last_effect pk (view_ops view table) k = Some None) then None else
      match active !! k with
      | Some p => Some (length (concat parts) + p)%nat
      | None => key_pos pk k (concat parts)
      end
  end.

Lemma effects_lookup k : foldl (eff_op pk) ∅ (view_ops view table) !! k = to_visible (last_effect pk (view_ops view table) k).
Proof. by apply (eff_run_lookup pk (view_ops view table) ∅ None k). Qed.

Lemma fate_not_deleted k r :
  last_effect pk (view_ops view table) k ≠ Some None → is_Some (fate (foldl (eff_op pk) ∅ (view_ops view table)) k r).
Proof. intros He. unfold fate. rewrite effects_lookup. destruct (last_effect _ _ _) as [[u|]|]; naive_solver. Qed.

Lemma slot_of_shown active rows k :
  slots_ok pk (rows, active) → eff_ok pk (foldl (eff_op pk) ∅ (view_ops view table)) →
  live_rows (masked pk (foldl (eff_op pk) ∅ (view_ops view table)) ((Some <$> concat parts) ++ rows ++ (Some <$> own_rows))) =
    run_ops pk (view_ops view table) (concat parts) →
  match slot_of active rows k with
  | Some p => ∃ y, masked pk (foldl (eff_op pk) ∅ (view_ops view table)) ((Some <$> concat parts) ++ rows ++ (Some <$> own_rows)) !! p =
      Some (Some y) ∧ row_key y = Some k
  | None => Forall (λ y, row_key y ≠ Some k) (run_ops pk (view_ops view table) (concat parts))
  end.
Proof.
  intros Hact Heff Hlive. set (eff := foldl (eff_op pk) ∅ (view_ops view table)) in *. unfold slot_of.
  pose proof Hin as (_ & _ & _ & Hndb & _).
  assert (∀ a r b, last_effect pk (view_ops view table) k ≠ Some None → row_key r = Some k → existsb (has_key pk k) b = false →
    ∃ y, masked pk eff (a ++ Some r :: b) !! length a = Some (Some y) ∧ row_key y = Some k) as Hat.
  { intros a r b He Hr Hb. destruct (fate_not_deleted k r He) as [y Hy]. exists y. split; [by eapply masked_at|by eapply fate_key]. }
  destruct (key_pos pk k own_rows) as [i|] eqn:Eo.
  { apply key_pos_split in Eo as (a & r & b & Eown & <- & Hr).
    destruct (Hat ((Some <$> concat parts) ++ rows ++ (Some <$> a)) r (Some <$> b)) as (y & Hy & Hk); [|done| |].
    - destruct (own view) as [d|] eqn:Ed; [|by destruct a]. unfold view_ops. rewrite Ed, own_insert_last; [done|].
      rewrite Eown. apply list_elem_of_fmap. exists r. split; [done|]. apply elem_of_app. right. by left.
    - apply no_key_slots. eapply (nodup_after a); [by rewrite <- Eown|done].
    - exists y. split; [|done]. rewrite Eown, fmap_app. csimpl. rewrite <- Hy. rewrite !length_app, !length_fmap. f_equal. f_equal.
      by rewrite <- !app_assoc. }
  apply key_pos_None in Eo. destruct (decide (last_effect pk (view_ops view table) k = Some None)) as [He|He].
  { apply key_row_None. rewrite key_row_run. by apply deleted_row. }
  pose proof (no_key_slots own_rows k Eo) as Hown. destruct (active !! k) as [p|] eqn:Ea.
  { pose proof (proj1 (Hact k p) Ea) as (r & Hr & Hk). cbn [fst] in Hr.
    destruct (Hat ((Some <$> concat parts) ++ take p rows) r (drop (S p) rows ++ (Some <$> own_rows))) as (y & Hy & Hyk); [done|done| |].
    - rewrite existsb_app, Hown, orb_false_r. apply not_true_iff_false. intros (x & Hx & Hxk)%existsb_exists.
      destruct x as [x|]; [|done]. apply bool_decide_eq_true in Hxk. apply list_elem_of_In, list_elem_of_lookup in Hx as [q Hq].
      rewrite lookup_drop in Hq. assert (active !! k = Some (S p + q)%nat) as Ea' by (apply (Hact k (S p + q)%nat); eauto). rewrite Ea in Ea'. injection Ea'. lia.
    - exists y. split; [|done]. rewrite <- Hy. pose proof (lookup_lt_Some _ _ _ Hr) as Hlt.
      rewrite length_app, length_fmap, length_take_le by lia. f_equal. f_equal. rewrite <- !app_assoc. f_equal.
      rewrite <- (take_drop_middle rows p (Some r) Hr) at 1. by rewrite <- app_assoc. }
  assert (∀ p x, rows !! p = Some (Some x) → row_key x ≠ Some k) as Hrows.
  { intros p x Hx Hk. assert (active !! k = Some p) as E by (apply (Hact k p); eauto). congruence. }
  destruct (key_pos pk k (concat parts)) as [i|] eqn:Eb.
  - apply key_pos_split in Eb as (a & r & b & Ebase & <- & Hr).
    destruct (Hat (Some <$> a) r ((Some <$> b) ++ rows ++ (Some <$> own_rows))) as (y & Hy & Hyk); [done|done| |].
    + rewrite !existsb_app, Hown, orb_false_r. apply orb_false_iff. split.
      * apply no_key_slots. eapply (nodup_after a); [by rewrite <- Ebase|done].
      * apply not_true_iff_false. intros (x & Hx & Hxk)%existsb_exists. destruct x as [x|]; [|done]. apply bool_decide_eq_true in Hxk.
        apply list_elem_of_In, list_elem_of_lookup in Hx as [q Hq]. by apply (Hrows q x).
    + exists y. split; [|done]. rewrite <- Hy, length_fmap, Ebase, fmap_app, <- app_assoc. done.
  - apply key_pos_None in Eb. rewrite <- Hlive. apply Forall_forall. intros y (q & Hq)%elem_of_live_rows Hy.
    destruct (masked_from pk eff _ q y k Heff Hq Hy) as (r & Hr & Hk). rewrite Forall_forall in Eo, Eb.
    apply list_elem_of_lookup_2, elem_of_app in Hr as [(z & [= <-] & Hz)%list_elem_of_fmap|Hr]; [by apply (Eb r)|].
    apply elem_of_app in Hr as [[q' Hq']%list_elem_of_lookup|(z & [= <-] & Hz)%list_elem_of_fmap]; [by apply (Hrows q' r)|by apply (Eo r)].
Qed.

(** The physical slots, the index over the overlay part, and what is shown. *)
Lemma overlay_slots_known :
  ∃ rows active slots, state_node_slots view table = Ok rows ∧ slots_ok pk (rows, active) ∧
    (∀ state, build_overlay_key_index state view table pk = Ok (mkKeyIndex state table active (zlen rows))) ∧
    slots = (Some <$> concat parts) ++ rows ++ (Some <$> own_rows) ∧ in_u 64 (zlen slots) ∧
    eff_ok pk (foldl (eff_op pk) ∅ (view_ops view table)) ∧
    node_rows_for_view view schema (concat parts) = Ok (masked pk (foldl (eff_op pk) ∅ (view_ops view table)) slots) ∧
    live_rows (masked pk (foldl (eff_op pk) ∅ (view_ops view table)) slots) = run_ops pk (view_ops view table) (concat parts).
Proof.
  destruct (primary_key_named schema pk Hpk) as [n Hpk']. pose proof Hin as (_ & _ & _ & Hkb).
  destruct (node_rows_masked view schema pk n (concat parts) Hpk' Hknown Hkb Hv) as (slots & Hslots & Heff & Hread & Hlive).
  destruct (view_slots_ok view schema pk n Hpk' Hknown) as ([rows active] & Hs & Hrows). cbn [fst] in Hrows.
  destruct (slot_ops_ok pk (chain_ops (state_chain view) table) ([], ∅) (slots_ok_start pk)) as (s' & Hs' & Hok & _).
  unfold slot_state in *. rewrite Hs in Hs'. injection Hs' as <-. exists rows, active, slots.
  assert (slots = (Some <$> concat parts) ++ rows ++ (Some <$> own_rows)) as ->.
  { unfold physical_slots in Hslots. rewrite Hrows in Hslots. cbn [bind] in Hslots. injection Hslots as <-. by destruct (own view). }
  pose proof (Hu _ Hslots) as Hlen. split_and!; try done. intros state. unfold build_overlay_key_index. rewrite Hrows. cbn [bind].
  apply (index_slots_ok pk state table active rows [] ∅); [done| | |by apply slots_ok_start].
  - pose proof (valid_history_keyed _ _ _ Hv) as Hkeyed. unfold view_ops in Hkeyed. apply Forall_app in Hkeyed as [Hkeyed _].
    pose proof (chain_slots_keyed pk _ ([], ∅) (rows, active) Hs Hkeyed) as Hl. cbn [fst] in Hl.
    assert (Forall (λ x, is_Some (row_key x)) (live_rows rows)) as Hl' by (apply Hl; [constructor|apply slots_ok_start]).
    apply Forall_forall. intros x Hx r ->. rewrite Forall_forall in Hl'. apply Hl'. apply list_elem_of_lookup in Hx as [i Hi]. apply elem_of_live_rows. eauto.
  - unfold in_u, zlen in *. rewrite !length_app in Hlen. cbn [app]. lia.
Qed.

(** [resolve_node_key] step by step. *)
Lemma resolve_key_run alive state c b indexes indexes' k rows active :
  from_query schema pk (key_to_value k) = Ok k → slots_ok pk (rows, active) →
  in_u 64 (zlen (concat parts) + (zlen rows + zlen own_rows)) →
  overlay_key_position alive state view table pk k indexes = (Ok (active !! k, zlen rows), indexes') →
  resolve_node_key w charge_or_reclaim try_reserve alive state view catalog table (key_to_value k) ((c, b), indexes) =
    match key_pos pk k own_rows with
    | Some p => (Ok (Z.of_nat (length (concat parts) + (length rows + p))), ((c, b), indexes'))
    | None => if decide (last_effect pk (view_ops view table) k = Some None) then (Err missing_node_key, ((c, b), indexes')) else
        match active !! k with
        | Some p => (Ok (Z.of_nat (length (concat parts) + p)), ((c, b), indexes'))
        | None => sbind (in_pk_cache (resolve_checkpointed_node_key w charge_or_reclaim try_reserve (state_catalog view) catalog schema pk (key_to_value k)))
            (λ offset, slift (ok_or offset missing_node_key)) ((c, b), indexes')
        end
    end.
Proof.
  intros Hq Hact Hlen Epos. destruct (primary_key_named schema pk Hpk) as [n Hpk']. unfold in_u, zlen in Hlen.
  assert (in_u 64 (zlen (concat parts))) as Hl by (unfold in_u, zlen; lia).
  assert (own_position view table pk (key_to_value k) = key_pos pk k own_rows) as Hown.
  { unfold own_position, table_rows. destruct (own view) as [d|]; [|done]. cbn [mbind option_bind].
    destruct (nodes d !! table) as [l|]; [|done]. apply find_pos_key. }
  unfold resolve_node_key. unfold sbind at 1, slift at 1. rewrite Hnt. cbn [ok_or]. unfold sbind at 1, slift at 1. rewrite Hpk'.
  unfold sbind at 1, slift at 1. rewrite Hq. unfold sbind at 1, in_indexes at 1. rewrite Epos, Hown.
  destruct (key_pos pk k own_rows) as [p|] eqn:Eo.
  - apply key_pos_lt in Eo. rewrite try_u_in by (unfold in_u, zlen; lia). unfold sbind, slift. cbn [ok_or]. rewrite (row_count_ok Hl). unfold node_offset.
    rewrite try_u_in by (unfold in_u, zlen; lia). cbn [ok_or bind]. rewrite try_u_in by (unfold in_u, zlen; lia). cbn [ok_or]. unfold zlen. do 2 f_equal. lia.
  - assert ((if view_has_node_deletes view table then
        let! effects := visible_dml_effects view schema in Ok (match effects !! k with Some VDelete => true | _ => false end) else Ok false) =
      Ok (bool_decide (last_effect pk (view_ops view table) k = Some None))) as ->.
    { destruct (view_has_node_deletes view table) eqn:Ed.
      - rewrite (view_effects_ok view schema pk n Hpk' Hknown) by (by eapply valid_history_keyed). cbn [bind]. rewrite effects_lookup.
        by destruct (last_effect pk (view_ops view table) k) as [[u|]|].
      - rewrite bool_decide_false; [done|]. by apply view_deletes_effect. }
    unfold sbind at 1, slift at 1. destruct (decide (last_effect pk (view_ops view table) k = Some None)) as [He|He];
      [by rewrite bool_decide_true|rewrite bool_decide_false by done].
    destruct (active !! k) as [p|] eqn:Ea; [|done]. apply (Hact k p) in Ea as (x & Hx & _). apply lookup_lt_Some in Hx. cbn [fst] in Hx.
    unfold sbind, slift. rewrite (row_count_ok Hl). unfold node_offset.
    rewrite try_u_in by (unfold in_u, zlen; lia). cbn [ok_or bind]. rewrite try_u_in by (unfold in_u, zlen; lia). cbn [ok_or]. unfold zlen. do 2 f_equal. lia.
Qed.

Lemma resolve_node_key_ok alive state c b indexes k :
  from_query schema pk (key_to_value k) = Ok k →
  cache_ok w schema pk ids parts c → Forall (index_sound state view) indexes →
  ∃ visible c' b' indexes',
    node_rows_for_view view schema (concat parts) = Ok visible ∧ live_rows visible = run_ops pk (view_ops view table) (concat parts) ∧
    cache_ok w schema pk ids parts c' ∧ Forall (index_sound state view) indexes' ∧
    ((∃ p y, visible !! p = Some (Some y) ∧ row_key y = Some k ∧
        resolve_node_key w charge_or_reclaim try_reserve alive state view catalog table (key_to_value k) ((c, b), indexes) =
        (Ok (Z.of_nat p), ((c', b'), indexes'))) ∨
     (Forall (λ y, row_key y ≠ Some k) (live_rows visible) ∧
        resolve_node_key w charge_or_reclaim try_reserve alive state view catalog table (key_to_value k) ((c, b), indexes) =
        (Err missing_node_key, ((c', b'), indexes')))).
Proof.
  intros Hq Hok Hix. destruct (primary_key_named schema pk Hpk) as [n Hpk'].
  destruct overlay_slots_known as (rows & active & slots & Hrows & Hact & Hbuild & Eslots & Hlen & Heff & Hread & Hlive).
  pose proof (slot_of_shown active rows k Hact Heff) as Hslot. rewrite <- Eslots in Hslot. specialize (Hslot Hlive).
  rewrite Eslots in Hlen. unfold in_u, zlen in Hlen. rewrite !length_app, !length_fmap in Hlen.
  destruct (overlay_key_position alive state view table pk k indexes) as [r indexes'] eqn:Epos.
  destruct (overlay_position_sound _ _ _ _ _ _ _ _ _ _ Hpk' Hknown Hix Epos) as [Hix' Hr].
  rewrite Hbuild in Hr. cbn [bind key_positions index_row_count] in Hr. subst r.
  exists (masked pk (foldl (eff_op pk) ∅ (view_ops view table)) slots). rewrite Hlive.
  rewrite (resolve_key_run alive state c b indexes indexes' k rows active) by (done || (unfold in_u, zlen; lia)). unfold slot_of in Hslot.
  destruct (key_pos pk k own_rows) as [p|].
  { exists c, b, indexes'. destruct Hslot as (y & Hy & Hk). split_and!; try done. left. eauto. }
  destruct (decide (last_effect pk (view_ops view table) k = Some None)).
  { exists c, b, indexes'. split_and!; try done. by right. }
  destruct (active !! k) as [p|].
  { exists c, b, indexes'. destruct Hslot as (y & Hy & Hk). split_and!; try done. left. eauto. }
  destruct (resolve_checkpointed_ok c b k) as (c' & b' & Hc & Hok'); [unfold in_u, zlen; lia|done|]. exists c', b', indexes'.
  unfold sbind, in_pk_cache. rewrite Hc. destruct (key_pos pk k (concat parts)) as [p|]; split_and!; try done.
  - destruct Hslot as (y & Hy & Hk). left. eauto.
  - by right.
Qed.
End offsets.

(** C21: the offset a key resolves to is the slot it is shown in.  For a table at
    rest, a commit chain and an own delta that update and delete existing rows,
    any reachable primary-key cache and any reachable contents of the
    process-wide cache of overlay indexes (with entries of other states and
    evictions), [resolve_node_key] never fails otherwise than with a missing
    key: it returns an offset at which the snapshot reader shows a row of that
    key, and reports the key missing exactly when the reader shows none. *)
Theorem key_offset_names_slot `{GroupStore W} {B : Type} (w : W) (charge_or_reclaim : Z → B → bool * B) (try_reserve : B → bool * B)
    (size_of_group size_of_vec : Z) (view : ReadView) (catalog : Catalog) (schema : NodeTableSchema) (pk : nat) (parts : list (list row))
    (alive : Z → bool) (state : Z) (b0 : B) (s : TablePkCache * B) (indexes : list OverlayKeyIndex) (k : PkKey) :
  primary_key_column schema = Ok pk → Forall (λ t, exact_type t = true) (schema_types schema) →
  from_query schema pk (key_to_value k) = Ok k →
  node_table catalog (node_name schema) = Some schema → table_known view schema →
  (node_table (state_catalog view) (node_name schema) = None → parts = []) →
  stored_groups catalog (node_name schema) = stored_groups (state_catalog view) (node_name schema) →
  table_in_store w (state_catalog view) schema pk parts →
  (∀ slots, physical_slots view schema (concat parts) = Ok slots → in_u 64 (zlen slots)) →
  valid_history pk (concat parts) (view_ops view (node_name schema)) →
  NoDup ((λ r, optional_row_pk r pk) <$> match own view with Some d => table_rows (nodes d) (node_name schema) | None => [] end) →
  rtc (cache_step w schema charge_or_reclaim try_reserve size_of_group size_of_vec (stored_groups (state_catalog view) (node_name schema)))
    (default_pk_cache, b0) s →
  rtc (index_step state view) [] indexes →
  ∃ visible, node_rows_for_view view schema (concat parts) = Ok visible ∧
    match (resolve_node_key w charge_or_reclaim try_reserve alive state view catalog (node_name schema) (key_to_value k) (s, indexes)).1 with
    | Ok offset => 0 ≤ offset ∧ ∃ r, visible !! Z.to_nat offset = Some (Some r) ∧ optional_row_pk r pk = Some k
    | Err e => e = missing_node_key ∧ Forall (λ r, optional_row_pk r pk ≠ Some k) (live_rows visible)
    | Panic => False
    end.
Proof.
  intros Hpk Hexact Hq Hnt Hknown Hnone Hcat Hin Hu Hv Hnd Hreach Hix. pose proof Hin as (_ & Hst & _ & Hkb). pose proof Hkb as [_ Hkeyed].
  destruct (overlay_slots_known w view schema pk parts) as (rows & _ & slots & _ & _ & _ & Es & Hlen & _); [done..|].
  assert (in_u 64 (zlen (concat parts))) as Hl.
  { subst slots. unfold in_u, zlen in *. rewrite !length_app, length_fmap in Hlen. lia. }
  pose proof (reachable_cache_ok w schema pk charge_or_reclaim try_reserve size_of_group size_of_vec Hpk Hexact _ _ Hst Hl Hkeyed _ _ Hreach) as Hok.
  destruct s as [c b]. cbn [fst] in Hok.
  destruct (resolve_node_key_ok w charge_or_reclaim try_reserve view catalog schema pk parts Hpk Hexact Hnt Hknown Hnone Hcat Hin Hv Hnd Hu
    alive state c b indexes k Hq Hok (reachable_indexes_sound _ _ _ Hix)) as (visible & c' & b' & ix' & Hread & _ & _ & _ & Hcase).
  exists visible. split; [done|]. destruct Hcase as [(p & y & Hp & Hy & ->)|[Hall ->]]; cbn [fst]; [|done].
  split; [lia|]. rewrite Nat2Z.id. eauto.
Qed.

(** In [ex_lookup_view] key 2 stands in the slot of its second insert. *)
Lemma key_offset_names_slot_witness :
  ((resolve_node_key ex_store ex_charge ex_reserve (λ _, true) 7 ex_lookup_view ex_catalog ex_table (Int64 2) ((default_pk_cache, 0), [])).1 = Ok 3 ∧
   (resolve_node_key ex_store ex_charge ex_reserve (λ _, true) 7 ex_lookup_view ex_catalog ex_table (Int64 3) ((default_pk_cache, 0), [])).1 = Err missing_node_key) ∧
  ∃ visible, node_rows_for_view ex_lookup_view ex_schema (concat [ex_base]) = Ok visible ∧
    match (resolve_node_key ex_store ex_charge ex_reserve (λ _, true) 7 ex_lookup_view ex_catalog (node_name ex_schema) (key_to_value (PkInt64 2)) ((default_pk_cache, 0), [])).1 with
    | Ok offset => 0 ≤ offset ∧ ∃ r, visible !! Z.to_nat offset = Some (Some r) ∧ optional_row_pk r 0 = Some (PkInt64 2)
    | Err e => e = missing_node_key ∧ Forall (λ r, optional_row_pk r 0 ≠ Some (PkInt64 2)) (live_rows visible)
    | Panic => False
    end.
Proof.
  split; [split; vm_compute; reflexivity|].
  apply (key_offset_names_slot ex_store ex_charge ex_reserve 100 24 ex_lookup_view ex_catalog ex_schema 0 [ex_base] (λ _, true) 7 0).
  - vm_compute. reflexivity.
  - repeat constructor.
  - vm_compute. reflexivity.
  - vm_compute. reflexivity.
  - left. vm_compute. reflexivity.
  - intros E. vm_compute in E. discriminate E.
  - reflexivity.
  - exact ex_in_store.
  - intros slots E. vm_compute in E. injection E as <-. vm_compute. split; congruence.
  - apply (bool_decide_unpack _). vm_compute. exact I.
  - apply (bool_decide_unpack _). vm_compute. exact I.
  - apply rtc_refl.
  - apply rtc_refl.
Defined.
