(* ===== verification/Txn.v ===== *)
(** A write transaction: [devondb/src/txn.rs] and the statement half of
    [devondb/src/database/commit.rs].

    Statements are validated against the transaction's snapshot plus its own
    writes and buffered in a write set that keeps at most one pending row per
    key: an update of an own insert replaces it, a delete of it removes it, a
    delete drops a pending update.  [Staging.v] and [Facade.v] prove that
    the write set shows exactly the rows the statements produce one after the
    other.

    What a transaction calls outside this component is the class [TxnEnv]: the
    memory budget with its relief valves, and the key resolution of
    [Lookup.v]. *)

From stdpp Require Import gmap sorting.
From S2P Require Import Prelude Bytes Types Schema TxnLog Catalog Overlay View NodeTable Checkpoint Lookup.


(** ** The write set *)

Record PendingEdge := mkPendingEdge { from_key : Value; to_key : Value; pending_values : list Value }.
Record PendingDetach := mkDetach { detach_table : table_name; detach_key : Value }.

Record WriteSet := mkWrites {
  w_nodes : gmap table_name (list row);
  w_updates : gmap table_name (list row);
  w_deletes : gmap table_name (list Value);
  w_edges : gmap table_name (list PendingEdge);
  detaches : list PendingDetach;
  w_tombstones : gmap table_name RelEndpointTombstones;
  w_ddl : list DdlOp;
  inserted_pks : gmap table_name (list Value);
  (** [hnsw_create.is_some()] *)
  hnsw_create : bool;
  w_charged : Z;
}.

Definition default_writes : WriteSet := mkWrites ∅ ∅ ∅ ∅ [] ∅ [] ∅ false 0.

Definition with_nodes (w : WriteSet) x y := mkWrites x (w_updates w) (w_deletes w) (w_edges w) (detaches w) (w_tombstones w) (w_ddl w) y (hnsw_create w) (w_charged w).
Definition with_updates (w : WriteSet) x := mkWrites (w_nodes w) x (w_deletes w) (w_edges w) (detaches w) (w_tombstones w) (w_ddl w) (inserted_pks w) (hnsw_create w) (w_charged w).
Definition with_deletes (w : WriteSet) x := mkWrites (w_nodes w) (w_updates w) x (w_edges w) (detaches w) (w_tombstones w) (w_ddl w) (inserted_pks w) (hnsw_create w) (w_charged w).
Definition with_edges (w : WriteSet) x := mkWrites (w_nodes w) (w_updates w) (w_deletes w) x (detaches w) (w_tombstones w) (w_ddl w) (inserted_pks w) (hnsw_create w) (w_charged w).
Definition with_detaches (w : WriteSet) x y := mkWrites (w_nodes w) (w_updates w) (w_deletes w) (w_edges w) x y (w_ddl w) (inserted_pks w) (hnsw_create w) (w_charged w).
Definition with_charged (w : WriteSet) x := mkWrites (w_nodes w) (w_updates w) (w_deletes w) (w_edges w) (detaches w) (w_tombstones w) (w_ddl w) (inserted_pks w) (hnsw_create w) x.

Definition with_hnsw (w : WriteSet) := mkWrites (w_nodes w) (w_updates w) (w_deletes w) (w_edges w) (detaches w) (w_tombstones w) (w_ddl w) (inserted_pks w) true (w_charged w).

Definition writes_is_empty (w : WriteSet) : bool :=
  bool_decide (w_nodes w = ∅) && bool_decide (w_updates w = ∅) && bool_decide (w_deletes w = ∅) &&
  match map_to_list (w_edges w) with [] => true | _ => false end &&
  match detaches w with [] => true | _ => false end && bool_decide (w_tombstones w = ∅) &&
  match w_ddl w with [] => true | _ => false end && negb (hnsw_create w).

(** ** Byte estimates *)

Definition MAP_ENTRY_OVERHEAD_BYTES : Z := 64.
Definition ROW_OVERHEAD_BYTES : Z := 24.
Definition REL_ENDPOINT_TOMBSTONES_OVERHEAD_BYTES : Z := 48.
Definition REL_TOMBSTONE_OFFSET_OVERHEAD_BYTES : Z := 40.

Definition estimate_overflow : DevonError := BudgetExceeded "write set byte estimate exceeds usize::MAX".

Definition checked_accumulate (total bytes : Z) : outcome Z := ok_or (try_u 64 (total + bytes)) estimate_overflow.

Definition estimate_map_entry (total : Z) (table : table_name) : outcome Z :=
  let! total := checked_accumulate total MAP_ENTRY_OVERHEAD_BYTES in checked_accumulate total (zlen table).

Definition estimate_values (total : Z) (values : list Value) : outcome Z :=
  for_each values total (λ total v, checked_accumulate total (approx_bytes v)).

Definition contains_key {A} (m : gmap table_name A) (table : table_name) : bool := bool_decide (is_Some (m !! table)).

Definition node_dml_bytes (map : gmap table_name (list row)) (table : table_name) (r : row) : outcome Z :=
  let! total := if contains_key map table then Ok 0 else estimate_map_entry 0 table in
  let! total := checked_accumulate total ROW_OVERHEAD_BYTES in
  estimate_values total r.

Definition node_insert_bytes (w : WriteSet) (table : table_name) (rows : list row) (keys : list Value) : outcome Z :=
  let! total := if contains_key (w_nodes w) table then Ok 0 else estimate_map_entry 0 table in
  let! total := if contains_key (inserted_pks w) table then Ok total else estimate_map_entry total table in
  let! total := for_each rows total (λ total r,
    let! total := checked_accumulate total ROW_OVERHEAD_BYTES in estimate_values total r) in
  estimate_values total keys.

Definition OVERLAY_EDGE_OVERHEAD_BYTES : Z := 40.

Definition rel_insert_bytes (w : WriteSet) (table : table_name) (edges : list PendingEdge) (from_table to_table : table_name)
    (from_claims_staged to_claims_staged : bool) : outcome Z :=
  let! total := if contains_key (w_edges w) table then Ok 0 else estimate_map_entry 0 table in
  let! total := if from_claims_staged then Ok total else estimate_map_entry total from_table in
  let! total := if bool_decide (from_table = to_table) || to_claims_staged then Ok total else estimate_map_entry total to_table in
  for_each edges total (λ total e,
    let! total := checked_accumulate total OVERLAY_EDGE_OVERHEAD_BYTES in
    let! total := checked_accumulate total (approx_bytes (from_key e)) in
    let! total := checked_accumulate total (approx_bytes (to_key e)) in
    let! total := estimate_values total (pending_values e) in
    let! total := checked_accumulate total (approx_bytes (from_key e)) in
    checked_accumulate total (approx_bytes (to_key e))).

Definition detach_bytes (w : WriteSet) (intent : PendingDetach) (tombstones : list (table_name * bool * Z)) : outcome Z :=
  let! total := checked_accumulate ROW_OVERHEAD_BYTES (zlen (detach_table intent)) in
  let! total := checked_accumulate total (approx_bytes (detach_key intent)) in
  let! total := if existsb (λ d, bool_decide (detach_table d = detach_table intent)) (detaches w) then Ok total
    else estimate_map_entry total (detach_table intent) in
  let! total := if existsb (λ d, bool_decide (detach_table d = detach_table intent) && bool_decide (detach_key d = detach_key intent)) (detaches w)
    then Ok total else checked_accumulate total (approx_bytes (detach_key intent)) in
  for_each (enumerate tombstones) total (λ total '(i, (rel, from, offset)),
    let! total := if contains_key (w_tombstones w) rel || existsb (λ t, bool_decide (t.1.1 = rel)) (take i tombstones) then Ok total
      else let! total := estimate_map_entry total rel in checked_accumulate total REL_ENDPOINT_TOMBSTONES_OVERHEAD_BYTES in
    let already_staged := match w_tombstones w !! rel with
      | Some roles => bool_decide (offset ∈ (if (from : bool) then from_offsets roles else to_offsets roles))
      | None => false
      end in
    let duplicated_here := existsb (λ t, bool_decide (t = (rel, from, offset))) (take i tombstones) in
    if already_staged || duplicated_here then Ok total else checked_accumulate total REL_TOMBSTONE_OFFSET_OVERHEAD_BYTES).

(** ** The environment *)

Class TxnEnv (E : Type) := {
  (** [budget.try_charge], [budget.release], [pager.shed_cache] *)
  try_charge : Z → E → bool * E;
  release_charge : Z → E → E;
  shed_cache : Z → E → E;
  (** [shed_pk_caches] and [shed_fulltext_caches] *)
  shed_derived : E → E;
  checkpoint_shared : E → outcome () * E;
  resolve_row : ReadView → Catalog → cat_name → Value → E → outcome row * E;
  resolve_key : ReadView → Catalog → cat_name → Value → E → outcome Z * E;
  (** [plan.to_json], [Plan::from_json] and [validate_plan]: the canonical form of
      a valid plan *)
  canonical_plan : JsonValue → Catalog → outcome JsonValue;
  (** [prepare_index_build]: whether the index can be built *)
  prepare_index_build : Catalog → list Z → cat_name → list Z → Z → E → outcome () * E;
}.

Record Transaction := mkTxn {
  (** the pinned state: its catalog and chain *)
  snapshot : Catalog;
  snapshot_chain : option CommitLink;
  catalog : Catalog;
  writes : WriteSet;
  poisoned : bool;
}.

(** [Transaction::new] of a published state. *)
Definition new_transaction (state : Catalog) (chain : option CommitLink) : Transaction := mkTxn state chain state default_writes false.

Definition with_writes (t : Transaction) (w : WriteSet) : Transaction :=
  mkTxn (snapshot t) (snapshot_chain t) (catalog t) w (poisoned t).

(** [transaction_read_view] without resolved edges. *)
Definition own_delta (w : WriteSet) : CommitDelta :=
  mkDelta (w_nodes w) (w_updates w) (w_deletes w) ∅ (w_tombstones w) (w_ddl w).
Definition read_view (t : Transaction) : ReadView := mkView (snapshot t) (snapshot_chain t) (Some (own_delta (writes t))).

(** [transaction.writes.nodes.get_mut(table)] and the like. *)
Definition position_of (rows : list row) (key_index : nat) (key : Value) : option nat :=
  fst <$> list_find (λ r, r !! key_index = Some key) rows.

Definition own_insert_position (w : WriteSet) (table : table_name) (key_index : nat) (key : Value) : option nat :=
  w_nodes w !! table ≫= λ rows, position_of rows key_index key.

Definition replace_own_insert (w : WriteSet) (table : table_name) (key_index : nat) (key : Value) (replacement : row) : bool * WriteSet :=
  match w_nodes w !! table with
  | None => (false, w)
  | Some rows =>
      match position_of rows key_index key with
      | None => (false, w)
      | Some p => (true, with_nodes w (<[table := <[p := replacement]> rows]> (w_nodes w)) (inserted_pks w))
      end
  end.

(** [rows.remove(position)], and the entry with the last row. *)
Definition put_or_remove {A} (m : gmap table_name (list A)) (table : table_name) (l : list A) : gmap table_name (list A) :=
  match l with [] => base.delete table m | _ => <[table := l]> m end.

(** The rows change before the keys are looked up; [inr] carries the write set
    an error leaves. *)
Definition remove_own_insert (w : WriteSet) (table : table_name) (key_index : nat) (key : Value) : outcome bool * WriteSet :=
  match w_nodes w !! table with
  | None => (Ok false, w)
  | Some rows =>
      match position_of rows key_index key with
      | None => (Ok false, w)
      | Some p =>
          let w := with_nodes w (put_or_remove (w_nodes w) table (base.delete p rows)) (inserted_pks w) in
          match inserted_pks w !! table with
          | None => (Err (Corrupt "own inserted row has no primary-key write-set entry"), w)
          | Some keys =>
              match fst <$> list_find (λ c, c = key) keys with
              | None => (Err (Corrupt "own inserted row primary key disappeared from write set"), w)
              | Some q => (Ok true, with_nodes w (w_nodes w) (put_or_remove (inserted_pks w) table (base.delete q keys)))
              end
          end
      end
  end.

Definition upsert_node_update (w : WriteSet) (table : table_name) (key_index : nat) (key : Value) (replacement : row) : WriteSet :=
  let rows := default [] (w_updates w !! table) in
  with_updates w (<[table := match position_of rows key_index key with
    | Some p => <[p := replacement]> rows
    | None => rows ++ [replacement]
    end]> (w_updates w)).

Definition remove_node_update (w : WriteSet) (table : table_name) (key_index : nat) (key : Value) : WriteSet :=
  match w_updates w !! table with
  | None => w
  | Some rows => with_updates w (put_or_remove (w_updates w) table (filter (λ r, r !! key_index ≠ Some key) rows))
  end.

(** [if !deletes.contains(&key) { deletes.push(key) }]. *)
Definition push_unique (keys : list Value) (key : Value) : list Value :=
  if bool_decide (key ∈ keys) then keys else keys ++ [key].

Definition push_delete (w : WriteSet) (table : table_name) (key : Value) : WriteSet :=
  with_deletes w (<[table := push_unique (default [] (w_deletes w !! table)) key]> (w_deletes w)).

Definition detach_tombstone_claims (catalog : Catalog) (table : table_name) (offset : Z) : list (table_name * bool * Z) :=
  rel_tables catalog ≫= λ rel,
    (if bool_decide (fold (rel_from rel) = fold table) then [(rel_name rel, true, offset)] else []) ++
    (if bool_decide (fold (rel_to rel) = fold table) then [(rel_name rel, false, offset)] else []).

(** [edges.retain(..)]: entries of known tables keep the edges not incident to
    the node, and go away with their last edge. *)
Definition keep_edge (schema : RelTableSchema) (table : table_name) (key : Value) (e : PendingEdge) : bool :=
  negb (bool_decide (fold (rel_from schema) = fold table) && bool_decide (from_key e = key) ||
        bool_decide (fold (rel_to schema) = fold table) && bool_decide (to_key e = key)).

Definition fold_pending_incident_edges (catalog : Catalog) (w : WriteSet) (table : table_name) (key : Value) : WriteSet :=
  with_edges w (map_imap (λ rel edges,
    match rel_table catalog rel with
    | None => Some edges
    | Some schema => match filter (λ e, keep_edge schema table key e = true) edges with [] => None | edges => Some edges end
    end) (w_edges w)).

Definition add_tombstones (m : gmap table_name RelEndpointTombstones) (claims : list (table_name * bool * Z)) : gmap table_name RelEndpointTombstones :=
  foldl (λ m '(rel, from, offset),
    let roles := default no_tombstones (m !! rel) in
    <[rel := if (from : bool) then mkTombstones ({[offset]} ∪ from_offsets roles) (to_offsets roles)
             else mkTombstones (from_offsets roles) ({[offset]} ∪ to_offsets roles)]> m) m claims.

(** ** Statements *)

Record SetItem := mkSet { set_column : list Z; set_value : Value }.

(** [RelRow] has the fields of [PendingEdge]; the class of [CreateClass] carries
    the node clauses, its table included. *)
Inductive Statement :=
| CreateNodeTable (n : list Z) (columns : list Column)
| CreateRelTable (n from to : list Z) (columns : list Column)
| InsertNode (table : cat_name) (rows : list row)
| InsertRel (table : cat_name) (rows : list PendingEdge)
| UpsertNode (table : cat_name) (rows : list row)
| UpdateNode (table : cat_name) (set : list SetItem) (key_column : list Z) (key : Value)
| DeleteNode (table : cat_name) (key_column : list Z) (key : Value)
| DetachDeleteNode (table : cat_name) (key_column : list Z) (key : Value)
| CopyNode (table : cat_name) (path : list Z) (sort_by : option (list Z))
| CreateInterface (n : cat_name) (columns : list InterfaceColumn)
| CreateClass (class : NodeClassEntry) (verb inverse : option (list Z))
| CreateHnswIndex (n : list Z) (table : cat_name) (column : list Z) (metric : Z)
| PinPlan (n : cat_name) (text : list Z) (plan : JsonValue)
| UnpinPlan (n : cat_name).

Section env.
Context {E : Type} `{Env : !TxnEnv E}.

Notation TM := (SM (Transaction * E)).

Definition get_txn : TM Transaction := λ s, (Ok s.1, s).
Definition put_writes (w : WriteSet) : TM () := λ s, (Ok (), (with_writes s.1 w, s.2)).
Definition in_env {A} (m : E → outcome A * E) : TM A := λ s, let '(r, e) := m s.2 in (r, (s.1, e)).

Definition try_charge_write_set (requested : Z) : TM bool := λ s,
  let '(granted, e) := try_charge requested s.2 in
  if (granted : bool) then
    match try_u 64 (w_charged (writes s.1) + requested) with
    | None => (Err (BudgetExceeded "write set charge exceeds usize::MAX"), (s.1, release_charge requested e))
    | Some total => (Ok true, (with_writes s.1 (with_charged (writes s.1) total), e))
    end
  else (Ok false, (s.1, e)).

Definition charge_write_set (requested : Z) : TM () :=
  let+ ok := try_charge_write_set requested in
  if (ok : bool) then sret () else
  let+ _ := in_env (λ e, (Ok (), shed_cache requested e)) in
  let+ ok := try_charge_write_set requested in
  if (ok : bool) then sret () else
  let+ _ := in_env (λ e, (Ok (), shed_derived e)) in
  let+ ok := try_charge_write_set requested in
  if (ok : bool) then sret () else
  let+ _ := in_env checkpoint_shared in
  let+ _ := in_env (λ e, (Ok (), shed_cache requested e)) in
  let+ ok := try_charge_write_set requested in
  if (ok : bool) then sret () else
  slift (Err (BudgetExceeded "write set requested {requested} bytes with {} bytes charged and limit {}")).

Definition transaction_key_exists (table : cat_name) (key : Value) : TM bool :=
  let+ t := get_txn in
  if bool_decide (key ∈ table_rows (inserted_pks (writes t)) table) then sret true else
  λ s, match resolve_key (read_view t) (catalog t) table key s.2 with
  | (Ok _, e) => (Ok true, (s.1, e))
  | (Err (NotFound _), e) => (Ok false, (s.1, e))
  | (Err err, e) => (Err err, (s.1, e))
  | (Panic, e) => (Panic, (s.1, e))
  end.

Definition validate_node_insert_row (schema : NodeTableSchema) (r : row) (key_index : nat) : outcome Value :=
  let! _ := recover_row schema [] r in
  let! key := ok_or (r !! key_index) (Corrupt "validated node row lost its primary-key value") in
  if bool_decide (key = Null) then Err (InvalidArgument "primary key column `{key_column}` in node table `{table}` cannot be null")
  else Ok key.

(** [entry(table).or_default().extend(..)]. *)
Definition extend_entry {A} (m : gmap table_name (list A)) (table : table_name) (xs : list A) : gmap table_name (list A) :=
  <[table := default [] (m !! table) ++ xs]> m.

Definition stage_node_inserts (table : table_name) (rows : list row) (keys : list Value) : TM () :=
  let+ t := get_txn in
  let+ requested := slift (node_insert_bytes (writes t) table rows keys) in
  let+ _ := charge_write_set requested in
  let+ t := get_txn in
  let w := writes t in
  put_writes (with_nodes w (extend_entry (w_nodes w) table rows) (extend_entry (inserted_pks w) table keys)).

Definition resolve_dml_table (table : cat_name) : TM NodeTableSchema :=
  let+ t := get_txn in slift (ok_or (node_table (catalog t) table) (NotFound "node table `{table}`{}")).

Definition duplicate_key : DevonError := InvalidArgument "duplicate primary key `{key}` in node table `{table}`".

Definition execute_node_insert (table : cat_name) (rows : list row) : TM () :=
  let+ schema := resolve_dml_table table in
  let+ (key_index, _) := slift (primary_key_of schema) in
  let+ keys := sfor rows [] (λ staged r,
    let+ key := slift (validate_node_insert_row schema r key_index) in
    if bool_decide (key ∈ staged) then slift (Err duplicate_key) else
    let+ found := transaction_key_exists (node_name schema) key in
    if (found : bool) then slift (Err duplicate_key) else sret (staged ++ [key])) in
  stage_node_inserts (node_name schema) rows keys.

Definition resolve_dml_column (schema : NodeTableSchema) (column : list Z) : outcome nat :=
  ok_or (column_index (node_columns schema) column) (NotFound "column `{column}` in node table `{}`{}").

Definition validate_dml_key_column (schema : NodeTableSchema) (key_column : list Z) : outcome nat :=
  let! supplied := resolve_dml_column schema key_column in
  let! (key_index, _) := primary_key_of schema in
  if (supplied =? key_index)%nat then Ok key_index
  else Err (InvalidArgument "update/delete where column `{key_column}` is not primary key `{canonical_key}` in node table `{}`; predicate-driven bulk DML is not supported").

Definition apply_set (schema : NodeTableSchema) (key_index : nat) (r : row) (items : list SetItem) : outcome row :=
  for_each items r (λ r item,
    let! c := resolve_dml_column schema (set_column item) in
    if (c =? key_index)%nat
    then Err (InvalidArgument "update of primary key column `{}` in node table `{}` is not supported; use delete plus insert")
    else store_at r c (set_value item)).

Definition execute_node_update (table : cat_name) (set : list SetItem) (key_column : list Z) (key : Value) : TM () :=
  let+ schema := resolve_dml_table table in
  let+ key_index := slift (validate_dml_key_column schema key_column) in
  let+ t := get_txn in
  let+ old := in_env (resolve_row (read_view t) (catalog t) (node_name schema) key) in
  let+ replacement := slift (apply_set schema key_index old set) in
  let+ _ := slift (recover_row schema [] replacement) in
  let+ requested := slift (node_dml_bytes (w_updates (writes t)) (node_name schema) replacement) in
  let+ _ := charge_write_set requested in
  let+ t := get_txn in
  let '(replaced, w) := replace_own_insert (writes t) (node_name schema) key_index key replacement in
  if (replaced : bool) then put_writes w
  else put_writes (upsert_node_update (writes t) (node_name schema) key_index key replacement).

Definition reject_referenced_delete (catalog : Catalog) (schema : NodeTableSchema) : outcome () :=
  if existsb (λ rel, bool_decide (fold (rel_from rel) = fold (node_name schema)) ||
                     bool_decide (fold (rel_to rel) = fold (node_name schema))) (rel_tables catalog)
  then Err (InvalidArgument "delete refused for node table `{}` because a relationship table names it as an endpoint; detach-delete is not supported")
  else Ok ().

Definition run_remove_own_insert (table : table_name) (key_index : nat) (key : Value) : TM bool := λ s,
  let '(r, w) := remove_own_insert (writes s.1) table key_index key in (r, (with_writes s.1 w, s.2)).

Definition execute_node_delete (table : cat_name) (key_column : list Z) (key : Value) : TM () :=
  let+ schema := resolve_dml_table table in
  let+ t := get_txn in
  let+ _ := slift (reject_referenced_delete (catalog t) schema) in
  let+ key_index := slift (validate_dml_key_column schema key_column) in
  let+ old := in_env (resolve_row (read_view t) (catalog t) (node_name schema) key) in
  let+ canonical := slift (ok_or (old !! key_index) (Corrupt "resolved DML row lost its primary-key value")) in
  let+ removed := run_remove_own_insert (node_name schema) key_index canonical in
  if (removed : bool) then sret () else
  let+ requested := slift (node_dml_bytes ∅ (node_name schema) [canonical]) in
  let+ _ := charge_write_set requested in
  let+ t := get_txn in
  put_writes (push_delete (remove_node_update (writes t) (node_name schema) key_index canonical) (node_name schema) canonical).

Definition execute_detach_delete (table : cat_name) (key_column : list Z) (key : Value) : TM () :=
  let+ schema := resolve_dml_table table in
  let+ key_index := slift (validate_dml_key_column schema key_column) in
  let+ t := get_txn in
  let+ old := in_env (resolve_row (read_view t) (catalog t) (node_name schema) key) in
  let+ canonical := slift (ok_or (old !! key_index) (Corrupt "resolved detach row lost its primary-key value")) in
  let+ offset := in_env (resolve_key (read_view t) (catalog t) (node_name schema) canonical) in
  let tombstones := detach_tombstone_claims (catalog t) (node_name schema) offset in
  if bool_decide (is_Some (own_insert_position (writes t) (node_name schema) key_index canonical)) then
    let+ _ := run_remove_own_insert (node_name schema) key_index canonical in
    let+ t := get_txn in
    put_writes (fold_pending_incident_edges (catalog t) (writes t) (node_name schema) canonical)
  else
  let+ delete_bytes := slift (node_dml_bytes ∅ (node_name schema) [canonical]) in
  let intent := mkDetach (node_name schema) canonical in
  let+ more := slift (detach_bytes (writes t) intent tombstones) in
  let+ requested := slift (ok_or (try_u 64 (delete_bytes + more)) (BudgetExceeded "detach write-set byte estimate exceeds usize::MAX")) in
  let+ _ := charge_write_set requested in
  let+ t := get_txn in
  let w := fold_pending_incident_edges (catalog t) (writes t) (node_name schema) canonical in
  let w := push_delete (remove_node_update w (node_name schema) key_index canonical) (node_name schema) canonical in
  put_writes (with_detaches w (detaches w ++ [intent]) (add_tombstones (w_tombstones w) tombstones)).

(** ** Upserts *)

Inductive UpsertAction := UInsert | UUpdate.

Definition upsert_key (v : Value) : outcome PkKey :=
  match v with
  | Int64 value => Ok (PkInt64 value)
  | String value => Ok (PkString value)
  | _ => Err (Corrupt "validated upsert primary key has unsupported value {other}")
  end.

Definition resolve_upsert_action (view : ReadView) (catalog : Catalog) (table : cat_name) (key : Value) (present : gset PkKey) :
    TM (UpsertAction * gset PkKey) :=
  let+ normalized := slift (upsert_key key) in
  if bool_decide (normalized ∈ present) then sret (UUpdate, present) else
  λ s, match resolve_key view catalog table key s.2 with
  | (Ok _, e) => (Ok (UUpdate, {[normalized]} ∪ present), (s.1, e))
  | (Err (NotFound _), e) => (Ok (UInsert, {[normalized]} ∪ present), (s.1, e))
  | (Err err, e) => (Err err, (s.1, e))
  | (Panic, e) => (Panic, (s.1, e))
  end.

Definition resolve_upsert_actions (table : cat_name) (keys : list Value) : TM (list UpsertAction) :=
  let+ t := get_txn in
  let+ own := slift (collect upsert_key (table_rows (inserted_pks (writes t)) table)) in
  let+ (actions, _) := sfor keys ([], list_to_set own) (λ '(actions, present) key,
    let+ (action, present) := resolve_upsert_action (read_view t) (catalog t) table key present in
    sret (actions ++ [action], present)) in
  sret actions.

Definition full_row_update_set (schema : NodeTableSchema) (r : row) (key_index : nat) : outcome (list SetItem) :=
  collect (λ '(i, column),
    let! v := ok_or (r !! i) (Corrupt "validated upsert row lost a non-key value") in Ok (mkSet (name column) v))
    (filter (λ ic, ic.1 ≠ key_index) (enumerate (node_columns schema))).

Definition execute_node_upsert (table : cat_name) (rows : list row) : TM () :=
  let+ schema := resolve_dml_table table in
  let+ (key_index, key_column) := slift (primary_key_of schema) in
  let+ keys := slift (collect (λ r, validate_node_insert_row schema r key_index) rows) in
  let+ actions := resolve_upsert_actions (node_name schema) keys in
  sfor (zip (zip rows keys) actions) () (λ _ '(r, key, action),
    match action with
    | UInsert => stage_node_inserts (node_name schema) [r] [key]
    | UUpdate =>
        let+ set := slift (full_row_update_set schema r key_index) in
        execute_node_update (node_name schema) set key_column key
    end).

(** ** Tables and dispatch *)

Definition reject_interface_collision_for_node (c : Catalog) (n : cat_name) : outcome () :=
  match interface c n with
  | Some _ => Err (InvalidArgument "node table `{name}` conflicts with interface `{}` under folded name resolution")
  | None => Ok ()
  end.

Definition DDL_OP_OVERHEAD_BYTES : Z := 96.
Definition SCHEMA_COLUMN_OVERHEAD_BYTES : Z := 48.

Definition estimate_columns (total : Z) (columns : list Column) : outcome Z :=
  for_each columns total (λ total c,
    let! total := checked_accumulate total SCHEMA_COLUMN_OVERHEAD_BYTES in checked_accumulate total (zlen (name c))).

Definition ddl_bytes (d : DdlOp) : outcome Z :=
  match d with
  | TxnLog.CreateNodeTable schema =>
      let! total := checked_accumulate DDL_OP_OVERHEAD_BYTES (zlen (node_name schema)) in
      estimate_columns total (node_columns schema)
  | TxnLog.CreateRelTable schema =>
      let! total := checked_accumulate DDL_OP_OVERHEAD_BYTES (zlen (rel_name schema)) in
      let! total := checked_accumulate total (zlen (rel_from schema)) in
      let! total := checked_accumulate total (zlen (rel_to schema)) in
      estimate_columns total (rel_columns schema)
  end.

Definition stage_ddl (c : Catalog) (d : DdlOp) : TM () :=
  let+ requested := slift (ddl_bytes d) in
  let+ _ := charge_write_set requested in
  λ s, let t := s.1 in let w := writes t in
    (Ok (), (mkTxn (snapshot t) (snapshot_chain t) c
      (mkWrites (w_nodes w) (w_updates w) (w_deletes w) (w_edges w) (detaches w) (w_tombstones w) (w_ddl w ++ [d]) (inserted_pks w) (hnsw_create w) (w_charged w))
      (poisoned t), s.2)).

Definition ontology_pending (t : Transaction) : bool := negb (bool_decide (ontology (catalog t) = ontology (snapshot t))).
Definition pins_pending (t : Transaction) : bool := negb (bool_decide (pins (catalog t) = pins (snapshot t))).

(** ** Relationships *)

Definition validate_values (schema : RelTableSchema) (values : list Value) : outcome () :=
  if negb (length values =? length (rel_columns schema))%nat
  then Err (InvalidArgument "relationship table `{}` expects {} property columns but edge has {} values") else
  if forallb (λ cv, matches_type cv.2 (ty cv.1)) (zip (rel_columns schema) values) then Ok ()
  else Err (InvalidArgument "column `{}` in relationship table `{}` expects {} but received {value}").

Definition reject_own_deleted_endpoint (t : Transaction) (table : cat_name) (key : Value) : outcome () :=
  let canonical := match node_table (catalog t) table with Some schema => node_name schema | None => table end in
  if bool_decide (key ∈ table_rows (inserted_pks (writes t)) canonical) then Ok () else
  if bool_decide (key ∈ table_rows (w_deletes (writes t)) canonical)
  then Err (NotFound "node table `{canonical}` primary key {key}") else Ok ().

(** The keys of the map in order, up to the first that decides. *)
Definition edge_endpoint_table_staged (c : Catalog) (w : WriteSet) (table : cat_name) : outcome bool :=
  for_each (fst <$> btree_iter (w_edges w)) false (λ found rel,
    if (found : bool) then Ok true else
    let! schema := ok_or (rel_table c rel) (Corrupt "relationship write set names unknown table `{rel}` while estimating conflict claims") in
    Ok (bool_decide (rel_from schema = table) || bool_decide (rel_to schema = table))).

Definition execute_rel_insert (table : cat_name) (rows : list PendingEdge) : TM () :=
  let+ t := get_txn in
  let+ schema := slift (ok_or (rel_table (catalog t) table) (NotFound "relationship table `{table}`{}")) in
  let+ staged := sfor rows [] (λ staged r,
    let+ _ := slift (validate_values schema (pending_values r)) in
    let+ _ := slift (reject_own_deleted_endpoint t (rel_from schema) (from_key r)) in
    let+ _ := slift (reject_own_deleted_endpoint t (rel_to schema) (to_key r)) in
    let+ _ := in_env (resolve_key (read_view t) (catalog t) (rel_from schema) (from_key r)) in
    let+ _ := in_env (resolve_key (read_view t) (catalog t) (rel_to schema) (to_key r)) in
    sret (staged ++ [r])) in
  let+ from_staged := slift (edge_endpoint_table_staged (catalog t) (writes t) (rel_from schema)) in
  let+ to_staged := slift (edge_endpoint_table_staged (catalog t) (writes t) (rel_to schema)) in
  let+ requested := slift (rel_insert_bytes (writes t) (rel_name schema) staged (rel_from schema) (rel_to schema) from_staged to_staged) in
  let+ _ := charge_write_set requested in
  let+ t := get_txn in
  put_writes (with_edges (writes t) (extend_entry (w_edges (writes t)) (rel_name schema) staged)).

(** ** Metadata *)

Definition ensure_ontology_only (t : Transaction) : outcome () :=
  if writes_is_empty (writes t) && negb (pins_pending t) then Ok ()
  else Err (InvalidArgument "ontology DDL may be combined only with other ontology DDL in a transaction").

Definition ensure_pins_only (t : Transaction) : outcome () :=
  if writes_is_empty (writes t) && negb (ontology_pending t) then Ok ()
  else Err (InvalidArgument "pin DDL may be combined only with other pin DDL in a transaction").

Definition reject_node_collision_for_interface (c : Catalog) (n : cat_name) : outcome () :=
  match node_table c n with
  | Some _ => Err (InvalidArgument "interface `{name}` conflicts with node table `{}` under folded name resolution")
  | None => Ok ()
  end.

Definition given {A} (o : option A) : bool := bool_decide (is_Some o).
Definition listed {A} (l : list A) : bool := match l with [] => false | _ => true end.

Definition reject_relationship_clauses (verb inverse : option (list Z)) : outcome () :=
  if given verb || given inverse then Err (InvalidArgument "node class for `{table}` does not admit relationship clause(s): {}") else Ok ().

Definition reject_node_clauses (class : NodeClassEntry) : outcome () :=
  if given (class_display class) || given (class_plural class) || given (class_label class) || listed (class_summary class) ||
     given (class_color class) || given (class_description class) || listed (class_implements class)
  then Err (InvalidArgument "relationship class for `{table}` does not admit node clause(s): {}") else Ok ().

Definition execute_create_class (c : Catalog) (class : NodeClassEntry) (verb inverse : option (list Z)) : outcome Catalog :=
  match node_table c (class_table class) with
  | Some _ =>
      let! _ := reject_relationship_clauses verb inverse in
      declare_node_class c class
  | None =>
      match rel_table c (class_table class) with
      | Some _ =>
          let! _ := reject_node_clauses class in
          declare_rel_class c (mkRelClass (class_table class) verb inverse)
      | None => Err (InvalidArgument "class target table `{table}` was not found{}")
      end
  end.

(** [PinEntry::from_plan_json] of the canonical plan. *)
Definition from_plan_json (n : cat_name) (text : list Z) (plan : JsonValue) (created_lsn : Z) : outcome PinEntry :=
  let entry := mkPin n text plan created_lsn in
  let! _ := map_err corrupt_to_invalid (validate_pin_entry entry) in Ok entry.

Definition put_catalog (c : Catalog) : TM () := λ s,
  (Ok (), (mkTxn (snapshot s.1) (snapshot_chain s.1) c (writes s.1) (poisoned s.1), s.2)).

Definition is_ontology_statement (s : Statement) : bool := match s with CreateInterface _ _ | CreateClass _ _ _ => true | _ => false end.
Definition is_pin_statement (s : Statement) : bool := match s with PinPlan _ _ _ | UnpinPlan _ => true | _ => false end.

Definition execute_transaction (s : Statement) : TM () :=
  let+ t := get_txn in
  if hnsw_create (writes t) then slift (Err (InvalidArgument "CREATE HNSW INDEX must be the only statement in its transaction")) else
  if ontology_pending t && negb (is_ontology_statement s)
  then slift (Err (InvalidArgument "ontology DDL may be combined only with other ontology DDL in a transaction")) else
  if pins_pending t && negb (is_pin_statement s)
  then slift (Err (InvalidArgument "pin DDL may be combined only with other pin DDL in a transaction")) else
  match s with
  | CreateNodeTable n columns =>
      let+ schema := slift (new_node n columns) in
      let+ _ := slift (reject_interface_collision_for_node (catalog t) (node_name schema)) in
      let+ c := slift (add_node_table (catalog t) schema) in
      stage_ddl c (TxnLog.CreateNodeTable schema)
  | CreateRelTable n from to columns =>
      let+ schema := slift (new_rel n from to columns) in
      let+ c := slift (add_rel_table (catalog t) schema) in
      stage_ddl c (TxnLog.CreateRelTable schema)
  | InsertNode table rows => execute_node_insert table rows
  | InsertRel table rows => execute_rel_insert table rows
  | UpsertNode table rows => execute_node_upsert table rows
  | CopyNode _ _ _ => slift (Err (InvalidArgument "copy does not run inside a transaction; execute it directly on the database"))
  | UpdateNode table set key_column key => execute_node_update table set key_column key
  | DeleteNode table key_column key => execute_node_delete table key_column key
  | DetachDeleteNode table key_column key => execute_detach_delete table key_column key
  | CreateInterface n columns =>
      let+ _ := slift (ensure_ontology_only t) in
      let+ _ := slift (reject_node_collision_for_interface (catalog t) n) in
      let+ c := slift (declare_interface (catalog t) (mkInterface n columns)) in
      put_catalog c
  | CreateClass class verb inverse =>
      let+ _ := slift (ensure_ontology_only t) in
      let+ c := slift (execute_create_class (catalog t) class verb inverse) in
      put_catalog c
  | CreateHnswIndex n table column metric =>
      let+ _ := in_env (prepare_index_build (catalog t) n table column metric) in
      let+ t := get_txn in
      put_writes (with_hnsw (writes t))
  | PinPlan n text plan =>
      let+ _ := slift (ensure_pins_only t) in
      let+ canonical := slift (canonical_plan plan (catalog t)) in
      let+ entry := slift (from_plan_json n text canonical 0) in
      let+ c := slift (pin (catalog t) entry) in
      put_catalog c
  | UnpinPlan n =>
      let+ _ := slift (ensure_pins_only t) in
      let+ c := slift (unpin (catalog t) n) in
      put_catalog c
  end.

(** [Transaction::execute]: running out of budget poisons the transaction. *)
Definition execute (st : Statement) : TM () := λ s,
  if poisoned s.1 then (Err (BudgetExceeded "{context}"), s) else
  match execute_transaction st s with
  | (Err (BudgetExceeded c), (t, e)) => (Err (BudgetExceeded c), (mkTxn (snapshot t) (snapshot_chain t) (catalog t) (writes t) true, e))
  | r => r
  end.
End env.
