(* ===== verification/Staging.v ===== *)
(** The write set shows what its statements did: the proofs about [Txn.v]. *)

From stdpp Require Import gmap sorting.
From S2P Require Import Prelude Bytes Types Schema TxnLog Catalog Overlay View NodeTable Checkpoint Lookup Resolve Txn.

(** ** A write set over the rows of the snapshot *)

Section staged.
Context (pk : nat) (table : table_name).

Notation row_key r := (optional_row_pk r pk).
Notation keys rows := ((λ r, row_key r) <$> rows).
Notation deleted w := (value_key <$> table_rows (w_deletes w) table).

(** [S] are the rows of the snapshot. *)
Record staged_ok (S : list row) (w : WriteSet) : Prop := {
  st_pks : table_rows (inserted_pks w) table = (λ r, r !!! pk) <$> table_rows (w_nodes w) table;
  st_ins : keyed_base pk (table_rows (w_nodes w) table);
  st_upd : keyed_base pk (table_rows (w_updates w) table);
  st_del : NoDup (deleted w) ∧ Forall is_Some (deleted w);
  st_upd_old : ∀ k, Some k ∈ keys (table_rows (w_updates w) table) → Some k ∈ keys S ∧ Some k ∉ deleted w;
  st_del_old : ∀ k, Some k ∈ deleted w → Some k ∈ keys S;
  st_ins_new : ∀ k, Some k ∈ keys (table_rows (w_nodes w) table) → Some k ∈ keys S → Some k ∈ deleted w;
}.

(** What becomes of a row of the snapshot. *)
Definition row_fate (w : WriteSet) (r : row) : option row :=
  match row_key r with
  | None => Some r
  | Some k => if decide (Some k ∈ deleted w) then None
      else Some (default r (key_row pk k (table_rows (w_updates w) table)))
  end.

Definition shown (S : list row) (w : WriteSet) : list row := omap (row_fate w) S ++ table_rows (w_nodes w) table.

Lemma row_fate_key w r k : row_key r = Some k → row_fate w r = None ∨ ∃ y, row_fate w r = Some y ∧ row_key y = Some k.
Proof.
  intros Hr. unfold row_fate. rewrite Hr. destruct (decide _); [by left|]. right. eexists. split; [done|].
  destruct (key_row pk k _) as [u|] eqn:E; [|done]. by apply key_row_Some in E as [_ ?].
Qed.

Lemma fate_keys S w k : Forall (λ r, is_Some (row_key r)) S → Some k ∈ keys (omap (row_fate w) S) ↔ Some k ∈ keys S ∧ Some k ∉ deleted w.
Proof.
  intros HS. induction HS as [|r S [k0 Hr] HS IH]; [set_solver|]. rewrite omap_cons_list, fmap_app, elem_of_app, IH. csimpl. rewrite elem_of_cons, Hr.
  unfold row_fate. rewrite Hr. destruct (decide (Some k0 ∈ deleted w)) as [Hd|Hd]; simpl.
  - split; [intros [H|H]; [by apply elem_of_nil in H|tauto]|]. intros [[[= ->]|H] Hn]; [done|by right].
  - assert (row_key (default r (key_row pk k0 (table_rows (w_updates w) table))) = Some k0) as ->.
    { destruct (key_row pk k0 _) as [u|] eqn:E; [by apply key_row_Some in E as [_ ?]|done]. }
    rewrite list_elem_of_singleton. split; [intros [[= ->]|H]; naive_solver|]. intros [[[= ->]|H] Hn]; tauto.
Qed.

Lemma shown_keys S w k :
  Forall (λ r, is_Some (row_key r)) S →
  Some k ∈ keys (shown S w) ↔ (Some k ∈ keys S ∧ Some k ∉ deleted w) ∨ Some k ∈ keys (table_rows (w_nodes w) table).
Proof. intros HS. unfold shown. by rewrite fmap_app, elem_of_app, fate_keys. Qed.

(** ** The own delta as operations *)

Lemma effect_inserts k rows eff :
  foldl (effect_step pk k) eff (OpInsert <$> rows) = if decide (Some k ∈ keys rows) then None else eff.
Proof.
  revert eff. induction rows as [|r rows IH]; intros eff; [done|]. csimpl. rewrite IH. unfold effect_step. cbn [op_key].
  destruct (decide (Some k ∈ keys rows)) as [H|H]; [by rewrite decide_True by (by right)|].
  destruct (decide (row_key r = Some k)) as [E|E].
  - rewrite decide_True; [done|]. rewrite E. by left.
  - rewrite decide_False; [done|]. intros [?|?]%elem_of_cons; [congruence|done].
Qed.

Lemma effect_deletes k vs eff :
  foldl (effect_step pk k) eff (OpDelete <$> vs) = if decide (Some k ∈ value_key <$> vs) then Some None else eff.
Proof.
  revert eff. induction vs as [|v vs IH]; intros eff; [done|]. csimpl. rewrite IH. unfold effect_step. cbn [op_key].
  destruct (decide (Some k ∈ value_key <$> vs)) as [H|H]; [by rewrite decide_True by (by right)|].
  destruct (decide (value_key v = Some k)) as [E|E].
  - rewrite decide_True; [done|]. rewrite E. by left.
  - rewrite decide_False; [done|]. intros [?|?]%elem_of_cons; [congruence|done].
Qed.

Lemma key_row_is_Some k rows : is_Some (key_row pk k rows) ↔ Some k ∈ keys rows.
Proof.
  split.
  - intros [r [Hin <-]%key_row_Some]. by apply (list_elem_of_fmap_2 (λ r, row_key r)).
  - intros (r & Hr & Hin)%list_elem_of_fmap. destruct (key_row pk k rows) eqn:E; [eauto|]. apply key_row_None in E.
    rewrite Forall_forall in E. by destruct (E r Hin).
Qed.

Lemma effect_updates k rows eff :
  NoDup (keys rows) →
  foldl (effect_step pk k) eff (OpUpdate <$> rows) = match key_row pk k rows with Some u => Some (Some u) | None => eff end.
Proof.
  revert eff. induction rows as [|r rows IH]; intros eff Hnd; [done|]. csimpl in Hnd. apply NoDup_cons in Hnd as [Hr Hnd]. csimpl.
  rewrite IH, key_row_cons by done. unfold effect_step. cbn [op_key]. destruct (decide (row_key r = Some k)) as [E|]; [|done].
  destruct (key_row pk k rows) as [u|] eqn:Eu; [|done]. rewrite E in Hr. destruct Hr. apply key_row_is_Some. eauto.
Qed.

Lemma valid_updates rows : ∀ t,
  Forall (λ r, ∃ k, row_key r = Some k ∧ Some k ∈ keys t) rows →
  valid_history pk t (OpUpdate <$> rows) ∧ keys (run_ops pk (OpUpdate <$> rows) t) = keys t.
Proof.
  induction rows as [|r rows IH]; intros t Hr; [done|]. apply Forall_cons in Hr as [(k & Hk & Hin) Hr]. csimpl.
  assert (keys (table_op pk t (OpUpdate r)) = keys t) as Hkeys.
  { cbn [table_op]. rewrite Hk, <- list_fmap_compose. apply list_fmap_ext. intros i x _. simpl. by apply replace_row_key. }
  destruct (IH (table_op pk t (OpUpdate r))) as [H1 H2]; [by rewrite Hkeys|]. split; [|etransitivity; [exact H2|exact Hkeys]].
  split; [|done]. split; [cbn [op_key]; eauto|]. apply list_elem_of_fmap in Hin as (x & Hx & Hin). apply Exists_exists. exists x.
  split; [done|]. cbn [op_key]. congruence.
Qed.

Lemma valid_deletes vs : ∀ t,
  NoDup (value_key <$> vs) → Forall (λ v, ∃ k, value_key v = Some k ∧ Some k ∈ keys t) vs → valid_history pk t (OpDelete <$> vs).
Proof.
  induction vs as [|v vs IH]; intros t Hnd Hv; [done|]. csimpl in Hnd. apply NoDup_cons in Hnd as [Hn Hnd].
  apply Forall_cons in Hv as [(k & Hk & Hin) Hv]. csimpl. split.
  - split; [cbn [op_key]; eauto|]. apply list_elem_of_fmap in Hin as (x & Hx & Hin). apply Exists_exists. exists x. split; [done|]. cbn [op_key]. congruence.
  - apply IH; [done|]. cbn [table_op]. rewrite Hk. apply Forall_forall. intros v' Hv'. rewrite Forall_forall in Hv.
    destruct (Hv v' Hv') as (k' & Hk' & Hin'). exists k'. split; [done|]. apply list_elem_of_fmap in Hin' as (x & Hx & Hin').
    apply list_elem_of_fmap. exists x. split; [done|]. apply elem_of_without. split; [|done]. rewrite <- Hx. intros [= ->].
    apply Hn. rewrite Hk, <- Hk'. by apply (list_elem_of_fmap_2 value_key).
Qed.

Lemma valid_inserts rows : ∀ t, Forall (λ r, is_Some (row_key r)) rows → valid_history pk t (OpInsert <$> rows).
Proof. induction rows as [|r rows IH]; intros t Hr; [done|]. apply Forall_cons in Hr as [Hk Hr]. csimpl. split; [by split|auto]. Qed.

Lemma last_rows_id rows : NoDup (keys rows) → last_rows pk rows = rows.
Proof.
  induction rows as [|r rows IH]; [done|]. csimpl. intros [Hr Hnd]%NoDup_cons. cbn [last_rows]. rewrite bool_decide_false by done. by rewrite IH.
Qed.

Lemma run_ops_shown S w :
  keyed_base pk S → staged_ok S w →
  valid_history pk S (commit_ops table (own_delta w)) ∧ run_ops pk (commit_ops table (own_delta w)) S = shown S w.
Proof.
  intros [HndS HS] [Hpks [Hni Hki] [Hnu Hku] [Hnd Hkd] Huo Hdo Hin]. unfold commit_ops. cbn [own_delta node_updates node_deletes nodes].
  assert (valid_history pk S (commit_ops table (own_delta w))) as Hv.
  { unfold commit_ops. cbn [own_delta node_updates node_deletes nodes]. rewrite !valid_history_app.
    destruct (valid_updates (table_rows (w_updates w) table) S) as [Hvu Hkeys].
    { rewrite Forall_forall in Hku |- *. intros r Hr. destruct (Hku r Hr) as [k Hk]. exists k. split; [done|]. apply Huo. rewrite <- Hk.
      by apply (list_elem_of_fmap_2 (λ r, row_key r)). }
    split_and!; [done| |by apply valid_inserts]. apply valid_deletes; [done|]. rewrite Hkeys. apply Forall_forall. intros v Hv'.
    rewrite Forall_fmap, Forall_forall in Hkd. destruct (Hkd v Hv') as [k Hk]. exists k. split; [done|]. apply Hdo. rewrite <- Hk.
    by apply (list_elem_of_fmap_2 value_key). }
  split; [exact Hv|]. fold (nodes (own_delta w)). change (run_ops pk (commit_ops table (own_delta w)) S = shown S w).
  rewrite run_ops_checkpointed by done. unfold checkpointed_rows, shown.
  rewrite inserted_commit_ops. cbn [own_delta nodes].
  rewrite last_rows_id by done.
  assert (∀ k, last_effect pk (commit_ops table (own_delta w)) k =
    if decide (Some k ∈ keys (table_rows (w_nodes w) table)) then None
    else if decide (Some k ∈ deleted w) then Some None
    else Some <$> key_row pk k (table_rows (w_updates w) table)) as He.
  { intros k. unfold last_effect, commit_ops. cbn [own_delta node_updates node_deletes nodes].
    rewrite !foldl_app, effect_inserts, effect_deletes, effect_updates by done. destruct (decide _); [done|]. destruct (decide _); [done|].
    by destruct (key_row pk k _). }
  f_equal.
  - apply list_omap_ext, Forall_Forall2_diag, Forall_forall. intros r Hr. unfold survivor, row_fate. destruct (row_key r) as [k|] eqn:Hk; [|done].
    rewrite He. assert (Some k ∈ keys S) as HkS by (rewrite <- Hk; by apply (list_elem_of_fmap_2 (λ r, row_key r))).
    case_bool_decide as Hi; [by rewrite decide_True by auto|]. rewrite decide_False by done. destruct (decide _); [done|].
    by destruct (key_row pk k _).
  - assert (∀ rows, Forall (λ r, r ∈ table_rows (w_nodes w) table) rows → omap (survivor pk (λ _, false) (last_effect pk (commit_ops table (own_delta w)))) rows = rows) as Hall.
    { induction 1 as [|r rows Hr _ IH]; [done|]. rewrite omap_cons_list, IH. unfold survivor. destruct (row_key r) as [k|] eqn:Hk; [|done].
      rewrite He, decide_True; [done|]. rewrite <- Hk. by apply (list_elem_of_fmap_2 (λ r, row_key r)). }
    apply Hall. by apply Forall_forall.
Qed.

(** ** Positions and entries *)

Lemma position_of_key rows k : position_of rows pk (key_to_value k) = key_pos pk k rows.
Proof. apply find_pos_key. Qed.

Lemma key_value r k : row_key r = Some k → r !!! pk = key_to_value k.
Proof. intros H. apply list_lookup_total_correct. by apply row_key_value. Qed.

Lemma position_of_value rows k :
  Forall (λ r, is_Some (row_key r)) rows →
  fst <$> list_find (λ c, c = key_to_value k) ((λ r, r !!! pk) <$> rows) = key_pos pk k rows.
Proof.
  induction 1 as [|r rows [k0 Hr] _ IH]; [done|]. csimpl. rewrite (key_value r k0 Hr), Hr. destruct (decide (k0 = k)) as [->|Hne].
  - by rewrite !decide_True.
  - rewrite !decide_False by (intros E; first [by apply key_to_value_inj in E|by injection E]). rewrite <- IH. by destruct (list_find _ _) as [[]|].
Qed.

Lemma delete_key_pos rows k p :
  NoDup (keys rows) → key_pos pk k rows = Some p → base.delete p rows = without pk k rows.
Proof.
  revert p. induction rows as [|r rows IH]; intros p; [done|]. csimpl. intros [Hr Hnd]%NoDup_cons. destruct (decide (row_key r = Some k)) as [E|E].
  - intros [= <-]. rewrite without_cons_eq by done. simpl. symmetry. apply without_absent. apply Forall_forall. intros x Hx Hk. apply Hr. rewrite E, <- Hk.
    by apply (list_elem_of_fmap_2 (λ r, row_key r)).
  - intros (q & Hq & ->)%fmap_Some. simpl. unfold without. rewrite filter_cons_True by done. f_equal. by apply IH.
Qed.

Lemma insert_key_pos rows k p r :
  NoDup (keys rows) → key_pos pk k rows = Some p → <[p := r]> rows = replace_row pk k r <$> rows.
Proof.
  revert p. induction rows as [|x rows IH]; intros p; [done|]. csimpl. intros [Hx Hnd]%NoDup_cons. destruct (decide (row_key x = Some k)) as [E|E].
  - intros [= <-]. simpl. unfold replace_row at 1. rewrite decide_True by done. f_equal. symmetry. apply replace_absent.
    apply Forall_forall. intros y Hy Hk. apply Hx. rewrite E, <- Hk. by apply (list_elem_of_fmap_2 (λ r, row_key r)).
  - intros (q & Hq & ->)%fmap_Some. simpl. unfold replace_row at 1. rewrite decide_False by done. f_equal. by apply IH.
Qed.

Lemma rows_put_or_remove {A} (m : gmap table_name (list A)) t l t' :
  table_rows (put_or_remove m t l) t' = if decide (t = t') then l else table_rows m t'.
Proof.
  unfold table_rows, put_or_remove. destruct l as [|x l].
  - destruct (decide (t = t')) as [<-|]; [by rewrite lookup_delete_eq|by rewrite lookup_delete_ne].
  - destruct (decide (t = t')) as [<-|]; [by rewrite lookup_insert_eq|by rewrite lookup_insert_ne].
Qed.

Lemma rows_insert {A} (m : gmap table_name (list A)) t l t' :
  table_rows (<[t := l]> m) t' = if decide (t = t') then l else table_rows m t'.
Proof. unfold table_rows. destruct (decide (t = t')) as [<-|]; [by rewrite lookup_insert_eq|by rewrite lookup_insert_ne]. Qed.

(** ** Inserts *)

Lemma staged_insert S w rows :
  Forall (λ r, is_Some (row_key r)) S → staged_ok S w → keyed_base pk rows → (∀ k, Some k ∈ keys rows → Some k ∉ keys (shown S w)) →
  let w' := with_nodes w (extend_entry (w_nodes w) table rows) (extend_entry (inserted_pks w) table ((λ r, r !!! pk) <$> rows)) in
  staged_ok S w' ∧ shown S w' = shown S w ++ rows.
Proof.
  intros HS [Hpks [Hni Hki] Hu Hd Huo Hdo Hin] [Hnr Hkr] Hnew w'.
  assert (table_rows (w_nodes w') table = table_rows (w_nodes w) table ++ rows) as Hrows.
  { unfold w', extend_entry. cbn [with_nodes w_nodes]. by rewrite rows_insert, decide_True. }
  split.
  - split; rewrite ?Hrows; [| |exact Hu|exact Hd|exact Huo|exact Hdo|].
    + unfold w', extend_entry. cbn [with_nodes inserted_pks]. rewrite rows_insert, decide_True by done. fold (table_rows (inserted_pks w) table).
      by rewrite Hpks, fmap_app.
    + split; [|by apply Forall_app]. rewrite fmap_app. apply NoDup_app. split_and!; [done| |done]. intros [k|] Hk Hk'.
      * apply (Hnew k Hk'). unfold shown. rewrite fmap_app. apply elem_of_app. by right.
      * apply list_elem_of_fmap in Hk' as (r & Hr & Hin'). rewrite Forall_forall in Hkr. destruct (Hkr r Hin'). congruence.
    + intros k. rewrite fmap_app, elem_of_app. intros [Hk|Hk] HkS; [by apply Hin|]. destruct (decide (Some k ∈ deleted w)) as [|Hn]; [done|].
      destruct (Hnew k Hk). apply shown_keys; [done|]. left. done.
  - unfold shown. rewrite Hrows, app_assoc. done.
Qed.

(** ** Updates *)

Lemma fate_absent S w k :
  Forall (λ r, is_Some (row_key r)) S → Some k ∈ keys S → Some k ∈ deleted w → Forall (λ r, row_key r ≠ Some k) (omap (row_fate w) S).
Proof.
  intros HS _ Hd. apply Forall_forall. intros y Hy E. destruct (fate_keys S w k HS) as [Hf _].
  destruct Hf as [_ Hn]; [rewrite <- E; by apply (list_elem_of_fmap_2 (λ r, row_key r))|done].
Qed.

Lemma staged_replace_own S w k r :
  Forall (λ r, is_Some (row_key r)) S → staged_ok S w → row_key r = Some k → Some k ∈ keys (table_rows (w_nodes w) table) →
  ∃ w', replace_own_insert w table pk (key_to_value k) r = (true, w') ∧ staged_ok S w' ∧ shown S w' = replace_row pk k r <$> shown S w.
Proof.
  intros HS [Hpks [Hni Hki] Hu Hd Huo Hdo Hin] Hr Hk. unfold replace_own_insert, table_rows in *.
  destruct (w_nodes w !! table) as [rows|] eqn:Erows; [|by apply elem_of_nil in Hk]. cbn [default id] in *. rewrite position_of_key.
  apply key_row_is_Some in Hk as Hsome. unfold key_row in Hsome. destruct (key_pos pk k rows) as [p|] eqn:Ep; [|by destruct Hsome].
  eexists. split; [done|]. rewrite (insert_key_pos rows k p r Hni Ep). unfold shown, table_rows. cbn [with_nodes w_nodes inserted_pks w_updates w_deletes].
  assert (keys (replace_row pk k r <$> rows) = keys rows) as Hkeys.
  { rewrite <- list_fmap_compose. apply list_fmap_ext. intros i x _. simpl. by apply replace_row_key. }
  split.
  - split; unfold table_rows; cbn [with_nodes w_nodes inserted_pks w_updates w_deletes]; rewrite ?lookup_insert_eq; cbn [default id]; [| |done|done|done|done|].
    + rewrite Hpks, <- list_fmap_compose. apply list_fmap_ext. intros i x Hx. simpl. unfold replace_row. destruct (decide (row_key x = Some k)) as [E|]; [|done].
      by rewrite (key_value x k E), (key_value r k Hr).
    + split; [by rewrite Hkeys|]. apply Forall_fmap. eapply Forall_impl; [exact Hki|]. intros x Hx. simpl. by rewrite replace_row_key.
    + by rewrite Hkeys.
  - rewrite lookup_insert_eq, Erows, fmap_app. cbn [default id]. f_equal. symmetry. apply replace_absent.
    destruct (decide (Some k ∈ keys S)) as [HkS|HkS].
    + apply fate_absent; [done|done|]. by apply Hin.
    + apply Forall_forall. intros y Hy E. apply HkS. apply (fate_keys S w k HS). rewrite <- E. by apply (list_elem_of_fmap_2 (λ r, row_key r)).
Qed.

Lemma no_own_insert w k : Some k ∉ keys (table_rows (w_nodes w) table) → own_insert_position w table pk (key_to_value k) = None.
Proof.
  intros Hk. unfold own_insert_position, table_rows in *. destruct (w_nodes w !! table) as [rows|]; [|done]. cbn [default id mbind option_bind] in *.
  rewrite position_of_key. destruct (key_pos pk k rows) as [p|] eqn:Ep; [|done]. destruct Hk. apply key_row_is_Some. unfold key_row. rewrite Ep.
  apply lookup_lt_is_Some. by eapply key_pos_lt.
Qed.

Lemma no_own_replace w k r : Some k ∉ keys (table_rows (w_nodes w) table) → replace_own_insert w table pk (key_to_value k) r = (false, w).
Proof.
  intros Hk%no_own_insert. unfold own_insert_position, replace_own_insert in *. destruct (w_nodes w !! table) as [rows|]; [|done].
  cbn [mbind option_bind] in Hk. by rewrite Hk.
Qed.

Lemma no_own_remove w k : Some k ∉ keys (table_rows (w_nodes w) table) → remove_own_insert w table pk (key_to_value k) = (Ok false, w).
Proof.
  intros Hk%no_own_insert. unfold own_insert_position, remove_own_insert in *. destruct (w_nodes w !! table) as [rows|]; [|done].
  cbn [mbind option_bind] in Hk. by rewrite Hk.
Qed.

Lemma own_insert_found w k : Some k ∈ keys (table_rows (w_nodes w) table) → is_Some (own_insert_position w table pk (key_to_value k)).
Proof.
  intros Hk. unfold own_insert_position, table_rows in *. destruct (w_nodes w !! table) as [rows|]; [|by apply elem_of_nil in Hk].
  cbn [default id mbind option_bind] in *. rewrite position_of_key. apply key_row_is_Some in Hk as [r Hr]. unfold key_row in Hr.
  destruct (key_pos pk k rows); [eauto|done].
Qed.

(** Edges, detaches, tombstones and the charge do not matter for the rows. *)
Lemma staged_same S w w' :
  w_nodes w' = w_nodes w → w_updates w' = w_updates w → w_deletes w' = w_deletes w → inserted_pks w' = inserted_pks w →
  staged_ok S w → staged_ok S w' ∧ shown S w' = shown S w.
Proof.
  intros E1 E2 E3 E4 [Hpks Hi Hu Hd Huo Hdo Hin]. split; [split; rewrite ?E1, ?E2, ?E3, ?E4; done|].
  unfold shown, row_fate. by rewrite E1, E2, E3.
Qed.

(** The pending updates after staging one more. *)
Lemma upserted_updates w k r :
  keyed_base pk (table_rows (w_updates w) table) → row_key r = Some k →
  let us := table_rows (w_updates (upsert_node_update w table pk (key_to_value k) r)) table in
  keyed_base pk us ∧ (∀ k', key_row pk k' us = if decide (k = k') then Some r else key_row pk k' (table_rows (w_updates w) table)).
Proof.
  intros [Hn Hk] Hr. unfold upsert_node_update. cbn [with_updates w_updates]. rewrite rows_insert, decide_True by done.
  fold (table_rows (w_updates w) table). generalize dependent (table_rows (w_updates w) table). intros us Hn Hk. rewrite position_of_key.
  destruct (key_pos pk k us) as [p|] eqn:Ep.
  - rewrite (insert_key_pos us k p r Hn Ep). split; [split|].
    + rewrite <- list_fmap_compose. erewrite list_fmap_ext; [exact Hn|]. intros i x _. simpl. by apply replace_row_key.
    + apply Forall_fmap. eapply Forall_impl; [exact Hk|]. intros x Hx. simpl. by rewrite replace_row_key.
    + intros k'. rewrite key_row_replace by done. destruct (decide (k = k')) as [<-|]; [|done].
      destruct (key_row pk k us) eqn:E; [done|]. unfold key_row in E. rewrite Ep in E. cbn in E. apply lookup_ge_None in E.
      apply key_pos_lt in Ep. lia.
  - assert (key_row pk k us = None) as Hnone by (unfold key_row; by rewrite Ep). split; [split|].
    + rewrite fmap_app. apply NoDup_app. split_and!; [done| |apply NoDup_singleton]. intros x Hx ->%list_elem_of_singleton. rewrite Hr in Hx.
      apply key_row_is_Some in Hx as [? ?]. congruence.
    + apply Forall_app. split; [done|]. repeat constructor. eauto.
    + intros k'. rewrite key_row_app, key_row_cons, Hr. destruct (decide (k = k')) as [<-|].
      * by rewrite Hnone, decide_True.
      * rewrite decide_False by congruence. by destruct (key_row pk k' us).
Qed.

Lemma staged_update_old S w k r :
  Forall (λ r, is_Some (row_key r)) S → staged_ok S w → row_key r = Some k → Some k ∈ keys S → Some k ∉ deleted w →
  Some k ∉ keys (table_rows (w_nodes w) table) →
  let w' := upsert_node_update w table pk (key_to_value k) r in
  staged_ok S w' ∧ shown S w' = replace_row pk k r <$> shown S w.
Proof.
  intros HS [Hpks Hi Hu Hd Huo Hdo Hin] Hr HkS Hnd Hno w'. destruct (upserted_updates w k r Hu Hr) as [Hu' Hrow]. fold w' in Hu', Hrow.
  split; [split; [exact Hpks|exact Hi|exact Hu'|exact Hd| |exact Hdo|exact Hin]|].
  - intros k' Hk'. apply key_row_is_Some in Hk'. rewrite Hrow in Hk'. destruct (decide (k = k')) as [<-|]; [done|].
    apply Huo. by apply key_row_is_Some.
  - unfold shown. change (table_rows (w_nodes w') table) with (table_rows (w_nodes w) table). rewrite fmap_app. f_equal.
    + clear -HS Hrow Hr Hnd. induction HS as [|x S [kx Hx] HS IH]; [done|]. rewrite !omap_cons_list, fmap_app, IH. f_equal.
      unfold row_fate. rewrite Hx. change (deleted w') with (deleted w). destruct (decide (Some kx ∈ deleted w)); [done|]. simpl.
      rewrite Hrow. unfold replace_row. destruct (decide (k = kx)) as [<-|Hne].
      * rewrite decide_True; [done|]. destruct (key_row pk k _) as [u|] eqn:E; [by apply key_row_Some in E as [_ ?]|done].
      * rewrite decide_False; [done|]. destruct (key_row pk kx _) as [u|] eqn:E; [apply key_row_Some in E as [_ E]|]; simpl; congruence.
    + symmetry. apply replace_absent. apply Forall_forall. intros y Hy E. apply Hno. rewrite <- E. by apply (list_elem_of_fmap_2 (λ r, row_key r)).
Qed.

(** ** Deletes *)

Lemma without_fate S w k :
  Forall (λ r, is_Some (row_key r)) S → staged_ok S w → Some k ∈ keys (table_rows (w_nodes w) table) →
  without pk k (omap (row_fate w) S) = omap (row_fate w) S.
Proof.
  intros HS [_ _ _ _ _ _ Hin] Hk. apply without_absent. destruct (decide (Some k ∈ keys S)) as [HkS|HkS]; [apply fate_absent; auto|].
  apply Forall_forall. intros y Hy E. apply HkS. apply (fate_keys S w k HS). rewrite <- E. by apply (list_elem_of_fmap_2 (λ r, row_key r)).
Qed.

Lemma without_keyed k rows : keyed_base pk rows → keyed_base pk (without pk k rows).
Proof.
  intros [Hn Hk]. unfold without. split.
  - eapply sublist_NoDup; [exact Hn|]. apply fmap_sublist, sublist_filter.
  - rewrite Forall_forall in Hk |- *. intros x [_ Hx]%list_elem_of_filter. auto.
Qed.

Lemma elem_of_keys_without k k' rows : Some k' ∈ keys (without pk k rows) ↔ k' ≠ k ∧ Some k' ∈ keys rows.
Proof. rewrite <- !key_row_is_Some, key_row_without. destruct (decide (k = k')) as [->|]; [|naive_solver]. split; [by intros [? ?]|naive_solver]. Qed.

Lemma staged_remove_own S w k :
  Forall (λ r, is_Some (row_key r)) S → staged_ok S w → Some k ∈ keys (table_rows (w_nodes w) table) →
  ∃ w', remove_own_insert w table pk (key_to_value k) = (Ok true, w') ∧ staged_ok S w' ∧ shown S w' = without pk k (shown S w) ∧
    w_edges w' = w_edges w ∧ detaches w' = detaches w ∧ w_tombstones w' = w_tombstones w.
Proof.
  intros HS Hok Hk. pose proof (without_fate S w k HS Hok Hk) as Hfate. destruct Hok as [Hpks Hi Hu Hd Huo Hdo Hin].
  unfold remove_own_insert. destruct (w_nodes w !! table) as [rows|] eqn:Erows; [|unfold table_rows in Hk; rewrite Erows in Hk; by apply elem_of_nil in Hk].
  assert (table_rows (w_nodes w) table = rows) as Et by (unfold table_rows; by rewrite Erows). rewrite Et in *. rewrite position_of_key.
  pose proof Hk as [x Hx]%key_row_is_Some. unfold key_row in Hx. destruct (key_pos pk k rows) as [p|] eqn:Ep; [|done].
  cbn [with_nodes inserted_pks].
  destruct (inserted_pks w !! table) as [vs|] eqn:Ev.
  2: { unfold table_rows in Hpks. rewrite Ev in Hpks. cbn in Hpks. destruct rows; [by apply elem_of_nil in Hk|done]. }
  assert (vs = (λ r, r !!! pk) <$> rows) as -> by (unfold table_rows in Hpks; by rewrite Ev in Hpks).
  rewrite position_of_value by apply Hi. rewrite Ep. eexists. split; [done|]. unfold shown. cbn [with_nodes w_nodes inserted_pks w_updates w_deletes].
  rewrite (delete_key_pos rows k p (proj1 Hi) Ep), rows_put_or_remove, decide_True by done.
  split_and!; [|by rewrite Et, without_app, Hfate|done|done|done].
  split; cbn [with_nodes w_nodes inserted_pks w_updates w_deletes]; rewrite ?rows_put_or_remove, ?decide_True by done; [| |done|done|done|done|].
  - rewrite <- (delete_key_pos rows k p (proj1 Hi) Ep). by rewrite list_fmap_delete.
  - by apply without_keyed.
  - intros k' [_ Hk']%elem_of_keys_without. by apply Hin.
Qed.

Lemma removed_updates w k k' :
  key_row pk k' (table_rows (w_updates (remove_node_update w table pk (key_to_value k))) table) =
    (if decide (k = k') then None else key_row pk k' (table_rows (w_updates w) table)) ∧
  (keyed_base pk (table_rows (w_updates w) table) → keyed_base pk (table_rows (w_updates (remove_node_update w table pk (key_to_value k))) table)).
Proof.
  unfold remove_node_update. destruct (w_updates w !! table) as [us|] eqn:E.
  - cbn [with_updates w_updates]. rewrite rows_put_or_remove, decide_True by done.
    assert (filter (λ r, r !! pk ≠ Some (key_to_value k)) us = without pk k us) as ->.
    { unfold without. apply list_filter_iff. intros r. by rewrite value_key_row. }
    assert (table_rows (w_updates w) table = us) as -> by (unfold table_rows; by rewrite E).
    split; [apply key_row_without|apply without_keyed].
  - unfold table_rows. rewrite E. cbn [default id]. split; [by destruct (decide _)|done].
Qed.

Lemma staged_delete_old S w k :
  Forall (λ r, is_Some (row_key r)) S → staged_ok S w → Some k ∈ keys S → Some k ∉ deleted w →
  Some k ∉ keys (table_rows (w_nodes w) table) →
  let w' := push_delete (remove_node_update w table pk (key_to_value k)) table (key_to_value k) in
  staged_ok S w' ∧ shown S w' = without pk k (shown S w).
Proof.
  intros HS [Hpks Hi Hu [Hnd Hkd] Huo Hdo Hin] HkS Hnot Hno w'.
  assert (value_key (key_to_value k) = Some k) as Hvk by (by destruct k).
  set (w1 := remove_node_update w table pk (key_to_value k)) in *.
  assert (w_deletes w1 = w_deletes w ∧ w_nodes w1 = w_nodes w ∧ inserted_pks w1 = inserted_pks w) as (Ed & En & Ep).
  { unfold w1, remove_node_update. by destruct (w_updates w !! table). }
  assert (deleted w' = deleted w ++ [Some k]) as Hdel.
  { unfold w', push_delete. cbn [with_deletes w_deletes]. rewrite rows_insert, decide_True by done. rewrite Ed. fold (table_rows (w_deletes w) table).
    unfold push_unique. rewrite bool_decide_false; [by rewrite fmap_app; csimpl; rewrite Hvk|]. intros H. apply Hnot. rewrite <- Hvk.
    by apply (list_elem_of_fmap_2 value_key). }
  assert (table_rows (w_nodes w') table = table_rows (w_nodes w) table) as Enodes by (unfold w', push_delete; cbn [with_deletes w_nodes]; by rewrite En).
  assert (∀ k', key_row pk k' (table_rows (w_updates w') table) = if decide (k = k') then None else key_row pk k' (table_rows (w_updates w) table)) as Hrow.
  { intros k'. apply removed_updates. }
  split.
  - split; rewrite ?Enodes.
    + unfold w', push_delete. cbn [with_deletes inserted_pks]. by rewrite Ep.
    + done.
    + by apply (removed_updates w k k).
    + rewrite Hdel. split.
      * apply NoDup_app. split_and!; [done| |apply NoDup_singleton]. intros x Hx ->%list_elem_of_singleton. done.
      * apply Forall_app. split; [done|]. repeat constructor. eauto.
    + intros k' Hk'. apply key_row_is_Some in Hk'. rewrite Hrow in Hk'. destruct (decide (k = k')) as [|Hne]; [by destruct Hk'|].
      apply key_row_is_Some in Hk'. destruct (Huo k' Hk') as [HkS' Hn']. split; [done|]. rewrite Hdel, elem_of_app, list_elem_of_singleton. naive_solver.
    + intros k'. rewrite Hdel, elem_of_app, list_elem_of_singleton. intros [Hk'|[= ->]]; [by apply Hdo|done].
    + intros k' Hk' HkS'. rewrite Hdel. apply elem_of_app. left. by apply Hin.
  - unfold shown. rewrite Enodes, without_app. f_equal.
    + clear -HS Hdel Hrow. induction HS as [|x S [kx Hx] HS IH]; [done|]. rewrite !omap_cons_list, without_app, IH. f_equal.
      unfold row_fate. rewrite Hx, Hdel. destruct (decide (Some kx ∈ deleted w)) as [Hin|Hout].
      * by rewrite decide_True by (apply elem_of_app; by left).
      * destruct (decide (k = kx)) as [<-|Hne].
        -- rewrite decide_True by (apply elem_of_app; right; by left). simpl. symmetry. rewrite without_cons_eq; [done|].
           destruct (key_row pk k _) as [u|] eqn:E; [by apply key_row_Some in E as [_ ?]|done].
        -- rewrite decide_False by (rewrite elem_of_app, list_elem_of_singleton; naive_solver). rewrite Hrow, decide_False by done. simpl. symmetry.
           apply without_absent. constructor; [|constructor].
           destruct (key_row pk kx _) as [u|] eqn:E; [apply key_row_Some in E as [_ E]|]; simpl; congruence.
    + symmetry. apply without_absent. apply Forall_forall. intros y Hy E. apply Hno. rewrite <- E. by apply (list_elem_of_fmap_2 (λ r, row_key r)).
Qed.
End staged.

(** ** What a transaction relies on *)

(** The answers of key resolution for one table, as [Lookup.v] and [Resolve.v]
    prove them, for the snapshot of catalog [snap] and chain [chain] over the
    checkpointed rows [base]; [good] are the environments in which they hold. *)
Class LawfulEnv {E : Type} `{TxnEnv E} (good : E → Prop) (snap : Catalog) (chain : option CommitLink)
    (schema : NodeTableSchema) (pk : nat) (base : list row) := {
  charge_good n e : good e → good (try_charge n e).2;
  release_good n e : good e → good (release_charge n e);
  shed_cache_good n e : good e → good (shed_cache n e);
  shed_derived_good e : good e → good (shed_derived e);
  checkpoint_good e : good e → good (checkpoint_shared e).2;
  resolve_row_law e c d key :
    good e → node_table c (node_name schema) = Some schema → stored_groups c (node_name schema) = stored_groups snap (node_name schema) →
    valid_history pk base (view_ops (mkView snap chain (Some d)) (node_name schema)) →
    NoDup ((λ r, optional_row_pk r pk) <$> table_rows (nodes d) (node_name schema)) →
    ∃ e', resolve_row (mkView snap chain (Some d)) c (node_name schema) key e =
      (let! k := from_query schema pk key in
       match key_row pk k (run_ops pk (view_ops (mkView snap chain (Some d)) (node_name schema)) base) with
       | Some r => Ok r
       | None => Err missing_node_key
       end, e') ∧ good e';
  resolve_key_law e c d key :
    good e → node_table c (node_name schema) = Some schema → stored_groups c (node_name schema) = stored_groups snap (node_name schema) →
    valid_history pk base (view_ops (mkView snap chain (Some d)) (node_name schema)) →
    NoDup ((λ r, optional_row_pk r pk) <$> table_rows (nodes d) (node_name schema)) →
    (∀ slots, physical_slots (mkView snap chain (Some d)) schema base = Ok slots → in_u 64 (zlen slots)) →
    ∃ offset e', resolve_key (mkView snap chain (Some d)) c (node_name schema) key e =
      (let! k := from_query schema pk key in
       match key_row pk k (run_ops pk (view_ops (mkView snap chain (Some d)) (node_name schema)) base) with
       | Some r => Ok offset
       | None => Err missing_node_key
       end, e') ∧ good e';
}.

Section statements.
Context {E : Type} `{TE : !TxnEnv E} (good : E → Prop) (snap : Catalog) (chain : option CommitLink) (schema : NodeTableSchema) (pk : nat) (base : list row).
Context `{LE : !LawfulEnv good snap chain schema pk base} (cat : Catalog).

Notation table := (node_name schema).
Notation ts := (schema_types schema).
Notation row_key r := (optional_row_pk r pk).
Notation keys rows := ((λ r, row_key r) <$> rows).

(** The rows the transaction sees. *)
Definition visible_rows (t : Transaction) : list row := run_ops pk (view_ops (read_view t) table) base.

(** Every own insert has been charged for, so there are few enough of them, and
    no index creation is pending. *)
Definition room (w : WriteSet) : Prop := ROW_OVERHEAD_BYTES * zlen (table_rows (w_nodes w) table) ≤ w_charged w ∧ in_u 64 (w_charged w) ∧ hnsw_create w = false.

Record txn_ok (t : Transaction) : Prop := {
  tx_snap : snapshot t = snap;
  tx_chain : snapshot_chain t = chain;
  tx_catalog : catalog t = cat;
  tx_storage : stored_groups (catalog t) table = stored_groups snap table;
  tx_schema : node_table (catalog t) table = Some schema;
  tx_quiet : ontology (catalog t) = ontology snap ∧ pins (catalog t) = pins snap;
  tx_pk : primary_key_column schema = Ok pk;
  tx_key_type : ∃ c, node_columns schema !! pk = Some c ∧ (ty c = TInt64 ∨ ty c = TString);
  tx_known : table_known (mkView snap chain None) schema;
  tx_base : keyed_base pk base;
  tx_history : valid_history pk base (chain_ops chain table);
  tx_staged : staged_ok pk table (run_ops pk (chain_ops chain table) base) (writes t);
  tx_slots : ∀ slots, physical_slots (mkView snap chain None) schema base = Ok slots → zlen slots ≤ 2 ^ 63;
  tx_room : room (writes t);
  tx_fits : Forall (row_fits ts) (visible_rows t);
}.

Lemma snapshot_keyed t : txn_ok t → keyed_base pk (run_ops pk (chain_ops chain table) base).
Proof. intros H. apply run_ops_keyed; apply H. Qed.

Lemma visible_shown t :
  txn_ok t →
  visible_rows t = shown pk table (run_ops pk (chain_ops chain table) base) (writes t) ∧
  valid_history pk base (view_ops (read_view t) table).
Proof.
  intros H. destruct (run_ops_shown pk table _ (writes t) (snapshot_keyed t H) (tx_staged t H)) as [Hv Hrun].
  unfold visible_rows, view_ops, read_view. cbn [state_chain own]. rewrite (tx_chain t H), run_ops_app, valid_history_app.
  split; [exact Hrun|]. split; [apply H|exact Hv].
Qed.

Lemma visible_keyed t : txn_ok t → keyed_base pk (visible_rows t).
Proof. intros H. destruct (visible_shown t H) as [_ Hv]. apply run_ops_keyed; [done|apply H]. Qed.

(** A change of the write set that keeps the invariant. *)
Lemma txn_ok_step t w vis :
  txn_ok t → staged_ok pk table (run_ops pk (chain_ops chain table) base) w →
  shown pk table (run_ops pk (chain_ops chain table) base) w = vis → Forall (row_fits ts) vis → room w →
  txn_ok (with_writes t w) ∧ visible_rows (with_writes t w) = vis.
Proof.
  intros H Hst Hshown Hfits Hroom. destruct (run_ops_shown pk table _ w (snapshot_keyed t H) Hst) as [_ Hrun].
  assert (visible_rows (with_writes t w) = vis) as Hvis.
  { unfold visible_rows, view_ops, read_view, with_writes. cbn [snapshot_chain snapshot writes state_chain own].
    rewrite (tx_chain t H), run_ops_app. congruence. }
  split; [|done]. destruct H. split; try done. by rewrite Hvis.
Qed.

(** Charging changes the charge and nothing else. *)
Definition charged_by (n : Z) (t t' : Transaction) : Prop :=
  t' = with_writes t (with_charged (writes t) (w_charged (writes t) + n)) ∧ in_u 64 (w_charged (writes t) + n).

Lemma charged_by_ok n t t' : 0 ≤ n → charged_by n t t' → txn_ok t → txn_ok t' ∧ visible_rows t' = visible_rows t.
Proof.
  intros Hn [-> Hu] H. apply txn_ok_step; [done| | |apply H|].
  - destruct (tx_staged t H). by split.
  - by rewrite (proj1 (visible_shown t H)).
  - destruct (tx_room t H) as (Hr & _ & Hh). split_and!; [cbn; lia|done|done].
Qed.

Lemma try_charge_ok n t e :
  good e → ∃ r t' e', try_charge_write_set n (t, e) = (r, (t', e')) ∧ good e' ∧ (r = Ok true ∧ charged_by n t t' ∨ r ≠ Ok true ∧ t' = t).
Proof.
  intros He. unfold try_charge_write_set. cbn [fst snd]. pose proof (charge_good n e He) as Hg.
  destruct (try_charge n e) as [[] e1]; cbn [snd] in Hg.
  - destruct (try_u 64 _) as [total|] eqn:Et.
    + apply try_u_Some in Et as [-> Hu]. eexists _, _, _. split; [done|]. split; [done|]. by left.
    + eexists _, _, _. split; [done|]. split; [by apply release_good|by right].
  - eexists _, _, _. split; [done|]. split; [done|by right].
Qed.

Lemma charge_write_ok n t e :
  good e → ∃ r t' e', charge_write_set n (t, e) = (r, (t', e')) ∧ good e' ∧ (r = Ok () ∧ charged_by n t t' ∨ r ≠ Ok () ∧ t' = t).
Proof.
  intros He. unfold charge_write_set, sbind, in_env, sret, slift.
  destruct (try_charge_ok n t e He) as (r1 & t1 & e1 & -> & He1 & [[-> H1]|[H1 ->]]); [eexists _, _, _; split_and!; [done|done|by left]|].
  destruct r1 as [[]| |]; [done| |eexists _, _, _; split_and!; [done|done|by right]..]. cbn [fst snd].
  destruct (try_charge_ok n t _ (shed_cache_good n e1 He1)) as (r2 & t2 & e2 & -> & He2 & [[-> H2]|[H2 ->]]); [eexists _, _, _; split_and!; [done|done|by left]|].
  destruct r2 as [[]| |]; [done| |eexists _, _, _; split_and!; [done|done|by right]..]. cbn [fst snd].
  destruct (try_charge_ok n t _ (shed_derived_good e2 He2)) as (r3 & t3 & e3 & -> & He3 & [[-> H3]|[H3 ->]]); [eexists _, _, _; split_and!; [done|done|by left]|].
  destruct r3 as [[]| |]; [done| |eexists _, _, _; split_and!; [done|done|by right]..]. cbn [fst snd].
  pose proof (checkpoint_good e3 He3) as He4.
  destruct (checkpoint_shared e3) as [[[]| |] e4]; cbn [snd] in He4; [|eexists _, _, _; split_and!; [done|done|by right]..]. cbn [fst snd].
  destruct (try_charge_ok n t _ (shed_cache_good n e4 He4)) as (r5 & t5 & e5 & -> & He5 & [[-> H5]|[H5 ->]]); [eexists _, _, _; split_and!; [done|done|by left]|].
  destruct r5 as [[]| |]; [done| |eexists _, _, _; split_and!; [done|done|by right]..]. eexists _, _, _; split_and!; [done|done|by right].
Qed.

(** ** Resolution and validation inside a transaction *)

Lemma view_slots_fit t slots : txn_ok t → physical_slots (read_view t) schema base = Ok slots → in_u 64 (zlen slots).
Proof.
  intros H. unfold physical_slots, read_view. rewrite (tx_snap t H), (tx_chain t H). pose proof (tx_slots t H) as Hs. unfold physical_slots in Hs.
  cbn [own] in *. assert (state_node_slots (mkView snap chain None) table = state_node_slots (mkView snap chain (Some (own_delta (writes t)))) table) as Esame by done.
  rewrite Esame in Hs. destruct (state_node_slots _ _) as [rows| |]; [|done|done]. cbn [bind] in *. intros [= <-]. specialize (Hs _ eq_refl).
  destruct (tx_room t H) as (Hroom & Hu & _). cbn [own_delta nodes]. unfold in_u, zlen, ROW_OVERHEAD_BYTES in *. rewrite !length_app, !length_fmap in *. cbn [length] in Hs. lia.
Qed.

Lemma resolve_row_ok t e key :
  txn_ok t → good e →
  ∃ e', resolve_row (read_view t) (catalog t) table key e =
    (let! k := from_query schema pk key in match key_row pk k (visible_rows t) with Some r => Ok r | None => Err missing_node_key end, e') ∧ good e'.
Proof.
  intros H He. destruct (visible_shown t H) as [_ Hv]. unfold visible_rows, read_view in *. rewrite (tx_snap t H), (tx_chain t H) in *.
  apply (resolve_row_law e (catalog t) (own_delta (writes t)) key He); try apply H. exact Hv.
Qed.

Lemma resolve_key_ok t e key :
  txn_ok t → good e →
  ∃ offset e', resolve_key (read_view t) (catalog t) table key e =
    (let! k := from_query schema pk key in match key_row pk k (visible_rows t) with Some r => Ok offset | None => Err missing_node_key end, e') ∧ good e'.
Proof.
  intros H He. destruct (visible_shown t H) as [_ Hv]. pose proof (view_slots_fit t) as Hslots. unfold visible_rows, read_view in *. rewrite (tx_snap t H), (tx_chain t H) in *.
  apply (resolve_key_law e (catalog t) (own_delta (writes t)) key He); try apply H; [exact Hv|]. intros slots. by apply Hslots.
Qed.

Lemma validate_row_cases r :
  validate_row schema r = Ok () ∧ row_fits ts r ∨ (∃ err, validate_row schema r = Err err) ∧ ¬ row_fits ts r.
Proof.
  unfold validate_row. destruct (Nat.eqb_spec (length r) (length (node_columns schema))) as [Hl|Hl]; cbn [negb].
  - assert (forallb (λ cv, matches_type cv.2 (ty cv.1)) (zip (node_columns schema) r) = forallb (λ vt, matches_type vt.1 vt.2) (zip r ts)) as ->.
    { unfold schema_types. clear Hl. revert r. induction (node_columns schema) as [|c cs IH]; intros [|v r]; try done. simpl. by rewrite IH. }
    pose proof (row_fits_forallb ts r) as Hf. unfold schema_types in Hf. rewrite length_fmap in Hf. specialize (Hf Hl). unfold schema_types.
    destruct (forallb _ _); [left|right]; (split; [eauto|]); [by apply Hf|]. intros Hr. by apply Hf in Hr.
  - right. split; [eauto|]. intros Hr%Forall2_length. unfold schema_types in Hr. by rewrite length_fmap in Hr.
Qed.

Lemma fits_key t r v :
  txn_ok t → row_fits ts r → r !! pk = Some v → v = Null ∨ ∃ k, v = key_to_value k ∧ row_key r = Some k ∧ from_query schema pk v = Ok k.
Proof.
  intros H Hr Hv. destruct (tx_key_type t H) as (c & Hc & Hty).
  assert (ts !! pk = Some (ty c)) as Ht by (unfold schema_types; by rewrite list_lookup_fmap, Hc).
  pose proof (Forall2_lookup_lr _ _ _ _ _ _ Hr Hv Ht) as Hm. cbv beta in Hm. unfold optional_row_pk, from_query, index. rewrite Hv, Hc. cbn [expect bind].
  destruct Hty as [Ety|Ety]; rewrite Ety in Hm |- *; destruct v; try done; [by left|right; by exists (PkInt64 value)|by left|right; by exists (PkString text)].
Qed.

Lemma validate_insert_cases t r :
  txn_ok t →
  (∃ k, validate_node_insert_row schema r pk = Ok (key_to_value k) ∧ row_fits ts r ∧ row_key r = Some k ∧ from_query schema pk (key_to_value k) = Ok k) ∨
  (∃ err, validate_node_insert_row schema r pk = Err err) ∧ ¬ (row_fits ts r ∧ is_Some (row_key r)).
Proof.
  intros H. unfold validate_node_insert_row, recover_row. destruct (validate_row_cases r) as [[-> Hr]|[[err ->] Hr]]; [|right; cbn; split; [eauto|naive_solver]].
  cbn [bind]. destruct (tx_key_type t H) as (c & Hc & _).
  assert (is_Some (r !! pk)) as [v Hv].
  { apply lookup_lt_is_Some. rewrite (Forall2_length _ _ _ Hr). unfold schema_types. rewrite length_fmap. by eapply lookup_lt_Some. }
  rewrite Hv. cbn [ok_or bind]. destruct (fits_key t r v H Hr Hv) as [->|(k & -> & Hk & Hq)].
  - right. rewrite bool_decide_true by done. split; [eauto|]. intros [_ [k Hk]]. unfold optional_row_pk in Hk. by rewrite Hv in Hk.
  - left. exists k. rewrite bool_decide_false by (by destruct k). done.
Qed.

Lemma key_exists_ok t e k :
  txn_ok t → good e → from_query schema pk (key_to_value k) = Ok k →
  ∃ e', transaction_key_exists table (key_to_value k) (t, e) = (Ok (bool_decide (Some k ∈ keys (visible_rows t))), (t, e')) ∧ good e'.
Proof.
  intros H He Hq. unfold transaction_key_exists, sbind, get_txn. cbn [fst snd]. case_bool_decide as Hin.
  - exists e. split; [|done]. unfold sret. rewrite bool_decide_true; [done|]. rewrite (proj1 (visible_shown t H)). unfold shown.
    rewrite fmap_app, elem_of_app. right. rewrite (st_pks _ _ _ _ (tx_staged t H)) in Hin. apply list_elem_of_fmap in Hin as (r & Hr & Hin).
    apply list_elem_of_fmap. exists r. split; [|done]. destruct (st_ins _ _ _ _ (tx_staged t H)) as [_ Hk]. rewrite Forall_forall in Hk.
    destruct (Hk r Hin) as [k0 Hk0]. rewrite (key_value pk r k0 Hk0) in Hr. apply key_to_value_inj in Hr. congruence.
  - cbv beta. cbn [fst snd]. destruct (resolve_key_ok t e (key_to_value k) H He) as (offset & e' & -> & He'). rewrite Hq. cbn [bind].
    exists e'. split; [|done]. destruct (key_row pk k (visible_rows t)) as [r|] eqn:Er.
    + rewrite bool_decide_true; [done|]. apply key_row_is_Some. eauto.
    + rewrite bool_decide_false; [done|]. intros Hk%key_row_is_Some. rewrite Er in Hk. by destruct Hk.
Qed.

(** ** Inserting *)

(** The rows are valid, and their keys new and distinct. *)
Fixpoint insertable (vis before rows : list row) : Prop :=
  match rows with
  | [] => True
  | r :: rows => row_fits ts r ∧ is_Some (row_key r) ∧ row_key r ∉ keys before ∧ row_key r ∉ keys vis ∧ insertable vis (before ++ [r]) rows
  end.

Lemma insertable_spec vis rows : ∀ before,
  keyed_base pk before → insertable vis before rows →
  Forall (row_fits ts) rows ∧ keyed_base pk (before ++ rows) ∧ ∀ k, Some k ∈ keys rows → Some k ∉ keys vis.
Proof.
  induction rows as [|r rows IH]; intros before [Hn Hk] Hi.
  { rewrite app_nil_r. split_and!; [constructor|done|]. intros k Hk'. by apply elem_of_nil in Hk'. }
  destruct Hi as (Hr & [k Hrk] & Hb & Hv & Hi). destruct (IH (before ++ [r])) as (Hf & Hkb & Hnew); [|done|].
  - split; [|apply Forall_app; split; [done|]; repeat constructor; eauto]. rewrite fmap_app. apply NoDup_app.
    split_and!; [done| |apply NoDup_singleton]. intros x Hx ->%list_elem_of_singleton. done.
  - rewrite <- app_assoc in Hkb. split_and!; [by constructor|done|]. intros k'. csimpl. rewrite elem_of_cons. intros [E1|?]; [by rewrite E1|auto].
Qed.

Lemma insert_loop_ok t rows : ∀ before e,
  txn_ok t → good e → Forall (λ r, is_Some (row_key r)) before →
  ∃ r e', sfor rows ((λ r, r !!! pk) <$> before) (λ staged r,
      sbind (slift (validate_node_insert_row schema r pk)) (λ key,
        if bool_decide (key ∈ staged) then slift (Err duplicate_key) else
        sbind (transaction_key_exists table key) (λ found,
          if (found : bool) then slift (Err duplicate_key) else sret (staged ++ [key])))) (t, e) = (r, (t, e')) ∧ good e' ∧
    (insertable (visible_rows t) before rows ∧ r = Ok ((λ r, r !!! pk) <$> before ++ rows) ∨
     ¬ insertable (visible_rows t) before rows ∧ ∃ err, r = Err err).
Proof.
  induction rows as [|r rows IH]; intros before e H He Hb.
  { exists (Ok ((λ r, r !!! pk) <$> before)), e. rewrite app_nil_r. split_and!; [done|done|by left]. }
  cbn [sfor insertable]. unfold sbind at 1 2, slift at 1. destruct (validate_insert_cases t r H) as [(k & -> & Hr & Hk & Hq)|[[err ->] Hno]].
  2: { exists (Err err), e. split_and!; [done|done|]. right. split; [naive_solver|eauto]. }
  assert (key_to_value k ∈ (λ r, r !!! pk) <$> before ↔ Some k ∈ keys before) as Hstaged.
  { rewrite !list_elem_of_fmap. rewrite Forall_forall in Hb. split; intros (x & Hx & Hin); exists x; (split; [|done]).
    - destruct (Hb x Hin) as [k0 Hk0]. rewrite (key_value pk x k0 Hk0) in Hx. apply key_to_value_inj in Hx. congruence.
    - symmetry. by apply key_value. }
  destruct (decide (key_to_value k ∈ (λ r, r !!! pk) <$> before)) as [Hin|Hin].
  { rewrite bool_decide_true by done. unfold slift. exists (Err duplicate_key), e. split_and!; [done|done|]. right. split; [|eauto].
    rewrite Hk. intros (_ & _ & Hn & _). by apply Hn, Hstaged. }
  rewrite bool_decide_false by done. unfold sbind at 1. destruct (key_exists_ok t e k H He Hq) as (e1 & -> & He1).
  destruct (decide (Some k ∈ keys (visible_rows t))) as [Hvis|Hvis].
  { rewrite bool_decide_true by done. unfold slift. exists (Err duplicate_key), e1. split_and!; [done|done|]. right. split; [|eauto].
    rewrite Hk. intros (_ & _ & _ & Hn & _). done. }
  rewrite bool_decide_false by done. unfold sret at 1.
  destruct (IH (before ++ [r]) e1 H He1) as (res & e2 & Hrun & He2 & Hres).
  { apply Forall_app. split; [done|]. repeat constructor. eauto. }
  rewrite fmap_app in Hrun. csimpl in Hrun. rewrite (key_value pk r k Hk) in Hrun. exists res, e2. split; [exact Hrun|]. split; [done|].
  rewrite <- app_assoc in Hres. rewrite Hk. destruct Hres as [[Hi ->]|[Hi Herr]]; [left|right].
  - split; [|done]. split_and!; [done|eauto|by rewrite <- Hstaged|done|done].
  - split; [|done]. naive_solver.
Qed.

(** A statement refused for memory: an estimate that overflows, or a charge the
    budget does not grant. *)
Definition refused (r : outcome ()) : Prop :=
  (∃ m, r = Err (BudgetExceeded m)) ∨ ∃ n s s', charge_write_set n s = (r, s') ∧ r ≠ Ok ().

(** What a statement did: its effect, or nothing for want of memory. *)
Definition applied (t : Transaction) (vis' : list row) (out : outcome () * (Transaction * E)) : Prop :=
  ∃ r t' e', out = (r, (t', e')) ∧ txn_ok t' ∧ good e' ∧
    (r = Ok () ∧ visible_rows t' = vis' ∨ refused r ∧ visible_rows t' = visible_rows t).

(** A statement that is wrong fails and changes nothing. *)
Definition rejected (t : Transaction) (out : outcome () * (Transaction * E)) : Prop :=
  ∃ err t' e', out = (Err err, (t', e')) ∧ txn_ok t' ∧ good e' ∧ visible_rows t' = visible_rows t.


Lemma primary_key_found t : txn_ok t → ∃ n, primary_key_of schema = Ok (pk, n).
Proof. intros H. apply primary_key_named, H. Qed.

Lemma resolve_table_ok tbl t (e : E) :
  node_table (catalog t) tbl = Some schema → resolve_dml_table tbl (t, e) = (Ok schema, (t, e)).
Proof. intros H. unfold resolve_dml_table, sbind, get_txn, slift. cbn [fst]. by rewrite H. Qed.

(** Estimating gives at least [lo] or runs out of numbers. *)
Definition estimated (lo : Z) (m : outcome Z) : Prop := (∃ z, m = Ok z ∧ lo ≤ z) ∨ ∃ c, m = Err (BudgetExceeded c).

Lemma estimated_Ok lo z : lo ≤ z → estimated lo (Ok z).
Proof. left. eauto. Qed.

Lemma estimated_accumulate lo a b : lo ≤ a + b → estimated lo (checked_accumulate a b).
Proof. unfold checked_accumulate, estimated. destruct (try_u 64 _) as [z|] eqn:Ez; simpl; [left|right]; [apply try_u_Some in Ez as [-> _]|]; eauto. Qed.

Lemma estimated_bind lo lo' m k : estimated lo m → (∀ z, lo ≤ z → estimated lo' (k z)) → estimated lo' (bind m k).
Proof. intros [(z & -> & Hz)|[c ->]] Hk; cbn; [by apply Hk|right; eauto]. Qed.

Lemma estimated_for_each {A} (xs : list A) d body : ∀ lo z,
  (∀ lo z x, lo ≤ z → estimated (lo + d) (body z x)) → lo ≤ z → estimated (lo + d * zlen xs) (for_each xs z body).
Proof.
  induction xs as [|x xs IH]; intros lo z Hb Hz; cbn [for_each]; [apply estimated_Ok; unfold zlen; cbn; lia|].
  apply (estimated_bind (lo + d)); [by apply Hb|]. intros z' Hz'. replace (lo + d * zlen (x :: xs)) with (lo + d + d * zlen xs); [by apply IH|].
  unfold zlen. cbn [length]. lia.
Qed.

Lemma approx_bytes_nonneg v : 0 ≤ approx_bytes v.
Proof. destruct v; simpl; unfold zlen; lia. Qed.

Lemma estimated_values lo z vs : lo ≤ z → estimated lo (estimate_values z vs).
Proof.
  intros Hz. pose proof (estimated_for_each vs 0 (λ total v, checked_accumulate total (approx_bytes v)) lo z) as H. rewrite Z.mul_0_l, Z.add_0_r in H.
  apply H; [|done]. intros lo' z' v Hz'. apply estimated_accumulate. pose proof (approx_bytes_nonneg v). lia.
Qed.

Lemma estimated_entry lo z n : lo ≤ z → estimated lo (estimate_map_entry z n).
Proof.
  intros Hz. apply (estimated_bind lo); [apply estimated_accumulate; unfold MAP_ENTRY_OVERHEAD_BYTES; lia|].
  intros z' Hz'. apply estimated_accumulate. unfold zlen. lia.
Qed.

(** A map entry is paid for once. *)
Lemma estimated_if (b : bool) lo z m : lo ≤ z → (lo ≤ z → estimated lo m) → estimated lo (if b then Ok z else m).
Proof. intros Hz Hm. destruct b; [by apply estimated_Ok|auto]. Qed.

Lemma estimated_insert w n rows ks : estimated (ROW_OVERHEAD_BYTES * zlen rows) (node_insert_bytes w n rows ks).
Proof.
  unfold node_insert_bytes. apply (estimated_bind 0); [apply estimated_if; [lia|by apply estimated_entry]|]. intros z Hz.
  apply (estimated_bind 0); [apply estimated_if; [done|by apply estimated_entry]|]. intros z1 Hz1.
  apply (estimated_bind (0 + ROW_OVERHEAD_BYTES * zlen rows)); [|intros; by apply estimated_values].
  apply estimated_for_each; [|done]. intros lo z2 r Hz2. apply (estimated_bind (lo + ROW_OVERHEAD_BYTES)); [apply estimated_accumulate; lia|].
  intros. by apply estimated_values.
Qed.

Lemma estimated_dml m n r : estimated 0 (node_dml_bytes m n r).
Proof.
  unfold node_dml_bytes. apply (estimated_bind 0); [apply estimated_if; [lia|by apply estimated_entry]|]. intros z Hz.
  apply (estimated_bind 0); [apply estimated_accumulate; unfold ROW_OVERHEAD_BYTES; lia|]. intros. by apply estimated_values.
Qed.

(** Estimate, charge, then change the write set. *)
Lemma charge_then_ok lo t e m vis' (k : SM (Transaction * E) ()) :
  txn_ok t → good e → estimated lo m → 0 ≤ lo →
  (∀ n t' e', lo ≤ n → charged_by n t t' → txn_ok t' → visible_rows t' = visible_rows t → good e' →
    ∃ t2, k (t', e') = (Ok (), (t2, e')) ∧ txn_ok t2 ∧ visible_rows t2 = vis') →
  applied t vis' (sbind (slift m) (λ n, sbind (charge_write_set n) (λ _, k)) (t, e)).
Proof.
  intros H He Hm Hlo Hk. unfold sbind at 1, slift. destruct Hm as [(n & -> & Hn)|[c ->]].
  2: { exists (Err (BudgetExceeded c)), t, e. split_and!; [done|done|done|]. right. split; [left; eauto|done]. }
  unfold sbind. destruct (charge_write_ok n t e He) as (r & t' & e' & Hch & He' & [[-> Hre]|[Hr ->]]); rewrite Hch.
  - destruct (charged_by_ok n t t') as [Hok Hvis]; [lia|done|done|].
    destruct (Hk n t' e' Hn Hre Hok Hvis He') as (t2 & -> & Hok2 & Hvis2). exists (Ok ()), t2, e'. split_and!; [done|done|done|by left].
  - assert (refused r) as Hrefused by (right; by exists n, (t, e), (t, e')).
    exists r, t, e'. split; [by destruct r as [[]| |]|]. split_and!; [done|done|by right].
Qed.

Lemma stage_ok rows t e :
  txn_ok t → good e → Forall (row_fits ts) rows → keyed_base pk rows → (∀ k, Some k ∈ keys rows → Some k ∉ keys (visible_rows t)) →
  applied t (visible_rows t ++ rows) (stage_node_inserts table rows ((λ r, r !!! pk) <$> rows) (t, e)).
Proof.
  intros H He Hf Hkb Hnew. unfold stage_node_inserts. unfold sbind at 1, get_txn at 1. cbn [fst].
  apply (charge_then_ok (ROW_OVERHEAD_BYTES * zlen rows)); [done|done|apply estimated_insert|unfold ROW_OVERHEAD_BYTES, zlen; lia|]. intros n t' e' Hn Hre Hok Hvis He'.
  unfold sbind, get_txn, put_writes. cbn [fst snd].
  destruct (staged_insert pk table _ (writes t') rows (proj2 (snapshot_keyed t H)) (tx_staged t' Hok) Hkb) as [Hst Hshown].
  { rewrite <- (proj1 (visible_shown t' Hok)), Hvis. exact Hnew. }
  destruct (txn_ok_step t' _ (visible_rows t ++ rows) Hok Hst) as [Hok2 Hvis2].
  { by rewrite Hshown, <- (proj1 (visible_shown t' Hok)), Hvis. }
  { apply Forall_app. split; [apply H|done]. }
  { destruct Hre as [-> Hu]. destruct (tx_room t H) as (Hr & _ & Hh). split_and!; [|done|done]. unfold extend_entry, table_rows in *. cbn in Hr |- *. rewrite lookup_insert_eq.
    cbn. unfold zlen in *. rewrite length_app. lia. }
  by eexists.
Qed.

Lemma insert_ok tbl rows t e :
  txn_ok t → good e → node_table (catalog t) tbl = Some schema →
  (insertable (visible_rows t) [] rows ∧ applied t (visible_rows t ++ rows) (execute_node_insert tbl rows (t, e))) ∨
  (¬ insertable (visible_rows t) [] rows ∧ rejected t (execute_node_insert tbl rows (t, e))).
Proof.
  intros H He Ht. destruct (primary_key_found t H) as [n Hpk].
  destruct (insert_loop_ok t rows [] e H He) as (r & e1 & Hrun & He1 & Hres); [constructor|]. cbn [fmap list_fmap] in Hrun.
  assert (execute_node_insert tbl rows (t, e) = sbind (λ _, (r, (t, e1))) (λ keys, stage_node_inserts table rows keys) (t, e)) as ->.
  { unfold execute_node_insert. unfold sbind at 1. rewrite (resolve_table_ok tbl t e Ht). unfold sbind at 1, slift at 1. rewrite Hpk.
    unfold sbind at 1. rewrite Hrun. done. }
  unfold sbind. destruct Hres as [[Hi ->]|[Hi [err ->]]]; [left|right]; (split; [done|]).
  2: { exists err, t, e1. done. }
  destruct (insertable_spec (visible_rows t) rows []) as (Hf & Hkb & Hnew); [split; constructor|done|]. by apply stage_ok.
Qed.

(** ** Updating *)

Lemma room_nodes w w' : w_nodes w' = w_nodes w → w_charged w' = w_charged w → hnsw_create w' = hnsw_create w → room w → room w'.
Proof. unfold room. by intros -> -> ->. Qed.

Lemma room_replace w k r : room w → room (replace_own_insert w table pk k r).2.
Proof.
  unfold room, replace_own_insert. destruct (w_nodes w !! table) as [rows|] eqn:Er; [|done]. destruct (position_of rows pk k) as [p|]; [|done].
  unfold table_rows. cbn. rewrite Er, lookup_insert_eq. cbn. unfold zlen. by rewrite length_insert.
Qed.

Lemma room_remove w k : room w → room (remove_own_insert w table pk k).2.
Proof.
  intros Hroom. unfold remove_own_insert. destruct (w_nodes w !! table) as [rows|] eqn:Er; [|done]. destruct (position_of rows pk k) as [p|] eqn:Ep; [|done].
  assert (room (with_nodes w (put_or_remove (w_nodes w) table (base.delete p rows)) (inserted_pks w))) as H.
  { destruct Hroom as (Hr & Hu & Hh). split_and!; [|done|done]. cbn. rewrite rows_put_or_remove, decide_True by done. unfold table_rows in Hr. rewrite Er in Hr. cbn in Hr.
    unfold zlen, ROW_OVERHEAD_BYTES in *. pose proof (sublist_length _ _ (sublist_delete rows p)). lia. }
  destruct (inserted_pks _ !! table) as [ks|]; [|done]. by destruct (list_find _ ks) as [[q x]|].
Qed.

Lemma apply_set_cases items : ∀ r,
  length r = length (node_columns schema) →
  (∃ r', apply_set schema pk r items = Ok r' ∧ length r' = length r ∧ r' !! pk = r !! pk) ∨ ∃ err, apply_set schema pk r items = Err err.
Proof.
  induction items as [|item items IH]; intros r Hl; [left; by exists r|]. unfold apply_set. cbn [for_each].
  unfold resolve_dml_column. destruct (column_index (node_columns schema) (set_column item)) as [c|] eqn:Hc; cbn [ok_or bind]; [|right; eauto].
  destruct (Nat.eqb_spec c pk) as [->|Hne]; cbn [bind]; [right; eauto|].
  assert (c < length r)%nat as Hlt.
  { unfold column_index in Hc. apply fmap_Some in Hc as ([i x] & Hf & ->). apply list_find_Some in Hf as (Hx & _). rewrite Hl. by eapply lookup_lt_Some. }
  unfold store_at. rewrite decide_True by done. cbn [bind]. destruct (IH (<[c := set_value item]> r)) as [(r' & Hr' & Hl' & Hk')|[err Herr]].
  - by rewrite length_insert.
  - left. exists r'. split_and!; [exact Hr'|by rewrite Hl', length_insert|by rewrite Hk', list_lookup_insert_ne].
  - right. exists err. exact Herr.
Qed.

Definition update_spec (vis : list row) (set : list SetItem) (key_column : list Z) (key : Value) : outcome (list row) :=
  let! _ := validate_dml_key_column schema key_column in
  let! k := from_query schema pk key in
  let! old := ok_or (key_row pk k vis) missing_node_key in
  let! new := apply_set schema pk old set in
  let! _ := validate_row schema new in
  Ok (replace_row pk k new <$> vis).

Lemma key_column_cases key_column t :
  txn_ok t → validate_dml_key_column schema key_column = Ok pk ∨ ∃ err, validate_dml_key_column schema key_column = Err err.
Proof.
  intros H. destruct (primary_key_found t H) as [n Hpk]. unfold validate_dml_key_column, resolve_dml_column.
  destruct (column_index _ _) as [c|]; cbn [ok_or bind]; [|right; eauto]. rewrite Hpk. cbn [bind].
  destruct (Nat.eqb_spec c pk); [left|right]; eauto.
Qed.

Lemma query_cases key t :
  txn_ok t → (∃ k, from_query schema pk key = Ok k ∧ key = key_to_value k) ∨ ∃ err, from_query schema pk key = Err err.
Proof.
  intros H. destruct (tx_key_type t H) as (c & Hc & _). unfold from_query, index. rewrite Hc. cbn [expect bind].
  destruct (ty c), key; try (right; by eexists); left; eauto.
  all: by eexists.
Qed.

Lemma key_row_fits t k old : txn_ok t → key_row pk k (visible_rows t) = Some old → row_fits ts old ∧ row_key old = Some k.
Proof. intros H Hk. apply key_row_Some in Hk as [Hin Hk]. pose proof (tx_fits t H) as Hf. rewrite Forall_forall in Hf. auto. Qed.

Lemma replaced_fits t k new : txn_ok t → row_fits ts new → Forall (row_fits ts) (replace_row pk k new <$> visible_rows t).
Proof.
  intros H Hn. apply Forall_fmap. eapply Forall_impl; [apply H|]. intros x Hx. simpl. unfold replace_row. by destruct (decide _).
Qed.

Lemma reject_ok t e' err : txn_ok t → good e' → rejected t (@Err () err, (t, e')).
Proof. intros H He. by exists err, t, e'. Qed.

(** The visible key is an own insert or an old row. *)
Lemma visible_origin t k :
  txn_ok t → Some k ∈ keys (visible_rows t) →
  Some k ∈ keys (table_rows (w_nodes (writes t)) table) ∨
  Some k ∈ keys (run_ops pk (chain_ops chain table) base) ∧ Some k ∉ value_key <$> table_rows (w_deletes (writes t)) table ∧
    Some k ∉ keys (table_rows (w_nodes (writes t)) table).
Proof.
  intros H Hk. rewrite (proj1 (visible_shown t H)) in Hk. apply shown_keys in Hk; [|apply (snapshot_keyed t H)].
  destruct (decide (Some k ∈ keys (table_rows (w_nodes (writes t)) table))); [by left|right; naive_solver].
Qed.

Lemma update_ok tbl set key_column key t e :
  txn_ok t → good e → node_table (catalog t) tbl = Some schema →
  match update_spec (visible_rows t) set key_column key with
  | Ok vis' => applied t vis' (execute_node_update tbl set key_column key (t, e))
  | Err _ => rejected t (execute_node_update tbl set key_column key (t, e))
  | Panic => False
  end.
Proof.
  intros H He Ht. set (out := execute_node_update _ _ _ _ _).
  assert (execute_node_update tbl set key_column key (t, e) = out) as Hout by done. clearbody out. revert Hout.
  unfold update_spec, execute_node_update. unfold sbind at 1. rewrite (resolve_table_ok tbl t e Ht). unfold sbind at 1, slift at 1.
  destruct (key_column_cases key_column t H) as [->|[err ->]]; cbn [bind]; [|by intros <-; apply reject_ok].
  unfold sbind at 1, get_txn at 1. cbn [fst]. unfold sbind at 1, in_env at 1. cbn [fst snd].
  destruct (resolve_row_ok t e key H He) as (e1 & -> & He1).
  destruct (query_cases key t H) as [(k & -> & ->)|[err ->]]; cbn [bind]; [|by intros <-; apply reject_ok].
  destruct (key_row pk k (visible_rows t)) as [old|] eqn:Ek; cbn [ok_or bind]; [|by intros <-; apply reject_ok].
  destruct (key_row_fits t k old H Ek) as [Hfit Hold]. unfold sbind at 1, slift at 1.
  destruct (apply_set_cases set old) as [(new & -> & Hl & Hpkv)|[err ->]]; cbn [bind].
  { rewrite (Forall2_length _ _ _ Hfit). unfold schema_types. by rewrite length_fmap. }
  2: { by intros <-; apply reject_ok. }
  assert (row_key new = Some k) as Hnew by (unfold optional_row_pk in Hold |- *; by rewrite Hpkv).
  unfold sbind at 1, slift at 1, recover_row. destruct (validate_row_cases new) as [[-> Hnf]|[[err ->] _]]; cbn [bind]; [|by intros <-; apply reject_ok].
  intros <-. apply (charge_then_ok 0); [done|done|apply estimated_dml|done|]. intros n0 t' e' _ Hre Hok Hvis He'. unfold sbind, get_txn. cbn [fst].
  assert (Some k ∈ keys (visible_rows t')) as Hk by (rewrite Hvis; apply key_row_is_Some; eauto).
  pose proof (proj2 (snapshot_keyed t H)) as HS. destruct (visible_origin t' k Hok Hk) as [Hown|(Hold' & Hnd & Hno)].
  - destruct (staged_replace_own pk table _ (writes t') k new HS (tx_staged t' Hok) Hnew Hown) as (w' & Hrep & Hst & Hshown).
    pose proof (room_replace (writes t') (key_to_value k) new (tx_room t' Hok)) as Hroom. rewrite Hrep in Hroom |- *.
    destruct (txn_ok_step t' w' (replace_row pk k new <$> visible_rows t) Hok Hst) as [Hok2 Hvis2]; [|by apply replaced_fits|exact Hroom|by eexists].
    by rewrite Hshown, <- (proj1 (visible_shown t' Hok)), Hvis.
  - rewrite (no_own_replace pk table (writes t') k new Hno).
    destruct (staged_update_old pk table _ (writes t') k new HS (tx_staged t' Hok) Hnew Hold' Hnd Hno) as [Hst Hshown].
    destruct (txn_ok_step t' _ (replace_row pk k new <$> visible_rows t) Hok Hst) as [Hok2 Hvis2]; [|by apply replaced_fits|apply (tx_room t' Hok)|by eexists].
    by rewrite Hshown, <- (proj1 (visible_shown t' Hok)), Hvis.
Qed.

(** ** Deleting *)

Definition delete_spec (vis : list row) (key_column : list Z) (key : Value) : outcome (list row) :=
  let! _ := validate_dml_key_column schema key_column in
  let! k := from_query schema pk key in
  let! _ := ok_or (key_row pk k vis) missing_node_key in
  Ok (without pk k vis).

Lemma without_fits t k : txn_ok t → Forall (row_fits ts) (without pk k (visible_rows t)).
Proof. intros H. pose proof (tx_fits t H) as Hf. rewrite Forall_forall in Hf |- *. intros x [_ Hx]%elem_of_without. auto. Qed.

Lemma delete_old_ok t t' k :
  txn_ok t → txn_ok t' → visible_rows t' = visible_rows t →
  Some k ∈ keys (run_ops pk (chain_ops chain table) base) →
  Some k ∉ value_key <$> table_rows (w_deletes (writes t')) table → Some k ∉ keys (table_rows (w_nodes (writes t')) table) →
  ∀ w, w_nodes w = w_nodes (writes t') → w_charged w = w_charged (writes t') → hnsw_create w = hnsw_create (writes t') → w_updates w = w_updates (writes t') → w_deletes w = w_deletes (writes t') →
    inserted_pks w = inserted_pks (writes t') →
  ∀ w', w_nodes w' = w_nodes (push_delete (remove_node_update w table pk (key_to_value k)) table (key_to_value k)) →
    w_charged w' = w_charged (push_delete (remove_node_update w table pk (key_to_value k)) table (key_to_value k)) →
    hnsw_create w' = hnsw_create (push_delete (remove_node_update w table pk (key_to_value k)) table (key_to_value k)) →
    w_updates w' = w_updates (push_delete (remove_node_update w table pk (key_to_value k)) table (key_to_value k)) →
    w_deletes w' = w_deletes (push_delete (remove_node_update w table pk (key_to_value k)) table (key_to_value k)) →
    inserted_pks w' = inserted_pks (push_delete (remove_node_update w table pk (key_to_value k)) table (key_to_value k)) →
  txn_ok (with_writes t' w') ∧ visible_rows (with_writes t' w') = without pk k (visible_rows t).
Proof.
  intros H Hok Hvis Hold Hnd Hno w E1 Ec Eh E2 E3 E4 w' F1 Fc Fh F2 F3 F4. pose proof (proj2 (snapshot_keyed t H)) as HS.
  destruct (staged_same pk table _ _ w E1 E2 E3 E4 (tx_staged t' Hok)) as [Hw Hshown].
  destruct (staged_delete_old pk table _ w k HS Hw Hold) as [Hst Hshown']; [by rewrite E3|by rewrite E1|].
  destruct (staged_same pk table _ _ w' F1 F2 F3 F4 Hst) as [Hst' Hshown2].
  apply txn_ok_step; [done|done| |by apply without_fits|].
  2: { apply (room_nodes (writes t')); [rewrite F1, <- E1|rewrite Fc, <- Ec|rewrite Fh, <- Eh|apply Hok];
       unfold push_delete, remove_node_update; by destruct (w_updates w !! table). }
  by rewrite Hshown2, Hshown', Hshown, <- (proj1 (visible_shown t' Hok)), Hvis.
Qed.

Lemma delete_own_ok t k :
  txn_ok t → Some k ∈ keys (table_rows (w_nodes (writes t)) table) →
  ∃ w1, remove_own_insert (writes t) table pk (key_to_value k) = (Ok true, w1) ∧
    ∀ w', w_nodes w' = w_nodes w1 → w_charged w' = w_charged w1 → hnsw_create w' = hnsw_create w1 → w_updates w' = w_updates w1 → w_deletes w' = w_deletes w1 → inserted_pks w' = inserted_pks w1 →
     txn_ok (with_writes t w') ∧ visible_rows (with_writes t w') = without pk k (visible_rows t).
Proof.
  intros H Hown. destruct (staged_remove_own pk table _ (writes t) k (proj2 (snapshot_keyed t H)) (tx_staged t H) Hown) as (w1 & Hrun & Hst & Hshown & _).
  exists w1. split; [done|]. intros w' E1 Ec Eh E2 E3 E4. destruct (staged_same pk table _ w1 w' E1 E2 E3 E4 Hst) as [Hst' Hshown'].
  apply txn_ok_step; [done|done| |by apply without_fits|].
  - by rewrite Hshown', Hshown, <- (proj1 (visible_shown t H)).
  - apply (room_nodes w1); [done|done|done|]. pose proof (room_remove (writes t) (key_to_value k) (tx_room t H)) as Hr. by rewrite Hrun in Hr.
Qed.

Lemma delete_ok tbl key_column key t e :
  txn_ok t → good e → node_table (catalog t) tbl = Some schema →
  match (let! _ := reject_referenced_delete (catalog t) schema in delete_spec (visible_rows t) key_column key) with
  | Ok vis' => applied t vis' (execute_node_delete tbl key_column key (t, e))
  | Err _ => rejected t (execute_node_delete tbl key_column key (t, e))
  | Panic => False
  end.
Proof.
  intros H He Ht. set (out := execute_node_delete _ _ _ _).
  assert (execute_node_delete tbl key_column key (t, e) = out) as Hout by done. clearbody out. revert Hout.
  unfold delete_spec, execute_node_delete. unfold sbind at 1. rewrite (resolve_table_ok tbl t e Ht). unfold sbind at 1, get_txn at 1. cbn [fst].
  unfold sbind at 1, slift at 1. destruct (reject_referenced_delete (catalog t) schema) as [[]|err|] eqn:Eref; cbn [bind]; [|by intros <-; apply reject_ok|].
  2: { unfold reject_referenced_delete in Eref. by destruct (existsb _ _). }
  unfold sbind at 1, slift at 1.
  destruct (key_column_cases key_column t H) as [->|[err ->]]; cbn [bind]; [|by intros <-; apply reject_ok].
  unfold sbind at 1, in_env at 1. cbn [fst snd]. destruct (resolve_row_ok t e key H He) as (e1 & -> & He1).
  destruct (query_cases key t H) as [(k & -> & ->)|[err ->]]; cbn [bind]; [|by intros <-; apply reject_ok].
  destruct (key_row pk k (visible_rows t)) as [old|] eqn:Ek; cbn [ok_or bind]; [|by intros <-; apply reject_ok].
  destruct (key_row_fits t k old H Ek) as [Hfit Hold]. unfold sbind at 1, slift at 1. rewrite (row_key_value pk old k Hold). cbn [ok_or].
  assert (Some k ∈ keys (visible_rows t)) as Hk by (apply key_row_is_Some; eauto).
  unfold sbind at 1, run_remove_own_insert. cbn [fst snd]. destruct (visible_origin t k H Hk) as [Hown|(Hold' & Hnd & Hno)].
  - destruct (delete_own_ok t k H Hown) as (w1 & -> & Hdone). intros <-. destruct (Hdone w1) as [Hok2 Hvis2]; [done..|].
    exists (Ok ()), (with_writes t w1), e1. split_and!; [done|done|done|by left].
  - rewrite (no_own_remove pk table (writes t) k Hno). assert (with_writes t (writes t) = t) as -> by (by destruct t).
    intros <-. apply (charge_then_ok 0); [done|done|apply estimated_dml|done|]. intros n0 t' e' _ Hre Hok Hvis He'. unfold sbind, get_txn, put_writes. cbn [fst snd].
    destruct Hre as [-> _]. eexists. split; [done|]. by eapply (delete_old_ok t _ k H Hok Hvis Hold').
Qed.

Lemma estimated_detach w intent claims : estimated 0 (detach_bytes w intent claims).
Proof.
  unfold detach_bytes. apply (estimated_bind 0); [apply estimated_accumulate; unfold ROW_OVERHEAD_BYTES, zlen; lia|]. intros z1 H1.
  pose proof (approx_bytes_nonneg (detach_key intent)) as Hk.
  apply (estimated_bind 0); [apply estimated_accumulate; lia|]. intros z2 H2.
  apply (estimated_bind 0); [apply estimated_if; [done|by apply estimated_entry]|]. intros z3 H3.
  apply (estimated_bind 0); [apply estimated_if; [done|intros; apply estimated_accumulate; lia]|]. intros z4 H4.
  match goal with |- estimated 0 (for_each ?xs _ ?body) => pose proof (estimated_for_each xs 0 body 0 z4) as H end.
  rewrite Z.mul_0_l in H. apply H; [|done]. clear. intros lo z5 [i [[rel from] offset]] Hz. rewrite Z.add_0_r. apply (estimated_bind lo).
  - apply estimated_if; [done|]. intros _. apply (estimated_bind lo); [by apply estimated_entry|]. intros z6 Hz6.
    apply estimated_accumulate. unfold REL_ENDPOINT_TOMBSTONES_OVERHEAD_BYTES. lia.
  - intros z6 Hz6. apply estimated_if; [done|]. intros _. apply estimated_accumulate. unfold REL_TOMBSTONE_OFFSET_OVERHEAD_BYTES. lia.
Qed.

Lemma out_of_numbers t e c vis' : txn_ok t → good e → applied t vis' (@Err () (BudgetExceeded c), (t, e)).
Proof. intros H He. exists (Err (BudgetExceeded c)), t, e. split_and!; [done|done|done|]. right. split; [left; eauto|done]. Qed.

Lemma detach_ok tbl key_column key t e :
  txn_ok t → good e → node_table (catalog t) tbl = Some schema →
  match delete_spec (visible_rows t) key_column key with
  | Ok vis' => applied t vis' (execute_detach_delete tbl key_column key (t, e))
  | Err _ => rejected t (execute_detach_delete tbl key_column key (t, e))
  | Panic => False
  end.
Proof.
  intros H He Ht. set (out := execute_detach_delete _ _ _ _).
  assert (execute_detach_delete tbl key_column key (t, e) = out) as Hout by done. clearbody out. revert Hout.
  unfold delete_spec, execute_detach_delete. unfold sbind at 1. rewrite (resolve_table_ok tbl t e Ht). unfold sbind at 1, slift at 1.
  destruct (key_column_cases key_column t H) as [->|[err ->]]; cbn [bind]; [|by intros <-; apply reject_ok].
  unfold sbind at 1, get_txn at 1. cbn [fst].
  unfold sbind at 1, in_env at 1. cbn [fst snd]. destruct (resolve_row_ok t e key H He) as (e1 & -> & He1).
  destruct (query_cases key t H) as [(k & Hq & ->)|[err ->]]; cbn [bind]; [|by intros <-; apply reject_ok]. rewrite Hq. cbn [bind].
  destruct (key_row pk k (visible_rows t)) as [old|] eqn:Ek; cbn [ok_or bind]; [|by intros <-; apply reject_ok].
  destruct (key_row_fits t k old H Ek) as [Hfit Hold]. unfold sbind at 1, slift at 1. rewrite (row_key_value pk old k Hold). cbn [ok_or].
  assert (Some k ∈ keys (visible_rows t)) as Hk by (apply key_row_is_Some; eauto).
  unfold sbind at 1, in_env at 1. cbn [fst snd]. destruct (resolve_key_ok t e1 (key_to_value k) H He1) as (offset & e2 & -> & He2).
  rewrite Hq. cbn [bind]. rewrite Ek. destruct (visible_origin t k H Hk) as [Hown|(Hold' & Hnd & Hno)].
  - rewrite bool_decide_true by (by apply own_insert_found). unfold sbind, run_remove_own_insert, get_txn, put_writes. cbn [fst snd].
    destruct (delete_own_ok t k H Hown) as (w1 & -> & Hdone). cbn [fst snd]. intros <-.
    destruct (Hdone (fold_pending_incident_edges (catalog t) w1 table (key_to_value k))) as [Hok2 Hvis2]; [done..|].
    eexists (Ok ()), _, e2. split; [done|]. split_and!; [exact Hok2|done|left]. split; [done|exact Hvis2].
  - rewrite (no_own_insert pk table (writes t) k Hno), bool_decide_false by (by intros [? ?]).
    unfold sbind at 1, slift at 1. destruct (estimated_dml ∅ table [key_to_value k]) as [(n1 & -> & _)|[c ->]]; [|by intros <-; apply out_of_numbers].
    unfold sbind at 1, slift at 1.
    destruct (estimated_detach (writes t) (mkDetach table (key_to_value k)) (detach_tombstone_claims (catalog t) table offset)) as [(n2 & -> & _)|[c ->]];
      [|by intros <-; apply out_of_numbers].
    intros <-. apply (charge_then_ok 0); [done|done| |done|].
    { destruct (try_u 64 _) as [z|] eqn:Ez; simpl; [left|right; eauto]. apply try_u_Some in Ez as [-> Ez]. exists (n1 + n2). split; [done|]. apply Ez. }
    intros n0 t' e' _ Hre Hok Hvis He'. unfold sbind, get_txn, put_writes. cbn [fst snd].
    destruct Hre as [-> _]. eexists. split; [done|]. 
    apply (delete_old_ok t _ k H Hok Hvis Hold' Hnd Hno
      (fold_pending_incident_edges (catalog t) (with_charged (writes t) (w_charged (writes t) + n0)) table (key_to_value k))); done.
Qed.

(** ** Upserting *)

Definition upsert_row (vis : list row) (r : row) : list row :=
  match row_key r with
  | Some k => if decide (Some k ∈ keys vis) then replace_row pk k r <$> vis else vis ++ [r]
  | None => vis
  end.

Lemma upsert_row_keys vis r k k' :
  row_key r = Some k → Some k' ∈ keys (upsert_row vis r) ↔ k' = k ∨ Some k' ∈ keys vis.
Proof.
  intros Hr. unfold upsert_row. rewrite Hr. destruct (decide (Some k ∈ keys vis)) as [Hin|Hin].
  - assert (keys (replace_row pk k r <$> vis) = keys vis) as ->.
    { rewrite <- list_fmap_compose. apply list_fmap_ext. intros i x _. simpl. by apply replace_row_key. }
    naive_solver.
  - rewrite fmap_app, elem_of_app. csimpl. rewrite Hr, list_elem_of_singleton. naive_solver.
Qed.

Hypothesis Hnames : NoDup (fold ∘ name <$> node_columns schema).

Lemma column_by_name i c : node_columns schema !! i = Some c → column_index (node_columns schema) (name c) = Some i.
Proof.
  intros Hi. unfold column_index. destruct (list_find _ (node_columns schema)) as [[j d]|] eqn:Ef; simpl.
  - apply list_find_Some in Ef as (Hj & Hd & _). f_equal. apply (NoDup_lookup _ j i (fold (name c)) Hnames); rewrite list_lookup_fmap, ?Hj, ?Hi; simpl; congruence.
  - apply list_find_None in Ef. rewrite Forall_lookup in Ef. by destruct (Ef i c Hi).
Qed.

Definition store_all (r : row) (is_ : list nat) (x : row) : row := foldl (λ x i, <[i := r !!! i]> x) x is_.

Lemma store_all_lookup r is_ : ∀ x j,
  length (store_all r is_ x) = length x ∧
  store_all r is_ x !! j = if decide (j ∈ is_ ∧ (j < length x)%nat) then Some (r !!! j) else x !! j.
Proof.
  induction is_ as [|i is_ IH]; intros x j; [split; [done|]; by rewrite decide_False by (by intros [?%elem_of_nil _])|].
  unfold store_all in *. cbn [foldl]. destruct (IH (<[i := r !!! i]> x) j) as [Hl Hj]. rewrite length_insert in Hl, Hj. split; [done|]. rewrite Hj.
  destruct (decide (j ∈ is_ ∧ _)) as [[? ?]|Hn]; [by rewrite decide_True by (split; [by right|done])|].
  destruct (decide (i = j)) as [<-|Hne].
  - destruct (decide (i < length x)%nat) as [Hlt|Hge].
    + rewrite list_lookup_insert_eq by done. rewrite decide_True; [done|]. split; [by left|done].
    + rewrite decide_False by naive_solver. rewrite list_insert_ge by lia. done.
  - rewrite list_lookup_insert_ne by done. rewrite decide_False; [done|]. rewrite elem_of_cons. naive_solver.
Qed.

Lemma apply_items_ok r (l : list (nat * Column)) : ∀ x,
  length x = length (node_columns schema) → Forall (λ ic, node_columns schema !! ic.1 = Some ic.2 ∧ ic.1 ≠ pk) l →
  apply_set schema pk x ((λ ic, mkSet (name ic.2) (r !!! ic.1)) <$> l) = Ok (store_all r l.*1 x).
Proof.
  induction l as [|[i c] l IH]; intros x Hl Hall; [done|]. apply Forall_cons in Hall as [[Hi Hne] Hall]. cbn in Hi, Hne. unfold apply_set. csimpl.
  unfold resolve_dml_column at 1. rewrite (column_by_name i c Hi). cbn [ok_or bind]. rewrite (proj2 (Nat.eqb_neq i pk) Hne).
  unfold store_at. rewrite decide_True by (rewrite Hl; by eapply lookup_lt_Some). cbn [bind]. apply IH; [by rewrite length_insert|done].
Qed.

Lemma full_update_ok t r old k :
  txn_ok t → row_fits ts r → row_key r = Some k → row_fits ts old → row_key old = Some k →
  ∃ items, full_row_update_set schema r pk = Ok items ∧ apply_set schema pk old items = Ok r.
Proof.
  intros H Hr Hk Ho Hok. assert (∀ x, row_fits ts x → length x = length (node_columns schema)) as Hlen.
  { intros x Hx. rewrite (Forall2_length _ _ _ Hx). unfold schema_types. by rewrite length_fmap. }
  set (l := filter (λ ic, ic.1 ≠ pk) (enumerate (node_columns schema))).
  assert (Forall (λ ic, node_columns schema !! ic.1 = Some ic.2 ∧ ic.1 ≠ pk) l) as Hall.
  { apply Forall_forall. intros [i c] [Hne Hic]%list_elem_of_filter. split; [by apply elem_of_enumerate|done]. }
  exists ((λ ic, mkSet (name ic.2) (r !!! ic.1)) <$> l). split.
  - unfold full_row_update_set. fold l. apply collect_Ok. clear -Hall Hr Hlen. induction Hall as [|[i c] l [Hi Hne] _ IH]; csimpl; [constructor|].
    constructor; [|done]. cbn in Hi. assert (is_Some (r !! i)) as [v Hv] by (apply lookup_lt_is_Some; rewrite (Hlen r Hr); by eapply lookup_lt_Some).
    rewrite Hv. cbn [ok_or bind]. by rewrite (list_lookup_total_correct _ _ _ Hv).
  - rewrite apply_items_ok by auto. f_equal. apply list_eq. intros j. destruct (store_all_lookup r l.*1 old j) as [_ ->].
    destruct (decide (j ∈ l.*1 ∧ (j < length old)%nat)) as [[Hj Hlt]|Hno].
    + symmetry. apply list_lookup_lookup_total_lt. rewrite (Hlen r Hr). by rewrite (Hlen old Ho) in Hlt.
    + destruct (decide (j = pk)) as [->|Hne].
      * rewrite (row_key_value pk old k Hok), (row_key_value pk r k Hk). done.
      * destruct (decide (j < length old)%nat) as [Hlt|Hge].
        -- destruct Hno. split; [|done]. rewrite (Hlen old Ho) in Hlt. apply lookup_lt_is_Some in Hlt as [c Hc].
           apply list_elem_of_fmap. exists (j, c). split; [done|]. apply list_elem_of_filter. split; [done|].
           unfold enumerate, enumerate_from. apply list_elem_of_lookup. exists j. rewrite lookup_zip_with. rewrite lookup_seq_lt by (by eapply lookup_lt_Some).
           simpl. by rewrite Hc.
        -- rewrite !lookup_ge_None_2; [done|rewrite (Hlen r Hr), <- (Hlen old Ho); lia|lia].
Qed.

Fixpoint upsert_actions (vis : list row) (seen ks : list PkKey) : list UpsertAction :=
  match ks with
  | [] => []
  | k :: ks => (if decide (k ∈ seen ∨ Some k ∈ keys vis) then UUpdate else UInsert) :: upsert_actions vis (k :: seen) ks
  end.

Lemma resolve_actions_ok t ks : ∀ seen present actions e,
  txn_ok t → good e → Forall (λ k, from_query schema pk (key_to_value k) = Ok k) ks →
  (∀ k, k ∈ present ∨ Some k ∈ keys (visible_rows t) ↔ k ∈ seen ∨ Some k ∈ keys (visible_rows t)) →
  ∃ present' e', sfor (key_to_value <$> ks) (actions, present) (λ '(actions, present) key,
      sbind (resolve_upsert_action (read_view t) (catalog t) table key present) (λ '(action, present), sret (actions ++ [action], present))) (t, e) =
    (Ok (actions ++ upsert_actions (visible_rows t) seen ks, present'), (t, e')) ∧ good e'.
Proof.
  induction ks as [|k ks IH]; intros seen present actions e H He Hq Hp; [exists present, e; by rewrite app_nil_r|].
  apply Forall_cons in Hq as [Hk Hq]. rewrite fmap_cons. cbn [sfor upsert_actions].
  assert (∃ e1, resolve_upsert_action (read_view t) (catalog t) table (key_to_value k) present (t, e) =
    (Ok (if decide (k ∈ seen ∨ Some k ∈ keys (visible_rows t)) then UUpdate else UInsert, {[k]} ∪ present), (t, e1)) ∧ good e1) as (e1 & Hrun & He1).
  { unfold resolve_upsert_action. assert (upsert_key (key_to_value k) = Ok k) as -> by (by destruct k). unfold sbind, slift.
    case_bool_decide as Hin.
    - exists e. split; [|done]. unfold sret. rewrite decide_True by (apply Hp; by left). replace ({[k]} ∪ present) with present by set_solver. done.
    - cbn [fst snd]. destruct (resolve_key_ok t e (key_to_value k) H He) as (offset & e1 & -> & He1). rewrite Hk. cbn [bind]. exists e1. split; [|done].
      destruct (key_row pk k (visible_rows t)) as [r|] eqn:Er.
      + rewrite decide_True; [done|]. right. apply key_row_is_Some. eauto.
      + rewrite decide_False; [done|]. rewrite <- Hp. intros [?|Hv%key_row_is_Some]; [done|]. rewrite Er in Hv. by destruct Hv. }
  unfold sbind at 1 2. rewrite Hrun. unfold sret at 1.
  set (a := if decide (k ∈ seen ∨ _) then UUpdate else UInsert).
  destruct (IH (k :: seen) ({[k]} ∪ present) (actions ++ [a]) e1 H He1 Hq) as (present' & e2 & Hrun2 & He2).
  - intros k'. rewrite elem_of_union, elem_of_singleton, elem_of_cons. specialize (Hp k'). tauto.
  - exists present', e2. rewrite <- app_assoc in Hrun2. done.
Qed.

(** The rows of an upsert applied one by one; refused at some row, the rows
    before it stay staged. *)
Definition upserted (vis : list row) (rows : list row) (out : outcome () * (Transaction * E)) : Prop :=
  ∃ r t' e', out = (r, (t', e')) ∧ txn_ok t' ∧ good e' ∧
    (r = Ok () ∧ visible_rows t' = foldl upsert_row vis rows ∨ refused r ∧ ∃ n, visible_rows t' = foldl upsert_row vis (take n rows)).

Lemma upsert_loop_ok n ks rows : ∀ t e vis0 seen,
  txn_ok t → good e → primary_key_of schema = Ok (pk, n) →
  Forall2 (λ r k, row_fits ts r ∧ row_key r = Some k ∧ from_query schema pk (key_to_value k) = Ok k) rows ks →
  (∀ k, Some k ∈ keys (visible_rows t) ↔ k ∈ seen ∨ Some k ∈ keys vis0) →
  upserted (visible_rows t) rows (sfor (zip (zip rows (key_to_value <$> ks)) (upsert_actions vis0 seen ks)) () (λ _ '(r, key, action),
    match action with
    | UInsert => stage_node_inserts table [r] [key]
    | UUpdate => sbind (slift (full_row_update_set schema r pk)) (λ set, execute_node_update table set n key)
    end) (t, e)).
Proof.
  intros t e vis0 seen H He Hpk Hrows. revert t e seen H He. induction Hrows as [|r k rows ks (Hr & Hk & Hq) Hrows IH]; intros t e seen H He Hseen.
  { exists (Ok ()), t, e. split_and!; [done|done|done|by left]. }
  rewrite fmap_cons. cbn [upsert_actions zip zip_with sfor].
  match goal with |- upserted _ _ (sbind ?m _ _) => assert (applied t (upsert_row (visible_rows t) r) (m (t, e))) as Hstep end.
  { unfold upsert_row. rewrite Hk. destruct (decide (k ∈ seen ∨ Some k ∈ keys vis0)) as [Hin|Hin].
    - pose proof (proj2 (Hseen k) Hin) as Hvis. rewrite decide_True by done. pose proof Hvis as [old Hold]%key_row_is_Some.
      destruct (key_row_fits t k old H Hold) as [Hof Hok]. destruct (full_update_ok t r old k H Hr Hk Hof Hok) as (items & Hitems & Hset).
      unfold sbind, slift. rewrite Hitems. pose proof (update_ok table items n (key_to_value k) t e H He (tx_schema t H)) as Hup.
      assert (update_spec (visible_rows t) items n (key_to_value k) = Ok (replace_row pk k r <$> visible_rows t)) as Hspec.
      { unfold update_spec, validate_dml_key_column, resolve_dml_column. destruct (primary_key_of_find schema pk n Hpk) as [c Hc].
        apply list_find_Some in Hc as (Hc & _).
        assert (name c = n) as Hcn.
        { unfold primary_key_of in Hpk. destruct (list_find _ _) as [[i d]|] eqn:Ef; [|done]. cbn in Hpk. injection Hpk as -> <-.
          apply list_find_Some in Ef as (Hd & _). congruence. }
        rewrite <- Hcn, (column_by_name pk c Hc). cbn [ok_or bind]. rewrite Hpk. cbn [bind]. rewrite Nat.eqb_refl. cbn [bind].
        rewrite Hq. cbn [bind]. rewrite Hold. cbn [ok_or bind]. rewrite Hset. cbn [bind]. by rewrite validate_row_fits. }
      by rewrite Hspec in Hup.
    - assert (Some k ∉ keys (visible_rows t)) as Hvis by (by rewrite Hseen). rewrite decide_False by done.
      pose proof (stage_ok [r] t e H He) as Hst. csimpl in Hst. rewrite (key_value pk r k Hk) in Hst. apply Hst.
      + by repeat constructor.
      + split; [apply NoDup_singleton|]. repeat constructor. eauto.
      + intros k'. rewrite Hk, list_elem_of_singleton. by intros [= ->]. }
  destruct Hstep as (res & t1 & e1 & Hrun & Hok1 & He1 & Hres). unfold sbind at 1. rewrite Hrun. destruct Hres as [[-> Hvis1]|[Href Hvis1]].
  - destruct (IH t1 e1 (k :: seen) Hok1 He1) as (res & t2 & e2 & Hrun2 & Hok2 & He2 & Hres2).
    { intros k'. rewrite Hvis1, (upsert_row_keys (visible_rows t) r k k' Hk), Hseen, elem_of_cons. tauto. }
    exists res, t2, e2. split; [exact Hrun2|]. split_and!; [done|done|]. rewrite Hvis1 in Hres2. destruct Hres2 as [Hd|[Hd [m Hm]]]; [by left|right].
    split; [done|]. by exists (S m).
  - assert (res ≠ Ok ()) as Hne by (intros ->; destruct Href as [[? ?]|(? & ? & ? & ? & ?)]; done).
    exists res, t1, e1. split; [by destruct res as [[]| |]|]. split_and!; [done|done|]. right. split; [done|]. exists 0%nat. done.
Qed.

Lemma upsert_ok tbl rows t e :
  txn_ok t → good e → node_table (catalog t) tbl = Some schema →
  Forall (λ r, row_fits ts r ∧ is_Some (row_key r)) rows ∧ upserted (visible_rows t) rows (execute_node_upsert tbl rows (t, e)) ∨
  ¬ Forall (λ r, row_fits ts r ∧ is_Some (row_key r)) rows ∧ rejected t (execute_node_upsert tbl rows (t, e)).
Proof.
  intros H He Ht. destruct (primary_key_found t H) as [n Hpk].
  assert (∀ out, execute_node_upsert tbl rows (t, e) = out →
    sbind (slift (collect (λ r, validate_node_insert_row schema r pk) rows)) (λ ks, sbind (resolve_upsert_actions table ks) (λ actions,
      sfor (zip (zip rows ks) actions) () (λ _ '(r, key, action),
        match action with
        | UInsert => stage_node_inserts table [r] [key]
        | UUpdate => sbind (slift (full_row_update_set schema r pk)) (λ set, execute_node_update table set n key)
        end))) (t, e) = out) as Hstart.
  { intros out <-. symmetry. unfold execute_node_upsert. unfold sbind at 1. rewrite (resolve_table_ok tbl t e Ht). unfold sbind at 1, slift at 1. by rewrite Hpk. }
  specialize (Hstart _ eq_refl). rewrite <- Hstart. clear Hstart.
  assert ((∃ ks, collect (λ r, validate_node_insert_row schema r pk) rows = Ok (key_to_value <$> ks) ∧
      Forall2 (λ r k, row_fits ts r ∧ row_key r = Some k ∧ from_query schema pk (key_to_value k) = Ok k) rows ks) ∨
    (∃ err, collect (λ r, validate_node_insert_row schema r pk) rows = Err err) ∧ ¬ Forall (λ r, row_fits ts r ∧ is_Some (row_key r)) rows) as Hall.
  { clear -H. induction rows as [|r rows IH]; [left; exists []; by split|]. cbn [collect].
    destruct (validate_insert_cases t r H) as [(k & -> & Hr & Hk & Hq)|[[err ->] Hno]]; cbn [bind].
    2: { right. split; [eauto|]. by intros [? _]%Forall_cons. }
    destruct IH as [(ks & -> & Hks)|[[err ->] Hno]]; cbn [bind]; [left; exists (k :: ks); split; [done|by constructor]|].
    right. split; [eauto|]. by intros [_ ?]%Forall_cons. }
  match goal with |- _ ∧ upserted _ _ ?o ∨ _ => set (out := o) end.
  match goal with H := ?o |- _ => assert (o = out) as Hout by done end. clearbody out. revert Hout. unfold sbind at 1, slift at 1. destruct Hall as [(ks & -> & Hks)|[[err ->] Hno]]; [intros Hout; left|intros <-; right; split; [done|by apply reject_ok]]. split.
  { clear -Hks. induction Hks as [|r k rows ks (? & ? & _) _ IH]; constructor; eauto. }
  rewrite <- Hout. clear Hout. unfold resolve_upsert_actions. unfold sbind at 1 2 3, get_txn at 1, slift at 1. cbn [fst].
  assert (∃ own, collect upsert_key (table_rows (inserted_pks (writes t)) table) = Ok own ∧
    ∀ k, k ∈ own → Some k ∈ keys (visible_rows t)) as (own & Hown & Hvis).
  { rewrite (st_pks _ _ _ _ (tx_staged t H)), (proj1 (visible_shown t H)). unfold shown.
    destruct (st_ins _ _ _ _ (tx_staged t H)) as [_ Hkeyed]. setoid_rewrite fmap_app. setoid_rewrite elem_of_app.
    induction Hkeyed as [|r l [k Hk] Hl IH]; [exists []; split; [done|by intros k ?%elem_of_nil]|].
    destruct IH as (own & Hown & Hin). exists (k :: own). csimpl. rewrite (key_value pk r k Hk).
    assert (upsert_key (key_to_value k) = Ok k) as -> by (by destruct k). cbn [bind]. rewrite Hown. split; [done|].
    intros k'. rewrite Hk, !elem_of_cons. intros [->|Hk']; [by right; left|]. destruct (Hin k' Hk'); [by left|by right; right]. }
  rewrite Hown.
  destruct (resolve_actions_ok t ks [] (list_to_set own) [] e H He) as (present & e1 & Hrun & He1).
  { clear -Hks. induction Hks as [|r k rows ks (? & ? & ?) _ IH]; constructor; eauto. }
  { intros k. rewrite elem_of_list_to_set. split; [intros [?|?]; right; auto|intros [?%elem_of_nil|?]; [done|by right]]. }
  unfold sbind at 1. rewrite Hrun. unfold sret at 1. cbn [app].
  apply upsert_loop_ok; [done|done|done|done|]. intros k. split; [by right|by intros [?%elem_of_nil|?]].
Qed.

(** ** Any node statement *)

(** The table a node statement names. *)
Definition statement_table (st : Statement) : option cat_name :=
  match st with
  | InsertNode tbl _ | UpsertNode tbl _ | UpdateNode tbl _ _ _ | DeleteNode tbl _ _ | DetachDeleteNode tbl _ _ => Some tbl
  | _ => None
  end.

Definition to_option {A} (m : outcome A) : option A := match m with Ok a => Some a | _ => None end.

#[local] Instance row_fits_dec r : Decision (row_fits ts r).
Proof. unfold row_fits. apply _. Defined.

#[local] Instance insertable_dec vis rows : ∀ before, Decision (insertable vis before rows).
Proof. induction rows as [|r rows IH]; intros before; cbn [insertable]; apply _. Defined.

(** What a statement does to the rows of the table: [None] when it is wrong. *)
Definition statement_spec (c : Catalog) (vis : list row) (st : Statement) : option (list row) :=
  match st with
  | InsertNode _ rows => if decide (insertable vis [] rows) then Some (vis ++ rows) else None
  | UpsertNode _ rows => if decide (Forall (λ r, row_fits ts r ∧ is_Some (row_key r)) rows) then Some (foldl upsert_row vis rows) else None
  | UpdateNode _ set key_column key => to_option (update_spec vis set key_column key)
  | DeleteNode _ key_column key => to_option (let! _ := reject_referenced_delete c schema in delete_spec vis key_column key)
  | DetachDeleteNode _ key_column key => to_option (delete_spec vis key_column key)
  | _ => None
  end.

(** Refused for memory, a statement leaves the rows alone; an upsert may have
    applied some of its rows. *)
Definition statement_partial (vis : list row) (st : Statement) (vis' : list row) : Prop :=
  match st with
  | UpsertNode _ rows => ∃ n, vis' = foldl upsert_row vis (take n rows)
  | _ => vis' = vis
  end.

(** The result of a statement against its specification. *)
Definition statement_result (t : Transaction) (st : Statement) (out : outcome () * (Transaction * E)) : Prop :=
  ∃ r t' e', out = (r, (t', e')) ∧ txn_ok t' ∧ good e' ∧
    match statement_spec (catalog t) (visible_rows t) st with
    | Some vis' => r = Ok () ∧ visible_rows t' = vis' ∨ refused r ∧ statement_partial (visible_rows t) st (visible_rows t')
    | None => (∃ err, r = Err err) ∧ visible_rows t' = visible_rows t
    end.

Lemma applied_result t st vis' out :
  statement_spec (catalog t) (visible_rows t) st = Some vis' → (∀ vis, statement_partial vis st vis) → applied t vis' out → statement_result t st out.
Proof.
  intros Hspec Hpart (r & t' & e' & -> & Hok & He & Hres). exists r, t', e'. split_and!; [done|done|done|]. rewrite Hspec.
  destruct Hres as [?|[Hr ->]]; [by left|right; by split].
Qed.

Lemma rejected_result t st out : statement_spec (catalog t) (visible_rows t) st = None → rejected t out → statement_result t st out.
Proof. intros Hspec (err & t' & e' & -> & Hok & He & Hvis). exists (Err err), t', e'. split_and!; [done|done|done|]. rewrite Hspec. eauto. Qed.

Lemma transaction_statement_ok st tbl t e :
  statement_table st = Some tbl → txn_ok t → good e → node_table (catalog t) tbl = Some schema →
  statement_result t st (execute_transaction st (t, e)).
Proof.
  intros Hst H He Ht. unfold execute_transaction. unfold sbind at 1, get_txn at 1. cbn [fst].
  destruct (tx_quiet t H) as [Ho Hp]. unfold ontology_pending, pins_pending. rewrite (proj2 (proj2 (tx_room t H))), (tx_snap t H), Ho, Hp, !bool_decide_true by done. cbn [negb andb].
  destruct st as [| |tb rows| |tb rows|tb set kc key|tb kc key|tb kc key| | | | | |]; try done; injection Hst as ->.
  - destruct (insert_ok tbl rows t e H He Ht) as [[Hi Ha]|[Hi Hr]].
    + eapply applied_result; [cbn; by rewrite decide_True|done|done].
    + apply rejected_result; [cbn; by rewrite decide_False|done].
  - destruct (upsert_ok tbl rows t e H He Ht) as [[Hi (r & t' & e' & -> & Hok & He' & Hres)]|[Hi Hr]].
    + exists r, t', e'. split_and!; [done|done|done|]. cbn. rewrite decide_True by done. exact Hres.
    + apply rejected_result; [cbn; by rewrite decide_False|done].
  - pose proof (update_ok tbl set kc key t e H He Ht) as Hu. destruct (update_spec (visible_rows t) set kc key) as [vis'|err|] eqn:Es; [| |done].
    + eapply applied_result; [cbn [statement_spec]; by rewrite Es|done|done].
    + apply rejected_result; [cbn [statement_spec]; by rewrite Es|done].
  - pose proof (delete_ok tbl kc key t e H He Ht) as Hu.
    destruct (let! _ := reject_referenced_delete (catalog t) schema in delete_spec (visible_rows t) kc key) as [vis'|err|] eqn:Es; [| |done].
    + eapply applied_result; [cbn [statement_spec]; by rewrite Es|done|done].
    + apply rejected_result; [cbn [statement_spec]; by rewrite Es|done].
  - pose proof (detach_ok tbl kc key t e H He Ht) as Hu. destruct (delete_spec (visible_rows t) kc key) as [vis'|err|] eqn:Es; [| |done].
    + eapply applied_result; [cbn [statement_spec]; by rewrite Es|done|done].
    + apply rejected_result; [cbn [statement_spec]; by rewrite Es|done].
Qed.

(** Only the flag changes when a transaction is poisoned. *)
Lemma poison_ok t : txn_ok t →
  let t' := mkTxn (snapshot t) (snapshot_chain t) (catalog t) (writes t) true in txn_ok t' ∧ visible_rows t' = visible_rows t.
Proof. intros H. split; [|done]. by destruct H. Qed.

Lemma execute_ok st tbl t e :
  statement_table st = Some tbl → txn_ok t → good e → node_table (catalog t) tbl = Some schema → poisoned t = false →
  statement_result t st (execute st (t, e)).
Proof.
  intros Hst H He Ht Hp. unfold execute. cbn [fst]. rewrite Hp.
  destruct (transaction_statement_ok st tbl t e Hst H He Ht) as (r & t' & e' & -> & Hok & He' & Hres).
  destruct (poison_ok t' Hok) as [Hok' Hvis']. rewrite <- Hvis' in Hres. destruct r as [[]|[]|]; by eexists _, _, _.
Qed.

(** ** Only [execute] poisons *)

Definition keeps {A} (m : SM (Transaction * E) A) : Prop := ∀ s r s', m s = (r, s') → poisoned s'.1 = poisoned s.1.

Lemma keeps_bind {A B} (m : SM (Transaction * E) A) (k : A → SM (Transaction * E) B) : keeps m → (∀ a, keeps (k a)) → keeps (sbind m k).
Proof.
  intros Hm Hk s r s'. unfold sbind. destruct (m s) as [[a|err|] s1] eqn:E1; intros Hr; [|by injection Hr as <- <-; eapply Hm..].
  rewrite <- (Hm _ _ _ E1). by eapply Hk.
Qed.

Lemma keeps_lift {A} (m : outcome A) : keeps (slift m).
Proof. by intros s r s' [= <- <-]. Qed.
Lemma keeps_ret {A} (a : A) : keeps (sret a).
Proof. by intros s r s' [= <- <-]. Qed.
Lemma keeps_get : keeps get_txn.
Proof. by intros s r s' [= <- <-]. Qed.
Lemma keeps_put w : keeps (put_writes w).
Proof. by intros s r s' [= <- <-]. Qed.
Lemma keeps_env {A} (m : E → outcome A * E) : keeps (in_env m).
Proof. intros s r s'. unfold in_env. destruct (m s.2) as [a e]. by intros [= <- <-]. Qed.
Lemma keeps_remove n i k : keeps (run_remove_own_insert n i k).
Proof. intros s r s'. unfold run_remove_own_insert. destruct (remove_own_insert _ _ _ _) as [a w]. by intros [= <- <-]. Qed.
Lemma keeps_try n : keeps (try_charge_write_set n).
Proof.
  intros s r s'. unfold try_charge_write_set. destruct (try_charge n s.2) as [[] e]; [|by intros [= <- <-]].
  destruct (try_u 64 _); by intros [= <- <-].
Qed.
Lemma keeps_sfor {A B} (xs : list A) (b : B) body : (∀ b x, keeps (body b x)) → keeps (sfor xs b body).
Proof.
  intros Hb. revert b. induction xs as [|x xs IH]; intros b; cbn [sfor]; [apply keeps_ret|]. by apply keeps_bind.
Qed.
Lemma keeps_resolve {A} (view : ReadView) c n key (ok : Z → outcome A) (missing : outcome A) :
  keeps (λ s, match resolve_key view c n key s.2 with
    | (Ok z, e) => (ok z, (s.1, e))
    | (Err (NotFound _), e) => (missing, (s.1, e))
    | (Err err, e) => (Err err, (s.1, e))
    | (Panic, e) => (Panic, (s.1, e))
    end).
Proof. intros s r s'. destruct (resolve_key view c n key s.2) as [[z|[]|] e]; by intros [= <- <-]. Qed.

Ltac keeps_step :=
  match goal with
  | |- keeps (sbind _ _) => apply keeps_bind; [|intros ?]
  | |- keeps (sfor _ _ _) => apply keeps_sfor; intros ? ?
  | |- keeps (if ?b then _ else _) => destruct b
  | |- keeps (match ?x with _ => _ end) => destruct x
  | |- keeps (match ?x with _ => _ end _) => destruct x
  | _ => first [apply keeps_lift|apply keeps_ret|apply keeps_get|apply keeps_put|apply keeps_env|apply keeps_remove|apply keeps_try|apply keeps_resolve]
  end.

Lemma keeps_charge n : keeps (charge_write_set n).
Proof. unfold charge_write_set. repeat keeps_step. Qed.
Lemma keeps_stage n rows ks : keeps (stage_node_inserts n rows ks).
Proof. unfold stage_node_inserts. repeat first [apply keeps_charge|keeps_step]. Qed.
Lemma keeps_update tbl set kc key : keeps (execute_node_update tbl set kc key).
Proof. unfold execute_node_update, resolve_dml_table. repeat first [apply keeps_charge|keeps_step]. Qed.
Lemma keeps_exists n key : keeps (transaction_key_exists n key).
Proof. unfold transaction_key_exists. repeat keeps_step. Qed.

Lemma keeps_statement st : is_Some (statement_table st) → keeps (execute_transaction st).
Proof.
  intros Hst. unfold execute_transaction. apply keeps_bind; [apply keeps_get|]. intros t. do 3 (keeps_step; [keeps_step|]).
  destruct st as [| |tb rows| |tb rows|tb set kc key|tb kc key|tb kc key| | | | | |]; try (by destruct Hst).
  - unfold execute_node_insert, resolve_dml_table. repeat first [apply keeps_stage|apply keeps_exists|keeps_step].
  - unfold execute_node_upsert, resolve_dml_table, resolve_upsert_actions, resolve_upsert_action.
    repeat first [apply keeps_stage|apply keeps_update|keeps_step].
  - apply keeps_update.
  - unfold execute_node_delete, resolve_dml_table. repeat first [apply keeps_charge|keeps_step].
  - unfold execute_detach_delete, resolve_dml_table. repeat first [apply keeps_charge|keeps_step].
Qed.

(** ** A whole transaction *)

Fixpoint run_statements (sts : list Statement) (s : Transaction * E) : list (outcome ()) * (Transaction * E) :=
  match sts with
  | [] => ([], s)
  | st :: sts =>
      let '(r, s) := execute st s in
      let '(rs, s) := run_statements sts s in (r :: rs, s)
  end.

Definition out_of_budget (r : outcome ()) : bool := match r with Err (BudgetExceeded _) => true | _ => false end.

(** The rows of the table under a sequence of statements with their results:
    each applies its specification, or is wrong and changes nothing, or is
    refused; once the budget was exceeded nothing changes any more. *)
Inductive spec_run : bool → list row → list Statement → list (outcome ()) → list row → Prop :=
| spec_end p vis : spec_run p vis [] [] vis
| spec_poisoned vis st sts r rs vis' :
    out_of_budget r = true → spec_run true vis sts rs vis' → spec_run true vis (st :: sts) (r :: rs) vis'
| spec_applied vis vis1 st sts rs vis' :
    statement_spec cat vis st = Some vis1 → spec_run false vis1 sts rs vis' → spec_run false vis (st :: sts) (Ok () :: rs) vis'
| spec_wrong vis st sts err rs vis' :
    statement_spec cat vis st = None → spec_run (out_of_budget (Err err)) vis sts rs vis' →
    spec_run false vis (st :: sts) (Err err :: rs) vis'
| spec_refused vis vis1 st sts r rs vis' :
    is_Some (statement_spec cat vis st) → refused r → statement_partial vis st vis1 →
    spec_run (out_of_budget r) vis1 sts rs vis' → spec_run false vis (st :: sts) (r :: rs) vis'.

Definition on_table (st : Statement) : Prop := ∃ tbl, statement_table st = Some tbl ∧ fold tbl = fold table.

Lemma on_table_schema t st : txn_ok t → on_table st → ∃ tbl, statement_table st = Some tbl ∧ node_table (catalog t) tbl = Some schema.
Proof.
  intros H (tbl & Hst & Hf). exists tbl. split; [done|]. rewrite <- (tx_schema t H). unfold node_table, find_folded. by rewrite Hf.
Qed.

Lemma execute_poisoned st t (e : E) : poisoned t = true → execute st (t, e) = (Err (BudgetExceeded "{context}"), (t, e)).
Proof. intros Hp. unfold execute. cbn [fst]. by rewrite Hp. Qed.

Lemma execute_poisons st t (e : E) r t' e' :
  is_Some (statement_table st) → poisoned t = false → execute st (t, e) = (r, (t', e')) → poisoned t' = out_of_budget r.
Proof.
  intros Hst Hp. unfold execute. cbn [fst]. rewrite Hp. destruct (execute_transaction st (t, e)) as [r1 [t1 e1]] eqn:Er.
  pose proof (keeps_statement st Hst _ _ _ Er) as Hk. cbn [fst] in Hk. rewrite Hp in Hk. destruct r1 as [[]|[]|]; by intros [= <- <- <-].
Qed.

Lemma run_statements_ok sts : ∀ t e,
  Forall on_table sts → txn_ok t → good e →
  ∃ rs t' e', run_statements sts (t, e) = (rs, (t', e')) ∧ txn_ok t' ∧ good e' ∧ spec_run (poisoned t) (visible_rows t) sts rs (visible_rows t').
Proof.
  induction sts as [|st sts IH]; intros t e Hon H He; [exists [], t, e; split_and!; [done|done|done|constructor]|].
  apply Forall_cons in Hon as [Hst Hon]. cbn [run_statements]. destruct (poisoned t) eqn:Hp.
  { rewrite execute_poisoned by done. destruct (IH t e Hon H He) as (rs & t' & e' & -> & Hok & He' & Hrun). rewrite Hp in Hrun.
    eexists _, t', e'. split_and!; [done|done|done|]. by constructor. }
  destruct (on_table_schema t st H Hst) as (tbl & Htbl & Ht).
  destruct (execute_ok st tbl t e Htbl H He Ht Hp) as (r & t1 & e1 & Hrun1 & Hok1 & He1 & Hres).
  rewrite Hrun1. destruct (IH t1 e1 Hon Hok1 He1) as (rs & t' & e' & -> & Hok & He' & Hrun).
  eexists _, t', e'. split_and!; [done|done|done|]. rewrite (tx_catalog t H) in Hres.
  rewrite (execute_poisons st t e r t1 e1) in Hrun by (by rewrite ?Htbl). destruct (statement_spec cat (visible_rows t) st) as [vis1|] eqn:Es.
  - destruct Hres as [[-> <-]|[Href Hpart]]; [by eapply spec_applied|by eapply spec_refused].
  - destruct Hres as [[err ->] Evis]. apply spec_wrong; [done|]. by rewrite <- Evis.
Qed.
End statements.
