(* ===== verification/Facade.v ===== *)
(** A transaction over the database it runs in.

    [Txn.v] executes statements against the interface [TxnEnv] and [Staging.v]
    proves them correct for every lawful environment; here the environment is
    the real one: the primary-key caches of the pinned state, the memory budget
    and the process-wide overlay indexes, with key resolution by [Lookup.v] and
    [Resolve.v]. *)

From stdpp Require Import gmap sorting.
From S2P Require Import Prelude Bytes Types Schema TxnLog Catalog Overlay View NodeTable Checkpoint Lookup Resolve Txn Staging.

(** ** The environment of a transaction *)

Record Facade (B : Type) := mkFacade {
  (** the registry of primary-key caches of the pinned state *)
  pk_caches : gmap table_name TablePkCache;
  facade_budget : B;
  key_indexes : list OverlayKeyIndex;
}.
Arguments mkFacade {B}.
Arguments pk_caches {B}.
Arguments facade_budget {B}.
Arguments key_indexes {B}.

Section facade.
Context {W : Type} `{GS : !GroupStore W} {B : Type} (w : W) (charge_or_reclaim : Z → B → bool * B) (try_reserve : B → bool * B).
Context (size_of_group size_of_vec : Z).
(** The budget, the page cache and the checkpoint of other states. *)
Context (budget_try : Z → B → bool * B) (budget_release pager_shed : Z → B → B) (budget_checkpoint : B → outcome () * B).
(** The planner and the vector index, which node statements do not use. *)
Context (plan_form : JsonValue → Catalog → outcome JsonValue) (index_build : Catalog → list Z → cat_name → list Z → Z → B → outcome () * B).
(** Which caches are in use while others are shed, and which states are alive. *)
Context (held : table_name → bool * bool) (alive : Z → bool) (state : Z).

Definition on_cache {A} (table : table_name) (m : SM ((TablePkCache * B) * list OverlayKeyIndex) A) (f : Facade B) : outcome A * Facade B :=
  let '(r, ((c, b), indexes)) := m ((default default_pk_cache (pk_caches f !! table), facade_budget f), key_indexes f) in
  (r, mkFacade (<[table := c]> (pk_caches f)) b indexes).

Definition on_budget {A} (m : B → A * B) (f : Facade B) : A * Facade B :=
  let '(a, b) := m (facade_budget f) in (a, mkFacade (pk_caches f) b (key_indexes f)).

Definition shed_all (f : Facade B) : Facade B :=
  mkFacade (map_imap (λ table c, Some (shed_table (held table).1 (held table).2 c)) (pk_caches f)) (facade_budget f) (key_indexes f).

#[local] Instance facade_env : TxnEnv (Facade B) := {
  try_charge n := on_budget (budget_try n);
  release_charge n f := (on_budget (λ b, ((), budget_release n b)) f).2;
  shed_cache n f := (on_budget (λ b, ((), pager_shed n b)) f).2;
  shed_derived := shed_all;
  checkpoint_shared := on_budget budget_checkpoint;
  resolve_row view c table key :=
    on_cache table (in_pk_cache (resolve_node_row w charge_or_reclaim try_reserve size_of_group size_of_vec view c table key));
  resolve_key view c table key := on_cache table (resolve_node_key w charge_or_reclaim try_reserve alive state view c table key);
  canonical_plan := plan_form;
  prepare_index_build c n table column metric := on_budget (index_build c n table column metric);
}.

(** ** It is lawful *)

Context (snap : Catalog) (chain : option CommitLink) (schema : NodeTableSchema) (pk : nat) (parts : list (list row)).

Notation table := (node_name schema).
Notation ids := (stored_groups snap (node_name schema)).

Definition facade_good (f : Facade B) : Prop :=
  cache_ok w schema pk ids parts (default default_pk_cache (pk_caches f !! table)) ∧
  Forall (index_sound state (mkView snap chain None)) (key_indexes f).

Hypothesis Hpk : primary_key_column schema = Ok pk.
Hypothesis Hexact : Forall (λ t, exact_type t = true) (schema_types schema).
Hypothesis Hknown : table_known (mkView snap chain None) schema.
Hypothesis Hnone : node_table snap table = None → parts = [].
Hypothesis Hin : table_in_store w snap schema pk parts.
Hypothesis Hu : in_u 64 (zlen (concat parts)).

Lemma on_budget_good {A} (m : B → A * B) f : facade_good f → facade_good (on_budget m f).2.
Proof. intros H. unfold on_budget. by destruct (m (facade_budget f)). Qed.

Lemma on_cache_run {A} (m : SM ((TablePkCache * B) * list OverlayKeyIndex) A) f r c b indexes :
  m ((default default_pk_cache (pk_caches f !! table), facade_budget f), key_indexes f) = (r, ((c, b), indexes)) →
  cache_ok w schema pk ids parts c → Forall (index_sound state (mkView snap chain None)) indexes →
  ∃ f', on_cache table m f = (r, f') ∧ facade_good f'.
Proof.
  intros Hm Hc Hi. unfold on_cache. rewrite Hm. eexists. split; [done|]. split; [|done]. cbn. by rewrite lookup_insert_eq.
Qed.

Lemma query_value key k : from_query schema pk key = Ok k → key = key_to_value k.
Proof.
  unfold from_query, index. destruct (node_columns schema !! pk) as [c|]; cbn [expect bind]; [|done].
  destruct (ty c), key; try done; by intros [= <-].
Qed.

Lemma query_not_panic key : from_query schema pk key ≠ Panic.
Proof.
  unfold primary_key_column in Hpk. apply ok_or_Ok, fmap_Some in Hpk as ([i c] & Hf & ->). apply list_find_Some in Hf as (Hc & _).
  unfold from_query, index. cbn [fst]. rewrite Hc. cbn [expect bind]. by destruct (ty c), key.
Qed.

#[local] Instance facade_lawful : LawfulEnv facade_good snap chain schema pk (concat parts).
Proof.
  destruct (primary_key_named schema pk Hpk) as [n Hpk'].
  split; try (intros; by apply on_budget_good).
  - intros e [Hc Hi]. split; [|done]. cbn. rewrite map_lookup_imap. destruct (pk_caches e !! table) as [c|]; [|done]. cbn.
    destruct Hc as [H1 H2]. cbn in H1, H2. split; cbn [shed_table cache_index decoded_group].
    + destruct (held table).1; [done|]. by destruct (cache_index c).
    + by destruct (held table).2.
  - intros e c d key [Hc Hi] Hnt Hcat Hv Hnd. cbn [resolve_row facade_env].
    destruct (from_query schema pk key) as [k|err|] eqn:Hq; [| |by destruct (query_not_panic key)].
    + pose proof (query_value key k Hq) as ->.
      destruct (resolve_node_row_ok w charge_or_reclaim try_reserve size_of_group size_of_vec (mkView snap chain (Some d)) c schema pk parts
        (default default_pk_cache (pk_caches e !! table)) (facade_budget e) k) as (c' & b' & Hrun & Hc'); [done..|].
      eapply on_cache_run; [unfold in_pk_cache; by rewrite Hrun|exact Hc'|exact Hi].
    + eapply on_cache_run; [|exact Hc|exact Hi]. unfold in_pk_cache, resolve_node_row, sbind, slift. rewrite Hnt. cbn [ok_or]. by rewrite Hpk', Hq.
  - intros e c d key [Hc Hi] Hnt Hcat Hv Hnd Hslots. cbn [resolve_key facade_env].
    destruct (from_query schema pk key) as [k|err|] eqn:Hq; [| |by destruct (query_not_panic key)].
    + pose proof (query_value key k Hq) as ->.
      destruct (resolve_node_key_ok w charge_or_reclaim try_reserve (mkView snap chain (Some d)) c schema pk parts Hpk Hexact Hnt Hknown Hnone Hcat Hin Hv
        Hnd Hslots alive state (default default_pk_cache (pk_caches e !! table)) (facade_budget e) (key_indexes e) k Hq Hc Hi)
        as (visible & c' & b' & ix' & _ & Hlive & Hc' & Hi' & [(p & y & Hp & Hy & Hrun)|[Hall Hrun]]); cbn [bind].
      * assert (is_Some (key_row pk k (run_ops pk (view_ops (mkView snap chain (Some d)) table) (concat parts)))) as [r ->].
        { apply key_row_is_Some. rewrite <- Hlive, <- Hy. apply (list_elem_of_fmap_2 (λ r, optional_row_pk r pk)). apply elem_of_live_rows. eauto. }
        exists (Z.of_nat p). by eapply on_cache_run.
      * rewrite Hlive in Hall. apply key_row_None in Hall. rewrite Hall. exists 0. by eapply on_cache_run.
    + exists 0. eapply on_cache_run; [|exact Hc|exact Hi]. unfold resolve_node_key, sbind, slift. rewrite Hnt. cbn [ok_or]. by rewrite Hpk', Hq.
Qed.

(** ** From the beginning *)

Lemma stored_fits : Forall (row_fits (schema_types schema)) (concat parts).
Proof.
  destruct Hin as (_ & Hst & _). clear -Hst. induction Hst as [|id p ids parts (_ & g & _ & _ & _ & _ & Hf & _) _ IH]; [constructor|].
  cbn [concat]. by apply Forall_app.
Qed.

Lemma run_ops_fits ops : ∀ t, Forall (op_fits schema) ops → Forall (row_fits (schema_types schema)) t → Forall (row_fits (schema_types schema)) (run_ops pk ops t).
Proof.
  unfold run_ops. induction ops as [|op ops IH]; intros t Hops Ht; [done|]. apply Forall_cons in Hops as [Hop Hops]. cbn [foldl]. apply IH; [done|].
  clear IH. unfold table_op. destruct op as [r|v|r]; cbn in Hop.
  - destruct (optional_row_pk r pk); [|done]. apply Forall_fmap. eapply Forall_impl; [exact Ht|]. intros x Hx. simpl. unfold replace_row. by destruct (decide _).
  - destruct (value_key v); [|done]. rewrite Forall_forall in Ht |- *. intros x [_ Hx]%elem_of_without. auto.
  - apply Forall_app. split; [|by constructor]. destruct (optional_row_pk r pk); [|done]. rewrite Forall_forall in Ht |- *. intros x [_ Hx]%elem_of_without. auto.
Qed.

Lemma new_transaction_ok :
  node_table snap table = Some schema → (∃ c, node_columns schema !! pk = Some c ∧ (ty c = TInt64 ∨ ty c = TString)) →
  valid_history pk (concat parts) (chain_ops chain table) → Forall (op_fits schema) (chain_ops chain table) →
  (∀ slots, physical_slots (mkView snap chain None) schema (concat parts) = Ok slots → zlen slots ≤ 2 ^ 63) →
  txn_ok snap chain schema pk (concat parts) snap (new_transaction snap chain).
Proof.
  intros Hnt Hty Hv Hf Hslots. pose proof Hin as (_ & _ & _ & Hkb).
  assert (view_ops (read_view (new_transaction snap chain)) table = chain_ops chain table) as Ev by (unfold view_ops; cbn; apply app_nil_r).
  split; try done.
  - split; try done; try (by intros ? ?%elem_of_nil); repeat constructor.
  - unfold visible_rows. rewrite Ev. apply run_ops_fits; [done|apply stored_fits].
Qed.
End facade.

(** C1: a transaction refines its statements.  Over a table at rest and a chain
    of valid commits, a new transaction that executes any sequence of insert,
    upsert, update, delete and detach-delete statements on the table, with its
    keys resolved through the caches and its memory granted or refused at will,
    shows after them exactly the rows the abstract table has: each statement
    applies its specification to the rows the earlier ones left, or is wrong and
    changes nothing, or is refused for memory (an upsert then after some of its
    rows); once the budget is exceeded, nothing changes any more.  What the
    transaction sees, before and after, is what the snapshot reader returns. *)
Theorem transaction_refines_statements `{GroupStore W} {B : Type} (w : W) (charge_or_reclaim : Z → B → bool * B) (try_reserve : B → bool * B)
    (size_of_group size_of_vec : Z) (budget_try : Z → B → bool * B) (budget_release pager_shed : Z → B → B) (budget_checkpoint : B → outcome () * B)
    (plan_form : JsonValue → Catalog → outcome JsonValue) (index_build : Catalog → list Z → cat_name → list Z → Z → B → outcome () * B)
    (held : table_name → bool * bool) (alive : Z → bool) (state : Z)
    (snap : Catalog) (chain : option CommitLink) (schema : NodeTableSchema) (pk : nat) (parts : list (list row)) (f : Facade B) (sts : list Statement) :
  primary_key_column schema = Ok pk → Forall (λ t, exact_type t = true) (schema_types schema) →
  (∃ c, node_columns schema !! pk = Some c ∧ (ty c = TInt64 ∨ ty c = TString)) → NoDup (fold ∘ name <$> node_columns schema) →
  node_table snap (node_name schema) = Some schema → table_in_store w snap schema pk parts →
  (∀ slots, physical_slots (mkView snap chain None) schema (concat parts) = Ok slots → zlen slots ≤ 2 ^ 63) →
  valid_history pk (concat parts) (chain_ops chain (node_name schema)) → Forall (op_fits schema) (chain_ops chain (node_name schema)) →
  facade_good w state snap chain schema pk parts f → Forall (on_table schema) sts →
  let env := facade_env w charge_or_reclaim try_reserve size_of_group size_of_vec budget_try budget_release pager_shed budget_checkpoint plan_form index_build held alive state in
  ∃ rs t' f' before after,
    run_statements (TE := env) sts (new_transaction snap chain, f) = (rs, (t', f')) ∧
    node_rows_for_view (mkView snap chain None) schema (concat parts) = Ok before ∧
    node_rows_for_view (read_view t') schema (concat parts) = Ok after ∧
    spec_run (TE := env) schema pk snap false (live_rows before) sts rs (live_rows after) ∧
    facade_good w state snap chain schema pk parts f'.
Proof.
  intros Hpk Hexact Hty Hnames Hnt Hin Hslots Hv Hf Hgood Hon env. pose proof Hin as (_ & _ & _ & Hkb).
  assert (table_known (mkView snap chain None) schema) as Hknown by (by left).
  assert (node_table snap (node_name schema) = None → parts = []) as Hnone by congruence.
  destruct (primary_key_named schema pk Hpk) as [n Hpk'].
  assert (valid_history pk (concat parts) (view_ops (mkView snap chain None) (node_name schema))) as Hv0 by (unfold view_ops; cbn; by rewrite app_nil_r).
  destruct (node_rows_masked (mkView snap chain None) schema pk n (concat parts) Hpk' Hknown Hkb Hv0) as (slots & Hsl & _ & Hread & Hlive).
  assert (in_u 64 (zlen (concat parts))) as Hu.
  { pose proof (Hslots _ Hsl) as Hle. unfold physical_slots in Hsl. destruct (state_node_slots _ _) as [rows| |]; [|done|done]. cbn [bind] in Hsl.
    injection Hsl as <-. unfold in_u, zlen in *. rewrite length_app, length_fmap in Hle. lia. }
  pose proof (new_transaction_ok w snap chain schema pk parts) as Hnew.
  assert (txn_ok snap chain schema pk (concat parts) snap (new_transaction snap chain)) as Hok by (by apply Hnew).
  pose proof (facade_lawful w charge_or_reclaim try_reserve size_of_group size_of_vec budget_try budget_release pager_shed budget_checkpoint plan_form index_build held alive state
    snap chain schema pk parts Hpk Hexact Hknown Hnone Hin Hu) as Hlaw.
  destruct (run_statements_ok (TE := env) (facade_good w state snap chain schema pk parts) snap chain schema pk (concat parts) snap Hnames sts
    (new_transaction snap chain) f Hon Hok Hgood) as (rs & t' & f' & Hrun & Hok' & Hgood' & Hspec).
  destruct (visible_shown snap chain schema pk (concat parts) snap t' Hok') as [_ Hv'].
  assert (table_known (read_view t') schema) as Hknown'.
  { unfold read_view. by rewrite (tx_snap _ _ _ _ _ _ _ Hok'), (tx_chain _ _ _ _ _ _ _ Hok'). }
  destruct (node_rows_view_ok (read_view t') schema pk n (concat parts) Hpk' Hknown' Hkb Hv') as (after & Hafter & Hlive').
  eexists rs, t', f', _, after. split_and!; [exact Hrun|exact Hread|exact Hafter| |exact Hgood'].
  rewrite Hlive, Hlive'. exact Hspec.
Qed.

(** Insert key 5, insert a key that exists, update it, delete key 1, upsert
    keys 4 and 6. *)
Definition ex_statements : list Statement :=
  [InsertNode ex_table [ex_row 5 50]; InsertNode ex_table [ex_row 2 99]; UpdateNode ex_table [mkSet [118] (Int64 51)] [105; 100] (Int64 5);
   DeleteNode ex_table [105; 100] (Int64 1); UpsertNode ex_table [ex_row 4 41; ex_row 6 60]].

Lemma transaction_refines_statements_witness :
  let env := facade_env ex_store ex_charge ex_reserve 100 24 ex_charge (λ _ b, b) (λ _ b, b) (λ b, (Ok (), b)) (λ p _, Ok p) (λ _ _ _ _ _ b, (Ok (), b)) (λ _, (false, false)) (λ _, true) 7 in
  (let '(rs, (t', f')) := run_statements (TE := env) ex_statements (new_transaction ex_catalog ex_chain, mkFacade ∅ 100000 []) in
   (out_of_budget <$> rs, (λ m, match m with Ok _ => true | _ => false end) <$> rs) = ([false; false; false; false; false], [true; false; true; true; true]) ∧
   (λ l, live_rows l) <$> to_option (node_rows_for_view (read_view t') ex_schema ex_base) = Some [ex_row 2 22; ex_row 4 41; ex_row 5 51; ex_row 6 60]) ∧
  ∃ rs t' f' before after,
    run_statements (TE := env) ex_statements (new_transaction ex_catalog ex_chain, mkFacade ∅ 100000 []) = (rs, (t', f')) ∧
    node_rows_for_view (mkView ex_catalog ex_chain None) ex_schema (concat [ex_base]) = Ok before ∧
    node_rows_for_view (read_view t') ex_schema (concat [ex_base]) = Ok after ∧
    spec_run (TE := env) ex_schema 0 ex_catalog false (live_rows before) ex_statements rs (live_rows after) ∧
    facade_good ex_store 7 ex_catalog ex_chain ex_schema 0 [ex_base] f'.
Proof.
  split; [vm_compute; split; reflexivity|].
  apply (transaction_refines_statements ex_store ex_charge ex_reserve 100 24 ex_charge (λ _ b, b) (λ _ b, b) (λ b, (Ok (), b)) (λ p _, Ok p) (λ _ _ _ _ _ b, (Ok (), b)) (λ _, (false, false))
    (λ _, true) 7 ex_catalog ex_chain ex_schema 0 [ex_base] (mkFacade ∅ 100000 []) ex_statements).
  - vm_compute. reflexivity.
  - repeat constructor.
  - eexists. split; [vm_compute; reflexivity|by left].
  - apply (bool_decide_unpack _). vm_compute. exact I.
  - vm_compute. reflexivity.
  - exact ex_in_store.
  - intros slots E. vm_compute in E. injection E as <-. vm_compute. congruence.
  - apply (bool_decide_unpack _). vm_compute. exact I.
  - repeat constructor.
  - split; [split; [exact I|by intros ? ? [=]]|constructor].
  - repeat constructor; eexists; (split; [reflexivity|reflexivity]).
Defined.
