(* ===== verification/Commit.v ===== *)
(** Committing a transaction: [devondb/src/database/commit.rs] from the conflict
    check to the published state, with the summaries and byte estimates of
    [devondb-storage/src/overlay.rs].

    A commit is refused when a transaction that committed after the snapshot
    was taken wrote one of the same keys, detached a node an edge was inserted
    at (or the other way round), or created one of the same tables.  What
    survives is turned into one delta, made durable as one group of log records
    and linked in front of the chain.  What a commit does to vector indexes is
    left to the environment. *)

From stdpp Require Import gmap sorting.
From S2P Require Import Prelude Bytes Superblock Wal Types Schema TxnLog Catalog Overlay View NodeTable Checkpoint Lookup Txn.


(** ** Summaries *)

Notation claims := (gmap table_name (list Value)).

Record CommitSummary := mkSummary {
  sum_inserted : claims;
  sum_dml : claims;
  sum_detach : claims;
  sum_endpoints : claims;
  created_tables : list table_name;
}.

Record PublishedState := mkPublished {
  pub_catalog : Catalog;
  pub_chain : option CommitLink;
  last_commit_lsn : Z;
  catalog_generation : Z;
  (** the newest entry last *)
  recent_summaries : list (Z * CommitSummary);
}.

Definition ddl_name (d : DdlOp) : table_name :=
  match d with TxnLog.CreateNodeTable schema => node_name schema | TxnLog.CreateRelTable schema => rel_name schema end.

(** [keys.contains(..)] then [keys.push(..)] in the entry of [table]. *)
Definition claim_key (m : claims) (table : table_name) (key : Value) : claims :=
  <[table := push_unique (default [] (m !! table)) key]> m.

(** The updates of one table; [dml_pks.entry(table).or_default()] comes before
    the rows. *)
Definition claim_updates (c : Catalog) (dml : claims) (entry : table_name * list row) : outcome claims :=
  let '(table, rows) := entry in
  let! schema := ok_or (node_table c table) (Corrupt "DML write set names unknown node table `{table}`") in
  let! (key_index, _) := primary_key_of schema in
  for_each rows (<[table := default [] (dml !! table)]> dml) (λ dml r,
    let! key := ok_or (r !! key_index) (Corrupt "staged update lost its primary-key value") in
    Ok (claim_key dml table key)).

Definition dml_pks_from_writes (c : Catalog) (w : WriteSet) : outcome claims :=
  for_each (btree_iter (w_updates w)) (w_deletes w) (claim_updates c).

Definition detach_pks_from_writes (w : WriteSet) : claims :=
  foldl (λ m intent, claim_key m (detach_table intent) (detach_key intent)) ∅ (detaches w).

(** [seen] holds the claims already made. *)
Definition push_unique_claim (s : claims * gset (table_name * PkKey)) (table : table_name) (key : Value) :
    outcome (claims * gset (table_name * PkKey)) :=
  let '(m, seen) := s in
  let! claim := match key with
    | Int64 value => Ok (PkInt64 value)
    | String value => Ok (PkString value)
    | _ => Err (Corrupt "relationship endpoint claim for node table `{table}` has invalid primary key {other}")
    end in
  if bool_decide ((table, claim) ∈ seen) then Ok (m, seen) else Ok (push_entry m table key, {[(table, claim)]} ∪ seen).

Definition edge_endpoint_pks_from_writes (c : Catalog) (w : WriteSet) : outcome claims :=
  let! (m, _) := for_each (btree_iter (w_edges w)) (∅, ∅) (λ s '(rel, edges),
    let! schema := ok_or (rel_table c rel) (Corrupt "relationship write set names unknown table `{rel}` while deriving conflict claims") in
    for_each edges s (λ s e,
      let! s := push_unique_claim s (rel_from schema) (from_key e) in
      push_unique_claim s (rel_to schema) (to_key e))) in
  Ok m.

Definition summary_from_writes (c : Catalog) (w : WriteSet) : outcome CommitSummary :=
  let! dml := dml_pks_from_writes c w in
  let! endpoints := edge_endpoint_pks_from_writes c w in
  Ok (mkSummary (inserted_pks w) dml (detach_pks_from_writes w) endpoints (ddl_name <$> w_ddl w)).

(** ** Conflicts *)

Definition has_claim (m : claims) (table : table_name) (key : Value) : bool := bool_decide (key ∈ table_rows m table).

Definition conflicting_key (summary : CommitSummary) (table : table_name) (keys : list Value) : option Value :=
  snd <$> list_find (λ key, has_claim (sum_inserted summary) table key || has_claim (sum_dml summary) table key = true) keys.

Fixpoint first_some {A B} (f : A → option B) (l : list A) : option B :=
  match l with [] => None | x :: l => match f x with Some y => Some y | None => first_some f l end end.

Definition asymmetric_conflict (ours committed : claims) : option (table_name * Value) :=
  first_some (λ '(table, keys), pair table ∘ snd <$> list_find (λ key, has_claim committed table key = true) keys) (btree_iter ours).

Definition write_conflict (inserted : bool) : DevonError :=
  TransactionConflict (if inserted then "node table `{table}` primary key {key} was inserted by a concurrent transaction (committed at LSN {commit_lsn})"
    else "node table `{table}` primary key {key} was written by a concurrent transaction (committed at LSN {commit_lsn})").

(** One round of the loop of [detect_conflict]. *)
Definition check_summary (w : WriteSet) (dml detach endpoints : claims) (summary : CommitSummary) : outcome () :=
  match first_some (λ '(table, keys), pair table <$> conflicting_key summary table keys) (btree_iter (inserted_pks w) ++ btree_iter dml) with
  | Some (table, key) => Err (write_conflict (has_claim (inserted_pks w) table key && has_claim (sum_inserted summary) table key))
  | None =>
      match (match asymmetric_conflict detach (sum_endpoints summary) with
        | Some c => Some c
        | None => asymmetric_conflict endpoints (sum_detach summary)
        end) with
      | Some _ => Err (TransactionConflict "node table `{table}` primary key {key} was touched by a concurrent detach/incident-edge insert (committed at LSN {commit_lsn})")
      | None =>
          if existsb (λ d, existsb (λ created, bool_decide (fold created = fold (ddl_name d))) (created_tables summary)) (w_ddl w)
          then Err (TransactionConflict "table `{name}` was created by a concurrent transaction (committed at LSN {commit_lsn})") else Ok ()
      end
  end.

(** Newest first, up to the first summary the snapshot has seen. *)
Fixpoint check_summaries (snapshot_lsn : Z) (w : WriteSet) (dml detach endpoints : claims) (newest_first : list (Z * CommitSummary)) : outcome () :=
  match newest_first with
  | [] => Ok ()
  | (commit_lsn, summary) :: older =>
      if commit_lsn <=? snapshot_lsn then Ok () else
      let! _ := check_summary w dml detach endpoints summary in
      check_summaries snapshot_lsn w dml detach endpoints older
  end.

(** [snapshot_lsn] is [transaction.state.last_commit_lsn]. *)
Definition detect_conflict (current : PublishedState) (snapshot_lsn : Z) (t : Transaction) : outcome () :=
  let! dml := dml_pks_from_writes (catalog t) (writes t) in
  let detach := detach_pks_from_writes (writes t) in
  let! endpoints := edge_endpoint_pks_from_writes (catalog t) (writes t) in
  check_summaries snapshot_lsn (writes t) dml detach endpoints (reverse (recent_summaries current)).

(** ** Byte estimates *)

Definition COMMIT_LINK_OVERHEAD_BYTES : Z := 128.
Definition COMMIT_DELTA_OVERHEAD_BYTES : Z := 96.
Definition COMMIT_SUMMARY_OVERHEAD_BYTES : Z := 96.
Definition SUMMARY_TABLE_NAME_OVERHEAD_BYTES : Z := 24.

Definition commit_overflow : DevonError := BudgetExceeded "committed overlay byte estimate exceeds usize::MAX".

Definition checked_estimate (total bytes : Z) : outcome Z := ok_or (try_u 64 (total + bytes)) commit_overflow.

Definition estimate_all (total : Z) (values : list Value) : outcome Z :=
  for_each values total (λ total v, checked_estimate total (approx_bytes v)).

(** The entries of a map, each with its overhead and name. *)
Definition estimate_entries {A} (m : gmap table_name A) (total : Z) (body : Z → A → outcome Z) : outcome Z :=
  for_each (btree_iter m) total (λ total '(table, x),
    let! total := checked_estimate total MAP_ENTRY_OVERHEAD_BYTES in
    let! total := checked_estimate total (zlen table) in
    body total x).

Definition estimate_node_rows (total : Z) (m : gmap table_name (list row)) : outcome Z :=
  estimate_entries m total (λ total rows, for_each rows total (λ total r,
    let! total := checked_estimate total ROW_OVERHEAD_BYTES in estimate_all total r)).

Definition estimate_edges (total : Z) (m : gmap table_name (list OverlayEdge)) : outcome Z :=
  estimate_entries m total (λ total es, for_each es total (λ total e,
    let! total := checked_estimate total OVERLAY_EDGE_OVERHEAD_BYTES in estimate_all total (edge_values e))).

Definition tombstones_estimated_bytes (ts : RelEndpointTombstones) : outcome Z :=
  let! offsets := ok_or (try_u 64 (Z.of_nat (size (from_offsets ts)) + Z.of_nat (size (to_offsets ts)))) commit_overflow in
  let! bytes := ok_or (try_u 64 (offsets * REL_TOMBSTONE_OFFSET_OVERHEAD_BYTES)) commit_overflow in
  checked_estimate REL_ENDPOINT_TOMBSTONES_OVERHEAD_BYTES bytes.

Definition estimate_rel_tombstones (total : Z) (m : gmap table_name RelEndpointTombstones) : outcome Z :=
  estimate_entries m total (λ total ts, let! bytes := tombstones_estimated_bytes ts in checked_estimate total bytes).

Definition estimate_schema_columns (total : Z) (columns : list Column) : outcome Z :=
  for_each columns total (λ total c,
    let! total := checked_estimate total SCHEMA_COLUMN_OVERHEAD_BYTES in checked_estimate total (zlen (name c))).

Definition estimate_ddl (total : Z) (d : DdlOp) : outcome Z :=
  match d with
  | TxnLog.CreateNodeTable schema =>
      let! total := checked_estimate total (zlen (node_name schema)) in
      estimate_schema_columns total (node_columns schema)
  | TxnLog.CreateRelTable schema =>
      let! total := checked_estimate total (zlen (rel_name schema)) in
      let! total := checked_estimate total (zlen (rel_from schema)) in
      let! total := checked_estimate total (zlen (rel_to schema)) in
      estimate_schema_columns total (rel_columns schema)
  end.

Definition delta_estimated_bytes (d : CommitDelta) : outcome Z :=
  let! total := estimate_node_rows COMMIT_DELTA_OVERHEAD_BYTES (nodes d) in
  let! total := estimate_node_rows total (node_updates d) in
  let! total := estimate_entries (node_deletes d) total estimate_all in
  let! total := estimate_edges total (edges d) in
  let! total := estimate_rel_tombstones total (rel_tombstones d) in
  for_each (ddl d) total (λ total op, let! total := checked_estimate total DDL_OP_OVERHEAD_BYTES in estimate_ddl total op).

Definition summary_estimated_bytes (s : CommitSummary) : outcome Z :=
  let! total := estimate_entries (sum_inserted s) COMMIT_SUMMARY_OVERHEAD_BYTES estimate_all in
  let! total := estimate_entries (sum_dml s) total estimate_all in
  let! total := estimate_entries (sum_detach s) total estimate_all in
  let! total := estimate_entries (sum_endpoints s) total estimate_all in
  for_each (created_tables s) total (λ total table,
    let! total := checked_estimate total SUMMARY_TABLE_NAME_OVERHEAD_BYTES in checked_estimate total (zlen table)).

(** ** The delta of a commit *)

Notation RelDeleteClaim := (RelEndpoint * Z)%type.
Notation RelDeleteRecords := (gmap table_name (list (RelEndpoint * Z))).

Definition validate_ddl_interface_collisions (c : Catalog) (ddl : list DdlOp) : outcome () :=
  for_each ddl () (λ _ d, match d with TxnLog.CreateNodeTable schema => reject_interface_collision_for_node c (node_name schema) | _ => Ok () end).

Definition apply_ddl_to_catalog (c : Catalog) (ddl : list DdlOp) : outcome Catalog :=
  for_each ddl c (λ c d,
    match d with
    | TxnLog.CreateNodeTable schema =>
        let! _ := reject_interface_collision_for_node c (node_name schema) in add_node_table c schema
    | TxnLog.CreateRelTable schema => add_rel_table c schema
    end).

Definition validate_commit_dml_refusals (c : Catalog) (w : WriteSet) : outcome () :=
  let! _ := for_each ((btree_iter (w_updates w)).*1 ++ (btree_iter (w_deletes w)).*1) () (λ _ table,
    let! _ := ok_or (node_table c table) (Corrupt "DML write set names unknown node table `{table}`") in Ok ()) in
  for_each (btree_iter (w_deletes w)).*1 () (λ _ table,
    let! schema := ok_or (node_table c table) (Corrupt "delete write set names unknown node table `{table}`") in
    if existsb (λ intent, bool_decide (fold (detach_table intent) = fold table)) (detaches w) then Ok ()
    else reject_referenced_delete c schema).

(** [claims] and [seen] of one relationship table. *)
Definition append_rel_delete_claim (claimed : list RelDeleteClaim) (endpoint_table detached_table : table_name) (endpoint : RelEndpoint)
    (offset : Z) : list RelDeleteClaim :=
  if bool_decide (fold endpoint_table = fold detached_table) && negb (bool_decide ((endpoint, offset) ∈ claimed))
  then claimed ++ [(endpoint, offset)] else claimed.

Definition rel_tombstones_from_records (records : RelDeleteRecords) : gmap table_name RelEndpointTombstones :=
  (λ claimed, foldl (λ roles '(endpoint, offset),
    match endpoint with
    | From => mkTombstones ({[offset]} ∪ from_offsets roles) (to_offsets roles)
    | To => mkTombstones (from_offsets roles) ({[offset]} ∪ to_offsets roles)
    end) no_tombstones claimed) <$> records.

Definition wal_records (d : CommitDelta) (records : RelDeleteRecords) : list WalPayload :=
  (Ddl <$> ddl d) ++
  (btree_iter (nodes d) ≫= λ '(table, rows), NodeInsert table <$> rows) ++
  (btree_iter (edges d) ≫= λ '(rel, es), (λ e, RelInsert rel (edge_from e) (edge_to e) (edge_values e)) <$> es) ++
  (btree_iter (node_updates d) ≫= λ '(table, rows), NodeUpdate table <$> rows) ++
  (btree_iter records ≫= λ '(rel, claimed), (λ '(endpoint, offset), RelDelete rel endpoint offset) <$> claimed) ++
  (btree_iter (node_deletes d) ≫= λ '(table, keys), NodeDelete table <$> keys).

Definition summary_from_delta (c : Catalog) (d : CommitDelta) : outcome CommitSummary :=
  let! inserted := for_each (btree_iter (nodes d)) ∅ (λ inserted '(table, rows),
    let! schema := ok_or (node_table c table) (Corrupt "committed delta names unknown node table `{table}`") in
    let! (key_index, _) := primary_key_of schema in
    let! keys := collect (λ r, ok_or (r !! key_index) (Corrupt "committed row lost its primary-key value")) rows in
    Ok (<[table := keys]> inserted)) in
  let! dml := for_each (btree_iter (node_updates d)) (node_deletes d) (λ dml '(table, rows),
    let! schema := ok_or (node_table c table) (Corrupt "committed delta names unknown node table `{table}`") in
    let! (key_index, _) := primary_key_of schema in
    for_each rows (<[table := default [] (dml !! table)]> dml) (λ dml r,
      let! key := ok_or (r !! key_index) (Corrupt "committed update lost its primary-key value") in
      Ok (claim_key dml table key))) in
  Ok (mkSummary inserted dml ∅ ∅ (ddl_name <$> ddl d)).

Definition prune_recent_summaries (summaries : list (Z * CommitSummary)) (minimum_snapshot_lsn : Z) : list (Z * CommitSummary) :=
  filter (λ s, minimum_snapshot_lsn <? s.1 = true) summaries.


(** [write_txns.values().min()]. *)
Definition minimum_lsn (lsns : list Z) : option Z :=
  match lsns with [] => None | lsn :: lsns => Some (foldl Z.min lsn lsns) end.

(** Without an open write transaction nothing can conflict any more. *)
Definition retained_summaries (write_txns : list Z) (state : PublishedState) : list (Z * CommitSummary) :=
  match minimum_lsn write_txns with Some minimum => prune_recent_summaries (recent_summaries state) minimum | None => [] end.

(** What [checkpoint_locked] publishes, [materialized] being the catalog it has
    saved. *)
Definition checkpoint_published (write_txns : list Z) (materialized : Catalog) (current : PublishedState) : PublishedState :=
  let recent := retained_summaries write_txns current in
  match pub_chain current with
  | None =>
      if (length recent =? length (recent_summaries current))%nat then current
      else mkPublished (pub_catalog current) None (last_commit_lsn current) (catalog_generation current) recent
  | Some _ => mkPublished materialized None (last_commit_lsn current) (last_commit_lsn current) recent
  end.

(** ** The commit pipe *)

(** The log writer, taken down while a checkpoint rotates the log, and what the
    next writes to the file do. *)
Record CommitPipe := mkPipe { pipe_wal : option WalWriter; write_faults : list WriteFault }.

(** What a commit calls outside the components modelled here. *)
Class CommitEnv (E : Type) := {
  budget_limit : E → Z;
  (** [wal.sync()] *)
  sync_wal : E → outcome () * E;
  (** [pager.superblock().feature_flags], [pager.commit_feature_flags] *)
  feature_flags : E → Z;
  commit_feature_flags : Z → E → outcome () * E;
  (** the derived vector-index part of the delta *)
  propose_commit_deltas : PublishedState → Catalog → CommitDelta → E → outcome () * E;
  (** [checkpoint_locked]: what it publishes *)
  checkpoint_locked : PublishedState * CommitPipe → E → outcome () * ((PublishedState * CommitPipe) * E);
}.

Record PreparedCommit := mkPrepared {
  prepared_catalog : Catalog;
  prepared_delta : CommitDelta;
  rel_delete_records : RelDeleteRecords;
  prepared_summary : CommitSummary;
}.

Record CommitReservation := mkReservation { link_bytes : Z; summary_bytes : Z }.

Definition smap_err {S A} (f : DevonError → DevonError) (m : SM S A) : SM S A := λ s, let '(r, s) := m s in (map_err f r, s).

Definition endpoint_stopped (error : DevonError) : DevonError :=
  match error with NotFound _ => Corrupt "relationship endpoint stopped resolving at commit: {error}" | other => other end.

Definition detach_stopped (error : DevonError) : DevonError :=
  match error with NotFound _ => Corrupt "detach target `{}` primary key {} stopped resolving at commit" | other => other end.

Definition folded_map_get {V} (m : gmap table_name V) (n : table_name) : option V :=
  snd <$> find_folded fst (btree_iter m) n.

Definition nonempty {A} (l : option (list A)) : bool := match l with Some (_ :: _) => true | _ => false end.

Definition delta_mutates_table (d : CommitDelta) (table : table_name) : bool :=
  nonempty (folded_map_get (node_updates d) table) || nonempty (folded_map_get (node_deletes d) table).

Definition delta_mutates_indexed_table (c : Catalog) (d : CommitDelta) : bool :=
  existsb (λ entry, delta_mutates_table d (index_table entry)) (indexes c).

Section commit.
Context `{Crc : !Crc32c} `{SJ : !SerdeJson} {E : Type} `{TE : !TxnEnv E} `{CE : !CommitEnv E}.

Definition resolve_edges_for_view (state : PublishedState) (c : Catalog) (own : CommitDelta) (pending : gmap table_name (list PendingEdge)) :
    SM E (gmap table_name (list OverlayEdge)) :=
  let view := mkView (pub_catalog state) (pub_chain state) (Some own) in
  sfor (btree_iter pending) ∅ (λ resolved '(table, es),
    let+ schema := slift (ok_or (rel_table c table) (Corrupt "write set names unknown relationship table `{table}`")) in
    let+ table_edges := sfor es [] (λ acc e,
      let+ from := resolve_key view c (rel_from schema) (from_key e) in
      let+ to := resolve_key view c (rel_to schema) (to_key e) in
      sret (acc ++ [mkEdge from to (pending_values e)])) in
    sret (<[table := table_edges]> resolved)).

(** The claims of one relationship table. *)
Definition rel_delete_claims (rel : RelTableSchema) (resolved : list (PendingDetach * Z)) : list RelDeleteClaim :=
  foldl (λ claimed '(intent, offset),
    append_rel_delete_claim (append_rel_delete_claim claimed (rel_from rel) (detach_table intent) From offset)
      (rel_to rel) (detach_table intent) To offset) [] resolved.

Definition resolve_detaches_for_commit (state : PublishedState) (c : Catalog) (own : CommitDelta) (ds : list PendingDetach) : SM E RelDeleteRecords :=
  match ds with
  | [] => sret ∅
  | _ =>
      let view := mkView (pub_catalog state) (pub_chain state) (Some (mkDelta ∅ (node_updates own) ∅ (edges own) ∅ (ddl own))) in
      let+ resolved := sfor ds [] (λ acc intent,
        let+ offset := smap_err detach_stopped (resolve_key view c (detach_table intent) (detach_key intent)) in
        sret (acc ++ [(intent, offset)])) in
      sret (foldl (λ records rel,
        match rel_delete_claims rel resolved with [] => records | claimed => <[rel_name rel := claimed]> records end) ∅ (rel_tables c))
  end.

(** The delta here is the part for nodes, relationships and DDL.  The mutations
    of vector indexes that [propose_commit_deltas] derives from it, and the
    fields of the delta and of the log that carry them, are not modelled: the
    call is a step of the environment that may fail. *)
Definition build_commit_delta (current : PublishedState) (c : Catalog) (w : WriteSet) : SM E (CommitDelta * RelDeleteRecords) :=
  let d := mkDelta (w_nodes w) (w_updates w) (w_deletes w) ∅ ∅ (w_ddl w) in
  let+ es := smap_err endpoint_stopped (resolve_edges_for_view current c d (w_edges w)) in
  let d := mkDelta (w_nodes w) (w_updates w) (w_deletes w) es ∅ (w_ddl w) in
  let+ records := resolve_detaches_for_commit current c d (detaches w) in
  let d := mkDelta (w_nodes w) (w_updates w) (w_deletes w) es (rel_tombstones_from_records records) (w_ddl w) in
  let+ _ := propose_commit_deltas current c d in
  sret (d, records).

(** [snapshot_lsn] is [transaction.state.last_commit_lsn]. *)
Definition prepare_commit (current : PublishedState) (snapshot_lsn : Z) (t : Transaction) : SM E PreparedCommit :=
  let+ _ := slift (detect_conflict current snapshot_lsn t) in
  let+ _ := slift (validate_ddl_interface_collisions (pub_catalog current) (w_ddl (writes t))) in
  let+ c := slift (map_err (λ _, Corrupt "validated transaction DDL became invalid: {error}") (apply_ddl_to_catalog (pub_catalog current) (w_ddl (writes t)))) in
  let+ _ := slift (validate_commit_dml_refusals c (writes t)) in
  let+ (d, records) := build_commit_delta current c (writes t) in
  let+ summary := slift (summary_from_writes c (writes t)) in
  sret (mkPrepared c d records summary).

(** The charge of the write set becomes the reservation. *)
Definition transfer_commit_charge (d : CommitDelta) (summary : CommitSummary) : SM (WriteSet * E) CommitReservation :=
  let+ bytes := slift (delta_estimated_bytes d) in
  let+ link := slift (checked_estimate COMMIT_LINK_OVERHEAD_BYTES bytes) in
  let+ sum := slift (summary_estimated_bytes summary) in
  let+ requested := slift (ok_or (try_u 64 (link + sum)) (BudgetExceeded "commit publication byte estimate exceeds usize::MAX")) in
  λ s, let '(w, e) := s in
    let '(granted, e) := if w_charged w <? requested then try_charge (requested - w_charged w) e else (true, e) in
    if (granted : bool)
    then (Ok (mkReservation link sum),
          (with_charged w 0, if requested <? w_charged w then release_charge (w_charged w - requested) e else e))
    else (Err (BudgetExceeded "commit publication requested {requested} bytes with {} write-set bytes reserved, {} bytes charged, and limit {}"), (w, e)).

Definition set_wal_feature_flags (has_dml has_rel_tombstones has_hnsw_mutations : bool) : SM E () := λ e,
  let flags := feature_flags e in
  let required := Z.lor (Z.lor (if has_dml then DML_WAL_FLAG else 0) (if has_rel_tombstones then REL_TOMBSTONE_WAL_FLAG else 0))
    (if has_hnsw_mutations then HNSW_MUTATION_WAL_FLAG else 0) in
  if Z.land flags required =? required then (Ok (), e) else commit_feature_flags (Z.lor flags required) e.

(** [pipe.writer()]. *)
Definition no_writer : DevonError :=
  ReadOnly "no usable WAL writer: the database is read-only, or a checkpoint failed while rotating the WAL — reopen the database to recover".

(** The records one after the other; the LSN of the last. *)
Fixpoint append_records (w : WalWriter) (faults : list WriteFault) (lsn : option Z) (payloads : list (list Z)) :
    outcome (option Z) * (WalWriter * list WriteFault) :=
  match payloads with
  | [] => (Ok lsn, (w, faults))
  | payload :: payloads =>
      match Wal.append (default NoFault (head faults)) payload w with
      | (Ok lsn, w) => append_records w (tail faults) (Some lsn) payloads
      | (Err e, w) => (Err e, (w, tail faults))
      | (Panic, w) => (Panic, (w, tail faults))
      end
  end.

(** The closure [durable]: the LSN of the commit record. *)
Definition make_durable (records : list WalPayload) (has_dml has_rel_tombstones has_hnsw_mutations : bool) : SM (CommitPipe * E) Z :=
  let+ encoded := slift (encode_transaction records) in
  λ s, let '(pipe, e) := s in
    match pipe_wal pipe with
    | None => (Err no_writer, s)
    | Some w =>
        match set_wal_feature_flags has_dml has_rel_tombstones has_hnsw_mutations e with
        | (Ok _, e) =>
            let '(r, (w, faults)) := append_records w (write_faults pipe) None encoded in
            let pipe := mkPipe (Some w) faults in
            match r with
            | Ok lsn =>
                match sync_wal e with
                | (Ok _, e) => (ok_or lsn (Corrupt "non-empty transaction encoded no commit record"), (pipe, e))
                | (Err err, e) => (Err err, (pipe, e))
                | (Panic, e) => (Panic, (pipe, e))
                end
            | Err err => (Err err, (pipe, e))
            | Panic => (Panic, (pipe, e))
            end
        | (Err err, e) => (Err err, (pipe, e))
        | (Panic, e) => (Panic, (pipe, e))
        end
    end.

Definition next_published (current : PublishedState) (p : PreparedCommit) (commit_lsn bytes : Z) : PublishedState :=
  mkPublished (prepared_catalog p) (Some (mkLink (pub_chain current) commit_lsn (prepared_delta p) bytes)) commit_lsn (catalog_generation current)
    (recent_summaries current ++ [(commit_lsn, prepared_summary p)]).

(** Every error gives the reservation back: the summary's share first once the
    summary owns it. *)
Definition publish_prepared_commit (current : PublishedState) (p : PreparedCommit) (r : CommitReservation) : SM (CommitPipe * E) PublishedState := λ s,
  let d := prepared_delta p in
  match summary_estimated_bytes (prepared_summary p) with
  | Ok estimated =>
      if negb (estimated =? summary_bytes r)
      then (Err (InvalidArgument "commit summary reservation of {reserved_bytes} bytes does not match the estimate of {estimated_bytes} bytes"),
            (s.1, release_charge (Z.min (link_bytes r + summary_bytes r) (2 ^ 64 - 1)) s.2))
      else
      let m : SM (CommitPipe * E) Z :=
        let+ bytes := slift (delta_estimated_bytes d) in
        let+ link := slift (ok_or (try_u 64 (COMMIT_LINK_OVERHEAD_BYTES + bytes)) (Corrupt "commit link estimate overflows usize")) in
        if negb (link =? link_bytes r)
        then slift (Err (InvalidArgument "commit reservation of {} bytes does not match the link estimate of {link_bytes} bytes"))
        else make_durable (wal_records d (rel_delete_records p))
          (negb (bool_decide (node_updates d = ∅)) || negb (bool_decide (node_deletes d = ∅)))
          (negb (bool_decide (rel_delete_records p = ∅))) (delta_mutates_indexed_table (prepared_catalog p) d) in
      match m s with
      | (Ok commit_lsn, s) => (Ok (next_published current p commit_lsn (link_bytes r)), s)
      | (Err e, s) => (Err e, (s.1, release_charge (link_bytes r) (release_charge (summary_bytes r) s.2)))
      | (Panic, s) => (Panic, s)
      end
  | Err e => (Err e, (s.1, release_charge (Z.min (link_bytes r + summary_bytes r) (2 ^ 64 - 1)) s.2))
  | Panic => (Panic, s)
  end.

(** What the committing thread holds. *)
Record CommitState := mkCommitState { published : PublishedState; pipe : CommitPipe; committing : Transaction; env : E }.

Definition prepare (snapshot_lsn : Z) : SM CommitState PreparedCommit := λ s,
  let '(r, e) := prepare_commit (published s) snapshot_lsn (committing s) (env s) in (r, mkCommitState (published s) (pipe s) (committing s) e).

Definition transfer (p : PreparedCommit) : SM CommitState CommitReservation := λ s,
  let '(r, (w, e)) := transfer_commit_charge (prepared_delta p) (prepared_summary p) (writes (committing s), env s) in
  (r, mkCommitState (published s) (pipe s) (with_writes (committing s) w) e).

Definition publish_commit (p : PreparedCommit) (r : CommitReservation) : SM CommitState () := λ s,
  match publish_prepared_commit (published s) p r (pipe s, env s) with
  | (Ok next, (pipe, e)) => (Ok (), mkCommitState next pipe (committing s) e)
  | (Err err, (pipe, e)) => (Err err, mkCommitState (published s) pipe (committing s) e)
  | (Panic, (pipe, e)) => (Panic, mkCommitState (published s) pipe (committing s) e)
  end.

(** [shed_cache], [checkpoint_locked], [shed_cache]. *)
Definition relieve : SM CommitState () := λ s,
  let e := shed_cache (budget_limit (env s)) (env s) in
  match checkpoint_locked (published s, pipe s) e with
  | (Ok _, ((p, pipe), e)) => (Ok (), mkCommitState p pipe (committing s) (shed_cache (budget_limit e) e))
  | (Err err, ((p, pipe), e)) => (Err err, mkCommitState p pipe (committing s) e)
  | (Panic, ((p, pipe), e)) => (Panic, mkCommitState p pipe (committing s) e)
  end.

(** One attempt: prepare, reserve, publish. *)
Definition attempt (snapshot_lsn : Z) : SM CommitState () :=
  let+ p := prepare snapshot_lsn in
  let+ r := transfer p in
  publish_commit p r.

(** A reservation the budget refuses is tried once more after a checkpoint. *)
Definition commit_locked (snapshot_lsn : Z) : SM CommitState () :=
  let+ p := prepare snapshot_lsn in
  λ s, match transfer p s with
  | (Ok r, s) => publish_commit p r s
  | (Err (BudgetExceeded _), s) =>
      (let+ _ := relieve in attempt snapshot_lsn) s
  | (Err err, s) => (Err err, s)
  | (Panic, s) => (Panic, s)
  end.
End commit.
