(* ===== verification/Isolation.v ===== *)
(** Snapshot isolation: the proofs about [Commit.v].

    A system of write transactions, commits and checkpoints is a step relation
    over the published state.  Its invariant is that every commit since the
    snapshot of an open transaction is still recorded in a summary that claims
    all its keys; the conflict check therefore sees every overlap. *)

From stdpp Require Import gmap sorting.
From S2P Require Import Prelude Bytes Superblock Wal Types Schema TxnLog Catalog Overlay View NodeTable Checkpoint Lookup Txn Staging Commit.

(** ** What the claims say *)

Lemma has_claim_true m table key : has_claim m table key = true ↔ key ∈ table_rows m table.
Proof. apply bool_decide_eq_true. Qed.

Lemma rows_in_iter {A} (m : gmap table_name (list A)) table x :
  x ∈ table_rows m table → ∃ l, (table, l) ∈ btree_iter m ∧ x ∈ l.
Proof.
  unfold table_rows. destruct (m !! table) as [l|] eqn:El; cbn; [|by intros ?%elem_of_nil]. intros Hx. exists l.
  split; [by apply elem_of_btree_iter|done].
Qed.

Lemma first_some_None {A B} (f : A → option B) l : first_some f l = None ↔ Forall (λ x, f x = None) l.
Proof.
  induction l as [|x l IH]; [done|]. cbn [first_some]. rewrite Forall_cons, <- IH. destruct (f x); naive_solver.
Qed.

Lemma claim_key_rows m table key table' v :
  v ∈ table_rows (claim_key m table key) table' ↔ v ∈ table_rows m table' ∨ (table' = table ∧ v = key).
Proof.
  unfold claim_key, table_rows, push_unique. destruct (decide (table' = table)) as [->|Hne].
  - rewrite lookup_insert_eq. cbn [from_option]. unfold id. case_bool_decide; [naive_solver|]. rewrite elem_of_app, list_elem_of_singleton. naive_solver.
  - rewrite lookup_insert_ne by done. naive_solver.
Qed.

Lemma touch_rows {A} (m : gmap table_name (list A)) table table' :
  table_rows (<[table := default [] (m !! table)]> m) table' = table_rows m table'.
Proof.
  unfold table_rows. destruct (decide (table' = table)) as [->|]; [by rewrite lookup_insert_eq|by rewrite lookup_insert_ne].
Qed.

(** The keys a write set updates or deletes. *)
Lemma dml_rows_ok (table : table_name) (key_index : nat) (rows : list row) : ∀ dml dml' : claims,
  for_each rows dml (λ dml r,
    let! key := ok_or (r !! key_index) (Corrupt "staged update lost its primary-key value") in Ok (claim_key dml table key)) = Ok dml' →
  ∀ table' v, v ∈ table_rows dml' table' ↔ v ∈ table_rows dml table' ∨ (table' = table ∧ ∃ r, r ∈ rows ∧ r !! key_index = Some v).
Proof.
  induction rows as [|r rows IH]; intros dml dml'; cbn [for_each].
  - intros [= <-] table' v. set_solver.
  - intros (dml1 & H1 & H2)%bind_Ok table' v. apply bind_Ok in H1 as (key & Hkey%ok_or_Ok & [= <-]). rewrite (IH _ _ H2), claim_key_rows. split.
    + intros [[?|[-> ->]]|(-> & r' & Hr' & Hv)]; [by left| |]; right; (split; [done|]); eexists; (split; [|eassumption]); set_solver.
    + intros [?|(-> & r' & [->|Hr']%elem_of_cons & Hv)]; [by left; left| |].
      * left. right. split; congruence.
      * right. eauto.
Qed.

Section claims.
Context (schema : NodeTableSchema) (pk : nat).
Hypothesis Hpk : primary_key_column schema = Ok pk.

Notation table := (node_name schema).
Notation row_key r := (optional_row_pk r pk).

Lemma dml_pks_ok c w dml v :
  node_table c table = Some schema → dml_pks_from_writes c w = Ok dml →
  v ∈ table_rows dml table ↔ v ∈ table_rows (w_deletes w) table ∨ ∃ r, r ∈ table_rows (w_updates w) table ∧ r !! pk = Some v.
Proof.
  intros Hc. destruct (primary_key_named schema pk Hpk) as [n Hn]. unfold dml_pks_from_writes. intros H.
  assert (∀ (l : list (table_name * list row)) dml0, NoDup l.*1 → for_each l dml0 (claim_updates c) = Ok dml →
    v ∈ table_rows dml table ↔ v ∈ table_rows dml0 table ∨ ∃ rows r, (table, rows) ∈ l ∧ r ∈ rows ∧ r !! pk = Some v) as Hloop.
  { intros l. induction l as [|[t rows] l IH]; intros dml0 Hnd; cbn [for_each].
    - intros [= <-]. set_solver.
    - intros H0. apply bind_Ok in H0 as (dml1 & H1 & H2). csimpl in Hnd. apply NoDup_cons in Hnd as [Ht Hnd]. rewrite (IH _ Hnd H2).
      apply bind_Ok in H1 as (sch & Hs%ok_or_Ok & H1). apply bind_Ok in H1 as ([i n'] & Hi & H1).
      rewrite (dml_rows_ok _ _ _ _ _ H1), touch_rows. destruct (decide (t = table)) as [->|Hne].
      + rewrite Hc in Hs. injection Hs as <-. rewrite Hn in Hi. injection Hi as <- <-. set_solver.
      + set_solver. }
  rewrite (Hloop _ _ (btree_iter_NoDup _) H). split; (intros [?|Hx]; [by left|right]).
  - destruct Hx as (rows & r & Hin%elem_of_btree_iter & Hr & Hv). exists r. unfold table_rows. by rewrite Hin.
  - destruct Hx as (r & (rows & Hin & Hr)%rows_in_iter & Hv). eauto.
Qed.

(** The key is among those the write set inserts, updates or deletes. *)
Definition written (w : WriteSet) (k : PkKey) : Prop := Some k ∈ op_key pk <$> commit_ops table (own_delta w).

Lemma written_cases S w k :
  staged_ok pk table S w →
  written w k ↔ key_to_value k ∈ table_rows (inserted_pks w) table ∨ key_to_value k ∈ table_rows (w_deletes w) table ∨
    ∃ r, r ∈ table_rows (w_updates w) table ∧ r !! pk = Some (key_to_value k).
Proof.
  intros [Hpks [_ Hins] _ [_ Hdel] _ _ _]. unfold written, commit_ops. cbn [own_delta node_updates node_deletes nodes].
  rewrite !fmap_app, !elem_of_app, Hpks, <- !list_fmap_compose. split.
  - intros [(r & Hr & Hin)%list_elem_of_fmap|[(v & Hv & Hin)%list_elem_of_fmap|(r & Hr & Hin)%list_elem_of_fmap]]; cbn in *.
    + right. right. exists r. split; [done|]. by apply value_key_row.
    + right. left. unfold value_key, pk_try_from in Hv. destruct v; simplify_eq; done.
    + left. apply list_elem_of_fmap. exists r. split; [|done]. symmetry. by apply key_value.
  - intros [(r & Hr & Hin)%list_elem_of_fmap|[Hin|(r & Hin & Hr)]].
    + right. right. apply list_elem_of_fmap. exists r. split; [|done]. cbn. rewrite Forall_forall in Hins. destruct (Hins r Hin) as [k' Hk'].
      rewrite (key_value pk r k' Hk') in Hr. rewrite Hk'. f_equal. by destruct k, k'; simplify_eq.
    + right. left. apply list_elem_of_fmap. exists (key_to_value k). split; [|done]. cbn. by destruct k.
    + left. apply list_elem_of_fmap. exists r. split; [|done]. cbn. symmetry. by apply value_key_row.
Qed.

Definition claimed (summary : CommitSummary) (k : PkKey) : Prop :=
  has_claim (sum_inserted summary) table (key_to_value k) = true ∨ has_claim (sum_dml summary) table (key_to_value k) = true.

(** A commit claims every key it wrote. *)
Lemma summary_claims S c w summary k :
  staged_ok pk table S w → node_table c table = Some schema → summary_from_writes c w = Ok summary → written w k → claimed summary k.
Proof.
  intros Hst Hc H Hk. apply (written_cases S) in Hk; [|done]. unfold summary_from_writes in H. inv_ok H. subst summary. unfold claimed.
  cbn [sum_inserted sum_dml]. rewrite !has_claim_true, (dml_pks_ok c w x _ Hc Hx). tauto.
Qed.

(** A round of the conflict check that passes means no written key is claimed. *)
Lemma check_summary_free S c w dml detach endpoints summary k :
  staged_ok pk table S w → node_table c table = Some schema → dml_pks_from_writes c w = Ok dml →
  check_summary w dml detach endpoints summary = Ok () → written w k → ¬ claimed summary k.
Proof.
  intros Hst Hc Hdml H Hk Hcl. unfold check_summary in H. destruct (first_some _ _) as [[t v]|] eqn:Ef; [done|]. clear H.
  apply first_some_None, Forall_app in Ef as [E1 E2]. apply (written_cases S) in Hk; [|done]. rewrite <- (dml_pks_ok c w dml _ Hc Hdml) in Hk.
  assert (∀ m, Forall (λ '(t, keys), pair t <$> conflicting_key summary t keys = None) (btree_iter m) →
    key_to_value k ∈ table_rows m table → False) as Hno.
  { intros m Hm (l & Hl & Hv)%rows_in_iter. rewrite Forall_forall in Hm. specialize (Hm _ Hl). cbn in Hm. apply fmap_None in Hm.
    unfold conflicting_key in Hm. apply fmap_None, list_find_None in Hm. rewrite Forall_forall in Hm. apply (Hm _ Hv).
    apply orb_true_iff. exact Hcl. }
  destruct Hk as [Hk|Hk]; eapply Hno; eauto; (eapply Forall_impl; [eassumption|]); by intros [].
Qed.

(** Every summary newer than the snapshot is examined. *)
Lemma check_summaries_all snapshot_lsn w dml detach endpoints l :
  StronglySorted Z.lt l.*1 → check_summaries snapshot_lsn w dml detach endpoints (reverse l) = Ok () →
  ∀ n summary, (n, summary) ∈ l → snapshot_lsn < n → check_summary w dml detach endpoints summary = Ok ().
Proof.
  induction l as [|[n0 s0] l IH] using rev_ind; intros Hs H n summary Hin Hn; [by apply elem_of_nil in Hin|].
  rewrite reverse_app in H. cbn [reverse rev_append app check_summaries] in H. rewrite fmap_app in Hs.
  apply StronglySorted_app in Hs as (Hlt & Hs & _). apply elem_of_app in Hin as [Hin|[= <- <-]%list_elem_of_singleton].
  - destruct (Z.leb_spec n0 snapshot_lsn) as [Hle|].
    + assert (n < n0); [|lia]. apply Hlt; [apply list_elem_of_fmap; by exists (n, summary)|by left].
    + apply bind_Ok in H as ([] & _ & H). eauto.
  - destruct (Z.leb_spec n snapshot_lsn); [lia|]. by apply bind_Ok in H as ([] & H & _).
Qed.

(** First committer wins: no summary since the snapshot claims a written key. *)
Lemma detect_conflict_free S current lsn t k n summary :
  staged_ok pk table S (writes t) → node_table (catalog t) table = Some schema → StronglySorted Z.lt (recent_summaries current).*1 →
  detect_conflict current lsn t = Ok () → (n, summary) ∈ recent_summaries current → lsn < n → written (writes t) k → ¬ claimed summary k.
Proof.
  intros Hst Hc Hs H Hin Hn. unfold detect_conflict in H. apply bind_Ok in H as (dml & Hdml & H). apply bind_Ok in H as (endpoints & _ & H).
  eapply check_summary_free; [done|done|done|]. eapply check_summaries_all; eauto.
Qed.
End claims.

(** ** What an attempt does *)

Lemma slift_Ok {W A} (m : outcome A) (s : W) a s' : slift m s = (Ok a, s') ↔ m = Ok a ∧ s' = s.
Proof. unfold slift. naive_solver. Qed.

(** The next LSN is above [b]. *)
Definition writer_above (b : Z) (w : WalWriter) : Prop := ∀ n, next_lsn w = Some n → b < n.
Definition pipe_above (b : Z) (p : CommitPipe) : Prop := ∀ w, pipe_wal p = Some w → writer_above b w.

Section attempt.
Context `{Crc : !Crc32c} `{SJ : !SerdeJson} {E : Type} `{TE : !TxnEnv E} `{CE : !CommitEnv E}.

Lemma append_above b fault payload w :
  writer_above b w →
  match append fault payload w with
  | (Ok lsn, w') => b < lsn ∧ writer_above lsn w'
  | (_, w') => writer_above b w'
  end.
Proof.
  intros Hw. unfold append. destruct (ensure_usable w); [|done|done]. destruct (next_lsn w) as [lsn|] eqn:Hn; [|done].
  destruct (encode_header lsn payload); [|done|done]. destruct (try_u 64 _); [|done]. destruct fault as [|written ok].
  - split; [by apply Hw|]. intros n [-> _]%try_u_Some. lia.
  - unfold recover_failed_append. destruct ok; intros n [= <-]; by apply Hw.
Qed.

Lemma append_records_above b payloads : ∀ w faults lsn r w' faults',
  append_records w faults lsn payloads = (r, (w', faults')) → writer_above b w →
  (∀ l, lsn = Some l → b < l ∧ writer_above l w) →
  writer_above b w' ∧ ∀ l, r = Ok (Some l) → b < l ∧ writer_above l w'.
Proof.
  induction payloads as [|payload payloads IH]; intros w faults lsn r w' faults'; cbn [append_records].
  - intros [= <- <- <-] Hw Hl. split; [done|]. intros l [= ->]. auto.
  - pose proof (append_above b (default NoFault (head faults)) payload w) as Ha.
    destruct (append _ payload w) as [[l| |] w1]; intros H Hw Hl; specialize (Ha Hw); [|by simplify_eq..].
    apply IH in H; [done| |]; [intros n Hn; destruct Ha as [? Ha]; specialize (Ha n Hn); lia|]. by intros ? [= <-].
Qed.

Lemma make_durable_above b records x y z p e r p' e' :
  make_durable records x y z (p, e) = (r, (p', e')) → pipe_above b p →
  pipe_above b p' ∧ ∀ lsn, r = Ok lsn → b < lsn ∧ pipe_above lsn p'.
Proof.
  unfold make_durable, sbind, slift. destruct (encode_transaction records) as [encoded| |]; [|by intros [= <- <- <-]..].
  destruct (pipe_wal p) as [w|] eqn:Ew; [|by intros [= <- <- <-]]. intros H Hp. pose proof (Hp w Ew) as Hw.
  destruct (set_wal_feature_flags x y z e) as [[[]| |] e1]; [|by simplify_eq..].
  destruct (append_records w (write_faults p) None encoded) as [r1 [w1 faults]] eqn:Ea.
  destruct (append_records_above b encoded _ _ _ _ _ _ Ea Hw ltac:(done)) as [Hb Hl].
  assert (pipe_above b (mkPipe (Some w1) faults)) as Hpb by (by intros ? [= <-]).
  destruct r1 as [lsn| |]; [|by simplify_eq..]. destruct (sync_wal e1) as [[[]| |] e2]; [|by simplify_eq..].
  injection H as <- <- <-. split; [done|]. intros l Hr%ok_or_Ok. subst lsn. destruct (Hl l eq_refl). split; [done|]. by intros ? [= <-].
Qed.

Lemma publish_above b current p r s x s' :
  publish_prepared_commit current p r s = (x, s') → pipe_above b s.1 →
  pipe_above b s'.1 ∧ ∀ next, x = Ok next → ∃ lsn, b < lsn ∧ pipe_above lsn s'.1 ∧ next = next_published current p lsn (link_bytes r).
Proof.
  unfold publish_prepared_commit. intros H Hp. destruct (summary_estimated_bytes _) as [est| |]; [|by simplify_eq..].
  destruct (negb _); [by simplify_eq|]. destruct s as [pp e]. cbn [fst snd] in *.
  match type of H with match ?m ?s with _ => _ end = _ => assert (∀ y t, m s = (y, t) → pipe_above b t.1 ∧ ∀ lsn, y = Ok lsn → b < lsn ∧ pipe_above lsn t.1) as Hm end.
  { intros y t. unfold sbind at 1, slift at 1. destruct (delta_estimated_bytes _); [|by intros [= <- <-]..].
    unfold sbind at 1, slift at 1. destruct (ok_or _ _); [|by intros [= <- <-]..]. destruct (negb (_ =? _)); [unfold slift; by intros [= <- <-]|].
    destruct t as [p' e']. intros Hd. by apply (make_durable_above b) in Hd. }
  match type of H with match ?m ?s with _ => _ end = _ => destruct (m s) as [[lsn| |] t] eqn:Em end; destruct (Hm _ _ eq_refl) as [H1 H2]; simplify_eq/=; try done.
  split; [done|]. intros next [= <-]. destruct (H2 lsn eq_refl). by exists lsn.
Qed.

(** What a prepared commit is made of. *)
Definition prepared_for (current : PublishedState) (snapshot_lsn : Z) (t : Transaction) (p : PreparedCommit) : Prop :=
  detect_conflict current snapshot_lsn t = Ok () ∧
  apply_ddl_to_catalog (pub_catalog current) (w_ddl (writes t)) = Ok (prepared_catalog p) ∧
  summary_from_writes (prepared_catalog p) (writes t) = Ok (prepared_summary p) ∧
  nodes (prepared_delta p) = w_nodes (writes t) ∧ node_updates (prepared_delta p) = w_updates (writes t) ∧
  node_deletes (prepared_delta p) = w_deletes (writes t) ∧ ddl (prepared_delta p) = w_ddl (writes t) ∧
  rel_tombstones (prepared_delta p) = rel_tombstones_from_records (rel_delete_records p).


Lemma prepare_commit_Ok current lsn t e p e' : prepare_commit current lsn t e = (Ok p, e') → prepared_for current lsn t p.
Proof.
  unfold prepare_commit. intros ([] & ? & [Hd ->]%slift_Ok & H)%sbind_Ok. apply sbind_Ok in H as ([] & ? & [_ ->]%slift_Ok & H).
  apply sbind_Ok in H as (c & ? & [Hc%map_err_Ok ->]%slift_Ok & H). apply sbind_Ok in H as ([] & ? & [_ ->]%slift_Ok & H).
  apply sbind_Ok in H as ([d records] & e1 & Hb & H). apply sbind_Ok in H as (summary & ? & [Hs ->]%slift_Ok & H).
  unfold build_commit_delta in Hb. apply sbind_Ok in Hb as (es & e2 & _ & Hb). apply sbind_Ok in Hb as (recs & e3 & _ & Hb).
  apply sbind_Ok in Hb as ([] & e4 & _ & Hb). unfold sret in *. injection Hb as <- <- ->. injection H as <- <-. done.
Qed.

Lemma attempt_cases b lsn cs r cs' :
  attempt lsn cs = (r, cs') → pipe_above b (pipe cs) →
  pipe_above b (pipe cs') ∧
  (r ≠ Ok () → published cs' = published cs) ∧
  (r = Ok () → ∃ p n bytes, prepared_for (published cs) lsn (committing cs) p ∧
    published cs' = next_published (published cs) p n bytes ∧ b < n ∧ pipe_above n (pipe cs')).
Proof.
  unfold attempt, sbind. intros H Hb. unfold prepare in H. destruct (prepare_commit _ _ _ _) as [[p| |] e1] eqn:Ep; [|by simplify_eq/=..].
  unfold transfer in H. cbn [committing Commit.env published pipe] in H.
  destruct (transfer_commit_charge _ _ _) as [[r1| |] [w1 e2]]; [|by simplify_eq/=..].
  unfold publish_commit in H. cbn [committing Commit.env published pipe] in H.
  destruct (publish_prepared_commit _ _ _ _) as [x [p' e3]] eqn:Ex. apply (publish_above b) in Ex as [H1 H2]; [|done].
  destruct x as [next| |]; simplify_eq/=; [|done..]. split_and!; [done|done|]. intros _. destruct (H2 next eq_refl) as (n & Hn & Hp & ->).
  exists p, n, (link_bytes r1). split_and!; [|done|done|done]. by eapply prepare_commit_Ok.
Qed.
End attempt.

(** Tables that exist keep their schema. *)
Lemma find_folded_snoc {A} (key : A → cat_name) xs y n x : find_folded key xs n = Some x → find_folded key (xs ++ [y]) n = Some x.
Proof. unfold find_folded. intros ([i z] & Hf & ->)%fmap_Some. by rewrite (list_find_app_l _ _ _ _ _ Hf). Qed.

Lemma ddl_keeps_table ddl : ∀ c c' n schema,
  apply_ddl_to_catalog c ddl = Ok c' → node_table c n = Some schema → node_table c' n = Some schema.
Proof.
  unfold apply_ddl_to_catalog. induction ddl as [|d ddl IH]; intros c c' n schema; cbn [for_each]; [by intros [= <-]|].
  intros (c1 & H1 & H2)%bind_Ok Hn. eapply IH; [done|]. destruct d as [s|s].
  - unfold add_node_table in H1. inv_ok H1. subst c1. by apply find_folded_snoc.
  - unfold add_rel_table in H1. inv_ok H1. by subst c1.
Qed.

(** ** The system *)

(** What is published, with the checkpointed rows of one table, the log writer,
    the open write transactions with the state each has as its snapshot, and a
    record of the commits: the LSN and what was done to the table. *)
Record System := mkSystem {
  sys_state : PublishedState;
  sys_base : list row;
  sys_pipe : CommitPipe;
  write_txns : gmap Z (PublishedState * list row);
  commit_log : list (Z * list TableOp);
}.

Section system.
Context `{Crc : !Crc32c} `{SJ : !SerdeJson} {E : Type} `{TE : !TxnEnv E} `{CE : !CommitEnv E}.
Context (schema : NodeTableSchema) (pk : nat).
Hypothesis Hpk : primary_key_column schema = Ok pk.

Notation table := (node_name schema).

Definition rows_of (p : PublishedState) (base : list row) : list row := run_ops pk (chain_ops (pub_chain p) table) base.

Definition sys_rows (s : System) : list row := rows_of (sys_state s) (sys_base s).

Definition writer_lsns (s : System) : list Z := (λ w, last_commit_lsn w.2.1) <$> map_to_list (write_txns s).

(** A transaction begins on the published state; it ends in any way; an attempt
    to commit a write set staged over the snapshot gives what it gives; a
    checkpoint moves the rows of the chain to the base and rotates the log, or
    fails with the log writer taken down. *)
Inductive sys_step : System → System → Prop :=
| sys_begin s id :
    write_txns s !! id = None →
    sys_step s (mkSystem (sys_state s) (sys_base s) (sys_pipe s) (<[id := (sys_state s, sys_base s)]> (write_txns s)) (commit_log s))
| sys_end s id :
    sys_step s (mkSystem (sys_state s) (sys_base s) (sys_pipe s) (base.delete id (write_txns s)) (commit_log s))
| sys_attempt s id p0 b0 t e r cs' :
    write_txns s !! id = Some (p0, b0) → node_table (catalog t) table = Some schema → staged_ok pk table (rows_of p0 b0) (writes t) →
    attempt (last_commit_lsn p0) (mkCommitState (E := E) (sys_state s) (sys_pipe s) t e) = (r, cs') →
    sys_step s (mkSystem (published cs') (sys_base s) (pipe cs') (write_txns s)
      (if bool_decide (is_ok r = true) then commit_log s ++ [(last_commit_lsn (published cs'), commit_ops table (own_delta (writes t)))] else commit_log s))
| sys_checkpoint s materialized faults wal :
    node_table materialized table = Some schema →
    wal = None ∨ wal = Some (open [] (last_commit_lsn (sys_state s) + 1)) →
    sys_step s (mkSystem (checkpoint_published (writer_lsns s) materialized (sys_state s)) (sys_rows s) (mkPipe wal faults) (write_txns s) (commit_log s))
| sys_checkpoint_failed s faults :
    sys_step s (mkSystem (sys_state s) (sys_base s) (mkPipe None faults) (write_txns s) (commit_log s)).

(** Freshly opened: nobody writes yet. *)
Definition sys_start (s : System) : Prop :=
  node_table (pub_catalog (sys_state s)) table = Some schema ∧ keyed_base pk (sys_base s) ∧
  valid_history pk (sys_base s) (chain_ops (pub_chain (sys_state s)) table) ∧
  StronglySorted Z.lt (recent_summaries (sys_state s)).*1 ∧ Forall (λ n, n ≤ last_commit_lsn (sys_state s)) (recent_summaries (sys_state s)).*1 ∧
  pipe_above (last_commit_lsn (sys_state s)) (sys_pipe s) ∧ write_txns s = ∅ ∧ commit_log s = [].

Inductive reachable : System → Prop :=
| reach_start s : sys_start s → reachable s
| reach_step s s' : reachable s → sys_step s s' → reachable s'.

(** The commits a snapshot has not seen. *)
Definition since (p0 : PublishedState) (log : list (Z * list TableOp)) : list (Z * list TableOp) :=
  filter (λ e, last_commit_lsn p0 < e.1) log.

Definition log_ops (log : list (Z * list TableOp)) : list TableOp := log ≫= snd.

(** Each of them is claimed, key by key, by a summary still kept. *)
Definition all_claimed (p : PublishedState) (log : list (Z * list TableOp)) : Prop :=
  ∀ n ops op k, (n, ops) ∈ log → op ∈ ops → op_key pk op = Some k →
    ∃ summary, (n, summary) ∈ recent_summaries p ∧ claimed schema summary k.

Definition writer_ok (s : System) (p0 : PublishedState) (b0 : list row) : Prop :=
  keyed_base pk (rows_of p0 b0) ∧ last_commit_lsn p0 ≤ last_commit_lsn (sys_state s) ∧
  sys_rows s = run_ops pk (log_ops (since p0 (commit_log s))) (rows_of p0 b0) ∧
  all_claimed (sys_state s) (since p0 (commit_log s)).

Record sys_inv (s : System) : Prop := {
  iv_table : node_table (pub_catalog (sys_state s)) table = Some schema;
  iv_base : keyed_base pk (sys_base s);
  iv_valid : valid_history pk (sys_base s) (chain_ops (pub_chain (sys_state s)) table);
  iv_sorted : StronglySorted Z.lt (recent_summaries (sys_state s)).*1;
  iv_last : Forall (λ n, n ≤ last_commit_lsn (sys_state s)) (recent_summaries (sys_state s)).*1;
  iv_pipe : pipe_above (last_commit_lsn (sys_state s)) (sys_pipe s);
  iv_log : Forall (λ e, e.1 ≤ last_commit_lsn (sys_state s)) (commit_log s);
  iv_writers : ∀ id p0 b0, write_txns s !! id = Some (p0, b0) → writer_ok s p0 b0;
}.

(** Operations on other keys leave a key's row alone. *)
Lemma untouched_row k ops t : Some k ∉ op_key pk <$> ops → key_row pk k (run_ops pk ops t) = key_row pk k t.
Proof.
  rewrite key_row_run. generalize (key_row pk k t) as found. induction ops as [|op ops IH]; intros found Hk; [done|]. csimpl in Hk.
  apply not_elem_of_cons in Hk as [Ho Hk]. cbn [foldl]. rewrite IH by done. unfold key_step. by rewrite decide_False by congruence.
Qed.

(** The keys of a committing transaction have not been written since its
    snapshot. *)
Lemma written_untouched s p0 b0 t k :
  sys_inv s → writer_ok s p0 b0 → node_table (catalog t) table = Some schema → staged_ok pk table (rows_of p0 b0) (writes t) →
  detect_conflict (sys_state s) (last_commit_lsn p0) t = Ok () → written schema pk (writes t) k →
  Some k ∉ op_key pk <$> log_ops (since p0 (commit_log s)).
Proof.
  intros Hi (_ & _ & _ & Hcl) Hc Hst Hd Hk (op & Hop & Hin)%list_elem_of_fmap. unfold log_ops in Hin. apply list_elem_of_bind in Hin as ([n ops'] & Hin & Hlog).
  cbn in Hin. destruct (Hcl n ops' op k Hlog Hin (eq_sym Hop)) as (summary & Hs & Hkc).
  apply list_elem_of_filter in Hlog as [Hn _].
  exact (detect_conflict_free schema pk Hpk _ _ _ _ k n summary Hst Hc (iv_sorted s Hi) Hd Hs Hn Hk Hkc).
Qed.

(** So its write set is staged over the current rows as well. *)
Lemma staged_again S C w :
  (∀ k, written schema pk w k → key_row pk k C = key_row pk k S) → staged_ok pk table S w → staged_ok pk table C w.
Proof.
  intros Hsame Hst. pose proof Hst as [H1 H2 H3 H4 H5 H6 H7].
  assert (∀ k, written schema pk w k → (Some k ∈ (λ r, optional_row_pk r pk) <$> C ↔ Some k ∈ (λ r, optional_row_pk r pk) <$> S)) as Hkeys.
  { intros k Hk. rewrite <- !key_row_is_Some. by rewrite Hsame. }
  assert (∀ k, Some k ∈ (λ r, optional_row_pk r pk) <$> table_rows (w_updates w) table → written schema pk w k) as Hu.
  { intros k Hk. unfold written, commit_ops. cbn. rewrite !fmap_app, <- list_fmap_compose. apply elem_of_app. by left. }
  assert (∀ k, Some k ∈ value_key <$> table_rows (w_deletes w) table → written schema pk w k) as Hd.
  { intros k Hk. unfold written, commit_ops. cbn. rewrite !fmap_app, <- !list_fmap_compose, !elem_of_app. right. by left. }
  assert (∀ k, Some k ∈ (λ r, optional_row_pk r pk) <$> table_rows (w_nodes w) table → written schema pk w k) as Hn.
  { intros k Hk. unfold written, commit_ops. cbn. rewrite !fmap_app, <- !list_fmap_compose, !elem_of_app. right. by right. }
  split; try done.
  - intros k Hk. destruct (H5 k Hk). split; [|done]. apply Hkeys; auto.
  - intros k Hk. apply Hkeys; auto.
  - intros k Hk HkC. apply H7; [done|]. apply Hkeys; auto.
Qed.
(** ** A commit *)

Lemma prepared_ops current lsn t p : prepared_for current lsn t p → commit_ops table (prepared_delta p) = commit_ops table (own_delta (writes t)).
Proof. intros (_ & _ & _ & H1 & H2 & H3 & _). unfold commit_ops. by rewrite H1, H2, H3. Qed.

Lemma next_rows current lsn t p n bytes :
  prepared_for current lsn t p →
  chain_ops (pub_chain (next_published current p n bytes)) table = chain_ops (pub_chain current) table ++ commit_ops table (own_delta (writes t)).
Proof. intros Hp. cbn [next_published pub_chain]. by rewrite chain_ops_snoc, (prepared_ops _ _ _ _ Hp). Qed.

Lemma commit_valid s p0 b0 t p :
  sys_inv s → writer_ok s p0 b0 → node_table (catalog t) table = Some schema → staged_ok pk table (rows_of p0 b0) (writes t) →
  prepared_for (sys_state s) (last_commit_lsn p0) t p →
  (∀ k, written schema pk (writes t) k → key_row pk k (sys_rows s) = key_row pk k (rows_of p0 b0)) ∧
  valid_history pk (sys_rows s) (commit_ops table (own_delta (writes t))).
Proof.
  intros Hi Hw Hc Hst (Hd & _). pose proof Hw as (_ & _ & Hrows & _).
  assert (∀ k, written schema pk (writes t) k → key_row pk k (sys_rows s) = key_row pk k (rows_of p0 b0)) as Hsame.
  { intros k Hk. rewrite Hrows. apply untouched_row. by eapply written_untouched. }
  split; [done|]. apply run_ops_shown.
  - apply run_ops_keyed; [apply (iv_valid s Hi)|apply (iv_base s Hi)].
  - by eapply staged_again.
Qed.

Lemma since_snoc p0 log n ops : last_commit_lsn p0 < n → since p0 (log ++ [(n, ops)]) = since p0 log ++ [(n, ops)].
Proof. intros Hn. unfold since. rewrite filter_app. by rewrite filter_cons_True by done. Qed.

Lemma sorted_snoc l n : StronglySorted Z.lt l → Forall (λ m, m < n) l → StronglySorted Z.lt (l ++ [n]).
Proof.
  intros Hs Hl. apply StronglySorted_app. split_and!; [|done|repeat constructor]. intros x y Hx ->%list_elem_of_singleton.
  rewrite Forall_forall in Hl. auto.
Qed.

Lemma inv_commit s p0 b0 t p n bytes pp' :
  sys_inv s → writer_ok s p0 b0 → node_table (catalog t) table = Some schema → staged_ok pk table (rows_of p0 b0) (writes t) →
  prepared_for (sys_state s) (last_commit_lsn p0) t p → last_commit_lsn (sys_state s) < n → pipe_above n pp' →
  sys_inv (mkSystem (next_published (sys_state s) p n bytes) (sys_base s) pp' (write_txns s)
    (commit_log s ++ [(n, commit_ops table (own_delta (writes t)))])).
Proof.
  intros Hi Hw Hc Hst Hp Hn Hpp. destruct (commit_valid s p0 b0 t p Hi Hw Hc Hst Hp) as [Hsame Hv].
  pose proof (next_rows _ _ _ _ n bytes Hp) as Hnext. destruct Hi as [Ht Hb Hval Hsort Hlast Hpipe Hlog Hwr].
  pose proof Hp as (_ & Hddl & Hsum & _).
  assert (∀ x, (λ m, m ≤ last_commit_lsn (sys_state s)) x → x < n) as Hlt by (intros; lia).
  split; cbn [sys_state sys_base sys_pipe write_txns commit_log].
  - by eapply ddl_keeps_table.
  - done.
  - rewrite Hnext, valid_history_app. done.
  - cbn [next_published recent_summaries]. rewrite fmap_app. apply sorted_snoc; [done|]. eapply Forall_impl; [exact Hlast|done].
  - cbn [next_published recent_summaries last_commit_lsn]. rewrite fmap_app. apply Forall_app. split; [|repeat constructor; cbn; lia].
    eapply Forall_impl; [exact Hlast|]. cbn. lia.
  - done.
  - cbn [next_published last_commit_lsn]. apply Forall_app. split; [|repeat constructor; cbn; lia]. eapply Forall_impl; [exact Hlog|]. cbn. lia.
  - intros id q c Hq. destruct (Hwr id q c Hq) as (H1 & H2 & H3 & H4). split_and!; [done|cbn; lia| |].
    + unfold sys_rows. cbn [sys_state sys_base commit_log]. rewrite since_snoc by lia. unfold rows_of at 1. rewrite Hnext.
      unfold log_ops in *. rewrite bind_app, !run_ops_app, <- H3. cbn [mbind list_bind snd]. by rewrite app_nil_r.
    + cbn [commit_log sys_state]. rewrite since_snoc by lia. intros m ops op k [Hin|[= -> ->]%list_elem_of_singleton]%elem_of_app Hop Hk.
      * destruct (H4 m ops op k Hin Hop Hk) as (summary & Hs & Hcl). exists summary. split; [|done]. cbn. apply elem_of_app. by left.
      * exists (prepared_summary p). split; [cbn; apply elem_of_app; right; by left|].
        eapply summary_claims; [done|exact Hst| |exact Hsum|]; [by eapply ddl_keeps_table|].
        unfold written. apply list_elem_of_fmap. eauto.
Qed.

(** ** A checkpoint *)

Lemma foldl_min_le l : ∀ x, foldl Z.min x l ≤ x ∧ Forall (λ y, foldl Z.min x l ≤ y) l.
Proof.
  induction l as [|y l IH]; intros x; cbn [foldl]; [split; [lia|constructor]|]. destruct (IH (Z.min x y)) as [H1 H2].
  split; [lia|]. constructor; [lia|done].
Qed.

Lemma minimum_lsn_le lsns lsn : lsn ∈ lsns → ∃ m, minimum_lsn lsns = Some m ∧ m ≤ lsn.
Proof.
  destruct lsns as [|x l]; [by intros ?%elem_of_nil|]. intros Hin. eexists. split; [done|]. destruct (foldl_min_le l x) as [H1 H2].
  apply elem_of_cons in Hin as [->|Hin]; [done|]. rewrite Forall_forall in H2. auto.
Qed.

(** What a writer still needs is retained. *)
Lemma retained_keeps lsns lsn state n summary :
  lsn ∈ lsns → lsn < n → (n, summary) ∈ recent_summaries state → (n, summary) ∈ retained_summaries lsns state.
Proof.
  intros Hin Hn Hs. unfold retained_summaries. destruct (minimum_lsn_le lsns lsn Hin) as (m & -> & Hm). unfold prune_recent_summaries.
  apply list_elem_of_filter. split; [|done]. apply Z.ltb_lt. cbn. lia.
Qed.

Lemma retained_sub lsns state : retained_summaries lsns state `sublist_of` recent_summaries state.
Proof.
  unfold retained_summaries. destruct (minimum_lsn lsns); [apply sublist_filter|apply sublist_nil_l].
Qed.
Lemma sublist_full {A} (l k : list A) : l `sublist_of` k → length l = length k → l = k.
Proof.
  induction 1 as [|x l k H IH|x l k H IH]; cbn; [done|by intros [= ?%IH]; f_equal|]. intros Hl. apply sublist_length in H. lia.
Qed.

Lemma sublist_keys {A} (l k : list (Z * A)) : l `sublist_of` k → l.*1 `sublist_of` k.*1.
Proof. induction 1; csimpl; by constructor. Qed.

Lemma sublist_sorted (l k : list Z) : l `sublist_of` k → StronglySorted Z.lt k → StronglySorted Z.lt l.
Proof.
  induction 1 as [|x l k H IH|x l k H IH]; [done| |]; intros [Hk Hx]%StronglySorted_cons; [|auto]. apply StronglySorted_cons. split; [|auto].
  rewrite Forall_forall in Hk |- *. intros y Hy. apply Hk. by eapply elem_of_sublist.
Qed.

Lemma checkpoint_shape lsns c p :
  let p' := checkpoint_published lsns c p in
  pub_chain p' = None ∧ last_commit_lsn p' = last_commit_lsn p ∧ recent_summaries p' = retained_summaries lsns p ∧
  (pub_catalog p' = c ∨ pub_catalog p' = pub_catalog p).
Proof.
  unfold checkpoint_published. destruct (pub_chain p) eqn:Ec; cbn; [by auto|]. destruct (Nat.eqb_spec (length (retained_summaries lsns p)) (length (recent_summaries p))) as [El|];
    cbn; split_and!; auto. symmetry. by apply sublist_full; [apply retained_sub|].
Qed.

Lemma inv_checkpoint s materialized faults wal :
  sys_inv s → node_table materialized table = Some schema → wal = None ∨ wal = Some (open [] (last_commit_lsn (sys_state s) + 1)) →
  sys_inv (mkSystem (checkpoint_published (writer_lsns s) materialized (sys_state s)) (sys_rows s) (mkPipe wal faults) (write_txns s) (commit_log s)).
Proof.
  intros [Ht Hb Hval Hsort Hlast Hpipe Hlog Hwr] Hm Hwal.
  destruct (checkpoint_shape (writer_lsns s) materialized (sys_state s)) as (H1 & H2 & H3 & H4).
  pose proof (retained_sub (writer_lsns s) (sys_state s)) as Hsub.
  split; cbn [sys_state sys_base sys_pipe write_txns commit_log].
  - by destruct H4 as [-> | ->].
  - by apply run_ops_keyed.
  - rewrite H1. done.
  - rewrite H3. eapply sublist_sorted; [|exact Hsort]. by apply sublist_keys.
  - rewrite H2, H3. rewrite Forall_forall in Hlast |- *. intros n Hn. apply Hlast. eapply elem_of_sublist; [exact Hn|]. by apply sublist_keys.
  - rewrite H2. intros w Hw. cbn in Hw. destruct Hwal as [->|Hwal]; [done|]. rewrite Hw in Hwal. injection Hwal as ->. intros n.
    unfold open, scan_intact_prefix. rewrite read_from_eq. cbn. intros [= <-]. lia.
  - by rewrite H2.
  - intros id p0 b0 Hq. destruct (Hwr id p0 b0 Hq) as (K1 & K2 & K3 & K4). split_and!; [done|cbn; lia| |].
    + unfold sys_rows at 1, rows_of. cbn [sys_state sys_base commit_log]. rewrite H1. exact K3.
    + cbn [sys_state commit_log]. intros n ops op k Hin Hop Hk. destruct (K4 n ops op k Hin Hop Hk) as (summary & Hs & Hcl). exists summary.
      split; [|done]. rewrite H3. apply list_elem_of_filter in Hin as [Hn _]. apply retained_keeps with (lsn := last_commit_lsn p0); [|done|done].
      unfold writer_lsns. apply list_elem_of_fmap. exists (id, (p0, b0)). split; [done|]. by apply elem_of_map_to_list.
Qed.

(** ** Reachable systems *)

Lemma sys_step_inv s s' : sys_inv s → sys_step s s' → sys_inv s'.
Proof.
  intros Hi Hstep. destruct Hstep as [s id Hid|s id|s id p0 b0 t e r cs' Hid Hc Hst Ha|s m faults wal Hm Hwal|s faults].
  - destruct Hi as [Ht Hb Hval Hsort Hlast Hpipe Hlog Hwr]. split; cbn; try done. intros id' p0 b0.
    destruct (decide (id' = id)) as [->|]; [|by rewrite lookup_insert_ne by done; apply Hwr]. rewrite lookup_insert_eq. intros [= <- <-].
    assert (since (sys_state s) (commit_log s) = []) as Hnone.
    { unfold since. clear -Hlog. induction Hlog as [|x l Hx _ IH]; [done|]. by rewrite filter_cons_False by lia. }
    split_and!; [by apply run_ops_keyed|done|..]; cbn [sys_state commit_log]; rewrite Hnone; [done|]. by intros ???? ?%elem_of_nil.
  - destruct Hi as [Ht Hb Hval Hsort Hlast Hpipe Hlog Hwr]. split; cbn; try done. intros id' p0 b0 [_ Hq]%lookup_delete_Some. by apply (Hwr id').
  - destruct (attempt_cases (last_commit_lsn (sys_state s)) _ _ _ _ Ha) as (H1 & H2 & H3); [apply (iv_pipe s Hi)|]. cbn [published committing] in *.
    case_bool_decide as Hr.
    + destruct r as [[]| |]; [|done..]. destruct (H3 eq_refl) as (p & n & bytes & Hp & -> & Hn & Hpp). by apply (inv_commit s p0 b0 t p n bytes); [|apply (iv_writers s Hi id)|..].
    + rewrite H2 by (intros ->; by apply Hr). destruct Hi. by split.
  - by apply inv_checkpoint.
  - destruct Hi. by split.
Qed.

Lemma reachable_inv s : reachable s → sys_inv s.
Proof.
  induction 1 as [s (H1 & H2 & H3 & H4 & H5 & H6 & H7 & H8)|s s' _ IH Hstep]; [|by eapply sys_step_inv].
  split; try done; rewrite ?H7, ?H8; [constructor|]. by intros ???.
Qed.
End system.

(** C2: first committer wins.  In every state that write transactions, commits
    and checkpoints (which move rows to their groups and forget summaries) lead
    to, when a transaction whose writes were staged over its snapshot commits
    successfully, then no commit since that snapshot wrote a key it wrote: each
    of these keys still has the row of the snapshot, gets the row the
    transaction saw, and every other key keeps the row it has now; a reader of
    the new state sees exactly these rows. *)
Theorem first_committer_wins `{Crc32c} `{SerdeJson} {E : Type} `{TxnEnv E} `{CommitEnv E} (schema : NodeTableSchema) (pk : nat) (s : System)
    (id : Z) (p0 : PublishedState) (b0 : list row) (t : Transaction) (e : E) (cs' : CommitState) :
  primary_key_column schema = Ok pk → reachable (E := E) schema pk s → write_txns s !! id = Some (p0, b0) →
  node_table (catalog t) (node_name schema) = Some schema → staged_ok pk (node_name schema) (rows_of schema pk p0 b0) (writes t) →
  attempt (last_commit_lsn p0) (mkCommitState (sys_state s) (sys_pipe s) t e) = (Ok (), cs') →
  (∀ n ops op k, (n, ops) ∈ commit_log s → last_commit_lsn p0 < n → op ∈ ops → op_key pk op = Some k → ¬ written schema pk (writes t) k) ∧
  (∀ k, written schema pk (writes t) k →
    key_row pk k (sys_rows schema pk s) = key_row pk k (rows_of schema pk p0 b0) ∧
    key_row pk k (rows_of schema pk (published cs') (sys_base s)) = key_row pk k (shown pk (node_name schema) (rows_of schema pk p0 b0) (writes t))) ∧
  (∀ k, ¬ written schema pk (writes t) k → key_row pk k (rows_of schema pk (published cs') (sys_base s)) = key_row pk k (sys_rows schema pk s)) ∧
  ∃ rows, node_rows_for_view (mkView (pub_catalog (published cs')) (pub_chain (published cs')) None) schema (sys_base s) = Ok rows ∧
    live_rows rows = rows_of schema pk (published cs') (sys_base s).
Proof.
  intros Hpk Hr Hid Hc Hst Ha. pose proof (reachable_inv schema pk Hpk s Hr) as Hi. pose proof (iv_writers schema pk s Hi id p0 b0 Hid) as Hw.
  destruct (attempt_cases (last_commit_lsn (sys_state s)) _ _ _ _ Ha) as (_ & _ & Hok); [apply (iv_pipe schema pk s Hi)|].
  destruct (Hok eq_refl) as (p & n & bytes & Hp & Hpub & Hn & Hpp). cbn [published committing] in *.
  destruct (commit_valid schema pk Hpk s p0 b0 t p Hi Hw Hc Hst Hp) as [Hsame Hv].
  pose proof (inv_commit schema pk Hpk s p0 b0 t p n bytes _ Hi Hw Hc Hst Hp Hn Hpp) as Hi'. rewrite <- Hpub in Hi'.
  assert (rows_of schema pk (published cs') (sys_base s) = run_ops pk (commit_ops (node_name schema) (own_delta (writes t))) (sys_rows schema pk s)) as Hrows.
  { unfold rows_of. rewrite Hpub, (next_rows schema _ _ _ _ n bytes Hp), run_ops_app. done. }
  split_and!.
  - intros m ops op k Hin Hm Hop Hk Hwr. apply (written_untouched schema pk Hpk s p0 b0 t k) in Hwr; [|done..|apply Hp]. apply Hwr.
    apply list_elem_of_fmap. exists op. split; [done|]. unfold log_ops. apply list_elem_of_bind. exists (m, ops). split; [done|].
    by apply list_elem_of_filter.
  - intros k Hk. split; [by apply Hsame|]. rewrite Hrows, key_row_run, Hsame, <- key_row_run by done.
    by rewrite (proj2 (run_ops_shown pk _ _ _ (proj1 Hw) Hst)).
  - intros k Hk. rewrite Hrows. by apply untouched_row.
  - destruct (primary_key_named schema pk Hpk) as [name Hname]. destruct Hi' as [Ht Hb Hval _ _ _ _ _].
    assert (view_ops (mkView (pub_catalog (published cs')) (pub_chain (published cs')) None) (node_name schema) = chain_ops (pub_chain (published cs')) (node_name schema)) as Ev
      by (unfold view_ops; apply app_nil_r).
    unfold rows_of. rewrite <- Ev. apply (node_rows_view_ok _ schema pk name); [done|by left|done|]. by rewrite Ev.
Qed.

(** Over the two rows of [ex_base]: transaction 1 updates key 1 while transaction
    2, begun with it, inserts key 7 and commits first. *)
Definition unit_env : TxnEnv () := {|
  try_charge _ e := (true, e); release_charge _ e := e; shed_cache _ e := e; shed_derived e := e; checkpoint_shared e := (Ok (), e);
  resolve_row _ _ _ _ e := (Err missing_node_key, e); resolve_key _ _ _ _ e := (Err missing_node_key, e);
  canonical_plan p _ := Ok p; prepare_index_build _ _ _ _ _ e := (Ok (), e) |}.
Definition unit_commit_env : CommitEnv () := {|
  budget_limit _ := 0; sync_wal e := (Ok (), e); feature_flags _ := 0; commit_feature_flags _ e := (Ok (), e);
  propose_commit_deltas _ _ _ e := (Ok (), e); checkpoint_locked s e := (Ok (), (s, e)) |}.

Definition ex_writes (ups ins : list row) : WriteSet :=
  mkWrites (if decide (ins = []) then ∅ else {[ex_table := ins]}) (if decide (ups = []) then ∅ else {[ex_table := ups]}) ∅ ∅ [] ∅ []
    (if decide (ins = []) then ∅ else {[ex_table := (λ r, r !!! 0%nat) <$> ins]}) false 0.
Definition ex_published : PublishedState := mkPublished (mkCatalog [ex_schema] [] ∅ [] None []) None 10 10 [].
Definition ex_txn (w : WriteSet) : Transaction := mkTxn (pub_catalog ex_published) None (pub_catalog ex_published) w false.
Definition ex_update : Transaction := ex_txn (ex_writes [ex_row 1 12] []).
Definition ex_insert : Transaction := ex_txn (ex_writes [] [ex_row 7 70]).

Definition ex_attempt (s : System) (t : Transaction) : outcome () * CommitState :=
  attempt (Crc := castagnoli) (SJ := plain_json) (TE := unit_env) (CE := unit_commit_env) 10 (mkCommitState (sys_state s) (sys_pipe s) t tt).
Definition ex_start : System := mkSystem ex_published ex_base (mkPipe (Some (open (H := castagnoli) [] 11)) []) ∅ [].
Definition ex_begin (s : System) (id : Z) : System :=
  mkSystem (sys_state s) (sys_base s) (sys_pipe s) (<[id := (sys_state s, sys_base s)]> (write_txns s)) (commit_log s).
Definition ex_commit (s : System) (t : Transaction) : System :=
  mkSystem (published (ex_attempt s t).2) (sys_base s) (pipe (ex_attempt s t).2) (write_txns s)
    (if bool_decide (is_ok (ex_attempt s t).1 = true) then
      commit_log s ++ [(last_commit_lsn (published (ex_attempt s t).2), commit_ops ex_table (own_delta (writes t)))] else commit_log s).
Definition ex_system : System := ex_commit (ex_begin (ex_begin ex_start 1) 2) ex_insert.

Ltac ex_staged :=
  split; [vm_compute; reflexivity|split; (apply (bool_decide_unpack _); vm_compute; exact I)..| | |];
  intros k Hk; vm_compute in Hk; repeat (apply elem_of_cons in Hk as [[= ->]|Hk]; [|try by apply elem_of_nil in Hk]);
  try (by apply elem_of_nil in Hk); apply (bool_decide_unpack _); vm_compute; exact I.

(** The first writer is open when the second has committed its insert. *)
Lemma ex_system_reachable : reachable (Crc := castagnoli) (SJ := plain_json) (E := unit) (TE := unit_env) (CE := unit_commit_env) ex_schema 0 ex_system.
Proof.
  refine (reach_step _ _ (ex_begin (ex_begin ex_start 1) 2) _ _ _).
  + refine (reach_step _ _ (ex_begin ex_start 1) _ _ _); [refine (reach_step _ _ ex_start _ _ _); [apply reach_start|]|].
    * split_and!; try done; try (by repeat constructor); [split; [apply (bool_decide_unpack _); vm_compute; exact I|repeat constructor; vm_compute; eauto]|].
      intros w [= <-] n. unfold open, scan_intact_prefix. rewrite read_from_eq. cbn. intros [= <-]. lia.
    * by apply sys_begin.
    * by apply sys_begin.
  + refine (sys_attempt (Crc := castagnoli) (SJ := plain_json) (TE := unit_env) (CE := unit_commit_env) ex_schema 0 _ 2 ex_published ex_base ex_insert tt
      (ex_attempt (ex_begin (ex_begin ex_start 1) 2) ex_insert).1 (ex_attempt (ex_begin (ex_begin ex_start 1) 2) ex_insert).2 _ _ _ (surjective_pairing _));
      [by vm_compute..|]. ex_staged.
Qed.

Lemma first_committer_wins_witness :
  rows_of ex_schema 0 (published (ex_attempt ex_system ex_update).2) ex_base = [ex_row 1 12; ex_row 2 20; ex_row 7 70] ∧
  key_row 0 (PkInt64 1) (sys_rows ex_schema 0 ex_system) = Some (ex_row 1 10).
Proof.
  split; [vm_compute; reflexivity|].
  destruct (first_committer_wins (H := castagnoli) (H0 := plain_json) (H1 := unit_env) (H2 := unit_commit_env) ex_schema 0 ex_system 1 ex_published ex_base
    ex_update tt (ex_attempt ex_system ex_update).2) as (_ & Hk & _).
  - vm_compute. reflexivity.
  - exact ex_system_reachable.
  - by vm_compute.
  - by vm_compute.
  - ex_staged.
  - vm_compute. reflexivity.
  - destruct (Hk (PkInt64 1)) as [-> _]; [|vm_compute; reflexivity]. unfold written; apply (bool_decide_unpack _). vm_compute. exact I.
Defined.
