(* ===== verification/Progress.v ===== *)
(** Progress of write transactions: the conflict check refuses a commit only
    when another transaction has committed since its snapshot, so some
    transaction always gets through, and beginning again on the published state
    clears the refusal.  [Isolation.v] has the system of writers, commits and
    checkpoints. *)

From stdpp Require Import gmap sorting.
From S2P Require Import Prelude Bytes Superblock Wal Types Schema TxnLog Catalog Overlay View NodeTable Checkpoint Lookup Txn Staging Commit Isolation.

(** ** What the check refuses *)

Lemma check_summaries_refusal lsn w dml detach endpoints l e :
  check_summaries lsn w dml detach endpoints l = Err e → ∃ n summary, (n, summary) ∈ l ∧ lsn < n.
Proof.
  induction l as [|[n summary] l IH]; cbn [check_summaries]; [done|]. destruct (Z.leb_spec n lsn) as [|Hn]; [done|].
  intros _. exists n, summary. split; [left|done].
Qed.

(** Errors other than conflicts. *)
Definition quiet {A} (m : outcome A) : Prop := ∀ c, m ≠ Err (TransactionConflict c).

Lemma quiet_bind {A B} (m : outcome A) (k : A → outcome B) : quiet m → (∀ a, quiet (k a)) → quiet (bind m k).
Proof. intros Hm Hk c. destruct m as [a|e|]; simpl; [apply Hk| |done]. intros [= ->]. by apply (Hm c). Qed.

Lemma quiet_for_each {A S} (xs : list A) (body : S → A → outcome S) : (∀ s x, quiet (body s x)) → ∀ s, quiet (for_each xs s body).
Proof. intros Hb. induction xs as [|x xs IH]; intros s; [done|]. by apply quiet_bind; [|intros; apply IH]. Qed.

Lemma quiet_ok_or {A} (o : option A) e : quiet (Err (A := A) e) → quiet (ok_or o e).
Proof. by destruct o. Qed.

Lemma dml_claims_quiet c w : quiet (dml_pks_from_writes c w).
Proof.
  apply quiet_for_each. intros dml [table rows]. apply quiet_bind; [by apply quiet_ok_or|]. intros schema.
  apply quiet_bind; [apply quiet_bind; [by apply quiet_ok_or|by intros [i col]]|]. intros [key_index name]. apply quiet_for_each. intros d r.
  by apply quiet_bind; [apply quiet_ok_or|].
Qed.

Lemma claim_quiet s table key : quiet (push_unique_claim s table key).
Proof.
  destruct s as [m seen]. unfold push_unique_claim. apply quiet_bind; [by destruct key|]. intros claim. by case_bool_decide.
Qed.

Lemma endpoint_claims_quiet c w : quiet (edge_endpoint_pks_from_writes c w).
Proof.
  apply quiet_bind; [|by intros [m seen]]. apply quiet_for_each. intros s [rel edges]. apply quiet_bind; [by apply quiet_ok_or|].
  intros schema. apply quiet_for_each. intros s' e. apply quiet_bind; [|intros]; apply claim_quiet.
Qed.

(** A conflict names a commit the snapshot has not seen. *)
Lemma conflict_newer current lsn t c :
  detect_conflict current lsn t = Err (TransactionConflict c) → ∃ n summary, (n, summary) ∈ recent_summaries current ∧ lsn < n.
Proof.
  unfold detect_conflict. intros Hd. pose proof (dml_claims_quiet (catalog t) (writes t)) as H1.
  destruct (dml_pks_from_writes (catalog t) (writes t)) as [dml|e|]; [|injection Hd as ->; by destruct (H1 c)|done]. cbn [bind] in Hd.
  pose proof (endpoint_claims_quiet (catalog t) (writes t)) as H2.
  destruct (edge_endpoint_pks_from_writes (catalog t) (writes t)) as [endpoints|e|]; [|injection Hd as ->; by destruct (H2 c)|done]. cbn [bind] in Hd.
  apply check_summaries_refusal in Hd as (n & summary & Hin & Hn). exists n, summary. split; [|done]. by rewrite elem_of_reverse in Hin.
Qed.

(** ** The system *)

Section system.
Context `{Crc : !Crc32c} `{SJ : !SerdeJson} {E : Type} `{TE : !TxnEnv E} `{CE : !CommitEnv E}.
Context (schema : NodeTableSchema) (pk : nat).
Hypothesis Hpk : primary_key_column schema = Ok pk.

(** A summary newer than some open snapshot is that of a logged commit. *)
Definition summaries_logged (s : System) : Prop :=
  ∀ n summary id p0 b0, (n, summary) ∈ recent_summaries (sys_state s) → write_txns s !! id = Some (p0, b0) →
    last_commit_lsn p0 < n → n ∈ (commit_log s).*1.

Lemma step_logged s s' : sys_inv schema pk s → summaries_logged s → sys_step (E := E) schema pk s s' → summaries_logged s'.
Proof.
  intros Hi Hl Hstep. destruct Hstep as [s id Hid|s id|s id p0 b0 t e r cs' Hid Hc Hst Ha|s m faults wal Hm Hwal|s faults]; cbn in *.
  - intros n summary id' q c Hn Hq Hlt. cbn in *. destruct (decide (id' = id)) as [->|Hne].
    + rewrite lookup_insert_eq in Hq. injection Hq as <- <-. pose proof (iv_last schema pk s Hi) as Hlast. rewrite Forall_forall in Hlast.
      assert (n ≤ last_commit_lsn (sys_state s)); [|lia]. apply Hlast, list_elem_of_fmap. by exists (n, summary).
    + rewrite lookup_insert_ne in Hq by done. by eapply Hl.
  - intros n summary id' q c Hn Hq Hlt. cbn in Hq. apply lookup_delete_Some in Hq as [_ Hq]. by eapply (Hl n summary id').
  - destruct (attempt_cases (last_commit_lsn (sys_state s)) _ _ _ _ Ha) as (_ & H2 & H3); [apply (iv_pipe schema pk s Hi)|]. cbn [published committing] in *.
    intros n summary id' q c Hn Hq Hlt. cbn in *. case_bool_decide as Hr.
    + destruct r as [[]| |]; [|done..]. destruct (H3 eq_refl) as (p & m & bytes & _ & Hpub & _ & _). rewrite fmap_app, elem_of_app.
      rewrite Hpub in Hn |- *. cbn [next_published recent_summaries last_commit_lsn] in Hn |- *.
      apply elem_of_app in Hn as [Hn|[= -> ->]%list_elem_of_singleton]; [left; by eapply Hl|right; by left].
    + rewrite H2 in Hn by (intros ->; by apply Hr). by eapply Hl.
  - intros n summary id' q c Hn Hq Hlt. cbn in *. destruct (checkpoint_shape (writer_lsns s) m (sys_state s)) as (_ & _ & H3 & _).
    rewrite H3 in Hn. eapply Hl; [|done|done]. eapply elem_of_sublist; [exact Hn|apply retained_sub].
  - done.
Qed.

Lemma reachable_logged s : reachable (E := E) schema pk s → summaries_logged s.
Proof.
  induction 1 as [s (_ & _ & _ & _ & _ & _ & Hw & _)|s s' Hr IH Hstep].
  - intros n summary id p0 b0 _ Hq. by rewrite Hw in Hq.
  - eapply step_logged; [by eapply reachable_inv|done|done].
Qed.
End system.

(** C15: progress.  In every state that write transactions, commits and
    checkpoints lead to, a commit is refused as conflicting only when another
    transaction has committed successfully after its snapshot was taken, so
    writers cannot block each other for ever; and a transaction that begins on
    the published state and commits before anyone else is never refused as
    conflicting, whatever it writes. *)
Theorem conflict_means_progress `{Crc32c} `{SerdeJson} {E : Type} `{TxnEnv E} `{CommitEnv E} (schema : NodeTableSchema) (pk : nat) (s : System) :
  primary_key_column schema = Ok pk → reachable (E := E) schema pk s →
  (∀ id p0 b0 t c, write_txns s !! id = Some (p0, b0) →
    detect_conflict (sys_state s) (last_commit_lsn p0) t = Err (TransactionConflict c) →
    ∃ n ops, (n, ops) ∈ commit_log s ∧ last_commit_lsn p0 < n) ∧
  (∀ t c, detect_conflict (sys_state s) (last_commit_lsn (sys_state s)) t ≠ Err (TransactionConflict c)).
Proof.
  intros Hpk Hr. split.
  - intros id p0 b0 t c Hid (n & summary & Hin & Hn)%conflict_newer.
    pose proof (reachable_logged schema pk Hpk s Hr n summary id p0 b0 Hin Hid Hn) as ([m ops] & -> & Hm)%list_elem_of_fmap. by exists m, ops.
  - intros t c (n & summary & Hin & Hn)%conflict_newer. pose proof (reachable_inv schema pk Hpk s Hr) as Hi.
    pose proof (iv_last schema pk s Hi) as Hlast. rewrite Forall_forall in Hlast.
    assert (n ≤ last_commit_lsn (sys_state s)); [|lia]. apply Hlast, list_elem_of_fmap. by exists (n, summary).
Qed.

(** Two writers on one snapshot: the insert commits, an insert of the same key
    is then refused as conflicting, and the commit that did it is in the log. *)
Definition ex_again : Transaction := ex_insert.

Lemma conflict_means_progress_witness :
  (∃ c, detect_conflict (sys_state ex_system) (last_commit_lsn ex_published) ex_again = Err (TransactionConflict c)) ∧
  ∃ n ops, (n, ops) ∈ commit_log ex_system ∧ last_commit_lsn ex_published < n.
Proof.
  split; [eexists; vm_compute; reflexivity|].
  destruct (conflict_means_progress (H := castagnoli) (H0 := plain_json) (E := unit) (H1 := unit_env) (H2 := unit_commit_env) ex_schema 0 ex_system) as [Hp _].
  - vm_compute. reflexivity.
  - exact ex_system_reachable.
  - eapply (Hp 1 ex_published ex_base ex_again); vm_compute; reflexivity.
Defined.
