(* ===== verification/Recovery.v ===== *)
(** Recovery: [devondb/src/database/recovery.rs].

    Opening a database replays the committed groups of the log over the
    checkpointed catalog.  Each group becomes a delta again, is validated
    against the catalog and the row totals, and is linked in front of the
    chain.  The theorems are that what a commit logs is what recovery reads
    back, that the recovered state shows what the chain of those commits showed,
    and which logs and commits recovery refuses. *)

From stdpp Require Import gmap sorting.
From S2P Require Import Prelude Bytes Superblock Wal Types Schema TxnLog Catalog Overlay View NodeTable Checkpoint Lookup Resolve Txn Staging Facade Commit Isolation.


(** ** Reading the log *)

(** The offset behind the record of [target_lsn]. *)
Fixpoint offset_after_lsn (offset : Z) (records : list (Z * list Z)) (target_lsn : Z) : outcome Z :=
  match records with
  | [] => Err (Corrupt "WAL commit LSN {target_lsn} is missing from its replay batch")
  | (lsn, payload) :: records =>
      let! offset := ok_or (try_u 64 (offset + Z.of_nat HEADER_LEN + zlen payload)) (InvalidArgument "WAL cursor exceeds u64::MAX") in
      if lsn =? target_lsn then Ok offset else offset_after_lsn offset records target_lsn
  end.

Record ReplayedWal := mkReplayed { replayed_groups : list CommittedGroup; first_lsn : option Z; committed_offset : Z; intact_offset : Z }.

Section replay.
Context `{Crc : !Crc32c} `{SJ : !SerdeJson}.

(** [None] is a file that does not exist. *)
Definition replay_wal_from (file : option (list Z)) (offset : Z) : outcome ReplayedWal :=
  let! (records, intact) := match file with
    | Some f => replay_from f (Z.to_nat offset)
    | None => if offset =? 0 then Ok ([], 0%nat) else Err (Io "not found")
    end in
  let! groups := group_transactions records 0 in
  let! committed := match last groups with
    | Some group => offset_after_lsn offset records (commit_lsn group)
    | None => Ok offset
    end in
  Ok (mkReplayed groups (fst <$> head records) committed (Z.of_nat intact)).

(** The records up to the last commit. *)
Definition is_commit_record (record : Z * list Z) : bool := match decode_payload record.2 with Ok (Commit _) => true | _ => false end.

Definition prefix_bytes (records : list (Z * list Z)) : outcome Z :=
  for_each records 0 (λ total r, ok_or (try_u 64 (total + Z.of_nat HEADER_LEN + zlen r.2)) (InvalidArgument "WAL prefix length exceeds u64::MAX")).

(** The file after the tail without a commit has been cut off. *)
Definition trim_unterminated_tail (file : list Z) (records : list (Z * list Z)) : outcome (list Z) :=
  match list_find (λ r, is_commit_record r = true) (reverse records) with
  | None => match records with [] => Ok file | _ => Ok [] end
  | Some (0%nat, _) => Ok file
  | Some (i, _) =>
      let! prefix_len := prefix_bytes (take (length records - i) records) in
      Ok (take (Z.to_nat prefix_len) file)
  end.
End replay.

(** ** The recovered state *)

Record RecoveryState := mkRecovery {
  r_catalog : Catalog;
  checkpointed_totals : gmap table_name Z;
  overlay_totals : gmap table_name Z;
  r_chain : option CommitLink;
  r_summaries : list (Z * CommitSummary);
  r_last_lsn : Z;
  r_generation : Z;
  r_flags : Z;
}.

Definition checkpointed_node_totals `{GroupStore W} (w : W) (c : Catalog) : outcome (gmap table_name Z) :=
  for_each (node_tables c) ∅ (λ totals schema,
    let! total := for_each (stored_groups c (node_name schema)) 0 (λ total id,
      let! rows := map_err (λ _, Corrupt "node table `{}` group {group_index} has invalid metadata during recovery: {error}")
        (group_row_count w id (length (node_columns schema))) in
      ok_or (try_u 64 (total + Z.of_nat rows)) (Corrupt "checkpointed row count for node table `{}` exceeds u64::MAX during recovery")) in
    Ok (<[node_name schema := total]> totals)).

Definition increment_overlay_totals (totals : gmap table_name Z) (d : CommitDelta) : outcome (gmap table_name Z) :=
  for_each (btree_iter (nodes d)) totals (λ totals '(table, rows),
    let! total := ok_or (try_u 64 (default 0 (totals !! table) + zlen rows))
      (Corrupt "WAL transaction committed at LSN {commit_lsn} overflows the overlay row count for node table `{table}`") in
    Ok (<[table := total]> totals)).

Definition from_checkpoint `{GroupStore W} (w : W) (c : Catalog) (checkpoint_lsn flags : Z) : outcome RecoveryState :=
  let! totals := checkpointed_node_totals w c in
  Ok (mkRecovery c totals ∅ None [] checkpoint_lsn checkpoint_lsn flags).

Definition from_published `{GroupStore W} (w : W) (current : PublishedState) (flags : Z) : outcome RecoveryState :=
  let! totals := checkpointed_node_totals w (pub_catalog current) in
  let! overlay := for_each (commit_links_oldest_first (pub_chain current)) ∅ (λ totals link, increment_overlay_totals totals (delta link)) in
  Ok (mkRecovery (pub_catalog current) totals overlay (pub_chain current) (recent_summaries current) (last_commit_lsn current)
    (catalog_generation current) flags).

(** [entry(name).or_insert(0)]. *)
Definition or_insert_zero (m : gmap table_name Z) (table : table_name) : gmap table_name Z :=
  match m !! table with Some _ => m | None => <[table := 0]> m end.

Definition register_tables (c : Catalog) (totals : gmap table_name Z) : gmap table_name Z :=
  foldl (λ m schema, or_insert_zero m (node_name schema)) totals (node_tables c).

Definition recovered_node_total (checkpointed overlay : gmap table_name Z) (d : CommitDelta) (table : table_name) : outcome Z :=
  let! base := ok_or (checkpointed !! table) (Corrupt "WAL transaction committed at LSN {commit_lsn} references missing endpoint node table `{table}`") in
  let overlay := default 0 (overlay !! table) in
  let own := zlen (table_rows (nodes d) table) in
  let overflow := Corrupt "WAL transaction committed at LSN {commit_lsn} overflows the row count for node table `{table}`" in
  let! total := ok_or (try_u 64 (base + overlay)) overflow in
  ok_or (try_u 64 (total + own)) overflow.

(** ** Validation *)

Definition recovered_dml_schema (c : Catalog) (table : table_name) : outcome NodeTableSchema :=
  ok_or (node_table c table) (Corrupt "WAL transaction committed at LSN {commit_lsn} names unknown DML node table `{table}`").

Definition incomplete_detach : DevonError :=
  Corrupt "WAL transaction committed at LSN {commit_lsn} deletes from relationship endpoint node table `{table}` without complete `{rel}` {endpoint} tombstones".

Definition reject_recovered_referenced_delete (c : Catalog) (schema : NodeTableSchema) (keys : list Value) (d : CommitDelta) : outcome () :=
  for_each (rel_tables c) () (λ _ rel,
    let claims := default no_tombstones (rel_tombstones d !! rel_name rel) in
    if bool_decide (fold (rel_from rel) = fold (node_name schema)) && negb (Nat.eqb (size (from_offsets claims)) (length keys)) then Err incomplete_detach else
    if bool_decide (fold (rel_to rel) = fold (node_name schema)) && negb (Nat.eqb (size (to_offsets claims)) (length keys)) then Err incomplete_detach else
    Ok ()).

Definition recover_rows (schema : NodeTableSchema) (rows : list row) (error : DevonError) : outcome () :=
  let! _ := for_each rows [] (λ buffered r, map_err (λ _, error) (recover_row schema buffered r)) in Ok ().

Definition validate_recovered_dml (c : Catalog) (d : CommitDelta) : outcome () :=
  let! _ := for_each (btree_iter (node_updates d)) () (λ _ '(table, rows),
    let! schema := recovered_dml_schema c table in
    recover_rows schema rows (Corrupt "WAL transaction committed at LSN {commit_lsn} has invalid update for node table `{table}`: {error}")) in
  for_each (btree_iter (node_deletes d)) () (λ _ '(table, keys),
    let! schema := recovered_dml_schema c table in
    let! _ := reject_recovered_referenced_delete c schema keys d in
    let! (key_index, _) := primary_key_of schema in
    let! column := expect (node_columns schema !! key_index) in
    for_each keys () (λ _ key,
      if bool_decide (key = Null) || negb (matches_type key (ty column))
      then Err (Corrupt "WAL transaction committed at LSN {commit_lsn} has invalid delete key for `{table}.{key_column}`: {key}") else Ok ())).

Definition validate_recovered_role_offsets (checkpointed overlay : gmap table_name Z) (d : CommitDelta) (endpoint_table : table_name)
    (offsets : gset Z) : outcome () :=
  if bool_decide (offsets = ∅) then Ok () else
  if negb (existsb (λ entry, bool_decide (fold entry.1 = fold endpoint_table)) (btree_iter (node_deletes d)))
  then Err (Corrupt "WAL transaction committed at LSN {commit_lsn} has `{rel}` {endpoint:?} tombstones but does not detach node table `{endpoint_table}`") else
  let! total := recovered_node_total checkpointed overlay d endpoint_table in
  if existsb (λ offset, total <=? offset) (elements offsets)
  then Err (Corrupt "WAL transaction committed at LSN {commit_lsn} has out-of-range `{rel}` {endpoint:?} tombstone offset {offset} for domain {total}") else Ok ().

Definition validate_recovered_rel_tombstones (c : Catalog) (checkpointed overlay : gmap table_name Z) (d : CommitDelta) : outcome () :=
  for_each (btree_iter (rel_tombstones d)) () (λ _ '(rel, ts),
    let! schema := ok_or (rel_table c rel) (Corrupt "WAL transaction committed at LSN {commit_lsn} names unknown relationship tombstone table `{rel}`") in
    let! _ := validate_recovered_role_offsets checkpointed overlay d (rel_from schema) (from_offsets ts) in
    validate_recovered_role_offsets checkpointed overlay d (rel_to schema) (to_offsets ts)).

Definition validate_recovered_edges (c : Catalog) (checkpointed overlay : gmap table_name Z) (d : CommitDelta) (table : table_name)
    (es : list OverlayEdge) : outcome () :=
  let! schema := ok_or (rel_table c table) (Corrupt "WAL transaction committed at LSN {commit_lsn} names unknown relationship table `{table}`") in
  let! from_total := recovered_node_total checkpointed overlay d (rel_from schema) in
  let! to_total := recovered_node_total checkpointed overlay d (rel_to schema) in
  for_each es () (λ _ e,
    let! _ := map_err (λ _, Corrupt "WAL transaction committed at LSN {commit_lsn} has invalid edge for relationship table `{table}`: {error}")
      (validate_values schema (edge_values e)) in
    if (from_total <=? edge_from e) || (to_total <=? edge_to e)
    then Err (Corrupt "WAL transaction committed at LSN {commit_lsn} has out-of-range offsets ({}, {}) for relationship table `{table}`") else Ok ()).

Definition validate_recovered_delta (c : Catalog) (checkpointed overlay : gmap table_name Z) (d : CommitDelta) : outcome () :=
  let! _ := for_each (btree_iter (nodes d)) () (λ _ '(table, rows),
    let! schema := ok_or (node_table c table) (Corrupt "WAL transaction committed at LSN {commit_lsn} names unknown node table `{table}`") in
    recover_rows schema rows (Corrupt "WAL transaction committed at LSN {commit_lsn} has invalid row for node table `{table}`: {error}")) in
  let! _ := validate_recovered_dml c d in
  let! _ := validate_recovered_rel_tombstones c checkpointed overlay d in
  for_each (btree_iter (edges d)) () (λ _ '(table, es), validate_recovered_edges c checkpointed overlay d table es).

(** ** Applying a group *)

Section apply.
Context {B : Type} (budget_try : Z → B → bool * B) (budget_release : Z → B → B).

Definition recovery_error : DevonError → DevonError := λ _, Corrupt "WAL transaction committed at LSN {commit_lsn} has {operation}: {error}".

Definition charge_bytes (bytes : Z) : SM B () := λ b,
  match budget_try bytes b with
  | (true, b) => (Ok (), b)
  | (false, b) => (Err (BudgetExceeded "{} requested {charged_bytes} bytes with {} bytes charged and limit {}"), b)
  end.

(** [CommitSummary::new_arc] and [CommitLink::new_arc]: the charge is released
    with what holds it, here when a later step fails. *)
Definition apply_group (s : RecoveryState) (group : CommittedGroup) : SM B RecoveryState :=
  let lsn := commit_lsn group in
  if lsn <=? r_last_lsn s then slift (Err (Corrupt "WAL commit LSN {commit_lsn} does not strictly follow previous commit LSN {}")) else
  let+ d := slift (map_err recovery_error (from_committed_group group)) in
  let+ c := slift (map_err (λ _, Corrupt "WAL transaction committed at LSN {commit_lsn} has invalid DDL: {error}") (apply_ddl_to_catalog (r_catalog s) (ddl d))) in
  if delta_mutates_indexed_table c d && (Z.land (r_flags s) HNSW_MUTATION_WAL_FLAG =? 0)
  then slift (Err (Corrupt "WAL transaction at LSN {commit_lsn} mutates an HNSW table without HNSW_MUTATION_WAL")) else
  let checkpointed := register_tables c (checkpointed_totals s) in
  let overlay := register_tables c (overlay_totals s) in
  let+ _ := slift (validate_recovered_delta c checkpointed overlay d) in
  let+ summary := slift (map_err recovery_error (summary_from_delta c d)) in
  let+ summary_bytes := slift (map_err recovery_error (summary_estimated_bytes summary)) in
  let+ _ := smap_err recovery_error (charge_bytes summary_bytes) in
  let rest : SM B RecoveryState :=
    let+ overlay := slift (increment_overlay_totals overlay d) in
    let+ delta_bytes := slift (map_err recovery_error (delta_estimated_bytes d)) in
    let+ link_bytes := slift (map_err recovery_error (checked_estimate COMMIT_LINK_OVERHEAD_BYTES delta_bytes)) in
    let+ _ := smap_err recovery_error (charge_bytes link_bytes) in
    sret (mkRecovery c checkpointed overlay (Some (mkLink (r_chain s) lsn d link_bytes)) (r_summaries s ++ [(lsn, summary)]) lsn (r_generation s) (r_flags s)) in
  λ b, match rest b with
  | (Err e, b) => (Err e, budget_release summary_bytes b)
  | r => r
  end.

Definition published_of (s : RecoveryState) : PublishedState :=
  mkPublished (r_catalog s) (r_chain s) (r_last_lsn s) (r_generation s) (r_summaries s).

Definition apply_groups (s : RecoveryState) (groups : list CommittedGroup) : SM B PublishedState :=
  let+ s := sfor groups s apply_group in sret (published_of s).

Definition recover_published_state `{GroupStore W} (w : W) (c : Catalog) (groups : list CommittedGroup) (checkpoint_lsn flags : Z) : SM B PublishedState :=
  let+ s := slift (from_checkpoint w c checkpoint_lsn flags) in apply_groups s groups.

Definition extend_published_state `{GroupStore W} (w : W) (current : PublishedState) (groups : list CommittedGroup) (flags : Z) : SM B PublishedState :=
  let+ s := slift (from_published w current flags) in apply_groups s groups.
End apply.

(** ** What a commit logs *)

(** A table without rows is not logged. *)
Definition drop_empty {A} (m : gmap table_name (list A)) : gmap table_name (list A) := filter (λ e, e.2 ≠ []) m.

Lemma drop_empty_rows {A} (m : gmap table_name (list A)) t : table_rows (drop_empty m) t = table_rows m t.
Proof.
  unfold table_rows, drop_empty. destruct (m !! t) as [[|x l]|] eqn:Em.
  - by rewrite map_lookup_filter_None_2 by (right; intros ? [= <-]%(eq_trans (eq_sym Em)); naive_solver).
  - by rewrite (map_lookup_filter_Some_2 _ _ _ (x :: l)).
  - by rewrite map_lookup_filter_None_2 by (by left).
Qed.

Definition logged_delta (d : CommitDelta) : CommitDelta :=
  mkDelta (drop_empty (nodes d)) (drop_empty (node_updates d)) (drop_empty (node_deletes d)) (drop_empty (edges d)) (rel_tombstones d) (ddl d).

Lemma logged_ops d table : commit_ops table (logged_delta d) = commit_ops table d.
Proof. unfold commit_ops. cbn. by rewrite !drop_empty_rows. Qed.

(** The entries of a map, pushed one value at a time. *)
Definition push_rows {A} (m : gmap table_name (list A)) (t : table_name) (xs : list A) : gmap table_name (list A) := foldl (λ m x, push_entry m t x) m xs.

Lemma push_rows_lookup {A} (t : table_name) (xs : list A) : ∀ m t',
  push_rows m t xs !! t' = if decide (t' = t ∧ xs ≠ []) then Some (default [] (m !! t) ++ xs) else m !! t'.
Proof.
  induction xs as [|x xs IH] using rev_ind; intros m t'.
  - by rewrite decide_False by naive_solver.
  - unfold push_rows. rewrite foldl_app. cbn [foldl]. fold (push_rows m t xs). unfold push_entry. destruct (decide (t' = t)) as [->|Hne].
    + rewrite lookup_insert_eq, decide_True by (split; [done|]; by destruct xs). rewrite IH, app_assoc. f_equal. f_equal.
      destruct (decide (t = t ∧ xs ≠ [])) as [|Hx]; [done|]. assert (xs = []) as -> by (destruct xs; naive_solver). by rewrite app_nil_r.
    + rewrite lookup_insert_ne by done. rewrite IH, !decide_False by naive_solver. done.
Qed.

Lemma push_all_ok {A} (l : list (table_name * list A)) : ∀ m t,
  NoDup l.*1 →
  (∃ xs, (t, xs) ∈ l ∧ xs ≠ [] ∧ foldl (λ m e, push_rows m e.1 e.2) m l !! t = Some (default [] (m !! t) ++ xs)) ∨
  (∀ xs, (t, xs) ∈ l → xs = []) ∧ foldl (λ m e, push_rows m e.1 e.2) m l !! t = m !! t.
Proof.
  induction l as [|[t0 xs0] l IH]; intros m t; csimpl; [by right; split; [intros ? ?%elem_of_nil|]|]. intros [Ht0 Hnd]%NoDup_cons.
  destruct (IH (push_rows m t0 xs0) t Hnd) as [(xs & Hin & Hne & ->)|[Hall ->]].
  - left. exists xs. split_and!; [by right|done|]. rewrite push_rows_lookup, decide_False; [done|]. intros [-> _]. apply Ht0.
    apply list_elem_of_fmap. by exists (t0, xs).
  - rewrite push_rows_lookup. destruct (decide (t = t0 ∧ xs0 ≠ [])) as [[-> Hx]|Hx].
    + left. exists xs0. split_and!; [by left|done|done].
    + right. split; [|done]. intros xs [[= -> ->]|Hin]%elem_of_cons; [|by apply Hall]. destruct xs0; naive_solver.
Qed.

Lemma push_all_drop {A} (m : gmap table_name (list A)) : foldl (λ m e, push_rows m e.1 e.2) ∅ (btree_iter m) = drop_empty m.
Proof.
  apply map_eq. intros t. unfold drop_empty. destruct (push_all_ok (btree_iter m) ∅ t (btree_iter_NoDup m)) as [(xs & Hin%elem_of_btree_iter & Hne & ->)|[Hall ->]].
  - rewrite lookup_empty. symmetry. by apply map_lookup_filter_Some_2.
  - rewrite lookup_empty. symmetry. apply map_lookup_filter_None_2. right. intros xs Hx%elem_of_btree_iter Hne. by apply Hne, Hall.
Qed.

(** Payloads of one kind fill one map of the delta. *)
Lemma fill_map {A} (payload : table_name → A → WalPayload) (with_map : gmap table_name (list A) → CommitDelta) :
  (∀ m t x, delta_step (with_map m) (payload t x) = Ok (with_map (push_entry m t x))) →
  ∀ l m, for_each (l ≫= λ e, payload e.1 <$> e.2) (with_map m) delta_step = Ok (with_map (foldl (λ m e, push_rows m e.1 e.2) m l)).
Proof.
  intros Hstep l. induction l as [|[t xs] l IH]; intros m; [done|]. csimpl. rewrite for_each_app.
  assert (for_each (payload t <$> xs) (with_map m) delta_step = Ok (with_map (push_rows m t xs))) as ->; [|apply IH].
  clear IH. revert m. induction xs as [|x xs IH]; intros m; [done|]. csimpl. rewrite Hstep. apply IH.
Qed.

Definition rel_insert (rel : table_name) (e : OverlayEdge) : WalPayload := RelInsert rel (edge_from e) (edge_to e) (edge_values e).

Lemma fill_ddl l : ∀ ns us ds es ts dd, for_each (Ddl <$> l) (mkDelta ns us ds es ts dd) delta_step = Ok (mkDelta ns us ds es ts (dd ++ l)).
Proof.
  induction l as [|x l IH]; intros ns us ds es ts dd; csimpl; [by rewrite app_nil_r|]. rewrite IH, <- app_assoc. done.
Qed.

(** Tombstones *)

Definition add_claim (roles : RelEndpointTombstones) (claim : RelDeleteClaim) : RelEndpointTombstones :=
  match claim.1 with
  | From => mkTombstones ({[claim.2]} ∪ from_offsets roles) (to_offsets roles)
  | To => mkTombstones (from_offsets roles) ({[claim.2]} ∪ to_offsets roles)
  end.

Definition rel_delete (rel : table_name) (claim : RelDeleteClaim) : WalPayload := RelDelete rel claim.1 claim.2.

Definition push_claims (ts : gmap table_name RelEndpointTombstones) (rel : table_name) (claimed : list RelDeleteClaim) : gmap table_name RelEndpointTombstones :=
  match claimed with [] => ts | _ => <[rel := foldl add_claim (default no_tombstones (ts !! rel)) claimed]> ts end.

Lemma push_claims_cons ts rel c claimed : push_claims ts rel (c :: claimed) = push_claims (<[rel := add_claim (default no_tombstones (ts !! rel)) c]> ts) rel claimed.
Proof. destruct claimed; cbn; [done|]. by rewrite lookup_insert_eq, insert_insert_eq. Qed.

Lemma fill_claims l : ∀ ns us ds es ts dd,
  for_each (l ≫= λ e : table_name * list RelDeleteClaim, rel_delete e.1 <$> e.2) (mkDelta ns us ds es ts dd) delta_step =
  Ok (mkDelta ns us ds es (foldl (λ m e, push_claims m e.1 e.2) ts l) dd).
Proof.
  induction l as [|[t xs] l IH]; intros ns us ds es ts dd; [done|]. csimpl. rewrite for_each_app.
  assert (for_each (rel_delete t <$> xs) (mkDelta ns us ds es ts dd) delta_step = Ok (mkDelta ns us ds es (push_claims ts t xs) dd)) as ->.
  { clear IH. revert ts. induction xs as [|[ep off] xs IH]; intros ts; [done|]. rewrite push_claims_cons, <- IH. by destruct ep. }
  apply IH.
Qed.

Lemma push_claims_all l : ∀ ts t,
  NoDup l.*1 → Forall (λ e : table_name * list RelDeleteClaim, e.2 ≠ []) l →
  foldl (λ m e, push_claims m e.1 e.2) ts l !! t =
    match list_to_map (M := gmap _ _) l !! t with Some claimed => Some (foldl add_claim (default no_tombstones (ts !! t)) claimed) | None => ts !! t end.
Proof.
  induction l as [|[t0 xs0] l IH]; intros ts t; csimpl; [done|]. intros [Ht0 Hnd]%NoDup_cons [Hx Hne]%Forall_cons. rewrite IH by done. cbn in Hx.
  destruct xs0 as [|x xs0]; [done|]. cbn [push_claims]. destruct (decide (t = t0)) as [->|Hd].
  - rewrite lookup_insert_eq. apply not_elem_of_list_to_map in Ht0. rewrite Ht0. by rewrite lookup_insert_eq.
  - rewrite !lookup_insert_ne by done. done.
Qed.

Lemma tombstones_pushed records :
  (∀ rel, records !! rel ≠ Some []) → foldl (λ m e, push_claims m e.1 e.2) ∅ (btree_iter records) = rel_tombstones_from_records records.
Proof.
  intros Hne. apply map_eq. intros t. rewrite push_claims_all; [|apply btree_iter_NoDup|].
  - rewrite lookup_empty. unfold rel_tombstones_from_records. rewrite lookup_fmap.
    assert (list_to_map (M := gmap _ _) (btree_iter records) = records) as ->.
    { apply map_eq. intros i. apply option_eq. intros x. rewrite <- elem_of_list_to_map by apply btree_iter_NoDup. apply elem_of_btree_iter. }
    destruct (records !! t) as [claimed|]; [|done]. cbn. f_equal.
    generalize no_tombstones. induction claimed as [|[ep off] claimed IH]; intros roles; [done|]. cbn [foldl]. by rewrite IH.
  - apply Forall_forall. intros [rel claimed] Hin%elem_of_btree_iter. cbn. intros ->. by apply (Hne rel).
Qed.

Lemma wal_records_alt d records :
  wal_records d records =
  (Ddl <$> ddl d) ++ (btree_iter (nodes d) ≫= λ e, NodeInsert e.1 <$> e.2) ++ (btree_iter (edges d) ≫= λ e, rel_insert e.1 <$> e.2) ++
  (btree_iter (node_updates d) ≫= λ e, NodeUpdate e.1 <$> e.2) ++ (btree_iter records ≫= λ e, rel_delete e.1 <$> e.2) ++
  (btree_iter (node_deletes d) ≫= λ e, NodeDelete e.1 <$> e.2).
Proof.
  unfold wal_records. f_equal. f_equal; [apply list_bind_ext; [by intros []|done]|]. f_equal; [apply list_bind_ext; [by intros []|done]|].
  f_equal; [apply list_bind_ext; [by intros []|done]|]. f_equal; [|apply list_bind_ext; [by intros []|done]].
  apply list_bind_ext; [|done]. intros [rel claimed]. apply list_fmap_ext. by intros ? [].
Qed.

(** What was logged reads back as the delta, less its empty tables. *)
Lemma records_roundtrip d records :
  rel_tombstones d = rel_tombstones_from_records records → (∀ rel, records !! rel ≠ Some []) →
  from_wal_payloads (wal_records d records) = Ok (logged_delta d).
Proof.
  intros Hts Hne. unfold from_wal_payloads, default_delta. rewrite wal_records_alt, for_each_app, fill_ddl. cbn [bind app]. rewrite for_each_app.
  rewrite (fill_map NodeInsert (λ m, mkDelta m ∅ ∅ ∅ ∅ (ddl d))) by done. cbn [bind]. rewrite for_each_app.
  rewrite (fill_map rel_insert (λ m, mkDelta _ ∅ ∅ m ∅ (ddl d))) by (by intros ?? []). cbn [bind]. rewrite for_each_app.
  rewrite (fill_map NodeUpdate (λ m, mkDelta _ m ∅ _ ∅ (ddl d))) by done. cbn [bind]. rewrite for_each_app, fill_claims. cbn [bind].
  rewrite (fill_map NodeDelete (λ m, mkDelta _ _ m _ _ (ddl d))) by done. by rewrite !push_all_drop, tombstones_pushed, <- Hts.
Qed.

(** ** The order of the records *)

Lemma sorted_ascending {A} (R : A → A → Prop) l : StronglySorted R l → Prelude.ascending R l.
Proof.
  induction 1 as [|x l Hs IH Hx]; intros i a b; [done|]. destruct i as [|i]; cbn; [|apply IH]. intros [= <-] Hb. rewrite Forall_forall in Hx.
  apply Hx. by eapply list_elem_of_lookup_2.
Qed.

Lemma sorted_names {A} (l : list (table_name * list A)) :
  StronglySorted key_le l → StronglySorted name_le ((l ≫= λ e, (λ _, e.1) <$> e.2) : list table_name).
Proof.
  assert (∀ a b, str_leP a b → name_le a b) as Hle.
  { intros a b. unfold str_leP, name_le, str_le. rewrite (str_cmp_antisym a b). by destruct (str_cmp a b). }
  induction 1 as [|[t xs] l Hs IH Ht]; csimpl; [constructor|]. apply StronglySorted_app. split_and!; [| |done].
  - intros x y (? & -> & _)%list_elem_of_fmap ([t' xs'] & (? & -> & _)%list_elem_of_fmap & Hin)%list_elem_of_bind. cbn. apply Hle.
    rewrite Forall_forall in Ht. apply (Ht _ Hin).
  - clear -Hle. induction xs as [|x xs IH]; csimpl; [constructor|]. constructor; [done|]. apply Forall_forall. intros y (? & -> & _)%list_elem_of_fmap.
    apply Hle. unfold str_leP. apply str_le_true. by left.
Qed.

Lemma omap_bind_const {A B} (f : WalPayload → option B) (payload : table_name → A → WalPayload) (g : table_name → A → option B) (l : list (table_name * list A)) :
  (∀ t x, f (payload t x) = g t x) → omap f (l ≫= λ e, payload e.1 <$> e.2) = l ≫= λ e, omap (g e.1) e.2.
Proof.
  intros Hf. induction l as [|[t xs] l IH]; [done|]. csimpl. rewrite omap_app, IH. f_equal. clear IH. induction xs as [|x xs IH]; [done|]. csimpl. by rewrite Hf, IH.
Qed.

Lemma omap_none {A B} (l : list (table_name * list A)) : (l ≫= λ e, omap (λ _, @None B) e.2) = [].
Proof. induction l as [|[t xs] l IH]; [done|]. csimpl. rewrite IH, app_nil_r. clear IH. by induction xs. Qed.

Lemma omap_some {A B} (l : list (table_name * list A)) (g : table_name → A → B) : (l ≫= λ e, omap (λ x, Some (g e.1 x)) e.2) = l ≫= λ e, g e.1 <$> e.2.
Proof. induction l as [|[t xs] l IH]; [done|]. csimpl. by rewrite IH. Qed.

(** The part of the records some function selects. *)
Lemma omap_records {B} (f : WalPayload → option B) d records :
  omap f (wal_records d records) =
  omap (f ∘ Ddl) (ddl d) ++ (btree_iter (nodes d) ≫= λ e, omap (f ∘ NodeInsert e.1) e.2) ++ (btree_iter (edges d) ≫= λ e, omap (f ∘ rel_insert e.1) e.2) ++
  (btree_iter (node_updates d) ≫= λ e, omap (f ∘ NodeUpdate e.1) e.2) ++ (btree_iter records ≫= λ e, omap (f ∘ rel_delete e.1) e.2) ++
  (btree_iter (node_deletes d) ≫= λ e, omap (f ∘ NodeDelete e.1) e.2).
Proof.
  rewrite wal_records_alt, !omap_app. f_equal; [induction (ddl d) as [|x l IH]; [done|]; csimpl; by rewrite IH|].
  rewrite (omap_bind_const f NodeInsert (λ t, f ∘ NodeInsert t)) by done. rewrite (omap_bind_const f rel_insert (λ t, f ∘ rel_insert t)) by done.
  rewrite (omap_bind_const f NodeUpdate (λ t, f ∘ NodeUpdate t)) by done. rewrite (omap_bind_const f rel_delete (λ t, f ∘ rel_delete t)) by done.
  by rewrite (omap_bind_const f NodeDelete (λ t, f ∘ NodeDelete t)) by done.
Qed.

Lemma omap_ddl_none {B} (l : list DdlOp) : omap (λ _, @None B) l = [].
Proof. by induction l. Qed.

Lemma phase_block {A} (payload : table_name → A → WalPayload) n (l : list (table_name * list A)) :
  (∀ t x, phase_of (payload t x) = n) → Forall (λ p, phase_of p = n) (l ≫= λ e, payload e.1 <$> e.2).
Proof. intros H. apply Forall_forall. intros p ([t xs] & (x & -> & _)%list_elem_of_fmap & _)%list_elem_of_bind. apply H. Qed.

Lemma sorted_phase n a b :
  Forall (λ p, phase_of p = n) a → Forall (λ p, n ≤ phase_of p) b → StronglySorted Z.le (phase_of <$> b) → StronglySorted Z.le (phase_of <$> (a ++ b)).
Proof.
  intros Ha Hb Hs. rewrite fmap_app. apply StronglySorted_app. split_and!; [| |done].
  - rewrite Forall_forall in Ha, Hb. intros x y (p & -> & Hp)%list_elem_of_fmap (q & -> & Hq)%list_elem_of_fmap. rewrite (Ha p Hp). auto.
  - clear -Ha. induction Ha as [|p a Hp Ha IH]; csimpl; [constructor|]. constructor; [done|]. rewrite Forall_fmap. eapply Forall_impl; [exact Ha|]. cbn. lia.
Qed.

Lemma phase_weaken n m l : n ≤ m → Forall (λ p, phase_of p = m) l → Forall (λ p, n ≤ phase_of p) l.
Proof. intros Hn H. eapply Forall_impl; [exact H|]. cbn. lia. Qed.

Lemma records_phases d records : StronglySorted Z.le (phase_of <$> wal_records d records).
Proof.
  rewrite wal_records_alt.
  assert (Forall (λ p, phase_of p = 0) (Ddl <$> ddl d)) as H0 by (by apply Forall_fmap, Forall_true).
  pose proof (phase_block NodeInsert 1 (btree_iter (nodes d)) (λ _ _, eq_refl)) as H1.
  pose proof (phase_block rel_insert 2 (btree_iter (edges d)) (λ _ _, eq_refl)) as H2.
  pose proof (phase_block NodeUpdate 3 (btree_iter (node_updates d)) (λ _ _, eq_refl)) as H3.
  pose proof (phase_block rel_delete 4 (btree_iter records) (λ _ _, eq_refl)) as H4.
  pose proof (phase_block NodeDelete 5 (btree_iter (node_deletes d)) (λ _ _, eq_refl)) as H5.
  repeat (eapply sorted_phase; [eassumption|rewrite ?Forall_app; split_and?; (eapply phase_weaken; [|eassumption]; lia)|]).
  rewrite <- (app_nil_r (_ ≫= _)). eapply sorted_phase; [eassumption|constructor|constructor].
Qed.

Lemma records_in_order d records :
  (∀ rel claimed, records !! rel = Some claimed → NoDup claimed) → validate_record_order (wal_records d records) = Ok ().
Proof.
  intros Hnd. unfold validate_record_order. rewrite (proj2 (order_loop _ (order_summary (wal_records d records)))); [done|]. split; [|done].
  split_and!.
  - apply Forall_forall. intros p Hp. destruct (is_commit p) eqn:Ep; [|done]. destruct p as [| | | | | |n]; try done.
    assert (n ∈ omap (λ p, match p with Commit n => Some n | _ => None end) (wal_records d records)) as Hn by (apply list_elem_of_omap; eauto).
    rewrite omap_records in Hn. unfold compose in Hn. cbn in Hn. by rewrite omap_ddl_none, !omap_none in Hn; apply elem_of_nil in Hn.
  - apply sorted_ascending, records_phases.
  - apply sorted_ascending. rewrite omap_records. unfold compose. cbn. rewrite omap_ddl_none, !omap_none, !app_nil_r, (omap_some _ (λ t _, t)).
    apply sorted_names, btree_iter_sorted.
  - apply sorted_ascending. rewrite omap_records. unfold compose. cbn. rewrite omap_ddl_none, !omap_none, !app_nil_r, (omap_some _ (λ t _, t)).
    apply sorted_names, btree_iter_sorted.
  - apply sorted_ascending. rewrite omap_records. unfold compose. cbn. rewrite omap_ddl_none, !omap_none, !app_nil_r, (omap_some _ (λ t _, t)).
    apply sorted_names, btree_iter_sorted.
  - rewrite omap_records. unfold compose. cbn. rewrite omap_ddl_none, !omap_none, !app_nil_r, (omap_some _ (λ t (x : RelDeleteClaim), (t, x.1, x.2))). cbn [app].
    apply NoDup_bind.
    + intros [t xs] [t' xs'] y Hin Hin' (x & -> & _)%list_elem_of_fmap (x' & [= -> _ _] & _)%list_elem_of_fmap.
      apply elem_of_btree_iter in Hin, Hin'. cbn in Hin. congruence.
    + intros [t xs] Hin%elem_of_btree_iter. cbn. apply NoDup_fmap_2_strong; [|by eapply Hnd]. intros [] [] _ _ [= -> ->]. done.
    + eapply NoDup_fmap_1, btree_iter_NoDup.
Qed.

(** ** The claims of a commit *)

Lemma append_claim_nodup claimed a b ep off : NoDup claimed → NoDup (append_rel_delete_claim claimed a b ep off).
Proof.
  intros H. unfold append_rel_delete_claim. destruct (bool_decide (fold a = fold b)); [|done]. case_bool_decide as Hin; [done|]. cbn. apply NoDup_snoc. done.
Qed.

Lemma claims_nodup rel resolved : NoDup (rel_delete_claims rel resolved).
Proof.
  unfold rel_delete_claims. assert (∀ l acc, NoDup acc → NoDup (foldl (λ claimed '(intent, offset),
    append_rel_delete_claim (append_rel_delete_claim claimed (rel_from rel) (detach_table intent) From offset) (rel_to rel) (detach_table intent) To offset) acc l)) as H.
  { induction l as [|[i o] l IH]; intros acc Hacc; [done|]. cbn [foldl]. by apply IH, append_claim_nodup, append_claim_nodup. }
  apply H. constructor.
Qed.

Definition claims_ok (records : RelDeleteRecords) : Prop := ∀ rel claimed, records !! rel = Some claimed → claimed ≠ [] ∧ NoDup claimed.

Section durable.
Context `{Crc : !Crc32c} `{SJ : !SerdeJson} {E : Type} `{TE : !TxnEnv E} `{CE : !CommitEnv E}.

Lemma detach_records_ok state c own ds e records e' : resolve_detaches_for_commit state c own ds e = (Ok records, e') → claims_ok records.
Proof.
  unfold resolve_detaches_for_commit. destruct ds as [|d ds]; [by intros [= <- <-]|]. intros (resolved & e1 & _ & [= <- _])%sbind_Ok.
  assert (∀ rels m, claims_ok m → claims_ok (foldl (λ records rel,
    match rel_delete_claims rel resolved with [] => records | claimed => <[rel_name rel := claimed]> records end) m rels)) as H; [|by apply H].
  induction rels as [|rel rels IH]; intros m Hm; [done|]. cbn [foldl]. apply IH. pose proof (claims_nodup rel resolved) as Hnd.
  destruct (rel_delete_claims rel resolved) as [|x claimed]; [done|]. intros rel' cl [[<- <-]|[_ Hl]]%lookup_insert_Some; [done|by eapply Hm].
Qed.

(** Every logged value comes from the write set. *)
Definition writes_exact (w : WriteSet) : Prop :=
  (∀ t rows, w_nodes w !! t = Some rows → Forall (Forall exact_value) rows) ∧ (∀ t rows, w_updates w !! t = Some rows → Forall (Forall exact_value) rows) ∧
  (∀ t keys, w_deletes w !! t = Some keys → Forall exact_value keys) ∧ (∀ t es, w_edges w !! t = Some es → Forall (λ e, Forall exact_value (pending_values e)) es) ∧
  Forall (λ d, ddl_ok (Ddl d)) (w_ddl w).

Lemma sfor_inv {W A T} (I : T → Prop) (xs : list A) : ∀ (s : T) (body : T → A → SM W T) (w w' : W) (s' : T),
  (∀ s x w s' w', x ∈ xs → I s → body s x w = (Ok s', w') → I s') → I s → sfor xs s body w = (Ok s', w') → I s'.
Proof.
  induction xs as [|x xs IH]; intros s body w w' s' Hb Hs; cbn [sfor]; [by intros [= <- <-]|].
  intros (s1 & w1 & H1 & H2)%sbind_Ok. eapply IH; [|by eapply Hb; [left|..]|exact H2]. intros. eapply Hb; [by right|..]; eauto.
Qed.

Lemma resolved_edges_exact state c own pending e es e' :
  (∀ t es, pending !! t = Some es → Forall (λ e, Forall exact_value (pending_values e)) es) →
  resolve_edges_for_view state c own pending e = (Ok es, e') → ∀ t l, es !! t = Some l → Forall (λ e, Forall exact_value (edge_values e)) l.
Proof.
  intros Hp. unfold resolve_edges_for_view.
  apply (sfor_inv (λ m : gmap table_name (list OverlayEdge), ∀ t l, m !! t = Some l → Forall (λ e, Forall exact_value (edge_values e)) l)).
  2: { by intros ?? ?%lookup_empty_Some. }
  intros m [t l] e1 m' e2 Hin%elem_of_btree_iter Hm (schema & ? & _ & (l' & e3 & Hl & [= <- _])%sbind_Ok)%sbind_Ok.
  assert (Forall (λ e, Forall exact_value (edge_values e)) l') as Hl'.
  { eapply (sfor_inv (λ l, Forall (λ e, Forall exact_value (edge_values e)) l)); [|constructor|exact Hl].
    intros acc pe e4 acc' e5 Hpe Hacc (from & ? & _ & (to & ? & _ & [= <- _])%sbind_Ok)%sbind_Ok. apply Forall_app. split; [done|]. constructor; [|constructor].
    specialize (Hp _ _ Hin). rewrite Forall_forall in Hp. by apply Hp. }
  intros t' l0 [[<- <-]|[_ ?]]%lookup_insert_Some; eauto.
Qed.

Lemma payloads_exact {A} (payload : table_name → A → WalPayload) (m : gmap table_name (list A)) (P : A → Prop) :
  (∀ t x, P x → payload_ok (payload t x)) → (∀ t l, m !! t = Some l → Forall P l) → Forall payload_ok (btree_iter m ≫= λ e, payload e.1 <$> e.2).
Proof.
  intros HP Hm. apply Forall_forall. intros p ([t l] & (x & -> & Hx)%list_elem_of_fmap & Hin%elem_of_btree_iter)%list_elem_of_bind. apply HP.
  specialize (Hm _ _ Hin). rewrite Forall_forall in Hm. auto.
Qed.

Lemma prepared_records current lsn t e p e' :
  prepare_commit current lsn t e = (Ok p, e') → writes_exact (writes t) →
  Forall payload_ok (wal_records (prepared_delta p) (rel_delete_records p)) ∧ claims_ok (rel_delete_records p).
Proof.
  unfold prepare_commit. intros ([] & ? & [_ ->]%slift_Ok & H)%sbind_Ok (Hn & Hu & Hd & He & Hddl). apply sbind_Ok in H as ([] & ? & [_ ->]%slift_Ok & H).
  apply sbind_Ok in H as (c & ? & [_ ->]%slift_Ok & H). apply sbind_Ok in H as ([] & ? & [_ ->]%slift_Ok & H).
  apply sbind_Ok in H as ([d records] & e1 & Hb & H). apply sbind_Ok in H as (summary & ? & [_ ->]%slift_Ok & H).
  unfold build_commit_delta in Hb. apply sbind_Ok in Hb as (es & e2 & Hes & Hb). apply sbind_Ok in Hb as (recs & e3 & Hrecs & Hb).
  apply sbind_Ok in Hb as ([] & e4 & _ & Hb). unfold sret in *. injection Hb as <- <- ->. injection H as <- <-. cbn [prepared_delta rel_delete_records].
  split; [|by eapply detach_records_ok]. rewrite wal_records_alt. cbn [ddl nodes edges node_updates node_deletes]. rewrite !Forall_app. split_and!.
  - apply Forall_fmap. eapply Forall_impl; [exact Hddl|]. intros x Hx. split; [constructor|done].
  - by eapply (payloads_exact NodeInsert).
  - eapply (payloads_exact rel_insert); [|eapply resolved_edges_exact; [exact He|]]; [by intros|]. unfold smap_err in Hes.
    destruct (resolve_edges_for_view _ _ _ _ _) as [r e5] eqn:Er. injection Hes as Hes ->. apply map_err_Ok in Hes. by rewrite Hes in Er.
  - by eapply (payloads_exact NodeUpdate).
  - eapply (payloads_exact rel_delete _ (λ _, True)); [|intros; by apply Forall_true]. intros ? []. split; [constructor|done].
  - eapply (payloads_exact NodeDelete); [|exact Hd]. intros ?? Hx. split; [by repeat constructor|done].
Qed.

(** ** What reaches the file *)

Lemma append_acked fault payload w lsn w' : append fault payload w = (Ok lsn, w') → fault = NoFault.
Proof.
  unfold append. destruct (ensure_usable w), (next_lsn w); try done. destruct (encode_header _ _); try done. destruct (try_u 64 _); try done.
  destruct fault; [done|]. by destruct (recover_failed_append _ _).
Qed.

Lemma append_records_acked payloads : ∀ w faults lsn0 rs r w' faults',
  append_records w faults lsn0 payloads = (Ok r, (w', faults')) → writer_inv w rs →
  ∃ lsns, length lsns = length payloads ∧ writer_inv w' (rs ++ zip lsns payloads) ∧ r = from_option Some lsn0 (last lsns).
Proof.
  induction payloads as [|payload payloads IH]; intros w faults lsn0 rs r w' faults'; cbn [append_records].
  - intros [= <- <- <-] Hi. exists []. rewrite app_nil_r. done.
  - intros H Hi. destruct (append _ payload w) as [[l| |] w1] eqn:Ea; [|done..]. pose proof (append_acked _ _ _ _ _ Ea) as Hf. rewrite Hf in Ea.
    pose proof (append_inv NoFault payload w rs Hi ltac:(done)) as Ha. rewrite Ea in Ha. destruct Ha as [_ Ha].
    destruct (IH _ _ _ _ _ _ _ H Ha) as (lsns & Hl & Hi' & ->). exists (l :: lsns). split_and!; [cbn; lia|by rewrite <- app_assoc in Hi'|].
    by destruct lsns as [|x lsns] using rev_ind; [|rewrite app_comm_cons, !last_snoc].
Qed.

Lemma attempt_logged lsn cs cs' :
  attempt lsn cs = (Ok (), cs') →
  ∃ p e' encoded w w' faults' n bytes,
    prepare_commit (published cs) lsn (committing cs) (Commit.env cs) = (Ok p, e') ∧
    encode_transaction (wal_records (prepared_delta p) (rel_delete_records p)) = Ok encoded ∧ pipe_wal (pipe cs) = Some w ∧
    append_records w (write_faults (pipe cs)) None encoded = (Ok (Some n), (w', faults')) ∧ pipe cs' = mkPipe (Some w') faults' ∧
    published cs' = next_published (published cs) p n bytes.
Proof.
  unfold attempt. intros (p & cs1 & Hprep & H)%sbind_Ok. apply sbind_Ok in H as (r & cs2 & Htr & H). unfold prepare in Hprep.
  destruct (prepare_commit _ _ _ _) as [rp e1] eqn:Ep. injection Hprep as -> <-. unfold transfer in Htr. cbn [published pipe committing Commit.env] in Htr.
  destruct (transfer_commit_charge _ _ _) as [rt [w0 e2]]. injection Htr as -> <-. unfold publish_commit, publish_prepared_commit in H.
  cbn [published pipe committing Commit.env] in H. destruct (summary_estimated_bytes _); [|done..]. destruct (negb _); [done|].
  match type of H with context [match ?m ?s with _ => _ end] => destruct (m s) as [[n| |] [p' e3]] eqn:Em; [|done..] end. injection H as <-.
  apply sbind_Ok in Em as (b & ? & [_ ->]%slift_Ok & Em). apply sbind_Ok in Em as (l & ? & [_ ->]%slift_Ok & Em). destruct (negb (_ =? _)); [done|].
  unfold make_durable in Em. apply sbind_Ok in Em as (encoded & ? & [Henc ->]%slift_Ok & Em). destruct (pipe_wal (pipe cs)) as [w|] eqn:Ew; [|done].
  destruct (set_wal_feature_flags _ _ _ _) as [[[]| |] e4]; [|done..]. destruct (append_records _ _ _ _) as [ra [w' faults']] eqn:Ea.
  destruct ra as [on| |]; [|done..]. destruct (sync_wal e4) as [[[]| |] e5]; [|done..]. injection Em as Hn <- <-. apply ok_or_Ok in Hn as ->.
  eexists p, e1, encoded, w, w', faults', n, _. by split_and!.
Qed.

(** The log ends between transactions. *)
Definition complete_log (checkpoint : Z) (rs : list WalRecord) (groups : list CommittedGroup) : Prop :=
  ∃ previous, for_each rs ([], [], None) (group_step checkpoint) = Ok ([], groups, previous).

Lemma complete_groups checkpoint rs groups : complete_log checkpoint rs groups → group_transactions rs checkpoint = Ok groups.
Proof. intros [previous H]. unfold group_transactions. by rewrite H. Qed.

Lemma group_previous checkpoint rs : ∀ s s', for_each rs s (group_step checkpoint) = Ok s' → s'.2 = s.2 ∨ ∃ l, s'.2 = Some l ∧ l ∈ rs.*1.
Proof.
  induction rs as [|[l bs] rs IH]; intros s s'; cbn [for_each]; [intros [= ->]; by left|]. intros (s1 & H1 & H2)%bind_Ok. csimpl.
  destruct (IH _ _ H2) as [->|(l' & ? & ?)]; [|right; exists l'; split; [done|by right]].
  unfold group_step in H1. destruct s as [[pending groups] previous]. apply bind_Ok in H1 as (p & _ & H1).
  destruct p; simplify_eq/=; try by left. right. inv_ok H1. subst. exists l. split; [done|by left].
Qed.

Lemma ascending_above last rs : Wal.ascending last rs → ∀ l r, last = Some l → r ∈ rs → l < r.1.
Proof.
  revert last. induction rs as [|r rs IH]; intros last; cbn; [by intros _ ?? _ ?%elem_of_nil|]. intros [H1 H2] l r' Hl [->|Hin]%elem_of_cons; [auto|].
  specialize (H1 l Hl). specialize (IH _ H2 _ _ eq_refl Hin). lia.
Qed.

Lemma ascending_split last a b : Wal.ascending last (a ++ b) → ∀ r s, r ∈ a → s ∈ b → r.1 < s.1.
Proof.
  revert last. induction a as [|x a IH]; intros last; cbn; [by intros _ ?? ?%elem_of_nil|]. intros [_ H2] r s [->|Hin]%elem_of_cons Hs; [|eauto].
  eapply ascending_above; [exact H2|done|]. apply elem_of_app. by right.
Qed.
End durable.

(** C3: a commit that succeeds is on disk and recovers to what it published.
    When the log held complete transactions only, after the commit it holds one
    more: replaying the file and grouping its records gives the earlier groups
    and one whose LSN is the published one, and decoding that group gives the
    delta of the published link, up to tables without rows, which show nothing
    to any reader.  The values the transaction wrote are ones whose JSON text
    reads back to the same value ([writes_exact], from [exact_value]). *)
Theorem commit_durable `{Crc32c} `{SerdeJson} {E : Type} `{TxnEnv E} `{CommitEnv E} (checkpoint lsn : Z) (cs cs' : CommitState (E := E))
    (w : WalWriter) (rs : list WalRecord) (groups : list CommittedGroup) :
  pipe_wal (pipe cs) = Some w → writer_inv w rs → complete_log checkpoint rs groups → pipe_above checkpoint (pipe cs) →
  writes_exact (writes (committing cs)) → attempt lsn cs = (Ok (), cs') →
  ∃ w' rs' link group,
    pipe_wal (pipe cs') = Some w' ∧ writer_inv w' rs' ∧ replay (file w') = rs' ∧ complete_log checkpoint rs' (groups ++ [group]) ∧
    pub_chain (published cs') = Some link ∧ prev link = pub_chain (published cs) ∧
    link_lsn link = last_commit_lsn (published cs') ∧ commit_lsn group = last_commit_lsn (published cs') ∧
    from_committed_group group = Ok (logged_delta (delta link)) ∧
    ∀ table, commit_ops table (logged_delta (delta link)) = commit_ops table (delta link).
Proof.
  intros Hw Hi [previous Hlog] Habove Hex Ha. pose proof (attempt_cases checkpoint _ _ _ _ Ha Habove) as (_ & _ & Hok).
  destruct (attempt_logged _ _ _ Ha) as (p & e' & encoded & w0 & w' & faults' & n & bytes & Hprep & Henc & Hw0 & Happ & Hpipe & Hpub).
  rewrite Hw in Hw0. injection Hw0 as <-. destruct (prepared_records _ _ _ _ _ _ Hprep Hex) as [Hpay Hcl].
  pose proof (prepare_commit_Ok _ _ _ _ _ _ Hprep) as (_ & _ & _ & _ & _ & _ & _ & Hts).
  destruct (append_records_acked _ _ _ _ _ _ _ _ Happ Hi) as (lsns & Hlen & Hi' & Hn).
  set (records := wal_records (prepared_delta p) (rel_delete_records p)) in *.
  destruct (encode_transaction_Ok _ _ Henc) as (_ & Hord & _ & _ & body & commit & -> & Hbody & _).
  destruct lsns as [|n' lsns _] using rev_ind; [done|]. rewrite last_snoc in Hn. injection Hn as <-.
  assert (length lsns = length records) as Hll.
  { rewrite !length_app in Hlen. cbn in Hlen. rewrite (Forall2_length _ _ _ Hbody). lia. }
  set (l := mkLogged lsns n records). assert (zip (lsns ++ [n]) (body ++ [commit]) = logged_bytes l (body ++ [commit])) as Ezip by done.
  assert (checkpoint < n) as Hck.
  { destruct (Hok eq_refl) as (p2 & n2 & b2 & _ & Hpub2 & Hn2 & _). rewrite Hpub in Hpub2. apply (f_equal last_commit_lsn) in Hpub2. cbn in Hpub2. by subst n2. }
  assert (n ∈ (zip (lsns ++ [n]) (body ++ [commit])).*1) as Hnin.
  { rewrite fst_zip by lia. apply elem_of_app. right. by left. }
  assert (∀ prev, previous = Some prev → prev < n) as Hprev.
  { intros prev ->. destruct (group_previous _ _ _ _ Hlog) as [|(l' & [= ->] & Hin)]; [done|]. apply list_elem_of_fmap in Hin as (r & -> & Hr).
    apply list_elem_of_fmap in Hnin as (s & -> & Hs). eapply ascending_split; [apply (inv_log _ _ Hi')|done|done]. }
  pose proof (group_logged checkpoint groups previous l _ (conj Henc (conj Hll Hpay)) Hprev) as Hgroup. cbn [commit_at l] in Hgroup.
  rewrite (proj2 (Z.ltb_lt _ _) Hck) in Hgroup.
  eexists w', _, _, (logged_group l). rewrite Hpipe, Hpub. cbn [pipe_wal next_published pub_chain last_commit_lsn].
  split_and!; [done|exact Hi'|apply replay_torn, (inv_log _ _ Hi')| |done|done|done|done| |].
  - eexists. by rewrite for_each_app, Hlog, Ezip.
  - unfold from_committed_group, logged_group. cbn [TxnLog.records commit_lsn commit_at l txn]. rewrite bool_decide_false.
    + rewrite payload_mkRecord. apply records_roundtrip; [done|]. intros rel Hrel. by destruct (Hcl rel [] Hrel).
    + intros (r & (p0 & -> & _)%list_elem_of_fmap & Hne)%Exists_exists. by apply Hne.
  - intros table. apply logged_ops.
Qed.

Lemma ex_open_inv : writer_inv (H := castagnoli) (open (H := castagnoli) [] 11) [].
Proof. apply open_inv; [|done]. by apply (torn_log_intact (H := castagnoli) []). Qed.

Lemma ex_pipe_above : pipe_above 10 (sys_pipe ex_start).
Proof. intros w [= <-] n. unfold open, scan_intact_prefix. rewrite read_from_eq. cbn. intros [= <-]. lia. Qed.

Lemma commit_durable_witness :
  ∃ w' rs' group,
    pipe_wal (pipe (ex_attempt ex_start ex_insert).2) = Some w' ∧ replay (H := castagnoli) (file w') = rs' ∧
    group_transactions (SJ := plain_json) rs' 10 = Ok [group] ∧ from_committed_group group = Ok (mkDelta {[ex_table := [ex_row 7 70]]} ∅ ∅ ∅ ∅ []).
Proof.
  destruct (commit_durable (H := castagnoli) (H0 := plain_json) (H1 := unit_env) (H2 := unit_commit_env) 10 10
    (mkCommitState (sys_state ex_start) (sys_pipe ex_start) ex_insert tt) (ex_attempt ex_start ex_insert).2 (open (H := castagnoli) [] 11) [] [])
    as (w' & rs' & link & group & H1 & H2 & H3 & H4 & H5 & _ & _ & _ & H8 & _).
  - reflexivity.
  - exact ex_open_inv.
  - exists None. reflexivity.
  - exact ex_pipe_above.
  - split_and!; try (intros; by repeat (apply Forall_forall; intros)). constructor.
  - vm_compute. reflexivity.
  - exists w', rs', group. split_and!; [exact H1|exact H3|exact (complete_groups (SJ := plain_json) _ _ _ H4)|].
    rewrite H8. vm_compute in H5. injection H5 as <-. vm_compute. reflexivity.
Defined.

(** ** What a recovered state shows *)

(** The log's group of a published link, as [commit_durable] leaves it. *)
Definition logged_as (link : CommitLink) (group : CommittedGroup) : Prop :=
  commit_lsn group = link_lsn link ∧ from_committed_group group = Ok (logged_delta (delta link)).

(** The link recovery makes of it. *)
Definition relinked (link link' : CommitLink) : Prop :=
  link_lsn link' = link_lsn link ∧ delta link' = logged_delta (delta link).

(** Readers see a chain only through the operations on the table they read. *)
Lemma view_chain_ext c h1 h2 own schema base :
  chain_ops h1 (node_name schema) = chain_ops h2 (node_name schema) →
  node_rows_for_view (mkView c h1 own) schema base = node_rows_for_view (mkView c h2 own) schema base.
Proof.
  intros E. unfold node_rows_for_view, visible_dml_effects, physical_slots, state_dml_effects, state_node_slots,
    node_slots_oldest_first, effective_node_rows. cbn [state_catalog state_chain View.own].
  assert (∀ i, node_dml_effects i h1 (node_name schema) = node_dml_effects i h2 (node_name schema)) as Heff
    by (intros i; by rewrite !effects_chain_ops, E).
  assert (∀ pk s, for_each (commit_links_oldest_first h1) s (slots_link pk (node_name schema)) =
    for_each (commit_links_oldest_first h2) s (slots_link pk (node_name schema))) as Hslots by (intros pk s; by rewrite !slots_chain_ops, E).
  rewrite Hslots. destruct (primary_key_of schema) as [[i n]| |]; [|done..]. cbn [bind].
  destruct (node_table c (node_name schema)) as [t|]; [|done]. cbn [ok_or bind].
  destruct (list_find _ (node_columns t)) as [[j x]|]; [|done]. cbn [ok_or bind]. by rewrite Heff.
Qed.

Lemma relinked_ops h h' table :
  Forall2 relinked (commit_links_oldest_first h) (commit_links_oldest_first h') → chain_ops h' table = chain_ops h table.
Proof.
  unfold chain_ops. generalize (commit_links_oldest_first h), (commit_links_oldest_first h'). intros l l' Hl.
  induction Hl as [|x y l l' [_ Hd] _ IH]; [done|]. csimpl. by rewrite IH, Hd, logged_ops.
Qed.

Section recovered.
Context {B : Type} (budget_try : Z → B → bool * B) (budget_release : Z → B → B).

(** One group that was applied. *)
Lemma apply_group_Ok s group b s' b' :
  apply_group budget_try budget_release s group b = (Ok s', b') →
  ∃ d bytes summary, r_last_lsn s < commit_lsn group ∧ from_committed_group group = Ok d ∧
    apply_ddl_to_catalog (r_catalog s) (ddl d) = Ok (r_catalog s') ∧ summary_from_delta (r_catalog s') d = Ok summary ∧
    r_chain s' = Some (mkLink (r_chain s) (commit_lsn group) d bytes) ∧ r_summaries s' = r_summaries s ++ [(commit_lsn group, summary)] ∧
    r_last_lsn s' = commit_lsn group ∧ r_generation s' = r_generation s.
Proof.
  unfold apply_group. destruct (Z.leb_spec (commit_lsn group) (r_last_lsn s)); [done|]. unfold sbind at 1, slift at 1.
  destruct (from_committed_group group) as [d| |]; [|done..]. cbn [map_err]. unfold sbind at 1, slift at 1.
  destruct (apply_ddl_to_catalog (r_catalog s) (ddl d)) as [c| |] eqn:Eddl; [|done..]. cbn [map_err].
  destruct (_ && _); [done|]. unfold sbind at 1, slift at 1. destruct (validate_recovered_delta _ _ _ _); [|done..].
  unfold sbind at 1, slift at 1. destruct (summary_from_delta c d) as [summary| |] eqn:Esum; [|done..]. cbn [map_err].
  unfold sbind at 1, slift at 1. destruct (summary_estimated_bytes summary) as [sb| |]; [|done..]. cbn [map_err].
  unfold sbind at 1. destruct (smap_err _ _ b) as [[[]| |] b1]; [|done..].
  unfold sbind at 1, slift at 1. destruct (increment_overlay_totals _ _) as [totals| |]; [|done..].
  unfold sbind at 1, slift at 1. destruct (delta_estimated_bytes d) as [db| |]; [|done..]. cbn [map_err].
  unfold sbind at 1, slift at 1. destruct (checked_estimate _ _) as [lb| |]; [|done..]. cbn [map_err].
  unfold sbind at 1. destruct (smap_err _ _ b1) as [[[]| |] b2]; [|done..]. intros [= <- <-].
  exists d, lb, summary. by split_and!.
Qed.

Lemma apply_groups_Ok links groups : ∀ s b s' b',
  Forall2 logged_as links groups → sfor groups s (apply_group budget_try budget_release) b = (Ok s', b') →
  ∃ new, commit_links_oldest_first (r_chain s') = commit_links_oldest_first (r_chain s) ++ new ∧ Forall2 relinked links new ∧
    apply_ddl_to_catalog (r_catalog s) (links ≫= λ link, ddl (delta link)) = Ok (r_catalog s') ∧
    (r_summaries s').*1 = (r_summaries s).*1 ++ (link_lsn <$> links) ∧
    r_last_lsn s' = default (r_last_lsn s) (last (link_lsn <$> links)) ∧ r_generation s' = r_generation s ∧
    Sorted Z.lt (r_last_lsn s :: (link_lsn <$> links)).
Proof.
  intros s b s' b' Hl. revert s b. induction Hl as [|link group links groups [Hlsn Hd] _ IH]; intros s b Hrun.
  { injection Hrun as <- <-. exists []. rewrite !app_nil_r. split_and!; try done. by repeat constructor. }
  cbn [sfor] in Hrun. unfold sbind in Hrun. destruct (apply_group _ _ s group b) as [[s1| |] b1] eqn:Eg; [|done..].
  apply apply_group_Ok in Eg as (d & bytes & summary & Hlt & Hd' & Hc & _ & Hch & Hsum & Hlast & Hgen).
  rewrite Hd in Hd'. injection Hd' as <-.
  destruct (IH s1 b1 Hrun) as (new & Hnew & Hre & Hcat & Hsums & Hll & Hgg & Hasc).
  exists (mkLink (r_chain s) (commit_lsn group) (logged_delta (delta link)) bytes :: new). split_and!.
  - by rewrite Hnew, Hch, oldest_first_snoc, <- app_assoc.
  - by constructor.
  - csimpl. unfold apply_ddl_to_catalog in *. rewrite for_each_app. cbn [logged_delta ddl] in Hc. by rewrite Hc.
  - rewrite Hsums, Hsum, fmap_app, <- app_assoc. csimpl. by rewrite Hlsn.
  - rewrite Hll, Hlast, Hlsn. csimpl. by destruct (link_lsn <$> links) eqn:E; [|rewrite last_cons_cons; destruct (last _) eqn:E'; [|by apply last_None in E']].
  - by rewrite Hgg.
  - csimpl. rewrite Hlast, Hlsn in Hasc. constructor; [done|]. constructor. lia.
Qed.
End recovered.

(** C23: what a recovered state shows.  When the groups of the log are those of
    a published chain, as every successful commit leaves them (C3), and recovery
    accepts them, the recovered chain has the same commits in the same order
    with the same LSNs and deltas (up to tables without rows), their LSNs
    ascend strictly from the checkpoint, the catalog is the checkpointed one
    with their DDL applied in order, there is one conflict summary per commit;
    and every reader, of node rows, of relationship edges and of endpoint
    tombstones, gets what it got from the published chain. *)
Theorem recovery_shows_commits `{GroupStore W} {B : Type} (budget_try : Z → B → bool * B) (budget_release : Z → B → B) (w : W)
    (c : Catalog) (head : option CommitLink) (groups : list CommittedGroup) (checkpoint_lsn flags : Z) (b b' : B) (state : PublishedState)
    (links := commit_links_oldest_first head) :
  Forall2 logged_as links groups →
  recover_published_state budget_try budget_release w c groups checkpoint_lsn flags b = (Ok state, b') →
  Forall2 relinked links (commit_links_oldest_first (pub_chain state)) ∧
  last_commit_lsn state = default checkpoint_lsn (last (link_lsn <$> links)) ∧ catalog_generation state = checkpoint_lsn ∧
  Sorted Z.lt (checkpoint_lsn :: (link_lsn <$> links)) ∧
  apply_ddl_to_catalog c (links ≫= λ link, ddl (delta link)) = Ok (pub_catalog state) ∧
  (recent_summaries state).*1 = link_lsn <$> links ∧
  (∀ catalog own schema base, node_rows_for_view (mkView catalog (pub_chain state) own) schema base =
     node_rows_for_view (mkView catalog head own) schema base) ∧
  (∀ rel, rel_edges_oldest_first (pub_chain state) rel = rel_edges_oldest_first head rel ∧
     rel_tombstones_oldest_first (pub_chain state) rel = rel_tombstones_oldest_first head rel).
Proof.
  intros Hl. unfold recover_published_state, apply_groups, sbind, slift, from_checkpoint.
  destruct (checkpointed_node_totals w c) as [totals| |]; [|done..]. cbn [bind].
  destruct (sfor groups _ _ b) as [[s'| |] b1] eqn:Erun; [|done..]. intros [= <- <-].
  destruct (apply_groups_Ok budget_try budget_release links groups _ _ _ _ Hl Erun) as (new & Hnew & Hre & Hcat & Hsum & Hlast & Hgen & Hasc).
  cbn [commit_links_oldest_first app reverse r_chain] in Hnew. cbn in Hnew. unfold published_of. cbn [pub_chain last_commit_lsn catalog_generation pub_catalog recent_summaries].
  assert (Forall2 relinked links (commit_links_oldest_first (r_chain s'))) as Hall by (by rewrite Hnew).
  split_and!; [done|done|done|done|done|done| |].
  - intros catalog own schema base. apply view_chain_ext. by apply relinked_ops.
  - intros rel. unfold rel_edges_oldest_first, rel_tombstones_oldest_first. fold links. rewrite Hnew. clear -Hre. split.
    + induction Hre as [|x y l l' [_ Hd] _ IH]; [done|]. csimpl. rewrite IH, Hd. cbn [logged_delta edges]. by rewrite drop_empty_rows.
    + generalize no_tombstones. induction Hre as [|x y l l' [_ Hd] _ IH]; intros ts; [done|]. cbn [foldl]. rewrite Hd. apply IH.
Qed.

(** Two commits, an insert and then an update, replayed from their log. *)
Definition ex_after : CommitState := (ex_attempt ex_system ex_update).2.
Definition ex_log : list CommittedGroup :=
  match pipe_wal (pipe ex_after) with
  | Some w => default [] (to_option (group_transactions (SJ := plain_json) (replay (H := castagnoli) (file w)) 10))
  | None => []
  end.
Definition ex_recover : outcome PublishedState * Z :=
  recover_published_state ex_charge (λ n b, b + n) ex_store (pub_catalog ex_published) ex_log 10 DML_WAL_FLAG 100000.
Definition ex_recovered : PublishedState := default ex_published (to_option ex_recover.1).

Lemma recovery_shows_commits_witness :
  (recent_summaries ex_recovered).*1 = link_lsn <$> commit_links_oldest_first (pub_chain (published ex_after)) ∧
  length (commit_links_oldest_first (pub_chain ex_recovered)) = 2%nat ∧
  live_rows <$> to_option (node_rows_for_view (mkView (pub_catalog ex_recovered) (pub_chain ex_recovered) None) ex_schema ex_base) =
    Some [ex_row 1 12; ex_row 2 20; ex_row 7 70].
Proof.
  destruct (recovery_shows_commits ex_charge (λ n b, b + n) ex_store (pub_catalog ex_published) (pub_chain (published ex_after)) ex_log
    10 DML_WAL_FLAG 100000 ex_recover.2 ex_recovered) as (Hre & _ & _ & _ & _ & Hsum & Hrows & _).
  - assert (commit_links_oldest_first (pub_chain (published ex_after)) =
      [default (mkLink None 0 default_delta 0) (commit_links_oldest_first (pub_chain (published ex_after)) !! 0%nat);
       default (mkLink None 0 default_delta 0) (commit_links_oldest_first (pub_chain (published ex_after)) !! 1%nat)]) as -> by (vm_compute; reflexivity).
    assert (ex_log = [default (mkGroup 0 []) (ex_log !! 0%nat); default (mkGroup 0 []) (ex_log !! 1%nat)]) as -> by (vm_compute; reflexivity).
    repeat constructor; vm_compute; reflexivity.
  - change (ex_recover = (Ok ex_recovered, ex_recover.2)). transitivity (ex_recover.1, ex_recover.2); [apply surjective_pairing|].
    assert (ex_recover.1 = Ok ex_recovered) as -> by (vm_compute; reflexivity). reflexivity.
  - split; [exact Hsum|]. split; [|rewrite Hrows; vm_compute; reflexivity].
    rewrite <- (Forall2_length _ _ _ Hre). vm_compute. reflexivity.
Defined.

(** ** Commits recovery refuses *)

Section refused.
Context `{Crc : !Crc32c} `{SJ : !SerdeJson}.

(** A write that fails has not written every byte. *)
Definition torn_faults (faults : list WriteFault) (payloads : list (list Z)) : Prop :=
  ∀ i n b payload, faults !! i = Some (WriteFails n b) → payloads !! i = Some payload → (n < 16 + length payload)%nat.

(** Records acknowledged before the failure stay in the log. *)
Lemma append_records_failed payloads : ∀ w faults lsn0 rs e w' faults',
  append_records w faults lsn0 payloads = (Err e, (w', faults')) → writer_inv w rs → torn_faults faults payloads →
  ∃ lsns, (length lsns < length payloads)%nat ∧ writer_inv w' (rs ++ zip lsns (take (length lsns) payloads)).
Proof.
  induction payloads as [|payload payloads IH]; intros w faults lsn0 rs e w' faults'; cbn [append_records]; [done|]. intros H Hi Hf.
  pose proof (append_inv (default NoFault (head faults)) payload w rs Hi) as Ha.
  destruct (append _ payload w) as [[l| |] w1].
  - destruct Ha as [_ Ha].
    { intros n b Hn. destruct faults as [|f faults]; [done|]. cbn in Hn. subst f. by apply (Hf 0%nat n b payload). }
    destruct (IH _ _ _ _ _ _ _ H Ha) as (lsns & Hl & Hi').
    { intros i n b q Hi' Hq. destruct faults as [|f faults]; [done|]. by apply (Hf (S i) n b q). }
    exists (l :: lsns). split; [cbn; lia|]. by rewrite <- app_assoc in Hi'.
  - injection H as _ <- _. exists []. split; [cbn; lia|]. rewrite app_nil_r. apply Ha. intros n b Hn. destruct faults as [|f faults]; [done|].
    cbn in Hn. subst f. by apply (Hf 0%nat n b payload).
  - done.
Qed.

Lemma group_orphans checkpoint groups previous pending l encoded :
  pending ≠ [] → logged_ok l encoded → checkpoint < commit_at l →
  ∃ msg, for_each (logged_bytes l encoded) (pending, groups, previous) (group_step checkpoint) = Err (Corrupt msg).
Proof.
  intros Hne (He & Hl & Hok) Hck.
  destruct (encode_transaction_Ok _ _ He) as (_ & _ & _ & Hnc & body & commit & -> & Hbody & Hcommit).
  assert (Forall2 (λ p bs, decode_payload bs = Ok p) (txn l) body) as Hdec.
  { apply Forall2_same_length_lookup. split; [by eapply Forall2_length|]. intros i p bs Hp Hbs.
    rewrite Forall_lookup in Hok. eapply payload_roundtrip; [|by eapply Hok]. by eapply (Forall2_lookup_lr _ _ _ _ _ _ Hbody). }
  assert (decode_payload commit = Ok (Commit (zlen (txn l)))) as Hdc by (eapply payload_roundtrip; [exact Hcommit|]; split; [constructor|done]).
  pose proof (Forall2_length _ _ _ Hbody) as Hbl. unfold logged_bytes. rewrite zip_with_app by lia.
  rewrite for_each_app, (group_records _ _ _ _ _ (txn l)) by (done || lia). cbn [bind for_each zip_with]. unfold group_step. rewrite Hdc. cbn [map_err bind].
  destruct (ensure_ascending_commit_lsn previous (commit_at l)) as [[]|err|] eqn:Eas; cbn [bind].
  - unfold finish_group. rewrite (proj2 (Z.leb_gt _ _)) by lia. destruct (try_u 64 _) as [n|] eqn:Et; cbn [ok_or bind]; [|eauto].
    apply try_u_Some in Et as [-> _]. assert (zlen (txn l) =? zlen (pending ++ txn l) = false) as ->; [|cbn; eauto].
    apply Z.eqb_neq. unfold zlen. rewrite length_app. destruct pending; [done|cbn; lia].
  - unfold ensure_ascending_commit_lsn in Eas. destruct previous; [|done]. destruct (_ <=? _); [|done]. injection Eas as <-. eauto.
  - unfold ensure_ascending_commit_lsn in Eas. destruct previous; [|done]. by destruct (_ <=? _).
Qed.
End refused.

(** C22: a failed commit can block recovery.  If a commit fails on a write after
    some of its records were acknowledged, and the file is repaired so that the
    writer stays usable, those records remain in the log; once another commit
    succeeds, its commit record closes a group that holds them too, and grouping
    the replayed log is refused as corrupt: the database does not open. *)
Theorem failed_commit_blocks_recovery `{Crc32c} `{SerdeJson} (checkpoint : Z) (w w1 w2 : WalWriter) (rs : list WalRecord) (groups : list CommittedGroup)
    (ps1 ps2 : list WalPayload) (enc1 enc2 : list (list Z)) (faults1 faults2 faults1' faults2' : list WriteFault) (e : DevonError) (n : Z) :
  writer_inv w rs → complete_log checkpoint rs groups → encode_transaction ps1 = Ok enc1 → encode_transaction ps2 = Ok enc2 →
  Forall payload_ok ps1 → Forall payload_ok ps2 → torn_faults faults1 enc1 →
  append_records w faults1 None enc1 = (Err e, (w1, faults1')) → (log_end w < log_end w1)%nat →
  append_records w1 faults2 None enc2 = (Ok (Some n), (w2, faults2')) → checkpoint < n →
  ∃ msg, group_transactions (replay (file w2)) checkpoint = Err (Corrupt msg).
Proof.
  intros Hi [previous Hlog] He1 He2 Hp1 Hp2 Hf Ha1 Hgrow Ha2 Hck.
  destruct (append_records_failed _ _ _ _ _ _ _ _ Ha1 Hi Hf) as (lsns1 & Hl1 & Hi1).
  destruct (append_records_acked _ _ _ _ _ _ _ _ Ha2 Hi1) as (lsns2 & Hl2 & Hi2 & Hn).
  destruct (encode_transaction_Ok _ _ He1) as (_ & _ & _ & Hnc & body & commit & -> & Hbody & _).
  destruct (encode_transaction_Ok _ _ He2) as (_ & _ & _ & _ & body2 & commit2 & -> & Hbody2 & _).
  rewrite length_app in Hl1. cbn in Hl1. destruct lsns2 as [|n' lsns2 _] using rev_ind; [rewrite length_app in Hl2; cbn in Hl2; lia|].
  rewrite last_snoc in Hn. injection Hn as <-.
  assert (lsns1 ≠ []) as Hne.
  { intros ->. rewrite (inv_end _ _ Hi), (inv_end _ _ Hi1) in Hgrow. cbn in Hgrow. rewrite app_nil_r in Hgrow. lia. }
  unfold group_transactions. rewrite (replay_torn _ _ (inv_log _ _ Hi2)), !for_each_app, Hlog. cbn [bind]. rewrite take_app_le by lia.
  pose proof (Forall2_length _ _ _ Hbody) as Hbl. pose proof (Forall2_length _ _ _ Hbody2) as Hbl2.
  rewrite (group_records _ _ _ _ _ (take (length lsns1) ps1)).
  - cbn [bind app]. destruct (group_orphans checkpoint groups previous (take (length lsns1) ps1) (mkLogged lsns2 n ps2) (body2 ++ [commit2])) as [msg Hmsg].
    + destruct lsns1; [done|]. destruct ps1; [|done]. cbn in Hbl, Hl1. lia.
    + split_and!; [done| |done]. cbn. rewrite !length_app in Hl2. cbn in Hl2. lia.
    + done.
    + unfold logged_bytes in Hmsg. cbn [lsns commit_at] in Hmsg. rewrite Hmsg. by exists msg.
  - apply Forall2_take. apply Forall2_same_length_lookup. split; [done|]. intros i p bs Hp Hbs. rewrite Forall_lookup in Hp1.
    eapply payload_roundtrip; [|by eapply Hp1]. by eapply (Forall2_lookup_lr _ _ _ _ _ _ Hbody).
  - by apply Forall_take.
  - rewrite length_take. lia.
Qed.

(** Two inserts, the second of which fails to be written; then one more insert. *)
Definition ex_payloads1 : list WalPayload := [NodeInsert ex_table (ex_row 5 50); NodeInsert ex_table (ex_row 6 60)].
Definition ex_payloads2 : list WalPayload := [NodeInsert ex_table (ex_row 7 70)].
Definition encoded_of (ps : list WalPayload) : list (list Z) := default [] (to_option (encode_transaction (SJ := plain_json) ps)).
Definition ex_append (w : WalWriter) (faults : list WriteFault) (ps : list WalPayload) : outcome (option Z) * (WalWriter * list WriteFault) :=
  append_records (Crc := castagnoli) w faults None (encoded_of ps).
Definition ex_writer1 : WalWriter := (ex_append (open (H := castagnoli) [] 11) [NoFault; WriteFails 3 true] ex_payloads1).2.1.
Definition ex_writer2 : WalWriter := (ex_append ex_writer1 [] ex_payloads2).2.1.

Lemma failed_commit_blocks_recovery_witness :
  ∃ msg, group_transactions (SJ := plain_json) (replay (H := castagnoli) (file ex_writer2)) 10 = Err (Corrupt msg).
Proof.
  refine (failed_commit_blocks_recovery (H := castagnoli) (H0 := plain_json) 10 (open (H := castagnoli) [] 11) ex_writer1 ex_writer2 [] []
    ex_payloads1 ex_payloads2 (encoded_of ex_payloads1) (encoded_of ex_payloads2) [NoFault; WriteFails 3 true] [] [] [] (Io "append failed") 13
    ex_open_inv _ _ _ _ _ _ _ _ _ _).
  - exists None. reflexivity.
  - vm_compute. reflexivity.
  - vm_compute. reflexivity.
  - repeat constructor.
  - repeat constructor.
  - intros [|[|i]] n b payload; [done| |done]. intros [= <- <-] [= <-]. vm_compute. lia.
  - vm_compute. reflexivity.
  - vm_compute. lia.
  - vm_compute. reflexivity.
  - lia.
Defined.

(** Key 1 is deleted while no relationship names the table, key 2 is detached,
    and the same transaction then creates a relationship table over it. *)
Definition ex_rel : list Z := [82].
Definition ex_mixed : list Statement :=
  [DeleteNode ex_table [105; 100] (Int64 1); DetachDeleteNode ex_table [105; 100] (Int64 2); CreateRelTable ex_rel ex_table ex_table []].
Definition ex_facade : TxnEnv (Facade Z) :=
  facade_env ex_store ex_charge ex_reserve 100 24 ex_charge (λ _ b, b) (λ _ b, b) (λ b, (Ok (), b)) (λ p _, Ok p) (λ _ _ _ _ _ b, (Ok (), b)) (λ _, (false, false)) (λ _, true) 7.
Definition ex_facade_commit : CommitEnv (Facade Z) := {|
  budget_limit _ := 0; sync_wal e := (Ok (), e); feature_flags _ := 0; commit_feature_flags _ e := (Ok (), e);
  propose_commit_deltas _ _ _ e := (Ok (), e); checkpoint_locked s e := (Ok (), (s, e)) |}.
Definition ex_mixed_run : list (outcome ()) * (Transaction * Facade Z) := run_statements (TE := ex_facade) ex_mixed (new_transaction ex_catalog None, mkFacade ∅ 100000 []).
Definition ex_mixed_commit : outcome () * CommitState :=
  attempt (Crc := castagnoli) (SJ := plain_json) (TE := ex_facade) (CE := ex_facade_commit) 10
    (mkCommitState (mkPublished ex_catalog None 10 10 []) (mkPipe (Some (open (H := castagnoli) [] 11)) []) ex_mixed_run.2.1 ex_mixed_run.2.2).
Definition ex_mixed_records : list WalRecord :=
  match pipe_wal (pipe ex_mixed_commit.2) with Some w => replay (H := castagnoli) (file w) | None => [] end.

(** Recovery can refuse a commit that was published.  A transaction that deletes one
    row of an unreferenced table, detach-deletes another and then creates a
    relationship table over it commits, is durable and is published; but on
    reopening, recovery counts one detached endpoint for two deletes and refuses
    the log as corrupt. *)
Example mixed_delete_blocks_recovery :
  forallb is_ok ex_mixed_run.1 = true ∧ ex_mixed_commit.1 = Ok () ∧ last_commit_lsn (published ex_mixed_commit.2) = 16 ∧
  ∃ groups, group_transactions (SJ := plain_json) ex_mixed_records 10 = Ok groups ∧
    (recover_published_state ex_charge (λ n b, b + n) ex_store ex_catalog groups 10 DML_WAL_FLAG 100000).1 = Err incomplete_detach.
Proof. split_and!; [vm_compute; reflexivity..|]. eexists. split; [vm_compute; reflexivity|]. vm_compute. reflexivity. Qed.
