(* ===== verification/F64.v ===== *)
(** Double-precision arithmetic: the [f64] and [f32] operations the expression
    evaluator uses ([devondb-exec/src/eval.rs]).

    A float is stored as its IEEE-754 bit pattern (as in [Value]); arithmetic
    decodes it to the Standard Library's [spec_float], operates there with
    round-to-nearest-even at 53 bits, and encodes the result.  The bit pattern
    of a NaN result is not determined by the language, so it is a parameter. *)

From S2P Require Import Prelude Bytes Decimal Types.
From Stdlib Require Import SpecFloat.

(** ** Bit patterns *)

Definition prec : Z := 53.
Definition emax : Z := 1024.

Definition f64_of_bits (bits : Z) : spec_float :=
  let s := Z.testbit bits 63 in
  let ex := Z.land (Z.shiftr bits 52) 2047 in
  let mant := Z.land bits (2 ^ 52 - 1) in
  if ex =? 0 then
    match mant with Zpos m => S754_finite s m (-1074) | _ => S754_zero s end
  else if ex =? 2047 then
    if mant =? 0 then S754_infinity s else S754_nan
  else
    match mant + 2 ^ 52 with Zpos m => S754_finite s m (ex - 1075) | _ => S754_nan end.

Definition sign_bit (s : bool) : Z := if s then 2 ^ 63 else 0.

Definition bits_of_f64 (nan : Z) (x : spec_float) : Z :=
  match x with
  | S754_zero s => sign_bit s
  | S754_infinity s => sign_bit s + Z.shiftl 2047 52
  | S754_nan => nan
  | S754_finite s m e =>
      if Zpos m <? 2 ^ 52 then sign_bit s + Zpos m
      else sign_bit s + Z.shiftl (e + 1075) 52 + (Zpos m - 2 ^ 52)
  end.

Definition f64_of_f32_bits (bits : Z) : spec_float :=
  let s := Z.testbit bits 31 in
  let ex := Z.land (Z.shiftr bits 23) 255 in
  let mant := Z.land bits (2 ^ 23 - 1) in
  if ex =? 0 then
    match mant with Zpos m => binary_round prec emax s m (-149) | _ => S754_zero s end
  else if ex =? 255 then
    if mant =? 0 then S754_infinity s else S754_nan
  else
    match mant + 2 ^ 23 with Zpos m => binary_round prec emax s m (ex - 150) | _ => S754_nan end.

(** ** Operations *)

Definition f64_add := SFadd prec emax.
Definition f64_sub := SFsub prec emax.
Definition f64_mul := SFmul prec emax.
Definition f64_div := SFdiv prec emax.
Definition f64_sqrt := SFsqrt prec emax.

(** [i64 as f64]. *)
Definition f64_of_i64 (x : Z) : spec_float := binary_normalize prec emax x 0 false.

Definition is_nan (x : spec_float) : bool := match x with S754_nan => true | _ => false end.

(** [f64::trunc]. *)
Definition f64_trunc (x : spec_float) : spec_float :=
  match x with
  | S754_finite s m e =>
      if 0 <=? e then x else
      match Z.shiftr (Zpos m) (- e) with
      | Zpos q => binary_round prec emax s q 0
      | _ => S754_zero s
      end
  | _ => x
  end.

Definition signed (s : bool) (x : Z) : Z := if s then - x else x.

(** [f64 as i64]: towards zero, saturating, NaN to zero. *)
Definition i64_of_f64 (x : spec_float) : Z :=
  match x with
  | S754_nan | S754_zero _ => 0
  | S754_infinity s => if s then - 2 ^ 63 else 2 ^ 63 - 1
  | S754_finite s m e =>
      Z.max (- 2 ^ 63) (Z.min (2 ^ 63 - 1) (signed s (Z.shiftl (Zpos m) e)))
  end.

(** [f64::total_cmp]: the order of the sign-magnitude bit patterns. *)
Definition total_key (bits : Z) : Z := if bits <? 2 ^ 63 then bits else 2 ^ 63 - 1 - bits.
Definition f64_total_cmp (a b : Z) : comparison := total_key a ?= total_key b.

(** ** Exactly representable results *)

Lemma digits2_pos_spec m : 2 ^ (Zpos (digits2_pos m) - 1) ≤ Zpos m < 2 ^ Zpos (digits2_pos m).
Proof.
  induction m as [m IH|m IH|]; [| |simpl; lia]; cbn [digits2_pos]; rewrite Pos2Z.inj_succ;
    rewrite Z.sub_1_r, Z.pred_succ, Z.pow_succ_r by lia;
    replace (Zpos (digits2_pos m)) with (Z.succ (Zpos (digits2_pos m) - 1)) by lia;
    rewrite Z.pow_succ_r by lia;
    replace (Zpos (digits2_pos m)) with (Z.succ (Zpos (digits2_pos m) - 1)) in IH at 2 by lia;
    rewrite Z.pow_succ_r in IH by lia; lia.
Qed.

Lemma digits2_unique m d : 2 ^ (d - 1) ≤ Zpos m < 2 ^ d → 0 < d → Zpos (digits2_pos m) = d.
Proof.
  intros [H1 H2] Hd. pose proof (digits2_pos_spec m) as [H3 H4].
  destruct (Z.lt_trichotomy (Zpos (digits2_pos m)) d) as [H|[H|H]]; [|done|]; exfalso.
  - assert (2 ^ Zpos (digits2_pos m) ≤ 2 ^ (d - 1)) by (apply Z.pow_le_mono_r; lia). lia.
  - assert (2 ^ d ≤ 2 ^ (Zpos (digits2_pos m) - 1)) by (apply Z.pow_le_mono_r; lia). lia.
Qed.

Lemma digits2_le m d : 0 < d → Zpos m < 2 ^ d → Zpos (digits2_pos m) ≤ d.
Proof.
  intros Hd Hm. pose proof (digits2_pos_spec m) as [H _].
  destruct (Z.le_gt_cases (Zpos (digits2_pos m)) d); [done|].
  assert (2 ^ d ≤ 2 ^ (Zpos (digits2_pos m) - 1)) by (apply Z.pow_le_mono_r; lia). lia.
Qed.

Lemma digits2_mono m m' : (m ≤ m')%positive → Zpos (digits2_pos m) ≤ Zpos (digits2_pos m').
Proof. intros. apply digits2_le; [lia|]. pose proof (digits2_pos_spec m'). lia. Qed.

Lemma iter_xO m d : Zpos (Pos.iter xO m d) = Zpos m * 2 ^ Zpos d.
Proof.
  induction d as [|d IH] using Pos.peano_ind; [simpl; lia|].
  rewrite Pos.iter_succ, Pos2Z.inj_succ, Z.pow_succ_r by lia. rewrite (Pos2Z.inj_xO (Pos.iter _ _ _)), IH. lia.
Qed.

(** The exponent a value of [d] digits at exponent [e] is stored with. *)
Definition canon (m : positive) (e : Z) : Z := fexp prec emax (Zpos (digits2_pos m) + e).

(** A value whose stored exponent is not larger than its own is kept exactly. *)
Lemma binary_round_exact s m e :
  canon m e ≤ e → canon m e ≤ emax - prec →
  ∃ m', binary_round prec emax s m e = S754_finite s m' (canon m e) ∧
    Zpos m' = Zpos m * 2 ^ (e - canon m e).
Proof.
  intros He Hmax. unfold binary_round, shl_align. fold (canon m e).
  assert (∃ m', (match canon m e - e with Zneg d => (Pos.iter xO m d, canon m e) | _ => (m, e) end) = (m', canon m e) ∧
    Zpos m' = Zpos m * 2 ^ (e - canon m e)) as (m' & -> & Hm').
  { destruct (canon m e - e) as [|p|p] eqn:E; [|lia|].
    - exists m. replace (canon m e) with e by lia. rewrite Z.sub_diag. split; [done|lia].
    - exists (Pos.iter xO m p). split; [done|]. rewrite iter_xO. f_equal. f_equal. lia. }
  exists m'. split; [|done].
  assert (Zpos (digits2_pos m') + canon m e = Zpos (digits2_pos m) + e) as Hd.
  { rewrite (digits2_unique m' (Zpos (digits2_pos m) + (e - canon m e))); [lia| |lia].
    pose proof (digits2_pos_spec m) as [H1 H2]. rewrite Hm'.
    replace (Zpos (digits2_pos m) + (e - canon m e) - 1) with ((Zpos (digits2_pos m) - 1) + (e - canon m e)) by lia.
    rewrite !Z.pow_add_r by lia. pose proof (Z.pow_pos_nonneg 2 (e - canon m e) ltac:(lia) ltac:(lia)). nia. }
  assert (shr_fexp prec emax (Zpos m') (canon m e) loc_Exact = (Build_shr_record (Zpos m') false false, canon m e)) as Hs.
  { unfold shr_fexp. cbn [Zdigits2 shr_record_of_loc]. rewrite Hd. fold (canon m e). by rewrite Z.sub_diag. }
  unfold binary_round_aux. rewrite Hs. cbn [shr_m loc_of_shr_record round_nearest_even]. rewrite Hs. cbn [shr_m].
  by rewrite (proj2 (Z.leb_le _ _)) by done.
Qed.
