(* ===== verification/Expr.v ===== *)
(** Plan expressions and row chunks: [devondb-plan/src/expr.rs],
    [devondb-exec/src/chunk.rs].

    [Expr] is parameterised by the type of plan operators, which occur in it
    only under [Scalar].  A chunk is the executor's batch of rows, column by
    column; [ChunkBuilder] validates rows as it collects them. *)

From S2P Require Import Prelude Bytes Decimal Types Codec.

(** ** Expressions *)

Inductive BinaryOp := OpEq | OpNe | OpLt | OpLe | OpGt | OpGe | OpAnd | OpOr | OpAdd | OpSub | OpMul | OpDiv.
Inductive Metric := Cosine | L2.
Inductive DateTruncUnit := Day.

#[export] Instance BinaryOp_eq_dec : EqDecision BinaryOp.
Proof. solve_decision. Defined.
#[export] Instance Metric_eq_dec : EqDecision Metric.
Proof. solve_decision. Defined.

Inductive Expr (Operator : Type) :=
| Col (reference : list Z)
| ClassOf (binding : list Z)
| ScoreOf (binding : list Z)
| Lit (value : Value)
| Binary (op : BinaryOp) (left right : Expr Operator)
| Not (operand : Expr Operator)
| Distance (left right : Expr Operator) (metric : Metric)
| If (cond then_expr else_expr : Expr Operator)
| Coalesce (expressions : list (Expr Operator))
| Least (expressions : list (Expr Operator))
| Greatest (expressions : list (Expr Operator))
| DateTrunc (unit_ : DateTruncUnit) (value : Expr Operator)
| DateAdd (unit_ : DateTruncUnit) (value amount : Expr Operator)
| Round (value : Expr Operator) (places : Z)
| RoundDiv (numerator denominator : Expr Operator) (places : Z)
| Scalar (plan : Operator).

Arguments Col {Operator}. Arguments ClassOf {Operator}. Arguments ScoreOf {Operator}. Arguments Lit {Operator}.
Arguments Binary {Operator}. Arguments Not {Operator}. Arguments Distance {Operator}. Arguments If {Operator}.
Arguments Coalesce {Operator}. Arguments Least {Operator}. Arguments Greatest {Operator}.
Arguments DateTrunc {Operator}. Arguments DateAdd {Operator}. Arguments Round {Operator}. Arguments RoundDiv {Operator}.
Arguments Scalar {Operator}.

(** Induction that reaches the operands of the variadic expressions. *)
Section ExprInd.
Context {Operator : Type} (P : Expr Operator → Prop).
Hypotheses
  (HCol : ∀ r, P (Col r)) (HClassOf : ∀ b, P (ClassOf b)) (HScoreOf : ∀ b, P (ScoreOf b)) (HLit : ∀ v, P (Lit v))
  (HBinary : ∀ op l r, P l → P r → P (Binary op l r)) (HNot : ∀ e, P e → P (Not e))
  (HDistance : ∀ l r m, P l → P r → P (Distance l r m)) (HIf : ∀ c t e, P c → P t → P e → P (If c t e))
  (HCoalesce : ∀ es, Forall P es → P (Coalesce es)) (HLeast : ∀ es, Forall P es → P (Least es))
  (HGreatest : ∀ es, Forall P es → P (Greatest es)) (HDateTrunc : ∀ u e, P e → P (DateTrunc u e))
  (HDateAdd : ∀ u v a, P v → P a → P (DateAdd u v a)) (HRound : ∀ e p, P e → P (Round e p))
  (HRoundDiv : ∀ n d p, P n → P d → P (RoundDiv n d p)) (HScalar : ∀ plan, P (Scalar plan)).

Fixpoint Expr_ind' (e : Expr Operator) : P e :=
  let all := fix all (es : list (Expr Operator)) : Forall P es :=
    match es with [] => List.Forall_nil P | e :: es => @List.Forall_cons _ P e es (Expr_ind' e) (all es) end in
  match e with
  | Col r => HCol r | ClassOf b => HClassOf b | ScoreOf b => HScoreOf b | Lit v => HLit v
  | Binary op l r => HBinary op l r (Expr_ind' l) (Expr_ind' r)
  | Not e => HNot e (Expr_ind' e)
  | Distance l r m => HDistance l r m (Expr_ind' l) (Expr_ind' r)
  | If c t e => HIf c t e (Expr_ind' c) (Expr_ind' t) (Expr_ind' e)
  | Coalesce es => HCoalesce es (all es) | Least es => HLeast es (all es) | Greatest es => HGreatest es (all es)
  | DateTrunc u e => HDateTrunc u e (Expr_ind' e)
  | DateAdd u v a => HDateAdd u v a (Expr_ind' v) (Expr_ind' a)
  | Round e p => HRound e p (Expr_ind' e)
  | RoundDiv n d p => HRoundDiv n d p (Expr_ind' n) (Expr_ind' d)
  | Scalar plan => HScalar plan
  end.
End ExprInd.

(** ** Chunks *)

Definition CHUNK_CAPACITY : nat := 2048.

Record Chunk := mkChunk { types : list LogicalType; columns : list Column; row_count : nat }.

Definition column_count (self : Chunk) : nat := length (columns self).
Definition column (self : Chunk) (i : nat) : option Column := columns self !! i.

(** [value_at] is read only below the column's length, where it cannot panic. *)
Definition value (self : Chunk) (row col : nat) : outcome (option Value) :=
  match columns self !! col with
  | None => Ok None
  | Some column =>
      if (column_len column <=? row)%nat then Ok None
      else let! v := value_at column row in Ok (Some v)
  end.

Definition validate_column_storage (column : Column) (logical_type : LogicalType) : outcome unit :=
  match column, logical_type with
  | Boxed values, _ =>
      for_each values tt (λ _ value,
        if matches_type value logical_type then Ok tt
        else Err (InvalidArgument "column {index} value {value} does not match expected type {logical_type}"))
  | CInt64 _ _, TInt64 | CFloat64 _ _, TFloat64 | CBool _ _, TBool | CTimestamp _ _, TTimestamp => Ok tt
  | CDecimal _ scale _, TDecimal _ declared_scale =>
      if scale =? declared_scale then Ok tt
      else Err (InvalidArgument "column {index} storage does not match expected type {logical_type}")
  | _, _ => Err (InvalidArgument "column {index} storage does not match expected type {logical_type}")
  end.

Definition from_columns (types : list LogicalType) (columns : list Column) : outcome Chunk :=
  if negb (length types =? length columns)%nat
  then Err (InvalidArgument "column arity mismatch: expected {} columns, actual {}") else
  let row_count := match columns with [] => O | first :: _ => column_len first end in
  let! _ := for_each (zip columns types) tt (λ _ '(column, logical_type),
    if negb (column_len column =? row_count)%nat
    then Err (InvalidArgument "column {index} has {} rows, expected {row_count}")
    else validate_column_storage column logical_type) in
  if (CHUNK_CAPACITY <? row_count)%nat
  then Err (InvalidArgument "column row count {row_count} exceeds chunk capacity {CHUNK_CAPACITY} rows")
  else Ok (mkChunk types columns row_count).

Definition rows (self : Chunk) : outcome (list (list Value)) :=
  collect (λ row, collect (λ column, value_at column row) (columns self)) (seq 0 (row_count self)).

Record ChunkBuilder := mkBuilder { b_types : list LogicalType; b_columns : list (list Value); b_row_count : nat }.

Definition builder_new (types : list LogicalType) : ChunkBuilder :=
  mkBuilder types ((λ _, []) <$> types) 0.

Definition is_full (self : ChunkBuilder) : bool := (b_row_count self =? CHUNK_CAPACITY)%nat.

Definition push_row (self : ChunkBuilder) (row : list Value) : outcome ChunkBuilder :=
  if negb (length row =? length (b_types self))%nat
  then Err (InvalidArgument "row arity mismatch: expected {} values, actual {}") else
  if is_full self then Err (InvalidArgument "chunk is full at capacity {CHUNK_CAPACITY} rows") else
  let! _ := for_each (zip row (b_types self)) tt (λ _ '(value, logical_type),
    if matches_type value logical_type then Ok tt
    else Err (InvalidArgument "column {index} value {value} does not match expected type {logical_type}")) in
  Ok (mkBuilder (b_types self) (zip_with (λ column value, column ++ [value]) (b_columns self) row)
        (b_row_count self + 1)).

Definition finish (self : ChunkBuilder) : outcome Chunk :=
  let! columns := collect (λ '(ty, values), from_values ty values) (zip (b_types self) (b_columns self)) in
  Ok (mkChunk (b_types self) columns (b_row_count self)).

(** ** The builder *)

Lemma collect_fails {A B} (f : A → outcome B) xs e : collect f xs = Err e → ∃ x, x ∈ xs ∧ f x = Err e.
Proof.
  induction xs as [|x xs IH]; simpl; [done|]. destruct (f x) as [y|e'|] eqn:E; simpl; [|naive_solver set_solver|done].
  destruct (collect f xs); simpl; [done| |done]. intros [= ->]. destruct IH as (z & ? & ?); [done|]. exists z. split; [set_solver|done].
Qed.

Section Builder.
Context (tys : list LogicalType).

(** The builder holds the rows pushed so far, transposed. *)
Definition builder_holds (rs : list (list Value)) (b : ChunkBuilder) : Prop :=
  b_types b = tys ∧ b_row_count b = length rs ∧ (length rs ≤ CHUNK_CAPACITY)%nat ∧ length (b_columns b) = length tys ∧
  Forall (λ row, Forall2 (λ v ty, matches_type v ty = true) row tys) rs ∧
  ∀ i col, b_columns b !! i = Some col → length col = length rs ∧ ∀ j row, rs !! j = Some row → col !! j = row !! i.

Lemma builder_new_holds : builder_holds [] (builder_new tys).
Proof.
  split_and!; try done; simpl; [unfold CHUNK_CAPACITY; lia|by rewrite length_fmap|].
  intros i col Hi. apply list_lookup_fmap_Some in Hi as (ty & -> & _). done.
Qed.

Lemma all_match row (l : list LogicalType) :
  length row = length l →
  for_each (zip row l) tt (λ _ '(value, logical_type),
    if matches_type value logical_type then Ok tt
    else Err (InvalidArgument "column {index} value {value} does not match expected type {logical_type}")) = Ok tt →
  Forall2 (λ v ty, matches_type v ty = true) row l.
Proof.
  revert l. induction row as [|v row IH]; intros [|ty l]; try done. intros [= Hl]. cbn [zip zip_with for_each].
  destruct (matches_type v ty) eqn:E; [|done]. cbn [bind]. intros Hf. constructor; [done|by apply IH].
Qed.

Lemma push_row_holds rs b row b' :
  builder_holds rs b → push_row b row = Ok b' → builder_holds (rs ++ [row]) b'.
Proof.
  intros (Hty & Hn & Hcap & Hcols & Hrows & Hcol) Hpush. unfold push_row in Hpush.
  destruct (length row =? length (b_types b))%nat eqn:El; [|done]. apply Nat.eqb_eq in El. cbn [negb] in Hpush.
  destruct (is_full b) eqn:Ef; [done|]. unfold is_full in Ef. apply Nat.eqb_neq in Ef.
  apply bind_Ok in Hpush as ([] & Hm & [= <-]). apply all_match in Hm; [|done]. rewrite Hty in *.
  split_and!; simpl; rewrite ?length_app; simpl; [done|lia|lia|by rewrite length_zip_with, Hcols, El, Nat.min_id| |].
  - apply Forall_app. split; [done|]. by constructor.
  - intros i col Hi. apply lookup_zip_with_Some in Hi as (col' & v & -> & Hc & Hv). destruct (Hcol i col' Hc) as [Hl Hj].
    rewrite length_app, Hl. split; [done|]. intros j r Hr.
    destruct (decide (j < length rs)%nat) as [Hlt|Hge].
    + rewrite lookup_app_l in Hr by done. rewrite lookup_app_l by lia. by apply Hj.
    + pose proof (lookup_lt_Some _ _ _ Hr) as Hb. rewrite length_app in Hb. simpl in Hb.
      assert (j = length rs) as -> by lia. rewrite list_lookup_middle in Hr by done. injection Hr as <-.
      rewrite <- Hl, list_lookup_middle; done.
Qed.

Lemma push_rows_hold rs : ∀ done_ b b',
  builder_holds done_ b → for_each rs b push_row = Ok b' → builder_holds (done_ ++ rs) b'.
Proof.
  induction rs as [|row rs IH]; intros done_ b b' Hb; cbn [for_each].
  - intros [= <-]. by rewrite app_nil_r.
  - intros (b1 & Hp & Hrest)%bind_Ok. rewrite cons_middle, app_assoc. eapply IH; [|done]. by eapply push_row_holds.
Qed.
End Builder.

Lemma builder_column tys rs b i ty vals :
  builder_holds tys rs b → b_columns b !! i = Some vals → tys !! i = Some ty →
  ∃ col, from_values ty vals = Ok col ∧ column_len col = length rs ∧
    ∀ j row, rs !! j = Some row → ∃ v, row !! i = Some v ∧ value_at col j = Ok v ∧ matches_type v ty = true.
Proof.
  intros (_ & _ & _ & _ & Hrows & Hcol) Hv Hty. destruct (Hcol i vals Hv) as [Hl Hj].
  destruct (from_values_represents ty vals) as (col & boxed & Hf & (Hlen & _ & Hread) & _).
  exists col. split_and!; [done|congruence|]. intros j row Hr.
  rewrite Forall_forall in Hrows. pose proof (Hrows row ltac:(by eapply list_elem_of_lookup_2)) as Hm.
  destruct (Forall2_lookup_r _ _ _ _ _ Hm Hty) as (v & Hrv & Hmv). exists v. split_and!; [done| |done].
  apply Hread. by rewrite (Hj j row Hr).
Qed.

(** The columns [finish] builds, cell by cell. *)
Lemma finish_columns tys rs b :
  builder_holds tys rs b →
  ∃ cols, finish b = Ok (mkChunk tys cols (length rs)) ∧ length cols = length tys ∧
    ∀ i col, cols !! i = Some col → ∃ ty, tys !! i = Some ty ∧ column_len col = length rs ∧
      ∀ j row, rs !! j = Some row → ∃ v, row !! i = Some v ∧ value_at col j = Ok v ∧ matches_type v ty = true.
Proof.
  intros Hb. pose proof Hb as (Hty & Hn & _ & Hcols & _). unfold finish. rewrite Hty, Hn.
  destruct (collect _ (zip tys (b_columns b))) as [cols|e|] eqn:E.
  - exists cols. apply collect_Ok in E. pose proof (Forall2_length _ _ _ E) as Hl. rewrite length_zip_with_l_eq in Hl by done.
    split_and!; [done|done|]. intros i col Hi. destruct (Forall2_lookup_r _ _ _ _ _ E Hi) as ([ty vals] & Hz & Hf).
    apply lookup_zip_Some in Hz as [Ht Hv]. simpl in *. destruct (builder_column tys rs b i ty vals Hb Hv Ht) as (col' & Hf' & ? & ?).
    exists ty. assert (col' = col) as -> by congruence. done.
  - pose proof (collect_fails _ _ _ E) as (x & [i Hi]%list_elem_of_lookup & Hx). destruct x as [ty vals].
    apply lookup_zip_Some in Hi as [Ht Hv]. destruct (builder_column tys rs b i ty vals Hb Hv Ht) as (col' & Hf' & _). simpl in *. congruence.
  - exfalso. revert E. apply collect_no_panic. intros [ty vals] [i Hi]%list_elem_of_lookup.
    apply lookup_zip_Some in Hi as [Ht Hv]. destruct (builder_column tys rs b i ty vals Hb Hv Ht) as (col' & Hf' & _). simpl in *. congruence.
Qed.

(** A chunk that holds the rows [rs]: every cell is readable, admitted by its
    column's type, and where the rows say. *)
Definition holds_rows (chunk : Chunk) (rs : list (list Value)) : Prop :=
  column_count chunk = length (types chunk) ∧ row_count chunk = length rs ∧ (length rs ≤ CHUNK_CAPACITY)%nat ∧
  rows chunk = Ok rs ∧
  ∀ j row, rs !! j = Some row → Forall2 (λ v ty, matches_type v ty = true) row (types chunk) ∧
    ∀ i v, row !! i = Some v → value chunk j i = Ok (Some v).

Lemma finish_holds tys rs b :
  builder_holds tys rs b → ∃ chunk, finish b = Ok chunk ∧ types chunk = tys ∧ holds_rows chunk rs.
Proof.
  intros Hb. pose proof Hb as (_ & _ & Hcap & _ & Hrows & _). destruct (finish_columns tys rs b Hb) as (cols & -> & Hl & Hcol).
  rewrite Forall_forall in Hrows. exists (mkChunk tys cols (length rs)). split_and!; try done. split_and!; try done.
  - apply collect_Ok, Forall2_same_length_lookup_2; simpl; [apply length_seq|]. intros j j' row [-> _]%lookup_seq Hr. simpl in *.
    apply collect_Ok, Forall2_same_length_lookup_2.
    + pose proof (Hrows row ltac:(by eapply list_elem_of_lookup_2)) as Hm. by rewrite Hl, (Forall2_length _ _ _ Hm).
    + intros i col v Hc Hv. destruct (Hcol i col Hc) as (ty & _ & _ & Hcell). destruct (Hcell j row Hr) as (v' & ? & ? & _). congruence.
  - intros j row Hr. pose proof (Hrows row ltac:(by eapply list_elem_of_lookup_2)) as Hm. split; [done|]. intros i v Hv.
    destruct (lookup_lt_is_Some_2 cols i) as [col Hc].
    { apply lookup_lt_Some in Hv. apply Forall2_length in Hm. lia. }
    destruct (Hcol i col Hc) as (ty & Hty & Hlen & Hcell). destruct (Hcell j row Hr) as (v' & Hv' & Hat & _).
    unfold value. simpl. rewrite Hc, Hlen. apply lookup_lt_Some in Hr.
    rewrite (proj2 (Nat.leb_gt _ _)) by lia. rewrite Hat. simpl. congruence.
Qed.

(** A row of the declared types is accepted while there is room. *)
Lemma push_row_accepts tys rs b row :
  builder_holds tys rs b → Forall2 (λ v ty, matches_type v ty = true) row tys → (length rs < CHUNK_CAPACITY)%nat →
  ∃ b', push_row b row = Ok b' ∧ builder_holds tys (rs ++ [row]) b'.
Proof.
  intros Hb Hm Hlt. pose proof Hb as (Hty & Hn & _).
  destruct (push_row b row) as [b'|e|] eqn:E; [exists b'; split; [done|by eapply push_row_holds]|..]; exfalso; revert E; unfold push_row.
  all: rewrite Hty, (Forall2_length _ _ _ Hm), Nat.eqb_refl; cbn [negb]; unfold is_full; rewrite Hn.
  all: rewrite (proj2 (Nat.eqb_neq _ _)) by lia; clear -Hm.
  all: assert (for_each (zip row tys) () (λ (_ : unit) '(value, logical_type), if matches_type value logical_type then Ok ()
    else Err (InvalidArgument "column {index} value {value} does not match expected type {logical_type}")) = Ok ()) as ->;
    [|done]; induction Hm as [|v ty row tys Hv _ IH]; [done|]; cbn [zip zip_with for_each]; rewrite Hv; exact IH.
Qed.

(** Building a chunk row by row loses nothing: whatever rows the builder
    accepts, finishing succeeds and the chunk has the declared types, one typed
    column per type, as many rows as were pushed (never more than the chunk
    capacity), every value admitted by its column's type, and reading the chunk
    cell by cell or row by row gives back exactly the rows pushed, in order. *)
Theorem chunk_builder_roundtrip tys rs b :
  for_each rs (builder_new tys) push_row = Ok b →
  ∃ chunk, finish b = Ok chunk ∧ types chunk = tys ∧ holds_rows chunk rs.
Proof. intros Hb. apply (push_rows_hold tys rs [] _ _ (builder_new_holds tys)) in Hb. by apply finish_holds. Qed.

(** Two rows of an [Int64] and a [String] column. *)
Lemma chunk_builder_roundtrip_witness :
  ∃ chunk, (let! b := for_each [[Int64 7; String [97]]; [Null; Null]] (builder_new [TInt64; TString]) push_row in finish b) = Ok chunk ∧
    rows chunk = Ok [[Int64 7; String [97]]; [Null; Null]].
Proof.
  destruct (for_each [[Int64 7; String [97]]; [Null; Null]] (builder_new [TInt64; TString]) push_row) as [b|e|] eqn:E;
    [|vm_compute in E; discriminate E..].
  destruct (chunk_builder_roundtrip [TInt64; TString] [[Int64 7; String [97]]; [Null; Null]] b E) as (chunk & H1 & _ & _ & _ & _ & H2 & _).
  exists chunk. split; [exact H1|exact H2].
Defined.
