(* ===== verification/Typing.v ===== *)
(** The typing rules of expressions and aggregates:
    [devondb-plan/src/typing.rs].

    [columns] is the map of referenceable columns.  The function that types a
    scalar subquery is a parameter, as in [expression_type_with_subqueries]. *)

From S2P Require Import Prelude Bytes Decimal Types Codec Expr.

Inductive ExpressionType := ENull | EValue (ty : LogicalType).

#[export] Instance ExpressionType_eq_dec : EqDecision ExpressionType.
Proof. solve_decision. Defined.

Definition output_type (self : ExpressionType) : LogicalType :=
  match self with ENull => TBool | EValue ty => ty end.

(** ** Classes of types *)

Definition numeric_type (ty : LogicalType) : bool := match ty with TInt64 | TFloat64 => true | _ => false end.
Definition equality_only_scalar (ty : LogicalType) : bool := match ty with TBytes | TJson => true | _ => false end.
Definition ordered_scalar (ty : LogicalType) : bool :=
  match ty with TBool | TInt64 | TFloat64 | TString | TTimestamp | TDecimal _ _ => true | _ => false end.
Definition is_equality_comparison (operator : BinaryOp) : bool := match operator with OpEq | OpNe => true | _ => false end.
Definition scalar_comparable (operator : BinaryOp) (ty : LogicalType) : bool :=
  match ty with
  | TBool | TInt64 | TFloat64 | TString | TTimestamp | TDecimal _ _ => true
  | _ => is_equality_comparison operator && equality_only_scalar ty
  end.
Definition is_decimal_value (ty : ExpressionType) : bool := match ty with EValue (TDecimal _ _) => true | _ => false end.
Definition is_float_value (ty : ExpressionType) : bool := match ty with EValue TFloat64 => true | _ => false end.

(** ** Operand requirements *)

Definition require_numeric (operand : ExpressionType) : outcome unit :=
  match operand with
  | ENull => Ok tt
  | EValue ty =>
      if numeric_type ty then Ok tt
      else Err (InvalidArgument "operator `{operator}` requires a numeric operand; got {}")
  end.

Definition require_int64 (operand : ExpressionType) : outcome unit :=
  match operand with
  | ENull | EValue TInt64 => Ok tt
  | _ => Err (InvalidArgument "operator `{operator}` requires an Int64 operand; got {}")
  end.

Definition require_decimal (operand : ExpressionType) : outcome unit :=
  match operand with
  | ENull | EValue (TDecimal _ _) => Ok tt
  | _ => Err (InvalidArgument "operator `{operator}` requires a Decimal operand; got {}")
  end.

Definition require_boolean (operand : ExpressionType) : outcome unit :=
  match operand with
  | ENull | EValue TBool => Ok tt
  | _ => Err (InvalidArgument "operator `{operator}` requires a Bool operand; got {}")
  end.

Definition require_timestamp (operand : ExpressionType) : outcome unit :=
  match operand with
  | ENull | EValue TTimestamp => Ok tt
  | _ => Err (InvalidArgument "operator `{operator}` requires a Timestamp operand; got {}")
  end.

Definition require_matching_vectors (left right : ExpressionType) : outcome unit :=
  let mismatch := Err (InvalidArgument "operator `distance` requires equal-dimension Vector operands; got {} and {}") in
  match left, right with
  | ENull, ENull | ENull, EValue (TVector _) | EValue (TVector _), ENull => Ok tt
  | EValue (TVector left_dim), EValue (TVector right_dim) => if left_dim =? right_dim then Ok tt else mismatch
  | _, _ => mismatch
  end.

Definition reject_unordered_type (operand : ExpressionType) : outcome unit :=
  match operand with
  | EValue (TVector _) | EValue TGeoPoint | EValue TBytes | EValue TJson =>
      Err (InvalidArgument "operator `{operator}` requires an ordered scalar; got {}")
  | _ => Ok tt
  end.

Definition require_places_within_scale (operand : ExpressionType) (places : Z) : outcome unit :=
  match operand with
  | EValue (TDecimal _ scale) =>
      if places <=? scale then Ok tt
      else Err (InvalidArgument "operator `{operator}` requires places <= Decimal scale {scale}; got {places}")
  | _ => Ok tt
  end.

Definition round_type (operand : ExpressionType) (places : Z) : outcome ExpressionType :=
  let! _ := require_decimal operand in
  let! _ := require_places_within_scale operand places in
  Ok operand.

Definition round_div_type (numerator denominator : ExpressionType) (places : Z) : outcome ExpressionType :=
  let! _ := require_decimal numerator in
  let! _ := require_decimal denominator in
  let result := match numerator with ENull => denominator | _ => numerator end in
  let! _ := require_places_within_scale result places in
  Ok result.

(** ** Arithmetic *)

Definition capped_precision (digits : Z) : Z := Z.min digits MAX_PRECISION.

(** A [Decimal(19, 0)] holds every [i64]. *)
Definition INT64_DIGITS : Z := 19.

Definition decimal_int64_type (operator : BinaryOp) (precision scale : Z) : outcome ExpressionType :=
  let! result_precision :=
    match operator with
    | OpAdd | OpSub => Ok (Z.max precision (INT64_DIGITS + scale) + 1)
    | OpMul => Ok (precision + INT64_DIGITS)
    | _ => Panic
    end in
  Ok (EValue (TDecimal (capped_precision result_precision) scale)).

Definition decimal_pair_result (operator : BinaryOp) (left_precision left_scale right_precision right_scale : Z) :
    outcome ExpressionType :=
  match operator with
  | OpAdd | OpSub =>
      if negb (left_scale =? right_scale)
      then Err (InvalidArgument "operator `{}` requires equal Decimal scales; got scales {left_scale} and {right_scale}")
      else Ok (EValue (TDecimal (capped_precision (Z.max left_precision right_precision + 1)) left_scale))
  | OpMul =>
      let! scale := expect (try_u 8 (left_scale + right_scale)) in
      if MAX_PRECISION <? scale
      then Err (InvalidArgument "operator `mul` would produce Decimal scale {scale} above the maximum {MAX_PRECISION}; got scales {left_scale} and {right_scale}")
      else Ok (EValue (TDecimal (capped_precision (left_precision + right_precision)) scale))
  | _ => Panic
  end.

Definition decimal_mixed_type (operator : BinaryOp) (precision scale : Z) (other : ExpressionType) : outcome ExpressionType :=
  match other with
  | ENull => Ok (EValue (TDecimal precision scale))
  | EValue TInt64 => decimal_int64_type operator precision scale
  | EValue (TDecimal other_precision other_scale) =>
      decimal_pair_result operator precision scale other_precision other_scale
  | _ => Panic
  end.

Definition require_decimal_arithmetic_operand (operand : ExpressionType) : outcome unit :=
  match operand with
  | ENull | EValue (TDecimal _ _) | EValue TInt64 | EValue TFloat64 => Ok tt
  | _ => Err (InvalidArgument "operator `{}` requires a numeric operand; got {}")
  end.

Definition refuse_float_decimal_mix (left right : ExpressionType) : outcome unit :=
  if is_float_value left || is_float_value right
  then Err (InvalidArgument "operator `{}` over Decimal and Float64 would round; exact decimal arithmetic refuses Float64 operands")
  else Ok tt.

Definition division_refused : DevonError :=
  InvalidArgument "div over Decimal would round; use round_div(numerator, denominator, places) to name the rounding explicitly".

Definition decimal_arithmetic_type (operator : BinaryOp) (left right : ExpressionType) : outcome ExpressionType :=
  let! _ := require_decimal_arithmetic_operand left in
  let! _ := require_decimal_arithmetic_operand right in
  let! _ := refuse_float_decimal_mix left right in
  if bool_decide (operator = OpDiv) then Err division_refused else
  match left, right with
  | EValue (TDecimal precision scale), other => decimal_mixed_type operator precision scale other
  | other, EValue (TDecimal precision scale) => decimal_mixed_type operator precision scale other
  | _, _ => Panic
  end.

Definition arithmetic_type (operator : BinaryOp) (left right : ExpressionType) : outcome ExpressionType :=
  if is_decimal_value left || is_decimal_value right then decimal_arithmetic_type operator left right else
  let! _ := require_numeric left in
  let! _ := require_numeric right in
  Ok (if is_float_value left || is_float_value right then EValue TFloat64
      else if bool_decide (left = EValue TInt64) || bool_decide (right = EValue TInt64) then EValue TInt64
      else ENull).

(** ** Comparison *)

Definition unequal_decimal_scales (left right : ExpressionType) : bool :=
  match left, right with
  | EValue (TDecimal _ left_scale), EValue (TDecimal _ right_scale) => negb (left_scale =? right_scale)
  | _, _ => false
  end.

Definition equality_only_type (operator : BinaryOp) (left right : ExpressionType) : option LogicalType :=
  if is_equality_comparison operator then None else
  match left, right with
  | ENull, EValue ty | EValue ty, ENull => if equality_only_scalar ty then Some ty else None
  | EValue left_ty, EValue right_ty =>
      if bool_decide (left_ty = right_ty) && equality_only_scalar left_ty then Some left_ty else None
  | ENull, ENull => None
  end.

Definition comparable (operator : BinaryOp) (left right : ExpressionType) : bool :=
  match left, right with
  | ENull, ENull => true
  | ENull, EValue ty | EValue ty, ENull => scalar_comparable operator ty
  | EValue (TDecimal _ left_scale), EValue (TDecimal _ right_scale) => left_scale =? right_scale
  | EValue left_ty, EValue right_ty =>
      (bool_decide (left_ty = right_ty) && scalar_comparable operator left_ty) || (numeric_type left_ty && numeric_type right_ty)
  end.

Definition comparison_type (operator : BinaryOp) (left right : ExpressionType) : outcome ExpressionType :=
  if unequal_decimal_scales left right
  then Err (InvalidArgument "operator `{}` requires equal Decimal scales; got scales {left_scale} and {right_scale}") else
  match equality_only_type operator left right with
  | Some _ => Err (InvalidArgument "operator `{}` does not accept {ty} operands; {ty} comparisons admit equality only")
  | None =>
      if comparable operator left right then Ok (EValue TBool)
      else Err (InvalidArgument "operator `{}` requires comparable operands; got {} and {}")
  end.

Definition binary_type (operator : BinaryOp) (left right : ExpressionType) : outcome ExpressionType :=
  match operator with
  | OpAdd | OpSub | OpMul | OpDiv => arithmetic_type operator left right
  | OpEq | OpNe | OpLt | OpLe | OpGt | OpGe => comparison_type operator left right
  | OpAnd | OpOr =>
      let! _ := require_boolean left in
      let! _ := require_boolean right in
      Ok (EValue TBool)
  end.

(** ** Selection *)

Definition unify_selection_type (left right : ExpressionType) : outcome ExpressionType :=
  let mismatch := Err (InvalidArgument "operator `{operator}` requires exactly matching operand types; got {} and {}") in
  match left, right with
  | ENull, other | other, ENull => Ok other
  | EValue (TDecimal left_precision left_scale), EValue (TDecimal right_precision right_scale) =>
      if left_scale =? right_scale then Ok (EValue (TDecimal (Z.max left_precision right_precision) left_scale))
      else mismatch
  | EValue left_ty, EValue right_ty => if bool_decide (left_ty = right_ty) then Ok (EValue left_ty) else mismatch
  end.

Definition require_variadic_arity {A} (expressions : list A) : outcome unit :=
  if (2 <=? length expressions)%nat then Ok tt
  else Err (InvalidArgument "operator `{operator}` requires at least 2 operands; got {}").

(** [selection_type], over the operands' typing results in order. *)
Definition selection_type (operands : list (outcome ExpressionType)) : outcome ExpressionType :=
  for_each operands ENull (λ result operand, let! operand := operand in unify_selection_type result operand).

Definition variadic_type (operands : list (outcome ExpressionType)) : outcome ExpressionType :=
  let! _ := require_variadic_arity operands in selection_type operands.

Definition extrema_type (operands : list (outcome ExpressionType)) : outcome ExpressionType :=
  let! result := variadic_type operands in
  match result with
  | ENull => Ok ENull
  | EValue ty =>
      if ordered_scalar ty then Ok result
      else Err (InvalidArgument "operator `{operator}` requires ordered scalar operands; got {}")
  end.

(** ** Expressions *)

Definition column_type (reference : list Z) (columns : gmap (list Z) LogicalType) : outcome ExpressionType :=
  match split_once 46 reference with
  | None => Err (InvalidArgument "column reference `{reference}` must be written as `binding.column`")
  | Some (binding, column) =>
      if bool_decide (binding = []) || bool_decide (column = [])
      then Err (InvalidArgument "column reference `{reference}` must name a binding and column") else
      match columns !! reference with
      | Some ty => Ok (EValue (value_type ty))
      | None => Err (InvalidArgument "column reference `{reference}` is not in the input schema{}")
      end
  end.

Section Typing.
Context {Operator : Type} (scalar_type : Operator → outcome ExpressionType) (columns : gmap (list Z) LogicalType).

Fixpoint expression_type_with_subqueries (expression : Expr Operator) : outcome ExpressionType :=
  let typed := expression_type_with_subqueries in
  match expression with
  | Col reference => column_type reference columns
  | ClassOf _ => Ok (EValue TString)
  | ScoreOf _ => Ok (EValue TFloat64)
  | Lit value => Ok (match logical_type value with Some ty => EValue ty | None => ENull end)
  | Binary op l r =>
      let! left_ := typed l in
      let! right_ := typed r in
      binary_type op left_ right_
  | Not operand =>
      let! operand := typed operand in
      let! _ := require_boolean operand in
      Ok (EValue TBool)
  | Distance l r _ =>
      let! left_ := typed l in
      let! right_ := typed r in
      let! _ := require_matching_vectors left_ right_ in
      Ok (EValue TFloat64)
  | If cond then_expr else_expr =>
      let! condition := typed cond in
      let! _ := require_boolean condition in
      selection_type [typed then_expr; typed else_expr]
  | Coalesce expressions => variadic_type (typed <$> expressions)
  | Least expressions => extrema_type (typed <$> expressions)
  | Greatest expressions => extrema_type (typed <$> expressions)
  | DateTrunc _ value =>
      let! operand := typed value in
      let! _ := require_timestamp operand in
      Ok (EValue TTimestamp)
  | DateAdd _ value amount =>
      let! value := typed value in
      let! amount := typed amount in
      let! _ := require_timestamp value in
      let! _ := require_int64 amount in
      Ok (EValue TTimestamp)
  | Round value places =>
      let! value := typed value in
      round_type value places
  | RoundDiv numerator denominator places =>
      let! numerator := typed numerator in
      let! denominator := typed denominator in
      round_div_type numerator denominator places
  | Scalar plan => scalar_type plan
  end.
End Typing.

Definition no_subqueries {Operator} (_ : Operator) : outcome ExpressionType :=
  Err (InvalidArgument "operator `scalar` requires plan-validation context").

Definition expression_type {Operator} (expression : Expr Operator) (columns : gmap (list Z) LogicalType) :
    outcome ExpressionType :=
  expression_type_with_subqueries no_subqueries columns expression.

(** ** Aggregates *)

Inductive AggregateFunction := Count | Sum | Min | Max | Avg | PercentileCont.

Definition aggregate_type_with_subqueries {Operator} (scalar_type : Operator → outcome ExpressionType)
    (function : AggregateFunction) (expression : Expr Operator) (columns : gmap (list Z) LogicalType) :
    outcome LogicalType :=
  let! operand := expression_type_with_subqueries scalar_type columns expression in
  match function with
  | Count => Ok TInt64
  | Sum =>
      let! _ := if is_decimal_value operand then Ok tt else require_numeric operand in
      Ok (match operand with ENull => TInt64 | EValue ty => ty end)
  | Avg =>
      if is_decimal_value operand
      then Err (InvalidArgument "avg over Decimal would round; compute sum and count and divide consumer-side") else
      let! _ := require_numeric operand in
      Ok TFloat64
  | Min | Max =>
      let! _ := reject_unordered_type operand in
      Ok (output_type operand)
  | PercentileCont =>
      let! _ := require_decimal operand in
      Ok (output_type operand)
  end.

Definition aggregate_type {Operator} (function : AggregateFunction) (expression : Expr Operator)
    (columns : gmap (list Z) LogicalType) : outcome LogicalType :=
  aggregate_type_with_subqueries no_subqueries function expression columns.
