(* ===== verification/Eval.v ===== *)
(** Expression evaluation over chunks: [devondb-exec/src/eval.rs].

    [evaluate_selected] computes a column of values for a selection of row
    numbers, operand column by operand column; [If] and [Coalesce] narrow the
    selection and scatter the results back. *)

From S2P Require Import Prelude Bytes Decimal Types Codec Schema F64 Expr Typing.
From Stdlib Require Import SpecFloat.

(** The bit pattern of a NaN that arithmetic returns. *)
Class FloatEnv := {
  arith_nan : BinaryOp → Z → Z → Z;
  distance_nan : list Z → list Z → Z;
  arith_nan_spec op a b : in_u 64 (arith_nan op a b) ∧ f64_of_bits (arith_nan op a b) = S754_nan;
  distance_nan_spec a b : in_u 64 (distance_nan a b) ∧ f64_of_bits (distance_nan a b) = S754_nan;
}.

(** ** Comparison *)

(** The operators of [PartialOrd], by the result of [partial_cmp]. *)
Definition compare_values (op : BinaryOp) (partial_cmp : option comparison) : outcome bool :=
  match op with
  | OpEq => Ok (bool_decide (partial_cmp = Some Eq))
  | OpNe => Ok (negb (bool_decide (partial_cmp = Some Eq)))
  | OpLt => Ok (bool_decide (partial_cmp = Some Lt))
  | OpLe => Ok (bool_decide (partial_cmp = Some Lt) || bool_decide (partial_cmp = Some Eq))
  | OpGt => Ok (bool_decide (partial_cmp = Some Gt))
  | OpGe => Ok (bool_decide (partial_cmp = Some Gt) || bool_decide (partial_cmp = Some Eq))
  | _ => Panic
  end.

Definition nan_comparison (op : BinaryOp) : outcome bool :=
  match op with
  | OpNe => Ok true
  | OpEq | OpLt | OpLe | OpGt | OpGe => Ok false
  | _ => Panic
  end.

Definition compare_ordering (op : BinaryOp) (ordering : comparison) : outcome bool :=
  match op with
  | OpEq => Ok (bool_decide (ordering = Eq))
  | OpNe => Ok (negb (bool_decide (ordering = Eq)))
  | OpLt => Ok (bool_decide (ordering = Lt))
  | OpLe => Ok (negb (bool_decide (ordering = Gt)))
  | OpGt => Ok (bool_decide (ordering = Gt))
  | OpGe => Ok (negb (bool_decide (ordering = Lt)))
  | _ => Panic
  end.

Definition two63 : spec_float := S754_finite false (2 ^ 52) 11.

(** [float] is finite or infinite; [float - truncated] is never NaN. *)
Definition int_float_ordering (integer float : Z) : comparison :=
  match f64_of_bits float with
  | S754_infinity negative => if negative then Gt else Lt
  | x =>
      let truncated := f64_trunc x in
      if SFleb two63 truncated then Lt else
      if SFltb truncated (SFopp two63) then Gt else
      match integer ?= i64_of_f64 truncated with
      | Eq => f64_total_cmp 0 (bits_of_f64 0 (f64_sub x truncated))
      | c => c
      end
  end.

Definition compare_int_float (op : BinaryOp) (integer float : Z) : outcome bool :=
  if is_nan (f64_of_bits float) then nan_comparison op
  else compare_ordering op (int_float_ordering integer float).

Definition compare_float_int (op : BinaryOp) (float integer : Z) : outcome bool :=
  if is_nan (f64_of_bits float) then nan_comparison op
  else compare_ordering op (CompOpp (int_float_ordering integer float)).

Definition compare_equality (op : BinaryOp) (equal : bool) : outcome bool :=
  match op with OpEq => Ok equal | OpNe => Ok (negb equal) | _ => Panic end.

Definition bool_cmp (a b : bool) : comparison := Z.b2z a ?= Z.b2z b.

Definition invalid_binary_types : DevonError :=
  InvalidArgument "operator `{}` does not accept operand types {} and {}".
Definition invalid_decimal_scales : DevonError :=
  InvalidArgument "operator `{}` requires equal Decimal scales; got scales {left} and {right}".

Definition evaluate_comparison (op : BinaryOp) (l r : Value) : outcome Value :=
  match l, r with
  | Null, _ | _, Null => Ok Null
  | _, _ =>
      let! result :=
        match l, r with
        | Bool l, Bool r => compare_values op (Some (bool_cmp l r))
        | Int64 l, Int64 r => compare_values op (Some (l ?= r))
        | Float64 l, Float64 r => compare_values op (SFcompare (f64_of_bits l) (f64_of_bits r))
        | String l, String r => compare_values op (Some (str_cmp l r))
        | Int64 l, Float64 r => compare_int_float op l r
        | Float64 l, Int64 r => compare_float_int op l r
        | Timestamp l, Timestamp r => compare_values op (Some (l ?= r))
        | Decimal l, Decimal r =>
            if negb (scale l =? scale r) then Err invalid_decimal_scales
            else compare_values op (Some (digits l ?= digits r))
        | Bytes l, Bytes r =>
            if is_equality_comparison op then compare_equality op (bool_decide (l = r)) else Err invalid_binary_types
        | Json l, Json r =>
            if is_equality_comparison op then compare_equality op (bool_decide (l = r)) else Err invalid_binary_types
        | _, _ => Err invalid_binary_types
        end in
      Ok (Bool result)
  end.

(** ** Three-valued logic *)

Definition evaluate_and (l r : Value) : outcome Value :=
  match l, r with
  | Bool l, Bool r => Ok (Bool (l && r))
  | Bool false, Null | Null, Bool false => Ok (Bool false)
  | Bool true, Null | Null, Bool true | Null, Null => Ok Null
  | _, _ => Err invalid_binary_types
  end.

Definition evaluate_or (l r : Value) : outcome Value :=
  match l, r with
  | Bool l, Bool r => Ok (Bool (l || r))
  | Bool true, Null | Null, Bool true => Ok (Bool true)
  | Bool false, Null | Null, Bool false | Null, Null => Ok Null
  | _, _ => Err invalid_binary_types
  end.

Definition evaluate_not (value : Value) : outcome Value :=
  match value with
  | Bool value => Ok (Bool (negb value))
  | Null => Ok Null
  | _ => Err (InvalidArgument "operator `not` does not accept operand type {} (value {value})")
  end.

(** ** Arithmetic *)

Definition integer_arithmetic (op : BinaryOp) (l r : Z) : outcome Value :=
  if bool_decide (op = OpDiv) && (r =? 0)
  then Err (InvalidArgument "operator `div` failed for Int64 values {left} and {right}: division by zero") else
  let! result :=
    match op with
    | OpAdd => Ok (try_i 64 (l + r))
    | OpSub => Ok (try_i 64 (l - r))
    | OpMul => Ok (try_i 64 (l * r))
    | OpDiv => Ok (try_i 64 (l `quot` r))
    | _ => Panic
    end in
  let! result := ok_or result (InvalidArgument "operator `{}` overflowed for Int64 values {left} and {right}") in
  Ok (Int64 result).

Definition decimal_overflow_error : DevonError :=
  InvalidArgument "operator `{}` overflowed Decimal({MAX_PRECISION}, {scale})".
Definition decimal_division_refused : DevonError := division_refused.

Definition require_equal_decimal_scales (l r : Decimal128) : outcome unit :=
  if scale l =? scale r then Ok tt else Err invalid_decimal_scales.

Definition decimal_product (l r : Decimal128) : outcome Decimal128 :=
  let! scale := expect (try_u 8 (scale l + scale r)) in
  if MAX_PRECISION <? scale
  then Err (InvalidArgument "operator `mul` would produce Decimal scale {scale} above the maximum {MAX_PRECISION}; got scales {} and {}")
  else map_err (λ _, decimal_overflow_error) (checked_mul l r).

Definition decimal_arithmetic (op : BinaryOp) (l r : Decimal128) : outcome Value :=
  let! result :=
    match op with
    | OpAdd =>
        let! _ := require_equal_decimal_scales l r in
        map_err (λ _, decimal_overflow_error) (checked_add_same_scale l r)
    | OpSub =>
        let! _ := require_equal_decimal_scales l r in
        map_err (λ _, decimal_overflow_error) (checked_sub_same_scale l r)
    | OpMul => decimal_product l r
    | OpDiv => Err decimal_division_refused
    | _ => Panic
    end in
  Ok (Decimal result).

Definition decimal_int64_arithmetic (op : BinaryOp) (decimal : Decimal128) (integer : Z) (decimal_first : bool) :
    outcome Value :=
  if bool_decide (op = OpDiv) then Err decimal_division_refused else
  let scale := if bool_decide (op = OpMul) then 0 else scale decimal in
  let! promoted := map_err (λ _, InvalidArgument "operator `{}` cannot promote Int64 operand {integer} to Decimal scale {scale} exactly; the 10^{scale} scaling overflowed")
    (from_i64_scaled integer scale) in
  let '(l, r) := if decimal_first then (decimal, promoted) else (promoted, decimal) in
  decimal_arithmetic op l r.

(** ** Timestamps *)

Definition MICROS_PER_DAY : Z := 86400000000.

(** [div_euclid] by a positive divisor is the floor. *)
Definition evaluate_date_trunc (unit_ : DateTruncUnit) (value : Value) : outcome Value :=
  match value with
  | Null => Ok Null
  | Timestamp micros =>
      let! floored := ok_or (try_i 64 (micros / MICROS_PER_DAY * MICROS_PER_DAY))
        (InvalidArgument "operator `date_trunc(day)` cannot floor Timestamp {micros} within the i64 Timestamp domain") in
      Ok (Timestamp floored)
  | _ => Err (InvalidArgument "operator `date_trunc(day)` requires a Timestamp operand; got {}")
  end.

Definition evaluate_date_add (unit_ : DateTruncUnit) (value amount : Value) : outcome Value :=
  match value, amount with
  | Null, _ | _, Null => Ok Null
  | Timestamp micros, Int64 days =>
      let! offset := ok_or (try_i 64 (days * MICROS_PER_DAY))
        (InvalidArgument "operator `date_add(day)` overflowed while multiplying {days} days by {MICROS_PER_DAY} microseconds") in
      let! result := ok_or (try_i 64 (micros + offset))
        (InvalidArgument "operator `date_add(day)` overflowed while adding offset {offset} to Timestamp {micros}") in
      Ok (Timestamp result)
  | _, _ => Err (InvalidArgument "operator `date_add(day)` requires Timestamp and Int64 operands; got {} and {}")
  end.

(** ** Rounding *)

Definition require_decimal_precision (precision : option Z) : outcome Z :=
  ok_or precision (InvalidArgument "operator `{operator}` produced a Decimal without a declared precision").

Definition evaluate_round (value : Value) (places : Z) (precision : option Z) : outcome Value :=
  match value with
  | Null => Ok Null
  | Decimal value =>
      let! precision := require_decimal_precision precision in
      let! result := round_to_places value places precision in
      Ok (Decimal result)
  | _ => Err (InvalidArgument "operator `round` requires a Decimal operand; got {}")
  end.

Definition evaluate_round_div (numerator denominator : Value) (places : Z) (precision : option Z) : outcome Value :=
  match numerator, denominator with
  | Null, _ | _, Null => Ok Null
  | Decimal numerator, Decimal denominator =>
      let! precision := require_decimal_precision precision in
      let! result := round_div_to_places numerator denominator places precision in
      Ok (Decimal result)
  | _, _ => Err (InvalidArgument "operator `round_div` requires Decimal operands; got {} and {}")
  end.

(** ** Extrema *)

Definition compare_extrema_values (l r : Value) : outcome comparison :=
  match l, r with
  | Bool l, Bool r => Ok (bool_cmp l r)
  | Int64 l, Int64 r => Ok (l ?= r)
  | Float64 l, Float64 r => Ok (f64_total_cmp l r)
  | String l, String r => Ok (str_cmp l r)
  | Timestamp l, Timestamp r => Ok (l ?= r)
  | Decimal l, Decimal r =>
      if negb (scale l =? scale r)
      then Err (InvalidArgument "operator `{operator}` requires equal Decimal scales; got scales {} and {}")
      else Ok (digits l ?= digits r)
  | _, _ => Err (InvalidArgument "operator `{operator}` cannot order operand types {} and {}")
  end.

(** One cell of the extrema loop; [replacement] is [extrema_replacement_order]. *)
Definition extrema_cell (replacement : comparison) (current candidate : Value) : outcome Value :=
  match candidate with
  | Null => Ok current
  | _ =>
      let! replace :=
        match current with
        | Null => Ok true
        | _ =>
            let! ordering := compare_extrema_values candidate current in
            Ok (bool_decide (ordering = replacement))
        end in
      Ok (if replace : bool then candidate else current)
  end.

Definition require_variadic_arity {A} (expressions : list A) : outcome unit :=
  if (length expressions <? 2)%nat
  then Err (InvalidArgument "operator `{operator}` requires at least two operands") else Ok tt.

(** ** Private columns *)

(** The bytes of [NUL devondb-classof NUL] and [NUL devondb-scoreof NUL]. *)
Definition classof_prefix : list Z := [0;100;101;118;111;110;100;98;45;99;108;97;115;115;111;102;0].
Definition scoreof_prefix : list Z := [0;100;101;118;111;110;100;98;45;115;99;111;114;101;111;102;0].
Definition classof_column_key (binding : list Z) : list Z := classof_prefix ++ fold binding.
Definition scoreof_column_key (binding : list Z) : list Z := scoreof_prefix ++ fold binding.

(** ** Vectors and floats *)

Section Floats.
Context `{FloatEnv}.

Definition float_arithmetic (op : BinaryOp) (l r : spec_float) : outcome spec_float :=
  match op with
  | OpAdd => Ok (f64_add l r)
  | OpSub => Ok (f64_sub l r)
  | OpMul => Ok (f64_mul l r)
  | OpDiv => Ok (f64_div l r)
  | _ => Panic
  end.

Definition evaluate_arithmetic (op : BinaryOp) (l r : Value) : outcome Value :=
  match l, r with
  | Null, _ | _, Null => Ok Null
  | Int64 l, Int64 r => integer_arithmetic op l r
  | Int64 l, Float64 r =>
      let! x := float_arithmetic op (f64_of_i64 l) (f64_of_bits r) in Ok (Float64 (bits_of_f64 (arith_nan op l r) x))
  | Float64 l, Int64 r =>
      let! x := float_arithmetic op (f64_of_bits l) (f64_of_i64 r) in Ok (Float64 (bits_of_f64 (arith_nan op l r) x))
  | Float64 l, Float64 r =>
      let! x := float_arithmetic op (f64_of_bits l) (f64_of_bits r) in Ok (Float64 (bits_of_f64 (arith_nan op l r) x))
  | Decimal l, Decimal r => decimal_arithmetic op l r
  | Decimal decimal, Int64 integer => decimal_int64_arithmetic op decimal integer true
  | Int64 integer, Decimal decimal => decimal_int64_arithmetic op decimal integer false
  | _, _ => Err invalid_binary_types
  end.

Definition evaluate_binary (op : BinaryOp) (l r : Value) : outcome Value :=
  match op with
  | OpEq | OpNe | OpLt | OpLe | OpGt | OpGe => evaluate_comparison op l r
  | OpAnd => evaluate_and l r
  | OpOr => evaluate_or l r
  | OpAdd | OpSub | OpMul | OpDiv => evaluate_arithmetic op l r
  end.

(** [sum::<f64>()] starts from negative zero. *)
Definition l2_distance (l r : list Z) : spec_float :=
  f64_sqrt (foldl f64_add (S754_zero true)
    (zip_with (λ l r,
       let difference := f64_sub (f64_of_f32_bits l) (f64_of_f32_bits r) in
       f64_mul difference difference) l r)).

Definition is_zero (x : spec_float) : bool := match x with S754_zero _ => true | _ => false end.

Definition f64_one : spec_float := S754_finite false (2 ^ 52) (-52).

Definition cosine_distance (l r : list Z) : outcome spec_float :=
  let '(dot, left_magnitude, right_magnitude) :=
    foldl (λ '(dot, left_magnitude, right_magnitude) '(l, r),
      let l := f64_of_f32_bits l in
      let r := f64_of_f32_bits r in
      (f64_add dot (f64_mul l r), f64_add left_magnitude (f64_mul l l), f64_add right_magnitude (f64_mul r r)))
      (S754_zero false, S754_zero false, S754_zero false) (zip l r) in
  if is_zero left_magnitude || is_zero right_magnitude
  then Err (InvalidArgument "operator `distance(cosine)` received a zero-magnitude Vector operand")
  else Ok (f64_sub f64_one (f64_div dot (f64_mul (f64_sqrt left_magnitude) (f64_sqrt right_magnitude)))).

Definition evaluate_distance (metric : Metric) (l r : Value) : outcome Value :=
  match l, r with
  | Null, _ | _, Null => Ok Null
  | Vector l, Vector r =>
      if negb (length l =? length r)%nat
      then Err (InvalidArgument "operator `distance({})` requires equal-length Vector operands; got Vector({}) and Vector({})") else
      let! x := match metric with L2 => Ok (l2_distance l r) | Cosine => cosine_distance l r end in
      Ok (Float64 (bits_of_f64 (distance_nan l r) x))
  | _, _ => Err (InvalidArgument "operator `distance({})` requires equal-length Vector operands; got {} and {}")
  end.
End Floats.

(** ** Columns *)

(** [result[position] = value]. *)
Definition store (result : list Value) (position : nat) (value : Value) : outcome (list Value) :=
  if (position <? length result)%nat then Ok (<[position := value]> result) else Panic.

(** What evaluating one operand does: a selection of rows to its values. *)
Definition evaluator : Type := list nat → outcome (list Value).

Definition map_column (f : Value → outcome Value) (operand : evaluator) : evaluator := λ rows,
  let! values := operand rows in collect f values.

Definition zip_columns (f : Value → Value → outcome Value) (l r : evaluator) : evaluator := λ rows,
  let! left_values := l rows in
  let! right_values := r rows in
  collect (λ '(l, r), f l r) (zip left_values right_values).

Definition evaluate_branch_into (expr : evaluator) (rows positions : list nat) (result : list Value) :
    outcome (list Value) :=
  match rows with
  | [] => Ok result
  | _ =>
      let! values := expr rows in
      for_each (zip positions values) result (λ result '(position, value), store result position value)
  end.

Record branches := mkBranches {
  then_rows : list nat; then_positions : list nat; else_rows : list nat; else_positions : list nat }.

Definition split_row (b : branches) (x : nat * (nat * Value)) : outcome branches :=
  let '(position, (row, condition)) := x in
  match condition with
  | Bool true =>
      Ok (mkBranches (then_rows b ++ [row]) (then_positions b ++ [position]) (else_rows b) (else_positions b))
  | Bool false | Null =>
      Ok (mkBranches (then_rows b) (then_positions b) (else_rows b ++ [row]) (else_positions b ++ [position]))
  | _ => Err (InvalidArgument "operator `if` requires a Bool or Null condition; got {}")
  end.

Definition evaluate_if_column (cond then_expr else_expr : evaluator) : evaluator := λ rows,
  let! conditions := cond rows in
  let! b := for_each (enumerate (zip rows conditions)) (mkBranches [] [] [] []) split_row in
  let! result := evaluate_branch_into then_expr (then_rows b) (then_positions b) (replicate (length rows) Null) in
  evaluate_branch_into else_expr (else_rows b) (else_positions b) result.

Record pending := mkPending { p_result : list Value; p_rows : list nat; p_positions : list nat }.

Definition coalesce_cell (s : pending) (x : nat * nat * Value) : outcome pending :=
  let '(row, position, value) := x in
  match value with
  | Null => Ok (mkPending (p_result s) (p_rows s ++ [row]) (p_positions s ++ [position]))
  | _ => let! result := store (p_result s) position value in Ok (mkPending result (p_rows s) (p_positions s))
  end.

Fixpoint coalesce_loop (expressions : list evaluator) (s : pending) : outcome (list Value) :=
  match expressions with
  | [] => Ok (p_result s)
  | expression :: expressions =>
      match p_rows s with
      | [] => Ok (p_result s)
      | _ =>
          let! values := expression (p_rows s) in
          let! s := for_each (zip (zip (p_rows s) (p_positions s)) values) (mkPending (p_result s) [] []) coalesce_cell in
          coalesce_loop expressions s
      end
  end.

Definition evaluate_coalesce_column (expressions : list evaluator) : evaluator := λ rows,
  let! _ := require_variadic_arity expressions in
  coalesce_loop expressions (mkPending (replicate (length rows) Null) rows (seq 0 (length rows))).

Definition evaluate_extrema_column (replacement : comparison) (expressions : list evaluator) : evaluator := λ rows,
  let! _ := require_variadic_arity expressions in
  for_each expressions (replicate (length rows) Null) (λ result (expression : evaluator),
    let! values := expression rows in
    collect (λ '(current, candidate), extrema_cell replacement current candidate) (zip result values)).

Section Evaluation.
Context `{FloatEnv} {Operator : Type} (chunk : Chunk) (columns : gmap (list Z) nat).

Definition evaluate_column (reference : list Z) : evaluator := λ rows,
  let! index := ok_or (columns !! reference) (InvalidArgument "unknown column reference `{reference}`") in
  let! values := ok_or (column chunk index)
    (InvalidArgument "column reference `{reference}` maps to out-of-range chunk column {index}") in
  collect (λ row,
    if (column_len values <=? row)%nat
    then Err (InvalidArgument "selected row {row} is out of range for column reference `{reference}`")
    else value_at values row) rows.

Definition evaluate_classof (binding : list Z) : evaluator := λ rows,
  let! index := ok_or (columns !! classof_column_key binding)
    (InvalidArgument "classof binding `{binding}` has no interface discriminator") in
  let! values := ok_or (column chunk index)
    (InvalidArgument "classof binding `{binding}` maps to out-of-range chunk column {index}") in
  collect (λ row,
    if (column_len values <=? row)%nat
    then Err (InvalidArgument "selected row {row} is out of range for classof binding `{binding}`") else
    let! value := value_at values row in
    match value with
    | String class => Ok (String class)
    | _ => Err (InvalidArgument "classof binding `{binding}` contains non-String discriminator {value}")
    end) rows.

Definition evaluate_scoreof (binding : list Z) : evaluator := λ rows,
  let! index := ok_or (columns !! scoreof_column_key binding)
    (InvalidArgument "scoreof binding `{binding}` has no TextScan score") in
  collect (λ row,
    let! value := value chunk row index in
    match value with
    | Some ((Float64 _ | Null) as value) => Ok value
    | _ => Err (InvalidArgument "invalid TextScan score column")
    end) rows.

(** The types of the referenceable columns; a reference whose index has no type
    is left out. *)
Definition column_types : gmap (list Z) LogicalType := omap (λ index, types chunk !! index) columns.

Definition decimal_precision (expression : Expr Operator) : outcome (option Z) :=
  let! ty := expression_type expression column_types in
  match ty with
  | ENull => Ok None
  | EValue (TDecimal precision _) => Ok (Some precision)
  | EValue _ => Err (InvalidArgument "operator `{operator}` requires a Decimal operand; got {ty}")
  end.

Definition evaluate_round_column (value : Expr Operator) (values : evaluator) (places : Z) : evaluator := λ rows,
  let! values := values rows in
  let! precision := decimal_precision value in
  collect (λ value, evaluate_round value places precision) values.

(** [a.or(b)]: the argument is computed before the method is called. *)
Definition round_div_precision (numerator denominator : Expr Operator) : outcome (option Z) :=
  let! numerator := decimal_precision numerator in
  let! denominator := decimal_precision denominator in
  Ok (match numerator with Some p => Some p | None => denominator end).

Definition evaluate_round_div_column (numerator denominator : Expr Operator) (numerators denominators : evaluator)
    (places : Z) : evaluator := λ rows,
  let! numerators := numerators rows in
  let! denominators := denominators rows in
  let! precision := round_div_precision numerator denominator in
  collect (λ '(numerator, denominator), evaluate_round_div numerator denominator places precision)
    (zip numerators denominators).

Fixpoint evaluate_selected (expr : Expr Operator) : evaluator :=
  match expr with
  | Col reference => evaluate_column reference
  | Lit value => λ rows, Ok (replicate (length rows) value)
  | Binary op l r => zip_columns (evaluate_binary op) (evaluate_selected l) (evaluate_selected r)
  | Not operand => map_column evaluate_not (evaluate_selected operand)
  | Distance l r metric => zip_columns (evaluate_distance metric) (evaluate_selected l) (evaluate_selected r)
  | If cond then_expr else_expr =>
      evaluate_if_column (evaluate_selected cond) (evaluate_selected then_expr) (evaluate_selected else_expr)
  | Coalesce expressions => evaluate_coalesce_column (evaluate_selected <$> expressions)
  | Least expressions => evaluate_extrema_column Lt (evaluate_selected <$> expressions)
  | Greatest expressions => evaluate_extrema_column Gt (evaluate_selected <$> expressions)
  | DateTrunc unit_ value => map_column (evaluate_date_trunc unit_) (evaluate_selected value)
  | DateAdd unit_ value amount =>
      zip_columns (evaluate_date_add unit_) (evaluate_selected value) (evaluate_selected amount)
  | Round value places => evaluate_round_column value (evaluate_selected value) places
  | RoundDiv numerator denominator places =>
      evaluate_round_div_column numerator denominator (evaluate_selected numerator) (evaluate_selected denominator) places
  | Scalar _ => λ _, Err (InvalidArgument "scalar subquery evaluation is not available in this evaluator")
  | ClassOf binding => evaluate_classof binding
  | ScoreOf binding => evaluate_scoreof binding
  end.

Definition evaluate (expr : Expr Operator) : outcome (list Value) :=
  evaluate_selected expr (seq 0 (row_count chunk)).
End Evaluation.
