(* ===== verification/EvalFloat.v ===== *)
(** Comparing an integer with a float is exact: [int_float_ordering] of
    [devondb-exec/src/eval.rs] never rounds the integer. *)

From S2P Require Import Prelude Bytes Decimal Types Codec Schema F64 Expr Typing Eval.
From Stdlib Require Import SpecFloat.

(** ** Decoded floats *)

(** The finite floats: 53 bits of mantissa, the leading one present except at
    the least exponent. *)
Definition f64_finite (m : positive) (e : Z) : Prop :=
  Zpos m < 2 ^ 53 ∧ -1074 ≤ e ≤ 971 ∧ (e = -1074 ∨ 2 ^ 52 ≤ Zpos m).

Lemma f64_of_bits_finite bits s m e : f64_of_bits bits = S754_finite s m e → f64_finite m e.
Proof.
  unfold f64_of_bits, f64_finite. set (ex := Z.land (Z.shiftr bits 52) 2047). set (mant := Z.land bits (2 ^ 52 - 1)).
  assert (0 ≤ ex < 2048) as Hex.
  { unfold ex. change 2047 with (Z.ones 11). rewrite Z.land_ones by lia. apply Z.mod_pos_bound. lia. }
  assert (0 ≤ mant < 2 ^ 52) as Hm.
  { unfold mant. change (2 ^ 52 - 1) with (Z.ones 52). rewrite Z.land_ones by lia. apply Z.mod_pos_bound. lia. }
  clearbody ex mant. destruct (ex =? 0) eqn:E0; reflect_bools.
  - destruct mant as [|p|p]; try done. intros [= <- <- <-]. lia.
  - destruct (ex =? 2047) eqn:E1; reflect_bools; [by destruct (mant =? 0)|].
    destruct (mant + 2 ^ 52) as [|p|p] eqn:Ep; try done. intros [= <- <- <-]. lia.
Qed.

Lemma finite_canon m e : f64_finite m e → canon m e = e.
Proof.
  intros (Hm & He & Hn). unfold canon, fexp, emin, prec, emax. pose proof (digits2_le m 53 ltac:(lia) Hm) as Hd.
  destruct Hn as [->|Hn]; [lia|]. assert (Zpos (digits2_pos m) = 53) as ->; [|lia]. apply digits2_unique; [simpl|]; lia.
Qed.

Lemma total_cmp_zero s m e :
  Zpos m < 2 ^ 53 → -1074 ≤ e ≤ 971 → f64_total_cmp 0 (bits_of_f64 0 (S754_finite s m e)) = if s then Gt else Lt.
Proof.
  intros Hm He. unfold f64_total_cmp, bits_of_f64. set (b := if Zpos m <? 2 ^ 52 then _ else _).
  assert (∃ k, 0 < k < 2 ^ 63 ∧ b = sign_bit s + k) as (k & Hk & ->).
  { unfold b. destruct (_ <? _) eqn:E; reflect_bools; [exists (Zpos m); lia|].
    exists (Z.shiftl (e + 1075) 52 + (Zpos m - 2 ^ 52)). rewrite Z.shiftl_mul_pow2 by lia. lia. }
  unfold total_key, sign_bit. rewrite (proj2 (Z.ltb_lt 0 _)) by lia. destruct s.
  - rewrite (proj2 (Z.ltb_ge _ _)) by lia. apply Z.compare_gt_iff. lia.
  - rewrite (proj2 (Z.ltb_lt _ _)) by lia. apply Z.compare_lt_iff. lia.
Qed.

(** ** Truncation and its remainder *)

Lemma trunc_large s m e : 0 ≤ e → f64_trunc (S754_finite s m e) = S754_finite s m e.
Proof. intros. simpl. by rewrite (proj2 (Z.leb_le _ _)). Qed.

Lemma trunc_zero s m e : e < 0 → Zpos m < 2 ^ (- e) → f64_trunc (S754_finite s m e) = S754_zero s.
Proof.
  intros He Hm. simpl. rewrite (proj2 (Z.leb_gt _ _)) by done. rewrite Z.shiftr_div_pow2 by lia. by rewrite Z.div_small by lia.
Qed.

(** A fractional float with a non-zero integral part: the part is stored at the
    same exponent. *)
Lemma trunc_fraction s m e :
  f64_finite m e → e < 0 → 2 ^ (- e) ≤ Zpos m →
  ∃ q', f64_trunc (S754_finite s m e) = S754_finite s q' e ∧ Zpos q' = Zpos m / 2 ^ (- e) * 2 ^ (- e).
Proof.
  intros (Hm & He & Hn) Hneg Hq. simpl. rewrite (proj2 (Z.leb_gt _ _)), Z.shiftr_div_pow2 by lia.
  pose proof (Z.pow_pos_nonneg 2 (- e) ltac:(lia) ltac:(lia)) as Hpow.
  assert (2 ^ 52 ≤ Zpos m) as Hnorm.
  { destruct Hn as [->|Hn]; [|done]. exfalso. assert (2 ^ 53 ≤ 2 ^ (- -1074)) by (apply Z.pow_le_mono_r; lia). lia. }
  assert (-52 ≤ e) as He52.
  { destruct (decide (-52 ≤ e)) as [|H53]; [done|]. exfalso. assert (2 ^ 53 ≤ 2 ^ (- e)) by (apply Z.pow_le_mono_r; lia). lia. }
  assert (1 ≤ Zpos m / 2 ^ (- e)) as H1 by (apply Z.div_le_lower_bound; lia).
  destruct (Zpos m / 2 ^ (- e)) as [|q|q] eqn:Eq; [lia| |lia].
  assert (Zpos (digits2_pos q) = 53 + e) as Hd.
  { apply digits2_unique; [|lia]. rewrite <- Eq. split.
    - apply Z.div_le_lower_bound; [lia|]. rewrite <- Z.pow_add_r by lia. replace (- e + (53 + e - 1)) with 52 by lia. lia.
    - apply Z.div_lt_upper_bound; [lia|]. rewrite <- Z.pow_add_r by lia. replace (- e + (53 + e)) with 53 by lia. lia. }
  assert (canon q 0 = e) as Hc by (unfold canon, fexp, emin, prec, emax; rewrite Hd; lia).
  destruct (binary_round_exact s q 0) as (q' & Hr & Hq'); [rewrite Hc; lia|rewrite Hc; unfold emax, prec; lia|].
  exists q'. rewrite Hc in *. split; [done|exact Hq'].
Qed.

(** What is left after the integral part is exact, so its sign is right. *)
Lemma remainder_sign s m q e :
  f64_finite m e → Zpos q ≤ Zpos m →
  f64_total_cmp 0 (bits_of_f64 0 (f64_sub (S754_finite s m e) (S754_finite s q e))) =
  if Zpos m =? Zpos q then Eq else if s then Gt else Lt.
Proof.
  intros Hf Hle. cbn [f64_sub SFsub]. unfold shl_align. rewrite Z.min_id, Z.sub_diag. cbn [fst].
  destruct (Zpos m =? Zpos q) eqn:E; reflect_bools.
  { rewrite E, Z.sub_diag. done. }
  pose proof (finite_canon m e Hf) as Hc. destruct Hf as (Hm & He & _).
  destruct (Zpos m - Zpos q) as [|r|r] eqn:Er; [lia| |lia].
  assert (binary_normalize prec emax (cond_Zopp s (Zpos m) - cond_Zopp s (Zpos q)) e false = binary_round prec emax s r e) as ->.
  { destruct s; cbn [cond_Zopp]; [replace (- Zpos m - - Zpos q) with (- Zpos r) by lia|rewrite Er]; done. }
  assert (canon r e ≤ e ∧ -1074 ≤ canon r e ∧ Zpos (digits2_pos r) + e - canon r e ≤ 53) as (Hr & Hlow & Hd).
  { pose proof (digits2_mono r m ltac:(lia)) as Hmono. unfold canon, fexp, emin, prec, emax in *. lia. }
  destruct (binary_round_exact s r e Hr) as (r' & -> & Hr'); [unfold emax, prec; lia|].
  apply total_cmp_zero; [|lia]. rewrite Hr'. pose proof (digits2_pos_spec r) as [_ Hlt].
  apply Z.lt_le_trans with (2 ^ (Zpos (digits2_pos r) + (e - canon r e))); [|apply Z.pow_le_mono_r; lia].
  rewrite Z.pow_add_r by lia. apply Z.mul_lt_mono_pos_r; [apply Z.pow_pos_nonneg; lia|done].
Qed.

(** ** The exact order *)

(** The order of an integer and the real number a float denotes. *)
Definition cmp_real (n : Z) (x : spec_float) : comparison :=
  match x with
  | S754_zero _ => n ?= 0
  | S754_infinity s => if s then Gt else Lt
  | S754_finite s m e => n * 2 ^ Z.max 0 (- e) ?= signed s (Zpos m) * 2 ^ Z.max 0 e
  | S754_nan => Eq
  end.

Lemma compare_scale a b k : 0 < k → (a * k ?= b * k) = (a ?= b).
Proof. intros. rewrite !(Z.mul_comm _ k). symmetry. by apply Zmult_compare_compat_l, Z.lt_gt. Qed.

Lemma pos_compare a b : Pos.compare_cont Eq a b = (Zpos a ?= Zpos b).
Proof. done. Qed.

(** Integral floats: two range checks, then the integers themselves. *)
Lemma ordering_integral n s m e :
  in_i 64 n → f64_finite m e → 0 ≤ e →
  (let x := S754_finite s m e in
   if SFleb two63 x then Lt else
   if SFltb x (SFopp two63) then Gt else
   match n ?= i64_of_f64 x with Eq => f64_total_cmp 0 (bits_of_f64 0 (f64_sub x x)) | c => c end) =
  (n ?= signed s (Zpos m) * 2 ^ e).
Proof.
  intros Hn Hf He. cbn zeta. pose proof Hf as (Hm & Hr & Hnorm). assert (2 ^ 52 ≤ Zpos m) as H52 by (destruct Hnorm; lia).
  unfold in_i in Hn. change (64 - 1) with 63 in Hn.
  assert (∀ k, k ≤ e → 2 ^ k ≤ 2 ^ e) as Hpow by (intros; apply Z.pow_le_mono_r; lia).
  assert (e ≤ 10 → 2 ^ e ≤ 2 ^ 10) as Hpow' by (intros; apply Z.pow_le_mono_r; lia).
  rewrite remainder_sign, Z.eqb_refl by (done || lia).
  assert (- 2 ^ 63 ≤ signed s (Zpos m) * 2 ^ e < 2 ^ 63 →
    match n ?= i64_of_f64 (S754_finite s m e) with Eq => Eq | c => c end = (n ?= signed s (Zpos m) * 2 ^ e)) as Hin.
  { intros Hb. cbn [i64_of_f64]. rewrite Z.shiftl_mul_pow2 by lia.
    replace (signed s (Zpos m * 2 ^ e)) with (signed s (Zpos m) * 2 ^ e) by (destruct s; simpl signed; lia).
    rewrite Z.min_r, Z.max_r by lia. by destruct (n ?= _). }
  unfold SFleb, SFltb, two63. cbn [SFcompare SFopp negb]. rewrite !pos_compare. destruct s; cbn [signed] in *.
  - destruct (Z.compare_spec e 11) as [->|Hlt|Hgt].
    + destruct (Z.compare_spec (Zpos m) (Zpos (2 ^ 52))) as [E|E|E]; cbn [CompOpp]; [apply Hin; lia|lia|].
      symmetry. apply Z.compare_gt_iff. lia.
    + apply Hin. specialize (Hpow' ltac:(lia)). nia.
    + symmetry. apply Z.compare_gt_iff. specialize (Hpow 12 ltac:(lia)). nia.
  - destruct (Z.compare_spec 11 e) as [<-|Hlt|Hgt].
    + destruct (Z.compare_spec (Zpos (2 ^ 52)) (Zpos m)) as [E|E|E]; [| |lia]; symmetry; apply Z.compare_lt_iff; lia.
    + symmetry. apply Z.compare_lt_iff. specialize (Hpow 12 ltac:(lia)). nia.
    + apply Hin. specialize (Hpow' ltac:(lia)). nia.
Qed.

(** Fractional floats are within the range of [i64]. *)
Lemma small_range s m e : e < 11 → SFleb two63 (S754_finite s m e) = false ∧ SFltb (S754_finite s m e) (SFopp two63) = false.
Proof.
  intros He. unfold SFleb, SFltb, two63. cbn [SFcompare SFopp negb].
  rewrite (proj2 (Z.compare_gt_iff 11 e)), (proj2 (Z.compare_lt_iff e 11)) by lia. by destruct s.
Qed.

Lemma ordering_below_one n s m e :
  f64_finite m e → e < 0 → Zpos m < 2 ^ (- e) →
  match n ?= 0 with Eq => f64_total_cmp 0 (bits_of_f64 0 (f64_sub (S754_finite s m e) (S754_zero s))) | c => c end =
  (n * 2 ^ (- e) ?= signed s (Zpos m)).
Proof.
  intros (Hm & He & _) Hneg Hlt. cbn [f64_sub SFsub]. rewrite total_cmp_zero by done.
  destruct (Z.compare_spec n 0) as [->|Hn|Hn]; symmetry.
  - destruct s; [apply Z.compare_gt_iff|apply Z.compare_lt_iff]; simpl signed; lia.
  - apply Z.compare_lt_iff. destruct s; simpl signed; nia.
  - apply Z.compare_gt_iff. destruct s; simpl signed; nia.
Qed.

Lemma ordering_fraction n s m q e :
  f64_finite m e → e < 0 → Zpos q = Zpos m / 2 ^ (- e) * 2 ^ (- e) →
  match n ?= i64_of_f64 (S754_finite s q e) with
  | Eq => f64_total_cmp 0 (bits_of_f64 0 (f64_sub (S754_finite s m e) (S754_finite s q e)))
  | c => c
  end = (n * 2 ^ (- e) ?= signed s (Zpos m)).
Proof.
  intros Hf Hneg Hq. set (k := 2 ^ (- e)) in *. pose proof Hf as (Hm & _).
  assert (0 < k) as Hk by (apply Z.pow_pos_nonneg; lia).
  pose proof (Z.div_mod (Zpos m) k ltac:(lia)) as Hdm. pose proof (Z.mod_pos_bound (Zpos m) k Hk) as Hmod.
  set (t := Zpos m / k) in *. set (r := Zpos m mod k) in *.
  assert (0 ≤ t < 2 ^ 53) as Ht by nia.
  assert (i64_of_f64 (S754_finite s q e) = signed s t) as ->.
  { cbn [i64_of_f64]. rewrite Z.shiftl_div_pow2 by lia. fold k. rewrite Hq, Z.div_mul by lia. destruct s; simpl signed; lia. }
  rewrite remainder_sign by (done || lia).
  destruct (Z.compare_spec n (signed s t)) as [->|Hn|Hn].
  - destruct (Zpos m =? Zpos q) eqn:E; reflect_bools; symmetry.
    + apply Z.compare_eq_iff. destruct s; simpl signed; lia.
    + destruct s; [apply Z.compare_gt_iff|apply Z.compare_lt_iff]; simpl signed; nia.
  - symmetry. apply Z.compare_lt_iff. destruct s; simpl signed in *; nia.
  - symmetry. apply Z.compare_gt_iff. destruct s; simpl signed in *; nia.
Qed.

Lemma int_float_ordering_finite n bits s m e :
  in_i 64 n → f64_of_bits bits = S754_finite s m e →
  int_float_ordering n bits = cmp_real n (S754_finite s m e).
Proof.
  intros Hn Hb. pose proof (f64_of_bits_finite bits s m e Hb) as Hf. unfold int_float_ordering. rewrite Hb. cbn [cmp_real].
  destruct (decide (0 ≤ e)) as [He|He].
  { rewrite trunc_large by done. rewrite Z.max_l, Z.max_r, Z.mul_1_r by lia. by apply ordering_integral. }
  rewrite Z.max_r, Z.max_l, Z.mul_1_r by lia. destruct (decide (Zpos m < 2 ^ (- e))) as [Hlt|Hge].
  - rewrite trunc_zero by lia. cbn zeta. replace (SFleb two63 (S754_zero s)) with false by done.
    replace (SFltb (S754_zero s) (SFopp two63)) with false by done. apply ordering_below_one; [done|lia|done].
  - destruct (trunc_fraction s m e Hf ltac:(lia) ltac:(lia)) as (q & -> & Hq). cbn zeta.
    destruct (small_range s q e ltac:(lia)) as [-> ->]. apply ordering_fraction; [done|lia|done].
Qed.

Definition comparison_operator (op : BinaryOp) : bool :=
  match op with OpEq | OpNe | OpLt | OpLe | OpGt | OpGe => true | _ => false end.

(** C34: comparing an [Int64] with a [Float64] is exact in both operand orders:
    for every integer and every float that is not NaN, the result of each
    operator is decided by the order of the integer and the real number the
    float denotes (no rounding at any magnitude, infinities beyond every
    integer, both zeros equal to 0); against a NaN only [!=] holds. *)
Theorem int_float_comparison_exact op n bits :
  in_i 64 n → comparison_operator op = true →
  let x := f64_of_bits bits in
  evaluate_comparison op (Int64 n) (Float64 bits) =
    (let! b := compare_values op (if is_nan x then None else Some (cmp_real n x)) in Ok (Bool b)) ∧
  evaluate_comparison op (Float64 bits) (Int64 n) =
    (let! b := compare_values op (if is_nan x then None else Some (CompOpp (cmp_real n x))) in Ok (Bool b)).
Proof.
  intros Hn Hop x.
  assert (is_nan x = false → int_float_ordering n bits = cmp_real n x) as Hord.
  { unfold x. destruct (f64_of_bits bits) as [s|s| |s m e] eqn:Eb; intros Hnan; [|by unfold int_float_ordering; rewrite Eb|done|].
    - unfold int_float_ordering. rewrite Eb. cbn zeta. cbn [f64_trunc i64_of_f64 cmp_real].
      replace (SFleb two63 (S754_zero s)) with false by done. replace (SFltb (S754_zero s) (SFopp two63)) with false by done.
      destruct (n ?= 0); [by destruct s|done..].
    - by apply int_float_ordering_finite. }
  cbn [evaluate_comparison]. unfold compare_int_float, compare_float_int. fold x.
  destruct (is_nan x); [by destruct op|]. rewrite Hord by done. generalize (cmp_real n x). intros c. by destruct op, c.
Qed.

(** 2^53 + 1 against the float 2^53: the integer is larger, though it rounds to
    that float. *)
Lemma int_float_comparison_exact_witness :
  evaluate_comparison OpGt (Int64 (2 ^ 53 + 1)) (Float64 (Z.shiftl (53 + 1023) 52)) = Ok (Bool true).
Proof.
  rewrite (proj1 (int_float_comparison_exact OpGt (2 ^ 53 + 1) (Z.shiftl (53 + 1023) 52) ltac:(split; vm_compute; congruence) eq_refl)).
  vm_compute. reflexivity.
Defined.
