(* ===== verification/EvalRow.v ===== *)
(** What an expression means on one row, and the proof that the columnar
    evaluator computes exactly that.

    [eval_row] is the definitional interpreter: one row, one value, a branch of
    [If] or an operand of [Coalesce] evaluated only when it is selected.  The
    evaluator of [Eval] works on whole columns, narrows selections and
    scatters results by position; [columnar_agrees] relates the two on values,
    errors and panics. *)

From S2P Require Import Prelude Bytes Decimal Types Codec Schema F64 Expr Typing Eval.

(** ** The reference semantics *)

Section Row.
Context `{FloatEnv} {Operator : Type} (chunk : Chunk) (columns : gmap (list Z) nat).

(** The value of one row of a one-row evaluator. *)
Definition single (f : evaluator) (row : nat) : outcome Value :=
  let! values := f [row] in index values 0.

Fixpoint first_non_null (operands : list (nat → outcome Value)) (row : nat) : outcome Value :=
  match operands with
  | [] => Ok Null
  | operand :: operands =>
      let! v := operand row in
      match v with Null => first_non_null operands row | _ => Ok v end
  end.

Definition extremum (replacement : comparison) (operands : list (nat → outcome Value)) (row : nat) : outcome Value :=
  for_each operands Null (λ current (operand : nat → outcome Value),
    let! candidate := operand row in extrema_cell replacement current candidate).

Fixpoint eval_row (expr : Expr Operator) (row : nat) : outcome Value :=
  match expr with
  | Col reference => single (evaluate_column chunk columns reference) row
  | Lit value => Ok value
  | Binary op l r =>
      let! l := eval_row l row in let! r := eval_row r row in evaluate_binary op l r
  | Not operand => let! v := eval_row operand row in evaluate_not v
  | Distance l r metric =>
      let! l := eval_row l row in let! r := eval_row r row in evaluate_distance metric l r
  | If cond then_expr else_expr =>
      let! c := eval_row cond row in
      match c with
      | Bool true => eval_row then_expr row
      | Bool false | Null => eval_row else_expr row
      | _ => Err (InvalidArgument "operator `if` requires a Bool or Null condition; got {}")
      end
  | Coalesce expressions =>
      let! _ := require_variadic_arity expressions in first_non_null (eval_row <$> expressions) row
  | Least expressions =>
      let! _ := require_variadic_arity expressions in extremum Lt (eval_row <$> expressions) row
  | Greatest expressions =>
      let! _ := require_variadic_arity expressions in extremum Gt (eval_row <$> expressions) row
  | DateTrunc unit_ value => let! v := eval_row value row in evaluate_date_trunc unit_ v
  | DateAdd unit_ value amount =>
      let! v := eval_row value row in let! a := eval_row amount row in evaluate_date_add unit_ v a
  | Round value places =>
      let! v := eval_row value row in
      let! precision := decimal_precision chunk columns value in
      evaluate_round v places precision
  | RoundDiv numerator denominator places =>
      let! n := eval_row numerator row in
      let! d := eval_row denominator row in
      let! precision := round_div_precision chunk columns numerator denominator in
      evaluate_round_div n d places precision
  | Scalar _ => Err (InvalidArgument "scalar subquery evaluation is not available in this evaluator")
  | ClassOf binding => single (evaluate_classof chunk columns binding) row
  | ScoreOf binding => single (evaluate_scoreof chunk columns binding) row
  end.
End Row.

(** ** Agreement *)

(** A columnar outcome agrees with a row function: the values are the rows'
    values, and a failure is the failure of some selected row. *)
Definition agrees {A B} (rows : list A) (m : outcome (list B)) (f : A → outcome B) : Prop :=
  match m with
  | Ok vs => Forall2 (λ row v, f row = Ok v) rows vs
  | Err e => ∃ row, row ∈ rows ∧ f row = Err e
  | Panic => ∃ row, row ∈ rows ∧ f row = Panic
  end.

Lemma Forall2_elem_r {A B} (R : A → B → Prop) xs ys y : Forall2 R xs ys → y ∈ ys → ∃ x, x ∈ xs ∧ R x y.
Proof.
  intros HR (i & Hi)%list_elem_of_lookup. destruct (Forall2_lookup_r _ _ _ _ _ HR Hi) as (x & Hx & ?).
  exists x. split; [by eapply list_elem_of_lookup_2|done].
Qed.

(** Agreement through an intermediate column: row by row, [h] is [g] at the
    intermediate value. *)
Lemma agrees_transfer {A B C} (rows : list A) (xs : list B) (m : outcome (list C)) g h :
  Forall2 (λ row x, h row = g x) rows xs → agrees xs m g → agrees rows m h.
Proof.
  intros HR. destruct m as [vs|e|]; simpl.
  - revert vs. induction HR as [|row x rows xs Hx HR IH]; intros vs; [by intros ->%Forall2_nil_inv_l|].
    intros (v & vs' & Hv & Hvs & ->)%Forall2_cons_inv_l. constructor; [congruence|by apply IH].
  - intros (x & Hx & ?). destruct (Forall2_elem_r _ _ _ _ HR Hx) as (row & ? & Hr). exists row. split; [done|congruence].
  - intros (x & Hx & ?). destruct (Forall2_elem_r _ _ _ _ HR Hx) as (row & ? & Hr). exists row. split; [done|congruence].
Qed.

Lemma collect_agrees {A B} (f : A → outcome B) xs : agrees xs (collect f xs) f.
Proof.
  induction xs as [|x xs IH]; simpl; [constructor|].
  destruct (f x) as [y|e|] eqn:E; simpl; [|by exists x; split; [set_solver|]..].
  destruct (collect f xs) as [ys|e|]; simpl in *; [by constructor|..];
    destruct IH as (r & ? & ?); exists r; (split; [set_solver|done]).
Qed.

(** Sequencing: the row function continues where the column does. *)
Lemma agrees_bind {A B C} (rows : list A) (m : outcome (list B)) (k : list B → outcome (list C)) f g :
  agrees rows m f →
  (∀ vs, Forall2 (λ row v, f row = Ok v) rows vs → agrees rows (k vs) (λ row, let! v := f row in g row v)) →
  agrees rows (let! vs := m in k vs) (λ row, let! v := f row in g row v).
Proof.
  intros Hm Hk. destruct m as [vs|e|]; simpl in *; [by apply Hk|..];
    destruct Hm as (row & ? & Hr); exists row; (split; [done|by rewrite Hr]).
Qed.

(** A check that does not depend on the row. *)
Lemma agrees_check {A B C} (rows : list A) (c : outcome C) (k : C → outcome (list B)) g :
  rows ≠ [] → (∀ x, c = Ok x → agrees rows (k x) (g x)) →
  agrees rows (let! x := c in k x) (λ row, let! x := c in g x row).
Proof.
  intros Hne Hk. destruct c as [x|e|]; simpl; [by apply Hk|..];
    destruct rows as [|row rows]; try done; exists row; (split; [set_solver|done]).
Qed.

(** An evaluator that implements a row function on every non-empty selection. *)
Definition implements (F : evaluator) (f : nat → outcome Value) : Prop :=
  ∀ rows, rows ≠ [] → agrees rows (F rows) f.

Lemma implements_ext F G : (∀ rows, F rows = G rows) → implements G (single G) → implements F (single F).
Proof.
  intros HFG HG rows Hne. rewrite HFG. apply (agrees_transfer rows rows _ (single G)); [|by apply HG].
  apply Forall_Forall2_diag, Forall_forall. intros row _. unfold single. by rewrite HFG.
Qed.

Lemma map_implements F f g :
  implements F f → implements (map_column g F) (λ row, let! v := f row in g v).
Proof.
  intros HF rows Hne. unfold map_column. apply (agrees_bind _ _ _ f (λ _ v, g v)); [by apply HF|].
  intros vs Hvs. apply (agrees_transfer _ vs _ g); [|apply collect_agrees].
  eapply Forall2_impl; [done|]. intros row v Hv. cbn beta. by rewrite Hv.
Qed.

Lemma zip_rows {A B C} (f : A → outcome B) (g : A → outcome C) rows xs ys :
  Forall2 (λ row x, f row = Ok x) rows xs → Forall2 (λ row y, g row = Ok y) rows ys →
  Forall2 (λ row p, f row = Ok p.1 ∧ g row = Ok p.2) rows (zip xs ys).
Proof.
  intros Hx. revert ys. induction Hx as [|row x rows xs Hx _ IH]; intros ys.
  - intros ->%Forall2_nil_inv_l. constructor.
  - intros (y & ys' & Hy & Hys & ->)%Forall2_cons_inv_l. constructor; [done|by apply IH].
Qed.

(** A second column combined with one already computed. *)
Lemma zip_agrees (rows : list nat) (f g : nat → outcome Value) (h : Value → Value → outcome Value) ls m :
  Forall2 (λ row l, f row = Ok l) rows ls → agrees rows m g →
  agrees rows (let! rs := m in collect (λ '(l, r), h l r) (zip ls rs))
    (λ row, let! l := f row in let! r := g row in h l r).
Proof.
  intros Hls Hm. destruct m as [rs|e|]; cbn [bind].
  - apply (agrees_transfer _ (zip ls rs) _ (λ '(l, r), h l r)); [|apply collect_agrees].
    eapply Forall2_impl; [by apply (zip_rows f g)|]. intros row [l r] [Hl Hr]. simpl in *. by rewrite Hl, Hr.
  - destruct Hm as (row & Hin & Hg). exists row. split; [done|]. apply list_elem_of_lookup in Hin as [i Hi].
    destruct (Forall2_lookup_l _ _ _ _ _ Hls Hi) as (l & _ & ->). simpl. by rewrite Hg.
  - destruct Hm as (row & Hin & Hg). exists row. split; [done|]. apply list_elem_of_lookup in Hin as [i Hi].
    destruct (Forall2_lookup_l _ _ _ _ _ Hls Hi) as (l & _ & ->). simpl. by rewrite Hg.
Qed.

Lemma zip_implements F G f g h :
  implements F f → implements G g →
  implements (zip_columns h F G) (λ row, let! l := f row in let! r := g row in h l r).
Proof.
  intros HF HG rows Hne. unfold zip_columns.
  apply (agrees_bind _ _ _ f (λ row l, let! r := g row in h l r)); [by apply HF|].
  intros ls Hls. apply zip_agrees; [done|by apply HG].
Qed.

(** A row-independent check between the operands and the operation. *)
Lemma map_checked_implements {C} (c : outcome C) g F f :
  implements F f →
  implements (λ rows, let! vs := F rows in let! p := c in collect (λ v, g v p) vs)
    (λ row, let! v := f row in let! p := c in g v p).
Proof.
  intros HF. destruct c as [p|e|]; [by apply (map_implements F f (λ v, g v p))|..]; intros rows Hne;
    (apply (agrees_bind _ _ _ f (λ _ _, _)); [by apply HF|]); intros vs Hvs;
    (destruct Hvs as [|row v rows vs Hv _]; [done|]); (exists row; split; [by left|by rewrite Hv]).
Qed.

Lemma zip_checked_implements {C} (c : outcome C) g F G f h :
  implements F f → implements G h →
  implements (λ rows, let! ls := F rows in let! rs := G rows in let! p := c in collect (λ '(l, r), g l r p) (zip ls rs))
    (λ row, let! l := f row in let! r := h row in let! p := c in g l r p).
Proof.
  intros HF HG. destruct c as [p|e|]; [by apply (zip_implements F G f h (λ l r, g l r p))|..]; intros rows Hne;
    (apply (agrees_bind _ _ _ f (λ row _, let! _ := h row in _)); [by apply HF|]); intros ls Hls;
    pose proof (HG rows Hne) as Hh; destruct (G rows) as [rs|e'|]; cbn [bind] in *.
  all: try (destruct Hh as (row & Hin & Hr); exists row; split; [done|]; apply list_elem_of_lookup in Hin as [i Hi];
    destruct (Forall2_lookup_l _ _ _ _ _ Hls Hi) as (l & _ & ->); simpl; by rewrite Hr).
  all: destruct Hls as [|row l rows ls Hl _]; [done|]; apply Forall2_cons_inv_l in Hh as (r & rs' & Hr & _);
    exists row; split; [by left|by rewrite Hl; simpl; rewrite Hr].
Qed.

(** Evaluators that check once and then read every row. *)
Lemma single_collect {C} (c : outcome C) (g : C → nat → outcome Value) row :
  single (λ rows, let! x := c in collect (g x) rows) row = let! x := c in g x row.
Proof. unfold single. destruct c as [x|e|]; [|done..]. simpl. by destruct (g x row). Qed.

Lemma collect_implements {C} (c : outcome C) (g : C → nat → outcome Value) :
  implements (λ rows, let! x := c in collect (g x) rows) (single (λ rows, let! x := c in collect (g x) rows)).
Proof.
  intros rows Hne. apply (agrees_transfer rows rows _ (λ row, let! x := c in g x row)).
  - apply Forall_Forall2_diag. apply Forall_forall. intros row _. rewrite single_collect. done.
  - apply agrees_check; [done|]. intros. apply collect_agrees.
Qed.

(** ** Scattering results *)

Lemma store_Ok result p v : (p < length result)%nat → store result p v = Ok (<[p := v]> result).
Proof. intros. unfold store. by rewrite (proj2 (Nat.ltb_lt _ _)). Qed.

Definition scatter (positions : list nat) (values result : list Value) : outcome (list Value) :=
  for_each (zip positions values) result (λ result '(position, value), store result position value).

Lemma scatter_spec positions values : ∀ result,
  length positions = length values → NoDup positions → Forall (λ p, p < length result)%nat positions →
  ∃ result', scatter positions values result = Ok result' ∧ length result' = length result ∧
    (∀ i p v, positions !! i = Some p → values !! i = Some v → result' !! p = Some v) ∧
    (∀ p, p ∉ positions → result' !! p = result !! p).
Proof.
  revert values. induction positions as [|p positions IH]; intros [|v values] result; try done.
  { intros _ _ _. by exists result. }
  intros [= Hl] [Hp Hnd]%NoDup_cons [Hlt Hall]%Forall_cons.
  destruct (IH values (<[p := v]> result)) as (r' & Hr & Hlen & Hin & Hout); [done..|by rewrite length_insert|].
  exists r'. rewrite length_insert in Hlen. split_and!; [|done|..].
  - unfold scatter in *. cbn [zip zip_with for_each]. rewrite store_Ok by done. exact Hr.
  - intros [|i] q w; simpl; [|apply Hin]. intros [= <-] [= <-]. rewrite Hout by done. by rewrite list_lookup_insert_eq.
  - intros q [Hne Hq]%not_elem_of_cons. rewrite Hout by done. by rewrite list_lookup_insert_ne.
Qed.

(** Evaluating one branch on its rows: each selected position gets its row's
    value, the others keep theirs. *)
Lemma branch_spec F f (ps : list (nat * nat)) result :
  implements F f → NoDup ps.*1 → Forall (λ p, p < length result)%nat ps.*1 →
  match evaluate_branch_into F ps.*2 ps.*1 result with
  | Ok result' => length result' = length result ∧
      (∀ p row, (p, row) ∈ ps → ∃ v, f row = Ok v ∧ result' !! p = Some v) ∧
      (∀ p, p ∉ ps.*1 → result' !! p = result !! p)
  | Err e => ∃ p row, (p, row) ∈ ps ∧ f row = Err e
  | Panic => ∃ p row, (p, row) ∈ ps ∧ f row = Panic
  end.
Proof.
  intros HF Hnd Hlt. unfold evaluate_branch_into. destruct ps as [|x ps].
  { simpl. split_and!; [done| |done]. intros p row H. by apply not_elem_of_nil in H. }
  set (qs := x :: ps) in *. assert (qs.*2 ≠ []) as Hne by done.
  replace (match qs.*2 with [] => Ok result | _ => _ end) with (let! values := F qs.*2 in scatter qs.*1 values result) by done.
  pose proof (HF _ Hne) as Ha. clearbody qs. destruct (F qs.*2) as [vs|e|]; simpl in *.
  - pose proof (Forall2_length _ _ _ Ha) as Hl. rewrite length_fmap in Hl.
    destruct (scatter_spec qs.*1 vs result) as (r' & -> & Hlen & Hin & Hout); [by rewrite length_fmap|done..|].
    split_and!; [done| |done]. intros p row (i & Hi)%list_elem_of_lookup.
    assert (qs.*2 !! i = Some row) as H2 by (by rewrite list_lookup_fmap, Hi).
    destruct (Forall2_lookup_l _ _ _ _ _ Ha H2) as (v & Hv & Hf). exists v. split; [done|].
    apply (Hin i); [by rewrite list_lookup_fmap, Hi|done].
  - destruct Ha as (row & Hx & Hf). apply list_elem_of_fmap in Hx as ([p row'] & -> & Hx). by exists p, row'.
  - destruct Ha as (row & Hx & Hf). apply list_elem_of_fmap in Hx as ([p row'] & -> & Hx). by exists p, row'.
Qed.

(** ** Conditionals *)

(** Which branch a condition selects. *)
Definition branch_of (c : Value) : option bool :=
  match c with Bool true => Some true | Bool false | Null => Some false | _ => None end.

Definition pick (t : bool) (xs : list (nat * (nat * Value))) : list (nat * nat) :=
  omap (λ '(p, (row, c)), if bool_decide (branch_of c = Some t) then Some (p, row) else None) xs.

Lemma split_row_eq b p row c :
  split_row b (p, (row, c)) =
  match branch_of c with
  | Some true => Ok (mkBranches (then_rows b ++ [row]) (then_positions b ++ [p]) (else_rows b) (else_positions b))
  | Some false => Ok (mkBranches (then_rows b) (then_positions b) (else_rows b ++ [row]) (else_positions b ++ [p]))
  | None => Err (InvalidArgument "operator `if` requires a Bool or Null condition; got {}")
  end.
Proof. by destruct c as [|[]| | | | | | | | |]. Qed.

Lemma split_spec xs : ∀ b,
  match for_each xs b split_row with
  | Ok b' => b' = mkBranches (then_rows b ++ (pick true xs).*2) (then_positions b ++ (pick true xs).*1)
                    (else_rows b ++ (pick false xs).*2) (else_positions b ++ (pick false xs).*1) ∧
      Forall (λ x, is_Some (branch_of x.2.2)) xs
  | Err e => e = InvalidArgument "operator `if` requires a Bool or Null condition; got {}" ∧
      ∃ p row c, (p, (row, c)) ∈ xs ∧ branch_of c = None
  | Panic => False
  end.
Proof.
  induction xs as [|[p [row c]] xs IH]; intros b.
  { simpl. rewrite !app_nil_r. split; [by destruct b|constructor]. }
  cbn [for_each]. rewrite split_row_eq. unfold pick. cbn [omap list_omap]. fold (pick true xs) (pick false xs).
  destruct (branch_of c) as [t|] eqn:Eb.
  2: { split; [done|]. exists p, row, c. split; [by left|done]. }
  set (b1 := if t
    then mkBranches (then_rows b ++ [row]) (then_positions b ++ [p]) (else_rows b) (else_positions b)
    else mkBranches (then_rows b) (then_positions b) (else_rows b ++ [row]) (else_positions b ++ [p])).
  replace (bind _ _) with (for_each xs b1 split_row) by (by destruct t). specialize (IH b1).
  destruct (for_each xs b1 split_row) as [b'|e|]; [|naive_solver set_solver|done].
  destruct IH as [-> Hall]. split; [|constructor; [simpl; rewrite Eb; by eexists|done]].
  by destruct t; simpl; rewrite <- ?app_assoc.
Qed.

Lemma elem_of_pick t rows cs p row :
  (p, row) ∈ pick t (enumerate (zip rows cs)) →
  ∃ c, rows !! p = Some row ∧ cs !! p = Some c ∧ branch_of c = Some t.
Proof.
  unfold pick. intros ([q [row' c]] & Hx & Hp)%list_elem_of_omap.
  apply elem_of_enumerate, lookup_zip_Some in Hx as [Hr Hc]. simpl in *.
  case_bool_decide; [|done]. injection Hp as -> ->. eauto.
Qed.

Lemma pick_elem_of t rows cs p row c :
  rows !! p = Some row → cs !! p = Some c → branch_of c = Some t → (p, row) ∈ pick t (enumerate (zip rows cs)).
Proof.
  intros Hr Hc Hb. unfold pick. apply list_elem_of_omap. exists (p, (row, c)). split.
  - assert (zip rows cs !! p = Some (row, c)) as Hz by (by apply lookup_zip_Some).
    apply list_elem_of_lookup. exists p. unfold enumerate, enumerate_from. apply lookup_zip_Some. split; [|done].
    apply lookup_seq. split; [done|]. by eapply lookup_lt_Some.
  - by rewrite bool_decide_true.
Qed.

Lemma pick_positions t xs : (pick t xs).*1 `sublist_of` xs.*1.
Proof.
  induction xs as [|[p [row c]] xs IH]; [done|]. unfold pick. cbn [omap list_omap]. fold (pick t xs).
  case_bool_decide; [by apply sublist_skip|by apply sublist_cons].
Qed.

Lemma pick_wf t rows cs : length rows = length cs →
  NoDup (pick t (enumerate (zip rows cs))).*1 ∧
  Forall (λ p, p < length rows)%nat (pick t (enumerate (zip rows cs))).*1.
Proof.
  intros Hl. pose proof (pick_positions t (enumerate (zip rows cs))) as Hs.
  unfold enumerate in Hs at 2. rewrite enumerate_fst, length_zip_with_l_eq in Hs by done. split.
  - eapply sublist_NoDup; [apply NoDup_seq|apply Hs].
  - apply Forall_forall. intros p Hp. eapply elem_of_sublist in Hs; [|done]. apply elem_of_seq in Hs. lia.
Qed.

Definition if_row (c t e : nat → outcome Value) (row : nat) : outcome Value :=
  let! v := c row in
  match v with
  | Bool true => t row
  | Bool false | Null => e row
  | _ => Err (InvalidArgument "operator `if` requires a Bool or Null condition; got {}")
  end.

Lemma if_row_branch c t e row v :
  c row = Ok v → if_row c t e row =
    match branch_of v with
    | Some true => t row
    | Some false => e row
    | None => Err (InvalidArgument "operator `if` requires a Bool or Null condition; got {}")
    end.
Proof. intros Hv. unfold if_row. rewrite Hv. by destruct v as [|[]| | | | | | | | |]. Qed.

(** The two branches of a split selection, evaluated and scattered. *)
Section IfBranches.
Context (c t e : nat → outcome Value) (rows : list nat) (cs : list Value).
Hypothesis Hcs : Forall2 (λ row v, c row = Ok v) rows cs.

Lemma if_row_at p row v : rows !! p = Some row → cs !! p = Some v →
  if_row c t e row =
    match branch_of v with
    | Some true => t row
    | Some false => e row
    | None => Err (InvalidArgument "operator `if` requires a Bool or Null condition; got {}")
    end.
Proof. intros Hr Hv. apply if_row_branch. exact (Forall2_lookup_lr _ _ _ _ _ _ Hcs Hr Hv). Qed.

Lemma picked_row b p row : (p, row) ∈ pick b (enumerate (zip rows cs)) →
  row ∈ rows ∧ if_row c t e row = if b then t row else e row.
Proof.
  intros (v & Hr & Hv & Hb)%elem_of_pick. split; [by eapply list_elem_of_lookup_2|].
  rewrite (if_row_at p row v) by done. rewrite Hb. by destruct b.
Qed.

Lemma picked_once p row row' :
  (p, row) ∈ pick true (enumerate (zip rows cs)) → (p, row') ∈ pick false (enumerate (zip rows cs)) → False.
Proof. intros (v & _ & Hv & Hb)%elem_of_pick (v' & _ & Hv' & Hb')%elem_of_pick. congruence. Qed.

Lemma branches_agree T E :
  implements T t → implements E e → Forall (λ x, is_Some (branch_of x.2.2)) (enumerate (zip rows cs)) →
  let ts := pick true (enumerate (zip rows cs)) in
  let es := pick false (enumerate (zip rows cs)) in
  agrees rows (let! result := evaluate_branch_into T ts.*2 ts.*1 (replicate (length rows) Null) in
               evaluate_branch_into E es.*2 es.*1 result) (if_row c t e).
Proof.
  intros HT HE Hall ts es. pose proof (Forall2_length _ _ _ Hcs) as Hl.
  destruct (pick_wf true rows cs Hl) as [Hn1 Hlt1]. destruct (pick_wf false rows cs Hl) as [Hn2 Hlt2].
  pose proof (branch_spec T t _ (replicate (length rows) Null) HT Hn1) as H1. rewrite length_replicate in H1. specialize (H1 Hlt1).
  fold ts in H1. destruct (evaluate_branch_into T _ _ _) as [r1|err|]; cbn [bind].
  2,3: destruct H1 as (p & row & Hp & Hr); destruct (picked_row true p row Hp) as [Hin Hif]; exists row; split; [done|congruence].
  destruct H1 as (Hlen1 & Hin1 & _). pose proof (branch_spec E e _ r1 HE Hn2) as H2. rewrite Hlen1 in H2. specialize (H2 Hlt2).
  fold es in H2. destruct (evaluate_branch_into E _ _ _) as [r2|err|]; simpl.
  2,3: destruct H2 as (p & row & Hp & Hr); destruct (picked_row false p row Hp) as [Hin Hif]; exists row; split; [done|congruence].
  destruct H2 as (Hlen2 & Hin2 & Hout2). apply Forall2_same_length_lookup_2; [lia|]. intros p row v Hr Hv.
  destruct (lookup_lt_is_Some_2 cs p) as [cv Hcv]; [apply lookup_lt_Some in Hr; lia|].
  destruct (branch_of cv) as [b|] eqn:Hb.
  - pose proof (pick_elem_of b rows cs p row cv Hr Hcv Hb) as Hp. destruct (picked_row b p row Hp) as [_ ->]. destruct b.
    + destruct (Hin1 p row Hp) as (w & -> & Hw). rewrite Hout2 in Hv; [congruence|].
      intros ([p' row'] & -> & Hq)%list_elem_of_fmap. by eapply picked_once.
    + destruct (Hin2 p row Hp) as (w & -> & Hw). congruence.
  - exfalso. rewrite Forall_forall in Hall. destruct (Hall (p, (row, cv))) as [? ?]; [|simpl in *; congruence].
    apply list_elem_of_lookup. exists p. unfold enumerate, enumerate_from. apply lookup_zip_Some.
    rewrite lookup_seq, length_zip_with_l_eq by done. split; [split; [done|by eapply lookup_lt_Some]|by apply lookup_zip_Some].
Qed.
End IfBranches.

Lemma if_implements C T E c t e :
  implements C c → implements T t → implements E e → implements (evaluate_if_column C T E) (if_row c t e).
Proof.
  intros HC HT HE rows Hne. unfold evaluate_if_column. pose proof (HC rows Hne) as Hc.
  destruct (C rows) as [cs|err|]; cbn [bind].
  2,3: destruct Hc as (row & Hin & Hr); exists row; split; [done|]; unfold if_row; by rewrite Hr.
  pose proof (split_spec (enumerate (zip rows cs)) (mkBranches [] [] [] [])) as Hs.
  destruct (for_each _ _ split_row) as [b|err|]; cbn [bind]; [|simpl|done].
  - destruct Hs as [-> Hall]. by apply branches_agree.
  - destruct Hs as [-> (p & row & v & Hx & Hb)]. apply elem_of_enumerate, lookup_zip_Some in Hx as [Hr Hv]. simpl in *.
    exists row. split; [by eapply list_elem_of_lookup_2|]. erewrite if_row_at by done. by rewrite Hb.
Qed.

(** ** Coalescing *)

(** The pending pairs (position, row) whose value is still null. *)
Definition still_null (ps : list (nat * nat)) (vs : list Value) : list (nat * nat) :=
  (filter (λ x : nat * nat * Value, x.2 = Null) (zip ps vs)).*1.

Lemma elem_of_still_null ps vs x : x ∈ still_null ps vs ↔ ∃ i, ps !! i = Some x ∧ vs !! i = Some Null.
Proof.
  unfold still_null. rewrite list_elem_of_fmap. split.
  - intros ([y v] & -> & [Hv (i & Hi)%list_elem_of_lookup]%list_elem_of_filter). simpl in *. subst.
    exists i. by apply lookup_zip_Some in Hi.
  - intros (i & Hx & Hv). exists (x, Null). split; [done|]. apply list_elem_of_filter. split; [done|].
    apply list_elem_of_lookup. exists i. by apply lookup_zip_Some.
Qed.

Lemma still_null_cons x ps v vs :
  still_null (x :: ps) (v :: vs) = (if decide (v = Null) then [x] else []) ++ still_null ps vs.
Proof.
  unfold still_null. cbn [zip zip_with]. destruct (decide (v = Null)) as [->|Hn].
  - by rewrite filter_cons_True.
  - by rewrite filter_cons_False.
Qed.

Lemma still_null_sublist ps vs : still_null ps vs `sublist_of` ps.
Proof.
  revert vs. induction ps as [|x ps IH]; intros [|v vs]; try apply sublist_nil_l.
  rewrite still_null_cons. case_decide; simpl; [apply sublist_skip, IH|apply sublist_cons, IH].
Qed.

Lemma coalesce_cells ps : ∀ vs s,
  length ps = length vs → NoDup ps.*1 → Forall (λ p, p < length (p_result s))%nat ps.*1 →
  ∃ result', for_each (zip (zip ps.*2 ps.*1) vs) s coalesce_cell =
      Ok (mkPending result' (p_rows s ++ (still_null ps vs).*2) (p_positions s ++ (still_null ps vs).*1)) ∧
    length result' = length (p_result s) ∧
    (∀ i p row v, ps !! i = Some (p, row) → vs !! i = Some v →
       result' !! p = if decide (v = Null) then p_result s !! p else Some v) ∧
    (∀ p, p ∉ ps.*1 → result' !! p = p_result s !! p).
Proof.
  induction ps as [|[p row] ps IH]; intros [|v vs] s; try done.
  { intros _ _ _. exists (p_result s). rewrite !app_nil_r. split_and!; try done. by destruct s. }
  intros [= Hl] [Hp Hnd]%NoDup_cons [Hlt Hall]%Forall_cons. simpl in Hp, Hlt.
  set (s1 := if decide (v = Null) then mkPending (p_result s) (p_rows s ++ [row]) (p_positions s ++ [p])
             else mkPending (<[p := v]> (p_result s)) (p_rows s) (p_positions s)).
  assert (coalesce_cell s (row, p, v) = Ok s1) as Hcell.
  { unfold s1, coalesce_cell. rewrite store_Ok by done. by destruct v. }
  assert (length (p_result s1) = length (p_result s)) as Hl1 by (unfold s1; case_decide; simpl; [done|apply length_insert]).
  assert (∀ q, q ≠ p → p_result s1 !! q = p_result s !! q) as Hq.
  { intros q Hq. unfold s1. case_decide; [done|]. simpl. by rewrite list_lookup_insert_ne. }
  destruct (IH vs s1) as (r' & Hr & Hlen & Hin & Hout); [done|done|by rewrite Hl1|].
  exists r'. split_and!; [|lia|..].
  - cbn [zip zip_with fmap list_fmap fst snd for_each]. rewrite Hcell. cbn [bind]. etrans; [exact Hr|].
    rewrite still_null_cons. unfold s1. case_decide; simpl; by rewrite <- ?app_assoc.
  - intros [|i] q row' w; simpl.
    + intros [= -> ->] [= ->]. rewrite Hout by done. unfold s1. case_decide; [done|]. simpl. by rewrite list_lookup_insert_eq.
    + intros Hps Hv. rewrite (Hin i q row' w) by done. case_decide; [|done]. apply Hq. intros ->. apply Hp.
      apply list_elem_of_fmap. exists (p, row'). split; [done|by eapply list_elem_of_lookup_2].
  - intros q [Hne Hnin]%not_elem_of_cons. rewrite Hout by done. by apply Hq.
Qed.

(** The state of the coalescing loop: a settled position holds its row's final
    value, a pending one is null and its row's value is decided by the
    operands still to come. *)
Definition coalesce_inv (rows : list nat) (full : nat → outcome Value) (fs : list (nat → outcome Value))
    (ps : list (nat * nat)) (s : pending) : Prop :=
  p_rows s = ps.*2 ∧ p_positions s = ps.*1 ∧ NoDup ps.*1 ∧ length (p_result s) = length rows ∧
  (∀ p row, (p, row) ∈ ps → rows !! p = Some row ∧ p_result s !! p = Some Null ∧ full row = first_non_null fs row) ∧
  (∀ p row v, rows !! p = Some row → p ∉ ps.*1 → p_result s !! p = Some v → full row = Ok v).

Lemma coalesce_inv_done rows full fs ps s :
  coalesce_inv rows full fs ps s → (ps = [] ∨ fs = []) → Forall2 (λ row v, full row = Ok v) rows (p_result s).
Proof.
  intros (_ & _ & _ & Hlen & Hps & Hset) Hend. apply Forall2_same_length_lookup_2; [done|]. intros p row v Hr Hv.
  destruct (decide (p ∈ ps.*1)) as [Hp|Hp]; [|by eapply Hset].
  apply list_elem_of_fmap in Hp as ([q row'] & -> & Hp). destruct Hend as [-> | ->]; [by apply not_elem_of_nil in Hp|].
  destruct (Hps q row' Hp) as (Hr' & Hn & Hf). simpl in *. congruence.
Qed.

Lemma coalesce_inv_step rows full f fs ps s vs result' :
  coalesce_inv rows full (f :: fs) ps s → Forall2 (λ row v, f row = Ok v) ps.*2 vs →
  length result' = length (p_result s) →
  (∀ i p row v, ps !! i = Some (p, row) → vs !! i = Some v →
     result' !! p = if decide (v = Null) then p_result s !! p else Some v) →
  (∀ p, p ∉ ps.*1 → result' !! p = p_result s !! p) →
  coalesce_inv rows full fs (still_null ps vs) (mkPending result' (still_null ps vs).*2 (still_null ps vs).*1).
Proof.
  intros (_ & _ & Hnd & Hlen & Hps & Hset) Hvs Hl Hin Hout.
  assert (∀ i p row v, ps !! i = Some (p, row) → vs !! i = Some v → f row = Ok v) as Hf.
  { intros i p row v Hi Hv. eapply (Forall2_lookup_lr _ _ _ i row v Hvs); [by rewrite list_lookup_fmap, Hi|done]. }
  split_and!; [done|done| |simpl; lia|..]; simpl.
  - eapply sublist_NoDup; [apply Hnd|]. apply fmap_sublist, still_null_sublist.
  - intros p row (i & Hi & Hv)%elem_of_still_null. destruct (Hps p row) as (Hr & Hn & Hfull); [by eapply list_elem_of_lookup_2|].
    split_and!; [done|by rewrite (Hin i p row Null)|]. rewrite Hfull. simpl. by rewrite (Hf i p row Null).
  - intros p row v Hr Hp Hv. destruct (decide (p ∈ ps.*1)) as [Hpp|Hpp]; [|rewrite Hout in Hv by done; by eapply Hset].
    apply list_elem_of_fmap in Hpp as ([q row'] & -> & Hi). apply list_elem_of_lookup in Hi as [i Hi]. simpl in *.
    destruct (Hps q row') as (Hr' & _ & Hfull); [by eapply list_elem_of_lookup_2|]. assert (row' = row) as -> by congruence.
    destruct (lookup_lt_is_Some_2 vs i) as [w Hw].
    { apply Forall2_length in Hvs. rewrite length_fmap in Hvs. apply lookup_lt_Some in Hi. lia. }
    rewrite (Hin i q row w) in Hv by done. case_decide as Hw0.
    + destruct Hp. apply list_elem_of_fmap. exists (q, row). split; [done|]. apply elem_of_still_null. exists i. by subst.
    + injection Hv as ->. rewrite Hfull. simpl. rewrite (Hf i q row v) by done. by destruct v.
Qed.

Lemma coalesce_loop_agrees rows full Fs fs : Forall2 implements Fs fs → ∀ ps s,
  coalesce_inv rows full fs ps s → agrees rows (coalesce_loop Fs s) full.
Proof.
  induction 1 as [|F f Fs fs HF _ IH]; intros ps s Hinv; simpl; [eapply coalesce_inv_done; eauto|].
  destruct (p_rows s) as [|r0 rs] eqn:Er.
  { eapply coalesce_inv_done; [done|]. left. destruct Hinv as (Hr & _). rewrite Er in Hr. by destruct ps. }
  rewrite <- Er. assert (p_rows s ≠ []) as Hne by (by rewrite Er). clear Er r0 rs.
  pose proof Hinv as (Hrows & Hpos & Hnd & Hlen & Hps & _). pose proof (HF _ Hne) as Ha.
  assert (∀ row, row ∈ p_rows s → row ∈ rows ∧ full row = first_non_null (f :: fs) row) as Hpend.
  { intros row Hrow. rewrite Hrows in Hrow. apply list_elem_of_fmap in Hrow as ([p row'] & -> & Hp).
    destruct (Hps p row' Hp) as (? & _ & ?). split; [by eapply list_elem_of_lookup_2|done]. }
  destruct (F (p_rows s)) as [vs|e|]; cbn [bind].
  2,3: destruct Ha as (row & Hin & Hf); destruct (Hpend row Hin) as [Hr Hfull]; exists row; split; [done|];
    rewrite Hfull; simpl; by rewrite Hf.
  simpl in Ha. rewrite Hrows, Hpos. rewrite Hrows in Ha.
  destruct (coalesce_cells ps vs (mkPending (p_result s) [] [])) as (result' & -> & Hl & Hin & Hout); [|done| |].
  { apply Forall2_length in Ha. by rewrite length_fmap in Ha. }
  { apply Forall_forall. intros p ([q row] & -> & Hp)%list_elem_of_fmap. destruct (Hps q row Hp) as (_ & Hn & _). by eapply lookup_lt_Some. }
  cbn [bind]. apply (IH (still_null ps vs)). by eapply coalesce_inv_step.
Qed.

Lemma coalesce_implements {A} (es : list A) Fs fs :
  length es = length Fs → Forall2 implements Fs fs →
  implements (evaluate_coalesce_column Fs) (λ row, let! _ := require_variadic_arity es in first_non_null fs row).
Proof.
  intros Hl HFs rows Hne. unfold evaluate_coalesce_column, require_variadic_arity. rewrite Hl.
  apply agrees_check; [done|]. intros _ _.
  apply (coalesce_loop_agrees rows (first_non_null fs) Fs fs HFs (zip (seq 0 (length rows)) rows)).
  split_and!; simpl; rewrite ?length_replicate, ?fst_zip, ?snd_zip by (rewrite length_seq; lia); try done.
  - apply NoDup_seq.
  - intros p row Hp. apply elem_of_enumerate in Hp. split_and!; [done| |done].
    apply lookup_replicate_2. by eapply lookup_lt_Some.
  - intros p row v Hr Hp. destruct Hp. apply elem_of_seq. apply lookup_lt_Some in Hr. lia.
Qed.

(** ** Extrema *)

Lemma extrema_loop replacement rows Fs fs : rows ≠ [] → Forall2 implements Fs fs → ∀ result cur,
  Forall2 (λ row v, cur row = Ok v) rows result →
  agrees rows
    (for_each Fs result (λ result (expression : evaluator),
      let! values := expression rows in
      collect (λ '(current, candidate), extrema_cell replacement current candidate) (zip result values)))
    (λ row, let! current := cur row in
      for_each fs current (λ current (operand : nat → outcome Value),
        let! candidate := operand row in extrema_cell replacement current candidate)).
Proof.
  intros Hne. induction 1 as [|F f Fs fs HF _ IH]; intros result cur Hcur; cbn [for_each].
  { eapply Forall2_impl; [done|]. intros row v Hv. cbn beta. by rewrite Hv. }
  set (next := λ row, let! current := cur row in let! candidate := f row in extrema_cell replacement current candidate).
  assert (agrees rows (let! values := F rows in
    collect (λ '(current, candidate), extrema_cell replacement current candidate) (zip result values)) next) as Hstep.
  { apply zip_agrees; [done|by apply HF]. }
  eapply (agrees_transfer rows rows _ (λ row, let! v := next row in for_each fs v _)).
  { apply Forall_Forall2_diag, Forall_forall. intros row _. unfold next. rewrite bind_assoc. apply bind_ext. intros. reflexivity. }
  destruct (let! values := F rows in _) as [result'|e|]; cbn [bind]; [by apply IH|..].
  all: destruct Hstep as (row & Hin & Hf); exists row; split; [done|]; by rewrite Hf.
Qed.

Lemma extrema_implements {A} (es : list A) replacement Fs fs :
  length es = length Fs → Forall2 implements Fs fs →
  implements (evaluate_extrema_column replacement Fs)
    (λ row, let! _ := require_variadic_arity es in extremum replacement fs row).
Proof.
  intros Hl HFs rows Hne. unfold evaluate_extrema_column, require_variadic_arity. rewrite Hl.
  apply agrees_check; [done|]. intros _ _.
  apply (extrema_loop replacement rows Fs fs Hne HFs (replicate (length rows) Null) (λ _, Ok Null)).
  apply Forall2_same_length_lookup_2; [by rewrite length_replicate|].
  intros p row v _ Hv. apply lookup_replicate_1 in Hv as [-> _]. done.
Qed.

(** ** The evaluator implements the reference semantics *)

Section Agreement.
Context `{FloatEnv} {Operator : Type} (chunk : Chunk) (columns : gmap (list Z) nat).

Lemma column_implements reference :
  implements (evaluate_column chunk columns reference) (single (evaluate_column chunk columns reference)).
Proof. eapply implements_ext; [|eapply collect_implements]. intros rows. symmetry. apply bind_assoc. Qed.

Lemma classof_implements binding :
  implements (evaluate_classof chunk columns binding) (single (evaluate_classof chunk columns binding)).
Proof. eapply implements_ext; [|eapply collect_implements]. intros rows. symmetry. apply bind_assoc. Qed.

Lemma scoreof_implements binding :
  implements (evaluate_scoreof chunk columns binding) (single (evaluate_scoreof chunk columns binding)).
Proof. apply collect_implements. Qed.

Lemma operands_implement (es : list (Expr Operator)) :
  Forall (λ e, implements (evaluate_selected chunk columns e) (eval_row chunk columns e)) es →
  Forall2 implements (evaluate_selected chunk columns <$> es) (eval_row chunk columns <$> es).
Proof. induction 1; simpl; by constructor. Qed.

Lemma evaluate_implements (expr : Expr Operator) :
  implements (evaluate_selected chunk columns expr) (eval_row chunk columns expr).
Proof.
  induction expr using Expr_ind'; cbn [evaluate_selected eval_row].
  - apply column_implements.
  - apply classof_implements.
  - apply scoreof_implements.
  - intros rows _. simpl. apply Forall2_same_length_lookup_2; [by rewrite length_replicate|].
    intros i row w _ Hw. by apply lookup_replicate_1 in Hw as [-> _].
  - by apply zip_implements.
  - by apply map_implements.
  - by apply zip_implements.
  - by apply if_implements.
  - apply coalesce_implements; [by rewrite length_fmap|by apply operands_implement].
  - apply extrema_implements; [by rewrite length_fmap|by apply operands_implement].
  - apply extrema_implements; [by rewrite length_fmap|by apply operands_implement].
  - by apply map_implements.
  - by apply zip_implements.
  - by apply map_checked_implements.
  - by apply zip_checked_implements.
  - intros [|row rows]; [done|]. intros _. exists row. split; [by left|done].
Qed.
End Agreement.

(** C12: columnar evaluation is row-wise evaluation: over a chunk with rows, the
    evaluator returns a column exactly when every row evaluates, and then holds
    each row's value in order; when it fails, some row fails with the same
    error.  In particular a branch of [If] or an operand of [Coalesce] that a
    row does not select can neither fail nor contribute. *)
Theorem columnar_evaluation_rowwise `{FloatEnv} {Operator} chunk columns (expr : Expr Operator) :
  (0 < row_count chunk)%nat →
  let rows := seq 0 (row_count chunk) in
  (∀ vs, evaluate chunk columns expr = Ok vs ↔
     Forall2 (λ row v, eval_row chunk columns expr row = Ok v) rows vs) ∧
  (∀ e, evaluate chunk columns expr = Err e → ∃ row, row ∈ rows ∧ eval_row chunk columns expr row = Err e) ∧
  (evaluate chunk columns expr = Panic → ∃ row, row ∈ rows ∧ eval_row chunk columns expr row = Panic).
Proof.
  intros Hn rows. assert (rows ≠ []) as Hne by (unfold rows; by destruct (row_count chunk); [lia|]).
  pose proof (evaluate_implements chunk columns expr rows Hne) as Ha. unfold evaluate. fold rows.
  destruct (evaluate_selected chunk columns expr rows) as [ws|e|]; simpl in Ha; split_and!; try done.
  - intros vs. split; [by intros [= <-]|]. intros Hvs. f_equal.
    apply (Forall2_unique _ _ _ _ Ha Hvs). intros x y1 y2 -> [= ->]. done.
  - intros vs. split; [done|]. intros Hvs. exfalso. destruct Ha as (row & Hin & Hr).
    apply list_elem_of_lookup in Hin as [i Hi]. destruct (Forall2_lookup_l _ _ _ _ _ Hvs Hi) as (v & _ & Hv). congruence.
  - intros e' [= <-]. done.
  - intros vs. split; [done|]. intros Hvs. exfalso. destruct Ha as (row & Hin & Hr).
    apply list_elem_of_lookup in Hin as [i Hi]. destruct (Forall2_lookup_l _ _ _ _ _ Hvs Hi) as (v & _ & Hv). congruence.
Qed.

(** The quiet NaN of most targets. *)
Definition quiet_nan : Z := 2 ^ 51 + Z.shiftl 2047 52.
#[export] Instance quiet_env : FloatEnv.
Proof.
  refine {| arith_nan := λ _ _ _, quiet_nan; distance_nan := λ _ _, quiet_nan |}; intros; by vm_compute.
Defined.

(** [if(n.x = 0, 0, 10 / n.x)] over the rows 0, 5: the first row never divides. *)
Definition witness_chunk : Chunk := mkChunk [TInt64] [CInt64 [0; 5] None] 2.
Definition witness_columns : gmap (list Z) nat := {[ [110; 46; 120] := O ]}.
Definition witness_expr : Expr Empty_set :=
  If (Binary OpEq (Col [110; 46; 120]) (Lit (Int64 0))) (Lit (Int64 0))
     (Binary OpDiv (Lit (Int64 10)) (Col [110; 46; 120])).

Lemma columnar_evaluation_rowwise_witness :
  evaluate witness_chunk witness_columns witness_expr = Ok [Int64 0; Int64 2] ∧
  Forall2 (λ row v, eval_row witness_chunk witness_columns witness_expr row = Ok v) [0%nat; 1%nat] [Int64 0; Int64 2].
Proof.
  split; [vm_compute; reflexivity|].
  refine (proj1 (proj1 (columnar_evaluation_rowwise witness_chunk witness_columns witness_expr _) _) _); [vm_compute; lia|].
  vm_compute. reflexivity.
Defined.
