(* ===== verification/EvalSound.v ===== *)
(** Type soundness of expressions: what [Typing] promises, [Eval] keeps.

    A well-typed expression over a chunk whose columns hold values of their
    declared types never panics; it yields values of the inferred type, and
    its only errors are those that depend on the data: arithmetic overflow,
    division by zero, a cosine of a zero vector, a missing class or score. *)

From S2P Require Import Prelude Bytes Decimal Types Codec Schema F64 Expr Typing Eval EvalFloat EvalRow.
From Stdlib Require Import SpecFloat.

(** ** Errors that depend on the data *)

Definition rounding_errors : list DevonError := InvalidArgument <$> [
  "decimal midpoint-away rounding overflowed u128"; "decimal result exceeds i128";
  "decimal scale padding overflowed i128"; "decimal value {result} does not fit Decimal({precision}, {target_scale})";
  "decimal division by zero"; "exact decimal quotient overflowed u128"].

Definition data_errors : list DevonError := rounding_errors ++ (InvalidArgument <$> [
  "operator `div` failed for Int64 values {left} and {right}: division by zero";
  "operator `{}` overflowed for Int64 values {left} and {right}";
  "operator `{}` overflowed Decimal({MAX_PRECISION}, {scale})";
  "operator `{}` cannot promote Int64 operand {integer} to Decimal scale {scale} exactly; the 10^{scale} scaling overflowed";
  "operator `date_trunc(day)` cannot floor Timestamp {micros} within the i64 Timestamp domain";
  "operator `date_add(day)` overflowed while multiplying {days} days by {MICROS_PER_DAY} microseconds";
  "operator `date_add(day)` overflowed while adding offset {offset} to Timestamp {micros}";
  "operator `distance(cosine)` received a zero-magnitude Vector operand";
  "classof binding `{binding}` has no interface discriminator";
  "classof binding `{binding}` maps to out-of-range chunk column {index}";
  "classof binding `{binding}` contains non-String discriminator {value}";
  "scoreof binding `{binding}` has no TextScan score"; "invalid TextScan score column"]).

(** How an outcome ends: a value with [Q], or an error that depends on the data. *)
Definition ends {A} (Q : A → Prop) (m : outcome A) : Prop :=
  match m with Ok a => Q a | Err e => e ∈ data_errors | Panic => False end.

Lemma ends_bind {A B} (Q : A → Prop) (R : B → Prop) m k :
  ends Q m → (∀ a, m = Ok a → Q a → ends R (k a)) → ends R (let! a := m in k a).
Proof. destruct m; simpl; auto. Qed.

Lemma ends_mono {A} (Q R : A → Prop) m : ends Q m → (∀ a, m = Ok a → Q a → R a) → ends R m.
Proof. destruct m; simpl; auto. Qed.

Ltac data_error := cbn [ends]; apply (bool_decide_unpack _); vm_compute; exact I.

(** ** Values of a type *)

(** The integer and decimal payloads are in their machine ranges. *)
Definition value_ok (v : Value) : Prop :=
  match v with Int64 x | Timestamp x => in_i 64 x | Decimal d => decimal_wf d | _ => True end.

Definition has_type (v : Value) (t : ExpressionType) : Prop :=
  value_ok v ∧ match t with ENull => v = Null | EValue ty => matches_type v ty = true end.

Lemma has_type_null t : has_type Null t.
Proof. split; [done|]. by destruct t. Qed.

(** ** Rounding *)

(** A decimal of the declared type. *)
Definition decimal_of (p sc : Z) (r : Decimal128) : Prop := decimal_wf r ∧ fits r p sc = true.

Lemma pad_sound d t p : decimal_wf d → scale d ≤ t ≤ 38 → ends (decimal_of p t) (pad_to_scale d t p).
Proof.
  intros Hd Ht. pose proof (pad_to_scale_Ok d t p) as Hok. destruct Hd as [Hd Hs].
  destruct (pad_to_scale d t p) as [r|e|] eqn:E; simpl.
  1: { destruct (Hok r) as [Hr _]; [done|]. destruct (Hr eq_refl) as (_ & -> & Hin & Hp).
       split; [split; simpl in *; [done|unfold MAX_SCALE in *; lia]|]. unfold fits. simpl scale. rewrite Z.eqb_refl. by apply Z.leb_le. }
  all: revert E; unfold pad_to_scale, MAX_SCALE in *.
  all: rewrite !(proj2 (Z.ltb_ge _ _)) by lia; rewrite power_of_ten_Ok by lia; cbn [bind].
  all: pose proof (pow10_u128 (t - scale d) ltac:(lia)) as Hp; rewrite try_i_in by (unfold in_i; lia); cbn [ok_or bind].
  all: destruct (try_i 128 _); cbn [ok_or bind]; [|intros [=]; subst; data_error].
  all: unfold new, MAX_SCALE; rewrite (proj2 (Z.ltb_ge _ _)) by lia; cbn [bind]; case_match; intros [=]; subst; data_error.
Qed.

Lemma signed_magnitude_errors m neg : 0 ≤ m → ends (λ r, in_i 128 r) (signed_magnitude m neg).
Proof.
  intros Hm. pose proof (signed_magnitude_Ok m neg) as Hok. pose proof (signed_magnitude_no_panic m neg) as Hnp.
  destruct (signed_magnitude m neg) as [r|e|] eqn:E; simpl; [by destruct (Hok r Hm) as [[-> ?] _]| |done].
  revert E. unfold signed_magnitude. repeat case_match; try done.
  all: destruct (try_i 128 m); cbn [ok_or bind]; [|intros [= <-]; data_error].
  all: try done. destruct (try_i 128 _); cbn [ok_or]; [done|]. intros [= <-]. data_error.
Qed.

Lemma round_magnitude_sound q r d : 0 ≤ q → ends (λ m, 0 ≤ m) (round_magnitude q r d).
Proof.
  intros Hq. unfold round_magnitude. case_match; [|done].
  destruct (try_u 128 (q + 1)) as [x|] eqn:E; cbn [ok_or]; [apply try_u_Some in E as [-> _]; simpl; lia|data_error].
Qed.

(** The shared tail of the two rounding operations. *)
Lemma rounded_sound m neg places t p :
  0 ≤ m → 0 ≤ places ≤ t → t ≤ 38 →
  ends (decimal_of p t) (let! digits := signed_magnitude m neg in let! rounded := new digits places in pad_to_scale rounded t p).
Proof.
  intros Hm Hp Ht. eapply ends_bind; [by apply signed_magnitude_errors|]. intros x _ Hx.
  unfold new, MAX_SCALE. rewrite (proj2 (Z.ltb_ge _ _)) by lia. cbn [bind].
  apply pad_sound; simpl; [|lia]. split; simpl; [done|unfold MAX_SCALE; lia].
Qed.

Lemma round_sound d places p :
  decimal_wf d → 0 ≤ places ≤ scale d → ends (decimal_of p (scale d)) (round_to_places d places p).
Proof.
  intros [Hd Hs] Hp. unfold round_to_places, MAX_SCALE in *. rewrite (proj2 (Z.ltb_ge _ _)) by lia.
  rewrite power_of_ten_Ok by lia. cbn [bind]. pose proof (pow10_u128 (scale d - places) ltac:(lia)) as [Hpow _].
  eapply ends_bind; [apply round_magnitude_sound, Z.div_pos; lia|]. intros m _ Hm. apply rounded_sound; [exact Hm|lia..].
Qed.

Lemma ratio_sound n d e :
  0 ≤ n ≤ 2 ^ 127 → 0 < d ≤ 2 ^ 127 → -38 ≤ e ≤ 76 → ends (λ m, 0 ≤ m) (rounded_ratio_magnitude n d e).
Proof.
  intros Hn Hd He. unfold rounded_ratio_magnitude. destruct (0 <=? e) eqn:E; reflect_bools.
  - rewrite try_u_in by (unfold in_u; lia). cbn [ok_or bind]. rewrite scaled_long_division_spec by lia.
    pose proof (Z.pow_nonneg 10 e ltac:(lia)). case_bool_decide; cbn [bind]; [|data_error].
    apply round_magnitude_sound, Z.div_pos; nia.
  - rewrite try_u_in by (unfold in_u; lia). cbn [ok_or bind]. rewrite larger_denominator_Ok by lia. simpl.
    unfold half_away. pose proof (Z.pow_pos_nonneg 10 (- e) ltac:(lia) ltac:(lia)). apply Z.div_pos; nia.
Qed.

Lemma round_div_sound a b places p :
  decimal_wf a → decimal_wf b → 0 ≤ places ≤ scale a →
  ends (decimal_of p (scale a)) (round_div_to_places a b places p).
Proof.
  intros [Ha Hsa] [Hb Hsb] Hp. unfold round_div_to_places, MAX_SCALE, in_i in *.
  destruct (digits b =? 0) eqn:E0; reflect_bools; [data_error|]. rewrite (proj2 (Z.ltb_ge _ _)) by lia.
  eapply ends_bind; [apply ratio_sound; lia|]. intros m _ Hm. apply rounded_sound; [exact Hm|lia..].
Qed.

(** ** Decimal arithmetic *)

Lemma fits_bound d p s :
  decimal_wf d → fits d p s = true ↔ scale d = s ∧ 1 ≤ p ∧ Z.abs (digits d) < 10 ^ p.
Proof.
  intros [Hd _]. unfold fits. rewrite andb_true_iff, Z.eqb_eq, Z.leb_le. destruct (precision_spec d Hd) as [H1 _]. split.
  - intros [Hs Hp]. split_and!; [done|lia|]. apply precision_le; [done|lia|done].
  - intros (Hs & Hp & Hlt). split; [done|]. by apply precision_le.
Qed.

Lemma capped_decimal x s p :
  1 ≤ p → Z.abs x < 10 ^ p → fits38 x → 0 ≤ s ≤ 38 → decimal_of (capped_precision p) s (mkDecimal x s).
Proof.
  unfold fits38. intros Hp Hx H38 Hs.
  assert (decimal_wf (mkDecimal x s)) as Hwf.
  { split; simpl; [unfold in_i|unfold MAX_SCALE; lia].
    assert (10 ^ 38 < 2 ^ 127) by (by vm_compute). change (128 - 1) with 127. lia. }
  split; [done|]. apply fits_bound; [done|]. unfold capped_precision, MAX_PRECISION. simpl. split_and!; [done|lia|].
  destruct (Z.min_spec p 38) as [[_ ->]|[_ ->]]; lia.
Qed.

Lemma checked_result_sound x s :
  0 ≤ s ≤ 38 →
  ends (λ r, r = mkDecimal x s ∧ fits38 x) (map_err (λ _, decimal_overflow_error) (checked_result (try_i 128 x) s)).
Proof.
  intros Hs. pose proof (checked_result_Ok x s) as Hok. destruct (checked_result _ _) as [r|e|] eqn:E; simpl.
  - by destruct (proj1 (Hok r) eq_refl) as (_ & ? & ?).
  - data_error.
  - revert E. unfold checked_result. destruct (try_i 128 x); cbn [ok_or bind]; [|done].
    unfold new, MAX_SCALE. rewrite (proj2 (Z.ltb_ge _ _)) by lia. cbn [bind]. by case_match.
Qed.

Lemma pow10_mono a b : a ≤ b → 10 ^ a ≤ 10 ^ b.
Proof. intros. apply Z.pow_le_mono_r; lia. Qed.

Lemma decimal_pair_sound op l r p1 s1 p2 s2 t :
  decimal_of p1 s1 l → decimal_of p2 s2 r → decimal_pair_result op p1 s1 p2 s2 = Ok t →
  ends (λ v, has_type v t) (decimal_arithmetic op l r).
Proof.
  intros [Hl Hfl] [Hr Hfr] Ht. apply fits_bound in Hfl as (Hs1 & Hp1 & Hb1); [|done].
  apply fits_bound in Hfr as (Hs2 & Hp2 & Hb2); [|done].
  assert (∀ p x sc, 1 ≤ p → Z.abs x < 10 ^ p → 0 ≤ sc ≤ 38 → t = EValue (TDecimal (capped_precision p) sc) →
    ends (λ v, has_type v t) (let! result := map_err (λ _, decimal_overflow_error) (checked_result (try_i 128 x) sc) in Ok (Decimal result))) as Hres.
  { intros p x sc Hp Hx Hsc ->. eapply ends_bind; [by apply checked_result_sound|]. intros d _ [-> H38].
    destruct (capped_decimal x sc p Hp Hx H38 Hsc) as [? ?]. by split. }
  destruct Hl as [_ Hsl], Hr as [_ Hsr]. unfold MAX_SCALE in *. unfold decimal_arithmetic, decimal_pair_result in *.
  assert (10 ^ p1 ≤ 10 ^ Z.max p1 p2 ∧ 10 ^ p2 ≤ 10 ^ Z.max p1 p2) as [Hm1 Hm2] by (split; apply pow10_mono; lia).
  assert (10 ^ (Z.max p1 p2 + 1) = 10 * 10 ^ Z.max p1 p2) as Hpow by (rewrite Z.pow_add_r by lia; lia).
  destruct op; try done.
  1,2: destruct (s1 =? s2) eqn:Es; [|done]; reflect_bools; injection Ht as <-;
    unfold require_equal_decimal_scales, checked_add_same_scale, checked_sub_same_scale, require_same_scale;
    rewrite (proj2 (Z.eqb_eq _ _)) by lia; cbn [bind]; apply (Hres (Z.max p1 p2 + 1)); [lia..|by subst].
  revert Ht. destruct (try_u 8 (s1 + s2)) as [sc|] eqn:Eu; cbn [expect bind]; [|done]. apply try_u_Some in Eu as [-> Hu].
  unfold MAX_PRECISION. destruct (38 <? s1 + s2) eqn:Es; [done|]. reflect_bools. intros [= <-].
  unfold decimal_product, checked_mul, MAX_PRECISION, MAX_SCALE. rewrite Hs1, Hs2, !(try_u_in 8) by done. cbn [expect bind].
  rewrite !(proj2 (Z.ltb_ge 38 _)) by done. apply (Hres (p1 + p2)); [lia| |lia|done].
  rewrite Z.abs_mul, Z.pow_add_r by lia. apply Z.mul_lt_mono_nonneg; lia.
Qed.

Lemma promoted_sound i s :
  in_i 64 i → 0 ≤ s ≤ 38 →
  ends (decimal_of (INT64_DIGITS + s) s)
    (map_err (λ _, InvalidArgument "operator `{}` cannot promote Int64 operand {integer} to Decimal scale {scale} exactly; the 10^{scale} scaling overflowed")
      (from_i64_scaled i s)).
Proof.
  intros Hi Hs. unfold from_i64_scaled, MAX_SCALE. rewrite (proj2 (Z.ltb_ge _ _)) by lia. rewrite power_of_ten_Ok by lia. cbn [bind].
  pose proof (pow10_u128 s Hs) as Hp. rewrite try_i_in by (unfold in_i; lia). cbn [ok_or bind].
  pose proof (checked_result_sound (i * 10 ^ s) s Hs) as Hc. destruct (checked_result _ s) as [r|e|]; simpl in *; [|data_error|done].
  destruct Hc as [-> H38]. assert (Z.abs (i * 10 ^ s) < 10 ^ (INT64_DIGITS + s)) as Hb.
  { unfold INT64_DIGITS. rewrite Z.abs_mul, Z.pow_add_r, (Z.abs_eq (10 ^ s)) by lia. apply Z.mul_lt_mono_pos_r; [lia|].
    unfold in_i in Hi. assert (2 ^ 63 < 10 ^ 19) by (by vm_compute). change (64 - 1) with 63 in Hi. lia. }
  destruct (capped_decimal (i * 10 ^ s) s (INT64_DIGITS + s)) as [Hwf Hf]; [unfold INT64_DIGITS; lia|done..|].
  split; [done|]. apply fits_bound in Hf; [|done]. apply fits_bound; [done|]. simpl in *. unfold INT64_DIGITS in *. lia.
Qed.

Lemma decimal_int64_sound op d i p s first t :
  decimal_of p s d → in_i 64 i → decimal_int64_type op p s = Ok t → op ≠ OpDiv →
  ends (λ v, has_type v t) (decimal_int64_arithmetic op d i first).
Proof.
  intros Hd Hi Ht Hop. unfold decimal_int64_arithmetic. rewrite bool_decide_false by done.
  pose proof Hd as [Hwf Hf]. apply fits_bound in Hf as (Hs & Hp & Hb); [|done].
  pose proof Hwf as [_ Hsc]. unfold MAX_SCALE in Hsc.
  eapply ends_bind; [apply promoted_sound; [done|case_bool_decide; lia]|]. intros promoted _ Hpr.
  assert (∀ a b, Z.max a b = Z.max b a) as Hmax by lia.
  destruct op; try done; unfold decimal_int64_type in Ht; cbn [bind] in Ht; injection Ht as <-.
  1,2: rewrite bool_decide_false in Hpr by done; rewrite Hs in Hpr; destruct first;
    (eapply decimal_pair_sound; [done|done|]); unfold decimal_pair_result; rewrite Z.eqb_refl; simpl; [done|by rewrite Hmax].
  rewrite bool_decide_true in Hpr by done. destruct first; (eapply decimal_pair_sound; [done|done|]); unfold decimal_pair_result.
  all: rewrite ?Z.add_0_r, ?Z.add_0_l, try_u_in by (unfold in_u; lia); cbn [expect bind].
  all: rewrite (proj2 (Z.ltb_ge _ _)) by (unfold MAX_PRECISION; lia); first [done|by rewrite Z.add_comm].
Qed.

(** ** Arithmetic, comparison and logic *)

Lemma integer_sound op a b :
  op = OpAdd ∨ op = OpSub ∨ op = OpMul ∨ op = OpDiv → ends (λ v, has_type v (EValue TInt64)) (integer_arithmetic op a b).
Proof.
  intros Hop. unfold integer_arithmetic. case_match; [data_error|].
  assert (∀ x, ends (λ v, has_type v (EValue TInt64))
    (let! result := ok_or (try_i 64 x) (InvalidArgument "operator `{}` overflowed for Int64 values {left} and {right}") in Ok (Int64 result))) as Hx.
  { intros x. destruct (try_i 64 x) as [y|] eqn:E; cbn [ok_or bind]; [|data_error].
    apply try_i_Some in E as [-> ?]. by split. }
  by destruct Hop as [->|[->|[->| ->]]]; apply Hx.
Qed.

Definition arithmetic_op (op : BinaryOp) : bool := match op with OpAdd | OpSub | OpMul | OpDiv => true | _ => false end.

Section Scalars.
Context `{FloatEnv}.

Lemma float_sound op a b nan :
  arithmetic_op op = true →
  ends (λ v, has_type v (EValue TFloat64)) (let! x := float_arithmetic op a b in Ok (Float64 (bits_of_f64 nan x))).
Proof. by destruct op. Qed.

Lemma arithmetic_sound op l r tl tr t :
  arithmetic_op op = true → has_type l tl → has_type r tr → arithmetic_type op tl tr = Ok t →
  ends (λ v, has_type v t) (evaluate_arithmetic op l r).
Proof.
  intros Hop [Hl Htl] [Hr Htr] Ht.
  destruct (decide (l = Null)) as [->|Hln]; [apply has_type_null|].
  destruct (decide (r = Null)) as [->|Hrn]; [unfold evaluate_arithmetic; destruct l; apply has_type_null|].
  destruct tl as [|tl]; [done|]. destruct tr as [|tr]; [done|].
  assert (op = OpAdd ∨ op = OpSub ∨ op = OpMul ∨ op = OpDiv) as Hop' by (destruct op; naive_solver).
  destruct tl, l; try done; destruct tr, r; try done; cbn in Htl, Htr, Ht; try done;
    unfold evaluate_arithmetic; try (injection Ht as <-; by apply float_sound || by apply integer_sound).
  all: unfold arithmetic_type, decimal_arithmetic_type in Ht; simpl in Ht; case_bool_decide; [done|].
  - by eapply decimal_int64_sound.
  - by eapply decimal_int64_sound.
  - by eapply decimal_pair_sound.
Qed.

Lemma compare_values_sound op c : comparison_operator op = true →
  ends (λ v, has_type v (EValue TBool)) (let! result := compare_values op c in Ok (Bool result)).
Proof. by destruct op. Qed.

Lemma compare_ordering_sound op nan c : comparison_operator op = true →
  ends (λ v, has_type v (EValue TBool))
    (let! result := if (nan : bool) then nan_comparison op else compare_ordering op c in Ok (Bool result)).
Proof. by destruct op, nan. Qed.

Lemma comparison_type_bool op tl tr t : comparison_type op tl tr = Ok t → t = EValue TBool ∧ comparable op tl tr = true.
Proof.
  unfold comparison_type. destruct (unequal_decimal_scales tl tr); [done|].
  destruct (equality_only_type op tl tr); [done|]. destruct (comparable op tl tr); naive_solver.
Qed.

Ltac compare_case :=
  try lazymatch goal with
  | |- ends _ (let! _ := compare_values _ _ in _) => by apply compare_values_sound
  | |- ends _ (let! _ := compare_int_float _ _ _ in _) => unfold compare_int_float; by apply compare_ordering_sound
  | |- ends _ (let! _ := compare_float_int _ _ _ in _) => unfold compare_float_int; by apply compare_ordering_sound
  end.

Lemma comparison_sound op l r tl tr t :
  comparison_operator op = true → has_type l tl → has_type r tr → comparison_type op tl tr = Ok t →
  ends (λ v, has_type v t) (evaluate_comparison op l r).
Proof.
  intros Hop [Hl Htl] [Hr Htr] [-> Hc]%comparison_type_bool.
  destruct (decide (l = Null)) as [->|Hln]; [apply has_type_null|].
  destruct (decide (r = Null)) as [->|Hrn]; [unfold evaluate_comparison; destruct l; apply has_type_null|].
  destruct tl as [|tl]; [done|]. destruct tr as [|tr]; [done|].
  destruct tl, l; try discriminate Htl; try (exfalso; exact (Hln eq_refl));
    (destruct tr, r; try discriminate Htr; try (exfalso; exact (Hrn eq_refl)); try discriminate Hc);
    try (exfalso; cbn in Hc; rewrite ?andb_false_r in Hc; discriminate Hc);
    cbn [evaluate_comparison]; compare_case.
  - destruct op; done.
  - cbn in Htl, Htr, Hc. apply fits_bound in Htl as (-> & _ & _); [|done]. apply fits_bound in Htr as (-> & _ & _); [|done].
    rewrite Hc. by apply compare_values_sound.
  - destruct op; done.
Qed.

Lemma boolean_values v t : has_type v t → require_boolean t = Ok tt → v = Null ∨ ∃ b, v = Bool b.
Proof. intros [_ Hv]. destruct t as [|[]]; try done; [naive_solver|]. destruct v; naive_solver. Qed.

Lemma logic_sound l r tl tr :
  has_type l tl → has_type r tr → require_boolean tl = Ok tt → require_boolean tr = Ok tt →
  ends (λ v, has_type v (EValue TBool)) (evaluate_and l r) ∧ ends (λ v, has_type v (EValue TBool)) (evaluate_or l r).
Proof.
  intros Hl Hr Htl Htr. destruct (boolean_values l tl) as [->|[[] ->]], (boolean_values r tr) as [->|[[] ->]]; done.
Qed.

Lemma binary_sound op l r tl tr t :
  has_type l tl → has_type r tr → binary_type op tl tr = Ok t → ends (λ v, has_type v t) (evaluate_binary op l r).
Proof.
  intros Hl Hr Ht. destruct op; cbn [binary_type evaluate_binary] in *;
    try (by eapply comparison_sound); try (by eapply arithmetic_sound).
  all: apply bind_Ok in Ht as ([] & Htl & ([] & Htr & [= <-])%bind_Ok);
    by destruct (logic_sound l r tl tr Hl Hr Htl Htr).
Qed.

Lemma distance_sound metric l r tl tr :
  has_type l tl → has_type r tr → require_matching_vectors tl tr = Ok tt →
  ends (λ v, has_type v (EValue TFloat64)) (evaluate_distance metric l r).
Proof.
  intros [Hl Htl] [Hr Htr] Ht.
  destruct (decide (l = Null)) as [->|Hln]; [apply has_type_null|].
  destruct (decide (r = Null)) as [->|Hrn]; [unfold evaluate_distance; destruct l; apply has_type_null|].
  destruct tl as [|tl]; [done|]. destruct tr as [|tr]; [done|].
  destruct tl, l; try done; destruct tr, r; try done; cbn in Htl, Htr, Ht; try done. unfold evaluate_distance.
  apply Z.eqb_eq in Htl, Htr. destruct (dim =? dim0) eqn:Ed; [|done]. apply Z.eqb_eq in Ed. unfold zlen in *. rewrite (proj2 (Nat.eqb_eq _ _)) by lia. cbn [negb].
  destruct metric; [|done]. unfold cosine_distance. destruct (foldl _ _ _) as [[dot lm] rm].
  destruct (is_zero lm || is_zero rm); cbn [bind]; [data_error|done].
Qed.
End Scalars.

(** ** Selection *)

Lemma unify_left a b c v : unify_selection_type a b = Ok c → has_type v a ∨ has_type v b → has_type v c.
Proof.
  intros Hu Hv. destruct (decide (v = Null)) as [->|Hn]; [apply has_type_null|].
  destruct a as [|a], b as [|b]; cbn [unify_selection_type] in Hu.
  - injection Hu as <-. naive_solver.
  - injection Hu as <-. destruct Hv as [[_ ?]|?]; [done|done].
  - assert (c = EValue a) as -> by (destruct a; naive_solver). destruct Hv as [?|[_ ?]]; done.
  - assert (a = b ∧ c = EValue a ∨ ∃ p1 p2 s, a = TDecimal p1 s ∧ b = TDecimal p2 s ∧ c = EValue (TDecimal (Z.max p1 p2) s)) as [(-> & ->)|(p1 & p2 & s & -> & -> & ->)].
    { destruct a, b; cbn [unify_selection_type] in Hu;
        try (case_bool_decide as E; [|discriminate Hu]; left; split; [exact E|injection Hu as <-; reflexivity]).
      destruct (_ =? _) eqn:E; [|done]. reflect_bools. subst. right. naive_solver. }
    + naive_solver.
    + destruct v; try (by destruct Hv as [[_ ?]|[_ ?]]). unfold has_type in *. simpl in *.
      assert (∀ p q, p ≤ q → fits value p s = true → fits value q s = true) as Hm.
      { unfold fits. intros p q Hpq [-> Hle]%andb_true_iff. apply Z.leb_le in Hle. simpl. apply Z.leb_le. lia. }
      destruct Hv as [[? Hf]|[? Hf]]; (split; [done|]); (eapply Hm; [|exact Hf]); lia.
Qed.

Lemma selection_sound (operands : list (outcome ExpressionType)) : ∀ acc t,
  for_each operands acc (λ result operand, let! operand := operand in unify_selection_type result operand) = Ok t →
  (∀ v, has_type v acc → has_type v t) ∧
  Forall (λ o, ∃ u, o = Ok u ∧ ∀ v, has_type v u → has_type v t) operands.
Proof.
  induction operands as [|o operands IH]; intros acc t; cbn [for_each]; [by intros [= <-]|].
  intros (acc' & (u & -> & Hu)%bind_Ok & Hrest)%bind_Ok. destruct (IH acc' t Hrest) as [Hacc Hall]. split.
  - intros v Hv. apply Hacc. eapply unify_left; eauto.
  - constructor; [|done]. exists u. split; [done|]. intros v Hv. apply Hacc. eapply unify_left; eauto.
Qed.

Lemma extrema_cell_sound replacement current candidate t :
  (∀ ty, t = EValue ty → ordered_scalar ty = true) → has_type current t → has_type candidate t →
  ends (λ v, has_type v t) (extrema_cell replacement current candidate).
Proof.
  intros Ho Hcur Hcand. unfold extrema_cell.
  destruct (decide (candidate = Null)) as [->|Hn]; [done|].
  destruct (decide (current = Null)) as [->|Hn']; [by destruct candidate|].
  assert (ends (λ _, True) (compare_extrema_values candidate current)) as Hcmp.
  { destruct Hcur as [Hok Hcur], Hcand as [Hok' Hcand]. destruct t as [|ty]; [done|]. specialize (Ho ty eq_refl).
    destruct ty; try discriminate Ho; destruct candidate; try discriminate Hcand; try (exfalso; exact (Hn eq_refl));
      destruct current; try discriminate Hcur; try (exfalso; exact (Hn' eq_refl)); try exact I.
    simpl in Hcur, Hcand. apply fits_bound in Hcur as (Hs1 & _); [|done]. apply fits_bound in Hcand as (Hs2 & _); [|done].
    unfold compare_extrema_values. rewrite Hs1, Hs2, Z.eqb_refl. done. }
  assert (ends (λ v, has_type v t) (let! replace := (let! ordering := compare_extrema_values candidate current in
    Ok (bool_decide (ordering = replacement))) in Ok (if replace : bool then candidate else current))) as Hgoal.
  { rewrite bind_assoc. eapply ends_bind; [exact Hcmp|]. intros o _ _. simpl. by case_bool_decide. }
  by destruct candidate, current.
Qed.

(** ** Chunks and expressions in their machine ranges *)

Definition chunk_ok (chunk : Chunk) : Prop :=
  length (types chunk) = length (Expr.columns chunk) ∧
  ∀ i ty col, types chunk !! i = Some ty → Expr.columns chunk !! i = Some col →
    column_len col = row_count chunk ∧
    ∀ row, (row < row_count chunk)%nat → ∃ v, value_at col row = Ok v ∧ matches_type v ty = true ∧ value_ok v.

(** The literals are values of the language, the places are a [u8]. *)
Definition lit_ok (v : Value) : Prop :=
  value_ok v ∧ match v with Vector elements => zlen elements < 2 ^ 32 | _ => True end.

Fixpoint expr_ok {Operator} (e : Expr Operator) : Prop :=
  match e with
  | Col _ | ClassOf _ | ScoreOf _ | Scalar _ => True
  | Lit v => lit_ok v
  | Binary _ l r | Distance l r _ => expr_ok l ∧ expr_ok r
  | Not e | DateTrunc _ e => expr_ok e
  | If c t e => expr_ok c ∧ expr_ok t ∧ expr_ok e
  | Coalesce es | Least es | Greatest es => foldr (λ e P, expr_ok e ∧ P) True es
  | DateAdd _ v a => expr_ok v ∧ expr_ok a
  | Round e places => expr_ok e ∧ in_u 8 places
  | RoundDiv n d places => expr_ok n ∧ expr_ok d ∧ in_u 8 places
  end.

Lemma expr_ok_all {Operator} (es : list (Expr Operator)) :
  foldr (λ e P, expr_ok e ∧ P) True es ↔ Forall expr_ok es.
Proof. induction es as [|e es IH]; simpl; [done|]. by rewrite Forall_cons, IH. Qed.

Section Soundness.
Context `{FloatEnv} {Operator : Type} (chunk : Chunk) (columns : gmap (list Z) nat).
Hypothesis Hchunk : chunk_ok chunk.
Notation typed e := (expression_type (Operator := Operator) e (column_types chunk columns)).

(** A row evaluates to a value of the type, or fails on its data. *)
Definition sound_at (e : Expr Operator) (row : nat) : Prop :=
  ∀ t, typed e = Ok t → ends (λ v, has_type v t) (eval_row chunk columns e row).

Lemma column_read i col row : column chunk i = Some col → (row < row_count chunk)%nat →
  ∃ ty v, types chunk !! i = Some ty ∧ column_len col = row_count chunk ∧
    value_at col row = Ok v ∧ matches_type v ty = true ∧ value_ok v.
Proof.
  intros Hcol Hrow. destruct Hchunk as [Hlen Hall]. destruct (lookup_lt_is_Some_2 (types chunk) i) as [ty Hty].
  { rewrite Hlen. by eapply lookup_lt_Some. }
  destruct (Hall i ty col Hty Hcol) as [Hl Hv]. destruct (Hv row Hrow) as (v & ? & ? & ?). eauto 8.
Qed.

Lemma value_type_matches v ty : matches_type v ty = true → matches_type v (value_type ty) = true.
Proof. by destruct ty, v. Qed.

Lemma col_sound reference row : (row < row_count chunk)%nat → sound_at (Col reference) row.
Proof.
  intros Hrow t Ht. cbn in Ht. unfold column_type in Ht. destruct (split_once 46 reference) as [[b c]|]; [|done].
  destruct (bool_decide (b = []) || bool_decide (c = [])); [done|].
  destruct (column_types chunk columns !! reference) as [ty|] eqn:Ety; [|done]. injection Ht as <-.
  unfold column_types in Ety. apply lookup_omap_Some in Ety as (i & Hty & Hi).
  destruct (lookup_lt_is_Some_2 (Expr.columns chunk) i) as [col Hcol].
  { destruct Hchunk as [<- _]. by eapply lookup_lt_Some. }
  destruct (column_read i col row Hcol Hrow) as (ty' & v & Hty' & Hl & Hv & Hm & Hok).
  assert (ty' = ty) as -> by congruence.
  cbn [eval_row]. unfold single, evaluate_column, column. rewrite Hi. cbn [ok_or bind]. rewrite Hcol. cbn [ok_or bind collect].
  rewrite (proj2 (Nat.leb_gt _ _)) by lia. rewrite Hv. simpl. split; [done|by apply value_type_matches].
Qed.

Lemma classof_sound binding row : (row < row_count chunk)%nat → sound_at (ClassOf binding) row.
Proof.
  intros Hrow t [= <-]. cbn [eval_row]. unfold single, evaluate_classof.
  destruct (columns !! classof_column_key binding) as [i|]; cbn [ok_or bind]; [|data_error].
  destruct (column chunk i) as [col|] eqn:Hcol; cbn [ok_or bind collect]; [|data_error].
  destruct (column_read i col row Hcol Hrow) as (ty & v & _ & Hl & Hv & _). rewrite (proj2 (Nat.leb_gt _ _)) by lia.
  rewrite Hv. cbn [bind]. destruct v; cbn [bind]; try data_error; by split.
Qed.

Lemma scoreof_sound binding row : (row < row_count chunk)%nat → sound_at (ScoreOf binding) row.
Proof.
  intros Hrow t [= <-]. cbn [eval_row]. unfold single, evaluate_scoreof, value.
  destruct (columns !! scoreof_column_key binding) as [i|]; cbn [ok_or bind collect]; [|data_error].
  destruct (Expr.columns chunk !! i) as [col|] eqn:Hcol; cbn [bind]; [|data_error].
  destruct (column_read i col row Hcol Hrow) as (ty & v & _ & Hl & Hv & _). rewrite (proj2 (Nat.leb_gt _ _)) by lia.
  rewrite Hv. cbn [bind]. destruct v; cbn [bind]; try data_error; by split.
Qed.

Lemma lit_sound v row : lit_ok v → sound_at (Lit v) row.
Proof.
  intros [Hok Hlen] t [= <-]. simpl. split; [done|]. destruct v; try done; simpl.
  - rewrite wrap_u_small; [by rewrite Z.eqb_refl|]. unfold in_u, zlen in *. lia.
  - unfold fits. by rewrite Z.eqb_refl, Z.leb_refl.
Qed.

(** The operands of a variadic expression, typed and evaluated together. *)
Lemma operands_sound es row t :
  Forall (λ e, sound_at e row) es → selection_type ((λ e, typed e) <$> es) = Ok t →
  Forall (λ f : nat → outcome Value, ends (λ v, has_type v t) (f row)) (eval_row chunk columns <$> es).
Proof.
  intros Hes Ht. apply selection_sound in Ht as [_ Ht]. rewrite Forall_fmap in Ht. rewrite Forall_fmap.
  rewrite Forall_forall in *. intros e He. destruct (Ht e He) as (u & Hu & Hsub). cbn.
  eapply ends_mono; [by apply Hes|]. naive_solver.
Qed.

Lemma first_non_null_sound fs row t :
  Forall (λ f : nat → outcome Value, ends (λ v, has_type v t) (f row)) fs → ends (λ v, has_type v t) (first_non_null fs row).
Proof.
  induction 1 as [|f fs Hf _ IH]; simpl; [apply has_type_null|].
  eapply ends_bind; [exact Hf|]. intros v _ Hv. by destruct v.
Qed.

Lemma extremum_sound replacement fs row t :
  (∀ ty, t = EValue ty → ordered_scalar ty = true) →
  Forall (λ f : nat → outcome Value, ends (λ v, has_type v t) (f row)) fs →
  ends (λ v, has_type v t) (extremum replacement fs row).
Proof.
  intros Ho Hfs. unfold extremum. generalize (has_type_null t). generalize Null.
  induction Hfs as [|f fs Hf _ IH]; intros cur Hcur; simpl; [done|].
  eapply ends_bind; [eapply ends_bind; [exact Hf|]|].
  - intros v _ Hv. by apply extrema_cell_sound.
  - intros v _ Hv. by apply IH.
Qed.

Lemma arity_same {A B} (xs : list A) (ys : list B) : length xs = length ys →
  Typing.require_variadic_arity xs = Ok tt → require_variadic_arity ys = Ok tt.
Proof.
  unfold Typing.require_variadic_arity, require_variadic_arity. intros <-. destruct (Nat.leb_spec 2 (length xs)); [|done].
  by rewrite (proj2 (Nat.ltb_ge _ _)).
Qed.

Lemma extrema_type_Ok (operands : list (outcome ExpressionType)) t : extrema_type operands = Ok t →
  Typing.require_variadic_arity operands = Ok tt ∧ selection_type operands = Ok t ∧
  ∀ ty, t = EValue ty → ordered_scalar ty = true.
Proof.
  unfold extrema_type, variadic_type. intros (u & ([] & Ha & Hs)%bind_Ok & Ht)%bind_Ok. split; [done|].
  destruct u as [|ty]; [by injection Ht as <-|]. destruct (ordered_scalar ty) eqn:E; [|done]. injection Ht as <-.
  split; [done|]. by intros ? [= <-].
Qed.
(** *** Timestamps and rounding *)

Lemma timestamp_values v t : has_type v t → require_timestamp t = Ok tt → v = Null ∨ ∃ x, v = Timestamp x.
Proof. intros [_ Hv]. destruct t as [|[]]; try done; [naive_solver|]. destruct v; naive_solver. Qed.

Lemma int64_values v t : has_type v t → require_int64 t = Ok tt → v = Null ∨ ∃ x, v = Int64 x.
Proof. intros [_ Hv]. destruct t as [|[]]; try done; [naive_solver|]. destruct v; naive_solver. Qed.

Lemma decimal_values v t : has_type v t → require_decimal t = Ok tt →
  v = Null ∨ ∃ d p s, v = Decimal d ∧ t = EValue (TDecimal p s) ∧ decimal_of p s d.
Proof.
  intros [Hok Hv]. destruct t as [|[]]; try done; [naive_solver|]. intros _. destruct v; try done; [naive_solver|].
  right. eexists _, _, _. split_and!; [done..|by split].
Qed.

Lemma try_timestamp x e : e ∈ data_errors →
  ends (λ v, has_type v (EValue TTimestamp)) (let! y := ok_or (try_i 64 x) e in Ok (Timestamp y)).
Proof.
  intros He. destruct (try_i 64 x) as [y|] eqn:E; cbn [ok_or bind]; [|done]. apply try_i_Some in E as [-> ?]. by split.
Qed.

Lemma date_trunc_sound u v t : has_type v t → require_timestamp t = Ok tt →
  ends (λ v, has_type v (EValue TTimestamp)) (evaluate_date_trunc u v).
Proof.
  intros Hv Ht. destruct (timestamp_values v t Hv Ht) as [->|[x ->]]; [apply has_type_null|].
  apply try_timestamp. data_error.
Qed.

Lemma date_add_sound u v a tv ta : has_type v tv → has_type a ta → require_timestamp tv = Ok tt → require_int64 ta = Ok tt →
  ends (λ v, has_type v (EValue TTimestamp)) (evaluate_date_add u v a).
Proof.
  intros Hv Ha Htv Hta. destruct (timestamp_values v tv Hv Htv) as [->|[x ->]]; [apply has_type_null|].
  destruct (int64_values a ta Ha Hta) as [->|[y ->]]; [apply has_type_null|]. unfold evaluate_date_add.
  destruct (try_i 64 _); cbn [ok_or bind]; [|data_error]. apply try_timestamp. data_error.
Qed.

Lemma precision_of e t : typed e = Ok t → require_decimal t = Ok tt →
  decimal_precision chunk columns e = Ok (match t with EValue (TDecimal p _) => Some p | _ => None end).
Proof. intros Ht Hd. unfold decimal_precision. rewrite Ht. by destruct t as [|[]]. Qed.

Lemma places_Ok p s places : require_places_within_scale (EValue (TDecimal p s)) places = Ok tt → places ≤ s.
Proof. simpl. destruct (places <=? s) eqn:E; [|done]. intros _. by apply Z.leb_le. Qed.

Lemma round_row_sound e places row : in_u 8 places → sound_at e row → sound_at (Round e places) row.
Proof.
  intros Hpl He t (u & Hu & Ht)%bind_Ok. cbn [eval_row]. apply bind_Ok in Ht as ([] & Hd & ([] & Hs & [= <-])%bind_Ok).
  eapply ends_bind; [by apply He|]. intros v _ Hv. rewrite (precision_of e u) by done. cbn [bind].
  destruct (decimal_values v u Hv Hd) as [->|(d & p & s & -> & -> & Hwf & Hf)]; [apply has_type_null|].
  apply places_Ok in Hs. pose proof Hf as Hf'. apply fits_bound in Hf' as (Hsc & _); [|done]. unfold in_u in Hpl.
  cbn [evaluate_round require_decimal_precision ok_or bind].
  eapply ends_bind; [apply round_sound; [done|lia]|]. intros r _ [Hr Hfr]. split; [done|]. by rewrite Hsc in Hfr.
Qed.

Lemma round_div_row_sound n d places row :
  in_u 8 places → sound_at n row → sound_at d row → sound_at (RoundDiv n d places) row.
Proof.
  intros Hpl Hn Hd t (tn & Htn & (td & Htd & Ht)%bind_Ok)%bind_Ok. cbn [eval_row].
  apply bind_Ok in Ht as ([] & Hdn & ([] & Hdd & ([] & Hs & [= <-])%bind_Ok)%bind_Ok).
  eapply ends_bind; [by apply Hn|]. intros vn _ Hvn. eapply ends_bind; [by apply Hd|]. intros vd _ Hvd.
  unfold round_div_precision. rewrite (precision_of n tn), (precision_of d td) by done. cbn [bind].
  destruct (decimal_values vn tn Hvn Hdn) as [->|(x & p & s & -> & -> & Hx & Hfx)]; [apply has_type_null|].
  destruct (decimal_values vd td Hvd Hdd) as [->|(y & p' & s' & -> & -> & Hy & Hfy)]; [apply has_type_null|].
  apply places_Ok in Hs. pose proof Hfx as Hf'. apply fits_bound in Hf' as (Hsc & _); [|done]. unfold in_u in Hpl.
  cbn [evaluate_round_div require_decimal_precision ok_or bind].
  eapply ends_bind; [apply round_div_sound; [done|done|lia]|]. intros r _ [Hr Hfr]. split; [done|]. by rewrite Hsc in Hfr.
Qed.

(** *** Every expression *)

Lemma variadic_rows (es : list (Expr Operator)) row :
  Forall (λ e, expr_ok e → sound_at e row) es → foldr (λ e P, expr_ok e ∧ P) True es → Forall (λ e, sound_at e row) es.
Proof. intros Hes Hok%expr_ok_all. rewrite Forall_forall in *. naive_solver. Qed.

Lemma row_sound e row : (row < row_count chunk)%nat → expr_ok e → sound_at e row.
Proof.
  intros Hrow. induction e using Expr_ind'; intros Hok; simpl in Hok.
  - by apply col_sound.
  - by apply classof_sound.
  - by apply scoreof_sound.
  - by apply lit_sound.
  - destruct Hok as [Hl Hr]. intros t (tl & Htl & (tr & Htr & Ht)%bind_Ok)%bind_Ok. cbn [eval_row].
    eapply ends_bind; [by apply IHe1|]. intros v1 _ Hv1. eapply ends_bind; [by apply IHe2|]. intros v2 _ Hv2.
    exact (binary_sound op v1 v2 tl tr t Hv1 Hv2 Ht).
  - intros t (u & Hu & ([] & Hb & [= <-])%bind_Ok)%bind_Ok. cbn [eval_row]. eapply ends_bind; [by apply IHe|].
    intros v _ Hv. destruct (boolean_values v u Hv Hb) as [->|[b ->]]; [apply has_type_null|by split].
  - destruct Hok as [Hl Hr]. intros t (tl & Htl & (tr & Htr & ([] & Hv & [= <-])%bind_Ok)%bind_Ok)%bind_Ok. cbn [eval_row].
    eapply ends_bind; [by apply IHe1|]. intros v1 _ Hv1. eapply ends_bind; [by apply IHe2|]. intros v2 _ Hv2.
    exact (distance_sound m v1 v2 tl tr Hv1 Hv2 Hv).
  - destruct Hok as (Hc & Ht & He). intros t (u & Hu & ([] & Hb & Hsel)%bind_Ok)%bind_Ok. cbn [eval_row].
    apply selection_sound in Hsel as [_ [(t1 & Ht1 & Hs1) [(t2 & Ht2 & Hs2) _]%Forall_cons]%Forall_cons].
    eapply ends_bind; [by apply IHe1|]. intros v _ Hv.
    destruct (boolean_values v u Hv Hb) as [->|[[] ->]]; (eapply ends_mono; [by apply IHe2 || by apply IHe3|]); naive_solver.
  - intros t ([] & Ha & Hsel)%bind_Ok. cbn [eval_row]. rewrite (arity_same _ es (length_fmap _ _) Ha). cbn [bind].
    apply first_non_null_sound. by apply operands_sound; [apply variadic_rows|].
  - intros t (Ha & Hsel & Ho)%extrema_type_Ok. cbn [eval_row]. rewrite (arity_same _ es (length_fmap _ _) Ha). cbn [bind].
    apply extremum_sound; [done|]. by apply operands_sound; [apply variadic_rows|].
  - intros t (Ha & Hsel & Ho)%extrema_type_Ok. cbn [eval_row]. rewrite (arity_same _ es (length_fmap _ _) Ha). cbn [bind].
    apply extremum_sound; [done|]. by apply operands_sound; [apply variadic_rows|].
  - intros t (tv & Hv & ([] & Hts & [= <-])%bind_Ok)%bind_Ok. cbn [eval_row]. eapply ends_bind; [by apply IHe|].
    intros v _ Hty. exact (date_trunc_sound u v tv Hty Hts).
  - destruct Hok as [Hl Hr]. intros t (tv & Hv & (ta & Ha & ([] & Hts & ([] & Hi & [= <-])%bind_Ok)%bind_Ok)%bind_Ok)%bind_Ok.
    cbn [eval_row]. eapply ends_bind; [by apply IHe1|]. intros v1 _ Hv1. eapply ends_bind; [by apply IHe2|]. intros v2 _ Hv2.
    exact (date_add_sound u v1 v2 tv ta Hv1 Hv2 Hts Hi).
  - destruct Hok as [He Hp]. apply round_row_sound; auto.
  - destruct Hok as (Hn & Hd & Hp). apply round_div_row_sound; auto.
  - intros t Ht. done.
Qed.
(** *** The empty selection *)

Definition empty_at (e : Expr Operator) : Prop :=
  ∀ t, typed e = Ok t → ends (λ vs, vs = []) (evaluate_selected chunk columns e []).

Lemma map_empty f F : ends (λ vs, vs = []) (F []) → ends (λ vs, vs = []) (map_column f F []).
Proof. intros HF. eapply ends_bind; [exact HF|]. by intros vs _ ->. Qed.

Lemma zip_empty f F G :
  ends (λ vs, vs = []) (F []) → ends (λ vs, vs = []) (G []) → ends (λ vs, vs = []) (zip_columns f F G []).
Proof.
  intros HF HG. eapply ends_bind; [exact HF|]. intros vs _ ->. eapply ends_bind; [exact HG|]. by intros vs _ ->.
Qed.

Lemma operands_empty es t : Forall (λ e, empty_at e) es → selection_type ((λ e, typed e) <$> es) = Ok t →
  Forall (λ F : evaluator, ends (λ vs, vs = []) (F [])) (evaluate_selected chunk columns <$> es).
Proof.
  intros Hes Ht. apply selection_sound in Ht as [_ Ht]. rewrite Forall_fmap in Ht. rewrite Forall_fmap.
  rewrite Forall_forall in *. intros e He. destruct (Ht e He) as (u & Hu & _). by eapply Hes.
Qed.

Lemma extrema_empty replacement Fs :
  Forall (λ F : evaluator, ends (λ vs, vs = []) (F [])) Fs →
  ends (λ vs, vs = []) (for_each Fs [] (λ result (expression : evaluator),
    let! values := expression [] in
    collect (λ '(current, candidate), extrema_cell replacement current candidate) (zip result values))).
Proof.
  induction 1 as [|F Fs HF _ IH]; simpl; [done|]. eapply (ends_bind (λ vs, vs = [])).
  - eapply ends_bind; [exact HF|]. by intros vs _ ->.
  - by intros vs _ ->.
Qed.

Lemma empty_sound e : empty_at e.
Proof.
  induction e using Expr_ind'; intros t Ht; cbn [evaluate_selected].
  - cbn in Ht. unfold column_type in Ht. destruct (split_once 46 r) as [[b c]|]; [|done].
    destruct (bool_decide (b = []) || bool_decide (c = [])); [done|].
    destruct (column_types chunk columns !! r) as [ty|] eqn:Ety; [|done].
    unfold column_types in Ety. apply lookup_omap_Some in Ety as (i & Hty & Hi).
    destruct (lookup_lt_is_Some_2 (Expr.columns chunk) i) as [col Hcol].
    { destruct Hchunk as [<- _]. by eapply lookup_lt_Some. }
    unfold evaluate_column, column. rewrite Hi. cbn [ok_or bind]. by rewrite Hcol.
  - unfold evaluate_classof. destruct (columns !! _); cbn [ok_or bind]; [|data_error].
    destruct (column chunk _); cbn [ok_or bind]; [done|data_error].
  - unfold evaluate_scoreof. destruct (columns !! _); cbn [ok_or bind]; [done|data_error].
  - done.
  - apply bind_Ok in Ht as (tl & Htl & (tr & Htr & _)%bind_Ok). apply zip_empty; [by eapply IHe1|by eapply IHe2].
  - apply bind_Ok in Ht as (tl & Htl & _). apply map_empty. by eapply IHe.
  - apply bind_Ok in Ht as (tl & Htl & (tr & Htr & _)%bind_Ok). apply zip_empty; [by eapply IHe1|by eapply IHe2].
  - apply bind_Ok in Ht as (tc & Htc & _). unfold evaluate_if_column. eapply ends_bind; [by eapply IHe1|]. by intros vs _ ->.
  - apply bind_Ok in Ht as ([] & Ha & _). unfold evaluate_coalesce_column.
    rewrite (arity_same _ (evaluate_selected chunk columns <$> es) (eq_trans (length_fmap _ _) (eq_sym (length_fmap _ _))) Ha). cbn [bind]. by destruct (evaluate_selected chunk columns <$> es).
  - apply extrema_type_Ok in Ht as (Ha & Hsel & _). unfold evaluate_extrema_column.
    rewrite (arity_same _ (evaluate_selected chunk columns <$> es) (eq_trans (length_fmap _ _) (eq_sym (length_fmap _ _))) Ha). cbn [bind]. by eapply extrema_empty, operands_empty.
  - apply extrema_type_Ok in Ht as (Ha & Hsel & _). unfold evaluate_extrema_column.
    rewrite (arity_same _ (evaluate_selected chunk columns <$> es) (eq_trans (length_fmap _ _) (eq_sym (length_fmap _ _))) Ha). cbn [bind]. by eapply extrema_empty, operands_empty.
  - apply bind_Ok in Ht as (tl & Htl & _). apply map_empty. by eapply IHe.
  - apply bind_Ok in Ht as (tl & Htl & (tr & Htr & _)%bind_Ok). apply zip_empty; [by eapply IHe1|by eapply IHe2].
  - apply bind_Ok in Ht as (u & Hu & ([] & Hd & _)%bind_Ok). unfold evaluate_round_column.
    eapply ends_bind; [by eapply IHe|]. intros vs _ ->. by rewrite (precision_of e u).
  - apply bind_Ok in Ht as (tn & Htn & (td & Htd & ([] & Hdn & ([] & Hdd & _)%bind_Ok)%bind_Ok)%bind_Ok).
    unfold evaluate_round_div_column. eapply ends_bind; [by eapply IHe1|]. intros vs _ ->.
    eapply ends_bind; [by eapply IHe2|]. intros vs _ ->. unfold round_div_precision.
    by rewrite (precision_of e1 tn), (precision_of e2 td).
  - done.
Qed.
End Soundness.

(** C13: type soundness: evaluating an expression the typing rules accept, over a
    chunk whose columns hold values of their declared types, never panics and
    never meets a type error.  It returns one value per row, each null or of
    the inferred type and within its machine range (a decimal fits the inferred
    precision and scale), or it fails for a reason that lies in the data:
    overflow, division by zero, a zero vector, a missing class or score. *)
Theorem expression_type_sound `{FloatEnv} {Operator} chunk columns (expr : Expr Operator) t :
  chunk_ok chunk → expr_ok expr → expression_type expr (column_types chunk columns) = Ok t →
  match evaluate chunk columns expr with
  | Ok vs => length vs = row_count chunk ∧ Forall (λ v, has_type v t) vs
  | Err e => e ∈ data_errors
  | Panic => False
  end.
Proof.
  intros Hc He Ht. destruct (decide (row_count chunk = 0%nat)) as [Hz|Hz].
  { pose proof (empty_sound chunk columns Hc expr t Ht) as Hs. unfold evaluate. rewrite Hz. simpl.
    destruct (evaluate_selected chunk columns expr []) as [vs|e|]; simpl in Hs; [|done..]. subst. by split. }
  assert (seq 0 (row_count chunk) ≠ []) as Hne by (destruct (row_count chunk); [done|by simpl]).
  pose proof (evaluate_implements chunk columns expr _ Hne) as Ha. unfold evaluate.
  assert (∀ row, row ∈ seq 0 (row_count chunk) → ends (λ v, has_type v t) (eval_row chunk columns expr row)) as Hrow.
  { intros row Hrow%elem_of_seq. apply row_sound; [done|lia|done|done]. }
  destruct (evaluate_selected chunk columns expr _) as [vs|e|]; simpl in Ha.
  - split; [by rewrite <- (Forall2_length _ _ _ Ha), length_seq|]. apply Forall_forall. intros v Hv.
    destruct (Forall2_elem_r _ _ _ _ Ha Hv) as (row & Hin & Hr). specialize (Hrow row Hin). by rewrite Hr in Hrow.
  - destruct Ha as (row & Hin & Hr). specialize (Hrow row Hin). by rewrite Hr in Hrow.
  - destruct Ha as (row & Hin & Hr). specialize (Hrow row Hin). by rewrite Hr in Hrow.
Qed.

Lemma witness_chunk_ok : chunk_ok witness_chunk.
Proof.
  split; [done|]. intros [|i] ty col; [|done]. intros [= <-] [= <-]. split; [done|].
  intros [|[|row]] Hrow; [eexists; split; [reflexivity|by vm_compute]..|simpl in Hrow; lia].
Qed.

Lemma expression_type_sound_witness :
  expression_type witness_expr (column_types witness_chunk witness_columns) = Ok (EValue TInt64) ∧
  Forall (λ v, has_type v (EValue TInt64)) [Int64 0; Int64 2].
Proof.
  assert (expression_type witness_expr (column_types witness_chunk witness_columns) = Ok (EValue TInt64)) as Ht by (vm_compute; reflexivity).
  split; [exact Ht|].
  pose proof (expression_type_sound witness_chunk witness_columns witness_expr _ witness_chunk_ok
    ltac:(vm_compute; intuition congruence) Ht) as Hs.
  replace (evaluate witness_chunk witness_columns witness_expr) with (Ok (A := list Value) [Int64 0; Int64 2]) in Hs by (vm_compute; reflexivity).
  exact (proj2 Hs).
Defined.
