(* ===== verification/Spill.v ===== *)
(** Spill runs: the row codec of [devondb-exec/src/operators.rs] and the
    canonical form of [devondb-types/src/geo_point.rs] it enforces.

    A run file is a sequence of rows, each a 32-bit length and a payload with
    its own header.  The file is its bytes; reading consumes a prefix. *)

From S2P Require Import Prelude Bytes Decimal Types Codec F64.
From Stdlib Require Import SpecFloat.

(** ** Canonical points *)

Definition f64_90 : spec_float := S754_finite false 6333186975989760 (-46).
Definition f64_180 : spec_float := S754_finite false 6333186975989760 (-45).

Definition canonical_violation (lat_deg lng_deg : Z) : option string :=
  let lat := f64_of_bits lat_deg in
  let lng := f64_of_bits lng_deg in
  if negb (is_finite64 lat_deg) || negb (is_finite64 lng_deg) then Some "components must be finite"%string else
  if negb (SFleb (SFopp f64_90) lat && SFleb lat f64_90) then Some "latitude must be in [-90, 90]"%string else
  if negb (SFleb (SFopp f64_180) lng && SFltb lng f64_180)
  then Some "longitude must be in [-180, 180); +180 spells as -180"%string else
  if (SFeqb lat f64_90 || SFeqb lat (SFopp f64_90)) && negb (SFeqb lng (S754_zero false))
  then Some "longitude must be 0 at the poles"%string else None.

Definition from_canonical (lat_deg lng_deg : Z) : outcome GeoPoint :=
  match canonical_violation lat_deg lng_deg with
  | Some _ => Err (InvalidArgument "GeoPoint({lat_deg}, {lng_deg}): {rule}")
  | None => Ok (mkGeo lat_deg lng_deg)
  end.

(** ** Encoding *)

Definition MIN_SPILL_ROW_BYTES : Z := 2.
Definition MAX_SPILL_ROW_BYTES : Z := 256 * 1024 * 1024.
(** [DVNSPROW]. *)
Definition SPILL_ROW_MAGIC : list Z := [68; 86; 78; 83; 80; 82; 79; 87].
Definition SPILL_ROW_FORMAT_VERSION : Z := 1.

Definition encode_spill_len (len : Z) : outcome (list Z) :=
  let! len := ok_or (try_u 32 len) (InvalidArgument "{kind} exceeds u32::MAX") in Ok (to_le 4 len).

Definition encode_spill_bytes (bytes : list Z) : outcome (list Z) :=
  let! len := encode_spill_len (zlen bytes) in Ok (len ++ bytes).

Definition encode_fixed (tag : Z) (bytes : list Z) : list Z := tag :: bytes.

Definition encode_spill_vector (vector : list Z) : outcome (list Z) :=
  let! len := encode_spill_len (zlen vector) in Ok (5 :: len ++ (vector ≫= to_le 4)).

(** [encode_spill_value]: the bytes it appends. *)
Definition encode_spill_value (value : Value) : outcome (list Z) :=
  match value with
  | Null => Ok [0]
  | Bool value => Ok [1; Z.b2z value]
  | Int64 value => Ok (encode_fixed 2 (to_le 8 value))
  | Float64 value => Ok (encode_fixed 3 (to_le 8 value))
  | String value => let! bytes := encode_spill_bytes value in Ok (4 :: bytes)
  | Vector value => encode_spill_vector value
  | Geo value => Ok (6 :: to_le 8 (lat_deg value) ++ to_le 8 (lng_deg value))
  | Timestamp value => Ok (encode_fixed 7 (to_le 8 value))
  | Bytes value => let! bytes := encode_spill_bytes value in Ok (8 :: bytes)
  | Decimal value => Ok (9 :: to_le 16 (digits value) ++ [scale value])
  | Json value => let! bytes := encode_spill_bytes value in Ok (10 :: bytes)
  end.

Definition encode_spill_row (row : list Value) : outcome (list Z) :=
  let! count := encode_spill_len (zlen row) in
  let! values := collect encode_spill_value row in
  let body := count ++ concat values in
  let! body_len := ok_or (try_u 32 (zlen body)) (InvalidArgument "spill row body exceeds u32::MAX bytes") in
  Ok (SPILL_ROW_MAGIC ++ to_le 2 SPILL_ROW_FORMAT_VERSION ++ to_le 4 body_len ++ body).

Definition write_spill_row_bounded (row : list Value) (max_row_bytes : Z) : outcome (list Z) :=
  let! payload := encode_spill_row row in
  let out_of_range := InvalidArgument "spill row is {encoded_bytes} encoded bytes but the spillable row range is {MIN_SPILL_ROW_BYTES}..={max_row_bytes} bytes" in
  if negb ((MIN_SPILL_ROW_BYTES <=? zlen payload) && (zlen payload <=? max_row_bytes)) then Err out_of_range else
  let! row_len := ok_or (try_u 32 (zlen payload)) out_of_range in
  Ok (to_le 4 row_len ++ payload).

Definition write_spill_row (row : list Value) : outcome (list Z) := write_spill_row_bounded row MAX_SPILL_ROW_BYTES.

(** The bytes of a run; nothing is kept of a run whose writing fails. *)
Definition write_spill_rows (rows : list (list Value)) : outcome (list Z) :=
  let! written := collect write_spill_row rows in Ok (concat written).

(** ** Decoding *)

(** A reader of the remaining bytes. *)
Definition decoder (A : Type) : Type := list Z → outcome (A * list Z).

Definition dbind {A B} (m : decoder A) (k : A → decoder B) : decoder B := λ bs,
  let! (a, bs) := m bs in k a bs.
Definition dret {A} (a : A) : decoder A := λ bs, Ok (a, bs).
Definition dlift {A} (m : outcome A) : decoder A := λ bs, let! a := m in Ok (a, bs).

Local Notation "'let%' x ':=' m 'in' k" := (dbind m (λ x, k)) (at level 200, x pattern, m at level 100, k at level 200).

Definition take_bytes (len : Z) : decoder (list Z) := λ remaining,
  if zlen remaining <? len then Err (Corrupt "short spill row: need {len} bytes, only {} remain")
  else Ok (take (Z.to_nat len) remaining, drop (Z.to_nat len) remaining).

Definition read_un (n : nat) : decoder Z := let% bs := take_bytes (Z.of_nat n) in dret (from_le bs).
Definition read_in (n : nat) : decoder Z := let% bs := take_bytes (Z.of_nat n) in dret (from_le_signed (8 * Z.of_nat n) bs).

Definition read_blob : decoder (list Z) :=
  let% len := read_un 4 in
  λ bs, map_err (λ _, Corrupt "malformed spill {kind} payload: {error}") (take_bytes len bs).

Definition read_text : decoder (list Z) :=
  let% bytes := read_blob in
  dlift (from_utf8 bytes (Corrupt "spill {kind} payload is not UTF-8: {error}")).

Definition decode_spill_bool : decoder Value :=
  let% b := read_un 1 in
  if b =? 0 then dret (Bool false) else if b =? 1 then dret (Bool true) else
  dlift (Err (Corrupt "spill Bool byte must be 0 or 1, got {value}")).

(** [as_chunks::<4>]: consecutive four-byte groups; the length is a multiple of four. *)
Fixpoint chunks4 (count : nat) (bytes : list Z) : list Z :=
  match count with
  | O => []
  | S count => from_le (take 4 bytes) :: chunks4 count (drop 4 bytes)
  end.

Definition decode_spill_vector : decoder (list Z) :=
  let% count := read_un 4 in
  let% byte_len := dlift (ok_or (try_u 64 (count * 4)) (Corrupt "spill Vector byte length overflowed usize")) in
  let% bytes := take_bytes byte_len in
  dret (chunks4 (Z.to_nat count) bytes).

Definition decode_spill_geo_point : decoder GeoPoint :=
  let% lat_deg := read_un 8 in
  let% lng_deg := read_un 8 in
  dlift (map_err (λ _, Corrupt "invalid spill GeoPoint: {error}") (from_canonical lat_deg lng_deg)).

Definition decode_spill_decimal : decoder Decimal128 :=
  let% digits := read_in 16 in
  let% scale := read_un 1 in
  dlift (map_err (λ _, Corrupt "invalid spill Decimal: {error}") (Decimal.new digits scale)).

Definition decode_spill_value : decoder Value :=
  let% tag := read_un 1 in
  match tag with
  | 0 => dret Null
  | 1 => decode_spill_bool
  | 2 => let% v := read_in 8 in dret (Int64 v)
  | 3 => let% v := read_un 8 in dret (Float64 v)
  | 4 => let% v := read_text in dret (String v)
  | 5 => let% v := decode_spill_vector in dret (Vector v)
  | 6 => let% v := decode_spill_geo_point in dret (Geo v)
  | 7 => let% v := read_in 8 in dret (Timestamp v)
  | 8 => let% v := read_blob in dret (Bytes v)
  | 9 => let% v := decode_spill_decimal in dret (Decimal v)
  | 10 => let% v := read_text in dret (Json v)
  | _ => dlift (Err (Corrupt "unknown spill value tag {tag}"))
  end.

Fixpoint decode_values (count : nat) : decoder (list Value) :=
  match count with
  | O => dret []
  | S count => let% v := decode_spill_value in let% row := decode_values count in dret (v :: row)
  end.

Definition decode_spill_row_body (body : list Z) : outcome (list Value) :=
  let! (value_count, remaining) := read_un 4 body in
  if zlen remaining <? value_count then Err (Corrupt "spill row declares {value_count} values in only {} bytes") else
  let! (row, remaining) := decode_values (Z.to_nat value_count) remaining in
  if negb (zlen remaining =? 0) then Err (Corrupt "spill row has {} trailing bytes") else Ok row.

Definition decode_spill_row (payload : list Z) : outcome (list Value) :=
  let! (magic, rest) := take_bytes (zlen SPILL_ROW_MAGIC) payload in
  if negb (bool_decide (magic = SPILL_ROW_MAGIC)) then Err (Corrupt "bad spill-row header magic") else
  let! (version, rest) := read_un 2 rest in
  if negb (version =? SPILL_ROW_FORMAT_VERSION) then Err (Corrupt "unsupported spill-row format version {version}") else
  let! (body_len, rest) := read_un 4 rest in
  if negb (zlen rest =? body_len) then Err (Corrupt "spill-row header declares {body_len} body bytes but {} remain") else
  let! (body, _) := take_bytes body_len rest in
  decode_spill_row_body body.

(** [SpillReader::read_row]: the next row and the rest of the file. *)
Definition corrupt_spill (_ : DevonError) : DevonError := Corrupt "spill file `{}`: {}".

Definition wrap_corrupt (e : DevonError) : DevonError := match e with Corrupt _ => corrupt_spill e | other => other end.

Definition read_row (file : list Z) : outcome (option (list Value) * list Z) :=
  match file with
  | [] => Ok (None, [])
  | _ =>
      if (length file <? 4)%nat then Err (corrupt_spill (Corrupt "short read while reading row length")) else
      let row_len := from_le (take 4 file) in
      let rest := drop 4 file in
      if negb ((MIN_SPILL_ROW_BYTES <=? row_len) && (row_len <=? MAX_SPILL_ROW_BYTES))
      then Err (corrupt_spill (Corrupt "bad spill row length {row_len}")) else
      if zlen rest <? row_len
      then Err (corrupt_spill (Corrupt "short spill row: length is {row_len}, only {remaining} bytes remain")) else
      let! row := map_err wrap_corrupt (decode_spill_row (take (Z.to_nat row_len) rest)) in
      Ok (Some row, drop (Z.to_nat row_len) rest)
  end.

(** ** Round trip *)

(** A value of the language: in its machine range, a point in canonical form. *)
Definition spill_ok (v : Value) : Prop :=
  value_wf v ∧ match v with Geo p => canonical_violation (lat_deg p) (lng_deg p) = None | _ => True end.

Lemma take_bytes_app (bs rest : list Z) len : len = zlen bs → take_bytes len (bs ++ rest) = Ok (bs, rest).
Proof.
  intros ->. unfold take_bytes. rewrite zlen_app. pose proof (zlen_nonneg rest).
  rewrite (proj2 (Z.ltb_ge _ _)) by lia. unfold zlen. rewrite Nat2Z.id. by rewrite take_app_length, drop_app_length.
Qed.

Lemma Ok_inj {A} (a b : A) : Ok a = Ok b → a = b.
Proof. by intros [= ->]. Qed.

Lemma dbind_Ok {A B} (m : decoder A) (k : A → decoder B) bs a bs' : m bs = Ok (a, bs') → dbind m k bs = k a bs'.
Proof. intros Hm. unfold dbind. by rewrite Hm. Qed.

Lemma read_un_app n x rest : in_u (8 * Z.of_nat n) x → read_un n (to_le n x ++ rest) = Ok (x, rest).
Proof.
  intros Hx. unfold read_un. erewrite dbind_Ok by (apply take_bytes_app; unfold zlen; by rewrite length_to_le).
  unfold dret. by rewrite (from_to_le_u n (8 * Z.of_nat n)).
Qed.

Lemma read_in_app n x rest : (0 < n)%nat → in_i (8 * Z.of_nat n) x → read_in n (to_le n x ++ rest) = Ok (x, rest).
Proof.
  intros Hn Hx. unfold read_in. erewrite dbind_Ok by (apply take_bytes_app; unfold zlen; by rewrite length_to_le).
  unfold dret. by rewrite (from_to_le_i n) by (done || lia).
Qed.

Lemma read_tag tag rest : in_u 8 tag → read_un 1 (tag :: rest) = Ok (tag, rest).
Proof.
  intros Ht. rewrite <- (read_un_app 1 tag rest) by done. f_equal. cbn [to_le app]. by rewrite Z.mod_small.
Qed.

Lemma encode_len_Ok len bs : encode_spill_len len = Ok bs → in_u 32 len ∧ bs = to_le 4 len.
Proof. unfold encode_spill_len. intros (x & Hx & [= <-])%bind_Ok. apply ok_or_Ok, try_u_Some in Hx as [-> ?]. done. Qed.

Lemma read_blob_app bytes enc rest : encode_spill_bytes bytes = Ok enc → read_blob (enc ++ rest) = Ok (bytes, rest).
Proof.
  unfold encode_spill_bytes. intros (len & [Hl ->]%encode_len_Ok & <-%Ok_inj)%bind_Ok. unfold read_blob.
  rewrite <- app_assoc. erewrite dbind_Ok by (by apply (read_un_app 4)). by rewrite take_bytes_app.
Qed.

Lemma read_text_app bytes enc rest :
  encode_spill_bytes bytes = Ok enc → utf8_valid bytes = true → read_text (enc ++ rest) = Ok (bytes, rest).
Proof.
  intros He Hu. unfold read_text. erewrite dbind_Ok by (by apply read_blob_app). unfold dlift, from_utf8. by rewrite Hu.
Qed.

Lemma chunks4_app vector : Forall (in_u 32) vector → chunks4 (length vector) (vector ≫= to_le 4) = vector.
Proof.
  induction 1 as [|x vector Hx _ IH]; [done|]. cbn [length chunks4 mbind list_bind].
  change (from_le (take 4 (to_le 4 x ++ (vector ≫= to_le 4))) :: chunks4 (length vector) (drop 4 (to_le 4 x ++ (vector ≫= to_le 4))) = x :: vector).
  rewrite (take_app_length' (to_le 4 x)), (drop_app_length' (to_le 4 x)) by (by rewrite length_to_le).
  rewrite (from_to_le_u 4 32) by done. by rewrite IH.
Qed.

Lemma length_elements (vector : list Z) : length (vector ≫= to_le 4) = (4 * length vector)%nat.
Proof. induction vector as [|x vector IH]; [done|]. rewrite bind_cons, length_app, length_to_le, IH. simpl. lia. Qed.

Lemma vector_app vector enc rest :
  encode_spill_vector vector = Ok (5 :: enc) → Forall (in_u 32) vector →
  decode_spill_vector (enc ++ rest) = Ok (vector, rest).
Proof.
  unfold encode_spill_vector. intros (len & [Hl ->]%encode_len_Ok & He%Ok_inj)%bind_Ok Hv. unfold decode_spill_vector.
  assert (enc = to_le 4 (zlen vector) ++ (vector ≫= to_le 4)) as -> by (by injection He).
  rewrite <- app_assoc. erewrite dbind_Ok by (by apply (read_un_app 4)).
  unfold in_u in Hl. erewrite dbind_Ok by (unfold dlift; rewrite try_u_in by (unfold in_u; lia); reflexivity).
  erewrite dbind_Ok.
  2: { apply take_bytes_app. unfold zlen. rewrite length_elements. lia. }
  unfold dret, zlen. rewrite Nat2Z.id. by rewrite chunks4_app.
Qed.

Lemma value_roundtrip v enc rest :
  encode_spill_value v = Ok enc → spill_ok v → decode_spill_value (enc ++ rest) = Ok (v, rest).
Proof.
  intros He [Hwf Hgeo]. unfold decode_spill_value. destruct v as [|b|x|x|t|vec|g|x|t|d|t]; cbn [encode_spill_value] in He; simpl in Hwf.
  - apply Ok_inj in He as <-. rewrite <- ?app_comm_cons. by erewrite dbind_Ok by (by apply read_tag).
  - apply Ok_inj in He as <-. rewrite <- ?app_comm_cons. erewrite dbind_Ok by (by apply read_tag). cbn beta iota. unfold decode_spill_bool.
    erewrite dbind_Ok by (apply read_tag; by destruct b). by destruct b.
  - apply Ok_inj in He as <-. unfold encode_fixed. rewrite <- ?app_comm_cons. erewrite dbind_Ok by (by apply read_tag). cbn beta iota.
    by erewrite dbind_Ok by (apply (read_in_app 8); [lia|done]).
  - apply Ok_inj in He as <-. unfold encode_fixed. rewrite <- ?app_comm_cons. erewrite dbind_Ok by (by apply read_tag). cbn beta iota.
    by erewrite dbind_Ok by (by apply (read_un_app 8)).
  - apply bind_Ok in He as (bs & Hb & <-%Ok_inj). rewrite <- ?app_comm_cons. erewrite dbind_Ok by (by apply read_tag). cbn beta iota.
    by erewrite dbind_Ok by (apply read_text_app; [done|tauto]).
  - pose proof He as He'. unfold encode_spill_vector in He'. apply bind_Ok in He' as (len & _ & <-%Ok_inj). rewrite <- ?app_comm_cons.
    erewrite dbind_Ok by (by apply read_tag). cbn beta iota. by erewrite dbind_Ok by (by apply vector_app).
  - apply Ok_inj in He as <-. rewrite <- ?app_comm_cons. erewrite dbind_Ok by (by apply read_tag). cbn beta iota. unfold decode_spill_geo_point.
    rewrite <- app_assoc. destruct Hwf as [Hlat Hlng]. erewrite dbind_Ok; [unfold dret; reflexivity|].
    erewrite dbind_Ok by (by apply (read_un_app 8)). erewrite dbind_Ok by (by apply (read_un_app 8)).
    unfold dlift, from_canonical. rewrite Hgeo. by destruct g.
  - apply Ok_inj in He as <-. unfold encode_fixed. rewrite <- ?app_comm_cons. erewrite dbind_Ok by (by apply read_tag). cbn beta iota.
    by erewrite dbind_Ok by (apply (read_in_app 8); [lia|done]).
  - apply bind_Ok in He as (bs & Hb & <-%Ok_inj). rewrite <- ?app_comm_cons. erewrite dbind_Ok by (by apply read_tag). cbn beta iota.
    by erewrite dbind_Ok by (by apply read_blob_app).
  - apply Ok_inj in He as <-. rewrite <- ?app_comm_cons. erewrite dbind_Ok by (by apply read_tag). cbn beta iota. unfold decode_spill_decimal.
    destruct Hwf as [Hd Hs]. unfold MAX_SCALE in Hs. rewrite <- app_assoc. erewrite dbind_Ok; [unfold dret; reflexivity|].
    erewrite dbind_Ok by (apply (read_in_app 16); [lia|done]). rewrite <- ?app_comm_cons. erewrite dbind_Ok by (apply read_tag; unfold in_u; lia).
    unfold dlift, new, MAX_SCALE. rewrite (proj2 (Z.ltb_ge _ _)) by lia. by destruct d.
  - apply bind_Ok in He as (bs & Hb & <-%Ok_inj). rewrite <- ?app_comm_cons. erewrite dbind_Ok by (by apply read_tag). cbn beta iota.
    by erewrite dbind_Ok by (apply read_text_app; [done|tauto]).
Qed.

Lemma values_roundtrip row encs rest :
  collect encode_spill_value row = Ok encs → Forall spill_ok row →
  decode_values (length row) (concat encs ++ rest) = Ok (row, rest).
Proof.
  intros Hc%collect_Ok Hrow. revert Hrow. induction Hc as [|v enc row encs Hv _ IH]; intros Hrow; [done|].
  apply Forall_cons in Hrow as [Hok Hrow]. cbn [length decode_values concat]. rewrite <- app_assoc.
  erewrite dbind_Ok by (by apply value_roundtrip). by erewrite dbind_Ok by (by apply IH).
Qed.

Lemma encoded_nonempty v enc : encode_spill_value v = Ok enc → 1 ≤ zlen enc.
Proof.
  destruct v; cbn [encode_spill_value]; unfold encode_spill_vector; intros He;
    try apply bind_Ok in He as (x & _ & He); apply Ok_inj in He as <-; unfold encode_fixed; rewrite zlen_cons;
    match goal with |- context [zlen ?l] => pose proof (zlen_nonneg l) end; lia.
Qed.

Lemma encoded_length row encs : collect encode_spill_value row = Ok encs → zlen row ≤ zlen (concat encs).
Proof.
  intros Hc%collect_Ok. induction Hc as [|v enc row encs Hv _ IH]; [done|]. cbn [concat].
  rewrite zlen_cons, zlen_app. pose proof (encoded_nonempty v enc Hv). lia.
Qed.

Lemma row_roundtrip row payload : encode_spill_row row = Ok payload → Forall spill_ok row → decode_spill_row payload = Ok row.
Proof.
  unfold encode_spill_row. intros (count & [Hcount ->]%encode_len_Ok & (encs & Henc & (len & Hlen & <-%Ok_inj)%bind_Ok)%bind_Ok)%bind_Ok Hrow.
  apply ok_or_Ok, try_u_Some in Hlen as [-> Hlen]. unfold decode_spill_row.
  rewrite take_bytes_app by done. cbn [bind]. rewrite bool_decide_true by done. cbn [negb].
  rewrite (read_un_app 2) by done. cbn [bind]. rewrite Z.eqb_refl. cbn [negb].
  rewrite (read_un_app 4) by done. cbn [bind]. rewrite Z.eqb_refl. cbn [negb].
  rewrite <- (app_nil_r (to_le 4 (zlen row) ++ concat encs)) at 2. rewrite take_bytes_app by done. cbn [bind].
  unfold decode_spill_row_body. rewrite (read_un_app 4) by done. cbn [bind].
  rewrite (proj2 (Z.ltb_ge _ _)) by (by apply encoded_length). rewrite <- (app_nil_r (concat encs)).
  unfold zlen at 1. rewrite Nat2Z.id, values_roundtrip by done. done.
Qed.

Lemma read_row_app row bytes rest :
  write_spill_row row = Ok bytes → Forall spill_ok row → read_row (bytes ++ rest) = Ok (Some row, rest).
Proof.
  unfold write_spill_row, write_spill_row_bounded. intros (payload & Hp & Hw)%bind_Ok Hrow.
  destruct ((MIN_SPILL_ROW_BYTES <=? zlen payload) && (zlen payload <=? MAX_SPILL_ROW_BYTES)) eqn:Er; [|done]. cbn [negb] in Hw.
  apply bind_Ok in Hw as (len & Hlen & <-%Ok_inj). apply ok_or_Ok, try_u_Some in Hlen as [-> Hu].
  rewrite <- app_assoc. unfold read_row. destruct (to_le 4 (zlen payload) ++ payload ++ rest) as [|b bs] eqn:E; [by destruct (to_le 4 _) eqn:El|].
  rewrite <- E. clear E b bs. pose proof (length_to_le 4 (zlen payload)) as Hl.
  rewrite (proj2 (Nat.ltb_ge _ _)) by (rewrite length_app; lia).
  rewrite (take_app_length' (to_le 4 (zlen payload))), (drop_app_length' (to_le 4 (zlen payload))) by done.
  rewrite (from_to_le_u 4 32), Er by done. cbn [negb]. rewrite zlen_app. pose proof (zlen_nonneg rest).
  rewrite (proj2 (Z.ltb_ge _ _)) by lia. unfold zlen. rewrite Nat2Z.id, take_app_length, drop_app_length.
  by rewrite (row_roundtrip row payload).
Qed.

(** Reading rows until the end of the file. *)
Fixpoint read_rows (fuel : nat) (file : list Z) : outcome (list (list Value)) :=
  match fuel with
  | O => Err (Corrupt "out of fuel")
  | S fuel =>
      let! (row, file) := read_row file in
      match row with
      | None => Ok []
      | Some row => let! rows := read_rows fuel file in Ok (row :: rows)
      end
  end.

Lemma read_rows_S fuel file :
  read_rows (S fuel) file =
  let! (row, file) := read_row file in
  match row with None => Ok [] | Some row => let! rows := read_rows fuel file in Ok (row :: rows) end.
Proof. done. Qed.

(** C35: a spill run reads back as it was written: for any rows of values in
    their machine ranges that the writer accepts, reading the file row by row
    returns exactly those rows, in order, and then the end of the file. *)
Theorem spill_run_roundtrip rows file :
  Forall (Forall spill_ok) rows → write_spill_rows rows = Ok file →
  read_rows (S (length rows)) file = Ok rows.
Proof.
  intros Hok (written & Hw & <-%Ok_inj)%bind_Ok. apply collect_Ok in Hw. revert Hok.
  induction Hw as [|row bytes rows written Hb _ IH]; intros Hok; [done|].
  apply Forall_cons in Hok as [Hrow Hok]. cbn [length concat]. rewrite read_rows_S, (read_row_app row) by done.
  cbn [bind]. by rewrite (IH Hok).
Qed.

Lemma spill_run_roundtrip_witness :
  ∃ file, write_spill_rows [[Null; Int64 (-7); String [104; 105]]; []] = Ok file ∧
    read_rows 3 file = Ok [[Null; Int64 (-7); String [104; 105]]; []].
Proof.
  destruct (write_spill_rows [[Null; Int64 (-7); String [104; 105]]; []]) as [file|e|] eqn:E; [|vm_compute in E; discriminate E..].
  exists file. split; [reflexivity|].
  refine (spill_run_roundtrip [[Null; Int64 (-7); String [104; 105]]; []] file _ E).
  repeat constructor; by vm_compute.
Defined.
