(* ===== verification/Sorting.v ===== *)
(** Ordering of values and the stable merge sort of blocking operators:
    [compare_order_values], [stable_sort_by] and the index merge of
    [devondb-exec/src/operators.rs]. *)

From stdpp Require Import sorting.
From S2P Require Import Prelude Bytes Decimal Types Codec F64 Expr Typing Eval.

(** ** The order of values *)

Definition compare_decimal_order (l r : Decimal128) : outcome comparison :=
  if negb (scale l =? scale r) then Err (Corrupt "cannot order Decimal values with scales {} and {}")
  else Ok (digits l ?= digits r).

Definition compare_order_values (l r : Value) : outcome comparison :=
  match l, r with
  | Null, Null => Ok Eq
  | Null, _ => Ok Lt
  | _, Null => Ok Gt
  | Bool l, Bool r => Ok (bool_cmp l r)
  | Int64 l, Int64 r => Ok (l ?= r)
  | Float64 l, Float64 r => Ok (f64_total_cmp l r)
  | String l, String r => Ok (str_cmp l r)
  | Timestamp l, Timestamp r => Ok (l ?= r)
  | Decimal l, Decimal r => compare_decimal_order l r
  | _, _ => Err (Corrupt "cannot order values of types {} and {}")
  end.

Fixpoint compare_key_tuples (l r : list Value) : outcome comparison :=
  match l, r with
  | [], [] => Ok Eq
  | [], _ :: _ => Ok Lt
  | _ :: _, [] => Ok Gt
  | x :: l, y :: r =>
      let! ordering := compare_order_values x y in
      match ordering with Eq => compare_key_tuples l r | c => Ok c end
  end.

(** ** The merge sort *)

Definition invalid_sort_permutation : DevonError := Corrupt "blocking operator produced an invalid row permutation".

Section MergeSort.
Context {T : Type} (rows : list T) (compare : T → T → outcome comparison).

(** The loop over the [n] output positions. *)
Fixpoint merge_indices (n : nat) (l r : list nat) : outcome (list nat) :=
  match n with
  | O => Ok []
  | S n =>
      match l, r with
      | left_row :: l', right_row :: r' =>
          let! a := index rows left_row in
          let! b := index rows right_row in
          let! c := compare a b in
          match c with
          | Gt => let! rest := merge_indices n l r' in Ok (right_row :: rest)
          | _ => let! rest := merge_indices n l' r in Ok (left_row :: rest)
          end
      | left_row :: l', [] => let! rest := merge_indices n l' [] in Ok (left_row :: rest)
      | [], right_row :: r' => let! rest := merge_indices n [] r' in Ok (right_row :: rest)
      | [], [] => Err invalid_sort_permutation
      end
  end.

(** Each half is shorter, so the length is enough fuel. *)
Fixpoint merge_sort_indices (fuel : nat) (indices : list nat) : outcome (list nat) :=
  match fuel with
  | O => Ok indices
  | S fuel =>
      if (length indices <? 2)%nat then Ok indices else
      let middle := (length indices / 2)%nat in
      let! l := merge_sort_indices fuel (take middle indices) in
      let! r := merge_sort_indices fuel (drop middle indices) in
      merge_indices (length indices) l r
  end.

(** Moving the rows out by index; each may be taken once. *)
Definition take_row (s : list (option T) * list T) (i : nat) : outcome (list (option T) * list T) :=
  let '(original, out) := s in
  match original !! i with
  | Some (Some row) => Ok (<[i := None]> original, out ++ [row])
  | _ => Err invalid_sort_permutation
  end.

Definition stable_sort_by : outcome (list T) :=
  let! order := merge_sort_indices (length rows) (seq 0 (length rows)) in
  let! (_, out) := for_each order (Some <$> rows, []) take_row in
  Ok out.
End MergeSort.

(** ** Specification of a stable sort *)

(** A total preorder, as a comparison. *)
Class TotalCompare {T} (P : T → Prop) (c : T → T → comparison) := {
  cmp_antisym x y : P x → P y → c y x = CompOpp (c x y);
  cmp_trans x y z : P x → P y → P z → c x y ≠ Gt → c y z ≠ Gt → c x z ≠ Gt;
}.

Section Stable.
Context {T : Type} (P : T → Prop) (c : T → T → comparison) `{!TotalCompare P c}.

(** Rows with their input positions: strictly before, ties broken by position. *)
Definition before (x y : nat * T) : Prop := c x.2 y.2 = Lt ∨ (c x.2 y.2 = Eq ∧ (x.1 < y.1)%nat).

Definition tagged_ok (l : list (nat * T)) : Prop := Forall (λ x, P x.2) l.

Lemma before_trans x y z : P x.2 → P y.2 → P z.2 → before x y → before y z → before x z.
Proof.
  unfold before. intros Hx Hy Hz Hxy Hyz.
  pose proof (cmp_trans x.2 y.2 z.2 Hx Hy Hz) as H1. pose proof (cmp_antisym x.2 y.2 Hx Hy) as A1.
  pose proof (cmp_antisym y.2 z.2 Hy Hz) as A2. pose proof (cmp_antisym x.2 z.2 Hx Hz) as A3.
  pose proof (cmp_trans z.2 x.2 y.2 Hz Hx Hy) as H2. pose proof (cmp_trans y.2 z.2 x.2 Hy Hz Hx) as H3.
  rewrite A1 in *. rewrite A2 in *. rewrite A3 in *.
  destruct (c x.2 y.2), (c y.2 z.2), (c x.2 z.2); simpl in *; naive_solver lia.
Qed.

Lemma before_asym x y : P x.2 → P y.2 → before x y → before y x → False.
Proof.
  unfold before. intros Hx Hy. rewrite (cmp_antisym x.2 y.2) by done.
  destruct (c x.2 y.2); simpl; intros [?|[? ?]] [?|[? ?]]; try done. lia.
Qed.

Lemma before_total x y : P x.2 → P y.2 → x.1 ≠ y.1 → before x y ∨ before y x.
Proof.
  unfold before. intros Hx Hy Hne. rewrite (cmp_antisym x.2 y.2) by done.
  destruct (c x.2 y.2); simpl; [|by left; left|by right; left].
  destruct (decide (x.1 < y.1)%nat); [left|right]; right; (split; [done|lia]).
Qed.

(** A stable sort is determined by its input. *)
Lemma sorted_unique l k :
  tagged_ok l → StronglySorted before l → StronglySorted before k → l ≡ₚ k → l = k.
Proof.
  intros Hok Hl. revert k Hok. induction Hl as [|x l Hl IH Hx]; intros k Hok Hk Hp.
  { by apply Permutation_nil_l in Hp. }
  destruct Hk as [|y k Hk Hy]; [by apply Permutation_nil_r in Hp|].
  assert (tagged_ok (y :: k)) as Hok' by (unfold tagged_ok in *; by rewrite <- Hp).
  apply Forall_cons in Hok as [Hpx Hokl]. apply Forall_cons in Hok' as [Hpy Hokk].
  assert (x = y) as ->.
  { assert (x ∈ y :: k) as Hin by (rewrite <- Hp; left). assert (y ∈ x :: l) as Hin' by (rewrite Hp; left).
    apply elem_of_cons in Hin as [->|Hin]; [done|]. apply elem_of_cons in Hin' as [->|Hin']; [done|].
    rewrite Forall_forall in Hx, Hy. exfalso. apply (before_asym x y); auto. }
  f_equal. apply IH; [done|done|]. by apply Permutation_cons_inv in Hp.
Qed.
End Stable.

(** ** The merge sort is a stable sort *)

Section SortSpec.
Context {T : Type} (P : T → Prop) (c : T → T → comparison) `{!TotalCompare P c}.
Context (rows : list T) (compare : T → T → outcome comparison).
Hypothesis Hrows : Forall P rows.
Hypothesis Hcmp : ∀ x y, x ∈ rows → y ∈ rows → compare x y = Ok (c x y).

(** [before] on row numbers. *)
Definition ibefore (i j : nat) : Prop := ∃ x y, rows !! i = Some x ∧ rows !! j = Some y ∧ before c (i, x) (j, y).

Lemma row_P i x : rows !! i = Some x → P x.
Proof. intros Hi. rewrite Forall_forall in Hrows. apply Hrows. by eapply list_elem_of_lookup_2. Qed.

Lemma ibefore_trans i j k : ibefore i j → ibefore j k → ibefore i k.
Proof.
  intros (x & y & Hx & Hy & Hxy) (y' & z & Hy' & Hz & Hyz). assert (y' = y) as -> by congruence.
  exists x, z. split_and!; [done..|]. eapply (before_trans P c _ (j, y)); simpl; eauto using row_P.
Qed.

Lemma ibefore_all i j l : ibefore i j → Forall (ibefore j) l → Forall (ibefore i) l.
Proof. intros Hij Hl. eapply Forall_impl; [exact Hl|]. intros k. by apply ibefore_trans. Qed.

(** All of [l] precede all of [r] in the input. *)
Definition split_at (l r : list nat) : Prop := ∀ i j, i ∈ l → j ∈ r → (i < j)%nat.

Lemma merge_spec n : ∀ l r,
  n = (length l + length r)%nat → StronglySorted ibefore l → StronglySorted ibefore r → split_at l r →
  Forall (λ i, i < length rows)%nat l → Forall (λ i, i < length rows)%nat r →
  ∃ o, merge_indices rows compare n l r = Ok o ∧ StronglySorted ibefore o ∧ o ≡ₚ l ++ r.
Proof.
  induction n as [|n IH]; intros l r Hn Hl Hr Hs Hbl Hbr.
  { assert (l = []) as -> by (destruct l; [done|simpl in *; lia]). assert (r = []) as -> by (destruct r; [done|simpl in *; lia]).
    exists []. split_and!; [done|constructor|done]. }
  destruct l as [|i l]; [destruct r as [|j r]; [done|]|destruct r as [|j r]].
  - apply StronglySorted_inv in Hr as [Hr Hj]. apply Forall_cons in Hbr as [_ Hbr].
    destruct (IH [] r) as (o & Ho & Hso & Hpo); [simpl in *; lia|constructor|done|by intros ? ? ?%not_elem_of_nil|constructor|done|].
    exists (j :: o). cbn [merge_indices]. rewrite Ho. split_and!; [done| |by rewrite Hpo].
    constructor; [done|]. by rewrite Hpo.
  - apply StronglySorted_inv in Hl as [Hl Hi]. apply Forall_cons in Hbl as [_ Hbl].
    destruct (IH l []) as (o & Ho & Hso & Hpo); [simpl in *; lia|done|constructor|by intros ? ? ? ?%not_elem_of_nil|done|constructor|].
    rewrite app_nil_r in *. exists (i :: o). cbn [merge_indices]. rewrite Ho. split_and!; [done| |by rewrite Hpo].
    constructor; [done|]. by rewrite Hpo.
  - pose proof Hl as Hl0. pose proof Hr as Hr0. apply StronglySorted_inv in Hl as [Hl Hi]. apply StronglySorted_inv in Hr as [Hr Hj].
    pose proof Hbl as Hbl0. pose proof Hbr as Hbr0. apply Forall_cons in Hbl as [Hbi Hbl]. apply Forall_cons in Hbr as [Hbj Hbr].
    destruct (lookup_lt_is_Some_2 rows i Hbi) as [x Hx]. destruct (lookup_lt_is_Some_2 rows j Hbj) as [y Hy].
    cbn [merge_indices]. unfold index. rewrite Hx, Hy. cbn [expect bind].
    rewrite Hcmp by (by eapply list_elem_of_lookup_2). cbn [bind].
    assert (i < j)%nat as Hij by (apply Hs; left). pose proof (cmp_antisym x y (row_P i x Hx) (row_P j y Hy)) as Ha.
    destruct (decide (c x y = Gt)) as [E|E].
    + rewrite E in *. destruct (IH (i :: l) r) as (o & Ho & Hso & Hpo); [simpl in *; lia|done|done|by intros a b ??; apply Hs; [|right]|done|done|].
      rewrite Ho. exists (j :: o). split_and!; [done| |by rewrite Hpo, Permutation_middle].
      assert (ibefore j i) as Hji by (exists y, x; split_and!; [done..|]; by left).
      constructor; [done|]. rewrite Hpo. apply Forall_app. split; [|done]. constructor; [done|]. by eapply ibefore_all.
    + destruct (IH l (j :: r)) as (o & Ho & Hso & Hpo); [simpl in *; lia|done|done|by intros a b ??; apply Hs; [right|]|done|done|].
      assert (match c x y with Gt => let! rest := merge_indices rows compare n (i :: l) r in Ok (j :: rest)
        | _ => let! rest := merge_indices rows compare n l (j :: r) in Ok (i :: rest) end = Ok (i :: o)) as ->.
      { rewrite Ho. by destruct (c x y). }
      exists (i :: o). split_and!; [done| |by rewrite Hpo].
      assert (ibefore i j) as Hbij.
      { exists x, y. split_and!; [done..|]. unfold before. simpl. destruct (c x y); [by right|by left|done]. }
      constructor; [done|]. rewrite Hpo. apply Forall_app. split; [done|]. constructor; [done|]. by eapply ibefore_all.
Qed.

Lemma merge_sort_spec fuel : ∀ k n,
  (n ≤ fuel)%nat → (k + n ≤ length rows)%nat →
  ∃ o, merge_sort_indices rows compare fuel (seq k n) = Ok o ∧ StronglySorted ibefore o ∧ o ≡ₚ seq k n.
Proof.
  induction fuel as [|fuel IH]; intros k n Hf Hk.
  { assert (n = 0%nat) as -> by lia. exists []. split_and!; [done|constructor|done]. }
  cbn [merge_sort_indices]. rewrite length_seq. destruct (Nat.ltb_spec n 2) as [Hn|Hn].
  { exists (seq k n). split_and!; [done| |done]. destruct n as [|[|n]]; [constructor|repeat constructor|lia]. }
  pose proof (Nat.div_lt n 2 ltac:(lia) ltac:(lia)) as Hm. assert (1 ≤ n / 2)%nat as Hm1 by (apply Nat.div_le_lower_bound; lia).
  set (m := (n / 2)%nat) in *. assert (take m (seq k n) = seq k m ∧ drop m (seq k n) = seq (k + m) (n - m)) as [-> ->].
  { assert (seq k n = seq k m ++ seq (k + m) (n - m)) as -> by (rewrite <- seq_app; f_equal; lia).
    split; [apply take_app_length'|apply drop_app_length']; by rewrite length_seq. }
  destruct (IH k m) as (l & -> & Hsl & Hpl); [lia|lia|]. destruct (IH (k + m)%nat (n - m)%nat) as (r & -> & Hsr & Hpr); [lia|lia|].
  cbn [bind]. destruct (merge_spec n l r) as (o & Ho & Hso & Hpo); [|done|done| | | |].
  - rewrite (Permutation_length Hpl), (Permutation_length Hpr), !length_seq. lia.
  - intros i j Hi Hj. rewrite Hpl in Hi. rewrite Hpr in Hj. apply elem_of_seq in Hi, Hj. lia.
  - rewrite Hpl. apply Forall_seq. lia.
  - rewrite Hpr. apply Forall_seq. lia.
  - exists o. split_and!; [done|done|]. rewrite Hpo, Hpl, Hpr, <- seq_app. by replace (m + (n - m))%nat with n by lia.
Qed.
End SortSpec.

(** [out] is the input sorted by [c], equal rows in input order. *)
Definition stably_sorted {T} (c : T → T → comparison) (rows out : list T) : Prop :=
  ∃ t, out = t.*2 ∧ StronglySorted (before c) t ∧ t ≡ₚ enumerate rows.

Lemma enumerate_ok {T} (P : T → Prop) (rows : list T) : Forall P rows → tagged_ok P (enumerate rows).
Proof.
  intros HP. unfold tagged_ok. apply Forall_forall. intros [i x] Hx. apply elem_of_enumerate in Hx.
  rewrite Forall_forall in HP. apply HP. by eapply list_elem_of_lookup_2.
Qed.

(** The specification determines the output. *)
Lemma stably_sorted_unique {T} P (c : T → T → comparison) `{!TotalCompare P c} rows out out' :
  Forall P rows → stably_sorted c rows out → stably_sorted c rows out' → out = out'.
Proof.
  intros HP (t & -> & Hs & Hp) (t' & -> & Hs' & Hp'). f_equal. apply (sorted_unique P c); [|done|done|by rewrite Hp, Hp'].
  unfold tagged_ok. rewrite Hp. by apply enumerate_ok.
Qed.

Section SortResult.
Context {T : Type} (P : T → Prop) (c : T → T → comparison) `{!TotalCompare P c}.
Context (rows : list T) (compare : T → T → outcome comparison).
Hypothesis Hrows : Forall P rows.
Hypothesis Hcmp : ∀ x y, x ∈ rows → y ∈ rows → compare x y = Ok (c x y).

Lemma take_rows_spec (t : list (nat * T)) : ∀ original out,
  NoDup t.*1 → Forall (λ x, original !! x.1 = Some (Some x.2)) t →
  ∃ original', for_each t.*1 (original, out) take_row = Ok (original', out ++ t.*2).
Proof.
  induction t as [|[i x] t IH]; intros original out Hnd Ht; [exists original; simpl; by rewrite app_nil_r|].
  apply NoDup_cons in Hnd as [Hi Hnd]. apply Forall_cons in Ht as [Hx Ht]. simpl in Hx, Hi. cbn [fmap list_fmap fst snd for_each take_row].
  rewrite Hx. cbn [bind]. destruct (IH (<[i := None]> original) (out ++ [x])) as (o' & Ho); [done| |].
  - apply Forall_forall. intros [j y] Hy. rewrite Forall_forall in Ht. simpl. rewrite list_lookup_insert_ne; [by apply (Ht (j, y))|].
    intros ->. apply Hi. apply list_elem_of_fmap. by exists (j, y).
  - exists o'. etrans; [exact Ho|]. by rewrite <- app_assoc.
Qed.

Lemma sorted_tags (o : list nat) :
  StronglySorted (ibefore c rows) o → Forall (λ i, i < length rows)%nat o →
  ∃ t, o = t.*1 ∧ StronglySorted (before c) t ∧ Forall (λ x, rows !! x.1 = Some x.2) t.
Proof.
  induction 1 as [|i o Hs IH Hi]; intros Hb; [by exists []; split_and!; [|constructor..]|].
  apply Forall_cons in Hb as [Hbi Hb]. destruct (IH Hb) as (t & -> & Hst & Ht). destruct (lookup_lt_is_Some_2 rows i Hbi) as [x Hx].
  exists ((i, x) :: t). split_and!; [done| |by constructor]. constructor; [done|].
  apply Forall_forall. intros [j y] Hj. rewrite Forall_forall in Ht. rewrite Forall_forall in Hi.
  destruct (Hi j) as (x' & y' & Hx' & Hy' & Hbef); [apply list_elem_of_fmap; by exists (j, y)|].
  pose proof (Ht (j, y) Hj) as Hy. simpl in Hy. by assert (x' = x) as -> by congruence; assert (y' = y) as -> by congruence.
Qed.

Lemma tags_enumerate (t : list (nat * T)) :
  t.*1 ≡ₚ seq 0 (length rows) → Forall (λ x, rows !! x.1 = Some x.2) t → t ≡ₚ enumerate rows.
Proof.
  intros Hp Ht. apply NoDup_Permutation.
  - apply (NoDup_fmap_1 fst). rewrite Hp. apply NoDup_seq.
  - apply (NoDup_fmap_1 fst). unfold enumerate. rewrite enumerate_fst. apply NoDup_seq.
  - intros [i x]. split.
    + intros Hx. rewrite Forall_forall in Ht. by apply enumerate_elem_of, (Ht (i, x)).
    + intros Hx%elem_of_enumerate. assert (i ∈ t.*1) as Hi by (rewrite Hp; apply elem_of_seq; apply lookup_lt_Some in Hx; lia).
      apply list_elem_of_fmap in Hi as ([j y] & -> & Hj). rewrite Forall_forall in Ht. pose proof (Ht (j, y) Hj) as Hy. simpl in *.
      by assert (y = x) as -> by congruence.
Qed.

Lemma stable_sort_spec : ∃ out, stable_sort_by rows compare = Ok out ∧ stably_sorted c rows out.
Proof.
  destruct (merge_sort_spec P c rows compare Hrows Hcmp (length rows) 0 (length rows)) as (o & Ho & Hso & Hpo); [lia|lia|].
  destruct (sorted_tags o Hso) as (t & -> & Hst & Ht); [rewrite Hpo; apply Forall_seq; lia|].
  unfold stable_sort_by. rewrite Ho. cbn [bind].
  destruct (take_rows_spec t (Some <$> rows) []) as (o' & ->).
  - rewrite Hpo. apply NoDup_seq.
  - eapply Forall_impl; [exact Ht|]. intros [i x] Hx. simpl in *. by rewrite list_lookup_fmap, Hx.
  - exists t.*2. split; [done|]. exists t. split_and!; [done|done|by apply tags_enumerate].
Qed.
End SortResult.
