(* ===== verification/Operators.v ===== *)
(** The streaming pull operators of [devondb-exec/src/operators.rs]: filter,
    projection, limit and interface scan.

    A pull source is represented by the results it will deliver: one
    [outcome Chunk] per call of [next_chunk] and then the end.  Resolving a
    scalar subquery row by row needs the database behind
    [ScalarSubqueryExecutor]; it is the parameter [subquery_rows]. *)

From S2P Require Import Prelude Bytes Decimal Types Codec Schema F64 Expr Typing Eval EvalRow.

Definition source : Type := list (outcome Chunk).

(** One call of [next_chunk]. *)
Definition pull (s : source) : outcome (option Chunk) * source :=
  match s with
  | [] => (Ok None, [])
  | r :: rest => (let! chunk := r in Ok (Some chunk), rest)
  end.

(** The results an operator delivers in turn, up to the end or its first error.
    It makes at most [fuel] calls. *)
Fixpoint trace {S} (next : S → outcome (option Chunk) * S) (fuel : nat) (s : S) : source :=
  match fuel with
  | O => []
  | S fuel =>
      match next s with
      | (Ok None, _) => []
      | (Ok (Some chunk), s) => Ok chunk :: trace next fuel s
      | (Err e, _) => [Err e]
      | (Panic, _) => [Panic]
      end
  end.

(** ** Rows of chunks *)

Definition clone_row (chunk : Chunk) (row : nat) : outcome (list Value) :=
  collect (λ column,
    let! v := value chunk row column in
    ok_or v (InvalidArgument "cannot copy missing row {row}, column {column} from chunk"))
    (seq 0 (column_count chunk)).

Definition copy_rows (chunk : Chunk) (rows : list nat) : outcome Chunk :=
  let! builder := for_each rows (builder_new (types chunk)) (λ builder row,
    let! values := clone_row chunk row in push_row builder values) in
  finish builder.

Definition values_at (columns : list (list Value)) (row : nat) : outcome (list Value) :=
  collect (λ column : list Value, ok_or (column !! row) (InvalidArgument "{context} returned fewer than {} rows")) columns.

Definition projected_chunk (columns : list (list Value)) (types : list LogicalType) (row_count : nat) : outcome Chunk :=
  let! builder := for_each (seq 0 row_count) (builder_new types) (λ builder row,
    let! values := collect (λ column : list Value,
      ok_or (column !! row) (InvalidArgument "projection expression returned fewer than {row_count} rows")) columns in
    push_row builder values) in
  finish builder.

Definition selected_rows (predicate : list Value) : outcome (list nat) :=
  for_each (enumerate predicate) [] (λ selected '(row, value),
    match value with
    | Bool true => Ok (selected ++ [row])
    | Bool false | Null => Ok selected
    | _ => Err (InvalidArgument "filter predicate evaluated to non-Bool value {value} at row {row}")
    end).

Fixpoint expression_contains_scalar {Operator} (expr : Expr Operator) : bool :=
  match expr with
  | Scalar _ => true
  | Binary _ l r | Distance l r _ => expression_contains_scalar l || expression_contains_scalar r
  | If cond then_expr else_expr =>
      expression_contains_scalar cond || expression_contains_scalar then_expr || expression_contains_scalar else_expr
  | Coalesce expressions | Least expressions | Greatest expressions => existsb expression_contains_scalar expressions
  | DateTrunc _ value | Round value _ => expression_contains_scalar value
  | DateAdd _ value amount => expression_contains_scalar value || expression_contains_scalar amount
  | RoundDiv numerator denominator _ => expression_contains_scalar numerator || expression_contains_scalar denominator
  | Not operand => expression_contains_scalar operand
  | Col _ | Lit _ | ClassOf _ | ScoreOf _ => false
  end.

(** ** Operators *)

Section Operators.
Context `{FloatEnv} {Operator : Type}.
Context (subquery_rows : Expr Operator → Chunk → gmap (list Z) nat → outcome (list Value)).

(** [ScalarExpressions::evaluate]. *)
Definition scalar_evaluate (expr : Expr Operator) (chunk : Chunk) (columns : gmap (list Z) nat) : outcome (list Value) :=
  if negb (expression_contains_scalar expr) then evaluate chunk columns expr else subquery_rows expr chunk columns.

Record Filter := mkFilter { f_upstream : source; f_predicate : Expr Operator; f_columns : gmap (list Z) nat }.

(** One iteration of the loop: the rows kept of one chunk, if any. *)
Definition filter_chunk (predicate : Expr Operator) (columns : gmap (list Z) nat) (chunk : Chunk) : outcome (option Chunk) :=
  let! predicate := scalar_evaluate predicate chunk columns in
  let! selected := selected_rows predicate in
  match selected with
  | [] => Ok None
  | _ => let! out := copy_rows chunk selected in Ok (Some out)
  end.

Fixpoint filter_pull (predicate : Expr Operator) (columns : gmap (list Z) nat) (upstream : source) :
    outcome (option Chunk) * source :=
  match upstream with
  | [] => (Ok None, [])
  | r :: rest =>
      match (let! chunk := r in filter_chunk predicate columns chunk) with
      | Ok None => filter_pull predicate columns rest
      | Ok (Some out) => (Ok (Some out), rest)
      | Err e => (Err e, rest)
      | Panic => (Panic, rest)
      end
  end.

Definition filter_next (self : Filter) : outcome (option Chunk) * Filter :=
  let '(r, upstream) := filter_pull (f_predicate self) (f_columns self) (f_upstream self) in
  (r, mkFilter upstream (f_predicate self) (f_columns self)).

Record Project := mkProject {
  j_upstream : source; j_exprs : list (Expr Operator * list Z); j_columns : gmap (list Z) nat; j_types : list LogicalType }.

Definition project_new (upstream : source) (exprs : list (Expr Operator * list Z)) (columns : gmap (list Z) nat)
    (types : list LogicalType) : outcome Project :=
  if negb (length exprs =? length types)%nat
  then Err (InvalidArgument "projection has {} expressions but {} output types")
  else Ok (mkProject upstream exprs columns types).

Definition project_chunk (exprs : list (Expr Operator * list Z)) (columns : gmap (list Z) nat) (types : list LogicalType)
    (chunk : Chunk) : outcome Chunk :=
  let! values := collect (λ '(expr, _), scalar_evaluate expr chunk columns) exprs in
  projected_chunk values types (row_count chunk).

Definition project_next (self : Project) : outcome (option Chunk) * Project :=
  let '(r, upstream) := pull (j_upstream self) in
  (let! r := r in
   match r with
   | None => Ok None
   | Some chunk => let! out := project_chunk (j_exprs self) (j_columns self) (j_types self) chunk in Ok (Some out)
   end, mkProject upstream (j_exprs self) (j_columns self) (j_types self)).

(** The counters are [u64]; a chunk's row count fits. *)
Record Limit := mkLimit { l_upstream : source; l_remaining : Z; l_offset : Z }.

Fixpoint limit_pull (remaining offset : Z) (upstream : source) : outcome (option Chunk) * Limit :=
  match upstream with
  | [] => (Ok None, mkLimit [] remaining offset)
  | r :: rest =>
      match r with
      | Ok chunk =>
          let rows := Z.of_nat (row_count chunk) in
          if rows <=? offset then limit_pull remaining (offset - rows) rest else
          let start := Z.to_nat offset in
          let available := (row_count chunk - start)%nat in
          let take := if Z.of_nat available <=? remaining then available else Z.to_nat remaining in
          (let! out := copy_rows chunk (seq start take) in Ok (Some out), mkLimit rest (remaining - Z.of_nat take) 0)
      | Err e => (Err e, mkLimit rest remaining offset)
      | Panic => (Panic, mkLimit rest remaining offset)
      end
  end.

Definition limit_next (self : Limit) : outcome (option Chunk) * Limit :=
  if l_remaining self =? 0 then (Ok None, self)
  else limit_pull (l_remaining self) (l_offset self) (l_upstream self).

(** ** Interface scans *)

(** [source()] opens a deferred input on first use; an input is what it opens
    to, and its factory is gone once it has failed. *)
Record InterfaceScanInput := mkInput { i_source : outcome source; i_projection : list nat; i_class_name : list Z }.
Record ScanInterface := mkScan { s_inputs : list InterfaceScanInput; s_types : list LogicalType }.

Definition check_projection (interface_types : list LogicalType) (input : InterfaceScanInput) (chunk : Chunk) : outcome unit :=
  if negb (length (i_projection input) =? length interface_types)%nat
  then Err (InvalidArgument "interface class `{}` projects {} columns into an interface with {} columns") else
  for_each (zip interface_types (i_projection input)) tt (λ _ '(output, source),
    let! actual := ok_or (types chunk !! source) (InvalidArgument "interface class `{}` projects missing chunk column {source}") in
    if bool_decide (actual = output) then Ok tt
    else Err (InvalidArgument "interface class `{}` projects chunk type {actual} where {output} is required")).

Definition interface_row (input : InterfaceScanInput) (chunk : Chunk) (row : nat) : outcome (list Value) :=
  let! projected := collect (λ column,
    let! v := value chunk row column in ok_or v (InvalidArgument "interface scan row is incomplete")) (i_projection input) in
  Ok (projected ++ [String (i_class_name input)]).

Definition interface_chunk (interface_types : list LogicalType) (input : InterfaceScanInput) (chunk : Chunk) : outcome Chunk :=
  let! _ := check_projection interface_types input chunk in
  let! builder := for_each (seq 0 (row_count chunk)) (builder_new (interface_types ++ [TString])) (λ builder row,
    let! projected := interface_row input chunk row in push_row builder projected) in
  finish builder.

Fixpoint interface_pull (interface_types : list LogicalType) (inputs : list InterfaceScanInput) :
    outcome (option Chunk) * list InterfaceScanInput :=
  match inputs with
  | [] => (Ok None, [])
  | input :: inputs' =>
      match i_source input with
      | Ok src =>
          match src with
          | [] => interface_pull interface_types inputs'
          | r :: rest =>
              (let! chunk := r in let! out := interface_chunk interface_types input chunk in Ok (Some out),
               mkInput (Ok rest) (i_projection input) (i_class_name input) :: inputs')
          end
      | Err e => (Err e, mkInput (Err (InvalidArgument "interface scan input has no source factory"))
                           (i_projection input) (i_class_name input) :: inputs')
      | Panic => (Panic, inputs)
      end
  end.

Definition interface_next (self : ScanInterface) : outcome (option Chunk) * ScanInterface :=
  let '(r, inputs) := interface_pull (s_types self) (s_inputs self) in (r, mkScan inputs (s_types self)).
End Operators.

(** ** Copying rows *)

Lemma holds_cell chunk rs j row i v :
  holds_rows chunk rs → rs !! j = Some row → row !! i = Some v → value chunk j i = Ok (Some v).
Proof. intros (_ & _ & _ & _ & Hc) Hj Hi. by destruct (Hc j row Hj) as [_ ?]; auto. Qed.

Lemma holds_width chunk rs j row : holds_rows chunk rs → rs !! j = Some row → length row = column_count chunk.
Proof. intros (Hw & _ & _ & _ & Hc) Hj. destruct (Hc j row Hj) as [Hm _]. by rewrite (Forall2_length _ _ _ Hm). Qed.

Lemma clone_row_holds chunk rs j row : holds_rows chunk rs → rs !! j = Some row → clone_row chunk j = Ok row.
Proof.
  intros Hh Hj. apply collect_Ok, Forall2_same_length_lookup_2.
  - rewrite length_seq. by erewrite holds_width.
  - intros i i' v [-> _]%lookup_seq Hv. simpl. by erewrite holds_cell.
Qed.

(** The rows at the positions [idx]. *)
Definition pick_rows (rs : list (list Value)) (idx : list nat) : list (list Value) := omap (λ j, rs !! j) idx.

(** Pushing rows that are each available and of the right types. *)
Lemma push_all_holds {A} tys (get : A → outcome (list Value)) xs rs : ∀ done_ b,
  Forall2 (λ x row, get x = Ok row ∧ Forall2 (λ v ty, matches_type v ty = true) row tys) xs rs →
  builder_holds tys done_ b → (length done_ + length rs ≤ CHUNK_CAPACITY)%nat →
  ∃ b', for_each xs b (λ b x, let! row := get x in push_row b row) = Ok b' ∧ builder_holds tys (done_ ++ rs) b'.
Proof.
  intros done_ b Hx. revert done_ b. induction Hx as [|x row xs rs [Hg Hm] _ IH]; intros done_ b Hb Hlen; [exists b; by rewrite app_nil_r|].
  simpl in Hlen. destruct (push_row_accepts tys done_ b row) as (b1 & Hp & Hb1); [done|done|lia|].
  destruct (IH (done_ ++ [row]) b1) as (b' & Hb' & Hh); [done|rewrite length_app; simpl; lia|].
  exists b'. cbn [for_each]. rewrite Hg. cbn [bind]. rewrite Hp. cbn [bind]. split; [done|]. by rewrite <- app_assoc in Hh.
Qed.

Lemma pick_rows_spec chunk rs idx :
  holds_rows chunk rs → Forall (λ j, j < length rs)%nat idx →
  Forall2 (λ j row, clone_row chunk j = Ok row ∧ Forall2 (λ v ty, matches_type v ty = true) row (types chunk)) idx (pick_rows rs idx).
Proof.
  intros Hh. pose proof Hh as (_ & _ & _ & _ & Hc). induction 1 as [|j idx Hj _ IH]; [constructor|].
  unfold pick_rows. cbn [omap list_omap]. fold (pick_rows rs idx). destruct (lookup_lt_is_Some_2 rs j Hj) as [row Hr]. rewrite Hr.
  constructor; [|done]. split; [by eapply clone_row_holds|]. by apply (Hc j).
Qed.

Lemma copy_rows_spec chunk rs idx :
  holds_rows chunk rs → Forall (λ j, j < length rs)%nat idx → (length idx ≤ CHUNK_CAPACITY)%nat →
  ∃ out, copy_rows chunk idx = Ok out ∧ types out = types chunk ∧ holds_rows out (pick_rows rs idx).
Proof.
  intros Hh Hi Hl. pose proof (pick_rows_spec chunk rs idx Hh Hi) as Hp.
  destruct (push_all_holds (types chunk) (clone_row chunk) idx (pick_rows rs idx) [] (builder_new (types chunk)) Hp) as (b & Hb & Hholds).
  { apply builder_new_holds. }
  { simpl. by rewrite <- (Forall2_length _ _ _ Hp). }
  destruct (finish_holds _ _ _ Hholds) as (out & Hout & Ht & Hr). exists out. split_and!; [|done|done].
  unfold copy_rows. rewrite Hb. exact Hout.
Qed.

(** ** What an expression means on a row of values *)

Definition row_chunk (tys : list LogicalType) (row : list Value) : Chunk :=
  mkChunk tys ((λ v, Boxed [v]) <$> row) 1.

Section RowSemantics.
Context `{FloatEnv} {Operator : Type} (tys : list LogicalType) (columns : gmap (list Z) nat).

Definition eval_values (e : Expr Operator) (row : list Value) : outcome Value :=
  eval_row (row_chunk tys row) columns e 0.

Context (chunk : Chunk) (rs : list (list Value)) (j : nat) (row : list Value).
Hypothesis Hholds : holds_rows chunk rs.
Hypothesis Htypes : types chunk = tys.
Hypothesis Hrow : rs !! j = Some row.

Lemma row_column index :
  match column chunk index, column (row_chunk tys row) index with
  | Some col, Some col' => ∃ v, (column_len col <=? j)%nat = false ∧ value_at col j = Ok v ∧ col' = Boxed [v] ∧
      value chunk j index = Ok (Some v) ∧ value (row_chunk tys row) 0 index = Ok (Some v)
  | None, None => value chunk j index = Ok None ∧ value (row_chunk tys row) 0 index = Ok None
  | _, _ => False
  end.
Proof.
  pose proof (holds_width chunk rs j row Hholds Hrow) as Hw. unfold column, column_count, value in *. cbn [Expr.columns row_chunk].
  rewrite list_lookup_fmap. destruct (row !! index) as [v|] eqn:Hv; cbn [fmap option_fmap option_map].
  - pose proof (holds_cell chunk rs j row index v Hholds Hrow Hv) as Hc. unfold value in Hc.
    destruct (Expr.columns chunk !! index) as [col|]; [|done].
    destruct (column_len col <=? j)%nat; [done|]. destruct (value_at col j) as [w| |]; try done. simpl in Hc. injection Hc as ->.
    by exists v.
  - apply lookup_ge_None in Hv. by rewrite (proj2 (lookup_ge_None (Expr.columns chunk) index)) by lia.
Qed.

Lemma leaf_local :
  (∀ r, single (evaluate_column chunk columns r) j = single (evaluate_column (row_chunk tys row) columns r) 0) ∧
  (∀ b, single (evaluate_classof chunk columns b) j = single (evaluate_classof (row_chunk tys row) columns b) 0) ∧
  (∀ b, single (evaluate_scoreof chunk columns b) j = single (evaluate_scoreof (row_chunk tys row) columns b) 0).
Proof.
  split_and!; intros x; unfold single, evaluate_column, evaluate_classof, evaluate_scoreof.
  - destruct (columns !! x) as [i|]; cbn [ok_or bind]; [|done]. pose proof (row_column i) as Hc.
    destruct (column chunk i), (column (row_chunk tys row) i); try done; cbn [ok_or bind collect].
    destruct Hc as (v & -> & -> & -> & _). done.
  - destruct (columns !! _) as [i|]; cbn [ok_or bind]; [|done]. pose proof (row_column i) as Hc.
    destruct (column chunk i), (column (row_chunk tys row) i); try done; cbn [ok_or bind collect].
    destruct Hc as (v & -> & -> & -> & _). done.
  - destruct (columns !! _) as [i|]; cbn [ok_or bind collect]; [|done]. pose proof (row_column i) as Hc.
    destruct (column chunk i), (column (row_chunk tys row) i); try done.
    + by destruct Hc as (v & _ & _ & _ & -> & ->).
    + by destruct Hc as (-> & ->).
Qed.

Lemma precision_local (e : Expr Operator) : decimal_precision chunk columns e = decimal_precision (row_chunk tys row) columns e.
Proof. unfold decimal_precision, column_types. by rewrite Htypes. Qed.

Lemma operands_local (es : list (Expr Operator)) :
  Forall (λ e, eval_row chunk columns e j = eval_values e row) es →
  first_non_null (eval_row chunk columns <$> es) j = first_non_null (eval_row (row_chunk tys row) columns <$> es) 0 ∧
  ∀ replacement, extremum replacement (eval_row chunk columns <$> es) j = extremum replacement (eval_row (row_chunk tys row) columns <$> es) 0.
Proof.
  intros Hes. split.
  - induction Hes as [|e es He _ IH]; [done|]. cbn [fmap list_fmap first_non_null]. rewrite He. unfold eval_values.
    destruct (eval_row (row_chunk tys row) columns e 0) as [v| |]; [|done..]. simpl. by destruct v.
  - intros replacement. unfold extremum. generalize Null. induction Hes as [|e es He _ IH]; intros cur; [done|].
    cbn [fmap list_fmap for_each]. rewrite He. apply bind_ext. intros v. apply IH.
Qed.

(** An expression's value on a row depends only on the row's values. *)
Lemma eval_row_local (e : Expr Operator) : eval_row chunk columns e j = eval_values e row.
Proof.
  destruct leaf_local as (Hcol & Hclass & Hscore). unfold eval_values.
  induction e using Expr_ind'; cbn [eval_row]; rewrite ?IHe, ?IHe1, ?IHe2, ?IHe3; auto.
  - by rewrite (proj1 (operands_local es ltac:(done))).
  - by rewrite (proj2 (operands_local es ltac:(done))).
  - by rewrite (proj2 (operands_local es ltac:(done))).
  - apply bind_ext. intros v. by rewrite precision_local.
  - apply bind_ext. intros v. apply bind_ext. intros w. unfold round_div_precision. by rewrite !precision_local.
Qed.
End RowSemantics.

(** ** What the operators deliver *)

(** A source that delivers the rows [rs] of types [tys] and then ends; the
    chunks are not empty. *)
Inductive delivers (tys : list LogicalType) : source → list (list Value) → Prop :=
| delivers_nil : delivers tys [] []
| delivers_cons chunk rs src rest :
    types chunk = tys → rs ≠ [] → holds_rows chunk rs → delivers tys src rest → delivers tys (Ok chunk :: src) (rs ++ rest).

Section Specs.
Context `{FloatEnv} {Operator : Type} (subquery_rows : Expr Operator → Chunk → gmap (list Z) nat → outcome (list Value)).

Lemma agrees_total {A B} (rows : list A) (m : outcome (list B)) f vs :
  agrees rows m f → Forall2 (λ row v, f row = Ok v) rows vs → m = Ok vs.
Proof.
  intros Ha Hvs. destruct m as [ws|e|]; simpl in Ha.
  - f_equal. apply (Forall2_unique _ _ _ _ Ha Hvs). intros x y1 y2 -> [= ->]. done.
  - destruct Ha as (row & Hin & Hr). apply list_elem_of_lookup in Hin as [i Hi].
    destruct (Forall2_lookup_l _ _ _ _ _ Hvs Hi) as (v & _ & Hv). congruence.
  - destruct Ha as (row & Hin & Hr). apply list_elem_of_lookup in Hin as [i Hi].
    destruct (Forall2_lookup_l _ _ _ _ _ Hvs Hi) as (v & _ & Hv). congruence.
Qed.

(** Evaluating over a chunk is evaluating its rows. *)
Lemma evaluate_values chunk rs columns (e : Expr Operator) vs :
  holds_rows chunk rs → rs ≠ [] → Forall2 (λ row v, eval_values (types chunk) columns e row = Ok v) rs vs →
  evaluate chunk columns e = Ok vs.
Proof.
  intros Hh Hne Hvs. pose proof Hh as (_ & Hn & _). unfold evaluate. rewrite Hn.
  eapply agrees_total; [apply evaluate_implements; by destruct rs|].
  apply Forall2_same_length_lookup_2; [by rewrite length_seq, (Forall2_length _ _ _ Hvs)|].
  intros j j' v [-> Hj]%lookup_seq Hv. destruct (lookup_lt_is_Some_2 rs j Hj) as [row Hr]. simpl.
  rewrite (eval_row_local (types chunk) columns chunk rs j row Hh eq_refl Hr).
  exact (Forall2_lookup_lr _ _ _ _ _ _ Hvs Hr Hv).
Qed.

(** *** Filter *)

Definition is_condition (v : Value) : bool := match v with Bool _ | Null => true | _ => false end.
Definition is_true (v : Value) : bool := match v with Bool true => true | _ => false end.

Definition keeps (tys : list LogicalType) (columns : gmap (list Z) nat) (e : Expr Operator) (row : list Value) : bool :=
  match eval_values tys columns e row with Ok v => is_true v | _ => false end.

Definition true_positions (k : nat) (vs : list Value) : list nat :=
  omap (λ '(j, v), if is_true v then Some j else None) (enumerate_from k vs).

Lemma selected_rows_spec vs : ∀ k acc, Forall (λ v, is_condition v = true) vs →
  for_each (enumerate_from k vs) acc (λ selected '(row, value),
    match value with
    | Bool true => Ok (selected ++ [row])
    | Bool false | Null => Ok selected
    | _ => Err (InvalidArgument "filter predicate evaluated to non-Bool value {value} at row {row}")
    end) = Ok (acc ++ true_positions k vs).
Proof.
  induction vs as [|v vs IH]; intros k acc Hv; [by rewrite app_nil_r|]. apply Forall_cons in Hv as [Hc Hv].
  rewrite enumerate_from_cons. unfold true_positions. rewrite enumerate_from_cons. cbn [for_each omap list_omap].
  fold (true_positions (S k) vs). destruct v as [|[]| | | | | | | | |]; try done; cbn [is_true bind].
  - apply IH, Hv.
  - rewrite IH by done. by rewrite <- app_assoc.
  - apply IH, Hv.
Qed.

Lemma true_positions_bound vs k j : j ∈ true_positions k vs → (k ≤ j < k + length vs)%nat.
Proof.
  unfold true_positions. intros ([i v] & Hx & Hi)%list_elem_of_omap. apply list_elem_of_lookup in Hx as [n Hn].
  unfold enumerate_from in Hn. apply lookup_zip_Some in Hn as [Hs Hv]. apply lookup_seq in Hs as [-> ?]. simpl in Hi.
  destruct (is_true v); [|done]. injection Hi as <-. lia.
Qed.

Lemma pick_true full rs vs tys columns e k :
  Forall2 (λ row v, eval_values tys columns e row = Ok v) rs vs → (∀ i row, rs !! i = Some row → full !! (k + i)%nat = Some row) →
  pick_rows full (true_positions k vs) = filter (λ row, keeps tys columns e row = true) rs.
Proof.
  intros Hvs. revert k. induction Hvs as [|row v rs vs Hv _ IH]; intros k Hfull; [done|].
  unfold true_positions. rewrite enumerate_from_cons. cbn [omap list_omap]. fold (true_positions (S k) vs).
  assert (keeps tys columns e row = is_true v) as Hk by (unfold keeps; by rewrite Hv).
  assert (pick_rows full (true_positions (S k) vs) = filter (λ row, keeps tys columns e row = true) rs) as Hrest.
  { apply IH. intros i r Hi. rewrite <- (Hfull (S i) r Hi). f_equal. lia. }
  rewrite filter_cons. destruct (is_true v) eqn:Et.
  - rewrite decide_True by (by rewrite Hk). unfold pick_rows. cbn [omap list_omap]. fold (pick_rows full (true_positions (S k) vs)).
    rewrite <- (Nat.add_0_r k) at 1. rewrite (Hfull 0%nat row eq_refl). by rewrite Hrest.
  - rewrite decide_False by (by rewrite Hk). done.
Qed.

Lemma filter_chunk_spec chunk rs columns e vs :
  expression_contains_scalar e = false → holds_rows chunk rs → rs ≠ [] →
  Forall2 (λ row v, eval_values (types chunk) columns e row = Ok v) rs vs → Forall (λ v, is_condition v = true) vs →
  let kept := filter (λ row, keeps (types chunk) columns e row = true) rs in
  (kept = [] ∧ filter_chunk subquery_rows e columns chunk = Ok None) ∨
  (kept ≠ [] ∧ ∃ out, filter_chunk subquery_rows e columns chunk = Ok (Some out) ∧ types out = types chunk ∧ holds_rows out kept).
Proof.
  intros Hns Hh Hne Hvs Hc kept. unfold filter_chunk, scalar_evaluate. rewrite Hns. cbn [negb].
  rewrite (evaluate_values chunk rs columns e vs) by done. cbn [bind]. unfold selected_rows, enumerate.
  rewrite (selected_rows_spec vs 0 []) by done. cbn [bind app].
  pose proof (pick_true rs rs vs (types chunk) columns e 0 Hvs ltac:(done)) as Hp. fold kept in Hp.
  assert (Forall (λ j, j < length rs)%nat (true_positions 0 vs)) as Hb.
  { apply Forall_forall. intros j Hj%true_positions_bound. rewrite (Forall2_length _ _ _ Hvs). lia. }
  pose proof (Forall2_length _ _ _ (pick_rows_spec chunk rs _ Hh Hb)) as Hl. rewrite Hp in Hl.
  pose proof Hh as (_ & _ & Hcap & _). assert (length kept ≤ length rs)%nat as Hk by apply length_filter.
  destruct (true_positions 0 vs) as [|j js] eqn:E.
  - left. split; [|done]. by destruct kept.
  - right. split; [by intros ->|]. rewrite <- E in *. destruct (copy_rows_spec chunk rs (true_positions 0 vs) Hh Hb) as (out & Ho & Ht & Hr); [lia|].
    exists out. rewrite Ho. rewrite Hp in Hr. by destruct (true_positions 0 vs).
Qed.
Lemma filter_delivers tys src rs columns e : ∀ fuel,
  expression_contains_scalar e = false → delivers tys src rs →
  Forall (λ row, ∃ v, eval_values tys columns e row = Ok v ∧ is_condition v = true) rs → (length src < fuel)%nat →
  delivers tys (trace (filter_next subquery_rows) fuel (mkFilter src e columns)) (filter (λ row, keeps tys columns e row = true) rs).
Proof.
  intros fuel Hns Hd. revert fuel. induction Hd as [|chunk rs src rest Hty Hne Hh _ IH]; intros [|fuel] Hall Hf; simpl in Hf; try lia; [constructor|].
  apply Forall_app in Hall as [Hrs Hrest].
  assert (∃ vs, Forall2 (λ row v, eval_values (types chunk) columns e row = Ok v) rs vs ∧ Forall (λ v, is_condition v = true) vs) as (vs & Hvs & Hc).
  { rewrite Hty. clear -Hrs. induction Hrs as [|row rs (v & Hv & Hc) _ (vs & ? & ?)]; [by exists []|]. exists (v :: vs). by split; constructor. }
  rewrite filter_app. destruct (filter_chunk_spec chunk rs columns e vs Hns Hh Hne Hvs Hc) as [[Hk Hfc]|(Hk & out & Hfc & Hto & Hho)]; rewrite Hty in Hk.
  - rewrite Hk. simpl app.
    replace (trace (filter_next subquery_rows) (S fuel) (mkFilter (Ok chunk :: src) e columns))
      with (trace (filter_next subquery_rows) (S fuel) (mkFilter src e columns)); [apply IH; [done|lia]|].
    cbn [trace]. unfold filter_next at 1 3. cbn [filter_pull f_upstream f_predicate f_columns bind]. by rewrite Hfc.
  - cbn [trace]. unfold filter_next at 1. cbn [filter_pull f_upstream f_predicate f_columns bind]. rewrite Hfc.
    rewrite Hty in Hho. constructor; [congruence|done|done|]. apply IH; [done|lia].
Qed.
(** *** Projection *)

Definition project_row {B : Type} (tys : list LogicalType) (columns : gmap (list Z) nat) (exprs : list (Expr Operator * B))
    (row : list Value) : outcome (list Value) :=
  collect (λ '(e, _), eval_values tys columns e row) exprs.

Lemma project_split {B : Type} tys columns e (name : B) exprs rs outs :
  Forall2 (λ row out, project_row tys columns ((e, name) :: exprs) row = Ok out) rs outs →
  ∃ vs outs', Forall2 (λ row v, eval_values tys columns e row = Ok v) rs vs ∧
    Forall2 (λ row out, project_row tys columns exprs row = Ok out) rs outs' ∧
    ∀ j out, outs !! j = Some out → ∃ v out', out = v :: out' ∧ vs !! j = Some v ∧ outs' !! j = Some out'.
Proof.
  induction 1 as [|row out rs outs Hr _ (vs & outs' & Hv & Ho & Hj)]; [by exists [], []|].
  unfold project_row in Hr. cbn [collect] in Hr. apply bind_Ok in Hr as (v & Hev & (out' & Hout & [= <-])%bind_Ok).
  exists (v :: vs), (out' :: outs'). split_and!; [by constructor..|]. intros [|j] o Hoj; simpl in *; [|by apply Hj].
  injection Hoj as <-. by exists v, out'.
Qed.

Lemma project_columns {B : Type} tys columns (exprs : list (Expr Operator * B)) rs : ∀ outs,
  Forall2 (λ row out, project_row tys columns exprs row = Ok out) rs outs →
  ∃ vss, Forall2 (λ ex vs, Forall2 (λ row v, eval_values tys columns ex.1 row = Ok v) rs vs) exprs vss ∧
    ∀ j out, outs !! j = Some out → Forall2 (λ vs v, vs !! j = Some v) vss out.
Proof.
  induction exprs as [|[e name] exprs IH]; intros outs Ho.
  - exists []. split; [done|]. intros j out Hj. destruct (Forall2_lookup_r _ _ _ _ _ Ho Hj) as (row & _ & [= <-]). constructor.
  - destruct (project_split tys columns e name exprs rs outs Ho) as (vs & outs' & Hv & Ho' & Hj). destruct (IH outs' Ho') as (vss & Hvss & Hc).
    exists (vs :: vss). split; [by constructor|]. intros j out Hout. destruct (Hj j out Hout) as (v & out' & -> & ? & ?).
    constructor; [done|]. by apply Hc.
Qed.

(** The columns of scalar-free expressions. *)
Lemma scalar_columns {B : Type} chunk rs columns (exprs : list (Expr Operator * B)) vss :
  forallb (λ ex, negb (expression_contains_scalar ex.1)) exprs = true → holds_rows chunk rs → rs ≠ [] →
  Forall2 (λ ex vs, Forall2 (λ row v, eval_values (types chunk) columns ex.1 row = Ok v) rs vs) exprs vss →
  collect (λ '(expr, _), scalar_evaluate subquery_rows expr chunk columns) exprs = Ok vss.
Proof.
  intros Hns Hh Hne Hvss. apply collect_Ok. revert Hns. induction Hvss as [|[e name] vs exprs vss Hv _ IH]; intros Hns; [constructor|].
  cbn [forallb fst] in Hns. apply andb_true_iff in Hns as [He Hns]. constructor; [|by apply IH].
  unfold scalar_evaluate. rewrite He. by apply (evaluate_values chunk rs).
Qed.

Lemma project_chunk_spec chunk rs columns exprs otys outs :
  forallb (λ ex, negb (expression_contains_scalar ex.1)) exprs = true → holds_rows chunk rs → rs ≠ [] →
  Forall2 (λ row out, project_row (types chunk) columns exprs row = Ok out) rs outs →
  Forall (λ out, Forall2 (λ v ty, matches_type v ty = true) out otys) outs →
  ∃ out, project_chunk subquery_rows exprs columns otys chunk = Ok out ∧ types out = otys ∧ holds_rows out outs.
Proof.
  intros Hns Hh Hne Ho Hm. pose proof (Forall2_length _ _ _ Ho) as Hl. pose proof Hh as (_ & Hn & Hcap & _).
  destruct (project_columns (types chunk) columns exprs rs outs Ho) as (vss & Hvss & Hc).
  unfold project_chunk. rewrite (scalar_columns chunk rs columns exprs vss) by done. cbn [bind]. unfold projected_chunk. rewrite Hn.
  destruct (push_all_holds otys (λ row, collect (λ column : list Value,
      ok_or (column !! row) (InvalidArgument "projection expression returned fewer than {row_count} rows")) vss)
    (seq 0 (length rs)) outs [] (builder_new otys)) as (b & Hb & Hholds).
  - apply Forall2_same_length_lookup_2; [by rewrite length_seq|]. intros j j' out [-> _]%lookup_seq Hj. split.
    + apply collect_Ok. eapply Forall2_impl; [by apply (Hc j)|]. intros vs v Hv. simpl. by rewrite Hv.
    + rewrite Forall_forall in Hm. apply Hm. by eapply list_elem_of_lookup_2.
  - apply builder_new_holds.
  - simpl. lia.
  - rewrite Hb. cbn [bind]. destruct (finish_holds _ _ _ Hholds) as (out & Hf & Ht & Hr). by exists out.
Qed.

Lemma project_delivers tys src rs columns exprs otys outs : ∀ fuel,
  forallb (λ ex, negb (expression_contains_scalar ex.1)) exprs = true → delivers tys src rs →
  Forall2 (λ row out, project_row tys columns exprs row = Ok out) rs outs →
  Forall (λ out, Forall2 (λ v ty, matches_type v ty = true) out otys) outs → (length src < fuel)%nat →
  delivers otys (trace (project_next subquery_rows) fuel (mkProject src exprs columns otys)) outs.
Proof.
  intros fuel Hns Hd. revert fuel outs. induction Hd as [|chunk rs src rest Hty Hne Hh _ IH]; intros [|fuel] outs Ho Hm Hf; simpl in Hf; try lia.
  { apply Forall2_nil_inv_l in Ho as ->. constructor. }
  apply Forall2_app_inv_l in Ho as (o1 & o2 & Ho1 & Ho2 & ->). apply Forall_app in Hm as [Hm1 Hm2]. rewrite <- Hty in Ho1.
  destruct (project_chunk_spec chunk rs columns exprs otys o1 Hns Hh Hne Ho1 Hm1) as (out & Hp & Ht & Hr).
  cbn [trace]. unfold project_next at 1. cbn [pull j_upstream j_exprs j_columns j_types bind]. rewrite Hp. cbn [bind].
  constructor; [done| |done|].
  - intros ->. apply Forall2_nil_inv_r in Ho1. done.
  - apply IH; [done|done|lia].
Qed.

(** *** Limit *)

Lemma pick_seq rs start n : pick_rows rs (seq start n) = take n (drop start rs).
Proof.
  revert start. induction n as [|n IH]; intros start; [done|]. unfold pick_rows. cbn [seq omap list_omap]. fold (pick_rows rs (seq (S start) n)).
  rewrite IH. destruct (rs !! start) as [row|] eqn:Hr.
  - by rewrite (drop_S rs row start Hr).
  - apply lookup_ge_None in Hr. rewrite !drop_ge by lia. by rewrite take_nil.
Qed.

Lemma limit_delivers tys src rs : ∀ fuel remaining offset,
  delivers tys src rs → 0 ≤ remaining → 0 ≤ offset → (length src < fuel)%nat →
  delivers tys (trace limit_next fuel (mkLimit src remaining offset)) (take (Z.to_nat remaining) (drop (Z.to_nat offset) rs)).
Proof.
  intros fuel remaining offset Hd. revert fuel remaining offset.
  induction Hd as [|chunk rs src rest Hty Hne Hh _ IH]; intros [|fuel] remaining offset Hr Ho Hf; simpl in Hf; try lia.
  { rewrite drop_nil, take_nil. cbn [trace]. unfold limit_next. cbn [l_remaining limit_pull l_upstream]. destruct (remaining =? 0); constructor. }
  cbn [trace]. unfold limit_next at 1. cbn [l_remaining l_upstream l_offset]. destruct (remaining =? 0) eqn:E0.
  { apply Z.eqb_eq in E0 as ->. rewrite take_0. constructor. }
  apply Z.eqb_neq in E0. cbn [limit_pull]. pose proof Hh as (_ & Hn & Hcap & _). rewrite Hn.
  destruct (Z.of_nat (length rs) <=? offset) eqn:Es; reflect_bools.
  - rewrite drop_app_ge by lia. replace (Z.to_nat offset - length rs)%nat with (Z.to_nat (offset - Z.of_nat (length rs))) by lia.
    specialize (IH (S fuel) remaining (offset - Z.of_nat (length rs)) Hr ltac:(lia) ltac:(lia)).
    revert IH. cbn [trace]. unfold limit_next at 1. cbn [l_remaining l_upstream l_offset]. by rewrite (proj2 (Z.eqb_neq _ _)).
  - set (start := Z.to_nat offset). set (n := if Z.of_nat (length rs - start) <=? remaining then (length rs - start)%nat else Z.to_nat remaining).
    assert (0 < n)%nat as Hn0 by (unfold n, start; case_match; lia).
    assert (start + n ≤ length rs)%nat as Hn1 by (unfold n, start; case_match; reflect_bools; lia).
    assert (n = Z.to_nat remaining `min` (length rs - start))%nat as Hmin by (unfold n; case_match; reflect_bools; lia).
    destruct (copy_rows_spec chunk rs (seq start n) Hh) as (out & Hc & Ht & Hout); [apply Forall_seq; lia|rewrite length_seq; lia|].
    rewrite Hc. cbn [bind]. rewrite pick_seq in Hout. rewrite drop_app_le, take_app by lia. rewrite length_drop.
    replace (take (Z.to_nat remaining) (drop start rs)) with (take n (drop start rs)).
    2: { rewrite Hmin, <- take_take. f_equal. rewrite take_ge; [done|]. rewrite length_drop. lia. }
    constructor; [congruence| |done|].
    + intros Hnil. apply (f_equal length) in Hnil. rewrite length_take, length_drop in Hnil. simpl in Hnil. lia.
    + replace (Z.to_nat remaining - (length rs - start))%nat with (Z.to_nat (remaining - Z.of_nat n)) by lia.
      rewrite <- (drop_0 rest) at 1. apply (IH fuel (remaining - Z.of_nat n) 0); lia.
Qed.
End Specs.

(** ** Pipelines *)

(** The stages the executor stacks on a source. *)
Inductive stage (Operator : Type) :=
| SFilter (columns : gmap (list Z) nat) (predicate : Expr Operator)
| SProject (columns : gmap (list Z) nat) (exprs : list (Expr Operator * list Z)) (types : list LogicalType)
| SLimit (count offset : Z).
Arguments SFilter {_} _ _.
Arguments SProject {_} _ _ _.
Arguments SLimit {_} _ _.

Section Pipelines.
Context `{FloatEnv} {Operator : Type} (subquery_rows : Expr Operator → Chunk → gmap (list Z) nat → outcome (list Value)).

(** Stacking one operator on a source and draining it. *)
Definition run_stage (src : source) (st : stage Operator) : source :=
  let fuel := S (length src) in
  match st with
  | SFilter columns e => trace (filter_next subquery_rows) fuel (mkFilter src e columns)
  | SProject columns exprs otys =>
      match project_new src exprs columns otys with
      | Ok self => trace (project_next subquery_rows) fuel self
      | Err e => [Err e]
      | Panic => [Panic]
      end
  | SLimit count offset => trace limit_next fuel (mkLimit src count offset)
  end.

(** The stage on whole rows, without chunks: it fails where a row fails. *)
Definition spec_stage (input : list LogicalType * list (list Value)) (st : stage Operator) :
    outcome (list LogicalType * list (list Value)) :=
  let '(tys, rows) := input in
  match st with
  | SFilter columns e =>
      let! vs := collect (eval_values tys columns e) rows in
      if forallb is_condition vs then Ok (tys, filter (λ row, keeps tys columns e row = true) rows)
      else Err (InvalidArgument "filter predicate evaluated to non-Bool value {value} at row {row}")
  | SProject columns exprs otys =>
      if negb (length exprs =? length otys)%nat
      then Err (InvalidArgument "projection has {} expressions but {} output types") else
      let! outs := collect (project_row tys columns exprs) rows in
      if forallb (λ out, forallb (λ '(v, ty), matches_type v ty) (zip out otys)) outs then Ok (otys, outs)
      else Err (InvalidArgument "projected value does not match its column type")
  | SLimit count offset => Ok (tys, take (Z.to_nat count) (drop (Z.to_nat offset) rows))
  end.

(** No scalar subqueries, and [u64] limits. *)
Definition plain_stage (st : stage Operator) : bool :=
  match st with
  | SFilter _ e => negb (expression_contains_scalar e)
  | SProject _ exprs _ => forallb (λ ex, negb (expression_contains_scalar ex.1)) exprs
  | SLimit count offset => (0 <=? count) && (0 <=? offset)
  end.

Lemma project_row_width tys columns (exprs : list (Expr Operator * list Z)) row out :
  project_row tys columns exprs row = Ok out → length out = length exprs.
Proof. intros Ho%collect_Ok. by rewrite (Forall2_length _ _ _ Ho). Qed.

Lemma matches_zip (vs : list Value) tys :
  length vs = length tys → forallb (λ '(v, ty), matches_type v ty) (zip vs tys) = true → Forall2 (λ v ty, matches_type v ty = true) vs tys.
Proof.
  revert tys. induction vs as [|v vs IH]; intros [|ty tys] Hl Hz; try done. cbn [zip zip_with forallb] in Hz.
  apply andb_true_iff in Hz as [? ?]. constructor; [done|]. by apply IH; [injection Hl|].
Qed.

Lemma stage_refines tys src rows st tys' rows' :
  plain_stage st = true → delivers tys src rows → spec_stage (tys, rows) st = Ok (tys', rows') → delivers tys' (run_stage src st) rows'.
Proof.
  intros Hp Hd Hs. destruct st as [columns e|columns exprs otys|count offset]; cbn [plain_stage spec_stage run_stage] in *.
  - apply bind_Ok in Hs as (vs & Hvs & Hs). destruct (forallb is_condition vs) eqn:Hc; [|done]. injection Hs as <- <-.
    apply filter_delivers; [by apply negb_true_iff|done| |lia]. apply collect_Ok in Hvs.
    clear -Hvs Hc. induction Hvs as [|row v rows vs Hv _ IH]; [constructor|]. apply andb_true_iff in Hc as [Hv' Hc].
    constructor; [|by apply IH]. by exists v.
  - unfold project_new. destruct (negb _) eqn:Hl; [done|]. apply negb_false_iff, Nat.eqb_eq in Hl.
    apply bind_Ok in Hs as (outs & Ho & Hs). destruct (forallb _ outs) eqn:Hm; [|done]. injection Hs as <- <-.
    apply collect_Ok in Ho. apply (project_delivers subquery_rows tys src rows columns exprs otys outs); [done|done|done| |lia].
    rewrite forallb_forall in Hm. apply Forall_forall. intros out Hin. apply matches_zip; [|by apply Hm, list_elem_of_In].
    apply list_elem_of_lookup in Hin as [i Hi]. destruct (Forall2_lookup_r _ _ _ _ _ Ho Hi) as (row & _ & Hr).
    by rewrite (project_row_width _ _ _ _ _ Hr).
  - apply andb_true_iff in Hp as [? ?]. reflect_bools. injection Hs as <- <-. apply limit_delivers; [done|lia..].
Qed.

(** C14: a stack of filters, projections and limits over a chunked source
    delivers exactly the rows the stages give on the whole row list, in order and
    in non-empty chunks, whatever the chunk boundaries of the source are,
    and ends: every error of the row-level reading aside, no chunking error can
    appear. *)
Theorem pipeline_refines (stages : list (stage Operator)) : ∀ tys src rows tys' rows',
  forallb plain_stage stages = true → delivers tys src rows →
  for_each stages (tys, rows) spec_stage = Ok (tys', rows') →
  delivers tys' (foldl run_stage src stages) rows'.
Proof.
  induction stages as [|st stages IH]; intros tys src rows tys' rows' Hp Hd Hs; cbn [forallb for_each foldl] in *.
  - by injection Hs as <- <-.
  - apply andb_true_iff in Hp as [Hst Hp]. apply bind_Ok in Hs as ([tys1 rows1] & H1 & Hs).
    by apply (IH tys1 (run_stage src st) rows1); [|eapply stage_refines|].
Qed.
End Pipelines.

(** Rows 0 5 | 7 9 in two chunks, [n.x > 3], [10 + n.x], limit 1 offset 1. *)
Definition pipeline_source : source :=
  [Ok (mkChunk [TInt64] [CInt64 [0; 5] None] 2); Ok (mkChunk [TInt64] [CInt64 [7; 9] None] 2)].
Definition pipeline_stages : list (stage Empty_set) :=
  [SFilter witness_columns (Binary OpGt (Col [110; 46; 120]) (Lit (Int64 3)));
   SProject witness_columns [(Binary OpAdd (Lit (Int64 10)) (Col [110; 46; 120]), [121])] [TInt64];
   SLimit 1 1].

Lemma pipeline_source_delivers : delivers [TInt64] pipeline_source [[Int64 0]; [Int64 5]; [Int64 7]; [Int64 9]].
Proof.
  assert (∀ a b, holds_rows (mkChunk [TInt64] [CInt64 [a; b] None] 2) [[Int64 a]; [Int64 b]]) as Hh.
  { intros a b. split_and!; try done; [vm_compute; lia|].
    - intros [|[|j]] row Hj; try done; injection Hj as <-; (split; [by repeat constructor|]); intros [|i] v Hi; try done; by injection Hi as <-. }
  apply (delivers_cons _ _ [_; _] _ [_; _]); [done|done|apply Hh|]. apply (delivers_cons _ _ [_; _] _ []); [done|done|apply Hh|constructor].
Qed.

Lemma pipeline_refines_witness :
  delivers [TInt64] (foldl (run_stage (λ _ _ _, Panic)) pipeline_source pipeline_stages) [[Int64 17]].
Proof.
  apply (pipeline_refines (λ _ _ _, Panic) pipeline_stages [TInt64] pipeline_source [[Int64 0]; [Int64 5]; [Int64 7]; [Int64 9]]).
  - vm_compute. reflexivity.
  - exact pipeline_source_delivers.
  - vm_compute. reflexivity.
Defined.
