(* ===== verification/SortOp.v ===== *)
(** The blocking sort of [devondb-exec/src/operators.rs]: rows buffered against
    the memory budget, spilled as sorted runs when a charge is refused, and
    merged back run by run.

    The budget is shared with the rest of the process, so its answers are the
    parameter [grants]: the answer to the [n]-th request.  What this operator
    holds is state, and releasing more than it holds is a panic, which is the
    obligation [Budget.v] puts on a thread.  The file system is the parameter
    [run_io]: whether run [n] can be created and written; a run that was
    written reads back. *)

From stdpp Require Import sorting.
From S2P Require Import Prelude Bytes Decimal Types Codec F64 Expr Typing Eval EvalRow Spill Sorting Operators.

(** ** Rows and keys *)

Inductive SortOrder := Asc | Desc.
Record SortRow := mkSortRow { sr_values : list Value; sr_keys : list Value }.

Definition directed (order : SortOrder) (ordering : comparison) : comparison :=
  match order with Asc => ordering | Desc => CompOpp ordering end.

Fixpoint compare_keys (l r : list Value) (orders : list SortOrder) : outcome comparison :=
  match l, r, orders with
  | x :: l, y :: r, order :: orders =>
      let! ordering := compare_order_values x y in
      match directed order ordering with Eq => compare_keys l r orders | c => Ok c end
  | _, _, _ => Ok Eq
  end.

Definition validate_sort_keys (keys : list Value) : outcome unit :=
  for_each keys tt (λ _ key,
    match key with
    | Null => Ok tt
    | _ => let! _ := compare_order_values key key in Ok tt
    end).

(** ** Memory *)

Definition BUFFERED_ROW_OVERHEAD_BYTES : Z := 64.

Definition buffered_values_charge (values : list Value) : outcome Z :=
  for_each values BUFFERED_ROW_OVERHEAD_BYTES (λ total value,
    ok_or (try_u 64 (total + approx_bytes value))
      (InvalidArgument "blocking-operator row memory estimate exceeds usize::MAX")).

Definition sort_row_charge (row : SortRow) : outcome Z := buffered_values_charge (sr_values row ++ sr_keys row).

(** The requests made so far and the bytes held. *)
Record Account := mkAccount { asked : nat; held : Z }.

Section Memory.
Context (grants : nat → Z → bool).

Definition charge_or_reclaim (bytes : Z) : SM Account bool := λ a,
  if grants (asked a) bytes then (Ok true, mkAccount (S (asked a)) (held a + bytes))
  else (Ok false, mkAccount (S (asked a)) (held a)).

Definition release (bytes : Z) : SM Account unit := λ a,
  if bytes <=? held a then (Ok tt, mkAccount (asked a) (held a - bytes)) else (Panic, a).

Definition charge_after_spill (requested : Z) : SM Account unit :=
  let+ granted := charge_or_reclaim requested in
  if granted then sret tt
  else slift (Err (BudgetExceeded "{category} requests {requested} bytes with {} charged against a {} byte limit")).

(** ** Merging runs *)

Section Merge.
Context {T : Type} (decode : list Value → outcome T) (charge : T → outcome Z) (compare : T → T → outcome comparison).

Record RunCursor := mkCursor { reader : list Z; run_buffered : list (T * Z); exhausted : bool }.

Definition open_run (file : list Z) : RunCursor := mkCursor file [] false.

(** The loop over [0..buffer_rows].  Where reading itself fails the file
    position is left as it was. *)
Fixpoint fill_buffer (rounds : nat) (self : RunCursor) (a : Account) : outcome unit * (RunCursor * Account) :=
  match rounds with
  | O => (Ok tt, (self, a))
  | S rounds =>
      match read_row (reader self) with
      | Ok (None, file) => (Ok tt, (mkCursor file (run_buffered self) true, a))
      | Ok (Some values, file) =>
          match (let! row := decode values in let! bytes := charge row in Ok (row, bytes)) with
          | Ok (row, bytes) =>
              match charge_or_reclaim bytes a with
              | (Ok true, a) => fill_buffer rounds (mkCursor file (run_buffered self ++ [(row, bytes)]) (exhausted self)) a
              | (_, a) => (Err (BudgetExceeded "spill merge buffer requests {bytes} bytes with {} charged against a {} byte limit"),
                           (mkCursor file (run_buffered self) (exhausted self), a))
              end
          | Err e => (Err e, (mkCursor file (run_buffered self) (exhausted self), a))
          | Panic => (Panic, (mkCursor file (run_buffered self) (exhausted self), a))
          end
      | Err e => (Err e, (self, a))
      | Panic => (Panic, (self, a))
      end
  end.

Definition ensure_buffered (buffer_rows : nat) (self : RunCursor) (a : Account) : outcome unit * (RunCursor * Account) :=
  match run_buffered self, exhausted self with
  | [], false => fill_buffer buffer_rows self a
  | _, _ => (Ok tt, (self, a))
  end.

Definition front (self : RunCursor) : option T := fst <$> head (run_buffered self).

Definition pop_front (self : RunCursor) : Account → outcome (option T) * (RunCursor * Account) := λ a,
  match run_buffered self with
  | [] => (Ok None, (self, a))
  | (row, bytes) :: rest =>
      let '(r, a) := release bytes a in
      (let! _ := r in Ok (Some row), (mkCursor (reader self) rest (exhausted self), a))
  end.

Definition merge_buffer_rows (run_count : nat) : nat := if (run_count =? 0)%nat then 0 else 1.

(** [for cursor in &mut self.cursors { cursor.ensure_buffered(..)?; }] *)
Fixpoint ensure_all (buffer_rows : nat) (cursors : list RunCursor) (a : Account) : outcome unit * (list RunCursor * Account) :=
  match cursors with
  | [] => (Ok tt, ([], a))
  | cursor :: cursors =>
      match ensure_buffered buffer_rows cursor a with
      | (Ok _, (cursor, a)) =>
          let '(r, (cursors, a)) := ensure_all buffer_rows cursors a in (r, (cursor :: cursors, a))
      | (r, (cursor, a)) => (r, (cursor :: cursors, a))
      end
  end.

(** The earliest cursor whose front row is least. *)
Definition best_step (cursors : list RunCursor) (best : option nat) (i : nat) : outcome (option nat) :=
  let! cursor := index cursors i in
  match front cursor with
  | None => Ok best
  | Some candidate =>
      match best with
      | None => Ok (Some i)
      | Some best_index =>
          let! best_cursor := index cursors best_index in
          let! best_row := ok_or (front best_cursor) invalid_sort_permutation in
          let! ordering := compare candidate best_row in
          Ok (if bool_decide (ordering = Lt) then Some i else Some best_index)
      end
  end.

Definition best_cursor (cursors : list RunCursor) : outcome (option nat) :=
  for_each (seq 0 (length cursors)) None (best_step cursors).

Definition take_next : SM (list RunCursor * Account) (option T) := λ '(cursors, a),
  match ensure_all (merge_buffer_rows (length cursors)) cursors a with
  | (Ok _, (cursors, a)) =>
      match best_cursor cursors with
      | Ok None => (Ok None, (cursors, a))
      | Ok (Some index) =>
          match cursors !! index with
          | Some cursor =>
              let '(r, (cursor, a)) := pop_front cursor a in
              (let! row := r in let! row := ok_or row invalid_sort_permutation in Ok (Some row), (<[index := cursor]> cursors, a))
          | None => (Panic, (cursors, a))
          end
      | Err e => (Err e, (cursors, a))
      | Panic => (Panic, (cursors, a))
      end
  | (Err e, s) => (Err e, s)
  | (Panic, s) => (Panic, s)
  end.

(** Dropping the cursors. *)
Definition drop_cursor (self : RunCursor) : SM Account unit :=
  release (foldl (λ total row, Z.min (2 ^ 64 - 1) (total + snd row)) 0 (run_buffered self)).
End Merge.
End Memory.
Arguments RunCursor : clear implicits.

(** ** Output chunks *)

Definition build_output_chunks (types : list LogicalType) (rows : list (list Value)) : outcome (list Chunk) :=
  let! (output, builder, pending_rows) := for_each rows ([], builder_new types, 0%nat) (λ '(output, builder, pending_rows) row,
    let! builder := push_row builder row in
    if is_full builder then
      let! chunk := finish builder in Ok (output ++ [chunk], builder_new types, 0%nat)
    else Ok (output, builder, S pending_rows)) in
  if (pending_rows =? 0)%nat then Ok output
  else let! chunk := finish builder in Ok (output ++ [chunk]).

(** ** The operator *)

Definition encode_sort_row (row : SortRow) : list Value := sr_values row ++ sr_keys row.

Definition decode_sort_spill_row (value_count key_count : nat) (row : list Value) : outcome SortRow :=
  if negb (length row =? value_count + key_count)%nat
  then Err (Corrupt "spill sort row has {} values, expected {} row values and {key_count} keys")
  else Ok (mkSortRow (take value_count row) (drop value_count row)).

Record SortMerge := mkMerge { m_types : list LogicalType; cursors : list (RunCursor SortRow) }.
Inductive SortOutput := InMemory (output : list Chunk) | External (output : SortMerge).

Section Sort.
Context `{FloatEnv} {Operator : Type} (subquery_rows : Expr Operator → Chunk → gmap (list Z) nat → outcome (list Value)).
Context (grants : nat → Z → bool) (run_io : nat → outcome unit).
Context (keys : list (Expr Operator * SortOrder)) (cols : gmap (list Z) nat).

Definition compare_sort_rows (l r : SortRow) : outcome comparison := compare_keys (sr_keys l) (sr_keys r) (snd <$> keys).

Definition evaluate_sort_chunk (chunk : Chunk) : outcome (list SortRow) :=
  let! key_columns := collect (λ '(expr, _), scalar_evaluate subquery_rows expr chunk cols) keys in
  collect (λ row,
    let! row_keys := values_at key_columns row in
    let! _ := validate_sort_keys row_keys in
    let! values := clone_row chunk row in
    Ok (mkSortRow values row_keys)) (seq 0 (row_count chunk)).

Definition evaluate_sort_rows (chunks : list Chunk) : outcome (list SortRow) :=
  for_each chunks [] (λ rows chunk, let! more := evaluate_sort_chunk chunk in Ok (rows ++ more)).

(** The operator with the [ChargedRows] its initialization fills. *)
Record Sort := mkSort {
  upstream : source; buffered : list SortRow; buffered_bytes : Z; runs : list (list Z);
  account : Account; output : option SortOutput; initialization_error : option DevonError }.

Definition sort_new (src : source) (a : Account) : Sort := mkSort src [] 0 [] a None None.

Definition set_upstream (src : source) (s : Sort) : Sort :=
  mkSort src (buffered s) (buffered_bytes s) (runs s) (account s) (output s) (initialization_error s).
Definition set_rows (rows : list SortRow) (bytes : Z) (s : Sort) : Sort :=
  mkSort (upstream s) rows bytes (runs s) (account s) (output s) (initialization_error s).
Definition add_run (file : list Z) (s : Sort) : Sort :=
  mkSort (upstream s) (buffered s) (buffered_bytes s) (runs s ++ [file]) (account s) (output s) (initialization_error s).
Definition set_account (a : Account) (s : Sort) : Sort :=
  mkSort (upstream s) (buffered s) (buffered_bytes s) (runs s) a (output s) (initialization_error s).
Definition set_output (o : SortOutput) (s : Sort) : Sort :=
  mkSort (upstream s) (buffered s) (buffered_bytes s) (runs s) (account s) (Some o) (initialization_error s).
Definition set_error (e : DevonError) (s : Sort) : Sort :=
  mkSort (upstream s) (buffered s) (buffered_bytes s) (runs s) (account s) (output s) (Some e).

Definition on_account {A} (m : SM Account A) : SM Sort A := λ s,
  let '(r, a) := m (account s) in (r, set_account a s).

(** [ChargedRows]: [push_charged], [release] and [take_rows]. *)
Definition push_charged (row : SortRow) (bytes : Z) : SM Sort unit := λ s,
  (Ok tt, set_rows (buffered s ++ [row]) (buffered_bytes s + bytes) s).

Definition release_rows : SM Sort unit := λ s,
  (let+ _ := on_account (release (buffered_bytes s)) in λ s, (Ok tt, set_rows (buffered s) 0 s)) s.

Definition take_rows : SM Sort (list SortRow) := λ s,
  let rows := buffered s in
  (let+ _ := release_rows in sret rows) (set_rows [] (buffered_bytes s) s).

(** [stable_sort_by(rows.as_mut_vec(), ..)]; a failed comparison is found
    before any row moves. *)
Definition sort_buffered : SM Sort unit := λ s,
  match stable_sort_by (buffered s) compare_sort_rows with
  | Ok rows => (Ok tt, set_rows rows (buffered_bytes s) s)
  | Err e => (Err e, s)
  | Panic => (Panic, s)
  end.

(** [SpillFiles::write_run] of the buffered rows. *)
Definition write_run : SM Sort unit := λ s,
  match (let! _ := run_io (length (runs s)) in write_spill_rows (encode_sort_row <$> buffered s)) with
  | Ok file => (Ok tt, add_run file s)
  | Err e => (Err e, s)
  | Panic => (Panic, s)
  end.

Definition spill_sort_run : SM Sort unit := λ s,
  match buffered s with
  | [] => (Ok tt, s)
  | _ => (let+ _ := sort_buffered in let+ _ := write_run in let+ _ := take_rows in sret tt) s
  end.

Definition buffer_row (row : SortRow) : SM Sort unit :=
  let+ charge := slift (sort_row_charge row) in
  let+ granted := on_account (charge_or_reclaim grants charge) in
  let+ _ := (if granted then sret tt
             else let+ _ := spill_sort_run in on_account (charge_after_spill grants charge)) in
  push_charged row charge.

(** The loop over the upstream: the types of its first chunk. *)
Fixpoint drain_upstream (src : source) (tys : option (list LogicalType)) : SM Sort (option (list LogicalType)) :=
  match src with
  | [] => sret tys
  | r :: src =>
      let+ chunk := (λ s, (r, set_upstream src s)) in
      let tys := match tys with None => Some (types chunk) | Some _ => tys end in
      let+ evaluated := slift (evaluate_sort_rows [chunk]) in
      let+ _ := sfor evaluated tt (λ _ row, buffer_row row) in
      drain_upstream src tys
  end.

Definition finish_sort (tys : option (list LogicalType)) : SM Sort unit := λ s,
  match tys with
  | None => (Ok tt, set_output (InMemory []) s)
  | Some tys =>
      match runs s with
      | [] =>
          (let+ _ := sort_buffered in
           let+ rows := take_rows in
           let+ chunks := slift (build_output_chunks tys (sr_values <$> rows)) in
           λ s, (Ok tt, set_output (InMemory chunks) s)) s
      | _ => (let+ _ := spill_sort_run in λ s, (Ok tt, set_output (External (mkMerge tys (open_run <$> runs s))) s)) s
      end
  end.

(** The buffered rows are dropped when [initialize] returns, on errors too. *)
Definition initialize : SM Sort unit := λ s,
  let '(r, s) := (let+ tys := drain_upstream (upstream s) None in finish_sort tys) s in
  let '(r', s) := (let+ _ := take_rows in sret tt) s in
  (let! _ := r' in r, s).

(** [SortMerge::next_chunk]: a chunk takes at most [CHUNK_CAPACITY] rows. *)
Fixpoint merge_fill (rounds value_count : nat) (builder : ChunkBuilder) (row_count : nat) :
    SM (list (RunCursor SortRow) * Account) (ChunkBuilder * nat) :=
  if is_full builder then sret (builder, row_count) else
  match rounds with
  | O => slift Panic
  | S rounds =>
      let+ row := take_next grants (decode_sort_spill_row value_count (length keys)) sort_row_charge compare_sort_rows in
      match row with
      | None => sret (builder, row_count)
      | Some row =>
          let+ builder := slift (push_row builder (sr_values row)) in
          merge_fill rounds value_count builder (S row_count)
      end
  end.

Definition merge_next_chunk (tys : list LogicalType) : SM (list (RunCursor SortRow) * Account) (option Chunk) :=
  let+ (builder, row_count) := merge_fill CHUNK_CAPACITY (length tys) (builder_new tys) 0 in
  if (row_count =? 0)%nat then sret None
  else let+ chunk := slift (finish builder) in sret (Some chunk).

(** What [next_chunk] does once there is an output. *)
Definition next_output (s : Sort) : outcome (option Chunk) * Sort :=
  match output s with
  | Some (InMemory []) => (Ok None, s)
  | Some (InMemory (chunk :: rest)) => (Ok (Some chunk), set_output (InMemory rest) s)
  | Some (External m) =>
      let '(r, (cs, a)) := merge_next_chunk (m_types m) (cursors m, account s) in
      (r, set_output (External (mkMerge (m_types m) cs)) (set_account a s))
  | None => (Err invalid_sort_permutation, s)
  end.

Definition sort_next (s : Sort) : outcome (option Chunk) * Sort :=
  match output s with
  | Some _ => next_output s
  | None =>
      match initialization_error s with
      | Some e => (Err e, s)
      | None =>
          match initialize s with
          | (Ok _, s) => next_output s
          | (Err e, s) => (Err e, set_error e s)
          | (Panic, s) => (Panic, s)
          end
      end
  end.

(** Dropping the operator: what its cursors still hold is released. *)
Definition drop_sort (s : Sort) : outcome unit * Sort :=
  match output s with
  | Some (External m) => on_account (sfor (cursors m) tt (λ _ c, drop_cursor c)) s
  | _ => (Ok tt, s)
  end.
End Sort.

(** ** The order of sort keys *)

Inductive order_kind := KBool | KInt | KFloat | KString | KTime | KDecimal (scale : Z).

Definition kind_of (v : Value) : option order_kind :=
  match v with
  | Bool _ => Some KBool
  | Int64 _ => Some KInt
  | Float64 _ => Some KFloat
  | String _ => Some KString
  | Timestamp _ => Some KTime
  | Decimal d => Some (KDecimal (scale d))
  | _ => None
  end.

(** A key of kind [k], or [Null], which sorts first. *)
Definition of_kind (k : order_kind) (v : Value) : Prop := v = Null ∨ kind_of v = Some k.

Definition value_cmp (l r : Value) : comparison := match compare_order_values l r with Ok c => c | _ => Eq end.

Lemma str_cmp_trans a : ∀ b c, str_cmp a b ≠ Gt → str_cmp b c ≠ Gt → str_cmp a c ≠ Gt.
Proof.
  induction a as [|x a IH]; intros [|y b] [|z c]; simpl; try done.
  destruct (Z.compare_spec x y), (Z.compare_spec y z), (Z.compare_spec x z); subst; try done; try lia. apply IH.
Qed.

Lemma Zcmp_trans x y z : (x ?= y) ≠ Gt → (y ?= z) ≠ Gt → (x ?= z) ≠ Gt.
Proof. rewrite !Z.compare_ngt_iff. lia. Qed.

Lemma value_cmp_Ok k l r : of_kind k l → of_kind k r → compare_order_values l r = Ok (value_cmp l r).
Proof.
  unfold of_kind, value_cmp. intros [-> |Hl] [-> |Hr]; [done|by destruct r|by destruct l|].
  destruct l, r; simpl in *; try (congruence || reflexivity). unfold compare_decimal_order.
  assert (scale value = scale value0) as -> by congruence. by rewrite Z.eqb_refl.
Qed.

#[export] Instance value_total k : TotalCompare (of_kind k) value_cmp.
Proof.
  split.
  - intros x y Hx Hy. pose proof (value_cmp_Ok k x y Hx Hy) as H1. pose proof (value_cmp_Ok k y x Hy Hx) as H2.
    destruct x, y; simpl in H1, H2; try done; unfold value_cmp; simpl; try apply Z.compare_antisym; try apply str_cmp_antisym.
    unfold compare_decimal_order. rewrite (Z.eqb_sym (scale value0)).
    destruct (negb _); [done|]. apply Z.compare_antisym.
  - intros x y z Hx Hy Hz. pose proof (value_cmp_Ok k x y Hx Hy) as H1. pose proof (value_cmp_Ok k y z Hy Hz) as H2.
    pose proof (value_cmp_Ok k x z Hx Hz) as H3.
    destruct x, y; simpl in H1; try done; destruct z; simpl in H2, H3; try done;
      unfold value_cmp; simpl; try done; try apply Zcmp_trans; try apply str_cmp_trans.
    revert H1 H2 H3. unfold compare_decimal_order, value_cmp. simpl. unfold compare_decimal_order.
    destruct (negb (scale value =? scale value0)), (negb (scale value0 =? scale value1)), (negb (scale value =? scale value1)); try done.
    intros _ _ _. apply Zcmp_trans.
Qed.

#[export] Instance directed_total {T} (P : T → Prop) c `{!TotalCompare P c} order : TotalCompare P (λ x y, directed order (c x y)).
Proof.
  destruct order; simpl; [done|]. split.
  - intros x y Hx Hy. by rewrite (cmp_antisym x y).
  - intros x y z Hx Hy Hz H1 H2 H3. apply (cmp_trans z y x Hz Hy Hx).
    + rewrite (cmp_antisym y z) by done. exact H2.
    + rewrite (cmp_antisym x y) by done. exact H1.
    + rewrite (cmp_antisym x z) by done. exact H3.
Qed.

(** What a total preorder says of three elements. *)
Lemma lex_facts {T} (P : T → Prop) c `{!TotalCompare P c} x y z : P x → P y → P z →
  match c x y, c y z with
  | Eq, Eq => c x z = Eq
  | Gt, _ | _, Gt => True
  | _, _ => c x z = Lt
  end.
Proof.
  intros Hx Hy Hz. pose proof (cmp_trans x y z Hx Hy Hz) as H1. pose proof (cmp_antisym x y Hx Hy) as A1.
  pose proof (cmp_antisym y z Hy Hz) as A2. pose proof (cmp_antisym x z Hx Hz) as A3.
  pose proof (cmp_trans z x y Hz Hx Hy) as H2. pose proof (cmp_trans y z x Hy Hz Hx) as H3.
  pose proof (cmp_trans z y x Hz Hy Hx) as H4. pose proof (cmp_trans x z y Hx Hz Hy) as H5. pose proof (cmp_trans y x z Hy Hx Hz) as H6.
  rewrite A1 in *. rewrite A2 in *. rewrite A3 in *.
  destruct (c x y), (c y z), (c x z); simpl in *; naive_solver.
Qed.

Definition keys_cmp (orders : list SortOrder) (l r : list Value) : comparison :=
  match compare_keys l r orders with Ok c => c | _ => Eq end.

Lemma keys_cmp_Ok kinds : ∀ orders l r,
  Forall2 of_kind kinds l → Forall2 of_kind kinds r → compare_keys l r orders = Ok (keys_cmp orders l r).
Proof.
  induction kinds as [|k kinds IH]; intros orders l r Hl Hr; inversion Hl as [|? x ? l' Hx Hl']; inversion Hr as [|? y ? r' Hy Hr']; subst; [done|].
  unfold keys_cmp. destruct orders as [|o orders]; [done|]. cbn [compare_keys]. rewrite (value_cmp_Ok k) by done. cbn [bind].
  specialize (IH orders l' r' Hl' Hr'). by destruct (directed o _); [rewrite IH|..].
Qed.

Lemma keys_cmp_cons kinds k o orders x l y r :
  of_kind k x → of_kind k y → Forall2 of_kind kinds l → Forall2 of_kind kinds r →
  keys_cmp (o :: orders) (x :: l) (y :: r) = match directed o (value_cmp x y) with Eq => keys_cmp orders l r | c => c end.
Proof.
  intros Hx Hy Hl Hr. unfold keys_cmp. cbn [compare_keys]. rewrite (value_cmp_Ok k) by done. cbn [bind]. by destruct (directed o _).
Qed.

#[export] Instance keys_total kinds orders : TotalCompare (Forall2 of_kind kinds) (keys_cmp orders).
Proof.
  revert orders. induction kinds as [|k kinds IH]; intros orders.
  { by split; [intros x y ->%Forall2_nil_inv_l ->%Forall2_nil_inv_l|intros x y z ->%Forall2_nil_inv_l ->%Forall2_nil_inv_l ->%Forall2_nil_inv_l]. }
  destruct orders as [|o orders]; [by split; [intros [] []|intros [] [] []]|]. specialize (IH orders).
  pose proof (directed_total (of_kind k) value_cmp o) as Hd. split.
  - intros [|x l] [|y r] Hx Hy; first [by inversion Hx | by inversion Hy | idtac]. apply Forall2_cons in Hx as [Hx Hl], Hy as [Hy Hr].
    rewrite !(keys_cmp_cons kinds k) by done. rewrite (cmp_antisym (c := λ x y, directed o (value_cmp x y)) x y) by done.
    destruct (directed o (value_cmp x y)); simpl; [|done..]. by apply cmp_antisym.
  - intros [|x l] [|y m] [|z r] Hx Hy Hz; first [by inversion Hx | by inversion Hy | by inversion Hz | idtac].
    apply Forall2_cons in Hx as [Hx Hl], Hy as [Hy Hm], Hz as [Hz Hr]. rewrite !(keys_cmp_cons kinds k) by done.
    pose proof (lex_facts (of_kind k) (λ x y, directed o (value_cmp x y)) x y z Hx Hy Hz) as Hf.
    pose proof (cmp_trans (c := keys_cmp orders) l m r Hl Hm Hr). simpl in Hf.
    destruct (directed o (value_cmp x y)), (directed o (value_cmp y z)), (directed o (value_cmp x z)); naive_solver.
Qed.
