(* ===== verification/SortMerge.v ===== *)
(** The merge of sorted spill runs, [take_next] of [SortOp.v], against its
    specification: it returns the rows of the runs in stable order, or stops
    with an error, and holds exactly the budget of the rows it has buffered. *)

From stdpp Require Import sorting.
From S2P Require Import Prelude Bytes Types Codec Spill Sorting SortOp.

Section MergeSpec.
Context {T : Type} (P : T → Prop) (c : T → T → comparison) `{!TotalCompare P c}.
Context (grants : nat → Z → bool) (encode : T → list Value).
Context (decode : list Value → outcome T) (charge : T → outcome Z) (compare : T → T → outcome comparison).

Hypothesis compare_ok : ∀ x y, P x → P y → compare x y = Ok (c x y).
Hypothesis decode_encode : ∀ x, P x → decode (encode x) = Ok x.
Hypothesis encode_ok : ∀ x, P x → Forall spill_ok (encode x).
Hypothesis charge_ok : ∀ x, P x → charge x ≠ Panic ∧ ∀ bytes, charge x = Ok bytes → in_u 64 bytes.

(** The bytes of the buffered rows. *)
Definition cursor_bytes (cur : RunCursor T) : Z := foldr Z.add 0 (snd <$> run_buffered cur).
Definition cursors_bytes (cs : list (RunCursor T)) : Z := foldr Z.add 0 (cursor_bytes <$> cs).

Lemma cursors_bytes_cons cur cs : cursors_bytes (cur :: cs) = cursor_bytes cur + cursors_bytes cs.
Proof. done. Qed.

(** A cursor whose remaining rows are those of [t]. *)
Definition cursor_rows (cur : RunCursor T) (t : list (nat * T)) : Prop :=
  ∃ infile, t.*2 = (run_buffered cur).*1 ++ infile ∧ Forall P t.*2 ∧ (length (run_buffered cur) ≤ 1)%nat ∧
    Forall (λ x, in_u 64 x.2) (run_buffered cur) ∧
    write_spill_rows (encode <$> infile) = Ok (reader cur) ∧ (exhausted cur = true → infile = []).

Lemma write_rows_cons row rows file :
  write_spill_rows (row :: rows) = Ok file →
  ∃ bytes rest, write_spill_row row = Ok bytes ∧ write_spill_rows rows = Ok rest ∧ file = bytes ++ rest.
Proof.
  unfold write_spill_rows. cbn [collect]. intros Hw. apply bind_Ok in Hw as (written & Hw & <-%Ok_inj).
  apply bind_Ok in Hw as (bytes & Hb & Hw). apply bind_Ok in Hw as (rest & Hr & <-%Ok_inj). exists bytes, (concat rest).
  by rewrite Hr.
Qed.

(** [ensure_buffered] leaves a row in the buffer unless the run is at its end. *)
Lemma ensure_buffered_spec cur t a :
  cursor_rows cur t →
  match ensure_buffered grants decode charge 1 cur a with
  | (Ok _, (cur', a')) => cursor_rows cur' t ∧ (run_buffered cur' = [] → t = []) ∧ held a' - held a = cursor_bytes cur' - cursor_bytes cur
  | (Err _, (cur', a')) => Forall (λ x, in_u 64 x.2) (run_buffered cur') ∧ (length (run_buffered cur') ≤ 1)%nat ∧
      held a' - held a = cursor_bytes cur' - cursor_bytes cur
  | (Panic, _) => False
  end.
Proof.
  intros (infile & Ht & HP & Hl & Hb & Hw & He). unfold ensure_buffered.
  destruct (run_buffered cur) as [|x buf] eqn:Eb.
  2: { split_and!; [|by rewrite Eb|lia]. exists infile. rewrite Eb. done. }
  simpl in Ht. destruct (exhausted cur) eqn:Ee.
  { split_and!; [|intros _|lia].
    - exists infile. rewrite Eb, Ee. done.
    - rewrite He in Ht by done. by apply fmap_nil_inv in Ht. }
  cbn [fill_buffer]. rewrite Eb. destruct infile as [|x infile].
  - apply fmap_nil_inv in Ht as ->. injection Hw as <-. cbn [read_row run_buffered]. split_and!; [|done|].
    + exists []. by split_and!.
    + unfold cursor_bytes. rewrite Eb. simpl. lia.
  - rewrite Ht in HP. apply Forall_cons in HP as [Hx HP]. rewrite fmap_cons in Hw.
    apply write_rows_cons in Hw as (bytes & rest & Hrow & Hrest & ->). rewrite (read_row_app (encode x)) by auto.
    rewrite decode_encode by done. cbn [bind]. destruct (charge_ok x Hx) as [Hnp Hc].
    destruct (charge x) as [bs|e|]; [|cbn [bind run_buffered]; rewrite ?Eb; unfold cursor_bytes; rewrite Eb; simpl; split_and!; [constructor|lia..]|done].
    specialize (Hc bs eq_refl). cbn [bind]. unfold charge_or_reclaim. destruct (grants (asked a) bs); cbn [run_buffered app held].
    + split_and!; [|done|unfold cursor_bytes; rewrite Eb; simpl; lia]. exists infile. cbn [run_buffered reader exhausted fmap list_fmap fst].
      split_and!; [done|by rewrite Ht; constructor|done|apply Forall_singleton; exact Hc|done|by rewrite Ee].
    + unfold cursor_bytes. rewrite Eb. simpl. split_and!; [constructor|lia..].
Qed.

(** Cursors whose buffers are filled. *)
Definition ready (cur : RunCursor T) (t : list (nat * T)) : Prop := cursor_rows cur t ∧ (run_buffered cur = [] → t = []).

(** Cursors that hold at most one charged row each, which is what dropping needs. *)
Definition droppable (cs : list (RunCursor T)) : Prop :=
  Forall (λ cur, Forall (λ x, in_u 64 x.2) (run_buffered cur) ∧ (length (run_buffered cur) ≤ 1)%nat) cs.

Lemma cursor_droppable cs ts : Forall2 cursor_rows cs ts → droppable cs.
Proof. induction 1 as [|cur t cs ts (infile & _ & _ & Hl & Hb & _) _ IH]; constructor; done. Qed.

Lemma ensure_all_spec cs : ∀ ts a,
  Forall2 cursor_rows cs ts →
  match ensure_all grants decode charge 1 cs a with
  | (Ok _, (cs', a')) => Forall2 ready cs' ts ∧ held a' - held a = cursors_bytes cs' - cursors_bytes cs
  | (Err _, (cs', a')) => droppable cs' ∧ held a' - held a = cursors_bytes cs' - cursors_bytes cs
  | (Panic, _) => False
  end.
Proof.
  induction cs as [|cur cs IH]; intros ts a Hcs; inversion Hcs as [|? t ? ts' Hc Hrest]; subst; [simpl; split; [constructor|lia]|].
  cbn [ensure_all]. pose proof (ensure_buffered_spec cur t a Hc) as Hs.
  destruct (ensure_buffered grants decode charge 1 cur a) as [[[]|e|] [cur' a1]]; [|destruct Hs as (? & ? & ?)|done].
  - destruct Hs as (Hcur & Hready & Hh). specialize (IH ts' a1 Hrest).
    destruct (ensure_all grants decode charge 1 cs a1) as [[[]|e|] [cs' a']]; [|destruct IH as [Hd Hh']|done].
    + destruct IH as [Hr Hh']. split; [by constructor|]. rewrite !cursors_bytes_cons. lia.
    + split; [|rewrite !cursors_bytes_cons; lia]. constructor; [|done]. destruct Hcur as (infile & _ & _ & ? & ? & _). done.
  - split; [|rewrite !cursors_bytes_cons; lia]. constructor; [done|]. by eapply cursor_droppable.
Qed.

(** ** The least front row *)

Section Best.
Context (cs : list (RunCursor T)) (ts : list (list (nat * T))).
Hypothesis Hready : Forall2 ready cs ts.

(** Earlier runs hold earlier rows. *)
Definition ordered (ts : list (list (nat * T))) : Prop :=
  ∀ i j ti tj x y, (i < j)%nat → ts !! i = Some ti → ts !! j = Some tj → x ∈ ti → y ∈ tj → (x.1 < y.1)%nat.
Hypothesis Hord : ordered ts.

Lemma ready_front j cur t : cs !! j = Some cur → ts !! j = Some t → front cur = snd <$> head t.
Proof.
  intros Hc Ht. destruct (Forall2_lookup_lr _ _ _ _ _ _ Hready Hc Ht) as ((infile & Hrows & _) & He). unfold front.
  destruct (run_buffered cur) as [|[x bs] buf]; [by rewrite He|]. destruct t as [|y t]; simpl in Hrows; [done|]. injection Hrows as Hxy _. simpl. by rewrite Hxy.
Qed.

Lemma ready_P i x t : ts !! i = Some t → x ∈ t → P x.2.
Proof.
  intros Ht Hx. destruct (Forall2_lookup_r _ _ _ _ _ Hready Ht) as (cur & _ & (infile & _ & HP & _) & _).
  rewrite Forall_forall in HP. apply HP, list_elem_of_fmap. eauto.
Qed.

(** The best of the first [k] cursors. *)
Definition best_of (k : nat) (best : option nat) : Prop :=
  match best with
  | None => ∀ j t, (j < k)%nat → ts !! j = Some t → t = []
  | Some i => (i < k)%nat ∧ ∃ x t, ts !! i = Some (x :: t) ∧
      ∀ j y t', (j < k)%nat → j ≠ i → ts !! j = Some (y :: t') → before c x y
  end.

Lemma best_step_spec k best : (k < length cs)%nat → best_of k best → ∃ best', best_step compare cs best k = Ok best' ∧ best_of (S k) best'.
Proof.
  intros Hk Hb. destruct (lookup_lt_is_Some_2 cs k Hk) as [cur Hc]. destruct (Forall2_lookup_l _ _ _ _ _ Hready Hc) as (t & Ht & _).
  unfold best_step, index. rewrite Hc. cbn [expect bind]. rewrite (ready_front k cur t Hc Ht).
  assert (∀ j, (j < S k)%nat → j ≠ k → (j < k)%nat) as Hlt by lia.
  destruct t as [|y t]; cbn [head fmap option_fmap option_map].
  - exists best. split; [done|]. destruct best as [i|].
    + destruct Hb as (Hi & x & t & Hx & Hb). split; [lia|]. exists x, t. split; [done|]. intros j z t' Hj Hne Hz.
      apply (Hb j z t'); [|done..]. apply Hlt; [done|]. intros ->. congruence.
    + intros j t' Hj Hj'. destruct (decide (j = k)) as [->|]; [congruence|]. apply (Hb j); auto.
  - destruct best as [i|]; [|exists (Some k); split; [done|]; split; [lia|]; exists y, t; split; [done|];
      intros j z t' Hj Hne Hz; by pose proof (Hb j (z :: t') ltac:(auto) Hz)].
    destruct Hb as (Hi & x & tx & Hx & Hb). destruct (lookup_lt_is_Some_2 cs i) as [cur_i Hci]; [lia|]. rewrite Hci. cbn [expect bind].
    rewrite (ready_front i cur_i _ Hci Hx). cbn [head fmap option_fmap option_map ok_or bind].
    pose proof (ready_P i x _ Hx ltac:(left)) as HPx. pose proof (ready_P k y _ Ht ltac:(left)) as HPy.
    rewrite compare_ok by done. cbn [bind]. pose proof (Hord i k _ _ x y Hi Hx Ht ltac:(left) ltac:(left)) as Htag.
    destruct (bool_decide_reflect (c y.2 x.2 = Lt)) as [Hlt'|Hge].
    + exists (Some k). split; [done|]. split; [lia|]. exists y, t. split; [done|]. intros j z t' Hj Hne Hz.
      assert (before c y x) as Hyx by (by left). destruct (decide (j = i)) as [->|Hji]; [by rewrite Hx in Hz; injection Hz as <- _|].
      apply (before_trans P c y x z); [done|done|by eapply ready_P; [exact Hz|left]|done|]. by apply (Hb j z t'); auto.
    + exists (Some i). split; [done|]. split; [lia|]. exists x, tx. split; [done|]. intros j z t' Hj Hne Hz.
      destruct (decide (j = k)) as [->|Hjk]; [|by apply (Hb j z t'); auto]. rewrite Ht in Hz. injection Hz as <- _.
      unfold before. rewrite (cmp_antisym y.2 x.2) by done. destruct (c y.2 x.2); simpl; [by right|done|by left].
Qed.

Lemma best_cursor_spec : ∃ best, best_cursor compare cs = Ok best ∧ best_of (length cs) best.
Proof.
  unfold best_cursor. assert (∀ m k best, (k + m = length cs)%nat → best_of k best →
    ∃ best', for_each (seq k m) best (best_step compare cs) = Ok best' ∧ best_of (length cs) best') as Hloop.
  { induction m as [|m IH]; intros k best Hm Hb; [exists best; by replace (length cs) with k by lia|].
    destruct (best_step_spec k best) as (best' & Hs & Hb'); [lia|done|]. cbn [seq for_each]. rewrite Hs. cbn [bind]. apply IH; [lia|done]. }
  apply Hloop; [done|]. intros j t ?. lia.
Qed.
End Best.

(** ** Taking the next row *)

Lemma elem_of_concat {A} (x : A) ls : x ∈ concat ls → ∃ l, x ∈ l ∧ l ∈ ls.
Proof.
  induction ls as [|l ls IH]; simpl; [by intros ?%not_elem_of_nil|]. intros [Hx|Hx]%elem_of_app.
  - exists l. split; [done|left].
  - destruct (IH Hx) as (l' & ? & ?). exists l'. split; [done|by right].
Qed.

Lemma concat_pop (ts : list (list (nat * T))) : ∀ i x t, ts !! i = Some (x :: t) → concat ts ≡ₚ x :: concat (<[i := t]> ts).
Proof.
  induction ts as [|t0 ts IH]; intros [|i] x t Hi; simplify_eq/=; [done|]. rewrite (IH i x t Hi). by rewrite Permutation_middle.
Qed.

Lemma cursors_bytes_insert cs : ∀ i cur cur',
  cs !! i = Some cur → cursors_bytes (<[i := cur']> cs) = cursors_bytes cs - cursor_bytes cur + cursor_bytes cur'.
Proof.
  induction cs as [|c0 cs IH]; intros [|i] cur cur' Hi; [done|done|injection Hi as ->|];
    [change (<[0%nat := cur']> (cur :: cs)) with (cur' :: cs)|change (<[S i := cur']> (c0 :: cs)) with (c0 :: <[i := cur']> cs)];
    rewrite !cursors_bytes_cons; [lia|]. rewrite (IH i cur cur' Hi). lia.
Qed.

Lemma bytes_nonneg (buf : list (T * Z)) : Forall (λ x, in_u 64 x.2) buf → 0 ≤ foldr Z.add 0 (snd <$> buf).
Proof. induction 1 as [|x buf Hx _ IH]; [done|]. rewrite fmap_cons. cbn [foldr]. destruct Hx as [? _]. lia. Qed.

Lemma cursors_bytes_nonneg cs : droppable cs → 0 ≤ cursors_bytes cs.
Proof. induction 1 as [|cur cs [Hc _] _ IH]; [done|]. rewrite cursors_bytes_cons. pose proof (bytes_nonneg _ Hc). unfold cursor_bytes. lia. Qed.

Lemma cursor_bytes_le cs i cur : droppable cs → cs !! i = Some cur → 0 ≤ cursor_bytes cur ≤ cursors_bytes cs.
Proof.
  intros Hd. revert i. induction Hd as [|c0 cs [Hc _] Hd IH]; intros [|i] Hi; simplify_eq/=; rewrite cursors_bytes_cons;
    pose proof (bytes_nonneg _ Hc) as H0; pose proof (cursors_bytes_nonneg cs Hd); unfold cursor_bytes in *; [lia|].
  destruct (IH i Hi). lia.
Qed.

(** The cursors still hold the rows of [s], which is in stable order. *)
Definition merging (s : list (nat * T)) (cs : list (RunCursor T)) : Prop :=
  ∃ ts, Forall2 cursor_rows cs ts ∧ Forall (StronglySorted (before c)) ts ∧ ordered ts ∧
    StronglySorted (before c) s ∧ s ≡ₚ concat ts.

Lemma least_head cs ts i x t s :
  Forall2 ready cs ts → Forall (StronglySorted (before c)) ts → best_of ts (length cs) (Some i) → ts !! i = Some (x :: t) →
  StronglySorted (before c) s → s ≡ₚ concat ts → ∃ s', s = x :: s' ∧ StronglySorted (before c) s' ∧ s' ≡ₚ concat (<[i := t]> ts).
Proof.
  intros Hr Hsort (Hi & x' & t' & Hx' & Hbest) Hx Hs Hp. rewrite Hx in Hx'. injection Hx' as <- <-.
  pose proof (concat_pop ts i x t Hx) as Hc. rewrite Hc in Hp.
  assert (∀ y, y ∈ concat (<[i := t]> ts) → P y.2 ∧ before c x y) as Hleast.
  { intros y (ty & Hy & Hty)%elem_of_concat. apply list_elem_of_lookup in Hty as [j Hj].
    rewrite Forall_forall in Hsort. apply lookup_lt_Some in Hx as Hlt. destruct (decide (j = i)) as [->|Hne].
    - rewrite list_lookup_insert in Hj by done. destruct (decide _) in Hj; [|lia]. injection Hj as <-. split.
      + eapply ready_P; [exact Hr|exact Hx|by right].
      + pose proof (Hsort _ (list_elem_of_lookup_2 _ _ _ Hx)) as [_ Ha]%StronglySorted_inv. rewrite Forall_forall in Ha. by apply Ha.
    - rewrite list_lookup_insert_ne in Hj by done. destruct ty as [|z ty]; [by apply not_elem_of_nil in Hy|].
      assert (j < length cs)%nat by (rewrite (Forall2_length _ _ _ Hr); by eapply lookup_lt_Some).
      pose proof (Hbest j z ty ltac:(done) Hne Hj) as Hxz. pose proof (ready_P cs ts Hr j y _ Hj Hy) as HPy. split; [done|].
      apply elem_of_cons in Hy as [->|Hy]; [done|].
      pose proof (Hsort _ (list_elem_of_lookup_2 _ _ _ Hj)) as [_ Ha]%StronglySorted_inv. rewrite Forall_forall in Ha.
      apply (before_trans P c x z y); [by eapply ready_P; [exact Hr|exact Hx|left]|by eapply ready_P; [exact Hr|exact Hj|left]|done|done|by apply Ha]. }
  pose proof (ready_P cs ts Hr i x _ Hx ltac:(left)) as HPx.
  destruct s as [|y s]; [by apply Permutation_nil_l in Hp|]. apply StronglySorted_inv in Hs as [Hs Hy].
  assert (y = x) as ->; [|exists s; split_and!; [done..|by apply Permutation_cons_inv in Hp]].
  assert (y ∈ x :: concat (<[i := t]> ts)) as Hin by (rewrite <- Hp; left). apply elem_of_cons in Hin as [->|Hin]; [done|].
  destruct (Hleast y Hin) as [HPy Hxy]. assert (x ∈ y :: s) as Hin' by (rewrite Hp; left). apply elem_of_cons in Hin' as [->|Hin']; [done|].
  rewrite Forall_forall in Hy. exfalso. by apply (before_asym P c x y HPx HPy Hxy), Hy.
Qed.

Lemma ordered_pop ts i x t : ts !! i = Some (x :: t) → ordered ts → ordered (<[i := t]> ts).
Proof.
  intros Hi Hord a b ta tb y z Hab Ha Hb Hy Hz. apply lookup_lt_Some in Hi as Hlt.
  assert (∀ k tk w, <[i := t]> ts !! k = Some tk → w ∈ tk → ∃ tk', ts !! k = Some tk' ∧ w ∈ tk') as Hsub.
  { intros k tk w Hk Hw. destruct (decide (k = i)) as [->|]; [|by rewrite list_lookup_insert_ne in Hk; eauto].
    rewrite list_lookup_insert in Hk by done. destruct (decide _) in Hk; [|lia]. injection Hk as <-. exists (x :: t). split; [done|by right]. }
  destruct (Hsub a ta y Ha Hy) as (ta' & ? & ?). destruct (Hsub b tb z Hb Hz) as (tb' & ? & ?). by eapply (Hord a b ta' tb').
Qed.

(** Finding the least row: it is the front row of the best cursor, and taking it
    leaves the rest. *)
Lemma peek_spec s cs a base :
  merging s cs → 0 ≤ base → held a = base + cursors_bytes cs →
  match ensure_all grants decode charge (merge_buffer_rows (length cs)) cs a with
  | (Ok _, (cs', a')) => held a' = base + cursors_bytes cs' ∧ merging s cs' ∧
      match best_cursor compare cs' with
      | Ok None => s = []
      | Ok (Some i) => ∃ cur n row s', cs' !! i = Some cur ∧ s = (n, row) :: s' ∧ front cur = Some row ∧
          ∃ cur' a'', pop_front cur a' = (Ok (Some row), (cur', a'')) ∧ merging s' (<[i := cur']> cs') ∧ held a'' = base + cursors_bytes (<[i := cur']> cs')
      | _ => False
      end
  | (Err _, (cs', a')) => droppable cs' ∧ held a' = base + cursors_bytes cs'
  | (Panic, _) => False
  end.
Proof.
  intros (ts & Hts & Hsort & Hord & Hs & Hp) Hbase Hheld.
  assert (ensure_all grants decode charge (merge_buffer_rows (length cs)) cs a = ensure_all grants decode charge 1 cs a) as -> by (by destruct cs).
  pose proof (ensure_all_spec cs ts a Hts) as He.
  destruct (ensure_all grants decode charge 1 cs a) as [[[]|e|] [cs' a']]; [|destruct He; split; [done|lia]|done].
  destruct He as [Hr Hh]. assert (Forall2 cursor_rows cs' ts) as Hrows by (eapply Forall2_impl; [exact Hr|by intros ?? [? _]]).
  split; [lia|]. split; [by exists ts|].
  destruct (best_cursor_spec cs' ts Hr Hord) as (best & -> & Hbest). destruct best as [i|].
  - pose proof Hbest as (Hi & x & t & Hx & _). destruct (lookup_lt_is_Some_2 cs' i Hi) as [cur Hcur].
    destruct (least_head cs' ts i x t s Hr Hsort Hbest Hx Hs Hp) as (s' & -> & Hs' & Hp').
    destruct (Forall2_lookup_lr _ _ _ _ _ _ Hr Hcur Hx) as ((infile & Hcr & HP & Hl & Hb & Hw & Hex) & Hne).
    pose proof (cursor_bytes_le cs' i cur (cursor_droppable _ _ Hrows) Hcur) as Hle. pose proof (ready_front cs' ts Hr i cur _ Hcur Hx) as Hfront.
    destruct x as [n row]. exists cur, n, row, s'. split_and!; [done..|]. unfold pop_front.
    destruct (run_buffered cur) as [|[row' bs] buf] eqn:Eb; [by specialize (Hne eq_refl)|].
    destruct buf as [|? buf]; [|simpl in Hl; lia]. simpl in Hcr. injection Hcr as <- Hcr.
    assert (cursor_bytes cur = bs) as Hbs by (unfold cursor_bytes; rewrite Eb; simpl; lia).
    unfold release. rewrite (proj2 (Z.leb_le _ _)) by lia. cbn [bind]. do 2 eexists. split; [done|]. split.
    + exists (<[i := t]> ts). split_and!; [| |by eapply ordered_pop|done|done].
      * apply Forall2_insert; [done|]. exists infile. cbn [run_buffered reader exhausted]. split_and!; [done|by apply Forall_cons in HP as [_ ?]|simpl; lia|constructor|done|done].
      * apply Forall_insert; [done|]. rewrite Forall_forall in Hsort. by destruct (StronglySorted_inv (Hsort _ (list_elem_of_lookup_2 _ _ _ Hx))).
    + rewrite (cursors_bytes_insert cs' i cur _ Hcur). unfold cursor_bytes at 2. simpl. lia.
  - assert (concat ts = []) as Hnil.
    { assert (∀ t, t ∈ ts → t = []) as Hall.
      { intros t [j Hj]%list_elem_of_lookup. apply (Hbest j); [|done]. rewrite (Forall2_length _ _ _ Hr). by eapply lookup_lt_Some. }
      clear -Hall. induction ts as [|t ts IH]; [done|]. simpl. rewrite (Hall t) by left. apply IH. intros t' ?. apply Hall. by right. }
    rewrite Hnil in Hp. by apply Permutation_nil_r in Hp.
Qed.

Lemma take_next_spec s cs a base :
  merging s cs → 0 ≤ base → held a = base + cursors_bytes cs →
  match take_next grants decode charge compare (cs, a) with
  | (Ok None, (cs', a')) => s = [] ∧ merging [] cs' ∧ held a' = base + cursors_bytes cs'
  | (Ok (Some row), (cs', a')) => ∃ i s', s = (i, row) :: s' ∧ merging s' cs' ∧ held a' = base + cursors_bytes cs'
  | (Err _, (cs', a')) => droppable cs' ∧ held a' = base + cursors_bytes cs'
  | (Panic, _) => False
  end.
Proof.
  intros Hm Hbase Hheld. unfold take_next. pose proof (peek_spec s cs a base Hm Hbase Hheld) as Hp.
  destruct (ensure_all _ _ _ _ cs a) as [[[]|e|] [cs' a']]; [|done..]. destruct Hp as (Hh & Hm' & Hbest).
  destruct (best_cursor compare cs') as [[i|]|e|]; [|by subst|done..].
  destruct Hbest as (cur & n & row & s' & -> & -> & _ & cur' & a'' & -> & Hm'' & Hh''). cbn [bind ok_or]. by exists n, s'.
Qed.

(** No more rows are left than bytes and buffered rows. *)
Lemma rows_left s cs : merging s cs → (length s ≤ foldr (λ c n, length (reader c) + length (run_buffered c) + n) 0 cs)%nat.
Proof.
  intros (ts & Hts & _ & _ & _ & Hp). rewrite (Permutation_length Hp). clear Hp. induction Hts as [|cur t cs ts (infile & Ht & _ & _ & _ & Hw & _) _ IH]; [simpl; lia|].
  cbn [concat foldr]. rewrite length_app. assert (length t = length (run_buffered cur) + length infile)%nat as ->.
  { rewrite <- (length_fmap snd t), Ht, length_app, length_fmap. done. }
  assert (length infile ≤ length (reader cur))%nat; [|lia]. clear -Hw. revert Hw. generalize (reader cur). induction infile as [|x infile IH]; intros file Hw; [simpl; lia|].
  rewrite fmap_cons in Hw. apply write_rows_cons in Hw as (bytes & rest & Hrow & Hrest & ->). rewrite length_app. simpl. specialize (IH rest Hrest).
  assert (length bytes ≠ 0%nat); [|lia]. unfold write_spill_row, write_spill_row_bounded in Hrow. apply bind_Ok in Hrow as (payload & _ & Hrow).
  case_match; [done|]. apply bind_Ok in Hrow as (len & _ & [= <-]). done.
Qed.
End MergeSpec.
