(* ===== verification/SortSpec.v ===== *)
(** The blocking sort against its specification: whatever the memory budget
    answers and wherever runs are spilled, the rows it delivers are the stable
    sort of its input. *)

From stdpp Require Import sorting.
From S2P Require Import Prelude Bytes Decimal Types Codec F64 Expr Typing Eval EvalRow Spill Sorting Operators SortOp SortMerge.

(** ** Output chunks *)

Lemma delivers_snoc tys src rs chunk more :
  delivers tys src rs → types chunk = tys → more ≠ [] → holds_rows chunk more → delivers tys (src ++ [Ok chunk]) (rs ++ more).
Proof.
  intros Hd Ht Hne Hh. induction Hd as [|c0 r0 src rest Ht0 Hne0 Hh0 _ IH]; simpl.
  - rewrite <- (app_nil_r more). by constructor; [..|constructor].
  - rewrite <- app_assoc. by constructor.
Qed.

Lemma build_output_chunks_spec tys rows :
  Forall (λ row, Forall2 (λ v ty, matches_type v ty = true) row tys) rows →
  ∃ chunks, build_output_chunks tys rows = Ok chunks ∧ delivers tys (Ok <$> chunks) rows.
Proof.
  intros Hrows. unfold build_output_chunks.
  set (step := λ '(output, builder, pending_rows) row, _).
  assert (∀ out1 done1 done2 b, delivers tys (Ok <$> out1) done1 → builder_holds tys done2 b → (length done2 < CHUNK_CAPACITY)%nat →
    ∃ out2 d1 d2 b', for_each rows (out1, b, length done2) step = Ok (out2, b', length d2) ∧
      delivers tys (Ok <$> out2) d1 ∧ builder_holds tys d2 b' ∧ d1 ++ d2 = done1 ++ done2 ++ rows) as Hloop.
  { induction Hrows as [|row rows Hrow _ IH]; intros out1 done1 done2 b Hd Hb Hlt.
    { exists out1, done1, done2, b. by rewrite app_nil_r. }
    destruct (push_row_accepts tys done2 b row Hb Hrow Hlt) as (b1 & Hp & Hb1). cbn [for_each]. unfold step at 1. rewrite Hp. cbn [bind].
    unfold is_full. rewrite (proj1 (proj2 Hb1)), length_app. cbn [length]. destruct (Nat.eqb_spec (length done2 + 1) CHUNK_CAPACITY) as [E|E].
    - destruct (finish_holds _ _ _ Hb1) as (chunk & -> & Ht & Hh). cbn [bind].
      destruct (IH (out1 ++ [chunk]) (done1 ++ done2 ++ [row]) [] (builder_new tys)) as (out2 & d1 & d2 & b' & Hf & Hd1 & Hb' & He).
      + rewrite fmap_app. apply delivers_snoc; [done|done| |done]. by destruct done2.
      + apply builder_new_holds.
      + unfold CHUNK_CAPACITY. simpl. lia.
      + exists out2, d1, d2, b'. split_and!; [exact Hf|done|done|]. rewrite He. by rewrite <- !app_assoc.
    - destruct (IH out1 done1 (done2 ++ [row]) b1 Hd Hb1) as (out2 & d1 & d2 & b' & Hf & Hd1 & Hb' & He); [rewrite length_app; simpl; lia|].
      exists out2, d1, d2, b'. split_and!; [|done|done|by rewrite He, <- !app_assoc].
      rewrite length_app, Nat.add_1_r in Hf. exact Hf. }
  destruct (Hloop [] [] [] (builder_new tys)) as (out2 & d1 & d2 & b' & Hf0 & Hd1 & Hb' & He);
    [constructor|apply builder_new_holds|unfold CHUNK_CAPACITY; simpl; lia|].
  cbn [length] in Hf0. rewrite Hf0. cbn [bind]. simpl in He. destruct d2 as [|r d2].
  - exists out2. rewrite app_nil_r in He. by subst.
  - destruct (finish_holds _ _ _ Hb') as (chunk & Hf & Ht & Hh). exists (out2 ++ [chunk]).
    cbn [length Nat.eqb]. rewrite Hf. split; [done|]. rewrite fmap_app, <- He. by apply delivers_snoc.
Qed.

(** ** Rows with their keys *)

#[export] Instance pulled_total {T U} (P0 : U → Prop) c0 `{!TotalCompare P0 c0} (f : T → U) (Q : T → Prop) :
  TotalCompare (λ x, P0 (f x) ∧ Q x) (λ x y, c0 (f x) (f y)).
Proof.
  split; [intros x y [Hx _] [Hy _]; by apply cmp_antisym|]. intros x y z [Hx _] [Hy _] [Hz _]. by apply cmp_trans.
Qed.

Lemma charge_in_range values bytes : buffered_values_charge values = Ok bytes → in_u 64 bytes.
Proof.
  unfold buffered_values_charge. apply (for_each_inv (in_u 64)); [done|].
  intros v total total' _ _ Ht. by apply ok_or_Ok, try_u_Some in Ht as [-> ?].
Qed.

Lemma charge_no_panic values : buffered_values_charge values ≠ Panic.
Proof. apply (for_each_no_panic (λ _, True)); [done|]. intros v total _ _. split; [apply ok_or_no_panic|done]. Qed.

Lemma encode_len_no_panic len : encode_spill_len len ≠ Panic.
Proof. unfold encode_spill_len. intros [Hp|(? & _ & ?)]%bind_Panic; [|done]. by apply ok_or_no_panic in Hp. Qed.

Lemma encode_bytes_no_panic bytes : encode_spill_bytes bytes ≠ Panic.
Proof. unfold encode_spill_bytes. intros [Hp|(? & _ & ?)]%bind_Panic; [|done]. by apply encode_len_no_panic in Hp. Qed.

Lemma encode_value_no_panic v : encode_spill_value v ≠ Panic.
Proof.
  destruct v; simpl; try done; unfold encode_spill_vector; intros [Hp|(? & _ & ?)]%bind_Panic; try done.
  all: by apply encode_bytes_no_panic in Hp || apply encode_len_no_panic in Hp.
Qed.

Lemma write_row_no_panic row : write_spill_row row ≠ Panic.
Proof.
  unfold write_spill_row, write_spill_row_bounded, encode_spill_row.
  intros [[Hp|(count & _ & [Hp|(vs & _ & [Hp|(len & _ & ?)]%bind_Panic)]%bind_Panic)]%bind_Panic|(payload & _ & Hp)]%bind_Panic; [| | |done|].
  - by apply encode_len_no_panic in Hp.
  - revert Hp. apply collect_no_panic. intros v _. apply encode_value_no_panic.
  - by apply ok_or_no_panic in Hp.
  - case_match; [done|]. apply bind_Panic in Hp as [Hp|(? & _ & ?)]; [|done]. by apply ok_or_no_panic in Hp.
Qed.

Lemma write_rows_no_panic rows : write_spill_rows rows ≠ Panic.
Proof.
  unfold write_spill_rows. intros [Hp|(? & _ & ?)]%bind_Panic; [|done]. revert Hp. apply collect_no_panic. intros row _. apply write_row_no_panic.
Qed.

(** ** Runs *)

Lemma stably_sorted_from {T} (c : T → T → comparison) rows out k :
  stably_sorted c rows out → ∃ t, out = t.*2 ∧ StronglySorted (before c) t ∧ t ≡ₚ enumerate_from k rows.
Proof.
  intros (t & -> & Hs & Hp). set (shift := λ x : nat * T, ((k + x.1)%nat, x.2)). exists (shift <$> t). split_and!.
  - rewrite <- list_fmap_compose. by apply list_fmap_ext.
  - clear Hp. induction Hs as [|x t _ IH Hx]; [constructor|]. rewrite fmap_cons. constructor; [done|].
    apply Forall_fmap. eapply Forall_impl; [exact Hx|]. intros y. unfold before, shift. simpl. intros [?|[? ?]]; [by left|right; split; [done|lia]].
  - rewrite Hp. assert (∀ n, shift <$> enumerate_from n rows = enumerate_from (k + n) rows) as Hshift.
    { clear Hp. induction rows as [|r rows IH]; intros n; [done|]. rewrite !enumerate_from_cons, fmap_cons, IH. by rewrite <- Nat.add_succ_r. }
    unfold enumerate. by rewrite Hshift, Nat.add_0_r.
Qed.

Lemma enumerate_from_app {A} (xs ys : list A) : ∀ k, enumerate_from k (xs ++ ys) = enumerate_from k xs ++ enumerate_from (k + length xs) ys.
Proof.
  induction xs as [|x xs IH]; intros k; [by rewrite Nat.add_0_r|]. cbn [app]. rewrite !enumerate_from_cons. cbn [app]. rewrite IH.
  by rewrite Nat.add_succ_comm.
Qed.

Lemma enumerate_from_bound {A} (xs : list A) k i x : (i, x) ∈ enumerate_from k xs → (k ≤ i < k + length xs)%nat.
Proof.
  intros Hx. assert (i ∈ (enumerate_from k xs).*1) as Hi by (apply list_elem_of_fmap; by exists (i, x)).
  rewrite enumerate_fst in Hi. apply elem_of_seq in Hi. lia.
Qed.

Section Runs.
Context {T : Type} (P : T → Prop) (c : T → T → comparison) `{!TotalCompare P c} (encode : T → list Value).

(** A file holding the stable sort of the rows [part]. *)
Definition run_holds (file : list Z) (part : list T) : Prop :=
  ∃ out, stably_sorted c part out ∧ write_spill_rows (encode <$> out) = Ok file.

Lemma runs_tagged files parts : Forall2 run_holds files parts → Forall (Forall P) parts → ∀ k,
  ∃ ts, Forall2 (cursor_rows P encode) (open_run <$> files) ts ∧ Forall (StronglySorted (before c)) ts ∧ ordered ts ∧
    concat ts ≡ₚ enumerate_from k (concat parts).
Proof.
  induction 1 as [|file part files parts (out & Hs & Hw) _ IH]; intros HP k.
  { exists []. split_and!; [constructor|constructor| |done]. intros i j ti tj x y _ Hi. done. }
  apply Forall_cons in HP as [HP1 HP]. destruct (IH HP (k + length part)%nat) as (ts & Hts & Hsort & Hord & Hp).
  destruct (stably_sorted_from c part out k Hs) as (t & -> & Hst & Hpt). exists (t :: ts). split_and!.
  - rewrite fmap_cons. constructor; [|done]. exists t.*2. split_and!; [done| |simpl; lia|constructor|done|done].
    rewrite Hpt. unfold enumerate_from. rewrite snd_zip by (by rewrite length_seq). done.
  - by constructor.
  - intros i j ti tj x y Hij Hi Hj Hx Hy. destruct j as [|j]; [lia|]. destruct i as [|i]; [|by eapply (Hord i j); [lia|..]].
    injection Hi as <-. simpl in Hj. rewrite Hpt in Hx. destruct x as [n x]. apply enumerate_from_bound in Hx. simpl.
    assert (y ∈ concat ts) as Hyc.
    { apply list_elem_of_lookup_2 in Hj. clear -Hj Hy. induction ts as [|t' ts IH]; [by apply not_elem_of_nil in Hj|].
      simpl. apply elem_of_app. apply elem_of_cons in Hj as [->|Hj]; [by left|by right; apply IH]. }
    rewrite Hp in Hyc. destruct y as [m y]. apply enumerate_from_bound in Hyc. simpl. lia.
  - cbn [concat]. rewrite enumerate_from_app, Hpt, Hp. done.
Qed.

(** Opening the runs starts a merge of all their rows. *)
Lemma runs_merging files parts s :
  Forall2 run_holds files parts → Forall P (concat parts) →
  StronglySorted (before c) s → s ≡ₚ enumerate (concat parts) → merging P c encode s (open_run <$> files).
Proof.
  intros Hr HP Hs Hp. destruct (runs_tagged files parts Hr) with (k := 0%nat) as (ts & ? & ? & ? & Hpt).
  { clear Hr Hp. induction parts as [|part parts IH]; [constructor|]. cbn [concat] in HP. apply Forall_app in HP as [? ?]. constructor; [done|by apply IH]. }
  exists ts. split_and!; [done..|]. by rewrite Hp, Hpt.
Qed.
End Runs.

(** ** The operator *)

(** The results of an operator as in [trace], with the state it ends in. *)
Fixpoint trace_end {S} (next : S → outcome (option Chunk) * S) (fuel : nat) (s : S) : source * S :=
  match fuel with
  | O => ([], s)
  | S fuel =>
      match next s with
      | (Ok None, s) => ([], s)
      | (Ok (Some chunk), s) => let '(res, s) := trace_end next fuel s in (Ok chunk :: res, s)
      | (Err e, s) => ([Err e], s)
      | (Panic, s) => ([Panic], s)
      end
  end.

(** A source that delivers the rows [rs], or a prefix of them and then an error. *)
Inductive delivers_or_fails (tys : list LogicalType) : source → list (list Value) → Prop :=
| df_nil : delivers_or_fails tys [] []
| df_cons chunk rs src rest :
    types chunk = tys → rs ≠ [] → holds_rows chunk rs → delivers_or_fails tys src rest → delivers_or_fails tys (Ok chunk :: src) (rs ++ rest)
| df_err e rs : delivers_or_fails tys [Err e] rs.

Lemma delivers_length tys src rs : delivers tys src rs → (length src ≤ length rs)%nat.
Proof. induction 1 as [|chunk [|r rs] src rest _ ? _ _ IH]; [done..|]. rewrite length_app. simpl. lia. Qed.

Section SortSpec.
Context `{FloatEnv} {Operator : Type} (subquery_rows : Expr Operator → Chunk → gmap (list Z) nat → outcome (list Value)).
Context (grants : nat → Z → bool) (run_io : nat → outcome unit).
Context (keys : list (Expr Operator * SortOrder)) (cols : gmap (list Z) nat).
Context (tys : list LogicalType) (kinds : list order_kind) (base : Z).
Hypothesis run_io_ok : ∀ n, run_io n ≠ Panic.
Hypothesis base_ok : 0 ≤ base.

(** A row of the input's types whose keys are of the kinds [kinds]. *)
Definition row_ok (row : SortRow) : Prop :=
  Forall2 of_kind kinds (sr_keys row) ∧
  (length (sr_keys row) = length keys ∧ Forall2 (λ v ty, matches_type v ty = true) (sr_values row) tys ∧ Forall spill_ok (encode_sort_row row)).

Definition row_cmp (x y : SortRow) : comparison := keys_cmp (snd <$> keys) (sr_keys x) (sr_keys y).

#[local] Instance row_total : TotalCompare row_ok row_cmp.
Proof. apply (pulled_total (Forall2 of_kind kinds) (keys_cmp (snd <$> keys)) sr_keys). Qed.

Lemma rows_compare x y : row_ok x → row_ok y → compare_sort_rows keys x y = Ok (row_cmp x y).
Proof. intros [Hx _] [Hy _]. by apply (keys_cmp_Ok kinds). Qed.

Lemma rows_decode row : row_ok row → decode_sort_spill_row (length tys) (length keys) (encode_sort_row row) = Ok row.
Proof.
  intros (_ & Hk & Hv & _). unfold decode_sort_spill_row, encode_sort_row. pose proof (Forall2_length _ _ _ Hv) as Hl.
  rewrite length_app, Hl, Hk, Nat.eqb_refl. cbn [negb]. rewrite take_app_length', drop_app_length' by done. by destruct row.
Qed.

Lemma rows_charge row : sort_row_charge row ≠ Panic ∧ ∀ bytes, sort_row_charge row = Ok bytes → in_u 64 bytes.
Proof. split; [apply charge_no_panic|]. intros bytes. apply charge_in_range. Qed.

Lemma rows_sort rows : Forall row_ok rows → ∃ out, stable_sort_by rows (compare_sort_rows keys) = Ok out ∧ stably_sorted row_cmp rows out ∧ Forall row_ok out.
Proof.
  intros Hrows. destruct (stable_sort_spec row_ok row_cmp rows (compare_sort_rows keys) Hrows) as (out & Hout & Hs).
  - rewrite Forall_forall in Hrows. intros x y Hx Hy. by apply rows_compare; apply Hrows.
  - exists out. split_and!; [done..|]. destruct Hs as (t & -> & _ & Hp). rewrite Hp, enumerate_snd. done.
Qed.

(** *** Buffering and spilling *)

(** What the budget has granted is what the buffered rows were charged for. *)
Definition accounted (s : Sort) : Prop := 0 ≤ buffered_bytes s ∧ held (account s) = base + buffered_bytes s.
Definition fresh (s : Sort) : Prop := output s = None ∧ initialization_error s = None.

(** After the rows [d]: some spilled in runs, the rest buffered. *)
Definition init_inv (d : list SortRow) (s : Sort) : Prop :=
  (∃ parts, d = concat parts ++ buffered s ∧ Forall2 (run_holds row_cmp encode_sort_row) (runs s) parts) ∧
  Forall row_ok d ∧ accounted s ∧ fresh s.

Definition taken (s : Sort) : Sort :=
  mkSort (upstream s) [] 0 (runs s) (mkAccount (asked (account s)) base) (output s) (initialization_error s).

Lemma take_rows_run s : accounted s → take_rows s = (Ok (buffered s), taken s).
Proof.
  intros [H0 Hh]. unfold take_rows, release_rows, sbind, on_account, release. simpl. rewrite (proj2 (Z.leb_le _ _)) by lia. cbn.
  unfold taken, set_rows, set_account. simpl. do 3 f_equal. lia.
Qed.

Lemma spill_spec d s : init_inv d s →
  match spill_sort_run run_io keys s with
  | (Ok _, s') => init_inv d s' ∧ buffered s' = []
  | (Err _, s') => accounted s' ∧ fresh s'
  | (Panic, _) => False
  end.
Proof.
  intros Hi. pose proof Hi as ((parts & Hd & Hr) & Hok & Ha & Hf). unfold spill_sort_run. destruct (buffered s) as [|row rest] eqn:Eb; [done|].
  rewrite <- Eb in *. clear Eb row rest. unfold sbind, sort_buffered.
  assert (Forall row_ok (buffered s)) as Hb by (rewrite Hd in Hok; by apply Forall_app in Hok as [_ ?]).
  destruct (rows_sort (buffered s) Hb) as (out & -> & Hs & _). unfold write_run. cbn [set_rows buffered runs].
  destruct (run_io (length (runs s))) as [[]|e|] eqn:Eio; [|done|by apply run_io_ok in Eio]. cbn [bind].
  destruct (write_spill_rows (encode_sort_row <$> out)) as [file|e|] eqn:Ew; [|done|by apply write_rows_no_panic in Ew].
  rewrite take_rows_run by done. unfold sret. split; [|done]. split_and!; [|done|split; simpl; lia|done].
  exists (parts ++ [buffered s]). simpl. split; [by rewrite concat_app, app_nil_r; simpl; rewrite app_nil_r|].
  apply Forall2_app; [done|]. constructor; [|constructor]. by exists out.
Qed.

(** A granted row joins the buffered rows. *)
Lemma push_granted d s row bytes n : init_inv d s → row_ok row → in_u 64 bytes →
  init_inv (d ++ [row]) (set_rows (buffered s ++ [row]) (buffered_bytes s + bytes) (set_account (mkAccount n (held (account s) + bytes)) s)).
Proof.
  intros ((parts & -> & Hr) & Hok & [H0 Hh] & Hf) Hrow [? _]. split_and!; [|by apply Forall_app; split; [|constructor]|split; simpl; lia|done].
  exists parts. simpl. by rewrite app_assoc.
Qed.

Lemma asked_inv d s n : init_inv d s → init_inv d (set_account (mkAccount n (held (account s))) s).
Proof. intros (? & ? & [? ?] & ?). by split_and!. Qed.

Lemma buffer_row_spec d s row : init_inv d s → row_ok row →
  match buffer_row grants run_io keys row s with
  | (Ok _, s') => init_inv (d ++ [row]) s'
  | (Err _, s') => accounted s' ∧ fresh s'
  | (Panic, _) => False
  end.
Proof.
  intros Hi Hrow. pose proof Hi as (_ & _ & Ha & Hf). unfold buffer_row, sbind, slift. destruct (rows_charge row) as [Hnp Hb].
  destruct (sort_row_charge row) as [bytes|e|]; [|done..]. specialize (Hb bytes eq_refl).
  unfold on_account at 1, charge_or_reclaim at 1. destruct (grants (asked (account s)) bytes); [exact (push_granted d s row bytes _ Hi Hrow Hb)|].
  pose proof (spill_spec d _ (asked_inv d s (S (asked (account s))) Hi)) as Hs.
  destruct (spill_sort_run run_io keys _) as [[[]|e|] s1]; [|done..]. destruct Hs as [Hi1 _].
  unfold on_account, charge_after_spill, sbind, charge_or_reclaim. destruct (grants (asked (account s1)) bytes).
  - exact (push_granted d s1 row bytes _ Hi1 Hrow Hb).
  - by destruct Hi1 as (_ & _ & ? & ?).
Qed.

Lemma buffer_rows_spec rows : ∀ d s, init_inv d s → Forall row_ok rows →
  match sfor rows tt (λ _ row, buffer_row grants run_io keys row) s with
  | (Ok _, s') => init_inv (d ++ rows) s'
  | (Err _, s') => accounted s' ∧ fresh s'
  | (Panic, _) => False
  end.
Proof.
  induction rows as [|row rows IH]; intros d s Hi Hrows; [by rewrite app_nil_r|]. apply Forall_cons in Hrows as [Hrow Hrows].
  cbn [sfor]. unfold sbind. pose proof (buffer_row_spec d s row Hi Hrow) as Hs.
  destruct (buffer_row grants run_io keys row s) as [[[]|e|] s1]; [|done..].
  rewrite (cons_middle row d rows), app_assoc. by apply IH.
Qed.

(** *** The input *)

(** A row with its evaluated keys. *)
Definition keyed_row (row : list Value) : outcome SortRow :=
  let! row_keys := project_row tys cols keys row in
  let! _ := validate_sort_keys row_keys in
  Ok (mkSortRow row row_keys).

Lemma keyed_rows rs srs : Forall2 (λ row sr, keyed_row row = Ok sr) rs srs →
  srs = zip_with mkSortRow rs (sr_keys <$> srs) ∧ Forall2 (λ row ks, project_row tys cols keys row = Ok ks) rs (sr_keys <$> srs) ∧
  Forall (λ sr, validate_sort_keys (sr_keys sr) = Ok tt) srs.
Proof.
  induction 1 as [|row sr rs srs Hk _ (IH1 & IH2 & IH3)]; [by split_and!; constructor|].
  apply bind_Ok in Hk as (ks & Hks & Hk). apply bind_Ok in Hk as ([] & Hv & [= <-]).
  rewrite fmap_cons. cbn [sr_keys zip_with]. split_and!; [by f_equal|by constructor|by constructor].
Qed.

Hypothesis keys_plain : forallb (λ ex, negb (expression_contains_scalar ex.1)) keys = true.

Lemma evaluate_chunk_spec chunk rs srs :
  types chunk = tys → holds_rows chunk rs → rs ≠ [] → Forall2 (λ row sr, keyed_row row = Ok sr) rs srs →
  evaluate_sort_chunk subquery_rows keys cols chunk = Ok srs.
Proof.
  intros Ht Hh Hne Hk. destruct (keyed_rows rs srs Hk) as (Hz & Hp & Hv). pose proof (Forall2_length _ _ _ Hk) as Hl.
  destruct (project_columns tys cols keys rs _ Hp) as (vss & Hvss & Hc). rewrite <- Ht in Hvss.
  unfold evaluate_sort_chunk. rewrite (scalar_columns subquery_rows chunk rs cols keys vss) by done. cbn [bind].
  pose proof Hh as (_ & -> & _). apply collect_Ok, Forall2_same_length_lookup_2; [by rewrite length_seq|].
  intros j j' sr [-> _]%lookup_seq Hj. simpl. destruct (Forall2_lookup_r _ _ _ _ _ Hk Hj) as (row & Hr & Hkr).
  assert (values_at vss j = Ok (sr_keys sr)) as ->.
  { apply collect_Ok. eapply Forall2_impl; [apply (Hc j); by rewrite list_lookup_fmap, Hj|]. intros vs v Hvs. simpl. by rewrite Hvs. }
  rewrite Forall_forall in Hv. cbn [bind]. rewrite (Hv sr) by (by eapply list_elem_of_lookup_2). cbn [bind].
  rewrite (clone_row_holds chunk rs j row) by done. cbn [bind].
  apply bind_Ok in Hkr as (ks & _ & Hkr). by apply bind_Ok in Hkr as ([] & _ & [= <-]).
Qed.

(** Draining the input buffers or spills its rows, in order. *)
Lemma drain_spec src rs : delivers tys src rs → ∀ srs d s known,
  Forall2 (λ row sr, keyed_row row = Ok sr) rs srs → Forall row_ok srs → init_inv d s →
  match drain_upstream subquery_rows grants run_io keys cols src known s with
  | (Ok tys', s') => init_inv (d ++ srs) s' ∧ tys' = (match known with Some _ => known | None => if decide (rs = []) then None else Some tys end)
  | (Err _, s') => accounted s' ∧ fresh s'
  | (Panic, _) => False
  end.
Proof.
  induction 1 as [|chunk r0 src rest Ht Hne Hh _ IH]; intros srs d s known Hk Hok Hi.
  { apply Forall2_nil_inv_l in Hk as ->. cbn [drain_upstream]. unfold sret. rewrite app_nil_r. by destruct known. }
  apply Forall2_app_inv_l in Hk as (s1 & s2 & Hk1 & Hk2 & ->). apply Forall_app in Hok as [Hok1 Hok2].
  cbn [drain_upstream]. unfold sbind at 1, sbind at 1, slift. unfold evaluate_sort_rows. cbn [for_each].
  rewrite (evaluate_chunk_spec chunk r0 s1) by done. cbn [bind app]. unfold sbind at 1.
  assert (init_inv d (set_upstream src s)) as Hi' by done. pose proof (buffer_rows_spec s1 d _ Hi' Hok1) as Hb.
  destruct (sfor s1 tt _ (set_upstream src s)) as [[[]|e|] s']; [|done..].
  specialize (IH s2 (d ++ s1) s' (match known with None => Some (types chunk) | Some _ => known end) Hk2 Hok2 Hb).
  destruct (drain_upstream _ _ _ _ _ _ _ s') as [[ty|e|] s'']; [|done..]. destruct IH as [Hinv ->]. rewrite app_assoc. split; [done|].
  destruct known; [done|]. rewrite Ht. rewrite decide_False; [done|]. by destruct r0.
Qed.

(** *** Merging into chunks *)

Notation merging := (merging row_ok row_cmp encode_sort_row).

Lemma merging_ok st cs : merging st cs → Forall row_ok st.*2.
Proof.
  intros (ts & Hts & _ & _ & _ & Hp). rewrite Hp. clear Hp. induction Hts as [|cur t cs ts (infile & _ & HP & _) _ IH]; [constructor|].
  cbn [concat]. rewrite fmap_app. by apply Forall_app.
Qed.

Lemma merge_fill_spec rounds : ∀ done_ b st cs a,
  builder_holds tys done_ b → (CHUNK_CAPACITY ≤ length done_ + rounds)%nat → merging st cs → held a = base + cursors_bytes cs →
  match merge_fill grants keys rounds (length tys) b (length done_) (cs, a) with
  | (Ok (b', n), (cs', a')) => ∃ st1 st2, st = st1 ++ st2 ∧ builder_holds tys (done_ ++ (sr_values <$> st1.*2)) b' ∧
      n = (length done_ + length st1)%nat ∧ (st2 = [] ∨ n = CHUNK_CAPACITY) ∧ merging st2 cs' ∧ held a' = base + cursors_bytes cs'
  | (Err _, (cs', a')) => droppable cs' ∧ held a' = base + cursors_bytes cs'
  | (Panic, _) => False
  end.
Proof.
  induction rounds as [|rounds IH]; intros done_ b st cs a Hb Hcap Hm Hh; pose proof Hb as (_ & Hn & Hle & _); cbn [merge_fill];
    unfold is_full; rewrite Hn; destruct (Nat.eqb_spec (length done_) CHUNK_CAPACITY) as [E|E]; try lia.
  1, 2: unfold sret; exists [], st; cbn [fmap list_fmap]; rewrite (app_nil_r done_); split_and!; [done|done|simpl; lia|by right|done|done].
  unfold sbind at 1.
  pose proof (take_next_spec row_ok row_cmp grants encode_sort_row _ sort_row_charge _ rows_compare rows_decode
    (λ x Hx, proj2 (proj2 (proj2 Hx))) (λ x _, rows_charge x) st cs a base Hm base_ok Hh) as Hs.
  destruct (take_next grants _ _ _ (cs, a)) as [[[row|]|e|] [cs' a']]; [| |done..].
  - destruct Hs as (i & st' & -> & Hm' & Hh'). pose proof (merging_ok _ _ Hm) as Hok. rewrite fmap_cons in Hok. apply Forall_cons in Hok as [Hrow _].
    destruct (push_row_accepts tys done_ b (sr_values row)) as (b1 & Hp & Hb1); [done|by destruct Hrow as (_ & _ & ? & _)|lia|].
    unfold sbind, slift. cbn [snd] in *. rewrite Hp. specialize (IH (done_ ++ [sr_values row]) b1 st' cs' a' Hb1).
    rewrite length_app, Nat.add_1_r in IH. specialize (IH ltac:(lia) Hm' Hh').
    destruct (merge_fill grants keys rounds _ b1 _ (cs', a')) as [[[b' n]|e|] [cs'' a'']]; [|done..].
    destruct IH as (st1 & st2 & -> & Hb' & -> & Hfull & Hm'' & Hh''). exists ((i, row) :: st1), st2.
    rewrite !fmap_cons. cbn [snd length]. split_and!; [done|by rewrite <- app_assoc in Hb'|lia|destruct Hfull; [by left|right; lia]|done|done].
  - destruct Hs as (-> & Hm' & Hh'). unfold sret. exists [], []. cbn [fmap list_fmap]. rewrite (app_nil_r done_). split_and!; [done|done|simpl; lia|by left|done|done].
Qed.

Lemma merge_next_spec st cs a : merging st cs → held a = base + cursors_bytes cs →
  match merge_next_chunk grants keys tys (cs, a) with
  | (Ok None, (cs', a')) => st = [] ∧ merging [] cs' ∧ held a' = base + cursors_bytes cs'
  | (Ok (Some chunk), (cs', a')) => ∃ st1 st2, st = st1 ++ st2 ∧ st1 ≠ [] ∧ types chunk = tys ∧ holds_rows chunk (sr_values <$> st1.*2) ∧
      merging st2 cs' ∧ held a' = base + cursors_bytes cs'
  | (Err _, (cs', a')) => droppable cs' ∧ held a' = base + cursors_bytes cs'
  | (Panic, _) => False
  end.
Proof.
  intros Hm Hh. unfold merge_next_chunk, sbind at 1.
  pose proof (merge_fill_spec CHUNK_CAPACITY [] (builder_new tys) st cs a (builder_new_holds tys) ltac:(simpl; lia) Hm Hh) as Hf.
  cbn [length] in Hf. destruct (merge_fill grants keys CHUNK_CAPACITY _ _ 0 (cs, a)) as [[[b n]|e|] [cs' a']]; [|done..].
  destruct Hf as (st1 & st2 & -> & Hb & -> & Hfull & Hm' & Hh'). cbn [length app Nat.add] in *. destruct st1 as [|x st1].
  - cbn [Nat.eqb length]. unfold sret. assert (st2 = []) as -> by (destruct Hfull; [done|unfold CHUNK_CAPACITY in *; simpl in *; lia]). done.
  - cbn [length Nat.eqb]. unfold sbind, slift. destruct (finish_holds _ _ _ Hb) as (chunk & -> & Ht & Hr). unfold sret.
    by exists (x :: st1), st2.
Qed.

(** *** Delivering the output *)

(** What is left to deliver. *)
Definition out_inv (s : Sort) (rest : list SortRow) : Prop :=
  match output s with
  | Some (InMemory chunks) => delivers tys (Ok <$> chunks) (sr_values <$> rest) ∧ held (account s) = base
  | Some (External m) => m_types m = tys ∧ (∃ st, st.*2 = rest ∧ merging st (cursors m)) ∧ held (account s) = base + cursors_bytes (cursors m)
  | None => False
  end.

(** Nothing is held but what dropping the operator releases. *)
Definition drop_inv (s : Sort) : Prop :=
  match output s with
  | Some (External m) => droppable (cursors m) ∧ held (account s) = base + cursors_bytes (cursors m)
  | _ => held (account s) = base
  end.

Lemma out_drop s rest : out_inv s rest → drop_inv s.
Proof.
  unfold out_inv, drop_inv. destruct (output s) as [[chunks|m]|]; [by intros [_ ?]| |done].
  intros (_ & (st & _ & ts & Hts & _) & ?). split; [|done]. by eapply cursor_droppable.
Qed.

(** Finishing: the rows left are sorted, or become the last run. *)
Lemma finish_spec rs srs out s :
  Forall2 (λ row sr, keyed_row row = Ok sr) rs srs → stably_sorted row_cmp srs out → init_inv srs s →
  match finish_sort run_io keys (if decide (rs = []) then None else Some tys) s with
  | (Ok _, s') => accounted s' ∧ out_inv (taken s') out
  | (Err _, s') => accounted s' ∧ fresh s'
  | (Panic, _) => False
  end.
Proof.
  intros Hk Hout Hi. pose proof Hi as (_ & Hok & Ha & _). destruct (decide (rs = [])) as [->|Hne]; cbn [finish_sort].
  { apply Forall2_nil_inv_l in Hk as ->. destruct Hout as (t & -> & _ & ->%Permutation_nil_r). split; [done|]. split; [constructor|done]. }
  destruct (runs s) as [|file files] eqn:Er; unfold sbind.
  - destruct Hi as ((parts & Hp & Hr) & _). rewrite Er in Hr. apply Forall2_nil_inv_l in Hr as ->. cbn [concat app] in Hp. subst srs.
    unfold sort_buffered. destruct (rows_sort (buffered s) Hok) as (out' & -> & Hs' & Hok').
    assert (out' = out) as -> by exact (stably_sorted_unique row_ok row_cmp _ _ _ Hok Hs' Hout).
    rewrite take_rows_run by done. cbn [set_rows buffered]. unfold slift.
    destruct (build_output_chunks_spec tys (sr_values <$> out)) as (chunks & -> & Hch).
    { apply Forall_fmap. eapply Forall_impl; [exact Hok'|]. by intros ? (_ & _ & ? & _). }
    split; [split; simpl; lia|]. by split.
  - pose proof (spill_spec _ _ Hi) as Hs. destruct (spill_sort_run run_io keys s) as [[[]|e|] s2]; [|done..].
    destruct Hs as [((parts & Hp & Hr) & _ & Ha2 & _) Hb]. rewrite Hb, app_nil_r in Hp. subst srs. split; [done|].
    unfold out_inv. cbn [taken output set_output account held]. split_and!; [done| |].
    + destruct Hout as (t & -> & Hst & Hpt). exists t. split; [done|]. by eapply runs_merging.
    + cbn [cursors]. rewrite <- (Z.add_0_r base) at 1. f_equal. clear. induction (runs s2); [done|].
      rewrite fmap_cons, cursors_bytes_cons. unfold cursor_bytes. simpl. lia.
Qed.

Lemma initialize_spec src rs srs out n :
  delivers tys src rs → Forall2 (λ row sr, keyed_row row = Ok sr) rs srs → Forall row_ok srs → stably_sorted row_cmp srs out →
  match initialize subquery_rows grants run_io keys cols (sort_new src (mkAccount n base)) with
  | (Ok _, s') => out_inv s' out
  | (Err _, s') => drop_inv s' ∧ output s' = None
  | (Panic, _) => False
  end.
Proof.
  intros Hd Hk Hok Hout. unfold initialize. cbn [sort_new upstream].
  assert (init_inv [] (sort_new src (mkAccount n base))) as H0.
  { split_and!; [by exists []|constructor|by split; simpl; lia|done]. }
  pose proof (drain_spec src rs Hd srs [] _ None Hk Hok H0) as Hdr. unfold sbind.
  assert (∀ s, accounted s → fresh s → drop_inv (taken s) ∧ output (taken s) = None) as Hfail.
  { intros s _ [Ho _]. unfold drop_inv. cbn [taken output]. by rewrite Ho. }
  destruct (drain_upstream _ _ _ _ _ src None _) as [[ty|e|] s1]; [|destruct Hdr; rewrite take_rows_run by done; by apply Hfail|done].
  destruct Hdr as [Hi ->]. cbn [app] in Hi. pose proof (finish_spec rs srs out s1 Hk Hout Hi) as Hf.
  destruct (finish_sort run_io keys _ s1) as [[[]|e|] s2]; [|destruct Hf; rewrite take_rows_run by done; by apply Hfail|done].
  destruct Hf as [Ha Ho]. by rewrite take_rows_run.
Qed.

Notation sort_next := (sort_next subquery_rows grants run_io keys cols).

Lemma out_trace fuel : ∀ s rest, out_inv s rest → (length rest < fuel)%nat →
  let '(res, s') := trace_end sort_next fuel s in delivers_or_fails tys res (sr_values <$> rest) ∧ drop_inv s'.
Proof.
  induction fuel as [|fuel IH]; intros s rest Ho Hf; [lia|]. cbn [trace_end]. unfold SortOp.sort_next at 1, next_output.
  pose proof (out_drop s rest Ho) as Hdrop. revert Ho. unfold out_inv. destruct (output s) as [[[|chunk chunks]|m]|] eqn:Eo; [| | |done].
  - intros [Hd _]. inversion Hd as [E|]. split; [constructor|done].
  - intros [Hd Hh]. rewrite fmap_cons in Hd. inversion Hd as [|chunk' r0 src0 rest0 Ht Hne Hc Hd' E1 E2]. subst chunk' src0.
    symmetry in E2. apply fmap_app_inv in E2 as (r1 & r2 & -> & -> & ->).
    specialize (IH (set_output (InMemory chunks) s) r2 (conj Hd' Hh)). rewrite length_app in Hf.
    assert (0 < length r1)%nat by (destruct r1; [done|simpl; lia]). specialize (IH ltac:(lia)).
    destruct (trace_end _ fuel _) as [res s']. destruct IH as [IH ?]. split; [|done]. by constructor.
  - intros (Ht & (st & <- & Hm) & Hh). rewrite Ht. pose proof (merge_next_spec st (cursors m) (account s) Hm Hh) as Hs.
    destruct (merge_next_chunk grants keys tys _) as [[[chunk|]|e|] [cs a]]; [| |split; [constructor|done]|done].
    + destruct Hs as (st1 & st2 & -> & Hne & Htc & Hhold & Hm' & Hh').
      set (s1 := set_output (External (mkMerge tys cs)) (set_account a s)).
      assert (out_inv s1 st2.*2) as Ho1 by (split_and!; [done|by exists st2|done]). rewrite fmap_app, length_app, length_fmap in Hf.
      assert (0 < length st1)%nat by (destruct st1; [done|simpl; lia]). specialize (IH s1 st2.*2 Ho1 ltac:(lia)).
      destruct (trace_end _ fuel _) as [res s']. destruct IH as [IH ?]. split; [|done]. rewrite !fmap_app. constructor; [done| |done|done].
      by destruct st1.
    + destruct Hs as (-> & Hm' & Hh'). split; [constructor|]. apply (out_drop _ []). by split_and!; [|exists []|].
Qed.

Lemma memory_trace chunks : ∀ s fuel, output s = Some (InMemory chunks) → (length chunks < fuel)%nat →
  (trace_end sort_next fuel s).1 = Ok <$> chunks.
Proof.
  induction chunks as [|chunk chunks IH]; intros s [|fuel] Ho Hf; simpl in Hf; try lia; cbn [trace_end];
    unfold SortOp.sort_next at 1, next_output; rewrite Ho; [done|].
  specialize (IH (set_output (InMemory chunks) s) fuel eq_refl ltac:(lia)). destruct (trace_end _ fuel _). simpl in *. by rewrite IH.
Qed.

Lemma drop_all {T} (cs : list (RunCursor T)) : ∀ a, droppable cs → held a = base + cursors_bytes cs →
  ∃ a', sfor cs tt (λ _ c, drop_cursor c) a = (Ok tt, a') ∧ held a' = base.
Proof.
  induction cs as [|cur cs IH]; intros a Hd Hh; [exists a; unfold cursors_bytes in Hh; simpl in Hh; split; [done|lia]|].
  apply Forall_cons in Hd as [[Hb Hl] Hd]. rewrite cursors_bytes_cons in Hh. pose proof (cursors_bytes_nonneg cs Hd) as Hcs.
  pose proof (bytes_nonneg _ Hb) as H0. fold (cursor_bytes cur) in H0.
  assert (foldl (λ total row, Z.min (2 ^ 64 - 1) (total + snd row)) 0 (run_buffered cur) = cursor_bytes cur) as Hsum.
  { unfold cursor_bytes. destruct (run_buffered cur) as [|x [|y buf]]; [done| |simpl in Hl; lia].
    apply Forall_cons in Hb as [[? ?] _]. cbn [foldl fmap list_fmap foldr]. lia. }
  cbn [sfor]. unfold sbind, drop_cursor at 1, release. rewrite Hsum, (proj2 (Z.leb_le _ _)) by lia.
  apply IH; [done|]. simpl. lia.
Qed.

Lemma drop_sort_spec s : drop_inv s → ∃ s', drop_sort s = (Ok tt, s') ∧ held (account s') = base.
Proof.
  unfold drop_inv, drop_sort, on_account. destruct (output s) as [[chunks|m]|]; [by exists s| |by exists s].
  intros [Hd Hh]. destruct (drop_all (cursors m) (account s) Hd Hh) as (a' & -> & ?). by exists (set_account a' s).
Qed.

(** *** When every request is granted *)

Section Granted.
Hypothesis always : ∀ n bytes, grants n bytes = true.

Lemma buffer_row_granted s row : runs s = [] → is_ok (sort_row_charge row) = true →
  ∃ s', buffer_row grants run_io keys row s = (Ok tt, s') ∧ runs s' = [].
Proof.
  intros Hr Hc. unfold buffer_row, sbind, slift. destruct (sort_row_charge row) as [bytes|e|]; [|done..].
  unfold on_account at 1, charge_or_reclaim at 1. rewrite always. by eexists.
Qed.

Lemma buffer_rows_granted rows : ∀ d s, init_inv d s → runs s = [] → Forall row_ok rows → Forall (λ row, is_ok (sort_row_charge row) = true) rows →
  ∃ s', sfor rows tt (λ _ row, buffer_row grants run_io keys row) s = (Ok tt, s') ∧ init_inv (d ++ rows) s' ∧ runs s' = [].
Proof.
  induction rows as [|row rows IH]; intros d s Hi Hr Hrows Hc; [exists s; by rewrite app_nil_r|].
  apply Forall_cons in Hrows as [Hrow Hrows]. apply Forall_cons in Hc as [Hc1 Hc]. cbn [sfor]. unfold sbind at 1.
  pose proof (buffer_row_spec d s row Hi Hrow) as Hs. destruct (buffer_row_granted s row Hr Hc1) as (s1 & E & Hr1). rewrite E in Hs |- *.
  rewrite (cons_middle row d rows), app_assoc. by apply IH.
Qed.

Lemma drain_granted src rs : delivers tys src rs → ∀ srs d s known,
  Forall2 (λ row sr, keyed_row row = Ok sr) rs srs → Forall row_ok srs → init_inv d s → runs s = [] →
  Forall (λ row, is_ok (sort_row_charge row) = true) srs →
  ∃ ty s', drain_upstream subquery_rows grants run_io keys cols src known s = (Ok ty, s') ∧ runs s' = [].
Proof.
  induction 1 as [|chunk r0 src rest Ht Hne Hh _ IH]; intros srs d s known Hk Hok Hi Hr Hc; [by exists known, s|].
  apply Forall2_app_inv_l in Hk as (s1 & s2 & Hk1 & Hk2 & ->). apply Forall_app in Hok as [Hok1 Hok2]. apply Forall_app in Hc as [Hc1 Hc2].
  cbn [drain_upstream]. unfold sbind at 1, sbind at 1, slift. unfold evaluate_sort_rows. cbn [for_each].
  rewrite (evaluate_chunk_spec chunk r0 s1) by done. cbn [bind app]. unfold sbind at 1.
  destruct (buffer_rows_granted s1 d (set_upstream src s)) as (s' & -> & Hi' & Hr'); [done..|]. by eapply IH.
Qed.

Lemma initialize_granted src rs srs n :
  delivers tys src rs → Forall2 (λ row sr, keyed_row row = Ok sr) rs srs → Forall row_ok srs →
  Forall (λ row, is_ok (sort_row_charge row) = true) srs →
  ∃ s' chunks, initialize subquery_rows grants run_io keys cols (sort_new src (mkAccount n base)) = (Ok tt, s') ∧
    output s' = Some (InMemory chunks).
Proof.
  intros Hd Hk Hok Hc. unfold initialize. cbn [sort_new upstream].
  assert (init_inv [] (sort_new src (mkAccount n base))) as H0.
  { split_and!; [by exists []|constructor|by split; simpl; lia|done]. }
  pose proof (drain_spec src rs Hd srs [] _ None Hk Hok H0) as Hdr.
  destruct (drain_granted src rs Hd srs [] _ None Hk Hok H0 eq_refl Hc) as (ty & s1 & Ed & Hr). unfold sbind. rewrite Ed in Hdr |- *.
  destruct Hdr as [Hi ->]. cbn [app] in Hi. destruct (rows_sort srs Hok) as (out & _ & Hout & _).
  pose proof (finish_spec rs srs out s1 Hk Hout Hi) as Hf. pose proof Hi as ((parts & Hp & Hrs) & _ & Ha & _).
  rewrite Hr in Hrs. apply Forall2_nil_inv_l in Hrs as ->. cbn [concat app] in Hp.
  destruct (decide (rs = [])) as [->|Hne]; cbn [finish_sort] in Hf |- *.
  { rewrite take_rows_run by done. by eexists _, _. }
  rewrite Hr in Hf |- *. unfold sbind, sort_buffered in Hf |- *. subst srs. destruct (rows_sort (buffered s1) Hok) as (out' & Es & _ & Hok').
  rewrite Es in Hf |- *. rewrite take_rows_run in Hf |- * by done. cbn [set_rows buffered] in Hf |- *. unfold slift in Hf |- *.
  destruct (build_output_chunks tys (sr_values <$> out')) as [chunks|e|] eqn:Eb; [|destruct Hf as [_ [Hf _]]|done].
  - rewrite take_rows_run by (split; simpl; lia). by eexists _, chunks.
  - destruct (build_output_chunks_spec tys (sr_values <$> out')) as (chunks & Eb' & _); [|congruence].
    apply Forall_fmap. eapply Forall_impl; [exact Hok'|]. by intros ? (_ & _ & ? & _).
Qed.
End Granted.

(** The first call initializes and then delivers. *)
Lemma first_call s s' fuel :
  fresh s → initialize subquery_rows grants run_io keys cols s = (Ok tt, s') → output s' ≠ None →
  trace_end sort_next (S fuel) s = trace_end sort_next (S fuel) s'.
Proof.
  intros [Ho He] Hi Ho'. cbn [trace_end]. assert (sort_next s = sort_next s') as ->; [|done].
  unfold SortOp.sort_next. rewrite Ho, He, Hi. by destruct (output s').
Qed.

(** C10: the blocking sort is a stable sort, whatever the memory budget answers
    and however its input was chunked: the rows it delivers are those of the
    input in key order, equal keys in input order, in non-empty chunks.  When a
    refused charge makes it spill, the merge of the runs gives the same rows as
    sorting in memory; when it stops with an error (the budget, a row too large
    to spill, the file system) what it delivered before is a prefix of the
    right answer.  It never panics, dropping it returns every byte it was
    granted, and when every charge is granted it always delivers everything. *)
Theorem sort_refines src rs srs n :
  delivers tys src rs → Forall2 (λ row sr, keyed_row row = Ok sr) rs srs → Forall row_ok srs →
  ∃ out, stably_sorted row_cmp srs out ∧
    let '(res, s) := trace_end sort_next (S (length rs)) (sort_new src (mkAccount n base)) in
    delivers_or_fails tys res (sr_values <$> out) ∧
    (∃ s', drop_sort s = (Ok tt, s') ∧ held (account s') = base) ∧
    ((∀ n bytes, grants n bytes = true) → Forall (λ row, is_ok (sort_row_charge row) = true) srs →
     delivers tys res (sr_values <$> out)).
Proof.
  intros Hd Hk Hok. destruct (rows_sort srs Hok) as (out & _ & Hout & _). exists out. split; [done|].
  assert (length out = length rs) as Hl.
  { rewrite (Forall2_length _ _ _ Hk). destruct Hout as (t & -> & _ & Hp). by rewrite length_fmap, (Permutation_length Hp), <- (enumerate_snd srs), length_fmap, enumerate_snd. }
  pose proof (initialize_spec src rs srs out n Hd Hk Hok Hout) as Hi.
  pose proof (λ Hg, initialize_granted Hg src rs srs n Hd Hk Hok) as Hgrant.
  set (s0 := sort_new src (mkAccount n base)) in *. assert (fresh s0) as Hf by done.
  destruct (initialize subquery_rows grants run_io keys cols s0) as [[[]|e|] s1] eqn:Ei; [| |done].
  - assert (output s1 ≠ None) as Hne by (unfold out_inv in Hi; by destruct (output s1)).
    rewrite (first_call s0 s1 (length rs) Hf Ei Hne). pose proof (out_trace (S (length rs)) s1 out Hi ltac:(lia)) as Ht.
    destruct (trace_end sort_next (S (length rs)) s1) as [res s] eqn:Et. destruct Ht as [Hdf Hdrop]. split_and!; [done|by apply drop_sort_spec|].
    intros Hg Hc. destruct (Hgrant Hg Hc) as (s' & chunks & [= <-] & Ho). unfold out_inv in Hi. rewrite Ho in Hi. destruct Hi as [Hi _].
    pose proof (memory_trace chunks s1 (S (length rs)) Ho) as Hm. rewrite Et in Hm. apply delivers_length in Hi as Hll.
    rewrite !length_fmap in Hll. simpl in Hm. rewrite Hm by lia. done.
  - cbn [trace_end]. unfold SortOp.sort_next at 1. rewrite (proj1 Hf), (proj2 Hf), Ei. destruct Hi as [Hdrop Ho].
    split_and!; [constructor| |intros Hg Hc; by destruct (Hgrant Hg Hc) as (? & ? & ? & _)].
    apply drop_sort_spec. unfold drop_inv in *. cbn [set_error output account]. by rewrite Ho in Hdrop |- *.
Qed.
End SortSpec.

(** The rows 0 5 7 9 by [n.x] descending, the third charge refused: the first
    two rows are spilled and merged back with the others. *)
Definition sort_keys : list (Expr Empty_set * SortOrder) := [(Col [110; 46; 120], Desc)].
Definition sort_rows : list SortRow := (λ x, mkSortRow [Int64 x] [Int64 x]) <$> [0; 5; 7; 9].
Definition refuse_third (n : nat) (_ : Z) : bool := negb (n =? 2)%nat.

Lemma sort_refines_witness :
  ∃ out, stably_sorted (row_cmp sort_keys) sort_rows out ∧
    let '(res, s) := trace_end (sort_next (λ _ _ _, Panic) refuse_third (λ _, Ok tt) sort_keys witness_columns) 5
      (sort_new pipeline_source (mkAccount 0 100)) in
    collect (λ r, let! chunk := r in rows chunk) res = Ok [[[Int64 9]; [Int64 7]; [Int64 5]; [Int64 0]]] ∧
    length (runs s) = 2%nat ∧ delivers_or_fails [TInt64] res (sr_values <$> out).
Proof.
  destruct (sort_refines (λ _ _ _, Panic) refuse_third (λ _, Ok tt) sort_keys witness_columns [TInt64] [KInt] 100 ltac:(done) ltac:(done)
    ltac:(vm_compute; reflexivity) pipeline_source [[Int64 0]; [Int64 5]; [Int64 7]; [Int64 9]] sort_rows 0) as (out & Hs & Ht).
  - exact pipeline_source_delivers.
  - repeat constructor; vm_compute; reflexivity.
  - repeat (apply Forall_cons; split); [..|apply Forall_nil, I]; (split; [constructor; [by right|constructor]|]);
      (split_and!; [reflexivity|by repeat constructor|repeat constructor; by vm_compute]).
  - exists out. split; [exact Hs|].
    assert (let '(res, s) := trace_end (sort_next (λ _ _ _, Panic) refuse_third (λ _, Ok tt) sort_keys witness_columns) 5
        (sort_new pipeline_source (mkAccount 0 100)) in
      collect (λ r, let! chunk := r in rows chunk) res = Ok [[[Int64 9]; [Int64 7]; [Int64 5]; [Int64 0]]] ∧ length (runs s) = 2%nat) as Hc
      by (vm_compute; split; reflexivity).
    change (S (length [[Int64 0]; [Int64 5]; [Int64 7]; [Int64 9]])) with 5%nat in Ht.
    destruct (trace_end _ 5 _) as [res s]. destruct Hc, Ht as [Ht _]. split_and!; [assumption|assumption|exact Ht].
Defined.
