(* ===== verification/AggState.v ===== *)
(** Aggregate states of [devondb-exec/src/operators.rs]: how [count], [sum],
    [min], [max], [avg] and [percentile_cont] accumulate values and finish.

    A state is updated value by value, or column by column through the typed
    loops; both are here, with the proof that they accumulate the same.  The
    precision of [f64::powi] is not specified by the language, so the powers of
    ten that a decimal average divides by are the parameter [powi10]. *)

From stdpp Require Import sorting.
From S2P Require Import Prelude Bytes Decimal Types Codec F64 Expr Typing Eval Sorting.
From Stdlib Require Import SpecFloat.

(** ** States *)

Inductive AggregateState :=
| SCount (count : Z)
| SSum (sum : option Value)
| SMin (minimum : option Value)
| SMax (maximum : option Value)
| SAvg (sum : option Value) (count : Z)
| SPercentile (expected seen : Z) (scale : option Z) (lower upper : option Decimal128).

#[export] Instance AggregateFunction_eq_dec : EqDecision AggregateFunction.
Proof. solve_decision. Defined.

Definition has_constant_aggregate_state (function : AggregateFunction) : bool :=
  match function with Count | Sum | Min | Max | Avg => true | PercentileCont => false end.

Definition initial_aggregate_state (function : AggregateFunction) : AggregateState :=
  match function with
  | Count => SCount 0
  | Sum => SSum None
  | Min => SMin None
  | Max => SMax None
  | Avg => SAvg None 0
  | PercentileCont => SPercentile 0 0 None None None
  end.

(** ** Errors *)

Definition invalid_aggregate_type : DevonError := InvalidArgument "aggregate `{function}` does not accept input type {}".
Definition invalid_aggregate_pair : DevonError := InvalidArgument "aggregate `{function}` cannot combine input types {} and {}".
Definition decimal_sum_overflow : DevonError := InvalidArgument "aggregate `sum` overflowed Decimal precision {MAX_PRECISION}".
Definition int64_sum_overflow : DevonError := InvalidArgument "aggregate `{function}` overflowed for Int64 inputs".
Definition unordered_percentile : DevonError := Corrupt "percentile_cont state received an unordered input record".

(** ** One value *)

Definition increment_count (count : Z) : outcome Z :=
  ok_or (try_i 64 (count + 1)) (InvalidArgument "aggregate `count` overflowed Int64").

Definition increment_avg_count (count : Z) : outcome Z :=
  ok_or (try_u 64 (count + 1)) (InvalidArgument "aggregate `avg` input count overflowed").

Definition update_count (count : Z) (value : Value) : outcome Z :=
  match value with Null => Ok count | _ => increment_count count end.

Definition validate_decimal_sum_precision (value : Decimal128) : outcome unit :=
  if MAX_PRECISION <? precision value then Err decimal_sum_overflow else Ok tt.

Definition update_decimal_sum (total value : Decimal128) : outcome Decimal128 :=
  if negb (scale total =? scale value)
  then Err (Corrupt "aggregate `sum` cannot combine Decimal values with scales {} and {}") else
  let! digits := ok_or (try_i 128 (digits total + digits value)) decimal_sum_overflow in
  let! next := Decimal.new digits (scale total) in
  let! _ := validate_decimal_sum_precision next in
  Ok next.

Definition update_extreme (extreme : option Value) (value : Value) (replacement_order : comparison) : outcome (option Value) :=
  match value with
  | Null => Ok extreme
  | _ =>
      let! _ := compare_order_values value value in
      match extreme with
      | None => Ok (Some value)
      | Some current =>
          let! ordering := compare_order_values value current in
          Ok (if bool_decide (ordering = replacement_order) then Some value else Some current)
      end
  end.

Section Floats.
Context `{FloatEnv}.

(** [total += value] on floats. *)
Definition f64_sum (total value : Z) : Z :=
  bits_of_f64 (arith_nan OpAdd total value) (f64_add (f64_of_bits total) (f64_of_bits value)).

Definition update_sum (sum : option Value) (value : Value) : outcome (option Value) :=
  match value with
  | Null => Ok sum
  | _ =>
      match sum with
      | None =>
          match value with
          | Int64 _ | Float64 _ => Ok (Some value)
          | Decimal d => let! _ := validate_decimal_sum_precision d in Ok (Some (Decimal d))
          | _ => Err invalid_aggregate_type
          end
      | Some (Int64 total) =>
          match value with
          | Int64 x => let! total := ok_or (try_i 64 (total + x)) int64_sum_overflow in Ok (Some (Int64 total))
          | _ => Err invalid_aggregate_pair
          end
      | Some (Float64 total) =>
          match value with Float64 x => Ok (Some (Float64 (f64_sum total x))) | _ => Err invalid_aggregate_pair end
      | Some (Decimal total) =>
          match value with
          | Decimal x => let! total := update_decimal_sum total x in Ok (Some (Decimal total))
          | _ => Err invalid_aggregate_pair
          end
      | Some _ => Err invalid_aggregate_pair
      end
  end.

(** The first value of an average is kept as it is, also a decimal of more
    than [MAX_PRECISION] digits. *)
Definition update_avg (sum : option Value) (count : Z) (value : Value) : outcome (option Value * Z) :=
  match value with
  | Null => Ok (sum, count)
  | _ =>
      let! sum :=
        match sum with
        | None => match value with Int64 _ | Float64 _ | Decimal _ => Ok (Some value) | _ => Err invalid_aggregate_type end
        | Some (Int64 total) =>
            match value with
            | Int64 x => let! total := ok_or (try_i 64 (total + x)) int64_sum_overflow in Ok (Some (Int64 total))
            | _ => Err invalid_aggregate_pair
            end
        | Some (Float64 total) =>
            match value with Float64 x => Ok (Some (Float64 (f64_sum total x))) | _ => Err invalid_aggregate_pair end
        | Some (Decimal total) =>
            match value with
            | Decimal x => let! total := update_decimal_sum total x in Ok (Some (Decimal total))
            | _ => Err invalid_aggregate_pair
            end
        | Some _ => Err invalid_aggregate_pair
        end in
      let! count := increment_avg_count count in
      Ok (sum, count)
  end.

Definition update_aggregate_state (state : AggregateState) (value : Value) : outcome AggregateState :=
  match state with
  | SCount count => let! count := update_count count value in Ok (SCount count)
  | SSum sum => let! sum := update_sum sum value in Ok (SSum sum)
  | SMin minimum => let! minimum := update_extreme minimum value Lt in Ok (SMin minimum)
  | SMax maximum => let! maximum := update_extreme maximum value Gt in Ok (SMax maximum)
  | SAvg sum count => let! (sum, count) := update_avg sum count value in Ok (SAvg sum count)
  | SPercentile _ _ _ _ _ => Err unordered_percentile
  end.

(** ** Typed columns *)

Definition update_int64_sum (sum : option Value) (value : Z) : outcome (option Value) :=
  match sum with
  | None => Ok (Some (Int64 value))
  | Some (Int64 total) => let! total := ok_or (try_i 64 (total + value)) int64_sum_overflow in Ok (Some (Int64 total))
  | Some _ => Err invalid_aggregate_pair
  end.

Definition update_int64_state (state : AggregateState) (value : Z) : outcome AggregateState :=
  match state with
  | SCount count => let! count := increment_count count in Ok (SCount count)
  | SSum sum => let! sum := update_int64_sum sum value in Ok (SSum sum)
  | SMin minimum => let! minimum := update_extreme minimum (Int64 value) Lt in Ok (SMin minimum)
  | SMax maximum => let! maximum := update_extreme maximum (Int64 value) Gt in Ok (SMax maximum)
  | SAvg sum count =>
      let! sum := update_int64_sum sum value in
      let! count := increment_avg_count count in
      Ok (SAvg sum count)
  | SPercentile _ _ _ _ _ => Err unordered_percentile
  end.

Definition update_float64_sum (sum : option Value) (value : Z) : outcome (option Value) :=
  match sum with
  | None => Ok (Some (Float64 value))
  | Some (Float64 total) => Ok (Some (Float64 (f64_sum total value)))
  | Some _ => Err invalid_aggregate_pair
  end.

Definition update_float64_state (state : AggregateState) (value : Z) : outcome AggregateState :=
  match state with
  | SCount count => let! count := increment_count count in Ok (SCount count)
  | SSum sum => let! sum := update_float64_sum sum value in Ok (SSum sum)
  | SMin minimum => let! minimum := update_extreme minimum (Float64 value) Lt in Ok (SMin minimum)
  | SMax maximum => let! maximum := update_extreme maximum (Float64 value) Gt in Ok (SMax maximum)
  | SAvg sum count =>
      let! sum := update_float64_sum sum value in
      let! count := increment_avg_count count in
      Ok (SAvg sum count)
  | SPercentile _ _ _ _ _ => Err unordered_percentile
  end.

Definition update_bool_state (state : AggregateState) (value : bool) : outcome AggregateState :=
  match state with
  | SCount count => let! count := increment_count count in Ok (SCount count)
  | SMin minimum => let! minimum := update_extreme minimum (Bool value) Lt in Ok (SMin minimum)
  | SMax maximum => let! maximum := update_extreme maximum (Bool value) Gt in Ok (SMax maximum)
  | _ => update_aggregate_state state (Bool value)
  end.

Definition update_timestamp_state (state : AggregateState) (value : Z) : outcome AggregateState :=
  match state with
  | SCount count => let! count := increment_count count in Ok (SCount count)
  | SMin minimum => let! minimum := update_extreme minimum (Timestamp value) Lt in Ok (SMin minimum)
  | SMax maximum => let! maximum := update_extreme maximum (Timestamp value) Gt in Ok (SMax maximum)
  | _ => update_aggregate_state state (Timestamp value)
  end.

Definition update_decimal_state_sum (sum : option Value) (value : Decimal128) : outcome (option Value) :=
  match sum with
  | None => let! _ := validate_decimal_sum_precision value in Ok (Some (Decimal value))
  | Some (Decimal total) => let! total := update_decimal_sum total value in Ok (Some (Decimal total))
  | Some _ => Err invalid_aggregate_pair
  end.

Definition update_decimal_state (state : AggregateState) (value : Decimal128) : outcome AggregateState :=
  match state with
  | SCount count => let! count := increment_count count in Ok (SCount count)
  | SSum sum => let! sum := update_decimal_state_sum sum value in Ok (SSum sum)
  | SMin minimum => let! minimum := update_extreme minimum (Decimal value) Lt in Ok (SMin minimum)
  | SMax maximum => let! maximum := update_extreme maximum (Decimal value) Gt in Ok (SMax maximum)
  | SAvg sum count =>
      let! sum := update_decimal_state_sum sum value in
      let! count := increment_avg_count count in
      Ok (SAvg sum count)
  | SPercentile _ _ _ _ _ => Err unordered_percentile
  end.

Definition row_is_valid (validity : option Bitmap) (row : nat) : bool :=
  match validity with None => true | Some bitmap => is_valid bitmap row end.

Definition update_valid_values {T} (values : list T) (validity : option Bitmap)
    (update : AggregateState → T → outcome AggregateState) (state : AggregateState) : outcome AggregateState :=
  for_each (enumerate values) state (λ state '(row, value),
    if row_is_valid validity row then update state value else Ok state).

Definition update_decimal_digits (scale : Z) (state : AggregateState) (digits : Z) : outcome AggregateState :=
  let! value := Decimal.new digits scale in update_decimal_state state value.

Definition update_typed_aggregate_column (state : AggregateState) (column : Column) : outcome AggregateState :=
  match column with
  | CInt64 values validity => update_valid_values values validity update_int64_state state
  | CFloat64 values validity => update_valid_values values validity update_float64_state state
  | CBool values validity => update_valid_values values validity update_bool_state state
  | CTimestamp values validity => update_valid_values values validity update_timestamp_state state
  | CDecimal values scale validity => update_valid_values values validity (update_decimal_digits scale) state
  | Boxed values => for_each values state update_aggregate_state
  end.

Definition update_materialized_aggregate_column (state : AggregateState) (values : list Value) (row_count : nat) : outcome AggregateState :=
  for_each (seq 0 row_count) state (λ state row,
    let! value := ok_or (values !! row) (InvalidArgument "aggregate expression returned fewer than {} rows") in
    update_aggregate_state state value).

(** ** Percentiles *)

Definition update_percentile_count (state : AggregateState) (count : Z) : outcome AggregateState :=
  match state with
  | SPercentile expected seen scale lower upper =>
      let! count := ok_or (try_u 64 count) (Corrupt "spill aggregate row negative percentile count {count}") in
      let! expected := ok_or (try_u 64 (expected + count)) (InvalidArgument "aggregate `percentile_cont` input count overflowed") in
      Ok (SPercentile expected seen scale lower upper)
  | _ => Err (Corrupt "spill aggregate row percentile count names a non-percentile state")
  end.

(** The values arrive in ascending order; the two middle ones are kept. *)
Definition update_percentile_value (state : AggregateState) (value : Decimal128) : outcome AggregateState :=
  match state with
  | SPercentile expected seen scale lower upper =>
      let! scale :=
        match scale with
        | None => Ok (Decimal.scale value)
        | Some expected_scale =>
            if expected_scale =? Decimal.scale value then Ok expected_scale
            else Err (Corrupt "aggregate `percentile_cont` cannot combine Decimal values with scales {expected_scale} and {}")
        end in
      if expected <=? seen then Err (Corrupt "spill aggregate row contains more percentile values than its count records") else
      let lower_index := Z.max 0 (expected - 1) / 2 in
      let upper_index := expected / 2 in
      let lower := if seen =? lower_index then Some value else lower in
      let upper := if seen =? upper_index then Some value else upper in
      Ok (SPercentile expected (seen + 1) (Some scale) lower upper)
  | _ => Err (Corrupt "spill aggregate row percentile value names a non-percentile state")
  end.

(** ** Results *)

Definition exact_decimal_mean (left right : Decimal128) : outcome Decimal128 :=
  let l := digits left in
  let r := digits right in
  if negb (l mod 2 =? r mod 2)
  then Err (InvalidArgument "aggregate `percentile_cont` interpolation between {left} and {right} is not representable at Decimal scale {}") else
  let overflow := InvalidArgument "aggregate `percentile_cont` interpolation overflowed i128" in
  let! halves := ok_or (try_i 128 (Z.quot l 2 + Z.quot r 2)) overflow in
  let! halves := ok_or (try_i 128 (halves + Z.quot (Z.rem l 2 + Z.rem r 2) 2)) overflow in
  Decimal.new halves (scale left).

Definition finish_percentile (expected seen : Z) (lower upper : option Decimal128) (output_type : LogicalType) : outcome Value :=
  if negb (seen =? expected) then Err (Corrupt "aggregate `percentile_cont` counted {expected} values but received {seen}") else
  let! (precision, scale) :=
    match output_type with
    | TDecimal precision scale => Ok (precision, scale)
    | _ => Err (Corrupt "aggregate `percentile_cont` has non-Decimal output type {output_type}")
    end in
  let! lower := ok_or lower (Corrupt "aggregate `percentile_cont` did not retain its lower rank") in
  let! upper := ok_or upper (Corrupt "aggregate `percentile_cont` did not retain its upper rank") in
  if negb (Decimal.scale lower =? scale) || negb (Decimal.scale upper =? scale)
  then Err (Corrupt "aggregate `percentile_cont` output scale {scale} disagrees with input scales {} and {}") else
  let! result := if decide (lower = upper) then Ok lower else exact_decimal_mean lower upper in
  if negb (fits result precision scale)
  then Err (InvalidArgument "aggregate `percentile_cont` result {result} does not fit Decimal({precision}, {scale})")
  else Ok (Decimal result).

(** [as f64] of an integer, and division of floats. *)
Definition f64_bits_of_int (x : Z) : Z := bits_of_f64 0 (f64_of_i64 x).
Definition f64_quotient (l r : Z) : Z := bits_of_f64 (arith_nan OpDiv l r) (f64_div (f64_of_bits l) (f64_of_bits r)).

Context (powi10 : Z → Z).

Definition decimal_to_f64_for_avg (value : Decimal128) : Z := f64_quotient (f64_bits_of_int (digits value)) (powi10 (scale value)).

Definition finish_aggregate_state (state : AggregateState) (output_type : LogicalType) : outcome Value :=
  match state with
  | SCount count => Ok (Int64 count)
  | SSum value | SMin value | SMax value => Ok (default Null value)
  | SAvg sum count =>
      if count =? 0 then Ok Null else
      let! numeric_sum :=
        match sum with
        | Some (Int64 total) => Ok (f64_bits_of_int total)
        | Some (Float64 total) => Ok total
        | Some (Decimal total) => Ok (decimal_to_f64_for_avg total)
        | _ => Err (Corrupt "aggregate `avg` retained a non-numeric sum")
        end in
      Ok (Float64 (f64_quotient numeric_sum (f64_bits_of_int count)))
  | SPercentile expected seen _ lower upper =>
      if (expected =? 0) && (seen =? 0) then Ok Null else finish_percentile expected seen lower upper output_type
  end.

Definition finish_aggregate_states (states : list AggregateState) (output_types : list LogicalType) : outcome (list Value) :=
  if negb (length states =? length output_types)%nat then Err (Corrupt "aggregate has {} states but {} result types") else
  collect (λ '(state, output_type), finish_aggregate_state state output_type) (zip states output_types).
End Floats.

(** ** Agreement of outcomes *)

(** The same value, or both an error; neither panics. *)
Definition same_result {A} (r s : outcome A) : Prop :=
  match r, s with
  | Ok x, Ok y => x = y
  | Err _, Err _ => True
  | _, _ => False
  end.

Lemma same_result_refl {A} (r : outcome A) : r ≠ Panic → same_result r r.
Proof. by destruct r. Qed.

Lemma same_result_Ok {A} (r s : outcome A) x : same_result r s → r = Ok x ↔ s = Ok x.
Proof. destruct r, s; simpl; naive_solver. Qed.

Lemma same_result_trans {A} (r s t : outcome A) : same_result r s → same_result s t → same_result r t.
Proof. destruct r, s, t; simpl; naive_solver. Qed.

Lemma same_result_sym {A} (r s : outcome A) : same_result r s → same_result s r.
Proof. destruct r, s; simpl; naive_solver. Qed.

Lemma same_result_bind {A B} (m m' : outcome A) (k k' : A → outcome B) :
  same_result m m' → (∀ a, m = Ok a → same_result (k a) (k' a)) → same_result (bind m k) (bind m' k').
Proof. destruct m, m'; simpl; intros Hm Hk; try done. subst. by apply Hk. Qed.

Lemma same_result_for_each2 {A B S} (I : S → Prop) (R : A → B → Prop) f g xs ys :
  (∀ s x y, I s → R x y → same_result (f s x) (g s y) ∧ ∀ s', g s y = Ok s' → I s') → Forall2 R xs ys →
  ∀ s : S, I s → same_result (for_each xs s f) (for_each ys s g).
Proof.
  intros Hstep. induction 1 as [|x y xs ys Hxy _ IH]; intros s Hs; [done|]. cbn [for_each]. destruct (Hstep s x y Hs Hxy) as [Ha Hi].
  apply same_result_bind; [done|]. intros s' Hs'. apply IH, Hi. by apply (same_result_Ok _ _ s' Ha).
Qed.

Lemma same_result_collect2 {A B C} (R : A → B → Prop) (f : A → outcome C) g xs ys :
  (∀ x y, R x y → same_result (f x) (g y)) → Forall2 R xs ys → same_result (collect f xs) (collect g ys).
Proof.
  intros Hstep. induction 1 as [|x y xs ys Hxy _ IH]; [done|]. cbn [collect]. apply same_result_bind; [by apply Hstep|]. intros c _.
  by apply same_result_bind.
Qed.

(** ** Typed columns accumulate the values they hold *)

Lemma order_no_panic l r : compare_order_values l r ≠ Panic.
Proof. destruct l, r; simpl; try done. unfold compare_decimal_order. by case_match. Qed.

Lemma extreme_no_panic extreme v order : update_extreme extreme v order ≠ Panic.
Proof.
  unfold update_extreme. destruct v; [done|..]; intros [?%order_no_panic|(? & _ & Hp)]%bind_Panic; try done;
    (destruct extreme; [|done]); apply bind_Panic in Hp as [?%order_no_panic|(? & _ & ?)]; done.
Qed.

Section TypedColumns.
Context `{FloatEnv}.

Definition constant_state (s : AggregateState) : Prop := match s with SPercentile _ _ _ _ _ => False | _ => True end.

(** Decimals of their declared precision, which typed sums check up front. *)
Definition sum_ready (v : Value) : Prop := match v with Decimal d => precision d ≤ MAX_PRECISION | _ => True end.

Lemma update_decimal_sum_no_panic l r : update_decimal_sum l r ≠ Panic.
Proof.
  unfold update_decimal_sum, Decimal.new, validate_decimal_sum_precision. case_match; [done|].
  destruct (try_i 128 _); cbn [ok_or bind]; [|done]. case_match; cbn [bind]; [done|]. by case_match.
Qed.

Lemma update_state_no_panic s v : update_aggregate_state s v ≠ Panic.
Proof.
  destruct s as [n|sum|m|m|sum n|]; simpl; [..|done].
  - intros [Hp|(? & _ & ?)]%bind_Panic; [|done]. unfold update_count, increment_count in Hp. destruct v; try done; by apply ok_or_no_panic in Hp.
  - intros [Hp|(? & _ & ?)]%bind_Panic; [|done]. unfold update_sum, validate_decimal_sum_precision in Hp.
    destruct v; try done; destruct sum as [[]|]; try done; try (by repeat case_match).
    + apply bind_Panic in Hp as [Hp|(? & _ & ?)]; [|done]. by apply ok_or_no_panic in Hp.
    + apply bind_Panic in Hp as [Hp|(? & _ & ?)]; [|done]. by apply update_decimal_sum_no_panic in Hp.
  - intros [Hp|(? & _ & ?)]%bind_Panic; [|done]. by apply extreme_no_panic in Hp.
  - intros [Hp|(? & _ & ?)]%bind_Panic; [|done]. by apply extreme_no_panic in Hp.
  - intros [Hp|([] & _ & ?)]%bind_Panic; [|done]. unfold update_avg in Hp.
    destruct v; try done; apply bind_Panic in Hp as [Hp|(? & _ & Hp)];
      try (apply bind_Panic in Hp as [Hp|(? & _ & ?)]; [|done]; unfold increment_avg_count in Hp; by apply ok_or_no_panic in Hp);
      destruct sum as [[]|]; try done.
    + apply bind_Panic in Hp as [Hp|(? & _ & ?)]; [|done]. by apply ok_or_no_panic in Hp.
    + apply bind_Panic in Hp as [Hp|(? & _ & ?)]; [|done]. by apply update_decimal_sum_no_panic in Hp.
Qed.

Lemma update_keeps_constant s v s' : update_aggregate_state s v = Ok s' → constant_state s'.
Proof. destruct s; simpl; try done; intros Hs; apply bind_Ok in Hs as (x & _ & Hs); try destruct x; by injection Hs as <-. Qed.

#[local] Ltac step_by_cases := repeat (simpl; try done; match goal with |- context [bind ?m _] => destruct m end).

Lemma int64_step s x : same_result (update_int64_state s x) (update_aggregate_state s (Int64 x)).
Proof.
  assert (update_int64_state s x = update_aggregate_state s (Int64 x)) as ->; [|apply same_result_refl, update_state_no_panic].
  destruct s as [n|[[]|]|m|m|[[]|] n|]; step_by_cases.
Qed.

Lemma float64_step s x : same_result (update_float64_state s x) (update_aggregate_state s (Float64 x)).
Proof.
  assert (update_float64_state s x = update_aggregate_state s (Float64 x)) as ->; [|apply same_result_refl, update_state_no_panic].
  destruct s as [n|[[]|]|m|m|[[]|] n|]; step_by_cases.
Qed.

Lemma decimal_step s d : precision d ≤ MAX_PRECISION → same_result (update_decimal_state s d) (update_aggregate_state s (Decimal d)).
Proof.
  intros Hd. assert (update_decimal_state s d = update_aggregate_state s (Decimal d)) as ->; [|apply same_result_refl, update_state_no_panic].
  assert (validate_decimal_sum_precision d = Ok tt) as Hv by (unfold validate_decimal_sum_precision; by rewrite (proj2 (Z.ltb_ge _ _))).
  destruct s as [n|[[]|]|m|m|[[]|] n|]; simpl; rewrite ?Hv; step_by_cases.
Qed.

Lemma bool_step s b : same_result (update_bool_state s b) (update_aggregate_state s (Bool b)).
Proof.
  assert (update_bool_state s b = update_aggregate_state s (Bool b)) as ->; [by destruct s|apply same_result_refl, update_state_no_panic].
Qed.

Lemma timestamp_step s x : same_result (update_timestamp_state s x) (update_aggregate_state s (Timestamp x)).
Proof.
  assert (update_timestamp_state s x = update_aggregate_state s (Timestamp x)) as ->; [by destruct s|apply same_result_refl, update_state_no_panic].
Qed.

Lemma null_step s : constant_state s → update_aggregate_state s Null = Ok s.
Proof. by destruct s. Qed.

(** A column's slots against the values it reads as. *)
Definition slot_holds {T} (validity : option Bitmap) (wrap : T → Value) (slot : nat * T) (v : Value) : Prop :=
  if row_is_valid validity slot.1 then v = wrap slot.2 else v = Null.

Lemma slots_hold {T} (values : list T) validity (wrap : T → Value) vs :
  length vs = length values → (∀ i v, vs !! i = Some v → typed_value validity i values wrap = Ok v) →
  Forall2 (slot_holds validity wrap) (enumerate values) vs.
Proof.
  intros Hl Hv. apply Forall2_same_length_lookup_2; [unfold enumerate, enumerate_from; rewrite length_zip, length_seq; lia|].
  intros i [j x] v Hi Hvi. apply lookup_zip_Some in Hi as [[-> _]%lookup_seq Hx]. simpl in *. specialize (Hv i v Hvi).
  unfold slot_holds, typed_value, row_is_valid, index in *. rewrite Hx in Hv. simpl in *. destruct validity as [b|]; [destruct (is_valid b i)|]; simpl in *; congruence.
Qed.

(** What a column may not be: a decimal column of an impossible scale, whose
    values would read as [Null]. *)
Definition storage_ok (c : Column) : Prop := match c with CDecimal _ scale _ => scale ≤ MAX_SCALE | _ => True end.

Lemma valid_values_same {T} (values : list T) validity (wrap : T → Value) update vs s :
  length vs = length values → (∀ i v, vs !! i = Some v → typed_value validity i values wrap = Ok v) → constant_state s →
  (∀ s x, wrap x ∈ vs → same_result (update s x) (update_aggregate_state s (wrap x))) →
  same_result (update_valid_values values validity update s) (for_each vs s update_aggregate_state).
Proof.
  intros Hl Hv Hs Hu. pose proof (slots_hold values validity wrap vs Hl Hv) as Hh.
  assert (Forall2 (λ slot v, slot_holds validity wrap slot v ∧ v ∈ vs) (enumerate values) vs) as Hh'.
  { apply Forall2_same_length_lookup in Hh as [Hl' Hh]. apply Forall2_same_length_lookup. split; [done|].
    intros i x v Hx Hvi. split; [by eapply Hh|]. by eapply list_elem_of_lookup_2. }
  unfold update_valid_values. eapply (same_result_for_each2 constant_state); [|exact Hh'|done].
  intros s' [row x] v Hs' [Hx Hin]. unfold slot_holds in Hx. simpl in Hx. split.
  - destruct (row_is_valid validity row); subst v; [by apply Hu|]. by rewrite null_step.
  - intros s'' Hs''. by eapply update_keeps_constant.
Qed.

Lemma typed_column_same c vs s :
  length vs = column_len c → (∀ i v, vs !! i = Some v → value_at c i = Ok v) → storage_ok c → Forall sum_ready vs → constant_state s →
  same_result (update_typed_aggregate_column s c) (for_each vs s update_aggregate_state).
Proof.
  intros Hl Hv Hc Hr Hs. destruct c as [values validity|values validity|values validity|values validity|values sc validity|values]; simpl in *.
  - eapply valid_values_same; [done..|]. intros. apply int64_step.
  - eapply valid_values_same; [done..|]. intros. apply float64_step.
  - eapply valid_values_same; [done..|]. intros. apply bool_step.
  - eapply valid_values_same; [done..|]. intros. apply timestamp_step.
  - eapply valid_values_same; [done..|]. intros s' x Hx. unfold update_decimal_digits, decimal_value in *.
    assert (Decimal.new x sc = Ok (mkDecimal x sc)) as Hn by (unfold Decimal.new; by rewrite (proj2 (Z.ltb_ge _ _))). rewrite Hn in *.
    apply decimal_step. rewrite Forall_forall in Hr. by apply (Hr _ Hx).
  - assert (values = vs) as ->; [|apply (same_result_for_each2 (λ _, True) eq); [|by apply Forall_Forall2_diag, Forall_true|done]].
    + apply list_eq_same_length with (length values); [lia|lia|]. intros i x y _ Hx Hy. specialize (Hv i y Hy). unfold index in Hv. rewrite Hx in Hv.
      by injection Hv.
    + intros s' x y _ ->. split; [apply same_result_refl, update_state_no_panic|done].
Qed.

Lemma materialized_column values n s : n = length values →
  update_materialized_aggregate_column s values n = for_each values s update_aggregate_state.
Proof.
  intros ->. unfold update_materialized_aggregate_column. apply for_seq_list. intros s' i x Hx. by rewrite Hx.
Qed.
End TypedColumns.

(** ** Percentiles are medians *)

Definition dec_le (x y : Decimal128) : Prop := digits x ≤ digits y.

#[export] Instance dec_le_dec : RelDecision dec_le.
Proof. intros x y. unfold dec_le. apply _. Defined.
#[export] Instance dec_le_total : Total dec_le.
Proof. intros x y. unfold dec_le. lia. Qed.
#[export] Instance dec_le_trans : Transitive dec_le.
Proof. intros x y z. unfold dec_le. lia. Qed.

(** The two values in the middle of an ordered list; one when its length is odd. *)
Definition lower_middle (vs : list Decimal128) : option Decimal128 := vs !! ((length vs - 1) / 2)%nat.
Definition upper_middle (vs : list Decimal128) : option Decimal128 := vs !! (length vs / 2)%nat.

(** Their mean as a decimal of the output type, when it is one. *)
Definition middle_mean (vs : list Decimal128) (output_type : LogicalType) : option Decimal128 :=
  match output_type, lower_middle vs, upper_middle vs with
  | TDecimal precision scale, Some lo, Some hi =>
      let mean := mkDecimal ((digits lo + digits hi) / 2) scale in
      if bool_decide (Decimal.scale lo = scale ∧ Decimal.scale hi = scale ∧ (digits lo + digits hi) mod 2 = 0 ∧ fits mean precision scale = true)
      then Some mean else None
  | _, _, _ => None
  end.

Lemma exact_mean_spec l r : in_i 128 (digits l) → in_i 128 (digits r) → scale l ≤ MAX_SCALE →
  same_result (exact_decimal_mean l r)
    (if bool_decide ((digits l + digits r) mod 2 = 0) then Ok (mkDecimal ((digits l + digits r) / 2) (scale l)) else Err unordered_percentile).
Proof.
  intros Hl Hr Hs. unfold exact_decimal_mean. pose proof (Z.mod_pos_bound (digits l) 2). pose proof (Z.mod_pos_bound (digits r) 2).
  pose proof (Z.mod_pos_bound (digits l + digits r) 2). pose proof (Zplus_mod (digits l) (digits r) 2) as Hm.
  destruct (digits l mod 2 =? digits r mod 2) eqn:E; reflect_bools; simpl.
  - assert ((digits l + digits r) mod 2 = 0) as Hzero.
    { rewrite Hm, E. assert (digits r mod 2 = 0 ∨ digits r mod 2 = 1) as [-> | ->] by lia; done. }
    rewrite bool_decide_eq_true_2 by done. unfold in_i in Hl, Hr.
    pose proof (Z.quot_rem' (digits l) 2) as Q1. pose proof (Z.quot_rem' (digits r) 2) as Q2. pose proof (Z.div_mod (digits l + digits r) 2 ltac:(lia)) as Q3.
    pose proof (Z.quot_rem' (Z.rem (digits l) 2 + Z.rem (digits r) 2) 2) as Q4.
    pose proof (Z.rem_bound_abs (digits l) 2 ltac:(lia)). pose proof (Z.rem_bound_abs (digits r) 2 ltac:(lia)).
    pose proof (Z.rem_bound_abs (Z.rem (digits l) 2 + Z.rem (digits r) 2) 2 ltac:(lia)).
    assert (Z.rem (Z.rem (digits l) 2 + Z.rem (digits r) 2) 2 = 0) as Hrem.
    { set (q := Z.quot (Z.rem (digits l) 2 + Z.rem (digits r) 2) 2) in *. clearbody q. lia. }
    assert (∀ x, 0 ≤ x → 0 ≤ Z.rem x 2) as Hsign by (intros; by apply Z.rem_nonneg).
    pose proof (Hsign (digits l)). pose proof (Hsign (digits r)).
    rewrite try_i_in by (unfold in_i; change (128 - 1) with 127 in *; lia). cbn [ok_or bind].
    assert (Z.quot (digits l) 2 + Z.quot (digits r) 2 + Z.quot (Z.rem (digits l) 2 + Z.rem (digits r) 2) 2 = (digits l + digits r) / 2) as -> by lia.
    rewrite try_i_in by (unfold in_i; change (128 - 1) with 127 in *; lia). cbn [ok_or bind]. unfold Decimal.new. by rewrite (proj2 (Z.ltb_ge _ _)).
  - rewrite bool_decide_eq_false_2; [done|]. rewrite Hm. assert (digits l mod 2 = 0 ∨ digits l mod 2 = 1) as [E1|E1] by lia;
      assert (digits r mod 2 = 0 ∨ digits r mod 2 = 1) as [E2|E2] by lia; rewrite E1, E2; simpl; try done; lia.
Qed.

(** After [k] of the [n] values. *)
Definition percentile_after (vs : list Decimal128) (sc : Z) (k : nat) : AggregateState :=
  SPercentile (zlen vs) (Z.of_nat k) (if (k =? 0)%nat then None else Some sc)
    (if ((length vs - 1) / 2 <? k)%nat then lower_middle vs else None) (if (length vs / 2 <? k)%nat then upper_middle vs else None).

Lemma percentile_step vs sc k v : vs !! k = Some v → scale v = sc →
  update_percentile_value (percentile_after vs sc k) v = Ok (percentile_after vs sc (S k)).
Proof.
  intros Hv Hs. apply lookup_lt_Some in Hv as Hk. unfold percentile_after, update_percentile_value.
  assert ((match (if (k =? 0)%nat then None else Some sc) with None => Ok (scale v) | Some expected_scale =>
    if expected_scale =? scale v then Ok expected_scale
    else Err (Corrupt "aggregate `percentile_cont` cannot combine Decimal values with scales {expected_scale} and {}") end) = Ok sc) as ->.
  { destruct (k =? 0)%nat; [by rewrite Hs|]. by rewrite Hs, Z.eqb_refl. }
  cbn [bind]. unfold zlen. rewrite (proj2 (Z.leb_gt _ _)) by lia.
  assert (∀ m : nat, Z.of_nat k =? Z.of_nat m = (k =? m)%nat) as Heq.
  { intros m. destruct (Nat.eqb_spec k m); [subst; apply Z.eqb_refl|]. apply Z.eqb_neq. lia. }
  assert (Z.max 0 (Z.of_nat (length vs) - 1) / 2 = Z.of_nat ((length vs - 1) / 2)) as -> by (rewrite Nat2Z.inj_div; f_equal; lia).
  assert (Z.of_nat (length vs) / 2 = Z.of_nat (length vs / 2)) as -> by (by rewrite Nat2Z.inj_div).
  rewrite !Heq. unfold lower_middle, upper_middle. do 2 f_equal; [lia| |].
  - destruct (Nat.eqb_spec k ((length vs - 1) / 2)) as [E|E]; [rewrite <- E, Hv; by rewrite (proj2 (Nat.ltb_lt _ _)) by lia|].
    destruct (Nat.ltb_spec ((length vs - 1) / 2) k), (Nat.ltb_spec ((length vs - 1) / 2) (S k)); try done; lia.
  - destruct (Nat.eqb_spec k (length vs / 2)) as [E|E]; [rewrite <- E, Hv; by rewrite (proj2 (Nat.ltb_lt _ _)) by lia|].
    destruct (Nat.ltb_spec (length vs / 2) k), (Nat.ltb_spec (length vs / 2) (S k)); try done; lia.
Qed.

Lemma percentile_fold vs sc : Forall (λ v, scale v = sc) vs →
  for_each vs (SPercentile (zlen vs) 0 None None None) update_percentile_value = Ok (percentile_after vs sc (length vs)).
Proof.
  intros Hs. assert (∀ k, (k ≤ length vs)%nat → for_each (take k vs) (percentile_after vs sc 0) update_percentile_value = Ok (percentile_after vs sc k)) as Hk.
  { induction k as [|k IH]; intros Hk; [done|]. destruct (lookup_lt_is_Some_2 vs k ltac:(lia)) as [v Hv].
    rewrite (take_S_r _ _ v) by done. rewrite for_each_app, IH by lia. cbn [bind for_each]. rewrite Forall_forall in Hs.
    rewrite (percentile_step vs sc k v Hv) by (by eapply Hs, list_elem_of_lookup_2). done. }
  specialize (Hk (length vs) ltac:(lia)). rewrite firstn_all in Hk. exact Hk.
Qed.

(** What the scale of every value is, when they have one. *)
Definition common_scale (vs : list Decimal128) : option Z :=
  match vs with
  | [] => None
  | v :: _ => if bool_decide (Forall (λ w, scale w = scale v) vs) then Some (scale v) else None
  end.

(** The result for the non-null values of a group: [Null] without values, else
    the mean of the middle ones when they share one scale. *)
Definition median (vs : list Decimal128) (output_type : LogicalType) : outcome Value :=
  match vs with
  | [] => Ok Null
  | _ =>
      if bool_decide (is_Some (common_scale vs)) then
        ok_or (Decimal <$> middle_mean (merge_sort dec_le vs) output_type) unordered_percentile
      else Err unordered_percentile
  end.

Lemma sorted_decimals_unique sc l k :
  Forall (λ v, scale v = sc) l → StronglySorted dec_le l → StronglySorted dec_le k → l ≡ₚ k → l = k.
Proof.
  intros Hs Hl. revert k Hs. induction Hl as [|x l Hl IH Hx]; intros k Hs Hk Hp; [by apply Permutation_nil_l in Hp|].
  destruct Hk as [|y k Hk Hy]; [by apply Permutation_nil_r in Hp|].
  assert (Forall (λ v, scale v = sc) (y :: k)) as Hs' by (by rewrite <- Hp). apply Forall_cons in Hs as [Hsx Hs], Hs' as [Hsy _].
  assert (x = y) as ->; [|f_equal; apply IH; [done|done|by apply Permutation_cons_inv in Hp]].
  assert (dec_le x y) as Hxy.
  { assert (y ∈ x :: l) as Hin by (rewrite Hp; left). apply elem_of_cons in Hin as [->|Hin]; [unfold dec_le; lia|]. rewrite Forall_forall in Hx. by apply Hx. }
  assert (dec_le y x) as Hyx.
  { assert (x ∈ y :: k) as Hin by (rewrite <- Hp; left). apply elem_of_cons in Hin as [->|Hin]; [unfold dec_le; lia|]. rewrite Forall_forall in Hy. by apply Hy. }
  unfold dec_le in *. destruct x as [dx sx], y as [dy sy]. simpl in *. f_equal; [lia|congruence].
Qed.

Lemma common_scale_Some vs sc : common_scale vs = Some sc ↔ vs ≠ [] ∧ Forall (λ v, scale v = sc) vs.
Proof.
  destruct vs as [|v vs]; [naive_solver|]. unfold common_scale. case_bool_decide as E; split.
  - intros [= <-]. done.
  - intros [_ Hf]. apply Forall_cons in Hf as [-> _]. done.
  - done.
  - intros [_ Hf]. destruct E. pose proof Hf as Hf'. apply Forall_cons in Hf' as [-> _]. done.
Qed.

(** The state that has seen all values, in order, finishes as the median. *)
Lemma finish_percentile_spec vs sc ty : common_scale vs = Some sc → StronglySorted dec_le vs → Forall decimal_wf vs →
  same_result (finish_percentile (zlen vs) (zlen vs) (lower_middle vs) (upper_middle vs) ty) (median vs ty).
Proof.
  intros [Hne Hs]%common_scale_Some Hsort Hwf. unfold median.
  assert (merge_sort dec_le vs = vs) as Hm.
  { apply (sorted_decimals_unique sc); [by rewrite merge_sort_Permutation|by apply StronglySorted_merge_sort; apply _|done|apply merge_sort_Permutation]. }
  assert (length vs ≠ 0%nat) as Hl by (by destruct vs).
  assert ((length vs - 1) / 2 < length vs)%nat as H1 by (apply Nat.Div0.div_lt_upper_bound; lia).
  assert (length vs / 2 < length vs)%nat as H2 by (apply Nat.div_lt; lia).
  destruct (lookup_lt_is_Some_2 vs _ H1) as [lo Hlo]. destruct (lookup_lt_is_Some_2 vs _ H2) as [hi Hhi].
  rewrite Forall_forall in Hs, Hwf. pose proof (list_elem_of_lookup_2 _ _ _ Hlo) as Hinl. pose proof (list_elem_of_lookup_2 _ _ _ Hhi) as Hinh.
  assert (is_Some (common_scale vs)) as Hcs by (exists sc; apply common_scale_Some; split; [done|by apply Forall_forall]).
  unfold finish_percentile. rewrite Z.eqb_refl. cbn [negb].
  assert (match vs with [] => Ok Null | _ => if bool_decide (is_Some (common_scale vs)) then ok_or (Decimal <$> middle_mean (merge_sort dec_le vs) ty) unordered_percentile
    else Err unordered_percentile end = ok_or (Decimal <$> middle_mean vs ty) unordered_percentile) as ->.
  { destruct vs; [done|]. by rewrite bool_decide_eq_true_2, Hm. }
  unfold middle_mean, lower_middle, upper_middle. rewrite Hlo, Hhi. destruct ty as [| | | | | | | | |p osc|]; try done. cbn [bind ok_or].
  destruct (Hwf lo Hinl) as [Hil Hsl]. destruct (Hwf hi Hinh) as [Hih _]. pose proof (Hs lo Hinl) as El. pose proof (Hs hi Hinh) as Eh.
  destruct (scale lo =? osc) eqn:E1, (scale hi =? osc) eqn:E2; reflect_bools; cbn [negb orb]; try (exfalso; congruence).
  2: { rewrite bool_decide_eq_false_2; [done|]. naive_solver. }
  assert (same_result (if decide (lo = hi) then Ok lo else exact_decimal_mean lo hi)
    (if bool_decide ((digits lo + digits hi) mod 2 = 0) then Ok (mkDecimal ((digits lo + digits hi) / 2) osc) else Err unordered_percentile)) as Hmean.
  { destruct (decide (lo = hi)) as [->|Hne']; [|rewrite <- E1; apply exact_mean_spec; [done|done|lia]].
    replace (digits hi + digits hi) with (digits hi * 2) by lia. rewrite Z.mod_mul, Z.div_mul by lia. rewrite bool_decide_eq_true_2 by done.
    destruct hi. simpl in *. by subst. }
  destruct (bool_decide ((digits lo + digits hi) mod 2 = 0)) eqn:Epar; reflect_bools.
  - destruct (if decide (lo = hi) then _ else _) as [m|e|] eqn:Em; simpl in Hmean; [|done..]. subst m. cbn [bind].
    destruct (fits _ _ _) eqn:Efit; cbn [negb].
    + rewrite bool_decide_eq_true_2 by done. done.
    + rewrite bool_decide_eq_false_2 by naive_solver. done.
  - destruct (if decide (lo = hi) then _ else _) as [m|e|] eqn:Em; simpl in Hmean; [done| |done]. cbn [bind].
    rewrite bool_decide_eq_false_2 by naive_solver. done.
Qed.
