(* ===== verification/AggregateOp.v ===== *)
(** The aggregation operator of [devondb-exec/src/operators.rs].

    Without group keys the states are updated chunk by chunk.  With them, rows
    are grouped by a hash of their typed keys as long as every column is typed
    and the budget grants the charge; otherwise they are buffered, sorted by
    key, spilled as runs when a charge is refused, and the runs merged.  The
    percentile of a group is computed from its values in order, which a spill
    writes as runs of their own.

    As in [SortOp.v] the answers of the shared budget are [grants] and the file
    system is [run_io].  [sort_unstable_by] of the standard library may order
    equal rows as it likes: it is the class [SortUnstable]. *)

From stdpp Require Import sorting.
From S2P Require Import Prelude Bytes Decimal Types Codec F64 Expr Typing Eval EvalRow Spill Sorting Operators SortOp AggState.

(** ** Rows and records *)

Inductive AggregateRecord :=
| Input (values : list Value)
| PercentileCount (index : nat) (count : Z)
| PercentileValue (index : nat) (value : Decimal128).

Record AggregateInputRow := mkAggRow { group_key : list Value; record : AggregateRecord }.

Definition compare_group_keys (l r : AggregateInputRow) : outcome comparison := compare_key_tuples (group_key l) (group_key r).

Definition aggregate_row_charge (row : AggregateInputRow) : outcome Z :=
  match record row with
  | Input values => buffered_values_charge (group_key row ++ values)
  | PercentileCount _ count => buffered_values_charge (group_key row ++ [Int64 count])
  | PercentileValue _ value => buffered_values_charge (group_key row ++ [Decimal value])
  end.

(** ** Percentile inputs *)

Definition percentile_decimal (index : nat) (row : AggregateInputRow) : option Decimal128 :=
  match record row with
  | Input values => match values !! index with Some (Decimal value) => Some value | _ => None end
  | _ => None
  end.

Definition compare_percentile_values (index : nat) (l r : AggregateInputRow) : comparison :=
  match percentile_decimal index l, percentile_decimal index r with
  | None, None => Eq
  | None, Some _ => Lt
  | Some _, None => Gt
  | Some l, Some r => digits l ?= digits r
  end.

Definition compare_percentile_rows (index : nat) (l r : AggregateInputRow) : outcome comparison :=
  let! group := compare_group_keys l r in
  match group with Eq => Ok (compare_percentile_values index l r) | c => Ok c end.

(** One row: the scale seen so far. *)
Definition validate_percentile_row (index : nat) (scale : option Z) (row : AggregateInputRow) : outcome (option Z) :=
  match record row with
  | Input values =>
      let! value := ok_or (values !! index) (Corrupt "aggregate input row is missing value {index}") in
      match value with
      | Null => Ok scale
      | Decimal d =>
          match scale with
          | None => Ok (Some (Decimal.scale d))
          | Some expected => if expected =? Decimal.scale d then Ok scale
              else Err (Corrupt "aggregate `percentile_cont` cannot combine Decimal values with scales {expected} and {}")
          end
      | _ => Err invalid_aggregate_type
      end
  | _ => Err (Corrupt "in-memory aggregate contains a spill-only record")
  end.

Definition validate_percentile_rows (rows : list AggregateInputRow) (index : nat) : outcome unit :=
  let! _ := for_each rows None (validate_percentile_row index) in Ok tt.

Definition percentile_count (rows : list AggregateInputRow) (index : nat) : outcome Z :=
  ok_or (try_i 64 (zlen (omap (percentile_decimal index) rows))) (InvalidArgument "aggregate `percentile_cont` input count overflowed").

(** ** Groups *)

(** The rows of [rows] after the first that have its key. *)
Fixpoint equal_keys (first : AggregateInputRow) (rows : list AggregateInputRow) : outcome nat :=
  match rows with
  | [] => Ok 0%nat
  | row :: rows =>
      let! ordering := compare_group_keys first row in
      if bool_decide (ordering = Eq) then let! n := equal_keys first rows in Ok (S n) else Ok 0%nat
  end.

(** [group_end] of the slice that starts at a group. *)
Definition group_end (rows : list AggregateInputRow) : outcome nat :=
  let! first := index rows 0 in
  let! n := equal_keys first (drop 1 rows) in
  Ok (S n).

(** ** Typed keys *)

Inductive TypedGroupValue := GNull | GBool (b : bool) | GInt64 (x : Z) | GFloat64 (bits : Z) | GTimestamp (x : Z) | GDecimal (d : Decimal128).
Inductive TypedGroupKey := Single (v : TypedGroupValue) | Composite (values : list TypedGroupValue).

#[export] Instance TypedGroupValue_eq_dec : EqDecision TypedGroupValue.
Proof. solve_decision. Defined.
#[export] Instance TypedGroupKey_eq_dec : EqDecision TypedGroupKey.
Proof. solve_decision. Defined.

(** [sort_unstable_by]: some permutation that the comparison orders. *)
Class SortUnstable := {
  sort_unstable_by {T} : (T → T → comparison) → list T → list T;
  sort_unstable_perm {T} (cmp : T → T → comparison) l : sort_unstable_by cmp l ≡ₚ l;
  sort_unstable_sorted {T} (P : T → Prop) (cmp : T → T → comparison) `{!TotalCompare P cmp} l :
    Forall P l → StronglySorted (λ x y, cmp x y ≠ Gt) (sort_unstable_by cmp l);
}.

Section Aggregation.
Context `{FloatEnv} `{SortUnstable} (powi10 : Z → Z) {Operator : Type}.
Context (subquery_rows : Expr Operator → Chunk → gmap (list Z) nat → outcome (list Value)).
Context (grants : nat → Z → bool) (run_io : nat → outcome unit).
Context (group_by : list (Expr Operator)) (aggs : list (AggregateFunction * Expr Operator)) (cols : gmap (list Z) nat)
  (output_types : list LogicalType).

Definition initial_aggregate_states : list AggregateState := (λ '(function, _), initial_aggregate_state function) <$> aggs.

Fixpoint update_input_states (states : list AggregateState) (values : list Value) : outcome (list AggregateState) :=
  match states, values with
  | state :: states, value :: values =>
      let! state := match state with SPercentile _ _ _ _ _ => Ok state | _ => update_aggregate_state state value end in
      let! states := update_input_states states values in
      Ok (state :: states)
  | _, _ => Ok states
  end.

Definition update_state_at (states : list AggregateState) (index : nat) (update : AggregateState → outcome AggregateState) : outcome (list AggregateState) :=
  let! state := ok_or (states !! index) (Corrupt "spill aggregate row percentile state index is out of range") in
  let! state := update state in
  Ok (<[index := state]> states).

Definition update_aggregate_states (states : list AggregateState) (r : AggregateRecord) : outcome (list AggregateState) :=
  match r with
  | Input values => update_input_states states values
  | PercentileCount index count => update_state_at states index (λ state, update_percentile_count state count)
  | PercentileValue index value => update_state_at states index (λ state, update_percentile_value state value)
  end.

Definition update_in_memory_percentile (states : list AggregateState) (rows : list AggregateInputRow) (index : nat) :
    outcome (list AggregateState * list AggregateInputRow) :=
  let rows := sort_unstable_by (compare_percentile_values index) rows in
  let! count := percentile_count rows index in
  let! state := ok_or (states !! index) (Corrupt "percentile_cont state index is out of range") in
  let! _ := validate_percentile_rows rows index in
  let! state := update_percentile_count state count in
  let! state := for_each (omap (percentile_decimal index) rows) state update_percentile_value in
  Ok (<[index := state]> states, rows).

Definition aggregate_group (rows : list AggregateInputRow) (types : list LogicalType) : outcome (list Value) :=
  let! states := for_each rows initial_aggregate_states (λ states row, update_aggregate_states states (record row)) in
  let! (states, _) := for_each (enumerate aggs) (states, rows) (λ '(states, rows) '(index, (function, _)),
    if bool_decide (function = PercentileCont) then update_in_memory_percentile states rows index else Ok (states, rows)) in
  finish_aggregate_states powi10 states types.

(** [&output_types[group_count..]] *)
Definition result_types : outcome (list LogicalType) :=
  if (length group_by <=? length output_types)%nat then Ok (drop (length group_by) output_types) else Panic.

(** The loop over the groups; each takes at least one row. *)
Fixpoint groups_loop (fuel : nat) (rows : list AggregateInputRow) : outcome (list (list Value)) :=
  match rows with
  | [] => Ok []
  | first :: _ =>
      match fuel with
      | O => Panic
      | S fuel =>
          let! n := group_end rows in
          let! types := result_types in
          let! result := aggregate_group (take n rows) types in
          let! rest := groups_loop fuel (drop n rows) in
          Ok ((group_key first ++ result) :: rest)
      end
  end.

Definition aggregate_groups (rows : list AggregateInputRow) : outcome (list (list Value)) :=
  match rows with
  | [] =>
      match group_by with
      | [] => let! result := aggregate_group [] output_types in Ok [result]
      | _ => Ok []
      end
  | _ => groups_loop (length rows) rows
  end.

(** ** Evaluation *)

Definition evaluate_aggregate_chunk (chunk : Chunk) : outcome (list AggregateInputRow) :=
  let! group_columns := collect (λ expr, scalar_evaluate subquery_rows expr chunk cols) group_by in
  let! aggregate_columns := collect (λ '(_, expr), scalar_evaluate subquery_rows expr chunk cols) aggs in
  collect (λ row,
    let! key := values_at group_columns row in
    let! values := values_at aggregate_columns row in
    Ok (mkAggRow key (Input values))) (seq 0 (row_count chunk)).

Definition evaluate_aggregate_rows (chunks : list Chunk) : outcome (list AggregateInputRow) :=
  for_each chunks [] (λ rows chunk, let! more := evaluate_aggregate_chunk chunk in Ok (rows ++ more)).

(** One aggregate of a chunk, without group keys. *)
Definition update_streaming_state (chunk : Chunk) (state : AggregateState) (expression : Expr Operator) : outcome AggregateState :=
  match expression with
  | Col reference =>
      let! index := ok_or (cols !! reference) (InvalidArgument "unknown column reference `{reference}`") in
      let! column := ok_or (column chunk index)
        (InvalidArgument "column reference `{reference}` maps to out-of-range chunk column {index}") in
      update_typed_aggregate_column state column
  | _ =>
      let! values := scalar_evaluate subquery_rows expression chunk cols in
      update_materialized_aggregate_column state values (row_count chunk)
  end.

Definition update_streaming_chunk (states : list AggregateState) (chunk : Chunk) : outcome (list AggregateState) :=
  collect (λ '(state, (_, expression)), update_streaming_state chunk state expression) (zip states aggs).

(** ** Typed grouping *)

Record TypedAggregateLayout := mkLayoutOf { group_columns : list nat; aggregate_columns : list nat }.

Definition is_primitive_column (c : Column) : bool := match c with Boxed _ => false | _ => true end.
Definition all_columns (layout : TypedAggregateLayout) : list nat := group_columns layout ++ aggregate_columns layout.

Definition supports (layout : TypedAggregateLayout) (chunk : Chunk) : bool :=
  forallb (λ i, match column chunk i with Some c => is_primitive_column c | None => false end) (all_columns layout).

(** [Ok None] is the early return of an expression that is not a column. *)
Fixpoint direct_expression_columns (expressions : list (Expr Operator)) : outcome (option (list nat)) :=
  match expressions with
  | [] => Ok (Some [])
  | Col reference :: rest =>
      let! i := ok_or (cols !! reference) (InvalidArgument "unknown column reference `{reference}`") in
      let! indices := direct_expression_columns rest in
      Ok (cons i <$> indices)
  | _ :: _ => Ok None
  end.

Definition typed_grouped_layout : outcome (option TypedAggregateLayout) :=
  if bool_decide (group_by = []) || existsb (λ '(function, _), bool_decide (function = PercentileCont)) aggs then Ok None else
  let! groups := direct_expression_columns group_by in
  match groups with
  | None => Ok None
  | Some groups =>
      let! aggregates := direct_expression_columns (snd <$> aggs) in
      Ok (mkLayoutOf groups <$> aggregates)
  end.

Definition typed_value_charge (c : Column) (row : nat) : outcome Z :=
  match c with
  | CInt64 _ _ | CFloat64 _ _ | CBool _ _ | CTimestamp _ _ => Ok 16
  | CDecimal _ _ validity => Ok (if row_is_valid validity row then 24 else 16)
  | Boxed _ => Err (InvalidArgument "typed aggregate charge received a Boxed column")
  end.

Definition blocking_row_charge_overflow : DevonError := InvalidArgument "blocking-operator row memory estimate exceeds usize::MAX".

Definition typed_aggregate_chunk_charge (chunk : Chunk) (layout : TypedAggregateLayout) : outcome Z :=
  for_each (seq 0 (row_count chunk)) 0 (λ total row,
    let! row_charge := for_each (all_columns layout) BUFFERED_ROW_OVERHEAD_BYTES (λ row_charge i,
      let! c := ok_or (column chunk i) (InvalidArgument "aggregate column {index} is out of range") in
      let! bytes := typed_value_charge c row in
      ok_or (try_u 64 (row_charge + bytes)) blocking_row_charge_overflow) in
    ok_or (try_u 64 (total + row_charge)) blocking_row_charge_overflow).

Definition typed_group_value {T} (values : list T) (validity : option Bitmap) (row : nat) (wrap : T → outcome TypedGroupValue) : outcome TypedGroupValue :=
  if row_is_valid validity row then let! v := index values row in wrap v else Ok GNull.

Definition primitive_group_value (c : Column) (row : nat) : outcome TypedGroupValue :=
  match c with
  | CInt64 values validity => typed_group_value values validity row (λ x, Ok (GInt64 x))
  | CFloat64 values validity => typed_group_value values validity row (λ x, Ok (GFloat64 x))
  | CBool values validity => typed_group_value values validity row (λ x, Ok (GBool x))
  | CTimestamp values validity => typed_group_value values validity row (λ x, Ok (GTimestamp x))
  | CDecimal values scale validity => typed_group_value values validity row (λ x, let! d := Decimal.new x scale in Ok (GDecimal d))
  | Boxed _ => Err (InvalidArgument "typed aggregate grouping received a Boxed column")
  end.

Definition group_column (chunk : Chunk) (i : nat) : outcome Column :=
  ok_or (column chunk i) (InvalidArgument "aggregate group column {index} is out of range").

Definition typed_group_key (chunk : Chunk) (indices : list nat) (row : nat) : outcome TypedGroupKey :=
  match indices with
  | [i] => let! c := group_column chunk i in let! v := primitive_group_value c row in Ok (Single v)
  | _ => let! values := collect (λ i, let! c := group_column chunk i in primitive_group_value c row) indices in Ok (Composite values)
  end.

Definition materialize_group_key (chunk : Chunk) (indices : list nat) (row : nat) : outcome (list Value) :=
  collect (λ i, let! c := group_column chunk i in value_at c row) indices.

Record TypedGroup := mkGroup { g_key : list Value; g_states : list AggregateState }.

(** The hash map from keys to group numbers, as its entries. *)
Fixpoint key_lookup (lookup : list (TypedGroupKey * nat)) (key : TypedGroupKey) : option nat :=
  match lookup with
  | [] => None
  | (k, i) :: lookup => if decide (k = key) then Some i else key_lookup lookup key
  end.

Definition update_grouped_valid_values {T} (groups : list TypedGroup) (group_indices : list nat) (state_index : nat)
    (values : list T) (validity : option Bitmap) (update : AggregateState → T → outcome AggregateState) : outcome (list TypedGroup) :=
  for_each (enumerate values) groups (λ groups '(row, value),
    if negb (row_is_valid validity row) then Ok groups else
    let! group_index := ok_or (group_indices !! row) (Corrupt "typed aggregate row {row} has no group index") in
    let missing := Corrupt "typed aggregate group {group_index} has no state {state_index}" in
    let! group := ok_or (groups !! group_index) missing in
    let! state := ok_or (g_states group !! state_index) missing in
    let! state := update state value in
    Ok (<[group_index := mkGroup (g_key group) (<[state_index := state]> (g_states group))]> groups)).

Definition update_grouped_typed_column (groups : list TypedGroup) (group_indices : list nat) (state_index : nat) (c : Column) : outcome (list TypedGroup) :=
  match c with
  | CInt64 values validity => update_grouped_valid_values groups group_indices state_index values validity update_int64_state
  | CFloat64 values validity => update_grouped_valid_values groups group_indices state_index values validity update_float64_state
  | CBool values validity => update_grouped_valid_values groups group_indices state_index values validity update_bool_state
  | CTimestamp values validity => update_grouped_valid_values groups group_indices state_index values validity update_timestamp_state
  | CDecimal values scale validity => update_grouped_valid_values groups group_indices state_index values validity (update_decimal_digits scale)
  | Boxed _ => Err (InvalidArgument "typed aggregate accumulation received a Boxed column")
  end.

(** The group of one row, made when its key is new. *)
Definition assign_group (layout : TypedAggregateLayout) (chunk : Chunk) (row : nat)
    (s : list (TypedGroupKey * nat) * list TypedGroup * list nat) : outcome (list (TypedGroupKey * nat) * list TypedGroup * list nat) :=
  let '(lookup, groups, group_indices) := s in
  let! key := typed_group_key chunk (group_columns layout) row in
  match key_lookup lookup key with
  | Some i => Ok (lookup, groups, group_indices ++ [i])
  | None =>
      let i := length groups in
      let! values := materialize_group_key chunk (group_columns layout) row in
      Ok (lookup ++ [(key, i)], groups ++ [mkGroup values initial_aggregate_states], group_indices ++ [i])
  end.

Definition append_typed_aggregate_chunk (layout : TypedAggregateLayout) (chunk : Chunk)
    (s : list (TypedGroupKey * nat) * list TypedGroup) : outcome (list (TypedGroupKey * nat) * list TypedGroup) :=
  let '(lookup, groups) := s in
  let! (lookup, groups, group_indices) := for_each (seq 0 (row_count chunk)) (lookup, groups, []) (λ s row, assign_group layout chunk row s) in
  let! groups := for_each (enumerate (aggregate_columns layout)) groups (λ groups '(state_index, column_index),
    let! c := ok_or (column chunk column_index) (InvalidArgument "aggregate column {column_index} is out of range") in
    update_grouped_typed_column groups group_indices state_index c) in
  Ok (lookup, groups).

Definition finish_typed_groups (groups : list TypedGroup) : outcome (list (list Value)) :=
  let! groups := stable_sort_by groups (λ l r, compare_key_tuples (g_key l) (g_key r)) in
  collect (λ group,
    let! types := result_types in
    let! result := finish_aggregate_states powi10 (g_states group) types in
    Ok (g_key group ++ result)) groups.

(** ** Spilled records *)

Definition encode_aggregate_input_record (row : AggregateInputRow) : list Value :=
  group_key row ++ Int64 (-1) :: match record row with Input values => values | _ => [] end.

Definition encode_percentile_record (key : list Value) (i : nat) (value_record : bool) (value : Value) : outcome (list Value) :=
  let overflow := InvalidArgument "aggregate spill percentile tag overflowed usize" in
  let! doubled := ok_or (try_u 64 (Z.of_nat i * 2)) overflow in
  let! doubled := ok_or (try_u 64 (doubled + if value_record then 1 else 0)) overflow in
  let! tag := ok_or (try_i 64 doubled) (InvalidArgument "aggregate spill percentile tag exceeds Int64") in
  Ok (key ++ [Int64 tag; value]).

Definition decode_aggregate_record (payload : list Value) : outcome AggregateRecord :=
  match payload with
  | Int64 tag :: payload =>
      if tag =? -1 then
        if negb (length payload =? length aggs)%nat then Err (Corrupt "spill aggregate row input record has {} values, expected {}")
        else Ok (Input payload)
      else if tag <? 0 then Err (Corrupt "spill aggregate row invalid negative record tag {tag}") else
      let i := Z.to_nat (tag / 2) in
      if negb (bool_decide (fst <$> aggs !! i = Some PercentileCont))
      then Err (Corrupt "spill aggregate row record tag {tag} does not name a percentile_cont aggregate") else
      match payload with
      | [value] =>
          if tag mod 2 =? 0 then
            match value with
            | Int64 count =>
                if count <? 0 then Err (Corrupt "spill aggregate row percentile count is negative: {count}") else Ok (PercentileCount i count)
            | _ => Err (Corrupt "spill aggregate row percentile count record is not Int64")
            end
          else
            match value with
            | Decimal d => Ok (PercentileValue i d)
            | _ => Err (Corrupt "spill aggregate row percentile value record is not Decimal")
            end
      | _ => Err (Corrupt "spill aggregate row percentile record has {} payload values, expected 1")
      end
  | _ => Err (Corrupt "spill aggregate row record tag is not Int64")
  end.

Definition decode_aggregate_spill_row (row : list Value) : outcome AggregateInputRow :=
  if (length row <? length group_by + 2)%nat
  then Err (Corrupt "spill aggregate row has {} values, expected {group_count} group keys, a tag, and a payload") else
  let! r := decode_aggregate_record (drop (length group_by) row) in
  Ok (mkAggRow (take (length group_by) row) r).

(** Saturating, so that the order of the ranks is kept. *)
Definition aggregate_record_rank (r : AggregateRecord) : Z :=
  let top := 2 ^ 64 - 1 in
  match r with
  | Input _ => 0
  | PercentileCount i _ => Z.min top (Z.min top (Z.of_nat i * 2) + 1)
  | PercentileValue i _ => Z.min top (Z.min top (Z.of_nat i * 2) + 2)
  end.

Definition compare_aggregate_records (l r : AggregateInputRow) : outcome comparison :=
  let! group := compare_group_keys l r in
  match group with
  | Eq =>
      match aggregate_record_rank (record l) ?= aggregate_record_rank (record r) with
      | Eq =>
          match record l, record r with
          | PercentileValue _ l, PercentileValue _ r => Ok (digits l ?= digits r)
          | _, _ => Ok Eq
          end
      | c => Ok c
      end
  | c => Ok c
  end.

(** ** The operator *)

Record AggregateMerge := mkAggMerge { agg_cursors : list (RunCursor AggregateInputRow) }.
Inductive AggregateOutput := AggInMemory (output : list Chunk) | AggExternal (output : AggregateMerge).

(** The operator with the [ChargedRows] and the [TypedAggregateCharge] its
    initialization fills. *)
Record Aggregate := mkAggregate {
  ag_upstream : source; ag_rows : list AggregateInputRow; ag_bytes : Z; ag_typed : Z; ag_runs : list (list Z);
  ag_account : Account; ag_output : option AggregateOutput; ag_error : option DevonError }.

Definition aggregate_new (src : source) (a : Account) : Aggregate := mkAggregate src [] 0 0 [] a None None.

Definition with_upstream (src : source) (s : Aggregate) : Aggregate :=
  mkAggregate src (ag_rows s) (ag_bytes s) (ag_typed s) (ag_runs s) (ag_account s) (ag_output s) (ag_error s).
Definition with_rows (rows : list AggregateInputRow) (bytes : Z) (s : Aggregate) : Aggregate :=
  mkAggregate (ag_upstream s) rows bytes (ag_typed s) (ag_runs s) (ag_account s) (ag_output s) (ag_error s).
Definition with_typed (bytes : Z) (s : Aggregate) : Aggregate :=
  mkAggregate (ag_upstream s) (ag_rows s) (ag_bytes s) bytes (ag_runs s) (ag_account s) (ag_output s) (ag_error s).
Definition with_run (file : list Z) (s : Aggregate) : Aggregate :=
  mkAggregate (ag_upstream s) (ag_rows s) (ag_bytes s) (ag_typed s) (ag_runs s ++ [file]) (ag_account s) (ag_output s) (ag_error s).
Definition with_account (a : Account) (s : Aggregate) : Aggregate :=
  mkAggregate (ag_upstream s) (ag_rows s) (ag_bytes s) (ag_typed s) (ag_runs s) a (ag_output s) (ag_error s).
Definition with_output (o : AggregateOutput) (s : Aggregate) : Aggregate :=
  mkAggregate (ag_upstream s) (ag_rows s) (ag_bytes s) (ag_typed s) (ag_runs s) (ag_account s) (Some o) (ag_error s).
Definition with_error (e : DevonError) (s : Aggregate) : Aggregate :=
  mkAggregate (ag_upstream s) (ag_rows s) (ag_bytes s) (ag_typed s) (ag_runs s) (ag_account s) (ag_output s) (Some e).

Definition charging {A} (m : SM Account A) : SM Aggregate A := λ s,
  let '(r, a) := m (ag_account s) in (r, with_account a s).

Definition set_in_memory (rows : list (list Value)) : SM Aggregate unit :=
  let+ chunks := slift (build_output_chunks output_types rows) in
  λ s, (Ok tt, with_output (AggInMemory chunks) s).

(** *** Streaming *)

Fixpoint stream_upstream (src : source) (states : list AggregateState) : SM Aggregate (list AggregateState) :=
  match src with
  | [] => sret states
  | r :: src =>
      let+ chunk := (λ s, (r, with_upstream src s)) in
      let+ states := slift (update_streaming_chunk states chunk) in
      stream_upstream src states
  end.

Definition initialize_streaming : SM Aggregate unit := λ s,
  (let+ states := stream_upstream (ag_upstream s) initial_aggregate_states in
   let+ output_row := slift (finish_aggregate_states powi10 states output_types) in
   set_in_memory [output_row]) s.

(** *** Typed grouping *)

(** [try_charge] asks without reclaiming; its answer too is one of [grants]. *)
Definition try_grow (bytes : Z) : SM Aggregate bool := λ s,
  (let+ total := slift (ok_or (try_u 64 (ag_typed s + bytes)) blocking_row_charge_overflow) in
   let+ granted := charging (charge_or_reclaim grants bytes) in
   if granted then (λ s, (Ok true, with_typed total s)) else sret false) s.

Definition release_typed : SM Aggregate unit := λ s,
  (let+ _ := charging (release (ag_typed s)) in λ s, (Ok tt, with_typed 0 s)) s.

(** [inl] is the fallback with the chunks consumed, [inr] the groups. *)
Fixpoint typed_upstream (layout : TypedAggregateLayout) (src : source) (consumed : list Chunk)
    (grouped : list (TypedGroupKey * nat) * list TypedGroup) : SM Aggregate (list Chunk + list TypedGroup) :=
  match src with
  | [] => let+ _ := release_typed in sret (inr grouped.2)
  | r :: src =>
      let+ chunk := (λ s, (r, with_upstream src s)) in
      if negb (supports layout chunk) then let+ _ := release_typed in sret (inl (consumed ++ [chunk])) else
      let+ bytes := slift (typed_aggregate_chunk_charge chunk layout) in
      let+ granted := try_grow bytes in
      if negb granted then let+ _ := release_typed in sret (inl (consumed ++ [chunk])) else
      let+ grouped := slift (append_typed_aggregate_chunk layout chunk grouped) in
      typed_upstream layout src (consumed ++ [chunk]) grouped
  end.

(** The charge is dropped on every way out. *)
Definition initialize_typed_grouped (layout : TypedAggregateLayout) : SM Aggregate (option (list Chunk)) := λ s,
  let '(r, s) :=
    (let+ result := typed_upstream layout (ag_upstream s) [] ([], []) in
     match result with
     | inl consumed => sret (Some consumed)
     | inr groups =>
         let+ rows := slift (finish_typed_groups groups) in
         let+ _ := set_in_memory rows in
         sret None
     end) s in
  let '(r', s) := release_typed s in
  (let! _ := r' in r, s).

(** *** Buffering and spilling *)

Definition push_charged_row (row : AggregateInputRow) (bytes : Z) : SM Aggregate unit := λ s,
  (Ok tt, with_rows (ag_rows s ++ [row]) (ag_bytes s + bytes) s).

Definition release_charged : SM Aggregate unit := λ s,
  (let+ _ := charging (release (ag_bytes s)) in λ s, (Ok tt, with_rows (ag_rows s) 0 s)) s.

Definition take_charged : SM Aggregate (list AggregateInputRow) := λ s,
  let rows := ag_rows s in
  (let+ _ := release_charged in sret rows) (with_rows [] (ag_bytes s) s).

Definition sort_rows_by (compare : AggregateInputRow → AggregateInputRow → outcome comparison) : SM Aggregate unit := λ s,
  match stable_sort_by (ag_rows s) compare with
  | Ok rows => (Ok tt, with_rows rows (ag_bytes s) s)
  | Err e => (Err e, s)
  | Panic => (Panic, s)
  end.

(** [write_generated_run]: a run whose writing fails is removed. *)
Definition write_generated_run (write : list AggregateInputRow → outcome (list Z)) : SM Aggregate unit := λ s,
  match (let! _ := run_io (length (ag_runs s)) in write (ag_rows s)) with
  | Ok file => (Ok tt, with_run file s)
  | Err e => (Err e, s)
  | Panic => (Panic, s)
  end.

Definition write_percentile_group (i : nat) (file : list Z) (rows : list AggregateInputRow) : outcome (list Z) :=
  let! count := percentile_count rows i in
  let! first := index rows 0 in
  let! r := encode_percentile_record (group_key first) i false (Int64 count) in
  let! bytes := write_spill_row r in
  for_each rows (file ++ bytes) (λ file row,
    match percentile_decimal i row with
    | Some value =>
        let! r := encode_percentile_record (group_key row) i true (Decimal value) in
        let! bytes := write_spill_row r in
        Ok (file ++ bytes)
    | None => Ok file
    end).

(** The loop over the groups of the sorted rows. *)
Fixpoint percentile_groups (fuel i : nat) (file : list Z) (rows : list AggregateInputRow) : outcome (list Z) :=
  match rows with
  | [] => Ok file
  | _ =>
      match fuel with
      | O => Panic
      | S fuel =>
          let! n := group_end rows in
          let! _ := validate_percentile_rows (take n rows) i in
          let! file := write_percentile_group i file (take n rows) in
          percentile_groups fuel i file (drop n rows)
      end
  end.

Definition spill_percentile_run (i : nat) : SM Aggregate unit :=
  let+ _ := sort_rows_by (compare_percentile_rows i) in
  write_generated_run (λ rows, percentile_groups (length rows) i [] rows).

Definition spill_aggregate_run : SM Aggregate unit := λ s,
  match ag_rows s with
  | [] => (Ok tt, s)
  | _ =>
      (let+ _ := sort_rows_by compare_group_keys in
       let+ _ := write_generated_run (λ rows, write_spill_rows (encode_aggregate_input_record <$> rows)) in
       let+ _ := sfor (enumerate aggs) tt (λ _ '(i, (function, _)),
         if bool_decide (function = PercentileCont) then spill_percentile_run i else sret tt) in
       let+ _ := take_charged in
       sret tt) s
  end.

Definition buffer_aggregate_row (row : AggregateInputRow) : SM Aggregate unit :=
  let+ charge := slift (aggregate_row_charge row) in
  let+ granted := charging (charge_or_reclaim grants charge) in
  let+ _ := (if granted then sret tt
             else let+ _ := spill_aggregate_run in charging (charge_after_spill grants charge)) in
  push_charged_row row charge.

Definition buffer_aggregate_chunk (chunk : Chunk) : SM Aggregate unit :=
  let+ evaluated := slift (evaluate_aggregate_rows [chunk]) in
  sfor evaluated tt (λ _ row, buffer_aggregate_row row).

Fixpoint buffer_upstream (src : source) : SM Aggregate unit :=
  match src with
  | [] => sret tt
  | r :: src =>
      let+ chunk := (λ s, (r, with_upstream src s)) in
      let+ _ := buffer_aggregate_chunk chunk in
      buffer_upstream src
  end.

Definition finish_aggregate : SM Aggregate unit := λ s,
  match ag_runs s with
  | [] =>
      (let+ _ := sort_rows_by compare_group_keys in
       let+ rows := take_charged in
       let+ output_rows := slift (aggregate_groups rows) in
       set_in_memory output_rows) s
  | _ => (let+ _ := spill_aggregate_run in λ s, (Ok tt, with_output (AggExternal (mkAggMerge (open_run <$> ag_runs s))) s)) s
  end.

(** The rows are dropped when it returns, on errors too. *)
Definition initialize_buffered_legacy (initial_chunks : list Chunk) : SM Aggregate unit := λ s,
  let '(r, s) :=
    (let+ _ := sfor initial_chunks tt (λ _ chunk, buffer_aggregate_chunk chunk) in
     let+ _ := (λ s, buffer_upstream (ag_upstream s) s) in
     finish_aggregate) s in
  let '(r', s) := (let+ _ := take_charged in sret tt) s in
  (let! _ := r' in r, s).

Definition initialize_buffered : SM Aggregate unit :=
  let+ layout := slift typed_grouped_layout in
  match layout with
  | Some layout =>
      let+ fallback := initialize_typed_grouped layout in
      match fallback with
      | Some chunks => initialize_buffered_legacy chunks
      | None => sret tt
      end
  | None => initialize_buffered_legacy []
  end.

Definition initialize_aggregate : SM Aggregate unit :=
  if bool_decide (group_by = []) && forallb (λ '(function, _), has_constant_aggregate_state function) aggs
  then initialize_streaming else initialize_buffered.

(** *** Merging *)

Notation merging_state := (list (RunCursor AggregateInputRow) * Account)%type.

(** [AggregateMerge::best_cursor]. *)
Definition agg_best_cursor : SM merging_state (option nat) := λ '(cs, a),
  match ensure_all grants decode_aggregate_spill_row aggregate_row_charge (merge_buffer_rows (length cs)) cs a with
  | (Ok _, (cs, a)) => (best_cursor compare_aggregate_records cs, (cs, a))
  | (Err e, s) => (Err e, s)
  | (Panic, s) => (Panic, s)
  end.

Definition pop_at (i : nat) : SM merging_state AggregateInputRow := λ '(cs, a),
  match cs !! i with
  | Some cursor =>
      let '(r, (cursor, a)) := pop_front cursor a in
      (let! row := r in ok_or row invalid_sort_permutation, (<[i := cursor]> cs, a))
  | None => (Panic, (cs, a))
  end.

Definition take_next_input : SM merging_state (option AggregateInputRow) :=
  let+ best := agg_best_cursor in
  match best with
  | None => sret None
  | Some i => let+ row := pop_at i in sret (Some row)
  end.

(** The records that follow with the same key.  Every round takes a record. *)
Fixpoint same_group (fuel : nat) (key : list Value) (states : list AggregateState) : SM merging_state (list AggregateState) :=
  let+ best := agg_best_cursor in
  match best with
  | None => sret states
  | Some i =>
      let+ next := (λ '(cs, a), (let! cursor := index cs i in ok_or (front cursor) invalid_sort_permutation, (cs, a))) in
      let+ ordering := slift (compare_key_tuples key (group_key next)) in
      if negb (bool_decide (ordering = Eq)) then sret states else
      match fuel with
      | O => slift Panic
      | S fuel =>
          let+ next := pop_at i in
          let+ states := slift (update_aggregate_states states (record next)) in
          same_group fuel key states
      end
  end.

(** The bytes and rows left bound the records left. *)
Definition records_left (cs : list (RunCursor AggregateInputRow)) : nat :=
  foldr (λ c n, length (reader c) + length (run_buffered c) + n)%nat 0%nat cs.

Definition next_group : SM merging_state (option (list Value)) :=
  let+ first := take_next_input in
  match first with
  | None => sret None
  | Some first =>
      let+ states := slift (update_aggregate_states initial_aggregate_states (record first)) in
      let+ states := (λ s, same_group (records_left s.1) (group_key first) states s) in
      let+ types := slift result_types in
      let+ result := slift (finish_aggregate_states powi10 states types) in
      sret (Some (group_key first ++ result))
  end.

Fixpoint agg_fill (rounds : nat) (builder : ChunkBuilder) (row_count : nat) : SM merging_state (ChunkBuilder * nat) :=
  if is_full builder then sret (builder, row_count) else
  match rounds with
  | O => slift Panic
  | S rounds =>
      let+ row := next_group in
      match row with
      | None => sret (builder, row_count)
      | Some row =>
          let+ builder := slift (push_row builder row) in
          agg_fill rounds builder (S row_count)
      end
  end.

Definition agg_merge_next_chunk : SM merging_state (option Chunk) :=
  let+ (builder, row_count) := agg_fill CHUNK_CAPACITY (builder_new output_types) 0 in
  if (row_count =? 0)%nat then sret None
  else let+ chunk := slift (finish builder) in sret (Some chunk).

(** *** Pulling *)

Definition aggregate_output (s : Aggregate) : outcome (option Chunk) * Aggregate :=
  match ag_output s with
  | Some (AggInMemory []) => (Ok None, s)
  | Some (AggInMemory (chunk :: rest)) => (Ok (Some chunk), with_output (AggInMemory rest) s)
  | Some (AggExternal m) =>
      let '(r, (cs, a)) := agg_merge_next_chunk (agg_cursors m, ag_account s) in
      (r, with_output (AggExternal (mkAggMerge cs)) (with_account a s))
  | None => (Err invalid_sort_permutation, s)
  end.

Definition aggregate_next (s : Aggregate) : outcome (option Chunk) * Aggregate :=
  if negb (length output_types =? length group_by + length aggs)%nat
  then (Err (InvalidArgument "aggregate has {expected_types} outputs but {} output types"), s) else
  match ag_output s with
  | Some _ => aggregate_output s
  | None =>
      match ag_error s with
      | Some e => (Err e, s)
      | None =>
          match initialize_aggregate s with
          | (Ok _, s) => aggregate_output s
          | (Err e, s) => (Err e, with_error e s)
          | (Panic, s) => (Panic, s)
          end
      end
  end.

Definition drop_aggregate (s : Aggregate) : outcome unit * Aggregate :=
  match ag_output s with
  | Some (AggExternal m) => charging (sfor (agg_cursors m) tt (λ _ c, drop_cursor c)) s
  | _ => (Ok tt, s)
  end.
End Aggregation.
