(* ===== verification/AggSpec.v ===== *)
(** What an aggregation means, and the in-memory half of [AggregateOp.v].

    The groups are the distinct keys in order; the result of a group is one
    value per aggregate, computed from the group's values of that aggregate
    alone, in input order.  [aggregate_group] and the loop over sorted rows are
    proved to compute it. *)

From stdpp Require Import sorting.
From S2P Require Import Prelude Bytes Decimal Types Codec F64 Expr Typing Eval EvalRow Spill Sorting Operators SortOp SortSpec AggState AggregateOp.

(** ** The order of group keys *)

Definition tuple_cmp (l r : list Value) : comparison := match compare_key_tuples l r with Ok c => c | _ => Eq end.

Lemma tuples_ascending l : ∀ r, length l = length r → compare_key_tuples l r = compare_keys l r (replicate (length l) Asc).
Proof.
  induction l as [|x l IH]; intros [|y r] Hl; try done. cbn [compare_key_tuples compare_keys length replicate].
  apply bind_ext. intros c. rewrite IH by (simpl in Hl; lia). by destruct c.
Qed.

Section Keys.
Context (kinds : list order_kind).

Definition key_ok (k : list Value) : Prop := Forall2 of_kind kinds k ∧ Forall value_wf k.

Lemma key_ok_length k : key_ok k → length k = length kinds.
Proof. intros [Hk _]. by rewrite (Forall2_length _ _ _ Hk). Qed.

Lemma tuple_cmp_keys l r : key_ok l → key_ok r → tuple_cmp l r = keys_cmp (replicate (length kinds) Asc) l r.
Proof.
  intros Hl Hr. unfold tuple_cmp, keys_cmp. by rewrite tuples_ascending, (key_ok_length l Hl) by (by rewrite (key_ok_length l), (key_ok_length r)).
Qed.

Lemma tuple_cmp_Ok l r : key_ok l → key_ok r → compare_key_tuples l r = Ok (tuple_cmp l r).
Proof.
  intros Hl Hr. rewrite tuple_cmp_keys by done. rewrite tuples_ascending by (by rewrite (key_ok_length l), (key_ok_length r)).
  rewrite (key_ok_length l Hl). apply (keys_cmp_Ok kinds); [apply Hl|apply Hr].
Qed.

#[export] Instance tuple_total : TotalCompare key_ok tuple_cmp.
Proof.
  pose proof (keys_total kinds (replicate (length kinds) Asc)) as [Ha Ht]. split.
  - intros x y Hx Hy. rewrite !tuple_cmp_keys by done. apply Ha; [apply Hx|apply Hy].
  - intros x y z Hx Hy Hz. rewrite !tuple_cmp_keys by done. apply Ht; [apply Hx|apply Hy|apply Hz].
Qed.

Lemma tuple_cmp_refl k : key_ok k → tuple_cmp k k = Eq.
Proof. intros Hk. pose proof (cmp_antisym k k Hk Hk) as Ha. by destruct (tuple_cmp k k). Qed.

Lemma key_lt_irrefl k : key_ok k → tuple_cmp k k ≠ Lt.
Proof. intros Hk. by rewrite tuple_cmp_refl. Qed.

Lemma total_key_inj a b : in_u 64 a → in_u 64 b → total_key a = total_key b → a = b.
Proof. unfold in_u, total_key. intros Ha Hb. do 2 case_match; reflect_bools; lia. Qed.

Lemma bool_cmp_eq a b : bool_cmp a b = Eq → a = b.
Proof. by destruct a, b. Qed.

(** Keys that compare equal are equal: floats by their bits. *)
Lemma value_cmp_eq k x y : of_kind k x → of_kind k y → value_wf x → value_wf y → value_cmp x y = Eq → x = y.
Proof.
  intros Hx Hy Wx Wy. pose proof (value_cmp_Ok k x y Hx Hy) as Hc. unfold value_cmp. destruct x, y; simpl in Hc |- *; try done; simpl in Wx, Wy.
  - by intros ->%bool_cmp_eq.
  - by intros ->%Z.compare_eq.
  - unfold f64_total_cmp. intros E%Z.compare_eq. f_equal. by apply total_key_inj.
  - by intros ->%str_cmp_eq.
  - by intros ->%Z.compare_eq.
  - unfold compare_decimal_order in *. destruct (scale value =? scale value0) eqn:Es; simpl in *; [|done]. reflect_bools.
    intros E%Z.compare_eq. destruct value, value0. simpl in *. by subst.
Qed.

Lemma tuple_cmp_eq l r : key_ok l → key_ok r → tuple_cmp l r = Eq → l = r.
Proof.
  intros [Hl Wl] [Hr Wr]. revert r Hr Wr. unfold tuple_cmp. induction Hl as [|k x kinds' l Hx Hl IH]; intros r Hr Wr.
  { by apply Forall2_nil_inv_l in Hr as ->. }
  apply Forall2_cons_inv_l in Hr as (y & r' & Hy & Hr & ->). apply Forall_cons in Wl as [Wx Wl], Wr as [Wy Wr].
  cbn [compare_key_tuples]. rewrite (value_cmp_Ok k) by done. cbn [bind]. destruct (value_cmp x y) eqn:E; [|done..]. intros Ht.
  f_equal; [by eapply value_cmp_eq|]. by apply IH.
Qed.
End Keys.

(** Non-decreasing and increasing keys. *)
Definition key_le (l r : list Value) : Prop := tuple_cmp l r ≠ Gt.
Definition key_lt (l r : list Value) : Prop := tuple_cmp l r = Lt.

#[export] Instance tuple_le_dec : RelDecision key_le.
Proof. intros l r. unfold key_le. apply _. Defined.

(** ** Grouping *)

Section Grouping.
Context {T : Type} (kf : T → list Value).

Definition with_key (k : list Value) (l : list T) : list T := filter (λ x, kf x = k) l.

Lemma with_key_head k l : (∀ x, x ∈ l → kf x = k ∨ key_lt k (kf x)) → StronglySorted (λ x y, key_le (kf x) (kf y)) l →
  (∀ x y, x ∈ l → y ∈ l → key_lt k (kf x) → key_le (kf x) (kf y) → kf y ≠ k) →
  l = with_key k l ++ filter (λ x, kf x ≠ k) l.
Proof.
  induction l as [|x l IH]; intros Hmin Hs Hgap; [done|]. apply StronglySorted_inv in Hs as [Hs Hx]. unfold with_key in *.
  destruct (decide (kf x = k)) as [E|E].
  - rewrite filter_cons_True, filter_cons_False by naive_solver. simpl. f_equal. apply IH; [|done|]; intros; [apply Hmin|eapply Hgap]; eauto; set_solver.
  - rewrite filter_cons_False, filter_cons_True by done. destruct (Hmin x ltac:(left)) as [?|Hlt]; [done|].
    assert (∀ y, y ∈ l → kf y ≠ k) as Hne.
    { intros y Hy. rewrite Forall_forall in Hx. apply (Hgap x y); [left|by right|done|by apply Hx]. }
    rewrite (filter_none (λ x, kf x = k) l) by (by apply Forall_forall). simpl. f_equal. symmetry. apply filter_keeps_all. by apply Forall_forall.
Qed.

Lemma with_key_other k k' l : k ≠ k' → with_key k' (filter (λ x, kf x ≠ k) l) = with_key k' l.
Proof.
  intros Hne. unfold with_key. rewrite list_filter_filter. apply list_filter_iff. naive_solver.
Qed.
End Grouping.

Lemma with_key_app {T} (kf : T → list Value) k l m : with_key kf k (l ++ m) = with_key kf k l ++ with_key kf k m.
Proof. apply filter_app. Qed.

Section GroupingSorted.
Context (kinds : list order_kind) {T : Type} (kf : T → list Value).

(** A list ordered by key is its groups, one after the other. *)
Lemma grouped ks : ∀ l,
  Forall (key_ok kinds) ks → StronglySorted key_lt ks → (∀ x, x ∈ l → kf x ∈ ks) →
  StronglySorted (λ x y, key_le (kf x) (kf y)) l → l = concat ((λ k, with_key kf k l) <$> ks).
Proof.
  induction ks as [|k ks IH]; intros l Hok Hks Hin Hs.
  { destruct l as [|x l]; [done|]. by pose proof (Hin x ltac:(left)) as ?%not_elem_of_nil. }
  pose proof Hok as Hok0. apply Forall_cons in Hok as [Hk Hok]. apply StronglySorted_inv in Hks as [Hks Hlt]. rewrite Forall_forall in Hlt, Hok.
  assert (∀ x, x ∈ l → kf x = k ∨ kf x ∈ ks) as Hcase by (intros x Hx; apply Hin, elem_of_cons in Hx; naive_solver).
  rewrite fmap_cons. cbn [concat]. rewrite (with_key_head kf k l) at 1.
  - f_equal. rewrite (IH (filter (λ x, kf x ≠ k) l)).
    + f_equal. apply list_fmap_ext. intros i k' Hk'. apply list_elem_of_lookup_2 in Hk'. apply with_key_other. intros <-.
      by apply (key_lt_irrefl kinds k Hk), Hlt.
    + by apply Forall_forall.
    + done.
    + intros x [Hne Hx]%list_elem_of_filter. by destruct (Hcase x Hx).
    + clear -Hs. induction Hs as [|x l Hs IH Hx]; [constructor|]. destruct (decide (kf x ≠ k)); [rewrite filter_cons_True by done|by rewrite filter_cons_False].
      constructor; [done|]. apply Forall_forall. intros y [_ Hy]%list_elem_of_filter. rewrite Forall_forall in Hx. by apply Hx.
  - intros x Hx. destruct (Hcase x Hx) as [?|Hin']; [by left|right; by apply Hlt].
  - done.
  - intros x y Hx Hy Hkx Hle Ey. rewrite Ey in Hle. destruct (Hcase x Hx) as [E|Hin'].
    + rewrite E in Hkx. by apply (key_lt_irrefl kinds k Hk).
    + apply Hle. rewrite (cmp_antisym (P := key_ok kinds) k (kf x) Hk (Hok _ Hin')). unfold key_lt in Hkx. by rewrite Hkx.
Qed.
End GroupingSorted.

(** ** Stable sorting keeps the order inside a group *)

#[local] Instance all_equal_total {T} : TotalCompare (λ _ : T, True) (λ _ _, Eq).
Proof. by split. Qed.

Lemma tags_sorted {A} (xs : list A) : ∀ k, StronglySorted (λ x y, x.1 < y.1)%nat (enumerate_from k xs).
Proof.
  induction xs as [|x xs IH]; intros k; [constructor|]. rewrite enumerate_from_cons. constructor; [done|]. apply Forall_forall. intros [i y] Hy.
  apply enumerate_from_bound in Hy. simpl. lia.
Qed.

Lemma sorted_filter_sub {A} (R : A → A → Prop) (P : A → Prop) `{!∀ x, Decision (P x)} l : StronglySorted R l → StronglySorted R (filter P l).
Proof.
  induction 1 as [|x l _ IH Hx]; [constructor|]. destruct (decide (P x)); [rewrite filter_cons_True by done|by rewrite filter_cons_False].
  constructor; [done|]. apply Forall_forall. intros y [_ Hy]%list_elem_of_filter. rewrite Forall_forall in Hx. by apply Hx.
Qed.

Lemma sorted_impl {A} (R R' : A → A → Prop) l : (∀ x y, x ∈ l → y ∈ l → R x y → R' x y) → StronglySorted R l → StronglySorted R' l.
Proof.
  intros Himp. induction 1 as [|x l _ IH Hx]; constructor.
  - apply IH. intros y z Hy Hz. apply Himp; by right.
  - apply Forall_forall. intros y Hy. rewrite Forall_forall in Hx. apply Himp; [left|by right|by apply Hx].
Qed.

Lemma filter_fmap_snd {T} (P : T → Prop) `{!∀ x, Decision (P x)} (t : list (nat * T)) : filter P t.*2 = (filter (λ x, P x.2) t).*2.
Proof.
  induction t as [|[i x] t IH]; [done|]. rewrite fmap_cons. simpl. destruct (decide (P x)).
  - rewrite !filter_cons_True by done. rewrite fmap_cons. by rewrite IH.
  - by rewrite !filter_cons_False.
Qed.

Lemma stable_filter {T} (P : T → Prop) `{!∀ x, Decision (P x)} c rows out :
  (∀ x y, x ∈ rows → y ∈ rows → P x → P y → c x y = Eq) → stably_sorted c rows out → filter P out = filter P rows.
Proof.
  intros Heq (t & -> & Hs & Hp). rewrite <- (enumerate_snd rows), !filter_fmap_snd. f_equal.
  assert (∀ i x, (i, x) ∈ t → x ∈ rows) as Hin.
  { intros i x Hx. rewrite Hp in Hx. apply elem_of_enumerate in Hx. by eapply list_elem_of_lookup_2. }
  apply (sorted_unique (λ _, True) (λ _ _, Eq)); [by apply Forall_true| | |by rewrite Hp].
  - eapply sorted_impl; [|by apply sorted_filter_sub, Hs]. intros [i x] [j y] [Px Hx]%list_elem_of_filter [Py Hy]%list_elem_of_filter.
    unfold before. simpl in *. intros [Hlt|[_ ?]]; [|by right]. rewrite Heq in Hlt by eauto. done.
  - eapply sorted_impl; [|apply sorted_filter_sub, tags_sorted]. intros x y _ _ ?. by right.
Qed.

Lemma stably_sorted_le {T} (c : T → T → comparison) rows out : stably_sorted c rows out → StronglySorted (λ x y, c x y ≠ Gt) out ∧ out ≡ₚ rows.
Proof.
  intros (t & -> & Hs & Hp). split; [|by rewrite Hp, enumerate_snd]. clear Hp. induction Hs as [|x t _ IH Hx]; [constructor|]. rewrite fmap_cons.
  constructor; [done|]. apply Forall_fmap. eapply Forall_impl; [exact Hx|]. intros y [E|[E _]]; simpl; by rewrite E.
Qed.

(** A list in order is its own stable sort. *)
Lemma sorted_stably {T} (c : T → T → comparison) l : StronglySorted (λ x y, c x y ≠ Gt) l → stably_sorted c l l.
Proof.
  intros Hs. exists (enumerate l). split_and!; [by rewrite enumerate_snd| |done]. unfold enumerate. generalize 0%nat.
  induction Hs as [|x l _ IH Hx]; intros k; [constructor|]. rewrite enumerate_from_cons. constructor; [done|]. apply Forall_forall. intros [i y] Hy.
  pose proof (enumerate_from_bound _ _ _ _ Hy) as Hi. assert (y ∈ l) as Hin.
  { rewrite <- (snd_zip (seq (S k) (length l)) l) by (by rewrite length_seq). apply list_elem_of_fmap. by exists (i, y). }
  rewrite Forall_forall in Hx. specialize (Hx y Hin). unfold before. simpl. destruct (c x y); [right; split; [done|lia]|by left|done].
Qed.

(** ** What an aggregate gives for the values of a group *)

Definition null_or_decimal (v : Value) : bool := match v with Null | Decimal _ => true | _ => false end.
Definition as_decimal (v : Value) : option Decimal128 := match v with Decimal d => Some d | _ => None end.

Section Meaning.
Context `{FloatEnv} (powi10 : Z → Z).

Definition aggregate_value (function : AggregateFunction) (vs : list Value) (ty : LogicalType) : outcome Value :=
  match function with
  | PercentileCont => if forallb null_or_decimal vs then median (omap as_decimal vs) ty else Err invalid_aggregate_type
  | _ => let! s := for_each vs (initial_aggregate_state function) update_aggregate_state in finish_aggregate_state powi10 s ty
  end.

(** The values of aggregate [j] in a group. *)
Definition input_values (row : AggregateInputRow) : list Value := match record row with Input values => values | _ => [] end.
Definition agg_column (j : nat) (rows : list AggregateInputRow) : list Value := omap (λ row, input_values row !! j) rows.

Definition group_result (functions : list AggregateFunction) (rows : list AggregateInputRow) (types : list LogicalType) : outcome (list Value) :=
  collect (λ '(j, (function, ty)), aggregate_value function (agg_column j rows) ty) (enumerate (zip functions types)).
End Meaning.

(** The distinct keys in order. *)
Record group_keys_of (rows : list AggregateInputRow) (ks : list (list Value)) : Prop := {
  keys_increase : StronglySorted key_lt ks;
  keys_exact k : k ∈ ks ↔ k ∈ group_key <$> rows;
}.

(** ** Rows column by column *)

Section Columns.
Context `{FloatEnv}.

(** One input value of one state; percentiles wait for their ordered values. *)
Definition input_step (state : AggregateState) (value : Value) : outcome AggregateState :=
  match state with SPercentile _ _ _ _ _ => Ok state | _ => update_aggregate_state state value end.

Lemma input_step_no_panic s v : input_step s v ≠ Panic.
Proof. pose proof (update_state_no_panic s v). by destruct s. Qed.

Lemma fold_no_panic {A S} (f : S → A → outcome S) xs : (∀ s x, f s x ≠ Panic) → ∀ s, for_each xs s f ≠ Panic.
Proof. intros Hf s. apply (for_each_no_panic (λ _, True)); [done|]. intros. split; [apply Hf|done]. Qed.

Lemma update_inputs_no_panic states : ∀ vs, update_input_states states vs ≠ Panic.
Proof.
  induction states as [|s states IH]; intros [|v vs]; try done. cbn [update_input_states]. fold (input_step s v).
  intros [?%input_step_no_panic|(? & _ & [?%IH|(? & _ & ?)]%bind_Panic)]%bind_Panic; done.
Qed.

Lemma split_first rows : ∀ s states, Forall (λ vs, vs ≠ []) rows →
  same_result (for_each rows (s :: states) update_input_states)
    (let! s' := for_each (omap head rows) s input_step in let! states' := for_each (tail <$> rows) states update_input_states in Ok (s' :: states')).
Proof.
  induction rows as [|vs rows IH]; intros s states Hne; [done|]. apply Forall_cons in Hne as [Hvs Hne]. destruct vs as [|v vs]; [done|].
  cbn [for_each omap list_omap head fmap list_fmap tail update_input_states]. fold (input_step s v). fold (fmap (M := list) (@tail Value) rows).
  pose proof (input_step_no_panic s v). destruct (input_step s v) as [s1|e|] eqn:E1; [|done..]. cbn [bind].
  pose proof (update_inputs_no_panic states vs). destruct (update_input_states states vs) as [states1|e|] eqn:E2; [cbn [bind]; by apply IH| |done].
  cbn [bind]. pose proof (fold_no_panic input_step (omap head rows) input_step_no_panic s1).
  by destruct (for_each (omap head rows) s1 input_step).
Qed.

Lemma omap_lookup_tail (rows : list (list Value)) j : omap (λ vs, vs !! j) (tail <$> rows) = omap (λ vs, vs !! S j) rows.
Proof.
  induction rows as [|vs rows IH]; [done|]. rewrite fmap_cons. cbn [omap list_omap]. rewrite IH. destruct vs as [|v vs]; [|done].
  by destruct j.
Qed.

Lemma omap_lookup_head (rows : list (list Value)) : omap (λ vs, vs !! 0%nat) rows = omap head rows.
Proof. by induction rows as [|[|v vs] rows IH]; [done|..]; cbn [omap list_omap head lookup list_lookup]; rewrite IH. Qed.

Lemma fold_by_column states : ∀ k rows, Forall (λ vs, length vs = length states) (drop k <$> rows) →
  same_result (for_each (drop k <$> rows) states update_input_states)
    (collect (λ '(j, s), for_each (omap (λ vs, vs !! j) rows) s input_step) (enumerate_from k states)).
Proof.
  induction states as [|s states IH]; intros k rows Hl.
  { cbn [enumerate_from zip seq collect length]. assert (∀ l : list (list Value), for_each l [] update_input_states = Ok []) as ->; [|done].
    induction l as [|[|v vs] l IHl]; done. }
  rewrite enumerate_from_cons. cbn [collect].
  assert (tail <$> (drop k <$> rows) = drop (S k) <$> rows) as Htail.
  { rewrite <- list_fmap_compose. apply list_fmap_ext. intros i vs _. simpl. clear. revert vs. induction k as [|k IH]; intros [|v vs]; [done..|].
    apply (IH vs). }
  eapply same_result_trans; [apply split_first; eapply Forall_impl; [exact Hl|by intros []]|]. apply same_result_bind.
  - rewrite <- omap_lookup_head. assert (omap (λ vs : list Value, vs !! 0%nat) (drop k <$> rows) = omap (λ vs, vs !! k) rows) as ->.
    { clear. induction rows as [|vs rows IH]; [done|]. rewrite fmap_cons. cbn [omap list_omap]. by rewrite lookup_drop, Nat.add_0_r, IH. }
    apply same_result_refl, fold_no_panic, input_step_no_panic.
  - intros s' _. rewrite Htail. apply same_result_bind; [|done]. apply IH. rewrite <- Htail. apply Forall_fmap. eapply Forall_impl; [exact Hl|].
    intros [|v vs]; simpl; [done|]. intros [= <-]. done.
Qed.
End Columns.

(** ** Percentiles in memory *)

#[export] Instance percentile_total j : TotalCompare (λ _, True) (compare_percentile_values j).
Proof.
  unfold compare_percentile_values. split.
  - intros x y _ _. destruct (percentile_decimal j x), (percentile_decimal j y); try done. apply Z.compare_antisym.
  - intros x y z _ _ _. destruct (percentile_decimal j x), (percentile_decimal j y), (percentile_decimal j z); try done. apply Zcmp_trans.
Qed.

(** A buffered row of [n] aggregate values. *)
Definition input_row (n : nat) (row : AggregateInputRow) : Prop := ∃ vs, record row = Input vs ∧ length vs = n ∧ Forall value_wf vs.

Lemma input_cell n j row : input_row n row → (j < n)%nat → ∃ v, record row = Input (input_values row) ∧ input_values row !! j = Some v ∧ value_wf v.
Proof.
  intros (vs & Hr & Hl & Hwf) Hj. unfold input_values. rewrite Hr. destruct (lookup_lt_is_Some_2 vs j) as [v Hv]; [lia|]. exists v.
  split_and!; [done..|]. rewrite Forall_forall in Hwf. by eapply Hwf, list_elem_of_lookup_2.
Qed.

Lemma column_cons j row rows v : input_values row !! j = Some v → agg_column j (row :: rows) = v :: agg_column j rows.
Proof. intros Hv. unfold agg_column. cbn [omap list_omap]. by rewrite Hv. Qed.

Lemma percentile_decimals n j rows : Forall (input_row n) rows → (j < n)%nat → omap (percentile_decimal j) rows = omap as_decimal (agg_column j rows).
Proof.
  induction 1 as [|row rows Hrow _ IH]; intros Hj; [done|]. destruct (input_cell n j row Hrow Hj) as (v & Hr & Hv & _).
  rewrite (column_cons j row rows v Hv). cbn [omap list_omap]. unfold percentile_decimal at 1. rewrite Hr, Hv. unfold as_decimal at 1.
  rewrite IH by done. by destruct v.
Qed.

Lemma column_wf n j rows : Forall (input_row n) rows → (j < n)%nat → Forall value_wf (agg_column j rows).
Proof.
  induction 1 as [|row rows Hrow _ IH]; intros Hj; [constructor|]. destruct (input_cell n j row Hrow Hj) as (v & _ & Hv & Hwf).
  rewrite (column_cons j row rows v Hv). constructor; [done|by apply IH].
Qed.

Lemma decimals_wf vs : Forall value_wf vs → Forall decimal_wf (omap as_decimal vs).
Proof. induction 1 as [|v vs Hv _ IH]; [constructor|]. cbn [omap list_omap]. destruct v; simpl; try done. by constructor. Qed.

Lemma column_permutation j rows rows' : rows ≡ₚ rows' → agg_column j rows ≡ₚ agg_column j rows'.
Proof. intros Hp. unfold agg_column. by rewrite Hp. Qed.

(** Values a percentile accepts: decimals of one scale, and nulls. *)
Definition percentile_ok (vs : list Value) : bool :=
  forallb null_or_decimal vs && bool_decide (omap as_decimal vs = [] ∨ is_Some (common_scale (omap as_decimal vs))).

Definition percentile_state (vs : list Value) : outcome AggregateState :=
  let ds := omap as_decimal vs in
  if percentile_ok vs then Ok (percentile_after (merge_sort dec_le ds) (default 0 (common_scale ds)) (length ds)) else Err invalid_aggregate_type.

Lemma validate_scaled n j sc rows : Forall (input_row n) rows → (j < n)%nat →
  same_result (for_each rows (Some sc) (validate_percentile_row j))
    (if forallb null_or_decimal (agg_column j rows) && forallb (λ d, sc =? scale d) (omap as_decimal (agg_column j rows)) then Ok (Some sc) else Err invalid_aggregate_type).
Proof.
  induction 1 as [|row rows Hrow _ IH]; intros Hj; [done|]. destruct (input_cell n j row Hrow Hj) as (v & Hr & Hv & _).
  rewrite (column_cons j row rows v Hv). cbn [for_each]. unfold validate_percentile_row at 1. rewrite Hr, Hv. cbn [ok_or bind forallb omap list_omap]. specialize (IH Hj).
  destruct v as [| | | | | | | | |d|]; try done. cbn [null_or_decimal as_decimal forallb]. destruct (sc =? scale d); cbn [bind andb]; [exact IH|by rewrite andb_false_r].
Qed.

Lemma scaled_iff d ds : bool_decide (is_Some (common_scale (d :: ds))) = forallb (λ e, scale d =? scale e) ds.
Proof.
  unfold common_scale. case_bool_decide as Hs; symmetry.
  - apply forallb_forall. intros e He. case_bool_decide as Hf; [|by destruct Hs]. apply Forall_cons in Hf as [_ Hf]. rewrite Forall_forall in Hf.
    apply Z.eqb_eq. symmetry. apply Hf. by apply list_elem_of_In.
  - apply not_true_is_false. intros Hall. apply Hs. rewrite bool_decide_eq_true_2; [done|]. constructor; [done|]. apply Forall_forall.
    intros e He. rewrite forallb_forall in Hall. symmetry. apply Z.eqb_eq, Hall. by apply list_elem_of_In.
Qed.

Lemma validate_spec n j rows : Forall (input_row n) rows → (j < n)%nat →
  same_result (validate_percentile_rows rows j) (if percentile_ok (agg_column j rows) then Ok tt else Err invalid_aggregate_type).
Proof.
  unfold validate_percentile_rows, percentile_ok. induction 1 as [|row rows Hrow Hrows IH]; intros Hj; [done|].
  destruct (input_cell n j row Hrow Hj) as (v & Hr & Hv & _). rewrite (column_cons j row rows v Hv). cbn [for_each].
  unfold validate_percentile_row at 1. rewrite Hr, Hv. cbn [ok_or bind forallb omap list_omap]. destruct v as [| | | | | | | | |d|]; try done; cbn [null_or_decimal as_decimal bind andb]; [by apply IH|].
  pose proof (validate_scaled n j (scale d) rows Hrows Hj) as Hs. revert Hs.
  assert (bool_decide (d :: omap as_decimal (agg_column j rows) = [] ∨ is_Some (common_scale (d :: omap as_decimal (agg_column j rows))))
    = forallb (λ e, scale d =? scale e) (omap as_decimal (agg_column j rows))) as ->.
  { rewrite <- scaled_iff. apply bool_decide_ext. naive_solver. }
  clear IH. destruct (for_each rows (Some (scale d)) _), (_ && _); done.
Qed.

Lemma percentile_ok_permutation vs vs' : vs ≡ₚ vs' → percentile_ok vs = percentile_ok vs'.
Proof.
  intros Hp. unfold percentile_ok. f_equal.
  - apply eq_true_iff_eq. rewrite !forallb_forall. setoid_rewrite <- list_elem_of_In. by setoid_rewrite Hp.
  - apply bool_decide_ext. assert (omap as_decimal vs ≡ₚ omap as_decimal vs') as Hd by (by rewrite Hp).
    assert (∀ l l' : list Decimal128, l ≡ₚ l' → l = [] ∨ is_Some (common_scale l) → l' = [] ∨ is_Some (common_scale l')) as Hone.
    { intros l l' Hl [->|[sc [Hne Hs]%common_scale_Some]]; [left; by apply Permutation_nil_l in Hl|right]. exists sc. apply common_scale_Some.
      split; [intros ->; by apply Permutation_nil_r in Hl|by rewrite <- Hl]. }
    split; by apply Hone.
Qed.

Lemma ordered_decimals j rows : StronglySorted (λ x y, compare_percentile_values j x y ≠ Gt) rows → StronglySorted dec_le (omap (percentile_decimal j) rows).
Proof.
  induction 1 as [|x rows _ IH Hx]; [constructor|]. cbn [omap list_omap]. destruct (percentile_decimal j x) as [d|] eqn:E; [|done].
  constructor; [done|]. apply Forall_forall. intros e (y & Hy & He)%list_elem_of_omap. rewrite Forall_forall in Hx. specialize (Hx y Hy).
  unfold compare_percentile_values in Hx. rewrite E, He in Hx. unfold dec_le. by apply Z.compare_le_iff.
Qed.

Section Group.
Context `{FloatEnv} `{SortUnstable} (powi10 : Z → Z) {Operator : Type} (aggs : list (AggregateFunction * Expr Operator)).

Notation n := (length aggs).

Lemma in_memory_percentile states rows rows0 j :
  rows ≡ₚ rows0 → Forall (input_row n) rows0 → (j < n)%nat → zlen rows0 < 2 ^ 63 → states !! j = Some (initial_aggregate_state PercentileCont) →
  match update_in_memory_percentile states rows j with
  | Ok (states', rows') => rows' ≡ₚ rows0 ∧ ∃ st, percentile_state (agg_column j rows0) = Ok st ∧ states' = <[j := st]> states
  | Err _ => ∃ e, percentile_state (agg_column j rows0) = Err e
  | Panic => False
  end.
Proof.
  intros Hp Hok Hj Hlen Hst. unfold update_in_memory_percentile. set (sorted := sort_unstable_by (compare_percentile_values j) rows).
  assert (sorted ≡ₚ rows0) as Hp' by (unfold sorted; by rewrite sort_unstable_perm).
  assert (Forall (input_row n) sorted) as Hoks by (by rewrite Hp').
  pose proof (ordered_decimals j sorted (sort_unstable_sorted (λ _, True) _ rows (proj2 (Forall_forall _ _) (λ _ _, I)))) as Hsort.
  unfold percentile_count. rewrite (percentile_decimals n j sorted Hoks Hj) in Hsort |- *. set (ds := omap as_decimal (agg_column j sorted)) in *.
  assert (ds ≡ₚ omap as_decimal (agg_column j rows0)) as Hds by (unfold ds; by rewrite (column_permutation j _ _ Hp')).
  assert (zlen ds ≤ zlen rows0) as Hle.
  { unfold zlen. rewrite (Permutation_length Hds). unfold agg_column. etrans; [|by apply inj_le, (length_omap_le (λ row, input_values row !! j))].
    apply inj_le, length_omap_le. }
  pose proof (zlen_nonneg ds). rewrite try_i_in by (unfold in_i; change (64 - 1) with 63; lia). cbn [ok_or bind]. rewrite Hst. cbn [ok_or bind].
  pose proof (validate_spec n j sorted Hoks Hj) as Hv. rewrite (percentile_ok_permutation _ _ (column_permutation j _ _ Hp')) in Hv.
  unfold percentile_state. destruct (percentile_ok (agg_column j rows0)) eqn:Eok;
    destruct (validate_percentile_rows sorted j) as [[]|e|]; simpl in Hv; try done; [|by eexists]. cbn [bind initial_aggregate_state update_percentile_count].
  rewrite try_u_in by (unfold in_u; lia). cbn [ok_or bind]. rewrite Z.add_0_l, try_u_in by (unfold in_u; lia). cbn [ok_or bind].
  set (ds0 := omap as_decimal (agg_column j rows0)) in *.
  assert (∃ sc, Forall (λ v, scale v = sc) ds ∧ sc = default 0 (common_scale ds0)) as (sc & Hsc & Esc).
  { unfold percentile_ok in Eok. apply andb_true_iff in Eok as [_ Eok%bool_decide_eq_true]. fold ds0 in Eok. destruct Eok as [E|[sc Hsc]].
    - exists 0. rewrite E in *. apply Permutation_nil_r in Hds. rewrite Hds. split; [constructor|done].
    - exists sc. split; [|by rewrite Hsc]. apply common_scale_Some in Hsc as [_ Hsc]. by rewrite Hds. }
  rewrite (percentile_fold ds sc Hsc). cbn [bind]. split; [done|]. eexists. split; [done|]. f_equal. rewrite <- Esc, (Permutation_length Hds). f_equal.
  apply (sorted_decimals_unique sc); [done|done|apply StronglySorted_merge_sort; apply _|by rewrite merge_sort_Permutation].
Qed.

(** What the states of a group become. *)
Definition final_state (rows : list AggregateInputRow) (jf : nat * AggregateFunction) : outcome AggregateState :=
  let '(j, function) := jf in
  match function with
  | PercentileCont => percentile_state (agg_column j rows)
  | _ => for_each (agg_column j rows) (initial_aggregate_state function) update_aggregate_state
  end.

Definition waiting_state (rows : list AggregateInputRow) (jf : nat * AggregateFunction) : outcome AggregateState :=
  match jf.2 with PercentileCont => Ok (initial_aggregate_state PercentileCont) | _ => final_state rows jf end.

Lemma waiting_no_panic rows jf : waiting_state rows jf ≠ Panic.
Proof. destruct jf as [j []]; try done; apply fold_no_panic, update_state_no_panic. Qed.

Lemma input_steps vs : ∀ s, constant_state s → for_each vs s input_step = for_each vs s update_aggregate_state.
Proof.
  induction vs as [|v vs IH]; intros s Hs; [done|]. cbn [for_each]. assert (input_step s v = update_aggregate_state s v) as -> by (by destruct s).
  destruct (update_aggregate_state s v) as [s'|e|] eqn:E; [|done..]. cbn [bind]. apply IH. by eapply update_keeps_constant.
Qed.

Lemma percentile_inputs vs : for_each vs (initial_aggregate_state PercentileCont) input_step = Ok (initial_aggregate_state PercentileCont).
Proof. by induction vs. Qed.

Lemma states_by_column rows : Forall (input_row n) rows →
  same_result (for_each rows (initial_aggregate_states aggs) (λ states row, update_aggregate_states states (record row)))
    (collect (waiting_state rows) (enumerate (fst <$> aggs))).
Proof.
  intros Hok. assert (initial_aggregate_states aggs = initial_aggregate_state <$> (fst <$> aggs)) as Hi.
  { unfold initial_aggregate_states. rewrite <- list_fmap_compose. by apply list_fmap_ext; intros i [f e] _. }
  assert (for_each rows (initial_aggregate_states aggs) (λ states row, update_aggregate_states states (record row)) =
    for_each (drop 0 <$> (input_values <$> rows)) (initial_aggregate_states aggs) update_input_states) as ->.
  { rewrite !for_each_fmap. apply for_each_ext. intros states row Hrow. rewrite Forall_forall in Hok. destruct (Hok row Hrow) as (vs & Hr & _).
    unfold input_values. by rewrite Hr. }
  eapply same_result_trans; [apply fold_by_column|].
  - apply Forall_fmap, Forall_fmap. eapply Forall_impl; [exact Hok|]. intros row (vs & Hr & Hl & _). simpl. unfold input_values. rewrite Hr.
    by rewrite Hi, !length_fmap.
  - rewrite Hi. unfold enumerate, enumerate_from. rewrite length_fmap. set (fs := fst <$> aggs). clearbody fs. generalize 0%nat.
    induction fs as [|f fs IH]; intros k; [done|]. cbn [fmap list_fmap length seq zip zip_with collect].
    apply same_result_bind; [|intros s _; apply same_result_bind; [apply IH|done]].
    assert (omap (λ vs : list Value, vs !! k) (input_values <$> rows) = agg_column k rows) as ->.
    { clear. unfold agg_column. induction rows as [|row rows IH]; [done|]. rewrite fmap_cons. cbn [omap list_omap]. by rewrite IH. }
    assert (for_each (agg_column k rows) (initial_aggregate_state f) input_step = waiting_state rows (k, f)) as ->.
    { destruct f; unfold waiting_state; cbn [snd final_state]; try (by apply input_steps). apply percentile_inputs. }
    apply same_result_refl, waiting_no_panic.
Qed.

Lemma final_no_panic rows jf : final_state rows jf ≠ Panic.
Proof. destruct jf as [j []]; try (apply fold_no_panic, update_state_no_panic). simpl. unfold percentile_state. by case_match. Qed.

Lemma collect_fold_no_panic rows jfs : collect (final_state rows) jfs ≠ Panic.
Proof. apply collect_no_panic. intros. apply final_no_panic. Qed.

Lemma percentile_loop rows0 : Forall (input_row n) rows0 → zlen rows0 < 2 ^ 63 → ∀ (aggs2 : list (AggregateFunction * Expr Operator)) done_ todo rows,
  rows ≡ₚ rows0 → (length done_ + length aggs2 = n)%nat →
  Forall2 (λ jf s, waiting_state rows0 jf = Ok s) (enumerate_from (length done_) (fst <$> aggs2)) todo →
  match for_each (enumerate_from (length done_) aggs2) (done_ ++ todo, rows) (λ '(states, rows) '(index, (function, _)),
    if bool_decide (function = PercentileCont) then update_in_memory_percentile states rows index else Ok (states, rows)) with
  | Ok (states, _) => ∃ todo', collect (final_state rows0) (enumerate_from (length done_) (fst <$> aggs2)) = Ok todo' ∧ states = done_ ++ todo'
  | Err _ => ∃ e, collect (final_state rows0) (enumerate_from (length done_) (fst <$> aggs2)) = Err e
  | Panic => False
  end.
Proof.
  intros Hok Hlen. induction aggs2 as [|[f ex] aggs2 IH]; intros done_ todo rows Hp Hn Hw.
  { apply Forall2_nil_inv_l in Hw as ->. exists []. done. }
  rewrite fmap_cons, !enumerate_from_cons in *. cbn [fst] in *. apply Forall2_cons_inv_l in Hw as (s & todo' & Hs & Hw & ->). simpl in Hn.
  cbn [for_each collect]. assert (length (done_ ++ [s]) = S (length done_)) as Hd by (rewrite length_app; simpl; lia).
  case_bool_decide as Ef.
  - subst f. injection Hs as <-.
    pose proof (in_memory_percentile (done_ ++ initial_aggregate_state PercentileCont :: todo') rows rows0 (length done_) Hp Hok ltac:(lia) Hlen
      ltac:(by rewrite list_lookup_middle)) as Hm. cbn [final_state].
    destruct (update_in_memory_percentile _ rows (length done_)) as [[states rows']|e|]; [|destruct Hm as [e' ->]; by eexists|done].
    destruct Hm as (Hp' & st & Est & ->). rewrite Est. cbn [bind]. rewrite insert_app_r_alt, Nat.sub_diag by done. cbn [insert list_insert].
    specialize (IH (done_ ++ [st]) todo' rows' Hp'). rewrite length_app, Nat.add_1_r, <- app_assoc in IH. simpl in IH. specialize (IH ltac:(lia) Hw).
    destruct (for_each _ _ _) as [[states rows'']|e|]; [|destruct IH as [e' ->]; by eexists|done].
    destruct IH as (todo'' & -> & ->). exists (st :: todo''). by rewrite <- app_assoc.
  - assert (final_state rows0 (length done_, f) = Ok s) as -> by (by destruct f). cbn [bind].
    specialize (IH (done_ ++ [s]) todo' rows Hp). rewrite length_app, Nat.add_1_r, <- app_assoc in IH. simpl in IH. specialize (IH ltac:(lia) Hw).
    destruct (for_each _ _ _) as [[states rows'']|e|]; [|destruct IH as [e' ->]; by eexists|done].
    destruct IH as (todo'' & -> & ->). exists (s :: todo''). by rewrite <- app_assoc.
Qed.

Lemma median_permutation vs vs' ty : vs ≡ₚ vs' → median vs ty = median vs' ty.
Proof.
  intros Hp. unfold median. destruct vs as [|v vs]; [by apply Permutation_nil_l in Hp as <-|]. destruct vs' as [|v' vs']; [by apply Permutation_nil_r in Hp|].
  assert (∀ l l' : list Decimal128, l ≡ₚ l' → ∀ sc, common_scale l = Some sc → common_scale l' = Some sc) as Hone.
  { intros l l' Hl sc [Hne Hs]%common_scale_Some. apply common_scale_Some. split; [intros ->; by apply Permutation_nil_r in Hl|by rewrite <- Hl]. }
  destruct (common_scale (v :: vs)) as [sc|] eqn:E.
  - rewrite (Hone _ _ Hp sc E). rewrite !bool_decide_eq_true_2 by done. do 3 f_equal. apply common_scale_Some in E as [_ E].
    apply (sorted_decimals_unique sc); [by rewrite merge_sort_Permutation|apply StronglySorted_merge_sort; apply _..|by rewrite !merge_sort_Permutation].
  - destruct (common_scale (v' :: vs')) as [sc|] eqn:E'; [|done]. symmetry in Hp. by rewrite (Hone _ _ Hp sc E') in E.
Qed.

Lemma median_no_panic vs ty : median vs ty ≠ Panic.
Proof. unfold median. destruct vs; [done|]. case_bool_decide; [apply ok_or_no_panic|done]. Qed.

Lemma finish_state_no_panic s ty : constant_state s → finish_aggregate_state powi10 s ty ≠ Panic.
Proof.
  destruct s as [m|v|v|v|v m|]; simpl; try done. intros _. destruct (m =? 0); [done|]. intros [Hp|(x & _ & Hp)]%bind_Panic; [|done].
  by repeat case_match.
Qed.

Lemma fold_constant vs : ∀ s s', constant_state s → for_each vs s update_aggregate_state = Ok s' → constant_state s'.
Proof.
  induction vs as [|v vs IH]; intros s s' Hs; cbn [for_each]; [by intros [= <-]|]. intros (s1 & H1 & H2)%bind_Ok. apply (IH s1); [|done].
  by eapply update_keeps_constant.
Qed.

Lemma initial_constant f : f ≠ PercentileCont → constant_state (initial_aggregate_state f).
Proof. by destruct f. Qed.

Lemma aggregate_value_no_panic f vs ty : aggregate_value powi10 f vs ty ≠ Panic.
Proof.
  destruct (decide (f = PercentileCont)) as [->|Hf]; simpl; [destruct (forallb _ _); [apply median_no_panic|done]|].
  assert (aggregate_value powi10 f vs ty = let! s := for_each vs (initial_aggregate_state f) update_aggregate_state in finish_aggregate_state powi10 s ty) as ->
    by (by destruct f).
  intros [Hp|(s & Hs & Hp)]%bind_Panic; [by apply fold_no_panic in Hp; [|apply update_state_no_panic]|].
  apply finish_state_no_panic in Hp; [done|]. eapply fold_constant; [by apply initial_constant|done].
Qed.

Lemma finish_final rows j f ty : Forall value_wf (agg_column j rows) →
  same_result (let! s := final_state rows (j, f) in finish_aggregate_state powi10 s ty) (aggregate_value powi10 f (agg_column j rows) ty).
Proof.
  intros Hwf. destruct (decide (f = PercentileCont)) as [->|Hf].
  2: { assert (∀ x, (let! s := final_state rows (j, f) in finish_aggregate_state powi10 s ty) = x → same_result x (aggregate_value powi10 f (agg_column j rows) ty)) as Hall;
         [|by eapply Hall].
       intros x <-. assert (aggregate_value powi10 f (agg_column j rows) ty = let! s := final_state rows (j, f) in finish_aggregate_state powi10 s ty) as <- by (by destruct f).
       apply same_result_refl, aggregate_value_no_panic. }
  cbn [final_state aggregate_value]. unfold percentile_state, percentile_ok. destruct (forallb null_or_decimal (agg_column j rows)); [|done]. cbn [andb].
  pose proof (decimals_wf _ Hwf) as Hdwf. set (ds := omap as_decimal (agg_column j rows)) in *. case_bool_decide as Eok.
  - cbn [bind]. destruct Eok as [->|[sc Hsc]]; [done|]. rewrite Hsc. cbn [default].
    assert (merge_sort dec_le ds ≡ₚ ds) as Hp by apply merge_sort_Permutation. pose proof Hsc as [Hne Hs]%common_scale_Some.
    rewrite <- (Permutation_length Hp), <- (median_permutation _ _ ty Hp). unfold percentile_after. set (l := merge_sort dec_le ds) in *.
    assert (length l ≠ 0%nat) as Hl by (rewrite (Permutation_length Hp); by destruct ds).
    assert ((length l - 1) / 2 < length l)%nat by (apply Nat.Div0.div_lt_upper_bound; lia). assert (length l / 2 < length l)%nat by (apply Nat.div_lt; lia).
    rewrite !(proj2 (Nat.ltb_lt _ _)) by done. cbn [finish_aggregate_state]. unfold zlen at 1. rewrite (proj2 (Z.eqb_neq _ _)) by lia. cbn [andb].
    apply (finish_percentile_spec l sc); [|apply StronglySorted_merge_sort; apply _|by rewrite Hp].
    apply common_scale_Some. split; [by intros E; rewrite E in Hl|by rewrite Hp].
  - cbn [bind]. destruct ds as [|d ds']; [naive_solver|]. unfold median. rewrite bool_decide_eq_false_2 by naive_solver. done.
Qed.

Lemma collect_has_error {A B} (g : A → outcome B) xs x e : (∀ y, g y ≠ Panic) → x ∈ xs → g x = Err e → ∃ e', collect g xs = Err e'.
Proof.
  intros Hnp. induction 1 as [x xs|x y xs _ IH]; intros Hx; cbn [collect]; [rewrite Hx; by eexists|].
  specialize (Hnp y). destruct (g y) as [b|e'|]; [|by eexists|done]. destruct IH as [e' ->]; [done|]. by eexists.
Qed.

Lemma group_result_no_panic fs rows types : group_result powi10 fs rows types ≠ Panic.
Proof. apply collect_no_panic. intros [j [f ty]] _. apply aggregate_value_no_panic. Qed.

(** The states and types of a finished group against its results. *)
Lemma finish_states rows types states : Forall (input_row n) rows → length types = n →
  collect (final_state rows) (enumerate (fst <$> aggs)) = Ok states →
  same_result (finish_aggregate_states powi10 states types) (group_result powi10 (fst <$> aggs) rows types).
Proof.
  intros Hok Hl Hc. apply collect_Ok in Hc. pose proof (Forall2_length _ _ _ Hc) as Hls. unfold enumerate, enumerate_from in Hls.
  rewrite length_zip, length_seq, length_fmap, Nat.min_id in Hls. unfold finish_aggregate_states. rewrite <- Hls, Hl, Nat.eqb_refl. cbn [negb].
  unfold group_result. apply (same_result_collect2 (λ (st : AggregateState * LogicalType) (jft : nat * (AggregateFunction * LogicalType)),
    final_state rows (jft.1, jft.2.1) = Ok st.1 ∧ jft.2.2 = st.2 ∧ (jft.1 < n)%nat)).
  - intros [s ty] [j [f ty']] (Hs & E & Hj). cbn [fst snd] in *. subst ty'. pose proof (finish_final rows j f ty (column_wf n j rows Hok Hj)) as Hf.
    rewrite Hs in Hf. exact Hf.
  - apply Forall2_same_length_lookup. split.
    { unfold enumerate, enumerate_from. rewrite !length_zip, length_seq, ?length_zip, length_fmap. lia. }
    intros i [s ty] [j [f ty']] H1 H2. apply lookup_zip_Some in H1 as [H1 H1']. apply lookup_zip_Some in H2 as [[-> Hi]%lookup_seq H2].
    apply lookup_zip_Some in H2 as [H2 H2']. cbn [fst snd Nat.add] in *. rewrite length_zip, length_fmap in Hi. split_and!; [|congruence|lia].
    apply (Forall2_lookup_lr _ _ _ i (i, f) s Hc); [|done]. unfold enumerate, enumerate_from. apply lookup_zip_Some. simpl. split; [|done]. apply lookup_seq.
    rewrite length_fmap. lia.
Qed.

Lemma final_error rows types e : Forall (input_row n) rows → length types = n →
  collect (final_state rows) (enumerate (fst <$> aggs)) = Err e → ∃ e', group_result powi10 (fst <$> aggs) rows types = Err e'.
Proof.
  intros Hok Hl Hc. apply collect_fails in Hc as ([j f] & Hin & Hf). apply elem_of_enumerate in Hin. pose proof (lookup_lt_Some _ _ _ Hin) as Hj.
  rewrite length_fmap in Hj. destruct (lookup_lt_is_Some_2 types j) as [ty Hty]; [lia|].
  pose proof (finish_final rows j f ty (column_wf n j rows Hok Hj)) as Ha. rewrite Hf in Ha. cbn [bind] in Ha.
  destruct (aggregate_value powi10 f (agg_column j rows) ty) as [v|e'|] eqn:E; [done| |done]. unfold group_result.
  eapply (collect_has_error _ _ (j, (f, ty))); [intros [? []]; apply aggregate_value_no_panic| |exact E].
  apply enumerate_elem_of. apply lookup_zip_Some. simpl. done.
Qed.

(** A group in memory. *)
Lemma aggregate_group_spec rows types : Forall (input_row n) rows → zlen rows < 2 ^ 63 → length types = n →
  same_result (aggregate_group powi10 aggs rows types) (group_result powi10 (fst <$> aggs) rows types).
Proof.
  intros Hok Hlen Hl. unfold aggregate_group. pose proof (states_by_column rows Hok) as Hs.
  destruct (for_each rows (initial_aggregate_states aggs) _) as [states|e|]; simpl in Hs; [| |done].
  - destruct (collect (waiting_state rows) _) as [states'|e|] eqn:Ew; [|done..]. subst states'. apply collect_Ok in Ew. cbn [bind].
    pose proof (percentile_loop rows Hok Hlen aggs [] states rows (reflexivity _) eq_refl Ew) as Hp. cbn [length app] in Hp. unfold enumerate.
    destruct (for_each (enumerate_from 0 aggs) _ _) as [[states' rows']|e|]; [|destruct Hp as [e' Hp]|done]; cbn [bind].
    + destruct Hp as (todo & Hc & ->). by apply finish_states.
    + destruct (final_error rows types e' Hok Hl Hp) as [e'' ->]. done.
  - destruct (collect (waiting_state rows) _) as [states'|e'|] eqn:Ew; [done| |done]. cbn [bind].
    assert (∃ e'', collect (final_state rows) (enumerate (fst <$> aggs)) = Err e'') as [e'' Hf].
    { apply collect_fails in Ew as (jf & Hin & Hw). eapply collect_has_error; [apply final_no_panic|exact Hin|].
      destruct jf as [j []]; simpl in *; try exact Hw. done. }
    destruct (final_error rows types e'' Hok Hl Hf) as [e3 ->]. done.
Qed.
End Group.

(** ** The groups of sorted rows *)

Section Groups.
Context `{FloatEnv} `{SortUnstable} (powi10 : Z → Z) {Operator : Type}.
Context (group_by : list (Expr Operator)) (aggs : list (AggregateFunction * Expr Operator)) (output_types : list LogicalType) (kinds : list order_kind).
Hypothesis kinds_length : length kinds = length group_by.
Hypothesis types_length : length output_types = (length group_by + length aggs)%nat.

Notation n := (length aggs).

Definition row_good (row : AggregateInputRow) : Prop := key_ok kinds (group_key row) ∧ input_row n row.

(** The output row of the group [k]. *)
Definition spec_row (rows : list AggregateInputRow) (k : list Value) : outcome (list Value) :=
  let! vs := group_result powi10 (fst <$> aggs) (with_key group_key k rows) (drop (length group_by) output_types) in Ok (k ++ vs).

(** The keys of the output rows; without group keys there is always one row. *)
Definition result_keys (rows : list AggregateInputRow) (ks : list (list Value)) : Prop :=
  match group_by, rows with
  | [], [] => ks = [[]]
  | _, _ => group_keys_of rows ks
  end.

Lemma result_types_Ok : result_types group_by output_types = Ok (drop (length group_by) output_types).
Proof using types_length. unfold result_types. rewrite (proj2 (Nat.leb_le _ _)); [done|]. rewrite types_length. apply Nat.le_add_r. Qed.

Lemma length_result_types : length (drop (length group_by) output_types) = n.
Proof using types_length. rewrite length_drop, types_length. rewrite Nat.add_comm. apply Nat.add_sub. Qed.

Lemma spec_row_no_panic rows k : spec_row rows k ≠ Panic.
Proof. intros [Hp|(? & _ & ?)]%bind_Panic; [|done]. by apply group_result_no_panic in Hp. Qed.

Lemma equal_keys_spec first rows rest : row_good first → Forall row_good rows → Forall row_good rest →
  Forall (λ r, group_key r = group_key first) rows → (∀ r, head rest = Some r → key_lt (group_key first) (group_key r)) →
  equal_keys first (rows ++ rest) = Ok (length rows).
Proof.
  intros Hf Hrows Hrest Hk Hnext. induction rows as [|row rows IH]; cbn [app length equal_keys].
  - destruct rest as [|r rest]; [done|]. apply Forall_cons in Hrest as [Hr _]. cbn [equal_keys]. unfold compare_group_keys.
    rewrite (tuple_cmp_Ok kinds) by (apply Hf || apply Hr). cbn [bind]. rewrite bool_decide_eq_false_2; [done|]. by rewrite (Hnext r).
  - apply Forall_cons in Hrows as [Hr Hrows], Hk as [Hkr Hk]. unfold compare_group_keys. rewrite (tuple_cmp_Ok kinds) by (apply Hf || apply Hr).
    cbn [bind]. rewrite Hkr, (tuple_cmp_refl kinds) by apply Hf. rewrite bool_decide_eq_true_2 by done. by rewrite IH.
Qed.

(** Groups with their keys, in increasing order. *)
Definition groups_ok (gs : list (list Value * list AggregateInputRow)) : Prop :=
  StronglySorted key_lt gs.*1 ∧ Forall (λ g, g.2 ≠ [] ∧ Forall (λ r, group_key r = g.1 ∧ row_good r) g.2) gs.

Lemma groups_head g gs r : groups_ok (g :: gs) → head (concat gs.*2) = Some r → key_lt g.1 (group_key r).
Proof.
  intros [Hs Hg] Hr. apply Forall_cons in Hg as [_ Hg]. rewrite fmap_cons in Hs. apply StronglySorted_inv in Hs as [_ Hs]. destruct gs as [|g' gs]; [done|].
  apply Forall_cons in Hg as [[Hne Hg'] _]. rewrite !fmap_cons in *. apply Forall_cons in Hs as [Hs _]. cbn [concat] in Hr.
  destruct g' as [k [|r' rs]]; [done|]. injection Hr as ->. cbn [snd fst] in *. apply Forall_cons in Hg' as [[-> _] _]. done.
Qed.

Lemma group_end_spec k row rows gs : groups_ok ((k, row :: rows) :: gs) → group_end (row :: rows ++ concat gs.*2) = Ok (S (length rows)).
Proof.
  intros Hok. pose proof Hok as [_ Hg]. apply Forall_cons in Hg as [[_ Hg] Hgs]. cbn [fst snd] in *. apply Forall_cons in Hg as [[Hk Hrow] Hg].
  unfold group_end, index. cbn [lookup list_lookup expect bind skipn]. rewrite drop_0. rewrite (equal_keys_spec row rows (concat gs.*2)); [done|done| | | |].
  - eapply Forall_impl; [exact Hg|]. naive_solver.
  - clear -Hgs. induction Hgs as [|g gs [_ Hg] _ IH]; [constructor|]. rewrite fmap_cons. cbn [concat]. apply Forall_app. split; [|done].
    eapply Forall_impl; [exact Hg|]. naive_solver.
  - eapply Forall_impl; [exact Hg|]. cbn beta. intros r [-> _]. done.
  - intros r Hr. rewrite Hk. by apply (groups_head (k, row :: rows) gs).
Qed.

Lemma groups_tail g gs : groups_ok (g :: gs) → groups_ok gs.
Proof. intros [Hs Hg]. split; [|by apply Forall_cons in Hg as [_ ?]]. rewrite fmap_cons in Hs. by apply StronglySorted_inv in Hs as [? _]. Qed.

Lemma groups_loop_spec gs : ∀ fuel, groups_ok gs → (length (concat gs.*2) ≤ fuel)%nat → zlen (concat gs.*2) < 2 ^ 63 →
  same_result (groups_loop powi10 group_by aggs output_types fuel (concat gs.*2))
    (collect (λ g, let! vs := group_result powi10 (fst <$> aggs) g.2 (drop (length group_by) output_types) in Ok (g.1 ++ vs)) gs).
Proof.
  induction gs as [|[k rows] gs IH]; intros fuel Hok Hf Hz; [by destruct fuel|]. pose proof Hok as [_ Hg]. apply Forall_cons in Hg as [[Hne Hg] _].
  cbn [fst snd] in *. destruct rows as [|row rows]; [done|]. rewrite fmap_cons in *. cbn [concat snd] in *. unfold zlen in Hz. rewrite length_app in Hf, Hz. simpl in Hf.
  destruct fuel as [|fuel]; [lia|]. cbn [app groups_loop collect fst snd]. rewrite (group_end_spec k row rows gs Hok). cbn [bind]. rewrite result_types_Ok. cbn [bind].
  change (take (S (length rows)) (row :: rows ++ concat gs.*2)) with (row :: take (length rows) (rows ++ concat gs.*2)).
  change (drop (S (length rows)) (row :: rows ++ concat gs.*2)) with (drop (length rows) (rows ++ concat gs.*2)).
  rewrite take_app_length, drop_app_length. rewrite bind_assoc. apply same_result_bind.
  - apply aggregate_group_spec; [|unfold zlen; simpl in *; lia|apply length_result_types]. eapply Forall_impl; [exact Hg|]. intros r [_ [_ ?]]. done.
  - intros vs _. cbn [bind]. apply same_result_bind; [apply IH; [by eapply groups_tail|lia|unfold zlen; lia]|]. intros rest _.
    apply Forall_cons in Hg as [[-> _] _]. done.
Qed.

(** Rows ordered by key, cut into groups. *)
Lemma sorted_groups rows out ks : Forall row_good rows → stably_sorted (λ x y, tuple_cmp (group_key x) (group_key y)) rows out → group_keys_of rows ks →
  let gs := (λ k, (k, with_key group_key k rows)) <$> ks in out = concat gs.*2 ∧ groups_ok gs.
Proof.
  intros Hok Hs [Hinc Hex] gs. rewrite Forall_forall in Hok.
  assert (∀ k, k ∈ ks → ∃ r, r ∈ rows ∧ group_key r = k) as Hk.
  { intros k Hk%Hex. apply list_elem_of_fmap in Hk as (r & -> & ?). by exists r. }
  assert (∀ x, x ∈ out ↔ x ∈ rows) as Hout.
  { destruct Hs as (t & -> & _ & Hp). intros x. by rewrite Hp, enumerate_snd. }
  assert (Forall (key_ok kinds) ks) as Hks.
  { apply Forall_forall. intros k (r & Hr & <-)%Hk. by apply Hok. }
  assert (gs.*2 = (λ k, with_key group_key k rows) <$> ks) as Hg2 by (unfold gs; rewrite <- list_fmap_compose; done).
  assert (gs.*1 = ks) as Hg1 by (unfold gs; rewrite <- list_fmap_compose; apply list_fmap_id).
  split; [|split].
  - rewrite Hg2. rewrite (grouped kinds group_key ks out Hks Hinc).
    + f_equal. apply list_fmap_ext. intros i k Hi. apply (stable_filter _ (λ x y, tuple_cmp (group_key x) (group_key y))); [|done].
      intros x y Hx _ -> ->. apply (tuple_cmp_refl kinds). rewrite Forall_forall in Hks. by eapply Hks, list_elem_of_lookup_2.
    + intros x Hx%Hout. apply Hex, list_elem_of_fmap. by exists x.
    + destruct Hs as (t & -> & Hst & Hp). clear -Hst. induction Hst as [|x t _ IH Hx]; [constructor|]. rewrite fmap_cons. constructor; [done|].
      apply Forall_fmap. eapply Forall_impl; [exact Hx|]. intros y [E|[E _]]; unfold key_le; simpl in *; by rewrite E.
  - rewrite Hg1. done.
  - unfold gs. apply Forall_fmap, Forall_forall. intros k Hin. simpl. destruct (Hk k Hin) as (r & Hr & Er). split.
    + intros E. assert (r ∈ with_key group_key k rows) as Hw by (by apply list_elem_of_filter). rewrite E in Hw. by apply not_elem_of_nil in Hw.
    + apply Forall_forall. intros x [Hx Hin']%list_elem_of_filter. split; [done|by apply Hok].
Qed.

Definition group_cmp (x y : AggregateInputRow) : comparison := tuple_cmp (group_key x) (group_key y).

#[local] Instance group_total : TotalCompare row_good group_cmp.
Proof. apply (pulled_total (key_ok kinds) tuple_cmp group_key). Qed.

Lemma group_compare x y : row_good x → row_good y → compare_group_keys x y = Ok (group_cmp x y).
Proof. intros [Hx _] [Hy _]. by apply (tuple_cmp_Ok kinds). Qed.

Lemma sort_groups rows : Forall row_good rows →
  ∃ out, stable_sort_by rows compare_group_keys = Ok out ∧ stably_sorted group_cmp rows out ∧ Forall row_good out.
Proof.
  intros Hrows. destruct (stable_sort_spec row_good group_cmp rows compare_group_keys Hrows) as (out & Hout & Hs).
  - rewrite Forall_forall in Hrows. intros x y Hx Hy. by apply group_compare; apply Hrows.
  - exists out. split_and!; [done..|]. destruct Hs as (t & -> & _ & Hp). by rewrite Hp, enumerate_snd.
Qed.

Lemma keyless rows : group_by = [] → Forall row_good rows → rows ≠ [] → group_keys_of rows [[]].
Proof.
  intros Hg Hrows Hne. assert (∀ r, r ∈ rows → group_key r = []) as Hk.
  { intros r Hr. rewrite Forall_forall in Hrows. destruct (Hrows r Hr) as [Hk _]. apply key_ok_length in Hk. rewrite kinds_length, Hg in Hk.
    by destruct (group_key r). }
  split; [by repeat constructor|]. intros k. rewrite list_elem_of_singleton, list_elem_of_fmap. split.
  - intros ->. destruct rows as [|r rows]; [done|]. exists r. split; [by rewrite Hk by left|left].
  - intros (r & -> & Hr). by apply Hk.
Qed.

Lemma group_keys_exist rows : Forall row_good rows → ∃ ks, group_keys_of rows ks.
Proof.
  intros Hrows. set (ds := remove_dups (group_key <$> rows)). assert (Forall (key_ok kinds) ds) as Hds.
  { apply Forall_forall. intros k Hk. unfold ds in Hk. rewrite elem_of_remove_dups in Hk. apply list_elem_of_fmap in Hk as (r & -> & Hr). rewrite Forall_forall in Hrows. by apply Hrows. }
  destruct (stable_sort_spec (key_ok kinds) tuple_cmp ds compare_key_tuples Hds) as (ks & _ & t & -> & Hs & Hp).
  { rewrite Forall_forall in Hds. intros x y Hx Hy. apply (tuple_cmp_Ok kinds); by apply Hds. }
  assert (t.*2 ≡ₚ ds) as Hperm by (by rewrite Hp, enumerate_snd). exists t.*2. split.
  - assert (NoDup t.*2) as Hnd by (rewrite Hperm; apply NoDup_remove_dups). assert (Forall (key_ok kinds) t.*2) as Hok by (by rewrite Hperm).
    clear -Hs Hnd Hok. induction Hs as [|x t _ IH Hx]; [constructor|]. rewrite fmap_cons in *. apply NoDup_cons in Hnd as [Hnin Hnd].
    apply Forall_cons in Hok as [Hkx Hok]. constructor; [by apply IH|]. apply Forall_forall. intros k Hk. pose proof Hk as Hk'.
    apply list_elem_of_fmap in Hk as (y & -> & Hy). rewrite Forall_forall in Hx. rewrite Forall_forall in Hok. destruct (Hx y Hy) as [E|[E _]]; [done|].
    destruct Hnin. rewrite (tuple_cmp_eq kinds x.2 y.2); [done|done|by apply Hok|done].
  - intros k. rewrite Hperm. unfold ds. by rewrite elem_of_remove_dups.
Qed.

Lemma result_keys_exist rows : Forall row_good rows → ∃ ks, result_keys rows ks.
Proof.
  clear kinds_length types_length. intros Hrows. destruct (group_keys_exist rows Hrows) as [ks Hks]. unfold result_keys. destruct group_by; [|by exists ks]. destruct rows; [by exists [[]]|by exists ks].
Qed.

(** Sorting and grouping in memory. *)
Lemma aggregate_groups_spec rows out ks : Forall row_good rows → zlen rows < 2 ^ 63 → stably_sorted group_cmp rows out → result_keys rows ks →
  same_result (aggregate_groups powi10 group_by aggs output_types out) (collect (spec_row rows) ks).
Proof.
  intros Hok Hz Hs Hks. assert (length out = length rows) as Hl.
  { destruct Hs as (t & -> & _ & Hp). by rewrite length_fmap, (Permutation_length Hp), <- (length_fmap snd), enumerate_snd. }
  unfold aggregate_groups. destruct out as [|r0 out0] eqn:Eout.
  - assert (rows = []) as -> by (by destruct rows). unfold result_keys in Hks. destruct group_by as [|e0 es] eqn:Eg.
    + subst ks. cbn [collect]. unfold spec_row. rewrite !bind_assoc, Eg. change (drop (length []) output_types) with output_types.
      apply same_result_bind; [|intros vs _; done]. apply aggregate_group_spec; [constructor|done|]. rewrite types_length. done.
    + destruct Hks as [_ Hex]. assert (ks = []) as ->; [|done]. destruct ks as [|k ks]; [done|].
      pose proof (proj1 (Hex k) ltac:(left)) as ?%not_elem_of_nil. done.
  - rewrite <- Eout in *. assert (group_keys_of rows ks) as Hk.
    { unfold result_keys in Hks. destruct group_by; [|done]. destruct rows; [by subst|done]. }
    destruct (sorted_groups rows out ks Hok Hs Hk) as [Ho Hg].
    pose proof (groups_loop_spec _ (length out) Hg) as Hloop. rewrite <- Ho in Hloop. specialize (Hloop ltac:(lia)). unfold zlen in *. rewrite Hl in Hloop at 1.
    specialize (Hloop Hz). eapply same_result_trans; [exact Hloop|]. clear.
    assert (∀ l, collect (λ g : list Value * list AggregateInputRow, let! vs := group_result powi10 (fst <$> aggs) g.2 (drop (length group_by) output_types) in Ok (g.1 ++ vs))
      ((λ k, (k, with_key group_key k rows)) <$> l) = collect (spec_row rows) l) as ->.
    { induction l as [|k l IH]; [done|]. rewrite fmap_cons. cbn [collect fst snd]. by rewrite IH. }
    apply same_result_refl, collect_no_panic. intros k _. apply spec_row_no_panic.
Qed.
End Groups.
