(* ===== verification/AggTyped.v ===== *)
(** The streaming and the typed paths of the aggregation of [AggregateOp.v]
    keep, in every state, the fold of the values that belong to it: the states
    of all groups are those of the specification of [AggSpec.v], whatever order
    the typed loops visit them in. *)

From stdpp Require Import sorting.
From S2P Require Import Prelude Bytes Decimal Types Codec F64 Expr Typing Eval EvalRow Spill Sorting Operators SortOp SortSpec AggState AggregateOp AggSpec.

(** ** The rows of a chunk *)

(** What [ChunkBuilder] and [from_columns] guarantee of a chunk's columns. *)
Definition chunk_wf (chunk : Chunk) : Prop := Forall (λ c, column_len c = row_count chunk ∧ storage_ok c) (columns chunk).

Section Input.
Context `{FloatEnv} {Operator : Type} (subquery_rows : Expr Operator → Chunk → gmap (list Z) nat → outcome (list Value)).
Context (group_by : list (Expr Operator)) (aggs : list (AggregateFunction * Expr Operator)) (cols : gmap (list Z) nat) (tys : list LogicalType).

(** A row with its evaluated keys and aggregate inputs. *)
Definition agg_row (row : list Value) : outcome AggregateInputRow :=
  let! key := project_row tys cols ((λ e, (e, tt)) <$> group_by) row in
  let! values := project_row tys cols ((λ fe, (fe.2, fe.1)) <$> aggs) row in
  Ok (mkAggRow key (Input values)).

Hypothesis group_plain : forallb (λ e, negb (expression_contains_scalar e)) group_by = true.
Hypothesis aggs_plain : forallb (λ fe, negb (expression_contains_scalar fe.2)) aggs = true.

Lemma forallb_fmap {A B} (f : A → B) (p : B → bool) xs : forallb p (f <$> xs) = forallb (λ x, p (f x)) xs.
Proof. induction xs as [|x xs IH]; [done|]. rewrite fmap_cons. cbn [forallb]. by rewrite IH. Qed.

Lemma collect_fmap {A B C} (f : A → B) (g : B → outcome C) xs : collect g (f <$> xs) = collect (λ x, g (f x)) xs.
Proof. induction xs as [|x xs IH]; [done|]. rewrite fmap_cons. cbn [collect]. by rewrite IH. Qed.

Lemma agg_row_parts rs arows : Forall2 (λ row ar, agg_row row = Ok ar) rs arows →
  Forall2 (λ row k, project_row tys cols ((λ e, (e, tt)) <$> group_by) row = Ok k) rs (group_key <$> arows) ∧
  Forall2 (λ row vs, project_row tys cols ((λ fe, (fe.2, fe.1)) <$> aggs) row = Ok vs) rs (input_values <$> arows) ∧
  Forall (λ ar, record ar = Input (input_values ar)) arows.
Proof.
  induction 1 as [|row ar rs arows Hr _ (IH1 & IH2 & IH3)]; [by split_and!; constructor|].
  apply bind_Ok in Hr as (k & Hk & Hr). apply bind_Ok in Hr as (vs & Hv & [= <-]). rewrite !fmap_cons. split_and!; by constructor.
Qed.

Lemma evaluate_chunk_rows chunk rs arows :
  types chunk = tys → holds_rows chunk rs → rs ≠ [] → Forall2 (λ row ar, agg_row row = Ok ar) rs arows →
  evaluate_aggregate_chunk subquery_rows group_by aggs cols chunk = Ok arows.
Proof.
  intros Ht Hh Hne Hk. destruct (agg_row_parts rs arows Hk) as (Hg & Hv & Hr). pose proof (Forall2_length _ _ _ Hk) as Hl.
  destruct (project_columns tys cols _ rs _ Hg) as (gss & Hgss & Hgc). destruct (project_columns tys cols _ rs _ Hv) as (vss & Hvss & Hvc).
  rewrite <- Ht in Hgss, Hvss. unfold evaluate_aggregate_chunk.
  assert (collect (λ expr, scalar_evaluate subquery_rows expr chunk cols) group_by = Ok gss) as ->.
  { rewrite <- (scalar_columns subquery_rows chunk rs cols ((λ e, (e, tt)) <$> group_by) gss); [by rewrite collect_fmap|by rewrite forallb_fmap|done..]. }
  assert (collect (λ '(_, expr), scalar_evaluate subquery_rows expr chunk cols) aggs = Ok vss) as ->.
  { rewrite <- (scalar_columns subquery_rows chunk rs cols ((λ fe, (fe.2, fe.1)) <$> aggs) vss); [|by rewrite forallb_fmap|done..].
    rewrite collect_fmap. clear. induction aggs as [|[f e] l IH]; [done|]. cbn [collect fst snd]. by rewrite IH. }
  cbn [bind]. pose proof Hh as (_ & -> & _). apply collect_Ok, Forall2_same_length_lookup_2; [by rewrite length_seq|].
  intros j j' ar [-> _]%lookup_seq Hj. cbn [Nat.add].
  assert (values_at gss j = Ok (group_key ar)) as ->.
  { apply collect_Ok. eapply Forall2_impl; [apply (Hgc j); by rewrite list_lookup_fmap, Hj|]. intros vs v Hvs. simpl. by rewrite Hvs. }
  assert (values_at vss j = Ok (input_values ar)) as ->.
  { apply collect_Ok. eapply Forall2_impl; [apply (Hvc j); by rewrite list_lookup_fmap, Hj|]. intros vs v Hvs. simpl. by rewrite Hvs. }
  cbn [bind]. rewrite Forall_forall in Hr. rewrite <- (Hr ar) by (by eapply list_elem_of_lookup_2). by destruct ar.
Qed.

Lemma agg_cell row ar j f e : agg_row row = Ok ar → aggs !! j = Some (f, e) → ∃ v, input_values ar !! j = Some v ∧ eval_values tys cols e row = Ok v.
Proof.
  intros Hr Hj. apply bind_Ok in Hr as (k & Hk & Hr). apply bind_Ok in Hr as (vs & Hv & [= <-]). apply collect_Ok in Hv.
  assert (((λ fe, (fe.2, fe.1)) <$> aggs) !! j = Some (e, f)) as Hj' by (by rewrite list_lookup_fmap, Hj).
  destruct (Forall2_lookup_l _ _ _ _ _ Hv Hj') as (v & ? & ?). by exists v.
Qed.

Lemma key_cell row ar i e : agg_row row = Ok ar → group_by !! i = Some e → ∃ v, group_key ar !! i = Some v ∧ eval_values tys cols e row = Ok v.
Proof.
  intros Hr Hi. apply bind_Ok in Hr as (k & Hk & Hr). apply bind_Ok in Hr as (vs & Hv & [= <-]). apply collect_Ok in Hk.
  assert (((λ e, (e, tt)) <$> group_by) !! i = Some (e, tt)) as Hi' by (by rewrite list_lookup_fmap, Hi).
  destruct (Forall2_lookup_l _ _ _ _ _ Hk Hi') as (v & ? & ?). by exists v.
Qed.

(** A column reference reads a column of the chunk. *)
Lemma column_cell chunk rs r row reference v :
  types chunk = tys → holds_rows chunk rs → rs !! r = Some row → eval_values tys cols (Col reference : Expr Operator) row = Ok v →
  ∃ i c, cols !! reference = Some i ∧ column chunk i = Some c ∧ value_at c r = Ok v.
Proof.
  intros Ht Hh Hr He. rewrite <- (eval_row_local tys cols chunk rs r row Hh Ht Hr) in He. cbn [eval_row] in He. unfold single, evaluate_column in He.
  destruct (cols !! reference) as [i|]; [|done]. cbn [ok_or bind] in He. destruct (column chunk i) as [c|] eqn:Ec; [|done]. cbn [ok_or bind collect] in He.
  destruct (column_len c <=? r)%nat; [done|]. destruct (value_at c r) as [w|e|] eqn:Ev; [|done..]. injection He as <-. by exists i, c.
Qed.

(** Column [c] of the chunk holds the inputs of aggregate [j]. *)
Definition column_feeds (c : Column) (vs : list Value) : Prop :=
  length vs = column_len c ∧ storage_ok c ∧ ∀ i v, vs !! i = Some v → value_at c i = Ok v.

Lemma lookup_omap_all {A B} (f : A → option B) xs i : Forall (λ x, is_Some (f x)) xs → omap f xs !! i = xs !! i ≫= f.
Proof.
  intros Hx. revert i. induction Hx as [|x xs [y Hy] _ IH]; intros i; [done|]. cbn [omap list_omap]. rewrite Hy. destruct i; [by simpl|]. apply IH.
Qed.

Lemma length_omap_all {A B} (f : A → option B) xs : Forall (λ x, is_Some (f x)) xs → length (omap f xs) = length xs.
Proof. induction 1 as [|x xs [y Hy] _ IH]; [done|]. cbn [omap list_omap]. rewrite Hy. simpl. by rewrite IH. Qed.

Lemma column_lookup j f e rs arows i : Forall2 (λ row ar, agg_row row = Ok ar) rs arows → aggs !! j = Some (f, e) →
  length (agg_column j arows) = length rs ∧ agg_column j arows !! i = arows !! i ≫= λ ar, input_values ar !! j.
Proof.
  intros Hk Hj. assert (Forall (λ ar, is_Some (input_values ar !! j)) arows) as Hall.
  { clear i. induction Hk as [|row ar rs arows Hr _ IH]; constructor; [|done]. destruct (agg_cell row ar j f e Hr Hj) as (v & -> & _). done. }
  unfold agg_column. rewrite length_omap_all by done. split; [by rewrite (Forall2_length _ _ _ Hk)|by apply lookup_omap_all].
Qed.

Lemma direct_column chunk rs arows j f reference :
  types chunk = tys → holds_rows chunk rs → chunk_wf chunk → rs ≠ [] → Forall2 (λ row ar, agg_row row = Ok ar) rs arows →
  aggs !! j = Some (f, Col reference) →
  ∃ i c, cols !! reference = Some i ∧ column chunk i = Some c ∧ column_feeds c (agg_column j arows).
Proof.
  intros Ht Hh Hwf Hne Hk Hj. destruct rs as [|row0 rs0]; [done|]. destruct arows as [|ar0 arows0]; [by inversion Hk|]. pose proof Hk as Hk'.
  apply Forall2_cons in Hk' as [Hk0 _]. destruct (agg_cell row0 ar0 j f _ Hk0 Hj) as (v0 & _ & He0).
  destruct (column_cell chunk _ 0 row0 reference v0 Ht Hh eq_refl He0) as (i & c & Hi & Hc & _). exists i, c. split_and!; [done..|].
  unfold chunk_wf in Hwf. rewrite Forall_forall in Hwf. destruct (Hwf c) as [Hlen Hst]; [by eapply list_elem_of_lookup_2|].
  split_and!; [|done|].
  - rewrite Hlen. pose proof Hh as (_ & -> & _). by apply (column_lookup j f (Col reference) _ _ 0 Hk Hj).
  - intros r v Hv. rewrite (proj2 (column_lookup j f (Col reference) _ _ r Hk Hj)) in Hv. apply bind_Some in Hv as (ar & Har & Hv).
    destruct (Forall2_lookup_r _ _ _ _ _ Hk Har) as (row & Hrow & Hr). destruct (agg_cell row ar j f _ Hr Hj) as (v' & Hv' & He).
    destruct (column_cell chunk _ r row reference v' Ht Hh Hrow He) as (i' & c' & Hi' & Hc' & Hval). congruence.
Qed.
End Input.

(** ** States that follow their rows *)

Section States.
Context `{FloatEnv} {Operator : Type} (aggs : list (AggregateFunction * Expr Operator)).
Hypothesis no_percentile : ∀ j f e, aggs !! j = Some (f, e) → f ≠ PercentileCont.

Lemma column_app j rows more : agg_column j (rows ++ more) = agg_column j rows ++ agg_column j more.
Proof. apply omap_app. Qed.

Lemma final_state_app j f rows more : f ≠ PercentileCont →
  final_state (rows ++ more) (j, f) = let! s := final_state rows (j, f) in for_each (agg_column j more) s update_aggregate_state.
Proof. intros Hf. unfold final_state. rewrite column_app. destruct f; try done; by rewrite for_each_app. Qed.

Lemma final_state_constant j f rows s : f ≠ PercentileCont → final_state rows (j, f) = Ok s → constant_state s.
Proof.
  intros Hf Hs. assert (for_each (agg_column j rows) (initial_aggregate_state f) update_aggregate_state = Ok s) as Hs' by (by destruct f).
  eapply fold_constant; [|exact Hs']. by apply initial_constant.
Qed.

(** State [j] is the fold of the inputs of aggregate [j] in [view j]. *)
Definition states_hold (view : nat → list AggregateInputRow) (states : list AggregateState) : Prop :=
  length states = length aggs ∧ ∀ j s f e, states !! j = Some s → aggs !! j = Some (f, e) → final_state (view j) (j, f) = Ok s.

Definition states_fail (rows : list AggregateInputRow) : Prop :=
  ∃ j f e err, aggs !! j = Some (f, e) ∧ final_state rows (j, f) = Err err.

Lemma states_fail_app rows more : states_fail rows → states_fail (rows ++ more).
Proof.
  intros (j & f & e & err & Hj & Hf). exists j, f, e, err. split; [done|]. rewrite final_state_app by (by eapply no_percentile). by rewrite Hf.
Qed.

Lemma initial_states_hold view : (∀ j, agg_column j (view j) = []) → states_hold view (initial_aggregate_states aggs).
Proof.
  intros Hv. unfold initial_aggregate_states. split; [by rewrite length_fmap|]. intros j s f e Hs Hj. rewrite list_lookup_fmap, Hj in Hs. injection Hs as <-.
  pose proof (no_percentile j f e Hj). unfold final_state. rewrite Hv. by destruct f.
Qed.
End States.

(** ** Streaming *)

Section Streaming.
Context `{FloatEnv} {Operator : Type} (subquery_rows : Expr Operator → Chunk → gmap (list Z) nat → outcome (list Value)).
Context (group_by : list (Expr Operator)) (aggs : list (AggregateFunction * Expr Operator)) (cols : gmap (list Z) nat) (tys : list LogicalType).
Hypothesis aggs_plain : forallb (λ fe, negb (expression_contains_scalar fe.2)) aggs = true.
Hypothesis no_percentile : ∀ j f e, aggs !! j = Some (f, e) → f ≠ PercentileCont.

Lemma streaming_state chunk rs arows rows0 j f e s :
  types chunk = tys → holds_rows chunk rs → chunk_wf chunk → rs ≠ [] →
  Forall2 (λ row ar, agg_row group_by aggs cols tys row = Ok ar) rs arows → Forall sum_ready (agg_column j arows) →
  aggs !! j = Some (f, e) → final_state rows0 (j, f) = Ok s →
  same_result (update_streaming_state subquery_rows cols chunk s e) (final_state (rows0 ++ arows) (j, f)).
Proof.
  intros Ht Hh Hwf Hne Hk Hready Hj Hs. pose proof (no_percentile j f e Hj) as Hf. rewrite final_state_app by done. rewrite Hs. cbn [bind].
  assert (∀ ex : Expr Operator, ex = e → (∀ reference, ex ≠ Col reference) →
    (let! values := scalar_evaluate subquery_rows ex chunk cols in update_materialized_aggregate_column s values (row_count chunk))
    = for_each (agg_column j arows) s update_aggregate_state) as Hmat.
  { intros ex -> _. unfold scalar_evaluate.
    pose proof (proj1 (forallb_forall _ _) aggs_plain (f, e) ltac:(apply list_elem_of_In; by eapply list_elem_of_lookup_2)) as Hplain.
    cbn [snd] in Hplain. rewrite Hplain.
    rewrite (evaluate_values chunk rs cols e (agg_column j arows)); [|done|done|].
    - cbn [bind]. apply materialized_column. pose proof Hh as (_ & -> & _). symmetry. by apply (column_lookup group_by aggs cols tys j f e rs arows 0).
    - rewrite Ht. apply Forall2_same_length_lookup. destruct (column_lookup group_by aggs cols tys j f e rs arows 0 Hk Hj) as [Hl _]. split; [done|].
      intros i row v Hi Hv. rewrite (proj2 (column_lookup group_by aggs cols tys j f e rs arows i Hk Hj)) in Hv. apply bind_Some in Hv as (ar & Har & Hv).
      pose proof (Forall2_lookup_lr _ _ _ _ _ _ Hk Hi Har) as Hr. destruct (agg_cell group_by aggs cols tys row ar j f e Hr Hj) as (v' & Hv' & He). congruence. }
  assert (same_result (for_each (agg_column j arows) s update_aggregate_state) (for_each (agg_column j arows) s update_aggregate_state)) as Hrefl.
  { apply same_result_refl, fold_no_panic, update_state_no_panic. }
  destruct e; try (cbn [update_streaming_state]; rewrite (Hmat _ eq_refl ltac:(done)); exact Hrefl).
  cbn [update_streaming_state]. destruct (direct_column group_by aggs cols tys chunk rs arows j f reference) as (i & c & -> & Hc & Hl & Hst & Hv); [done..|].
  cbn [ok_or bind]. rewrite Hc. cbn [ok_or bind]. apply typed_column_same; [done..|]. by eapply final_state_constant.
Qed.

Lemma streaming_chunk chunk rs arows rows0 states :
  types chunk = tys → holds_rows chunk rs → chunk_wf chunk → rs ≠ [] →
  Forall2 (λ row ar, agg_row group_by aggs cols tys row = Ok ar) rs arows → (∀ j, Forall sum_ready (agg_column j arows)) →
  states_hold aggs (λ _, rows0) states →
  match update_streaming_chunk subquery_rows aggs cols states chunk with
  | Ok states' => states_hold aggs (λ _, rows0 ++ arows) states'
  | Err _ => states_fail aggs (rows0 ++ arows)
  | Panic => False
  end.
Proof.
  intros Ht Hh Hwf Hne Hk Hready [Hl Hs]. unfold update_streaming_chunk.
  assert (∀ j s f e, states !! j = Some s → aggs !! j = Some (f, e) →
    same_result (update_streaming_state subquery_rows cols chunk s e) (final_state (rows0 ++ arows) (j, f))) as Hstep.
  { intros j s f e Hsj Hj. eapply streaming_state; [done..| |done|]; [apply Hready|by eapply Hs]. }
  destruct (collect _ (zip states aggs)) as [states'|err|] eqn:Ec.
  - apply collect_Ok in Ec. split; [rewrite <- (Forall2_length _ _ _ Ec), length_zip; lia|]. intros j s' f e Hj' Hj.
    destruct (Forall2_lookup_r _ _ _ _ _ Ec Hj') as ([s [f' e']] & Hz & Hu). apply lookup_zip_Some in Hz as [Hsj Haj]. simplify_eq/=.
    by apply (same_result_Ok _ _ s' (Hstep j s f e Hsj Hj)).
  - apply collect_fails in Ec as ([s [f e]] & Hin & Hu). apply list_elem_of_lookup in Hin as [j Hz]. apply lookup_zip_Some in Hz as [Hsj Haj]. cbn [fst snd] in *.
    pose proof (Hstep j s f e Hsj Haj) as Hsame. rewrite Hu in Hsame.
    destruct (final_state (rows0 ++ arows) (j, f)) as [|err'|] eqn:Ef in Hsame; try done. by exists j, f, e, err'.
  - revert Ec. apply collect_no_panic. intros [s [f e]] Hin Hu. apply list_elem_of_lookup in Hin as [j Hz]. apply lookup_zip_Some in Hz as [Hsj Haj]. cbn [fst snd] in *.
    pose proof (Hstep j s f e Hsj Haj) as Hsame. by rewrite Hu in Hsame.
Qed.
End Streaming.

(** ** Typed keys *)

Definition tgv (v : Value) : TypedGroupValue :=
  match v with
  | Bool b => GBool b
  | Int64 x => GInt64 x
  | Float64 x => GFloat64 x
  | Timestamp x => GTimestamp x
  | Decimal d => GDecimal d
  | _ => GNull
  end.

Definition primitive (v : Value) : Prop :=
  match v with Null | Bool _ | Int64 _ | Float64 _ | Timestamp _ | Decimal _ => True | _ => False end.

Definition typed_key (k : list Value) : TypedGroupKey := match k with [v] => Single (tgv v) | _ => Composite (tgv <$> k) end.

Lemma tgv_inj v w : primitive v → primitive w → tgv v = tgv w → v = w.
Proof. destruct v, w; simpl; congruence || naive_solver. Qed.

Lemma typed_key_inj k k' : Forall primitive k → Forall primitive k' → typed_key k = typed_key k' → k = k'.
Proof.
  intros Hk Hk'. assert (tgv <$> k = tgv <$> k' → k = k') as Hlist.
  { clear -Hk Hk'. revert k' Hk'. induction Hk as [|v k Hv _ IH]; intros [|w k'] Hk' E; try done. apply Forall_cons in Hk' as [Hw Hk'].
    injection E as E1 E2. f_equal; [by apply tgv_inj|by apply IH]. }
  destruct k as [|v [|v' k]], k' as [|w [|w' k']]; simpl; try done; intros [= E]; try (by apply Hlist; simpl; congruence).
Qed.

Lemma primitive_column c r v : is_primitive_column c = true → storage_ok c → value_at c r = Ok v → primitive_group_value c r = Ok (tgv v) ∧ primitive v.
Proof.
  destruct c as [values b|values b|values b|values b|values sc b|values]; simpl; try done; intros _ Hst; unfold typed_value, typed_group_value, row_is_valid, index;
    (destruct b as [b|]; [destruct (is_valid b r); cbn [negb]|]); try (by intros [= <-]);
    destruct (values !! r) as [x|]; cbn [expect bind]; try done; try (by intros [= <-]).
  all: unfold decimal_value; assert (Decimal.new x sc = Ok (mkDecimal x sc)) as -> by (unfold Decimal.new; by rewrite (proj2 (Z.ltb_ge _ _))); by intros [= <-].
Qed.

Section Layout.
Context `{FloatEnv} {Operator : Type} (group_by : list (Expr Operator)) (aggs : list (AggregateFunction * Expr Operator)) (cols : gmap (list Z) nat).

Definition is_column (e : Expr Operator) (i : nat) : Prop := ∃ reference, e = Col reference ∧ cols !! reference = Some i.

Lemma direct_columns es : ∀ idx, direct_expression_columns cols es = Ok (Some idx) → Forall2 is_column es idx.
Proof.
  induction es as [|e es IH]; intros idx; [by intros [= <-]|]. destruct e; try done. cbn [direct_expression_columns].
  intros (i & Hi%ok_or_Ok & Hr)%bind_Ok. apply bind_Ok in Hr as (rest & Hr & E). destruct rest as [rest|]; [|done]. injection E as <-.
  constructor; [by exists reference|by apply IH].
Qed.

Lemma layout_spec layout : typed_grouped_layout group_by aggs cols = Ok (Some layout) →
  group_by ≠ [] ∧ Forall2 is_column group_by (group_columns layout) ∧ Forall2 (λ fe, is_column fe.2) aggs (aggregate_columns layout) ∧
  ∀ j f e, aggs !! j = Some (f, e) → f ≠ PercentileCont.
Proof.
  unfold typed_grouped_layout. case_match eqn:Eg; [done|]. apply orb_false_iff in Eg as [Eg%bool_decide_eq_false Ep].
  intros (gs & Hg & Hl)%bind_Ok. destruct gs as [gs|]; [|done]. apply bind_Ok in Hl as (as_ & Ha & El). destruct as_ as [as_|]; [|done]. injection El as <-.
  split_and!; [done|by apply direct_columns| |].
  - apply direct_columns in Ha. clear -Ha. remember (snd <$> aggs) as es eqn:E. revert E. generalize aggs. induction Ha as [|e i es idx He _ IH]; intros [|fe l] E; try done.
    rewrite fmap_cons in E. injection E as -> ->. constructor; [done|by apply IH].
  - intros j f e Hj ->. assert (existsb (λ '(function, _), bool_decide (function = PercentileCont)) aggs = true) as Hx; [|congruence].
    apply existsb_exists. exists (PercentileCont, e). split; [|done]. apply list_elem_of_In. by eapply list_elem_of_lookup_2.
Qed.
End Layout.

(** ** The groups of the typed path *)

Lemma with_key_absent {T} (kf : T → list Value) k l : k ∉ kf <$> l → with_key kf k l = [].
Proof.
  intros Hk. apply filter_none, Forall_forall. intros x Hx E. apply Hk, list_elem_of_fmap. by exists x.
Qed.

Section Typed.
Context `{FloatEnv} {Operator : Type} (group_by : list (Expr Operator)) (aggs : list (AggregateFunction * Expr Operator)) (cols : gmap (list Z) nat) (tys : list LogicalType).
Hypothesis no_percentile : ∀ j f e, aggs !! j = Some (f, e) → f ≠ PercentileCont.

Notation agg_row := (agg_row group_by aggs cols tys).

(** Every group's states follow the rows of its key. *)
Definition groups_hold (view : nat → list AggregateInputRow) (groups : list TypedGroup) : Prop :=
  Forall (λ g, states_hold aggs (λ j, with_key group_key (g_key g) (view j)) (g_states g)) groups.

Definition group_fails (rows : list AggregateInputRow) : Prop :=
  ∃ k, k ∈ group_key <$> rows ∧ states_fail aggs (with_key group_key k rows).

Lemma group_fails_app rows more : group_fails rows → group_fails (rows ++ more).
Proof.
  intros (k & Hk & Hf). exists k. split; [rewrite fmap_app; apply elem_of_app; by left|]. rewrite with_key_app. by apply states_fail_app.
Qed.

Definition set_view (view : nat → list AggregateInputRow) (j : nat) (rows : list AggregateInputRow) : nat → list AggregateInputRow :=
  λ j', if decide (j' = j) then rows else view j'.

(** One input of one aggregate reaches the state of its group. *)
Definition dispatch (j : nat) (groups : list TypedGroup) (gv : nat * Value) : outcome (list TypedGroup) :=
  let missing := Corrupt "typed aggregate group {group_index} has no state {state_index}" in
  let! group := ok_or (groups !! gv.1) missing in
  let! state := ok_or (g_states group !! j) missing in
  let! state := update_aggregate_state state gv.2 in
  Ok (<[gv.1 := mkGroup (g_key group) (<[j := state]> (g_states group))]> groups).

Lemma lookup_state view groups i g j : groups_hold view groups → groups !! i = Some g → (j < length aggs)%nat →
  ∃ s f e, g_states g !! j = Some s ∧ aggs !! j = Some (f, e) ∧ final_state (with_key group_key (g_key g) (view j)) (j, f) = Ok s ∧ constant_state s.
Proof.
  intros Hg Hi Hj. unfold groups_hold in Hg. rewrite Forall_forall in Hg. destruct (Hg g) as [Hl Hs]; [by eapply list_elem_of_lookup_2|].
  destruct (lookup_lt_is_Some_2 aggs j Hj) as [[f e] Hf]. destruct (lookup_lt_is_Some_2 (g_states g) j) as [s Hsj]; [lia|].
  exists s, f, e. split_and!; [done..|by eapply Hs|]. eapply final_state_constant; [by eapply no_percentile|by eapply Hs].
Qed.

Lemma dispatch_step view groups j i ar v : groups_hold view groups → NoDup (g_key <$> groups) → (j < length aggs)%nat →
  (g_key <$> groups) !! i = Some (group_key ar) → input_values ar !! j = Some v →
  match dispatch j groups (i, v) with
  | Ok groups' => groups_hold (set_view view j (view j ++ [ar])) groups' ∧ g_key <$> groups' = g_key <$> groups
  | Err _ => group_fails (view j ++ [ar])
  | Panic => False
  end.
Proof.
  intros Hg Hnd Hj Hi Hv. rewrite list_lookup_fmap in Hi. destruct (groups !! i) as [g|] eqn:Egi; [|done]. injection Hi as Hkey.
  destruct (lookup_state view groups i g j Hg Egi Hj) as (s & f & e & Hs & Hf & Hfold & _). pose proof (no_percentile j f e Hf) as Hnp.
  assert (with_key group_key (g_key g) (view j ++ [ar]) = with_key group_key (g_key g) (view j) ++ [ar]) as Hw.
  { rewrite with_key_app. unfold with_key at 2. by rewrite filter_cons_True. }
  assert (final_state (with_key group_key (g_key g) (view j ++ [ar])) (j, f) = update_aggregate_state s v) as Hnext.
  { rewrite Hw, final_state_app, Hfold by done. cbn [bind]. unfold agg_column. cbn [omap list_omap]. rewrite Hv. cbn [for_each]. by destruct (update_aggregate_state s v). }
  unfold dispatch. cbn [fst snd]. rewrite Egi. cbn [ok_or bind]. rewrite Hs. cbn [ok_or bind]. pose proof (update_state_no_panic s v) as Hp.
  destruct (update_aggregate_state s v) as [s'|err|] eqn:Eu; [|cbn [bind]|done].
  - cbn [bind]. split.
    + unfold groups_hold in *. apply Forall_lookup. intros i' g' Hi'. rewrite Forall_lookup in Hg. destruct (decide (i' = i)) as [->|Hne].
      * rewrite list_lookup_insert_eq in Hi' by (by eapply lookup_lt_Some). injection Hi' as <-. cbn [g_key g_states].
        destruct (Hg i g Egi) as [Hl Hall]. split; [by rewrite length_insert|]. intros j' s1 f1 e1 Hs1 Hf1. unfold set_view.
        destruct (decide (j' = j)) as [->|Hne'].
        -- rewrite list_lookup_insert_eq in Hs1 by (by eapply lookup_lt_Some). injection Hs1 as <-. rewrite Hf in Hf1. injection Hf1 as <- <-. done.
        -- rewrite list_lookup_insert_ne in Hs1 by done. by eapply Hall.
      * rewrite list_lookup_insert_ne in Hi' by done. destruct (Hg i' g' Hi') as [Hl Hall]. split; [done|]. intros j' s1 f1 e1 Hs1 Hf1. unfold set_view.
        destruct (decide (j' = j)) as [->|Hne']; [|by eapply Hall]. rewrite with_key_app, (with_key_absent group_key (g_key g') [ar]), app_nil_r; [by eapply Hall|].
        simpl. rewrite list_elem_of_singleton. intros E. apply Hne. eapply (NoDup_lookup _ i' i (g_key g') Hnd); rewrite list_lookup_fmap; [by rewrite Hi'|].
        rewrite Egi. simpl. congruence.
    + rewrite list_fmap_insert. cbn [g_key]. apply list_insert_id. by rewrite list_lookup_fmap, Egi.
  - exists (group_key ar). split; [rewrite fmap_app; apply elem_of_app; right; by left|]. exists j, f, e, err. split; [done|]. by rewrite <- Hkey.
Qed.

Lemma set_view_same view j : ∀ groups, groups_hold (set_view view j (view j)) groups ↔ groups_hold view groups.
Proof.
  assert (∀ j', set_view view j (view j) j' = view j') as Hs by (intros j'; unfold set_view; by case_decide; subst).
  intros groups. unfold groups_hold, states_hold. setoid_rewrite Hs. done.
Qed.

Lemma groups_hold_ext view view' groups : (∀ j, (j < length aggs)%nat → view j = view' j) → groups_hold view groups → groups_hold view' groups.
Proof.
  intros Hv Hg. eapply Forall_impl; [exact Hg|]. intros g [Hl Hs]. split; [done|]. intros j s f e Hsj Hj.
  rewrite <- Hv by (by eapply lookup_lt_Some). by eapply Hs.
Qed.

(** All inputs of one aggregate in a chunk. *)
Lemma dispatch_loop j arows : ∀ view groups indices, groups_hold view groups → NoDup (g_key <$> groups) → (j < length aggs)%nat →
  Forall2 (λ ar i, (g_key <$> groups) !! i = Some (group_key ar)) arows indices → Forall (λ ar, is_Some (input_values ar !! j)) arows →
  match for_each (zip indices (agg_column j arows)) groups (dispatch j) with
  | Ok groups' => groups_hold (set_view view j (view j ++ arows)) groups' ∧ g_key <$> groups' = g_key <$> groups
  | Err _ => group_fails (view j ++ arows)
  | Panic => False
  end.
Proof.
  induction arows as [|ar arows IH]; intros view groups indices Hg Hnd Hj Hi Hv.
  { apply Forall2_nil_inv_l in Hi as ->. cbn [zip zip_with for_each]. rewrite app_nil_r. split; [by apply set_view_same|done]. }
  apply Forall2_cons_inv_l in Hi as (i & indices' & Hi & Hrest & ->). apply Forall_cons in Hv as [[v Hv] Hvs].
  rewrite (column_cons j ar arows v Hv). cbn [zip zip_with for_each]. pose proof (dispatch_step view groups j i ar v Hg Hnd Hj Hi Hv) as Hs.
  rewrite cons_middle, app_assoc. destruct (dispatch j groups (i, v)) as [groups'|e|]; [|by apply group_fails_app|done]. destruct Hs as [Hg' Hk'].
  cbn [bind]. rewrite <- Hk' in Hnd, Hrest. specialize (IH _ groups' indices' Hg' Hnd Hj Hrest Hvs). fold (zip indices' (agg_column j arows)).
  assert (set_view view j (view j ++ [ar]) j = view j ++ [ar]) as Hview by (unfold set_view; by rewrite decide_True).
  rewrite Hview in IH. destruct (for_each _ groups' (dispatch j)) as [groups''|e|]; [|done..]. destruct IH as [Hg'' Hk'']. split; [|congruence].
  eapply groups_hold_ext; [|exact Hg'']. intros j' _. unfold set_view. by case_decide.
Qed.

(** The typed loop over a column is the loop over its values. *)
Definition has_state (j G : nat) (groups : list TypedGroup) : Prop :=
  length groups = G ∧ Forall (λ g, ∃ s, g_states g !! j = Some s ∧ constant_state s) groups.

Lemma dispatch_keeps j G groups gv groups' : has_state j G groups → dispatch j groups gv = Ok groups' → has_state j G groups'.
Proof.
  intros [Hl Hg] Hd. unfold dispatch in Hd. apply bind_Ok in Hd as (g & Hgi%ok_or_Ok & Hd). apply bind_Ok in Hd as (s & Hs%ok_or_Ok & Hd).
  apply bind_Ok in Hd as (s' & Hu & [= <-]). split; [by rewrite length_insert|]. apply Forall_insert; [done|]. exists s'. cbn [g_states].
  rewrite list_lookup_insert_eq by (by eapply lookup_lt_Some). split; [done|]. by eapply update_keeps_constant.
Qed.

Lemma grouped_values_same {T} (values : list T) validity (wrap : T → Value) update vs indices groups j :
  length vs = length values → (∀ i v, vs !! i = Some v → typed_value validity i values wrap = Ok v) →
  (∀ s x, wrap x ∈ vs → same_result (update s x) (update_aggregate_state s (wrap x))) →
  length indices = length vs → Forall (λ i, i < length groups)%nat indices → has_state j (length groups) groups →
  same_result (update_grouped_valid_values groups indices j values validity update) (for_each (zip indices vs) groups (dispatch j)).
Proof.
  intros Hl Hv Hu Hli Hlt Hhas. pose proof (slots_hold values validity wrap vs Hl Hv) as Hh. set (G := length groups) in *. clearbody G.
  unfold update_grouped_valid_values. eapply (same_result_for_each2 (has_state j G) (λ slot gv, slot_holds validity wrap slot gv.2 ∧ gv.2 ∈ vs ∧
    indices !! slot.1 = Some gv.1 ∧ (gv.1 < G)%nat)); [| |done].
  - intros groups' [row x] [gi v] [Hlen Hg] (Hslot & Hin & Hidx & Hgi). cbn [fst snd] in *. split.
    + unfold dispatch. cbn [fst snd]. destruct (lookup_lt_is_Some_2 groups' gi) as [g Hgg]; [lia|]. rewrite Forall_lookup in Hg.
      destruct (Hg gi g Hgg) as (s & Hs & Hc). rewrite Hgg. cbn [ok_or bind]. rewrite Hs. cbn [ok_or bind]. unfold slot_holds in Hslot. cbn [fst snd] in Hslot.
      destruct (row_is_valid validity row); cbn [negb].
      * subst v. rewrite Hidx. cbn [ok_or bind]. rewrite Hgg. cbn [ok_or bind]. rewrite Hs. cbn [ok_or bind]. apply same_result_bind; [by apply Hu|done].
      * subst v. rewrite null_step by done. cbn [bind]. rewrite (list_insert_id (g_states g)) by done. rewrite list_insert_id; [done|]. rewrite Hgg. by destruct g.
    + intros groups'' Hd. eapply dispatch_keeps; [|exact Hd]. by split.
  - apply Forall2_same_length_lookup. apply Forall2_same_length_lookup in Hh as [Hhl Hh]. split; [rewrite Hhl, length_zip; lia|].
    intros i [row x] [gi v] Hx Hz. apply lookup_zip_Some in Hz as [Hgi Hvi]. cbn [fst snd] in *. pose proof Hx as Hrow.
    apply lookup_zip_Some in Hrow as [[-> _]%lookup_seq _]. split_and!; [by eapply Hh|by eapply list_elem_of_lookup_2|done|].
    rewrite Forall_lookup in Hlt. by eapply Hlt.
Qed.

Lemma grouped_column_same c vs indices groups j :
  column_feeds c vs → is_primitive_column c = true → Forall sum_ready vs → length indices = length vs →
  Forall (λ i, i < length groups)%nat indices → has_state j (length groups) groups →
  same_result (update_grouped_typed_column groups indices j c) (for_each (zip indices vs) groups (dispatch j)).
Proof.
  intros (Hl & Hc & Hv) Hp Hr Hli Hlt Hhas. destruct c as [values validity|values validity|values validity|values validity|values sc validity|values]; simpl in *; [..|done].
  - eapply grouped_values_same; [done..| |done|done|done]. intros. apply int64_step.
  - eapply grouped_values_same; [done..| |done|done|done]. intros. apply float64_step.
  - eapply grouped_values_same; [done..| |done|done|done]. intros. apply bool_step.
  - eapply grouped_values_same; [done..| |done|done|done]. intros. apply timestamp_step.
  - eapply grouped_values_same; [done..| |done|done|done]. intros s' x Hx. unfold update_decimal_digits, decimal_value in *.
    assert (Decimal.new x sc = Ok (mkDecimal x sc)) as Hn by (unfold Decimal.new; by rewrite (proj2 (Z.ltb_ge _ _))). rewrite Hn in *.
    apply decimal_step. rewrite Forall_forall in Hr. by apply (Hr _ Hx).
Qed.

Lemma holds_has_state view groups j : groups_hold view groups → (j < length aggs)%nat → has_state j (length groups) groups.
Proof.
  intros Hg Hj. split; [done|]. apply Forall_lookup. intros i g Hi. destruct (lookup_state view groups i g j Hg Hi Hj) as (s & f & e & ? & _ & _ & ?). by exists s.
Qed.

(** All aggregates of a chunk. *)
Lemma columns_loop chunk arows rows0 indices : ∀ todo k groups,
  (k + length todo = length aggs)%nat →
  (∀ i j, todo !! i = Some j → ∃ c, column chunk j = Some c ∧ is_primitive_column c = true ∧ column_feeds c (agg_column (k + i) arows)) →
  (∀ j, Forall sum_ready (agg_column j arows)) → Forall (λ ar, length (input_values ar) = length aggs) arows →
  groups_hold (λ j, if decide (j < k)%nat then rows0 ++ arows else rows0) groups → NoDup (g_key <$> groups) →
  Forall2 (λ ar i, (g_key <$> groups) !! i = Some (group_key ar)) arows indices →
  match for_each (enumerate_from k todo) groups (λ groups '(state_index, column_index),
    let! c := ok_or (column chunk column_index) (InvalidArgument "aggregate column {column_index} is out of range") in
    update_grouped_typed_column groups indices state_index c) with
  | Ok groups' => groups_hold (λ _, rows0 ++ arows) groups' ∧ g_key <$> groups' = g_key <$> groups
  | Err _ => group_fails (rows0 ++ arows)
  | Panic => False
  end.
Proof.
  induction todo as [|col todo IH]; intros k groups Hk Hcols Hready Hlen Hg Hnd Hidx.
  { cbn [enumerate_from seq length zip zip_with for_each]. split; [|done]. eapply groups_hold_ext; [|exact Hg]. intros j Hj. simpl in *. case_decide; [done|lia]. }
  rewrite enumerate_from_cons. cbn [for_each length] in *. destruct (Hcols 0%nat col eq_refl) as (c & Hc & Hprim & Hfeed). rewrite Nat.add_0_r in Hfeed.
  rewrite Hc. cbn [ok_or bind]. pose proof (Forall2_length _ _ _ Hidx) as Hli.
  assert (Forall (λ ar, is_Some (input_values ar !! k)) arows) as Hvals.
  { eapply Forall_impl; [exact Hlen|]. intros ar Ha. apply lookup_lt_is_Some_2. cbn beta in Ha. lia. }
  assert (length (agg_column k arows) = length arows) as Hlc by (by apply length_omap_all).
  pose proof (grouped_column_same c (agg_column k arows) indices groups k Hfeed Hprim (Hready k) ltac:(lia)) as Hsame.
  specialize (Hsame ltac:(clear -Hidx; induction Hidx as [|? ? ? ? Hi _ ?]; constructor; [|done]; apply lookup_lt_Some in Hi; by rewrite length_fmap in Hi)).
  specialize (Hsame (holds_has_state _ groups k Hg ltac:(lia))).
  pose proof (dispatch_loop k arows _ groups indices Hg Hnd ltac:(lia) Hidx Hvals) as Hd. cbn beta in Hd. rewrite decide_False in Hd by lia.
  revert Hsame Hd. destruct (for_each (zip indices (agg_column k arows)) groups (dispatch k)) as [groups'|e|],
    (update_grouped_typed_column groups indices k c) as [groups1|e'|]; simpl; try done. intros -> Hd.
  destruct Hd as [Hg' Hk']. rewrite <- Hk' in Hnd, Hidx |- *. eapply (IH (S k)); [lia| |done|done| |done|done].
  - intros i j Hi. destruct (Hcols (S i) j Hi) as (c' & ? & ? & ?). exists c'. by rewrite Nat.add_succ_comm.
  - eapply groups_hold_ext; [|exact Hg']. intros j Hj. unfold set_view. destruct (decide (j = k)) as [->|Hne]; [by rewrite decide_True by lia|].
    destruct (decide (j < k)%nat); [by rewrite decide_True by lia|by rewrite decide_False by lia].
Qed.

(** Assigning rows to groups. *)

Lemma key_lookup_app l k i k' : key_lookup (l ++ [(k, i)]) k' = match key_lookup l k' with Some m => Some m | None => if decide (k = k') then Some i else None end.
Proof. induction l as [|[k0 i0] l IH]; [done|]. cbn [app key_lookup]. destruct (decide (k0 = k')); [done|apply IH]. Qed.

Record keys_inv (rows : list AggregateInputRow) (lookup : list (TypedGroupKey * nat)) (groups : list TypedGroup) : Prop := {
  ki_nodup : NoDup (g_key <$> groups);
  ki_cover k : k ∈ g_key <$> groups ↔ k ∈ group_key <$> rows;
  ki_lookup i k : Forall primitive k → key_lookup lookup (typed_key k) = Some i ↔ (g_key <$> groups) !! i = Some k;
}.

Lemma assign_group_spec layout chunk r ar rows rows0 lookup groups indices :
  typed_group_key chunk (group_columns layout) r = Ok (typed_key (group_key ar)) → materialize_group_key chunk (group_columns layout) r = Ok (group_key ar) →
  Forall primitive (group_key ar) → Forall (λ k, Forall primitive k) (g_key <$> groups) →
  keys_inv rows lookup groups → groups_hold (λ _, rows0) groups → (∀ k, k ∈ group_key <$> rows0 → k ∈ group_key <$> rows) →
  ∃ lookup' groups' i, assign_group aggs layout chunk r (lookup, groups, indices) = Ok (lookup', groups', indices ++ [i]) ∧
    keys_inv (rows ++ [ar]) lookup' groups' ∧ groups_hold (λ _, rows0) groups' ∧ Forall (λ k, Forall primitive k) (g_key <$> groups') ∧
    (g_key <$> groups') !! i = Some (group_key ar) ∧ ∃ more, g_key <$> groups' = (g_key <$> groups) ++ more.
Proof.
  intros Hkey Hmat Hprim Hgp [Hnd Hcov Hlook] Hg Hsub. unfold assign_group. rewrite Hkey. cbn [bind].
  destruct (key_lookup lookup (typed_key (group_key ar))) as [i|] eqn:El.
  - apply Hlook in El as Hi; [|done]. exists lookup, groups, i. split_and!; [done| |done|done|done|exists []; by rewrite app_nil_r].
    split; [done| |done]. intros k. rewrite fmap_app, elem_of_app, Hcov. simpl. rewrite list_elem_of_singleton. split; [by left|]. intros [?| ->]; [done|].
    apply Hcov. by eapply list_elem_of_lookup_2.
  - rewrite Hmat. cbn [bind]. assert (group_key ar ∉ g_key <$> groups) as Hnew.
    { intros [i Hi]%list_elem_of_lookup. apply Hlook in Hi; [|done]. congruence. }
    exists (lookup ++ [(typed_key (group_key ar), length groups)]), (groups ++ [mkGroup (group_key ar) (initial_aggregate_states aggs)]), (length groups).
    assert (g_key <$> (groups ++ [mkGroup (group_key ar) (initial_aggregate_states aggs)]) = (g_key <$> groups) ++ [group_key ar]) as Hk by (by rewrite fmap_app).
    rewrite Hk. split_and!; [done| | | | |by eexists].
    + split; rewrite Hk.
      * apply NoDup_app. split_and!; [done|by intros k Hk' ->%list_elem_of_singleton|apply NoDup_singleton].
      * intros k. by rewrite fmap_app, !elem_of_app, Hcov.
      * intros i k Hpk. rewrite key_lookup_app. destruct (key_lookup lookup (typed_key k)) as [m|] eqn:Em.
        -- apply Hlook in Em as Hm; [|done]. apply lookup_lt_Some in Hm as Hlt. split.
           ++ intros [= <-]. by rewrite lookup_app_l.
           ++ intros Hi. f_equal. apply (NoDup_lookup ((g_key <$> groups) ++ [group_key ar]) m i k); [|by rewrite lookup_app_l|done].
              apply NoDup_app. split_and!; [done|by intros k0 Hk' ->%list_elem_of_singleton|apply NoDup_singleton].
        -- assert ((g_key <$> groups) !! i ≠ Some k) as Hni by (intros Hi; apply Hlook in Hi; [congruence|done]). case_decide as Hd.
           ++ apply typed_key_inj in Hd as <-; [|done..]. split.
              ** intros [= <-]. rewrite lookup_app_r by (by rewrite length_fmap). by rewrite length_fmap, Nat.sub_diag.
              ** intros Hi. f_equal. apply lookup_app_Some in Hi as [?|[? Hi]]; [done|]. rewrite length_fmap in *. apply lookup_lt_Some in Hi. simpl in Hi. lia.
           ++ split; [done|]. intros Hi. apply lookup_app_Some in Hi as [?|[? Hi]]; [done|]. apply list_elem_of_lookup_2, list_elem_of_singleton in Hi as ->. done.
    + unfold groups_hold in *. apply Forall_app. split; [done|]. apply Forall_singleton. cbn [g_key g_states].
      apply initial_states_hold; [done|]. intros j. rewrite with_key_absent; [done|]. intros Hin%Hsub. by apply Hnew, Hcov.
    + apply Forall_app. split; [done|by apply Forall_singleton].
    + rewrite lookup_app_r by (by rewrite length_fmap). by rewrite length_fmap, Nat.sub_diag.
Qed.

Lemma assign_loop layout chunk rows0 : ∀ arows k rows lookup groups indices,
  (∀ i ar, arows !! i = Some ar → typed_group_key chunk (group_columns layout) (k + i) = Ok (typed_key (group_key ar)) ∧
     materialize_group_key chunk (group_columns layout) (k + i) = Ok (group_key ar) ∧ Forall primitive (group_key ar)) →
  Forall (λ k, Forall primitive k) (g_key <$> groups) → keys_inv rows lookup groups → groups_hold (λ _, rows0) groups →
  (∀ k, k ∈ group_key <$> rows0 → k ∈ group_key <$> rows) →
  ∃ lookup' groups' more, for_each (seq k (length arows)) (lookup, groups, indices) (λ s row, assign_group aggs layout chunk row s) = Ok (lookup', groups', indices ++ more) ∧
    keys_inv (rows ++ arows) lookup' groups' ∧ groups_hold (λ _, rows0) groups' ∧ Forall (λ k, Forall primitive k) (g_key <$> groups') ∧
    Forall2 (λ ar i, (g_key <$> groups') !! i = Some (group_key ar)) arows more ∧ ∃ new, g_key <$> groups' = (g_key <$> groups) ++ new.
Proof.
  induction arows as [|ar arows IH]; intros k rows lookup groups indices Hrows Hprim Hk Hg Hsub.
  { exists lookup, groups, []. rewrite !app_nil_r. split_and!; [done..|constructor|exists []; by rewrite app_nil_r]. }
  destruct (Hrows 0%nat ar eq_refl) as (H1 & H2 & H3). rewrite Nat.add_0_r in H1, H2.
  destruct (assign_group_spec layout chunk k ar rows rows0 lookup groups indices) as (l1 & g1 & i & Ha & Hk1 & Hg1 & Hp1 & Hi1 & new1 & Hn1); [done..|].
  cbn [length seq for_each]. rewrite Ha. cbn [bind].
  destruct (IH (S k) (rows ++ [ar]) l1 g1 (indices ++ [i])) as (l2 & g2 & more & Hf & Hk2 & Hg2 & Hp2 & Hm2 & new2 & Hn2); [|done..| |].
  - intros i' ar' Hi'. specialize (Hrows (S i') ar' Hi'). by rewrite Nat.add_succ_comm.
  - intros k' Hk'. rewrite fmap_app, elem_of_app. left. by apply Hsub.
  - exists l2, g2, (i :: more). rewrite Hf. rewrite <- app_assoc in Hk2 |- *. split_and!; [done..| |].
    + constructor; [|done]. rewrite Hn2. by apply lookup_app_l_Some.
    + exists (new1 ++ new2). by rewrite Hn2, Hn1, app_assoc.
Qed.

(** A chunk whose columns the layout supports. *)

Lemma supports_column layout chunk i : supports layout chunk = true → i ∈ all_columns layout → ∃ c, column chunk i = Some c ∧ is_primitive_column c = true.
Proof.
  unfold supports. intros Hs Hi. rewrite forallb_forall in Hs. apply list_elem_of_In, Hs in Hi. destruct (column chunk i) as [c|]; [by exists c|done].
Qed.

Lemma key_columns layout chunk rs arows r ar :
  Forall2 (is_column cols) group_by (group_columns layout) → supports layout chunk = true →
  types chunk = tys → holds_rows chunk rs → chunk_wf chunk → Forall2 (λ row ar, agg_row row = Ok ar) rs arows → arows !! r = Some ar →
  length (group_key ar) = length group_by →
  typed_group_key chunk (group_columns layout) r = Ok (typed_key (group_key ar)) ∧ materialize_group_key chunk (group_columns layout) r = Ok (group_key ar) ∧
  Forall primitive (group_key ar).
Proof.
  intros Hcols Hsup Ht Hh Hwf Hk Hr Hl. destruct (Forall2_lookup_r _ _ _ _ _ Hk Hr) as (row & Hrow & Har).
  assert (Forall2 (λ i v, ∃ c, column chunk i = Some c ∧ value_at c r = Ok v ∧ primitive_group_value c r = Ok (tgv v) ∧ primitive v) (group_columns layout) (group_key ar)) as Hcell.
  { apply Forall2_same_length_lookup. split; [by rewrite Hl, (Forall2_length _ _ _ Hcols)|]. intros p i v Hi Hv.
    destruct (Forall2_lookup_r _ _ _ _ _ Hcols Hi) as (e & He & reference & -> & Href).
    destruct (key_cell group_by aggs cols tys row ar p _ Har He) as (v' & Hv' & Hev). assert (v' = v) as -> by congruence.
    destruct (column_cell cols tys chunk rs r row reference v Ht Hh Hrow Hev) as (i' & c & Hi' & Hc & Hval). assert (i' = i) as -> by congruence.
    destruct (supports_column layout chunk i Hsup) as (c' & Hc' & Hp); [apply elem_of_app; left; by eapply list_elem_of_lookup_2|].
    assert (c' = c) as -> by congruence. unfold chunk_wf in Hwf. rewrite Forall_forall in Hwf. destruct (Hwf c) as [_ Hst]; [by eapply list_elem_of_lookup_2|].
    exists c. destruct (primitive_column c r v Hp Hst Hval). done. }
  clear Hcols. split_and!.
  - assert (collect (λ i, let! c := group_column chunk i in primitive_group_value c r) (group_columns layout) = Ok (tgv <$> group_key ar)) as Hcol.
    { apply collect_Ok. apply Forall2_fmap_r. eapply Forall2_impl; [exact Hcell|]. intros i v (c & Hc & _ & Hp & _). unfold group_column. by rewrite Hc. }
    unfold typed_group_key, typed_key. destruct Hcell as [|i v is_ vs (c & Hc & _ & Hp & _) Hrest]; [done|].
    destruct Hrest as [|i' v' is_ vs _ _]; [unfold group_column; rewrite Hc; cbn [ok_or bind]; by rewrite Hp|]. by rewrite Hcol.
  - apply collect_Ok. eapply Forall2_impl; [exact Hcell|]. intros i v (c & Hc & Hv & _). unfold group_column. by rewrite Hc.
  - clear -Hcell. induction Hcell as [|i v is_ vs (c & _ & _ & _ & Hp) _ IH]; by constructor.
Qed.

Definition typed_inv (rows : list AggregateInputRow) (grouped : list (TypedGroupKey * nat) * list TypedGroup) : Prop :=
  keys_inv rows grouped.1 grouped.2 ∧ groups_hold (λ _, rows) grouped.2 ∧ Forall (λ k, Forall primitive k) (g_key <$> grouped.2).

Lemma typed_inv_nil : typed_inv [] ([], []).
Proof. split_and!; [split; [constructor|done|]|constructor|constructor]. intros i k _. split; [done|]. by destruct i. Qed.

Lemma append_chunk_spec layout chunk rs arows rows grouped :
  Forall2 (is_column cols) group_by (group_columns layout) → Forall2 (λ fe, is_column cols fe.2) aggs (aggregate_columns layout) →
  supports layout chunk = true → types chunk = tys → holds_rows chunk rs → chunk_wf chunk → rs ≠ [] →
  Forall2 (λ row ar, agg_row row = Ok ar) rs arows → (∀ j, Forall sum_ready (agg_column j arows)) →
  Forall (λ ar, length (group_key ar) = length group_by ∧ length (input_values ar) = length aggs) arows → typed_inv rows grouped →
  match append_typed_aggregate_chunk aggs layout chunk grouped with
  | Ok grouped' => typed_inv (rows ++ arows) grouped'
  | Err _ => group_fails (rows ++ arows)
  | Panic => False
  end.
Proof.
  intros Hgc Hac Hsup Ht Hh Hwf Hne Hk Hready Hlen (Hkeys & Hg & Hprim). destruct grouped as [lookup groups]. cbn [fst snd] in *.
  unfold append_typed_aggregate_chunk. pose proof Hh as (_ & -> & _). rewrite (Forall2_length _ _ _ Hk).
  destruct (assign_loop layout chunk rows arows 0 rows lookup groups []) as (l1 & g1 & indices & -> & Hk1 & Hg1 & Hp1 & Hi1 & _); [|done..|].
  { intros i ar Hi. rewrite Forall_lookup in Hlen. eapply key_columns; [done..|]. by apply (Hlen i). }
  cbn [bind app].
  pose proof (columns_loop chunk arows rows indices (aggregate_columns layout) 0 g1) as Hloop.
  specialize (Hloop ltac:(by rewrite (Forall2_length _ _ _ Hac))). unfold enumerate.
  assert (∀ i j, aggregate_columns layout !! i = Some j → ∃ c, column chunk j = Some c ∧ is_primitive_column c = true ∧ column_feeds c (agg_column (0 + i) arows)) as Hcols.
  { intros i j Hi. destruct (Forall2_lookup_r _ _ _ _ _ Hac Hi) as ([f e] & He & reference & Eref & Href). cbn [snd] in Eref. subst e.
    destruct (direct_column group_by aggs cols tys chunk rs arows i f reference) as (j' & c & Hj' & Hc & Hfeed); [done..|]. assert (j' = j) as -> by congruence.
    destruct (supports_column layout chunk j Hsup) as (c' & Hc' & Hp); [apply elem_of_app; right; by eapply list_elem_of_lookup_2|]. exists c.
    split_and!; [done|congruence|done]. }
  specialize (Hloop Hcols Hready). specialize (Hloop ltac:(eapply Forall_impl; [exact Hlen|]; by intros ar [_ ?])).
  specialize (Hloop ltac:(eapply groups_hold_ext; [|exact Hg1]; intros j _; destruct (decide (j < 0)%nat); [lia|done]) (ki_nodup _ _ _ Hk1) Hi1).
  destruct (for_each (enumerate_from 0 (aggregate_columns layout)) g1 _) as [g2|e|]; [|done..]. destruct Hloop as [Hg2 Hkeq]. cbn [bind].
  split_and!; cbn [fst snd]; [|done|by rewrite Hkeq]. destruct Hk1 as [Hnd Hcov Hlook]. split; rewrite Hkeq; done.
Qed.
End Typed.

(** ** Finishing *)

Lemma strictly_sorted_nodup {A} (R : A → A → Prop) l : (∀ x, x ∈ l → ¬ R x x) → StronglySorted R l → NoDup l.
Proof.
  intros Hirr. induction 1 as [|x l _ IH Hx]; constructor.
  - intros Hin. rewrite Forall_forall in Hx. apply (Hirr x); [left|by apply Hx].
  - apply IH. intros y Hy. apply Hirr. by right.
Qed.

Section Finish.
Context `{FloatEnv} (powi10 : Z → Z) {Operator : Type}.
Context (group_by : list (Expr Operator)) (aggs : list (AggregateFunction * Expr Operator)) (output_types : list LogicalType) (kinds : list order_kind).
Hypothesis kinds_length : length kinds = length group_by.
Hypothesis types_length : length output_types = (length group_by + length aggs)%nat.
Hypothesis no_percentile : ∀ j f e, aggs !! j = Some (f, e) → f ≠ PercentileCont.

Notation row_good := (row_good aggs kinds).
Notation spec_row := (spec_row powi10 group_by aggs output_types).

Lemma key_lt_unique l l' : Forall (key_ok kinds) l → (∀ k, k ∈ l ↔ k ∈ l') → StronglySorted key_lt l → StronglySorted key_lt l' → l = l'.
Proof.
  intros Hok Heq Hl Hl'. rewrite Forall_forall in Hok. apply (StronglySorted_unique_strong key_lt); [|done..|].
  - intros x y Hx Hy%Heq Hxy Hyx. unfold key_lt in *. rewrite (cmp_antisym (P := key_ok kinds) x y) in Hyx by auto. by rewrite Hxy in Hyx.
  - apply NoDup_Permutation; [..|done]; (eapply strictly_sorted_nodup; [|done]); intros k Hk; apply (key_lt_irrefl kinds), Hok; [done|by apply Heq].
Qed.

Lemma states_final rows states : states_hold aggs (λ _, rows) states → collect (final_state rows) (enumerate (fst <$> aggs)) = Ok states.
Proof using.
  intros [Hl Hs]. apply collect_Ok, Forall2_same_length_lookup. unfold enumerate, enumerate_from. split; [rewrite length_zip, length_seq, length_fmap; clear -Hl; lia|].
  intros i [j f] s Hi Hsi. apply lookup_zip_Some in Hi as [[-> _]%lookup_seq Hf]. cbn [fst snd Nat.add] in *. rewrite list_lookup_fmap in Hf.
  destruct (aggs !! i) as [[f' e]|] eqn:Ea; [|done]. injection Hf as <-. by eapply Hs.
Qed.

Lemma good_inputs rows : Forall row_good rows → Forall (input_row (length aggs)) rows.
Proof. intros Hr. eapply Forall_impl; [exact Hr|]. by intros row [_ ?]. Qed.

Lemma with_key_good k rows : Forall row_good rows → Forall row_good (with_key group_key k rows).
Proof. rewrite !Forall_forall. intros Hr x [_ Hx]%list_elem_of_filter. by apply Hr. Qed.

Lemma fails_spec rows ks : Forall row_good rows → group_fails aggs rows → group_keys_of rows ks → ∃ e, collect (spec_row rows) ks = Err e.
Proof.
  intros Hok (k & Hk & j & f & ex & err & Hj & Hf) [_ Hex].
  assert (∃ e, group_result powi10 (fst <$> aggs) (with_key group_key k rows) (drop (length group_by) output_types) = Err e) as [e Hr].
  { destruct (collect_has_error (final_state (with_key group_key k rows)) (enumerate (fst <$> aggs)) (j, f) err) as [e' He']; [apply final_no_panic| |done|].
    - apply enumerate_elem_of. by rewrite list_lookup_fmap, Hj.
    - eapply final_error; [by apply good_inputs, with_key_good|by apply length_result_types|done]. }
  eapply (collect_has_error _ ks k e); [apply spec_row_no_panic|by apply Hex|]. unfold AggSpec.spec_row. by rewrite Hr.
Qed.

Lemma finish_typed_spec rows grouped ks : Forall row_good rows → typed_inv aggs rows grouped → group_keys_of rows ks →
  same_result (finish_typed_groups powi10 group_by output_types grouped.2) (collect (spec_row rows) ks).
Proof.
  destruct grouped as [lookup groups]. intros Hok ([Hnd Hcov _] & Hg & _) [Hinc Hex]. cbn [fst snd] in *. unfold finish_typed_groups.
  assert (∀ g, g ∈ groups → key_ok kinds (g_key g)) as Hkey.
  { intros g Hin. assert (g_key g ∈ g_key <$> groups) as Hk by (apply list_elem_of_fmap; by exists g). apply Hcov, list_elem_of_fmap in Hk as (r & -> & Hr).
    rewrite Forall_forall in Hok. by apply Hok. }
  destruct (stable_sort_spec (λ g, key_ok kinds (g_key g) ∧ True) (λ x y, tuple_cmp (g_key x) (g_key y)) groups (λ l r, compare_key_tuples (g_key l) (g_key r)))
    as (out & -> & t & -> & Hs & Hp).
  { apply Forall_forall. intros g Hin. split; [by apply Hkey|done]. }
  { intros x y Hx Hy. apply (tuple_cmp_Ok kinds); by apply Hkey. }
  cbn [bind]. assert (t.*2 ≡ₚ groups) as Hperm by (by rewrite Hp, enumerate_snd).
  assert (g_key <$> t.*2 = ks) as Hks.
  { apply key_lt_unique; [| | |done].
    - apply Forall_fmap, Forall_forall. intros g Hin. rewrite Hperm in Hin. by apply Hkey.
    - intros k. rewrite Hperm, Hcov, Hex. done.
    - assert (NoDup (g_key <$> t.*2)) as Hnd' by (by rewrite Hperm). assert (∀ g, g ∈ t.*2 → key_ok kinds (g_key g)) as Hkey' by (intros g Hin; rewrite Hperm in Hin; by apply Hkey).
      clear -Hs Hnd' Hkey'. induction Hs as [|x t _ IH Hx]; [constructor|]. rewrite !fmap_cons in *. apply NoDup_cons in Hnd' as [Hnin Hnd'].
      constructor; [apply IH; [done|]; intros; apply Hkey'; by right|]. apply Forall_forall. intros k Hk. pose proof Hk as Hk'.
      apply list_elem_of_fmap in Hk as (g & -> & Hin). pose proof Hin as Hin'. apply list_elem_of_fmap in Hin as (y & -> & Hy). rewrite Forall_forall in Hx.
      destruct (Hx y Hy) as [E|[E _]]; [done|]. destruct Hnin. rewrite (tuple_cmp_eq kinds (g_key x.2) (g_key y.2)); [done| | |done]; apply Hkey'; [left|by right]. }
  rewrite <- Hks. apply (same_result_collect2 (λ g k, k = g_key g ∧ g ∈ groups)).
  - intros g k [-> Hin]. rewrite (result_types_Ok group_by aggs output_types types_length). cbn [bind]. unfold AggSpec.spec_row. apply same_result_bind; [|done].
    apply finish_states; [by apply good_inputs, with_key_good|by apply length_result_types|]. apply states_final.
    unfold groups_hold in Hg. rewrite Forall_forall in Hg. exact (Hg g Hin).
  - apply Forall2_fmap_r. apply Forall_Forall2_diag, Forall_forall. intros g Hin. rewrite Hperm in Hin. done.
Qed.

(** One group without a key. *)
Lemma finish_streaming_spec rows states : group_by = [] → Forall row_good rows → states_hold aggs (λ _, rows) states →
  same_result (finish_aggregate_states powi10 states output_types) (spec_row rows []).
Proof.
  intros Hg Hok Hs. unfold AggSpec.spec_row. assert (with_key group_key [] rows = rows) as ->.
  { apply filter_keeps_all. eapply Forall_impl; [exact Hok|]. intros r [Hk _]. apply key_ok_length in Hk. rewrite kinds_length, Hg in Hk. by destruct (group_key r). }
  rewrite Hg. change (drop (length []) output_types) with output_types.
  assert (same_result (finish_aggregate_states powi10 states output_types) (group_result powi10 (fst <$> aggs) rows output_types)) as Hf.
  { apply finish_states; [by apply good_inputs|rewrite types_length, Hg; done|by apply states_final]. }
  by destruct (finish_aggregate_states powi10 states output_types), (group_result powi10 (fst <$> aggs) rows output_types).
Qed.

Lemma streaming_fails rows : group_by = [] → Forall row_good rows → states_fail aggs rows → ∃ e, spec_row rows [] = Err e.
Proof.
  intros Hg Hok (j & f & ex & err & Hj & Hf). unfold AggSpec.spec_row. assert (with_key group_key [] rows = rows) as ->.
  { apply filter_keeps_all. eapply Forall_impl; [exact Hok|]. intros r [Hk _]. apply key_ok_length in Hk. rewrite kinds_length, Hg in Hk. by destruct (group_key r). }
  destruct (collect_has_error (final_state rows) (enumerate (fst <$> aggs)) (j, f) err) as [e' He']; [apply final_no_panic| |done|].
  { apply enumerate_elem_of. by rewrite list_lookup_fmap, Hj. }
  destruct (final_error powi10 aggs rows (drop (length group_by) output_types) e') as [e ->]; [by apply good_inputs|by apply length_result_types|done|].
  by exists e.
Qed.
End Finish.
