(* ===== verification/AggSpill.v ===== *)
(** The spilled half of the aggregation of [AggregateOp.v]: what the runs of a
    spill hold, and what merging them folds into the states of a group. *)

From stdpp Require Import sorting.
From S2P Require Import Prelude Bytes Decimal Types Codec F64 Expr Typing Eval EvalRow Spill Sorting Operators SortOp SortMerge SortSpec AggState AggregateOp AggSpec.

(** ** Lexicographic comparison *)

#[export] Instance lex_total {T} (P : T → Prop) (c1 c2 : T → T → comparison) `{!TotalCompare P c1} `{!TotalCompare P c2} :
  TotalCompare P (λ x y, match c1 x y with Eq => c2 x y | c => c end).
Proof.
  split.
  - intros x y Hx Hy. rewrite (cmp_antisym (c := c1) x y) by done. destruct (c1 x y); simpl; [by apply cmp_antisym|done..].
  - intros x y z Hx Hy Hz. pose proof (lex_facts P c1 x y z Hx Hy Hz) as H1. pose proof (cmp_trans (c := c2) x y z Hx Hy Hz).
    destruct (c1 x y), (c1 y z), (c1 x z); naive_solver.
Qed.

#[export] Instance pulled_Z_total {T} (P : T → Prop) (f : T → Z) : TotalCompare P (λ x y, f x ?= f y).
Proof. split; [intros; apply Z.compare_antisym|intros x y z _ _ _; apply Zcmp_trans]. Qed.

Section Records.
Context {Operator : Type} (group_by : list (Expr Operator)) (aggs : list (AggregateFunction * Expr Operator)) (kinds : list order_kind).
Hypothesis aggs_few : zlen aggs < 2 ^ 62.

(** ** Records on disk *)

Definition is_percentile (j : nat) : Prop := ∃ e, aggs !! j = Some (PercentileCont, e).

Definition encode_record (row : AggregateInputRow) : list Value :=
  match record row with
  | Input _ => encode_aggregate_input_record row
  | PercentileCount i count => group_key row ++ [Int64 (Z.of_nat i * 2); Int64 count]
  | PercentileValue i value => group_key row ++ [Int64 (Z.of_nat i * 2 + 1); Decimal value]
  end.

Definition record_ok (row : AggregateInputRow) : Prop :=
  key_ok kinds (group_key row) ∧
  match record row with
  | Input vs => length vs = length aggs ∧ Forall spill_ok vs
  | PercentileCount i count => is_percentile i ∧ 0 ≤ count < 2 ^ 63
  | PercentileValue i value => is_percentile i ∧ decimal_wf value
  end.

Lemma percentile_index i : is_percentile i → (i < length aggs)%nat ∧ Z.of_nat i * 2 + 1 < 2 ^ 63.
Proof. intros [e Hi]. apply lookup_lt_Some in Hi. unfold zlen in aggs_few. split; [done|]. lia. Qed.

Lemma encode_percentile key i (b : bool) v : is_percentile i →
  encode_percentile_record key i b v = Ok (key ++ [Int64 (Z.of_nat i * 2 + if b then 1 else 0); v]).
Proof.
  intros Hi. destruct (percentile_index i Hi) as [_ Hlt]. unfold encode_percentile_record.
  rewrite try_u_in by (unfold in_u; lia). cbn [ok_or bind]. rewrite try_u_in by (unfold in_u; destruct b; lia). cbn [ok_or bind].
  rewrite try_i_in by (unfold in_i; change (64 - 1) with 63; destruct b; lia). done.
Qed.

Lemma keys_spill k : key_ok kinds k → Forall spill_ok k.
Proof.
  intros [Hk Hw]. induction Hk as [|kd v kinds' k Hv _ IH]; [constructor|]. apply Forall_cons in Hw as [Hwv Hw]. constructor; [|by apply IH].
  split; [done|]. destruct Hv as [->|Hv]; [done|]. by destruct v.
Qed.

Lemma record_spill row : record_ok row → Forall spill_ok (encode_record row).
Proof.
  intros [Hk Hr]. pose proof (keys_spill _ Hk) as Hks. unfold encode_record, encode_aggregate_input_record. destruct (record row) as [vs|i c|i d].
  - destruct Hr as [_ Hr]. apply Forall_app. split; [done|]. constructor; [|done]. split; [|done]. simpl. unfold in_i. lia.
  - destruct Hr as [Hi Hc]. destruct (percentile_index i Hi). apply Forall_app. split; [done|]. repeat constructor; simpl; unfold in_i; change (64 - 1) with 63; lia.
  - destruct Hr as [Hi Hd]. destruct (percentile_index i Hi). apply Forall_app. split; [done|]. repeat constructor; simpl; try (unfold in_i; change (64 - 1) with 63; lia); apply Hd.
Qed.

Lemma record_charge row : aggregate_row_charge row ≠ Panic ∧ ∀ bytes, aggregate_row_charge row = Ok bytes → in_u 64 bytes.
Proof. unfold aggregate_row_charge. destruct (record row); (split; [apply charge_no_panic|apply charge_in_range]). Qed.

(** ** The order of records *)

Definition record_digits (row : AggregateInputRow) : Z := match record row with PercentileValue _ d => digits d | _ => 0 end.
Definition row_rank (row : AggregateInputRow) : Z := aggregate_record_rank (record row).

Definition rec_cmp (x y : AggregateInputRow) : comparison :=
  match tuple_cmp (group_key x) (group_key y) with
  | Eq => match row_rank x ?= row_rank y with Eq => record_digits x ?= record_digits y | c => c end
  | c => c
  end.

#[export] Instance record_key_total : TotalCompare record_ok (λ x y, tuple_cmp (group_key x) (group_key y)).
Proof. apply (pulled_total (key_ok kinds) tuple_cmp group_key). Qed.

#[export] Instance record_total : TotalCompare record_ok rec_cmp.
Proof.
  apply (lex_total record_ok (λ x y, tuple_cmp (group_key x) (group_key y)) (λ x y, match row_rank x ?= row_rank y with Eq => record_digits x ?= record_digits y | c => c end)).
Qed.

Lemma rank_value row : record_ok row →
  row_rank row = match record row with Input _ => 0 | PercentileCount i _ => Z.of_nat i * 2 + 1 | PercentileValue i _ => Z.of_nat i * 2 + 2 end.
Proof.
  intros [_ Hr]. unfold row_rank. destruct (record row) as [vs|i c|i d]; [done|..]; destruct Hr as [Hi _]; destruct (percentile_index i Hi) as [_ Hlt];
    cbn [aggregate_record_rank]; lia.
Qed.

Lemma record_compare x y : record_ok x → record_ok y → compare_aggregate_records x y = Ok (rec_cmp x y).
Proof.
  intros Hx Hy. unfold compare_aggregate_records, rec_cmp, compare_group_keys. rewrite (tuple_cmp_Ok kinds) by (apply Hx || apply Hy). cbn [bind].
  destruct (tuple_cmp _ _); [|done..]. fold (row_rank x) (row_rank y). destruct (row_rank x ?= row_rank y) eqn:E; [|done..]. apply Z.compare_eq in E.
  rewrite !rank_value in E by done. unfold record_digits. destruct (record x), (record y); try done; lia.
Qed.
Hypothesis kinds_length : length kinds = length group_by.
Hypothesis aggs_nonempty : aggs ≠ [].

Lemma record_decode row : record_ok row → decode_aggregate_spill_row group_by aggs (encode_record row) = Ok row.
Proof.
  intros [Hk Hr]. pose proof (key_ok_length kinds _ Hk) as Hl. rewrite kinds_length in Hl. unfold decode_aggregate_spill_row, encode_record, encode_aggregate_input_record.
  destruct row as [key r]. cbn [group_key record] in *. destruct r as [vs|i c|i d]; rewrite length_app; cbn [length].
  - destruct Hr as [Hv _]. assert (length aggs ≠ 0%nat) by (by destruct aggs). rewrite (proj2 (Nat.ltb_ge _ _)) by lia.
    rewrite drop_app_length', take_app_length' by done. cbn [decode_aggregate_record Z.eqb]. change (-1 =? -1) with true. cbv iota. by rewrite Hv, Nat.eqb_refl.
  - destruct Hr as [Hi Hc]. destruct (percentile_index i Hi) as [_ Hlt]. destruct Hi as [e Hi]. rewrite (proj2 (Nat.ltb_ge _ _)) by lia.
    rewrite drop_app_length', take_app_length' by done. cbn [decode_aggregate_record]. rewrite (proj2 (Z.eqb_neq _ _)) by lia. rewrite (proj2 (Z.ltb_ge _ _)) by lia.
    rewrite Z.div_mul by lia. rewrite Nat2Z.id, Hi. cbn [fmap option_fmap option_map fst]. rewrite bool_decide_eq_true_2 by done. cbn [negb].
    rewrite Z.mod_mul by lia. cbn [Z.eqb]. rewrite (proj2 (Z.ltb_ge _ _)) by lia. done.
  - destruct Hr as [Hi Hd]. destruct (percentile_index i Hi) as [_ Hlt]. destruct Hi as [e Hi]. rewrite (proj2 (Nat.ltb_ge _ _)) by lia.
    rewrite drop_app_length', take_app_length' by done. cbn [decode_aggregate_record]. rewrite (proj2 (Z.eqb_neq _ _)) by lia. rewrite (proj2 (Z.ltb_ge _ _)) by lia.
    rewrite Z.div_add_l by lia. change (1 / 2) with 0. rewrite Z.add_0_r, Nat2Z.id, Hi. cbn [fmap option_fmap option_map fst]. rewrite bool_decide_eq_true_2 by done. cbn [negb].
    rewrite Z.add_comm, Z.mod_add by lia. done.
Qed.
End Records.

(** Without aggregates an input record has no payload and is not read back. *)
Lemma unaggregated_run_refused {Operator} (group_by : list (Expr Operator)) (row : AggregateInputRow) :
  length (group_key row) = length group_by → record row = Input [] →
  ∃ context, decode_aggregate_spill_row group_by [] (encode_aggregate_input_record row) = Err (Corrupt context).
Proof.
  intros Hk Hr. unfold decode_aggregate_spill_row, encode_aggregate_input_record. rewrite Hr, length_app. cbn [length].
  rewrite (proj2 (Nat.ltb_lt _ _)) by lia. by eexists.
Qed.

(** ** Folding records into states *)

(** What a record does to state [j]. *)
Definition step_at `{FloatEnv} (j : nat) (s : AggregateState) (r : AggregateRecord) : outcome AggregateState :=
  match r with
  | Input vs => match vs !! j with Some v => input_step s v | None => Ok s end
  | PercentileCount i count => if decide (i = j) then update_percentile_count s count else Ok s
  | PercentileValue i value => if decide (i = j) then update_percentile_value s value else Ok s
  end.

Definition counts_of (j : nat) (rows : list AggregateInputRow) : list Z :=
  omap (λ row, match record row with PercentileCount i count => if decide (i = j) then Some count else None | _ => None end) rows.
Definition values_of (j : nat) (rows : list AggregateInputRow) : list Decimal128 :=
  omap (λ row, match record row with PercentileValue i d => if decide (i = j) then Some d else None | _ => None end) rows.

Definition total (counts : list Z) : Z := foldr Z.add 0 counts.

Section Fold.
Context `{FloatEnv}.

Lemma update_inputs_at states : ∀ vs states', update_input_states states vs = Ok states' →
  length states' = length states ∧ ∀ j s, states !! j = Some s → ∃ s', states' !! j = Some s' ∧ step_at j s (Input vs) = Ok s'.
Proof.
  induction states as [|s0 states IH]; intros vs states'; cbn [update_input_states]; [intros [= <-]; split; [done|]; by intros j s ?|].
  destruct vs as [|v vs]; [intros [= <-]; split; [done|]; intros j s Hj; by exists s|]. fold (input_step s0 v).
  intros (s1 & H1 & Hr)%bind_Ok. apply bind_Ok in Hr as (states1 & Hr & [= <-]). destruct (IH vs states1 Hr) as [Hl Hs]. split; [simpl; by rewrite Hl|].
  intros [|j] s Hj; [injection Hj as <-; by exists s1|]. apply (Hs j s Hj).
Qed.

Lemma update_at_index states i update states' : update_state_at states i update = Ok states' →
  length states' = length states ∧ ∀ j s, states !! j = Some s → ∃ s', states' !! j = Some s' ∧ (if decide (i = j) then update s else Ok s) = Ok s'.
Proof.
  unfold update_state_at. intros (s & Hs%ok_or_Ok & Hr)%bind_Ok. apply bind_Ok in Hr as (s' & Hu & [= <-]). split; [apply length_insert|].
  intros j s1 Hj. destruct (decide (i = j)) as [->|Hne].
  - exists s'. rewrite list_lookup_insert_eq by (by eapply lookup_lt_Some). split; [done|congruence].
  - exists s1. by rewrite list_lookup_insert_ne.
Qed.

Lemma update_states_at states r states' : update_aggregate_states states r = Ok states' →
  length states' = length states ∧ ∀ j s, states !! j = Some s → ∃ s', states' !! j = Some s' ∧ step_at j s r = Ok s'.
Proof. destruct r; simpl; [apply update_inputs_at|apply update_at_index..]. Qed.

Lemma fold_states_at recs : ∀ states states', for_each recs states update_aggregate_states = Ok states' →
  length states' = length states ∧ ∀ j s, states !! j = Some s → ∃ s', states' !! j = Some s' ∧ for_each recs s (step_at j) = Ok s'.
Proof.
  induction recs as [|r recs IH]; intros states states'; cbn [for_each]; [intros [= <-]; split; [done|]; intros j s Hj; by exists s|].
  intros (states1 & H1 & H2)%bind_Ok. destruct (update_states_at _ _ _ H1) as [Hl1 Hs1]. destruct (IH _ _ H2) as [Hl2 Hs2]. split; [congruence|].
  intros j s Hj. destruct (Hs1 j s Hj) as (s1 & Hj1 & Hstep). destruct (Hs2 j s1 Hj1) as (s2 & Hj2 & Hfold). exists s2. split; [done|]. by rewrite Hstep.
Qed.

Lemma percentile_updates_no_panic s : (∀ c, update_percentile_count s c ≠ Panic) ∧ ∀ d, update_percentile_value s d ≠ Panic.
Proof.
  destruct s; try done. split.
  - intros c. simpl. intros [Hp|(? & _ & [Hp|(? & _ & ?)]%bind_Panic)]%bind_Panic; try done; by apply ok_or_no_panic in Hp.
  - intros d. simpl. intros [Hp|(? & _ & Hp)]%bind_Panic; by repeat case_match.
Qed.

Lemma update_states_no_panic states r : update_aggregate_states states r ≠ Panic.
Proof.
  destruct r as [vs|i c|i d]; simpl; [apply update_inputs_no_panic|..]; unfold update_state_at;
    intros [Hp|(s & _ & [Hp|(? & _ & ?)]%bind_Panic)]%bind_Panic; try done; try (by apply ok_or_no_panic in Hp); by apply percentile_updates_no_panic in Hp.
Qed.

Definition is_percentile_state (s : AggregateState) : Prop := match s with SPercentile _ _ _ _ _ => True | _ => False end.

Lemma count_keeps s c s' : update_percentile_count s c = Ok s' → is_percentile_state s'.
Proof. destruct s; try done. simpl. intros (? & _ & Hr)%bind_Ok. by apply bind_Ok in Hr as (? & _ & [= <-]). Qed.

Lemma value_keeps s d s' : update_percentile_value s d = Ok s' → is_percentile_state s'.
Proof. destruct s; try done. simpl. intros (? & _ & Hr)%bind_Ok. case_match; [done|]. by injection Hr as <-. Qed.

Lemma counts_fold cs : ∀ e s, for_each cs (SPercentile e 0 None None None) update_percentile_count = Ok s → s = SPercentile (e + total cs) 0 None None None.
Proof.
  induction cs as [|c cs IH]; intros e s; cbn [for_each]; [intros [= <-]; unfold total; simpl; f_equal; lia|].
  intros (s1 & H1 & H2)%bind_Ok. simpl in H1. apply bind_Ok in H1 as (c' & Hc%ok_or_Ok & H1). apply try_u_Some in Hc as [-> _].
  apply bind_Ok in H1 as (e' & He%ok_or_Ok & [= <-]). apply try_u_Some in He as [-> _]. apply IH in H2 as ->. unfold total. simpl. f_equal. lia.
Qed.

Lemma values_scale vs : ∀ n k lo hi sc s, for_each vs (SPercentile n k (Some sc) lo hi) update_percentile_value = Ok s → Forall (λ v, scale v = sc) vs.
Proof.
  induction vs as [|v vs IH]; intros n k lo hi sc s; cbn [for_each]; [constructor|]. intros (s1 & H1 & H2)%bind_Ok. simpl in H1.
  destruct (sc =? scale v) eqn:E; [|done]. reflect_bools. cbn [bind] in H1. case_match; [done|]. injection H1 as <-. constructor; [done|]. by eapply IH.
Qed.

Lemma values_common vs n lo hi s : for_each vs (SPercentile n 0 None lo hi) update_percentile_value = Ok s → vs = [] ∨ ∃ sc, common_scale vs = Some sc.
Proof.
  destruct vs as [|v vs]; [by left|]. cbn [for_each]. intros (s1 & H1 & H2)%bind_Ok. simpl in H1. case_match; [done|]. injection H1 as <-.
  right. exists (scale v). apply common_scale_Some. split; [done|]. constructor; [done|]. by eapply values_scale.
Qed.
End Fold.

Section Ordered.
Context `{FloatEnv} {Operator : Type} (aggs : list (AggregateFunction * Expr Operator)) (kinds : list order_kind).
Hypothesis aggs_few : zlen aggs < 2 ^ 62.

Notation record_ok := (record_ok aggs kinds).

(** In the order of the merge a group's counts come before its values, and the
    values ascend. *)
Lemma percentile_events j L : ∀ s, Forall record_ok L → StronglySorted (λ x y, group_key x = group_key y ∧ rec_cmp x y ≠ Gt) L → is_percentile_state s →
  for_each (record <$> L) s (step_at j) = let! s1 := for_each (counts_of j L) s update_percentile_count in for_each (values_of j L) s1 update_percentile_value.
Proof.
  induction L as [|x L IH]; intros s Hok Hs Hp; [done|]. apply Forall_cons in Hok as [Hx Hok]. apply StronglySorted_inv in Hs as [Hs Hle].
  rewrite fmap_cons. cbn [for_each]. unfold counts_of, values_of. cbn [omap list_omap]. fold (counts_of j L) (values_of j L).
  destruct (record x) as [vs|i c|i d] eqn:Er; cbn [step_at].
  - assert (match vs !! j with Some v => input_step s v | None => Ok s end = Ok s) as -> by (destruct (vs !! j); by destruct s). by apply IH.
  - destruct (decide (i = j)); [|by apply IH]. cbn [for_each]. rewrite bind_assoc. destruct (update_percentile_count s c) as [s1|err|] eqn:E; [|done..].
    cbn [bind]. apply IH; [done..|]. by eapply count_keeps.
  - destruct (decide (i = j)) as [->|]; [|by apply IH].
    assert (counts_of j L = []) as Hc.
    { unfold counts_of. clear IH Hs. induction L as [|y L IHL]; [done|]. apply Forall_cons in Hok as [Hy Hok], Hle as [[Hk Hle] Hles]. cbn [omap list_omap].
      destruct (record y) as [|i' c'|] eqn:Ery; try (by apply IHL). case_decide; [|by apply IHL]. subst i'. exfalso. apply Hle. unfold rec_cmp. rewrite Hk.
      rewrite (tuple_cmp_refl kinds) by apply Hy. rewrite !(rank_value aggs kinds) by done. rewrite Er, Ery. assert (Z.of_nat j * 2 + 2 ?= Z.of_nat j * 2 + 1 = Gt) as -> by (apply Z.compare_gt_iff; lia). done. }
    rewrite Hc. cbn [for_each bind]. destruct (update_percentile_value s d) as [s1|e|] eqn:E; [|done..]. cbn [bind]. rewrite IH; [by rewrite Hc|done|done|]. by eapply value_keeps.
Qed.

Lemma values_ascend j L : Forall record_ok L → StronglySorted (λ x y, group_key x = group_key y ∧ rec_cmp x y ≠ Gt) L → StronglySorted dec_le (values_of j L).
Proof.
  intros Hok. induction 1 as [|x L _ IH Hle]; [constructor|]. apply Forall_cons in Hok as [Hx Hok]. unfold values_of. cbn [omap list_omap]. fold (values_of j L).
  destruct (record x) as [|?|i d] eqn:Er; try (by apply IH). case_decide; [|by apply IH]. subst i. constructor; [by apply IH|]. apply Forall_forall. intros d' Hd.
  apply list_elem_of_omap in Hd as (y & Hy & Hd). destruct (record y) as [|?|i' d''] eqn:Ery; try done. case_decide; [|done]. subst i'. injection Hd as ->.
  rewrite Forall_forall in Hle. rewrite Forall_forall in Hok. destruct (Hle y Hy) as [Hk Hc]. unfold rec_cmp in Hc. rewrite Hk in Hc.
  rewrite (tuple_cmp_refl kinds) in Hc by apply (Hok y Hy). unfold row_rank, record_digits in Hc. rewrite Er, Ery in Hc. cbn [aggregate_record_rank] in Hc. rewrite Z.compare_refl in Hc. unfold dec_le.
  by apply Z.compare_le_iff.
Qed.
End Ordered.

(** ** The runs of a spill *)

Lemma collect_app {A B} (g : A → outcome B) xs ys : collect g (xs ++ ys) = let! a := collect g xs in let! b := collect g ys in Ok (a ++ b).
Proof.
  induction xs as [|x xs IH]; cbn [app collect bind]; [by destruct (collect g ys)|]. destruct (g x) as [a|e|]; [|done..]. cbn [bind]. rewrite IH.
  destruct (collect g xs); [|done..]. cbn [bind]. by destruct (collect g ys).
Qed.

Lemma write_rows_app rows rows' a b : write_spill_rows rows = Ok a → write_spill_rows rows' = Ok b → write_spill_rows (rows ++ rows') = Ok (a ++ b).
Proof.
  unfold write_spill_rows. intros (xs & Hx & [= <-])%bind_Ok (ys & Hy & [= <-])%bind_Ok. rewrite collect_app, Hx. cbn [bind]. rewrite Hy. cbn [bind].
  by rewrite concat_app.
Qed.

Section RunContents.
Context `{FloatEnv} {Operator : Type} (aggs : list (AggregateFunction * Expr Operator)) (kinds : list order_kind).
Hypothesis aggs_few : zlen aggs < 2 ^ 62.

Notation n := (length aggs).
Notation record_ok := (record_ok aggs kinds).
Notation row_good := (row_good aggs kinds).
Notation is_percentile := (is_percentile aggs).
Notation groups_ok := (groups_ok aggs kinds).

Definition is_input (row : AggregateInputRow) : Prop := match record row with Input _ => True | _ => False end.

#[export] Instance is_input_dec row : Decision (is_input row).
Proof. unfold is_input. destruct (record row); apply _. Defined.

(** An evaluated row that can be written. *)
Definition spillable (row : AggregateInputRow) : Prop := is_input row ∧ record_ok row.

Lemma spillable_good row : spillable row → row_good row.
Proof.
  intros [Hi [Hk Hr]]. split; [done|]. unfold is_input in Hi. destruct (record row) as [vs| |] eqn:E; [|done..]. destruct Hr as [Hl Hs]. exists vs.
  split_and!; [done..|]. eapply Forall_impl; [exact Hs|]. by intros v [? _].
Qed.

Lemma spillable_goods rows : Forall spillable rows → Forall row_good rows.
Proof. intros Hr. eapply Forall_impl; [exact Hr|]. apply spillable_good. Qed.

(** The records of a group in the run of percentile [j]. *)
Definition group_records (j : nat) (g : list Value * list AggregateInputRow) : list AggregateInputRow :=
  let ds := omap (percentile_decimal j) g.2 in
  mkAggRow g.1 (PercentileCount j (zlen ds)) :: ((λ d, mkAggRow g.1 (PercentileValue j d)) <$> ds).

Definition run_records (j : nat) (gs : list (list Value * list AggregateInputRow)) : list AggregateInputRow := concat (group_records j <$> gs).

Lemma write_values j k rows : is_percentile j → Forall (λ r, group_key r = k) rows → ∀ file,
  match for_each rows file (λ file row,
    match percentile_decimal j row with
    | Some value =>
        let! r := encode_percentile_record (group_key row) j true (Decimal value) in
        let! bytes := write_spill_row r in
        Ok (file ++ bytes)
    | None => Ok file
    end) with
  | Ok file' => ∃ bytes, write_spill_rows (encode_record <$> ((λ d, mkAggRow k (PercentileValue j d)) <$> omap (percentile_decimal j) rows)) = Ok bytes ∧ file' = file ++ bytes
  | Err _ => True
  | Panic => False
  end.
Proof.
  intros Hj. induction 1 as [|row rows Hk _ IH]; intros file; [exists []; by rewrite app_nil_r|]. cbn [for_each omap list_omap].
  destruct (percentile_decimal j row) as [d|]; [|cbn [bind]; apply IH]. rewrite (encode_percentile aggs) by done. cbn [bind].
  rewrite !fmap_cons. unfold encode_record at 1. cbn [record group_key]. rewrite Hk.
  destruct (write_spill_row _) as [bytes|e|] eqn:Ew; [|done|by apply write_row_no_panic in Ew]. cbn [bind]. specialize (IH (file ++ bytes)).
  destruct (for_each rows (file ++ bytes) _) as [file'|e|]; [|done..]. destruct IH as (rest & Hr & ->). exists (bytes ++ rest). rewrite app_assoc. split; [|done].
  change ((?x :: ?l)) with ([x] ++ l). apply write_rows_app; [|done]. unfold write_spill_rows. cbn [collect]. rewrite Ew. cbn [bind concat]. by rewrite app_nil_r.
Qed.

Lemma write_group_spec j k rows file : is_percentile j → Forall (λ r, group_key r = k) rows → rows ≠ [] →
  match write_percentile_group j file rows with
  | Ok file' => ∃ bytes, write_spill_rows (encode_record <$> group_records j (k, rows)) = Ok bytes ∧ file' = file ++ bytes ∧ zlen (omap (percentile_decimal j) rows) < 2 ^ 63
  | Err _ => True
  | Panic => False
  end.
Proof.
  intros Hj Hk Hne. unfold write_percentile_group, percentile_count. destruct (try_i 64 _) as [count|] eqn:Ec; [|done]. apply try_i_Some in Ec as [-> [_ Hc]].
  change (64 - 1) with 63 in Hc. cbn [ok_or bind]. destruct rows as [|row rows]; [done|]. pose proof Hk as Hk'. apply Forall_cons in Hk' as [Hrow _].
  unfold index. cbn [lookup list_lookup expect bind]. rewrite (encode_percentile aggs) by done. cbn [bind]. rewrite Hrow.
  destruct (write_spill_row _) as [bytes|e|] eqn:Ew; [|done|by apply write_row_no_panic in Ew]. cbn [bind].
  pose proof (write_values j k (row :: rows) Hj Hk (file ++ bytes)) as Hv. destruct (for_each (row :: rows) (file ++ bytes) _) as [file'|e|]; [|done..].
  destruct Hv as (rest & Hr & ->). exists (bytes ++ rest). rewrite app_assoc. split_and!; [|done..]. unfold group_records. cbn [fst snd]. rewrite fmap_cons.
  change ((?x :: ?l)) with ([x] ++ l). apply write_rows_app; [|done]. unfold write_spill_rows, encode_record at 1. cbn [collect record group_key].
  rewrite <- (Z.add_0_r (Z.of_nat j * 2)), Ew. cbn [bind concat]. by rewrite app_nil_r.
Qed.

(** A run that is written holds the records of every group, and every group was
    validated. *)
Lemma percentile_groups_spec j gs : is_percentile j → ∀ fuel file, groups_ok gs → (length (concat gs.*2) ≤ fuel)%nat →
  match percentile_groups fuel j file (concat gs.*2) with
  | Ok file' => ∃ bytes, write_spill_rows (encode_record <$> run_records j gs) = Ok bytes ∧ file' = file ++ bytes ∧
      Forall (λ g, percentile_ok (agg_column j g.2) = true ∧ zlen (omap (percentile_decimal j) g.2) < 2 ^ 63) gs
  | Err _ => True
  | Panic => False
  end.
Proof.
  intros Hj. induction gs as [|[k rows] gs IH]; intros fuel file Hok Hf; [destruct fuel; exists []; rewrite app_nil_r; (split; [done|split; [done|constructor]])|].
  pose proof Hok as [_ Hg]. apply Forall_cons in Hg as [[Hne Hg] _]. cbn [fst snd] in *. destruct rows as [|row rows]; [done|].
  rewrite fmap_cons in *. cbn [concat snd] in *. rewrite length_app in Hf. simpl in Hf. destruct fuel as [|fuel]; [lia|]. cbn [app percentile_groups].
  rewrite (group_end_spec aggs kinds k row rows gs Hok). cbn [bind].
  change (take (S (length rows)) (row :: rows ++ concat gs.*2)) with (row :: take (length rows) (rows ++ concat gs.*2)).
  change (drop (S (length rows)) (row :: rows ++ concat gs.*2)) with (drop (length rows) (rows ++ concat gs.*2)).
  rewrite take_app_length, drop_app_length. destruct (percentile_index aggs aggs_few j Hj) as [Hlt _].
  pose proof (validate_spec n j (row :: rows)) as Hv. specialize (Hv ltac:(eapply Forall_impl; [exact Hg|]; intros r [_ [_ ?]]; done) Hlt).
  destruct (validate_percentile_rows (row :: rows) j) as [[]|e|]; [|done|by destruct (percentile_ok _)]. cbn [bind].
  destruct (percentile_ok (agg_column j (row :: rows))) eqn:Ep; [|done].
  pose proof (write_group_spec j k (row :: rows) file Hj) as Hw. specialize (Hw ltac:(eapply Forall_impl; [exact Hg|]; by intros r [? _]) ltac:(done)).
  destruct (write_percentile_group j file (row :: rows)) as [file1|e|]; [|done..]. destruct Hw as (bytes & Hw & -> & Hz). cbn [bind].
  specialize (IH fuel (file ++ bytes) (groups_tail _ _ _ _ Hok) ltac:(lia)).
  destruct (percentile_groups fuel j (file ++ bytes) (concat gs.*2)) as [file2|e|]; [|done..]. destruct IH as (rest & Hr & -> & Hall).
  exists (bytes ++ rest). rewrite app_assoc. split_and!; [|done|by constructor]. unfold run_records. rewrite fmap_cons. cbn [concat]. rewrite fmap_app. by apply write_rows_app.
Qed.

Lemma group_records_ok j g : is_percentile j → g.2 ≠ [] → Forall (λ r, group_key r = g.1 ∧ row_good r) g.2 → zlen (omap (percentile_decimal j) g.2) < 2 ^ 63 →
  Forall record_ok (group_records j g).
Proof.
  destruct g as [k rows]. cbn [fst snd]. intros Hj Hne Hg Hz. assert (key_ok kinds k) as Hk.
  { destruct rows as [|row rows]; [done|]. apply Forall_cons in Hg as [[<- [Hk _]] _]. done. }
  assert (Forall (input_row n) rows) as Hin by (eapply Forall_impl; [exact Hg|]; intros r [_ [_ ?]]; done).
  destruct (percentile_index aggs aggs_few j Hj) as [Hlt _]. unfold group_records. cbn [fst snd]. constructor.
  - split; [done|]. cbn [record]. split; [done|]. pose proof (zlen_nonneg (omap (percentile_decimal j) rows)). lia.
  - rewrite (percentile_decimals n) by done. apply Forall_fmap. eapply Forall_impl; [by apply decimals_wf, (column_wf n)|]. intros d Hd. by split.
Qed.

Lemma run_records_ok j gs : is_percentile j → groups_ok gs → Forall (λ g, zlen (omap (percentile_decimal j) g.2) < 2 ^ 63) gs → Forall record_ok (run_records j gs).
Proof.
  intros Hj [_ Hg] Hz. unfold run_records. induction Hg as [|g gs [Hne Hg] _ IH]; [constructor|]. apply Forall_cons in Hz as [Hz1 Hz].
  rewrite fmap_cons. cbn [concat]. apply Forall_app. split; [by apply group_records_ok|by apply IH].
Qed.

Lemma run_keys j gs r : r ∈ run_records j gs → group_key r ∈ gs.*1.
Proof.
  intros (l & Hr & Hl)%elem_of_concat. apply list_elem_of_fmap in Hl as (g & -> & Hg). apply list_elem_of_fmap. exists g. split; [|done].
  unfold group_records in Hr. apply elem_of_cons in Hr as [->|Hr]; [done|]. by apply list_elem_of_fmap in Hr as (d & -> & _).
Qed.

Lemma sorted_append {A} (R : A → A → Prop) l m : StronglySorted R l → StronglySorted R m → (∀ x y, x ∈ l → y ∈ m → R x y) → StronglySorted R (l ++ m).
Proof.
  induction 1 as [|x l _ IH Hx]; intros Hm Hlm; [done|]. cbn [app]. constructor.
  - apply IH; [done|]. intros y z Hy Hz. apply Hlm; [by right|done].
  - apply Forall_app. split; [done|]. apply Forall_forall. intros y Hy. apply Hlm; [left|done].
Qed.

Lemma group_records_sorted j k ds : key_ok kinds k → StronglySorted dec_le ds → is_percentile j →
  StronglySorted (λ x y, rec_cmp x y ≠ Gt) (mkAggRow k (PercentileCount j (zlen ds)) :: ((λ d, mkAggRow k (PercentileValue j d)) <$> ds)).
Proof.
  intros Hk Hds Hj. destruct (percentile_index aggs aggs_few j Hj) as [_ Hlt]. constructor.
  - induction Hds as [|d ds _ IH Hd]; [constructor|]. rewrite fmap_cons. constructor; [done|]. apply Forall_fmap. eapply Forall_impl; [exact Hd|].
    intros e He. unfold compose, rec_cmp. cbn [group_key]. rewrite (tuple_cmp_refl kinds) by done. unfold row_rank. cbn [record aggregate_record_rank]. rewrite Z.compare_refl.
    unfold record_digits. cbn [record]. by apply Z.compare_le_iff.
  - apply Forall_fmap, Forall_forall. intros d _. unfold compose, rec_cmp. cbn [group_key]. rewrite (tuple_cmp_refl kinds) by done. unfold row_rank.
    cbn [record aggregate_record_rank]. rewrite (proj2 (Z.compare_lt_iff _ _)) by lia. done.
Qed.

Lemma run_sorted j gs : is_percentile j → groups_ok gs → Forall (λ g, StronglySorted dec_le (omap (percentile_decimal j) g.2)) gs →
  StronglySorted (λ x y, rec_cmp x y ≠ Gt) (run_records j gs).
Proof.
  intros Hj. unfold run_records. induction gs as [|g gs IH]; intros Hok Hs; [constructor|]. apply Forall_cons in Hs as [Hs1 Hs].
  rewrite fmap_cons. cbn [concat]. pose proof Hok as [Hkeys Hg]. apply Forall_cons in Hg as [[Hne Hg] _]. apply sorted_append.
  - apply group_records_sorted; [|done|done]. destruct g as [k [|row rows]]; [done|]. apply Forall_cons in Hg as [[<- [? _]] _]. done.
  - apply IH; [by eapply groups_tail|done].
  - intros x y Hx Hy. assert (group_key x = g.1) as Ex.
    { apply elem_of_cons in Hx as [->|Hx]; [done|]. by apply list_elem_of_fmap in Hx as (d & -> & _). }
    apply run_keys in Hy. rewrite fmap_cons in Hkeys. apply StronglySorted_inv in Hkeys as [_ Hkeys]. rewrite Forall_forall in Hkeys.
    unfold rec_cmp. rewrite Ex. specialize (Hkeys _ Hy). unfold key_lt in Hkeys. by rewrite Hkeys.
Qed.

(** *** What runs hold of the values of a percentile *)

(** Of the input rows [D], the records [L] hold every value of percentile [j],
    group by group, and count them. *)
Definition covers (j : nat) (D L : list AggregateInputRow) : Prop := ∀ k,
  values_of j (with_key group_key k L) ≡ₚ omap as_decimal (agg_column j (with_key group_key k D)) ∧
  total (counts_of j (with_key group_key k L)) = zlen (values_of j (with_key group_key k L)) ∧
  forallb null_or_decimal (agg_column j (with_key group_key k D)) = true.

Definition silent (j : nat) (L : list AggregateInputRow) : Prop := values_of j L = [] ∧ counts_of j L = [].

Lemma total_app a b : total (a ++ b) = total a + total b.
Proof. induction a as [|x a IH]; [done|]. unfold total in *. cbn [app foldr]. rewrite IH. lia. Qed.

Lemma values_of_app j L M : values_of j (L ++ M) = values_of j L ++ values_of j M.
Proof. apply omap_app. Qed.
Lemma counts_of_app j L M : counts_of j (L ++ M) = counts_of j L ++ counts_of j M.
Proof. apply omap_app. Qed.

Lemma omap_filter_nil {A B} (f : A → option B) (P : A → Prop) `{!∀ x, Decision (P x)} l : omap f l = [] → omap f (filter P l) = [].
Proof.
  induction l as [|x l IH]; [done|]. cbn [omap list_omap]. destruct (f x) eqn:E; [done|]. intros Hl. destruct (decide (P x)).
  - rewrite filter_cons_True by done. cbn [omap list_omap]. rewrite E. by apply IH.
  - rewrite filter_cons_False by done. by apply IH.
Qed.

Lemma silent_covers j L : silent j L → covers j [] L.
Proof. intros [Hv Hc] k. unfold values_of, counts_of, with_key in *. rewrite !omap_filter_nil by done. by split_and!. Qed.

Lemma covers_app j D L D' L' : covers j D L → covers j D' L' → covers j (D ++ D') (L ++ L').
Proof.
  intros H1 H2 k. destruct (H1 k) as (V1 & C1 & N1), (H2 k) as (V2 & C2 & N2). unfold with_key in *. rewrite !filter_app. rewrite values_of_app, counts_of_app, total_app.
  unfold agg_column in *. rewrite !omap_app, forallb_app, N1, N2. split_and!; [by apply Permutation_app| |done]. rewrite C1, C2. unfold zlen.
  by rewrite !length_app, Nat2Z.inj_add.
Qed.

Lemma covers_permutation j D D' L : D ≡ₚ D' → covers j D L → covers j D' L.
Proof.
  intros Hp Hc k. destruct (Hc k) as (V & C & N). assert (agg_column j (with_key group_key k D) ≡ₚ agg_column j (with_key group_key k D')) as Hk.
  { apply column_permutation. unfold with_key. by rewrite Hp. }
  split_and!; [by rewrite V, Hk|done|]. apply forallb_forall. intros v Hv%list_elem_of_In. rewrite <- Hk in Hv. rewrite forallb_forall in N. by apply N, list_elem_of_In.
Qed.

Lemma inputs_silent j D : Forall is_input D → silent j D.
Proof.
  intros Hd. split; unfold values_of, counts_of; (induction Hd as [|row D Hr _ IH]; [done|]); cbn [omap list_omap]; unfold is_input in Hr; by destruct (record row).
Qed.

Lemma run_silent i j gs : i ≠ j → silent i (run_records j gs).
Proof.
  intros Hij. unfold run_records. induction gs as [|g gs [IHv IHc]]; [done|]. rewrite fmap_cons. cbn [concat].
  assert (silent i (group_records j g)) as [Hv Hc].
  { unfold group_records. split; unfold values_of, counts_of; cbn [omap list_omap record]; rewrite ?decide_False by done;
      (induction (omap (percentile_decimal j) g.2) as [|d ds IH]; [done|]); rewrite fmap_cons; cbn [omap list_omap record]; by rewrite ?decide_False by done. }
  split; [by rewrite values_of_app, Hv, IHv|by rewrite counts_of_app, Hc, IHc].
Qed.

Lemma run_inputs j gs : filter is_input (run_records j gs) = [].
Proof.
  apply filter_none, Forall_forall. intros r (l & Hr & Hl)%elem_of_concat. apply list_elem_of_fmap in Hl as (g & -> & Hg).
  unfold group_records in Hr. apply elem_of_cons in Hr as [->|Hr]; [by intros []|]. apply list_elem_of_fmap in Hr as (d & -> & _). by intros [].
Qed.

Lemma group_values j g : let ds := omap (percentile_decimal j) g.2 in values_of j (group_records j g) = ds ∧ counts_of j (group_records j g) = [zlen ds].
Proof.
  intros ds. unfold group_records. fold ds. cbv zeta. generalize (zlen ds). intros z. unfold values_of, counts_of. cbn [omap list_omap record]. rewrite decide_True by done.
  induction ds as [|d ds [IHv IHc]]; [done|]. rewrite fmap_cons. cbn [omap list_omap record]. rewrite decide_True by done. split; [by f_equal|exact IHc].
Qed.

Lemma with_key_same {T} (kf : T → list Value) k l : Forall (λ x, kf x = k) l → with_key kf k l = l.
Proof. intros Hl. by apply filter_keeps_all. Qed.

Lemma with_key_none {T} (kf : T → list Value) k k' l : k ≠ k' → Forall (λ x, kf x = k) l → with_key kf k' l = [].
Proof. intros Hne Hl. apply filter_none. eapply Forall_impl; [exact Hl|]. by intros x ->. Qed.

Lemma run_values j k gs : Forall (λ g, Forall (λ r, group_key r = g.1) g.2) gs →
  values_of j (with_key group_key k (run_records j gs)) = omap (percentile_decimal j) (with_key group_key k (concat gs.*2)) ∧
  total (counts_of j (with_key group_key k (run_records j gs))) = zlen (values_of j (with_key group_key k (run_records j gs))).
Proof.
  unfold run_records. induction 1 as [|g gs Hg _ [IHv IHc]]; [done|]. rewrite !fmap_cons. cbn [concat].
  rewrite !with_key_app, values_of_app, counts_of_app, total_app, omap_app. rewrite IHv, IHc. unfold zlen. rewrite length_app, Nat2Z.inj_add, <- IHv.
  assert (Forall (λ r, group_key r = g.1) (group_records j g)) as Hr by (constructor; [done|]; by apply Forall_fmap, Forall_forall).
  destruct (decide (g.1 = k)) as [<-|Hne].
  - rewrite (with_key_same _ _ (group_records j g)), (with_key_same _ _ g.2) by done. destruct (group_values j g) as [-> ->]. split; [done|]. unfold total, zlen. simpl. lia.
  - rewrite (with_key_none group_key g.1 k (group_records j g)), (with_key_none group_key g.1 k g.2) by done. split; [done|]. unfold total. simpl. lia.
Qed.

Lemma run_covers j gs part : is_percentile j → groups_ok gs → concat gs.*2 ≡ₚ part → Forall (λ g, percentile_ok (agg_column j g.2) = true) gs →
  covers j part (run_records j gs).
Proof.
  intros Hj [_ Hg] Hp Hok k. destruct (run_values j k gs) as [Hv Hc].
  { eapply Forall_impl; [exact Hg|]. intros g [_ Hr]. eapply Forall_impl; [exact Hr|]. by intros r [? _]. }
  destruct (percentile_index aggs aggs_few j Hj) as [Hlt _].
  assert (with_key group_key k (concat gs.*2) ≡ₚ with_key group_key k part) as Hpk by (unfold with_key; by rewrite Hp).
  assert (Forall (input_row n) (concat gs.*2)) as Hin.
  { clear -Hg. induction Hg as [|g gs [_ Hg] _ IH]; [constructor|]. rewrite fmap_cons. cbn [concat]. apply Forall_app. split; [|done].
    eapply Forall_impl; [exact Hg|]. intros r [_ [_ ?]]. done. }
  split_and!; [|done|].
  - rewrite Hv, (percentile_decimals n); [by rewrite (column_permutation j _ _ Hpk)| |done]. apply Forall_forall. intros r [_ Hr]%list_elem_of_filter. rewrite Forall_forall in Hin. by apply Hin.
  - apply forallb_forall. intros v Hv'%list_elem_of_In. rewrite <- (column_permutation j _ _ Hpk) in Hv'.
    apply list_elem_of_omap in Hv' as (r & [_ Hr]%list_elem_of_filter & Hv'). apply elem_of_concat in Hr as (l & Hr & Hl).
    apply list_elem_of_fmap in Hl as (g & -> & Hgin). rewrite Forall_forall in Hok. specialize (Hok g Hgin). unfold percentile_ok in Hok.
    apply andb_true_iff in Hok as [Hok _]. rewrite forallb_forall in Hok. apply Hok, list_elem_of_In, list_elem_of_omap. by exists r.
Qed.
End RunContents.
