(* ===== verification/AggMerge.v ===== *)
(** Merging the runs of a spilled aggregation: the records of a group, in the
    order of the merge, fold into the states the group has in memory, and the
    groups come out in the order of their keys. *)

From stdpp Require Import sorting.
From S2P Require Import Prelude Bytes Decimal Types Codec F64 Expr Typing Eval EvalRow Spill Sorting Operators SortOp SortMerge SortSpec AggState AggregateOp AggSpec AggTyped AggSpill.

Lemma total_permutation a b : a ≡ₚ b → total a = total b.
Proof. induction 1; unfold total in *; simpl; lia. Qed.

Section GroupStates.
Context `{FloatEnv} {Operator : Type} (aggs : list (AggregateFunction * Expr Operator)) (kinds : list order_kind).
Hypothesis aggs_few : zlen aggs < 2 ^ 62.

Notation record_ok := (record_ok aggs kinds).
Notation is_percentile := (is_percentile aggs).

(** The records [L] written for the input rows [D]. *)
Record spilled (D L : list AggregateInputRow) : Prop := {
  spilled_ok : Forall record_ok L;
  spilled_inputs : filter is_input L = D;
  spilled_keys r : r ∈ L → group_key r ∈ group_key <$> D;
  spilled_values j : is_percentile j → covers j D L;
}.

Lemma spilled_nil : spilled [] [].
Proof. split; [constructor|done|by intros r ?%not_elem_of_nil|]. intros j _. by apply silent_covers. Qed.

Lemma spilled_app D L D' L' : spilled D L → spilled D' L' → spilled (D ++ D') (L ++ L').
Proof.
  intros [O1 I1 K1 V1] [O2 I2 K2 V2]. split.
  - by apply Forall_app.
  - by rewrite filter_app, I1, I2.
  - intros r. rewrite fmap_app, !elem_of_app. naive_solver.
  - intros j Hj. apply covers_app; auto.
Qed.

Section Group.
Context (D L out : list AggregateInputRow) (k : list Value).
Hypothesis Hsp : spilled D L.
Hypothesis Hsort : stably_sorted rec_cmp L out.

Notation G := (with_key group_key k out).

Lemma out_ok : Forall record_ok out.
Proof. destruct (stably_sorted_le _ _ _ Hsort) as [_ Hp]. rewrite Hp. apply Hsp. Qed.

Lemma group_ok : Forall record_ok G.
Proof. apply Forall_forall. intros r [_ Hr]%list_elem_of_filter. pose proof out_ok as Hok. rewrite Forall_forall in Hok. by apply Hok. Qed.

Lemma group_sorted : StronglySorted (λ x y, group_key x = group_key y ∧ rec_cmp x y ≠ Gt) G.
Proof.
  destruct (stably_sorted_le _ _ _ Hsort) as [Hs _]. eapply sorted_impl; [|by apply sorted_filter_sub, Hs].
  intros x y [Hx _]%list_elem_of_filter [Hy _]%list_elem_of_filter Hle. split; [congruence|done].
Qed.

(** The input records of the group are its rows, in input order. *)
Lemma group_inputs : filter is_input G = with_key group_key k D.
Proof.
  rewrite <- (spilled_inputs _ _ Hsp). unfold with_key. rewrite !list_filter_filter. 
  rewrite (list_filter_iff (λ x, is_input x ∧ group_key x = k) (λ x, group_key x = k ∧ is_input x) out) by naive_solver.
  apply (stable_filter _ rec_cmp); [|exact Hsort]. intros x y Hx Hy [Kx Ix] [Ky Iy]. pose proof (spilled_ok _ _ Hsp) as Hok. rewrite Forall_forall in Hok.
  unfold rec_cmp. rewrite Kx, <- Ky, (tuple_cmp_refl kinds) by apply (Hok y Hy). unfold row_rank, record_digits, is_input in *.
  by destruct (record x), (record y).
Qed.

Lemma group_perm : G ≡ₚ with_key group_key k L.
Proof. destruct (stably_sorted_le _ _ _ Hsort) as [_ Hp]. unfold with_key. by rewrite Hp. Qed.

Lemma constant_events j f e g : aggs !! j = Some (f, e) → f ≠ PercentileCont → Forall record_ok g → ∀ s, constant_state s →
  for_each (record <$> g) s (step_at j) = for_each (agg_column j (filter is_input g)) s update_aggregate_state.
Proof using.
  intros Hj Hf. induction 1 as [|row g [_ Hr] _ IH]; intros s Hs; [done|]. rewrite fmap_cons. cbn [for_each].
  destruct (record row) as [vs|i c|i d] eqn:Er.
  - rewrite filter_cons_True by (unfold is_input; by rewrite Er). destruct Hr as [Hl _]. destruct (lookup_lt_is_Some_2 vs j) as [v Hv]; [rewrite Hl; by eapply lookup_lt_Some|].
    assert (input_values row !! j = Some v) as Hv' by (unfold input_values; by rewrite Er). rewrite (column_cons j row _ v Hv'). cbn [for_each step_at]. rewrite Hv.
    assert (input_step s v = update_aggregate_state s v) as -> by (by destruct s). destruct (update_aggregate_state s v) as [s'|?|] eqn:E; [|done..].
    cbn [bind]. apply IH. by eapply update_keeps_constant.
  - rewrite filter_cons_False by (unfold is_input; rewrite Er; tauto). cbn [step_at]. destruct Hr as [[e' Hi] _]. rewrite decide_False; [cbn [bind]; by apply IH|]. intros ->. congruence.
  - rewrite filter_cons_False by (unfold is_input; rewrite Er; tauto). cbn [step_at]. destruct Hr as [[e' Hi] _]. rewrite decide_False; [cbn [bind]; by apply IH|]. intros ->. congruence.
Qed.

Lemma percentile_group j e s : aggs !! j = Some (PercentileCont, e) →
  for_each (record <$> G) (initial_aggregate_state PercentileCont) (step_at j) = Ok s → percentile_state (agg_column j (with_key group_key k D)) = Ok s.
Proof.
  intros Hj. rewrite (percentile_events aggs kinds aggs_few) by (apply group_ok || apply group_sorted || done).
  intros (s1 & Hc & Hv)%bind_Ok. cbn [initial_aggregate_state] in Hc. apply counts_fold in Hc as ->.
  destruct (spilled_values _ _ Hsp j ltac:(by exists e) k) as (Pv & Hcount & Hnull).
  assert (values_of j G ≡ₚ values_of j (with_key group_key k L)) as P1 by (unfold values_of; by rewrite group_perm).
  assert (counts_of j G ≡ₚ counts_of j (with_key group_key k L)) as P2 by (unfold counts_of; by rewrite group_perm).
  rewrite (total_permutation _ _ P2), Hcount in Hv. unfold zlen in Hv. rewrite <- (Permutation_length P1) in Hv. rewrite Pv in P1.
  pose proof (values_ascend aggs kinds j G group_ok group_sorted) as Hasc. set (vs := values_of j G) in *. change (Z.of_nat (length vs)) with (zlen vs) in Hv. rewrite Z.add_0_l in Hv.
  set (ds := omap as_decimal (agg_column j (with_key group_key k D))) in *. unfold percentile_state, percentile_ok. fold ds. rewrite Hnull. cbn [andb].
  destruct (values_common _ _ _ _ _ Hv) as [Hnil|[sc Hsc]].
  - rewrite Hnil in *. apply Permutation_nil_l in P1. rewrite <- P1. rewrite bool_decide_eq_true_2 by (by left). injection Hv as <-. done.
  - apply common_scale_Some in Hsc as [Hne Hall]. assert (common_scale ds = Some sc) as Hds.
    { apply common_scale_Some. split; [|by rewrite <- P1]. intros E. rewrite E in P1. by apply Permutation_nil_r in P1. }
    rewrite bool_decide_eq_true_2 by (right; by rewrite Hds). rewrite (percentile_fold vs sc Hall) in Hv. rewrite <- Hv, Hds. cbn [default]. f_equal.
    rewrite <- (Permutation_length P1). f_equal. symmetry. apply (sorted_decimals_unique sc); [done|done|apply StronglySorted_merge_sort; apply _|].
    by rewrite merge_sort_Permutation.
Qed.

(** Folding the records of a group gives the states of its rows. *)
Lemma group_states states : for_each (record <$> G) (initial_aggregate_states aggs) update_aggregate_states = Ok states →
  collect (final_state (with_key group_key k D)) (enumerate (fst <$> aggs)) = Ok states.
Proof.
  intros Hf. destruct (fold_states_at _ _ _ Hf) as [Hl Hs]. unfold initial_aggregate_states in Hl. rewrite length_fmap in Hl.
  apply (states_final aggs). split; [done|]. intros j s f e Hsj Hj.
  assert (initial_aggregate_states aggs !! j = Some (initial_aggregate_state f)) as Hi by (unfold initial_aggregate_states; by rewrite list_lookup_fmap, Hj).
  destruct (Hs j _ Hi) as (s' & Hs' & Hfold). rewrite Hsj in Hs'. injection Hs' as <-. destruct (decide (f = PercentileCont)) as [->|Hne].
  - cbn [final_state]. by eapply percentile_group.
  - rewrite (constant_events j f e) in Hfold by (apply group_ok || done || by apply initial_constant). rewrite group_inputs in Hfold. by destruct f.
Qed.
End Group.
End GroupStates.

(** ** Taking records in order *)

Section Take.
Context `{FloatEnv} {Operator : Type} (grants : nat → Z → bool).
Context (group_by : list (Expr Operator)) (aggs : list (AggregateFunction * Expr Operator)) (kinds : list order_kind) (base : Z).
Hypothesis base_ok : 0 ≤ base.
Hypothesis aggs_few : zlen aggs < 2 ^ 62.
Hypothesis aggs_nonempty : aggs ≠ [].
Hypothesis kinds_length : length kinds = length group_by.

Notation record_ok := (record_ok aggs kinds).
Notation merging := (merging record_ok rec_cmp encode_record).

(** What the cursors hold. *)
Definition held_by (cs : list (RunCursor AggregateInputRow)) (a : Account) : Prop := held a = base + cursors_bytes cs.

(** The records [st] are left. *)
Definition remaining (st : list (nat * AggregateInputRow)) (cs : list (RunCursor AggregateInputRow)) (a : Account) : Prop := merging st cs ∧ held_by cs a.

Lemma remaining_droppable st cs a : remaining st cs a → droppable cs ∧ held_by cs a.
Proof. intros [(ts & Hts & _) Hh]. split; [by eapply cursor_droppable|done]. Qed.

Lemma remaining_ok st cs a : remaining st cs a → Forall record_ok st.*2.
Proof.
  intros [(ts & Hts & _ & _ & _ & Hp) _]. rewrite Hp. clear Hp. induction Hts as [|cur t cs ts (infile & _ & HP & _) _ IH]; [constructor|].
  cbn [concat]. rewrite fmap_app. by apply Forall_app.
Qed.

Lemma agg_peek_spec st cs a : remaining st cs a →
  match agg_best_cursor grants group_by aggs (cs, a) with
  | (Ok None, (cs', a')) => st = [] ∧ remaining [] cs' a'
  | (Ok (Some i), (cs', a')) => remaining st cs' a' ∧ ∃ cur n row st', cs' !! i = Some cur ∧ st = (n, row) :: st' ∧ front cur = Some row ∧
      ∃ s, pop_at i (cs', a') = (Ok row, s) ∧ remaining st' s.1 s.2
  | (Err _, (cs', a')) => droppable cs' ∧ held_by cs' a'
  | (Panic, _) => False
  end.
Proof.
  intros [Hm Hh]. unfold agg_best_cursor.
  pose proof (peek_spec record_ok rec_cmp grants encode_record (decode_aggregate_spill_row group_by aggs) aggregate_row_charge compare_aggregate_records
    (record_compare aggs kinds aggs_few) (record_decode group_by aggs kinds aggs_few kinds_length aggs_nonempty) (record_spill aggs kinds aggs_few)
    (λ x _, record_charge x) st cs a base Hm base_ok Hh) as Hp.
  destruct (ensure_all _ _ _ _ cs a) as [[[]|e|] [cs' a']]; [|done..]. destruct Hp as (Hh' & Hm' & Hbest).
  destruct (best_cursor compare_aggregate_records cs') as [[i|]|e|]; [|by subst|done..].
  destruct Hbest as (cur & m & row & st' & Hi & -> & Hf & cur' & a'' & Hpop & Hm'' & Hh''). split; [done|]. exists cur, m, row, st'. split_and!; [done..|].
  unfold pop_at. rewrite Hi, Hpop. cbn [bind ok_or]. eexists. by split.
Qed.

Lemma take_input_spec st cs a : remaining st cs a →
  match take_next_input grants group_by aggs (cs, a) with
  | (Ok None, (cs', a')) => st = [] ∧ remaining [] cs' a'
  | (Ok (Some row), (cs', a')) => ∃ m st', st = (m, row) :: st' ∧ remaining st' cs' a'
  | (Err _, (cs', a')) => droppable cs' ∧ held_by cs' a'
  | (Panic, _) => False
  end.
Proof.
  intros Hl. unfold take_next_input, sbind at 1. pose proof (agg_peek_spec st cs a Hl) as Hp.
  destruct (agg_best_cursor grants group_by aggs (cs, a)) as [[[i|]|e|] [cs' a']]; [|done..].
  destruct Hp as (_ & cur & m & row & st' & _ & -> & _ & [cs'' a''] & Hpop & Hl'). unfold sbind. rewrite Hpop. by exists m, st'.
Qed.

(** The records with the key [k] at the front, folded into the states. *)
Lemma same_group_spec k : key_ok kinds k → ∀ fuel st cs a states, remaining st cs a → (length st ≤ fuel)%nat →
  match same_group grants group_by aggs fuel k states (cs, a) with
  | (Ok states', (cs', a')) => ∃ st1 st2, st = st1 ++ st2 ∧ Forall (λ x, group_key x = k) st1.*2 ∧ (∀ x, head st2.*2 = Some x → group_key x ≠ k) ∧
      for_each (record <$> st1.*2) states update_aggregate_states = Ok states' ∧ remaining st2 cs' a'
  | (Err _, (cs', a')) => droppable cs' ∧ held_by cs' a'
  | (Panic, _) => False
  end.
Proof.
  intros Hk. induction fuel as [|fuel IH]; intros st cs a states Hl Hf; cbn [same_group]; unfold sbind at 1; pose proof (agg_peek_spec st cs a Hl) as Hp.
  all: destruct (agg_best_cursor grants group_by aggs (cs, a)) as [[[i|]|e|] [cs' a']]; [|destruct Hp as [-> Hp]; unfold sret; by exists [], []|done..].
  all: destruct Hp as (Hl' & cur & m & row & st' & Hi & -> & Hfront & [cs'' a''] & Hpop & Hl'').
  { simpl in Hf. lia. }
  unfold sbind at 1. unfold index. rewrite Hi. cbn [expect bind]. rewrite Hfront. cbn [ok_or]. unfold sbind at 1, slift at 1.
  pose proof (remaining_ok _ _ _ Hl) as Hok. rewrite fmap_cons in Hok. apply Forall_cons in Hok as [Hrow _]. rewrite (tuple_cmp_Ok kinds) by (done || apply Hrow).
  case_bool_decide as E; cbn [negb].
  - apply (tuple_cmp_eq kinds) in E; [|done|apply Hrow]. unfold sbind at 1. rewrite Hpop. unfold sbind at 1, slift at 1.
    destruct (update_aggregate_states states (record row)) as [states1|e|] eqn:Eu; [|by eapply remaining_droppable|by apply update_states_no_panic in Eu].
    specialize (IH st' cs'' a'' states1 Hl'' ltac:(simpl in Hf; lia)).
    destruct (same_group grants group_by aggs fuel k states1 (cs'', a'')) as [[states'|e|] [cs3 a3]]; [|done..].
    destruct IH as (st1 & st2 & -> & Hkey & Hhead & Hfold & Hl3). exists ((m, row) :: st1), st2. rewrite !fmap_cons. cbn [snd for_each]. rewrite Eu. cbn [bind].
    split_and!; [done|by constructor|done|done|done].
  - unfold sret. exists [], ((m, row) :: st'). split_and!; [done|constructor| |done|done]. intros x [= <-] Hx. apply E. cbn [snd] in Hx. rewrite Hx. by apply (tuple_cmp_refl kinds).
Qed.
End Take.

(** ** Groups in order *)

Lemma split_unique {A} (P : A → Prop) l1 : ∀ l2 m1 m2, l1 ++ l2 = m1 ++ m2 → Forall P l1 → Forall P m1 →
  (∀ x, head l2 = Some x → ¬ P x) → (∀ x, x ∈ m2 → ¬ P x) → l1 = m1 ∧ l2 = m2.
Proof.
  induction l1 as [|x l1 IH]; intros l2 [|y m1] m2 E Hl Hm Hhead Hrest; simpl in E.
  - done.
  - subst l2. apply Forall_cons in Hm as [Hy _]. by destruct (Hhead y eq_refl).
  - subst m2. apply Forall_cons in Hl as [Hx _]. destruct (Hrest x); [left|done].
  - injection E as -> E. apply Forall_cons in Hl as [_ Hl], Hm as [_ Hm]. destruct (IH l2 m1 m2 E Hl Hm Hhead Hrest) as [-> ->]. done.
Qed.

Section Deliver.
Context `{FloatEnv} (powi10 : Z → Z) {Operator : Type} (grants : nat → Z → bool).
Context (group_by : list (Expr Operator)) (aggs : list (AggregateFunction * Expr Operator)) (output_types : list LogicalType) (kinds : list order_kind) (base : Z).
Hypothesis base_ok : 0 ≤ base.
Hypothesis aggs_few : zlen aggs < 2 ^ 62.
Hypothesis aggs_nonempty : aggs ≠ [].
Hypothesis kinds_length : length kinds = length group_by.
Hypothesis types_length : length output_types = (length group_by + length aggs)%nat.

Notation spec_row := (spec_row powi10 group_by aggs output_types).
Notation remaining := (remaining aggs kinds base).
Notation held_by := (held_by base).

(** Rows [D] written as the records [L], which the merge gives as [out]. *)
Context (D L out : list AggregateInputRow) (ks : list (list Value)).
Hypothesis Hgood : Forall (row_good aggs kinds) D.
Hypothesis Hsp : spilled aggs kinds D L.
Hypothesis Hsort : stably_sorted rec_cmp L out.
Hypothesis Hks : group_keys_of D ks.
Hypothesis typed : ∀ k row, k ∈ ks → spec_row D k = Ok row → Forall2 (λ v ty, matches_type v ty = true) row output_types.

(** The groups [todo] are left. *)
Definition pending (todo : list (list Value)) (cs : list (RunCursor AggregateInputRow)) (a : Account) : Prop :=
  ∃ done_ st, ks = done_ ++ todo ∧ remaining st cs a ∧ st.*2 = concat ((λ k, with_key group_key k out) <$> todo).

Lemma keys_ok : Forall (key_ok kinds) ks.
Proof.
  apply Forall_forall. intros k Hk%(keys_exact _ _ Hks). apply list_elem_of_fmap in Hk as (r & -> & Hr). rewrite Forall_forall in Hgood. by apply Hgood.
Qed.

Lemma all_pending st cs a : remaining st cs a → st.*2 = out → pending ks cs a.
Proof.
  intros Hr Hst. exists [], st. split_and!; [done..|]. rewrite Hst. destruct (stably_sorted_le _ _ _ Hsort) as [Hs Hp].
  apply (grouped kinds); [apply keys_ok|apply Hks| |].
  - intros x Hx. apply (keys_exact _ _ Hks), (spilled_keys _ _ _ _ Hsp). by rewrite <- Hp.
  - eapply sorted_impl; [|exact Hs]. intros x y _ _. unfold rec_cmp, key_le. by destruct (tuple_cmp _ _).
Qed.

Lemma group_nonempty k : k ∈ ks → ∃ r g, with_key group_key k out = r :: g ∧ group_key r = k.
Proof.
  intros Hk%(keys_exact _ _ Hks). apply list_elem_of_fmap in Hk as (r & -> & Hr). destruct (stably_sorted_le _ _ _ Hsort) as [_ Hp].
  assert (r ∈ out) as Hin.
  { rewrite Hp. rewrite <- (spilled_inputs _ _ _ _ Hsp) in Hr. by apply list_elem_of_filter in Hr as [_ ?]. }
  assert (r ∈ with_key group_key (group_key r) out) as Hw by (by apply list_elem_of_filter).
  destruct (with_key group_key (group_key r) out) as [|r' g] eqn:E; [by apply not_elem_of_nil in Hw|]. exists r', g. split; [done|].
  assert (r' ∈ with_key group_key (group_key r) out) as Hr' by (rewrite E; left). by apply list_elem_of_filter in Hr' as [? _].
Qed.

(** The states of the group whose records were taken give its row. *)
Lemma group_row k states : for_each (record <$> with_key group_key k out) (initial_aggregate_states aggs) update_aggregate_states = Ok states →
  match finish_aggregate_states powi10 states (drop (length group_by) output_types) with
  | Ok result => spec_row D k = Ok (k ++ result)
  | Err _ => True
  | Panic => False
  end.
Proof.
  intros Hf. pose proof (group_states aggs kinds aggs_few D L out k Hsp Hsort states Hf) as Hst.
  pose proof (finish_states powi10 aggs (with_key group_key k D) (drop (length group_by) output_types) states) as Hfin.
  specialize (Hfin (good_inputs aggs kinds _ (with_key_good aggs kinds k D Hgood)) (length_result_types group_by aggs output_types types_length) Hst).
  unfold AggSpec.spec_row. destruct (finish_aggregate_states powi10 states _), (group_result _ _ _ _); simpl in Hfin; try done. by subst.
Qed.

Lemma next_group_spec todo cs a : pending todo cs a →
  match next_group powi10 grants group_by aggs output_types (cs, a) with
  | (Ok None, (cs', a')) => todo = [] ∧ pending [] cs' a'
  | (Ok (Some row), (cs', a')) => ∃ k todo', todo = k :: todo' ∧ spec_row D k = Ok row ∧ pending todo' cs' a'
  | (Err _, (cs', a')) => droppable cs' ∧ held_by cs' a'
  | (Panic, _) => False
  end.
Proof.
  intros (done_ & st & Hd & Hr & Hst). unfold next_group, sbind at 1.
  pose proof (take_input_spec grants group_by aggs kinds base base_ok aggs_few aggs_nonempty kinds_length st cs a Hr) as Ht.
  destruct (take_next_input grants group_by aggs (cs, a)) as [[[first|]|e|] [cs1 a1]]; [| |done..].
  2: { destruct Ht as [-> Hr1]. assert (todo = []) as ->; [|split; [done|]; by exists done_, []]. destruct todo as [|k todo]; [done|]. exfalso.
       rewrite fmap_cons in Hst. cbn [concat] in Hst. destruct (group_nonempty k) as (r & g & E & _); [rewrite Hd; set_solver|]. by rewrite E in Hst. }
  destruct Ht as (m & st1 & -> & Hr1). destruct todo as [|k todo]; [done|]. rewrite !fmap_cons in Hst. cbn [concat] in Hst.
  destruct (group_nonempty k) as (r & g & E & Hkr); [rewrite Hd; set_solver|]. rewrite E in Hst. cbn [snd app] in Hst. injection Hst as -> Hst.
  assert (key_ok kinds k) as Hk by (pose proof keys_ok as Hok; rewrite Hd in Hok; apply Forall_app in Hok as [_ Hok]; by apply Forall_cons in Hok as [? _]).
  unfold sbind at 1, slift at 1. destruct (update_aggregate_states (initial_aggregate_states aggs) (record r)) as [states1|e|] eqn:Eu;
    [|by eapply remaining_droppable|by apply update_states_no_panic in Eu].
  rewrite Hkr. unfold sbind at 1. cbn [fst].
  pose proof (same_group_spec grants group_by aggs kinds base base_ok aggs_few aggs_nonempty kinds_length k Hk (records_left cs1) st1 cs1 a1 states1 Hr1) as Hs.
  specialize (Hs (rows_left _ _ _ _ _ (proj1 Hr1))). destruct (same_group grants group_by aggs (records_left cs1) k states1 (cs1, a1)) as [[states|e|] [cs2 a2]]; [|done..].
  destruct Hs as (sa & sb & -> & Hka & Hhb & Hfold & Hr2).
  destruct (split_unique (λ x, group_key x = k) sa.*2 sb.*2 g (concat ((λ k, with_key group_key k out) <$> todo))) as [Ea Eb].
  { by rewrite <- fmap_app. } { done. }
  { apply Forall_forall. intros x Hx. assert (x ∈ with_key group_key k out) as Hw by (rewrite E; by right). by apply list_elem_of_filter in Hw as [? _]. } { done. }
  { intros x (l & Hx & Hl)%elem_of_concat Ex. apply list_elem_of_fmap in Hl as (k' & -> & Hk'). apply list_elem_of_filter in Hx as [Hx _].
    pose proof (keys_increase _ _ Hks) as Hinc. rewrite Hd in Hinc. apply StronglySorted_app_1_r in Hinc. apply StronglySorted_inv in Hinc as [_ Hlt].
    rewrite Forall_forall in Hlt. specialize (Hlt k' Hk'). apply (key_lt_irrefl kinds k Hk). congruence. }
  unfold sbind at 1, slift at 1. rewrite (result_types_Ok group_by aggs output_types types_length). unfold sbind at 1, slift at 1.
  pose proof (group_row k states) as Hrow. rewrite E, fmap_cons in Hrow. cbn [for_each] in Hrow. rewrite Eu in Hrow. cbn [bind] in Hrow. rewrite Ea in Hfold. specialize (Hrow Hfold).
  destruct (finish_aggregate_states powi10 states _) as [result|e|]; [|by eapply remaining_droppable|done]. unfold sret. exists k, todo. split_and!; [done..|].
  exists (done_ ++ [k]), sb. rewrite <- app_assoc. by split_and!.
Qed.

Lemma agg_fill_spec rounds : ∀ rows b todo cs a,
  builder_holds output_types rows b → (CHUNK_CAPACITY ≤ length rows + rounds)%nat → pending todo cs a →
  match agg_fill powi10 grants group_by aggs output_types rounds b (length rows) (cs, a) with
  | (Ok (b', n), (cs', a')) => ∃ more todo1 todo2, todo = todo1 ++ todo2 ∧ Forall2 (λ k row, spec_row D k = Ok row) todo1 more ∧
      builder_holds output_types (rows ++ more) b' ∧ n = (length rows + length more)%nat ∧ (todo2 = [] ∨ n = CHUNK_CAPACITY) ∧ pending todo2 cs' a'
  | (Err _, (cs', a')) => droppable cs' ∧ held_by cs' a'
  | (Panic, _) => False
  end.
Proof.
  induction rounds as [|rounds IH]; intros rows b todo cs a Hb Hcap Hp; pose proof Hb as (_ & Hn & Hle & _); cbn [agg_fill];
    unfold is_full; rewrite Hn; destruct (Nat.eqb_spec (length rows) CHUNK_CAPACITY) as [E|E]; try lia.
  1, 2: unfold sret; exists [], [], todo; rewrite (app_nil_r rows); split_and!; [done|constructor|done|simpl; lia|by right|done].
  unfold sbind at 1. pose proof (next_group_spec todo cs a Hp) as Hs. pose proof Hp as (done_ & st & Hd & _).
  destruct (next_group powi10 grants group_by aggs output_types (cs, a)) as [[[row|]|e|] [cs' a']]; [| |done..].
  - destruct Hs as (k & todo' & -> & Hrow & Hp'). destruct (push_row_accepts output_types rows b row) as (b1 & Hpush & Hb1);
      [done|apply (typed k); [rewrite Hd; set_solver|done]|lia|].
    unfold sbind, slift. rewrite Hpush. specialize (IH (rows ++ [row]) b1 todo' cs' a' Hb1). rewrite length_app, Nat.add_1_r in IH. specialize (IH ltac:(lia) Hp').
    destruct (agg_fill powi10 grants group_by aggs output_types rounds b1 _ (cs', a')) as [[[b' m]|e|] [cs'' a'']]; [|done..].
    destruct IH as (more & t1 & t2 & -> & Hf & Hb' & -> & Hfull & Hp''). exists (row :: more), (k :: t1), t2. rewrite <- app_assoc in Hb'.
    split_and!; [done|by constructor|done|simpl; lia| |done]. destruct Hfull; [by left|right; simpl; lia].
  - destruct Hs as [-> Hp']. unfold sret. exists [], [], []. rewrite (app_nil_r rows). split_and!; [done|constructor|done|simpl; lia|by left|done].
Qed.

Lemma agg_merge_spec todo cs a : pending todo cs a →
  match agg_merge_next_chunk powi10 grants group_by aggs output_types (cs, a) with
  | (Ok None, (cs', a')) => todo = [] ∧ pending [] cs' a'
  | (Ok (Some chunk), (cs', a')) => ∃ rows todo1 todo2, todo = todo1 ++ todo2 ∧ rows ≠ [] ∧ Forall2 (λ k row, spec_row D k = Ok row) todo1 rows ∧
      types chunk = output_types ∧ holds_rows chunk rows ∧ pending todo2 cs' a'
  | (Err _, (cs', a')) => droppable cs' ∧ held_by cs' a'
  | (Panic, _) => False
  end.
Proof.
  intros Hp. unfold agg_merge_next_chunk, sbind at 1.
  pose proof (agg_fill_spec CHUNK_CAPACITY [] (builder_new output_types) todo cs a (builder_new_holds output_types) ltac:(simpl; lia) Hp) as Hf.
  cbn [length] in Hf. destruct (agg_fill powi10 grants group_by aggs output_types CHUNK_CAPACITY _ 0 (cs, a)) as [[[b m]|e|] [cs' a']]; [|done..].
  destruct Hf as (rows & t1 & t2 & -> & Hrows & Hb & -> & Hfull & Hp'). cbn [length app Nat.add] in *. destruct rows as [|row rows].
  - apply Forall2_nil_inv_r in Hrows as ->. cbn [Nat.eqb length]. unfold sret. assert (t2 = []) as -> by (destruct Hfull; [done|unfold CHUNK_CAPACITY in *; simpl in *; lia]). done.
  - cbn [length Nat.eqb]. unfold sbind, slift. destruct (finish_holds _ _ _ Hb) as (chunk & -> & Ht & Hr). unfold sret.
    by exists (row :: rows), t1, t2.
Qed.
End Deliver.
