(* ===== verification/AggregateSpec.v ===== *)
(** The aggregation operator against its specification: whichever of its paths
    it takes, whatever the memory budget answers and wherever it spills, it
    delivers one row per group, in the order of the keys. *)

From stdpp Require Import sorting.
From S2P Require Import Prelude Bytes Decimal Types Codec F64 Expr Typing Eval EvalRow Spill Sorting Operators SortOp SortMerge SortSpec AggState AggregateOp AggSpec AggTyped AggSpill AggMerge.

(** A source that delivers the rows of [specs] in order, or those before an
    error; it never gets past a row that has no value. *)
Inductive delivers_spec (tys : list LogicalType) : source → list (outcome (list Value)) → Prop :=
| ds_nil : delivers_spec tys [] []
| ds_cons chunk rs src rest :
    types chunk = tys → rs ≠ [] → holds_rows chunk rs → delivers_spec tys src rest → delivers_spec tys (Ok chunk :: src) ((Ok <$> rs) ++ rest)
| ds_err e rest : delivers_spec tys [Err e] rest.

Section AggregateSpec.
Context `{FloatEnv} `{SortUnstable} (powi10 : Z → Z) {Operator : Type}.
Context (subquery_rows : Expr Operator → Chunk → gmap (list Z) nat → outcome (list Value)).
Context (grants : nat → Z → bool) (run_io : nat → outcome unit).
Context (group_by : list (Expr Operator)) (aggs : list (AggregateFunction * Expr Operator)) (cols : gmap (list Z) nat)
  (output_types : list LogicalType) (tys : list LogicalType) (kinds : list order_kind) (base : Z).
Hypothesis run_io_ok : ∀ n, run_io n ≠ Panic.
Hypothesis base_ok : 0 ≤ base.
Hypothesis aggs_few : zlen aggs < 2 ^ 62.

Notation spillable := (spillable aggs kinds).
Notation row_good := (row_good aggs kinds).
Notation record_ok := (record_ok aggs kinds).
Notation is_percentile := (is_percentile aggs).
Notation spilled := (spilled aggs kinds).
Notation run_holds := (run_holds rec_cmp encode_record).

(** ** Accounting *)

(** What the budget has granted is what the buffered rows and the typed groups
    were charged for. *)
Definition agg_accounted (s : Aggregate) : Prop :=
  0 ≤ ag_bytes s ∧ 0 ≤ ag_typed s ∧ held (ag_account s) = base + ag_bytes s + ag_typed s.
Definition agg_fresh (s : Aggregate) : Prop := ag_output s = None ∧ ag_error s = None.

(** Buffering has not begun, or the typed groups were given up. *)
Definition sound (s : Aggregate) : Prop := agg_accounted s ∧ agg_fresh s.

Definition agg_taken (s : Aggregate) : Aggregate :=
  mkAggregate (ag_upstream s) [] 0 (ag_typed s) (ag_runs s) (mkAccount (asked (ag_account s)) (base + ag_typed s)) (ag_output s) (ag_error s).

Lemma take_charged_run s : agg_accounted s → take_charged s = (Ok (ag_rows s), agg_taken s).
Proof.
  intros (Hb & Ht & Hh). unfold take_charged, release_charged, sbind, charging, release. simpl. rewrite (proj2 (Z.leb_le _ _)) by lia. cbn.
  unfold agg_taken, with_rows, with_account. simpl. do 3 f_equal. lia.
Qed.

Lemma release_typed_run s : agg_accounted s → release_typed s = (Ok tt, with_typed 0 (with_account (mkAccount (asked (ag_account s)) (base + ag_bytes s)) s)).
Proof.
  intros (Hb & Ht & Hh). unfold release_typed, sbind, charging, release. rewrite (proj2 (Z.leb_le _ _)) by lia. simpl. do 4 f_equal. lia.
Qed.

(** ** Spilling *)

(** [s'] is [s] but for its rows and runs. *)
Definition same_but_runs (s s' : Aggregate) : Prop :=
  ag_upstream s' = ag_upstream s ∧ ag_bytes s' = ag_bytes s ∧ ag_typed s' = ag_typed s ∧ ag_account s' = ag_account s ∧
  ag_output s' = ag_output s ∧ ag_error s' = ag_error s.

Lemma same_but_runs_sound s s' : same_but_runs s s' → sound s → sound s'.
Proof. intros (_ & E2 & E3 & E4 & E5 & E6) [[? [? ?]] [? ?]]. unfold sound, agg_accounted, agg_fresh. rewrite E2, E3, E4, E5, E6. done. Qed.

Lemma same_but_runs_trans s s' s'' : same_but_runs s s' → same_but_runs s' s'' → same_but_runs s s''.
Proof. intros (? & ? & ? & ? & ? & ?) (? & ? & ? & ? & ? & ?). unfold same_but_runs. split_and!; congruence. Qed.

Definition percentile_cmp (j : nat) (x y : AggregateInputRow) : comparison :=
  match group_cmp x y with Eq => compare_percentile_values j x y | c => c end.

#[local] Instance percentile_cmp_total j : TotalCompare row_good (percentile_cmp j).
Proof.
  assert (TotalCompare row_good (compare_percentile_values j)) as Hv.
  { pose proof (percentile_total j) as [Ha Ht]. split; [intros x y _ _; by apply Ha|intros x y z _ _ _; by apply Ht]. }
  assert (TotalCompare row_good group_cmp) as Hg by apply (pulled_total (key_ok kinds) tuple_cmp group_key).
  exact (lex_total row_good group_cmp (compare_percentile_values j)).
Qed.

Lemma sort_percentile j rows : Forall row_good rows →
  ∃ out, stable_sort_by rows (compare_percentile_rows j) = Ok out ∧ StronglySorted (λ x y, percentile_cmp j x y ≠ Gt) out ∧ out ≡ₚ rows.
Proof.
  intros Hrows. destruct (stable_sort_spec row_good (percentile_cmp j) rows (compare_percentile_rows j) Hrows) as (out & Hout & Hs).
  - rewrite Forall_forall in Hrows. intros x y Hx Hy. unfold compare_percentile_rows, percentile_cmp. rewrite (group_compare aggs kinds) by auto. cbn [bind].
    by destruct (group_cmp x y).
  - exists out. split; [done|]. by apply stably_sorted_le.
Qed.

(** The run of one percentile. *)
Lemma percentile_run_spec j s : is_percentile j → Forall spillable (ag_rows s) →
  match spill_percentile_run run_io j s with
  | (Ok _, s') => same_but_runs s s' ∧ ag_rows s' ≡ₚ ag_rows s ∧ ∃ file R, ag_runs s' = ag_runs s ++ [file] ∧ run_holds file R ∧ Forall record_ok R ∧
      filter is_input R = [] ∧ (∀ r, r ∈ R → group_key r ∈ group_key <$> ag_rows s) ∧ covers j (ag_rows s) R ∧ ∀ i, i ≠ j → silent i R
  | (Err _, s') => same_but_runs s s'
  | (Panic, _) => False
  end.
Proof.
  intros Hj Hsp. pose proof (spillable_goods aggs kinds _ Hsp) as Hgood. unfold spill_percentile_run, sbind, sort_rows_by.
  destruct (sort_percentile j (ag_rows s) Hgood) as (out & -> & Hs & Hp). unfold write_generated_run. cbn [with_rows ag_rows ag_runs].
  destruct (run_io (length (ag_runs s))) as [[]|e|] eqn:Eio; [|done|by apply run_io_ok in Eio]. cbn [bind].
  assert (Forall row_good out) as Hgo by (by rewrite Hp). destruct (group_keys_exist aggs kinds out Hgo) as [ks Hks].
  assert (stably_sorted group_cmp out out) as Hst.
  { apply sorted_stably. eapply sorted_impl; [|exact Hs]. intros x y _ _. unfold percentile_cmp. by destruct (group_cmp x y). }
  destruct (sorted_groups aggs kinds out out ks Hgo Hst Hks) as [Ho Hg]. set (gs := (λ k, (k, with_key group_key k out)) <$> ks) in *.
  pose proof (percentile_groups_spec aggs kinds aggs_few j gs Hj (length out) [] Hg ltac:(by rewrite <- Ho)) as Hw. rewrite <- Ho in Hw.
  destruct (percentile_groups (length out) j [] out) as [file|e|]; [|done..]. destruct Hw as (bytes & Hw & -> & Hall). cbn [app].
  split_and!; [done|done|]. exists bytes, (run_records j gs).
  assert (Forall (λ g, zlen (omap (percentile_decimal j) g.2) < 2 ^ 63) gs) as Hz by (eapply Forall_impl; [exact Hall|]; by intros g [_ ?]).
  split_and!; [done| |by apply run_records_ok|apply run_inputs| | |intros i Hi; by apply run_silent].
  - exists (run_records j gs). split; [|done]. apply sorted_stably, (run_sorted aggs kinds aggs_few); [done..|]. unfold gs. apply Forall_fmap, Forall_forall. intros k _.
    unfold compose. cbn [snd]. apply ordered_decimals. eapply sorted_impl; [|by apply sorted_filter_sub, Hs]. intros x y [Hx Hx']%list_elem_of_filter [Hy _]%list_elem_of_filter.
    unfold percentile_cmp, group_cmp. rewrite Hx, Hy. rewrite (tuple_cmp_refl kinds); [done|]. rewrite <- Hx. rewrite Forall_forall in Hgo. by apply (Hgo x Hx').
  - intros r Hr%run_keys. unfold gs in Hr. rewrite <- list_fmap_compose in Hr. apply list_elem_of_fmap in Hr as (k & -> & Hk). cbn [compose fst].
    apply (keys_exact _ _ Hks) in Hk. by rewrite <- Hp.
  - apply (run_covers aggs kinds aggs_few); [done|done|by rewrite <- Ho|]. eapply Forall_impl; [exact Hall|]. by intros g [? _].
Qed.

(** The records [R] of a batch whose percentiles below [m] are written. *)
Record batch (part R : list AggregateInputRow) (m : nat) : Prop := {
  batch_ok : Forall record_ok R;
  batch_inputs : filter is_input R = part;
  batch_keys r : r ∈ R → group_key r ∈ group_key <$> part;
  batch_done j : is_percentile j → (j < m)%nat → covers j part R;
  batch_todo j : (m ≤ j)%nat → silent j R;
}.

Lemma batch_skip part R m : batch part R m → ¬ is_percentile m → batch part R (S m).
Proof.
  intros [O I K V S] Hm. split; [done..| |intros j Hj; apply S; lia]. intros j Hj Hlt. apply V; [done|]. destruct (decide (j = m)); [by subst|lia].
Qed.

Lemma silent_app j R R' : silent j R → silent j R' → silent j (R ++ R').
Proof. intros [V1 C1] [V2 C2]. split; [by rewrite values_of_app, V1, V2|by rewrite counts_of_app, C1, C2]. Qed.

Lemma batch_add part R m R' : batch part R m → Forall record_ok R' → filter is_input R' = [] → (∀ r, r ∈ R' → group_key r ∈ group_key <$> part) →
  covers m part R' → (∀ i, i ≠ m → silent i R') → batch part (R ++ R') (S m).
Proof.
  intros [O I K V S] O' I' K' V' S'. split.
  - by apply Forall_app.
  - by rewrite filter_app, I, I', app_nil_r.
  - intros r. rewrite elem_of_app. naive_solver.
  - intros j Hj Hlt. destruct (decide (j = m)) as [->|Hne].
    + apply (covers_app m [] R); [by apply silent_covers, S|done].
    + rewrite <- (app_nil_r part). apply covers_app; [apply V; [done|lia]|by apply silent_covers, S'].
  - intros j Hj. apply silent_app; [apply S|apply S']; lia.
Qed.

Definition runs_batch (part L0 : list AggregateInputRow) (m : nat) (s : Aggregate) : Prop :=
  ∃ recs R, Forall2 run_holds (ag_runs s) recs ∧ concat recs = L0 ++ R ∧ batch part R m.

Lemma percentile_runs_spec part L0 : Forall spillable part → ∀ todo m s, drop m aggs = todo → ag_rows s ≡ₚ part → runs_batch part L0 m s →
  match sfor (enumerate_from m todo) tt (λ _ '(i, (function, _)), if bool_decide (function = PercentileCont) then spill_percentile_run run_io i else sret tt) s with
  | (Ok _, s') => same_but_runs s s' ∧ runs_batch part L0 (m + length todo) s'
  | (Err _, s') => same_but_runs s s'
  | (Panic, _) => False
  end.
Proof.
  intros Hsp. induction todo as [|[f e] todo IH]; intros m s Hd Hp Hb.
  { cbn [sfor enumerate_from zip seq length]. unfold sret. rewrite Nat.add_0_r. by split. }
  assert (aggs !! m = Some (f, e)) as Hm by (rewrite <- (Nat.add_0_r m), <- lookup_drop, Hd; done).
  assert (drop (S m) aggs = todo) as Hd' by (rewrite <- Nat.add_1_r, <- drop_drop, Hd; done).
  rewrite enumerate_from_cons. cbn [sfor length]. unfold sbind at 1. rewrite Nat.add_succ_r, <- Nat.add_succ_l. case_bool_decide as Ef.
  - subst f. pose proof (percentile_run_spec m s ltac:(by exists e) ltac:(by rewrite Hp)) as Hs.
    destruct (spill_percentile_run run_io m s) as [[[]|er|] s1]; [|done..]. destruct Hs as (Hsame & Hp1 & file & R' & Hruns & Hh & HO & HI & HK & HC & HS).
    destruct Hb as (recs & R & Hr & Hc & Hbatch). specialize (IH (S m) s1 Hd' ltac:(by rewrite Hp1)).
    assert (runs_batch part L0 (S m) s1) as Hb1.
    { exists (recs ++ [R']), (R ++ R'). rewrite Hruns. split_and!; [by apply Forall2_app; [|constructor; [|constructor]]|by rewrite concat_app, Hc; cbn [concat]; rewrite app_nil_r, app_assoc|].
      apply batch_add; [done|done|done| |by eapply covers_permutation|done]. intros r Hr'. by rewrite <- Hp; apply HK. }
    specialize (IH Hb1). destruct (sfor (enumerate_from (S m) todo) tt _ s1) as [[[]|er|] s2]; [|by eapply same_but_runs_trans|done].
    destruct IH as [Hsame' Hb2]. split; [by eapply same_but_runs_trans|done].
  - unfold sret. specialize (IH (S m) s Hd' Hp). destruct Hb as (recs & R & Hr & Hc & Hbatch).
    apply IH. exists recs, R. split_and!; [done..|]. apply batch_skip; [done|]. intros [e' He']. congruence.
Qed.

(** *** The buffered rows *)

(** After the rows [d]: some spilled, the rest buffered. *)
Definition buf_inv (d : list AggregateInputRow) (s : Aggregate) : Prop :=
  (∃ D recs, d = D ++ ag_rows s ∧ Forall2 run_holds (ag_runs s) recs ∧ spilled D (concat recs) ∧ (ag_runs s = [] ∨ D ≠ [])) ∧ Forall spillable d ∧ sound s ∧ ag_typed s = 0.

Definition settled (s : Aggregate) : Prop := sound s ∧ ag_typed s = 0.

Lemma inputs_only rows : Forall spillable rows → Forall is_input rows ∧ Forall record_ok rows.
Proof. intros Hr. split; (eapply Forall_impl; [exact Hr|]); by intros r [? ?]. Qed.

Lemma input_cmp x y : is_input x → is_input y → rec_cmp x y = group_cmp x y.
Proof. unfold is_input, rec_cmp, group_cmp, row_rank, record_digits. destruct (record x), (record y); try done. intros _ _. by destruct (tuple_cmp _ _). Qed.

Lemma stably_sorted_ext {T} (c c' : T → T → comparison) rows out : (∀ x y, x ∈ rows → y ∈ rows → c x y = c' x y) → stably_sorted c rows out → stably_sorted c' rows out.
Proof.
  intros Hc (t & -> & Hs & Hp). exists t. split_and!; [done| |done]. eapply sorted_impl; [|exact Hs]. intros [i x] [j y] Hx Hy. unfold before. cbn [fst snd].
  rewrite Hc; [done| |]; [rewrite Hp in Hx; by apply elem_of_enumerate, list_elem_of_lookup_2 in Hx|rewrite Hp in Hy; by apply elem_of_enumerate, list_elem_of_lookup_2 in Hy].
Qed.

(** The run of the rows themselves. *)
Lemma input_run rows out file : Forall spillable rows → stably_sorted group_cmp rows out →
  write_spill_rows (encode_aggregate_input_record <$> out) = Ok file → run_holds file rows.
Proof.
  intros Hr Hs Hw. destruct (inputs_only rows Hr) as [Hi _]. exists out. split.
  - eapply stably_sorted_ext; [|exact Hs]. rewrite Forall_forall in Hi. intros x y Hx Hy. symmetry. apply input_cmp; by apply Hi.
  - rewrite <- Hw. f_equal. apply list_fmap_ext. intros i x Hx%list_elem_of_lookup_2. destruct (stably_sorted_le _ _ _ Hs) as [_ Hp]. rewrite Hp in Hx.
    rewrite Forall_forall in Hi. specialize (Hi x Hx). unfold is_input, encode_record in *. by destruct (record x).
Qed.

Lemma spill_aggregate_spec d s : buf_inv d s →
  match spill_aggregate_run run_io aggs s with
  | (Ok _, s') => buf_inv d s' ∧ ag_rows s' = [] ∧ ag_upstream s' = ag_upstream s
  | (Err _, s') => settled s'
  | (Panic, _) => False
  end.
Proof.
  intros Hi. pose proof Hi as ((D & recs & Hd & Hr & Hspd & _) & Hok & Hs & Hty). unfold spill_aggregate_run. destruct (ag_rows s) as [|row rest] eqn:Eb; [done|].
  assert (ag_rows s ≠ []) as Hne by (by rewrite Eb). rewrite <- Eb in *. clear Eb row rest. assert (Forall spillable (ag_rows s)) as Hb by (rewrite Hd in Hok; by apply Forall_app in Hok as [_ ?]).
  unfold sbind at 1, sort_rows_by. destruct (sort_groups aggs kinds (ag_rows s) (spillable_goods _ _ _ Hb)) as (out & -> & Hst & _).
  destruct (stably_sorted_le _ _ _ Hst) as [_ Hp]. unfold sbind at 1, write_generated_run. cbn [with_rows ag_rows ag_runs].
  assert (∀ rows bytes, bytes = ag_bytes s → settled (with_rows rows bytes s)) as Hset by (intros rows ? ->; done).
  destruct (run_io (length (ag_runs s))) as [[]|e|] eqn:Eio; [|by apply Hset|by apply run_io_ok in Eio]. cbn [bind].
  destruct (write_spill_rows (encode_aggregate_input_record <$> out)) as [file|e|] eqn:Ew; [|by apply Hset|by apply write_rows_no_panic in Ew].
  set (s1 := with_run file (with_rows out (ag_bytes s) s)). unfold sbind at 1. destruct (inputs_only _ Hb) as [Hin Hrec].
  pose proof (percentile_runs_spec (ag_rows s) (concat recs) Hb aggs 0 s1 eq_refl Hp) as Hl.
  assert (runs_batch (ag_rows s) (concat recs) 0 s1) as Hb1.
  { exists (recs ++ [ag_rows s]), (ag_rows s). split_and!.
    - unfold s1. simpl. apply Forall2_app; [done|]. constructor; [|constructor]. by eapply input_run.
    - rewrite concat_app. cbn [concat]. by rewrite app_nil_r.
    - split; [done|by apply filter_keeps_all| |intros; lia|intros j _; by apply inputs_silent]. intros r ?. apply list_elem_of_fmap. by exists r. }
  specialize (Hl Hb1). change (enumerate aggs) with (enumerate_from 0 aggs). assert (same_but_runs s s1) as Hsame1 by done.
  destruct (sfor (enumerate_from 0 aggs) tt _ s1) as [[[]|e|] s2]; [| |done].
  - destruct Hl as [Hsame2 (recs' & R & Hr' & Hc & Hbatch)]. pose proof (same_but_runs_trans _ _ _ Hsame1 Hsame2) as Hsame.
    pose proof (same_but_runs_sound _ _ Hsame Hs) as [Ha Hf]. unfold sbind. rewrite take_charged_run by done. unfold sret. split_and!; [|done|apply Hsame].
    split_and!; [| |split; [split_and!; simpl; [lia| |]|done]|].
    + exists (D ++ ag_rows s), recs'. simpl. split_and!; [by rewrite app_nil_r|done| |right; by intros [_ ?]%app_nil]. rewrite Hc. apply spilled_app; [done|]. destruct Hbatch as [HO HI HK HV _].
      split; [done..|]. intros j Hj. apply HV; [done|]. by destruct (percentile_index aggs aggs_few j Hj).
    + done.
    + apply Ha.
    + lia.
    + simpl. destruct Hsame as (_ & _ & -> & _). done.
  - pose proof (same_but_runs_trans _ _ _ Hsame1 Hl) as Hsame. split; [by eapply same_but_runs_sound|]. destruct Hsame as (_ & _ & -> & _). done.
Qed.

(** Every request is granted. *)
Definition always : Prop := ∀ n bytes, grants n bytes = true.
Definition charged (rows : list AggregateInputRow) : Prop := Forall (λ row, is_ok (aggregate_row_charge row) = true) rows.

Lemma push_buffered d s row bytes n : buf_inv d s → spillable row → in_u 64 bytes →
  buf_inv (d ++ [row]) (with_rows (ag_rows s ++ [row]) (ag_bytes s + bytes) (with_account (mkAccount n (held (ag_account s) + bytes)) s)).
Proof.
  intros ((D & recs & -> & Hr & Hsp & Hnil) & Hok & [(Hb & Ht & Hh) Hf] & Hty) Hrow [? _].
  split_and!; [|by apply Forall_app; split; [|constructor]|split; [split_and!; simpl; lia|done]|done].
  exists D, recs. simpl. by rewrite app_assoc.
Qed.

Lemma asked_again d s n : buf_inv d s → buf_inv d (with_account (mkAccount n (held (ag_account s))) s).
Proof. intros (? & ? & [[? [? ?]] ?] & ?). by split_and!. Qed.

Lemma agg_buffer_row_spec d s row : buf_inv d s → spillable row →
  match buffer_aggregate_row grants run_io aggs row s with
  | (Ok _, s') => buf_inv (d ++ [row]) s' ∧ ag_upstream s' = ag_upstream s ∧ (always → ag_runs s' = ag_runs s)
  | (Err _, s') => settled s' ∧ (always → charged [row] → False)
  | (Panic, _) => False
  end.
Proof.
  intros Hi Hrow. pose proof Hi as (_ & _ & Hs & Hty). unfold buffer_aggregate_row, sbind at 1, slift. destruct (record_charge row) as [Hnp Hb].
  destruct (aggregate_row_charge row) as [bytes|e|] eqn:Ec; [|split; [done|]; intros _ [Hc _]%Forall_cons; by rewrite Ec in Hc|done]. specialize (Hb bytes eq_refl).
  unfold sbind at 1, charging at 1, charge_or_reclaim at 1. destruct (grants (asked (ag_account s)) bytes) eqn:Eg.
  { unfold sbind, sret, push_charged_row. split_and!; [exact (push_buffered d s row bytes _ Hi Hrow Hb)|done|done]. }
  assert (always → False) as Hnot by (intros Ha; by rewrite Ha in Eg). unfold sbind at 1, sbind at 1.
  pose proof (spill_aggregate_spec d _ (asked_again d s (S (asked (ag_account s))) Hi)) as Hsp.
  destruct (spill_aggregate_run run_io aggs _) as [[[]|e|] s1]; [|done..]. destruct Hsp as (Hi1 & _ & Hup).
  unfold charging, charge_after_spill, sbind, charge_or_reclaim. destruct (grants (asked (ag_account s1)) bytes).
  - split_and!; [exact (push_buffered d s1 row bytes _ Hi1 Hrow Hb)|exact Hup|done].
  - destruct Hi1 as (_ & _ & [[? [? ?]] ?] & ?). by split_and!.
Qed.

Lemma agg_buffer_rows_spec rows : ∀ d s, buf_inv d s → Forall spillable rows →
  match sfor rows tt (λ _ row, buffer_aggregate_row grants run_io aggs row) s with
  | (Ok _, s') => buf_inv (d ++ rows) s' ∧ ag_upstream s' = ag_upstream s ∧ (always → ag_runs s' = ag_runs s)
  | (Err _, s') => settled s' ∧ (always → charged rows → False)
  | (Panic, _) => False
  end.
Proof.
  induction rows as [|row rows IH]; intros d s Hi Hrows; [by rewrite app_nil_r|]. apply Forall_cons in Hrows as [Hrow Hrows].
  cbn [sfor]. unfold sbind. pose proof (agg_buffer_row_spec d s row Hi Hrow) as Hs. unfold charged in *.
  destruct (buffer_aggregate_row grants run_io aggs row s) as [[[]|e|] s1]; [|destruct Hs as [? Hs]; split; [done|]; intros Ha [Hc _]%Forall_cons; by apply Hs; [|constructor]|done].
  destruct Hs as (Hi1 & Hup & Hruns). specialize (IH (d ++ [row]) s1 Hi1 Hrows). rewrite <- app_assoc in IH.
  destruct (sfor rows tt _ s1) as [[[]|e|] s2]; [|destruct IH as [? IH]; split; [done|]; by intros Ha [_ Hc]%Forall_cons; apply IH|done].
  destruct IH as (Hi2 & Hup2 & Hruns2). split_and!; [done|congruence|]. intros Ha. rewrite Hruns2, Hruns by done. done.
Qed.

(** ** The input *)

Hypothesis group_plain : forallb (λ e, negb (expression_contains_scalar e)) group_by = true.
Hypothesis aggs_plain : forallb (λ fe, negb (expression_contains_scalar fe.2)) aggs = true.

(** The rows [rs] evaluate to [rows], which can be spilled. *)
Definition evaluates (rs : list (list Value)) (rows : list AggregateInputRow) : Prop :=
  Forall2 (λ row ar, agg_row group_by aggs cols tys row = Ok ar) rs rows ∧ Forall spillable rows.

Lemma evaluates_app_inv r1 r2 rows : evaluates (r1 ++ r2) rows → ∃ w1 w2, rows = w1 ++ w2 ∧ evaluates r1 w1 ∧ evaluates r2 w2.
Proof.
  intros [Hr Hs]. apply Forall2_app_inv_l in Hr as (w1 & w2 & H1 & H2 & ->). apply Forall_app in Hs as [Hs1 Hs2]. by exists w1, w2.
Qed.

Lemma buffer_chunk_spec chunk rs rows d s :
  types chunk = tys → holds_rows chunk rs → rs ≠ [] → evaluates rs rows → buf_inv d s →
  match buffer_aggregate_chunk subquery_rows grants run_io group_by aggs cols chunk s with
  | (Ok _, s') => buf_inv (d ++ rows) s' ∧ ag_upstream s' = ag_upstream s ∧ (always → ag_runs s' = ag_runs s)
  | (Err _, s') => settled s' ∧ (always → charged rows → False)
  | (Panic, _) => False
  end.
Proof.
  intros Ht Hh Hne [He Hs] Hi. unfold buffer_aggregate_chunk, sbind, slift, evaluate_aggregate_rows. cbn [for_each].
  rewrite (evaluate_chunk_rows subquery_rows group_by aggs cols tys group_plain aggs_plain chunk rs rows) by done. cbn [bind app]. by apply agg_buffer_rows_spec.
Qed.

Lemma buffer_chunks_spec src rs : delivers tys src rs → ∀ chunks rows d s, src = Ok <$> chunks → evaluates rs rows → buf_inv d s →
  match sfor chunks tt (λ _ chunk, buffer_aggregate_chunk subquery_rows grants run_io group_by aggs cols chunk) s with
  | (Ok _, s') => buf_inv (d ++ rows) s' ∧ ag_upstream s' = ag_upstream s ∧ (always → ag_runs s' = ag_runs s)
  | (Err _, s') => settled s' ∧ (always → charged rows → False)
  | (Panic, _) => False
  end.
Proof.
  induction 1 as [|chunk r0 src rest Ht Hne Hh _ IH]; intros chunks rows d s Hc He Hi.
  { symmetry in Hc. apply fmap_nil_inv in Hc as ->. destruct He as [He _]. apply Forall2_nil_inv_l in He as ->. by rewrite app_nil_r. }
  destruct chunks as [|c0 chunks]; [done|]. rewrite fmap_cons in Hc. injection Hc as <- Hc. apply evaluates_app_inv in He as (w1 & w2 & -> & He1 & He2).
  cbn [sfor]. unfold sbind. pose proof (buffer_chunk_spec chunk r0 w1 d s Ht Hh Hne He1 Hi) as Hs. unfold charged in *.
  destruct (buffer_aggregate_chunk _ _ _ _ _ _ chunk s) as [[[]|e|] s1]; [|destruct Hs as [? Hs]; split; [done|]; by intros Ha [? _]%Forall_app; apply Hs|done].
  destruct Hs as (Hi1 & Hup & Hruns). specialize (IH chunks w2 (d ++ w1) s1 Hc He2 Hi1). rewrite <- app_assoc in IH.
  destruct (sfor chunks tt _ s1) as [[[]|e|] s2]; [|destruct IH as [? IH]; split; [done|]; by intros Ha [_ ?]%Forall_app; apply IH|done].
  destruct IH as (Hi2 & Hup2 & Hruns2). split_and!; [done|congruence|]. intros Ha. rewrite Hruns2, Hruns by done. done.
Qed.

Lemma buffer_upstream_spec src rs : delivers tys src rs → ∀ rows d s, evaluates rs rows → buf_inv d s →
  match buffer_upstream subquery_rows grants run_io group_by aggs cols src s with
  | (Ok _, s') => buf_inv (d ++ rows) s' ∧ (always → ag_runs s' = ag_runs s)
  | (Err _, s') => settled s' ∧ (always → charged rows → False)
  | (Panic, _) => False
  end.
Proof.
  induction 1 as [|chunk r0 src rest Ht Hne Hh _ IH]; intros rows d s He Hi.
  { destruct He as [He _]. apply Forall2_nil_inv_l in He as ->. by rewrite app_nil_r. }
  apply evaluates_app_inv in He as (w1 & w2 & -> & He1 & He2). cbn [buffer_upstream]. unfold sbind at 1, sbind at 1. unfold charged in *.
  pose proof (buffer_chunk_spec chunk r0 w1 d (with_upstream src s) Ht Hh Hne He1 Hi) as Hs.
  destruct (buffer_aggregate_chunk _ _ _ _ _ _ chunk _) as [[[]|e|] s1]; [|destruct Hs as [? Hs]; split; [done|]; by intros Ha [? _]%Forall_app; apply Hs|done].
  destruct Hs as (Hi1 & _ & Hruns). specialize (IH w2 (d ++ w1) s1 He2 Hi1). rewrite <- app_assoc in IH.
  destruct (buffer_upstream _ _ _ _ _ _ src s1) as [[[]|e|] s2]; [|destruct IH as [? IH]; split; [done|]; by intros Ha [_ ?]%Forall_app; apply IH|done].
  destruct IH as (Hi2 & Hruns2). split_and!; [done|]. intros Ha. rewrite Hruns2, Hruns by done. done.
Qed.

(** ** Finishing *)

Hypothesis aggs_nonempty : aggs ≠ [].
Hypothesis kinds_length : length kinds = length group_by.
Hypothesis types_length : length output_types = (length group_by + length aggs)%nat.

Notation spec_row := (spec_row powi10 group_by aggs output_types).

Section Rows.
(** The rows of the whole input, and the keys of the result. *)
Context (rows : list AggregateInputRow) (ks : list (list Value)).
Hypothesis rows_spill : Forall spillable rows.
Hypothesis rows_few : zlen rows < 2 ^ 63.
Hypothesis rows_keys : result_keys group_by rows ks.
Hypothesis typed : ∀ k row, k ∈ ks → spec_row rows k = Ok row → Forall2 (λ v ty, matches_type v ty = true) row output_types.

Definition fails : Prop := ∃ e, collect (spec_row rows) ks = Err e.

(** What is left to deliver. *)
Definition agg_out (s : Aggregate) (todo : list (list Value)) : Prop :=
  match ag_output s with
  | Some (AggInMemory chunks) => held (ag_account s) = base ∧
      ∃ out, delivers output_types (Ok <$> chunks) out ∧ Forall2 (λ k row, spec_row rows k = Ok row) todo out
  | Some (AggExternal m) => ∃ L out, spilled rows L ∧ stably_sorted rec_cmp L out ∧ group_keys_of rows ks ∧ pending aggs kinds base out ks todo (agg_cursors m) (ag_account s)
  | None => False
  end.

Definition in_memory (s : Aggregate) : Prop := ∃ chunks, ag_output s = Some (AggInMemory chunks).

Lemma set_in_memory_spec s out : collect (spec_row rows) ks = Ok out →
  ∃ chunks, set_in_memory output_types out s = (Ok tt, with_output (AggInMemory chunks) s) ∧ delivers output_types (Ok <$> chunks) out.
Proof.
  intros Hc%collect_Ok. unfold set_in_memory, sbind, slift. destruct (build_output_chunks_spec output_types out) as (chunks & -> & Hd); [|by exists chunks].
  apply Forall_forall. intros row [i Hi]%list_elem_of_lookup. destruct (Forall2_lookup_r _ _ _ _ _ Hc Hi) as (k & Hk & Hrow). eapply typed; [|exact Hrow].
  by eapply list_elem_of_lookup_2.
Qed.

(** Every group at once. *)
Lemma deliver_all s (r : outcome (list (list Value))) : same_result r (collect (spec_row rows) ks) → settled s → held (ag_account s) = base →
  match (let+ out := slift r in set_in_memory output_types out) s with
  | (Ok _, s') => (∃ chunks, s' = with_output (AggInMemory chunks) s) ∧ agg_out s' ks
  | (Err _, s') => s' = s ∧ fails
  | (Panic, _) => False
  end.
Proof.
  intros Hr Hs Hh. unfold sbind, slift. destruct r as [out|e|], (collect (spec_row rows) ks) as [out'|e'|] eqn:Ec; simpl in Hr; try done.
  - subst out'. destruct (set_in_memory_spec s out Ec) as (chunks & -> & Hd). split; [by exists chunks|]. unfold agg_out. simpl. split; [done|]. exists out.
    split; [done|]. by apply collect_Ok.
  - split; [done|]. exists e'. done.
Qed.

Lemma open_runs_bytes {T} (files : list (list Z)) : cursors_bytes (T := T) (open_run <$> files) = 0.
Proof. induction files as [|f files IH]; [done|]. rewrite fmap_cons, cursors_bytes_cons, IH. done. Qed.

Lemma finish_aggregate_spec s : buf_inv rows s →
  match finish_aggregate powi10 run_io group_by aggs output_types s with
  | (Ok _, s') => agg_accounted s' ∧ agg_out (agg_taken s') ks ∧ (ag_runs s = [] → in_memory (agg_taken s'))
  | (Err _, s') => settled s' ∧ (ag_runs s = [] → fails)
  | (Panic, _) => False
  end.
Proof.
  intros Hi. pose proof Hi as ((D & recs & Hd & Hr & Hsp & Hnil) & Hok & [Ha Hf] & Hty). unfold finish_aggregate. destruct (ag_runs s) as [|file files] eqn:Er.
  - apply Forall2_nil_inv_l in Hr as ->. assert (D = []) as -> by (symmetry; apply (spilled_inputs _ _ _ _ Hsp)). cbn [app] in Hd.
    pose proof (spillable_goods _ _ _ rows_spill) as Hgood. rewrite Hd in Hgood.
    unfold sbind at 1, sort_rows_by. destruct (sort_groups aggs kinds (ag_rows s) Hgood) as (out & -> & Hs & _).
    unfold sbind at 1. rewrite take_charged_run by done. cbn [with_rows ag_rows]. set (s1 := agg_taken _).
    pose proof (aggregate_groups_spec powi10 group_by aggs output_types kinds kinds_length types_length rows out ks) as Hgr. rewrite <- Hd in Hgood, Hs. specialize (Hgr Hgood rows_few Hs rows_keys).
    assert (settled s1) as Hs1 by (split; [split; [split_and!; simpl; lia|done]|done]). assert (held (ag_account s1) = base) as Hh1 by (simpl; lia).
    pose proof (deliver_all s1 _ Hgr Hs1 Hh1) as Hdel. destruct ((let+ out0 := slift _ in set_in_memory output_types out0) s1) as [[[]|e|] s2]; [| |done].
    + destruct Hdel as [[chunks ->] Hout]. split_and!; [apply Hs1| |intros _; by exists chunks]. unfold agg_out in *. simpl in *. by rewrite Hty, Z.add_0_r in *.
    + destruct Hdel as [-> Hfail]. split; [done|]. by intros _.
  - assert (rows ≠ []) as Hne by (destruct Hnil as [?|Hnil]; [done|]; rewrite Hd; by intros [? _]%app_nil).
    assert (group_keys_of rows ks) as Hks by (unfold result_keys in rows_keys; destruct group_by; [|done]; by destruct rows).
    unfold sbind at 1. pose proof (spill_aggregate_spec rows s Hi) as Hs. destruct (spill_aggregate_run run_io aggs s) as [[[]|e|] s1]; [|by split|done].
    destruct Hs as (((D1 & recs1 & Hd1 & Hr1 & Hsp1 & _) & _ & [Ha1 Hf1] & Hty1) & Hrows & _). rewrite Hrows, app_nil_r in Hd1. subst D1.
    split_and!; [exact Ha1| |done]. unfold agg_out. cbn [agg_taken with_output ag_output ag_account agg_cursors].
    destruct (stable_sort_spec record_ok rec_cmp (concat recs1) compare_aggregate_records) as (out & _ & Hst); [apply Hsp1| |].
    { pose proof (spilled_ok _ _ _ _ Hsp1) as Hrec. rewrite Forall_forall in Hrec. intros x y Hx Hy. apply (record_compare aggs kinds); auto. }
    exists (concat recs1), out. split_and!; [done..|]. destruct Hst as (t & -> & Hst & Hp).
    apply (all_pending aggs kinds base rows (concat recs1) t.*2 ks) with t; [by apply spillable_goods|done|by exists t|done| |done].
    split; [|unfold held_by; simpl; rewrite open_runs_bytes; lia]. eapply runs_merging; [done|apply Hsp1|done|done].
Qed.

(** ** Buffering the whole input *)

(** The operator holds nothing and delivers nothing. *)
Definition failed (s : Aggregate) : Prop := held (ag_account s) = base ∧ ag_output s = None.

Lemma settled_taken s : settled s → failed (agg_taken s).
Proof. intros [[_ [Ho _]] Hty]. split; [simpl; lia|exact Ho]. Qed.

Lemma legacy_spec chunks r1 r2 s : delivers tys (Ok <$> chunks) r1 → delivers tys (ag_upstream s) r2 → evaluates (r1 ++ r2) rows → buf_inv [] s → ag_runs s = [] →
  match initialize_buffered_legacy powi10 subquery_rows grants run_io group_by aggs cols output_types chunks s with
  | (Ok _, s') => agg_out s' ks ∧ (always → charged rows → in_memory s')
  | (Err _, s') => failed s' ∧ (always → charged rows → fails)
  | (Panic, _) => False
  end.
Proof.
  intros H1 H2 He Hi Hruns0. unfold initialize_buffered_legacy. apply evaluates_app_inv in He as (w1 & w2 & Hw & He1 & He2).
  assert (∀ s', settled s' → (let+ _ := take_charged in sret tt) s' = (Ok tt, agg_taken s')) as Htake.
  { intros s' [[Ha _] _]. unfold sbind. by rewrite take_charged_run. }
  assert (∀ P : Prop, (always → charged w1 → P) → always → charged rows → P) as Hc1.
  { intros P HP Ha Hc. apply HP; [done|]. rewrite Hw in Hc. by apply Forall_app in Hc as [? _]. }
  assert (∀ P : Prop, (always → charged w2 → P) → always → charged rows → P) as Hc2.
  { intros P HP Ha Hc. apply HP; [done|]. rewrite Hw in Hc. by apply Forall_app in Hc as [_ ?]. }
  unfold sbind at 1. pose proof (buffer_chunks_spec _ r1 H1 chunks w1 [] s eq_refl He1 Hi) as Hb.
  destruct (sfor chunks tt _ s) as [[[]|e|] s1]; [|destruct Hb as [Hb Hno]; rewrite Htake by done; split; [by apply settled_taken|]; apply Hc1; intros; by destruct Hno|done].
  destruct Hb as (Hi1 & Hup & Hruns1). cbn [app] in Hi1. unfold sbind at 1. rewrite Hup.
  pose proof (buffer_upstream_spec _ r2 H2 w2 w1 s1 He2 Hi1) as Hb.
  destruct (buffer_upstream _ _ _ _ _ _ (ag_upstream s) s1) as [[[]|e|] s2]; [|destruct Hb as [Hb Hno]; rewrite Htake by done; split; [by apply settled_taken|]; apply Hc2; intros; by destruct Hno|done].
  destruct Hb as [Hi2 Hruns2]. rewrite <- Hw in Hi2. pose proof (finish_aggregate_spec s2 Hi2) as Hf.
  assert (always → ag_runs s2 = []) as Hnone by (intros Ha; rewrite Hruns2, Hruns1 by done; done).
  destruct (finish_aggregate powi10 run_io group_by aggs output_types s2) as [[[]|e|] s3]; [| |done].
  - destruct Hf as (Ha & Hout & Hmem). unfold sbind. rewrite take_charged_run by done. unfold sret. cbn [bind]. split; [done|]. intros Hal _. by apply Hmem, Hnone.
  - destruct Hf as [Hf Hfail]. rewrite Htake by done. cbn [bind]. split; [by apply settled_taken|]. intros Hal _. by apply Hfail, Hnone.
Qed.

(** ** Typed groups *)

(** What a row is charged at most. *)
Definition row_bytes : Z := BUFFERED_ROW_OVERHEAD_BYTES + 24 * (zlen group_by + zlen aggs).

(** The charges of a whole input of typed columns fit. *)
Definition typed_charges_fit : Prop := zlen rows * row_bytes < 2 ^ 64.

Lemma typed_row_charge layout chunk r : supports layout chunk = true → ∀ is_ base_, (∀ i, i ∈ is_ → i ∈ all_columns layout) → 0 ≤ base_ →
  match for_each is_ base_ (λ row_charge i,
      let! c := ok_or (column chunk i) (InvalidArgument "aggregate column {index} is out of range") in
      let! bytes := typed_value_charge c r in
      ok_or (try_u 64 (row_charge + bytes)) blocking_row_charge_overflow) with
  | Ok total => 0 ≤ total ≤ base_ + 24 * zlen is_
  | Err _ => 2 ^ 64 ≤ base_ + 24 * zlen is_
  | Panic => False
  end.
Proof.
  intros Hsup. induction is_ as [|i is_ IH]; intros base_ Hin Hb; cbn [for_each]; [unfold zlen; simpl; lia|].
  destruct (supports_column layout chunk i Hsup) as (c & -> & Hc); [apply Hin; left|]. cbn [ok_or bind].
  assert (∃ bytes, typed_value_charge c r = Ok bytes ∧ 0 ≤ bytes ≤ 24) as (bytes & -> & Hbytes).
  { destruct c; simpl in *; try done; eexists; (split; [done|]); try case_match; lia. }
  cbn [bind]. rewrite zlen_cons. pose proof (zlen_nonneg is_). destruct (try_u 64 _) as [next|] eqn:Hu; [apply try_u_Some in Hu as [-> _]|apply try_u_None in Hu]; cbn [ok_or bind].
  - specialize (IH (base_ + bytes) ltac:(intros; apply Hin; by right) ltac:(lia)). destruct (for_each is_ (base_ + bytes) _); [lia..|done].
  - unfold in_u in Hu. lia.
Qed.

Lemma typed_chunk_charge layout chunk : supports layout chunk = true → length (all_columns layout) = (length group_by + length aggs)%nat →
  match typed_aggregate_chunk_charge chunk layout with
  | Ok bytes => 0 ≤ bytes ≤ Z.of_nat (row_count chunk) * row_bytes
  | Err _ => 2 ^ 64 ≤ Z.of_nat (row_count chunk) * row_bytes
  | Panic => False
  end.
Proof.
  intros Hsup Hl. unfold typed_aggregate_chunk_charge. assert (0 ≤ row_bytes) as Hrb by (unfold row_bytes, BUFFERED_ROW_OVERHEAD_BYTES, zlen; lia).
  assert (∀ m k total, 0 ≤ total → match for_each (seq k m) total (λ total row,
    let! row_charge := for_each (all_columns layout) BUFFERED_ROW_OVERHEAD_BYTES (λ row_charge i,
      let! c := ok_or (column chunk i) (InvalidArgument "aggregate column {index} is out of range") in
      let! bytes := typed_value_charge c row in
      ok_or (try_u 64 (row_charge + bytes)) blocking_row_charge_overflow) in
    ok_or (try_u 64 (total + row_charge)) blocking_row_charge_overflow) with
    | Ok bytes => 0 ≤ bytes ≤ total + Z.of_nat m * row_bytes | Err _ => 2 ^ 64 ≤ total + Z.of_nat m * row_bytes | Panic => False end) as Hloop.
  { induction m as [|m IH]; intros k total Ht; cbn [seq for_each]; [lia|].
    pose proof (typed_row_charge layout chunk k Hsup (all_columns layout) BUFFERED_ROW_OVERHEAD_BYTES (λ _ Hi, Hi) ltac:(done)) as Hrow.
    assert (BUFFERED_ROW_OVERHEAD_BYTES + 24 * zlen (all_columns layout) = row_bytes) as Hrb' by (unfold row_bytes, zlen; lia). rewrite Hrb' in Hrow.
    assert (total + Z.of_nat (S m) * row_bytes = total + row_bytes + Z.of_nat m * row_bytes) as -> by lia. assert (0 ≤ Z.of_nat m * row_bytes) by lia.
    destruct (for_each (all_columns layout) _ _) as [charge|e|]; [|cbn [bind]; lia|done]. cbn [bind]. destruct (try_u 64 _) as [next|] eqn:Hu; [apply try_u_Some in Hu as [-> _]|apply try_u_None in Hu]; cbn [ok_or bind].
    - specialize (IH (S k) (total + charge) ltac:(lia)). destruct (for_each (seq (S k) m) _ _); [lia..|done].
    - unfold in_u in Hu. lia. }
  specialize (Hloop (row_count chunk) 0%nat 0 ltac:(lia)). by rewrite Z.add_0_l in Hloop.
Qed.

(** Nothing is buffered but typed groups. *)
Definition typing (s : Aggregate) : Prop := sound s ∧ ag_bytes s = 0 ∧ ag_rows s = [] ∧ ag_runs s = [].

Lemma typing_release s : typing s → ∃ a, release_typed s = (Ok tt, with_typed 0 (with_account a s)) ∧ typing (with_typed 0 (with_account a s)).
Proof.
  intros [[Ha Hf] [Hb Hr]]. rewrite release_typed_run by done. eexists. split; [done|]. split; [|done]. split; [|done]. destruct Ha as (? & ? & ?). split_and!; simpl; lia.
Qed.

Lemma typing_buffer s : typing s → ag_typed s = 0 → buf_inv [] s.
Proof.
  intros [Hs (Hb & Hr & Hruns)] Hty. split_and!; [|constructor|done|done]. exists [], []. rewrite Hr, Hruns. split_and!; [done|constructor|apply spilled_nil|by left].
Qed.

Lemma typing_settled s : typing s → ag_typed s = 0 → held (ag_account s) = base ∧ settled s.
Proof. intros [[Ha Hf] (Hb & _)] Hty. destruct Ha as (? & ? & ?). split; [lia|]. by split; [split|]. Qed.

Section Layout.
Context (layout : TypedAggregateLayout).
Hypothesis no_percentile : ∀ j f e, aggs !! j = Some (f, e) → f ≠ PercentileCont.
Hypothesis groups_are : Forall2 (is_column cols) group_by (group_columns layout).
Hypothesis aggs_are : Forall2 (λ fe, is_column cols fe.2) aggs (aggregate_columns layout).

Lemma columns_count : length (all_columns layout) = (length group_by + length aggs)%nat.
Proof using groups_are aggs_are. unfold all_columns. rewrite length_app, <- (Forall2_length _ _ _ groups_are), <- (Forall2_length _ _ _ aggs_are). done. Qed.

Lemma rows_shape w : Forall spillable w → Forall (λ ar, length (group_key ar) = length group_by ∧ length (input_values ar) = length aggs) w.
Proof.
  intros Hw. eapply Forall_impl; [exact Hw|]. intros r [Hi [Hk Hr]]. split; [rewrite (key_ok_length kinds _ Hk); done|]. unfold is_input, input_values in *.
  destruct (record r); [|done..]. apply Hr.
Qed.

(** *** Pulling the input into typed groups *)

Definition ready_rows (w : list AggregateInputRow) : Prop := ∀ j, Forall sum_ready (agg_column j w).

Lemma ready_app w w' : ready_rows (w ++ w') → ready_rows w ∧ ready_rows w'.
Proof.
  intros Hr. split; intros j; specialize (Hr j); unfold agg_column in *; rewrite omap_app in Hr; by apply Forall_app in Hr as [? ?].
Qed.

Lemma typed_upstream_spec src r2 : delivers tys src r2 → Forall (λ r, ∀ chunk, r = Ok chunk → chunk_wf chunk) src → ∀ consumed r1 w1 w2 grouped s,
  delivers tys (Ok <$> consumed) r1 → evaluates r2 w2 → ready_rows w2 → rows = w1 ++ w2 →
  typed_inv aggs w1 grouped → typing s → ag_upstream s = src → ag_typed s ≤ zlen w1 * row_bytes →
  match typed_upstream grants aggs layout src consumed grouped s with
  | (Ok (inl chunks), s') => typing s' ∧ ag_typed s' = 0 ∧
      ∃ r1' r2', r1 ++ r2 = r1' ++ r2' ∧ delivers tys (Ok <$> chunks) r1' ∧ delivers tys (ag_upstream s') r2'
  | (Ok (inr groups), s') => typing s' ∧ ag_typed s' = 0 ∧ ∃ lookup, typed_inv aggs rows (lookup, groups)
  | (Err _, s') => typing s' ∧ (always → typed_charges_fit → group_fails aggs rows)
  | (Panic, _) => False
  end.
Proof.
  assert (0 ≤ row_bytes) as Hrb by (unfold row_bytes, BUFFERED_ROW_OVERHEAD_BYTES, zlen; lia).
  induction 1 as [|chunk r0 src rest Ht Hne Hh Hdel IH]; intros Hwf consumed r1 w1 w2 grouped s Hcons He Hready Hrows Hinv Hty Hup Hle.
  { destruct He as [He _]. apply Forall2_nil_inv_l in He as ->. rewrite app_nil_r in Hrows. subst w1. cbn [typed_upstream]. unfold sbind.
    destruct (typing_release s Hty) as (a & -> & Hty'). unfold sret. split_and!; [done..|]. destruct grouped as [lookup groups]. by exists lookup. }
  apply Forall_cons in Hwf as [Hwf1 Hwf]. specialize (Hwf1 chunk eq_refl). apply evaluates_app_inv in He as (v & w2' & -> & He1 & He2). apply ready_app in Hready as [Hr1 Hr2].
  cbn [typed_upstream]. unfold sbind at 1. set (s1 := with_upstream src s). assert (typing s1) as Hty1 by done.
  assert (∀ s2, typing s2 → ag_upstream s2 = src → match (let+ _ := release_typed in sret (inl (B := list TypedGroup) (consumed ++ [chunk]))) s2 with
    | (Ok (inl chunks), s') => typing s' ∧ ag_typed s' = 0 ∧ ∃ r1' r2', r1 ++ r0 ++ rest = r1' ++ r2' ∧ delivers tys (Ok <$> chunks) r1' ∧ delivers tys (ag_upstream s') r2'
    | _ => False end) as Hfall.
  { intros s2 Hty2 Hup2. unfold sbind. destruct (typing_release s2 Hty2) as (a & -> & Hty'). unfold sret. split_and!; [done..|]. exists (r1 ++ r0), rest.
    rewrite <- app_assoc. split_and!; [done| |cbn [with_typed with_account ag_upstream]; by rewrite Hup2]. rewrite fmap_app. by apply delivers_snoc. }
  assert (∀ s2, typing s2 → ag_upstream s2 = src → match (let+ _ := release_typed in sret (inl (B := list TypedGroup) (consumed ++ [chunk]))) s2 with
    | (Ok (inl chunks), s') => typing s' ∧ ag_typed s' = 0 ∧ ∃ r1' r2', r1 ++ r0 ++ rest = r1' ++ r2' ∧ delivers tys (Ok <$> chunks) r1' ∧ delivers tys (ag_upstream s') r2'
    | (Ok (inr groups), s') => typing s' ∧ ag_typed s' = 0 ∧ ∃ lookup, typed_inv aggs rows (lookup, groups)
    | (Err _, s') => typing s' ∧ (always → typed_charges_fit → group_fails aggs rows)
    | (Panic, _) => False end) as Hfall'.
  { intros s2 Hty2 Hup2. specialize (Hfall s2 Hty2 Hup2). by destruct ((let+ _ := release_typed in _) s2) as [[[?|?]|?|] ?]. }
  clear Hfall. destruct (supports layout chunk) eqn:Hsup; cbn [negb]; [|by apply Hfall'].
  pose proof (typed_chunk_charge layout chunk Hsup columns_count) as Hcharge. pose proof Hh as (_ & Hcount & _). rewrite Hcount, (Forall2_length _ _ _ (proj1 He1)) in Hcharge.
  assert (zlen rows * row_bytes = zlen w1 * row_bytes + Z.of_nat (length v) * row_bytes + zlen w2' * row_bytes) as Htotal by (rewrite Hrows, !zlen_app; unfold zlen; lia).
  assert (0 ≤ zlen w1 * row_bytes ∧ 0 ≤ zlen w2' * row_bytes) as [? ?] by (unfold zlen; lia).
  unfold sbind at 1, slift at 1. destruct (typed_aggregate_chunk_charge chunk layout) as [bytes|e|]; [|split; [done|]; intros _ Hfit; exfalso; unfold typed_charges_fit in Hfit; lia|done].
  unfold sbind at 1, try_grow. unfold sbind at 1, slift at 1. cbn [ag_typed s1 with_upstream]. destruct (try_u 64 _) as [next|] eqn:Hu; [apply try_u_Some in Hu as [-> _]|apply try_u_None in Hu]; cbn [ok_or].
  2: { split; [done|]. intros _ Hfit. exfalso. unfold typed_charges_fit in Hfit. unfold in_u in Hu. destruct Hty as [[(_ & ? & _) _] _]. lia. }
  unfold sbind at 1, charging, charge_or_reclaim. destruct (grants _ bytes) eqn:Eg.
  2: { unfold sret. cbn [negb]. apply Hfall'; [|done]. destruct Hty1 as [[(? & ? & ?) ?] ?]. split; [split; [split_and!; simpl in *; lia|done]|done]. }
  cbn [negb]. set (s2 := with_typed _ _).
  assert (typing s2) as Hty2. { destruct Hty1 as [[(? & ? & ?) ?] ?]. split; [split; [split_and!; simpl in *; lia|done]|done]. }
  unfold sbind at 1, slift at 1.
  pose proof (append_chunk_spec group_by aggs cols tys no_percentile layout chunk r0 v w1 grouped groups_are aggs_are Hsup Ht Hh Hwf1 Hne (proj1 He1) Hr1 (rows_shape v (proj2 He1)) Hinv) as Happ.
  destruct (append_typed_aggregate_chunk aggs layout chunk grouped) as [grouped'|e|]; [| |done].
  - specialize (IH Hwf (consumed ++ [chunk]) (r1 ++ r0) (w1 ++ v) w2' grouped' s2). rewrite <- !app_assoc in IH. apply IH; [|done|done|done|done|done|done|].
    + rewrite fmap_app. by apply delivers_snoc.
    + cbn [s2 with_typed ag_typed]. rewrite zlen_app. unfold zlen in *. lia.
  - split; [done|]. intros _ _. rewrite Hrows, app_assoc. by apply group_fails_app.
Qed.
End Layout.

Lemma keyed_groups : group_by ≠ [] → group_keys_of rows ks.
Proof. intros Hg. unfold result_keys in rows_keys. by destruct group_by. Qed.

(** Releasing the typed charge touches nothing that is delivered. *)
Lemma release_output s : agg_accounted s → ag_bytes s = 0 → ∃ s', release_typed s = (Ok tt, s') ∧ held (ag_account s') = base ∧ ag_typed s' = 0 ∧
  ag_output s' = ag_output s ∧ ag_upstream s' = ag_upstream s ∧ (typing s → typing s').
Proof.
  intros Ha Hb. rewrite release_typed_run by done. eexists. split; [done|]. cbn [with_typed with_account ag_output ag_account ag_typed ag_upstream held].
  split_and!; [lia|done..|]. intros [[_ Hf] [_ Hr]]. split; [|done]. split; [|done]. split_and!; simpl; lia.
Qed.

Lemma typed_grouped_spec layout rs s : typed_grouped_layout group_by aggs cols = Ok (Some layout) →
  delivers tys (ag_upstream s) rs → Forall (λ r, ∀ chunk, r = Ok chunk → chunk_wf chunk) (ag_upstream s) → evaluates rs rows → ready_rows rows →
  typing s → ag_typed s = 0 →
  match initialize_typed_grouped powi10 grants group_by aggs output_types layout s with
  | (Ok None, s') => agg_out s' ks ∧ in_memory s'
  | (Ok (Some chunks), s') => typing s' ∧ ag_typed s' = 0 ∧ ∃ r1 r2, rs = r1 ++ r2 ∧ delivers tys (Ok <$> chunks) r1 ∧ delivers tys (ag_upstream s') r2
  | (Err _, s') => failed s' ∧ (always → typed_charges_fit → fails)
  | (Panic, _) => False
  end.
Proof.
  intros (Hg & Hgc & Hac & Hnp)%layout_spec Hd Hwf He Hready Hty H0'. unfold initialize_typed_grouped. pose proof (keyed_groups Hg) as Hks. pose proof (spillable_goods _ _ _ rows_spill) as Hgood.
  unfold sbind at 1. pose proof (typed_upstream_spec layout Hnp Hgc Hac _ rs Hd Hwf [] [] [] rows ([], []) s) as Hu.
  specialize (Hu ltac:(constructor) He Hready eq_refl (typed_inv_nil aggs) Hty eq_refl ltac:(rewrite H0'; unfold zlen; simpl; lia)).
  destruct (typed_upstream grants aggs layout (ag_upstream s) [] ([], []) s) as [[[chunks|groups]|e|] s1]; [| | |done].
  - destruct Hu as (Hty1 & H01 & r1 & r2 & Hr & Hd1 & Hd2). unfold sret. destruct (release_output s1) as (s2 & -> & _ & H02 & _ & Hup & Hkeep); [apply Hty1|apply Hty1|]. cbn [bind].
    split_and!; [by apply Hkeep|done|]. exists r1, r2. by rewrite Hup.
  - destruct Hu as (Hty1 & H01 & lookup & Hinv).
    pose proof (finish_typed_spec powi10 group_by aggs output_types kinds types_length rows (lookup, groups) ks Hgood Hinv Hks) as Hfin. cbn [snd] in Hfin.
    destruct (typing_settled s1 Hty1 H01) as [Hh1 Hs1]. pose proof (deliver_all s1 _ Hfin Hs1 Hh1) as Hdel. unfold sbind in Hdel |- *. unfold slift in Hdel |- *.
    destruct (finish_typed_groups powi10 group_by output_types groups) as [out|e|]; [|destruct Hdel as [_ Hfail]|done].
    + destruct (set_in_memory output_types out s1) as [[[]|e|] s2]; [|destruct Hdel as [-> Hfail]|done].
      * destruct Hdel as [[chunks ->] Hout]. unfold sret. destruct (release_output (with_output (AggInMemory chunks) s1)) as (s3 & -> & Hh3 & _ & Ho3 & _); [apply Hty1|apply Hty1|].
        cbn [bind]. unfold agg_out, in_memory in *. rewrite Ho3. simpl in Hout |- *. split; [|by exists chunks]. by destruct Hout as [_ ?].
      * destruct (release_output s1) as (s3 & -> & Hh3 & _ & Ho3 & _); [apply Hty1|apply Hty1|]. cbn [bind]. split; [|done]. split; [done|]. rewrite Ho3. apply Hs1.
    + destruct (release_output s1) as (s3 & -> & Hh3 & _ & Ho3 & _); [apply Hty1|apply Hty1|]. cbn [bind]. split; [|done]. split; [done|]. rewrite Ho3. apply Hs1.
  - destruct Hu as [Hty1 Hfail]. destruct (release_output s1) as (s3 & -> & Hh3 & _ & Ho3 & _); [apply Hty1|apply Hty1|]. cbn [bind]. split; [split; [done|]; rewrite Ho3; apply Hty1|].
    intros Ha Hfit. by apply (fails_spec powi10 group_by aggs output_types kinds types_length); [..|by apply Hfail|].
Qed.

(** ** Streaming *)

Lemma stream_spec src r2 : (∀ j f e, aggs !! j = Some (f, e) → f ≠ PercentileCont) → delivers tys src r2 → Forall (λ r, ∀ chunk, r = Ok chunk → chunk_wf chunk) src →
  ∀ w1 w2 states s, evaluates r2 w2 → ready_rows w2 → rows = w1 ++ w2 → states_hold aggs (λ _, w1) states → typing s → ag_typed s = 0 →
  match stream_upstream subquery_rows aggs cols src states s with
  | (Ok states', s') => states_hold aggs (λ _, rows) states' ∧ typing s' ∧ ag_typed s' = 0
  | (Err _, s') => states_fail aggs rows ∧ typing s' ∧ ag_typed s' = 0
  | (Panic, _) => False
  end.
Proof.
  intros Hnp. induction 1 as [|chunk r0 src rest Ht Hne Hh _ IH]; intros Hwf w1 w2 states s He Hready Hrows Hst Hty H0'.
  { destruct He as [He _]. apply Forall2_nil_inv_l in He as ->. rewrite app_nil_r in Hrows. by subst w1. }
  apply Forall_cons in Hwf as [Hwf1 Hwf]. specialize (Hwf1 chunk eq_refl). apply evaluates_app_inv in He as (v & w2' & -> & He1 & He2). apply ready_app in Hready as [Hr1 Hr2].
  cbn [stream_upstream]. unfold sbind at 1, sbind at 1, slift at 1.
  pose proof (streaming_chunk subquery_rows group_by aggs cols tys aggs_plain Hnp chunk r0 v w1 states Ht Hh Hwf1 Hne (proj1 He1) Hr1 Hst) as Hc.
  destruct (update_streaming_chunk subquery_rows aggs cols states chunk) as [states'|e|]; [| |done].
  - apply (IH Hwf (w1 ++ v) w2' states' (with_upstream src s)); [done..|by rewrite <- app_assoc|done|done|done].
  - split; [|done]. rewrite Hrows, app_assoc. by apply states_fail_app.
Qed.

Lemma keyless_result : group_by = [] → ks = [[]].
Proof.
  intros Hg. pose proof (keyless group_by aggs kinds kinds_length rows Hg (spillable_goods _ _ _ rows_spill)) as Hk. unfold result_keys in rows_keys. rewrite Hg in rows_keys.
  destruct rows as [|r w] eqn:E; [done|]. specialize (Hk ltac:(done)). rewrite <- E in *.
  apply (key_lt_unique kinds); [| |apply rows_keys|apply Hk]; [|intros k; rewrite (keys_exact _ _ rows_keys), (keys_exact _ _ Hk); done].
  apply Forall_forall. intros k Hin%(keys_exact _ _ rows_keys). apply list_elem_of_fmap in Hin as (r' & -> & Hr'). pose proof (spillable_goods _ _ _ rows_spill) as Hgood.
  rewrite Forall_forall in Hgood. by apply Hgood.
Qed.

Lemma streaming_spec rs s : group_by = [] → forallb (λ '(function, _), has_constant_aggregate_state function) aggs = true →
  delivers tys (ag_upstream s) rs → Forall (λ r, ∀ chunk, r = Ok chunk → chunk_wf chunk) (ag_upstream s) → evaluates rs rows → ready_rows rows →
  typing s → ag_typed s = 0 →
  match initialize_streaming powi10 subquery_rows aggs cols output_types s with
  | (Ok _, s') => agg_out s' ks ∧ in_memory s'
  | (Err _, s') => failed s' ∧ fails
  | (Panic, _) => False
  end.
Proof.
  intros Hg Hconst Hd Hwf He Hready Hty H0'. assert (∀ j f e, aggs !! j = Some (f, e) → f ≠ PercentileCont) as Hnp.
  { intros j f e Hj ->. rewrite forallb_forall in Hconst. by specialize (Hconst (PercentileCont, e) ltac:(by eapply list_elem_of_In, list_elem_of_lookup_2)). }
  pose proof (spillable_goods _ _ _ rows_spill) as Hgood. unfold initialize_streaming, sbind at 1.
  pose proof (stream_spec (ag_upstream s) rs Hnp Hd Hwf [] rows (initial_aggregate_states aggs) s He Hready eq_refl) as Hs.
  specialize (Hs ltac:(by apply initial_states_hold) Hty H0'). destruct (stream_upstream _ _ _ _ _ s) as [[states|e|] s1]; [| |done].
  - destruct Hs as (Hst & Hty1 & H01). destruct (typing_settled s1 Hty1 H01) as [Hh1 Hs1].
    pose proof (finish_streaming_spec powi10 group_by aggs output_types kinds kinds_length types_length rows states Hg Hgood Hst) as Hfin.
    pose proof (deliver_all s1 (let! row := finish_aggregate_states powi10 states output_types in Ok [row])) as Hdel. rewrite keyless_result in Hdel by done. cbn [collect] in Hdel.
    specialize (Hdel ltac:(by apply same_result_bind) Hs1 Hh1). unfold sbind, slift in Hdel |- *. rewrite keyless_result by done.
    destruct (finish_aggregate_states powi10 states output_types) as [row|e|]; cbn [bind] in Hdel; [| |done].
    + destruct (set_in_memory output_types [row] s1) as [[[]|e|] s2]; [|destruct Hdel as [-> ?]; split; [by split; [|apply Hs1]|done]|done].
      destruct Hdel as [[chunks ->] Hout]. split; [done|by exists chunks].
    + destruct Hdel as [_ ?]. split; [by split; [|apply Hs1]|done].
  - destruct Hs as (Hst & Hty1 & H01). destruct (typing_settled s1 Hty1 H01) as [Hh1 Hs1]. split; [by split; [|apply Hs1]|]. unfold fails. rewrite keyless_result by done.
    destruct (streaming_fails powi10 group_by aggs output_types kinds kinds_length types_length rows Hg Hgood Hst) as [e' E]. cbn [collect]. rewrite E. by eexists.
Qed.

(** ** Initialization *)

(** Nothing is refused: neither a request nor a charge too large to count. *)
Definition unhindered : Prop := always ∧ charged rows ∧ typed_charges_fit ∧ is_ok (typed_grouped_layout group_by aggs cols) = true.

Lemma agg_initialize_spec rs s : delivers tys (ag_upstream s) rs → Forall (λ r, ∀ chunk, r = Ok chunk → chunk_wf chunk) (ag_upstream s) → evaluates rs rows → ready_rows rows →
  typing s → ag_typed s = 0 →
  match initialize_aggregate powi10 subquery_rows grants run_io group_by aggs cols output_types s with
  | (Ok _, s') => agg_out s' ks ∧ (unhindered → in_memory s')
  | (Err _, s') => failed s' ∧ (unhindered → fails)
  | (Panic, _) => False
  end.
Proof.
  intros Hd Hwf He Hready Hty H0'. unfold initialize_aggregate. destruct (bool_decide (group_by = []) && _) eqn:Es.
  { apply andb_true_iff in Es as [Hg%bool_decide_eq_true Hc]. pose proof (streaming_spec rs s Hg Hc Hd Hwf He Hready Hty H0') as Hs.
    destruct (initialize_streaming _ _ _ _ _ s) as [[[]|e|] s']; [|destruct Hs; by split|done]. destruct Hs as [? ?]. by split. }
  unfold initialize_buffered, sbind at 1, slift. destruct (typed_grouped_layout group_by aggs cols) as [[layout|]|e|] eqn:El.
  - unfold sbind. pose proof (typed_grouped_spec layout rs s El Hd Hwf He Hready Hty H0') as Hs.
    destruct (initialize_typed_grouped _ _ _ _ _ layout s) as [[[chunks|]|e|] s1]; [| | |done].
    + destruct Hs as (Hty1 & H01 & r1 & r2 & -> & Hd1 & Hd2). pose proof (legacy_spec chunks r1 r2 s1 Hd1 Hd2 He (typing_buffer s1 Hty1 H01) ltac:(apply Hty1)) as Hl.
      destruct (initialize_buffered_legacy _ _ _ _ _ _ _ _ chunks s1) as [[[]|e|] s2]; [| |done]; destruct Hl as [? Hl]; (split; [done|]); intros (Ha & Hc & _); by apply Hl.
    + unfold sret. destruct Hs. by split.
    + destruct Hs as [? Hs]. split; [done|]. intros (Ha & _ & Hfit & _). by apply Hs.
  - pose proof (legacy_spec [] [] rs s ltac:(constructor) Hd He (typing_buffer s Hty H0') ltac:(apply Hty)) as Hl.
    destruct (initialize_buffered_legacy _ _ _ _ _ _ _ _ [] s) as [[[]|e|] s2]; [| |done]; destruct Hl as [? Hl]; (split; [done|]); intros (Ha & Hc & _); by apply Hl.
  - destruct (typing_settled s Hty H0') as [Hh Hs]. split; [split; [done|apply Hs]|]. unfold unhindered. rewrite El. by intros (_ & _ & _ & ?).
  - exfalso. revert El. clear. unfold typed_grouped_layout. assert (∀ es : list (Expr Operator), direct_expression_columns cols es ≠ Panic) as Hnp.
    { induction es as [|e es IH]; [done|]. destruct e; try done. cbn [direct_expression_columns]. intros [Hp|(i & _ & [Hp|(? & _ & ?)]%bind_Panic)]%bind_Panic; [by apply ok_or_no_panic in Hp|by apply IH in Hp|done]. }
    destruct (_ || _); [done|]. intros [Hp|([gs|] & _ & Hp)]%bind_Panic; [by apply Hnp in Hp| |done]. apply bind_Panic in Hp as [Hp|(? & _ & ?)]; [by apply Hnp in Hp|done].
Qed.

(** ** Delivering *)

Notation aggregate_next := (aggregate_next powi10 subquery_rows grants run_io group_by aggs cols output_types).

(** Nothing is held but what dropping the operator releases. *)
Definition agg_drop (s : Aggregate) : Prop :=
  match ag_output s with
  | Some (AggExternal m) => droppable (agg_cursors m) ∧ held_by base (agg_cursors m) (ag_account s)
  | _ => held (ag_account s) = base
  end.

Lemma agg_out_drop s todo : agg_out s todo → agg_drop s.
Proof.
  unfold agg_out, agg_drop. destruct (ag_output s) as [[chunks|m]|]; [by intros [? _]| |done].
  intros (L & out & _ & _ & _ & done_ & st & _ & Hr & _). by eapply remaining_droppable.
Qed.

Lemma drop_aggregate_spec s : agg_drop s → ∃ s', drop_aggregate s = (Ok tt, s') ∧ held (ag_account s') = base.
Proof.
  unfold agg_drop, drop_aggregate, charging. destruct (ag_output s) as [[chunks|m]|]; [by exists s| |by exists s].
  intros [Hd Hh]. destruct (drop_all base base_ok (agg_cursors m) (ag_account s) Hd Hh) as (a' & -> & ?). by exists (with_account a' s).
Qed.

Lemma aggregate_next_out s : ag_output s ≠ None → aggregate_next s = aggregate_output powi10 grants group_by aggs output_types s.
Proof. intros Ho. unfold AggregateOp.aggregate_next. rewrite types_length, Nat.eqb_refl. cbn [negb]. by destruct (ag_output s). Qed.

Lemma agg_trace fuel : ∀ s todo, agg_out s todo → (length todo < fuel)%nat →
  let '(res, s') := trace_end aggregate_next fuel s in delivers_spec output_types res (spec_row rows <$> todo) ∧ agg_drop s'.
Proof.
  induction fuel as [|fuel IH]; intros s todo Ho Hf; [lia|]. cbn [trace_end]. pose proof (agg_out_drop s todo Ho) as Hdrop.
  rewrite aggregate_next_out by (unfold agg_out in Ho; by destruct (ag_output s)). unfold aggregate_output. pose proof Ho as Ho'. revert Ho'. unfold agg_out.
  assert (∀ ks1 out1, Forall2 (λ k row, spec_row rows k = Ok row) ks1 out1 → spec_row rows <$> ks1 = Ok <$> out1) as Hspec.
  { induction 1 as [|k row ks1 out1 Hk _ IHk]; [done|]. rewrite !fmap_cons, Hk, IHk. done. }
  destruct (ag_output s) as [[[|chunk chunks]|m]|] eqn:Eo; [| | |done].
  - intros (_ & out & Hd & Hrows). inversion Hd; subst. apply Forall2_nil_inv_r in Hrows as ->. split; [constructor|done].
  - intros (Hh & out & Hd & Hrows). rewrite fmap_cons in Hd. inversion Hd as [|chunk' r0 src0 rest0 Ht Hne Hc Hd' E1 E2]. subst chunk' src0 out.
    apply Forall2_app_inv_r in Hrows as (k1 & k2 & Hk1 & Hk2 & ->). rewrite length_app in Hf.
    assert (0 < length k1)%nat by (rewrite (Forall2_length _ _ _ Hk1); destruct r0; [done|simpl; lia]).
    specialize (IH (with_output (AggInMemory chunks) s) k2). specialize (IH ltac:(split; [done|]; by exists rest0) ltac:(lia)).
    destruct (trace_end _ fuel _) as [res s']. destruct IH as [IH ?]. split; [|done]. rewrite fmap_app, (Hspec k1 r0 Hk1). by constructor.
  - intros (L & out & Hsp & Hst & Hks & Hp).
    pose proof (agg_merge_spec powi10 grants group_by aggs output_types kinds base base_ok aggs_few aggs_nonempty kinds_length types_length rows L out ks
      (spillable_goods _ _ _ rows_spill) Hsp Hst Hks typed todo (agg_cursors m) (ag_account s) Hp) as Hm.
    destruct (agg_merge_next_chunk _ _ _ _ _ _) as [[[chunk|]|e|] [cs a]]; [| |split; [constructor|done]|done].
    + destruct Hm as (more & k1 & k2 & -> & Hne & Hk1 & Ht & Hh & Hp'). rewrite length_app in Hf.
      assert (0 < length k1)%nat by (rewrite (Forall2_length _ _ _ Hk1); destruct more; [done|simpl; lia]).
      specialize (IH (with_output (AggExternal (mkAggMerge cs)) (with_account a s)) k2). specialize (IH ltac:(by exists L, out) ltac:(lia)).
      destruct (trace_end _ fuel _) as [res s']. destruct IH as [IH ?]. split; [|done]. rewrite fmap_app, (Hspec k1 more Hk1). by constructor.
    + destruct Hm as [-> Hp']. split; [constructor|]. apply (agg_out_drop _ []). by exists L, out.
Qed.

Lemma agg_memory_trace chunks : ∀ s fuel, ag_output s = Some (AggInMemory chunks) → (length chunks < fuel)%nat →
  (trace_end aggregate_next fuel s).1 = Ok <$> chunks.
Proof.
  induction chunks as [|chunk chunks IH]; intros s [|fuel] Ho Hf; simpl in Hf; try lia; cbn [trace_end];
    rewrite aggregate_next_out by (by rewrite Ho); unfold aggregate_output; rewrite Ho; [done|].
  specialize (IH (with_output (AggInMemory chunks) s) fuel eq_refl ltac:(lia)). destruct (trace_end _ fuel _). simpl in *. by rewrite IH.
Qed.

(** The first call initializes and then delivers. *)
Lemma agg_first_call s s' fuel :
  agg_fresh s → initialize_aggregate powi10 subquery_rows grants run_io group_by aggs cols output_types s = (Ok tt, s') → ag_output s' ≠ None →
  trace_end aggregate_next (S fuel) s = trace_end aggregate_next (S fuel) s'.
Proof.
  intros [Ho He] Hi Ho'. cbn [trace_end]. assert (aggregate_next s = aggregate_next s') as ->; [|done].
  rewrite (aggregate_next_out s' Ho'). unfold AggregateOp.aggregate_next. rewrite types_length, Nat.eqb_refl, Ho, He, Hi. done.
Qed.
End Rows.

(** C11: the aggregation delivers one row for every distinct key, in the order of
    the keys, each aggregate computed from that group's values alone and in
    input order ([percentile_cont] is the median).  This holds on each of its
    paths (streamed without keys, grouped by typed keys, buffered and sorted,
    spilled to runs and merged), whatever the budget answers and however the
    input was chunked: what it delivers before an error is a prefix of the right
    answer, and it never gets past a group whose aggregates fail.  It never
    panics, dropping it returns every byte it was granted, and when no request is
    refused it delivers every group unless one of them fails. *)
Theorem aggregate_refines src rs rows n :
  delivers tys src rs → Forall (λ r, ∀ chunk, r = Ok chunk → chunk_wf chunk) src → Forall2 (λ row ar, agg_row group_by aggs cols tys row = Ok ar) rs rows →
  Forall spillable rows → (∀ j, Forall sum_ready (agg_column j rows)) → zlen rows < 2 ^ 63 →
  (∀ ks k row, result_keys group_by rows ks → k ∈ ks → spec_row rows k = Ok row → Forall2 (λ v ty, matches_type v ty = true) row output_types) →
  ∃ ks, result_keys group_by rows ks ∧
    let '(res, s) := trace_end (aggregate_next powi10 subquery_rows grants run_io group_by aggs cols output_types) (S (length ks)) (aggregate_new src (mkAccount n base)) in
    delivers_spec output_types res (spec_row rows <$> ks) ∧
    (∃ s', drop_aggregate s = (Ok tt, s') ∧ held (ag_account s') = base) ∧
    (unhindered rows → ∀ out, collect (spec_row rows) ks = Ok out → delivers output_types res out).
Proof.
  intros Hd Hwf Hev Hspill Hready Hfew Htyped. destruct (result_keys_exist group_by aggs kinds rows (spillable_goods _ _ _ Hspill)) as [ks Hks].
  exists ks. split; [done|]. set (s0 := aggregate_new src (mkAccount n base)). assert (agg_fresh s0) as Hf by done.
  assert (typing s0) as Hty by (split; [split; [split_and!; simpl; lia|done]|done]). assert (∀ k row, k ∈ ks → spec_row rows k = Ok row → Forall2 (λ v ty, matches_type v ty = true) row output_types) as Htk by eauto.
  pose proof (agg_initialize_spec rows ks Hspill Hfew Hks Htk rs s0 Hd Hwf (conj Hev Hspill) Hready Hty eq_refl) as Hi.
  destruct (initialize_aggregate _ _ _ _ _ _ _ _ s0) as [[[]|e|] s1] eqn:Ei; [| |done].
  - destruct Hi as [Hout Hmem]. assert (ag_output s1 ≠ None) as Hne by (unfold agg_out in Hout; by destruct (ag_output s1)).
    rewrite (agg_first_call s0 s1 (length ks) Hf Ei Hne). pose proof (agg_trace rows ks Hspill Htk (S (length ks)) s1 ks Hout ltac:(lia)) as Ht.
    destruct (trace_end _ (S (length ks)) s1) as [res s] eqn:Et. destruct Ht as [Hdf Hdrop]. split_and!; [done|by apply drop_aggregate_spec|].
    intros Hun out Hc%collect_Ok. destruct (Hmem Hun) as (chunks & Ho). unfold agg_out in Hout. rewrite Ho in Hout. destruct Hout as (_ & out' & Hd' & Hrows).
    assert (out' = out) as ->.
    { clear -Hc Hrows. revert out Hc. induction Hrows as [|k row ks1 out1 Hk _ IH]; intros out Hc; [by apply Forall2_nil_inv_l in Hc as ->|].
      apply Forall2_cons_inv_l in Hc as (row' & out2 & Hk' & Hc & ->). f_equal; [congruence|by apply IH]. }
    pose proof (agg_memory_trace chunks s1 (S (length ks)) Ho) as Hm. rewrite Et in Hm. apply delivers_length in Hd' as Hll. rewrite length_fmap in Hll.
    rewrite <- (Forall2_length _ _ _ Hrows) in Hll. simpl in Hm. rewrite Hm by lia. done.
  - destruct Hi as [[Hh Ho] Hfail]. cbn [trace_end]. unfold aggregate_next at 1. rewrite types_length, Nat.eqb_refl. cbn [negb]. rewrite (proj1 Hf), (proj2 Hf), Ei.
    split_and!; [constructor| |intros Hun out Hc; destruct (Hfail Hun) as [e' Hc']; by rewrite Hc in Hc']. apply drop_aggregate_spec. unfold agg_drop. simpl. by rewrite Ho.
Qed.
End AggregateSpec.

(** An order of equal elements that [sort_unstable_by] may choose. *)
Fixpoint insert_by {T} (cmp : T → T → comparison) (x : T) (l : list T) : list T :=
  match l with
  | [] => [x]
  | y :: l => if bool_decide (cmp x y = Gt) then y :: insert_by cmp x l else x :: y :: l
  end.

Lemma insert_by_perm {T} (cmp : T → T → comparison) x l : insert_by cmp x l ≡ₚ x :: l.
Proof. induction l as [|y l IH]; [done|]. cbn [insert_by]. case_bool_decide; [|done]. rewrite IH. apply Permutation_swap. Qed.

Lemma insert_by_sorted {T} (P : T → Prop) (cmp : T → T → comparison) `{!TotalCompare P cmp} x l : P x → Forall P l →
  StronglySorted (λ x y, cmp x y ≠ Gt) l → StronglySorted (λ x y, cmp x y ≠ Gt) (insert_by cmp x l).
Proof.
  intros Hx Hl. induction 1 as [|y l Hs IH Hy]; [by repeat constructor|]. apply Forall_cons in Hl as [Hpy Hl]. cbn [insert_by]. case_bool_decide as E.
  - constructor; [by apply IH|]. rewrite insert_by_perm. constructor; [|done]. rewrite (cmp_antisym (P := P) (c := cmp) x y) by done. by rewrite E.
  - constructor; [by constructor|]. constructor; [done|]. rewrite Forall_forall in Hy. rewrite Forall_forall in Hl. apply Forall_forall. intros z Hz.
    apply (cmp_trans (P := P) (c := cmp) x y z); auto.
Qed.

#[export] Instance insertion_sort : SortUnstable.
Proof.
  refine {| sort_unstable_by T cmp l := foldr (insert_by cmp) [] l |}.
  - intros T cmp l. induction l as [|x l IH]; [done|]. cbn [foldr]. by rewrite insert_by_perm, IH.
  - intros T P cmp Hc l Hl. induction Hl as [|x l Hx Hl IH]; [constructor|]. cbn [foldr]. apply (insert_by_sorted P cmp); [done| |done].
    clear IH. induction Hl as [|y l Hy _ IHl]; [constructor|]. cbn [foldr]. rewrite insert_by_perm. by constructor.
Defined.

(** The rows (1, 1.0) (2, 4.0) (1, 3.0) grouped by the first column, with the
    median and the count of the second; the third charge is refused: the first
    two rows are spilled and merged back with the last. *)
Definition group_columns_map : gmap (list Z) nat := {[ [107] := 0%nat; [118] := 1%nat ]}.
Definition group_exprs : list (Expr Empty_set) := [Col [107]].
Definition group_aggs : list (AggregateFunction * Expr Empty_set) := [(PercentileCont, Col [118]); (Count, Col [118])].
Definition group_output : list LogicalType := [TInt64; TDecimal 10 1; TInt64].
Definition group_source : source :=
  [Ok (mkChunk [TInt64; TDecimal 10 1] [CInt64 [1; 2; 1] None; CDecimal [10; 40; 30] 1 None] 3)].
Definition group_rows : list (list Value) :=
  (λ '(k, v), [Int64 k; Decimal (mkDecimal v 1)]) <$> [(1, 10); (2, 40); (1, 30)].
Definition group_input : list AggregateInputRow :=
  (λ '(k, v), mkAggRow [Int64 k] (Input [Decimal (mkDecimal v 1); Decimal (mkDecimal v 1)])) <$> [(1, 10); (2, 40); (1, 30)].

Lemma group_source_delivers : delivers [TInt64; TDecimal 10 1] group_source group_rows.
Proof.
  apply (delivers_cons _ _ group_rows _ []); [done|done| |constructor]. split_and!; try done; [vm_compute; lia|].
  intros [|[|[|j]]] row Hj; try done; injection Hj as <-; (split; [by repeat constructor|]); intros [|[|i]] v Hi; try done; by injection Hi as <-.
Qed.

Lemma group_input_spills : Forall (spillable group_aggs [KInt]) group_input.
Proof.
  repeat (apply Forall_cons; split); [..|apply Forall_nil, I]; (split; [done|]); (split; [split; [constructor; [by right|constructor]|by repeat constructor]|]);
    (split; [done|]); repeat (apply Forall_cons; split); try (apply Forall_nil, I); (split; [split; [by vm_compute|by vm_compute]|done]).
Qed.

Lemma group_input_keys ks : result_keys group_exprs group_input ks → ks = [[Int64 1]; [Int64 2]].
Proof.
  intros Hk. assert (∀ k, k ∈ ks ↔ k ∈ [[Int64 1]; [Int64 2]]) as Hin by (intros k; rewrite (keys_exact _ _ Hk); cbn; set_solver).
  apply (key_lt_unique [KInt]); [|exact Hin|apply Hk|by repeat constructor]. apply Forall_forall. intros k Hk'%Hin. rewrite !elem_of_cons, elem_of_nil in Hk'.
  destruct Hk' as [-> |[-> |[]]]; (split; [constructor; [by right|constructor]|by repeat constructor]).
Qed.

Lemma aggregate_refines_witness :
  let '(res, s) := trace_end (aggregate_next (λ _, 0) (λ _ _ _, Panic) refuse_third (λ _, Ok tt) group_exprs group_aggs group_columns_map group_output)
    3 (aggregate_new group_source (mkAccount 0 100)) in
  delivers_spec group_output res (spec_row (λ _, 0) group_exprs group_aggs group_output group_input <$> [[Int64 1]; [Int64 2]]) ∧ length (ag_runs s) = 4%nat ∧
  collect (λ r, let! chunk := r in rows chunk) res = Ok [[[Int64 1; Decimal (mkDecimal 20 1); Int64 2]; [Int64 2; Decimal (mkDecimal 40 1); Int64 1]]].
Proof.
  destruct (aggregate_refines (λ _, 0) (λ _ _ _, Panic) refuse_third (λ _, Ok tt) group_exprs group_aggs group_columns_map group_output [TInt64; TDecimal 10 1] [KInt] 100
    ltac:(done) ltac:(done) ltac:(by vm_compute) ltac:(done) ltac:(done) ltac:(done) ltac:(done) ltac:(done) group_source group_rows group_input 0) as (ks & Hk & Ht).
  - exact group_source_delivers.
  - apply Forall_cons. split; [|constructor]. intros chunk [= <-]. by repeat constructor.
  - repeat constructor; vm_compute; reflexivity.
  - exact group_input_spills.
  - intros [|[|j]]; repeat (apply Forall_cons; split); try (apply Forall_nil, I); vm_compute; discriminate.
  - vm_compute. reflexivity.
  - intros ks k row Hks Hk%(keys_exact _ _ Hks) Hrow. apply list_elem_of_In in Hk. vm_compute in Hk. destruct Hk as [<-|[<-|[<-|[]]]]; vm_compute in Hrow; injection Hrow as <-; by repeat constructor.
  - apply group_input_keys in Hk as ->. change (S (length [[Int64 1]; [Int64 2]])) with 3%nat in Ht.
    assert (let '(res, s) := trace_end (aggregate_next (λ _, 0) (λ _ _ _, Panic) refuse_third (λ _, Ok tt) group_exprs group_aggs group_columns_map group_output)
      3 (aggregate_new group_source (mkAccount 0 100)) in
      length (ag_runs s) = 4%nat ∧ collect (λ r, let! chunk := r in rows chunk) res =
        Ok [[[Int64 1; Decimal (mkDecimal 20 1); Int64 2]; [Int64 2; Decimal (mkDecimal 40 1); Int64 1]]]) as Hc by (vm_compute; split; reflexivity).
    destruct (trace_end _ 3 _) as [res s]. destruct Ht as [Ht _]. split; [exact Ht|exact Hc].
Defined.
